(* ===== verification/_CoqProject ===== *)
-Q . S2P
Prelude.v
Text.v
Bus.v
EventLog.v
Delivery.v
Worker.v
Eventctl.v
Retention.v
EventPlane.v
PlaneInvariant.v
PlaneSafety.v
OpsApi.v
Gateway.v
KeyCache.v
Pg.v
Purge.v
Prune.v
Txn.v
Wallet.v
WalletSafety.v
WalletContract.v
HttpEdge.v
Storage.v
StorageContract.v
StoragePaging.v
Directory.v
Friends.v
FriendsSafety.v
FriendsContract.v
Edge.v
EdgeContract.v
Remote.v
RemoteContract.v
PlayerPlane.v
PlayerSafety.v
Party.v
PartyActs.v
PartySafety.v
PartyContract.v
Wiring.v
Boot.v
BootContract.v
WiringContract.v
Groups.v
GroupsActs.v
GroupsSafety.v
GroupsContract.v
GroupsSweep.v
Accounts.v
AccountsActs.v
AccountsSafety.v
AccountsContract.v
AccountsService.v
AccountsOutcome.v
Scheduler.v
SchedulerSafety.v
Mail.v
MailSafety.v
MailContract.v
MailOutcome.v
Notifications.v
NotificationsContract.v
NotificationsOutcome.v
Characters.v
CharactersContract.v
Inventory.v
InventoryContract.v
CharacterHoldings.v
Matches.v
MatchesContract.v
Config.v
ConfigContract.v
