(* ===== verification/Prelude.v ===== *)
(** * Swarog: a verification development of the backend

    Swarog is a modular game backend.  A process boots a set of modules (accounts,
    wallet, friends, ...) that know each other only through a registry of capabilities
    and through events; several processes share one PostgreSQL database and call each
    other over an internal transport; players reach them through a gateway.  This
    library models the code that decides what the system promises, as executable
    definitions, and proves the promises.

    ** The parts, how they interact, and where they are

    The durable event plane ([core/asyncevents], [tools/eventctl]).  A module appends an
    event to a shared log in its own transaction; subscriptions of other modules receive
    the log in order, each at its own checkpoint, in a transaction that commits with the
    handler's effects.
    - [Bus]: the vocabulary of [core/bus], and its in-process publish/subscribe.
    - [EventLog]: the tables and statements of [store.rs], ordered by transaction id.
    - [Delivery], [Worker]: [worker.rs], [catalog.rs], [transport.rs]: one attempt, its
      failure states, registration; what an undisturbed pass does.
    - [Eventctl]: the operator verbs.  [Retention]: the collection of [retention.rs].
    - [EventPlane]: all actors of the plane as one transition system ([exec]);
      [PlaneInvariant] its inductive invariant, [PlaneSafety] the theorems.

    The front door ([modules/gateway], [core/opsapi], [core/httpmw]).
    - [OpsApi]: operations, path patterns, binding of arguments.
    - [Gateway]: the route table and the admission of a call ([lib.rs], [backend.rs],
      [verifier.rs]); [KeyCache]: the cache of API-key lookups ([keys.rs]);
      [HttpEdge]: the reverse proxy, the client's address and the rate limiter.

    The internal transport ([core/edge], [core/remote]).
    - [Edge], [EdgeContract]: frames, envelopes, server dispatch, one call.
    - [Remote], [RemoteContract]: reconnection, the pool of instances, failover.
    - [PlayerPlane], [PlayerSafety]: the listener players connect to ([player.rs]).

    Boot and wiring ([core/registry], [core/contrib], [core/lifecycle], [core/app]).
    - [Wiring], [WiringContract]: registry and slots; when a set of modules wires up.
    - [Boot], [BootContract]: the boot sequence and its unwinding.

    What the modules share.
    - [Text]: Rust's [str] and integer parsing.  [Pg]: the server's value semantics.
    - [Txn]: a task's statements among the transactions of others, and a logic for
      them: a module names the causes a change of its tables can have ([Causes]), and
      [tri] proves that a task changes them by the causes it is entitled to.
    - [Purge], [Prune]: the batched sweeps of deleted players and of old rows, written
      once over a class ([Sweep], [SweepLaws]) or over the module's table.
    - [Directory]: what the social modules take from accounts.

    The modules, each as its tables, statements, operations and handlers (the file with
    the module's name), the invariant and safety theorems ([..Acts], [..Safety]), the
    refinement by its operations ([..Contract], [..Service]) and outcomes ([..Outcome]):
    [Wallet], [Storage] (with [StoragePaging]), [Friends], [Party], [Groups] (with
    [GroupsSweep]), [Accounts], [Scheduler], [Mail], [Notifications], [Characters],
    [Inventory], [Matches] (the modules match, rating and leaderboard), [Config].  They
    model [modules/<name>/src]: [store.rs] as the statements, [service.rs] as the
    operations, [projection.rs] as the handlers, [lib.rs] as tables and constraints.
    - [CharacterHoldings]: characters and inventory together, joined by their events.
    - [ConfigContract]: the store of settings with the caches of all processes, its own
      and those of peers ([api/config/rpc]).

    ** How code is read

    Rust's [Result] is [result] below; a statement or operation that changes state is
    [ST S E A], a function from a state to a state and a result, with the source's [?]
    as bind.  A table is a finite map by its primary key, its checks are errors of the
    statement; a string is its bytes; a machine integer is a [Z] with its wrap-around or
    its range check written out; instants are microseconds, durations nanoseconds.
    Concurrency is explicit: the event plane, the scheduler, the key cache, the caches of
    the settings, the player listener and friends' requests are step relations over all
    actors; in accounts, characters, config, groups, inventory, mail, match,
    notifications and party a task is cut at its statements, and [meanwhile] of its world
    says what others committed before each, constrained only by the locks held, where a
    statement may fail and a commit may lose its answer; the transactions of wallet and
    storage run one at a time, in the order of the row and advisory locks they take.

    Code that is not in the sources is an argument with its documented laws: the
    server's [uuid_in] ([PgUuid]), [jsonb_in], JSON ([Json], [JsonLaws]), base64,
    timestamps and collation ([Storage.Platform]), password and token verification,
    random ids, clocks, the mail relay and the network.  Instances show that the laws
    can hold, and the example modules at the end of the files run on them.

    ** What is proved

    - Events: none is lost to a subscription, each is passed once and in log order, in
      every interleaving of producers, workers, operators, retention and restores.
    - Money: the ledger accounts for every balance; a movement is decided on every
      branch and a replay changes nothing.
    - Access: a call runs only for a caller its operation admits; sessions belong to
      verified credentials; deletion of an account is final; a directory lookup returns
      the player.
    - Consent: nobody becomes a friend, a party member or a group member without asking
      or accepting, and the events the modules append suffice to rebuild their tables.
    - Shared data: no update of the object store is lost, and its cursors list every
      object once; parties' revisions order their views.
    - Mail and schedules: no request is lost, an overtaken attempt writes nothing,
      schedules fire once per interval and none is starved; the inbox changes only by
      its owner, the events addressed to them, and retention.
    - Play: in whatever order the events of the characters arrive, exactly the living
      ones hold their starter; a reported match counts once however often it is sent,
      and ratings and leaderboard are what the table of matches says.
    - Settings: every cache is the store of one committed moment and only gets newer, a
      refresh shows what was committed before it began, and an edit applies to exactly
      the settings it was shown or is refused.
    - Transport: a call runs its handler a bounded number of times, at most once for a
      mutation, and the client's verdict is true; limits and caps hold.
    - Boot: however it ends, what was started is stopped once, last first.
    - Refinement: the operations of accounts, wallet, friends, party, groups, mail,
      notifications, characters, inventory, match and config's editor do nothing but what
      their abstract machines allow their caller.

    ** Bounds and fuel

    Loops of the source that are not structural take fuel, and running out is [None],
    never an answer.  The sweeps ([Purge], [Prune], [GroupsSweep]) get one unit per row
    and one more, and are proved to end within it; the retention loop likewise one per
    row of the log; a worker pass is bounded by the source's own batch constant; the
    drain of the outbox by its batch; the paging walk by the number of objects.  Token
    buckets count in rationals where the source uses [f64].

    ** Not modelled

    - HTML and admin pages, metrics and logging: presentation without promises; where a
      page's form changes state its submit handler is modelled (mail, notifications,
      groups, config).
    - Sockets and processes: QUIC and WebSocket handling, the push hub of the gateway
      and its backplane ([push_ws.rs], [push_backplane.rs]), the fleet supervisor
      ([weles]), process control.  They are dominated by the asynchronous runtime and the
      operating system; what they decide is not separable from them line by line.
    - Cache invalidation over LISTEN/NOTIFY ([core/invalidation]): its promise is about
      the reconnecting socket of the database library; what a refresh does to a cache is
      modelled ([Config], [KeyCache]).
    - The remaining feature modules: apikeys, whose roles and keys are edited under the
      revision checks modelled for the object store and the settings; audit, which
      appends what it is delivered; and the admin portal.
    - Generated code, code generators, checkers, test harnesses and developer tools:
      outside the running program. *)

From stdpp Require Export base tactics list strings gmap fin_maps sets sorting relations.
From Stdlib Require Export ZArith Lia.

#[export] Set Default Goal Selector "!".
#[local] Open Scope Z_scope.

(** ** Fallible code

    [Result<A, E>] of the source.  [mret]/[mbind] give the source's [?]
    operator the stdpp notation [x ← e; k]. *)

Inductive result (E A : Type) : Type :=
| Ok (a : A)
| Err (e : E).
Arguments Ok {E A} a.
Arguments Err {E A} e.

#[global] Instance result_ret E : MRet (result E) := fun A a => Ok a.
#[global] Instance result_bind E : MBind (result E) := fun A B f r =>
  match r with Ok a => f a | Err e => Err e end.
#[global] Instance result_fmap E : FMap (result E) := fun A B f r =>
  match r with Ok a => Ok (f a) | Err e => Err e end.

(** [Result::map_err]. *)
Definition map_err {E F A} (f : E → F) (r : result E A) : result F A :=
  match r with Ok a => Ok a | Err e => Err (f e) end.

(** [Option::ok_or]. *)
Definition ok_or {E A} (o : option A) (e : E) : result E A :=
  match o with Some a => Ok a | None => Err e end.

(** [Result::ok]. *)
Definition result_ok {E A} (r : result E A) : option A :=
  match r with Ok a => Some a | Err _ => None end.

Definition is_ok {E A} (r : result E A) : bool := match r with Ok _ => true | Err _ => false end.

#[global] Instance result_eq_dec `{EqDecision E, EqDecision A} : EqDecision (result E A).
Proof. solve_decision. Defined.

Lemma bind_ok {E A B} (f : A → result E B) (r : result E A) b :
  r ≫= f = Ok b ↔ ∃ a, r = Ok a ∧ f a = Ok b.
Proof. destruct r; simpl; naive_solver. Qed.

Lemma bind_err {E A B} (f : A → result E B) (r : result E A) e :
  r ≫= f = Err e ↔ r = Err e ∨ ∃ a, r = Ok a ∧ f a = Err e.
Proof. destruct r; simpl; naive_solver. Qed.

(** A computation that threads a state and may fail; a failure keeps the state
    reached, the caller decides what to do with it. *)
Definition ST (S E A : Type) : Type := S → S * result E A.

#[global] Instance ST_ret S E : MRet (ST S E) := fun A a s => (s, Ok a).
#[global] Instance ST_bind S E : MBind (ST S E) := fun A B f m s =>
  match m s with
  | (s', Ok a) => f a s'
  | (s', Err e) => (s', Err e)
  end.

Definition fail {S E A} (e : E) : ST S E A := fun s => (s, Err e).
Definition gets {S E A} (f : S → A) : ST S E A := fun s => (s, Ok (f s)).
Definition modify {S E} (f : S → S) : ST S E unit := fun s => (f s, Ok ()).
Definition lift {S E A} (r : result E A) : ST S E A := fun s => (s, r).
Definition st_map_err {S E F A} (f : E → F) (m : ST S E A) : ST S F A := fun s =>
  let '(s', r) := m s in (s', map_err f r).

Lemma st_bind_ok {S E A B} (m : ST S E A) (f : A → ST S E B) s s'' b :
  (m ≫= f) s = (s'', Ok b) → ∃ s' a, m s = (s', Ok a) ∧ f a s' = (s'', Ok b).
Proof. unfold mbind, ST_bind. destruct (m s) as [s' [a|e]]; [eauto|done]. Qed.

Lemma st_bind_inv {S E A B} (m : ST S E A) (f : A → ST S E B) s s'' r :
  (m ≫= f) s = (s'', r) →
  (∃ e, m s = (s'', Err e) ∧ r = Err e) ∨ ∃ s' a, m s = (s', Ok a) ∧ f a s' = (s'', r).
Proof. unfold mbind, ST_bind. destruct (m s) as [s' [a|e]]; [right; eauto|]. intros [= <- <-]. eauto. Qed.

Lemma st_map_err_ok {S E F A} (f : E → F) (m : ST S E A) s s' a :
  st_map_err f m s = (s', Ok a) → m s = (s', Ok a).
Proof. unfold st_map_err. destruct (m s) as [s1 [x|e]]; simpl; congruence. Qed.

Lemma st_bind_run {S E A B} (m : ST S E A) (f : A → ST S E B) s s' a :
  m s = (s', Ok a) → (m ≫= f) s = f a s'.
Proof. unfold mbind, ST_bind. by intros ->. Qed.

Lemma st_bind_stop {S E A B} (m : ST S E A) (f : A → ST S E B) s s' e :
  m s = (s', Err e) → (m ≫= f) s = (s', Err e).
Proof. unfold mbind, ST_bind. by intros ->. Qed.

Lemma st_map_err_run {S E F A} (f : E → F) (m : ST S E A) s s' a :
  m s = (s', Ok a) → st_map_err f m s = (s', Ok a).
Proof. unfold st_map_err. by intros ->. Qed.

(** A list of inputs handled one after the other. *)
Fixpoint st_each {S E A} (f : A → ST S E unit) (l : list A) : ST S E unit :=
  match l with [] => mret () | x :: l => f x;; st_each f l end.

(** A fact about what was handled so far that every input extends. *)
Lemma st_each_run {S E A} (f : A → ST S E unit) (I : list A → S → Prop) p l s :
  I p s → (∀ q x r s, p ++ l = q ++ x :: r → I q s → ∃ s', f x s = (s', Ok ()) ∧ I (q ++ [x]) s') →
  ∃ s', st_each f l s = (s', Ok ()) ∧ I (p ++ l) s'.
Proof.
  revert p s. induction l as [|x l IH]; intros p s Hs Hstep; [exists s; by rewrite app_nil_r|].
  destruct (Hstep p x l s eq_refl Hs) as (s1 & E1 & Hs1). destruct (IH (p ++ [x]) s1 Hs1) as (s2 & E2 & Hs2).
  - intros q y r s3. rewrite <- app_assoc. apply Hstep.
  - exists s2. rewrite <- app_assoc in Hs2. split; [|done]. cbn [st_each]. by rewrite (st_bind_run _ _ _ _ _ E1).
Qed.

Lemma st_lift_ok {S E A} (r : result E A) (s s' : S) a : lift r s = (s', Ok a) → s' = s ∧ r = Ok a.
Proof. unfold lift. by intros [= <- ->]. Qed.

(** A quantity of the state that a computation never lowers. *)
Definition st_mono {S E A} (f : S → Z) (m : ST S E A) : Prop :=
  ∀ s s' r, m s = (s', r) → (f s <= f s')%Z.

Lemma st_mono_bind {S E A B} f (m : ST S E A) (k : A → ST S E B) :
  st_mono f m → (∀ a, st_mono f (k a)) → st_mono f (m ≫= k).
Proof.
  intros Hm Hk s s' r. unfold mbind, ST_bind. destruct (m s) as [s1 [a|e]] eqn:Em.
  - intros H%Hk. apply Hm in Em. lia.
  - intros [= <- <-]. by apply Hm in Em.
Qed.

Lemma st_mono_map_err {S E F A} f (g : E → F) (m : ST S E A) : st_mono f m → st_mono f (st_map_err g m).
Proof. intros Hm s s' r. unfold st_map_err. destruct (m s) as [s1 x] eqn:Em. intros [= <- <-]. by eapply Hm. Qed.

Lemma st_mono_ret {S E A} f (a : A) : st_mono f (mret a : ST S E A).
Proof. intros s s' r [= <- <-]. lia. Qed.

Lemma st_mono_fail {S E A} f (e : E) : st_mono f (fail e : ST S E A).
Proof. intros s s' r [= <- <-]. lia. Qed.

Lemma st_mono_gets {S E A} f (g : S → A) : st_mono (E := E) f (gets g).
Proof. intros s s' r [= <- <-]. lia. Qed.

Lemma st_mono_lift {S E A} f (x : result E A) : st_mono (S := S) f (lift x).
Proof. intros s s' r [= <- <-]. lia. Qed.

(** Peels the successful run of a bind into its parts. *)
Ltac st_inv H :=
  let s := fresh "s" in let a := fresh "a" in let E := fresh "E" in
  apply st_bind_ok in H as (s & a & E & H); simpl in E, H.

(** ** Machine integers

    A w-bit integer is a [Z]; its range and its wrap-around are written out
    where the source relies on them. *)

Definition u32_max : Z := 2 ^ 32 - 1.
Definition u64_max : Z := 2 ^ 64 - 1.
Definition i32_max : Z := 2 ^ 31 - 1.
Definition i32_min : Z := - 2 ^ 31.
Definition i64_max : Z := 2 ^ 63 - 1.
Definition i64_min : Z := - 2 ^ 63.

Definition wrap_u64 (z : Z) : Z := z `mod` 2 ^ 64.
Definition wrap_i64 (z : Z) : Z := (z + 2 ^ 63) `mod` 2 ^ 64 - 2 ^ 63.
Definition wrap_i32 (z : Z) : Z := (z + 2 ^ 31) `mod` 2 ^ 32 - 2 ^ 31.

(** [i32::try_from] of a non-negative value. *)
Definition i32_try_from (z : Z) : option Z := if z <=? i32_max then Some z else None.

(** [checked_mul] on [u64]. *)
Definition u64_checked_mul (a b : Z) : option Z :=
  if a * b <=? u64_max then Some (a * b) else None.

(** [Ord::clamp]. *)
Definition clamp (x lo hi : Z) : Z := if x <? lo then lo else if hi <? x then hi else x.

Lemma clamp_bounds x lo hi : lo ≤ hi → lo ≤ clamp x lo hi ≤ hi.
Proof. unfold clamp; intros. repeat case_match; lia. Qed.

Lemma clamp_id x lo hi : lo ≤ x ≤ hi → clamp x lo hi = x.
Proof. unfold clamp; intros. repeat case_match; lia. Qed.

Lemma wrap_i32_id z : i32_min ≤ z ≤ i32_max → wrap_i32 z = z.
Proof. unfold wrap_i32, i32_min, i32_max; intros. rewrite Z.mod_small; lia. Qed.

Lemma wrap_i64_id z : i64_min ≤ z ≤ i64_max → wrap_i64 z = z.
Proof. unfold wrap_i64, i64_min, i64_max; intros. rewrite Z.mod_small; lia. Qed.

Lemma wrap_i64_bounds z : i64_min ≤ wrap_i64 z ≤ i64_max.
Proof.
  unfold wrap_i64, i64_min, i64_max.
  pose proof (Z.mod_pos_bound (z + 2 ^ 63) (2 ^ 64)). lia.
Qed.

(** ** Lists *)

(** Predicates that agree on the elements of a list filter it alike. *)
Lemma list_filter_ext_in {A} (P Q : A → Prop) `{!∀ x, Decision (P x), !∀ x, Decision (Q x)} (l : list A) :
  (∀ x, x ∈ l → P x ↔ Q x) → filter P l = filter Q l.
Proof.
  induction l as [|x l IH]; intros Hl; [done|]. rewrite !filter_cons.
  rewrite IH by (intros; apply Hl; by right). pose proof (Hl x ltac:(by left)).
  repeat case_decide; tauto.
Qed.

Lemma filter_sublist {A} (f : A → bool) (l : list A) : sublist (List.filter f l) l.
Proof. induction l as [|x l IH]; simpl; [done|]. case_match; by constructor. Qed.

Lemma fmap_sublist {A B} (f : A → B) (l k : list A) : sublist l k → sublist (f <$> l) (f <$> k).
Proof. induction 1; simpl; by constructor. Qed.

Lemma list_filter_all {A} (P : A → Prop) `{!∀ x, Decision (P x)} (l : list A) :
  (∀ x, x ∈ l → P x) → filter P l = l.
Proof.
  induction l as [|x l IH]; intros Hl; [done|]. rewrite filter_cons_True by (apply Hl; by left).
  f_equal. apply IH. intros; apply Hl. by right.
Qed.

(** ** Maps *)

Lemma lookup_alter_is_Some `{Countable K} {A} (f : A → A) (k i : K) (m : gmap K A) :
  is_Some (alter f k m !! i) ↔ is_Some (m !! i).
Proof. rewrite lookup_alter. case_decide; [subst; apply fmap_is_Some|done]. Qed.

Lemma foldr_delete_lookup `{Countable K} {A} (m : gmap K A) l k : foldr delete m l !! k = if decide (k ∈ l) then None else m !! k.
Proof.
  induction l as [|x l IH]; cbn [foldr]; [by destruct (decide (k ∈ [])) as [?%elem_of_nil|]|].
  destruct (decide (x = k)) as [->|Hne].
  - rewrite lookup_delete_eq. by destruct (decide (k ∈ k :: l)); [|set_solver].
  - rewrite lookup_delete_ne, IH by done. destruct (decide (k ∈ l)), (decide (k ∈ x :: l)); set_solver.
Qed.

(** ** Sorting *)

Section Sorting.
Context {A : Type} (R : relation A) `{!RelDecision R, !Transitive R, !Total R}.

(** The order tells apart the elements of a list. *)
Definition separates (l : list A) : Prop := ∀ x y, x ∈ l → y ∈ l → R x y → R y x → x = y.

Lemma merge_sort_unique l k : separates l → l ≡ₚ k → StronglySorted R k → merge_sort R l = k.
Proof.
  intros Hsep Hp Hk. apply (StronglySorted_unique_strong R); [|apply StronglySorted_merge_sort; apply _|done|].
  - intros x y Hx Hy. rewrite merge_sort_Permutation in Hx. rewrite <- Hp in Hy. by apply Hsep.
  - by rewrite merge_sort_Permutation.
Qed.

Lemma merge_sort_perm l k : separates l → l ≡ₚ k → merge_sort R l = merge_sort R k.
Proof.
  intros Hsep Hp. apply merge_sort_unique; [done| |apply StronglySorted_merge_sort; apply _].
  by rewrite merge_sort_Permutation.
Qed.

Lemma merge_sort_app l k : separates (l ++ k) → merge_sort R (l ++ k) = list_merge R (merge_sort R l) (merge_sort R k).
Proof.
  intros Hsep. apply merge_sort_unique; [done|by rewrite merge_Permutation, !merge_sort_Permutation|].
  apply Sorted_StronglySorted; [done|]. apply Sorted_list_merge; [done|apply Sorted_merge_sort; done..].
Qed.

Lemma separates_sub l k : separates l → (∀ x, x ∈ k → x ∈ l) → separates k.
Proof. intros Hsep Hk x y Hx Hy. apply Hsep; auto. Qed.

(** The first [n] of a merge are among the first [n] of each side. *)
Lemma take_list_merge n m1 m2 l k :
  (n ≤ m1)%nat → (n ≤ m2)%nat → take n (list_merge R (take m1 l) (take m2 k)) = take n (list_merge R l k).
Proof.
  revert n m1 m2 k. induction l as [|x l IHl]; intros n m1 m2 k H1 H2.
  { rewrite take_nil, !list_merge_nil_l, take_take. by rewrite Nat.min_l. }
  revert n m1 m2 H1 H2. induction k as [|y k IHk]; intros n m1 m2 H1 H2.
  { rewrite take_nil, !list_merge_nil_r, take_take. by rewrite Nat.min_l. }
  destruct n as [|n]; [done|]. destruct m1 as [|m1], m2 as [|m2]; [lia..|].
  cbn [take]. rewrite !list_merge_cons. case_decide; cbn [take]; f_equal.
  - exact (IHl n m1 (S m2) (y :: k) ltac:(lia) ltac:(lia)).
  - exact (IHk n (S m1) m2 ltac:(lia) ltac:(lia)).
Qed.

(** Sorting two limited halves and limiting again loses nothing. *)
Lemma take_sort_halves n l k :
  separates (l ++ k) →
  take n (merge_sort R (take n (merge_sort R l) ++ take n (merge_sort R k))) = take n (merge_sort R (l ++ k)).
Proof.
  intros Hsep.
  assert (Hin : ∀ j x, x ∈ take n (merge_sort R j) → x ∈ j).
  { intros j x Hx. rewrite <- (merge_sort_Permutation R j), <- (take_drop n). apply elem_of_app. by left. }
  assert (Hid : ∀ j, separates j → merge_sort R (take n (merge_sort R j)) = take n (merge_sort R j)).
  { intros j Hj. apply merge_sort_unique; [exact (separates_sub j _ Hj (Hin j))|done|].
    apply (StronglySorted_app_1_l _ _ (drop n (merge_sort R j))). rewrite take_drop. apply StronglySorted_merge_sort; apply _. }
  rewrite merge_sort_app.
  - rewrite !Hid by (eapply separates_sub; [exact Hsep|]; intros x Hx; apply elem_of_app; auto).
    rewrite merge_sort_app by done. by apply take_list_merge.
  - eapply separates_sub; [exact Hsep|]. intros x [Hx%Hin|Hx%Hin]%elem_of_app; apply elem_of_app; auto.
Qed.
End Sorting.

(** Two exclusive tests split a filter. *)
Lemma filter_or_perm {A} (f g : A → bool) (l : list A) :
  (∀ x, x ∈ l → f x && g x = false) →
  List.filter f l ++ List.filter g l ≡ₚ List.filter (fun x => f x || g x) l.
Proof.
  induction l as [|x l IH]; intros Hl; [done|]. specialize (IH ltac:(intros; apply Hl; by right)).
  pose proof (Hl x ltac:(by left)) as Hx. simpl. destruct (f x), (g x); simpl in *; try done.
  - by rewrite IH.
  - by rewrite <- Permutation_middle, IH.
Qed.

(** ** Automation shared by the components *)

Create HintDb swarog.
#[export] Hint Resolve clamp_bounds wrap_i64_bounds : swarog.
#[export] Hint Resolve st_mono_bind st_mono_map_err st_mono_ret st_mono_fail st_mono_gets st_mono_lift : swarog.

(** Case analysis on every [match] and [if] of the goal and the context. *)
Ltac split_matches :=
  repeat (simplify_eq/=; case_match); simplify_eq/=.

(** Turns boolean comparisons into arithmetic and closes the goal. *)
Ltac zsolve := repeat (case_bool_decide || case_decide || case_match); simplify_eq; try lia; eauto with lia swarog.

(** Filtering keeps keys apart. *)
Lemma NoDup_keys_filter {A B} (P : A * B → bool) l : NoDup (fst <$> l) → NoDup (fst <$> List.filter P l).
Proof.
  induction l as [|x l IH]; [done|]. intros [Hx Hl]%NoDup_cons. simpl. destruct (P x); [|by apply IH]. apply NoDup_cons. split; [|by apply IH].
  intros (y & E & Hy)%list_elem_of_fmap. apply Hx, list_elem_of_fmap. exists y. split; [done|]. apply list_elem_of_In. by apply list_elem_of_In, filter_In in Hy as [Hy _].
Qed.
