(* ===== verification/Text.v ===== *)
(** * Text: the parts of Rust's [str] and integer parsing the components use

    A Rust string is its UTF-8 bytes, a Rocq [string]; [str::len] is then
    [String.length].  Operations that the source performs per character are
    written on the byte list: every delimiter of the source is ASCII, and no
    byte of a multi-byte scalar is below 128.  [trim] removes the scalars of
    Unicode's [White_Space], as [str::trim] does, by their UTF-8 encodings. *)

From S2P Require Import Prelude.
From stdpp Require Import pretty.
From Stdlib Require Import Ascii.
From Stdlib Require String.
#[local] Open Scope Z_scope.

Abbreviation bytes := (list ascii).

(** [str::as_bytes] / [String::from_utf8]. *)
Definition to_bytes (s : string) : bytes := String.list_ascii_of_string s.
Definition of_bytes (l : bytes) : string := String.string_of_list_ascii l.

Lemma of_to_bytes s : of_bytes (to_bytes s) = s.
Proof. apply String.string_of_list_ascii_of_string. Qed.

Lemma to_of_bytes l : to_bytes (of_bytes l) = l.
Proof. apply String.list_ascii_of_string_of_list_ascii. Qed.

Lemma length_to_bytes s : length (to_bytes s) = String.length s.
Proof. induction s; simpl; [done|]. by f_equal. Qed.

Lemma to_bytes_app s t : to_bytes (s +:+ t) = to_bytes s ++ to_bytes t.
Proof. induction s; simpl; [done|]. by f_equal. Qed.

#[global] Instance to_bytes_inj : Inj (=) (=) to_bytes.
Proof. intros s t H. by rewrite <- (of_to_bytes s), <- (of_to_bytes t), H. Qed.

Definition code (c : ascii) : nat := nat_of_ascii c.

(** ** Trimming *)

(** Drops one leading [White_Space] scalar, if the bytes start with one. *)
Definition strip_ws (l : bytes) : option bytes :=
  match l with
  | [] => None
  | a :: l1 =>
      let ca := code a in
      if bool_decide (9 ≤ ca ≤ 13 ∨ ca = 32)%nat then Some l1 else
      match l1 with
      | [] => None
      | b :: l2 =>
          let cb := code b in
          if bool_decide (ca = 194 ∧ (cb = 133 ∨ cb = 160))%nat then Some l2 else
          match l2 with
          | [] => None
          | c :: l3 =>
              let cc := code c in
              if bool_decide
                   ((ca = 225 ∧ cb = 154 ∧ cc = 128)
                    ∨ (ca = 226 ∧ cb = 128 ∧ (128 ≤ cc ≤ 138 ∨ cc = 168 ∨ cc = 169 ∨ cc = 175))
                    ∨ (ca = 226 ∧ cb = 129 ∧ cc = 159)
                    ∨ (ca = 227 ∧ cb = 128 ∧ cc = 128))%nat
              then Some l3 else None
          end
      end
  end.

(** The same on a reversed byte list: drops one trailing [White_Space] scalar. *)
Definition strip_ws_rev (l : bytes) : option bytes :=
  match l with
  | [] => None
  | a :: l1 =>
      let ca := code a in
      if bool_decide (9 ≤ ca ≤ 13 ∨ ca = 32)%nat then Some l1 else
      match l1 with
      | [] => None
      | b :: l2 =>
          let cb := code b in
          if bool_decide (cb = 194 ∧ (ca = 133 ∨ ca = 160))%nat then Some l2 else
          match l2 with
          | [] => None
          | c :: l3 =>
              let cc := code c in
              if bool_decide
                   ((cc = 225 ∧ cb = 154 ∧ ca = 128)
                    ∨ (cc = 226 ∧ cb = 128 ∧ (128 ≤ ca ≤ 138 ∨ ca = 168 ∨ ca = 169 ∨ ca = 175))
                    ∨ (cc = 226 ∧ cb = 129 ∧ ca = 159)
                    ∨ (cc = 227 ∧ cb = 128 ∧ ca = 128))%nat
              then Some l3 else None
          end
      end
  end.

(** Repeats a stripping step until it finds nothing more to strip; each step
    removes at least one byte, so the length is enough fuel. *)
Fixpoint strip_while (step : bytes → option bytes) (fuel : nat) (l : bytes) : bytes :=
  match fuel with
  | O => l
  | S n => match step l with Some r => strip_while step n r | None => l end
  end.

Definition trim_start (l : bytes) : bytes := strip_while strip_ws (length l) l.
Definition trim_end (l : bytes) : bytes :=
  reverse (strip_while strip_ws_rev (length l) (reverse l)).

(** [str::trim]. *)
Definition trim_bytes (l : bytes) : bytes := trim_end (trim_start l).
Definition trim (s : string) : string := of_bytes (trim_bytes (to_bytes s)).

(** ** Splitting and affixes *)

(** [str::split] on an ASCII character: never empty, one piece per gap. *)
Fixpoint split_on (c : ascii) (l : bytes) : list bytes :=
  match l with
  | [] => [[]]
  | a :: l' =>
      if bool_decide (a = c) then [] :: split_on c l'
      else match split_on c l' with
           | [] => [[a]]
           | p :: ps => (a :: p) :: ps
           end
  end.

Definition split_str (c : ascii) (s : string) : list string :=
  map of_bytes (split_on c (to_bytes s)).

(** [str::strip_prefix] and [str::strip_suffix]. *)
Fixpoint strip_prefix (p l : bytes) : option bytes :=
  match p, l with
  | [], _ => Some l
  | a :: p', b :: l' => if bool_decide (a = b) then strip_prefix p' l' else None
  | _ :: _, [] => None
  end.
Definition strip_suffix (p l : bytes) : option bytes :=
  reverse <$> strip_prefix (reverse p) (reverse l).

(** [str::split_once] on an ASCII character. *)
Fixpoint split_once (c : ascii) (l : bytes) : option (bytes * bytes) :=
  match l with
  | [] => None
  | a :: l' =>
      if bool_decide (a = c) then Some ([], l')
      else match split_once c l' with
           | Some (p, q) => Some (a :: p, q)
           | None => None
           end
  end.

(** [str::trim_end_matches] on a non-empty pattern. *)
Fixpoint trim_end_matches (p : bytes) (fuel : nat) (l : bytes) : bytes :=
  match fuel with
  | O => l
  | S n => match strip_suffix p l with Some l' => trim_end_matches p n l' | None => l end
  end.

(** [u8::to_ascii_lowercase] and [str::eq_ignore_ascii_case]. *)
Definition to_ascii_lowercase (c : ascii) : ascii :=
  if bool_decide (65 ≤ code c ≤ 90)%nat then ascii_of_nat (code c + 32) else c.
Definition lower (s : string) : string := of_bytes (map to_ascii_lowercase (to_bytes s)).
Definition eq_ignore_ascii_case (a b : string) : bool := bool_decide (lower a = lower b).

(** [str::starts_with]. *)
Definition starts_with (p s : string) : bool :=
  match strip_prefix (to_bytes p) (to_bytes s) with Some _ => true | None => false end.

(** [str::is_empty]. *)
Definition str_is_empty (s : string) : bool := bool_decide (s = "").

(** ** Parsing decimal integers *)

Inductive IntErrorKind := Empty | InvalidDigit | PosOverflow.

#[global] Instance IntErrorKind_eq_dec : EqDecision IntErrorKind.
Proof. solve_decision. Defined.

Definition digit (c : ascii) : option Z :=
  let n := code c in
  if bool_decide (48 ≤ n ≤ 57)%nat then Some (Z.of_nat n - 48) else None.

(** The digit loop of [u64::from_str]: an offending character is reported
    before the overflow it would cause. *)
Fixpoint parse_digits (max acc : Z) (l : bytes) : result IntErrorKind Z :=
  match l with
  | [] => Ok acc
  | c :: l' =>
      match digit c with
      | None => Err InvalidDigit
      | Some d =>
          if 10 * acc + d <=? max then parse_digits max (10 * acc + d) l'
          else Err PosOverflow
      end
  end.

(** [str::parse::<u64>]: one optional leading [+]. *)
Definition parse_unsigned (max : Z) (l : bytes) : result IntErrorKind Z :=
  match l with
  | [] => Err Empty
  | c :: l' =>
      if bool_decide (c = "+"%char) then
        match l' with [] => Err InvalidDigit | _ => parse_digits max 0 l' end
      else parse_digits max 0 l
  end.

Definition parse_u64 (s : string) : result IntErrorKind Z := parse_unsigned u64_max (to_bytes s).

(** [str::parse::<i64>], where the caller does not look at the kind of error. *)
Definition parse_i64 (s : string) : option Z :=
  match to_bytes s with
  | c :: (_ :: _) as l =>
      if bool_decide (c = "-"%char)
      then match parse_digits (- i64_min) 0 (tail l) with Ok n => Some (- n) | Err _ => None end
      else match parse_unsigned i64_max l with Ok n => Some n | Err _ => None end
  | l => match parse_unsigned i64_max l with Ok n => Some n | Err _ => None end
  end.

(** ** Facts *)

(** A text cut at the last occurrence of a separator is cut uniquely. *)
Lemma app_sep_inj {A} (c : A) (s1 s2 t1 t2 : list A) :
  c ∉ t1 → c ∉ t2 → s1 ++ c :: t1 = s2 ++ c :: t2 → s1 = s2 ∧ t1 = t2.
Proof.
  revert s2. induction s1 as [|a s1 IH]; intros [|b s2] H1 H2 H; simplify_eq/=.
  - done.
  - set_solver.
  - set_solver.
  - destruct (IH s2) as [-> ->]; naive_solver.
Qed.

Lemma strip_ws_shorter l r : strip_ws l = Some r → (length r < length l)%nat.
Proof.
  unfold strip_ws; intros H. repeat (case_match; simplify_eq/=); lia.
Qed.

Lemma strip_while_stable step fuel l :
  (∀ l r, step l = Some r → length r < length l)%nat →
  (length l ≤ fuel)%nat → step (strip_while step fuel l) = None.
Proof.
  intros Hs. revert l. induction fuel as [|n IH]; intros l Hl; simpl.
  - destruct l; [|simpl in Hl; lia]. destruct (step []) as [r|] eqn:E; [|done].
    apply Hs in E. simpl in E; lia.
  - destruct (step l) eqn:E; [|done]. apply IH. apply Hs in E. lia.
Qed.

Definition is_digit_char (c : ascii) : Prop := is_Some (digit c).

Lemma digit_bound c d : digit c = Some d → 0 ≤ d ≤ 9.
Proof. unfold digit; intros; case_bool_decide; simplify_eq; lia. Qed.

(** ** Decimal printing *)

(** A character that is no decimal digit and no minus sign does not occur in a
    printed integer. *)
Lemma pretty_N_go_not_in c x s :
  digit c = None → c ∉ to_bytes s → c ∉ to_bytes (pretty_N_go x s).
Proof.
  intros Hc. revert s. induction (N.lt_wf_0 x) as [x _ IH]; intros s Hs.
  assert (x = 0 ∨ 0 < x)%N as [->|?] by lia; [by rewrite pretty_N_go_0|].
  rewrite pretty_N_go_step by done. apply IH; [by apply N.div_lt|].
  simpl. apply not_elem_of_cons. split; [|done].
  intros ->. unfold pretty_N_char in Hc. by repeat case_match.
Qed.

Lemma pretty_Z_not_in c (z : Z) :
  digit c = None → c ≠ "-"%char → c ∉ to_bytes (pretty z).
Proof.
  intros Hc Hm. destruct z as [|p|p]; unfold pretty, pretty_Z.
  - simpl. intros ->%list_elem_of_singleton. done.
  - by apply pretty_N_go_not_in; [|set_solver].
  - rewrite to_bytes_app. apply not_elem_of_app. split; [simpl; set_solver|].
    by apply pretty_N_go_not_in; [|set_solver].
Qed.

(** [app_sep_inj] on strings. *)
Lemma str_sep_inj c s1 s2 t1 t2 :
  c ∉ to_bytes t1 → c ∉ to_bytes t2 →
  s1 +:+ (String c "" +:+ t1) = s2 +:+ (String c "" +:+ t2) → s1 = s2 ∧ t1 = t2.
Proof.
  intros H1 H2 H%(f_equal to_bytes). rewrite !to_bytes_app in H. simpl in H.
  apply app_sep_inj in H as [H3 H4]; [|done..]. by apply (inj to_bytes) in H3, H4.
Qed.

Lemma str_app_assoc (a b c : string) : a +:+ (b +:+ c) = (a +:+ b) +:+ c.
Proof. apply (inj to_bytes). by rewrite !to_bytes_app, (assoc (++)). Qed.

(** Parsing what was printed. *)
Lemma parse_digits_go max x s :
  Z.of_N x ≤ max →
  parse_digits max 0 (to_bytes (pretty_N_go x s)) = parse_digits max (Z.of_N x) (to_bytes s).
Proof.
  revert s. induction (N.lt_wf_0 x) as [x _ IH]; intros s Hx.
  assert (x = 0 ∨ 0 < x)%N as [->|Hpos] by lia; [by rewrite pretty_N_go_0|].
  pose proof (N.div_mod x 10 ltac:(done)) as Hdm. pose proof (N.mod_lt x 10 ltac:(done)) as Hm.
  pose proof (N.div_lt x 10 Hpos ltac:(done)) as Hlt. rewrite pretty_N_go_step by done.
  set (q := (x `div` 10)%N) in *. set (r := (x `mod` 10)%N) in *. clearbody q r.
  rewrite IH by lia. simpl.
  assert (Hd : digit (pretty_N_char r) = Some (Z.of_N r)).
  { assert (r = 0 ∨ r = 1 ∨ r = 2 ∨ r = 3 ∨ r = 4 ∨ r = 5 ∨ r = 6 ∨ r = 7 ∨ r = 8 ∨ r = 9)%N
      by lia. naive_solver. }
  rewrite Hd. replace (10 * _ + _) with (Z.of_N x) by lia.
  by rewrite (proj2 (Z.leb_le _ _) Hx).
Qed.

Lemma parse_unsigned_pretty max n :
  0 ≤ n ≤ max → parse_unsigned max (to_bytes (pretty n)) = Ok n.
Proof.
  intros Hn. assert (Hp : parse_digits max 0 (to_bytes (pretty n)) = Ok n).
  { destruct n as [|p|p]; [|..|lia]; unfold pretty, pretty_Z; simpl.
    - destruct max; [done..|lia].
    - unfold pretty, pretty_positive, pretty, pretty_N. simpl.
      rewrite parse_digits_go by lia. done. }
  pose proof (pretty_Z_not_in "+"%char n ltac:(done) ltac:(done)) as Hplus.
  destruct (to_bytes (pretty n)) as [|c l] eqn:E.
  - simpl in Hp. by simplify_eq.
  - simpl. case_bool_decide; [|done]. subst. set_solver.
Qed.

(** ** Trimming and affixes of visible text *)

Definition visible (c : ascii) : Prop := (33 ≤ code c ≤ 127)%nat.

Lemma strip_ws_visible c l : visible c → strip_ws (c :: l) = None.
Proof.
  unfold visible. intros H. unfold strip_ws.
  repeat (rewrite bool_decide_eq_false_2 by lia; try (destruct l as [|? l]; [done|])). done.
Qed.

Lemma strip_ws_rev_visible c l : visible c → strip_ws_rev (c :: l) = None.
Proof.
  unfold visible. intros H. unfold strip_ws_rev.
  repeat (rewrite bool_decide_eq_false_2 by lia; try (destruct l as [|? l]; [done|])). done.
Qed.

(** Text that starts and ends with a visible character is already trimmed. *)
Lemma trim_bytes_id c l l' d :
  c :: l = l' ++ [d] → visible c → visible d → trim_bytes (c :: l) = c :: l.
Proof.
  intros E Hc Hd. unfold trim_bytes, trim_start. cbn [length strip_while].
  rewrite strip_ws_visible by done. unfold trim_end. rewrite E at 2.
  rewrite reverse_app. change (reverse [d] ++ reverse l') with (d :: reverse l').
  cbn [length strip_while]. rewrite strip_ws_rev_visible by done.
  change (d :: reverse l') with (reverse [d] ++ reverse l').
  by rewrite <- reverse_app, <- E, reverse_involutive.
Qed.

Lemma strip_prefix_app p l : strip_prefix p (p ++ l) = Some l.
Proof. induction p; simpl; [done|]. by rewrite bool_decide_eq_true_2. Qed.

Lemma strip_suffix_app p l : strip_suffix p (l ++ p) = Some l.
Proof.
  unfold strip_suffix. rewrite reverse_app, strip_prefix_app. simpl. by rewrite reverse_involutive.
Qed.

Lemma strip_suffix_ne p c l d : c ≠ d → strip_suffix (p ++ [c]) (l ++ [d]) = None.
Proof.
  intros H. unfold strip_suffix. rewrite !reverse_app. simpl. by rewrite bool_decide_eq_false_2.
Qed.

(** The characters of a printed non-negative integer. *)
Lemma pretty_N_go_digits x s :
  Forall is_digit_char (to_bytes s) → Forall is_digit_char (to_bytes (pretty_N_go x s)).
Proof.
  revert s. induction (N.lt_wf_0 x) as [x _ IH]; intros s Hs.
  assert (x = 0 ∨ 0 < x)%N as [->|?] by lia; [by rewrite pretty_N_go_0|].
  rewrite pretty_N_go_step by done. apply IH; [by apply N.div_lt|]. constructor; [|done].
  unfold pretty_N_char. repeat case_match; by eexists.
Qed.

Lemma pretty_Z_digits (n : Z) : 0 ≤ n → Forall is_digit_char (to_bytes (pretty n)).
Proof.
  destruct n as [|p|p]; [|..|lia]; intros _; unfold pretty, pretty_Z; simpl.
  - repeat constructor. by eexists.
  - by apply pretty_N_go_digits.
Qed.

Lemma digit_visible c : is_digit_char c → visible c.
Proof. intros [d H]. unfold digit in H. case_bool_decide; [|done]. unfold visible. lia. Qed.

Lemma pretty_Z_cons (n : Z) : 0 ≤ n → ∃ c l, to_bytes (pretty n) = c :: l ∧ visible c.
Proof.
  intros Hn. pose proof (pretty_Z_digits n Hn) as Hd.
  pose proof (parse_unsigned_pretty n n ltac:(lia)) as Hp.
  destruct (to_bytes (pretty n)) as [|c l]; [done|]. inversion_clear Hd.
  eauto using digit_visible.
Qed.

(** A printed integer followed by a visible suffix is not changed by trimming. *)
Lemma trim_pretty_suffix n s d :
  0 ≤ n → visible d → trim_bytes (to_bytes (pretty n) ++ s ++ [d]) = to_bytes (pretty n) ++ s ++ [d].
Proof.
  intros Hn Hd. destruct (pretty_Z_cons n Hn) as (c & l & E & Hc). rewrite E.
  apply (trim_bytes_id c (l ++ s ++ [d]) (c :: l ++ s) d); [|done..]. simpl. by rewrite <- app_assoc.
Qed.

Lemma trim_pretty n : 0 ≤ n → trim_bytes (to_bytes (pretty n)) = to_bytes (pretty n).
Proof.
  intros Hn. pose proof (pretty_Z_digits n Hn) as Hd.
  destruct (pretty_Z_cons n Hn) as (c & l & E & Hc). rewrite E in *.
  destruct (exists_last (l := c :: l)) as (l' & d & E'); [done|].
  apply (trim_bytes_id c l l' d); [done..|]. apply digit_visible.
  rewrite E' in Hd. apply Forall_app in Hd as [_ Hd]. by inversion_clear Hd.
Qed.

Lemma strip_suffix_same p c l : strip_suffix (p ++ [c]) (l ++ [c]) = strip_suffix p l.
Proof.
  unfold strip_suffix. rewrite !reverse_app. simpl. by rewrite bool_decide_eq_true_2.
Qed.

(** A printed integer does not end in a unit. *)
Lemma strip_suffix_pretty p c n :
  0 ≤ n → digit c = None → strip_suffix (p ++ [c]) (to_bytes (pretty n)) = None.
Proof.
  intros Hn Hc. pose proof (pretty_Z_digits n Hn) as Hd.
  destruct (pretty_Z_cons n Hn) as (a & l & E & _). rewrite E in *.
  destruct (exists_last (l := a :: l)) as (l' & d & E'); [done|]. rewrite E' in *.
  apply strip_suffix_ne. intros ->. apply Forall_app in Hd as [_ Hd].
  inversion_clear Hd as [|? ? [? ?] _]. congruence.
Qed.

(** ** Splitting *)

Lemma split_on_sep c l r : c ∉ l → split_on c (l ++ c :: r) = l :: split_on c r.
Proof.
  induction l as [|a l IH]; intros H; simpl.
  - by rewrite bool_decide_eq_true_2.
  - rewrite bool_decide_eq_false_2 by set_solver. rewrite IH by set_solver. done.
Qed.

Lemma split_on_none c l : c ∉ l → split_on c l = [l].
Proof.
  induction l as [|a l IH]; intros H; simpl; [done|].
  rewrite bool_decide_eq_false_2 by set_solver. by rewrite IH by set_solver.
Qed.

Lemma split_on_nonempty c l : split_on c l ≠ [].
Proof. destruct l as [|a l]; simpl; [done|]. case_bool_decide; [done|]. by destruct (split_on c l). Qed.

(** Splitting a text that ends in a separator and a piece without one. *)
Lemma split_on_snoc c l x : c ∉ x → split_on c (l ++ c :: x) = split_on c l ++ [x].
Proof.
  intros Hx. induction l as [|a l IH]; simpl.
  - rewrite bool_decide_eq_true_2 by done. by rewrite split_on_none.
  - case_bool_decide; rewrite IH; [done|].
    pose proof (split_on_nonempty c l). by destruct (split_on c l).
Qed.
