(* ===== verification/Bus.v ===== *)
(** * Bus: the contract vocabulary of [core/bus] and its in-process plane

    The data half ([EventPosition], [StartPosition], [HistoryPolicy], ...) is
    the vocabulary the durable plane is written in.  The state half is the
    in-process pub/sub: one bounded FIFO mailbox and one task per subscriber,
    drop-on-full, and the registration of durable subscriptions. *)

From S2P Require Import Prelude.
#[local] Open Scope Z_scope.

(** ** Contracts and positions *)

Inductive HistoryPolicy :=
| MinRetention (days : Z)
| KeepForever.

Record EventContract := mkContract {
  ec_topic : string;
  ec_version : Z;
  ec_history : HistoryPolicy;
}.

(** A position of the durable log. *)
Record EventPosition := mkPos {
  generation : Z;
  xid : Z;
  tie : Z;
}.

Inductive StartPosition :=
| Genesis
| AfterRegistration
| Explicit (p : EventPosition).

Record SubscriptionSpec := mkSpec {
  spec_id : string;
  spec_start : StartPosition;
}.

#[global] Instance HistoryPolicy_eq_dec : EqDecision HistoryPolicy.
Proof. solve_decision. Defined.
#[global] Instance EventPosition_eq_dec : EqDecision EventPosition.
Proof. solve_decision. Defined.
#[global] Instance StartPosition_eq_dec : EqDecision StartPosition.
Proof. solve_decision. Defined.

(** ** The in-process plane *)

Definition LOCAL_BUS_CAP : nat := 1024.

Section InProcess.
Context {Payload : Type}.

Record Event := mkEvent { topic : string; data : Payload }.

(** One subscriber: its topic, the queue of its channel, whether its task
    still holds the receiver, and the events its handler was called with. *)
Record Subscriber := mkSubscriber {
  sub_topic : string;
  mailbox : list Event;
  receiving : bool;
  handled : list Event;
}.

(** [senders] is the [subs] map of the source: for every topic, the channels
    [publish] feeds, here by the index of their subscriber. *)
Record Bus := mkBus {
  senders : gmap string (list nat);
  tasks : list Subscriber;
  transport : bool;
  durable_ids : gset string;
  durable_list : list (string * string);
  inprocess_contracts : list (string * Z);
}.

(** [Bus::new] and [Bus::with_transport]. *)
Definition new_bus : Bus := mkBus ∅ [] false ∅ [] [].
Definition with_transport : Bus := mkBus ∅ [] true ∅ [] [].

(** [Bus::subscribe]: a fresh channel and task. *)
Definition subscribe (t : string) (b : Bus) : Bus :=
  {| senders := <[t := default [] (senders b !! t) ++ [length (tasks b)]]> (senders b);
     tasks := tasks b ++ [mkSubscriber t [] true []];
     transport := transport b;
     durable_ids := durable_ids b;
     durable_list := durable_list b;
     inprocess_contracts := inprocess_contracts b |}.

(** [Bus::on]: records the versioned contract, then subscribes. *)
Definition on (c : EventContract) (b : Bus) : Bus :=
  subscribe (ec_topic c)
    {| senders := senders b;
       tasks := tasks b;
       transport := transport b;
       durable_ids := durable_ids b;
       durable_list := durable_list b;
       inprocess_contracts := inprocess_contracts b ++ [(ec_topic c, ec_version c)] |}.

(** [mpsc::Sender::try_send]: [Closed] and [Full] both drop the event. *)
Definition try_send (e : Event) (s : Subscriber) : Subscriber :=
  if receiving s then
    if bool_decide (length (mailbox s) < LOCAL_BUS_CAP)%nat
    then mkSubscriber (sub_topic s) (mailbox s ++ [e]) true (handled s)
    else s
  else s.

(** [Bus::publish]: hands the event to every channel of its topic. *)
Definition publish (e : Event) (b : Bus) : Bus :=
  {| senders := senders b;
     tasks := foldl (fun ts i => alter (try_send e) i ts) (tasks b)
                    (default [] (senders b !! topic e));
     transport := transport b;
     durable_ids := durable_ids b;
     durable_list := durable_list b;
     inprocess_contracts := inprocess_contracts b |}.

(** One turn of a subscriber's loop.  The handler's panic is contained, so a
    turn is the same whether it returns or panics. *)
Definition recv_one (s : Subscriber) : Subscriber :=
  match receiving s, mailbox s with
  | true, e :: q => mkSubscriber (sub_topic s) q true (handled s ++ [e])
  | _, _ => s
  end.

Definition with_tasks (f : list Subscriber → list Subscriber) (b : Bus) : Bus :=
  {| senders := senders b;
     tasks := f (tasks b);
     transport := transport b;
     durable_ids := durable_ids b;
     durable_list := durable_list b;
     inprocess_contracts := inprocess_contracts b |}.

Definition recv (i : nat) (b : Bus) : Bus := with_tasks (alter recv_one i) b.

(** [Bus::close_within]: the senders are dropped, then every task either
    drains its queue within the grace period or is aborted, losing what is
    still queued.  [wedged] says which tasks outlast the grace period. *)
Definition finish_task (wedged : bool) (s : Subscriber) : Subscriber :=
  if receiving s then
    if wedged then mkSubscriber (sub_topic s) [] false (handled s)
    else mkSubscriber (sub_topic s) [] false (handled s ++ mailbox s)
  else s.

Definition close_within (wedged : nat → bool) (b : Bus) : Bus :=
  {| senders := ∅;
     tasks := imap (fun i s => finish_task (wedged i) s) (tasks b);
     transport := transport b;
     durable_ids := durable_ids b;
     durable_list := durable_list b;
     inprocess_contracts := inprocess_contracts b |}.

(** [Bus::subscribe_durable]; the panics of the source are [Err]. *)
Inductive SubscribePanic := NoDurablePlane | DuplicateId.

Definition subscribe_durable (spec : SubscriptionSpec) (t : string) (b : Bus)
  : result SubscribePanic Bus :=
  if transport b then
    if bool_decide (spec_id spec ∈ durable_ids b) then Err DuplicateId
    else Ok {| senders := senders b;
               tasks := tasks b;
               transport := transport b;
               durable_ids := {[spec_id spec]} ∪ durable_ids b;
               durable_list := durable_list b ++ [(spec_id spec, t)];
               inprocess_contracts := inprocess_contracts b |}
  else Err NoDurablePlane.

(** The actions of a running process on its bus. *)
Inductive Action :=
| Subscribe (t : string)
| Publish (e : Event)
| Recv (i : nat)
| Close (wedged : nat → bool).

Definition act (b : Bus) (a : Action) : Bus :=
  match a with
  | Subscribe t => subscribe t b
  | Publish e => publish e b
  | Recv i => recv i b
  | Close w => close_within w b
  end.

Definition run (b : Bus) (tr : list Action) : Bus := foldl act b tr.

(** The events of a topic a trace published, oldest first. *)
Definition published_on (t : string) (tr : list Action) : list Event :=
  omap (fun a => match a with
                 | Publish e => if bool_decide (topic e = t) then Some e else None
                 | _ => None
                 end) tr.
End InProcess.

Arguments Event : clear implicits.
Arguments Subscriber : clear implicits.
Arguments Bus : clear implicits.
Arguments Action : clear implicits.

(** ** Facts about the in-process plane *)

Section InProcessFacts.
Context {Payload : Type}.
Implicit Types (b : Bus Payload) (e : Event Payload) (s : Subscriber Payload).

Lemma published_on_app t (tr1 tr2 : list (Action Payload)) :
  published_on t (tr1 ++ tr2) = published_on t tr1 ++ published_on t tr2.
Proof. apply omap_app. Qed.

(** What [publish] does to one task. *)
Lemma foldl_alter_lookup e (ix : list nat) (ts : list (Subscriber Payload)) j :
  NoDup ix →
  foldl (fun ts i => alter (try_send e) i ts) ts ix !! j
  = if bool_decide (j ∈ ix) then try_send e <$> ts !! j else ts !! j.
Proof.
  revert ts. induction ix as [|i ix IH]; intros ts Hnd; simpl.
  { done. }
  apply NoDup_cons in Hnd as [Hi Hnd]. rewrite IH by done.
  destruct (decide (j = i)) as [->|Hne].
  - rewrite bool_decide_eq_false_2 by done. rewrite bool_decide_eq_true_2 by set_solver.
    by rewrite list_lookup_alter_eq.
  - rewrite list_lookup_alter_ne by done. repeat case_bool_decide; set_solver.
Qed.

(** Every channel a topic feeds belongs to a subscriber of that topic, and a
    topic feeds no channel twice. *)
Definition senders_wf b : Prop :=
  ∀ t ix, senders b !! t = Some ix →
    NoDup ix ∧ ∀ i, i ∈ ix → ∃ s, tasks b !! i = Some s ∧ sub_topic s = t.

Lemma try_send_topic e s : sub_topic (try_send e s) = sub_topic s.
Proof. unfold try_send; by repeat case_match. Qed.

Lemma recv_one_topic s : sub_topic (recv_one s) = sub_topic s.
Proof. unfold recv_one; by repeat case_match. Qed.

Lemma recv_one_flow s : handled (recv_one s) ++ mailbox (recv_one s) = handled s ++ mailbox s.
Proof.
  unfold recv_one. destruct (receiving s), (mailbox s) eqn:E; simpl; rewrite ?E; try done.
  by rewrite <- app_assoc.
Qed.

Lemma publish_lookup b e j s' :
  senders_wf b → tasks (publish e b) !! j = Some s' →
  ∃ s, tasks b !! j = Some s
       ∧ ((s' = try_send e s ∧ sub_topic s = topic e) ∨ s' = s).
Proof.
  intros Hwf. unfold publish; simpl.
  destruct (senders b !! topic e) as [ix|] eqn:E; simpl; [|naive_solver].
  destruct (Hwf _ _ E) as [Hnd Htop]. rewrite foldl_alter_lookup by done.
  case_bool_decide as Hj; [|naive_solver].
  destruct (Htop _ Hj) as (s & -> & Hs). simpl; naive_solver.
Qed.

Lemma senders_wf_subscribe t b : senders_wf b → senders_wf (subscribe t b).
Proof.
  intros Hwf t' ix. unfold subscribe; simpl. rewrite lookup_insert. case_decide as Ht; intros H.
  - simplify_eq. destruct (senders b !! t') as [ix|] eqn:E; simpl.
    + destruct (Hwf _ _ E) as [Hnd Htop]. split.
      * apply NoDup_app; split_and!; [done| |apply NoDup_singleton].
        intros i Hi ->%list_elem_of_singleton. destruct (Htop _ Hi) as (s & Hs & _).
        apply lookup_lt_Some in Hs; lia.
      * intros i [Hi| ->%list_elem_of_singleton]%elem_of_app.
        -- destruct (Htop _ Hi) as (s & Hs & <-). exists s. split; [|done].
           by rewrite lookup_app_l by by eapply lookup_lt_Some.
        -- eexists. by rewrite lookup_app_r, Nat.sub_diag by lia.
    + split; [apply NoDup_singleton|]. intros i ->%list_elem_of_singleton.
      eexists. by rewrite lookup_app_r, Nat.sub_diag by lia.
  - destruct (Hwf _ _ H) as [Hnd Htop]. split; [done|]. intros i Hi.
    destruct (Htop _ Hi) as (s & Hs & <-). exists s. split; [|done].
    by rewrite lookup_app_l by by eapply lookup_lt_Some.
Qed.

Lemma senders_wf_act a b : senders_wf b → senders_wf (act b a).
Proof.
  intros Hwf. destruct a as [t|e|i|w]; simpl; [by apply senders_wf_subscribe| | |].
  - intros t ix H. destruct (Hwf _ _ H) as [Hnd Htop]. split; [done|].
    intros i Hi. destruct (Htop _ Hi) as (s & Hs & <-). unfold publish; simpl.
    destruct (senders b !! topic e) as [ix'|] eqn:E; simpl; [|eauto].
    rewrite foldl_alter_lookup by by eapply Hwf.
    case_bool_decide; rewrite Hs; simpl; eexists; split; eauto. apply try_send_topic.
  - intros t ix H. destruct (Hwf _ _ H) as [Hnd Htop]. split; [done|].
    intros j Hj. destruct (Htop _ Hj) as (s & Hs & <-). unfold recv; simpl.
    rewrite list_lookup_alter. case_decide; subst; rewrite Hs; simpl;
      eexists; split; eauto. apply recv_one_topic.
  - intros t ix H. simpl in H. by rewrite lookup_empty in H.
Qed.

(** The flow of one subscriber: what its handler saw, then what is queued,
    embeds in order into the events published on its topic, within the cap. *)
Definition flow_ok (tr : list (Action Payload)) s : Prop :=
  sublist (handled s ++ mailbox s) (published_on (sub_topic s) tr)
  ∧ (length (mailbox s) ≤ LOCAL_BUS_CAP)%nat.

Lemma flow_ok_skip tr a s : flow_ok tr s → flow_ok (tr ++ [a]) s.
Proof.
  intros [H ?]. split; [|done]. rewrite published_on_app. by apply sublist_inserts_r.
Qed.

Lemma flow_ok_try_send tr e s :
  sub_topic s = topic e → flow_ok tr s → flow_ok (tr ++ [Publish e]) (try_send e s).
Proof.
  intros Ht Hs. pose proof (flow_ok_skip _ (Publish e) _ Hs). unfold try_send.
  destruct (receiving s); [|done]. case_bool_decide; [|done].
  destruct Hs as [Hsub _]. split; simpl; [|rewrite length_app; simpl; unfold LOCAL_BUS_CAP in *; lia].
  rewrite app_assoc, published_on_app. apply sublist_app; [done|].
  simpl. rewrite bool_decide_eq_true_2 by done. done.
Qed.

Lemma finish_task_flow w s :
  sub_topic (finish_task w s) = sub_topic s
  ∧ sublist (handled (finish_task w s) ++ mailbox (finish_task w s)) (handled s ++ mailbox s)
  ∧ (length (mailbox (finish_task w s)) ≤ length (mailbox s))%nat.
Proof.
  unfold finish_task. destruct (receiving s), w; simpl; rewrite ?app_nil_r;
    split_and!; try done; try lia. by apply sublist_inserts_r.
Qed.

Lemma flow_ok_weaken tr s s' :
  sub_topic s' = sub_topic s → sublist (handled s' ++ mailbox s') (handled s ++ mailbox s) →
  (length (mailbox s') ≤ length (mailbox s))%nat → flow_ok tr s → flow_ok tr s'.
Proof.
  intros Ht Hsub Hlen [Hs Hl]. split; [|lia]. rewrite Ht. by etrans.
Qed.

Lemma recv_one_mailbox s : (length (mailbox (recv_one s)) ≤ length (mailbox s))%nat.
Proof. unfold recv_one. destruct (receiving s), (mailbox s) eqn:E; simpl; rewrite ?E; simpl; lia. Qed.

Lemma flow_act tr a b :
  senders_wf b → (∀ i s, tasks b !! i = Some s → flow_ok tr s) →
  ∀ i s, tasks (act b a) !! i = Some s → flow_ok (tr ++ [a]) s.
Proof.
  intros Hwf Hfl i s. destruct a as [t|e|j|w]; simpl; intros H.
  - apply lookup_app_Some in H as [H|[_ H]]; [by apply flow_ok_skip, (Hfl i)|].
    apply list_lookup_singleton_Some in H as [_ <-].
    split; simpl; [apply sublist_nil_l|lia].
  - destruct (publish_lookup _ _ _ _ Hwf H) as (s0 & Hs0 & [[-> Ht]| ->]).
    + apply flow_ok_try_send; eauto.
    + apply flow_ok_skip; eauto.
  - apply flow_ok_skip. rewrite list_lookup_alter in H. case_decide; subst; [|eauto].
    apply fmap_Some in H as (s0 & Hs0 & ->).
    eapply flow_ok_weaken; [apply recv_one_topic| |apply recv_one_mailbox|eauto].
    by rewrite recv_one_flow.
  - apply flow_ok_skip. apply list_lookup_imap_Some in H as (s0 & Hs0 & ->).
    destruct (finish_task_flow (w i) s0) as (? & ? & ?). eapply flow_ok_weaken; eauto.
Qed.

Lemma run_snoc b tr a : run b (tr ++ [a]) = act (run b tr) a.
Proof. unfold run. by rewrite foldl_app. Qed.

Lemma bus_run_inv b tr :
  tasks b = [] → senders b = ∅ →
  senders_wf (run b tr) ∧ ∀ i s, tasks (run b tr) !! i = Some s → flow_ok tr s.
Proof.
  intros Ht Hs. induction tr as [|a tr [IH1 IH2]] using rev_ind.
  - split; intros ??; simpl; rewrite ?Ht, ?Hs; [by rewrite lookup_empty|by rewrite lookup_nil].
  - rewrite run_snoc. split; [by apply senders_wf_act|by apply flow_act].
Qed.

(** A live subscription: its channel is fed by the topic and [l] went in. *)
Definition attached (t : string) (i : nat) (l : list (Event Payload)) b : Prop :=
  ∃ ix s, senders b !! t = Some ix ∧ i ∈ ix ∧ tasks b !! i = Some s ∧ receiving s = true
          ∧ handled s ++ mailbox s = l.

Lemma recv_one_receiving s : receiving (recv_one s) = receiving s.
Proof. unfold recv_one. destruct (receiving s) eqn:E, (mailbox s); simpl; congruence. Qed.

Definition is_close (a : Action Payload) : Prop := match a with Close _ => True | _ => False end.

Lemma attached_act t i l a b :
  senders_wf b → attached t i l b → ¬ is_close a →
  (length (l ++ published_on t [a]) ≤ LOCAL_BUS_CAP)%nat →
  attached t i (l ++ published_on t [a]) (act b a).
Proof.
  intros Hwf (ix & s & Hix & Hi & Hs & Hr & Hl) Hc Hcap.
  destruct a as [t'|e|j|w]; simpl in *; rewrite ?app_nil_r in *; [..|done].
  - unfold attached, subscribe; simpl. exists (if decide (t' = t) then ix ++ [length (tasks b)] else ix), s.
    rewrite lookup_app_l by by eapply lookup_lt_Some. split.
    + rewrite lookup_insert. case_decide; subst; [|done]. by rewrite Hix.
    + split; [|done]. case_decide; set_solver.
  - case_bool_decide as Ht; simplify_eq/=; rewrite ?app_nil_r in *.
    + exists ix, (try_send e s). split; [done|]. split; [done|]. unfold publish; simpl.
      rewrite Hix. simpl. rewrite foldl_alter_lookup by by eapply Hwf.
      rewrite bool_decide_eq_true_2, Hs by done. split; [done|].
      unfold try_send. rewrite Hr, bool_decide_eq_true_2; simpl; [by rewrite app_assoc|].
      rewrite !length_app in Hcap. simpl in Hcap. lia.
    + exists ix, s. split; [done|]. split; [done|]. unfold publish; simpl.
      destruct (senders b !! topic e) as [ix'|] eqn:E; simpl; [|done].
      destruct (Hwf _ _ E) as [Hnd Htop]. rewrite foldl_alter_lookup by done.
      rewrite bool_decide_eq_false_2; [done|]. intros Hi'.
      destruct (Htop _ Hi') as (s1 & ? & ?). destruct (proj2 (Hwf _ _ Hix) _ Hi) as (s2 & ? & ?).
      congruence.
  - exists ix. unfold recv, with_tasks; simpl. setoid_rewrite list_lookup_alter. destruct (decide (j = i)) as [->|].
    + exists (recv_one s). rewrite Hs. split; [done|]. split; [done|]. split; [done|].
      by rewrite recv_one_receiving, recv_one_flow.
    + exists s. done.
Qed.

Lemma attached_run t i l tr b :
  senders_wf b → attached t i l b → Forall (fun a => ¬ is_close a) tr →
  (length (l ++ published_on t tr) ≤ LOCAL_BUS_CAP)%nat →
  attached t i (l ++ published_on t tr) (run b tr).
Proof.
  revert l b. induction tr as [|a tr IH]; intros l b Hwf Ha Hc Hcap.
  { simpl. by rewrite app_nil_r. }
  inversion_clear Hc. change (run b (a :: tr)) with (run (act b a) tr).
  change (a :: tr) with ([a] ++ tr) in *.
  rewrite published_on_app, app_assoc in *. apply IH; try done.
  - by apply senders_wf_act.
  - apply attached_act; try done. rewrite length_app in Hcap. lia.
Qed.
End InProcessFacts.

(** The in-process plane keeps order and invents nothing.  Whatever a
    process does to its bus, the events a subscriber's handler was called with,
    followed by those still queued for it, are events published on its topic,
    in publication order and none more often than published (an
    order-preserving embedding into the publications), and its mailbox never
    exceeds [LOCAL_BUS_CAP]. *)
Theorem bus_fifo_bounded {Payload} (tr : list (Action Payload)) i s :
  tasks (run with_transport tr) !! i = Some s →
  sublist (handled s ++ mailbox s) (published_on (sub_topic s) tr)
  ∧ (length (mailbox s) ≤ LOCAL_BUS_CAP)%nat.
Proof. intros H. by apply (proj2 (bus_run_inv with_transport tr eq_refl eq_refl) i). Qed.

Lemma bus_fifo_bounded_witness :
  let tr := [Subscribe "a"; Publish (mkEvent "a" 1); Publish (mkEvent "b" 2); Recv 0; Publish (mkEvent "a" 3)] in
  sublist [mkEvent "a" 1; mkEvent "a" 3] (published_on "a" tr) ∧ (1 ≤ LOCAL_BUS_CAP)%nat.
Proof.
  intros tr. apply (bus_fifo_bounded tr 0 (mkSubscriber "a" [mkEvent "a" 3] true [mkEvent "a" 1])).
  vm_compute. reflexivity.
Defined.

(** The in-process plane loses nothing within its bound.  A subscriber gets
    every event published on its topic after it subscribed, exactly once and in
    order, across whatever else the process does, as long as the bus is not
    closed and no more than [LOCAL_BUS_CAP] events were published. *)
Theorem bus_lossless {Payload} (tr1 tr2 : list (Action Payload)) t :
  Forall (fun a => ¬ is_close a) tr2 →
  (length (published_on t tr2) ≤ LOCAL_BUS_CAP)%nat →
  let b1 := run with_transport tr1 in
  ∃ s, tasks (run b1 (Subscribe t :: tr2)) !! length (tasks b1) = Some s
       ∧ handled s ++ mailbox s = published_on t tr2.
Proof.
  intros Hc Hcap b1. assert (Hwf : senders_wf b1) by by apply bus_run_inv.
  assert (Ha : attached t (length (tasks b1)) [] (subscribe t b1)).
  { eexists _, _. unfold subscribe; simpl. rewrite lookup_insert_eq. split; [done|].
    split; [apply elem_of_app; right; by left|].
    rewrite lookup_app_r, Nat.sub_diag by lia. done. }
  apply (attached_run t _ [] tr2) in Ha; [|by apply senders_wf_subscribe|done..].
  destruct Ha as (ix & s & _ & _ & Hs & _ & Hl). by exists s.
Qed.

Lemma bus_lossless_witness :
  ∃ s, tasks (run with_transport [Subscribe "b"; Publish (mkEvent "a" 0);
                                  Subscribe "a"; Publish (mkEvent "a" 1); Recv 1; Publish (mkEvent "a" 2)])
         !! 1%nat = Some s
       ∧ handled s ++ mailbox s = [mkEvent "a" 1; mkEvent "a" 2].
Proof.
  apply (bus_lossless [Subscribe "b"; Publish (mkEvent "a" 0)]
           [Publish (mkEvent "a" 1); Recv 1; Publish (mkEvent "a" 2)] "a").
  - repeat constructor; simpl; tauto.
  - simpl. unfold LOCAL_BUS_CAP. lia.
Defined.
