(* ===== verification/EventLog.v ===== *)
(** * EventLog: the XID-ordered shared log of [core/asyncevents/src/store.rs]

    The database half of the durable plane.  [Db] holds what the plane's SQL
    reads and writes: the tables of schema [asyncevents], and the part of
    Postgres the position model is built on, namely the transactions that hold
    an xid and have not finished, the xid the engine assigns next, and the
    identity sequence behind [tie_breaker].  A transaction's writes stay in its
    [Tx] until [commit_tx]; [abort_tx] drops them.

    [WRITER_LOCK_KEY] is the [tx_writer] flag of a transaction (shared form) and
    the [bumping] field (exclusive form); the waiting those locks cause is a
    guard of the steps in [EventPlane].  Postgres's [jsonb] input function is
    not part of the sources: it is the parameter [jsonb_in]. *)

From S2P Require Import Prelude Text Bus.
#[local] Open Scope Z_scope.

(** ** Positions: SQL row comparison on [(generation, producer_xid, tie_breaker)] *)

Definition pos_lt (p q : EventPosition) : Prop :=
  generation p < generation q
  ∨ generation p = generation q
    ∧ (xid p < xid q ∨ xid p = xid q ∧ tie p < tie q).

Definition pos_le (p q : EventPosition) : Prop := ¬ pos_lt q p.

#[global] Instance pos_lt_dec : RelDecision pos_lt.
Proof. unfold pos_lt. intros p q. apply _. Defined.
#[global] Instance pos_le_dec : RelDecision pos_le.
Proof. unfold pos_le. intros p q. apply _. Defined.

(** ** Tables *)

Record EventRow := mkEventRow {
  ev_pos : EventPosition;
  event_id : string;
  ev_topic : string;
  ev_version : Z;
  ev_payload : string;
  created_at : Z;
}.

Record PlaneMeta := mkMeta {
  meta_generation : Z;
  system_identifier : string;
}.

Inductive SubState := Active | Paused | Retired.

Record SubRow := mkSub {
  s_topic : string;
  s_version : Z;
  s_state : SubState;
  s_cursor : EventPosition;
  s_next_attempt : option Z;
  s_failures : Z;
  s_last_error : option string;
  s_spec_hash : string;
  s_start_kind : string;
  s_updated_at : Z;
}.

#[global] Instance EventRow_eq_dec : EqDecision EventRow.
Proof. solve_decision. Defined.
#[global] Instance SubState_eq_dec : EqDecision SubState.
Proof. solve_decision. Defined.

(** One open transaction that holds an xid: the event rows it inserted, whether
    it holds the writer lock in shared form, the [history_contracts] rows it
    inserted. *)
Record Tx := mkTx {
  tx_rows : list EventRow;
  tx_writer : bool;
  tx_contracts : gmap (string * Z) (string * Z);
}.

Record Db := mkDb {
  next_xid : Z;
  next_tie : Z;
  open_txs : gmap Z Tx;
  events : list EventRow;
  plane_meta : option PlaneMeta;
  bumping : option Z;
  subscriptions : gmap string SubRow;
  history_contracts : gmap (string * Z) (string * Z);
}.

(** Field updates. *)
Definition set_open (f : gmap Z Tx → gmap Z Tx) (db : Db) : Db :=
  mkDb (next_xid db) (next_tie db) (f (open_txs db)) (events db) (plane_meta db)
       (bumping db) (subscriptions db) (history_contracts db).
Definition set_events (f : list EventRow → list EventRow) (db : Db) : Db :=
  mkDb (next_xid db) (next_tie db) (open_txs db) (f (events db)) (plane_meta db)
       (bumping db) (subscriptions db) (history_contracts db).
Definition set_subs (f : gmap string SubRow → gmap string SubRow) (db : Db) : Db :=
  mkDb (next_xid db) (next_tie db) (open_txs db) (events db) (plane_meta db)
       (bumping db) (f (subscriptions db)) (history_contracts db).
Definition set_contracts (h : gmap (string * Z) (string * Z)) (db : Db) : Db :=
  mkDb (next_xid db) (next_tie db) (open_txs db) (events db) (plane_meta db)
       (bumping db) (subscriptions db) h.

(** ** Transactions *)

(** The engine assigns [next_xid] to a transaction that needs an xid. *)
Definition begin_tx (db : Db) : Db * Z :=
  (mkDb (next_xid db + 1) (next_tie db) (<[next_xid db := mkTx [] false ∅]> (open_txs db))
        (events db) (plane_meta db) (bumping db) (subscriptions db) (history_contracts db),
   next_xid db).

Definition commit_tx (x : Z) (db : Db) : Db :=
  match open_txs db !! x with
  | None => db
  | Some tx =>
      mkDb (next_xid db) (next_tie db) (delete x (open_txs db)) (events db ++ tx_rows tx)
           (plane_meta db) (bumping db) (subscriptions db)
           (tx_contracts tx ∪ history_contracts db)
  end.

Definition abort_tx (x : Z) (db : Db) : Db := set_open (delete x) db.

(** [pg_snapshot_xmin(pg_current_snapshot())]: the lowest xid still open, or the
    next one to be assigned. *)
Definition xmin (db : Db) : Z :=
  map_fold (fun x _ m => Z.min x m) (next_xid db) (open_txs db).

(** ** Errors of the durable transport *)

Inductive TransportFault :=
| VersionOverflow
| HistoryDrift
| RowNotFound
| CheckViolation
| UniqueViolation
| InvalidJson.

(** ** [ensure_history_contract] *)

Definition policy_columns (h : HistoryPolicy) : string * Z :=
  match h with
  | MinRetention days => ("min_retention", default i32_max (i32_try_from days))
  | KeepForever => ("keep_forever", 7)
  end.

(** On the table as the caller's connection sees it: insert unless present,
    read back, refuse a drifted policy. *)
Definition ensure_history_contract (t : string) (version : Z) (h : HistoryPolicy)
    (table : gmap (string * Z) (string * Z))
  : result TransportFault (gmap (string * Z) (string * Z)) :=
  let '(policy, days) := policy_columns h in
  match i32_try_from version with
  | None => Err VersionOverflow
  | Some v =>
      let table' := match table !! (t, v) with
                    | Some _ => table
                    | None => <[(t, v) := (policy, days)]> table
                    end in
      match table' !! (t, v) with
      | None => Err RowNotFound
      | Some (stored_policy, stored_days) =>
          let drifted := bool_decide (stored_policy ≠ policy)
                         || (bool_decide (policy = "min_retention")
                             && bool_decide (stored_days ≠ days)) in
          if drifted then Err HistoryDrift else Ok table'
      end
  end.

(** ** The single writer: [asyncevents.append_event] and [append] *)

Section Writer.
Context (jsonb_in : string → option string).

(** The SQL function [asyncevents.append_event], run by the open transaction
    [x]; [uuid] and [now] are the column defaults of the inserted row. *)
Definition append_event (x : Z) (uuid : string) (now : Z) (t : string) (v : Z) (payload : string)
    (db : Db) : result TransportFault (Db * string) :=
  match open_txs db !! x, plane_meta db with
  | Some tx, Some m =>
      let row := mkEventRow (mkPos (meta_generation m) x (next_tie db)) uuid t v payload now in
      if v <=? 0 then Err CheckViolation else
      if existsb (fun e => bool_decide (event_id e = uuid))
                 (events db ++ mjoin (tx_rows <$> (map_to_list (open_txs db)).*2))
      then Err UniqueViolation
      else
      Ok (mkDb (next_xid db) (next_tie db + 1)
               (<[x := mkTx (tx_rows tx ++ [row]) true (tx_contracts tx)]> (open_txs db))
               (events db) (plane_meta db) (bumping db) (subscriptions db) (history_contracts db),
          uuid)
  | _, _ => Err RowNotFound
  end.

(** [append]: the i32 conversion of the contract version, the [::jsonb] cast,
    then the SQL function. *)
Definition append (x : Z) (uuid : string) (now : Z) (c : EventContract) (payload : string)
    (db : Db) : result TransportFault (Db * string) :=
  match i32_try_from (ec_version c) with
  | None => Err VersionOverflow
  | Some v =>
      match jsonb_in payload with
      | None => Err InvalidJson
      | Some p => append_event x uuid now (ec_topic c) v p db
      end
  end.

(** [LogTransport::enqueue_tx]: both statements on the producer's transaction. *)
Definition enqueue_tx (x : Z) (uuid : string) (now : Z) (c : EventContract) (payload : string)
    (db : Db) : result TransportFault Db :=
  match open_txs db !! x with
  | None => Err RowNotFound
  | Some tx =>
      table ← ensure_history_contract (ec_topic c) (ec_version c) (ec_history c)
                (tx_contracts tx ∪ history_contracts db);
      let db1 := set_open (<[x := mkTx (tx_rows tx) (tx_writer tx)
                                       (table ∖ history_contracts db)]>) db in
      r ← append x uuid now c payload db1;
      Ok (fst r)
  end.
End Writer.

(** ** Generations *)

(** [bump_generation] up to the exclusive lock; its commit advances the
    generation and adopts the identity of the current cluster. *)
Definition bump_begin (db : Db) : Db :=
  let '(db1, x) := begin_tx db in
  mkDb (next_xid db1) (next_tie db1) (open_txs db1) (events db1) (plane_meta db1)
       (Some x) (subscriptions db1) (history_contracts db1).

Definition bump_commit (identity : string) (db : Db) : result TransportFault (Db * Z) :=
  match bumping db, plane_meta db with
  | Some x, Some m =>
      let g := meta_generation m + 1 in
      Ok (mkDb (next_xid db) (next_tie db) (delete x (open_txs db)) (events db)
               (Some (mkMeta g identity)) None (subscriptions db) (history_contracts db), g)
  | _, _ => Err RowNotFound
  end.

Definition bump_abort (db : Db) : Db :=
  match bumping db with
  | Some x => mkDb (next_xid db) (next_tie db) (delete x (open_txs db)) (events db)
                   (plane_meta db) None (subscriptions db) (history_contracts db)
  | None => db
  end.

(** ** Schema and boot guards *)

(** The [plane_meta] seed of [ensure_schema]. *)
Definition seed_plane_meta (identity : string) (db : Db) : Db :=
  match plane_meta db with
  | Some _ => db
  | None => mkDb (next_xid db) (next_tie db) (open_txs db) (events db) (Some (mkMeta 1 identity))
                 (bumping db) (subscriptions db) (history_contracts db)
  end.

Inductive GuardError := Unseeded | IdentityChanged | PreparedEnabled | PreparedPending.

(** [startup_guards_on]: [current] is the cluster's identity, [mpt] the
    [max_prepared_transactions] setting, [prepared] the rows of
    [pg_prepared_xacts]. *)
Definition startup_guards_on (current mpt : string) (prepared : Z) (db : Db)
  : result GuardError unit :=
  match plane_meta db with
  | None => Err Unseeded
  | Some m =>
      if bool_decide (current ≠ system_identifier m) then Err IdentityChanged else
      if bool_decide (trim mpt ≠ "0") then Err PreparedEnabled else
      if bool_decide (prepared ≠ 0) then Err PreparedPending else Ok ()
  end.

(** [parse_xid8]. *)
Definition parse_xid8 (text : string) : option Z := result_ok (parse_u64 text).

(** ** Facts *)

(** Unfolds the row comparison and decides it componentwise. *)
Ltac pos_solve := unfold pos_le, pos_lt in *; simpl in *; try lia; intuition lia.

Lemma pos_lt_trans p q r : pos_lt p q → pos_lt q r → pos_lt p r.
Proof. pos_solve. Qed.
Lemma pos_le_lt_trans p q r : pos_le p q → pos_lt q r → pos_lt p r.
Proof. pos_solve. Qed.
Lemma pos_lt_le_trans p q r : pos_lt p q → pos_le q r → pos_lt p r.
Proof. pos_solve. Qed.
Lemma pos_le_trans p q r : pos_le p q → pos_le q r → pos_le p r.
Proof. pos_solve. Qed.
Lemma pos_lt_irrefl p : ¬ pos_lt p p.
Proof. pos_solve. Qed.
Lemma pos_lt_le p q : pos_lt p q → pos_le p q.
Proof. pos_solve. Qed.
Lemma pos_le_refl p : pos_le p p.
Proof. pos_solve. Qed.
Lemma pos_le_or_lt p q : pos_le p q ∨ pos_lt q p.
Proof. pos_solve. Qed.

Lemma pos_le_antisymm p q : pos_le p q → pos_le q p → p = q.
Proof.
  destruct p as [g1 x1 t1], q as [g2 x2 t2]. unfold pos_le, pos_lt; simpl. intros H1 H2.
  assert (g1 = g2 ∧ x1 = x2 ∧ t1 = t2) as (-> & -> & ->) by lia. done.
Qed.

#[export] Hint Resolve pos_lt_le pos_le_refl pos_lt_trans pos_le_lt_trans pos_lt_le_trans
  pos_le_trans : swarog.

(** [xmin] is a lower bound of the open xids and of the next one. *)
Lemma xmin_spec db :
  xmin db ≤ next_xid db ∧ ∀ x tx, open_txs db !! x = Some tx → xmin db ≤ x.
Proof.
  unfold xmin. generalize (next_xid db); intros n.
  apply (map_fold_weak_ind (fun r (m : gmap Z Tx) => r ≤ n ∧ ∀ x tx, m !! x = Some tx → r ≤ x)).
  - split; [lia|]. intros x tx H. by rewrite lookup_empty in H.
  - intros i x m r Hi [IH1 IH2]. split; [lia|]. intros y tx.
    rewrite lookup_insert. case_decide; subst; [lia|]. intros Hy%IH2. lia.
Qed.

Lemma xmin_lt_open db x tx z : open_txs db !! x = Some tx → z < xmin db → z < x.
Proof. intros H. pose proof (proj2 (xmin_spec db) _ _ H). lia. Qed.

(** A row of the log: committed, or inserted by a transaction still open. *)
Definition in_log (db : Db) (e : EventRow) : Prop :=
  e ∈ events db ∨ ∃ x tx, open_txs db !! x = Some tx ∧ e ∈ tx_rows tx.

Lemma in_log_committed db e : e ∈ events db → in_log db e.
Proof. by left. Qed.
#[export] Hint Resolve in_log_committed : swarog.

(** Every path of [enqueue_tx] that succeeds appends one row of the current
    generation to the transaction and takes the writer lock. *)
Lemma enqueue_tx_ok jsonb x uuid now c payload db db' :
  enqueue_tx jsonb x uuid now c payload db = Ok db' →
  ∃ tx m row cs, open_txs db !! x = Some tx ∧ plane_meta db = Some m
    ∧ ev_pos row = mkPos (meta_generation m) x (next_tie db)
    ∧ event_id row = uuid ∧ ev_topic row = ec_topic c ∧ ev_version row = ec_version c
    ∧ db' = mkDb (next_xid db) (next_tie db + 1)
                 (<[x := mkTx (tx_rows tx ++ [row]) true cs]> (open_txs db))
                 (events db) (plane_meta db) (bumping db) (subscriptions db)
                 (history_contracts db).
Proof.
  unfold enqueue_tx. intros H. destruct (open_txs db !! x) as [tx|] eqn:Ex; [|done].
  apply bind_ok in H as (table & _ & H). apply bind_ok in H as ([db1 u] & H & ?). simplify_eq/=.
  unfold append in H. case_match eqn:Ev; [|done]. destruct (jsonb payload) as [p|]; [|done].
  unfold append_event in H; simpl in H. rewrite lookup_insert_eq in H.
  destruct (plane_meta db) as [m|]; [|done]. repeat case_match; try done. simplify_eq/=.
  unfold i32_try_from in Ev. case_match; simplify_eq.
  exists tx, m, (mkEventRow (mkPos (meta_generation m) x (next_tie db)) u (ec_topic c)
                   (ec_version c) p now), (table ∖ history_contracts db).
  by rewrite insert_insert_eq.
Qed.
