(* ===== verification/Delivery.v ===== *)
(** * Delivery: subscriptions, reconciliation and the pull worker

    [core/asyncevents/src/transport.rs] ([SubEntry]), [catalog.rs]
    ([reconcile_one]) and [worker.rs] (one delivery attempt and its failure
    state machine).  A delivery attempt holds the subscription row's lock and an
    open transaction while the handler runs, so it is split where other
    sessions may interleave: [deliver_begin] up to the handler call, then one of
    [deliver_commit], [deliver_fault], [deliver_terminate] (followed, on another
    connection, by [record_failure]).  [deliver_one_on] puts the parts together
    for a worker nobody interleaves with.  Times are in microseconds, the
    resolution of [timestamptz]. *)

From S2P Require Import Prelude Text Bus EventLog.
From stdpp Require Import pretty.
From Stdlib Require Import Ascii.
#[local] Open Scope Z_scope.

(** ** [SubEntry] *)

Record SubEntry := mkEntry {
  entry_spec : SubscriptionSpec;
  entry_topic : string;
  entry_version : Z;
  entry_history : option HistoryPolicy;
}.

Definition start_desc (s : StartPosition) : string :=
  match s with
  | Genesis => "genesis"
  | AfterRegistration => "after_registration"
  | Explicit p => "explicit:" +:+ pretty (generation p) +:+ "/" +:+ pretty (xid p)
                  +:+ "/" +:+ pretty (tie p)
  end.

Definition spec_hash (e : SubEntry) : string :=
  entry_topic e +:+ "|v" +:+ pretty (entry_version e) +:+ "|" +:+ start_desc (spec_start (entry_spec e)).

Definition start_kind (e : SubEntry) : string :=
  match spec_start (entry_spec e) with
  | Genesis => "genesis"
  | AfterRegistration => "after_registration"
  | Explicit _ => "explicit"
  end.

(** ** [catalog::reconcile_one] *)

Inductive ReconcileError :=
| EntryVersionOverflow
| History (f : TransportFault)
| NoGeneration
| SpecMismatch (registered stored : string).

(** The cursor a new row starts from; [x] is the xid of the inserting
    transaction.  [None] is the NOT NULL violation of an unseeded plane. *)
Definition initial_cursor (start : StartPosition) (x : Z) (db : Db) : option EventPosition :=
  match start with
  | Genesis => Some (mkPos 0 0 0)
  | AfterRegistration => (fun m => mkPos (meta_generation m) x i64_max) <$> plane_meta db
  | Explicit p => Some p
  end.

(** The insert-if-missing and the hash check, one transaction: an error drops
    the transaction. *)
Definition reconcile_row (e : SubEntry) (v now : Z) (db : Db) : Db * result ReconcileError unit :=
  let '(db1, x) := begin_tx db in
  let hash := spec_hash e in
  match subscriptions db1 !! spec_id (entry_spec e) with
  | Some row =>
      if bool_decide (s_spec_hash row = hash) then (commit_tx x db1, Ok ())
      else (abort_tx x db1, Err (SpecMismatch hash (s_spec_hash row)))
  | None =>
      match initial_cursor (spec_start (entry_spec e)) x db1 with
      | None => (abort_tx x db1, Err NoGeneration)
      | Some c =>
          let row := mkSub (entry_topic e) v Active c None 0 None hash (start_kind e) now in
          (commit_tx x (set_subs (<[spec_id (entry_spec e) := row]>) db1), Ok ())
      end
  end.

(** The history seed commits on its own, before the row's transaction. *)
Definition reconcile_one (e : SubEntry) (now : Z) (db : Db) : Db * result ReconcileError unit :=
  match i32_try_from (entry_version e) with
  | None => (db, Err EntryVersionOverflow)
  | Some v =>
      match entry_history e with
      | None => reconcile_row e v now db
      | Some h =>
          match ensure_history_contract (entry_topic e) (entry_version e) h (history_contracts db) with
          | Err f => (db, Err (History f))
          | Ok table => reconcile_row e v now (set_contracts table db)
          end
      end
  end.

(** [catalog::reconcile]: stops at the first entry that fails. *)
Fixpoint reconcile (subs : list SubEntry) (now : Z) (db : Db) : Db * result ReconcileError unit :=
  match subs with
  | [] => (db, Ok ())
  | e :: subs' =>
      match reconcile_one e now db with
      | (db', Ok _) => reconcile subs' now db'
      | (db', Err err) => (db', Err err)
      end
  end.

(** ** The worker *)

Definition PAUSE_AFTER : Z := 20.
Definition BACKOFF_MIN_SECS : Z := 1.
Definition BACKOFF_MAX_SECS : Z := 300.
Definition DELIVERIES_PER_SUB_PASS : nat := 64.

(** [backoff_secs]: every value is an integer below 2^31, exact in [f64]. *)
Definition backoff_secs (failures : Z) : Z :=
  let exp := clamp (failures - 1) 0 30 in
  Z.min (BACKOFF_MIN_SECS * Z.min (2 ^ exp) u32_max) BACKOFF_MAX_SECS.

Inductive Step := Delivered | Empty | Skipped | Faulted | Poisoned.

(** The next-event select: exact topic and version, past the cursor, and either
    of a completed generation or below the snapshot's xmin. *)
Definition past_cursor (t : string) (v : Z) (c : EventPosition) (e : EventRow) : Prop :=
  ev_topic e = t ∧ ev_version e = v ∧ pos_lt c (ev_pos e).

Definition frontier_eligible (db : Db) (e : EventRow) : Prop :=
  match plane_meta db with
  | Some m => generation (ev_pos e) < meta_generation m
  | None => False
  end ∨ xid (ev_pos e) < xmin db.

#[global] Instance past_cursor_dec t v c e : Decision (past_cursor t v c e).
Proof. unfold past_cursor. apply _. Defined.
#[global] Instance frontier_eligible_dec db e : Decision (frontier_eligible db e).
Proof. unfold frontier_eligible. destruct (plane_meta db); apply _. Defined.

(** [ORDER BY generation, producer_xid, tie_breaker LIMIT 1]. *)
Fixpoint first_by_pos (l : list EventRow) : option EventRow :=
  match l with
  | [] => None
  | e :: l' =>
      match first_by_pos l' with
      | None => Some e
      | Some e' => if bool_decide (pos_lt (ev_pos e') (ev_pos e)) then Some e' else Some e
      end
  end.

Definition select_next (t : string) (v : Z) (c : EventPosition) (db : Db) : option EventRow :=
  first_by_pos (filter (fun e => past_cursor t v c e ∧ frontier_eligible db e) (events db)).

(** The due-subscription select; [locked] is [SKIP LOCKED]'s view of the row. *)
Definition due (id : string) (now : Z) (locked : bool) (db : Db) : option SubRow :=
  if locked then None else
  match subscriptions db !! id with
  | Some row =>
      if bool_decide (s_state row = Active)
         && match s_next_attempt row with None => true | Some t => t <=? now end
      then Some row else None
  | None => None
  end.

(** What the worker holds while the handler runs. *)
Record Claim := mkClaim {
  cl_id : string;
  cl_xid : Z;
  cl_cursor : EventPosition;
  cl_failures : Z;
  cl_event : EventRow;
}.

(** From [BEGIN] to [SAVEPOINT deliver].  The row lock of [FOR UPDATE] gives the
    transaction its xid, which the snapshot of the second select then sees. *)
Definition deliver_begin (entry : SubEntry) (now : Z) (locked : bool) (db : Db)
  : Db * (Step + Claim) :=
  let id := spec_id (entry_spec entry) in
  match due id now locked db with
  | None => (db, inl Skipped)
  | Some row =>
      let '(db1, x) := begin_tx db in
      let version := default i32_max (i32_try_from (entry_version entry)) in
      match select_next (entry_topic entry) version (s_cursor row) db1 with
      | None => (commit_tx x db1, inl Empty)
      | Some ev => (db1, inr (mkClaim id x (s_cursor row) (s_failures row) ev))
      end
  end.

(** The handler returned [Ok]: advance the checkpoint and commit. *)
Definition advance (p : EventPosition) (now : Z) (row : SubRow) : SubRow :=
  mkSub (s_topic row) (s_version row) (s_state row) p None 0 None
        (s_spec_hash row) (s_start_kind row) now.

Definition deliver_commit (cl : Claim) (now : Z) (db : Db) : Db :=
  commit_tx (cl_xid cl)
    (set_subs (alter (advance (ev_pos (cl_event cl)) now) (cl_id cl)) db).

(** [record_failure]: a compare-and-set on the claim-time cursor and failure
    count. *)
Definition record_failure (id : string) (failures : Z) (error : string) (c : EventPosition)
    (claimed_failures now : Z) (db : Db) : Db :=
  let pause := PAUSE_AFTER <=? failures in
  set_subs (alter (fun row =>
      if bool_decide (s_cursor row = c ∧ s_failures row = claimed_failures)
      then mkSub (s_topic row) (s_version row) (if pause then Paused else s_state row)
                 (s_cursor row) (Some (now + backoff_secs failures * 1000000)) failures
                 (Some error) (s_spec_hash row) (s_start_kind row) now
      else row) id) db.

(** [ROLLBACK TO SAVEPOINT deliver]: the handler's writes go, and so does the
    writer lock if the handler took it; the transaction and its row lock stay. *)
Definition rollback_to_savepoint (x : Z) (db : Db) : Db :=
  set_open (alter (fun _ => mkTx [] false ∅) x) db.

(** The handler returned an error. *)
Definition deliver_fault (cl : Claim) (error : string) (now : Z) (db : Db) : Db :=
  commit_tx (cl_xid cl)
    (record_failure (cl_id cl) (wrap_i32 (cl_failures cl + 1)) error (cl_cursor cl)
       (cl_failures cl) now (rollback_to_savepoint (cl_xid cl) db)).

(** The handler timed out: its backend is terminated, which aborts the
    transaction; the failure is then recorded from a fresh connection. *)
Definition deliver_terminate (cl : Claim) (db : Db) : Db := abort_tx (cl_xid cl) db.

Definition timeout_record (cl : Claim) (error : string) (now : Z) (db : Db) : Db :=
  record_failure (cl_id cl) (wrap_i32 (cl_failures cl + 1)) error (cl_cursor cl)
    (cl_failures cl) now db.

(** ** One worker without interleaving

    The consumer's store is [S]; the handler runs on the delivery transaction,
    so its effect is kept exactly when the checkpoint advances. *)

Section OneWorker.
Context {S : Type}.

Inductive HandlerOutcome :=
| HOk (s : S)
| HErr (msg : string)
| HTimeout (msg : string).

Context (handler : S → EventRow → HandlerOutcome).

Definition deliver_one_on (entry : SubEntry) (now : Z) (st : S * Db) : (S * Db) * Step :=
  let '(s, db) := st in
  match deliver_begin entry now false db with
  | (db1, inl step) => ((s, db1), step)
  | (db1, inr cl) =>
      match handler s (cl_event cl) with
      | HOk s' => ((s', deliver_commit cl now db1), Delivered)
      | HErr msg => ((s, deliver_fault cl msg now db1), Faulted)
      | HTimeout msg => ((s, timeout_record cl msg now (deliver_terminate cl db1)), Poisoned)
      end
  end.

(** The inner loop of [drain_pass_on]: at most [n] deliveries; [false] asks the
    caller to reconnect. *)
Fixpoint drain_sub (n : nat) (entry : SubEntry) (now : Z) (st : S * Db) (delivered : Z)
  : (S * Db) * Z * bool :=
  match n with
  | O => (st, delivered, true)
  | Datatypes.S n' =>
      match deliver_one_on entry now st with
      | (st', Delivered) => drain_sub n' entry now st' (delivered + 1)
      | (st', Poisoned) => (st', delivered, false)
      | (st', _) => (st', delivered, true)
      end
  end.

(** [drain_pass_on] with no stop requested. *)
Fixpoint drain_pass_on (subs : list SubEntry) (now : Z) (st : S * Db) (delivered : Z)
  : (S * Db) * Z * bool :=
  match subs with
  | [] => (st, delivered, true)
  | entry :: subs' =>
      match drain_sub DELIVERIES_PER_SUB_PASS entry now st delivered with
      | (st', d, true) => drain_pass_on subs' now st' d
      | (st', d, false) => (st', d, false)
      end
  end.
End OneWorker.
Arguments HandlerOutcome : clear implicits.

(** ** Facts *)

Lemma first_by_pos_some l e :
  first_by_pos l = Some e → e ∈ l ∧ ∀ e', e' ∈ l → pos_le (ev_pos e) (ev_pos e').
Proof.
  revert e. induction l as [|a l IH]; intros e H; [done|]. simpl in H.
  destruct (first_by_pos l) as [b|] eqn:E.
  - destruct (IH b eq_refl) as [Hb Hmin]. case_bool_decide; simplify_eq.
    + split; [by right|]. intros e' [->|He']%elem_of_cons; eauto with swarog.
    + split; [by left|]. intros e' [->|He']%elem_of_cons; eauto with swarog.
  - simplify_eq. split; [by left|]. intros e' [->|He']%elem_of_cons; [eauto with swarog|].
    destruct l as [|b l]; [by apply elem_of_nil in He'|].
    simpl in E. by repeat case_match.
Qed.

Lemma first_by_pos_none l : first_by_pos l = None → l = [].
Proof. destruct l; simpl; [done|]. by repeat case_match. Qed.

(** What the next-event select returns: a committed, eligible row past the
    cursor, no later than any other such row. *)
Lemma select_next_some t v c db e :
  select_next t v c db = Some e →
  e ∈ events db ∧ past_cursor t v c e ∧ frontier_eligible db e
  ∧ ∀ e', e' ∈ events db → past_cursor t v c e' → frontier_eligible db e' →
          pos_le (ev_pos e) (ev_pos e').
Proof.
  intros [He Hmin]%first_by_pos_some. apply list_elem_of_filter in He as [[? ?] ?].
  split_and!; try done. intros e' ???. by apply Hmin, list_elem_of_filter.
Qed.

Lemma select_next_none t v c db e :
  select_next t v c db = None → e ∈ events db → past_cursor t v c e → ¬ frontier_eligible db e.
Proof.
  intros H%first_by_pos_none He Hp Hf.
  assert (e ∈ @nil EventRow) as []%elem_of_nil.
  rewrite <- H. apply list_elem_of_filter. done.
Qed.

Lemma start_desc_no_bar s : "|"%char ∉ to_bytes (start_desc s).
Proof.
  destruct s as [| |p]; unfold start_desc; [simpl; set_solver..|].
  rewrite !to_bytes_app, !not_elem_of_app.
  split_and!; try (apply pretty_Z_not_in; done); simpl; set_solver.
Qed.

#[global] Instance start_desc_inj : Inj (=) (=) start_desc.
Proof.
  intros [| |[g1 x1 t1]] [| |[g2 x2 t2]] H; simpl in H; try done.
  apply (inj (String.append _)) in H. rewrite !(str_app_assoc (pretty g1)), !(str_app_assoc (pretty g2)),
    !(str_app_assoc (_ +:+ _) (pretty _)) in H.
  apply str_sep_inj in H as [H Ht]; [|by apply pretty_Z_not_in..].
  rewrite <- !str_app_assoc in H.
  apply str_sep_inj in H as [Hg Hx]; [|by apply pretty_Z_not_in..].
  by apply (inj pretty) in Hg, Hx, Ht; subst.
Qed.

(** The spec identity determines topic, version and start position. *)
Lemma spec_hash_inj_parts e1 e2 :
  spec_hash e1 = spec_hash e2 →
  entry_topic e1 = entry_topic e2 ∧ entry_version e1 = entry_version e2
  ∧ spec_start (entry_spec e1) = spec_start (entry_spec e2).
Proof.
  unfold spec_hash. intros H.
  rewrite (str_app_assoc "|v"), (str_app_assoc (entry_topic e1)), (str_app_assoc "|v"),
    (str_app_assoc (entry_topic e2)) in H.
  apply str_sep_inj in H as [H Hs]; [|apply start_desc_no_bar..].
  change "|v" with ("|" +:+ "v") in H. rewrite <- !(str_app_assoc "|") in H.
  apply str_sep_inj in H as [Ht Hv];
    [|rewrite to_bytes_app, not_elem_of_app; (split; [simpl; set_solver|by apply pretty_Z_not_in])..].
  apply (inj (String.append "v")), (inj pretty) in Hv. by apply (inj start_desc) in Hs.
Qed.
