(* ===== verification/Worker.v ===== *)
(** * Worker: what one worker pass and its failure handling do

    Theorems on [Delivery]: an undisturbed drain pass delivers exactly the
    pending events in log order and moves the checkpoint to the last of them;
    a failing handler leaves checkpoint and log alone and drives the
    pause/backoff state machine; a stale failure report is dropped;
    registration is idempotent, never touches an existing checkpoint, and
    refuses a changed specification. *)

From S2P Require Import Prelude Text Bus EventLog Delivery.
#[local] Open Scope Z_scope.

(** ** Draining *)

Section Drain.
Context {S : Type} (apply : S → EventRow → S).

Definition accept (s : S) (e : EventRow) : HandlerOutcome S := HOk (apply s e).

Definition pos_before (a b : EventRow) : Prop := pos_lt (ev_pos a) (ev_pos b).

(** The database between two deliveries of a worker nobody interferes with. *)
Definition next_db (f : gmap string SubRow → gmap string SubRow) (db : Db) : Db :=
  mkDb (next_xid db + 1) (next_tie db) ∅ (events db) (plane_meta db) (bumping db)
       (f (subscriptions db)) (history_contracts db).

Lemma commit_own db f :
  open_txs db = ∅ →
  commit_tx (next_xid db) (set_subs f (fst (begin_tx db))) = next_db f db.
Proof.
  intros Ho. unfold commit_tx, next_db. simpl. rewrite Ho, lookup_insert_eq. simpl.
  by rewrite app_nil_r, (left_id_L ∅ (∪)), insert_empty, delete_singleton_eq.
Qed.

Lemma xmin_own db : open_txs db = ∅ → xmin (fst (begin_tx db)) = next_xid db.
Proof.
  intros Ho. unfold xmin. simpl. rewrite Ho, insert_empty, map_fold_singleton. lia.
Qed.

Lemma xmin_idle db : open_txs db = ∅ → xmin db = next_xid db.
Proof. intros Ho. unfold xmin. by rewrite Ho, map_fold_empty. Qed.

Lemma eligible_own db e :
  open_txs db = ∅ → frontier_eligible db e → frontier_eligible (fst (begin_tx db)) e.
Proof. intros Ho [?|Hx]; [by left|]. right. rewrite xmin_own by done. by rewrite xmin_idle in Hx. Qed.

Lemma eligible_next f db e :
  open_txs db = ∅ → frontier_eligible db e → frontier_eligible (next_db f db) e.
Proof.
  intros Ho [?|Hx]; [by left|]. right. rewrite xmin_idle by done. rewrite xmin_idle in Hx by done.
  simpl. lia.
Qed.

(** What is pending: the eligible events past the cursor, in order. *)
Definition pending (t : string) (v : Z) (c : EventPosition) (db : Db) (p : list EventRow) : Prop :=
  StronglySorted pos_before p ∧ (∀ e, e ∈ p ↔ e ∈ events db ∧ past_cursor t v c e)
  ∧ (∀ e, e ∈ p → frontier_eligible db e).

Lemma pending_select t v c db p :
  open_txs db = ∅ → pending t v c db p → select_next t v c (fst (begin_tx db)) = head p.
Proof.
  intros Ho (Hs & Hin & Hf). destruct (select_next _ _ _ _) as [e|] eqn:E.
  - apply select_next_some in E as (He & Hp & _ & Hmin). assert (Hep : e ∈ p) by by apply Hin.
    destruct p as [|a p]; [by apply elem_of_nil in Hep|]. simpl. f_equal.
    apply elem_of_cons in Hep as [?|Hep]; [done|]. inversion_clear Hs as [|? ? _ Ha].
    rewrite Forall_forall in Ha. destruct (Hmin a); [| | |by apply Ha].
    + apply Hin. by left.
    + apply Hin. by left.
    + apply eligible_own; [done|]. apply Hf. by left.
  - destruct p as [|a p]; [done|]. exfalso.
    assert (Ha : a ∈ a :: p) by by left. apply (select_next_none _ _ _ _ a E).
    + by apply Hin.
    + by apply Hin.
    + apply eligible_own; [done|]. by apply Hf.
Qed.

Lemma pending_tail t v c db f a p :
  open_txs db = ∅ → pending t v c db (a :: p) → pending t v (ev_pos a) (next_db f db) p.
Proof.
  intros Ho (Hs & Hin & Hf). inversion_clear Hs as [|? ? Hs' Ha]. rewrite Forall_forall in Ha.
  split; [done|]. destruct (proj1 (Hin a) ltac:(by left)) as (_ & _ & _ & Hca). split.
  - intros e. split.
    + intros He. destruct (proj1 (Hin e) ltac:(by right)) as (? & ? & ? & _).
      split; [done|]. do 2 (split; [done|]). by apply Ha.
    + intros (He & Ht & Hv & Hlt). assert (Hep : e ∈ a :: p).
      { apply Hin. split; [done|]. do 2 (split; [done|]). by eapply pos_lt_trans. }
      apply elem_of_cons in Hep as [->|?]; [by apply pos_lt_irrefl in Hlt|done].
  - intros e He. apply eligible_next; [done|]. apply Hf. by right.
Qed.

Definition is_due (now : Z) (row : SubRow) : Prop :=
  s_state row = Active ∧ match s_next_attempt row with None => True | Some t => t ≤ now end.

Lemma deliver_one_pending entry now s db row p :
  let id := spec_id (entry_spec entry) in
  open_txs db = ∅ → 0 ≤ entry_version entry ≤ i32_max →
  subscriptions db !! id = Some row → is_due now row →
  pending (entry_topic entry) (entry_version entry) (s_cursor row) db p →
  deliver_one_on accept entry now (s, db)
  = match p with
    | [] => ((s, next_db (fun m => m) db), Empty)
    | e :: _ => ((apply s e, next_db (alter (advance (ev_pos e) now) id) db), Delivered)
    end.
Proof.
  intros id Ho Hv Hrow [Hst Hna] Hp. unfold deliver_one_on, deliver_begin, due. fold id.
  rewrite Hrow, bool_decide_eq_true_2 by done.
  replace (match s_next_attempt row with None => true | Some t => t <=? now end) with true
    by (destruct (s_next_attempt row); [symmetry; by apply Z.leb_le|done]).
  cbn [andb]. rewrite (surjective_pairing (begin_tx db)).
  change (snd (begin_tx db)) with (next_xid db).
  unfold i32_try_from. rewrite (proj2 (Z.leb_le _ _) (proj2 Hv)).
  change (default i32_max (Some (entry_version entry))) with (entry_version entry).
  rewrite (pending_select _ _ _ _ p Ho Hp). destruct p as [|e p]; cbn [head].
  - by rewrite <- (commit_own db (fun m => m) Ho).
  - unfold accept, deliver_commit. cbn [cl_xid cl_id cl_event]. by rewrite commit_own.
Qed.

(** A drain pass delivers in order.  With no other transaction open, for a
    due active subscription whose pending eligible events in log order are [p],
    and a handler that accepts, a pass of at most [k] deliveries runs the
    handler on exactly the first [k] of them in that order, counts them, and
    leaves the checkpoint at the last one delivered (unmoved when nothing is
    pending); the log itself is unchanged. *)
Theorem drain_sub_in_order k entry now s db row p count :
  open_txs db = ∅ → 0 ≤ entry_version entry ≤ i32_max →
  subscriptions db !! spec_id (entry_spec entry) = Some row → is_due now row →
  pending (entry_topic entry) (entry_version entry) (s_cursor row) db p →
  ∃ db' row',
    drain_sub accept k entry now (s, db) count
    = ((foldl apply s (take k p), db'), count + Z.of_nat (length (take k p)), true)
    ∧ subscriptions db' !! spec_id (entry_spec entry) = Some row'
    ∧ s_cursor row' = default (s_cursor row) (ev_pos <$> last (take k p))
    ∧ events db' = events db ∧ open_txs db' = ∅.
Proof.
  revert s db row p count. induction k as [|k IH]; intros s db row p count Ho Hv Hrow Hdue Hp; cbn [drain_sub].
  { exists db, row. simpl. by rewrite Z.add_0_r. }
  rewrite (deliver_one_pending entry now s db row p Ho Hv Hrow Hdue Hp). destruct p as [|e p].
  { exists (next_db (fun m => m) db), row. simpl. by rewrite Z.add_0_r. }
  set (db1 := next_db _ db). destruct Hdue as [Hst _].
  destruct (IH (apply s e) db1 (advance (ev_pos e) now row) p (count + 1)) as (db' & row' & Hd & Hr & Hc & He & Ho').
  - done.
  - done.
  - simpl. by rewrite lookup_alter_eq, Hrow.
  - by split.
  - by apply (pending_tail _ _ (s_cursor row)).
  - exists db', row'. rewrite Hd. simpl. split; [|split_and!; [done| |done|done]].
    + f_equal. f_equal. lia.
    + rewrite Hc. destruct (take k p) as [|b l] eqn:E; [done|].
      change (last (e :: b :: l)) with (last (b :: l)).
      destruct (last (b :: l)) eqn:El; [done|]. by apply last_None in El.
Qed.
End Drain.

(** ** The failure state machine *)

(** The retry delay.  Whatever the failure count, the delay is between one
    second and five minutes and does not shrink as failures accumulate; it
    doubles from one second up to the ninth failure and is five minutes from
    the tenth on. *)
Theorem backoff_schedule f g :
  BACKOFF_MIN_SECS ≤ backoff_secs f ≤ BACKOFF_MAX_SECS
  ∧ (f ≤ g → backoff_secs f ≤ backoff_secs g)
  ∧ (1 ≤ f ≤ 9 → backoff_secs f = 2 ^ (f - 1)) ∧ (10 ≤ f → backoff_secs f = BACKOFF_MAX_SECS).
Proof.
  assert (Hval : ∀ e, 0 ≤ e ≤ 30 → Z.min (2 ^ e) u32_max = 2 ^ e ∧ 1 ≤ 2 ^ e).
  { intros e He. pose proof (Z.pow_le_mono_r 2 e 30 ltac:(lia) ltac:(lia)).
    pose proof (Z.pow_pos_nonneg 2 e ltac:(lia) ltac:(lia)).
    assert (2 ^ 30 ≤ u32_max) by (vm_compute; discriminate). lia. }
  unfold backoff_secs, BACKOFF_MIN_SECS, BACKOFF_MAX_SECS.
  pose proof (clamp_bounds (f - 1) 0 30 ltac:(lia)) as Hf.
  pose proof (clamp_bounds (g - 1) 0 30 ltac:(lia)) as Hg.
  destruct (Hval _ Hf) as [-> ?], (Hval _ Hg) as [-> ?]. split; [lia|]. split; [|split].
  - intros Hfg. assert (clamp (f - 1) 0 30 ≤ clamp (g - 1) 0 30) as Hle.
    { unfold clamp. repeat case_match; lia. }
    pose proof (Z.pow_le_mono_r 2 _ _ ltac:(lia) Hle). lia.
  - intros Hr. rewrite clamp_id by lia.
    pose proof (Z.pow_le_mono_r 2 (f - 1) 8 ltac:(lia) ltac:(lia)). lia.
  - intros Hr. assert (9 ≤ clamp (f - 1) 0 30) as Hle by (unfold clamp; repeat case_match; lia).
    pose proof (Z.pow_le_mono_r 2 _ _ ltac:(lia) Hle). lia.
Qed.

(** The row after one more failure. *)
Definition failed_row (msg : string) (now : Z) (row : SubRow) : SubRow :=
  mkSub (s_topic row) (s_version row)
        (if PAUSE_AFTER <=? s_failures row + 1 then Paused else s_state row)
        (s_cursor row) (Some (now + backoff_secs (s_failures row + 1) * 1000000))
        (s_failures row + 1) (Some msg) (s_spec_hash row) (s_start_kind row) now.

(** A failing handler.  When the handler of a claimed delivery returns an
    error, its transaction commits nothing of the handler's work: the log, the
    other subscriptions and the checkpoint stay; the failure count goes up by
    one, the error and the next attempt time are stored, and the subscription
    is paused exactly from the twentieth consecutive failure on. *)
Theorem deliver_fault_effect cl msg now db row tx :
  open_txs db !! cl_xid cl = Some tx → subscriptions db !! cl_id cl = Some row →
  s_cursor row = cl_cursor cl → s_failures row = cl_failures cl → 0 ≤ s_failures row < i32_max →
  let db' := deliver_fault cl msg now db in
  subscriptions db' = <[cl_id cl := failed_row msg now row]> (subscriptions db)
  ∧ events db' = events db ∧ history_contracts db' = history_contracts db
  ∧ open_txs db' = delete (cl_xid cl) (open_txs db).
Proof.
  intros Hx Hrow Hc Hf Hr. unfold deliver_fault, commit_tx. cbn.
  rewrite lookup_alter_eq, Hx. cbn. rewrite app_nil_r, (left_id_L ∅ (∪)).
  split; [|split_and!; [done..|]].
  - apply map_eq. intros id. rewrite lookup_alter, lookup_insert. case_decide; [|done]. subst.
    rewrite Hrow. simpl. rewrite bool_decide_eq_true_2 by done. unfold failed_row.
    rewrite wrap_i32_id by (unfold i32_min, i32_max in *; lia). by rewrite <- Hf, Hc.
  - apply map_eq. intros x. rewrite !lookup_delete, lookup_alter. by repeat case_decide.
Qed.

Lemma deliver_fault_effect_witness :
  let row := mkSub "t" 1 Active (mkPos 1 5 7) None 19 None "t|v1|genesis" "genesis" 0 in
  let ev := mkEventRow (mkPos 1 6 8) "u" "t" 1 "{}" 0 in
  let db := mkDb 9 9 {[ 8 := mkTx [ev] true ∅ ]} [] (Some (mkMeta 1 "c")) None {[ "s" := row ]} ∅ in
  s_state (failed_row "boom" 40 row) = Paused
  ∧ subscriptions (deliver_fault (mkClaim "s" 8 (mkPos 1 5 7) 19 ev) "boom" 40 db)
    = <["s" := failed_row "boom" 40 row]> {[ "s" := row ]}.
Proof.
  intros row ev db. split; [reflexivity|].
  apply (deliver_fault_effect (mkClaim "s" 8 (mkPos 1 5 7) 19 ev) "boom" 40 db row (mkTx [ev] true ∅));
    [reflexivity..|]. simpl. unfold i32_max. lia.
Defined.

(** A late failure report.  The report of a timed-out attempt, written from
    another connection, changes nothing at all when the checkpoint or the
    failure count has moved since the attempt was claimed. *)
Theorem stale_timeout_dropped cl msg now db row :
  subscriptions db !! cl_id cl = Some row →
  s_cursor row ≠ cl_cursor cl ∨ s_failures row ≠ cl_failures cl →
  timeout_record cl msg now db = db.
Proof.
  intros Hrow Hne. unfold timeout_record, record_failure, set_subs. rewrite alter_id; [by destruct db|].
  intros row' ?. simplify_eq. rewrite bool_decide_eq_false_2; [done|]. naive_solver.
Qed.

Lemma stale_timeout_dropped_witness :
  let row := mkSub "t" 1 Active (mkPos 1 6 8) None 0 None "t|v1|genesis" "genesis" 0 in
  let ev := mkEventRow (mkPos 1 6 8) "u" "t" 1 "{}" 0 in
  let db := mkDb 9 9 ∅ [ev] (Some (mkMeta 1 "c")) None {[ "s" := row ]} ∅ in
  timeout_record (mkClaim "s" 8 (mkPos 1 5 7) 0 ev) "slow" 40 db = db.
Proof.
  intros row ev db. apply (stale_timeout_dropped _ _ _ db row); [reflexivity|]. left. discriminate.
Defined.

Lemma backoff_schedule_witness : backoff_secs 3 = 4 ∧ backoff_secs 3 ≤ backoff_secs 12.
Proof.
  destruct (backoff_schedule 3 12) as (_ & Hmono & Hpow & _). split.
  - apply Hpow. lia.
  - apply Hmono. lia.
Defined.

Lemma drain_sub_in_order_witness :
  let entry := mkEntry (mkSpec "s" Genesis) "t" 1 None in
  let row := mkSub "t" 1 Active (mkPos 0 0 0) None 0 None "t|v1|genesis" "genesis" 0 in
  let a := mkEventRow (mkPos 1 5 2) "a" "t" 1 "{}" 0 in
  let b := mkEventRow (mkPos 1 4 3) "b" "t" 1 "{}" 0 in
  let db := mkDb 9 9 ∅ [a; b] (Some (mkMeta 1 "c")) None {[ "s" := row ]} ∅ in
  ∃ db' row', drain_sub (accept (fun s e => s ++ [event_id e])) 64 entry 7 ([], db) 0
              = (((["b"; "a"], db'), 2), true)
    ∧ subscriptions db' !! "s" = Some row' ∧ s_cursor row' = mkPos 1 5 2
    ∧ events db' = [a; b] ∧ open_txs db' = ∅.
Proof.
  intros entry row a b db.
  apply (drain_sub_in_order (fun s e => s ++ [event_id e]) 64 entry 7 [] db row [b; a] 0).
  - reflexivity.
  - simpl. unfold i32_max. lia.
  - reflexivity.
  - done.
  - split; [repeat constructor; unfold pos_before, pos_lt; simpl; lia|]. split.
    + intros e. rewrite !elem_of_cons, elem_of_nil. split.
      * intros [->|[->|[]]]; (split; [simpl; set_solver|]); do 2 (split; [done|]); unfold pos_lt; simpl; lia.
      * intros [H _]. simpl in H. rewrite !elem_of_cons, elem_of_nil in H. naive_solver.
    + intros e. rewrite !elem_of_cons, elem_of_nil.
      intros [->|[->|[]]]; right; vm_compute; reflexivity.
Defined.

(** ** Registration *)

Lemma ensure_history_idem t v h table table' :
  ensure_history_contract t v h table = Ok table' → ensure_history_contract t v h table' = Ok table'.
Proof.
  unfold ensure_history_contract. destruct (policy_columns h) as [policy days].
  destruct (i32_try_from v) as [v'|]; [|done].
  set (table1 := match table !! (t, v') with Some _ => table | None => _ end).
  destruct (table1 !! (t, v')) as [[sp sd]|] eqn:E1; [|done].
  case_match eqn:Ed; [done|]. intros [= <-]. by rewrite E1, E1, Ed.
Qed.

Lemma reconcile_row_ok e v now db db' :
  reconcile_row e v now db = (db', Ok ()) →
  ∃ row, subscriptions db' !! spec_id (entry_spec e) = Some row ∧ s_spec_hash row = spec_hash e
    ∧ match subscriptions db !! spec_id (entry_spec e) with
      | Some old => subscriptions db' = subscriptions db
      | None => subscriptions db' = <[spec_id (entry_spec e) := row]> (subscriptions db)
                ∧ s_state row = Active ∧ s_failures row = 0
                ∧ initial_cursor (spec_start (entry_spec e)) (next_xid db) db = Some (s_cursor row)
      end.
Proof.
  unfold reconcile_row. simpl. set (id := spec_id (entry_spec e)).
  assert (Hsubs : ∀ x d, subscriptions (commit_tx x d) = subscriptions d)
    by (intros; unfold commit_tx; by case_match).
  destruct (subscriptions db !! id) as [row|] eqn:E.
  - case_bool_decide; intros; simplify_eq. rewrite Hsubs. simpl. by exists row.
  - destruct (initial_cursor _ _ _) as [c|] eqn:Ec; intros; simplify_eq. rewrite Hsubs. simpl.
    eexists. rewrite lookup_insert_eq. split; [done|]. split; [done|]. split; [done|].
    do 2 (split; [done|]). unfold initial_cursor in *. by destruct (spec_start _).
Qed.

Lemma reconcile_row_existing e v now db row :
  subscriptions db !! spec_id (entry_spec e) = Some row →
  subscriptions (fst (reconcile_row e v now db)) = subscriptions db
  ∧ snd (reconcile_row e v now db)
    = if bool_decide (s_spec_hash row = spec_hash e) then Ok ()
      else Err (SpecMismatch (spec_hash e) (s_spec_hash row)).
Proof.
  intros Hrow. unfold reconcile_row. simpl. rewrite Hrow.
  case_bool_decide; simpl; [|done]. split; [|done]. unfold commit_tx. by case_match.
Qed.

Lemma reconcile_one_ok e now db db' :
  reconcile_one e now db = (db', Ok ()) →
  ∃ v db0, i32_try_from (entry_version e) = Some v ∧ reconcile_row e v now db0 = (db', Ok ())
    ∧ subscriptions db0 = subscriptions db ∧ next_xid db0 = next_xid db ∧ plane_meta db0 = plane_meta db.
Proof.
  unfold reconcile_one. intros H. destruct (i32_try_from _) as [v|]; [|done]. exists v.
  destruct (entry_history e) as [h|]; [|by exists db].
  destruct (ensure_history_contract _ _ _ _) as [table|]; [|done].
  by exists (set_contracts table db).
Qed.

(** Registration.  A successful reconcile of one subscription leaves a row
    with the entry's identity.  If the id was new, the row is active, without
    failures, at the declared start position; if it existed, the subscriptions
    table is unchanged, so the stored checkpoint wins over the declared start.
    Reconciling the same entry again succeeds at any time and changes no row. *)
Theorem reconcile_one_registers e now db db' :
  reconcile_one e now db = (db', Ok ()) →
  ∃ row, subscriptions db' !! spec_id (entry_spec e) = Some row ∧ s_spec_hash row = spec_hash e
    ∧ match subscriptions db !! spec_id (entry_spec e) with
      | Some old => subscriptions db' = subscriptions db
      | None => subscriptions db' = <[spec_id (entry_spec e) := row]> (subscriptions db)
                ∧ s_state row = Active ∧ s_failures row = 0
                ∧ initial_cursor (spec_start (entry_spec e)) (next_xid db) db = Some (s_cursor row)
      end
    ∧ ∀ now', ∃ db'', reconcile_one e now' db' = (db'', Ok ())
                      ∧ subscriptions db'' = subscriptions db'.
Proof.
  intros H. destruct (reconcile_one_ok e now db db' H) as (v & db0 & Hv & Hr & Hs & Hx & Hm).
  destruct (reconcile_row_ok e v now db0 db' Hr) as (row & Hrow & Hh & Hcase).
  exists row. split; [done|]. split; [done|]. split.
  { rewrite Hs in Hcase. unfold initial_cursor in *. by rewrite Hx, Hm in Hcase. }
  intros now'. unfold reconcile_one in *. rewrite Hv in *.
  assert (Hagain : ∀ d, subscriptions d = subscriptions db' →
    ∃ db'', reconcile_row e v now' d = (db'', Ok ()) ∧ subscriptions db'' = subscriptions db').
  { intros d Hd. rewrite <- Hd in Hrow. destruct (reconcile_row_existing e v now' d row Hrow) as [H1 H2].
    rewrite bool_decide_eq_true_2 in H2 by done. exists (fst (reconcile_row e v now' d)).
    rewrite <- H2, <- surjective_pairing. split; [done|]. congruence. }
  destruct (entry_history e) as [h|]; [|by apply Hagain].
  destruct (ensure_history_contract _ _ h (history_contracts db)) as [table|] eqn:Et; [|done].
  assert (Hc : history_contracts db' = table).
  { revert H. unfold reconcile_row, commit_tx. simpl. rewrite lookup_insert_eq. simpl.
    rewrite (left_id_L ∅ (∪)). repeat case_match; intros; by simplify_eq. }
  rewrite Hc, (ensure_history_idem _ _ _ _ _ Et). by apply Hagain.
Qed.

Lemma reconcile_one_registers_witness :
  let e := mkEntry (mkSpec "s" AfterRegistration) "t" 1 (Some (MinRetention 7)) in
  let db := mkDb 9 9 ∅ [] (Some (mkMeta 1 "c")) None ∅ ∅ in
  ∃ row, subscriptions (fst (reconcile_one e 5 db)) !! "s" = Some row
    ∧ s_spec_hash row = "t|v1|after_registration"
    ∧ (subscriptions (fst (reconcile_one e 5 db)) = <["s" := row]> ∅
       ∧ s_state row = Active ∧ s_failures row = 0 ∧ Some (mkPos 1 9 i64_max) = Some (s_cursor row))
    ∧ ∀ now', ∃ db'', reconcile_one e now' (fst (reconcile_one e 5 db)) = (db'', Ok ())
                      ∧ subscriptions db'' = subscriptions (fst (reconcile_one e 5 db)).
Proof. intros e db. apply (reconcile_one_registers e 5 db). vm_compute. reflexivity. Defined.

(** A changed specification is refused.  Against a stored row registered
    from entry [e0], an entry without history policy and with the same id is
    accepted exactly when topic, contract version and start position are all
    unchanged; otherwise the reconcile fails and the row is untouched. *)
Theorem reconcile_refuses_drift e e0 now db row :
  subscriptions db !! spec_id (entry_spec e) = Some row → s_spec_hash row = spec_hash e0 →
  entry_history e = None → entry_version e ≤ i32_max →
  subscriptions (fst (reconcile_one e now db)) = subscriptions db
  ∧ (snd (reconcile_one e now db) = Ok ()
     ↔ entry_topic e = entry_topic e0 ∧ entry_version e = entry_version e0
       ∧ spec_start (entry_spec e) = spec_start (entry_spec e0)).
Proof.
  intros Hrow Hh Hn Hv. unfold reconcile_one, i32_try_from. rewrite (proj2 (Z.leb_le _ _) Hv), Hn.
  destruct (reconcile_row_existing e (entry_version e) now db row Hrow) as [-> ->].
  split; [done|]. rewrite Hh. case_bool_decide as Heq.
  - split; [|done]. intros _. by apply spec_hash_inj_parts in Heq as (? & ? & ?).
  - split; [done|]. intros (Ht & Hve & Hs). destruct Heq. unfold spec_hash. by rewrite Ht, Hve, Hs.
Qed.

Lemma reconcile_refuses_drift_witness :
  let e := mkEntry (mkSpec "s" Genesis) "t" 2 None in
  let e0 := mkEntry (mkSpec "s" Genesis) "t" 1 None in
  let row := mkSub "t" 1 Active (mkPos 1 6 8) None 0 None "t|v1|genesis" "genesis" 0 in
  let db := mkDb 9 9 ∅ [] (Some (mkMeta 1 "c")) None {[ "s" := row ]} ∅ in
  subscriptions (fst (reconcile_one e 3 db)) = subscriptions db
  ∧ (snd (reconcile_one e 3 db) = Ok () ↔ "t" = "t" ∧ 2 = 1 ∧ Genesis = Genesis).
Proof.
  intros e e0 row db. apply (reconcile_refuses_drift e e0 3 db row); [reflexivity..|].
  simpl. unfold i32_max. lia.
Defined.

(** The first policy of a topic wins.  Seeding a history contract stores the
    declared policy when the topic and version have none and otherwise leaves
    the table alone; it succeeds exactly when the stored policy agrees (the day
    count is compared for bounded retention only), and never touches another
    topic or version. *)
Theorem history_contract_first_wins t v h table :
  0 ≤ v ≤ i32_max →
  let mine := policy_columns h in
  match table !! (t, v) with
  | None => ensure_history_contract t v h table = Ok (<[(t, v) := mine]> table)
  | Some stored =>
      ensure_history_contract t v h table
      = if bool_decide (fst stored = fst mine ∧ (fst mine = "min_retention" → snd stored = snd mine))
        then Ok table else Err HistoryDrift
  end.
Proof.
  intros [_ Hv]. unfold ensure_history_contract. destruct (policy_columns h) as [policy days].
  unfold i32_try_from. rewrite (proj2 (Z.leb_le _ _) Hv).
  destruct (table !! (t, v)) as [[sp sd]|] eqn:E; simpl.
  - rewrite E. repeat case_bool_decide; simpl; naive_solver.
  - rewrite lookup_insert_eq. rewrite !(bool_decide_eq_false_2 (_ ≠ _)) by naive_solver.
    by rewrite andb_false_r.
Qed.

Lemma history_contract_first_wins_witness :
  ensure_history_contract "t" 1 (MinRetention 7) {[ ("t", 1) := ("min_retention", 30) ]} = Err HistoryDrift.
Proof.
  assert (Hv : 0 ≤ 1 ≤ i32_max) by (unfold i32_max; lia).
  exact (history_contract_first_wins "t" 1 (MinRetention 7) {[ ("t", 1) := ("min_retention", 30) ]} Hv).
Defined.
