(* ===== verification/Eventctl.v ===== *)
(** * Eventctl: the operator verbs of [tools/eventctl/src/lib.rs]

    Each verb is one statement or one transaction on a subscription row; the
    ones that change the row return the snapshots printed before and after. *)

From S2P Require Import Prelude Text Bus EventLog Delivery.
From stdpp Require Import pretty.
#[local] Open Scope Z_scope.

Definition state_name (s : SubState) : string :=
  match s with Active => "active" | Paused => "paused" | Retired => "retired" end.

Definition cursor_text (p : EventPosition) : string :=
  pretty (generation p) +:+ "/" +:+ pretty (xid p) +:+ "/" +:+ pretty (tie p).

(** The before/after view.  [snap_next_attempt] is the timestamp the source
    renders with [::text]. *)
Record StateSnapshot := mkSnapshot {
  snap_id : string;
  snap_state : string;
  snap_cursor : string;
  snap_failures : Z;
  snap_next_attempt : option Z;
  snap_last_error : option string;
}.

Inductive EventctlError := NoSuchSubscription | RefuseHealthy | NothingToSkip | NoPlane.

Definition snapshot_of (id : string) (row : SubRow) : StateSnapshot :=
  mkSnapshot id (state_name (s_state row)) (cursor_text (s_cursor row)) (s_failures row)
             (s_next_attempt row) (s_last_error row).

Definition snapshot (id : string) (db : Db) : result EventctlError StateSnapshot :=
  ok_or (snapshot_of id <$> subscriptions db !! id) NoSuchSubscription.

(** The shape of [retry], [pause], [resume] and [retire]: read, update the row,
    read again. *)
Definition update_sub (f : SubRow → SubRow) (id : string) (db : Db)
  : Db * result EventctlError (StateSnapshot * StateSnapshot) :=
  match snapshot id db with
  | Err e => (db, Err e)
  | Ok before =>
      let db' := set_subs (alter f id) db in
      (db', after ← snapshot id db'; Ok (before, after))
  end.

Definition retry_row (now : Z) (row : SubRow) : SubRow :=
  mkSub (s_topic row) (s_version row) (s_state row) (s_cursor row) None 0 None
        (s_spec_hash row) (s_start_kind row) now.
Definition retry (id : string) (now : Z) := update_sub (retry_row now) id.

Definition resume_row (now : Z) (row : SubRow) : SubRow :=
  mkSub (s_topic row) (s_version row) Active (s_cursor row) None (s_failures row)
        (s_last_error row) (s_spec_hash row) (s_start_kind row) now.
Definition resume (id : string) (now : Z) := update_sub (resume_row now) id.

Definition state_row (st : SubState) (now : Z) (row : SubRow) : SubRow :=
  mkSub (s_topic row) (s_version row) st (s_cursor row) (s_next_attempt row) (s_failures row)
        (s_last_error row) (s_spec_hash row) (s_start_kind row) now.
Definition set_state (st : SubState) (id : string) (now : Z) := update_sub (state_row st now) id.
Definition pause := set_state Paused.
Definition retire := set_state Retired.

(** [skip]: past the one event the worker would attempt next, and only when the
    subscription is not healthy. *)
Record SkipOutcome := mkSkip {
  skip_before : StateSnapshot;
  skip_after : StateSnapshot;
  skipped_event_id : string;
  skipped_payload : string;
}.

Definition skip_row (e : EventRow) (reason : string) (now : Z) (row : SubRow) : SubRow :=
  mkSub (s_topic row) (s_version row) Active (ev_pos e) None 0
        (Some ("skipped event " +:+ event_id e +:+ ": " +:+ reason))
        (s_spec_hash row) (s_start_kind row) now.

Definition skip (id reason : string) (now : Z) (db : Db)
  : Db * result EventctlError (EventRow * SkipOutcome) :=
  match snapshot id db, subscriptions db !! id with
  | Ok before, Some row =>
      let '(db1, x) := begin_tx db in
      if bool_decide (s_state row = Active) && (s_failures row =? 0)
      then (abort_tx x db1, Err RefuseHealthy)
      else
      match select_next (s_topic row) (s_version row) (s_cursor row) db1 with
      | None => (abort_tx x db1, Err NothingToSkip)
      | Some e =>
          let db2 := commit_tx x (set_subs (alter (skip_row e reason now) id) db1) in
          (db2, after ← snapshot id db2;
                Ok (e, mkSkip before after (event_id e) (ev_payload e)))
      end
  | _, _ => (db, Err NoSuchSubscription)
  end.
