(* ===== verification/Retention.v ===== *)
(** * Retention: the checkpoint-coupled garbage collection of
    [core/asyncevents/src/retention.rs]

    [gc_batch] is the one DELETE statement, with its floor recomputed from the
    subscriptions table; [gc_topic] is the loop around it and [sweep] the pass
    over every [min_retention] contract.  The second half is the interval
    configuration: a [Duration] is its total nanoseconds, with the
    [u64] bound on its seconds. *)

From stdpp Require Import pretty.
From Stdlib Require Import Ascii.
From Stdlib Require String.
From S2P Require Import Prelude Text Bus EventLog.
#[local] Open Scope Z_scope.

Definition BATCH : nat := 1000.

(** ** Collection *)

(** A subscription that holds the floor at or below the event. *)
Definition holds_back (t : string) (v : Z) (e : EventRow) (s : SubRow) : Prop :=
  s_topic s = t ∧ s_version s = v ∧ (s_state s = Active ∨ s_state s = Paused)
  ∧ pos_le (s_cursor s) (ev_pos e).

#[global] Instance holds_back_dec t v e s : Decision (holds_back t v e s).
Proof. unfold holds_back. apply _. Defined.

(** Days are 24 hours: the session's time zone is UTC. *)
Definition day_us : Z := 86400 * 1000000.

Definition collectable (t : string) (v days now : Z) (db : Db) (e : EventRow) : Prop :=
  ev_topic e = t ∧ ev_version e = v ∧ created_at e < now - days * day_us
  ∧ map_Forall (fun _ s => ¬ holds_back t v e s) (subscriptions db).

#[global] Instance collectable_dec t v days now db e : Decision (collectable t v days now db e).
Proof. unfold collectable. apply _. Defined.

Definition by_pos (a b : EventRow) : Prop := pos_le (ev_pos a) (ev_pos b).
#[global] Instance by_pos_dec : RelDecision by_pos.
Proof. unfold by_pos. intros a b. apply _. Defined.

(** The rows one DELETE takes, floor upward, and the statement itself. *)
Definition batch_rows (t : string) (v days now : Z) (db : Db) : list EventRow :=
  take BATCH (merge_sort by_pos (filter (collectable t v days now db) (events db))).

Definition gc_batch (t : string) (v days now : Z) (db : Db) : Db * nat :=
  let doomed := batch_rows t v days now db in
  (set_events (filter (fun e => e ∉ doomed)) db, length doomed).

(** [gc_topic]: until a batch comes back short.  A full batch removes at least
    one row, so the number of rows bounds the iterations; [clock] gives each
    statement its own [now()]. *)
Fixpoint gc_topic (fuel : nat) (clock : nat → Z) (t : string) (v days : Z) (db : Db) : option Db :=
  match fuel with
  | O => None
  | S n =>
      let '(db', deleted) := gc_batch t v days (clock fuel) db in
      if bool_decide (deleted < BATCH)%nat then Some db'
      else gc_topic n clock t v days db'
  end.

(** [SELECT topic, contract_version, min_retention_days ... WHERE policy =
    'min_retention' ORDER BY topic, contract_version]. *)
Definition contract_le (a b : string * Z * Z) : Prop :=
  let '(t1, v1, _) := a in let '(t2, v2, _) := b in
  String.ltb t1 t2 = true ∨ t1 = t2 ∧ v1 ≤ v2.
#[global] Instance contract_le_dec : RelDecision contract_le.
Proof. intros [[t1 v1] d1] [[t2 v2] d2]. unfold contract_le. apply _. Defined.

Definition retention_contracts (db : Db) : list (string * Z * Z) :=
  merge_sort contract_le
    (omap (fun '((t, v), (policy, days)) =>
             if bool_decide (policy = "min_retention") then Some (t, v, days) else None)
          (map_to_list (history_contracts db))).

(** One pass; every topic is collected even when another fails, and no
    statement of the model fails. *)
Definition sweep (clock : nat → Z) (db : Db) : option Db :=
  foldl (fun odb '(t, v, days) =>
           db ← odb; gc_topic (S (length (events db))) clock t v days db)
        (Some db) (retention_contracts db).

(** [refresh_blocked_gauge]: the age of the oldest expired event a paused
    subscription of a [min_retention] topic holds back; 0 when none does. *)
Definition blocked_oldest (now : Z) (db : Db) (s : SubRow) : option Z :=
  match history_contracts db !! (s_topic s, s_version s) with
  | Some (policy, days) =>
      if bool_decide (policy = "min_retention" ∧ s_state s = Paused) then
        foldr (fun e acc =>
                 if bool_decide (ev_topic e = s_topic s ∧ ev_version e = s_version s
                                 ∧ pos_lt (s_cursor s) (ev_pos e)
                                 ∧ created_at e < now - days * day_us)
                 then Some (match acc with None => created_at e
                                         | Some m => Z.min (created_at e) m end)
                 else acc) None (events db)
      else None
  | None => None
  end.

Definition blocked_age (now : Z) (db : Db) : Z :=
  default 0 (map_fold (fun _ s acc =>
      match blocked_oldest now db s, acc with
      | None, _ => acc
      | Some m, None => Some (now - m)
      | Some m, Some a => Some (Z.max (now - m) a)
      end) None (subscriptions db)).

(** ** Interval configuration *)

Definition ns_per_s : Z := 1000000000.
Definition ns_per_ms : Z := 1000000.
Definition duration_max : Z := u64_max * ns_per_s + (ns_per_s - 1).

Record Config := mkConfig { interval : Z; stall_after : Z }.

Definition DEFAULT_INTERVAL : Z := 3600 * ns_per_s.

(** [parse_number]: overflow is an error, anything else malformed is absent. *)
Definition parse_number (l : bytes) : result unit (option Z) :=
  match parse_unsigned u64_max (trim_bytes l) with
  | Ok n => Ok (Some n)
  | Err PosOverflow => Err ()
  | Err _ => Ok None
  end.

(** [hours.checked_mul(unit).map(Duration::from_secs).ok_or(())] under the
    option: [transpose]. *)
Definition scale_secs (unit : Z) (n : option Z) : result () (option Z) :=
  match n with
  | None => Ok None
  | Some n => match u64_checked_mul n unit with
              | Some s => Ok (Some (s * ns_per_s))
              | None => Err ()
              end
  end.

Definition scale (unit : Z) (n : option Z) : option Z := (fun n => n * unit) <$> n.

Definition parse_go_duration (text : string) : result unit (option Z) :=
  let s := trim_bytes (to_bytes text) in
  match strip_suffix (to_bytes "ms") s with
  | Some n => scale ns_per_ms <$> parse_number n
  | None =>
  match strip_suffix (to_bytes "h") s with
  | Some n => parse_number n ≫= scale_secs 3600
  | None =>
  match strip_suffix (to_bytes "m") s with
  | Some n => parse_number n ≫= scale_secs 60
  | None =>
  match strip_suffix (to_bytes "s") s with
  | Some n => scale ns_per_s <$> parse_number n
  | None => scale ns_per_s <$> parse_number s
  end end end end.

Inductive ConfigError := IntervalOverflow | ZeroInterval | StallOverflow | StallUnobservable.

(** [Config::from_value]. *)
Definition from_value (value : option string) : result ConfigError Config :=
  interval ← match value with
             | None => Ok DEFAULT_INTERVAL
             | Some v => match parse_go_duration v with
                         | Ok (Some i) => Ok i
                         | Ok None => Ok DEFAULT_INTERVAL
                         | Err _ => Err IntervalOverflow
                         end
             end;
  if interval =? 0 then Err ZeroInterval else
  if duration_max <? interval * 3 then Err StallOverflow else
  if u64_max - 1 <=? (interval * 3) / ns_per_ms then Err StallUnobservable
  else Ok (mkConfig interval (interval * 3)).

(** ** Facts *)

Lemma batch_rows_elem t v days now db e :
  e ∈ batch_rows t v days now db → e ∈ events db ∧ collectable t v days now db e.
Proof.
  unfold batch_rows. intros He%subseteq_take.
  rewrite merge_sort_Permutation, list_elem_of_filter in He. by destruct He.
Qed.

(** The statement changes nothing but the rows it deletes, so what is
    collectable stays collectable. *)
Lemma collectable_gc t v days now t' v' days' now' db e :
  collectable t' v' days' now' (fst (gc_batch t v days now db)) e ↔ collectable t' v' days' now' db e.
Proof. done. Qed.

(** A batch that comes back short took every collectable row. *)
Lemma gc_batch_short t v days now db :
  (length (batch_rows t v days now db) < BATCH)%nat →
  events (fst (gc_batch t v days now db)) = filter (fun e => ¬ collectable t v days now db e) (events db).
Proof.
  intros Hlen. simpl. apply list_filter_ext_in. intros e He. unfold batch_rows in *.
  rewrite length_take in Hlen.
  rewrite firstn_all2 by lia. rewrite merge_sort_Permutation, list_elem_of_filter. tauto.
Qed.

(** A full batch removes a row. *)
Lemma gc_batch_shrinks t v days now db :
  batch_rows t v days now db ≠ [] →
  (length (events (fst (gc_batch t v days now db))) < length (events db))%nat.
Proof.
  intros Hne. simpl. destruct (batch_rows t v days now db) as [|e l] eqn:E; [done|].
  destruct (batch_rows_elem t v days now db e) as [Hin _]; [rewrite E; by left|].
  eapply length_filter_lt; [exact Hin|]. set_solver.
Qed.

(** [gc_topic] with the fuel [sweep] gives it returns, and deletes exactly the
    collectable rows. *)
Lemma gc_topic_exact fuel now t v days db :
  (length (events db) < fuel)%nat →
  gc_topic fuel (fun _ => now) t v days db
  = Some (set_events (filter (fun e => ¬ collectable t v days now db e)) db).
Proof.
  revert db. induction fuel as [|n IH]; intros db Hf; [lia|]. cbn -[gc_batch BATCH].
  rewrite (surjective_pairing (gc_batch t v days now db)). case_bool_decide as Hs.
  - f_equal. pose proof (gc_batch_short t v days now db Hs) as He.
    unfold set_events. rewrite <- He. done.
  - assert (Hne : batch_rows t v days now db ≠ []).
    { intros E. apply Hs. cbn -[BATCH batch_rows]. rewrite E. unfold BATCH. simpl. lia. }
    pose proof (gc_batch_shrinks t v days now db Hne).
    rewrite IH by lia. f_equal. unfold set_events. f_equal. cbn -[batch_rows].
    rewrite list_filter_filter. apply list_filter_ext_in. intros e He.
    pose proof (batch_rows_elem t v days now db e). split; [tauto|]. intros Hc. split; [tauto|].
    intros Hb. tauto.
Qed.

(** The contracts [sweep] visits. *)
Lemma retention_contracts_elem db t v days :
  (t, v, days) ∈ retention_contracts db ↔ history_contracts db !! (t, v) = Some ("min_retention", days).
Proof.
  unfold retention_contracts. rewrite merge_sort_Permutation, list_elem_of_omap. split.
  - intros ([[t' v'] [policy days']] & Hin & H). apply elem_of_map_to_list in Hin.
    case_bool_decide; simplify_eq. done.
  - intros H. exists ((t, v), ("min_retention", days)). by rewrite elem_of_map_to_list.
Qed.

Definition spared (now : Z) (db : Db) (e : EventRow) (c : string * Z * Z) : Prop :=
  let '(t, v, days) := c in ¬ collectable t v days now db e.
#[global] Instance spared_dec now db e c : Decision (spared now db e c).
Proof. unfold spared. destruct c as [[t v] days]. apply _. Defined.

Lemma sweep_exact now db :
  sweep (fun _ => now) db
  = Some (set_events (filter (fun e => Forall (spared now db e) (retention_contracts db))) db).
Proof.
  unfold sweep. generalize (retention_contracts db) as cs. intros cs.
  assert (H : ∀ db0, subscriptions db0 = subscriptions db →
    foldl (fun odb '(t, v, days) =>
             db ← odb; gc_topic (S (length (events db))) (fun _ => now) t v days db) (Some db0) cs
    = Some (set_events (filter (fun e => Forall (spared now db e) cs)) db0)); [|by apply H].
  induction cs as [|[[t v] days] cs IH]; intros db0 Hs; cbn -[gc_topic].
  - f_equal. unfold set_events. rewrite list_filter_all by done. by destruct db0.
  - rewrite gc_topic_exact by lia. rewrite IH by done. f_equal. unfold set_events. simpl. f_equal.
    rewrite list_filter_filter. apply list_filter_ext_in. intros e _. rewrite Forall_cons. simpl.
    unfold collectable. rewrite Hs. tauto.
Qed.

(** ** Guarantees *)

(** Retention deletes exactly what it may.  One pass terminates; an event is
    gone afterwards if and only if its topic and version carry a
    [min_retention] contract, the event is older than the contract's days, and
    every subscription of that topic and version that is not retired has its
    cursor strictly past it.  Topics kept forever or without a contract, events
    inside the window, and events at or ahead of any active or paused cursor
    are untouched; so are all other tables. *)
Theorem sweep_correct now db :
  ∃ db', sweep (fun _ => now) db = Some db'
    ∧ subscriptions db' = subscriptions db ∧ history_contracts db' = history_contracts db
    ∧ open_txs db' = open_txs db ∧ sublist (events db') (events db)
    ∧ ∀ e, e ∈ events db' ↔ e ∈ events db ∧ ¬ ∃ days,
        history_contracts db !! (ev_topic e, ev_version e) = Some ("min_retention", days)
        ∧ created_at e < now - days * day_us
        ∧ ∀ id s, subscriptions db !! id = Some s → s_topic s = ev_topic e →
            s_version s = ev_version e → s_state s ≠ Retired → pos_lt (ev_pos e) (s_cursor s).
Proof.
  eexists. split; [apply sweep_exact|]. do 3 (split; [done|]). split; [apply sublist_filter|].
  intros e. simpl. rewrite list_elem_of_filter, Forall_forall. split.
  - intros [Hsp Hin]. split; [done|]. intros (days & Hc & Hold & Hpast).
    apply (Hsp (ev_topic e, ev_version e, days)); [by apply retention_contracts_elem|].
    split_and!; try done. intros id s Hs (Ht & Hv & Hst & Hle). apply Hle.
    apply (Hpast id); try done. by destruct Hst as [-> | ->].
  - intros [Hin Hno]. split; [|done]. intros [[t v] days] Hc%retention_contracts_elem.
    simpl. intros (<- & <- & Hold & Hall). apply Hno. exists days. do 2 (split; [done|]).
    intros id s Hs Ht Hv Hst. destruct (pos_le_or_lt (s_cursor s) (ev_pos e)); [|done].
    destruct (Hall id s Hs). do 2 (split; [done|]). split; [destruct (s_state s); naive_solver|done].
Qed.

(** ** The interval configuration *)

Lemma parse_number_pretty n : 0 ≤ n ≤ u64_max → parse_number (to_bytes (pretty n)) = Ok (Some n).
Proof.
  intros Hn. unfold parse_number. rewrite trim_pretty by lia. by rewrite parse_unsigned_pretty.
Qed.

(** The four spellings of a duration.  A non-negative number that fits in
    64 bits, printed and followed by a unit, parses to that many units in
    nanoseconds; hours and minutes whose seconds exceed 64 bits are reported as
    overflow rather than wrapped or defaulted. *)
Theorem parse_go_duration_units n :
  0 ≤ n ≤ u64_max →
  parse_go_duration (pretty n +:+ "ms") = Ok (Some (n * ns_per_ms))
  ∧ parse_go_duration (pretty n +:+ "s") = Ok (Some (n * ns_per_s))
  ∧ parse_go_duration (pretty n +:+ "m")
    = (if n * 60 <=? u64_max then Ok (Some (n * 60 * ns_per_s)) else Err ())
  ∧ parse_go_duration (pretty n +:+ "h")
    = (if n * 3600 <=? u64_max then Ok (Some (n * 3600 * ns_per_s)) else Err ()).
Proof.
  intros Hn. pose proof (parse_number_pretty n Hn) as Hp. destruct Hn as [H0 Hmax].
  assert (Hms : strip_suffix (to_bytes "ms") (to_bytes (pretty n) ++ to_bytes "s") = None).
  { rewrite (strip_suffix_same ["m"%char] "s"%char). by apply (strip_suffix_pretty []). }
  assert (Hne : ∀ p u l c d, to_bytes p = l ++ [c] → to_bytes u = [d] → c ≠ d →
    strip_suffix (to_bytes p) (to_bytes (pretty n) ++ to_bytes u) = None).
  { intros p u l c d -> ->. apply strip_suffix_ne. }
  assert (Htrim : ∀ u l d, to_bytes u = l ++ [d] → visible d →
    trim_bytes (to_bytes (pretty n) ++ to_bytes u) = to_bytes (pretty n) ++ to_bytes u).
  { intros u l d ->. by apply trim_pretty_suffix. }
  unfold parse_go_duration. rewrite !to_bytes_app.
  rewrite (Htrim "ms" ["m"%char] "s"%char eq_refl), (Htrim "s" [] "s"%char eq_refl),
    (Htrim "m" [] "m"%char eq_refl), (Htrim "h" [] "h"%char eq_refl) by (split; apply Nat.leb_le; reflexivity).
  split_and!; rewrite ?Hms.
  - by rewrite strip_suffix_app, Hp.
  - by rewrite (Hne "h" "s" [] _ _ eq_refl eq_refl), (Hne "m" "s" [] _ _ eq_refl eq_refl),
      strip_suffix_app, Hp.
  - rewrite (Hne "ms" "m" ["m"%char] _ _ eq_refl eq_refl), (Hne "h" "m" [] _ _ eq_refl eq_refl),
      strip_suffix_app, Hp by done. simpl. unfold u64_checked_mul. by destruct (n * 60 <=? u64_max).
  - rewrite (Hne "ms" "h" ["m"%char] _ _ eq_refl eq_refl), strip_suffix_app, Hp by done.
    simpl. unfold u64_checked_mul. by destruct (n * 3600 <=? u64_max).
Qed.

Lemma parse_go_duration_units_witness :
  parse_go_duration "90ms" = Ok (Some 90000000) ∧ parse_go_duration "90s" = Ok (Some 90000000000)
  ∧ parse_go_duration "90m" = Ok (Some 5400000000000)
  ∧ parse_go_duration "90h" = Ok (Some 324000000000000).
Proof. apply (parse_go_duration_units 90). unfold u64_max. lia. Defined.

(** Every accepted interval can be watched.  Whatever the configured text,
    an accepted configuration has a positive interval and a stall threshold of
    three intervals that fits a [Duration] and whose milliseconds stay below
    the two largest 64-bit values, so the staleness comparison can fire. *)
Theorem from_value_bounds value cfg :
  from_value value = Ok cfg →
  interval cfg ≠ 0 ∧ stall_after cfg = interval cfg * 3 ∧ stall_after cfg ≤ duration_max
  ∧ stall_after cfg / ns_per_ms < u64_max - 1.
Proof.
  unfold from_value. intros (i & _ & H)%bind_ok.
  destruct (Z.eqb_spec i 0); [done|]. destruct (Z.ltb_spec duration_max (i * 3)); [done|].
  destruct (Z.leb_spec (u64_max - 1) (i * 3 / ns_per_ms)); [done|]. by simplify_eq.
Qed.

Lemma from_value_bounds_witness :
  interval (mkConfig 60000000000 180000000000) ≠ 0
  ∧ stall_after (mkConfig 60000000000 180000000000) = 60000000000 * 3
  ∧ 180000000000 ≤ duration_max ∧ 180000000000 / ns_per_ms < u64_max - 1.
Proof. apply (from_value_bounds (Some "1m")). vm_compute. reflexivity. Defined.
