(* ===== verification/EventPlane.v ===== *)
(** * EventPlane: the durable event plane as a transition system

    [exec] lets every actor of the plane take its steps in any order: producers
    (begin, enqueue, commit, abort), the generation bump, a restore of the
    tables into another cluster, booting processes and their reconcile, the
    pull workers (one delivery attempt split at the handler call), the operator
    verbs of [eventctl] and the retention loop.  A step calls the functions of
    [EventLog], [Delivery], [Eventctl] and [Retention]; what it adds is who
    waits for whom: the writer lock, the row lock a worker holds, and that a
    process takes part only after the boot guards passed.

    [ghost] records, per subscription, what no column stores: where it started
    ([g_floor]), the events it owes its handler ([g_owed]), and the events its
    cursor was moved over, in order ([g_log]).  No step reads it.

    A statement and each part of a delivery attempt is one atomic step. *)

From S2P Require Import Prelude Text Bus EventLog Delivery Eventctl Retention.
#[local] Open Scope Z_scope.

(** ** The world *)

Inductive Outcome := ByHandler | ByOperator.

Record Ghost := mkGhost {
  g_topic : string;
  g_version : Z;
  g_floor : EventPosition;
  g_log : list (Outcome * EventRow);
  g_owed : list EventRow;
  g_retired : bool;
}.

Record World := mkWorld {
  db : Db;
  cluster : string;
  live : bool;
  entries : list SubEntry;
  claims : gmap string Claim;
  late : list (Claim * string);
  ghost : gmap string Ghost;
}.

Definition init (identity : string) (n : Z) : World :=
  mkWorld (mkDb n 1 ∅ [] None None ∅ ∅) identity false [] ∅ [] ∅.

Definition set_db (d : Db) (w : World) : World :=
  mkWorld d (cluster w) (live w) (entries w) (claims w) (late w) (ghost w).
Definition set_ghost (f : gmap string Ghost → gmap string Ghost) (w : World) : World :=
  mkWorld (db w) (cluster w) (live w) (entries w) (claims w) (late w) (f (ghost w)).
Definition set_claims (f : gmap string Claim → gmap string Claim) (w : World) : World :=
  mkWorld (db w) (cluster w) (live w) (entries w) (f (claims w)) (late w) (ghost w).
Definition set_late (l : list (Claim * string)) (w : World) : World :=
  mkWorld (db w) (cluster w) (live w) (entries w) (claims w) l (ghost w).

(** Ghost updates: committed rows past the floor become owed; the cursor moves
    over an event; an operator retires the subscription. *)
Definition owe (rows : list EventRow) (g : Ghost) : Ghost :=
  mkGhost (g_topic g) (g_version g) (g_floor g) (g_log g)
          (g_owed g ++ filter (past_cursor (g_topic g) (g_version g) (g_floor g)) rows)
          (g_retired g).
Definition log_event (o : Outcome) (e : EventRow) (g : Ghost) : Ghost :=
  mkGhost (g_topic g) (g_version g) (g_floor g) (g_log g ++ [(o, e)]) (g_owed g) (g_retired g).
Definition retire_ghost (g : Ghost) : Ghost :=
  mkGhost (g_topic g) (g_version g) (g_floor g) (g_log g) (g_owed g) true.
Definition new_ghost (row : SubRow) (committed : list EventRow) : Ghost :=
  mkGhost (s_topic row) (s_version row) (s_cursor row) []
          (filter (past_cursor (s_topic row) (s_version row) (s_cursor row)) committed) false.

Definition pending_rows (x : Z) (d : Db) : list EventRow :=
  match open_txs d !! x with Some tx => tx_rows tx | None => [] end.

(** Commits [x]: its rows join the log and are owed from then on. *)
Definition commit_world (x : Z) (w : World) : World :=
  mkWorld (commit_tx x (db w)) (cluster w) (live w) (entries w) (claims w) (late w)
          (owe (pending_rows x (db w)) <$> ghost w).

(** ** Who waits for whom *)

(** No transaction holds the writer lock in shared form. *)
Definition no_writer (d : Db) : Prop := map_Forall (fun _ tx => tx_writer tx = false) (open_txs d).

(** Neither the bump's transaction nor a delivery's. *)
Definition free_xid (x : Z) (w : World) : Prop :=
  bumping (db w) ≠ Some x ∧ map_Forall (fun _ cl => cl_xid cl ≠ x) (claims w).

(** Another transaction's uncommitted insert of the same contract row makes the
    insert wait. *)
Definition contract_unlocked (x : Z) (k : string * Z) (d : Db) : Prop :=
  map_Forall (fun y tx => y = x ∨ tx_contracts tx !! k = None) (open_txs d).

#[global] Instance no_writer_dec d : Decision (no_writer d).
Proof. unfold no_writer. apply _. Defined.
#[global] Instance free_xid_dec x w : Decision (free_xid x w).
Proof. unfold free_xid. apply _. Defined.
#[global] Instance contract_unlocked_dec x k d : Decision (contract_unlocked x k d).
Proof. unfold contract_unlocked. apply _. Defined.

(** ** Actions *)

Inductive Action :=
| ASeed
| ABoot (mpt : string) (prepared : Z)
| ABegin
| AEnqueue (x : Z) (uuid : string) (now : Z) (c : EventContract) (payload : string)
| ACommit (x : Z)
| AAbort (x : Z)
| ABumpBegin
| ABumpCommit
| ABumpAbort
| ARestore (identity : string) (n : Z)
| AReconcile (e : SubEntry) (now : Z)
| AClaim (i : nat) (now : Z)
| AHandled (id : string) (now : Z)
| AFaulted (id msg : string) (now : Z)
| ATimedOut (id msg : string)
| ARecord (i : nat) (now : Z)
| ACrash (id : string)
| ARetry (id : string) (now : Z)
| APause (id : string) (now : Z)
| AResume (id : string) (now : Z)
| ARetire (id : string) (now : Z)
| ASkip (id reason : string) (now : Z)
| AGc (t : string) (v now : Z).

(** A restore replaces the cluster: the committed tables survive, every session
    and process is gone, and xids start anywhere. *)
Definition restore (identity : string) (n : Z) (w : World) : World :=
  mkWorld (mkDb n (next_tie (db w)) ∅ (events (db w)) (plane_meta (db w)) None
                (subscriptions (db w)) (history_contracts (db w)))
          identity false [] ∅ [] (ghost w).

(** The ghost of a row [reconcile_one] may have inserted. *)
Definition register_ghost (e : SubEntry) (d : Db) (m : gmap string Ghost) : gmap string Ghost :=
  let id := spec_id (entry_spec e) in
  match m !! id, subscriptions d !! id with
  | None, Some row => <[id := new_ghost row (events d)]> m
  | _, _ => m
  end.

(** A verb that rewrites one unlocked row. *)
Definition verb {R} (id : string) (f : Db → Db * R) (w : World) : option World :=
  if decide (claims w !! id = None) then Some (set_db (fst (f (db w))) w) else None.

Section Exec.
Context (jsonb_in : string → option string).

Definition exec (a : Action) (w : World) : option World :=
  let d := db w in
  match a with
  | ASeed => Some (set_db (seed_plane_meta (cluster w) d) w)
  | ABoot mpt prepared =>
      match startup_guards_on (cluster w) mpt prepared d with
      | Ok _ => Some (mkWorld d (cluster w) true (entries w) (claims w) (late w) (ghost w))
      | Err _ => None
      end
  | ABegin => Some (set_db (fst (begin_tx d)) w)
  | AEnqueue x uuid now c payload =>
      if decide (live w = true ∧ bumping d = None
                 ∧ contract_unlocked x (ec_topic c, ec_version c) d)
      then match enqueue_tx jsonb_in x uuid now c payload d with
           | Ok d' => Some (set_db d' w)
           | Err _ => None
           end
      else None
  | ACommit x => if decide (free_xid x w) then Some (commit_world x w) else None
  | AAbort x => if decide (free_xid x w) then Some (set_db (abort_tx x d) w) else None
  | ABumpBegin =>
      if decide (bumping d = None ∧ no_writer d) then Some (set_db (bump_begin d) w) else None
  | ABumpCommit =>
      match bump_commit (cluster w) d with
      | Ok (d', _) => Some (set_db d' w)
      | Err _ => None
      end
  | ABumpAbort => Some (set_db (bump_abort d) w)
  | ARestore identity n =>
      if decide (Some identity = system_identifier <$> plane_meta d) then None
      else Some (restore identity n w)
  | AReconcile e now =>
      if live w then
        match reconcile_one e now d with
        | (d', Ok _) => Some (mkWorld d' (cluster w) true (e :: entries w) (claims w) (late w)
                                      (register_ghost e d' (ghost w)))
        | (d', Err _) => Some (set_db d' w)
        end
      else None
  | AClaim i now =>
      e ← entries w !! i;
      let id := spec_id (entry_spec e) in
      match deliver_begin e now (bool_decide (is_Some (claims w !! id))) d with
      | (d', inl _) => Some (set_db d' w)
      | (d', inr cl) => Some (set_claims (<[id := cl]>) (set_db d' w))
      end
  | AHandled id now =>
      cl ← claims w !! id;
      Some (mkWorld (deliver_commit cl now d) (cluster w) (live w) (entries w)
                    (delete id (claims w)) (late w)
                    (owe (pending_rows (cl_xid cl) d)
                       <$> alter (log_event ByHandler (cl_event cl)) id (ghost w)))
  | AFaulted id msg now =>
      cl ← claims w !! id;
      Some (set_claims (delete id) (set_db (deliver_fault cl msg now d) w))
  | ATimedOut id msg =>
      cl ← claims w !! id;
      Some (set_late ((cl, msg) :: late w)
              (set_claims (delete id) (set_db (deliver_terminate cl d) w)))
  | ARecord i now =>
      '(cl, msg) ← late w !! i;
      if decide (claims w !! cl_id cl = None)
      then Some (set_late (delete i (late w)) (set_db (timeout_record cl msg now d) w))
      else None
  | ACrash id =>
      cl ← claims w !! id;
      Some (set_claims (delete id) (set_db (abort_tx (cl_xid cl) d) w))
  | ARetry id now => verb id (retry id now) w
  | APause id now => verb id (pause id now) w
  | AResume id now => verb id (resume id now) w
  | ARetire id now => set_ghost (alter retire_ghost id) <$> verb id (retire id now) w
  | ASkip id reason now =>
      if decide (claims w !! id = None) then
        match skip id reason now d with
        | (d', Ok (e, _)) => Some (set_ghost (alter (log_event ByOperator e) id) (set_db d' w))
        | (d', Err _) => Some (set_db d' w)
        end
      else None
  | AGc t v now =>
      '(policy, days) ← history_contracts d !! (t, v);
      if bool_decide (policy = "min_retention")
      then Some (set_db (fst (gc_batch t v days now d)) w)
      else None
  end.

Fixpoint run_plane (tr : list Action) (w : World) : option World :=
  match tr with
  | [] => Some w
  | a :: tr' => w' ← exec a w; run_plane tr' w'
  end.
End Exec.
