(* ===== verification/PlaneInvariant.v ===== *)
(** * PlaneInvariant: what every interleaving of the event plane keeps

    [world_inv] is an inductive invariant of [exec].  Its parts: [log_wf] (the
    rows of the log and of open transactions), [sub_inv] (one subscription row
    against its ghost), [claim_inv] (a delivery in flight).  A change of the
    database is summarised by [evolves]; [inv_evolve] carries the invariant
    over any such change, [inv_row] over an update of one subscription row, and
    each action is a composition of the two. *)

From S2P Require Import Prelude Text Bus EventLog Delivery Eventctl Retention EventPlane.
#[local] Open Scope Z_scope.

(** ** The invariant *)

(** Nothing can still be appended at or before [p]: a completed generation, or
    an xid of this cluster below every open and every future one. *)
Definition behind_frontier (c : string) (d : Db) (p : EventPosition) : Prop :=
  ∃ m, plane_meta d = Some m ∧
    (generation p < meta_generation m
     ∨ generation p = meta_generation m
       ∧ (system_identifier m = c →
          xid p < next_xid d ∧ ∀ x tx, open_txs d !! x = Some tx → xid p < x)).

Record log_wf (d : Db) : Prop := {
  wf_open : ∀ x tx, open_txs d !! x = Some tx → x < next_xid d;
  wf_pending : ∀ x tx e, open_txs d !! x = Some tx → e ∈ tx_rows tx →
    xid (ev_pos e) = x ∧ tx_writer tx = true
    ∧ ∃ m, plane_meta d = Some m ∧ generation (ev_pos e) = meta_generation m;
  wf_committed : ∀ e, e ∈ events d →
    ∃ m, plane_meta d = Some m ∧ generation (ev_pos e) ≤ meta_generation m;
  wf_tie : ∀ e, in_log d e → tie (ev_pos e) < next_tie d;
  wf_inj : ∀ e1 e2, in_log d e1 → in_log d e2 → ev_pos e1 = ev_pos e2 → e1 = e2;
  wf_bump : ∀ x, bumping d = Some x → is_Some (open_txs d !! x) ∧ no_writer d;
}.

Definition delivered (g : Ghost) : list EventRow := (g_log g).*2.

Definition owed_past (g : Ghost) : EventRow → Prop := past_cursor (g_topic g) (g_version g) (g_floor g).

Record sub_inv (c : string) (d : Db) (row : SubRow) (g : Ghost) : Prop := {
  si_topic : g_topic g = s_topic row;
  si_version : g_version g = s_version row;
  si_floor : pos_le (g_floor g) (s_cursor row);
  si_front : s_cursor row = g_floor g ∨ behind_frontier c d (s_cursor row);
  si_covered : ∀ e, in_log d e → owed_past g e → pos_le (ev_pos e) (s_cursor row) →
    e ∈ delivered g;
  si_complete : ∀ e, e ∈ events d → owed_past g e → e ∈ g_owed g;
  si_owed : ∀ e, e ∈ g_owed g → owed_past g e;
  si_held : g_retired g = false → s_state row ≠ Retired
    ∧ ∀ e, e ∈ g_owed g → e ∈ delivered g ∨ pos_lt (s_cursor row) (ev_pos e) ∧ e ∈ events d;
  si_sorted : StronglySorted (fun a b => pos_lt (ev_pos a) (ev_pos b)) (delivered g);
  si_range : ∀ e, e ∈ delivered g → owed_past g e ∧ pos_le (ev_pos e) (s_cursor row);
}.

(** A row keeps the topic and version its spec identity was computed from. *)
Definition row_origin (row : SubRow) : Prop :=
  ∃ e0, s_spec_hash row = spec_hash e0 ∧ s_topic row = entry_topic e0
        ∧ s_version row = entry_version e0.

(** No event past [p] for this topic and version is earlier than [e], in the
    log or in flight, and none can become so. *)
Definition next_of (c : string) (d : Db) (t : string) (v : Z) (p : EventPosition) (e : EventRow) : Prop :=
  e ∈ events d ∧ past_cursor t v p e ∧ behind_frontier c d (ev_pos e)
  ∧ ∀ e', in_log d e' → past_cursor t v p e' → pos_le (ev_pos e) (ev_pos e').

Definition claim_inv (c : string) (d : Db) (id : string) (cl : Claim) : Prop :=
  cl_id cl = id
  ∧ is_Some (open_txs d !! cl_xid cl) ∧ bumping d ≠ Some (cl_xid cl)
  ∧ ∃ row, subscriptions d !! id = Some row ∧ s_state row = Active
    ∧ s_cursor row = cl_cursor cl ∧ s_failures row = cl_failures cl
    ∧ next_of c d (s_topic row) (s_version row) (cl_cursor cl) (cl_event cl).

Definition sub_ok (c : string) (d : Db) (row : option SubRow) (g : option Ghost) : Prop :=
  match row, g with
  | Some row, Some g => sub_inv c d row g ∧ row_origin row
  | None, None => True
  | _, _ => False
  end.

Record world_inv (w : World) : Prop := {
  wi_log : log_wf (db w);
  wi_live : live w = true → ∃ m, plane_meta (db w) = Some m ∧ system_identifier m = cluster w;
  wi_subs : ∀ id, sub_ok (cluster w) (db w) (subscriptions (db w) !! id) (ghost w !! id);
  wi_claims : ∀ id cl, claims w !! id = Some cl → claim_inv (cluster w) (db w) id cl;
  wi_xids : ∀ id1 id2 cl1 cl2, claims w !! id1 = Some cl1 → claims w !! id2 = Some cl2 →
    cl_xid cl1 = cl_xid cl2 → id1 = id2;
  wi_entries : ∀ e, e ∈ entries w → ∃ row, subscriptions (db w) !! spec_id (entry_spec e) = Some row
    ∧ s_topic row = entry_topic e ∧ s_version row = entry_version e ∧ entry_version e ≤ i32_max;
}.

(** ** Evolution of the database *)

(** What a change from [d] (on cluster [c]) to [d'] (on [c']) that commits
    [rows] may do to the log. *)
Record evolves (c : string) (d : Db) (c' : string) (d' : Db) (rows : list EventRow) : Prop := {
  ev_front : ∀ p, behind_frontier c d p → behind_frontier c' d' p;
  ev_log : ∀ e, in_log d' e →
    in_log d e ∨ ∀ p, behind_frontier c d p → pos_lt p (ev_pos e);
  ev_new : ∀ e, e ∈ events d' → e ∈ events d ∨ e ∈ rows;
  ev_rows : ∀ e, e ∈ rows → e ∈ events d';
  ev_kept : ∀ id row e, subscriptions d !! id = Some row → s_state row ≠ Retired →
    past_cursor (s_topic row) (s_version row) (s_cursor row) e → e ∈ events d → e ∈ events d';
  ev_subs : subscriptions d' = subscriptions d;
}.

Lemma owe_nil g : owe [] g = g.
Proof. destruct g; unfold owe; simpl. by rewrite filter_nil, app_nil_r. Qed.

Lemma owe_nil_map (m : gmap string Ghost) : owe [] <$> m = m.
Proof. rewrite <- (map_fmap_id m) at 2. apply map_fmap_ext. intros; apply owe_nil. Qed.

Lemma sub_inv_evolves c d c' d' rows id row g :
  evolves c d c' d' rows → subscriptions d !! id = Some row →
  sub_inv c d row g → sub_inv c' d' row (owe rows g).
Proof.
  intros E Hid I. destruct g as [gt gv gf gl go gr].
  assert (Hcov : ∀ e, in_log d' e → past_cursor gt gv gf e → pos_le (ev_pos e) (s_cursor row) →
                      e ∈ gl.*2).
  { intros e He Hp Hle. destruct (ev_log _ _ _ _ _ E e He) as [?|Hnew].
    { by apply (si_covered _ _ _ _ I). }
    destruct (si_front _ _ _ _ I) as [Hf|Hf]; simpl in Hf.
    - destruct Hp as (_ & _ & Hp). rewrite Hf in Hle. by destruct Hle.
    - destruct Hle. by apply Hnew. }
  split; unfold owed_past in *; simpl in *; try apply I.
  - destruct (si_front _ _ _ _ I); [by left|right]. by apply (ev_front _ _ _ _ _ E).
  - done.
  - intros e He Hp. apply elem_of_app. destruct (ev_new _ _ _ _ _ E e He).
    + left. by apply (si_complete _ _ _ _ I).
    + right. by apply list_elem_of_filter.
  - intros e [He|He]%elem_of_app; [by apply (si_owed _ _ _ _ I)|].
    by apply list_elem_of_filter in He as [? ?].
  - intros Hr. destruct (si_held _ _ _ _ I Hr) as [Hst Hheld]. split; [done|].
    intros e [He|He]%elem_of_app.
    + destruct (Hheld e He) as [?|[Hlt Hin]]; [by left|]. right. split; [done|].
      apply (ev_kept _ _ _ _ _ E id row); try done.
      destruct (si_owed _ _ _ _ I e He) as (Ht & Hv & _). simpl in Ht, Hv.
      split_and!; [|by rewrite <- (si_version _ _ _ _ I)|done].
      by rewrite <- (si_topic _ _ _ _ I).
    + apply list_elem_of_filter in He as [Hp He]. apply (ev_rows _ _ _ _ _ E) in He.
      destruct (pos_le_or_lt (ev_pos e) (s_cursor row)); [left|by right].
      by apply Hcov; [left|..].
Qed.

Lemma claim_inv_evolves c d c' d' rows id cl :
  evolves c d c' d' rows → is_Some (open_txs d' !! cl_xid cl) → bumping d' ≠ Some (cl_xid cl) →
  claim_inv c d id cl → claim_inv c' d' id cl.
Proof.
  intros E Hopen Hb (Hid & _ & _ & row & Hrow & Hst & Hc & Hfl & Hin & Hp & Hf & Hmin).
  split_and!; [done..|]. exists row. rewrite (ev_subs _ _ _ _ _ E).
  do 4 (split; [done|]). split; [|split; [done|split; [by apply (ev_front _ _ _ _ _ E)|]]].
  - apply (ev_kept _ _ _ _ _ E id row); try done; [by rewrite Hst|by rewrite Hc].
  - intros e' He' Hp'. destruct (ev_log _ _ _ _ _ E e' He') as [?|Hnew]; [by apply Hmin|].
    apply pos_lt_le. by apply Hnew.
Qed.

(** Carries the invariant over a change of the database that leaves the
    subscription rows alone. *)
Lemma inv_evolve w d' c' live' entries' claims' late' rows :
  world_inv w → evolves (cluster w) (db w) c' d' rows → log_wf d' →
  (live' = true → ∃ m, plane_meta d' = Some m ∧ system_identifier m = c') →
  entries' ⊆ entries w → claims' ⊆ claims w →
  (∀ id cl, claims' !! id = Some cl →
     is_Some (open_txs d' !! cl_xid cl) ∧ bumping d' ≠ Some (cl_xid cl)) →
  world_inv (mkWorld d' c' live' entries' claims' late' (owe rows <$> ghost w)).
Proof.
  intros I E L V He Hc Hx. split; simpl; try done.
  - intros id. rewrite (ev_subs _ _ _ _ _ E), lookup_fmap.
    pose proof (wi_subs _ I id) as Hs. unfold sub_ok in *.
    destruct (subscriptions (db w) !! id) as [row|] eqn:Er, (ghost w !! id); simpl; try done.
    destruct Hs as [Hs ?]. split; [|done]. by eapply sub_inv_evolves.
  - intros id cl Hcl. destruct (Hx id cl Hcl). eapply claim_inv_evolves; [done..|].
    apply (wi_claims _ I). by eapply lookup_weaken.
  - intros id1 id2 cl1 cl2 H1 H2. eapply (wi_xids _ I); by eapply lookup_weaken.
  - intros e Hin. rewrite (ev_subs _ _ _ _ _ E). by apply (wi_entries _ I), He.
Qed.

(** The same for a change that commits nothing and keeps sessions, claims and
    registrations. *)
Lemma inv_evolve_nil w d' :
  world_inv w → evolves (cluster w) (db w) (cluster w) d' [] → log_wf d' →
  (live w = true → ∃ m, plane_meta d' = Some m ∧ system_identifier m = cluster w) →
  (∀ id cl, claims w !! id = Some cl →
     is_Some (open_txs d' !! cl_xid cl) ∧ bumping d' ≠ Some (cl_xid cl)) →
  world_inv (set_db d' w).
Proof.
  intros I E L V Hx. pose proof (inv_evolve w d' (cluster w) (live w) (entries w) (claims w)
    (late w) [] I E L V ltac:(done) ltac:(done) Hx) as H. by rewrite owe_nil_map in H.
Qed.

(** A claim may be given up at any time. *)
Lemma inv_drop_claim w id : world_inv w → world_inv (set_claims (delete id) w).
Proof.
  intros I. split; simpl; try apply I.
  - intros id' cl [_ H]%lookup_delete_Some. by apply (wi_claims _ I).
  - intros id1 id2 cl1 cl2 [_ H1]%lookup_delete_Some [_ H2]%lookup_delete_Some.
    by apply (wi_xids _ I).
Qed.

Lemma inv_late w l : world_inv w → world_inv (set_late l w).
Proof. intros []. by split. Qed.

(** The log does not depend on the subscriptions table. *)
Lemma log_wf_subs f d : log_wf d → log_wf (set_subs f d).
Proof. intros []. by split. Qed.

Lemma sub_inv_subs c f d row g : sub_inv c d row g → sub_inv c (set_subs f d) row g.
Proof. intros []. by split. Qed.

(** Carries the invariant over the update of one unclaimed row. *)
Lemma inv_row w id f h :
  world_inv w → claims w !! id = None →
  (∀ row g, subscriptions (db w) !! id = Some row → ghost w !! id = Some g →
     sub_inv (cluster w) (db w) row g → sub_inv (cluster w) (db w) (f row) (h g)) →
  (∀ row, s_topic (f row) = s_topic row ∧ s_version (f row) = s_version row
          ∧ s_spec_hash (f row) = s_spec_hash row) →
  world_inv (set_ghost (alter h id) (set_db (set_subs (alter f id) (db w)) w)).
Proof.
  intros I Hcl Hinv Hid. split; simpl.
  - by apply log_wf_subs, I.
  - apply I.
  - intros id'. pose proof (wi_subs _ I id') as Hs. destruct (decide (id = id')) as [<-|Hne].
    + rewrite !lookup_alter_eq. unfold sub_ok in *.
      destruct (subscriptions (db w) !! id) as [row|] eqn:E1, (ghost w !! id) as [g|] eqn:E2;
        simpl; try done.
      destruct Hs as [Hs (e0 & Ho)]. split; [by apply sub_inv_subs, Hinv|].
      exists e0. by destruct (Hid row) as (-> & -> & ->).
    + rewrite !lookup_alter_ne by done. unfold sub_ok in *.
      repeat case_match; try done. split; [|by apply Hs]. by apply sub_inv_subs, Hs.
  - intros id' cl H. assert (id ≠ id') by congruence.
    destruct (wi_claims _ I id' cl H) as (? & ? & ? & row & ?).
    split_and!; [done..|]. exists row. simpl. by rewrite lookup_alter_ne.
  - apply I.
  - intros e He. destruct (wi_entries _ I e He) as (row & Hrow & ? & ? & ?).
    destruct (decide (id = spec_id (entry_spec e))) as [->|].
    + exists (f row). rewrite lookup_alter_eq, Hrow. by destruct (Hid row) as (-> & -> & _).
    + exists row. by rewrite lookup_alter_ne.
Qed.

(** ** Changes that append nothing *)

(** Transactions open and finish, the log gains at most rows that were already
    in flight. *)
Record quiet (d d' : Db) (rows : list EventRow) : Prop := {
  qu_meta : plane_meta d' = plane_meta d;
  qu_tie : next_tie d' = next_tie d;
  qu_xid : next_xid d ≤ next_xid d';
  qu_subs : subscriptions d' = subscriptions d;
  qu_events : events d' = events d ++ rows;
  qu_rows : ∀ e, e ∈ rows → in_log d e;
  qu_open : ∀ x tx', open_txs d' !! x = Some tx' →
    x < next_xid d'
    ∧ (is_Some (open_txs d !! x) ∨ next_xid d ≤ x)
    ∧ (open_txs d !! x = Some tx' ∨ tx_rows tx' = [] ∧ tx_writer tx' = false);
  qu_bump : ∀ x, bumping d' = Some x → is_Some (open_txs d' !! x) ∧ no_writer d;
}.

Lemma quiet_in_log d d' rows e : quiet d d' rows → in_log d' e → in_log d e.
Proof.
  intros Q [He|(x & tx' & Hx & He)].
  - rewrite (qu_events _ _ _ Q) in He. apply elem_of_app in He as [?|?]; [by left|].
    by apply (qu_rows _ _ _ Q).
  - destruct (qu_open _ _ _ Q x tx' Hx) as (_ & _ & [Ho|[Hn _]]); [right; eauto|].
    rewrite Hn in He. by apply elem_of_nil in He.
Qed.

Lemma quiet_evolves c d d' rows : quiet d d' rows → evolves c d c d' rows.
Proof.
  intros Q. split.
  - intros p (m & Hm & Hp). exists m. rewrite (qu_meta _ _ _ Q). split; [done|].
    destruct Hp as [?|[? Hp]]; [by left|]. right. split; [done|]. intros Hc.
    destruct (Hp Hc) as [Hn Ho]. pose proof (qu_xid _ _ _ Q). split; [lia|].
    intros x tx' Hx. destruct (qu_open _ _ _ Q x tx' Hx) as (_ & [[tx ?]|?] & _); [eauto|lia].
  - intros e He. left. by eapply quiet_in_log.
  - intros e. rewrite (qu_events _ _ _ Q), elem_of_app. done.
  - intros e. rewrite (qu_events _ _ _ Q), elem_of_app. by right.
  - intros id row e _ _ _. rewrite (qu_events _ _ _ Q), elem_of_app. by left.
  - apply Q.
Qed.

Lemma quiet_log_wf d d' rows : log_wf d → quiet d d' rows → log_wf d'.
Proof.
  intros W Q. split.
  - intros x tx' Hx. by apply (qu_open _ _ _ Q x tx' Hx).
  - intros x tx' e Hx He. rewrite (qu_meta _ _ _ Q).
    destruct (qu_open _ _ _ Q x tx' Hx) as (_ & _ & [Ho|[Hn _]]); [by eapply (wf_pending _ W)|].
    rewrite Hn in He. by apply elem_of_nil in He.
  - intros e He. rewrite (qu_meta _ _ _ Q).
    destruct (quiet_in_log _ _ _ e Q (in_log_committed _ _ He)) as [?|(x & tx & Hx & Hin)].
    + by apply (wf_committed _ W).
    + destruct (wf_pending _ W x tx e Hx Hin) as (_ & _ & m & ? & Hg). exists m. split; [done|lia].
  - intros e He. rewrite (qu_tie _ _ _ Q). apply (wf_tie _ W). by eapply quiet_in_log.
  - intros e1 e2 H1 H2. apply (wf_inj _ W); by eapply quiet_in_log.
  - intros x Hb. destruct (qu_bump _ _ _ Q x Hb) as [Ho Hn]. split; [done|]. intros y tx' Hy.
    destruct (qu_open _ _ _ Q y tx' Hy) as (_ & _ & [?|[_ ?]]); [by apply (Hn y)|done].
Qed.

Lemma inv_quiet w d' :
  world_inv w → quiet (db w) d' [] →
  (∀ id cl, claims w !! id = Some cl →
     is_Some (open_txs d' !! cl_xid cl) ∧ bumping d' ≠ Some (cl_xid cl)) →
  world_inv (set_db d' w).
Proof.
  intros I Q Hx. apply inv_evolve_nil; try done.
  - by apply quiet_evolves.
  - eapply quiet_log_wf; [apply I|done].
  - rewrite (qu_meta _ _ _ Q). apply I.
Qed.

Lemma quiet_begin d : log_wf d → quiet d (fst (begin_tx d)) [].
Proof.
  intros W. split; simpl; try done; try lia.
  - by rewrite app_nil_r.
  - intros e He. by apply elem_of_nil in He.
  - intros x tx'. rewrite lookup_insert. case_decide as Hx; subst.
    + intros [= <-]. split_and!; [lia|right; lia|by right].
    + intros H. pose proof (wf_open _ W _ _ H). split_and!; [lia|left; eauto|by left].
  - intros x Hb. destruct (wf_bump _ W x Hb) as [Ho Hn]. split; [|done].
    rewrite lookup_insert. case_decide; eauto.
Qed.

Lemma quiet_commit d x :
  log_wf d → bumping d ≠ Some x → quiet d (commit_tx x d) (pending_rows x d).
Proof.
  intros W Hb. unfold commit_tx, pending_rows. destruct (open_txs d !! x) as [tx|] eqn:Ex.
  - split; simpl; try done.
    + intros e He. right; eauto.
    + intros y tx' [_ Hy]%lookup_delete_Some. pose proof (wf_open _ W _ _ Hy).
      split_and!; [lia|left; eauto|by left].
    + intros y Hy. destruct (wf_bump _ W y Hy) as [Ho Hn]. split; [|done].
      rewrite lookup_delete_ne by congruence. done.
  - split; try done.
    + by rewrite app_nil_r.
    + intros e He. by apply elem_of_nil in He.
    + intros y tx' Hy. pose proof (wf_open _ W _ _ Hy). split_and!; [lia|left; eauto|by left].
    + apply W.
Qed.

Lemma quiet_abort d x : log_wf d → bumping d ≠ Some x → quiet d (abort_tx x d) [].
Proof.
  intros W Hb. split; simpl; try done.
  - by rewrite app_nil_r.
  - intros e He. by apply elem_of_nil in He.
  - intros y tx' [_ Hy]%lookup_delete_Some. pose proof (wf_open _ W _ _ Hy).
    split_and!; [lia|left; eauto|by left].
  - intros y Hy. destruct (wf_bump _ W y Hy) as [Ho Hn]. split; [|done].
    rewrite lookup_delete_ne by congruence. done.
Qed.

Lemma quiet_rollback d x : log_wf d → quiet d (rollback_to_savepoint x d) [].
Proof.
  intros W. split; simpl; try done.
  - by rewrite app_nil_r.
  - intros e He. by apply elem_of_nil in He.
  - intros y tx' Hy. rewrite lookup_alter in Hy. case_decide as Hxy; subst.
    + destruct (open_txs d !! y) as [tx|] eqn:Ey; simpl in Hy; simplify_eq.
      pose proof (wf_open _ W _ _ Ey). split_and!; [lia|left; eauto|by right].
    + pose proof (wf_open _ W _ _ Hy). split_and!; [lia|left; eauto|by left].
  - intros y Hy. destruct (wf_bump _ W y Hy) as [Ho Hn]. split; [|done].
    rewrite lookup_alter. case_decide; subst; [|done]. by apply fmap_is_Some.
Qed.

Lemma quiet_bump_begin d : log_wf d → no_writer d → quiet d (bump_begin d) [].
Proof.
  intros W Hn. destruct (quiet_begin d W). split; simpl in *; try done.
  intros x [= <-]. rewrite lookup_insert_eq. eauto.
Qed.

Lemma quiet_bump_abort d : log_wf d → quiet d (bump_abort d) [].
Proof.
  intros W. unfold bump_abort. destruct (bumping d) as [x|] eqn:Eb; split; simpl; try done;
    try by rewrite app_nil_r.
  all: try (intros e He; by apply elem_of_nil in He).
  - intros y tx' [_ Hy]%lookup_delete_Some. pose proof (wf_open _ W _ _ Hy).
    split_and!; [lia|left; eauto|by left].
  - intros y tx' Hy. pose proof (wf_open _ W _ _ Hy). split_and!; [lia|left; eauto|by left].
  - congruence.
Qed.

Lemma quiet_contracts d h : log_wf d → quiet d (set_contracts h d) [].
Proof.
  intros W. split; simpl; try done.
  - by rewrite app_nil_r.
  - intros e He. by apply elem_of_nil in He.
  - intros y tx' Hy. pose proof (wf_open _ W _ _ Hy). split_and!; [lia|left; eauto|by left].
  - apply W.
Qed.

(** ** Changes that append, bump, seed, restore or collect *)

(** The row [enqueue_tx] appends is past everything behind the frontier. *)
Lemma enqueue_evolves jsonb c x uuid now ec payload d d' :
  (∃ m, plane_meta d = Some m ∧ system_identifier m = c) →
  enqueue_tx jsonb x uuid now ec payload d = Ok d' → evolves c d c d' [].
Proof.
  intros (m0 & Hm0 & Hsync) (tx & m & row & cs & Hx & Hm & Hpos & _ & _ & _ & ->)%enqueue_tx_ok.
  simplify_eq. split; simpl; try done; eauto.
  - intros p (m' & Hm' & Hp). exists m'. split; [done|]. destruct Hp as [?|[? Hp]]; [by left|].
    right. split; [done|]. intros Hc. destruct (Hp Hc) as [? Ho]. split; [done|].
    simpl. intros y tx'. rewrite lookup_insert. case_decide; subst; eauto.
  - intros e [He|(y & tx' & Hy & He)]; [by left; left|]. simpl in Hy.
    rewrite lookup_insert in Hy. case_decide; simplify_eq; [|left; right; eauto].
    simpl in He. apply elem_of_app in He as [He| ->%list_elem_of_singleton]; [left; right; eauto|].
    right. intros p (m' & Hm' & Hp). simplify_eq. rewrite Hpos. unfold pos_lt; simpl.
    destruct Hp as [?|[? Hp]]; [by left|]. right. split; [done|]. left. by eapply (proj2 (Hp eq_refl)).
  - intros e He. by apply elem_of_nil in He.
Qed.

Lemma enqueue_log_wf jsonb x uuid now ec payload d d' :
  log_wf d → bumping d = None →
  enqueue_tx jsonb x uuid now ec payload d = Ok d' → log_wf d'.
Proof.
  intros W Hb (tx & m & row & cs & Hx & Hm & Hpos & _ & _ & _ & ->)%enqueue_tx_ok.
  set (d' := mkDb _ _ _ _ _ _ _ _).
  assert (Hlog : ∀ e, in_log d' e → in_log d e ∨ e = row).
  { intros e [He|(y & tx' & Hy & He)]; [by left; left|]. simpl in Hy.
    rewrite lookup_insert in Hy. case_decide; simplify_eq; [|left; right; eauto].
    apply elem_of_app in He as [He| ->%list_elem_of_singleton]; [left; right; eauto|by right]. }
  assert (Htie : ∀ e, in_log d e → ev_pos e ≠ ev_pos row).
  { intros e He Heq. pose proof (wf_tie _ W e He) as Ht. rewrite Heq, Hpos in Ht. simpl in Ht. lia. }
  split; simpl.
  - intros y tx'. rewrite lookup_insert. case_decide; subst; eauto using wf_open.
  - intros y tx' e. rewrite lookup_insert. case_decide; subst; [|by apply (wf_pending _ W)].
    intros [= <-] [He| ->%list_elem_of_singleton]%elem_of_app; simpl.
    + destruct (wf_pending _ W y tx e Hx He) as (? & _ & ?). done.
    + rewrite Hpos. simpl. eauto.
  - apply W.
  - intros e [He| ->]%Hlog; [pose proof (wf_tie _ W e He); lia|]. rewrite Hpos. simpl. lia.
  - intros e1 e2 [H1| ->]%Hlog [H2| ->]%Hlog Heq; [by apply (wf_inj _ W)|..|done].
    + by destruct (Htie e1 H1).
    + by destruct (Htie e2 H2).
  - by rewrite Hb.
Qed.

(** A bump completes the generation: nothing of it is in flight any more. *)
Lemma bump_commit_evolves c c' identity d d' g :
  log_wf d → bump_commit identity d = Ok (d', g) → evolves c d c' d' [] ∧ log_wf d'.
Proof.
  intros W. unfold bump_commit. destruct (bumping d) as [x|] eqn:Eb; [|done].
  destruct (plane_meta d) as [m|] eqn:Em; [|done]. intros [= <- <-].
  destruct (wf_bump _ W x Eb) as [_ Hn]. set (d' := mkDb _ _ _ _ _ _ _ _).
  assert (Hpend : ∀ y tx e, open_txs d' !! y = Some tx → e ∉ tx_rows tx).
  { simpl. intros y tx e [_ Hy]%lookup_delete_Some He. pose proof (Hn y tx Hy) as Hw.
    destruct (wf_pending _ W y tx e Hy He) as (_ & Hw' & _). congruence. }
  assert (Hlog : ∀ e, in_log d' e → in_log d e).
  { intros e [He|(y & tx & Hy & He)]; [by left|]. by destruct (Hpend y tx e). }
  split; split; simpl; try done.
  - intros p (m' & Hm' & Hp). simplify_eq. eexists. split; [done|]. left. simpl. lia.
  - intros e He. left. by apply Hlog.
  - by left.
  - intros e He. by apply elem_of_nil in He.
  - intros y tx [_ Hy]%lookup_delete_Some. by apply (wf_open _ W _ _ Hy).
  - intros y tx e Hy He. by destruct (Hpend y tx e).
  - intros e He. destruct (wf_committed _ W e He) as (m' & ? & ?). simplify_eq.
    eexists. split; [done|]. simpl. lia.
  - intros e He. by apply (wf_tie _ W), Hlog.
  - intros e1 e2 H1 H2. apply (wf_inj _ W); by apply Hlog.
Qed.

Lemma seed_evolves c identity d :
  log_wf d → evolves c d c (seed_plane_meta identity d) [] ∧ log_wf (seed_plane_meta identity d).
Proof.
  intros W. unfold seed_plane_meta. destruct (plane_meta d) as [m|] eqn:Em.
  { split; [|done]. split; try done; [by left|by left|]. intros e He. by apply elem_of_nil in He. }
  split; split; simpl; try done; try apply W.
  - intros p (m & ? & _). congruence.
  - by left.
  - by left.
  - intros e He. by apply elem_of_nil in He.
  - intros x tx e Hx He. destruct (wf_pending _ W x tx e Hx He) as (_ & _ & m & ? & _). congruence.
  - intros e He. destruct (wf_committed _ W e He) as (m & ? & _). congruence.
Qed.

Lemma restore_evolves w identity n :
  log_wf (db w) → Some identity ≠ system_identifier <$> plane_meta (db w) →
  evolves (cluster w) (db w) identity (db (restore identity n w)) []
  ∧ log_wf (db (restore identity n w)).
Proof.
  intros W Hid. assert (Hlog : ∀ e, in_log (db (restore identity n w)) e → in_log (db w) e).
  { intros e [He|(y & tx & Hy & He)]; [by left|]. simpl in Hy. by rewrite lookup_empty in Hy. }
  split; split; simpl; try done.
  - intros p (m & Hm & Hp). exists m. split; [done|]. destruct Hp as [?|[? _]]; [by left|].
    right. split; [done|]. intros <-. rewrite Hm in Hid. done.
  - intros e He. left. by apply Hlog.
  - by left.
  - intros e He. by apply elem_of_nil in He.
  - apply W.
  - intros e He. by apply (wf_tie _ W), Hlog.
  - intros e1 e2 H1 H2. apply (wf_inj _ W); by apply Hlog.
Qed.

(** What a subscription still needs is never collected. *)
Lemma gc_evolves c t v days now d :
  log_wf d → evolves c d c (fst (gc_batch t v days now d)) []
             ∧ log_wf (fst (gc_batch t v days now d)).
Proof.
  intros W. set (d' := fst _).
  assert (Hsub : ∀ e, e ∈ events d' → e ∈ events d) by (intros e [_ ?]%list_elem_of_filter; done).
  assert (Hlog : ∀ e, in_log d' e → in_log d e).
  { intros e [He|(y & tx & Hy & He)]; [left; by apply Hsub|right; eauto]. }
  split; split; try done; try apply W.
  - intros e He. left. by apply Hlog.
  - intros e He. left. by apply Hsub.
  - intros e He. by apply elem_of_nil in He.
  - intros id row e Hrow Hst (Ht & Hv & Hlt) He. apply list_elem_of_filter. split; [|done].
    intros (_ & <- & <- & _ & Hall)%batch_rows_elem.
    apply (Hall id row Hrow). split_and!; [by symmetry..| |by apply pos_lt_le].
    destruct (s_state row); naive_solver.
  - intros e He. by apply (wf_committed _ W), Hsub.
  - intros e He. by apply (wf_tie _ W), Hlog.
  - intros e1 e2 H1 H2. apply (wf_inj _ W); by apply Hlog.
Qed.

(** ** Moving a cursor *)

Lemma select_next_of c d t v p e :
  log_wf d → select_next t v p d = Some e → next_of c d t v p e.
Proof.
  intros W (Hin & Hp & Hf & Hmin)%select_next_some.
  destruct (wf_committed _ W e Hin) as (m & Hm & Hg).
  unfold frontier_eligible in Hf. rewrite Hm in Hf.
  split; [done|]. split; [done|]. split.
  - exists m. split; [done|]. destruct (decide (generation (ev_pos e) < meta_generation m)); [by left|].
    right. split; [lia|]. intros _. destruct Hf as [?|Hf]; [lia|]. split.
    + pose proof (proj1 (xmin_spec d)). lia.
    + intros x tx Hx. by eapply xmin_lt_open.
  - intros e' [He'|(x & tx & Hx & He')] Hp' Hlt.
    + destruct (Hmin e' He' Hp'); [|done]. unfold frontier_eligible. rewrite Hm.
      unfold pos_lt in Hlt. lia.
    + destruct (wf_pending _ W x tx e' Hx He') as (Hxid & _ & m' & Hm' & Hg'). simplify_eq.
      pose proof (proj2 (xmin_spec d) _ _ Hx). unfold pos_lt in Hlt. lia.
Qed.

Lemma sub_inv_advance c d row g row' o e :
  log_wf d → sub_inv c d row g →
  next_of c d (s_topic row) (s_version row) (s_cursor row) e →
  s_topic row' = s_topic row → s_version row' = s_version row → s_cursor row' = ev_pos e →
  s_state row' ≠ Retired → sub_inv c d row' (log_event o e g).
Proof.
  intros W I (Hin & (Ht & Hv & Hlt) & Hf & Hmin) Et Ev Ec Es.
  pose proof (si_floor _ _ _ _ I) as Hfl.
  assert (Hpe : owed_past g e).
  { split_and!; [by rewrite (si_topic _ _ _ _ I)|by rewrite (si_version _ _ _ _ I)|].
    eauto with swarog. }
  split; unfold delivered, owed_past in *; simpl in *; rewrite ?Et, ?Ev, ?Ec, ?fmap_app;
    simpl; try apply I.
  - eauto with swarog.
  - by right.
  - intros e' He' Hp' Hle. apply elem_of_app. destruct (pos_le_or_lt (ev_pos e') (s_cursor row)) as [?|Hgt].
    { left. by apply (si_covered _ _ _ _ I). }
    right. apply list_elem_of_singleton. apply (wf_inj _ W); [done|by left|].
    apply pos_le_antisymm; [done|]. apply Hmin; [done|]. destruct Hp' as (? & ? & _).
    split_and!; [by rewrite <- (si_topic _ _ _ _ I)|by rewrite <- (si_version _ _ _ _ I)|done].
  - intros Hr. split; [done|]. intros e' He'. rewrite elem_of_app, list_elem_of_singleton.
    destruct (si_held _ _ _ _ I Hr) as [_ Hheld]. destruct (Hheld e' He') as [?|[Hgt Hin']]; [by auto|].
    destruct (pos_le_or_lt (ev_pos e') (ev_pos e)) as [Hle|?]; [|by right].
    left. right. apply (wf_inj _ W); [by left..|]. apply pos_le_antisymm; [done|].
    apply Hmin; [by left|]. destruct (si_owed _ _ _ _ I e' He') as (? & ? & _).
    split_and!; [by rewrite <- (si_topic _ _ _ _ I)|by rewrite <- (si_version _ _ _ _ I)|done].
  - apply StronglySorted_app_2; [|apply I|repeat constructor].
    intros a b Ha ->%list_elem_of_singleton.
    destruct (si_range _ _ _ _ I a Ha). eauto with swarog.
  - intros a [Ha| ->%list_elem_of_singleton]%elem_of_app; [|split; [done|apply pos_le_refl]].
    destruct (si_range _ _ _ _ I a Ha). split; [done|]. eauto with swarog.
Qed.

(** An update that keeps topic, version and cursor and does not retire. *)
Lemma sub_inv_keep c d row row' g :
  s_topic row' = s_topic row → s_version row' = s_version row → s_cursor row' = s_cursor row →
  (s_state row ≠ Retired → s_state row' ≠ Retired) → sub_inv c d row g → sub_inv c d row' g.
Proof.
  intros Et Ev Ec Es I. split; rewrite ?Et, ?Ev, ?Ec; try apply I.
  intros Hr. destruct (si_held _ _ _ _ I Hr). auto.
Qed.

Lemma inv_row_keep w id f :
  world_inv w → claims w !! id = None →
  (∀ row, s_topic (f row) = s_topic row ∧ s_version (f row) = s_version row
          ∧ s_spec_hash (f row) = s_spec_hash row) →
  (∀ row, s_cursor (f row) = s_cursor row
          ∧ (s_state row ≠ Retired → s_state (f row) ≠ Retired)) →
  world_inv (set_db (set_subs (alter f id) (db w)) w).
Proof.
  intros I Hcl Hf Hk.
  assert (H : world_inv (set_ghost (alter (fun g => g) id) (set_db (set_subs (alter f id) (db w)) w))).
  { apply inv_row; try done. intros row g _ _ Hs.
    destruct (Hf row) as (? & ? & _), (Hk row). by eapply sub_inv_keep. }
  unfold set_ghost in H. rewrite alter_id in H by done. exact H.
Qed.

(** ** Transactions at the level of the world *)

Lemma set_db_id w : set_db (db w) w = w.
Proof. by destruct w. Qed.

Lemma inv_begin w : world_inv w → world_inv (set_db (fst (begin_tx (db w))) w).
Proof.
  intros I. apply inv_quiet; [done|by apply quiet_begin, I|]. intros id cl Hcl.
  destruct (wi_claims _ I id cl Hcl) as (_ & [tx Ho] & Hb & _). split; [|done].
  simpl. rewrite lookup_insert. case_decide; eauto.
Qed.

Lemma free_fresh w : world_inv w → free_xid (next_xid (db w)) (set_db (fst (begin_tx (db w))) w).
Proof.
  intros I. split; simpl.
  - intros Hb. destruct (wf_bump _ (wi_log _ I) _ Hb) as [[tx Ho] _].
    apply (wf_open _ (wi_log _ I)) in Ho. lia.
  - intros id cl Hcl Heq. destruct (wi_claims _ I id cl Hcl) as (_ & [tx Ho] & _).
    apply (wf_open _ (wi_log _ I)) in Ho. lia.
Qed.

Lemma free_dropped w id cl :
  world_inv w → claims w !! id = Some cl → free_xid (cl_xid cl) (set_claims (delete id) w).
Proof.
  intros I Hcl. split; simpl.
  - by apply (wi_claims _ I id cl Hcl).
  - intros id' cl' [Hne Hcl']%lookup_delete_Some Heq. apply Hne. by eapply (wi_xids _ I).
Qed.

Lemma inv_abort w x : world_inv w → free_xid x w → world_inv (set_db (abort_tx x (db w)) w).
Proof.
  intros I [Hb Hfree]. apply inv_quiet; [done|apply quiet_abort; [apply I|done]|].
  intros id cl Hcl. destruct (wi_claims _ I id cl Hcl) as (_ & Ho & Hb' & _). split; [|done].
  simpl. rewrite lookup_delete_ne; [done|]. intros Heq. by apply (Hfree id cl Hcl).
Qed.

Lemma inv_commit w x : world_inv w → free_xid x w → world_inv (commit_world x w).
Proof.
  intros I [Hb Hfree]. pose proof (quiet_commit (db w) x (wi_log _ I) Hb) as Q.
  apply inv_evolve; try done.
  - by apply quiet_evolves.
  - by eapply quiet_log_wf; [apply I|].
  - rewrite (qu_meta _ _ _ Q). apply I.
  - intros id cl Hcl. destruct (wi_claims _ I id cl Hcl) as (_ & Ho & Hb' & _).
    unfold commit_tx. case_match; [|done]. split; [|done]. simpl.
    rewrite lookup_delete_ne; [done|]. intros Heq. by apply (Hfree id cl Hcl).
Qed.

Lemma inv_commit_nil w x :
  world_inv w → free_xid x w → pending_rows x (db w) = [] →
  world_inv (set_db (commit_tx x (db w)) w).
Proof.
  intros I Hf Hn. pose proof (inv_commit w x I Hf) as H.
  unfold commit_world in H. rewrite Hn, owe_nil_map in H. exact H.
Qed.

(** A transaction that begins and commits without writing to the log. *)
Lemma inv_begin_commit w :
  world_inv w →
  world_inv (set_db (commit_tx (next_xid (db w)) (fst (begin_tx (db w)))) w).
Proof.
  intros I. apply (inv_commit_nil (set_db (fst (begin_tx (db w))) w)).
  - by apply inv_begin.
  - exact (free_fresh w I).
  - unfold pending_rows. simpl. by rewrite lookup_insert_eq.
Qed.

Lemma inv_begin_abort w :
  world_inv w →
  world_inv (set_db (abort_tx (next_xid (db w)) (fst (begin_tx (db w)))) w).
Proof.
  intros I. apply (inv_abort (set_db (fst (begin_tx (db w))) w)); [by apply inv_begin|by apply free_fresh].
Qed.

(** ** The workers *)

Lemma inv_handled w id cl now :
  world_inv w → claims w !! id = Some cl →
  world_inv (mkWorld (deliver_commit cl now (db w)) (cluster w) (live w) (entries w)
               (delete id (claims w)) (late w)
               (owe (pending_rows (cl_xid cl) (db w))
                  <$> alter (log_event ByHandler (cl_event cl)) id (ghost w))).
Proof.
  intros I Hcl. destruct (wi_claims _ I id cl Hcl) as (Hid & _ & _ & row & Hrow & Hst & Hc & _ & Hn).
  unfold deliver_commit. rewrite Hid.
  set (w1 := set_ghost (alter (log_event ByHandler (cl_event cl)) id)
    (set_db (set_subs (alter (advance (ev_pos (cl_event cl)) now) id) (db w))
            (set_claims (delete id) w))).
  enough (H : world_inv (commit_world (cl_xid cl) w1)) by exact H. apply inv_commit.
  - apply (inv_row (set_claims (delete id) w)); try done.
    + by apply inv_drop_claim.
    + apply lookup_delete_eq.
    + intros row' g Hrow' _ Hs. simpl in Hrow'. simplify_eq.
      eapply sub_inv_advance; try done; [apply I|by rewrite Hc|by simpl; rewrite Hst].
  - exact (free_dropped w id cl I Hcl).
Qed.

Lemma inv_record_failure w id n msg c k now :
  world_inv w → claims w !! id = None →
  world_inv (set_db (record_failure id n msg c k now (db w)) w).
Proof.
  intros I Hcl. apply inv_row_keep; try done; intros row; case_bool_decide; try done.
  simpl. by case_match.
Qed.

Lemma inv_faulted w id cl msg now :
  world_inv w → claims w !! id = Some cl →
  world_inv (set_claims (delete id) (set_db (deliver_fault cl msg now (db w)) w)).
Proof.
  intros I Hcl. destruct (wi_claims _ I id cl Hcl) as (Hid & _).
  pose proof (free_dropped w id cl I Hcl) as Hfree.
  set (d1 := rollback_to_savepoint (cl_xid cl) (db w)).
  assert (I1 : world_inv (set_db d1 (set_claims (delete id) w))).
  { apply inv_quiet; [by apply inv_drop_claim|apply quiet_rollback, I|].
    simpl. intros id' cl' [_ Hcl']%lookup_delete_Some.
    destruct (wi_claims _ I id' cl' Hcl') as (_ & Ho & Hb & _). split; [|done].
    simpl. rewrite lookup_alter. case_decide; [|done]. rewrite fmap_is_Some. congruence. }
  apply (inv_record_failure _ (cl_id cl) (wrap_i32 (cl_failures cl + 1)) msg (cl_cursor cl)
           (cl_failures cl) now) in I1; [|simpl; rewrite Hid; apply lookup_delete_eq].
  apply (inv_commit_nil _ (cl_xid cl)) in I1; [exact I1|exact Hfree|].
  unfold pending_rows, record_failure, d1. simpl. rewrite lookup_alter_eq. by destruct (open_txs (db w) !! cl_xid cl).
Qed.

Lemma inv_crash w id cl :
  world_inv w → claims w !! id = Some cl →
  world_inv (set_claims (delete id) (set_db (abort_tx (cl_xid cl) (db w)) w)).
Proof.
  intros I Hcl.
  exact (inv_abort _ _ (inv_drop_claim w id I) (free_dropped w id cl I Hcl)).
Qed.

Lemma inv_claim w e row ev :
  world_inv w → e ∈ entries w →
  let id := spec_id (entry_spec e) in
  let d1 := fst (begin_tx (db w)) in
  claims w !! id = None → subscriptions (db w) !! id = Some row → s_state row = Active →
  select_next (entry_topic e) (default i32_max (i32_try_from (entry_version e))) (s_cursor row) d1
    = Some ev →
  world_inv (set_claims (<[id := mkClaim id (next_xid (db w)) (s_cursor row) (s_failures row) ev]>)
               (set_db d1 w)).
Proof.
  intros I He id d1 Hcl Hrow Hst Hsel. pose proof (inv_begin w I) as I1.
  destruct (wi_entries _ I e He) as (row' & Hrow' & Ht & Hv & Hmax).
  fold id in Hrow'. simplify_eq.
  destruct (free_fresh w I) as [Hb Hfree].
  unfold i32_try_from in Hsel. rewrite (proj2 (Z.leb_le _ _) Hmax), <- Ht, <- Hv in Hsel.
  split; try apply I1.
  - intros id' cl'. simpl. rewrite lookup_insert. case_decide; subst; [|apply (wi_claims _ I1)].
    intros [= <-]. split; [done|]. split; [simpl; rewrite lookup_insert_eq; eauto|].
    split; [done|]. exists row. do 4 (split; [done|]). by apply select_next_of; [apply I1|].
  - intros id1 id2 cl1 cl2. simpl. rewrite !lookup_insert.
    repeat case_decide; intros; simplify_eq; try done.
    + exfalso. by eapply Hfree.
    + exfalso. by eapply Hfree.
    + by eapply (wi_xids _ I).
Qed.

(** ** The operator *)

Lemma fst_update_sub f id d : fst (update_sub f id d) = set_subs (alter f id) d.
Proof.
  unfold update_sub, snapshot. destruct (subscriptions d !! id) eqn:E; simpl; [done|].
  unfold set_subs. rewrite alter_id; [by destruct d|]. intros row. by rewrite E.
Qed.

Lemma inv_verb w id f :
  world_inv w → claims w !! id = None →
  (∀ row, s_topic (f row) = s_topic row ∧ s_version (f row) = s_version row
          ∧ s_spec_hash (f row) = s_spec_hash row) →
  (∀ row, s_cursor (f row) = s_cursor row
          ∧ (s_state row ≠ Retired → s_state (f row) ≠ Retired)) →
  world_inv (set_db (fst (update_sub f id (db w))) w).
Proof. intros. rewrite fst_update_sub. by apply inv_row_keep. Qed.

Lemma inv_retire w id now :
  world_inv w → claims w !! id = None →
  world_inv (set_ghost (alter retire_ghost id) (set_db (fst (retire id now (db w))) w)).
Proof.
  intros I Hcl. unfold retire, set_state. rewrite fst_update_sub.
  apply inv_row; try done. intros row g _ _ []. by split.
Qed.

Lemma subs_commit_tx x d : subscriptions (commit_tx x d) = subscriptions d.
Proof. unfold commit_tx. by case_match. Qed.

Lemma inv_skip w id reason now :
  world_inv w → claims w !! id = None →
  match skip id reason now (db w) with
  | (d', Ok (e, _)) => world_inv (set_ghost (alter (log_event ByOperator e) id) (set_db d' w))
  | (d', Err _) => world_inv (set_db d' w)
  end.
Proof.
  intros I Hcl. unfold skip, snapshot at 1.
  destruct (subscriptions (db w) !! id) as [row|] eqn:Er; [|by simpl; rewrite set_db_id].
  cbn -[begin_tx select_next snapshot]. rewrite (surjective_pairing (begin_tx (db w))).
  change (snd (begin_tx (db w))) with (next_xid (db w)).
  destruct (bool_decide _ && _); [by apply inv_begin_abort|].
  destruct (select_next _ _ _ _) as [e|] eqn:Es; [|by apply inv_begin_abort].
  set (d2 := set_subs (alter (skip_row e reason now) id) (fst (begin_tx (db w)))).
  assert (Hafter : snapshot id (commit_tx (next_xid (db w)) d2)
                   = Ok (snapshot_of id (skip_row e reason now row))).
  { unfold snapshot. rewrite subs_commit_tx. simpl. by rewrite lookup_alter_eq, Er. }
  rewrite Hafter. cbn -[begin_tx]. pose proof (inv_begin w I) as I1.
  set (w2 := set_ghost (alter (log_event ByOperator e) id)
           (set_db d2 (set_db (fst (begin_tx (db w))) w))).
  enough (H : world_inv (set_db (commit_tx (next_xid (db w)) (db w2)) w2)) by exact H.
  apply inv_commit_nil.
  - apply (inv_row (set_db (fst (begin_tx (db w))) w)); try done.
    intros row' g Hrow' _ Hs. simpl in Hrow'. simplify_eq.
    eapply sub_inv_advance; try done; [apply I1|]. by apply select_next_of; [apply I1|].
  - exact (free_fresh w I).
  - unfold pending_rows. simpl. by rewrite lookup_insert_eq.
Qed.

(** ** Registration *)

Lemma inv_new_sub w id row :
  world_inv w → subscriptions (db w) !! id = None → row_origin row → s_state row = Active →
  world_inv (set_ghost (<[id := new_ghost row (events (db w))]>)
               (set_db (set_subs (<[id := row]>) (db w)) w)).
Proof.
  intros I Hnone Ho Hst. split; simpl.
  - apply log_wf_subs, I.
  - apply I.
  - intros id'. rewrite !lookup_insert. case_decide; subst.
    + split; [|done]. apply sub_inv_subs. split; simpl; try done.
      * apply pos_le_refl.
      * by left.
      * intros e _ (_ & _ & Hlt) Hle. simpl in Hlt. by destruct Hle.
      * intros e He Hp. by apply list_elem_of_filter.
      * intros e He. by apply list_elem_of_filter in He as [? _].
      * intros _. rewrite Hst. split; [done|]. intros e [(_ & _ & ?) ?]%list_elem_of_filter. by right.
      * constructor.
      * intros e He. by apply elem_of_nil in He.
    + pose proof (wi_subs _ I id') as Hs. unfold sub_ok in *. repeat case_match; try done.
      split; [|by apply Hs]. by apply sub_inv_subs, Hs.
  - intros id' cl H. destruct (wi_claims _ I id' cl H) as (? & ? & ? & row' & Hrow' & Hr).
    do 3 (split; [done|]). exists row'. split; [|exact Hr].
    simpl. rewrite lookup_insert_ne by congruence. done.
  - apply I.
  - intros e He. destruct (wi_entries _ I e He) as (row' & Hrow' & ?). exists row'.
    rewrite lookup_insert_ne by congruence. done.
Qed.

Lemma inv_add_entry w e row :
  world_inv w → subscriptions (db w) !! spec_id (entry_spec e) = Some row →
  s_topic row = entry_topic e → s_version row = entry_version e → entry_version e ≤ i32_max →
  world_inv (mkWorld (db w) (cluster w) (live w) (e :: entries w) (claims w) (late w) (ghost w)).
Proof.
  intros I Hrow Ht Hv Hm. split; simpl; try apply I.
  intros e' [->|He']%elem_of_cons; [by exists row|]. by apply (wi_entries _ I).
Qed.

Lemma ghost_iff w id : world_inv w → is_Some (ghost w !! id) ↔ is_Some (subscriptions (db w) !! id).
Proof.
  intros I. pose proof (wi_subs _ I id) as Hs. unfold sub_ok in Hs.
  repeat case_match; simplify_eq; rewrite ?is_Some_alt; naive_solver.
Qed.

Lemma events_commit_tx x d : events (commit_tx x d) = events d ++ pending_rows x d.
Proof. unfold commit_tx, pending_rows. case_match; simpl; [done|]. by rewrite app_nil_r. Qed.

Lemma inv_reconcile_row w e v now :
  world_inv w → i32_try_from (entry_version e) = Some v →
  match reconcile_row e v now (db w) with
  | (d', Ok _) => world_inv (mkWorld d' (cluster w) (live w) (e :: entries w) (claims w) (late w)
                                     (register_ghost e d' (ghost w)))
  | (d', Err _) => world_inv (set_db d' w)
  end.
Proof.
  intros I Hv. unfold i32_try_from in Hv. destruct (Z.leb_spec (entry_version e) i32_max); [|done].
  simplify_eq. unfold reconcile_row. rewrite (surjective_pairing (begin_tx (db w))).
  change (snd (begin_tx (db w))) with (next_xid (db w)). set (id := spec_id (entry_spec e)).
  change (subscriptions (fst (begin_tx (db w)))) with (subscriptions (db w)).
  destruct (subscriptions (db w) !! id) as [row|] eqn:Er.
  - case_bool_decide as Hh; [|by apply inv_begin_abort].
    pose proof (wi_subs _ I id) as Hs. rewrite Er in Hs. simpl in Hs.
    destruct (ghost w !! id) as [g|] eqn:Eg; [|done].
    destruct Hs as [_ (e0 & Hh0 & Ht0 & Hv0)]. rewrite Hh in Hh0.
    apply spec_hash_inj_parts in Hh0 as (? & ? & _).
    unfold register_ghost. fold id. rewrite Eg.
    apply (inv_add_entry _ e row (inv_begin_commit w I)); [|congruence|congruence|done].
    simpl. rewrite subs_commit_tx. exact Er.
  - destruct (initial_cursor _ _ _) as [c|] eqn:Ec; [|by apply inv_begin_abort].
    set (row := mkSub _ _ _ _ _ _ _ _ _ _). set (d1 := fst (begin_tx (db w))).
    set (d2 := set_subs _ d1).
    assert (Hpend : pending_rows (next_xid (db w)) d2 = []).
    { unfold pending_rows. simpl. by rewrite lookup_insert_eq. }
    assert (Hg : ghost w !! id = None).
    { apply eq_None_not_Some. rewrite (ghost_iff w id I), Er. by intros [? ?]. }
    unfold register_ghost. fold id. rewrite Hg, subs_commit_tx, events_commit_tx, Hpend, app_nil_r.
    simpl. rewrite lookup_insert_eq.
    assert (I2 : world_inv (set_ghost (<[id := new_ghost row (events d1)]>)
                              (set_db d2 (set_db d1 w)))).
    { apply (inv_new_sub (set_db d1 w)); [by apply inv_begin|done|by exists e|done]. }
    apply (inv_commit_nil _ (next_xid (db w))) in I2; [|exact (free_fresh w I)|exact Hpend].
    apply (inv_add_entry _ e row) in I2; try done.
    simpl. rewrite subs_commit_tx. simpl. by rewrite lookup_insert_eq.
Qed.

Lemma inv_reconcile w e now :
  world_inv w →
  match reconcile_one e now (db w) with
  | (d', Ok _) => world_inv (mkWorld d' (cluster w) (live w) (e :: entries w) (claims w) (late w)
                                     (register_ghost e d' (ghost w)))
  | (d', Err _) => world_inv (set_db d' w)
  end.
Proof.
  intros I. unfold reconcile_one. destruct (i32_try_from _) as [v|] eqn:Ev; [|by rewrite set_db_id].
  destruct (entry_history e) as [h|]; [|by apply inv_reconcile_row].
  destruct (ensure_history_contract _ _ _ _) as [table|f]; [|by rewrite set_db_id].
  apply (inv_reconcile_row (set_db (set_contracts table (db w)) w)); [|done].
  apply inv_quiet; [done|apply quiet_contracts, I|]. intros id cl Hcl.
  destruct (wi_claims _ I id cl Hcl) as (_ & ? & ? & _). done.
Qed.

(** ** Every action, every trace *)

Lemma inv_deliver_begin w i e now d' out :
  world_inv w → entries w !! i = Some e →
  deliver_begin e now (bool_decide (is_Some (claims w !! spec_id (entry_spec e)))) (db w) = (d', out) →
  match out with
  | inl _ => world_inv (set_db d' w)
  | inr cl => world_inv (set_claims (<[spec_id (entry_spec e) := cl]>) (set_db d' w))
  end.
Proof.
  intros I He. unfold deliver_begin, due. set (id := spec_id (entry_spec e)).
  destruct (claims w !! id) as [?|] eqn:Ecl; simpl.
  { intros [= <- <-]. by rewrite set_db_id. }
  destruct (subscriptions (db w) !! id) as [row|] eqn:Er; [|intros [= <- <-]; by rewrite set_db_id].
  destruct (bool_decide _) eqn:Eb; simpl; [|intros [= <- <-]; by rewrite set_db_id].
  apply bool_decide_eq_true in Eb. case_match eqn:Hd; [|intros [= <- <-]; by rewrite set_db_id].
  assert (row = s) as -> by (repeat case_match; congruence).
  destruct (select_next _ _ _ _) as [ev|] eqn:Es; intros [= <- <-].
  - apply (inv_claim w e s ev I); try done. by eapply list_elem_of_lookup_2.
  - by apply inv_begin_commit.
Qed.

Lemma inv_enqueue jsonb w x uuid now c payload d' :
  world_inv w → live w = true → bumping (db w) = None →
  enqueue_tx jsonb x uuid now c payload (db w) = Ok d' → world_inv (set_db d' w).
Proof.
  intros I Hl Hb He. apply inv_evolve_nil; [done|..].
  - eapply enqueue_evolves; [by apply I|done].
  - eapply enqueue_log_wf; [apply I|done..].
  - apply enqueue_tx_ok in He as (tx & m & row & cs & _ & _ & _ & _ & _ & _ & ->). apply I.
  - apply enqueue_tx_ok in He as (tx & m & row & cs & _ & _ & _ & _ & _ & _ & ->).
    intros id cl Hcl. destruct (wi_claims _ I id cl Hcl) as (_ & Ho & Hb' & _). split; [|done].
    simpl. rewrite lookup_insert. case_decide; eauto.
Qed.

Lemma inv_bump_commit w d' g :
  world_inv w → bump_commit (cluster w) (db w) = Ok (d', g) → world_inv (set_db d' w).
Proof.
  intros I He. destruct (bump_commit_evolves (cluster w) (cluster w) _ _ _ _ (wi_log _ I) He).
  apply inv_evolve_nil; try done; unfold bump_commit in He; repeat case_match; simplify_eq/=.
  - eauto.
  - intros id cl Hcl. destruct (wi_claims _ I id cl Hcl) as (_ & Ho & Hb' & _). split; [|done].
    rewrite lookup_delete_ne by congruence. done.
Qed.

Lemma inv_bump_abort w : world_inv w → world_inv (set_db (bump_abort (db w)) w).
Proof.
  intros I. apply inv_quiet; [done|apply quiet_bump_abort, I|]. intros id cl Hcl.
  destruct (wi_claims _ I id cl Hcl) as (_ & Ho & Hb' & _). unfold bump_abort.
  destruct (bumping (db w)) eqn:Eb; [|by rewrite Eb]. simpl. split; [|done].
  rewrite lookup_delete_ne by congruence. done.
Qed.

Lemma inv_bump_begin w :
  world_inv w → no_writer (db w) → world_inv (set_db (bump_begin (db w)) w).
Proof.
  intros I Hn. apply inv_quiet; [done|apply quiet_bump_begin; [apply I|done]|].
  destruct (free_fresh w I) as [_ Hfree]. intros id cl Hcl.
  destruct (wi_claims _ I id cl Hcl) as (_ & Ho & Hb' & _). simpl. split.
  - rewrite lookup_insert. case_decide; eauto.
  - intros [= Heq]. by eapply Hfree.
Qed.

Lemma inv_restore w identity n :
  world_inv w → Some identity ≠ system_identifier <$> plane_meta (db w) →
  world_inv (restore identity n w).
Proof.
  intros I Hid. destruct (restore_evolves w identity n (wi_log _ I) Hid) as [E W].
  pose proof (inv_evolve w _ identity false [] ∅ [] [] I E W) as H. rewrite owe_nil_map in H.
  apply H; try done.
  - by apply list_subseteq_nil.
  - apply map_empty_subseteq.
Qed.

Lemma exec_inv jsonb a w w' : world_inv w → exec jsonb a w = Some w' → world_inv w'.
Proof.
  intros I He. destruct a; simpl in He.
  - destruct (seed_evolves (cluster w) (cluster w) (db w) (wi_log _ I)) as [E W]. simplify_eq.
    apply inv_evolve_nil; try done; unfold seed_plane_meta; case_match eqn:Em; simpl.
    + intros Hl. by apply (wi_live _ I).
    + eauto.
    + intros id cl Hcl. by destruct (wi_claims _ I id cl Hcl) as (_ & ? & ? & _).
    + intros id cl Hcl. by destruct (wi_claims _ I id cl Hcl) as (_ & ? & ? & _).
  - case_match eqn:Eg; [|done]. simplify_eq. split; simpl; try apply I. intros _.
    unfold startup_guards_on in Eg. destruct (plane_meta (db w)) as [m|]; [|done].
    case_bool_decide as Hid; [done|]. eauto.
  - simplify_eq. by apply inv_begin.
  - case_decide as Hg; [|done]. destruct Hg as (? & ? & _). case_match eqn:Ee; [|done].
    simplify_eq. by eapply inv_enqueue.
  - case_decide; [|done]. simplify_eq. by apply inv_commit.
  - case_decide; [|done]. simplify_eq. by apply inv_abort.
  - case_decide as Hg; [|done]. simplify_eq. by apply inv_bump_begin; [|apply Hg].
  - case_match eqn:Ee; [|done]. case_match. simplify_eq. by eapply inv_bump_commit.
  - simplify_eq. by apply inv_bump_abort.
  - case_decide; [done|]. simplify_eq. by apply inv_restore.
  - destruct (live w) eqn:El; [|done]. pose proof (inv_reconcile w e now I) as H.
    destruct (reconcile_one e now (db w)) as [d' [[]|err]]; simplify_eq; [|done]. by rewrite El in H.
  - destruct (entries w !! i) as [e|] eqn:Ee; simpl in He; [|done].
    destruct (deliver_begin _ _ _ _) as [d' out] eqn:Ed.
    pose proof (inv_deliver_begin w i e now d' out I Ee Ed). destruct out; by simplify_eq.
  - destruct (claims w !! id) eqn:Ec; simplify_eq/=. by apply inv_handled.
  - destruct (claims w !! id) eqn:Ec; simplify_eq/=. by apply inv_faulted.
  - destruct (claims w !! id) eqn:Ec; simplify_eq/=. by apply inv_late, inv_crash.
  - destruct (late w !! i) as [[cl msg]|]; simplify_eq/=. case_decide; [|done]. simplify_eq.
    by apply inv_late, inv_record_failure.
  - destruct (claims w !! id) eqn:Ec; simplify_eq/=. by apply inv_crash.
  - unfold verb in He. case_decide; simplify_eq. by apply inv_verb.
  - unfold verb in He. case_decide; simplify_eq. by apply inv_verb.
  - unfold verb in He. case_decide; simplify_eq. by apply inv_verb.
  - unfold verb in He. case_decide; simplify_eq/=. by apply inv_retire.
  - case_decide as Hg; [|done]. pose proof (inv_skip w id reason now I Hg) as H.
    destruct (skip id reason now (db w)) as [d' [[e o]|err]]; by simplify_eq.
  - destruct (history_contracts (db w) !! (t, v)) as [[policy days]|]; simplify_eq/=.
    case_bool_decide; simplify_eq.
    destruct (gc_evolves (cluster w) t v days now (db w) (wi_log _ I)).
    apply inv_evolve_nil; try done; [apply I|]. intros id cl Hcl.
    by destruct (wi_claims _ I id cl Hcl) as (_ & ? & ? & _).
Qed.

Lemma init_inv identity n : world_inv (init identity n).
Proof.
  split; simpl; try done.
  - split; simpl; try done.
    + intros e He. by apply elem_of_nil in He.
    + intros e [H|(x & tx & H & _)]; [by apply elem_of_nil in H|simpl in H; by rewrite lookup_empty in H].
    + intros e1 e2 [H|(x & tx & H & _)]; [by apply elem_of_nil in H|simpl in H; by rewrite lookup_empty in H].
  - intros e He. by apply elem_of_nil in He.
Qed.

Lemma run_inv jsonb tr w w' : world_inv w → run_plane jsonb tr w = Some w' → world_inv w'.
Proof.
  revert w. induction tr as [|a tr IH]; intros w I H; simplify_eq/=; [done|].
  destruct (exec jsonb a w) as [w1|] eqn:Ea; simplify_eq/=. eapply IH; [|done]. by eapply exec_inv.
Qed.
