(* ===== verification/PlaneSafety.v ===== *)
(** * PlaneSafety: what the event plane guarantees its subscribers

    Consequences of [PlaneInvariant] for every trace of [exec] from an empty
    cluster: no committed event is lost to a registered subscription, the
    events a cursor passes are passed once and in log order, no event in flight
    can end up behind a cursor, cursors never move back, and a generation bump
    makes the whole log deliverable. *)

From S2P Require Import Prelude Text Bus EventLog Delivery Eventctl Retention EventPlane PlaneInvariant.
#[local] Open Scope Z_scope.

Section Plane.
Context (jsonb_in : string → option string) (identity : string) (n : Z).

Definition reachable (w : World) : Prop := ∃ tr, run_plane jsonb_in tr (init identity n) = Some w.

Lemma reachable_inv w : reachable w → world_inv w.
Proof. intros [tr H]. eapply run_inv; [apply init_inv|done]. Qed.

Lemma inv_sub w id row :
  world_inv w → subscriptions (db w) !! id = Some row →
  ∃ g, ghost w !! id = Some g ∧ sub_inv (cluster w) (db w) row g ∧ row_origin row.
Proof.
  intros I Hrow. pose proof (wi_subs _ I id) as Hs. rewrite Hrow in Hs. simpl in Hs.
  destruct (ghost w !! id) as [g|]; [|done]. exists g. destruct Hs. done.
Qed.

(** ** Along a trace *)

(** A ghost only grows: its start is fixed, what it owes and what it passed
    stays, and it becomes retired only by the operator. *)
Definition ghost_le (g g' : Ghost) : Prop :=
  g_topic g' = g_topic g ∧ g_version g' = g_version g ∧ g_floor g' = g_floor g
  ∧ g_owed g ⊆ g_owed g' ∧ g_log g `prefix_of` g_log g'.

#[local] Instance ghost_le_refl : Reflexive ghost_le.
Proof. done. Qed.
#[local] Instance ghost_le_trans : Transitive ghost_le.
Proof.
  intros g1 g2 g3 (? & ? & ? & ? & ?) (? & ? & ? & ? & ?).
  split_and!; try congruence; by etrans.
Qed.

Lemma owe_le rows g : ghost_le g (owe rows g).
Proof. split_and!; try done. simpl. intros e He. apply elem_of_app. by left. Qed.
Lemma log_event_le o e g : ghost_le g (log_event o e g).
Proof. split_and!; try done. simpl. by exists [(o, e)]. Qed.

(** [m'] extends [m] ghost by ghost, keeping the retired flags unless [P]. *)
Definition ghosts_le (P : string → Prop) (m m' : gmap string Ghost) : Prop :=
  ∀ id g, m !! id = Some g → ∃ g', m' !! id = Some g' ∧ ghost_le g g'
    ∧ (g_retired g' = g_retired g ∨ P id).

Lemma ghosts_le_refl P m : ghosts_le P m m.
Proof. intros id g H. exists g. split; [done|]. split; [reflexivity|by left]. Qed.

Lemma ghosts_le_owe P rows m : ghosts_le P m (owe rows <$> m).
Proof.
  intros id g H. exists (owe rows g). rewrite lookup_fmap, H. split; [done|]. split; [apply owe_le|by left].
Qed.

Lemma ghosts_le_alter (P : string → Prop) f id m :
  (∀ g, ghost_le g (f g)) → (P id ∨ ∀ g, g_retired (f g) = g_retired g) →
  ghosts_le P m (alter f id m).
Proof.
  intros Hf HP id' g H. destruct (decide (id = id')) as [<-|].
  - exists (f g). rewrite lookup_alter_eq, H. split; [done|]. split; [done|]. naive_solver.
  - exists g. rewrite lookup_alter_ne by done. split; [done|]. split; [reflexivity|by left].
Qed.

Lemma ghosts_le_trans P m1 m2 m3 : ghosts_le P m1 m2 → ghosts_le P m2 m3 → ghosts_le P m1 m3.
Proof.
  intros H12 H23 id g H. destruct (H12 id g H) as (g2 & H2 & ? & Hr2).
  destruct (H23 id g2 H2) as (g3 & H3 & ? & Hr3). exists g3. split; [done|].
  split; [by etrans|]. destruct Hr2, Hr3; try (right; done). left. congruence.
Qed.

Definition retires (id : string) (a : Action) : Prop := ∃ now, a = ARetire id now.

Lemma exec_ghosts a w w' :
  exec jsonb_in a w = Some w' → ghosts_le (fun id => retires id a) (ghost w) (ghost w').
Proof.
  intros H. destruct a; simpl in H; unfold verb in H.
  all: try (repeat (case_match || case_decide); simplify_eq/=; apply ghosts_le_refl).
  - case_decide; simplify_eq/=. apply ghosts_le_owe.
  - destruct (live w); [|done]. destruct (reconcile_one _ _ _) as [d' [?|?]]; simplify_eq/=;
      [|apply ghosts_le_refl].
    unfold register_ghost. repeat case_match; try apply ghosts_le_refl.
    intros id g Hg. exists g. rewrite lookup_insert_ne by congruence.
    split; [done|]. split; [reflexivity|by left].
  - destruct (entries w !! i); simplify_eq/=. destruct (deliver_begin _ _ _ _) as [d' [?|?]];
      simplify_eq/=; apply ghosts_le_refl.
  - destruct (claims w !! id); simplify_eq/=. eapply ghosts_le_trans; [|apply ghosts_le_owe].
    apply ghosts_le_alter; [apply log_event_le|by right].
  - destruct (claims w !! id); simplify_eq/=. apply ghosts_le_refl.
  - destruct (claims w !! id); simplify_eq/=. apply ghosts_le_refl.
  - destruct (late w !! i) as [[cl msg]|]; simplify_eq/=. case_decide; simplify_eq/=. apply ghosts_le_refl.
  - destruct (claims w !! id); simplify_eq/=. apply ghosts_le_refl.
  - case_decide; simplify_eq/=. apply ghosts_le_alter; [done|]. left. by eexists.
  - case_decide; [|done]. destruct (skip _ _ _ _) as [d' [[e o]|?]]; simplify_eq/=;
      [|apply ghosts_le_refl].
    apply ghosts_le_alter; [apply log_event_le|by right].
  - destruct (history_contracts (db w) !! (t, v)) as [[policy days]|]; simplify_eq/=.
    case_bool_decide; simplify_eq/=. apply ghosts_le_refl.
Qed.

Lemma run_ghosts tr w w' id g :
  run_plane jsonb_in tr w = Some w' → ghost w !! id = Some g → Forall (fun a => ¬ retires id a) tr →
  ∃ g', ghost w' !! id = Some g' ∧ ghost_le g g' ∧ g_retired g' = g_retired g.
Proof.
  revert w g. induction tr as [|a tr IH]; intros w g H Hg Ht; simplify_eq/=; [by exists g|].
  destruct (exec jsonb_in a w) as [w1|] eqn:Ea; simplify_eq/=. inversion_clear Ht.
  destruct (exec_ghosts a w w1 Ea id g Hg) as (g1 & Hg1 & Hle & [Hr|]); [|done].
  destruct (IH w1 g1 H Hg1) as (g' & ? & ? & ?); [done|]. exists g'. split; [done|].
  split; [by etrans|congruence].
Qed.

(** A ghost that appears in a step starts unretired. *)
Lemma exec_new_ghost a w w' id g' :
  exec jsonb_in a w = Some w' → ghost w !! id = None → ghost w' !! id = Some g' →
  g_retired g' = false.
Proof.
  intros H Hn Hg. destruct a; simpl in H; unfold verb in H.
  all: repeat (case_match || case_decide || (destruct (claims w !! _)) || (destruct (entries w !! _))
               || (destruct (late w !! _) as [[? ?]|]) || (destruct (history_contracts _ !! _) as [[? ?]|]));
    simplify_eq/=; try congruence.
  all: unfold register_ghost in Hg; rewrite ?lookup_fmap, ?lookup_alter in Hg.
  all: repeat (case_decide || case_match); subst; rewrite ?lookup_insert, ?Hn in Hg; simplify_eq/=.
  all: repeat case_decide; by simplify_eq/=.
Qed.

Lemma run_unretired tr w w' id g' :
  run_plane jsonb_in tr w = Some w' → Forall (fun a => ¬ retires id a) tr →
  (∀ g, ghost w !! id = Some g → g_retired g = false) →
  ghost w' !! id = Some g' → g_retired g' = false.
Proof.
  revert w. induction tr as [|a tr IH]; intros w H Ht Hw Hg; simplify_eq/=; [by apply Hw|].
  destruct (exec jsonb_in a w) as [w1|] eqn:Ea; simplify_eq/=. inversion_clear Ht.
  apply (IH w1); try done. intros g1 Hg1. destruct (ghost w !! id) as [g|] eqn:Eg.
  - destruct (exec_ghosts a w w1 Ea id g Eg) as (g2 & ? & _ & [Hr|]); [|done]. simplify_eq.
    rewrite Hr. by apply Hw.
  - by eapply exec_new_ghost.
Qed.

Lemma run_app tr1 tr2 w w1 w2 :
  run_plane jsonb_in tr1 w = Some w1 → run_plane jsonb_in tr2 w1 = Some w2 →
  run_plane jsonb_in (tr1 ++ tr2) w = Some w2.
Proof.
  revert w. induction tr1 as [|a tr1 IH]; intros w H1 H2; simplify_eq/=; [done|].
  destruct (exec jsonb_in a w); simplify_eq/=. by apply IH.
Qed.

(** ** Rows along a step *)

(** Identity fixed, cursor no earlier. *)
Definition row_le (row row' : SubRow) : Prop :=
  s_topic row' = s_topic row ∧ s_version row' = s_version row
  ∧ s_spec_hash row' = s_spec_hash row ∧ pos_le (s_cursor row) (s_cursor row').

Definition subs_le (m m' : gmap string SubRow) : Prop :=
  ∀ id row, m !! id = Some row → ∃ row', m' !! id = Some row' ∧ row_le row row'.

Lemma row_le_same row row' :
  s_topic row' = s_topic row → s_version row' = s_version row →
  s_spec_hash row' = s_spec_hash row → s_cursor row' = s_cursor row → row_le row row'.
Proof. intros ??? Hc. split_and!; try done. rewrite Hc. apply pos_le_refl. Qed.

Lemma subs_le_refl m : subs_le m m.
Proof. intros id row H. exists row. split; [done|]. by apply row_le_same. Qed.

Lemma subs_le_alter f id m :
  (∀ row, m !! id = Some row → row_le row (f row)) → subs_le m (alter f id m).
Proof.
  intros Hf id' row H. destruct (decide (id = id')) as [<-|].
  - exists (f row). rewrite lookup_alter_eq, H. auto.
  - rewrite lookup_alter_ne by done. by apply subs_le_refl.
Qed.

Lemma subs_le_update f id d :
  (∀ row, row_le row (f row)) → subs_le (subscriptions d) (subscriptions (fst (update_sub f id d))).
Proof. intros Hf. rewrite fst_update_sub. simpl. by apply subs_le_alter. Qed.

Lemma subs_le_record id k msg c j now d :
  subs_le (subscriptions d) (subscriptions (record_failure id k msg c j now d)).
Proof. apply subs_le_alter. intros row _. case_bool_decide; by apply row_le_same. Qed.

Lemma subs_le_skip id reason now d :
  subs_le (subscriptions d) (subscriptions (fst (skip id reason now d))).
Proof.
  unfold skip. destruct (snapshot id d); [|apply subs_le_refl].
  destruct (subscriptions d !! id) as [row|] eqn:Er; [|apply subs_le_refl]. simpl.
  destruct (bool_decide _ && _); [apply subs_le_refl|].
  destruct (select_next _ _ _ _) as [e|] eqn:Es; simpl; [|apply subs_le_refl].
  rewrite subs_commit_tx. apply subs_le_alter. intros row' Hrow'. simplify_eq/=.
  apply select_next_some in Es as (_ & (_ & _ & Hlt) & _).
  do 3 (split; [done|]). by apply pos_lt_le.
Qed.

Lemma subs_le_insert m id row : m !! id = None → subs_le m (<[id := row]> m).
Proof.
  intros Hn id' row' H. exists row'. rewrite lookup_insert_ne by congruence.
  split; [done|]. by apply row_le_same.
Qed.

Lemma subs_le_reconcile e now d :
  subs_le (subscriptions d) (subscriptions (fst (reconcile_one e now d))).
Proof.
  assert (Hrow : ∀ v d, subs_le (subscriptions d) (subscriptions (fst (reconcile_row e v now d)))).
  { intros v d0. unfold reconcile_row. simpl.
    destruct (subscriptions d0 !! spec_id (entry_spec e)) as [row|] eqn:Er.
    - case_bool_decide; simpl; rewrite ?subs_commit_tx; apply subs_le_refl.
    - destruct (initial_cursor _ _ _); simpl; rewrite ?subs_commit_tx; simpl;
        [by apply subs_le_insert|apply subs_le_refl]. }
  unfold reconcile_one. repeat case_match; try apply subs_le_refl; [|apply Hrow].
  apply (Hrow _ (set_contracts _ d)).
Qed.

Lemma subs_le_deliver_begin e now b d :
  subs_le (subscriptions d) (subscriptions (fst (deliver_begin e now b d))).
Proof.
  unfold deliver_begin. case_match; [|apply subs_le_refl]. simpl.
  case_match; simpl; rewrite ?subs_commit_tx; apply subs_le_refl.
Qed.

Lemma exec_subs a w w' :
  world_inv w → exec jsonb_in a w = Some w' → subs_le (subscriptions (db w)) (subscriptions (db w')).
Proof.
  intros I H. destruct a; simpl in H; unfold verb in H; simplify_eq/=; try apply subs_le_refl.
  - unfold seed_plane_meta. case_match; apply subs_le_refl.
  - case_match; simplify_eq/=. apply subs_le_refl.
  - case_decide; [|done]. case_match eqn:He; simplify_eq/=.
    apply enqueue_tx_ok in He as (tx & m & row & cs & _ & _ & _ & _ & _ & _ & ->). apply subs_le_refl.
  - case_decide; simplify_eq/=. rewrite subs_commit_tx. apply subs_le_refl.
  - case_decide; simplify_eq/=. apply subs_le_refl.
  - case_decide; simplify_eq/=. apply subs_le_refl.
  - unfold bump_commit in H. repeat case_match; simplify_eq/=. apply subs_le_refl.
  - unfold bump_abort. case_match; apply subs_le_refl.
  - case_decide; simplify_eq/=. apply subs_le_refl.
  - destruct (live w); [|done]. pose proof (subs_le_reconcile e now (db w)).
    destruct (reconcile_one _ _ _) as [d' [?|?]]; by simplify_eq/=.
  - destruct (entries w !! i) as [e|]; simplify_eq/=.
    pose proof (subs_le_deliver_begin e now (bool_decide (is_Some (claims w !! spec_id (entry_spec e)))) (db w)).
    destruct (deliver_begin _ _ _ _) as [d' [?|?]]; by simplify_eq/=.
  - destruct (claims w !! id) as [cl|] eqn:Ec; simplify_eq/=. unfold deliver_commit.
    rewrite subs_commit_tx. apply subs_le_alter.
    destruct (wi_claims _ I id cl Ec) as (-> & _ & _ & row0 & Hrow0 & _ & Hc & _ & (_ & (_ & _ & Hlt) & _)).
    intros row Hrow. simplify_eq. do 3 (split; [done|]). rewrite Hc. by apply pos_lt_le.
  - destruct (claims w !! id) as [cl|] eqn:Ec; simplify_eq/=. unfold deliver_fault.
    rewrite subs_commit_tx.
    apply (subs_le_record _ _ _ _ _ _ (rollback_to_savepoint (cl_xid cl) (db w))).
  - destruct (claims w !! id) as [cl|] eqn:Ec; simplify_eq/=. apply subs_le_refl.
  - destruct (late w !! i) as [[cl msg]|]; simplify_eq/=. case_decide; simplify_eq/=. apply subs_le_record.
  - destruct (claims w !! id) as [cl|] eqn:Ec; simplify_eq/=. apply subs_le_refl.
  - case_decide; simplify_eq/=. apply subs_le_update. intros row. by apply row_le_same.
  - case_decide; simplify_eq/=. apply subs_le_update. intros row. by apply row_le_same.
  - case_decide; simplify_eq/=. apply subs_le_update. intros row. by apply row_le_same.
  - case_decide; simplify_eq/=. apply subs_le_update. intros row. by apply row_le_same.
  - case_decide; [|done]. pose proof (subs_le_skip id reason now (db w)).
    destruct (skip _ _ _ _) as [d' [[e o]|?]]; by simplify_eq/=.
  - destruct (history_contracts (db w) !! (t, v)) as [[policy days]|]; simplify_eq/=.
    case_bool_decide; simplify_eq/=. apply subs_le_refl.
Qed.

(** ** The guarantees *)


(** C2: exactly once, in log order, without gaps.  In every reachable state the
    events a subscription's cursor was moved over form a strictly increasing
    sequence of positions (so none twice), all of them after its start position,
    and among the committed events of its topic and version after that position
    they are exactly those at or before the cursor. *)
Theorem passed_once_in_order w id row g :
  reachable w → subscriptions (db w) !! id = Some row → ghost w !! id = Some g →
  StronglySorted (fun a b => pos_lt (ev_pos a) (ev_pos b)) (delivered g) ∧ NoDup (delivered g)
  ∧ (∀ e, e ∈ delivered g → past_cursor (s_topic row) (s_version row) (g_floor g) e)
  ∧ (∀ e, e ∈ events (db w) → past_cursor (s_topic row) (s_version row) (g_floor g) e →
       e ∈ delivered g ↔ pos_le (ev_pos e) (s_cursor row)).
Proof.
  intros I%reachable_inv Hrow Hg. destruct (inv_sub w id row I Hrow) as (g' & ? & S & _). simplify_eq.
  rewrite <- (si_topic _ _ _ _ S), <- (si_version _ _ _ _ S). split; [apply S|]. split.
  - pose proof (si_sorted _ _ _ _ S) as Hs. induction Hs as [|a l _ IH Ha]; constructor; [|done].
    rewrite Forall_forall in Ha. intros Hin%Ha. by apply pos_lt_irrefl in Hin.
  - split; [by intros e He; apply (si_range _ _ _ _ S)|].
    intros e He Hp. split; [apply S|]. by apply (si_covered _ _ _ _ S); [left|].
Qed.

(** No hidden predecessor.  While processes are live, an event that an open
    transaction has appended, and that may still commit, is strictly ahead of
    the cursor of every subscription, unless it lies
    at or before the position that subscription started from. *)
Theorem in_flight_ahead w id row g x tx e :
  reachable w → live w = true →
  subscriptions (db w) !! id = Some row → ghost w !! id = Some g →
  open_txs (db w) !! x = Some tx → e ∈ tx_rows tx →
  pos_lt (s_cursor row) (ev_pos e) ∨ pos_le (ev_pos e) (g_floor g).
Proof.
  intros I%reachable_inv Hl Hrow Hg Hx He.
  destruct (inv_sub w id row I Hrow) as (g' & ? & S & _). simplify_eq.
  destruct (wf_pending _ (wi_log _ I) x tx e Hx He) as (Hxid & _ & m & Hm & Hgen).
  destruct (wi_live _ I Hl) as (m' & ? & Hid). simplify_eq.
  destruct (si_front _ _ _ _ S) as [Hc|(m' & ? & Hf)].
  - rewrite Hc. destruct (pos_le_or_lt (ev_pos e) (g_floor g)); auto.
  - simplify_eq. left. unfold pos_lt. destruct Hf as [?|[? Hf]]; [lia|].
    destruct (Hf Hid) as [_ Ho]. specialize (Ho _ _ Hx). lia.
Qed.

(** A checkpoint never moves back.  Every step of every actor keeps a
    subscription's row, its topic, version and spec identity, and leaves its
    cursor where it was or moves it forward. *)
Theorem cursor_monotone a w w' id row :
  reachable w → exec jsonb_in a w = Some w' → subscriptions (db w) !! id = Some row →
  ∃ row', subscriptions (db w') !! id = Some row'
    ∧ s_topic row' = s_topic row ∧ s_version row' = s_version row
    ∧ s_spec_hash row' = s_spec_hash row ∧ pos_le (s_cursor row) (s_cursor row').
Proof. intros I%reachable_inv H Hrow. by apply (exec_subs a w w' I H). Qed.

(** The generation fence.  When a bump commits, no transaction still holds
    uncommitted events, the whole committed log lies in completed generations,
    and so every committed event is eligible for delivery whatever transactions
    are open and wherever the cluster's xids start. *)
Theorem bump_completes w w' :
  reachable w → exec jsonb_in ABumpCommit w = Some w' →
  (∀ x tx, open_txs (db w') !! x = Some tx → tx_rows tx = [])
  ∧ ∀ e, e ∈ events (db w') → frontier_eligible (db w') e.
Proof.
  intros I%reachable_inv H. simpl in H. unfold bump_commit in H.
  destruct (bumping (db w)) as [x|] eqn:Eb; [|done].
  destruct (plane_meta (db w)) as [m|] eqn:Em; simplify_eq/=.
  destruct (wf_bump _ (wi_log _ I) x Eb) as [_ Hn]. split.
  - intros y tx [_ Hy]%lookup_delete_Some. destruct (tx_rows tx) as [|e l] eqn:Et; [done|].
    destruct (wf_pending _ (wi_log _ I) y tx e Hy) as (_ & Hw & _); [rewrite Et; by left|].
    by rewrite (Hn y tx Hy) in Hw.
  - intros e He. left. simpl. destruct (wf_committed _ (wi_log _ I) e He) as (m' & ? & ?).
    simplify_eq. lia.
Qed.
End Plane.

(** ** A concrete history

    One subscription; two producers whose transactions overlap, the later xid
    committing first; the worker finds nothing eligible until the earlier one is
    done; then one delivery, one failure, one delivery. *)

Module Example.
Definition contract : EventContract := mkContract "player.created" 1 (MinRetention 7).
Definition entry : SubEntry := mkEntry (mkSpec "inventory.grants" Genesis) "player.created" 1 (Some (MinRetention 7)).
Definition setup : list Action :=
  [ASeed; ABoot "0" 0; AReconcile entry 0; ABegin; AEnqueue 101 "u1" 10 contract "{}";
   ABegin; AEnqueue 102 "u2" 11 contract "{}"; ACommit 102; AClaim 0 12].
Definition first : list Action := setup ++ [ACommit 101].
Definition rest : list Action :=
  [AClaim 0 20; AHandled "inventory.grants" 21; AClaim 0 22; AFaulted "inventory.grants" "boom" 23;
   AClaim 0 2000024; AHandled "inventory.grants" 2000025].
Definition json (s : string) : option string := Some s.
Definition start : World := init "cluster-a" 100.
Definition after (tr : list Action) : World := default start (run_plane json tr start).
Definition row_after (tr : list Action) : SubRow :=
  default (mkSub "" 0 Retired (mkPos 0 0 0) None 0 None "" "" 0)
          (subscriptions (db (after tr)) !! "inventory.grants").
Definition ghost_after (tr : list Action) : Ghost :=
  default (mkGhost "" 0 (mkPos 0 0 0) [] [] true) (ghost (after tr) !! "inventory.grants").
Definition e1 : EventRow := mkEventRow (mkPos 1 101 1) "u1" "player.created" 1 "{}" 10.
End Example.

Lemma example_reachable tr :
  run_plane Example.json tr Example.start = Some (Example.after tr) →
  reachable Example.json "cluster-a" 100 (Example.after tr).
Proof. intros H. by exists tr. Qed.


Lemma passed_once_in_order_witness :
  let tr := Example.first ++ Example.rest in
  let g := Example.ghost_after tr in
  length (delivered g) = 2%nat
  ∧ StronglySorted (fun a b => pos_lt (ev_pos a) (ev_pos b)) (delivered g).
Proof.
  split; [vm_compute; reflexivity|].
  apply (passed_once_in_order Example.json "cluster-a" 100
           (Example.after (Example.first ++ Example.rest)) "inventory.grants"
           (Example.row_after (Example.first ++ Example.rest))).
  - apply example_reachable. vm_compute. reflexivity.
  - vm_compute. reflexivity.
  - vm_compute. reflexivity.
Defined.

Lemma in_flight_ahead_witness :
  pos_lt (s_cursor (Example.row_after Example.setup)) (ev_pos Example.e1)
  ∨ pos_le (ev_pos Example.e1) (g_floor (Example.ghost_after Example.setup)).
Proof.
  apply (in_flight_ahead Example.json "cluster-a" 100 (Example.after Example.setup) "inventory.grants" _ _
           101 (default (mkTx [] false ∅) (open_txs (db (Example.after Example.setup)) !! 101))).
  - apply example_reachable. vm_compute. reflexivity.
  - vm_compute. reflexivity.
  - vm_compute. reflexivity.
  - vm_compute. reflexivity.
  - vm_compute. reflexivity.
  - apply (bool_decide_unpack _). vm_compute. exact I.
Defined.

Lemma cursor_monotone_witness :
  let tr := Example.first ++ [AClaim 0 20] in
  ∃ row', subscriptions (db (Example.after (tr ++ [AHandled "inventory.grants" 21]))) !! "inventory.grants"
            = Some row'
    ∧ s_topic row' = s_topic (Example.row_after tr) ∧ s_version row' = s_version (Example.row_after tr)
    ∧ s_spec_hash row' = s_spec_hash (Example.row_after tr)
    ∧ pos_le (s_cursor (Example.row_after tr)) (s_cursor row').
Proof.
  intros tr. apply (cursor_monotone Example.json "cluster-a" 100 (AHandled "inventory.grants" 21) (Example.after tr)).
  - apply example_reachable. vm_compute. reflexivity.
  - vm_compute. reflexivity.
  - vm_compute. reflexivity.
Defined.

Lemma bump_completes_witness :
  let w' := Example.after (Example.first ++ [ARestore "cluster-b" 3; ABumpBegin; ABegin; ABumpCommit]) in
  length (events (db w')) = 2%nat ∧ ∀ e, e ∈ events (db w') → frontier_eligible (db w') e.
Proof.
  split; [vm_compute; reflexivity|].
  apply (bump_completes Example.json "cluster-a" 100
           (Example.after (Example.first ++ [ARestore "cluster-b" 3; ABumpBegin; ABegin]))).
  - apply example_reachable. vm_compute. reflexivity.
  - vm_compute. reflexivity.
Defined.
