(* ===== verification/OpsApi.v ===== *)
(** * OpsApi: the operation vocabulary of [core/opsapi/src]

    [lib.rs]: identity, status taxonomy, operation manifests, path patterns and
    the overlap predicate.  [databind.rs]: the decode/encode a gateway rebuilds
    from a manifest.  [serde_json] is not part of the sources: parsing and
    printing are the parameters [json_parse] and [json_print]. *)

From Stdlib Require Import Ascii.
From S2P Require Import Prelude Text.
#[local] Open Scope Z_scope.

(** ** Identity *)

Definition Identity : Type := option string.
Definition identity_none : Identity := None.
Definition identity_player (pid : string) : Identity :=
  if str_is_empty pid then None else Some pid.
Definition player_id (i : Identity) : option string := i.

(** ** Status and errors *)

Inductive RetryMode := Never | OnceAfterReconnect.

Inductive Status :=
| StatusOk | NotFound | Forbidden | Invalid | Unavailable | Internal | Unauthorized | Conflict.

#[global] Instance Status_eq_dec : EqDecision Status.
Proof. solve_decision. Defined.

Definition http (s : Status) : Z :=
  match s with
  | StatusOk => 200
  | NotFound => 404
  | Forbidden => 403
  | Invalid => 400
  | Unavailable => 503
  | Internal => 500
  | Unauthorized => 401
  | Conflict => 409
  end.

Definition is_definitive_answer (s : Status) : bool :=
  match s with NotFound | Invalid => true | _ => false end.

Record Error := mkError { status : Status; msg : string }.

#[global] Instance Error_eq_dec : EqDecision Error.
Proof. solve_decision. Defined.

Definition status_of (e : option Error) : Status :=
  match e with None => StatusOk | Some e => status e end.

(** ** Operations and their manifests *)

Inductive AuthReq := AuthNone | AuthPlayer.

Record Operation := mkOperation {
  op_method : string;
  op_verb : string;
  op_path : string;
  op_auth : AuthReq;
  op_success : Z;
  op_retry_mode : RetryMode;
}.

Inductive ArgSource := Body | Path (wildcard : string).

Record ArgMapping := mkArg { param : string; wire_key : string; source : ArgSource }.

Record OpManifest := mkManifest {
  om_method : string;
  om_verb : string;
  om_path : string;
  om_auth : AuthReq;
  om_success : Z;
  om_retry_mode : RetryMode;
  om_args : list ArgMapping;
}.

(** [DescribeManifest::concat]. *)
Definition concat (manifests : list (list OpManifest)) : list OpManifest := mjoin manifests.

Record PeerAddr := mkPeer { provider : string; addrs : list string }.

(** The matched wildcards of a request. *)
Abbreviation PathArgs := (gmap string string).

(** ** Path patterns *)

Inductive Seg := Lit (s : string) | Wild (name : string).

Definition path_pieces (path : string) : list string :=
  filter (fun s => s ≠ "") (split_str "/"%char path).

Definition parse_seg (s : string) : Seg :=
  match strip_prefix ["{"%char] (to_bytes s) ≫= strip_suffix ["}"%char] with
  | Some name => Wild (of_bytes (trim_end_matches (to_bytes "...") (length name) name))
  | None => Lit s
  end.

Definition parse_pattern (path : string) : list Seg := map parse_seg (path_pieces path).

Definition seg_overlaps (x y : Seg) : bool :=
  match x, y with
  | Lit l, Lit r => bool_decide (l = r)
  | _, _ => true
  end.

Definition pattern_overlaps (a b : list Seg) : bool :=
  bool_decide (length a = length b) && forallb (fun p => seg_overlaps (fst p) (snd p)) (zip a b).

(** ** Routing as data *)

(** [serde_json::Value]; a number keeps its text, an object is its entries in
    key order ([BTreeMap]). *)
Inductive Value :=
| JNull
| JBool (b : bool)
| JNumber (text : string)
| JString (s : string)
| JArray (l : list Value)
| JObject (entries : list (string * Value)).

Definition obj_get {A} (k : string) (o : list (string * A)) : option A :=
  snd <$> find (fun e => bool_decide (fst e = k)) o.

(** [Map::insert]: replaces the value of a present key, else inserts in order. *)
Fixpoint obj_insert {A} (k : string) (v : A) (o : list (string * A)) : list (string * A) :=
  match o with
  | [] => [(k, v)]
  | (k', v') :: o' =>
      if bool_decide (k' = k) then (k, v) :: o'
      else if String.ltb k k' then (k, v) :: o
      else (k', v') :: obj_insert k v o'
  end.

(** The variant names serde writes. *)
Definition status_name (s : Status) : string :=
  match s with
  | StatusOk => "Ok" | NotFound => "NotFound" | Forbidden => "Forbidden" | Invalid => "Invalid"
  | Unavailable => "Unavailable" | Internal => "Internal" | Unauthorized => "Unauthorized"
  | Conflict => "Conflict"
  end.
Definition all_statuses : list Status :=
  [StatusOk; NotFound; Forbidden; Invalid; Unavailable; Internal; Unauthorized; Conflict].

(** A unit variant is its name, or an object mapping its name to null. *)
Definition status_from_value (v : Value) : option Status :=
  match v with
  | JString s => find (fun st => bool_decide (status_name st = s)) all_statuses
  | JObject [(s, JNull)] => find (fun st => bool_decide (status_name st = s)) all_statuses
  | _ => None
  end.

Section Databind.
Context (json_parse : string → option Value) (json_print : Value → string).

Definition operation (m : OpManifest) : Operation :=
  mkOperation (om_method m) (om_verb m) (om_path m) (om_auth m) (om_success m) (om_retry_mode m).

Definition path_injections (m : OpManifest) : list (string * string) :=
  omap (fun a => match source a with
                 | Path wildcard => Some (wire_key a, wildcard)
                 | Body => None
                 end) (om_args m).

Definition has_body (m : OpManifest) : bool :=
  existsb (fun a => match source a with Body => true | Path _ => false end) (om_args m).

(** The object the wire request is built in. *)
Definition request_object (m : OpManifest) (body : option string)
  : result Error (list (string * Value)) :=
  match body with
  | Some b =>
      if has_body m && negb (str_is_empty b) then
        match json_parse b with
        | Some (JObject map) => Ok map
        | Some _ => Err (mkError Invalid "request body must be a json object")
        | None => Err (mkError Invalid "invalid json")
        end
      else Ok []
  | None => Ok []
  end.

Definition inject (path : PathArgs) (o : list (string * Value)) (kw : string * string)
  : list (string * Value) :=
  obj_insert (fst kw) (JString (default "" (path !! snd kw))) o.

Definition decode (m : OpManifest) (body : option string) (path : PathArgs) : result Error string :=
  obj ← request_object m body;
  Ok (json_print (JObject (foldl (inject path) obj (path_injections m)))).

Definition encode (resp : string) : result Error (option string * Status) :=
  match json_parse resp with
  | None => Err (mkError Internal "response envelope is not json")
  | Some (JObject obj) =>
      match obj_get "status" obj with
      | None => Err (mkError Internal "response envelope missing `status`")
      | Some s =>
          match status_from_value s with
          | None => Err (mkError Internal "unknown status")
          | Some st =>
              if bool_decide (st ≠ StatusOk) then
                Err (mkError st (match obj_get "err" obj with Some (JString e) => e | _ => "" end))
              else
                match obj_get "value" obj with
                | Some v => Ok (Some (json_print v), StatusOk)
                | None => Ok (None, StatusOk)
                end
          end
      end
  | Some _ => Err (mkError Internal "response envelope must be a json object")
  end.
End Databind.

(** ** Facts *)

Lemma obj_get_insert {A} k (v : A) o : obj_get k (obj_insert k v o) = Some v.
Proof.
  unfold obj_get. induction o as [|[k' v'] o IH]; simpl.
  - by rewrite bool_decide_eq_true_2.
  - case_bool_decide as Hk; [|case_match]; simpl; [by rewrite bool_decide_eq_true_2..|].
    by rewrite bool_decide_eq_false_2.
Qed.

Lemma obj_get_insert_ne {A} k k' (v : A) o : k' ≠ k → obj_get k (obj_insert k' v o) = obj_get k o.
Proof.
  intros Hne. unfold obj_get. induction o as [|[k1 v1] o IH]; simpl.
  - by rewrite bool_decide_eq_false_2.
  - case_bool_decide as Hk; [|case_match]; simpl.
    + subst. by rewrite !bool_decide_eq_false_2.
    + by rewrite bool_decide_eq_false_2.
    + case_bool_decide; [done|apply IH].
Qed.

Lemma inject_other path inj o k :
  k ∉ inj.*1 → obj_get k (foldl (inject path) o inj) = obj_get k o.
Proof.
  revert o. induction inj as [|[k' w] inj IH]; intros o Hk; [done|]. simpl in *.
  apply not_elem_of_cons in Hk as [Hne Hk]. rewrite IH by done. unfold inject. simpl.
  by apply obj_get_insert_ne.
Qed.

Lemma inject_own path inj o k w :
  NoDup inj.*1 → (k, w) ∈ inj →
  obj_get k (foldl (inject path) o inj) = Some (JString (default "" (path !! w))).
Proof.
  revert o. induction inj as [|[k' w'] inj IH]; intros o Hnd Hin; [by apply elem_of_nil in Hin|].
  simpl in *. apply NoDup_cons in Hnd as [Hk' Hnd]. apply elem_of_cons in Hin as [[= -> ->]|Hin].
  - rewrite inject_other by done. apply obj_get_insert.
  - by apply IH.
Qed.

Lemma path_injections_spec m k w :
  (k, w) ∈ path_injections m ↔ ∃ a, a ∈ om_args m ∧ wire_key a = k ∧ source a = Path w.
Proof.
  unfold path_injections. rewrite list_elem_of_omap. split.
  - intros (a & Ha & H). exists a. destruct (source a); naive_solver.
  - intros (a & Ha & <- & H). exists a. by rewrite H.
Qed.

(** The wire request the front decodes carries every path argument as matched
    in the URL, whatever a client puts under the same key in its body, and every
    other key exactly as the client's body object has it; an operation without a
    body argument never looks at the body.  So a body cannot speak for the path. *)
Theorem path_args_not_spoofable (json_parse : string → option Value) (json_print : Value → string)
    (m : OpManifest) (body : option string) (path : PathArgs) (out : string) :
  decode json_parse json_print m body path = Ok out →
  NoDup (path_injections m).*1 →
  ∃ base obj, request_object json_parse m body = Ok base ∧ out = json_print (JObject obj)
    ∧ (∀ a w, a ∈ om_args m → source a = Path w →
         obj_get (wire_key a) obj = Some (JString (default "" (path !! w))))
    ∧ (∀ k, k ∉ (path_injections m).*1 → obj_get k obj = obj_get k base)
    ∧ (has_body m = false → base = []).
Proof.
  unfold decode. intros H Hnd. destruct (request_object json_parse m body) as [base|] eqn:Eb; [|done].
  injection H as <-. exists base, (foldl (inject path) base (path_injections m)).
  do 2 (split; [done|]). split; [|split].
  - intros a w Ha Hs. apply inject_own; [done|]. apply path_injections_spec. eauto.
  - intros k Hk. by apply inject_other.
  - unfold request_object in Eb. intros Hb. rewrite Hb in Eb. by destruct body; injection Eb as <-.
Qed.

(** A client that names another player in its body still acts on the player of the
    path; the parser reads the one body used here. *)
Module DecodeExample.
Definition manifest : OpManifest :=
  mkManifest "friends.remove" "POST" "/friends/{id}" AuthPlayer 200 Never
    [mkArg "id" "id" (Path "id"); mkArg "note" "note" Body].
Definition parse (s : string) : option Value :=
  if bool_decide (s = "B") then Some (JObject [("id", JString "mallory"); ("note", JString "x")]) else None.
Definition print (v : Value) : string :=
  match v with JObject o => String.concat "," (o ≫= fun e => [fst e; match snd e with JString s => s | _ => "?" end])
  | _ => "?" end.
End DecodeExample.

Lemma path_args_not_spoofable_witness :
  decode DecodeExample.parse DecodeExample.print DecodeExample.manifest (Some "B") {[ "id" := "alice" ]}
    = Ok "id,alice,note,x"
  ∧ ∃ obj, "id,alice,note,x" = DecodeExample.print (JObject obj) ∧ obj_get "id" obj = Some (JString "alice").
Proof.
  assert (H : decode DecodeExample.parse DecodeExample.print DecodeExample.manifest (Some "B") {[ "id" := "alice" ]}
    = Ok "id,alice,note,x") by (vm_compute; reflexivity).
  split; [exact H|].
  destruct (path_args_not_spoofable _ _ _ _ _ _ H) as (base & obj & _ & Ho & Hp & _);
    [apply (bool_decide_unpack _); vm_compute; exact I|].
  exists obj. split; [exact Ho|].
  apply (Hp (mkArg "id" "id" (Path "id")) "id"); [left|reflexivity].
Defined.
