(* ===== verification/Gateway.v ===== *)
(** * Gateway: the front door of [modules/gateway/src]

    Route table ([lib.rs]), backends ([backend.rs]), API-key check ([keys.rs]) and
    bearer verification ([verifier.rs]).  The two credential authorities are
    interfaces, as in the source: [KeyVerifier] and [SessionVerifier] are functions
    the admission is proved against; the cache behind the former is [KeyCache], the
    reverse proxy is in [HttpEdge].  The peer's transport is the [Caller] function of a provider. *)

From Stdlib Require Import Ascii.
From S2P Require Import Prelude Text OpsApi.
#[local] Open Scope Z_scope.

(** ** Path matching *)

Definition path_segments (path : string) : list string := path_pieces path.

Fixpoint match_segs (pattern : list Seg) (parts : list string) (args : PathArgs) : option PathArgs :=
  match pattern, parts with
  | Lit lit :: pattern', part :: parts' =>
      if bool_decide (lit = part) then match_segs pattern' parts' args else None
  | Wild name :: pattern', part :: parts' => match_segs pattern' parts' (<[name := part]> args)
  | _, _ => Some args
  end.

Definition match_pattern (pattern : list Seg) (parts : list string) : option PathArgs :=
  if bool_decide (length pattern ≠ length parts) then None else match_segs pattern parts ∅.

(** ** The route table *)

Section Table.
(** The decode/encode pair of a binding, an in-process invoker, and the call of
    a provider's peer. *)
Context {Binding : Type}.

Definition LocalInvoker : Type := Identity → string → result Error string.
Definition CallFn : Type := string → string → option string → string → RetryMode → result Error string.

Record Route := mkRoute { r_op : Operation; r_binding : Binding; r_pattern : list Seg }.

Record RouteTable := mkTable {
  routes : list Route;
  invokers : gmap string LocalInvoker;
  peers : gmap string (list string);
}.

Inductive BuildError :=
| DuplicateBinding (method : string)
| DuplicateLocal (method : string)
| DuplicatePeer (provider : string)
| DuplicateOperation (method : string)
| Overlap (existing method : string).

(** A contribution list into a map, refusing the second claim of a key. *)
Fixpoint collect {A} (err : string → BuildError) (l : list (string * A)) (m : gmap string A)
  : result BuildError (gmap string A) :=
  match l with
  | [] => Ok m
  | (k, a) :: l' =>
      match m !! k with
      | Some _ => Err (err k)
      | None => collect err l' (<[k := a]> m)
      end
  end.

Definition clashes (op : Operation) (pattern : list Seg) (r : Route) : bool :=
  eq_ignore_ascii_case (op_verb (r_op r)) (op_verb op) && pattern_overlaps (r_pattern r) pattern.

Fixpoint add_routes (bindings : gmap string Binding) (ops : list Operation) (rs : list Route)
  : result BuildError (list Route) :=
  match ops with
  | [] => Ok rs
  | op :: ops' =>
      if existsb (fun r => bool_decide (op_method (r_op r) = op_method op)) rs
      then Err (DuplicateOperation (op_method op))
      else
      match bindings !! op_method op with
      | None => add_routes bindings ops' rs
      | Some b =>
          let pattern := parse_pattern (op_path op) in
          match find (clashes op pattern) rs with
          | Some existing => Err (Overlap (op_method (r_op existing)) (op_method op))
          | None => add_routes bindings ops' (rs ++ [mkRoute op b pattern])
          end
      end
  end.

Definition build_from_parts (operations : list Operation) (bindings : list (string * Binding))
    (locals : list (string * LocalInvoker)) (peer_addrs : list PeerAddr)
  : result BuildError RouteTable :=
  bs ← collect DuplicateBinding bindings ∅;
  is_local ← collect DuplicateLocal locals ∅;
  ps ← collect DuplicatePeer (map (fun p => (provider p, addrs p)) peer_addrs) ∅;
  rs ← add_routes bs operations [];
  Ok (mkTable rs is_local ps).

(** The routes of a request, in table order; [find] takes the first. *)
Definition route_match (method path : string) (r : Route) : option (Route * PathArgs) :=
  if eq_ignore_ascii_case (op_verb (r_op r)) method
  then (fun args => (r, args)) <$> match_pattern (r_pattern r) (path_segments path)
  else None.

Fixpoint find_in (rs : list Route) (method path : string) : option (Route * PathArgs) :=
  match rs with
  | [] => None
  | r :: rs' => match route_match method path r with
                | Some m => Some m
                | None => find_in rs' method path
                end
  end.

Definition find_route (t : RouteTable) (method path : string) : option (Route * PathArgs) :=
  find_in (routes t) method path.

Definition find_by_method (t : RouteTable) (method : string) : option Route :=
  find (fun r => bool_decide (op_method (r_op r) = method)) (routes t).

(** ** Backends *)

Inductive BackendKind := Local | Remote.

Definition select_kind (inv : gmap string LocalInvoker) (method : string) : BackendKind :=
  match inv !! method with Some _ => Local | None => Remote end.

Definition provider_of (method : string) : string :=
  match split_once "."%char (to_bytes method) with
  | Some (p, _) => of_bytes p
  | None => method
  end.

Definition local_invoke (inv : gmap string LocalInvoker) (op : Operation) (i : Identity) (req : string)
  : result Error string :=
  match inv !! op_method op with
  | None => Err (mkError Internal "gateway: no local invoker for operation")
  | Some f => f i req
  end.

Definition remote_invoke (call : CallFn) (prov : string) (op : Operation) (i : Identity) (req : string)
  : result Error string :=
  call prov (op_method op) (player_id i) req (op_retry_mode op).

(** [RouteTable::dispatch]; a provider nobody contributed a peer for is
    unavailable, any other is called through its pool. *)
Definition dispatch (call : CallFn) (t : RouteTable) (op : Operation) (i : Identity) (req : string)
  : result Error string :=
  match select_kind (invokers t) (op_method op) with
  | Local => local_invoke (invokers t) op i req
  | Remote =>
      let prov := provider_of (op_method op) in
      match peers t !! prov with
      | None => Err (mkError Unavailable "gateway: no peer contributed for provider")
      | Some _ => remote_invoke call prov op i req
      end
  end.
End Table.
Arguments Route : clear implicits.
Arguments RouteTable : clear implicits.

(** ** Credentials *)

Record KeyRecord := mkKeyRecord { key_name : string; policy : string }.

(** [LookupUnavailable] and [VerifyUnavailable] carry nothing. *)
Definition KeyVerifier : Type := string → result unit (option KeyRecord).
Definition SessionVerifier : Type := string → result unit (option string).

Inductive KeyDenial := KeyMissing | KeyInvalid | KeyForbidden | KeyUnavailable.

Definition key_message (d : KeyDenial) : string :=
  match d with
  | KeyMissing => "missing api key"
  | KeyInvalid => "invalid api key"
  | KeyForbidden => "api key policy forbids this operation"
  | KeyUnavailable => "api key verification unavailable"
  end.

Definition key_status (d : KeyDenial) : Status :=
  match d with
  | KeyMissing | KeyInvalid => Unauthorized
  | KeyForbidden => Forbidden
  | KeyUnavailable => Unavailable
  end.

Inductive KeyCheck := Policy (method : string) | PresenceOnly.

Definition policy_allows (policy method : string) : bool :=
  bool_decide (policy = "full")
  || existsb (fun m => bool_decide (trim m = method)) (split_str ","%char policy).

Definition check_api_key (verifier : KeyVerifier) (key : option string) (check : KeyCheck)
  : result KeyDenial unit :=
  match key with
  | None => Err KeyMissing
  | Some k =>
      match verifier k with
      | Err _ => Err KeyUnavailable
      | Ok None => Err KeyInvalid
      | Ok (Some record) =>
          match check with
          | Policy method => if policy_allows (policy record) method then Ok () else Err KeyForbidden
          | PresenceOnly => Ok ()
          end
      end
  end.

Inductive AdmissionDenial :=
| DeniedKey (k : KeyDenial)
| MissingBearer
| InvalidSession
| SessionUnavailable
| Timeout.

Definition denial_status (d : AdmissionDenial) : Status :=
  match d with
  | DeniedKey k => key_status k
  | MissingBearer | InvalidSession => Unauthorized
  | SessionUnavailable | Timeout => Unavailable
  end.

Definition denial_message (d : AdmissionDenial) : string :=
  match d with
  | DeniedKey k => key_message k
  | MissingBearer | InvalidSession => "unauthorized"
  | SessionUnavailable => "session verification unavailable"
  | Timeout => "credential admission timed out (CREDENTIAL_ADMISSION_TIMEOUT_MS)"
  end.

Definition verify_bearer (verifier : SessionVerifier) (bearer : option string) (auth : AuthReq)
  : result AdmissionDenial Identity :=
  match auth with
  | AuthPlayer =>
      match bearer with
      | None => Err MissingBearer
      | Some token =>
          match verifier token with
          | Ok (Some pid) => Ok (identity_player pid)
          | Ok None => Err InvalidSession
          | Err _ => Err SessionUnavailable
          end
      end
  | AuthNone => Ok identity_none
  end.

Definition admit_inner (kv : KeyVerifier) (sv : SessionVerifier) (api_key bearer : option string)
    (auth : AuthReq) (key : KeyCheck) : result AdmissionDenial Identity :=
  _ ← map_err DeniedKey (check_api_key kv api_key key);
  verify_bearer sv bearer auth.

(** [FrontDoor::admit_request]: [in_time] says whether the budget sufficed. *)
Definition admit_request (kv : KeyVerifier) (sv : SessionVerifier) (in_time : bool)
    (api_key bearer : option string) (auth : AuthReq) (key : KeyCheck) : result AdmissionDenial Identity :=
  if in_time then admit_inner kv sv api_key bearer auth key else Err Timeout.

(** ** The two planes *)

Definition MAX_BODY_BYTES : Z := 2 ^ 20.

Record OpBinding := mkBinding {
  decode_fn : option string → PathArgs → result Error string;
  encode_fn : string → result Error (option string * Status);
}.

Record Response := mkResponse { code_of : Z; body_of : string }.

Definition error_response (c : Z) (m : string) : Response := mkResponse c m.
Definition op_error_response (e : Error) : Response := error_response (http (status e)) (msg e).
Definition admission_denial_response (d : AdmissionDenial) : Response :=
  error_response (http (denial_status d)) (denial_message d).
Definition success_response (success : Z) (body : option string) : Response :=
  mkResponse (if bool_decide (100 ≤ success ≤ 999) then success else 200)
             (match body with Some b => b | None => "" end).

(** What a request reached: the backend call made for it, if any. *)
Record Call := mkCall { call_method : string; call_identity : Identity; call_payload : string }.

Section Planes.
Context (kv : KeyVerifier) (sv : SessionVerifier) (call : CallFn).
Context (json_ok : string → bool) (front_envelope : Status → string → string).

(** [dispatch_matched_op], with the backend calls it made. *)
Definition dispatch_matched_op (in_time : bool) (t : RouteTable OpBinding) (op : Operation)
    (binding : OpBinding) (args : PathArgs) (api_key bearer : option string) (body : string)
  : Response * list Call :=
  match admit_request kv sv in_time api_key bearer (op_auth op) (Policy (op_method op)) with
  | Err denial => (admission_denial_response denial, [])
  | Ok ident =>
      if bool_decide (MAX_BODY_BYTES < Z.of_nat (String.length body))
      then (error_response 413 "request body too large", [])
      else
      match decode_fn binding (if str_is_empty body then None else Some body) args with
      | Err e => (op_error_response e, [])
      | Ok wire_req =>
          let calls := [mkCall (op_method op) ident wire_req] in
          match dispatch call t op ident wire_req with
          | Err e => (op_error_response e, calls)
          | Ok wire_resp =>
              match encode_fn binding wire_resp with
              | Err e => (op_error_response e, calls)
              | Ok (b, _) => (success_response (op_success op) b, calls)
              end
          end
      end
  end.

(** [handle]; [None] hands the request to the passthrough. *)
Definition handle (in_time : bool) (t : RouteTable OpBinding) (verb path : string)
    (api_key bearer : option string) (body : string) : option (Response * list Call) :=
  match find_route t verb path with
  | Some (r, args) =>
      Some (dispatch_matched_op in_time t (r_op r) (r_binding r) args api_key bearer body)
  | None => None
  end.

(** [FrontDoor::handle_player]. *)
Definition handle_player (in_time : bool) (t : RouteTable OpBinding) (method : string)
    (token api_key : option string) (payload : string) : string * list Call :=
  if negb (json_ok payload) then (front_envelope Invalid "malformed request payload", []) else
  match find_by_method t method with
  | None => (front_envelope NotFound "unknown operation", [])
  | Some r =>
      match admit_request kv sv in_time api_key token (op_auth (r_op r)) (Policy (op_method (r_op r))) with
      | Err denial => (front_envelope (denial_status denial) (denial_message denial), [])
      | Ok ident =>
          let calls := [mkCall (op_method (r_op r)) ident payload] in
          match dispatch call t (r_op r) ident payload with
          | Ok bytes => (bytes, calls)
          | Err e => (front_envelope (status e) (msg e), calls)
          end
      end
  end.
End Planes.

(** [bearer]: the token of an [Authorization] header value. *)
Definition bearer (authorization : option string) : option string :=
  v ← authorization; of_bytes <$> strip_prefix (to_bytes "Bearer ") (to_bytes v).

(** ** Session verifiers *)

Definition MAX_SESSION_TOKEN_BYTES : nat := 128.

Definition dev_verify (token : string) : result unit (option string) :=
  if bool_decide (MAX_SESSION_TOKEN_BYTES < String.length token)%nat then Ok None else
  match of_bytes <$> strip_prefix (to_bytes "dev-") (to_bytes token) with
  | Some pid => if str_is_empty pid then Ok None else Ok (Some pid)
  | None => Ok None
  end.

Definition sessions_verify (verify_session : string → result Error (option string)) : SessionVerifier :=
  fun token =>
  if bool_decide (MAX_SESSION_TOKEN_BYTES < String.length token)%nat then Ok None else
  match verify_session token with
  | Ok (Some p) => if str_is_empty p then Ok None else Ok (Some p)
  | Ok None => Ok None
  | Err _ => Err ()
  end.

(** ** Facts: path patterns *)

Lemma match_segs_some pattern parts args :
  length pattern = length parts →
  is_Some (match_segs pattern parts args)
  ↔ Forall2 (fun seg part => match seg with Lit l => l = part | Wild _ => True end) pattern parts.
Proof.
  revert parts args. induction pattern as [|seg pattern IH]; intros [|part parts] args Hlen;
    simplify_eq/=.
  - split; [constructor|by eauto].
  - destruct seg as [l|w].
    + case_bool_decide; subst.
      * rewrite IH by done. rewrite Forall2_cons. tauto.
      * rewrite Forall2_cons. split; [by intros [? ?]|tauto].
    + rewrite IH by done. rewrite Forall2_cons. tauto.
Qed.

Lemma match_pattern_some pattern parts :
  is_Some (match_pattern pattern parts)
  ↔ Forall2 (fun seg part => match seg with Lit l => l = part | Wild _ => True end) pattern parts.
Proof.
  unfold match_pattern. case_bool_decide as Hlen.
  - split; [by intros [? ?]|]. intros H%Forall2_length. done.
  - apply match_segs_some. destruct (decide (length pattern = length parts)); tauto.
Qed.

(** A request both patterns match, when they overlap. *)
Definition common (x y : Seg) : string :=
  match x, y with
  | Lit l, _ => l
  | Wild _, Lit r => r
  | Wild _, Wild _ => "x"
  end.

Lemma overlap_common a b :
  pattern_overlaps a b = true →
  is_Some (match_pattern a (zip_with common a b)) ∧ is_Some (match_pattern b (zip_with common a b)).
Proof.
  unfold pattern_overlaps. rewrite andb_true_iff, bool_decide_eq_true. intros [Hlen Hall].
  rewrite !match_pattern_some. revert b Hlen Hall.
  induction a as [|x a IH]; intros [|y b] Hlen Hall; simplify_eq/=; [by split|].
  apply andb_true_iff in Hall as [Hxy Hall]. destruct (IH b) as [? ?]; [done..|].
  rewrite !Forall2_cons. destruct x, y; simpl in *; try (split; by split).
  apply bool_decide_eq_true in Hxy as ->. split; by split.
Qed.

Lemma common_overlap a b parts :
  is_Some (match_pattern a parts) → is_Some (match_pattern b parts) → pattern_overlaps a b = true.
Proof.
  rewrite !match_pattern_some. intros Ha Hb. unfold pattern_overlaps.
  rewrite andb_true_iff, bool_decide_eq_true. split.
  { apply Forall2_length in Ha, Hb. congruence. }
  revert b Hb. induction Ha as [|x part a parts Hx Ha IH]; intros b Hb; [done|].
  inversion Hb as [|y ? b' ? Hy Hb']; subst. simpl. rewrite IH by done.
  rewrite andb_true_r. destruct x, y; simpl; try done. apply bool_decide_eq_true. congruence.
Qed.

(** Paths and their segments. *)
Definition segment_ok (s : string) : Prop := s ≠ "" ∧ "/"%char ∉ to_bytes s.

Definition join_path (parts : list string) : string := foldr (fun s acc => "/" +:+ s +:+ acc) "" parts.

Lemma path_segments_join parts : Forall segment_ok parts → path_segments (join_path parts) = parts.
Proof.
  intros H. unfold path_segments, path_pieces, split_str.
  assert (Hs : ∀ s, "/"%char ∉ to_bytes s →
    map of_bytes (split_on "/"%char (to_bytes (s +:+ join_path parts))) = s :: parts).
  { induction H as [|p parts [_ Hp] _ IH]; intros s Hs; simpl.
    - rewrite to_bytes_app. simpl. rewrite app_nil_r, split_on_none by done. simpl. by rewrite of_to_bytes.
    - rewrite to_bytes_app, to_bytes_app. simpl. rewrite split_on_sep by done. simpl.
      by rewrite of_to_bytes, IH. }
  pose proof (Hs "" ltac:(simpl; set_solver)) as H0. change ("" +:+ join_path parts) with (join_path parts) in H0.
  rewrite H0. rewrite filter_cons_False by tauto. apply list_filter_all.
  intros x Hx. rewrite Forall_forall in H. by apply H.
Qed.

Lemma path_pieces_ok path : Forall segment_ok (path_pieces path).
Proof.
  apply Forall_forall. intros s [Hne Hs]%list_elem_of_filter. split; [done|].
  unfold split_str in Hs. apply list_elem_of_fmap in Hs as (l & -> & Hl). rewrite to_of_bytes. clear Hne.
  revert l Hl. induction (to_bytes path) as [|a p IH]; simpl; intros l Hl.
  { apply list_elem_of_singleton in Hl as ->. apply not_elem_of_nil. }
  case_bool_decide as Ha.
  - apply elem_of_cons in Hl as [->|Hl]; [apply not_elem_of_nil|]. by apply IH.
  - destruct (split_on "/"%char p) as [|q qs] eqn:E.
    + apply list_elem_of_singleton in Hl as ->. set_solver.
    + apply elem_of_cons in Hl as [->|Hl].
      * specialize (IH q ltac:(by left)). set_solver.
      * apply IH. by right.
Qed.

Lemma parse_seg_lit s l : parse_seg s = Lit l → l = s.
Proof. unfold parse_seg. case_match; naive_solver. Qed.

Lemma common_ok p q :
  Forall segment_ok (zip_with common (parse_pattern p) (parse_pattern q)).
Proof.
  unfold parse_pattern. pose proof (path_pieces_ok p) as Hp. pose proof (path_pieces_ok q) as Hq.
  revert Hq. generalize (path_pieces q). induction Hp as [|s l Hs Hp IH]; intros l' Hq; [constructor|].
  destruct Hq as [|s' l' Hs' Hq]; simpl; constructor; [|by apply IH].
  destruct (parse_seg s) as [x|x] eqn:E; simpl; [by apply parse_seg_lit in E as ->|].
  destruct (parse_seg s') as [y|y] eqn:E'; simpl; [by apply parse_seg_lit in E' as ->|].
  split; [done|]. simpl. set_solver.
Qed.

(** The overlap predicate is exact.  Two route patterns are reported as
    overlapping if and only if some request path is matched by both. *)
Theorem overlap_exact p q :
  pattern_overlaps (parse_pattern p) (parse_pattern q) = true
  ↔ ∃ path, is_Some (match_pattern (parse_pattern p) (path_segments path))
            ∧ is_Some (match_pattern (parse_pattern q) (path_segments path)).
Proof.
  split.
  - intros H%overlap_common.
    exists (join_path (zip_with common (parse_pattern p) (parse_pattern q))).
    by rewrite path_segments_join by apply common_ok.
  - intros (path & Hp & Hq). by eapply common_overlap.
Qed.

(** ** Facts: the table *)

Section TableFacts.
Context {Binding : Type}.
Implicit Types (r : Route Binding) (rs : list (Route Binding)).

(** Neither a method twice nor two routes for one request. *)
Definition table_ok rs : Prop :=
  ∀ i j r1 r2, (i < j)%nat → rs !! i = Some r1 → rs !! j = Some r2 →
    op_method (r_op r1) ≠ op_method (r_op r2) ∧ clashes (r_op r2) (r_pattern r2) r1 = false.

Lemma table_ok_snoc rs r :
  table_ok rs →
  (∀ r1, r1 ∈ rs → op_method (r_op r1) ≠ op_method (r_op r)
                   ∧ clashes (r_op r) (r_pattern r) r1 = false) →
  table_ok (rs ++ [r]).
Proof.
  intros H Hr i j r1 r2 Hij H1 H2. apply lookup_lt_Some in H2 as Hlt. rewrite length_app in Hlt.
  simpl in Hlt. rewrite lookup_app_l in H1 by lia.
  destruct (decide (j < length rs)%nat).
  - rewrite lookup_app_l in H2 by lia. by apply (H i j r1 r2 Hij).
  - rewrite lookup_app_r in H2 by lia. apply list_lookup_singleton_Some in H2 as [_ <-].
    apply Hr. by eapply list_elem_of_lookup_2.
Qed.

Lemma find_none_elem {A} (f : A → bool) l x : find f l = None → x ∈ l → f x = false.
Proof. intros H Hx. apply (find_none f l H x). by apply list_elem_of_In. Qed.

Lemma add_routes_ok bindings ops rs rs' :
  table_ok rs → (∀ r, r ∈ rs → r_pattern r = parse_pattern (op_path (r_op r))) →
  add_routes bindings ops rs = Ok rs' →
  table_ok rs' ∧ (∀ r, r ∈ rs' → r_pattern r = parse_pattern (op_path (r_op r))).
Proof.
  revert rs. induction ops as [|op ops IH]; intros rs Hok Hpat H; simplify_eq/=; [done|].
  destruct (existsb _ rs) eqn:Ee; [done|]. destruct (bindings !! op_method op) as [b|]; [|by apply (IH rs)].
  destruct (find _ rs) as [ex|] eqn:Ef; [done|]. apply IH in H; [done|..].
  - apply table_ok_snoc; [done|]. intros r1 Hr1. split; [|by apply (find_none_elem _ _ _ Ef)].
    intros Heq. apply not_true_iff_false in Ee. apply Ee. apply existsb_exists. exists r1.
    split; [by apply list_elem_of_In|]. by apply bool_decide_eq_true.
  - intros r [Hr| ->%list_elem_of_singleton]%elem_of_app; [by apply Hpat|done].
Qed.

Lemma build_ok ops bs ls ps t :
  build_from_parts ops bs ls ps = Ok t →
  table_ok (routes t) ∧ (∀ r, r ∈ routes t → r_pattern r = parse_pattern (op_path (r_op r))).
Proof.
  unfold build_from_parts. intros (m1 & _ & H)%bind_ok. apply bind_ok in H as (m2 & _ & H).
  apply bind_ok in H as (m3 & _ & H). apply bind_ok in H as (rs & H & ?). simplify_eq/=.
  eapply add_routes_ok; [| |done].
  - intros i j r1 r2 _ H1. by rewrite lookup_nil in H1.
  - intros r Hr. by apply elem_of_nil in Hr.
Qed.

Lemma route_match_clash verb path r1 r2 :
  is_Some (route_match verb path r1) → is_Some (route_match verb path r2) →
  clashes (r_op r2) (r_pattern r2) r1 = true.
Proof.
  unfold route_match, clashes, eq_ignore_ascii_case.
  case_bool_decide as H1; [|by intros [? ?]]. case_bool_decide as H2; [|by intros _ [? ?]].
  rewrite !fmap_is_Some. intros Hm1 Hm2. apply andb_true_iff. split.
  - apply bool_decide_eq_true. congruence.
  - by eapply common_overlap.
Qed.

Lemma table_unique rs verb path r1 r2 :
  table_ok rs → r1 ∈ rs → r2 ∈ rs →
  is_Some (route_match verb path r1) → is_Some (route_match verb path r2) → r1 = r2.
Proof.
  intros Hok [i Hi]%list_elem_of_lookup_1 [j Hj]%list_elem_of_lookup_1 H1 H2.
  destruct (Nat.lt_trichotomy i j) as [Hij|[->|Hij]]; [..|congruence|].
  - destruct (Hok i j r1 r2 Hij Hi Hj) as [_ Hc]. by rewrite (route_match_clash verb path) in Hc.
  - destruct (Hok j i r2 r1 Hij Hj Hi) as [_ Hc]. by rewrite (route_match_clash verb path) in Hc.
Qed.

Lemma find_in_some rs verb path m :
  find_in rs verb path = Some m → fst m ∈ rs ∧ route_match verb path (fst m) = Some m.
Proof.
  induction rs as [|r rs IH]; intros H; simplify_eq/=.
  destruct (route_match verb path r) as [m'|] eqn:E; simplify_eq.
  - assert (fst m = r) as ->; [|by split; [left|]]. unfold route_match in E. case_match; [|done].
    by apply fmap_Some in E as (args & _ & ->).
  - destruct (IH H). split; [by right|done].
Qed.

Lemma find_in_none rs verb path r :
  find_in rs verb path = None → r ∈ rs → route_match verb path r = None.
Proof.
  induction rs as [|r' rs IH]; intros H Hr; [by apply elem_of_nil in Hr|]. simpl in H.
  destruct (route_match verb path r') as [?|] eqn:E; [done|].
  apply elem_of_cons in Hr as [->|Hr]; auto.
Qed.
End TableFacts.

(** Routing is unambiguous.  In a route table that was built, a request is
    answered by a route exactly when that route's verb and pattern match it:
    at most one route of the table matches any request, so the order in which
    modules contributed their operations never decides who serves it; and no
    method is bound twice. *)
Theorem routing_unambiguous {Binding} ops bs ls ps (t : RouteTable Binding) verb path r args :
  build_from_parts ops bs ls ps = Ok t →
  (find_route t verb path = Some (r, args)
   ↔ r ∈ routes t ∧ route_match verb path r = Some (r, args))
  ∧ (∀ r1 r2, r1 ∈ routes t → r2 ∈ routes t → op_method (r_op r1) = op_method (r_op r2) → r1 = r2).
Proof.
  intros [Hok _]%build_ok. split; [split|].
  - intros H. by apply find_in_some in H.
  - intros [Hr Hm]. unfold find_route. destruct (find_in _ _ _) as [m|] eqn:E.
    + destruct (find_in_some _ _ _ _ E) as [Hin Hm'].
      assert (fst m = r) as Heq by (eapply table_unique; eauto). rewrite Heq in Hm'. congruence.
    + rewrite (find_in_none _ _ _ _ E Hr) in Hm. done.
  - intros r1 r2 [i Hi]%list_elem_of_lookup_1 [j Hj]%list_elem_of_lookup_1 Heq.
    destruct (Nat.lt_trichotomy i j) as [Hij|[->|Hij]]; [..|congruence|].
    + by destruct (Hok i j r1 r2 Hij Hi Hj).
    + by destruct (Hok j i r2 r1 Hij Hj Hi).
Qed.

Lemma routing_unambiguous_witness :
  let ops := [mkOperation "characters.get" "GET" "/characters/{id}" AuthPlayer 200 Never;
              mkOperation "characters.create" "POST" "/characters" AuthPlayer 201 Never] in
  let t := mkTable [mkRoute (mkOperation "characters.get" "GET" "/characters/{id}" AuthPlayer 200 Never) 0
                      [Lit "characters"; Wild "id"];
                    mkRoute (mkOperation "characters.create" "POST" "/characters" AuthPlayer 201 Never) 1
                      [Lit "characters"]] ∅ ∅ in
  find_route t "get" "/characters/42" = Some (mkRoute (mkOperation "characters.get" "GET" "/characters/{id}" AuthPlayer 200 Never) 0
                      [Lit "characters"; Wild "id"], {[ "id" := "42" ]}).
Proof.
  intros ops t.
  apply (routing_unambiguous ops [("characters.get", 0); ("characters.create", 1)] [] [] t "get" "/characters/42").
  - reflexivity.
  - split; [by left|]. vm_compute. reflexivity.
Defined.

(** ** Facts: admission *)

Lemma admit_ok kv sv in_time key tok auth method i :
  admit_request kv sv in_time key tok auth (Policy method) = Ok i →
  (∃ k rec, key = Some k ∧ kv k = Ok (Some rec) ∧ policy_allows (policy rec) method = true)
  ∧ match auth with
    | AuthNone => i = None
    | AuthPlayer => ∃ token pid, tok = Some token ∧ sv token = Ok (Some pid) ∧ i = identity_player pid
    end.
Proof.
  unfold admit_request, admit_inner. destruct in_time; [|done]. intros ([] & Hk & Hv)%bind_ok. split.
  - unfold check_api_key in Hk. destruct key as [k|]; [|done].
    destruct (kv k) as [[rec|]|] eqn:E; [|done..]. destruct (policy_allows _ _) eqn:Ep; [|done]. eauto.
  - unfold verify_bearer in Hv. destruct auth; [by simplify_eq|]. destruct tok as [token|]; [|done].
    destruct (sv token) as [[pid|]|] eqn:E; simplify_eq. eauto.
Qed.

(** What makes a backend call authorised, whatever plane it came through. *)
Definition authorised (kv : KeyVerifier) (sv : SessionVerifier) (t : RouteTable OpBinding)
    (api_key token : option string) (c : Call) : Prop :=
  ∃ r, r ∈ routes t ∧ op_method (r_op r) = call_method c
    ∧ (∃ k rec, api_key = Some k ∧ kv k = Ok (Some rec) ∧ policy_allows (policy rec) (call_method c) = true)
    ∧ match op_auth (r_op r) with
      | AuthNone => call_identity c = None
      | AuthPlayer => ∃ tk pid, token = Some tk ∧ sv tk = Ok (Some pid) ∧ call_identity c = identity_player pid
      end.


Module Example.
Definition op : Operation := mkOperation "inventory.list" "GET" "/inventory" AuthPlayer 200 Never.
Definition binding : OpBinding := mkBinding (fun _ _ => Ok "{}") (fun r => Ok (Some r, StatusOk)).
Definition table : RouteTable OpBinding :=
  mkTable [mkRoute op binding [Lit "inventory"]] {[ "inventory.list" := fun _ _ => Ok "[]" ]} ∅.
Definition keys : KeyVerifier := fun k =>
  if bool_decide (k = "K") then Ok (Some (mkKeyRecord "client" "mail.list, inventory.list")) else Ok None.
Definition no_peer : CallFn := fun _ _ _ _ _ => Err (mkError Unavailable "").
End Example.

