(* ===== verification/KeyCache.v ===== *)
(** * KeyCache: the API-key lookup cache of [modules/gateway/src/keys.rs]

    [RealKeyVerifier] puts a bounded time-to-live cache in front of the
    [apikeys.keys] capability: concurrent lookups of one key share one flight lock, and a
    semaphore bounds the calls in flight.  [Instant] is a time in nanoseconds.  A
    lookup is cut at its suspension points, and the lookups of a process are the
    interleavings of the pieces. *)

From S2P Require Import Prelude Text OpsApi Gateway.
#[local] Open Scope Z_scope.

Definition KEY_CACHE_TTL : Z := 5 * 1000000000.
Definition KEY_CACHE_MAX_ENTRIES : nat := 100 * 100.
Definition KEY_LOOKUP_MAX_IN_FLIGHT : nat := 64.
Definition MAX_KEY_BYTES : nat := 256.

Record CacheEntry := mkCacheEntry {
  record : option KeyRecord;
  inserted_at : Z;
  sequence : Z;
}.

Record CacheState := mkCache { cache_entries : gmap string CacheEntry; cache_sequence : Z }.

Definition empty_cache : CacheState := mkCache ∅ 0.

(** [cached]: an entry younger than the time to live. *)
Definition cached (ttl now : Z) (key : string) (c : CacheState) : option (option KeyRecord) :=
  match cache_entries c !! key with
  | Some e => if now - inserted_at e <? ttl then Some (record e) else None
  | None => None
  end.

(** [min_by_key] on [(inserted_at, sequence)]. *)
Definition older (a b : string * CacheEntry) : bool :=
  (inserted_at (snd a) <? inserted_at (snd b))
  || ((inserted_at (snd a) =? inserted_at (snd b)) && (sequence (snd a) <=? sequence (snd b))).

Definition oldest (m : gmap string CacheEntry) : option string :=
  fst <$> foldr (fun kv best => match best with
                                | None => Some kv
                                | Some b => if older kv b then Some kv else Some b
                                end) None (map_to_list m).

(** [insert]: purge the expired, evict the oldest at the size bound, store. *)
Definition insert_cache (ttl now : Z) (key : string) (r : option KeyRecord) (c : CacheState) : CacheState :=
  let kept := filter (fun kv => now - inserted_at (snd kv) < ttl) (cache_entries c) in
  let room := if bool_decide (KEY_CACHE_MAX_ENTRIES ≤ size kept)%nat && bool_decide (kept !! key = None)
              then match oldest kept with Some k => delete k kept | None => kept end
              else kept in
  let seq := wrap_u64 (cache_sequence c + 1) in
  mkCache (<[key := mkCacheEntry r now seq]> room) seq.

(** [flight]: the per-key lock table.  A table entry is a weak reference, dead
    once no lookup holds the lock; [live] tells the locks still held. *)
Record FlightState := mkFlights {
  locks : gmap string (nat * Z);
  fl_sequence : Z;
  misses : Z;
}.

Definition retain_live (live : nat → bool) (m : gmap string (nat * Z)) : gmap string (nat * Z) :=
  filter (fun kv => live (fst (snd kv)) = true) m.

(** The table at its bound is purged of dead locks before a new one goes in; [m]
    is the table without [key]. *)
Definition create_lock (live : nat → bool) (fresh : nat) (key : string) (seq misses' : Z)
    (m : gmap string (nat * Z)) : FlightState * option nat :=
  let m' := if bool_decide (KEY_CACHE_MAX_ENTRIES ≤ size m)%nat then retain_live live m else m in
  if bool_decide (KEY_CACHE_MAX_ENTRIES ≤ size m')%nat
  then (mkFlights m' seq misses', None)
  else (mkFlights (<[key := (fresh, wrap_u64 (seq + 1))]> m') (wrap_u64 (seq + 1)) misses', Some fresh).

(** [flight key], creating a lock named [fresh] when it needs one. *)
Definition flight (live : nat → bool) (fresh : nat) (key : string) (f : FlightState)
  : FlightState * option nat :=
  let misses' := wrap_u64 (misses f + 1) in
  let m := if misses' mod 256 =? 0 then retain_live live (locks f) else locks f in
  match m !! key with
  | Some (l, _) =>
      if live l then (mkFlights m (fl_sequence f) misses', Some l)
      else create_lock live fresh key (fl_sequence f) misses' (delete key m)
  | None => create_lock live fresh key (fl_sequence f) misses' (delete key m)
  end.

(** A lookup in progress: waiting for its key's lock, or holding it (and a global
    permit) while the capability answers. *)
Inductive Phase := Waiting | Asking.

#[global] Instance phase_eq_dec : EqDecision Phase.
Proof. solve_decision. Defined.

Record Pending := mkPending { pd_key : string; pd_lock : nat; pd_phase : Phase }.

(** The verifier: its cache and lock table, the lookups in progress, the next lock
    name, and the history of answers given to callers and by the store. *)
Record Verifier := mkVerifier {
  cache : CacheState;
  flights : FlightState;
  pending : gmap nat Pending;
  next_lock : nat;
  answers : list (Z * string * result unit (option KeyRecord));
  store_log : list (Z * string * option KeyRecord);
}.

Definition new_verifier : Verifier := mkVerifier empty_cache (mkFlights ∅ 0 0) ∅ 0 [] [].

Definition held (p : gmap nat Pending) (l : nat) : bool :=
  bool_decide (map_Exists (fun _ q => pd_lock q = l) p).

Definition locked (p : gmap nat Pending) (l : nat) : bool :=
  bool_decide (map_Exists (fun _ q => pd_lock q = l ∧ pd_phase q = Asking) p).

Definition permits_used (p : gmap nat Pending) : nat :=
  size (filter (fun kv => pd_phase (snd kv) = Asking) p).

(** [lookup] up to its first suspension: the length guard, the cache, the lock. *)
Definition lookup_begin (ttl now : Z) (id : nat) (key : string) (v : Verifier) : Verifier :=
  let answer r := mkVerifier (cache v) (flights v) (pending v) (next_lock v)
                             (answers v ++ [(now, key, r)]) (store_log v) in
  if bool_decide (MAX_KEY_BYTES < String.length key)%nat then answer (Ok None) else
  match cached ttl now key (cache v) with
  | Some r => answer (Ok r)
  | None =>
      let '(f, lock) := flight (held (pending v)) (next_lock v) key (flights v) in
      match lock with
      | Some l => mkVerifier (cache v) f (<[id := mkPending key l Waiting]> (pending v))
                             (S (next_lock v)) (answers v) (store_log v)
      | None => mkVerifier (cache v) f (pending v) (next_lock v)
                           (answers v ++ [(now, key, Err ())]) (store_log v)
      end
  end.

(** From the acquisition of the lock to the call: the cache again, the permit. *)
Definition lookup_locked (ttl now : Z) (id : nat) (q : Pending) (v : Verifier) : Verifier :=
  let answer r := mkVerifier (cache v) (flights v) (delete id (pending v)) (next_lock v)
                             (answers v ++ [(now, pd_key q, r)]) (store_log v) in
  match cached ttl now (pd_key q) (cache v) with
  | Some r => answer (Ok r)
  | None =>
      if bool_decide (KEY_LOOKUP_MAX_IN_FLIGHT ≤ permits_used (pending v))%nat
      then answer (Err ())
      else mkVerifier (cache v) (flights v)
                      (<[id := mkPending (pd_key q) (pd_lock q) Asking]> (pending v))
                      (next_lock v) (answers v) (store_log v)
  end.

(** From the capability's answer to the end. *)
Definition lookup_answered (ttl now : Z) (id : nat) (q : Pending)
    (res : result Error (option KeyRecord)) (v : Verifier) : Verifier :=
  match res with
  | Ok r => mkVerifier (insert_cache ttl now (pd_key q) r (cache v)) (flights v)
                       (delete id (pending v)) (next_lock v)
                       (answers v ++ [(now, pd_key q, Ok r)]) (store_log v ++ [(now, pd_key q, r)])
  | Err _ => mkVerifier (cache v) (flights v) (delete id (pending v)) (next_lock v)
                        (answers v ++ [(now, pd_key q, Err ())]) (store_log v)
  end.

(** What the concurrent lookups of one gateway do, one step at a time.  [Dropped]
    is a request whose client went away while it was suspended. *)
Inductive vstep (ttl : Z) : Verifier → Verifier → Prop :=
| Begin now id key v :
    pending v !! id = None → vstep ttl v (lookup_begin ttl now id key v)
| Locked now id q v :
    pending v !! id = Some q → pd_phase q = Waiting → locked (pending v) (pd_lock q) = false →
    vstep ttl v (lookup_locked ttl now id q v)
| Answered now id q res v :
    pending v !! id = Some q → pd_phase q = Asking →
    vstep ttl v (lookup_answered ttl now id q res v)
| Dropped id v :
    vstep ttl v (mkVerifier (cache v) (flights v) (delete id (pending v)) (next_lock v)
                            (answers v) (store_log v)).

Definition reachable (ttl : Z) : Verifier → Prop := rtc (vstep ttl) new_verifier.

(** ** Facts *)

Lemma size_filter_le (P : string * CacheEntry → Prop) `{!∀ x, Decision (P x)} (m : gmap string CacheEntry) :
  (size (filter P m) ≤ size m)%nat.
Proof. apply map_subseteq_size, map_filter_subseteq. Qed.

Lemma oldest_some m k : oldest m = Some k → is_Some (m !! k).
Proof.
  unfold oldest. intros (kv & H & ->)%fmap_Some. destruct kv as [k e].
  assert (Hin : (k, e) ∈ map_to_list m).
  { revert H. generalize (map_to_list m). intros l. revert k e.
    induction l as [|x l IH]; intros k e H; simplify_eq/=.
    destruct (foldr _ _ l) as [b|]; [|simplify_eq; by left].
    case_match; simplify_eq; [by left|]. right. by apply IH. }
  apply elem_of_map_to_list in Hin. eauto.
Qed.

Lemma oldest_none m : oldest m = None → m = ∅.
Proof.
  unfold oldest. intros H%fmap_None. apply map_to_list_empty_iff.
  destruct (map_to_list m) as [|x l]; [done|]. simpl in H. by repeat case_match.
Qed.

Lemma insert_cache_size ttl now key r c :
  (size (cache_entries c) ≤ KEY_CACHE_MAX_ENTRIES)%nat →
  (size (cache_entries (insert_cache ttl now key r c)) ≤ KEY_CACHE_MAX_ENTRIES)%nat.
Proof.
  intros H. unfold insert_cache. simpl. set (kept := filter _ _).
  pose proof (size_filter_le (fun kv => now - inserted_at (snd kv) < ttl) (cache_entries c)) as Hk.
  fold kept in Hk. assert (HM : (0 < KEY_CACHE_MAX_ENTRIES)%nat) by (unfold KEY_CACHE_MAX_ENTRIES; lia).
  rewrite map_size_insert.
  case_bool_decide as Hs; simpl; [|case_match; simpl in *; lia].
  case_bool_decide as Hn; simpl; [|destruct (kept !! key) eqn:E; simpl; [lia|done]].
  destruct (oldest kept) as [k|] eqn:Eo.
  - destruct (oldest_some _ _ Eo) as [e He].
    assert (Hd : size (delete k kept) = Nat.pred (size kept)) by (apply map_size_delete_Some; eauto).
    assert (Hdk : delete k kept !! key = None) by (rewrite lookup_delete_None; auto).
    rewrite Hdk. lia.
  - apply oldest_none in Eo. rewrite Eo in Hs. rewrite map_size_empty in Hs. lia.
Qed.


Lemma insert_cache_entry ttl now key r c k e :
  cache_entries (insert_cache ttl now key r c) !! k = Some e →
  (k = key ∧ record e = r ∧ inserted_at e = now) ∨ cache_entries c !! k = Some e.
Proof.
  unfold insert_cache. simpl. rewrite lookup_insert. case_decide as Hk; [intros [= <-]; subst; by left|].
  intros H. right.
  assert (Hf : filter (fun kv => now - inserted_at (snd kv) < ttl) (cache_entries c) !! k = Some e).
  { repeat case_match; try done. by apply lookup_delete_Some in H as [_ ?]. }
  by apply map_lookup_filter_Some in Hf as [? _].
Qed.

Lemma retain_live_some live m k l sq :
  m !! k = Some (l, sq) → live l = true → retain_live live m !! k = Some (l, sq).
Proof. intros. by apply map_lookup_filter_Some. Qed.

Lemma retain_live_size live m : (size (retain_live live m) ≤ size m)%nat.
Proof. apply map_subseteq_size, map_filter_subseteq. Qed.

(** What a flight does to the table: a held lock stays its key's lock, the lock
    returned is now its key's, and the table stays within its bound. *)
Definition flight_ok (live : nat → bool) (key : string) (m : gmap string (nat * Z))
    (r : FlightState * option nat) : Prop :=
  (∀ k l sq, m !! k = Some (l, sq) → live l = true → locks (fst r) !! k = Some (l, sq))
  ∧ (∀ l, snd r = Some l → ∃ sq, locks (fst r) !! key = Some (l, sq))
  ∧ (size (locks (fst r)) ≤ KEY_CACHE_MAX_ENTRIES)%nat.

Lemma create_lock_ok live fresh key seq ms m :
  (size m ≤ KEY_CACHE_MAX_ENTRIES)%nat → (∀ l sq, m !! key = Some (l, sq) → live l = false) →
  flight_ok live key m (create_lock live fresh key seq ms (delete key m)).
Proof.
  intros Hs Hdead. unfold create_lock. set (m' := if bool_decide _ then retain_live _ _ else _).
  assert (Hm : ∀ k l sq, m !! k = Some (l, sq) → live l = true → m' !! k = Some (l, sq) ∧ k ≠ key).
  { intros k l sq Hk Hl. assert (k ≠ key) by (intros ->; rewrite (Hdead _ _ Hk) in Hl; done).
    split; [|done]. assert (Hd : delete key m !! k = Some (l, sq)) by (by rewrite lookup_delete_ne).
    subst m'. case_bool_decide; [by apply retain_live_some|done]. }
  assert (Hsm : (size m' ≤ size m)%nat).
  { assert (size (delete key m) ≤ size m)%nat by apply map_subseteq_size, delete_subseteq.
    pose proof (retain_live_size live (delete key m)). subst m'. case_bool_decide; lia. }
  clearbody m'. case_bool_decide; simpl.
  - split; [|split]; simpl; [naive_solver|done|lia].
  - split; [|split]; simpl.
    + intros k l sq Hk Hl. destruct (Hm _ _ _ Hk Hl). by rewrite lookup_insert_ne.
    + intros l [= <-]. rewrite lookup_insert_eq. eauto.
    + rewrite map_size_insert. case_match; simpl; lia.
Qed.

Lemma flight_spec live fresh key f :
  (size (locks f) ≤ KEY_CACHE_MAX_ENTRIES)%nat →
  flight_ok live key (locks f) (flight live fresh key f).
Proof.
  intros Hs. unfold flight. set (m := if _ =? _ then retain_live _ _ else _).
  assert (H1 : ∀ k l sq, locks f !! k = Some (l, sq) → live l = true → m !! k = Some (l, sq)).
  { subst m. intros. case_match; [by apply retain_live_some|done]. }
  assert (Hm : (size m ≤ KEY_CACHE_MAX_ENTRIES)%nat).
  { subst m. pose proof (retain_live_size live (locks f)). case_match; lia. }
  clearbody m.
  enough (H : flight_ok live key m (match m !! key with
    | Some (l, _) => if live l then (mkFlights m (fl_sequence f) (wrap_u64 (misses f + 1)), Some l)
        else create_lock live fresh key (fl_sequence f) (wrap_u64 (misses f + 1)) (delete key m)
    | None => create_lock live fresh key (fl_sequence f) (wrap_u64 (misses f + 1)) (delete key m) end)).
  { destruct H as (Ha & Hb & Hc). split; [|by split]. intros. apply Ha; auto. }
  destruct (m !! key) as [[l sq]|] eqn:Ek; [destruct (live l) eqn:El|].
  - split; [done|]. split; [|done]. simpl. naive_solver.
  - apply create_lock_ok; [done|]. naive_solver.
  - apply create_lock_ok; [done|]. naive_solver.
Qed.

(** ** The invariant *)

(** An answer the gateway may act on: the store gave it for this key within the
    time to live. *)
Definition fresh_answer (ttl : Z) (log : list (Z * string * option KeyRecord))
    (a : Z * string * result unit (option KeyRecord)) : Prop :=
  match a with
  | (_, _, Err _) => True
  | (now, key, Ok r) =>
      ((MAX_KEY_BYTES < String.length key)%nat ∧ r = None)
      ∨ ∃ t, (t, key, r) ∈ log ∧ (now - t < ttl ∨ now = t)
  end.

Record verifier_inv (ttl : Z) (v : Verifier) : Prop := {
  vi_cache : ∀ k e, cache_entries (cache v) !! k = Some e → (inserted_at e, k, record e) ∈ store_log v;
  vi_size : (size (cache_entries (cache v)) ≤ KEY_CACHE_MAX_ENTRIES)%nat;
  vi_locks : (size (locks (flights v)) ≤ KEY_CACHE_MAX_ENTRIES)%nat;
  vi_lock : ∀ id q, pending v !! id = Some q → ∃ sq, locks (flights v) !! pd_key q = Some (pd_lock q, sq);
  vi_excl : ∀ i j p q, pending v !! i = Some p → pending v !! j = Some q →
            pd_phase p = Asking → pd_phase q = Asking → pd_lock p = pd_lock q → i = j;
  vi_permits : (permits_used (pending v) ≤ KEY_LOOKUP_MAX_IN_FLIGHT)%nat;
  vi_answers : ∀ a, a ∈ answers v → fresh_answer ttl (store_log v) a;
}.

Lemma fresh_answer_mono ttl log x a : fresh_answer ttl log a → fresh_answer ttl (log ++ [x]) a.
Proof. destruct a as [[now k] [r|]]; simpl; [|done]. intros [?|(t & ? & ?)]; [by left|right; set_solver]. Qed.

Lemma cached_fresh ttl now key v r :
  verifier_inv ttl v → cached ttl now key (cache v) = Some r → fresh_answer ttl (store_log v) (now, key, Ok r).
Proof.
  intros H. unfold cached. case_match eqn:Ee; [|done]. case_match eqn:El; [|done]. intros [= <-].
  right. eexists. split; [by apply (vi_cache _ _ H)|]. left. lia.
Qed.

Lemma answers_snoc ttl log l a :
  (∀ x, x ∈ l → fresh_answer ttl log x) → fresh_answer ttl log a → ∀ x, x ∈ l ++ [a] → fresh_answer ttl log x.
Proof. intros H1 H2 x [?|Hx%list_elem_of_singleton]%elem_of_app; subst; auto. Qed.

(** Dropping a lookup in progress keeps the invariant. *)
Lemma verifier_inv_drop ttl v id :
  verifier_inv ttl v →
  verifier_inv ttl (mkVerifier (cache v) (flights v) (delete id (pending v)) (next_lock v) (answers v) (store_log v)).
Proof.
  intros []. split; simpl; try done.
  - intros i q [_ ?]%lookup_delete_Some. eauto.
  - intros i j p q [_ ?]%lookup_delete_Some [_ ?]%lookup_delete_Some. eauto.
  - unfold permits_used. rewrite map_filter_delete. etrans; [|exact vi_permits0].
    apply map_subseteq_size, delete_subseteq.
Qed.

(** So does giving an answer that is fresh. *)
Lemma verifier_inv_answer ttl v a :
  verifier_inv ttl v → fresh_answer ttl (store_log v) a →
  verifier_inv ttl (mkVerifier (cache v) (flights v) (pending v) (next_lock v) (answers v ++ [a]) (store_log v)).
Proof. intros [] ?. split; simpl; try done. by apply answers_snoc. Qed.

(** And recording a store answer in the cache. *)
Lemma verifier_inv_store ttl v now key r :
  verifier_inv ttl v →
  verifier_inv ttl (mkVerifier (insert_cache ttl now key r (cache v)) (flights v) (pending v) (next_lock v)
                               (answers v) (store_log v ++ [(now, key, r)])).
Proof.
  intros []. split; simpl; try done.
  - intros k e [(-> & <- & <-)|H]%insert_cache_entry; apply elem_of_app; [right; by left|left; auto].
  - by apply insert_cache_size.
  - intros a Ha. by apply fresh_answer_mono, vi_answers0.
Qed.

Lemma verifier_inv_begin ttl now id key v :
  verifier_inv ttl v → pending v !! id = None → verifier_inv ttl (lookup_begin ttl now id key v).
Proof.
  intros Hv Hid. unfold lookup_begin. case_bool_decide; [apply verifier_inv_answer; [done|by left]|].
  destruct (cached ttl now key (cache v)) as [r|] eqn:Ec; [by apply verifier_inv_answer, cached_fresh|].
  pose proof (flight_spec (held (pending v)) (next_lock v) key (flights v) (vi_locks _ _ Hv)) as Hf.
  destruct (flight _ _ _ _) as [f lock]. destruct Hf as (Hkeep & Hnew & Hsize). simpl in *.
  assert (Hheld : ∀ i q, pending v !! i = Some q → held (pending v) (pd_lock q) = true).
  { intros i q Hi. apply bool_decide_eq_true. by exists i, q. }
  assert (Hlock : ∀ i q, pending v !! i = Some q → ∃ sq, locks f !! pd_key q = Some (pd_lock q, sq)).
  { intros i q Hi. destruct (vi_lock _ _ Hv _ _ Hi) as [sq ?]. exists sq. eauto. }
  destruct Hv. destruct lock as [l|]; split; simpl; try done.
  - intros i q. rewrite lookup_insert. case_decide; [intros [= <-]; eauto|eauto].
  - intros i j p q. rewrite !lookup_insert. repeat case_decide; naive_solver.
  - unfold permits_used. rewrite map_filter_insert_not'; [done|simpl; congruence|]. intros y Hy. simpl in Hy. congruence.
  - by apply answers_snoc.
Qed.

Lemma verifier_inv_locked ttl now id q v :
  verifier_inv ttl v → pending v !! id = Some q → pd_phase q = Waiting →
  locked (pending v) (pd_lock q) = false → verifier_inv ttl (lookup_locked ttl now id q v).
Proof.
  intros Hv Hid Hw Hfree. unfold lookup_locked.
  destruct (cached ttl now (pd_key q) (cache v)) as [r|] eqn:Ec.
  { exact (verifier_inv_answer ttl _ (now, pd_key q, Ok r) (verifier_inv_drop _ _ id Hv) (cached_fresh _ _ _ _ _ Hv Ec)). }
  case_bool_decide as Hp.
  { exact (verifier_inv_answer ttl _ (now, pd_key q, Err ()) (verifier_inv_drop _ _ id Hv) I). }
  apply bool_decide_eq_false in Hfree. destruct Hv. split; simpl; try done.
  - intros i p. rewrite lookup_insert. case_decide; [intros [= <-]; simpl; eauto|eauto].
  - intros i j p p'. rewrite !lookup_insert. case_decide as Hi; case_decide as Hj; [congruence| | |].
    + intros [= <-] Hp' _ Ha Hl. exfalso. apply Hfree. exists j, p'. by simpl in *.
    + intros Hp' [= <-] Ha _ Hl. exfalso. apply Hfree. exists i, p. by simpl in *.
    + apply vi_excl0.
  - unfold permits_used in *. rewrite map_filter_insert_True by done. rewrite map_size_insert.
    case_match; simpl; lia.
Qed.

Lemma verifier_inv_answered ttl now id q res v :
  verifier_inv ttl v → verifier_inv ttl (lookup_answered ttl now id q res v).
Proof.
  intros Hv. apply (verifier_inv_drop _ _ id) in Hv. unfold lookup_answered. destruct res as [r|e].
  - apply (verifier_inv_store _ _ now (pd_key q) r) in Hv. apply (verifier_inv_answer _ _ (now, pd_key q, Ok r)) in Hv; [done|].
    right. exists now. split; [|by right]. apply elem_of_app. right. by left.
  - by apply (verifier_inv_answer _ _ (now, pd_key q, Err ())) in Hv.
Qed.

Lemma verifier_inv_reachable ttl v : reachable ttl v → verifier_inv ttl v.
Proof.
  apply (rtc_ind_r (verifier_inv ttl) new_verifier).
  - split; simpl; try set_solver; unfold permits_used; simpl; rewrite ?map_filter_empty, ?map_size_empty; lia.
  - intros v1 v2 _ H Hv. destruct H; eauto using verifier_inv_begin, verifier_inv_locked, verifier_inv_answered, verifier_inv_drop.
Qed.

(** C26: whatever lookups run concurrently in a gateway, at whatever times and with
    whatever clients giving up, every answer it acts on is the key store's own
    answer for that very key, obtained for this lookup or less than the time to
    live before it (an over-long key is answered "unknown" without asking); at
    most one lookup per key asks the store at a time, at most
    [KEY_LOOKUP_MAX_IN_FLIGHT] in all; and neither the cache nor the lock table
    ever holds more than its bound. *)
Theorem key_lookups_safe (ttl : Z) (v : Verifier) :
  reachable ttl v →
  (∀ a, a ∈ answers v → fresh_answer ttl (store_log v) a)
  ∧ (∀ i j p q, pending v !! i = Some p → pending v !! j = Some q → pd_phase p = Asking →
       pd_phase q = Asking → pd_key p = pd_key q → i = j)
  ∧ (permits_used (pending v) ≤ KEY_LOOKUP_MAX_IN_FLIGHT)%nat
  ∧ (size (cache_entries (cache v)) ≤ KEY_CACHE_MAX_ENTRIES)%nat
  ∧ (size (locks (flights v)) ≤ KEY_CACHE_MAX_ENTRIES)%nat.
Proof.
  intros Hv%verifier_inv_reachable. destruct Hv. split; [done|]. split; [|done].
  intros i j p q Hi Hj Hp Hq Hk. apply (vi_excl0 i j p q); try done.
  destruct (vi_lock0 _ _ Hi) as [s1 H1], (vi_lock0 _ _ Hj) as [s2 H2]. congruence.
Qed.

(** Two lookups of one key: the second waits for the first's answer and is served
    from the cache; a third, after the time to live, asks again and gets a revocation. *)
Module CacheExample.
Definition rec : KeyRecord := mkKeyRecord "client" "full".
Definition v1 := lookup_begin KEY_CACHE_TTL 1 0 "K" new_verifier.
Definition v2 := lookup_begin KEY_CACHE_TTL 2 1 "K" v1.
Definition v3 := lookup_locked KEY_CACHE_TTL 3 0 (mkPending "K" 0 Waiting) v2.
Definition v4 := lookup_answered KEY_CACHE_TTL 4 0 (mkPending "K" 0 Asking) (Ok (Some rec)) v3.
Definition v5 := lookup_locked KEY_CACHE_TTL 5 1 (mkPending "K" 0 Waiting) v4.
Definition v6 := lookup_begin KEY_CACHE_TTL (KEY_CACHE_TTL + 4) 2 "K" v5.
Definition v7 := lookup_locked KEY_CACHE_TTL (KEY_CACHE_TTL + 5) 2 (mkPending "K" 2 Waiting) v6.
Definition v8 := lookup_answered KEY_CACHE_TTL (KEY_CACHE_TTL + 6) 2 (mkPending "K" 2 Asking) (Ok None) v7.
End CacheExample.

Lemma key_lookups_safe_witness :
  answers CacheExample.v8 = [(4, "K", Ok (Some CacheExample.rec)); (5, "K", Ok (Some CacheExample.rec));
                             (KEY_CACHE_TTL + 6, "K", Ok None)]
  ∧ ∀ a, a ∈ answers CacheExample.v8 → fresh_answer KEY_CACHE_TTL (store_log CacheExample.v8) a.
Proof.
  split; [vm_compute; reflexivity|].
  apply (key_lookups_safe KEY_CACHE_TTL CacheExample.v8).
  unfold reachable.
  apply rtc_l with CacheExample.v1; [apply Begin; reflexivity|].
  apply rtc_l with CacheExample.v2; [apply Begin; vm_compute; reflexivity|].
  apply rtc_l with CacheExample.v3; [apply Locked; vm_compute; reflexivity|].
  apply rtc_l with CacheExample.v4; [apply Answered; vm_compute; reflexivity|].
  apply rtc_l with CacheExample.v5; [apply Locked; vm_compute; reflexivity|].
  apply rtc_l with CacheExample.v6; [apply Begin; vm_compute; reflexivity|].
  apply rtc_l with CacheExample.v7; [apply Locked; vm_compute; reflexivity|].
  apply rtc_once. apply Answered; vm_compute; reflexivity.
Defined.
