(* ===== verification/Pg.v ===== *)
(** * Pg: the PostgreSQL value semantics the modules rely on

    The modules pass player ids as text and let the server cast them ([$n::uuid]).
    The server's [uuid_in] is an interface with its documented laws; text
    parameters are refused when they hold a NUL byte.  An instance on plain text
    shows the laws can hold and lets examples run. *)

From Stdlib Require Import Ascii.
From S2P Require Import Prelude Text.
#[local] Open Scope Z_scope.

(** [u8::is_ascii_hexdigit]. *)
Definition is_ascii_hexdigit (c : ascii) : bool :=
  let n := code c in
  ((48 <=? n) && (n <=? 57) || (65 <=? n) && (n <=? 70) || (97 <=? n) && (n <=? 102))%nat.

(** The hexadecimal digits of a text, lower-cased. *)
Definition hex_digits (s : string) : bytes :=
  map to_ascii_lowercase (List.filter is_ascii_hexdigit (to_bytes s)).

(** The spelling the documentation gives for a uuid without braces: groups of four
    digits, a hyphen allowed after any group but the last. *)
Inductive uuid_groups : nat → bytes → Prop :=
| ug_last a b c d :
    forallb is_ascii_hexdigit [a; b; c; d] = true → uuid_groups 1 [a; b; c; d]
| ug_next a b c d hyphen n l :
    forallb is_ascii_hexdigit [a; b; c; d] = true → hyphen = [] ∨ hyphen = ["-"%char] →
    uuid_groups n l → uuid_groups (S n) ([a; b; c; d] ++ hyphen ++ l).

Definition NIL_UUID : string := "00000000-0000-0000-0000-000000000000".

Definition has_nul (s : string) : bool := existsb (Ascii.eqb zero) (to_bytes s).

(** [s::uuid::text]: [None] is "invalid text representation". *)
Class PgUuid := {
  uuid_in : string → option string;
  uuid_in_canonical : ∀ s u, uuid_in s = Some u → uuid_in u = Some u;
  uuid_in_digits : ∀ s u, uuid_in s = Some u → hex_digits u = hex_digits s ∧ length (hex_digits s) = 32%nat;
  uuid_in_inj : ∀ s t u v, uuid_in s = Some u → uuid_in t = Some v → hex_digits s = hex_digits t → u = v;
  uuid_in_groups : ∀ s, uuid_groups 8 (to_bytes s) → is_Some (uuid_in s);
  uuid_in_no_nul : ∀ s u, uuid_in s = Some u → has_nul u = false;
  uuid_in_least : ∀ s u, uuid_in s = Some u → String.le NIL_UUID u;
  uuid_in_nil : uuid_in NIL_UUID = Some NIL_UUID;
  uuid_in_case : ∀ s t, eq_ignore_ascii_case s t = true → uuid_in s = uuid_in t;
}.

(** An id in the form the server prints it. *)
Definition canonical `{PgUuid} (u : string) : Prop := uuid_in u = Some u.
#[global] Instance canonical_dec `{PgUuid} u : Decision (canonical u).
Proof. unfold canonical. apply _. Defined.

(** The server's errors the modules tell apart. *)
Inductive SqlError :=
| InvalidTextRepresentation
| CheckViolation (constraint : string)
| ForeignKeyViolation (constraint : string)
| UniqueViolation
| OtherSqlError.

(** Binding text parameters: a NUL byte is refused before the statement runs. *)
Definition bind_text {S} (params : list string) : ST S SqlError unit :=
  if existsb has_nul params then fail OtherSqlError else mret ().

(** The cast of a bound parameter. *)
Definition cast_uuid {S} `{PgUuid} (s : string) : ST S SqlError string :=
  lift (ok_or (uuid_in s) InvalidTextRepresentation).

Lemma pg_bind_ok {S} (l : list string) (s s' : S) x : bind_text l s = (s', Ok x) → s' = s ∧ existsb has_nul l = false.
Proof. unfold bind_text. case_match; intros [= <-]; done. Qed.

Lemma pg_cast_ok {S} `{PgUuid} (p : string) (s s' : S) u : cast_uuid p s = (s', Ok u) → s' = s ∧ uuid_in p = Some u.
Proof. unfold cast_uuid, lift, ok_or. case_match; intros [= <- <-]; done. Qed.

(** [bigint] addition: out of range is an error. *)
Definition bigint_add {S} (a b : Z) : ST S SqlError Z :=
  if (i64_min <=? a + b) && (a + b <=? i64_max) then mret (a + b) else fail OtherSqlError.

(** Peels the parameter binding and the uuid casts off a successful run. *)
Ltac pg_inv E :=
  repeat (let E0 := fresh "E" in
    first [ apply st_bind_ok in E as (? & ? & E0 & E); apply pg_bind_ok in E0 as [-> ?]; simpl in E
          | apply st_bind_ok in E as (? & ? & E0 & E); apply pg_cast_ok in E0 as [-> ?]; simpl in E
          | apply st_bind_ok in E as (? & ? & E0 & E); injection E0 as <- <-; simpl in E ]).

(** ** Advisory locks

    A module locks an id by the FNV-1a hash of its own prefix and the id, the id
    reduced to its hexadecimal digits when there are 32 of them. *)

Definition fnv1a (l : bytes) : Z :=
  foldl (fun h b => wrap_u64 (Z.lxor h (Z.of_nat (code b)) * 0x100000001b3)) 0xcbf29ce484222325 l.

Definition normalized_id (id : string) : bytes :=
  let hex := hex_digits id in if bool_decide (length hex = 32%nat) then hex else to_bytes id.

Definition lock_key (prefix id : string) : Z := wrap_i64 (fnv1a (to_bytes prefix ++ normalized_id id)).

(** Two spellings of one uuid take the same lock. *)
Lemma lock_key_uuid `{PgUuid} prefix s t u :
  uuid_in s = Some u → uuid_in t = Some u → lock_key prefix s = lock_key prefix t.
Proof.
  intros [Es Ls]%uuid_in_digits [Et Lt]%uuid_in_digits. unfold lock_key, normalized_id.
  rewrite !bool_decide_eq_true_2 by done. by rewrite <- Es, <- Et.
Qed.

(** ** An instance: digits with hyphens only, canonical spelling 8-4-4-4-12 *)

Definition hyphenate (h : bytes) : bytes :=
  take 8 h ++ "-"%char :: take 4 (drop 8 h) ++ "-"%char :: take 4 (drop 12 h)
  ++ "-"%char :: take 4 (drop 16 h) ++ "-"%char :: drop 20 h.

Definition plain_uuid_in (s : string) : option string :=
  if bool_decide (length (hex_digits s) = 32%nat)
     && forallb (fun c => is_ascii_hexdigit c || Ascii.eqb c "-") (to_bytes s)
  then Some (of_bytes (hyphenate (hex_digits s))) else None.

Lemma hexdigit_lower c :
  is_ascii_hexdigit c = true →
  is_ascii_hexdigit (to_ascii_lowercase c) = true ∧ to_ascii_lowercase (to_ascii_lowercase c) = to_ascii_lowercase c.
Proof. destruct c as [[] [] [] [] [] [] [] []]; vm_compute; auto. Qed.

(** Digits already lower-cased. *)
Definition lower_hex (c : ascii) : Prop := is_ascii_hexdigit c = true ∧ to_ascii_lowercase c = c.

Lemma hex_digits_lower s : Forall lower_hex (hex_digits s).
Proof.
  unfold hex_digits. induction (to_bytes s) as [|c l IH]; [constructor|]. simpl.
  destruct (is_ascii_hexdigit c) eqn:E; [|done]. simpl. constructor; [by apply hexdigit_lower|done].
Qed.

Lemma lower_hex_digits l :
  Forall lower_hex l → map to_ascii_lowercase (List.filter is_ascii_hexdigit l) = l.
Proof. induction 1 as [|c l [Hc Hl] _ IH]; [done|]. simpl. rewrite Hc. simpl. by rewrite Hl, IH. Qed.

Lemma hex_digits_hyphenate h : Forall lower_hex h → hex_digits (of_bytes (hyphenate h)) = h.
Proof.
  intros H. unfold hex_digits, hyphenate. rewrite to_of_bytes.
  assert (Hs : ∀ n, Forall lower_hex (take n h) ∧ Forall lower_hex (drop n h))
    by (intros n; split; [by apply Forall_take|by apply Forall_drop]).
  repeat (rewrite List.filter_app, map_app; simpl List.filter).
  assert (Ht : ∀ n m, Forall lower_hex (take n (drop m h))) by (intros; by apply Forall_take, Hs).
  rewrite !lower_hex_digits by (apply Ht || apply Hs).
  rewrite <- (take_drop 8 h) at 6. f_equal.
  rewrite <- (take_drop 4 (drop 8 h)) at 2. f_equal. rewrite drop_drop. simpl.
  rewrite <- (take_drop 4 (drop 12 h)) at 2. f_equal. rewrite drop_drop. simpl.
  rewrite <- (take_drop 4 (drop 16 h)) at 2. f_equal. by rewrite drop_drop.
Qed.

Lemma hyphenate_chars h :
  Forall lower_hex h → forallb (fun c => is_ascii_hexdigit c || Ascii.eqb c "-") (hyphenate h) = true.
Proof.
  intros H. apply forallb_forall. intros c Hc%list_elem_of_In. unfold hyphenate in Hc.
  assert (Hd : ∀ n, c ∈ drop n h → c ∈ h) by (intros n ?; rewrite <- (take_drop n h); set_solver).
  assert (Ht : ∀ n l, c ∈ take n l → c ∈ l) by (intros n l ?; rewrite <- (take_drop n l); set_solver).
  assert (Hh : c ∈ h ∨ c = "-"%char).
  { repeat (apply elem_of_app in Hc as [Hc|Hc]; [left; by eauto|];
            apply elem_of_cons in Hc as [Hc|Hc]; [by right|]).
    left. by eauto. }
  destruct Hh as [Hh| ->]; [|done]. rewrite Forall_forall in H. by destruct (H c Hh) as [-> _].
Qed.

Lemma uuid_groups_plain n l :
  uuid_groups n l →
  length (List.filter is_ascii_hexdigit l) = (4 * n)%nat
  ∧ forallb (fun c => is_ascii_hexdigit c || Ascii.eqb c "-") l = true.
Proof.
  induction 1 as [a b c d H|a b c d hy n l H Hhy _ [IH1 IH2]]; simpl in H;
    repeat (apply andb_true_iff in H as [? H]); simpl.
  - by repeat match goal with E : is_ascii_hexdigit _ = true |- _ => rewrite E; clear E end.
  - repeat match goal with E : is_ascii_hexdigit _ = true |- _ => rewrite E; clear E end.
    destruct Hhy as [-> | ->]; simpl; rewrite IH2; split; try done; lia.
Qed.

(** Texts that compare character by character. *)
Lemma string_le_pointwise s t :
  Forall2 (fun a b => code a ≤ code b)%nat (to_bytes s) (to_bytes t) → String.le s t.
Proof.
  revert t. induction s as [|a s IH]; intros [|b t] Hf; inversion Hf as [|? ? ? ? Hab Hst]; subst; [done|].
  apply IH in Hst. unfold String.le, String.leb in *. simpl.
  unfold Ascii.compare. destruct (N.compare_spec (N_of_ascii a) (N_of_ascii b)) as [E|E|E]; [done|done|].
  exfalso. unfold code, nat_of_ascii in Hab. lia.
Qed.

Lemma hyphenate_least h :
  Forall lower_hex h → length h = 32%nat → String.le NIL_UUID (of_bytes (hyphenate h)).
Proof.
  intros Hh Hl. apply string_le_pointwise. rewrite to_of_bytes.
  change (to_bytes NIL_UUID) with (hyphenate (replicate 32 "0"%char)).
  assert (Hf : Forall2 (fun a b => code a ≤ code b)%nat (replicate 32 "0"%char) h).
  { rewrite <- Hl. clear Hl. induction Hh as [|c l [Hc _] _ IH]; constructor; [|done].
    unfold is_ascii_hexdigit in Hc. cbv zeta in Hc. rewrite !orb_true_iff, !andb_true_iff, !Nat.leb_le in Hc. change (code "0"%char) with 48%nat. lia. }
  unfold hyphenate.
  apply Forall2_app; [by apply Forall2_take|]. constructor; [done|].
  do 3 (apply Forall2_app; [by apply Forall2_take, Forall2_drop|]; constructor; [done|]).
  by apply Forall2_drop.
Qed.

Lemma hexdigit_lowercase c : is_ascii_hexdigit (to_ascii_lowercase c) = is_ascii_hexdigit c.
Proof. destruct c as [[] [] [] [] [] [] [] []]; vm_compute; reflexivity. Qed.

Lemma hyphen_lowercase c : Ascii.eqb (to_ascii_lowercase c) "-" = Ascii.eqb c "-".
Proof. destruct c as [[] [] [] [] [] [] [] []]; vm_compute; reflexivity. Qed.

Lemma lowercase_idem c : to_ascii_lowercase (to_ascii_lowercase c) = to_ascii_lowercase c.
Proof. destruct c as [[] [] [] [] [] [] [] []]; vm_compute; reflexivity. Qed.

Lemma hex_digits_lowercase s : hex_digits (lower s) = hex_digits s.
Proof.
  unfold hex_digits, lower. rewrite to_of_bytes. induction (to_bytes s) as [|c l IH]; [done|]. simpl.
  rewrite hexdigit_lowercase. destruct (is_ascii_hexdigit c); simpl; [by rewrite lowercase_idem, IH|done].
Qed.

(** The server reads a uuid in either case. *)
Lemma plain_uuid_case s t : lower s = lower t → plain_uuid_in s = plain_uuid_in t.
Proof.
  assert (Hs : ∀ x, plain_uuid_in x = plain_uuid_in (lower x)).
  { intros x. unfold plain_uuid_in. rewrite hex_digits_lowercase.
    enough (Hf : forallb (fun c => is_ascii_hexdigit c || Ascii.eqb c "-") (to_bytes (lower x))
                 = forallb (fun c => is_ascii_hexdigit c || Ascii.eqb c "-") (to_bytes x)) by by rewrite Hf.
    unfold lower. rewrite to_of_bytes. induction (to_bytes x) as [|c l IH]; [done|]. simpl.
    by rewrite hexdigit_lowercase, hyphen_lowercase, IH. }
  intros E. rewrite (Hs s), (Hs t). by rewrite E.
Qed.

Program Definition plain_uuid : PgUuid := {| uuid_in := plain_uuid_in |}.
Next Obligation.
  unfold plain_uuid_in. intros s u. case_bool_decide as Hl; [|done]. simpl.
  case_match; [|done]. intros [= <-]. rewrite hex_digits_hyphenate, to_of_bytes, hyphenate_chars by apply hex_digits_lower.
  by rewrite bool_decide_eq_true_2.
Qed.
Next Obligation.
  unfold plain_uuid_in. intros s u. case_bool_decide as Hl; [|done]. simpl.
  case_match; [|done]. intros [= <-]. by rewrite hex_digits_hyphenate by apply hex_digits_lower.
Qed.
Next Obligation.
  unfold plain_uuid_in. intros s t u v Hs Ht E. rewrite E in Hs. repeat case_match; congruence.
Qed.
Next Obligation.
  unfold plain_uuid_in. intros s [Hlen ->]%uuid_groups_plain. unfold hex_digits. rewrite length_map.
  rewrite bool_decide_eq_true_2 by done. by eexists.
Qed.
Next Obligation.
  unfold plain_uuid_in. intros s u. case_match; [|done]. intros [= <-]. unfold has_nul. rewrite to_of_bytes.
  apply not_true_iff_false. intros (c & Hc & Hz)%existsb_exists. apply Ascii.eqb_eq in Hz as <-.
  pose proof (hyphenate_chars (hex_digits s) (hex_digits_lower s)) as Hf. rewrite forallb_forall in Hf.
  by specialize (Hf _ Hc).
Qed.
Next Obligation.
  unfold plain_uuid_in. intros s u. case_bool_decide; [|done]. simpl. case_match; [|done]. intros [= <-].
  by apply hyphenate_least; [apply hex_digits_lower|].
Qed.
Next Obligation. vm_compute. reflexivity. Qed.
Next Obligation. intros s t E. apply plain_uuid_case. by apply bool_decide_eq_true in E. Qed.
