(* ===== verification/Purge.v ===== *)
(** * Purge: the batched sweep of deleted players

    Several modules keep a [purged_players] table of tombstones and drain it the same
    way, in batches of least ids above a watermark, until a short batch or the end of
    the time budget.  The loop is written once here, over what a module does for one
    player; [purge_sweep_run] says what it achieves. *)

From stdpp Require Import sorting.
From S2P Require Import Prelude Text Pg.

(** A tombstone: the deleted player's handle, and whether it has been swept. *)
Abbreviation Tombs := (gmap string (string * bool)).

(** What the loop uses of a module's tables. *)
Class Sweep (S : Type) := {
  tombs : S → Tombs;
  purge_one : string → string → ST S SqlError unit;
}.

Definition unswept_tombs (m : Tombs) : Tombs := filter (fun kv => snd (snd kv) = false) m.

(** [SELECT player_id, handle … WHERE swept_at IS NULL AND player_id >= $1 ORDER BY
    player_id LIMIT $2]; canonical uuid texts compare like the uuids. *)
Definition tomb_le (a b : string * string) : Prop := String.le (fst a) (fst b).

#[global] Instance tomb_le_dec : RelDecision tomb_le.
Proof. intros a b. unfold tomb_le. apply _. Defined.

Definition due_tombs (batch : nat) (watermark : string) (m : Tombs) : list (string * string) :=
  take batch (merge_sort tomb_le
    (List.filter (fun uh => bool_decide (String.le watermark (fst uh)))
       ((fun kv => (fst kv, fst (snd kv))) <$> map_to_list (unswept_tombs m)))).

(** The ids swept so far are marked. *)
Definition marked (u : string) (m : Tombs) : Tombs := alter (fun t => (fst t, true)) u m.

Section Loop.
Context {S : Type} `{Sweep S}.

(** One batch; [elapsed n] tells whether the budget was spent after the [n]th player
    of the fire. *)
Fixpoint purge_batch (elapsed : nat → bool) (n : nat) (l : list (string * string)) : ST S SqlError (nat * bool) :=
  match l with
  | [] => mret (n, false)
  | (player, handle) :: l' =>
      _ ← purge_one player handle;
      if elapsed n then mret (Datatypes.S n, true) else purge_batch elapsed (Datatypes.S n) l'
  end.

(** The loop over batches; [None] is out of fuel. *)
Fixpoint purge_loop (elapsed : nat → bool) (batch fuel n : nat) (watermark : string) (s : S)
  : option (S * result SqlError unit) :=
  match fuel with
  | O => None
  | Datatypes.S fuel' =>
      let due := due_tombs batch watermark (tombs s) in
      match purge_batch elapsed n due s with
      | (s', Err e) => Some (s', Err e)
      | (s', Ok (_, true)) => Some (s', Ok ())
      | (s', Ok (n', false)) =>
          if (length due <? batch)%nat then Some (s', Ok ())
          else purge_loop elapsed batch fuel' n' (from_option fst watermark (last due)) s'
      end
  end.

Definition purge_sweep (elapsed : nat → bool) (batch : nat) (s : S) : option (S * result SqlError unit) :=
  purge_loop elapsed batch (Datatypes.S (size (tombs s))) 0 NIL_UUID s.
End Loop.

(** What a module promises of its work for one player. *)
Class SweepLaws `{PgUuid} (S : Type) `{Sweep S} := {
  purged_of : string → string → S → S;
  purge_one_run : ∀ u h s, uuid_in u = Some u → purge_one u h s = (purged_of u h s, Ok ());
  purged_of_tombs : ∀ u h s, tombs (purged_of u h s) = marked u (tombs s);
}.

Section SweepRun.
Context `{PgUuid} {S : Type} `{Sweep S} `{!SweepLaws S}.

Definition purge_all (s : S) (l : list (string * string)) : S :=
  foldl (fun s uh => purged_of (fst uh) (snd uh) s) s l.

Lemma unswept_lookup_1 m u h : unswept_tombs m !! u = Some (h, false) → m !! u = Some (h, false).
Proof. unfold unswept_tombs. rewrite map_lookup_filter_Some. naive_solver. Qed.

Lemma unswept_lookup_2 m u h : m !! u = Some (h, false) → unswept_tombs m !! u = Some (h, false).
Proof. unfold unswept_tombs. rewrite map_lookup_filter_Some. naive_solver. Qed.

Lemma unswept_swept_false m u h b : unswept_tombs m !! u = Some (h, b) → b = false.
Proof. unfold unswept_tombs. rewrite map_lookup_filter_Some. naive_solver. Qed.

Lemma unswept_marked u m : unswept_tombs (marked u m) = delete u (unswept_tombs m).
Proof.
  unfold unswept_tombs, marked. apply map_eq. intros k. apply option_eq. intros t.
  rewrite lookup_delete_Some, !map_lookup_filter_Some. destruct (decide (u = k)) as [->|Hne].
  - rewrite lookup_alter_eq. destruct (m !! k); naive_solver.
  - rewrite lookup_alter_ne by done. naive_solver.
Qed.

Lemma unswept_purge_all l s u h :
  (unswept_tombs (tombs (purge_all s l)) !! u = Some (h, false))
  ↔ unswept_tombs (tombs s) !! u = Some (h, false) ∧ u ∉ l.*1.
Proof.
  revert s. induction l as [|[v k] l IH]; intros s; [simpl; set_solver|]. unfold purge_all in *. simpl.
  rewrite IH, purged_of_tombs, unswept_marked, lookup_delete_Some, not_elem_of_cons. naive_solver.
Qed.

Lemma purge_all_size l s :
  NoDup l.*1 → (∀ u h, (u, h) ∈ l → unswept_tombs (tombs s) !! u = Some (h, false)) →
  (size (unswept_tombs (tombs (purge_all s l))) + length l = size (unswept_tombs (tombs s)))%nat.
Proof.
  revert s. induction l as [|[v k] l IH]; intros s Hnd Hl; [unfold purge_all; simpl; lia|].
  apply NoDup_cons in Hnd as [Hv Hnd]. pose proof (Hl v k ltac:(by left)) as Hvk.
  change (purge_all s ((v, k) :: l)) with (purge_all (purged_of v k s) l).
  pose proof (IH (purged_of v k s) Hnd) as IH'. rewrite purged_of_tombs, unswept_marked in IH'.
  rewrite (map_size_delete_Some v (unswept_tombs (tombs s))) in IH' by eauto.
  assert (0 < size (unswept_tombs (tombs s)))%nat.
  { apply Nat.neq_0_lt_0. intros E%map_size_empty_inv. by rewrite E in Hvk. }
  simpl. enough (Hs : ∀ u h, (u, h) ∈ l → delete v (unswept_tombs (tombs s)) !! u = Some (h, false)) by (specialize (IH' Hs); lia).
  intros u h Hu. rewrite lookup_delete_ne; [apply Hl; by right|]. intros <-. apply Hv. by apply (list_elem_of_fmap_2 fst _ (v, h)).
Qed.

Lemma purge_all_tombs l s u t : tombs (purge_all s l) !! u = Some t → is_Some (tombs s !! u).
Proof.
  revert s. induction l as [|[v k] l IH]; intros s Hu; [by eexists|].
  destruct (IH (purged_of v k s) Hu) as [t' Ht]. rewrite purged_of_tombs in Ht. unfold marked in Ht.
  apply lookup_alter_Some in Ht as [(_ & x & Hx & _)|[_ Hx]]; by eexists.
Qed.

(** One batch purges a non-empty prefix of its players, all of them unless the
    budget runs out. *)
Lemma purge_batch_run elapsed n l s :
  Forall (fun uh => uuid_in (fst uh) = Some (fst uh)) l →
  ∃ k stop, purge_batch elapsed n l s = (purge_all s (take k l), Ok ((n + k)%nat, stop))
    ∧ (k ≤ length l)%nat ∧ (l ≠ [] → 0 < k)%nat ∧ (stop = false → k = length l)
    ∧ (stop = true → ∃ i, elapsed i = true).
Proof.
  intros Hl. revert n s. induction Hl as [|[u h] l Hu Hl IH]; intros n s; simpl.
  { exists 0%nat, false. split; [by rewrite Nat.add_0_r|]. naive_solver. }
  rewrite (st_bind_run _ _ _ _ _ (purge_one_run u h s Hu)). destruct (elapsed n) eqn:Ee.
  - exists 1%nat, true. split; [by replace (n + 1)%nat with (Datatypes.S n) by lia|]. split; [lia|]. naive_solver lia.
  - destruct (IH (Datatypes.S n) (purged_of u h s)) as (k & stop & E & Hk & _ & Hs & Ht). exists (Datatypes.S k), stop.
    rewrite E. split; [by replace (Datatypes.S n + k)%nat with (n + Datatypes.S k)%nat by lia|]. split; [simpl; lia|].
    split; [lia|]. split; [|done]. intros Hstop. simpl. by rewrite Hs.
Qed.

#[local] Instance tomb_le_trans : Transitive tomb_le.
Proof. intros a b c. unfold tomb_le. apply transitivity. Qed.
#[local] Instance tomb_le_total : Total tomb_le.
Proof. intros a b. unfold tomb_le. apply (total String.le). Qed.

(** A batch: distinct unswept tombstones from the watermark on, the least first; short
    only when none is left. *)
Lemma due_tombs_spec batch w m :
  NoDup (due_tombs batch w m).*1
  ∧ (∀ u h, (u, h) ∈ due_tombs batch w m → unswept_tombs m !! u = Some (h, false) ∧ String.le w u)
  ∧ (∀ u h, unswept_tombs m !! u = Some (h, false) → String.le w u → (u, h) ∈ due_tombs batch w m ∨
       (length (due_tombs batch w m) = batch ∧ ∀ v, v ∈ due_tombs batch w m → String.le (fst v) u))
  ∧ StronglySorted tomb_le (due_tombs batch w m).
Proof.
  unfold due_tombs. set (L := List.filter _ _).
  assert (HL : ∀ u h, (u, h) ∈ L ↔ unswept_tombs m !! u = Some (h, false) ∧ String.le w u).
  { intros u h. subst L. rewrite list_elem_of_In, filter_In, <- list_elem_of_In, list_elem_of_fmap, bool_decide_eq_true.
    split.
    - intros [([k [h' b]] & E & Hin%elem_of_map_to_list) Hle]. injection E as -> ->.
      by rewrite (unswept_swept_false _ _ _ _ Hin) in Hin.
    - intros [Hu Hle]. split; [|done]. exists (u, (h, false)). by rewrite elem_of_map_to_list. }
  assert (Hnd : NoDup L.*1).
  { subst L. eapply sublist_NoDup; [|apply fmap_sublist, filter_sublist]. rewrite <- list_fmap_compose.
    rewrite (list_fmap_ext (fst ∘ (fun kv : string * (string * bool) => (fst kv, fst (snd kv)))) fst) by done.
    apply NoDup_fst_map_to_list. }
  clearbody L. assert (Hperm : merge_sort tomb_le L ≡ₚ L) by apply merge_sort_Permutation.
  assert (Hsort : StronglySorted tomb_le (merge_sort tomb_le L)) by (apply StronglySorted_merge_sort; apply _).
  generalize dependent (merge_sort tomb_le L). intros T Hperm Hsort.
  assert (Hin : ∀ u h, (u, h) ∈ T ↔ unswept_tombs m !! u = Some (h, false) ∧ String.le w u) by (intros u h; by rewrite Hperm).
  rewrite <- (take_drop batch T) in Hsort, Hin.
  split; [eapply sublist_NoDup; [|apply fmap_sublist, sublist_take]; by rewrite Hperm|]. split; [|split].
  - intros u h Hu. apply Hin, elem_of_app. by left.
  - intros u h Hu Hle. destruct (proj1 (elem_of_app _ _ _) (proj2 (Hin u h) (conj Hu Hle))) as [Hd|Hd]; [by left|right]. split.
    + apply length_take_le. assert (drop batch T ≠ []) by (intros E; rewrite E in Hd; by apply elem_of_nil in Hd).
      apply Nat.lt_le_incl, Nat.nle_gt. intros Hlt. by rewrite drop_ge in * by done.
    + intros v Hv. exact (StronglySorted_app_1_elem_of _ _ _ v (u, h) Hsort Hv Hd).
  - by apply StronglySorted_app_1_l in Hsort.
Qed.

(** The loop: with one unit of fuel per unswept tombstone and one more it ends,
    having purged some of them (one at least, all if the budget lasts). *)
Lemma purge_loop_run elapsed batch fuel n w s :
  (0 < batch)%nat → (size (unswept_tombs (tombs s)) < fuel)%nat →
  (∀ u t, tombs s !! u = Some t → uuid_in u = Some u) →
  (∀ u h, unswept_tombs (tombs s) !! u = Some (h, false) → String.le w u) →
  ∃ l, purge_loop elapsed batch fuel n w s = Some (purge_all s l, Ok ())
    ∧ (∀ u h, (u, h) ∈ l → tombs s !! u = Some (h, false))
    ∧ (unswept_tombs (tombs s) ≠ ∅ → l ≠ [])
    ∧ ((∀ i, elapsed i = false) → ∀ u h, tombs s !! u = Some (h, false) → (u, h) ∈ l).
Proof.
  intros Hb. revert n w s. induction fuel as [|fuel IH]; intros n w s Hf Hcan Hw; [lia|]. simpl.
  set (due := due_tombs batch w (tombs s)).
  destruct (due_tombs_spec batch w (tombs s)) as (Hnd & Hsub' & Hall' & _). fold due in Hnd, Hsub', Hall'.
  assert (Hsub : ∀ u h, (u, h) ∈ due → unswept_tombs (tombs s) !! u = Some (h, false)) by (intros u h Hu; by apply Hsub').
  pose proof (fun u h Hu => Hall' u h Hu (Hw u h Hu)) as Hall. clear Hsub' Hall'.
  assert (Hids : Forall (fun uh => uuid_in (fst uh) = Some (fst uh)) due).
  { apply Forall_forall. intros [u h] Hu%Hsub%unswept_lookup_1. simpl. by eapply Hcan. }
  destruct (purge_batch_run elapsed n due s Hids) as (k & stop & E & Hk & Hpos & Hs & He). rewrite E.
  assert (Hne : unswept_tombs (tombs s) ≠ ∅ → due ≠ []).
  { intros [u [[h b] Hu]]%map_choose Hnil. pose proof (unswept_swept_false _ _ _ _ Hu) as ->.
    destruct (Hall u h Hu) as [Hin|[Hlen _]]; [rewrite Hnil in Hin; by apply elem_of_nil in Hin|].
    rewrite Hnil in Hlen. simpl in Hlen. lia. }
  destruct stop.
  { eexists. split; [done|]. split; [intros u h Hu; apply unswept_lookup_1, Hsub; rewrite <- (take_drop k due); apply elem_of_app; by left|].
    split; [|intros Hi; destruct He as [i Hi']; [done|congruence]].
    intros Hu Hnil. specialize (Hpos (Hne Hu)). apply (f_equal length) in Hnil. rewrite length_take in Hnil. simpl in Hnil. lia. }
  rewrite (Hs eq_refl), take_ge in * by lia. destruct (Nat.ltb_spec (length due) batch) as [Hlt|Hge].
  { exists due. split; [done|]. split; [intros u h Hu; by apply unswept_lookup_1, Hsub|]. split; [done|].
    intros _ u h Hu%unswept_lookup_2. destruct (Hall u h Hu) as [|[Hlen _]]; [done|lia]. }
  destruct (IH (n + length due)%nat (from_option fst w (last due)) (purge_all s due)) as (l & El & Hl & _ & Hfull).
  - pose proof (purge_all_size _ s Hnd Hsub). lia.
  - intros u t [t' Hu]%purge_all_tombs. by eapply Hcan.
  - intros u h [Hu Hnot]%unswept_purge_all. destruct (Hall u h Hu) as [Hin|[_ Hle]]; [by apply (list_elem_of_fmap_2 fst) in Hin|].
    destruct (last due) as [v|] eqn:Elast; simpl; [|by eapply Hw]. apply Hle. by apply last_Some_elem_of.
  - exists (due ++ l). rewrite El. split; [unfold purge_all; by rewrite foldl_app|]. split; [|split].
    + intros u h [Hu|Hu]%elem_of_app; [by apply unswept_lookup_1, Hsub|].
      apply Hl, unswept_lookup_2, unswept_purge_all in Hu as [Hu _]. by apply unswept_lookup_1.
    + intros Hu. specialize (Hne Hu). by destruct due.
    + intros Hi u h Hu. apply elem_of_app. destruct (decide ((u, h) ∈ due)) as [|Hnin]; [by left|right].
      apply Hfull; [done|]. apply unswept_lookup_1, unswept_purge_all. split; [by apply unswept_lookup_2|].
      intros ([v k2] & E1 & Hin)%list_elem_of_fmap. simpl in E1. subst v.
      pose proof (Hsub _ _ Hin) as Hk'. apply unswept_lookup_1 in Hk'. congruence.
Qed.

Lemma purge_sweep_run elapsed batch s :
  (0 < batch)%nat → (∀ u t, tombs s !! u = Some t → uuid_in u = Some u) →
  ∃ l, purge_sweep elapsed batch s = Some (purge_all s l, Ok ())
    ∧ (∀ u h, (u, h) ∈ l → tombs s !! u = Some (h, false))
    ∧ (unswept_tombs (tombs s) ≠ ∅ → l ≠ [])
    ∧ ((∀ i, elapsed i = false) → ∀ u h, tombs s !! u = Some (h, false) → (u, h) ∈ l).
Proof.
  intros Hb Hcan. apply purge_loop_run; [done| |done|].
  - enough (size (unswept_tombs (tombs s)) ≤ size (tombs s))%nat by lia. apply map_subseteq_size, map_filter_subseteq.
  - intros u h Hu%unswept_lookup_1. eapply uuid_in_least. by eapply Hcan.
Qed.
End SweepRun.

(** ** The rows of the swept players

    A table of the module whose rows belong to players, of which purging a player takes
    theirs: what a sweep leaves of it. *)

Section SweptRows.
Context `{PgUuid} {S : Type} `{Sweep S} `{!SweepLaws S} `{Countable K} {R : Type}.
Context (rows : S → gmap K R) (owner : K → R → option string).
Hypothesis purged_of_rows : ∀ u h s k r, rows (purged_of u h s) !! k = Some r ↔ rows s !! k = Some r ∧ owner k r ≠ Some u.

Lemma purge_all_rows l s k r :
  rows (purge_all s l) !! k = Some r ↔ rows s !! k = Some r ∧ ∀ u, owner k r = Some u → u ∉ l.*1.
Proof.
  revert s. induction l as [|[u h] l IH]; intros s; [simpl; set_solver|].
  change (purge_all s ((u, h) :: l)) with (purge_all (purged_of u h s) l). rewrite IH, purged_of_rows. simpl.
  setoid_rewrite not_elem_of_cons. destruct (owner k r) as [v|]; naive_solver.
Qed.

(** What a sweep leaves of the table: it takes only rows of players due, and a player
    stamped has none. *)
Definition swept_clean (elapsed : nat → bool) (s s' : S) : Prop :=
  (∀ k r, rows s' !! k = Some r → rows s !! k = Some r) ∧
  (∀ k r, rows s !! k = Some r → rows s' !! k = None → ∃ u h, owner k r = Some u ∧ tombs s !! u = Some (h, false)) ∧
  (∀ u h, tombs s !! u = Some (h, false) → tombs s' !! u ≠ Some (h, false) → ∀ k r, rows s' !! k = Some r → owner k r ≠ Some u) ∧
  ((∀ i, elapsed i = false) → ∀ u h, tombs s' !! u ≠ Some (h, false)).

Lemma purge_sweep_rows elapsed batch s :
  (0 < batch)%nat → (∀ u t, tombs s !! u = Some t → uuid_in u = Some u) →
  ∃ l, purge_sweep elapsed batch s = Some (purge_all s l, Ok ()) ∧ (∀ u h, (u, h) ∈ l → tombs s !! u = Some (h, false)) ∧
    swept_clean elapsed s (purge_all s l).
Proof.
  intros Hb Hcan. destruct (purge_sweep_run elapsed batch s Hb Hcan) as (l & E & Hl & _ & Hall). exists l. split_and!; [done|done|].
  split_and!.
  - intros k r [Hr _]%purge_all_rows. done.
  - intros k r Hr Hn. destruct (owner k r) as [u|] eqn:Eo.
    2:{ exfalso. rewrite (proj2 (purge_all_rows l s k r)) in Hn; [done|]. split; [done|]. intros u Hu. congruence. }
    destruct (decide (u ∈ l.*1)) as [([v h] & -> & Hin)%list_elem_of_fmap|Hnot]; [exists v, h; split; [done|by apply Hl]|].
    exfalso. rewrite (proj2 (purge_all_rows l s k r)) in Hn; [done|]. split; [done|]. intros v Hv. by replace v with u by congruence.
  - intros u h Hu Hu' k r [_ Hr]%purge_all_rows Ho. apply Hu', unswept_lookup_1, unswept_purge_all.
    split; [by apply unswept_lookup_2|by apply Hr].
  - intros He u h Hu. apply unswept_lookup_2, unswept_purge_all in Hu as [Hu%unswept_lookup_1 Hnot]. apply Hnot.
    specialize (Hall He u h Hu). by apply (list_elem_of_fmap_2 fst) in Hall.
Qed.
End SweptRows.
