(* ===== verification/Prune.v ===== *)
(** * Prune: the batched retention sweep

    The scheduled prunes of [modules/groups], [modules/mail] and
    [modules/notifications] are one loop: delete the oldest stale rows in batches, each
    resuming at the highest creation time of the one before, until a batch is short or
    the time budget is spent.  The table, the test of staleness and what deleting a
    batch does are the module's. *)

From stdpp Require Import sorting.
From S2P Require Import Prelude.
#[local] Open Scope Z_scope.

Section Prune.
Context `{Countable K} {R D : Type}.
Context (created : R → Z) (stale : R → bool) (limit : nat).
Context (rows : D → gmap K R) (remove : list (K * R) → D → D).

Definition older (a b : K * R) : Prop := created (snd a) ≤ created (snd b).

#[global] Instance older_dec : RelDecision older.
Proof. intros a b. unfold older. apply _. Defined.

(** The stale rows not below the watermark (none is [-infinity]); the rows another
    transaction holds ([busy]) are skipped. *)
Definition stale_rows (watermark : option Z) (busy : K → bool) (d : D) : list (K * R) :=
  List.filter (fun r => stale (snd r) && (match watermark with Some w => w <=? created (snd r) | None => true end) && negb (busy (fst r)))
    (map_to_list (rows d)).

Definition stale_batch (watermark : option Z) (busy : K → bool) (d : D) : list (K * R) :=
  take limit (merge_sort older (stale_rows watermark busy d)).

(** The highest creation time of a batch. *)
Definition high_water (l : list (K * R)) : option Z :=
  foldr (fun r acc => Some (match acc with Some z => Z.max (created (snd r)) z | None => created (snd r) end)) None l.

(** The loop over batches in the delivery's transaction; [elapsed n] tells whether the
    budget was spent after the [n]th batch, [busy n] which rows were held then.  [None]
    is out of fuel. *)
Fixpoint prune_loop (busy : nat → K → bool) (elapsed : nat → bool) (fuel n : nat) (watermark : option Z) (d : D) : option D :=
  match fuel with
  | O => None
  | S fuel' =>
      let batch := stale_batch watermark (busy n) d in
      let d' := remove batch d in
      if (length batch <? limit)%nat then Some d'
      else if elapsed n then Some d'
      else prune_loop busy elapsed fuel' (S n) (match high_water batch with Some h => Some h | None => watermark end) d'
  end.

Definition prune (busy : nat → K → bool) (elapsed : nat → bool) (d : D) : option D :=
  prune_loop busy elapsed (S (size (rows d))) 0 None d.

(** ** The loop ends, and what it leaves *)

#[local] Instance older_trans : Transitive older.
Proof. intros a b c. unfold older. lia. Qed.
#[local] Instance older_total : Total older.
Proof. intros a b. unfold older. lia. Qed.

Lemma stale_rows_elem w busy d k r :
  (k, r) ∈ stale_rows w busy d ↔
  rows d !! k = Some r ∧ stale r = true ∧ (∀ z, w = Some z → z ≤ created r) ∧ busy k = false.
Proof.
  unfold stale_rows. rewrite list_elem_of_In, filter_In, <- list_elem_of_In, elem_of_map_to_list. simpl.
  rewrite !andb_true_iff, negb_true_iff. destruct w as [z|]; [rewrite Z.leb_le|]; naive_solver.
Qed.

Lemma stale_rows_nodup w busy d : NoDup (stale_rows w busy d).*1.
Proof. apply NoDup_keys_filter, NoDup_fst_map_to_list. Qed.

Lemma stale_batch_spec w busy d :
  let b := stale_batch w busy d in
  NoDup b.*1 ∧ (∀ k r, (k, r) ∈ b → (k, r) ∈ stale_rows w busy d) ∧
  (∀ k r, (k, r) ∈ stale_rows w busy d → (k, r) ∈ b ∨ (length b = limit ∧ ∀ x, x ∈ b → created x.2 ≤ created r)).
Proof.
  unfold stale_batch. pose proof (stale_rows_nodup w busy d) as Hnd. generalize dependent (stale_rows w busy d). intros L Hnd.
  assert (Hperm : merge_sort older L ≡ₚ L) by apply merge_sort_Permutation.
  assert (Hsort : StronglySorted older (merge_sort older L)) by (apply StronglySorted_merge_sort; apply _).
  generalize dependent (merge_sort older L). intros T Hperm Hsort. cbv zeta.
  split_and!.
  - eapply sublist_NoDup; [|apply fmap_sublist, sublist_take]. by rewrite Hperm.
  - intros k r Hk. rewrite <- Hperm, <- (take_drop limit T). apply elem_of_app. by left.
  - intros k r. rewrite <- Hperm, <- (take_drop limit T) at 1. intros [Hk|Hk]%elem_of_app; [by left|right]. split.
    + apply length_take_le. assert (drop limit T ≠ []) by (intros E; rewrite E in Hk; by apply elem_of_nil in Hk).
      apply Nat.lt_le_incl, Nat.nle_gt. intros Hle. by rewrite drop_ge in * by done.
    + intros x Hx. rewrite <- (take_drop limit T) in Hsort. exact (StronglySorted_app_1_elem_of _ _ _ x (k, r) Hsort Hx Hk).
Qed.

Lemma size_delete_all (m : gmap K R) l :
  NoDup l → (∀ k, k ∈ l → is_Some (m !! k)) → (size (foldr delete m l) + length l = size m)%nat.
Proof.
  induction 1 as [|k l Hk Hnd IH]; intros Hl; simpl; [lia|].
  assert (Hs : is_Some (foldr delete m l !! k)) by (rewrite foldr_delete_lookup, decide_False by done; apply Hl; by left).
  rewrite map_size_delete_Some by done. rewrite <- IH by (intros; apply Hl; by right).
  assert (0 < size (foldr delete m l))%nat; [|lia]. apply Nat.neq_0_lt_0. intros E%map_size_empty_inv. rewrite E in Hs. by destruct Hs.
Qed.

Lemma high_water_le l z b : high_water l = Some z → (∀ y, y ∈ l → created y.2 ≤ b) → z ≤ b.
Proof.
  revert z. induction l as [|x l IH]; simpl; [done|]. intros z [= <-] Hb.
  pose proof (Hb x ltac:(by left)). destruct (high_water l) as [z|] eqn:E; [|done].
  pose proof (IH z eq_refl ltac:(intros y Hy; apply Hb; by right)). lia.
Qed.

(** What deleting a batch does to the table. *)
Hypothesis remove_rows : ∀ b d, rows (remove b d) = foldr delete (rows d) b.*1.
Hypothesis limit_pos : (0 < limit)%nat.

Definition removes (d d' : D) : Prop := ∃ w busy, d' = remove (stale_batch w busy d) d.

Lemma removed_row w busy d k r :
  rows (remove (stale_batch w busy d) d) !! k = Some r → rows d !! k = Some r ∧ (k, r) ∉ stale_batch w busy d.
Proof.
  rewrite remove_rows, foldr_delete_lookup. destruct (decide _) as [|Hn]; [done|]. intros Hr. split; [done|].
  intros Hin. apply Hn. by apply (list_elem_of_fmap_2 fst _ (k, r)).
Qed.

Lemma removed_stale w busy d k r :
  rows d !! k = Some r → rows (remove (stale_batch w busy d) d) !! k = None → stale r = true.
Proof.
  intros Hr Hn. rewrite remove_rows, foldr_delete_lookup in Hn. destruct (decide _) as [Hk|]; [|congruence].
  apply list_elem_of_fmap in Hk as ([k' r'] & -> & Hk). simpl in *.
  apply (stale_batch_spec w busy d), stale_rows_elem in Hk. naive_solver.
Qed.

(** Every stale row is above the watermark, or was held by somebody. *)
Definition reached (busy : nat → K → bool) (w : option Z) (d : D) : Prop :=
  ∀ k r, rows d !! k = Some r → stale r = true → (∀ z, w = Some z → z ≤ created r) ∨ ∃ n, busy n k = true.

Lemma batch_leaves busy w n d k r :
  reached busy w d → let b := stale_batch w (busy n) d in
  rows (remove b d) !! k = Some r → stale r = true →
  (∃ i, busy i k = true) ∨ (length b = limit ∧ ∀ x, x ∈ b → created x.2 ≤ created r).
Proof.
  intros Hw b [Hr Hnb]%removed_row Hs. destruct (Hw k r Hr Hs) as [Hz|Hb]; [|by left]. destruct (busy n k) eqn:Eb; [left; eauto|right].
  destruct (stale_batch_spec w (busy n) d) as (_ & _ & Hall). destruct (Hall k r) as [|?]; [by apply stale_rows_elem|done|done].
Qed.

Lemma batch_shrinks w busy d :
  let b := stale_batch w busy d in (size (rows (remove b d)) + length b = size (rows d))%nat.
Proof.
  intros b. rewrite remove_rows, <- (length_fmap fst b). destruct (stale_batch_spec w busy d) as (Hnd & Hin & _). apply size_delete_all; [done|].
  intros k ([k' r] & -> & Hk%Hin%stale_rows_elem)%list_elem_of_fmap. naive_solver.
Qed.

(** The loop ends, by removals of batches alone; unless the budget ends it, it reaches
    every stale row. *)
Lemma prune_loop_run busy elapsed fuel n w d :
  (size (rows d) < fuel)%nat → reached busy w d →
  ∃ d', prune_loop busy elapsed fuel n w d = Some d' ∧ rtc removes d d' ∧
    (∀ k r, rows d' !! k = Some r → rows d !! k = Some r) ∧
    (∀ k r, rows d !! k = Some r → rows d' !! k = None → stale r = true) ∧
    ((∀ i, elapsed i = false) → ∀ k r, rows d' !! k = Some r → stale r = true → ∃ i, busy i k = true).
Proof.
  revert n w d. induction fuel as [|fuel IH]; intros n w d Hf Hw; [lia|]. cbn [prune_loop].
  pose proof (batch_shrinks w (busy n) d) as Hsize. pose proof (removed_row w (busy n) d) as Hrow.
  pose proof (removed_stale w (busy n) d) as Hgone. pose proof (λ k r, batch_leaves busy w n d k r Hw) as Hleft. cbv zeta in *.
  assert (Hstep : rtc removes d (remove (stale_batch w (busy n) d) d)) by (apply rtc_once; by exists w, (busy n)).
  set (b := stale_batch w (busy n) d) in *.
  destruct (Nat.ltb_spec (length b) limit) as [Hlt|Hge].
  { exists (remove b d). split_and!; [done|done|naive_solver|done|]. intros _ k r Hr Hs. destruct (Hleft k r Hr Hs) as [?|[? _]]; [done|lia]. }
  destruct (elapsed n) eqn:Ee.
  { exists (remove b d). split_and!; [done|done|naive_solver|done|]. intros He. by rewrite He in Ee. }
  destruct (IH (S n) (match high_water b with Some h => Some h | None => w end) (remove b d)) as (d' & E & Hr & Hk & Hg & Hc).
  - lia.
  - intros k r Hk Hs. destruct (Hleft k r Hk Hs) as [?|[_ Hle]]; [by right|left]. intros z Hz.
    destruct (high_water b) as [h|] eqn:Eh; [injection Hz as <-; by eapply high_water_le|].
    destruct b as [|x b']; [simpl in *; lia|done].
  - exists d'. split_and!; [done|by etrans|naive_solver| |done]. intros k r Hkr Hn.
    destruct (rows (remove b d) !! k) as [r'|] eqn:E1; [|by eapply Hgone]. destruct (Hrow k r' E1) as [E2 _].
    rewrite Hkr in E2. injection E2 as <-. by eapply Hg.
Qed.

Lemma prune_run busy elapsed d :
  ∃ d', prune busy elapsed d = Some d' ∧ rtc removes d d' ∧
    (∀ k r, rows d' !! k = Some r → rows d !! k = Some r) ∧
    (∀ k r, rows d !! k = Some r → rows d' !! k = None → stale r = true) ∧
    ((∀ i, elapsed i = false) → ∀ k r, rows d' !! k = Some r → stale r = true → ∃ i, busy i k = true).
Proof. apply prune_loop_run; [lia|]. intros k r _ _. by left. Qed.
End Prune.
