(* ===== verification/Txn.v ===== *)
(** * Txn: a module's transactions among those of others

    A task of a module runs statements against tables that other tasks change between
    them.  A read sees what is committed when it runs; the writes of a transaction and
    its commit are one step on what is committed then; advisory locks keep out the
    transactions that take the same locks.  Any statement can fail, and a commit can
    lose its answer.

    The second half is a logic for such tasks.  A module gives the causes a change of
    its tables can have, an invariant the causes keep and the locks each takes; then
    [tri P Φ m Ψ] says that the task [m], started where [Φ] holds, changes the tables
    only by causes in [P], whatever the others do within what the locks admit. *)

From S2P Require Import Prelude Pg.
#[local] Open Scope Z_scope.

Inductive Fate := Answers | Down | ReplyLost.

(** What the others do before a statement, and what becomes of the statement. *)
Record World (D : Type) := mkWorld {
  meanwhile : nat → list Z → D → D;
  fate : nat → Fate;
  now_at : nat → Z;
}.
Arguments mkWorld {D}.
Arguments meanwhile {D}.
Arguments fate {D}.
Arguments now_at {D}.

Record Task (D : Type) := mkTask { db : D; tick : nat; locks : list Z }.
Arguments mkTask {D}.
Arguments db {D}.
Arguments tick {D}.
Arguments locks {D}.

Section Tasks.
Context {D : Type} (w : World D).
Abbreviation M := (ST (Task D)).

(** What is committed when the next statement runs. *)
Definition seen (s : Task D) : D := meanwhile w (tick s) (locks s) (db s).

(** Time passes with every statement. *)
Definition clock {E} : M E Z := gets (fun s => now_at w (tick s)).

(** A statement that only reads, on the pool or in the open transaction. *)
Definition reading {E A} (down : E) (f : SqlError → E) (m : ST D SqlError A) : M E A := fun s =>
  let d := seen s in
  (mkTask d (S (tick s)) (locks s),
   match fate w (tick s) with Answers => map_err f (snd (m d)) | _ => Err down end).

(** [pg_advisory_xact_lock]: waits for the lock, then holds it. *)
Definition locking {E} (down : E) (key : Z) : M E unit := fun s =>
  let d := seen s in
  match fate w (tick s) with
  | Answers => (mkTask d (S (tick s)) (key :: locks s), Ok ())
  | _ => (mkTask d (S (tick s)) (locks s), Err down)
  end.

(** The writes that end a transaction, and its commit.  Between two of the writes
    others can only do what they could have done before the first, since the rows
    written are locked. *)
Definition committing {E A} (down : E) (m : nat → ST D E A) : M E A := fun s =>
  let d := seen s in
  match fate w (tick s), m (tick s) d with
  | Answers, (d', Ok a) => (mkTask d' (S (tick s)) (locks s), Ok a)
  | Answers, (_, Err e) => (mkTask d (S (tick s)) (locks s), Err e)
  | Down, _ => (mkTask d (S (tick s)) (locks s), Err down)
  | ReplyLost, (d', Ok _) => (mkTask d' (S (tick s)) (locks s), Err down)
  | ReplyLost, (_, Err e) => (mkTask d (S (tick s)) (locks s), Err e)
  end.

(** A transaction releases its locks however it ends. *)
Definition in_tx {E A} (m : M E A) : M E A := fun s =>
  let '(s', r) := m s in (mkTask (db s') (tick s') [], r).

(** A call that leaves the process and leaves the tables alone. *)
Definition away {E A} (call : nat → result E A) : M E A := fun s =>
  (mkTask (seen s) (S (tick s)) (locks s), call (tick s)).
End Tasks.

(** ** Causes *)

(** A condition of a cause. *)
Definition check (P : Prop) `{Decision P} : option unit := if decide P then Some () else None.

Lemma check_some {A} (P : Prop) `{Decision P} (k : option A) a : (check P;; k) = Some a ↔ P ∧ k = Some a.
Proof. unfold check. case_decide; simpl; naive_solver. Qed.

Lemma check_run {A} (P : Prop) `{Decision P} (k : option A) : P → (check P;; k) = k.
Proof. intros HP. unfold check. by rewrite decide_True. Qed.

(** How the tables of a module can change. *)
Class Causes (D C : Type) := {
  does : C → D → option D;
  locks_of : C → list Z;
  sound : D → Prop;
  sound_does : ∀ c d d', sound d → does c d = Some d' → sound d';
}.

Section Logic.
Context {D C : Type} `{!Causes D C} (w : World D).

(** What the other tasks are up to, whatever that is. *)
Variable Q : C → Prop.

(** A transaction of somebody else, which cannot take the locks held here. *)
Definition others (L : list Z) (d d' : D) : Prop :=
  ∃ c, Q c ∧ does c d = Some d' ∧ Forall (fun k => k ∉ L) (locks_of c).

Hypothesis meanwhile_others : ∀ t L d, rtc (others L) d (meanwhile w t L d).

Lemma others_sound L d d' : rtc (others L) d d' → sound d → sound d'.
Proof. induction 1 as [|d d1 d' (c & _ & E & _) _ IH]; [done|]. intros Hd. apply IH. by eapply sound_does. Qed.

Lemma others_fewer L L' d d' : L ⊆ L' → rtc (others L') d d' → rtc (others L) d d'.
Proof.
  intros HL. apply rtc_subrel. intros x y (c & Hq & E & Hc). exists c. split_and!; [done|done|].
  eapply Forall_impl; [exact Hc|]. set_solver.
Qed.

(** A fact the locks keep true. *)
Definition stable (L : list Z) (F : D → Prop) : Prop := ∀ d d', sound d → F d → others L d d' → F d'.

Lemma stable_run L F d d' : stable L F → sound d → F d → rtc (others L) d d' → F d'.
Proof.
  intros HF Hd H0 Hr. revert Hd H0. induction Hr as [|d d1 d' Ho _ IH]; [done|]. intros Hd H0.
  apply IH; [|by eapply HF]. eapply others_sound; [by apply rtc_once|done].
Qed.

Lemma stable_true L : stable L (fun _ => True).
Proof. done. Qed.

Lemma stable_and L F G : stable L F → stable L G → stable L (fun d => F d ∧ G d).
Proof. intros HF HG d d' Hd [? ?] Ho. split; [by eapply HF|by eapply HG]. Qed.

Lemma stable_more L L' F : L ⊆ L' → stable L F → stable L' F.
Proof.
  intros HL HF d d' Hd H0 (c & Hq & E & Hc). eapply HF; [done|done|]. exists c. split_and!; [done|done|].
  eapply Forall_impl; [exact Hc|]. set_solver.
Qed.

(** ** Triples *)

Definition own (P : C → Prop) (d d' : D) : Prop := (∃ c, P c ∧ does c d = Some d') ∨ others [] d d'.

Lemma own_sound P d d' : rtc (own P) d d' → sound d → sound d'.
Proof. induction 1 as [|d d1 d' [(c & _ & E)|(c & _ & E & _)] _ IH]; [done|..]; intros Hd; apply IH; by eapply sound_does. Qed.

Lemma own_others P L d d' : rtc (others L) d d' → rtc (own P) d d'.
Proof. intros Ho%(others_fewer []); [|set_solver]. revert Ho. apply rtc_subrel. intros x y Hx. by right. Qed.

Definition tri {E A} (P : C → Prop) (Φ : Task D → Prop) (m : ST (Task D) E A) (Ψ : A → Task D → Prop) : Prop :=
  ∀ s s' r, sound (db s) → Φ s → m s = (s', r) → rtc (own P) (db s) (db s') ∧ ∀ a, r = Ok a → Ψ a s'.

(** Some locks are held and a fact they keep is known. *)
Definition holding (L : list Z) (F : D → Prop) (s : Task D) : Prop := L ⊆ locks s ∧ F (db s).

Lemma seen_own P L F s : stable L F → sound (db s) → holding L F s → rtc (own P) (db s) (seen w s) ∧ sound (seen w s) ∧ F (seen w s).
Proof.
  intros HF Hd [HL H0]. pose proof (meanwhile_others (tick s) (locks s) (db s)) as Ho. unfold seen. split_and!.
  - by eapply own_others.
  - by eapply others_sound.
  - eapply stable_run; [exact HF|done|done|]. by eapply others_fewer.
Qed.

Lemma tri_bind {E A B} P Φ (m : ST (Task D) E A) (k : A → ST (Task D) E B) Ψ Ω :
  tri P Φ m Ψ → (∀ a, tri P (Ψ a) (k a) Ω) → tri P Φ (m ≫= k) Ω.
Proof.
  intros Hm Hk s s' r Hd Hs [(e & E1 & ->)|(s1 & a & E1 & E2)]%st_bind_inv.
  - destruct (Hm _ _ _ Hd Hs E1) as [Hr _]. by split.
  - destruct (Hm _ _ _ Hd Hs E1) as [Hr Hp]. destruct (Hk a _ _ _ (own_sound _ _ _ Hr Hd) (Hp a eq_refl) E2) as [Hr' Hp'].
    split; [by etrans|done].
Qed.

(** What follows relies on nothing. *)
Lemma tri_seq {E A B} P Φ (m : ST (Task D) E A) (k : A → ST (Task D) E B) :
  tri P Φ m (fun _ _ => True) → (∀ a, tri P (fun _ => True) (k a) (fun _ _ => True)) → tri P Φ (m ≫= k) (fun _ _ => True).
Proof. intros Hm Hk. by apply (tri_bind _ _ _ _ _ _ Hm). Qed.

Lemma tri_pre {E A} P Φ Φ' (m : ST (Task D) E A) Ψ : (∀ s, Φ s → Φ' s) → tri P Φ' m Ψ → tri P Φ m Ψ.
Proof. intros Hi Hm s s' r Hd Hs. apply Hm; auto. Qed.

Lemma tri_pure {E A} (X : Prop) P Φ (m : ST (Task D) E A) Ψ : (X → tri P Φ m Ψ) → tri P (fun s => X ∧ Φ s) m Ψ.
Proof. intros Hm s s' r Hd [Hx Hs]. by apply Hm. Qed.

Lemma tri_post {E A} P Φ (m : ST (Task D) E A) Ψ Ψ' : (∀ a s, Ψ a s → Ψ' a s) → tri P Φ m Ψ → tri P Φ m Ψ'.
Proof. intros Hi Hm s s' r Hd Hs Em. destruct (Hm _ _ _ Hd Hs Em) as [Hr Hp]. split; [done|]. eauto. Qed.

Lemma tri_fail {E A} P Φ (e : E) (Ψ : A → Task D → Prop) : tri P Φ (fail e) Ψ.
Proof. by intros s s' r _ _ [= <- <-]. Qed.

Lemma tri_ret {E A} P Φ (a : A) (Ψ : A → Task D → Prop) : (∀ s, Φ s → Ψ a s) → tri P Φ (mret a : ST (Task D) E A) Ψ.
Proof. intros Hi s s' r _ Hs [= <- <-]. split; [done|]. intros ? [= <-]. auto. Qed.

Lemma tri_lift_bind {E A B} P Φ (x : result E A) (k : A → ST (Task D) E B) Ω :
  (∀ a, x = Ok a → tri P Φ (k a) Ω) → tri P Φ (lift x ≫= k) Ω.
Proof.
  intros Hk s s' r Hd Hs. unfold mbind, ST_bind, lift. destruct x as [a|e]; [by apply Hk|]. by intros [= <- <-].
Qed.

Lemma tri_lift {E A} P Φ (x : result E A) : tri P Φ (lift x) (fun _ _ => True).
Proof. by intros s s' r _ _ [= <- <-]. Qed.

Lemma tri_clock_bind {E B} P Φ (k : Z → ST (Task D) E B) Ω : (∀ now, tri P Φ (k now) Ω) → tri P Φ (clock w ≫= k) Ω.
Proof. intros Hk s s' r Hd Hs. unfold mbind, ST_bind, clock, gets. by apply Hk. Qed.

Lemma tri_away {E A} P L F (call : nat → result E A) :
  stable L F → tri P (holding L F) (away w call) (fun _ => holding L F).
Proof.
  intros HF s s' r Hd Hs [= <- <-]. destruct (seen_own P L F s HF Hd Hs) as (Ho & _ & H0). split; [done|].
  intros a _. split; [apply Hs|done].
Qed.

Lemma tri_away_bind {E A B} P L F (call : nat → result E A) (k : A → ST (Task D) E B) Ω :
  stable L F → (∀ t a, call t = Ok a → tri P (holding L F) (k a) Ω) → tri P (holding L F) (away w call ≫= k) Ω.
Proof.
  intros HF Hk s s' r Hd Hs. destruct (seen_own P L F s HF Hd Hs) as (Ho & Hd1 & H0). unfold mbind, ST_bind, away.
  destruct (call (tick s)) as [a|e] eqn:Ec; [|by intros [= <- <-]]. intros E2.
  destruct (Hk _ a Ec (mkTask (seen w s) (S (tick s)) (locks s)) s' r Hd1 (conj (proj1 Hs) H0) E2) as [Hr Hp]. split; [by etrans|done].
Qed.

Lemma tri_locking {E} P L F (down : E) key : stable L F → tri P (holding L F) (locking w down key) (fun _ => holding (key :: L) F).
Proof.
  intros HF s s' r Hd Hs. unfold locking. destruct (seen_own P L F s HF Hd Hs) as (Ho & _ & H0). destruct Hs as [HL _].
  destruct (fate w (tick s)); intros [= <- <-]; (split; [done|]); try done. intros _ _. split; [simpl; set_solver|done].
Qed.

(** A reading, after which what it found is known too. *)
Lemma tri_read_bind {E A B} P L F (down : E) f (m : ST D SqlError A) (k : A → ST (Task D) E B) Ω :
  stable L F →
  (∀ a d, sound d → F d → snd (m d) = Ok a → ∃ F' : D → Prop, F' d ∧ tri P (holding L F') (k a) Ω) →
  tri P (holding L F) (reading w down f m ≫= k) Ω.
Proof.
  intros HF Hm s s' r Hd Hs. destruct (seen_own P L F s HF Hd Hs) as (Ho & Hd1 & H1). destruct Hs as [HL _].
  unfold mbind, ST_bind, reading. destruct (fate w (tick s)); [|by intros [= <- <-]..].
  destruct (snd (m (seen w s))) as [a|e] eqn:Em; [simpl|by intros [= <- <-]].
  destruct (Hm a _ Hd1 H1 Em) as (F' & H' & Hk). intros E2.
  destruct (Hk (mkTask (seen w s) (S (tick s)) (locks s)) s' r Hd1 (conj HL H') E2) as [Hr' Hp']. split; [by etrans|done].
Qed.

(** The writes of a transaction, whatever becomes of the answer. *)
Lemma tri_commit_bind {E A B} P L F (down : E) (m : nat → ST D E A) (k : A → ST (Task D) E B) Ω :
  stable L F →
  (∀ t d d' a, sound d → F d → m t d = (d', Ok a) →
     (d' = d ∨ ∃ c, P c ∧ does c d = Some d') ∧ ∃ F' : D → Prop, F' d' ∧ tri P (holding L F') (k a) Ω) →
  tri P (holding L F) (committing w down m ≫= k) Ω.
Proof.
  intros HF Hm s s' r Hd Hs. destruct (seen_own P L F s HF Hd Hs) as (Ho & Hd1 & H1). destruct Hs as [HL _].
  unfold mbind, ST_bind, committing. destruct (m (tick s) (seen w s)) as [d' [a|e]] eqn:Em.
  - destruct (Hm _ _ _ _ Hd1 H1 Em) as [Hc (F' & H' & Hk)].
    assert (Hown : rtc (own P) (db s) d').
    { destruct Hc as [->|Hc]; [done|]. etrans; [exact Ho|]. apply rtc_once. by left. }
    destruct (fate w (tick s)); [|by intros [= <- <-]..]. intros E2.
    destruct (Hk (mkTask d' (S (tick s)) (locks s)) s' r (own_sound _ _ _ Hown Hd) (conj HL H') E2) as [Hr' Hp']. split; [by etrans|done].
  - destruct (fate w (tick s)); by intros [= <- <-].
Qed.

Lemma st_bind_mret {S E A} (m : ST S E A) s : (m ≫= mret) s = m s.
Proof. unfold mbind, ST_bind. by destruct (m s) as [? [?|?]]. Qed.

Lemma tri_ext {E A} P Φ (m m' : ST (Task D) E A) Ψ : (∀ s, m s = m' s) → tri P Φ m Ψ → tri P Φ m' Ψ.
Proof. intros Hm Ht s s' r Hd Hs Em. rewrite <- Hm in Em. by apply (Ht s). Qed.

Lemma tri_commit_post {E A} P L F (F' : A → D → Prop) (down : E) (m : nat → ST D E A) :
  stable L F →
  (∀ t d d' a, sound d → F d → m t d = (d', Ok a) → (d' = d ∨ ∃ c, P c ∧ does c d = Some d') ∧ F' a d') →
  tri P (holding L F) (committing w down m) (fun a => holding L (F' a)).
Proof.
  intros HF Hm. eapply tri_ext; [apply st_bind_mret|]. apply tri_commit_bind; [done|]. intros t d d' a Hd H0 Em.
  destruct (Hm t d d' a Hd H0 Em) as [Hc H']. split; [done|]. exists (F' a). split; [done|]. by apply tri_ret.
Qed.

Lemma tri_commit {E A} P L F (down : E) (m : nat → ST D E A) :
  stable L F →
  (∀ t d d' a, sound d → F d → m t d = (d', Ok a) → d' = d ∨ ∃ c, P c ∧ does c d = Some d') →
  tri P (holding L F) (committing w down m) (fun _ _ => True).
Proof.
  intros HF Hm. eapply tri_post; [|apply (tri_commit_post P L F (fun _ _ => True)); [done|]]; [done|].
  intros t d d' a Hd H0 Em. eauto.
Qed.

Lemma tri_read_post {E A} P L F (F' : A → D → Prop) (down : E) f (m : ST D SqlError A) :
  stable L F → (∀ a d, sound d → F d → snd (m d) = Ok a → F' a d) →
  tri P (holding L F) (reading w down f m) (fun a => holding L (F' a)).
Proof.
  intros HF Hm. eapply tri_ext; [apply st_bind_mret|]. apply tri_read_bind; [done|]. intros a d Hd H0 Em.
  exists (F' a). split; [by apply Hm|]. by apply tri_ret.
Qed.

Lemma tri_in_tx {E A} P Φ (m : ST (Task D) E A) : tri P Φ m (fun _ _ => True) → tri P Φ (in_tx m) (fun _ _ => True).
Proof.
  intros Hm s s' r Hd Hs. unfold in_tx. destruct (m s) as [s1 x] eqn:E1. intros [= <- <-].
  destruct (Hm _ _ _ Hd Hs E1) as [Hr _]. by split.
Qed.

(** A transaction that ends in a fact about the tables. *)
Lemma tri_in_tx_post {E A} P Φ (m : ST (Task D) E A) (F : A → D → Prop) :
  tri P Φ m (fun a s => F a (db s)) → tri P Φ (in_tx m) (fun a s => F a (db s)).
Proof.
  intros Hm s s' r Hd Hs. unfold in_tx. destruct (m s) as [s1 x] eqn:E1. intros [= <- <-].
  destruct (Hm _ _ _ Hd Hs E1) as [Hr Hp]. by split.
Qed.

Lemma tri_map_err {E F A} P Φ (f : E → F) (m : ST (Task D) E A) Ψ : tri P Φ m Ψ → tri P Φ (st_map_err f m) Ψ.
Proof.
  intros Hm s s' r Hd Hs. unfold st_map_err. destruct (m s) as [s1 x] eqn:E1. intros [= <- <-].
  destruct (Hm _ _ _ Hd Hs E1) as [Hr Hp]. split; [done|]. intros a. destruct x; [|done]. intros [= <-]. by apply Hp.
Qed.

Lemma tri_any {E A} P Φ (m : ST (Task D) E A) Ψ : tri P Φ m Ψ → tri P Φ m (fun _ _ => True).
Proof. by apply tri_post. Qed.

Lemma tri_holding_pure {E A} (X : Prop) P L F (m : ST (Task D) E A) Ψ :
  (X → tri P (holding L F) m Ψ) → tri P (holding L (fun d => X ∧ F d)) m Ψ.
Proof. intros Hm s s' r Hd [HL [Hx Hs]]. by apply (Hm Hx s). Qed.

Lemma tri_clock {E} P Φ : tri P Φ (clock w : ST (Task D) E Z) (fun _ => Φ).
Proof. intros s s' r _ Hs [= <- <-]. by split. Qed.

(** Reading that nothing after relies on. *)
Lemma tri_read_free {E A B} P (down : E) f (m : ST D SqlError A) (k : A → ST (Task D) E B) Ω :
  (∀ a, tri P (holding [] (fun _ => True)) (k a) Ω) →
  tri P (holding [] (fun _ => True)) (reading w down f m ≫= k) Ω.
Proof. intros Hk. apply tri_read_bind; [apply stable_true|]. intros a d _ _ _. by exists (fun _ => True). Qed.

(** Statements of a task that holds nothing and knows nothing. *)
Lemma free_holding s : holding [] (fun _ => True) s.
Proof. split; [set_solver|done]. Qed.

Lemma tri_reading_free {E A} P (down : E) f (m : ST D SqlError A) : tri P (fun _ => True) (reading w down f m) (fun _ _ => True).
Proof.
  eapply tri_pre; [intros s _; apply free_holding|]. eapply tri_post; [|apply (tri_read_post _ _ _ (fun _ _ => True)); [apply stable_true|done]]. done.
Qed.

Lemma tri_away_free {E A} P (call : nat → result E A) : tri P (fun _ => True) (away w call) (fun _ _ => True).
Proof. eapply tri_pre; [intros s _; apply free_holding|]. eapply tri_post; [|apply tri_away, stable_true]. done. Qed.

Lemma tri_locking_free {E} P (down : E) key : tri P (fun _ => True) (locking w down key) (fun _ => holding [key] (fun _ => True)).
Proof. eapply tri_pre; [intros s _; apply free_holding|]. apply tri_locking, stable_true. Qed.

Lemma tri_commit_free {E A} P (down : E) (m : nat → ST D E A) :
  (∀ t d d' a, sound d → m t d = (d', Ok a) → d' = d ∨ ∃ c, P c ∧ does c d = Some d') →
  tri P (fun _ => True) (committing w down m) (fun _ _ => True).
Proof. intros Hm. eapply tri_pre; [intros s _; apply free_holding|]. apply tri_commit; [apply stable_true|]. eauto. Qed.

Lemma tri_run {E A} P (m : ST (Task D) E A) s :
  tri P (fun _ => True) m (fun _ _ => True) → sound (db s) → rtc (own P) (db s) (db (fst (m s))).
Proof. intros Hm Hd. destruct (m s) as [s' r] eqn:Es. by destruct (Hm s s' r Hd I Es). Qed.

Lemma tri_start {E A} P (m : ST (Task D) E A) s :
  tri P (holding [] (fun _ => True)) m (fun _ _ => True) → sound (db s) → rtc (own P) (db s) (db (fst (m s))).
Proof. intros Hm Hd. destruct (m s) as [s' r] eqn:Es. eapply Hm; [done| |exact Es]. split; [set_solver|done]. Qed.
End Logic.
