(* ===== verification/Wallet.v ===== *)
(** * Wallet: balances, ledger and the movement authority of [modules/wallet/src]

    The tables of [lib.rs] with their constraints, the statements of [store.rs],
    the movement authority of [service.rs], the starter grant and the purge sweep
    of [projection.rs] and the event handlers of [lib.rs].  A statement threads
    the database and may fail with a server error; a transaction that does not
    commit restores the tables but not the sequence.  Each transaction runs alone:
    the row locks the source takes order the movements of one balance row. *)

From Stdlib Require Import Ascii.
From stdpp Require Import sorting pretty.
From S2P Require Import Prelude Text OpsApi Pg.
#[local] Open Scope Z_scope.

Definition MAX_IDEMPOTENCY_KEY_BYTES : nat := 128.
Definition MAX_CURRENCY_CODE_BYTES : nat := 32.
Definition MAX_REASON_BYTES : nat := 256.
Definition MAX_MOVEMENT_AMOUNT : Z := 1000000000000.
Definition MAX_BALANCE : Z := 1000000000000000.
Definition MAX_CURRENCY_DISPLAY_NAME_BYTES : nat := 64.
Definition MAX_CURRENCY_KIND_BYTES : nat := 32.
Definition MAX_CURRENCY_DECIMALS : Z := 18.
Definition MAX_RECENT_LEDGER : Z := 200.

(** ** The tables *)

Record Currency := mkCurrency { display_name : string; kind : string; decimals : Z }.

Record LedgerRow := mkLedger {
  seq : Z;
  id : string;
  idempotency_key : string;
  player_id : string;
  currency : string;
  delta : Z;
  balance_after : Z;
  reason : string;
}.

(** A [wallet.changed] event. *)
Record Changed := mkChanged {
  ch_player_id : string;
  ch_currency : string;
  ch_delta : Z;
  ch_balance_after : Z;
  ch_reason : string;
  ch_ledger_id : string;
}.

(** [wallet.purged_players]: the handle and whether [swept_at] is set. *)
Record Tombstone := mkTombstone { handle_text : string; swept : bool }.

Record WalletDb := mkDb {
  currencies : gmap string Currency;
  balances : gmap (string * string) Z;
  ledger : list LedgerRow;
  purged : gmap string Tombstone;
  next_seq : Z;
  outbox : list Changed;
}.

Definition set_currencies x d := mkDb x (balances d) (ledger d) (purged d) (next_seq d) (outbox d).
Definition set_balances x d := mkDb (currencies d) x (ledger d) (purged d) (next_seq d) (outbox d).
Definition set_ledger x d := mkDb (currencies d) (balances d) x (purged d) (next_seq d) (outbox d).
Definition set_purged x d := mkDb (currencies d) (balances d) (ledger d) x (next_seq d) (outbox d).
Definition set_next_seq x d := mkDb (currencies d) (balances d) (ledger d) (purged d) x (outbox d).
Definition set_outbox x d := mkDb (currencies d) (balances d) (ledger d) (purged d) (next_seq d) x.

Definition empty_db : WalletDb := mkDb ∅ ∅ [] ∅ 1 [].

(** ** The statements of [store.rs] *)

Definition Sql := ST WalletDb SqlError.

Inductive BalanceError := UnknownCurrency | OutOfRange | BalanceSql (e : SqlError).

Inductive OnConflict := Overwrite | Skip.

Record Movement := mkMovement {
  m_key : string;
  m_player_id : string;
  m_currency : string;
  m_amount : Z;
  m_reason : string;
}.

Section Store.
Context `{PgUuid}.

Definition nextval : Sql Z :=
  n ← gets next_seq; _ ← modify (set_next_seq (n + 1)); mret n.

(** The [bigserial] default is drawn before the key conflict is seen. *)
Definition insert_ledger_tx (new_id key player cur : string) (dlt : Z) (why : string)
  : Sql (option (string * string)) :=
  _ ← bind_text [key; player; cur; why];
  u ← cast_uuid player;
  n ← nextval;
  rows ← gets ledger;
  if existsb (fun r => bool_decide (idempotency_key r = key)) rows then mret None
  else if existsb (fun r => bool_decide (id r = new_id)) rows then fail UniqueViolation
  else _ ← modify (set_ledger (rows ++ [mkLedger n new_id key u cur dlt 0 why]));
       mret (Some (new_id, u)).

Definition is_player_purged_tx (player : string) : Sql bool :=
  _ ← bind_text [player];
  u ← cast_uuid player;
  gets (fun d => bool_decide (is_Some (purged d !! u))).

Definition existing_ledger_tx (key : string) : Sql (option LedgerRow) :=
  _ ← bind_text [key];
  gets (fun d => find (fun r => bool_decide (idempotency_key r = key)) (ledger d)).

Definition currency_exists_tx (code : string) : Sql bool :=
  _ ← bind_text [code];
  gets (fun d => bool_decide (is_Some (currencies d !! code))).

(** The constraint [balances_amount_check]. *)
Definition check_amount (amount : Z) : Sql unit :=
  if (0 <=? amount) && (amount <=? MAX_BALANCE) then mret () else fail (CheckViolation "balances_amount_check").

(** The constraint [balances_currency_fkey]. *)
Definition check_currency (code : string) : Sql unit :=
  cs ← gets currencies;
  if bool_decide (is_Some (cs !! code)) then mret () else fail (ForeignKeyViolation "balances_currency_fkey").

(** [UPDATE wallet.balances]: [None] when no row matched. *)
Definition update_balance (player cur : string) (dlt : Z) : Sql (option Z) :=
  _ ← bind_text [player; cur];
  u ← cast_uuid player;
  bs ← gets balances;
  match bs !! (u, cur) with
  | Some a => a' ← bigint_add a dlt; _ ← check_amount a';
              _ ← modify (set_balances (<[(u, cur) := a']> bs)); mret (Some a')
  | None => mret None
  end.

(** [INSERT INTO wallet.balances … ON CONFLICT DO UPDATE]: the check runs on the
    tentative row first, the foreign key after the row is in. *)
Definition upsert_balance (player cur : string) (dlt : Z) : Sql Z :=
  _ ← bind_text [player; cur];
  u ← cast_uuid player;
  _ ← check_amount dlt;
  bs ← gets balances;
  a' ← (match bs !! (u, cur) with Some a => bigint_add a dlt | None => mret dlt end : Sql Z);
  _ ← check_amount a';
  _ ← check_currency cur;
  _ ← modify (set_balances (<[(u, cur) := a']> bs));
  mret a'.

Definition apply_balance_tx (player cur : string) (dlt : Z) : ST WalletDb BalanceError Z :=
  updated ← st_map_err BalanceSql (update_balance player cur dlt);
  match updated with
  | Some amount => mret amount
  | None =>
      if dlt <? 0 then
        known ← st_map_err BalanceSql (currency_exists_tx cur);
        fail (if (known : bool) then OutOfRange else UnknownCurrency)
      else st_map_err BalanceSql (upsert_balance player cur dlt)
  end.

Definition stamp (lid : string) (n after : Z) (r : LedgerRow) : LedgerRow :=
  if bool_decide (id r = lid)
  then mkLedger n (id r) (idempotency_key r) (player_id r) (currency r) (delta r) after (reason r)
  else r.

Definition set_balance_after_tx (ledger_id : string) (after : Z) : Sql unit :=
  _ ← bind_text [ledger_id];
  lid ← cast_uuid ledger_id;
  rows ← gets ledger;
  if existsb (fun r => bool_decide (id r = lid)) rows
  then n ← nextval; modify (set_ledger (map (stamp lid n after) rows))
  else mret ().

Definition PURGE_SENTINEL : string := NIL_UUID.

Definition reown (u s : string) (r : LedgerRow) : LedgerRow :=
  if bool_decide (player_id r = u)
  then mkLedger (seq r) (id r) (idempotency_key r) s (currency r) (delta r) (balance_after r) (reason r)
  else r.

Definition purge_player_tx (player : string) : Sql unit :=
  _ ← bind_text [player];
  u ← cast_uuid player;
  _ ← modify (fun d => set_balances (filter (fun kv => fst (fst kv) ≠ u) (balances d)) d);
  s ← cast_uuid PURGE_SENTINEL;
  modify (fun d => set_ledger (map (reown u s) (ledger d)) d).

Definition plant_purged_player_tx (player handle : string) : Sql unit :=
  _ ← bind_text [player; handle];
  u ← cast_uuid player;
  modify (fun d => match purged d !! u with
                   | Some _ => d
                   | None => set_purged (<[u := mkTombstone handle false]> (purged d)) d
                   end).

(** The [currencies] checks, in the order of their names. *)
Definition currency_checks (code name knd : string) (decs : Z) : Sql unit :=
  if bool_decide (32 < String.length code)%nat then fail (CheckViolation "currencies_code_len_check") else
  if (decs <? 0) || (18 <? decs) then fail (CheckViolation "currencies_decimals_range_check") else
  if bool_decide (64 < String.length name)%nat then fail (CheckViolation "currencies_display_name_len_check") else
  if bool_decide (32 < String.length knd)%nat then fail (CheckViolation "currencies_kind_len_check") else
  mret ().

Definition write_currency_tx (code name knd : string) (decs : Z) (on_conflict : OnConflict) : Sql unit :=
  _ ← bind_text [code; name; knd];
  _ ← currency_checks code name knd decs;
  modify (fun d => match currencies d !! code, on_conflict with
                   | Some _, Skip => d
                   | _, _ => set_currencies (<[code := mkCurrency name knd decs]> (currencies d)) d
                   end).

(** Reads.  [text_le] is the order of the database's collation. *)
Context (text_le : string → string → Prop) `{!RelDecision text_le}.

Definition by_text {A} (a b : string * A) : Prop := text_le (fst a) (fst b).

#[local] Instance by_text_dec {A} : RelDecision (by_text (A := A)).
Proof. intros a b. unfold by_text. apply _. Defined.

Definition list_balances (player : string) (d : WalletDb) : result SqlError (list (string * Z)) :=
  match (_ ← bind_text [player]; cast_uuid player) d with
  | (_, Ok u) => Ok (merge_sort by_text
                       (omap (fun kv => if bool_decide (fst (fst kv) = u) then Some (snd (fst kv), snd kv) else None)
                             (map_to_list (balances d))))
  | (_, Err InvalidTextRepresentation) => Ok []
  | (_, Err e) => Err e
  end.

Definition list_currencies (d : WalletDb) : list (string * Currency) :=
  merge_sort by_text (map_to_list (currencies d)).

(** [LedgerPage]. *)
Record LedgerPage := mkPage { rows : list LedgerRow; truncated : bool }.

Definition newer (a b : LedgerRow) : Prop := seq b ≤ seq a.

#[global] Instance newer_dec : RelDecision newer.
Proof. intros a b. unfold newer. apply _. Defined.

Definition recent_ledger (player : string) (limit : Z) (d : WalletDb) : result SqlError LedgerPage :=
  let limit := clamp limit 1 MAX_RECENT_LEDGER in
  match (_ ← bind_text [player]; cast_uuid player) d with
  | (_, Ok u) =>
      let found := take (Z.to_nat (limit + 1))
                        (merge_sort newer (List.filter (fun r => bool_decide (player_id r = u)) (ledger d))) in
      Ok (mkPage (take (Z.to_nat limit) found) (limit <? Z.of_nat (length found)))
  | (_, Err InvalidTextRepresentation) => Ok (mkPage [] false)
  | (_, Err e) => Err e
  end.
End Store.

(** ** The movement authority ([service.rs]) *)

Definition IDEMPOTENCY_CONFLICT : string := "idempotency_key already records a different movement".
Definition OUT_OF_RANGE : string := "movement rejected: insufficient funds or balance ceiling exceeded".
Definition UNKNOWN_CURRENCY : string := "unknown currency".
Definition MALFORMED_PLAYER_ID : string := "player_id is not a valid uuid".
Definition PLAYER_DELETED : string := "player has been deleted".
Definition LEDGER_ROW_DISAPPEARED : string := "conflicting ledger row disappeared".

Definition invalid (msg : string) : Error := mkError Invalid msg.
Definition conflict (msg : string) : Error := mkError Conflict msg.

(** [internal]: the text of a server or plane fault is not modelled. *)
Definition internal : Error := mkError Internal "internal".

Definition validate_movement (m : Movement) : result Error unit :=
  if str_is_empty (m_key m) then Err (invalid "idempotency_key is required") else
  if bool_decide (MAX_IDEMPOTENCY_KEY_BYTES < String.length (m_key m))%nat
  then Err (invalid "idempotency_key exceeds 128 bytes") else
  if str_is_empty (trim (m_player_id m)) then Err (invalid "player_id is required") else
  if str_is_empty (m_currency m) then Err (invalid "currency is required") else
  if bool_decide (MAX_CURRENCY_CODE_BYTES < String.length (m_currency m))%nat
  then Err (invalid "currency exceeds 32 bytes") else
  if bool_decide (MAX_REASON_BYTES < String.length (m_reason m))%nat
  then Err (invalid "reason exceeds 256 bytes") else
  if (m_amount m <? 1) || (MAX_MOVEMENT_AMOUNT <? m_amount m)
  then Err (invalid "amount must be within 1..=1000000000000") else
  Ok ().

Definition movement_error (e : SqlError) : Error :=
  match e with
  | CheckViolation c => if bool_decide (c = "balances_amount_check") then conflict OUT_OF_RANGE else internal
  | ForeignKeyViolation c => if bool_decide (c = "balances_currency_fkey") then invalid UNKNOWN_CURRENCY else internal
  | InvalidTextRepresentation => invalid MALFORMED_PLAYER_ID
  | UniqueViolation | OtherSqlError => internal
  end.

Definition balance_error (e : BalanceError) : Error :=
  match e with
  | UnknownCurrency => invalid UNKNOWN_CURRENCY
  | OutOfRange => conflict OUT_OF_RANGE
  | BalanceSql e => movement_error e
  end.

Definition hex32 (s : string) : option bytes :=
  if bool_decide (length (hex_digits s) = 32%nat) then Some (hex_digits s) else None.

Fixpoint uuid_scan (digits : nat) (after_hyphen : bool) (l : bytes) : bool :=
  match l with
  | [] => true
  | b :: l' =>
      if is_ascii_hexdigit b then uuid_scan (S digits) false l'
      else if Ascii.eqb b "-" && negb after_hyphen && (digits mod 4 =? 0)%nat
              && (1 <=? digits)%nat && (digits <? 32)%nat
      then uuid_scan digits true l'
      else false
  end.

Definition is_uuid_text (s : string) : bool :=
  match hex32 s with None => false | Some _ => uuid_scan 0 false (to_bytes s) end.

Definition player_id_eq (a b : string) : bool :=
  match hex32 a, hex32 b with
  | Some x, Some y => bool_decide (x = y)
  | _, _ => bool_decide (a = b)
  end.

Definition same_movement (existing : LedgerRow) (m : Movement) (dlt : Z) : bool :=
  bool_decide (delta existing = dlt) && bool_decide (currency existing = m_currency m)
  && bool_decide (reason existing = m_reason m) && player_id_eq (player_id existing) (m_player_id m).

Inductive Outcome := Applied (balance : Z) | Duplicate (balance : Z) | IdemConflict | Purged.

(** What a call meets outside the tables: the uuid the server generates for the
    ledger row, whether a transaction could begin, whether the event plane took
    the event, and how the commit went. *)
Inductive CommitResult := Committed | CommitFailed (persisted : bool).
Record Env := mkEnv { new_id : string; begin_ok : bool; emit_ok : bool; commit_result : CommitResult }.

Section Service.
Context `{PgUuid}.

(** [emit_tx] on the caller's connection. *)
Definition emit_changed (e : Env) (ev : Changed) : ST WalletDb Error unit :=
  if emit_ok e then modify (fun d => set_outbox (outbox d ++ [ev]) d) else fail internal.

Definition apply_on (e : Env) (m : Movement) (sign : Z) : ST WalletDb Error Outcome :=
  _ ← lift (validate_movement m);
  gone ← st_map_err movement_error (is_player_purged_tx (m_player_id m));
  if (gone : bool) then mret Purged else
  let dlt := sign * m_amount m in
  claimed ← st_map_err movement_error
              (insert_ledger_tx (new_id e) (m_key m) (m_player_id m) (m_currency m) dlt (m_reason m));
  match claimed with
  | None =>
      found ← st_map_err movement_error (existing_ledger_tx (m_key m));
      existing ← lift (ok_or found (mkError Internal LEDGER_ROW_DISAPPEARED));
      mret (if same_movement existing m dlt then Duplicate (balance_after existing) else IdemConflict)
  | Some (ledger_id, canonical_player_id) =>
      balance ← st_map_err balance_error (apply_balance_tx (m_player_id m) (m_currency m) dlt);
      _ ← st_map_err movement_error (set_balance_after_tx ledger_id balance);
      _ ← emit_changed e (mkChanged canonical_player_id (m_currency m) dlt balance (m_reason m) ledger_id);
      mret (Applied balance)
  end.

(** A rollback gives back the tables but not the values drawn from the sequence. *)
Definition rollback (before after : WalletDb) : WalletDb := set_next_seq (next_seq after) before.

Definition apply (e : Env) (m : Movement) (sign : Z) (d : WalletDb) : WalletDb * result Error Z :=
  match validate_movement m with
  | Err err => (d, Err err)
  | Ok _ =>
      if negb (begin_ok e) then (d, Err internal) else
      let '(d', r) := apply_on e m sign d in
      match r with
      | Ok (Applied balance) =>
          match commit_result e with
          | Committed => (d', Ok balance)
          | CommitFailed persisted => (if persisted then d' else rollback d d', Err internal)
          end
      | Ok (Duplicate balance) => (rollback d d', Ok balance)
      | Ok IdemConflict => (rollback d d', Err (conflict IDEMPOTENCY_CONFLICT))
      | Ok Purged => (rollback d d', Err (conflict PLAYER_DELETED))
      | Err err => (rollback d d', Err err)
      end
  end.

Definition credit (e : Env) (m : Movement) := apply e m 1.
Definition debit (e : Env) (m : Movement) := apply e m (-1).

Definition my_balances (text_le : string → string → Prop) `{!RelDecision text_le}
    (ident : Identity) (d : WalletDb) : result Error (list (string * Z)) :=
  match OpsApi.player_id ident with
  | None => Err (invalid "missing player identity")
  | Some p => map_err (fun _ => internal) (list_balances text_le p d)
  end.

(** ** The starter grant and the purge sweep ([projection.rs], [lib.rs]) *)

Definition GRANT_REASON : string := "starter-grant".
Definition GUEST : string := "guest".

Definition grant_starter (e : Env) (starter_currency : string) (starter_amount : Z) (player : string)
  : ST WalletDb Error unit :=
  if str_is_empty starter_currency || (starter_amount <=? 0) then mret () else
  if MAX_MOVEMENT_AMOUNT <? starter_amount then mret () else
  if negb (is_uuid_text player) then mret () else
  known ← st_map_err (fun _ => internal) (currency_exists_tx starter_currency);
  if negb known then mret () else
  _ ← apply_on e (mkMovement ("starter:" +:+ player) player starter_currency starter_amount GRANT_REASON) 1;
  mret ().

Definition on_player_registered (e : Env) (cur : string) (amount : Z) (provider player : string)
  : ST WalletDb Error unit :=
  if bool_decide (provider = GUEST) then mret () else grant_starter e cur amount player.

Definition on_player_deleted (player handle : string) : ST WalletDb Error unit :=
  st_map_err (fun _ => internal) (plant_purged_player_tx player handle).

Definition PURGE_BATCH : nat := 256.
Definition PURGE_FLOOR : string := NIL_UUID.
Definition PLAYER_PURGE : string := "player-purge".

(** Canonical uuid texts compare like the uuids. *)
Definition due_batch (watermark : string) (d : WalletDb) : list string :=
  take PURGE_BATCH (merge_sort String.le
    (List.filter (fun u => bool_decide (String.le watermark u))
       (fst <$> List.filter (fun kv => negb (swept (snd kv))) (map_to_list (purged d))))).

Definition mark_swept (player : string) : Sql unit :=
  u ← cast_uuid player;
  modify (fun d => set_purged (alter (fun t => mkTombstone (handle_text t) true) u (purged d)) d).

(** One batch; [elapsed n] tells whether the budget was spent after the [n]th
    player of the fire.  Returns whether the fire ends here. *)
Fixpoint sweep_batch (elapsed : nat → bool) (n : nat) (l : list string) : Sql (nat * bool) :=
  match l with
  | [] => mret (n, false)
  | player :: l' =>
      _ ← purge_player_tx player;
      _ ← mark_swept player;
      if elapsed n then mret (S n, true) else sweep_batch elapsed (S n) l'
  end.

(** The loop over batches, with [fuel]; [None] is out of fuel. *)
Fixpoint sweep_loop (elapsed : nat → bool) (fuel n : nat) (watermark : string) (d : WalletDb)
  : option (WalletDb * result SqlError unit) :=
  match fuel with
  | O => None
  | S fuel' =>
      let batch := due_batch watermark d in
      match sweep_batch elapsed n batch d with
      | (d', Err e) => Some (d', Err e)
      | (d', Ok (_, true)) => Some (d', Ok ())
      | (d', Ok (n', false)) =>
          if (length batch <? PURGE_BATCH)%nat then Some (d', Ok ())
          else sweep_loop elapsed fuel' n' (default watermark (last batch)) d'
      end
  end.

Definition sweep_purged_players (elapsed : nat → bool) (d : WalletDb)
  : option (WalletDb * result SqlError unit) :=
  sweep_loop elapsed (S (size (purged d))) 0 PURGE_FLOOR d.

Definition on_scheduler_fired (elapsed : nat → bool) (name : string) (d : WalletDb)
  : option (WalletDb * result SqlError unit) :=
  if bool_decide (name ≠ PLAYER_PURGE) then Some (d, Ok ()) else sweep_purged_players elapsed d.
End Service.

(** ** Facts *)

Section WalletFacts.
Context `{PgUuid}.

(** Which successful runs a statement has. *)

Lemma bind_text_ok (l : list string) (d d' : WalletDb) x :
  bind_text l d = (d', Ok x) → d' = d ∧ existsb has_nul l = false.
Proof. unfold bind_text. case_match; intros [= <-]; done. Qed.

Lemma cast_uuid_ok (p : string) (d d' : WalletDb) u :
  cast_uuid p d = (d', Ok u) → d' = d ∧ uuid_in p = Some u.
Proof. unfold cast_uuid, lift, ok_or. case_match; intros [= <- <-]; done. Qed.

Lemma bigint_add_ok (a b x : Z) (d d' : WalletDb) : bigint_add a b d = (d', Ok x) → d' = d ∧ x = a + b.
Proof. unfold bigint_add. case_match; intros [= <- <-]; done. Qed.

Lemma check_amount_ok (a : Z) (d d' : WalletDb) x : check_amount a d = (d', Ok x) → d' = d ∧ 0 ≤ a ≤ MAX_BALANCE.
Proof. unfold check_amount. case_match eqn:E; intros [= <-]. split; [done|lia]. Qed.

Lemma check_currency_ok (c : string) (d d' : WalletDb) x :
  check_currency c d = (d', Ok x) → d' = d ∧ is_Some (currencies d !! c).
Proof.
  unfold check_currency. intros E. st_inv E. injection E0 as <- <-. case_bool_decide; by injection E as <-.
Qed.

Lemma purged_check_ok p d d' b :
  is_player_purged_tx p d = (d', Ok b) →
  ∃ u, d' = d ∧ uuid_in p = Some u ∧ b = bool_decide (is_Some (purged d !! u)).
Proof.
  unfold is_player_purged_tx. intros E. st_inv E. st_inv E.
  apply bind_text_ok in E0 as [-> _]. apply cast_uuid_ok in E1 as [-> Hu].
  injection E as <- <-. eauto.
Qed.

Lemma existsb_key_false {A} (f : A → string) (k : string) (l : list A) :
  existsb (fun r => bool_decide (f r = k)) l = false ↔ k ∉ (f <$> l).
Proof.
  rewrite <- not_true_iff_false, existsb_exists. rewrite list_elem_of_fmap. split.
  - intros Hn (x & -> & Hx). apply Hn. exists x. split; [by apply list_elem_of_In|by apply bool_decide_eq_true].
  - intros Hn (x & Hx & Hk%bool_decide_eq_true). apply Hn. exists x. split; [done|by apply list_elem_of_In].
Qed.

Lemma insert_ledger_ok nid key p c dlt why d d' r :
  insert_ledger_tx nid key p c dlt why d = (d', Ok r) →
  ∃ u, uuid_in p = Some u
  ∧ ((key ∈ (idempotency_key <$> ledger d) ∧ r = None ∧ d' = set_next_seq (next_seq d + 1) d)
     ∨ ((key ∉ (idempotency_key <$> ledger d)) ∧ (nid ∉ (id <$> ledger d)) ∧ r = Some (nid, u)
        ∧ d' = set_ledger (ledger d ++ [mkLedger (next_seq d) nid key u c dlt 0 why])
                          (set_next_seq (next_seq d + 1) d))).
Proof.
  unfold insert_ledger_tx. intros E. st_inv E. apply bind_text_ok in E0 as [-> _].
  st_inv E. apply cast_uuid_ok in E0 as [-> Hu]. exists a0. split; [done|].
  st_inv E. injection E0 as <- <-. st_inv E. injection E0 as <- <-. simpl in *.
  destruct (existsb _ _) eqn:Ek.
  - injection E as <- <-. left. split; [|done]. apply dec_stable. rewrite <- existsb_key_false. by rewrite Ek.
  - apply existsb_key_false in Ek. destruct (existsb _ _) eqn:Ei in E; [done|]. apply existsb_key_false in Ei.
    st_inv E. injection E0 as <- <-. injection E as <- <-. right. done.
Qed.

Lemma update_balance_ok p c dlt d d' r :
  update_balance p c dlt d = (d', Ok r) →
  ∃ u, uuid_in p = Some u
  ∧ ((balances d !! (u, c) = None ∧ r = None ∧ d' = d)
     ∨ ∃ a, balances d !! (u, c) = Some a ∧ r = Some (a + dlt) ∧ 0 ≤ a + dlt ≤ MAX_BALANCE
            ∧ d' = set_balances (<[(u, c) := a + dlt]> (balances d)) d).
Proof.
  unfold update_balance. intros E. st_inv E. apply bind_text_ok in E0 as [-> _].
  st_inv E. apply cast_uuid_ok in E0 as [-> Hu]. exists a0. split; [done|].
  st_inv E. injection E0 as <- <-. destruct (balances d !! _) as [a1|] eqn:Eb; [right|left].
  - st_inv E. apply bigint_add_ok in E0 as [-> ->]. st_inv E. apply check_amount_ok in E0 as [-> ?].
    st_inv E. injection E0 as <- <-. injection E as <- <-. eauto 6.
  - injection E as <- <-. done.
Qed.

Lemma upsert_balance_ok p c dlt d d' a u :
  upsert_balance p c dlt d = (d', Ok a) → uuid_in p = Some u → balances d !! (u, c) = None →
  a = dlt ∧ 0 ≤ dlt ≤ MAX_BALANCE ∧ is_Some (currencies d !! c)
  ∧ d' = set_balances (<[(u, c) := dlt]> (balances d)) d.
Proof.
  unfold upsert_balance. intros E Hu Hb. st_inv E. apply bind_text_ok in E0 as [-> _].
  st_inv E. apply cast_uuid_ok in E0 as [-> Hu']. simplify_eq.
  st_inv E. apply check_amount_ok in E0 as [-> ?]. st_inv E. injection E0 as <- <-. rewrite Hb in E.
  st_inv E. injection E0 as <- <-. st_inv E. apply check_amount_ok in E0 as [-> ?].
  st_inv E. apply check_currency_ok in E0 as [-> ?]. st_inv E. injection E0 as <- <-. injection E as <- <-. done.
Qed.

(** Applying a balance: the row's amount plus the delta, within the bounds. *)
Lemma apply_balance_ok p c dlt d d' b u :
  apply_balance_tx p c dlt d = (d', Ok b) → uuid_in p = Some u →
  b = default 0 (balances d !! (u, c)) + dlt ∧ 0 ≤ b ≤ MAX_BALANCE
  ∧ (is_Some (balances d !! (u, c)) ∨ is_Some (currencies d !! c))
  ∧ d' = set_balances (<[(u, c) := b]> (balances d)) d.
Proof.
  unfold apply_balance_tx. intros E Hu. st_inv E.
  apply st_map_err_ok, update_balance_ok in E0 as (u' & Hu' & [(Hb & -> & ->)|(a1 & Hb & -> & ? & ->)]).
  - destruct (dlt <? 0).
    + st_inv E. by destruct a.
    + assert (u' = u) as -> by congruence. apply st_map_err_ok, upsert_balance_ok with (u := u) in E; [|done..].
      rewrite Hb. naive_solver.
  - assert (u' = u) as -> by congruence. injection E as <- <-. rewrite Hb. simpl. eauto.
Qed.

Lemma stamp_other (lid : string) n after l : lid ∉ (id <$> l) → map (stamp lid n after) l = l.
Proof.
  intros Hn. rewrite <- (map_id l) at 2. apply map_ext_in. intros r Hr%list_elem_of_In.
  unfold stamp. rewrite bool_decide_eq_false_2; [done|]. intros <-. apply Hn, list_elem_of_fmap. eauto.
Qed.
End WalletFacts.
