(* ===== verification/WalletSafety.v ===== *)
(** * WalletSafety: the books of the wallet always balance

    The wallet's operations as steps on its tables, the bookkeeping invariant
    every step keeps, and the theorems about movements, replays, the starter grant
    and the purge. *)

From Stdlib Require Import Ascii.
From stdpp Require Import sorting.
From S2P Require Import Prelude Text OpsApi Pg Wallet.
#[local] Open Scope Z_scope.

Section Safety.
Context `{PgUuid}.

(** The server generates canonical uuids. *)
Definition env_ok (e : Env) : Prop := uuid_in (new_id e) = Some (new_id e).

(** The tables after a movement took effect. *)
Definition applied_db (e : Env) (m : Movement) (u : string) (dlt b : Z) (d : WalletDb) : WalletDb :=
  mkDb (currencies d) (<[(u, m_currency m) := b]> (balances d))
       (ledger d ++ [mkLedger (next_seq d + 1) (new_id e) (m_key m) u (m_currency m) dlt b (m_reason m)])
       (purged d) (next_seq d + 2)
       (outbox d ++ [mkChanged u (m_currency m) dlt b (m_reason m) (new_id e)]).

(** A movement takes effect exactly under these conditions, and then this much. *)
Definition takes_effect (e : Env) (m : Movement) (u : string) (dlt b : Z) (d : WalletDb) : Prop :=
  uuid_in (m_player_id m) = Some u ∧ purged d !! u = None
  ∧ (m_key m ∉ (idempotency_key <$> ledger d)) ∧ (new_id e ∉ (id <$> ledger d))
  ∧ b = default 0 (balances d !! (u, m_currency m)) + dlt ∧ 0 ≤ b ≤ MAX_BALANCE
  ∧ (is_Some (balances d !! (u, m_currency m)) ∨ is_Some (currencies d !! m_currency m)).

(** The four verdicts of the authority. *)
Lemma apply_on_ok e m sign d d' o :
  env_ok e → apply_on e m sign d = (d', Ok o) →
  ∃ u, uuid_in (m_player_id m) = Some u ∧ validate_movement m = Ok () ∧
  ((o = Purged ∧ is_Some (purged d !! u) ∧ d' = d)
   ∨ (∃ r, purged d !! u = None ∧ r ∈ ledger d ∧ idempotency_key r = m_key m
       ∧ o = (if same_movement r m (sign * m_amount m) then Duplicate (balance_after r) else IdemConflict)
       ∧ d' = set_next_seq (next_seq d + 1) d)
   ∨ (∃ b, o = Applied b ∧ takes_effect e m u (sign * m_amount m) b d
       ∧ d' = applied_db e m u (sign * m_amount m) b d)).
Proof.
  intros Hid E. unfold apply_on in E. st_inv E.
  unfold lift in E0. injection E0 as <- Hv. st_inv E.
  apply st_map_err_ok, purged_check_ok in E0 as (u & -> & Hu & ->). exists u. split; [done|].
  split; [by destruct a|]. case_bool_decide as Hp; [injection E as <- <-; by left|right].
  apply eq_None_not_Some in Hp. st_inv E.
  apply st_map_err_ok, insert_ledger_ok in E0 as (u' & Hu' & Hins). assert (u' = u) as -> by congruence.
  destruct Hins as [(Hk & -> & ->)|(Hk & Hi & -> & ->)].
  - left. st_inv E. apply st_map_err_ok in E0. unfold existing_ledger_tx in E0. st_inv E0.
    apply bind_text_ok in E1 as [-> _]. injection E0 as <- <-. simpl in E.
    st_inv E. unfold lift, ok_or in E0. destruct (find _ _) eqn:Ef in E0; [|done].
    injection E0 as <- <-. injection E as <- <-. apply find_some in Ef as [Hin Hkey].
    eexists. split; [done|]. split; [by apply list_elem_of_In|]. by apply bool_decide_eq_true in Hkey.
  - right. st_inv E. apply st_map_err_ok, apply_balance_ok with (u := u) in E0 as (Hb & Hbnd & Hcur & ->); [|done].
    simpl in *. st_inv E. apply st_map_err_ok in E0. unfold set_balance_after_tx in E0.
    st_inv E0. apply bind_text_ok in E1 as [-> _]. st_inv E0. apply cast_uuid_ok in E1 as [-> Hlid].
    st_inv E0. injection E1 as <- <-. simpl in *. assert (a3 = new_id e) as -> by congruence.
    rewrite existsb_app in E0. simpl in E0. rewrite bool_decide_eq_true_2, orb_true_r in E0 by done.
    st_inv E0. injection E1 as <- <-. injection E0 as <-. st_inv E. unfold emit_changed in E0.
    destruct (emit_ok e); [|done]. injection E0 as <-. injection E as <- <-.
    exists a0. split; [done|]. split; [by repeat (split; [done|])|].
    unfold applied_db, set_outbox, set_ledger, set_next_seq, set_balances. simpl.
    rewrite map_app, stamp_other by done. simpl. unfold stamp. rewrite bool_decide_eq_true_2 by done.
    simpl. by replace (next_seq d + 1 + 1) with (next_seq d + 2) by lia.
Qed.

(** The sequence only grows. *)
Lemma seq_mono_modify (f : WalletDb → WalletDb) :
  (∀ d, next_seq (f d) = next_seq d) → st_mono (E := SqlError) next_seq (modify f).
Proof. intros Hf d d' r [= <- <-]. rewrite Hf. lia. Qed.

Lemma seq_mono_nextval : st_mono next_seq nextval.
Proof. intros d d' r [= <- <-]. simpl. lia. Qed.

Lemma seq_mono_bind_text l : st_mono next_seq (bind_text (S := WalletDb) l).
Proof. unfold bind_text. case_match; auto with swarog. Qed.

Lemma seq_mono_cast p : st_mono next_seq (cast_uuid (S := WalletDb) p).
Proof. apply st_mono_lift. Qed.

Lemma seq_mono_add a b : st_mono next_seq (bigint_add (S := WalletDb) a b).
Proof. unfold bigint_add. case_match; auto with swarog. Qed.

Lemma seq_mono_check_amount a : st_mono next_seq (check_amount a).
Proof. unfold check_amount. case_match; auto with swarog. Qed.

Hint Resolve seq_mono_nextval seq_mono_bind_text seq_mono_cast seq_mono_add seq_mono_check_amount : swarog.

Ltac seq_mono :=
  repeat first
    [ solve [eauto with swarog]
    | apply st_mono_map_err
    | apply st_mono_bind; [|intros ?]
    | apply seq_mono_modify; intros ?; solve [repeat case_match; reflexivity]
    | case_match ].

Lemma seq_mono_apply_on e m sign : st_mono next_seq (apply_on e m sign).
Proof.
  unfold apply_on, is_player_purged_tx, insert_ledger_tx, existing_ledger_tx, apply_balance_tx,
    update_balance, upsert_balance, currency_exists_tx, check_currency, set_balance_after_tx. seq_mono.
  - intros d d' r. unfold emit_changed. case_match; intros [= <- <-]; simpl; lia.
Qed.

(** ** The books *)

Definition total (p c : string) (l : list LedgerRow) : Z :=
  foldr (fun r acc => (if bool_decide (player_id r = p ∧ currency r = c) then delta r else 0) + acc) 0 l.

(** What a ledger row and its event have in common. *)
Definition row_facts (r : LedgerRow) := (id r, currency r, delta r, balance_after r, reason r).
Definition event_facts (c : Changed) :=
  (ch_ledger_id c, ch_currency c, ch_delta c, ch_balance_after c, ch_reason c).

Record wallet_inv (d : WalletDb) : Prop := {
  wi_range : ∀ p c a, balances d !! (p, c) = Some a → 0 ≤ a ≤ MAX_BALANCE ∧ is_Some (currencies d !! c);
  wi_codes : ∀ c, is_Some (currencies d !! c) → (String.length c ≤ MAX_CURRENCY_CODE_BYTES)%nat;
  wi_sum : ∀ p c, p ≠ PURGE_SENTINEL → default 0 (balances d !! (p, c)) = total p c (ledger d);
  wi_running : ∀ pre r post, ledger d = pre ++ r :: post → player_id r ≠ PURGE_SENTINEL →
    balance_after r = total (player_id r) (currency r) (pre ++ [r]);
  wi_keys : NoDup (idempotency_key <$> ledger d);
  wi_ids : NoDup (id <$> ledger d);
  wi_seq : StronglySorted Z.lt (seq <$> ledger d);
  wi_next : Forall (fun n => n < next_seq d) (seq <$> ledger d);
  wi_canon : Forall (fun r => uuid_in (player_id r) = Some (player_id r)) (ledger d);
  wi_tomb : ∀ u t, purged d !! u = Some t → uuid_in u = Some u;
  wi_swept : ∀ u t, purged d !! u = Some t → swept t = true → u ≠ PURGE_SENTINEL →
    (∀ c, balances d !! (u, c) = None) ∧ Forall (fun r => player_id r ≠ u) (ledger d);
  wi_events : row_facts <$> ledger d = event_facts <$> outbox d;
}.

Lemma total_app p c l1 l2 : total p c (l1 ++ l2) = total p c l1 + total p c l2.
Proof. induction l1 as [|r l1 IH]; simpl; [lia|]. unfold total in *. simpl. rewrite IH. lia. Qed.

Lemma total_one p c r : total p c [r] = if bool_decide (player_id r = p ∧ currency r = c) then delta r else 0.
Proof. unfold total. simpl. lia. Qed.

Lemma prefix_snoc {A} (l pre post : list A) (x r : A) :
  l ++ [x] = pre ++ r :: post → (∃ post', l = pre ++ r :: post') ∨ (l = pre ∧ x = r).
Proof.
  destruct post as [|y post _] using rev_ind; intros E.
  - right. by apply app_inj_tail in E.
  - left. rewrite app_comm_cons, app_assoc in E. apply app_inj_tail in E as [-> _]. eauto.
Qed.

Lemma inv_applied e m u dlt b d :
  wallet_inv d → takes_effect e m u dlt b d → wallet_inv (applied_db e m u dlt b d).
Proof.
  intros [] (Hu & Hp & Hk & Hi & Hb & Hbnd & Hcur). split; simpl.
  - intros p c a. rewrite lookup_insert. case_decide as Hpc.
    + intros [= <-]. simplify_eq. split; [done|]. destruct Hcur as [[a0 Ha]|?]; [|done]. by eapply wi_range0.
    + apply wi_range0.
  - done.
  - intros p c Hps. rewrite total_app, total_one, <- wi_sum0 by done. simpl. rewrite lookup_insert.
    case_decide as Hpc; case_bool_decide; simplify_eq/=; [done|naive_solver|naive_solver|lia].
  - intros pre r post E Hps. apply prefix_snoc in E as [(post' & E)|[E <-]]; [by eapply wi_running0|].
    simpl in *. subst pre. rewrite total_app, total_one, <- wi_sum0 by done. simpl. by rewrite bool_decide_eq_true_2.
  - rewrite fmap_app. apply NoDup_app. split; [done|]. split; [set_solver|]. apply NoDup_singleton.
  - rewrite fmap_app. apply NoDup_app. split; [done|]. split; [set_solver|]. apply NoDup_singleton.
  - rewrite fmap_app. apply StronglySorted_app_2; [|done|repeat constructor].
    intros x y Hx ->%list_elem_of_singleton. rewrite Forall_forall in wi_next0. specialize (wi_next0 _ Hx). simpl. lia.
  - rewrite fmap_app. apply Forall_app. split; [|by apply Forall_singleton; simpl; lia].
    eapply Forall_impl; [exact wi_next0|]. simpl. lia.
  - apply Forall_app. split; [done|]. apply Forall_singleton. simpl. by eapply uuid_in_canonical.
  - done.
  - intros u' t Ht Hs Hne. destruct (wi_swept0 u' t Ht Hs Hne) as [Hb' Hl].
    assert (u' ≠ u) by (intros ->; congruence). split.
    + intros c. rewrite lookup_insert_ne by congruence. done.
    + apply Forall_app. split; [done|]. by apply Forall_singleton.
  - rewrite !fmap_app. by rewrite wi_events0.
Qed.

Lemma inv_burn n d : wallet_inv d → next_seq d ≤ n → wallet_inv (set_next_seq n d).
Proof.
  intros [] Hn. split; simpl; try done. eapply Forall_impl; [exact wi_next0|]. simpl. lia.
Qed.

Lemma inv_rollback {E A} (m : ST WalletDb E A) d d' r :
  st_mono next_seq m → m d = (d', r) → wallet_inv d → wallet_inv (rollback d d').
Proof. intros Hm Em Hd. apply inv_burn; [done|]. by eapply Hm. Qed.

(** ** The purge *)

(** The tables after one player was purged, and after the tombstone was stamped. *)
Definition purged_db (u : string) (d : WalletDb) : WalletDb :=
  set_ledger (map (reown u PURGE_SENTINEL) (ledger d))
    (set_balances (filter (fun kv => fst (fst kv) ≠ u) (balances d)) d).
Definition swept_db (u : string) (d : WalletDb) : WalletDb :=
  let d' := purged_db u d in set_purged (alter (fun t => mkTombstone (handle_text t) true) u (purged d')) d'.

Lemma reown_facts u r : row_facts (reown u PURGE_SENTINEL r) = row_facts r
  ∧ idempotency_key (reown u PURGE_SENTINEL r) = idempotency_key r ∧ seq (reown u PURGE_SENTINEL r) = seq r
  ∧ id (reown u PURGE_SENTINEL r) = id r.
Proof. unfold reown. case_bool_decide; done. Qed.

Lemma fmap_reown {A} (f : LedgerRow → A) u l :
  (∀ r, f (reown u PURGE_SENTINEL r) = f r) → f <$> map (reown u PURGE_SENTINEL) l = f <$> l.
Proof. intros Hf. change (map ?g l) with (g <$> l). rewrite <- list_fmap_compose. apply list_fmap_ext. naive_solver. Qed.

Lemma reown_player u r : player_id (reown u PURGE_SENTINEL r) = if bool_decide (player_id r = u) then PURGE_SENTINEL else player_id r.
Proof. unfold reown. case_bool_decide; done. Qed.

Lemma total_reown p c u l :
  p ≠ PURGE_SENTINEL →
  total p c (map (reown u PURGE_SENTINEL) l) = if bool_decide (p = u) then 0 else total p c l.
Proof.
  intros Hp. induction l as [|r l IH]; [by case_bool_decide|]. unfold total in *. simpl. rewrite IH, reown_player.
  assert (Hc : currency (reown u PURGE_SENTINEL r) = currency r ∧ delta (reown u PURGE_SENTINEL r) = delta r)
    by (unfold reown; destruct (bool_decide (player_id r = u)); done). destruct Hc as [-> ->].
  repeat case_bool_decide; naive_solver lia.
Qed.

Lemma map_split {A B} (f : A → B) l pre r post :
  map f l = pre ++ r :: post → ∃ pre' r' post', l = pre' ++ r' :: post' ∧ pre = map f pre' ∧ r = f r'.
Proof.
  intros E. apply fmap_app_inv in E as (pre' & l2 & -> & E & ->).
  destruct l2 as [|r' post']; [done|]. injection E as -> ->. by exists pre', r', post'.
Qed.

Lemma inv_purge u d : wallet_inv d → wallet_inv (purged_db u d).
Proof.
  intros []. assert (Hflt : ∀ p c, filter (fun kv => fst (fst kv) ≠ u) (balances d) !! (p, c)
    = if bool_decide (p = u) then None else balances d !! (p, c)).
  { intros p c. rewrite map_lookup_filter. destruct (balances d !! (p, c)) as [x|]; simpl; case_bool_decide; try done.
    - by rewrite option_guard_False by naive_solver.
    - by rewrite option_guard_True. }
  split; simpl.
  - intros p c a. rewrite Hflt. case_bool_decide; [done|]. apply wi_range0.
  - done.
  - intros p c Hp. rewrite Hflt, total_reown by done. case_bool_decide; [done|]. by apply wi_sum0.
  - intros pre r post (pre' & r' & post' & E & -> & ->)%map_split. rewrite reown_player.
    case_bool_decide as Hr; [done|]. intros Hps.
    assert (Hrr : reown u PURGE_SENTINEL r' = r') by (unfold reown; by rewrite bool_decide_eq_false_2).
    rewrite Hrr. rewrite (wi_running0 _ _ _ E Hps), !total_app, total_reown by done.
    by rewrite bool_decide_eq_false_2.
  - rewrite fmap_reown by apply reown_facts. done.
  - rewrite fmap_reown by apply reown_facts. done.
  - rewrite fmap_reown by apply reown_facts. done.
  - rewrite fmap_reown by apply reown_facts. done.
  - apply Forall_map. eapply Forall_impl; [exact wi_canon0|]. intros r Hr. simpl. rewrite reown_player.
    case_bool_decide; [apply uuid_in_nil|done].
  - done.
  - intros u' t Ht Hs Hne. destruct (wi_swept0 u' t Ht Hs Hne) as [Hb Hl]. split.
    + intros c. rewrite Hflt. by case_bool_decide.
    + apply Forall_map. eapply Forall_impl; [exact Hl|]. intros r Hr. simpl. rewrite reown_player.
      by case_bool_decide.
  - rewrite fmap_reown by apply reown_facts. done.
Qed.

Lemma inv_swept u d : wallet_inv d → wallet_inv (swept_db u d).
Proof.
  intros Hd. pose proof (inv_purge u d Hd) as []. unfold swept_db. split; simpl; try done.
  - intros u' t. destruct (decide (u' = u)) as [->|Hne].
    + rewrite lookup_alter_eq. intros (t' & Ht & _)%fmap_Some. eauto.
    + rewrite lookup_alter_ne by done. eauto.
  - intros u' t. destruct (decide (u' = u)) as [->|Hne]; [|rewrite lookup_alter_ne by done; apply wi_swept0].
    intros _ _ Hne. split.
    + intros c. apply map_lookup_filter_None. right. naive_solver.
    + apply Forall_map, Forall_forall. intros r _. simpl. rewrite reown_player. by case_bool_decide.
Qed.

Lemma sweep_player_run u d :
  uuid_in u = Some u → purge_player_tx u d = (purged_db u d, Ok ())
  ∧ mark_swept u (purged_db u d) = (swept_db u d, Ok ()).
Proof.
  intros Hu. unfold purge_player_tx, mark_swept, bind_text, cast_uuid, PURGE_SENTINEL. simpl.
  rewrite (uuid_in_no_nul _ _ Hu). unfold mbind, ST_bind, lift, mret, ST_ret. simpl.
  rewrite Hu. simpl. by rewrite uuid_in_nil.
Qed.

Lemma inv_plant p hnd d d' r : wallet_inv d → plant_purged_player_tx p hnd d = (d', r) →
  wallet_inv d' ∧ (∀ e, r = Err e → d' = d).
Proof.
  intros Hd. unfold plant_purged_player_tx, bind_text, cast_uuid, mbind, ST_bind, lift, modify, mret, ST_ret, fail.
  simpl. destruct (_ || _); [by intros [= <- <-]|]. destruct (uuid_in p) as [u|] eqn:Hu; simpl; [|by intros [= <- <-]].
  intros [= <- <-]. split; [|done]. case_match eqn:Ep; [done|]. destruct Hd. split; simpl; try done.
  - intros u' t. rewrite lookup_insert. case_decide; [intros _; subst; by eapply uuid_in_canonical|eauto].
  - intros u' t. rewrite lookup_insert. case_decide; [by intros [= <-]|eauto].
Qed.

Lemma write_currency_effect code name knd decs oc d d' r :
  write_currency_tx code name knd decs oc d = (d', r) →
  d' = d ∨ ((String.length code ≤ MAX_CURRENCY_CODE_BYTES)%nat
            ∧ d' = set_currencies (<[code := mkCurrency name knd decs]> (currencies d)) d).
Proof.
  unfold write_currency_tx, bind_text, currency_checks, mbind, ST_bind, modify, mret, ST_ret, fail. simpl.
  intros E. destruct (has_nul code || _) in E; [left; congruence|]. case_bool_decide; [left; congruence|].
  unfold MAX_CURRENCY_CODE_BYTES. repeat case_match; simplify_eq; auto with lia.
Qed.

Lemma inv_write_currency code name knd decs oc d d' r :
  wallet_inv d → write_currency_tx code name knd decs oc d = (d', r) → wallet_inv d'.
Proof.
  intros Hd [->|[Hlen ->]]%write_currency_effect; [done|]. destruct Hd. split; simpl; try done.
  - intros p c a Ha. destruct (wi_range0 _ _ _ Ha). split; [done|]. rewrite lookup_insert. by case_decide.
  - intros c. rewrite lookup_insert. case_decide; [by subst|eauto].
Qed.

(** ** Steps *)

(** A durable handler runs in the plane's transaction: its effects stay if it
    succeeds, else they are rolled back to the savepoint. *)
Definition deliver {E A} (m : ST WalletDb E A) (d : WalletDb) : WalletDb :=
  match m d with (d', Ok _) => d' | (d', Err _) => rollback d d' end.

Inductive wstep : WalletDb → WalletDb → Prop :=
| StepMove e m sign d : env_ok e → sign = 1 ∨ sign = -1 → wstep d (fst (apply e m sign d))
| StepRegistered e cur amount provider p d :
    env_ok e → wstep d (deliver (on_player_registered e cur amount provider p) d)
| StepPromoted e cur amount p d : env_ok e → wstep d (deliver (grant_starter e cur amount p) d)
| StepDeleted p hnd d : wstep d (deliver (on_player_deleted p hnd) d)
| StepFired elapsed name d d' : on_scheduler_fired elapsed name d = Some (d', Ok ()) → wstep d d'
| StepCurrency code name knd decs oc d : wstep d (fst (write_currency_tx code name knd decs oc d)).

Definition wreachable : WalletDb → Prop := rtc wstep empty_db.

Lemma inv_apply_on e m sign d d' o :
  env_ok e → wallet_inv d → apply_on e m sign d = (d', Ok o) → wallet_inv d'.
Proof.
  intros He Hd E. apply apply_on_ok in E as (u & _ & _ & Hc); [|done].
  destruct Hc as [(_ & _ & ->)|[(r & _ & _ & _ & _ & ->)|(b & _ & Ht & ->)]]; [done| |by apply inv_applied].
  apply inv_burn; [done|lia].
Qed.

Lemma inv_apply e m sign d : env_ok e → wallet_inv d → wallet_inv (fst (apply e m sign d)).
Proof.
  intros He Hd. unfold apply. destruct (validate_movement m); [|done]. destruct (begin_ok e); [|done]. simpl.
  destruct (apply_on e m sign d) as [d' r] eqn:E.
  pose proof (inv_rollback _ _ _ _ (seq_mono_apply_on e m sign) E Hd) as Hr.
  destruct r as [[b| | |]|]; simpl; try done.
  apply inv_apply_on in E; [|done..]. destruct (commit_result e) as [|[]]; simpl; done.
Qed.

Lemma inv_grant e cur amount p d d' r :
  env_ok e → wallet_inv d → grant_starter e cur amount p d = (d', Ok r) → wallet_inv d'.
Proof.
  intros He Hd. unfold grant_starter. repeat (case_match; [by intros [= <- <-]|]). intros E.
  st_inv E. apply st_map_err_ok in E0. unfold currency_exists_tx in E0. st_inv E0.
  apply bind_text_ok in E1 as [-> _]. injection E0 as <- <-.
  case_match; [by injection E as <- <-|]. st_inv E. injection E as <- <-. by eapply inv_apply_on.
Qed.

Lemma seq_mono_grant e cur amount p : st_mono next_seq (grant_starter e cur amount p).
Proof.
  unfold grant_starter, currency_exists_tx. pose proof seq_mono_apply_on. seq_mono.
Qed.

(** *** The sweep *)

Definition unswept (d : WalletDb) : gmap string Tombstone := filter (fun kv => swept (snd kv) = false) (purged d).

Definition sweep_all (d : WalletDb) (l : list string) : WalletDb := foldl (fun d u => swept_db u d) d l.

Lemma unswept_swept u d : unswept (swept_db u d) = delete u (unswept d).
Proof.
  unfold unswept, swept_db. simpl. apply map_eq. intros k. apply option_eq. intros t.
  rewrite lookup_delete_Some, !map_lookup_filter_Some. simpl. destruct (decide (k = u)) as [->|Hne].
  - rewrite lookup_alter_eq, fmap_Some. naive_solver.
  - rewrite lookup_alter_ne by done. naive_solver.
Qed.

Lemma unswept_sweep_all l d u : is_Some (unswept (sweep_all d l) !! u) ↔ is_Some (unswept d !! u) ∧ u ∉ l.
Proof.
  revert d. induction l as [|v l IH]; intros d; simpl; [set_solver|].
  unfold sweep_all in *. simpl. rewrite IH, unswept_swept, not_elem_of_cons. unfold is_Some.
  setoid_rewrite lookup_delete_Some. naive_solver.
Qed.

Lemma sweep_all_size l d :
  NoDup l → (∀ u, u ∈ l → is_Some (unswept d !! u)) →
  (size (unswept (sweep_all d l)) + length l = size (unswept d))%nat.
Proof.
  revert d. induction l as [|v l IH]; intros d Hnd Hl; simpl; [unfold sweep_all; simpl; lia|].
  apply NoDup_cons in Hnd as [Hv Hnd]. unfold sweep_all in *. simpl.
  destruct (Hl v) as [t Ht]; [by left|].
  pose proof (IH (swept_db v d) Hnd) as IH'. rewrite unswept_swept in IH'.
  rewrite (map_size_delete_Some v (unswept d)) in IH' by eauto.
  assert (0 < size (unswept d))%nat.
  { apply Nat.neq_0_lt_0. intros E%map_size_empty_inv. rewrite E in Ht. by rewrite lookup_empty in Ht. }
  enough (Hs : ∀ u, u ∈ l → is_Some (delete v (unswept d) !! u)) by (specialize (IH' Hs); lia).
  intros u Hu. rewrite lookup_delete_ne by (intros ->; done). apply Hl. by right.
Qed.

Lemma inv_sweep_all l d : wallet_inv d → wallet_inv (sweep_all d l).
Proof. revert d. induction l as [|u l IH]; intros d Hd; simpl; [done|]. by apply IH, inv_swept. Qed.

(** One batch sweeps a non-empty prefix of its players, all of them unless the
    budget runs out. *)
Lemma sweep_batch_run elapsed n l d :
  Forall (fun u => uuid_in u = Some u) l →
  ∃ k stop, sweep_batch elapsed n l d = (sweep_all d (take k l), Ok ((n + k)%nat, stop))
    ∧ (k ≤ length l)%nat ∧ (l ≠ [] → 0 < k)%nat ∧ (stop = false → k = length l)
    ∧ (stop = true → ∃ i, elapsed i = true).
Proof.
  intros Hl. revert n d. induction Hl as [|u l Hu Hl IH]; intros n d; simpl.
  { exists 0%nat, false. split; [by rewrite Nat.add_0_r|]. naive_solver. }
  destruct (sweep_player_run u d Hu) as [E1 E2].
  rewrite (st_bind_run _ _ _ _ _ E1), (st_bind_run _ _ _ _ _ E2). destruct (elapsed n) eqn:Ee.
  - exists 1%nat, true. split; [by replace (n + 1)%nat with (S n) by lia|]. split; [lia|]. naive_solver lia.
  - destruct (IH (S n) (swept_db u d)) as (k & stop & E & Hk & _ & Hs & Ht). exists (S k), stop.
    rewrite E. split; [by replace (S n + k)%nat with (n + S k)%nat by lia|]. split; [simpl; lia|].
    split; [lia|]. split; [|done]. intros Hstop. simpl. by rewrite Hs.
Qed.

(** A batch: distinct unswept tombstones, the least first; short only when none is
    left. *)
Lemma due_batch_spec w d :
  (∀ u, is_Some (unswept d !! u) → String.le w u) →
  NoDup (due_batch w d) ∧ (∀ u, u ∈ due_batch w d → is_Some (unswept d !! u))
  ∧ (∀ u, is_Some (unswept d !! u) → u ∈ due_batch w d ∨
       (length (due_batch w d) = PURGE_BATCH ∧ ∀ v, v ∈ due_batch w d → String.le v u)).
Proof.
  intros Hw. unfold due_batch. set (L := List.filter _ _).
  assert (HL : ∀ u, u ∈ L ↔ is_Some (unswept d !! u)).
  { intros u. subst L. rewrite list_elem_of_In, filter_In, <- list_elem_of_In, list_elem_of_fmap, bool_decide_eq_true.
    assert (Hm : (∃ kv, u = fst kv ∧ kv ∈ List.filter (fun kv => negb (swept (snd kv))) (map_to_list (purged d)))
                 ↔ is_Some (unswept d !! u)).
    { unfold unswept, is_Some. setoid_rewrite map_lookup_filter_Some.
      setoid_rewrite list_elem_of_In. setoid_rewrite filter_In. setoid_rewrite <- list_elem_of_In.
      split.
      - intros ([k t] & -> & Hin & Hs). apply elem_of_map_to_list in Hin. exists t. by apply negb_true_iff in Hs.
      - intros (t & Ht & Hs). exists (u, t). rewrite elem_of_map_to_list. simpl in *. by rewrite Hs. }
    rewrite Hm. naive_solver. }
  assert (Hnd : NoDup L).
  { subst L. eapply sublist_NoDup; [|apply filter_sublist].
    eapply sublist_NoDup; [exact (NoDup_fst_map_to_list (purged d))|apply fmap_sublist, filter_sublist]. }
  clearbody L. assert (Hperm : merge_sort String.le L ≡ₚ L) by apply merge_sort_Permutation.
  assert (Hsort : StronglySorted String.le (merge_sort String.le L)) by (apply StronglySorted_merge_sort; apply _).
  generalize dependent (merge_sort String.le L). intros S Hperm Hsort.
  assert (Hin : ∀ u, u ∈ S ↔ is_Some (unswept d !! u)) by (intros u; by rewrite Hperm).
  rewrite <- (take_drop PURGE_BATCH S) in Hsort, Hin.
  split; [eapply sublist_NoDup; [|apply sublist_take]; by rewrite Hperm|]. split.
  - intros u Hu. apply Hin, elem_of_app. by left.
  - intros u [Hu|Hu]%Hin%elem_of_app; [by left|right]. split.
    + apply length_take_le. assert (drop PURGE_BATCH S ≠ []) by (intros E; rewrite E in Hu; by apply elem_of_nil in Hu).
      apply Nat.lt_le_incl, Nat.nle_gt. intros Hle. by rewrite drop_ge in * by done.
    + intros v Hv. by eapply StronglySorted_app_1_elem_of.
Qed.

(** The loop: with one unit of fuel per unswept tombstone and one more it ends,
    having swept some of them (one at least, all if the budget lasts). *)
Lemma sweep_loop_run elapsed fuel n w d :
  (size (unswept d) < fuel)%nat → wallet_inv d → (∀ u, is_Some (unswept d !! u) → String.le w u) →
  ∃ l, sweep_loop elapsed fuel n w d = Some (sweep_all d l, Ok ())
    ∧ (∀ u, u ∈ l → is_Some (unswept d !! u)) ∧ (unswept d ≠ ∅ → l ≠ [])
    ∧ ((∀ i, elapsed i = false) → ∀ u, is_Some (unswept d !! u) → u ∈ l).
Proof.
  revert n w d. induction fuel as [|fuel IH]; intros n w d Hf Hd Hw; [lia|]. simpl.
  destruct (due_batch_spec w d Hw) as (Hnd & Hsub & Hall).
  assert (Hcan : Forall (fun u => uuid_in u = Some u) (due_batch w d)).
  { apply Forall_forall. intros u [t Ht]%Hsub. apply map_lookup_filter_Some in Ht as [Ht _]. by eapply wi_tomb. }
  destruct (sweep_batch_run elapsed n (due_batch w d) d Hcan) as (k & stop & E & Hk & Hpos & Hs & He). rewrite E.
  assert (Htake : ∀ u, u ∈ take k (due_batch w d) → is_Some (unswept d !! u)).
  { intros u Hu. apply Hsub. rewrite <- (take_drop k (due_batch w d)). apply elem_of_app. by left. }
  assert (Hne : unswept d ≠ ∅ → due_batch w d ≠ []).
  { intros [u [t Ht]]%map_choose Hnil. destruct (Hall u) as [Hu|[Hlen _]]; [eauto| |].
    - rewrite Hnil in Hu. by apply elem_of_nil in Hu.
    - by rewrite Hnil in Hlen. }
  destruct stop.
  { eexists. split; [done|]. split; [done|]. split.
    - intros Hu Hnil. specialize (Hpos (Hne Hu)). apply (f_equal length) in Hnil. rewrite length_take in Hnil. simpl in Hnil. lia.
    - intros Hi. destruct He as [i Hi']; [done|]. congruence. }
  rewrite (Hs eq_refl), take_ge in * by lia. destruct (Nat.ltb_spec (length (due_batch w d)) PURGE_BATCH) as [Hlt|Hge].
  { eexists. split; [done|]. split; [done|]. split; [done|].
    intros _ u Hu. destruct (Hall u Hu) as [|[Hlen _]]; [done|lia]. }
  destruct (IH (n + length (due_batch w d))%nat (default w (last (due_batch w d))) (sweep_all d (due_batch w d)))
    as (l & El & Hl & _ & Hfull).
  - pose proof (sweep_all_size _ d Hnd Hsub). unfold PURGE_BATCH in Hge. lia.
  - by apply inv_sweep_all.
  - intros u [Hu Hnot]%unswept_sweep_all. destruct (Hall u Hu) as [|[_ Hle]]; [done|].
    destruct (last (due_batch w d)) as [v|] eqn:El; simpl; [|by apply Hw]. apply Hle. by apply last_Some_elem_of.
  - exists (due_batch w d ++ l). rewrite El. split; [unfold sweep_all; by rewrite foldl_app|]. split; [|split].
    + intros u [?|Hu%Hl%unswept_sweep_all]%elem_of_app; [by apply Hsub|by destruct Hu].
    + intros Hu. specialize (Hne Hu). by destruct (due_batch w d).
    + intros Hi u Hu. apply elem_of_app. destruct (decide (u ∈ due_batch w d)); [by left|right].
      apply Hfull; [done|]. by apply unswept_sweep_all.
Qed.

Lemma unswept_least d u : wallet_inv d → is_Some (unswept d !! u) → String.le PURGE_FLOOR u.
Proof.
  intros Hd [t [Ht _]%map_lookup_filter_Some]. eapply uuid_in_least. by eapply wi_tomb.
Qed.

Lemma unswept_size d : (size (unswept d) ≤ size (purged d))%nat.
Proof. apply map_subseteq_size, map_filter_subseteq. Qed.

Lemma sweep_run elapsed d :
  wallet_inv d →
  ∃ l, sweep_purged_players elapsed d = Some (sweep_all d l, Ok ())
    ∧ (∀ u, u ∈ l → is_Some (unswept d !! u)) ∧ (unswept d ≠ ∅ → l ≠ [])
    ∧ ((∀ i, elapsed i = false) → ∀ u, is_Some (unswept d !! u) → u ∈ l).
Proof.
  intros Hd. apply sweep_loop_run; [pose proof (unswept_size d); lia|done|].
  intros u. by apply unswept_least.
Qed.

Lemma inv_fired elapsed name d d' r :
  wallet_inv d → on_scheduler_fired elapsed name d = Some (d', r) →
  ∃ l, d' = sweep_all d l ∧ ∀ u, u ∈ l → is_Some (unswept d !! u).
Proof.
  intros Hd. unfold on_scheduler_fired. case_bool_decide.
  - intros [= <- <-]. exists []. split; [done|]. intros u []%elem_of_nil.
  - destruct (sweep_run elapsed d Hd) as (l & -> & Hl & _). intros [= <- <-]. eauto.
Qed.

Lemma inv_deliver {E A} (m : ST WalletDb E A) d :
  st_mono next_seq m → (∀ d' a, m d = (d', Ok a) → wallet_inv d') → wallet_inv d → wallet_inv (deliver m d).
Proof.
  intros Hm Hok Hd. unfold deliver. destruct (m d) as [d' [a|e]] eqn:Em; [by eapply Hok|by eapply inv_rollback].
Qed.

Lemma seq_mono_deleted p hnd : st_mono next_seq (on_player_deleted p hnd).
Proof. unfold on_player_deleted, plant_purged_player_tx. seq_mono. Qed.

Lemma wstep_inv d d' : wstep d d' → wallet_inv d → wallet_inv d'.
Proof.
  intros Hs Hd. destruct Hs as [e m sign d He _|e cur amount provider p d He|e cur amount p d He|p hnd d
    |elapsed name d d' E|code name knd decs oc d].
  - by apply inv_apply.
  - apply inv_deliver; [|intros d' a|done]; unfold on_player_registered; case_bool_decide.
    + apply st_mono_ret.
    + apply seq_mono_grant.
    + by intros [= <- <-].
    + by apply inv_grant.
  - apply inv_deliver; [apply seq_mono_grant| |done]. intros d' a. by apply inv_grant.
  - apply inv_deliver; [apply seq_mono_deleted| |done]. intros d' a E%st_map_err_ok. by eapply inv_plant.
  - destruct (inv_fired _ _ _ _ _ Hd E) as (l & -> & _). by apply inv_sweep_all.
  - destruct (write_currency_tx _ _ _ _ _ _) as [d' r] eqn:E. by eapply inv_write_currency.
Qed.

Lemma wreachable_inv d : wreachable d → wallet_inv d.
Proof.
  apply (rtc_ind_r wallet_inv empty_db).
  - split; simpl; try done; try (by constructor); try (by intros [] ?); try (by intros ? []).
  - intros d1 d2 _ Hs Hd. by eapply wstep_inv.
Qed.

(** ** Ledger rows are for ever *)

(** What a later state keeps of an earlier one: the tombstones, and every ledger
    row under its key with the same facts, re-owned only if its player is gone. *)
Definition kept (d d' : WalletDb) : Prop :=
  (∀ u, is_Some (purged d !! u) → is_Some (purged d' !! u))
  ∧ ∀ r, r ∈ ledger d → ∃ r', r' ∈ ledger d' ∧ idempotency_key r' = idempotency_key r
      ∧ row_facts r' = row_facts r ∧ (player_id r' = player_id r ∨ is_Some (purged d' !! player_id r)).

#[global] Instance kept_refl : Reflexive kept.
Proof. intros d. split; [done|]. intros r Hr. exists r. auto. Qed.

#[global] Instance kept_trans : Transitive kept.
Proof.
  intros d1 d2 d3 [Hp1 Hr1] [Hp2 Hr2]. split; [auto|]. intros r Hr.
  destruct (Hr1 r Hr) as (r1 & H1 & Hk1 & Hf1 & Ho1), (Hr2 r1 H1) as (r2 & H2 & Hk2 & Hf2 & Ho2).
  exists r2. split; [done|]. split; [congruence|]. split; [congruence|].
  destruct Ho1 as [Ho1|Ho1]; [rewrite <- Ho1; done|right; auto].
Qed.

Lemma kept_same d d' : purged d' = purged d → ledger d' = ledger d → kept d d'.
Proof. intros Hp Hl. split; [by rewrite Hp|]. intros r Hr. exists r. rewrite Hl. auto. Qed.

Lemma kept_apply_on e m sign d d' o : env_ok e → apply_on e m sign d = (d', Ok o) → kept d d'.
Proof.
  intros He E. apply apply_on_ok in E as (u & _ & _ & Hc); [|done].
  destruct Hc as [(_ & _ & ->)|[(r & _ & _ & _ & _ & ->)|(b & _ & Ht & ->)]]; [done|by apply kept_same|].
  split; [done|]. intros r Hr. exists r. simpl. split; [apply elem_of_app; by left|auto].
Qed.

Lemma kept_swept u d : is_Some (purged d !! u) → kept d (swept_db u d).
Proof.
  intros Hu. assert (Hp : ∀ v, is_Some (purged d !! v) → is_Some (purged (swept_db u d) !! v)).
  { intros v Hv. simpl. destruct (decide (v = u)) as [->|Hne].
    - rewrite lookup_alter_eq. by apply fmap_is_Some.
    - by rewrite lookup_alter_ne. }
  split; [done|]. intros r Hr. exists (reown u PURGE_SENTINEL r). split; [|split; [apply reown_facts|split; [apply reown_facts|]]].
  - simpl. apply list_elem_of_In, in_map. by apply list_elem_of_In.
  - rewrite reown_player. case_bool_decide as E; [right|by left]. rewrite E. by apply Hp.
Qed.

Lemma kept_sweep_all l d : (∀ u, u ∈ l → is_Some (unswept d !! u)) → kept d (sweep_all d l).
Proof.
  enough (H0 : (∀ u, u ∈ l → is_Some (purged d !! u)) → kept d (sweep_all d l)).
  { intros Hl. apply H0. intros u [t [Ht _]%map_lookup_filter_Some]%Hl. eauto. }
  revert d. induction l as [|u l IH]; intros d Hl; [done|]. unfold sweep_all in *. simpl.
  assert (Hk : kept d (swept_db u d)) by (apply kept_swept, Hl; by left).
  etrans; [exact Hk|]. apply IH. intros v Hv. apply Hk, Hl. by right.
Qed.

Lemma kept_deliver {E A} (m : ST WalletDb E A) d :
  (∀ d' a, m d = (d', Ok a) → kept d d') → kept d (deliver m d).
Proof. intros Hm. unfold deliver. destruct (m d) as [d' [a|e]] eqn:Em; [by eapply Hm|by apply kept_same]. Qed.

Lemma kept_grant e cur amount p d d' r :
  env_ok e → grant_starter e cur amount p d = (d', Ok r) → kept d d'.
Proof.
  intros He. unfold grant_starter. repeat (case_match; [by intros [= <- <-]|]). intros E.
  st_inv E. apply st_map_err_ok in E0. unfold currency_exists_tx in E0. st_inv E0.
  apply bind_text_ok in E1 as [-> _]. injection E0 as <- <-.
  case_match; [by injection E as <- <-|]. st_inv E. injection E as <- <-. by eapply kept_apply_on.
Qed.

Lemma kept_plant p hnd d d' r : plant_purged_player_tx p hnd d = (d', Ok r) → kept d d'.
Proof.
  unfold plant_purged_player_tx. intros E. st_inv E. apply bind_text_ok in E0 as [-> _].
  st_inv E. apply cast_uuid_ok in E0 as [-> Hu]. injection E as <-. case_match; [done|].
  split; [|intros r' Hr; by exists r'; auto]. intros v Hv. simpl. rewrite lookup_insert. by case_decide.
Qed.

Lemma kept_apply e m sign d : env_ok e → kept d (fst (apply e m sign d)).
Proof.
  intros He. unfold apply. destruct (validate_movement m); [|done]. destruct (begin_ok e); [|done]. simpl.
  destruct (apply_on e m sign d) as [d' r] eqn:E. assert (Hr : kept d (rollback d d')) by by apply kept_same.
  destruct r as [[b| | |]|]; simpl; try done. apply kept_apply_on in E; [|done].
  by destruct (commit_result e) as [|[]].
Qed.

Lemma wstep_kept d d' : wallet_inv d → wstep d d' → kept d d'.
Proof.
  intros Hd Hs. destruct Hs as [e m sign d He _|e cur amount provider p d He|e cur amount p d He|p hnd d
    |elapsed name d d' E|code name knd decs oc d].
  - by apply kept_apply.
  - apply kept_deliver. intros d' a. unfold on_player_registered. case_bool_decide; [by intros [= <- <-]|by apply kept_grant].
  - apply kept_deliver. intros d' a. by apply kept_grant.
  - apply kept_deliver. intros d' a E%st_map_err_ok. by eapply kept_plant.
  - destruct (inv_fired _ _ _ _ _ Hd E) as (l & -> & Hl). by apply kept_sweep_all.
  - destruct (write_currency_tx _ _ _ _ _ _) as [d' r] eqn:E.
    apply write_currency_effect in E as [->|[_ ->]]; [done|by apply kept_same].
Qed.

Lemma wsteps_kept d d' : wallet_inv d → rtc wstep d d' → wallet_inv d' ∧ kept d d'.
Proof.
  intros Hd Hs. induction Hs as [|d1 d2 d3 H1 _ IH]; [done|].
  destruct IH as [Hi Hk]; [by eapply wstep_inv|]. split; [done|].
  etrans; [by apply wstep_kept|done].
Qed.

End Safety.
