(* ===== verification/WalletContract.v ===== *)
(** * WalletContract: what the wallet promises its callers

    The forward behaviour of the movement authority on every input, and the
    theorems about movements, replays, the starter grant, the purge sweep and the
    ledger page. *)

From Stdlib Require Import Ascii.
From stdpp Require Import sorting.
From S2P Require Import Prelude Text OpsApi Pg Wallet WalletSafety.
#[local] Open Scope Z_scope.
#[local] Arguments Nat.modulo : simpl never.
#[local] Arguments Nat.mul : simpl never.
#[local] Arguments Nat.leb : simpl never.
#[local] Arguments Nat.ltb : simpl never.
#[local] Arguments Ascii.eqb : simpl never.

Section Forward.
Context `{PgUuid}.

(** The texts of a movement that reach the server. *)
Definition movement_texts (m : Movement) : list string := [m_key m; m_player_id m; m_currency m; m_reason m].

Definition texts_ok (m : Movement) : Prop := existsb has_nul (movement_texts m) = false.

Lemma texts_ok_parts m : texts_ok m →
  has_nul (m_key m) = false ∧ has_nul (m_player_id m) = false
  ∧ has_nul (m_currency m) = false ∧ has_nul (m_reason m) = false.
Proof. unfold texts_ok. simpl. rewrite !orb_false_iff. naive_solver. Qed.

Lemma purged_check_run p u d :
  has_nul p = false → uuid_in p = Some u →
  is_player_purged_tx p d = (d, Ok (bool_decide (is_Some (purged d !! u)))).
Proof.
  intros Hn Hu. unfold is_player_purged_tx, bind_text, cast_uuid, mbind, ST_bind, lift, gets. simpl.
  rewrite Hn. simpl. by rewrite Hu.
Qed.

Lemma existsb_key {A} (f : A → string) (k : string) (l : list A) :
  existsb (fun r => bool_decide (f r = k)) l = bool_decide (k ∈ (f <$> l)).
Proof.
  destruct (existsb _ _) eqn:E; symmetry.
  - apply bool_decide_eq_true, dec_stable. rewrite <- existsb_key_false. by rewrite E.
  - apply bool_decide_eq_false. by apply existsb_key_false.
Qed.

Lemma insert_ledger_run nid key p c dlt why u d :
  existsb has_nul [key; p; c; why] = false → uuid_in p = Some u →
  insert_ledger_tx nid key p c dlt why d =
    (if bool_decide (key ∈ (idempotency_key <$> ledger d)) then (set_next_seq (next_seq d + 1) d, Ok None)
     else if bool_decide (nid ∈ (id <$> ledger d)) then (set_next_seq (next_seq d + 1) d, Err UniqueViolation)
     else (set_ledger (ledger d ++ [mkLedger (next_seq d) nid key u c dlt 0 why]) (set_next_seq (next_seq d + 1) d),
           Ok (Some (nid, u)))).
Proof.
  intros Hn Hu. unfold insert_ledger_tx, bind_text. rewrite Hn. unfold cast_uuid, mbind, ST_bind, lift, gets, nextval.
  simpl. rewrite Hu. simpl.
  rewrite !existsb_key. unfold mbind, ST_bind. simpl. by repeat case_bool_decide.
Qed.

(** The balance statement on a row within its bounds. *)
Lemma apply_balance_run p c dlt u d :
  has_nul p = false → has_nul c = false → uuid_in p = Some u →
  (∀ a, balances d !! (u, c) = Some a → 0 ≤ a ≤ MAX_BALANCE) →
  - MAX_MOVEMENT_AMOUNT ≤ dlt ≤ MAX_MOVEMENT_AMOUNT →
  let b := default 0 (balances d !! (u, c)) + dlt in
  st_map_err balance_error (apply_balance_tx p c dlt) d =
    if bool_decide (is_Some (balances d !! (u, c)) ∨ is_Some (currencies d !! c)) then
      if bool_decide (0 ≤ b ≤ MAX_BALANCE)
      then (set_balances (<[(u, c) := b]> (balances d)) d, Ok b)
      else (d, Err (conflict OUT_OF_RANGE))
    else (d, Err (invalid UNKNOWN_CURRENCY)).
Proof.
  intros Hnp Hnc Hu Hrange Hdlt. unfold apply_balance_tx, update_balance, bind_text. simpl. rewrite Hnp, Hnc. simpl.
  unfold st_map_err, cast_uuid, mbind, ST_bind, lift, gets, mret, ST_ret. simpl. rewrite Hu. simpl.
  destruct (balances d !! (u, c)) as [a|] eqn:Eb; simpl.
  - specialize (Hrange a eq_refl). unfold MAX_BALANCE, MAX_MOVEMENT_AMOUNT in *.
    unfold bigint_add, i64_min, i64_max.
    assert (Hr : (- 2 ^ 63 <=? a + dlt) && (a + dlt <=? 2 ^ 63 - 1) = true) by lia. rewrite Hr.
    unfold mret, ST_ret. simpl. unfold check_amount, MAX_BALANCE. case_bool_decide as Hin.
    + assert (Hc : (0 <=? a + dlt) && (a + dlt <=? 1000000000000000) = true) by lia. by rewrite Hc.
    + assert (Hc : (0 <=? a + dlt) && (a + dlt <=? 1000000000000000) = false) by lia. by rewrite Hc.
  - destruct (Z.ltb_spec dlt 0) as [Hneg|Hpos].
    + unfold currency_exists_tx, bind_text. simpl. rewrite Hnc. simpl. unfold mbind, ST_bind, gets, mret, ST_ret, fail. simpl.
      destruct (currencies d !! c) as [cur|] eqn:Ec; simpl; [|done].
      by rewrite bool_decide_eq_false_2 by lia.
    + unfold upsert_balance, bind_text, check_currency. simpl. rewrite Hnp, Hnc. simpl.
      unfold cast_uuid, mbind, ST_bind, lift, gets, mret, ST_ret. simpl. rewrite Hu. simpl.
      unfold check_amount, MAX_BALANCE, MAX_MOVEMENT_AMOUNT in *.
      assert (Hc : (0 <=? dlt) && (dlt <=? 1000000000000000) = true) by lia. rewrite Hc.
      unfold mret, ST_ret. simpl. rewrite Eb, Hc. simpl.
      destruct (currencies d !! c) as [cur|] eqn:Ec; simpl; [|done].
      by rewrite bool_decide_eq_true_2 by lia.
Qed.

(** ** The contract of a movement *)

(** The stored row of a key. *)
Definition row_of (key : string) (d : WalletDb) : option LedgerRow :=
  find (fun r => bool_decide (idempotency_key r = key)) (ledger d).

(** The abstract verdict on a well-formed movement of player [u]. *)
Inductive Verdict := Moved (b : Z) | Replayed (b : Z) | Refused (e : Error).

Definition verdict (u : string) (m : Movement) (dlt : Z) (d : WalletDb) : Verdict :=
  if bool_decide (is_Some (purged d !! u)) then Refused (conflict PLAYER_DELETED) else
  match row_of (m_key m) d with
  | Some r => if same_movement r m dlt then Replayed (balance_after r) else Refused (conflict IDEMPOTENCY_CONFLICT)
  | None =>
      let b := default 0 (balances d !! (u, m_currency m)) + dlt in
      if bool_decide (is_Some (balances d !! (u, m_currency m)) ∨ is_Some (currencies d !! m_currency m)) then
        if bool_decide (0 ≤ b ≤ MAX_BALANCE) then Moved b else Refused (conflict OUT_OF_RANGE)
      else Refused (invalid UNKNOWN_CURRENCY)
  end.

Definition answer (v : Verdict) : result Error Z :=
  match v with Moved b | Replayed b => Ok b | Refused e => Err e end.

Lemma row_of_some key d r : row_of key d = Some r → r ∈ ledger d ∧ idempotency_key r = key.
Proof.
  unfold row_of. intros [Hin Hk]%find_some. split; [by apply list_elem_of_In|by apply bool_decide_eq_true in Hk].
Qed.

Lemma row_of_none key d : row_of key d = None → key ∉ (idempotency_key <$> ledger d).
Proof.
  unfold row_of. intros Hf (r & Hk & Hr%list_elem_of_In)%list_elem_of_fmap.
  pose proof (find_none _ _ Hf r Hr) as Hn. simpl in Hn. by apply bool_decide_eq_false in Hn.
Qed.

(** What makes the authority reach a verdict rather than a fault. *)
Definition well_formed (m : Movement) : Prop := validate_movement m = Ok () ∧ texts_ok m.

Lemma validate_amount m : validate_movement m = Ok () → 1 ≤ m_amount m ≤ MAX_MOVEMENT_AMOUNT.
Proof. unfold validate_movement. repeat (case_match; [done|]). intros _. lia. Qed.

Lemma set_balance_after_run e d c0 b0 u key c dlt why :
  env_ok e → new_id e ∉ (id <$> ledger d) →
  set_balance_after_tx (new_id e) b0
    (set_balances c0 (set_ledger (ledger d ++ [mkLedger (next_seq d) (new_id e) key u c dlt 0 why])
                                 (set_next_seq (next_seq d + 1) d)))
  = (mkDb (currencies d) c0 (ledger d ++ [mkLedger (next_seq d + 1) (new_id e) key u c dlt b0 why])
          (purged d) (next_seq d + 2) (outbox d), Ok ()).
Proof.
  intros He Hi. unfold set_balance_after_tx, bind_text. simpl. rewrite (uuid_in_no_nul _ _ He). simpl.
  unfold cast_uuid, mbind, ST_bind, lift, gets, mret, ST_ret. simpl. rewrite He. simpl.
  rewrite existsb_app. simpl. rewrite bool_decide_eq_true_2, orb_true_r by done. simpl.
  unfold nextval, mbind, ST_bind. simpl. unfold set_ledger, set_next_seq. simpl.
  rewrite map_app, stamp_other by done. simpl. unfold stamp. rewrite bool_decide_eq_true_2 by done. simpl.
  by replace (next_seq d + 1 + 1) with (next_seq d + 2) by lia.
Qed.

(** The authority's run on a well-formed movement. *)
Lemma apply_on_run e m sign u d :
  wallet_inv d → env_ok e → well_formed m → uuid_in (m_player_id m) = Some u → sign = 1 ∨ sign = -1 →
  (row_of (m_key m) d = None → emit_ok e = true ∧ new_id e ∉ (id <$> ledger d)) →
  let dlt := sign * m_amount m in
  ∃ d', apply_on e m sign d = (d', match verdict u m dlt d with
      | Moved b => Ok (Applied b)
      | Replayed b => Ok (Duplicate b)
      | Refused err =>
          if bool_decide (is_Some (purged d !! u)) then Ok Purged
          else if bool_decide (is_Some (row_of (m_key m) d)) then Ok IdemConflict else Err err
      end)
    ∧ (∀ b, verdict u m dlt d = Moved b → d' = applied_db e m u dlt b d).
Proof.
  intros Hd He [Hv Ht] Hu Hsign Hfresh. cbv zeta. destruct (texts_ok_parts m Ht) as (Hnk & Hnp & Hnc & _).
  pose proof (validate_amount m Hv) as Ham. unfold apply_on, verdict. rewrite Hv.
  rewrite (st_bind_run (lift (Ok ())) _ d d () eq_refl).
  rewrite (st_bind_run _ _ _ _ _ (st_map_err_run movement_error _ _ _ _ (purged_check_run _ _ d Hnp Hu))).
  case_bool_decide as Hp; [eexists; split; [done|by intros]|].
  pose proof (insert_ledger_run (new_id e) (m_key m) (m_player_id m) (m_currency m) (sign * m_amount m) (m_reason m)
                u d Ht Hu) as Hins.
  destruct (row_of (m_key m) d) as [r|] eqn:Er.
  - destruct (row_of_some _ _ _ Er) as [Hr Hk].
    rewrite bool_decide_eq_true_2 in Hins by (apply list_elem_of_fmap; eauto).
    rewrite (st_bind_run _ _ _ _ _ (st_map_err_run movement_error _ _ _ _ Hins)).
    eexists. split; [|intros b; by case_match].
    unfold existing_ledger_tx, bind_text, st_map_err, mbind, ST_bind, gets. simpl. rewrite Hnk. simpl.
    unfold row_of in Er. rewrite Er. simpl. by case_match.
  - destruct (Hfresh eq_refl) as [Hem Hi]. apply row_of_none in Er.
    rewrite bool_decide_eq_false_2, bool_decide_eq_false_2 in Hins by done.
    rewrite (st_bind_run _ _ _ _ _ (st_map_err_run movement_error _ _ _ _ Hins)).
    assert (Hbal := apply_balance_run (m_player_id m) (m_currency m) (sign * m_amount m) u
      (set_ledger (ledger d ++ [mkLedger (next_seq d) (new_id e) (m_key m) u (m_currency m) (sign * m_amount m) 0 (m_reason m)])
                  (set_next_seq (next_seq d + 1) d)) Hnp Hnc Hu).
    cbv zeta in Hbal. simpl balances in Hbal. simpl currencies in Hbal.
    specialize (Hbal (fun a Ha => proj1 (wi_range _ Hd _ _ _ Ha)) ltac:(destruct Hsign; subst; lia)).
    case_bool_decide as Hcur; [case_bool_decide as Hin|].
    + rewrite (st_bind_run _ _ _ _ _ Hbal).
      rewrite (st_bind_run _ _ _ _ _ (st_map_err_run movement_error _ _ _ _ (set_balance_after_run _ _ _ _ _ _ _ _ _ He Hi))).
      eexists. split; [|intros b [= <-]; reflexivity]. unfold emit_changed, mbind, ST_bind. by rewrite Hem.
    + eexists. unfold mbind at 1, ST_bind at 1. rewrite Hbal. split; [|by intros].
      rewrite !bool_decide_eq_false_2; done || (intros [x Hx]; done).
    + eexists. unfold mbind at 1, ST_bind at 1. rewrite Hbal. split; [|by intros].
      rewrite !bool_decide_eq_false_2; done || (intros [x Hx]; done).
Qed.

(** C4: on a well-formed movement, with the database and the event plane working,
    the wallet answers exactly as its contract says: a deleted player is refused; a
    key already used answers the stored balance if the movement is the same and a
    conflict otherwise; an unknown currency is refused; a movement that would leave
    the bounds is refused; any other movement is applied.  Only an applied movement
    changes anything: the balance, one ledger row and one event. *)
Theorem movement_decided (e : Env) (m : Movement) (sign : Z) (u : string) (d : WalletDb) :
  wreachable d → well_formed m → uuid_in (m_player_id m) = Some u → sign = 1 ∨ sign = -1 →
  env_ok e → new_id e ∉ (id <$> ledger d) → begin_ok e = true → emit_ok e = true → commit_result e = Committed →
  let v := verdict u m (sign * m_amount m) d in
  ∃ n, apply e m sign d =
    (match v with Moved b => applied_db e m u (sign * m_amount m) b d | _ => set_next_seq n d end, answer v).
Proof.
  intros Hd%wreachable_inv Hwf Hu Hsign He Hi Hb Hem Hc. cbv zeta.
  destruct (apply_on_run e m sign u d Hd He Hwf Hu Hsign) as (d' & E & Hmoved); [done|]. cbv zeta in *.
  exists (next_seq d'). unfold apply. destruct Hwf as [-> _]. rewrite Hb. simpl. rewrite E. unfold verdict, answer in *.
  repeat case_match; simplify_eq; try done; try congruence.
  all: f_equal; by apply Hmoved.
Qed.

(** *** Replays *)

Lemma apply_on_texts e m sign d d' o :
  apply_on e m sign d = (d', Ok o) → o ≠ Purged → texts_ok m.
Proof.
  intros E Ho. unfold apply_on in E. st_inv E. unfold lift in E0. injection E0 as <- _. st_inv E.
  apply st_map_err_ok, purged_check_ok in E0 as (u & -> & _ & ->). case_bool_decide; [by injection E as <- <-|].
  st_inv E. apply st_map_err_ok in E0. unfold insert_ledger_tx in E0. st_inv E0. by apply bind_text_ok in E1 as [_ ?].
Qed.

Lemma player_id_eq_canonical p u : uuid_in p = Some u → player_id_eq u p = true.
Proof.
  intros Hu. destruct (uuid_in_digits _ _ Hu) as [Hd Hl]. unfold player_id_eq, hex32. rewrite Hd.
  by rewrite !bool_decide_eq_true_2.
Qed.

Lemma player_id_eq_same p q u :
  uuid_in p = Some u → uuid_in q = Some q → player_id_eq q p = true → q = u.
Proof.
  intros Hp Hq. destruct (uuid_in_digits _ _ Hp) as [_ Hl1], (uuid_in_digits _ _ Hq) as [_ Hl2].
  unfold player_id_eq, hex32. rewrite !bool_decide_eq_true_2 by done. intros Hd%bool_decide_eq_true.
  by eapply uuid_in_inj.
Qed.

(** A movement that succeeded left its row behind. *)
Lemma success_row e m sign d d1 b :
  wallet_inv d → env_ok e → apply e m sign d = (d1, Ok b) →
  ∃ u r, uuid_in (m_player_id m) = Some u ∧ well_formed m ∧ wallet_inv d1 ∧ r ∈ ledger d1
    ∧ idempotency_key r = m_key m ∧ player_id r = u ∧ same_movement r m (sign * m_amount m) = true
    ∧ balance_after r = b.
Proof.
  intros Hd He E. pose proof (inv_apply e m sign d He Hd) as Hd1. rewrite E in Hd1. simpl in Hd1.
  unfold apply in E. destruct (validate_movement m) as [[]|] eqn:Hv; [|done].
  destruct (begin_ok e); [|done]. simpl in E. destruct (apply_on e m sign d) as [d' r] eqn:Ea.
  destruct r as [o|]; [|done]. pose proof (apply_on_ok _ _ _ _ _ _ He Ea) as (u & Hu & _ & Hc). exists u.
  destruct Hc as [(-> & _)|[(r & Hp & Hr & Hk & -> & ->)|(b' & -> & Ht & ->)]]; [done| |].
  - destruct (same_movement r m (sign * m_amount m)) eqn:Es; [|done]. injection E as <- <-. exists r.
    assert (Hpl : player_id r = u).
    { pose proof (wi_canon _ Hd) as Hcan. rewrite Forall_forall in Hcan.
      apply (player_id_eq_same (m_player_id m)); [done|by apply Hcan|].
      unfold same_movement in Es. by apply andb_true_iff in Es as [_ ?]. }
    assert (texts_ok m) by (by eapply apply_on_texts). done.
  - destruct (commit_result e); [|done]. injection E as <- <-.
    exists (mkLedger (next_seq d + 1) (new_id e) (m_key m) u (m_currency m) (sign * m_amount m) b' (m_reason m)).
    assert (texts_ok m) by (by eapply apply_on_texts).
    do 2 (split; [done|]). split; [done|]. split; [simpl; apply elem_of_app; right; by left|].
    do 2 (split; [done|]). split; [|done]. unfold same_movement. simpl.
    rewrite !bool_decide_eq_true_2 by done. simpl. by apply player_id_eq_canonical.
Qed.

Lemma row_of_unique d r : NoDup (idempotency_key <$> ledger d) → r ∈ ledger d → row_of (idempotency_key r) d = Some r.
Proof.
  intros Hnd Hr. destruct (row_of (idempotency_key r) d) as [r'|] eqn:E.
  - apply row_of_some in E as [Hr' Hk]. f_equal.
    apply list_elem_of_lookup in Hr as [i Hi], Hr' as [j Hj].
    assert (i = j) as ->; [|congruence].
    apply (NoDup_lookup _ i j (idempotency_key r) Hnd); rewrite list_lookup_fmap; [by rewrite Hi|].
    rewrite Hj. simpl. by rewrite Hk.
  - apply row_of_none in E. exfalso. apply E, list_elem_of_fmap. eauto.
Qed.

(** Retrying a movement that succeeded, at any later time and whatever happened
    in between, moves no money again and gives the same answer as the first time,
    or, if the player has been deleted since, the refusal that says so. *)
Theorem replay_idempotent (e e2 : Env) (m : Movement) (sign b : Z) (d d1 d2 : WalletDb) :
  wreachable d → env_ok e → sign = 1 ∨ sign = -1 → apply e m sign d = (d1, Ok b) →
  rtc wstep d1 d2 → env_ok e2 → begin_ok e2 = true →
  ∃ u n, uuid_in (m_player_id m) = Some u
    ∧ apply e2 m sign d2 = (set_next_seq n d2,
        if bool_decide (is_Some (purged d2 !! u)) then Err (conflict PLAYER_DELETED) else Ok b).
Proof.
  intros Hd%wreachable_inv He Hsign E Hs He2 Hb2.
  destruct (success_row _ _ _ _ _ _ Hd He E) as (u & r & Hu & Hwf & Hd1 & Hr & Hk & Hpl & Hsame & Hbal).
  destruct (wsteps_kept _ _ Hd1 Hs) as [Hd2 [_ Hrows]].
  destruct (Hrows r Hr) as (r' & Hr' & Hk' & Hf & Hown). rewrite Hpl in Hown.
  pose proof (row_of_unique d2 r' (wi_keys _ Hd2) Hr') as Hrow. rewrite Hk', Hk in Hrow.
  destruct (apply_on_run e2 m sign u d2 Hd2 He2 Hwf Hu Hsign) as (d' & Ea & _); [congruence|]. cbv zeta in Ea.
  exists u, (next_seq d'). split; [done|]. unfold apply. destruct Hwf as [-> _]. rewrite Hb2. simpl. rewrite Ea.
  unfold verdict. case_bool_decide as Hp; [done|]. rewrite Hrow.
  destruct Hown as [Hown|]; [|done]. injection Hf as _ Hc Hdl Hba Hre.
  assert (Hs' : same_movement r' m (sign * m_amount m) = true).
  { rewrite <- Hsame. unfold same_movement. by rewrite Hc, Hdl, Hre, Hown, Hpl. }
  rewrite Hs'. simpl. by rewrite Hba, Hbal.
Qed.

(** *** The purge sweep *)

Lemma sweep_all_others l d p c : p ∉ l → balances (sweep_all d l) !! (p, c) = balances d !! (p, c).
Proof.
  revert d. induction l as [|u l IH]; intros d Hp; [done|]. apply not_elem_of_cons in Hp as [Hne Hp].
  unfold sweep_all in *. simpl. rewrite IH by done. simpl. rewrite map_lookup_filter.
  destruct (balances d !! (p, c)); simpl; [|done]. by rewrite option_guard_True.
Qed.

Lemma sweep_all_rows l d :
  (fun r => (idempotency_key r, row_facts r)) <$> ledger (sweep_all d l)
  = (fun r => (idempotency_key r, row_facts r)) <$> ledger d.
Proof.
  revert d. induction l as [|u l IH]; intros d; [done|]. unfold sweep_all in *. simpl. rewrite IH. simpl.
  apply (fmap_reown (fun r => (idempotency_key r, row_facts r))). intros r.
  by destruct (reown_facts u r) as (-> & -> & _).
Qed.

(** A sweep fire ends; it purges some of the outstanding tombstones (at least
    one if there is any, all of them if its time budget lasts): a purged player
    holds no balance and owns no ledger row; nobody else's balance changes; and the
    ledger keeps every row's key and facts, so no key becomes free. *)
Theorem sweep_purges (elapsed : nat → bool) (d : WalletDb) :
  wreachable d →
  ∃ l d', sweep_purged_players elapsed d = Some (d', Ok ())
    ∧ (∀ u, u ∈ l → is_Some (unswept d !! u)) ∧ (unswept d ≠ ∅ → l ≠ [])
    ∧ ((∀ i, elapsed i = false) → unswept d' = ∅)
    ∧ (∀ u, u ∈ l → u ≠ PURGE_SENTINEL →
         (∀ c, balances d' !! (u, c) = None) ∧ Forall (fun r => player_id r ≠ u) (ledger d'))
    ∧ (∀ p c, p ∉ l → balances d' !! (p, c) = balances d !! (p, c))
    ∧ (fun r => (idempotency_key r, row_facts r)) <$> ledger d'
      = (fun r => (idempotency_key r, row_facts r)) <$> ledger d.
Proof.
  intros Hd%wreachable_inv. destruct (sweep_run elapsed d Hd) as (l & E & Hl & Hne & Hfull).
  exists l, (sweep_all d l). do 3 (split; [done|]). split; [|split; [|split]].
  - intros Hi. apply map_empty. intros u. apply eq_None_not_Some. intros [Hu Hn]%unswept_sweep_all. by apply Hn, Hfull.
  - intros u Hu Hs. pose proof (inv_sweep_all l d Hd) as Hd'. destruct (Hl u Hu) as [t0 Ht0].
    apply map_lookup_filter_Some in Ht0 as [Ht0 _].
    destruct (kept_sweep_all l d Hl) as [Hk _]. destruct (Hk u) as [t Ht]; [eauto|].
    apply (wi_swept _ Hd' u t Ht); [|done]. destruct (swept t) eqn:Es; [done|]. exfalso.
    assert (Hun : is_Some (unswept (sweep_all d l) !! u)) by (exists t; by apply map_lookup_filter_Some).
    by apply unswept_sweep_all in Hun as [_ ?].
  - intros p c Hp. by apply sweep_all_others.
  - apply sweep_all_rows.
Qed.

(** *** The starter grant *)

Definition hex_count (l : bytes) : nat := length (List.filter is_ascii_hexdigit l).

(** Inside a group only a digit may follow. *)
Lemma scan_digit k ah l :
  uuid_scan k ah l = true → (0 < hex_count l)%nat → (k mod 4 ≠ 0)%nat ∨ ah = true →
  ∃ c l', l = c :: l' ∧ is_ascii_hexdigit c = true ∧ uuid_scan (S k) false l' = true
          ∧ hex_count l = S (hex_count l').
Proof.
  destruct l as [|c l]; simpl; [unfold hex_count; simpl; lia|]. intros E Hc Hk.
  unfold hex_count in *. simpl in *. destruct (is_ascii_hexdigit c) eqn:Ec; [by exists c, l|].
  exfalso.
  destruct (Ascii.eqb c "-" && _ && _ && _ && _) eqn:Eh in E; [|done].
  rewrite !andb_true_iff, negb_true_iff, Nat.eqb_eq in Eh. naive_solver.
Qed.

Lemma scan_group k ah l n :
  uuid_scan (4 * k) ah l = true → hex_count l = (4 * S n)%nat → ah = true ∨ k = 0%nat ∨ (∃ c l', l = c :: l' ∧ is_ascii_hexdigit c = true) →
  ∃ a b c d l', l = [a; b; c; d] ++ l' ∧ forallb is_ascii_hexdigit [a; b; c; d] = true
    ∧ uuid_scan (4 * S k) false l' = true ∧ hex_count l' = (4 * n)%nat.
Proof.
  intros E Hc Hstart.
  assert (Hfirst : ∃ c l', l = c :: l' ∧ is_ascii_hexdigit c = true ∧ uuid_scan (S (4 * k)) false l' = true
                           ∧ hex_count l = S (hex_count l')).
  { destruct l as [|c l]; [unfold hex_count in Hc; simpl in Hc; lia|]. simpl in E. unfold hex_count in *. simpl in *.
    destruct (is_ascii_hexdigit c) eqn:Ec; [by exists c, l|].
    exfalso. destruct Hstart as [->|[->|(c' & l' & [= <- <-] & ?)]]; [|simpl in E|congruence].
    - by rewrite !andb_false_r in E.
    - by rewrite !andb_false_r in E. }
  destruct Hfirst as (a & l1 & -> & Ha & E1 & C1).
  assert (Hm : ∀ i, (1 ≤ i ≤ 3)%nat → ((i + 4 * k) mod 4 ≠ 0)%nat)
    by (intros i Hi; rewrite (Nat.mul_comm 4 k); rewrite Nat.Div0.mod_add, Nat.mod_small by lia; lia).
  destruct (scan_digit _ _ _ E1) as (b & l2 & -> & Hb & E2 & C2); [lia|left; apply (Hm 1%nat); lia|].
  destruct (scan_digit _ _ _ E2) as (c & l3 & -> & Hcc & E3 & C3); [lia|left; apply (Hm 2%nat); lia|].
  destruct (scan_digit _ _ _ E3) as (d & l4 & -> & Hd & E4 & C4); [lia|left; apply (Hm 3%nat); lia|].
  exists a, b, c, d, l4. simpl. rewrite Ha, Hb, Hcc, Hd. split; [done|]. split; [done|].
  split; [by replace (4 * S k)%nat with (S (S (S (S (4 * k))))) by lia|lia].
Qed.

Lemma scan_groups n k ah l :
  (k + S n = 8)%nat → uuid_scan (4 * k) ah l = true → hex_count l = (4 * S n)%nat →
  ∃ hy l', l = hy ++ l' ∧ (hy = [] ∨ hy = ["-"%char]) ∧ (k = 0%nat → hy = []) ∧ uuid_groups (S n) l'.
Proof.
  revert k ah l. induction n as [|n IH]; intros k ah l Hk E Hc.
  all: assert (Hstrip : ∃ hy l' ah', l = hy ++ l' ∧ (hy = [] ∨ hy = ["-"%char]) ∧ (k = 0%nat → hy = [])
         ∧ uuid_scan (4 * k) ah' l' = true ∧ hex_count l' = hex_count l
         ∧ (ah' = true ∨ k = 0%nat ∨ (∃ c l1, l' = c :: l1 ∧ is_ascii_hexdigit c = true))).
  1,3: destruct l as [|c l]; [unfold hex_count in Hc; simpl in Hc; lia|]; simpl in E;
       destruct (is_ascii_hexdigit c) eqn:Ec;
       [exists [], (c :: l), ah; simpl; rewrite Ec; naive_solver|];
       destruct (Ascii.eqb c "-" && _ && _ && _ && _) eqn:Eh in E; [|done];
       rewrite !andb_true_iff, Ascii.eqb_eq, Nat.leb_le in Eh; destruct Eh as [[[[-> _] _] Hk1] _];
       exists ["-"%char], l, true; simpl; split_and!; [done|auto|lia|done|by unfold hex_count|by left].
  all: destruct Hstrip as (hy & l0 & ah' & -> & Hhy & Hhk & E0 & Hc0 & Hst); exists hy, l0; rewrite Hc in Hc0;
       destruct (scan_group k ah' l0 _ E0 Hc0 Hst) as (a & b & c & d & l' & -> & Hh & E' & Hc');
       do 3 (split; [done|]).
  - destruct l' as [|x l']; [by apply ug_last|]. exfalso. simpl in E'. unfold hex_count in Hc'. simpl in Hc'.
    destruct (is_ascii_hexdigit x); [simpl in Hc'; lia|].
    destruct (Ascii.eqb x "-" && _ && _ && _ && _) eqn:Eh in E'; [|done].
    rewrite !andb_true_iff, Nat.ltb_lt in Eh. lia.
  - destruct (IH (S k) false l' ltac:(lia) E' Hc') as (hy' & l1 & -> & Hhy' & _ & Hg). by apply ug_next.
Qed.

(** What [is_uuid_text] accepts, the server parses. *)
Lemma is_uuid_text_groups s : is_uuid_text s = true → uuid_groups 8 (to_bytes s).
Proof.
  unfold is_uuid_text, hex32, hex_digits. case_bool_decide as Hl; [|done]. rewrite length_map in Hl. intros E.
  destruct (scan_groups 7 0 false (to_bytes s) eq_refl E Hl) as (hy & l' & -> & _ & Hhy & Hg).
  by rewrite (Hhy eq_refl).
Qed.

Lemma uuid_groups_shape n l :
  uuid_groups n l → (length l ≤ 5 * n - 1)%nat ∧ existsb (Ascii.eqb zero) l = false
  ∧ (∃ c l', l = c :: l' ∧ is_ascii_hexdigit c = true) ∧ (∃ c l', l = l' ++ [c] ∧ is_ascii_hexdigit c = true).
Proof.
  assert (Hz : ∀ x, is_ascii_hexdigit x = true → Ascii.eqb zero x = false)
    by (intros x Hx; destruct (Ascii.eqb_spec zero x) as [<-|]; done).
  induction 1 as [a b c d Hh|a b c d hy n l Hh Hhy Hg (IHl & IHn & _ & (z & lz & -> & Hlz))]; simpl in Hh;
    rewrite !andb_true_iff in Hh; destruct Hh as (Ha & Hb & Hc & Hd & _); simpl;
    rewrite (Hz a Ha), (Hz b Hb), (Hz c Hc), (Hz d Hd).
  - split; [lia|]. split; [done|]. split; [by exists a, [b; c; d]|by exists d, [a; b; c]].
  - assert (0 < n)%nat by (inversion Hg; lia). rewrite existsb_app, IHn, length_app.
    split; [destruct Hhy as [-> | ->]; simpl; lia|]. split; [by destruct Hhy as [-> | ->]|].
    split; [by eexists _, _|]. exists z, ([a; b; c; d] ++ hy ++ lz). split; [|done]. by rewrite <- !app_assoc.
Qed.

Lemma hexdigit_visible c : is_ascii_hexdigit c = true → visible c.
Proof.
  unfold is_ascii_hexdigit, visible. cbv zeta. rewrite !orb_true_iff, !andb_true_iff, !Nat.leb_le. lia.
Qed.

Lemma length_append s t : String.length (s +:+ t) = (String.length s + String.length t)%nat.
Proof. induction s as [|c s IH]; [done|]. change (String c s +:+ t) with (String c (s +:+ t)). simpl. by rewrite IH. Qed.

Lemma has_nul_append s t : has_nul (s +:+ t) = has_nul s || has_nul t.
Proof. unfold has_nul. by rewrite to_bytes_app, existsb_app. Qed.

(** The movement the grant builds is always acceptable. *)
Lemma grant_movement_ok p cur amount :
  is_uuid_text p = true → cur ≠ "" → (String.length cur ≤ MAX_CURRENCY_CODE_BYTES)%nat → has_nul cur = false →
  1 ≤ amount ≤ MAX_MOVEMENT_AMOUNT →
  well_formed (mkMovement ("starter:" +:+ p) p cur amount GRANT_REASON).
Proof.
  intros Hp Hc Hl Hn Ha. apply is_uuid_text_groups in Hp as Hg.
  destruct (uuid_groups_shape _ _ Hg) as (Hlen & Hz & (c & l' & E1 & Hc1) & (z & lz & E2 & Hc2)).
  rewrite length_to_bytes in Hlen. split.
  - unfold validate_movement. simpl m_key. simpl m_player_id. simpl m_currency. simpl m_reason. simpl m_amount.
    unfold str_is_empty. rewrite (bool_decide_eq_false_2 ("starter:" +:+ p = "")) by done.
    rewrite bool_decide_eq_false_2 by (rewrite length_append; unfold MAX_IDEMPOTENCY_KEY_BYTES; simpl; lia).
    rewrite (bool_decide_eq_false_2 (trim p = "")).
    2:{ unfold trim. rewrite E1, (trim_bytes_id c l' lz z); [done|congruence|by apply hexdigit_visible..]. }
    rewrite (bool_decide_eq_false_2 (cur = "")) by done. rewrite bool_decide_eq_false_2 by lia.
    rewrite bool_decide_eq_false_2 by (unfold MAX_REASON_BYTES; simpl; lia).
    destruct (Z.ltb_spec amount 1), (Z.ltb_spec MAX_MOVEMENT_AMOUNT amount); simpl; lia || done.
  - unfold texts_ok, movement_texts. simpl. rewrite has_nul_append, Hn. unfold has_nul at 2 3. by rewrite Hz.
Qed.

(** The starter grant never fails on the data it is given.  Whatever currency
    and amount are configured and whatever text the event carries for the player,
    with the plane taking the event and the player's balance leaving room for the
    amount, the handler succeeds, so no bad knob or payload can pause the
    subscription. *)
Theorem starter_grant_never_faults (e : Env) (cur : string) (amount : Z) (p : string) (d : WalletDb) :
  wreachable d → env_ok e → new_id e ∉ (id <$> ledger d) → emit_ok e = true → has_nul cur = false →
  (∀ u, uuid_in p = Some u → default 0 (balances d !! (u, cur)) + amount ≤ MAX_BALANCE) →
  ∃ d', grant_starter e cur amount p d = (d', Ok ()).
Proof.
  intros Hd%wreachable_inv He Hi Hem Hn Hroom. unfold grant_starter, str_is_empty.
  case_bool_decide as Hc; [eexists; done|]. destruct (Z.leb_spec amount 0); [eexists; done|].
  destruct (Z.ltb_spec MAX_MOVEMENT_AMOUNT amount); [eexists; done|]. simpl.
  destruct (is_uuid_text p) eqn:Hp; [|eexists; done]. simpl.
  unfold currency_exists_tx, bind_text. simpl. rewrite Hn. simpl.
  unfold st_map_err, mbind, ST_bind, gets. simpl. case_bool_decide as Hcat; [|eexists; done]. simpl.
  destruct (uuid_in_groups p (is_uuid_text_groups p Hp)) as [u Hu].
  set (m := mkMovement ("starter:" +:+ p) p cur amount GRANT_REASON).
  assert (Hwf : well_formed m) by (apply grant_movement_ok; [done|done|by apply (wi_codes _ Hd)|done|lia]).
  destruct (apply_on_run e m 1 u d Hd He Hwf Hu (or_introl eq_refl)) as (d' & E & _); [done|]. cbv zeta in E.
  unfold mbind, ST_bind. rewrite E. unfold verdict. simpl m_currency. simpl m_amount. rewrite Z.mul_1_l.
  case_bool_decide; [eexists; done|]. destruct (row_of _ d) as [r|]; [destruct (same_movement r m amount); eexists; reflexivity|].
  rewrite bool_decide_eq_true_2 by by right. rewrite bool_decide_eq_true_2; [eexists; done|].
  split; [|by apply Hroom]. destruct (balances d !! (u, cur)) eqn:Eb; simpl; [|lia].
  destruct (wi_range _ Hd _ _ _ Eb). lia.
Qed.

Lemma grant_ok_cases e cur amount p d d' r :
  env_ok e → grant_starter e cur amount p d = (d', Ok r) →
  (∃ n, d' = set_next_seq n d)
  ∨ ∃ u b, takes_effect e (mkMovement ("starter:" +:+ p) p cur amount GRANT_REASON) u amount b d
           ∧ d' = applied_db e (mkMovement ("starter:" +:+ p) p cur amount GRANT_REASON) u amount b d.
Proof.
  intros He. assert (Hd : d = set_next_seq (next_seq d) d) by (by destruct d).
  unfold grant_starter. repeat (case_match; [intros [= <- <-]; by left; exists (next_seq d)|]). intros E.
  st_inv E. apply st_map_err_ok in E0. unfold currency_exists_tx in E0. st_inv E0.
  apply bind_text_ok in E1 as [-> _]. injection E0 as <- <-.
  case_match; [injection E as <- <-; left; by exists (next_seq d)|]. st_inv E. injection E as <- <-.
  apply apply_on_ok in E0 as (u & _ & _ & Hc); [|done].
  destruct Hc as [(_ & _ & ->)|[(r' & _ & _ & _ & _ & ->)|(b & _ & Ht & ->)]]; [left; by exists (next_seq d)|left; eauto|].
  right. exists u, b. rewrite Z.mul_1_l in *. done.
Qed.

(** A player is granted the starter amount at most once: after a grant took
    effect, no later delivery for that player, whatever happened in between and
    whatever is configured by then, changes a balance, the ledger or the events. *)
Theorem starter_grant_once (e e2 : Env) (cur cur2 : string) (amount amount2 : Z) (p : string) (d d1 d2 : WalletDb) :
  wreachable d → env_ok e → grant_starter e cur amount p d = (d1, Ok ()) → ledger d1 ≠ ledger d →
  rtc wstep d1 d2 → env_ok e2 →
  let d3 := deliver (grant_starter e2 cur2 amount2 p) d2 in
  balances d3 = balances d2 ∧ ledger d3 = ledger d2 ∧ outbox d3 = outbox d2.
Proof.
  intros Hd%wreachable_inv He E Hne Hs He2. cbv zeta.
  pose proof (inv_grant _ _ _ _ _ _ _ He Hd E) as Hd1.
  destruct (grant_ok_cases _ _ _ _ _ _ _ He E) as [(n & ->)|(u & b & _ & ->)]; [by simpl in Hne|].
  destruct (wsteps_kept _ _ Hd1 Hs) as [Hd2 [_ Hrows]].
  destruct (Hrows (mkLedger (next_seq d + 1) (new_id e) ("starter:" +:+ p) u cur amount b GRANT_REASON))
    as (r & Hr & Hk & _); [simpl; apply elem_of_app; right; by left|]. simpl in Hk.
  unfold deliver. destruct (grant_starter e2 cur2 amount2 p d2) as [d3 [x|x]] eqn:E2; [|done].
  destruct (grant_ok_cases _ _ _ _ _ _ _ He2 E2) as [(n & ->)|(u2 & b2 & (_ & _ & Hf & _) & _)]; [done|].
  exfalso. apply Hf, list_elem_of_fmap. eauto.
Qed.
End Forward.

(** A ledger page holds at most the (clamped) limit of the player's rows,
    newest first; it says it is truncated exactly when the player has more rows
    than it shows, and otherwise shows them all. *)
Theorem recent_ledger_page `{PgUuid} (player u : string) (limit : Z) (d : WalletDb) :
  has_nul player = false → uuid_in player = Some u →
  let own := List.filter (fun r => bool_decide (player_id r = u)) (ledger d) in
  ∃ page, recent_ledger player limit d = Ok page
    ∧ (length (rows page) ≤ Z.to_nat MAX_RECENT_LEDGER)%nat
    ∧ StronglySorted newer (rows page)
    ∧ truncated page = bool_decide (length (rows page) < length own)%nat
    ∧ (truncated page = false → rows page ≡ₚ own)
    ∧ (∀ r r', r ∈ rows page → r' ∈ own → r' ∈ rows page ∨ newer r r').
Proof.
  intros Hn Hu own. unfold recent_ledger, bind_text, cast_uuid. simpl. rewrite Hn. simpl.
  unfold mbind, ST_bind, lift, mret, ST_ret. simpl. rewrite Hu. simpl. fold own.
  set (k := clamp limit 1 MAX_RECENT_LEDGER).
  assert (Hk : 1 ≤ k ≤ MAX_RECENT_LEDGER) by (apply clamp_bounds; unfold MAX_RECENT_LEDGER; lia). clearbody k.
  assert (Hperm : merge_sort newer own ≡ₚ own) by apply merge_sort_Permutation.
  assert (Hsort : StronglySorted newer (merge_sort newer own)).
  { apply StronglySorted_merge_sort; [|intros x y; unfold newer; lia]. intros x y z. unfold newer. lia. }
  pose proof (Permutation_length Hperm) as Hlen.
  generalize dependent (merge_sort newer own). intros S Hperm Hsort Hlen. eexists. split; [done|]. simpl.
  rewrite take_take, Nat.min_l by lia.
  assert (Htr : (k <? Z.of_nat (length (take (Z.to_nat (k + 1)) S)))
                = bool_decide (length (take (Z.to_nat k) S) < length own)%nat).
  { rewrite !length_take, Hlen. destruct (Z.ltb_spec k (Z.of_nat (Z.to_nat (k + 1) `min` length own))); case_bool_decide; (done || lia). }
  rewrite Htr. split; [rewrite length_take; lia|].
  pose proof (take_drop (Z.to_nat k) S) as Etd. split; [|split; [done|split]].
  - rewrite <- Etd in Hsort. by apply StronglySorted_app_1_l in Hsort.
  - intros Hf%bool_decide_eq_false. rewrite length_take, Hlen in Hf. by rewrite take_ge by lia.
  - intros r r' Hr Hr'. rewrite <- Hperm, <- Etd in Hr'. apply elem_of_app in Hr' as [?|Hr']; [by left|right].
    rewrite <- Etd in Hsort. by eapply StronglySorted_app_1_elem_of.
Qed.

(** ** A day in a wallet *)

Module WalletExample.
#[local] Existing Instance plain_uuid.
Definition alice : string := "aaaaaaaa-0000-4000-8000-000000000001".
Definition row_id (n : string) : string := "bbbbbbbb-0000-4000-8000-00000000000" +:+ n.
Definition env (n : string) : Env := mkEnv (row_id n) true true Committed.
Definition gold_credit : Movement := mkMovement "k1" "AAAAAAAA000040008000000000000001" "gold" 100 "promo".
Definition gold_debit : Movement := mkMovement "k2" alice "gold" 30 "shop".

Definition d0 : WalletDb := fst (write_currency_tx "gold" "Gold" "soft" 0 Skip empty_db).
Definition d1 : WalletDb := fst (apply (env "1") gold_credit 1 d0).
Definition d2 : WalletDb := fst (apply (env "2") gold_debit (-1) d1).
Definition d3 : WalletDb := deliver (on_player_deleted alice "ally") d2.
Definition g1 : WalletDb := deliver (grant_starter (env "1") "gold" 10 alice) d0.

Lemma d0_reachable : wreachable d0.
Proof. apply rtc_once. apply StepCurrency. Defined.

Lemma d1_step : wstep d0 d1.
Proof. apply StepMove; [vm_compute; reflexivity|by left]. Defined.

Lemma d2_step : wstep d1 d2.
Proof. apply StepMove; [vm_compute; reflexivity|by right]. Defined.

Lemma d3_step : wstep d2 d3.
Proof. apply StepDeleted. Defined.

Lemma d2_reachable : wreachable d2.
Proof. apply rtc_r with d1; [|apply d2_step]. apply rtc_r with d0; [apply d0_reachable|apply d1_step]. Defined.

Lemma d3_reachable : wreachable d3.
Proof. apply rtc_r with d2; [apply d2_reachable|apply d3_step]. Defined.
End WalletExample.


Lemma movement_decided_witness :
  ∃ n, @apply plain_uuid (WalletExample.env "3") (mkMovement "k2" WalletExample.alice "gold" 31 "shop") (-1)
         WalletExample.d2
       = (set_next_seq n WalletExample.d2, Err (conflict IDEMPOTENCY_CONFLICT)).
Proof.
  destruct (@movement_decided plain_uuid (WalletExample.env "3") (mkMovement "k2" WalletExample.alice "gold" 31 "shop")
              (-1) WalletExample.alice WalletExample.d2 WalletExample.d2_reachable) as [n E].
  - split; vm_compute; reflexivity.
  - vm_compute. reflexivity.
  - by right.
  - vm_compute. reflexivity.
  - apply (bool_decide_unpack _). vm_compute. exact I.
  - reflexivity.
  - reflexivity.
  - reflexivity.
  - exists n. rewrite E. vm_compute. reflexivity.
Defined.

Lemma replay_idempotent_witness :
  ∃ n, @apply plain_uuid (WalletExample.env "3") WalletExample.gold_credit 1 WalletExample.d2
       = (set_next_seq n WalletExample.d2, Ok 100).
Proof.
  assert (E : @apply plain_uuid (WalletExample.env "1") WalletExample.gold_credit 1 WalletExample.d0
              = (WalletExample.d1, Ok 100)) by (vm_compute; reflexivity).
  destruct (@replay_idempotent plain_uuid (WalletExample.env "1") (WalletExample.env "3") WalletExample.gold_credit
              1 100 WalletExample.d0 WalletExample.d1 WalletExample.d2) as (u & n & Hu & Ea).
  - exact WalletExample.d0_reachable.
  - vm_compute. reflexivity.
  - by left.
  - exact E.
  - apply rtc_once. exact WalletExample.d2_step.
  - vm_compute. reflexivity.
  - reflexivity.
  - exists n. rewrite Ea. reflexivity.
Defined.

Lemma sweep_purges_witness :
  ∃ d', @sweep_purged_players plain_uuid (fun _ => false) WalletExample.d3 = Some (d', Ok ())
        ∧ unswept d' = ∅ ∧ balances d' = ∅.
Proof.
  destruct (@sweep_purges plain_uuid (fun _ => false) WalletExample.d3 WalletExample.d3_reachable)
    as (l & d' & E & _ & _ & Hall & _).
  exists d'. split; [exact E|]. split; [by apply Hall|].
  assert (E' : @sweep_purged_players plain_uuid (fun _ => false) WalletExample.d3
    = Some (sweep_all WalletExample.d3 [WalletExample.alice], Ok ())) by (vm_compute; reflexivity).
  rewrite E' in E. injection E as <-. vm_compute. reflexivity.
Defined.

Lemma starter_grant_never_faults_witness :
  ∃ d', @grant_starter plain_uuid (WalletExample.env "1") "gold" 10 WalletExample.alice WalletExample.d0 = (d', Ok ()).
Proof.
  apply (@starter_grant_never_faults plain_uuid).
  - exact WalletExample.d0_reachable.
  - vm_compute. reflexivity.
  - apply (bool_decide_unpack _). vm_compute. exact I.
  - reflexivity.
  - reflexivity.
  - intros u Hu. vm_compute in Hu. injection Hu as <-. vm_compute. discriminate.
Defined.

Lemma starter_grant_once_witness :
  balances (@deliver _ _ (@grant_starter plain_uuid (WalletExample.env "2") "gems" 10 WalletExample.alice)
              WalletExample.g1) = balances WalletExample.g1
  ∧ balances WalletExample.g1 !! (WalletExample.alice, "gold") = Some 10.
Proof.
  split; [|vm_compute; reflexivity].
  apply (@starter_grant_once plain_uuid (WalletExample.env "1") (WalletExample.env "2") "gold" "gems" 10 10
           WalletExample.alice WalletExample.d0 WalletExample.g1 WalletExample.g1).
  - exact WalletExample.d0_reachable.
  - vm_compute. reflexivity.
  - vm_compute. reflexivity.
  - vm_compute. discriminate.
  - apply rtc_refl.
  - vm_compute. reflexivity.
Defined.

Lemma recent_ledger_page_witness :
  ∃ page, @recent_ledger plain_uuid WalletExample.alice 1 WalletExample.d2 = Ok page ∧ truncated page = true
          ∧ length (rows page) = 1%nat.
Proof.
  destruct (@recent_ledger_page plain_uuid WalletExample.alice WalletExample.alice 1 WalletExample.d2)
    as (page & E & _ & _ & Htr & _); [vm_compute; reflexivity..|].
  exists page. split; [exact E|].
  assert (Hl : length (rows page) = 1%nat) by (revert E; vm_compute; intros [= <-]; reflexivity).
  split; [|exact Hl]. rewrite Htr, Hl. vm_compute. reflexivity.
Defined.
