(* ===== verification/HttpEdge.v ===== *)
(** * HttpEdge: the HTTP passthrough and the client-address rules

    The reverse proxy of [modules/gateway/src/proxy.rs], the trusted-proxy client
    address of [core/httpmw/src/client_ip.rs] and the per-address rate limiter of
    [limiter.rs] with its middleware.  Addresses, networks and header values are
    those of the libraries the source uses and are parameters; the token bucket
    counts in exact rationals where the source uses [f64]. *)

From Stdlib Require Import Ascii QArith Qminmax Lqa.
From S2P Require Import Prelude Text.
#[local] Open Scope Z_scope.

(** ** Headers *)

(** A header map: lower-case names, several values each, in order. *)
Definition Headers (V : Type) := list (string * V).

Definition get_all {V} (name : string) (h : Headers V) : list V :=
  snd <$> List.filter (fun kv => bool_decide (fst kv = name)) h.
Definition get {V} (name : string) (h : Headers V) : option V := head (get_all name h).
Definition remove {V} (name : string) (h : Headers V) : Headers V :=
  List.filter (fun kv => negb (bool_decide (fst kv = name))) h.
Definition insert_header {V} (name : string) (v : V) (h : Headers V) : Headers V := remove name h ++ [(name, v)].

(** ** The passthrough table *)

Definition HOP_BY_HOP : list string :=
  ["connection"; "keep-alive"; "proxy-authenticate"; "proxy-authorization"; "te"; "trailer";
   "transfer-encoding"; "upgrade"; "host"].

(** [str::contains]. *)
Fixpoint contains_bytes (p l : bytes) : bool :=
  match strip_prefix p l with
  | Some _ => true
  | None => match l with [] => false | _ :: l' => contains_bytes p l' end
  end.

Definition normalize_origin (addr : string) : string :=
  let base := if contains_bytes (to_bytes "://") (to_bytes addr) then addr else "http://" +:+ addr in
  of_bytes (trim_end_matches (to_bytes "/") (String.length base) (to_bytes base)).

(** A stable sort, longest prefix first. *)
Fixpoint insert_route (r : string * string) (l : list (string * string)) : list (string * string) :=
  match l with
  | [] => [r]
  | x :: l' => if bool_decide (String.length (fst x) ≤ String.length (fst r))%nat then r :: l
               else x :: insert_route r l'
  end.
Definition sort_routes (l : list (string * string)) : list (string * string) := foldr insert_route [] l.

Definition from_routes (routes : list (string * string)) : list (string * string) :=
  sort_routes (omap (fun r => let origin := trim (snd r) in
                              if str_is_empty origin then None else Some (fst r, normalize_origin origin)) routes).

Definition prefix_matches (path prefix : string) : bool :=
  bool_decide (path = prefix) || starts_with (prefix +:+ "/") path.

Definition origin_for (routes : list (string * string)) (path : string) : option string :=
  snd <$> find (fun r => prefix_matches path (fst r)) routes.

Definition pattern_for (routes : list (string * string)) (path : string) : option string :=
  (fun r => fst r +:+ "/*") <$> find (fun r => prefix_matches path (fst r)) routes.

(** ** Forwarding *)

Section Proxy.
Context {V IpAddr : Type} (to_str : V → option string) (from_str : string → option V) (print_ip : IpAddr → string).

Definition connection_tokens (h : Headers V) : list string :=
  List.filter (fun tok => negb (str_is_empty tok))
    (map (fun tok => lower (trim tok)) (omap to_str (get_all "connection" h) ≫= split_str ",")).

Definition strip_hop_by_hop (h : Headers V) : Headers V :=
  foldl (fun h name => remove name h) (foldl (fun h name => remove name h) h (connection_tokens h)) HOP_BY_HOP.

Definition build_xff (h : Headers V) (peer : option IpAddr) : option V :=
  let existing := get "x-forwarded-for" h ≫= to_str in
  match existing, print_ip <$> peer with
  | Some chain, Some ip => from_str (chain +:+ ", " +:+ ip)
  | Some chain, None => from_str chain
  | None, Some ip => from_str ip
  | None, None => None
  end.

(** The request sent to the origin. *)
Definition upstream_headers (h : Headers V) (peer : option IpAddr) : Headers V :=
  let h' := strip_hop_by_hop h in
  match build_xff h peer with Some x => insert_header "x-forwarded-for" x h' | None => h' end.

(** A response: status, headers and body. *)
Record HttpResponse := mkHttp { rs_status : Z; rs_headers : Headers V; rs_body : string }.

Definition relay_response (r : HttpResponse) : HttpResponse :=
  mkHttp (rs_status r) (strip_hop_by_hop (rs_headers r)) (rs_body r).

(** [send] is the client library: [None] is a transport failure. *)
Definition forward (send : string → string → Headers V → string → option HttpResponse)
    (routes : list (string * string)) (method path path_and_query : string) (h : Headers V) (body : string)
    (peer : option IpAddr) : HttpResponse :=
  match origin_for routes path with
  | None => mkHttp 404 [] "not found"
  | Some origin =>
      match send method (origin +:+ path_and_query) (upstream_headers h peer) body with
      | Some upstream => relay_response upstream
      | None => mkHttp 502 [] "upstream unavailable"
      end
  end.
End Proxy.

(** ** The client's address *)

Section ClientIp.
Context {IpAddr IpNet : Type} (parse_ip : string → option IpAddr) (parse_net : string → option IpNet)
  (host_net : IpAddr → IpNet) (net_contains : IpNet → IpAddr → bool).

Definition parse_one (part : string) : result string IpNet :=
  match parse_net part with
  | Some net => Ok net
  | None => match parse_ip part with Some ip => Ok (host_net ip) | None => Err part end
  end.

Fixpoint parse_parts (parts : list string) : result string (list IpNet) :=
  match parts with
  | [] => Ok []
  | part :: parts' =>
      let part := trim part in
      if str_is_empty part then parse_parts parts'
      else net ← parse_one part; nets ← parse_parts parts'; Ok (net :: nets)
  end.

Definition parse_cidrs (csv : string) : result string (list IpNet) := parse_parts (split_str "," csv).

Definition is_trusted (ip : IpAddr) (trusted : list IpNet) : bool :=
  existsb (fun net => net_contains net ip) trusted.

(** The walk over the hops, the nearest first. *)
Fixpoint walk_hops (trusted : list IpNet) (hops : list string) : option IpAddr :=
  match hops with
  | [] => None
  | hop :: hops' =>
      let hop := trim hop in
      if str_is_empty hop then walk_hops trusted hops' else
      match parse_ip hop with
      | Some ip => if negb (is_trusted ip trusted) then Some ip else walk_hops trusted hops'
      | None => walk_hops trusted hops'
      end
  end.

Definition client_ip (remote : IpAddr) (xff x_real_ip : option string) (trusted : list IpNet) : IpAddr :=
  if negb (is_trusted remote trusted) then remote else
  match xff ≫= (fun x => walk_hops trusted (rev (split_str "," x))) with
  | Some ip => ip
  | None => match x_real_ip ≫= (fun x => parse_ip (trim x)) with Some ip => ip | None => remote end
  end.
End ClientIp.

(** ** The rate limiter *)

(** [Instant]s are nanoseconds; [as_secs_f64] of a difference. *)
Definition secs (ns : Z) : Q := (ns # 1000000000)%Q.

Record TokenBucket := mkBucket { rate : Q; burst : Q; tokens : Q; last : Z }.

Definition new_bucket (r b : Q) (now : Z) : TokenBucket := mkBucket r b b now.

Definition allow_at (now : Z) (b : TokenBucket) : TokenBucket * bool :=
  let elapsed := secs (Z.max 0 (now - last b)) in
  let filled := Qmin (tokens b + elapsed * rate b) (burst b) in
  if Qle_bool 1 filled
  then (mkBucket (rate b) (burst b) (filled - 1)%Q now, true)
  else (mkBucket (rate b) (burst b) filled now, false).

Record Visitor := mkVisitor { bucket : TokenBucket; last_seen : Z }.

Definition EVICT_AFTER : Z := 3 * 60 * 1000000000.
Definition DEFAULT_MAX_VISITORS : Z := 65536.
Definition INFRA_PATHS : list string := ["/healthz"; "/readyz"; "/metrics"].

Definition skip_infra (path : string) : bool := bool_decide (path ∈ INFRA_PATHS).

Section Limiter.
Context {Ip : Type} `{Countable Ip}.

Record IpLimiter := mkLimiter {
  visitors : gmap Ip Visitor;
  lrate : Q;
  lburst : Q;
  max_visitors : Z;
}.

Definition set_visitors (v : gmap Ip Visitor) (l : IpLimiter) : IpLimiter :=
  mkLimiter v (lrate l) (lburst l) (max_visitors l).

Definition allow (now : Z) (ip : Ip) (l : IpLimiter) : IpLimiter * bool :=
  match visitors l !! ip with
  | Some v =>
      let '(b, ok) := allow_at now (bucket v) in
      (set_visitors (<[ip := mkVisitor b now]> (visitors l)) l, ok)
  | None =>
      if max_visitors l <=? Z.of_nat (size (visitors l)) then (l, false) else
      let '(b, ok) := allow_at now (new_bucket (lrate l) (lburst l) now) in
      (set_visitors (<[ip := mkVisitor b now]> (visitors l)) l, ok)
  end.

Definition evict_idle (now : Z) (l : IpLimiter) : IpLimiter :=
  set_visitors (filter (fun kv => Z.max 0 (now - last_seen (snd kv)) ≤ EVICT_AFTER) (visitors l)) l.

(** The middleware: the verdict on a request, [None] for a request it lets through
    without looking (an infra path, or no connection peer). *)
Definition rate_limit {Net} (parse_ip : string → option Ip) (net_contains : Net → Ip → bool) (trusted : list Net)
    (now : Z) (path : string) (peer : option Ip) (xff x_real_ip : option string) (l : IpLimiter)
  : IpLimiter * option bool :=
  if skip_infra path then (l, None) else
  match peer with
  | None => (l, None)
  | Some p =>
      let '(l', ok) := allow now (client_ip parse_ip net_contains p xff x_real_ip trusted) l in (l', Some ok)
  end.

(** What happens to a limiter, and how many requests of [ip] it let through. *)
Inductive LimEvent := Request (now : Z) (ip : Ip) | Evict (now : Z).

Definition event_time (e : LimEvent) : Z := match e with Request now _ | Evict now => now end.

Definition lim_step (l : IpLimiter) (e : LimEvent) : IpLimiter :=
  match e with Request now ip => fst (allow now ip l) | Evict now => evict_idle now l end.

Definition lim_run (l : IpLimiter) (es : list LimEvent) : IpLimiter := foldl lim_step l es.

Fixpoint admitted (ip : Ip) (l : IpLimiter) (es : list LimEvent) : Z :=
  match es with
  | [] => 0
  | e :: es' =>
      (match e with
       | Request now ip' => if bool_decide (ip' = ip) && snd (allow now ip' l) then 1 else 0
       | Evict _ => 0
       end) + admitted ip (lim_step l e) es'
  end.

(** ** Facts *)

(** Events in time order, none before [t]. *)
Fixpoint in_order (t : Z) (es : list LimEvent) : Prop :=
  match es with [] => True | e :: es' => t ≤ event_time e ∧ in_order (event_time e) es' end.

Fixpoint end_time (t : Z) (es : list LimEvent) : Z :=
  match es with [] => t | e :: es' => end_time (event_time e) es' end.

Record limiter_ok (t : Z) (l : IpLimiter) : Prop := {
  lo_rate : (0 <= lrate l)%Q;
  lo_burst : (0 <= lburst l)%Q;
  lo_bucket : ∀ ip v, visitors l !! ip = Some v →
    rate (bucket v) = lrate l ∧ burst (bucket v) = lburst l
    ∧ (0 <= tokens (bucket v) <= lburst l)%Q ∧ last (bucket v) = last_seen v ∧ last_seen v ≤ t;
  lo_size : Z.of_nat (size (visitors l)) ≤ Z.max 0 (max_visitors l);
}.

(** What [ip] could still spend at time [t]: its tokens and the refill since. *)
Definition credit_of (t : Z) (ip : Ip) (l : IpLimiter) : Q :=
  match visitors l !! ip with
  | Some v => Qmin (tokens (bucket v) + secs (t - last_seen v) * lrate l) (lburst l)
  | None => lburst l
  end.

Lemma secs_nonneg a : 0 ≤ a → (0 <= secs a)%Q.
Proof. intros Ha. unfold secs, Qle. simpl. lia. Qed.

Lemma secs_add a b : (secs (a + b) == secs a + secs b)%Q.
Proof. unfold secs, Qeq. simpl. lia. Qed.

Lemma qmin_spec a b : ((a <= b /\ Qmin a b == a) \/ (b <= a /\ Qmin a b == b))%Q.
Proof. destruct (Q.min_spec a b) as [[Hl E]|[Hl E]]; [left|right]; split; auto using Qlt_le_weak. Qed.

(** One admission: the tokens stay within bounds, and what is spent is paid. *)
Lemma allow_at_spec now b b' ok :
  allow_at now b = (b', ok) → last b ≤ now → (0 <= rate b)%Q → (0 <= tokens b <= burst b)%Q →
  rate b' = rate b ∧ burst b' = burst b ∧ last b' = now ∧ (0 <= tokens b' <= burst b)%Q
  ∧ (tokens b' + (if ok then 1 else 0) == Qmin (tokens b + secs (now - last b) * rate b) (burst b))%Q.
Proof.
  intros E Hl Hr [Ht0 Htb]. unfold allow_at in E. rewrite Z.max_r in E by lia.
  pose proof (secs_nonneg (now - last b) ltac:(lia)) as Hs.
  assert (Hrefill : (0 <= secs (now - last b) * rate b)%Q) by (by apply Qmult_le_0_compat).
  destruct (qmin_spec (tokens b + secs (now - last b) * rate b) (burst b)) as [[Hle Em]|[Hle Em]];
  destruct (Qle_bool 1 (Qmin _ _)) eqn:Eq in E; injection E as <- <-; simpl;
  (do 3 (split; [done|])); (try apply Qle_bool_iff in Eq); rewrite Em in *; split; try lra;
  split; try lra.
Qed.

(** Time alone: the credit grows at most at the rate. *)
Lemma refill_advance (tk b r : Q) (ls t t' : Z) :
  t ≤ t' → (0 <= r)%Q →
  (Qmin (tk + secs (t' - ls) * r) b <= Qmin (tk + secs (t - ls) * r) b + secs (t' - t) * r)%Q.
Proof.
  intros Ht Hr. pose proof (secs_nonneg (t' - t) ltac:(lia)) as Hs.
  assert (Hp : (0 <= secs (t' - t) * r)%Q) by (by apply Qmult_le_0_compat).
  assert (He : (secs (t' - ls) * r == secs (t - ls) * r + secs (t' - t) * r)%Q).
  { replace (t' - ls) with ((t - ls) + (t' - t)) by lia. rewrite secs_add. ring. }
  destruct (qmin_spec (tk + secs (t' - ls) * r) b) as [[? E1]|[? E1]],
    (qmin_spec (tk + secs (t - ls) * r) b) as [[? E2]|[? E2]]; rewrite E1, E2; lra.
Qed.

Lemma credit_advance t t' ip l l' :
  t ≤ t' → (0 <= lrate l)%Q → visitors l' !! ip = visitors l !! ip → lrate l' = lrate l → lburst l' = lburst l →
  (credit_of t' ip l' <= credit_of t ip l + secs (t' - t) * lrate l)%Q.
Proof.
  intros Ht Hr Hv Er Eb. unfold credit_of. rewrite Hv, Er, Eb. destruct (visitors l !! ip) as [v|].
  - by apply refill_advance.
  - assert (0 <= secs (t' - t) * lrate l)%Q by (apply Qmult_le_0_compat; [apply secs_nonneg; lia|done]). lra.
Qed.

(** A request: the limiter stays well-formed, and the address pays for it. *)
Lemma allow_spec t now ip ip' l l' ok :
  limiter_ok t l → t ≤ now → allow now ip' l = (l', ok) →
  limiter_ok now l' ∧ lrate l' = lrate l ∧ lburst l' = lburst l
  ∧ ((if bool_decide (ip' = ip) && ok then 1 else 0) + credit_of now ip l'
     <= credit_of t ip l + secs (now - t) * lrate l)%Q.
Proof.
  intros [Hr Hb Hbk Hsz] Ht E. unfold allow in E.
  assert (Hpay : ∀ b0 b okk,
    allow_at now b0 = (b, okk) → last b0 ≤ now → rate b0 = lrate l → burst b0 = lburst l →
    (0 <= tokens b0 <= lburst l)%Q → l' = set_visitors (<[ip' := mkVisitor b now]> (visitors l)) l → ok = okk →
    (Qmin (tokens b0 + secs (now - last b0) * lrate l) (lburst l)
       <= credit_of t ip' l + secs (now - t) * lrate l)%Q →
    Z.of_nat (size (<[ip' := mkVisitor b now]> (visitors l))) ≤ Z.max 0 (max_visitors l) →
    limiter_ok now l' ∧ lrate l' = lrate l ∧ lburst l' = lburst l
    ∧ ((if bool_decide (ip' = ip) && ok then 1 else 0) + credit_of now ip l'
       <= credit_of t ip l + secs (now - t) * lrate l)%Q).
  { intros b0 b okk Ea Hl Er Eb Htk -> -> Hcr Hs. rewrite <- Eb in Htk.
    destruct (allow_at_spec _ _ _ _ Ea Hl ltac:(by rewrite Er) Htk) as (Hbr & Hbb & Hbl & Hbt & Hbe).
    rewrite Eb, Er in *. split; [|split; [done|split; [done|]]].
    - split; simpl; try done. intros i v. rewrite lookup_insert. case_decide.
      + intros [= <-]. simpl. rewrite Hbr, Hbb. split; [done|]. split; [done|]. split; [done|]. split; [done|lia].
      + intros Hv. destruct (Hbk i v Hv) as (? & ? & ? & ? & ?). do 4 (split; [done|]). lia.
    - case_bool_decide as Hip; [subst ip'|].
      + unfold credit_of at 1. simpl. rewrite lookup_insert_eq. simpl.
        assert (Hz : (secs (now - now) * lrate l == 0)%Q) by (unfold secs; rewrite Z.sub_diag; ring).
        destruct (qmin_spec (tokens b + secs (now - now) * lrate l) (lburst l)) as [[_ E1]|[Hle E1]];
          rewrite E1, ?Hz in *; destruct okk; lra.
      + simpl. assert (Ha := credit_advance t now ip l (set_visitors (<[ip' := mkVisitor b now]> (visitors l)) l) Ht Hr).
        simpl in Ha. rewrite lookup_insert_ne in Ha by done. specialize (Ha eq_refl eq_refl eq_refl). lra. }
  destruct (visitors l !! ip') as [v|] eqn:Ev.
  - destruct (allow_at now (bucket v)) as [b okk] eqn:Ea. injection E as <- <-.
    destruct (Hbk ip' v Ev) as (Er & Eb & Htk & Els & Hle).
    eapply Hpay; [exact Ea|lia|done|done|done|done|done| |].
    + rewrite Els. unfold credit_of. rewrite Ev. by apply refill_advance.
    + by rewrite map_size_insert, Ev.
  - destruct (Z.leb_spec (max_visitors l) (Z.of_nat (size (visitors l)))).
    + injection E as <- <-. split; [|split; [done|split; [done|]]].
      * split; try done. intros i v Hv. destruct (Hbk i v Hv) as (? & ? & ? & ? & ?). do 4 (split; [done|]). lia.
      * rewrite andb_false_r. pose proof (credit_advance t now ip l l Ht Hr eq_refl eq_refl eq_refl). lra.
    + destruct (allow_at now _) as [b okk] eqn:Ea. injection E as <- <-.
      eapply Hpay; [exact Ea|simpl; lia|done|done|simpl; lra|done|done| |].
      * unfold credit_of. rewrite Ev. simpl.
        assert (0 <= secs (now - t) * lrate l)%Q by (apply Qmult_le_0_compat; [apply secs_nonneg; lia|done]).
        destruct (qmin_spec (lburst l + secs (now - now) * lrate l) (lburst l)) as [[? E1]|[? E1]]; rewrite E1; lra.
      * rewrite map_size_insert, Ev. lia.
Qed.

(** Eviction: a bucket idle that long would have been full anyway. *)
Lemma evict_spec t now ip l :
  limiter_ok t l → t ≤ now → (lburst l <= secs EVICT_AFTER * lrate l)%Q →
  limiter_ok now (evict_idle now l)
  ∧ (credit_of now ip (evict_idle now l) <= credit_of t ip l + secs (now - t) * lrate l)%Q.
Proof.
  intros [Hr Hb Hbk Hsz] Ht Hfull. split.
  - split; simpl; try done.
    + intros i v [Hv _]%map_lookup_filter_Some. destruct (Hbk i v Hv) as (? & ? & ? & ? & ?). do 4 (split; [done|]). lia.
    + etrans; [|exact Hsz]. apply inj_le, map_subseteq_size, map_filter_subseteq.
  - destruct (visitors (evict_idle now l) !! ip) as [v|] eqn:Ev.
    { apply credit_advance; try done. simpl in *. apply map_lookup_filter_Some in Ev as [Ev' ?].
      rewrite Ev'. apply map_lookup_filter_Some. done. }
    unfold credit_of at 1. rewrite Ev. simpl. simpl in Ev.
    assert (Hp : (0 <= secs (now - t) * lrate l)%Q) by (apply Qmult_le_0_compat; [apply secs_nonneg; lia|done]).
    apply map_lookup_filter_None in Ev as [Ev|Hold]; unfold credit_of.
    + rewrite Ev. lra.
    + destruct (visitors l !! ip) as [v|] eqn:Ev; [|lra].
      specialize (Hold v eq_refl). simpl in Hold. destruct (Hbk ip v Ev) as (_ & _ & Htk & _ & Hle).
      assert (Hidle : (secs EVICT_AFTER * lrate l <= secs (now - last_seen v) * lrate l)%Q).
      { apply Qmult_le_compat_r; [|done]. unfold secs, Qle. simpl. unfold EVICT_AFTER in *. lia. }
      assert (He : (secs (now - last_seen v) * lrate l == secs (t - last_seen v) * lrate l + secs (now - t) * lrate l)%Q).
      { replace (now - last_seen v) with ((t - last_seen v) + (now - t)) by lia. rewrite secs_add. ring. }
      destruct (qmin_spec (tokens (bucket v) + secs (t - last_seen v) * lrate l) (lburst l)) as [[? E1]|[? E1]];
        rewrite E1; lra.
Qed.

Lemma credit_le_burst t ip l : (credit_of t ip l <= lburst l)%Q.
Proof.
  unfold credit_of. destruct (visitors l !! ip); [|lra].
  destruct (qmin_spec (tokens (bucket v) + secs (t - last_seen v) * lrate l) (lburst l)) as [[? E1]|[? E1]]; rewrite E1; lra.
Qed.

Lemma credit_nonneg t ip l : limiter_ok t l → (0 <= credit_of t ip l)%Q.
Proof.
  intros [Hr Hb Hbk _]. unfold credit_of. destruct (visitors l !! ip) as [v|] eqn:Ev; [|done].
  destruct (Hbk ip v Ev) as (_ & _ & Htk & _ & Hle).
  assert (0 <= secs (t - last_seen v) * lrate l)%Q by (apply Qmult_le_0_compat; [apply secs_nonneg; lia|done]).
  destruct (qmin_spec (tokens (bucket v) + secs (t - last_seen v) * lrate l) (lburst l)) as [[? E1]|[? E1]]; rewrite E1; lra.
Qed.

Lemma run_pays es t ip l :
  limiter_ok t l → in_order t es → (lburst l <= secs EVICT_AFTER * lrate l)%Q →
  limiter_ok (end_time t es) (lim_run l es)
  ∧ (inject_Z (admitted ip l es) + credit_of (end_time t es) ip (lim_run l es)
     <= credit_of t ip l + secs (end_time t es - t) * lrate l)%Q.
Proof.
  revert t l. induction es as [|e es IH]; intros t l Hl Ho Hfull; simpl.
  - split; [done|]. rewrite Z.sub_diag. change (inject_Z 0) with 0%Q. unfold secs.
    assert (E : ((0 # 1000000000) * lrate l == 0)%Q) by ring. rewrite E. lra.
  - destruct Ho as [Hle Ho].
    assert (Hst : limiter_ok (event_time e) (lim_step l e) ∧ lrate (lim_step l e) = lrate l ∧ lburst (lim_step l e) = lburst l
      ∧ (inject_Z (match e with Request now ip' => if bool_decide (ip' = ip) && snd (allow now ip' l) then 1 else 0 | Evict _ => 0 end)
         + credit_of (event_time e) ip (lim_step l e) <= credit_of t ip l + secs (event_time e - t) * lrate l)%Q).
    { destruct e as [now ip'|now]; simpl in *.
      - destruct (allow now ip' l) as [l' ok] eqn:Ea. destruct (allow_spec t now ip ip' l l' ok Hl Hle Ea) as (? & ? & ? & Hpay).
        do 3 (split; [done|]). simpl. destruct (bool_decide (ip' = ip) && ok); exact Hpay.
      - destruct (evict_spec t now ip l Hl Hle Hfull) as [? Hc]. do 3 (split; [done|]).
        change (inject_Z 0) with 0%Q. lra. }
    destruct Hst as (Hl' & Er & Eb & Hpay).
    destruct (IH (event_time e) (lim_step l e) Hl' Ho) as [Hend Hrest]; [by rewrite Eb, Er|].
    split; [exact Hend|]. rewrite Er in Hrest. rewrite inject_Z_plus.
    assert (E : (secs (end_time (event_time e) es - t) * lrate l
                 == secs (event_time e - t) * lrate l + secs (end_time (event_time e) es - event_time e) * lrate l)%Q).
    { replace (end_time (event_time e) es - t) with ((event_time e - t) + (end_time (event_time e) es - event_time e)) by lia.
      rewrite secs_add. ring. }
    rewrite E. lra.
Qed.
End Limiter.



(** ** The passthrough *)

Lemma foldl_remove {V} (names : list string) (h : Headers V) :
  foldl (fun h name => remove name h) h names = List.filter (fun kv => negb (bool_decide (fst kv ∈ names))) h.
Proof.
  revert h. induction names as [|n names IH]; intros h; simpl.
  - induction h as [|kv h IHh]; [done|]. simpl. by rewrite <- IHh.
  - rewrite IH. unfold remove. induction h as [|kv h IHh]; simpl; [done|].
    destruct (decide (fst kv = n)) as [E|E].
    + rewrite (bool_decide_eq_true_2 (fst kv = n)) by done. simpl.
      rewrite (bool_decide_eq_true_2 (fst kv ∈ n :: names)) by (rewrite E; by left). simpl. apply IHh.
    + rewrite (bool_decide_eq_false_2 (fst kv = n)) by done. simpl.
      rewrite (bool_decide_ext (fst kv ∈ n :: names) (fst kv ∈ names)) by (rewrite elem_of_cons; naive_solver).
      by rewrite IHh.
Qed.

Section PassthroughFacts.
Context {V IpAddr IpNet : Type} (to_str : V → option string) (from_str : string → option V)
  (print_ip : IpAddr → string) (parse_ip : string → option IpAddr) (net_contains : IpNet → IpAddr → bool).

(** A header scoped to one hop: fixed by the protocol or named by [Connection]. *)
Definition hop_header (h : Headers V) (name : string) : bool :=
  bool_decide (name ∈ HOP_BY_HOP) || bool_decide (name ∈ connection_tokens to_str h).

Lemma strip_spec h :
  strip_hop_by_hop to_str h = List.filter (fun kv => negb (hop_header h (fst kv))) h.
Proof.
  unfold strip_hop_by_hop, hop_header. rewrite !foldl_remove. generalize (connection_tokens to_str h) as toks.
  intros toks. clear. induction h as [|kv h IH]; [done|]. simpl.
  destruct (bool_decide (fst kv ∈ toks)); simpl; rewrite ?orb_true_r; simpl; [done|].
  rewrite orb_false_r. by rewrite IH.
Qed.

Lemma get_all_filter h (f : string → bool) name :
  get_all (V := V) name (List.filter (fun kv => f (fst kv)) h) = if f name then get_all name h else [].
Proof.
  unfold get_all. induction h as [|[k v] h IH]; simpl; [by case_match|].
  destruct (f k) eqn:Ef; simpl; case_bool_decide as Ek; simplify_eq/=; rewrite ?Ef in *; simpl; by rewrite IH.
Qed.

Lemma get_all_strip h name :
  get_all name (strip_hop_by_hop to_str h) = if hop_header h name then [] else get_all name h.
Proof.
  rewrite strip_spec, (get_all_filter h (fun k => negb (hop_header h k))). by destruct (hop_header h name).
Qed.

Lemma get_all_insert h name name' (v : V) :
  get_all name (insert_header name' v h) = if bool_decide (name = name') then [v] else get_all name h.
Proof.
  unfold insert_header, remove. unfold get_all at 1. rewrite List.filter_app, fmap_app.
  pose proof (get_all_filter h (fun k => negb (bool_decide (k = name'))) name) as E. unfold get_all at 1 in E. rewrite E. simpl.
  destruct (decide (name = name')) as [->|Hne]; [by rewrite !bool_decide_eq_true_2|].
  rewrite !bool_decide_eq_false_2 by done. simpl. by rewrite app_nil_r.
Qed.

(** The gateway passes on every header that belongs to the message, with its
    values in order, and no header that belongs to one hop: none of the fixed
    hop-by-hop set and none the peer named in [Connection], in either direction.
    The one header it sets itself is [x-forwarded-for]. *)
Theorem passthrough_headers (h : Headers V) (peer : option IpAddr) (status : Z) (body name : string) :
  (name ≠ "x-forwarded-for" →
     get_all name (upstream_headers to_str from_str print_ip h peer)
     = if hop_header h name then [] else get_all name h)
  ∧ get_all name (rs_headers (relay_response to_str (mkHttp status h body)))
    = (if hop_header h name then [] else get_all name h).
Proof.
  split; [|apply get_all_strip]. intros Hne. unfold upstream_headers. case_match; [|apply get_all_strip].
  rewrite get_all_insert, bool_decide_eq_false_2 by done. apply get_all_strip.
Qed.

(** Documented behaviour of the header-value and address libraries: a value that
    reads as text round-trips, printable texts concatenate, an address prints as
    visible text without commas or spaces and parses back. *)
Context (printable : string → Prop).
Hypothesis to_str_printable : ∀ v s, to_str v = Some s → printable s.
Hypothesis from_str_printable : ∀ s, printable s → ∃ v, from_str s = Some v ∧ to_str v = Some s.
Hypothesis printable_app : ∀ s t, printable s → printable t → printable (s +:+ t).
Hypothesis printable_sep : printable ", ".
Hypothesis print_ip_printable : ∀ ip, printable (print_ip ip).
Hypothesis print_ip_visible : ∀ ip, print_ip ip ≠ "" ∧ Forall (fun c => visible c ∧ c ≠ ","%char) (to_bytes (print_ip ip)).
Hypothesis parse_print_ip : ∀ ip, parse_ip (print_ip ip) = Some ip.

Lemma trim_print_ip ip pre :
  pre = "" ∨ pre = " " → trim (pre +:+ print_ip ip) = print_ip ip.
Proof.
  destruct (print_ip_visible ip) as [Hne Hv]. intros Hpre.
  destruct (to_bytes (print_ip ip)) as [|c l] eqn:E.
  { exfalso. apply Hne. rewrite <- (of_to_bytes (print_ip ip)), E. done. }
  assert (Hid : trim_bytes (c :: l) = c :: l).
  { destruct (exists_last (l := c :: l)) as (l' & z & El); [done|]. apply (trim_bytes_id c l l' z El).
    - by apply Forall_inv in Hv as [? _].
    - rewrite El in Hv. apply Forall_app in Hv as [_ Hz]. by apply Forall_inv in Hz as [? _]. }
  unfold trim. rewrite to_bytes_app, E. destruct Hpre as [-> | ->].
  - change (to_bytes "" ++ c :: l) with (c :: l). rewrite Hid, <- E. apply of_to_bytes.
  - change (to_bytes " " ++ c :: l) with (" "%char :: c :: l).
    assert (Hs : trim_bytes (" "%char :: c :: l) = trim_bytes (c :: l)) by reflexivity.
    rewrite Hs, Hid, <- E. apply of_to_bytes.
Qed.

Lemma print_ip_no_comma ip pre : pre = "" ∨ pre = " " → ","%char ∉ to_bytes (pre +:+ print_ip ip).
Proof.
  destruct (print_ip_visible ip) as [_ Hv]. rewrite Forall_forall in Hv. rewrite to_bytes_app.
  intros Hpre [Hc|Hc]%elem_of_app; [|by destruct (Hv _ Hc)].
  destruct Hpre as [-> | ->]; [by apply elem_of_nil in Hc|by apply list_elem_of_singleton in Hc].
Qed.

(** The nearest hop decides. *)
Lemma walk_last ip trusted pre hops :
  pre = "" ∨ pre = " " → is_trusted net_contains ip trusted = false →
  walk_hops parse_ip net_contains trusted ((pre +:+ print_ip ip) :: hops) = Some ip.
Proof.
  intros Hpre Ht. simpl. rewrite trim_print_ip by done. unfold str_is_empty.
  rewrite bool_decide_eq_false_2 by apply print_ip_visible. by rewrite parse_print_ip, Ht.
Qed.

Lemma walk_chain ip trusted chain :
  is_trusted net_contains ip trusted = false →
  walk_hops parse_ip net_contains trusted (rev (split_str "," (chain +:+ ", " +:+ print_ip ip))) = Some ip.
Proof.
  intros Ht. unfold split_str. change (", " +:+ print_ip ip) with (String "," (" " +:+ print_ip ip)).
  rewrite to_bytes_app. change (to_bytes (String "," ?x)) with (","%char :: to_bytes x).
  rewrite split_on_snoc by (apply print_ip_no_comma; by right). rewrite map_app, rev_app_distr. simpl rev.
  change (map of_bytes [to_bytes (" " +:+ print_ip ip)]) with [of_bytes (to_bytes (" " +:+ print_ip ip))].
  rewrite of_to_bytes. apply (walk_last ip trusted " "); [by right|done].
Qed.

Lemma walk_single ip trusted :
  is_trusted net_contains ip trusted = false →
  walk_hops parse_ip net_contains trusted (rev (split_str "," (print_ip ip))) = Some ip.
Proof.
  intros Ht. unfold split_str. rewrite split_on_none by (apply (print_ip_no_comma ip ""); by left).
  simpl rev. change (map of_bytes [to_bytes (print_ip ip)]) with [of_bytes (to_bytes (print_ip ip))].
  rewrite of_to_bytes. apply (walk_last ip trusted ""); [by left|done].
Qed.

(** A client cannot choose the address it is known by.  Whatever
    [x-forwarded-for] and other headers it sends through the gateway, a service
    behind it that trusts the gateway and not the client resolves the client to
    the address it connected to the gateway from. *)
Theorem client_address_not_spoofable (h : Headers V) (client gateway : IpAddr) (x_real_ip : option string)
    (trusted : list IpNet) :
  is_trusted net_contains gateway trusted = true → is_trusted net_contains client trusted = false →
  client_ip parse_ip net_contains gateway
    (get "x-forwarded-for" (upstream_headers to_str from_str print_ip h (Some client)) ≫= to_str) x_real_ip trusted
  = client.
Proof.
  intros Hg Hc. unfold client_ip. rewrite Hg. simpl.
  assert (Hx : ∃ x v, get "x-forwarded-for" (upstream_headers to_str from_str print_ip h (Some client)) = Some v
    ∧ to_str v = Some x ∧ walk_hops parse_ip net_contains trusted (rev (split_str "," x)) = Some client).
  { assert (Hget : ∀ v, build_xff to_str from_str print_ip h (Some client) = Some v →
      get "x-forwarded-for" (upstream_headers to_str from_str print_ip h (Some client)) = Some v).
    { intros v Hv. unfold upstream_headers. rewrite Hv. unfold get. by rewrite get_all_insert. }
    destruct (get "x-forwarded-for" h ≫= to_str) as [chain|] eqn:Ec.
    - assert (Hp : printable (chain +:+ ", " +:+ print_ip client)).
      { destruct (get "x-forwarded-for" h) as [v0|]; [|done]. eauto. }
      destruct (from_str_printable _ Hp) as (v & Hf & Ht). eexists _, v. split; [|split; [exact Ht|by apply walk_chain]].
      apply Hget. unfold build_xff. rewrite Ec. simpl. done.
    - destruct (from_str_printable _ (print_ip_printable client)) as (v & Hf & Ht).
      eexists _, v. split; [|split; [exact Ht|by apply walk_single]].
      apply Hget. unfold build_xff. rewrite Ec. simpl. done. }
  destruct Hx as (x & v & Hv & Ht & Hw). rewrite Hv. simpl. rewrite Ht. simpl. by rewrite Hw.
Qed.
End PassthroughFacts.

(** Two addresses; the client claims to be the gateway. *)
Module ProxyExample.
Definition gw : bool := true.
Definition attacker : bool := false.
Definition show (b : bool) : string := if b then "10.0.0.1" else "203.0.113.9".
Definition read (s : string) : option bool :=
  if bool_decide (s = "10.0.0.1") then Some true else if bool_decide (s = "203.0.113.9") then Some false else None.
Definition has (net : bool) (ip : bool) : bool := Bool.eqb net ip.
Definition text (s : string) : option string := Some s.
Definition spoofed : Headers string := [("x-forwarded-for", "10.0.0.1")].
End ProxyExample.

Lemma client_address_not_spoofable_witness :
  upstream_headers ProxyExample.text ProxyExample.text ProxyExample.show ProxyExample.spoofed (Some ProxyExample.attacker)
    = [("x-forwarded-for", "10.0.0.1, 203.0.113.9")]
  ∧ client_ip ProxyExample.read ProxyExample.has ProxyExample.gw
      (get "x-forwarded-for" (upstream_headers ProxyExample.text ProxyExample.text ProxyExample.show
         ProxyExample.spoofed (Some ProxyExample.attacker)) ≫= ProxyExample.text) (Some "10.0.0.1") [true]
    = ProxyExample.attacker.
Proof.
  split; [vm_compute; reflexivity|].
  apply (client_address_not_spoofable ProxyExample.text ProxyExample.text ProxyExample.show ProxyExample.read
           ProxyExample.has (fun _ => True)).
  - intros; exact I.
  - intros s _. exists s. split; reflexivity.
  - intros; exact I.
  - exact I.
  - intros; exact I.
  - intros []; (split; [vm_compute; discriminate|]); repeat (constructor; [split; [unfold visible; vm_compute; lia|discriminate]|]); constructor.
  - intros []; vm_compute; reflexivity.
  - reflexivity.
  - reflexivity.
Defined.

(** ** Which origin serves a path *)

Definition longer (a b : string * string) : Prop := (String.length (fst b) ≤ String.length (fst a))%nat.

Lemma insert_route_perm r l : insert_route r l ≡ₚ r :: l.
Proof.
  induction l as [|x l IH]; simpl; [done|]. case_bool_decide; [done|]. rewrite IH. constructor.
Qed.

Lemma sort_routes_perm l : sort_routes l ≡ₚ l.
Proof. induction l as [|r l IH]; simpl; [done|]. by rewrite insert_route_perm, IH. Qed.

Lemma insert_route_sorted r l : StronglySorted longer l → StronglySorted longer (insert_route r l).
Proof.
  induction 1 as [|x l Hl IH Hx]; simpl; [repeat constructor|]. case_bool_decide as Hlen.
  - constructor; [by constructor|]. constructor; [done|]. eapply Forall_impl; [exact Hx|]. unfold longer. simpl. lia.
  - constructor; [done|]. rewrite insert_route_perm. constructor; [unfold longer; lia|done].
Qed.

Lemma sort_routes_sorted l : StronglySorted longer (sort_routes l).
Proof. induction l as [|r l IH]; simpl; [constructor|]. by apply insert_route_sorted. Qed.

Lemma find_first {A} (f : A → bool) (R : A → A → Prop) (l : list A) x :
  StronglySorted R l → find f l = Some x → x ∈ l ∧ f x = true ∧ ∀ y, y ∈ l → f y = true → y = x ∨ R x y.
Proof.
  induction 1 as [|a l Hl IH Ha]; simpl; [done|]. destruct (f a) eqn:Ef.
  - intros [= <-]. split; [by left|]. split; [done|]. intros y [->|Hy]%elem_of_cons Hf; [by left|right].
    rewrite Forall_forall in Ha. by apply Ha.
  - intros (Hin & Hf & Hall)%IH. split; [by right|]. split; [done|].
    intros y [->|Hy]%elem_of_cons Hfy; [congruence|by apply Hall].
Qed.

(** A path is forwarded to the origin of the longest configured prefix that is
    the path itself or a whole-segment prefix of it; a prefix whose origin is blank
    does not exist, and a path no prefix covers is forwarded nowhere. *)
Theorem origin_longest_prefix (routes : list (string * string)) (path : string) :
  match origin_for (from_routes routes) path with
  | Some o => ∃ p raw, (p, raw) ∈ routes ∧ trim raw ≠ "" ∧ o = normalize_origin (trim raw)
      ∧ prefix_matches path p = true
      ∧ ∀ p' raw', (p', raw') ∈ routes → trim raw' ≠ "" → prefix_matches path p' = true →
          (String.length p' ≤ String.length p)%nat
  | None => ∀ p' raw', (p', raw') ∈ routes → trim raw' ≠ "" → prefix_matches path p' = false
  end.
Proof.
  unfold origin_for, from_routes. set (kept := omap _ routes).
  assert (Hk : ∀ p o, (p, o) ∈ kept ↔ ∃ raw, (p, raw) ∈ routes ∧ trim raw ≠ "" ∧ o = normalize_origin (trim raw)).
  { intros p o. subst kept. rewrite list_elem_of_omap. unfold str_is_empty. split.
    - intros ([p0 raw] & Hin & E). simpl in E. case_bool_decide; [done|]. injection E as -> <-. eauto.
    - intros (raw & Hin & Hne & ->). exists (p, raw). split; [done|]. simpl. by rewrite bool_decide_eq_false_2. }
  pose proof (sort_routes_sorted kept) as Hs. pose proof (sort_routes_perm kept) as Hp.
  destruct (find _ (sort_routes kept)) as [[p o]|] eqn:Ef; simpl.
  - destruct (find_first _ _ _ _ Hs Ef) as (Hin & Hf & Hall). rewrite Hp in Hin. apply Hk in Hin as (raw & Hin & Hne & ->).
    exists p, raw. do 4 (split; [done|]). intros p' raw' Hin' Hne' Hm'.
    destruct (Hall (p', normalize_origin (trim raw'))) as [E|E]; [rewrite Hp; apply Hk; eauto|done| |done].
    by injection E as -> _.
  - intros p' raw' Hin' Hne'. pose proof (find_none _ _ Ef (p', normalize_origin (trim raw'))) as Hn. simpl in Hn.
    apply Hn, list_elem_of_In. rewrite Hp. apply Hk. eauto.
Qed.
