(* ===== verification/Storage.v ===== *)
(** * Storage: the players' object store of [modules/storage/src]

    The tables and statements of [store.rs], the operations of [service.rs] with
    their validation and the cursor codec, and the purge of [projection.rs].  The
    advisory lock of a create orders it against the purge; here transactions run
    one at a time.  The JSON parser, the server's [jsonb] cast, its collation, its
    timestamp text and the base64 alphabet are parameters. *)

From Stdlib Require Import Ascii.
From stdpp Require Import sorting pretty.
From S2P Require Import Prelude Text OpsApi Pg.
#[local] Open Scope Z_scope.

Definition MAX_COLLECTION_BYTES : nat := 64.
Definition MAX_KEY_BYTES : nat := 128.
Definition MAX_VALUE_BYTES : Z := 65536.
Definition MAX_OBJECTS_PER_OWNER : Z := 10000.
Definition MAX_CURSOR_BYTES : nat := 256.
Definition MAX_PAGE_LIMIT : Z := 100.
Definition DEFAULT_PAGE_LIMIT : Z := 25.
Definition ACL_PRIVATE : string := "private".
Definition ACL_PUBLIC_READ : string := "public_read".

Definition is_ascii_digit (c : ascii) : bool := ((48 <=? code c) && (code c <=? 57))%nat.
Definition is_ascii_alphanumeric (c : ascii) : bool :=
  is_ascii_digit c || ((65 <=? code c) && (code c <=? 90) || (97 <=? code c) && (code c <=? 122))%nat.

Definition is_legal_segment (segment : string) : bool :=
  negb (str_is_empty segment)
  && forallb (fun b => is_ascii_alphanumeric b || Ascii.eqb b "." || Ascii.eqb b "_" || Ascii.eqb b "-") (to_bytes segment).

(** ** The tables *)

Record Object := mkObject {
  value : string;
  version : Z;
  acl : string;
  created_at : Z;
  updated_at : Z;
}.

Abbreviation Address := (string * string * string)%type.

Record StorageDb := mkStorage {
  objects : gmap Address Object;
  purged_players : gmap string (string * bool);
}.

Definition empty_storage : StorageDb := mkStorage ∅ ∅.
Definition set_objects (o : gmap Address Object) (d : StorageDb) : StorageDb := mkStorage o (purged_players d).
Definition set_purged_players p (d : StorageDb) : StorageDb := mkStorage (objects d) p.

Record ColumnCap := mkCap { what : string; max_bytes : nat; constraint : string }.
Definition COLLECTION_CAP : ColumnCap := mkCap "collection" MAX_COLLECTION_BYTES "storage_collection_len_check".
Definition KEY_CAP : ColumnCap := mkCap "key" MAX_KEY_BYTES "storage_key_len_check".
Definition COLUMN_CAPS : list ColumnCap := [COLLECTION_CAP; KEY_CAP].

(** ** Verdicts *)

Definition NOT_FOUND : string := "no such object".
Definition PLAYER_DELETED : string := "this account has been deleted".
Definition MALFORMED_CURSOR : string := "cursor is malformed".
Definition MALFORMED_IDENTITY : string := "caller identity is not a uuid".

(** [internal]: the text of a server fault is not modelled. *)
Definition internal_error : Error := mkError Internal "internal".

Definition rejected (cap : ColumnCap) : Error :=
  mkError Invalid (what cap +:+ " exceeds " +:+ pretty (Z.of_nat (max_bytes cap)) +:+ " bytes").

Definition check_cap (cap : ColumnCap) (v : string) : result Error unit :=
  if bool_decide (max_bytes cap < String.length v)%nat then Err (rejected cap) else Ok ().

Definition by_constraint (name : string) : option ColumnCap :=
  find (fun cap => bool_decide (constraint cap = name)) COLUMN_CAPS.

Definition write_error (e : SqlError) : Error :=
  match e with
  | CheckViolation c =>
      match by_constraint c with
      | Some cap => rejected cap
      | None => if bool_decide (c = "storage_value_len_check")
                then mkError Invalid "value is too large once normalized as json" else internal_error
      end
  | _ => internal_error
  end.

Definition validate_segment (cap : ColumnCap) (segment : string) : result Error unit :=
  if is_legal_segment segment then check_cap cap segment
  else Err (mkError Invalid (what cap +:+ " must be a non-empty run of [A-Za-z0-9._-]")).

Definition validate_address (collection key : string) : result Error unit :=
  _ ← validate_segment COLLECTION_CAP collection; validate_segment KEY_CAP key.

Definition validate_acl (a : string) : result Error unit :=
  if bool_decide (a = "" ∨ a = ACL_PRIVATE ∨ a = ACL_PUBLIC_READ) then Ok ()
  else Err (mkError Invalid "acl must be private, public_read, or empty to leave it unchanged").

Definition validate_expected_version (expected : Z) : result Error unit :=
  if expected <? 0 then Err (mkError Invalid "expected_version must not be negative") else Ok ().

Definition resolve_limit (limit : Z) : result Error Z :=
  if limit <? 0 then Err (mkError Invalid "limit must not be negative")
  else if limit =? 0 then Ok DEFAULT_PAGE_LIMIT else Ok (Z.min limit MAX_PAGE_LIMIT).

Definition cursor_within_cap (cursor : string) : result Error unit :=
  if bool_decide (MAX_CURSOR_BYTES < String.length cursor)%nat
  then Err (mkError Invalid "cursor exceeds 256 bytes") else Ok ().

(** ** Cursor times *)

Definition CURSOR_TIME_SHAPE : string := "NNNN-NN-NNTNN:NN:NN.NNNNNNZ".

(** [s[from..to].parse().unwrap_or_default()]. *)
Definition field (s : string) (from to : nat) : Z :=
  default 0 (result_ok (parse_unsigned u32_max (take (to - from) (drop from (to_bytes s))))).

Definition days_in_month (year month : Z) : Z :=
  if bool_decide (month ∈ [1; 3; 5; 7; 8; 10; 12]) then 31
  else if bool_decide (month ∈ [4; 6; 9; 11]) then 30
  else if month =? 2 then
    if (year mod 4 =? 0) && (negb (year mod 100 =? 0) || (year mod 400 =? 0)) then 29 else 28
  else 0.

Definition shaped (s : string) : bool :=
  bool_decide (String.length s = String.length CURSOR_TIME_SHAPE)
  && forallb (fun cp => if Ascii.eqb (snd cp) "N" then is_ascii_digit (fst cp) else Ascii.eqb (fst cp) (snd cp))
       (zip (to_bytes s) (to_bytes CURSOR_TIME_SHAPE)).

Definition is_cursor_time (s : string) : bool :=
  shaped s
  && (let year := field s 0 4 in let month := field s 5 7 in let day := field s 8 10 in
      let hour := field s 11 13 in let minute := field s 14 16 in let second := field s 17 19 in
      (1 <=? year) && ((1 <=? month) && (month <=? 12)) && (1 <=? day) && (day <=? days_in_month year month)
      && (hour <=? 23) && (minute <=? 59) && (second <=? 59)).

(** The canonical hyphenated spelling. *)
Definition is_uuid_text (s : string) : bool :=
  let b := to_bytes s in
  bool_decide (length b = 36%nat)
  && forallb (fun ic => if bool_decide (fst ic ∈ [8; 13; 18; 23]%nat) then Ascii.eqb (snd ic) "-"
                        else is_ascii_hexdigit (snd ic)) (zip (seq 0 36) b).

Definition caller (ident : Identity) : result Error string :=
  match player_id ident with
  | None => Err (mkError Unauthorized "a player identity is required")
  | Some me => if is_uuid_text me then Ok me else Err (mkError Internal MALFORMED_IDENTITY)
  end.

(** [String::from_utf8]: the well-formed byte sequences. *)
Definition cont (c : ascii) : bool := ((128 <=? code c) && (code c <=? 191))%nat.
Definition within (lo hi : nat) (c : ascii) : bool := ((lo <=? code c) && (code c <=? hi))%nat.

Fixpoint utf8_valid (l : bytes) : bool :=
  match l with
  | [] => true
  | a :: l1 =>
      if (code a <=? 127)%nat then utf8_valid l1 else
      match l1 with
      | [] => false
      | b :: l2 =>
          if within 194 223 a && cont b then utf8_valid l2 else
          match l2 with
          | [] => false
          | c :: l3 =>
              if (within 224 224 a && within 160 191 b || within 225 236 a && cont b
                  || within 237 237 a && within 128 159 b || within 238 239 a && cont b) && cont c
              then utf8_valid l3 else
              match l3 with
              | [] => false
              | d :: l4 =>
                  if (within 240 240 a && within 144 191 b || within 241 243 a && cont b
                      || within 244 244 a && within 128 143 b) && cont c && cont d
                  then utf8_valid l4 else false
              end
          end
      end
  end.

(** ** Statements and operations *)

(** The parts of the environment the module relies on.  [json_valid] is the JSON
    parser's verdict, [jsonb] the server's cast (the normalized text), [timestamp]
    the text of an instant in microseconds and [timestamptz_in] its inverse. *)
Record Platform := mkPlatform {
  json_valid : string → bool;
  jsonb : string → option string;
  text_le : string → string → bool;
  timestamp : Z → string;
  timestamptz_in : string → option Z;
  b64_encode : string → string;
  b64_decode : string → option string;
}.

Section Storage.
Context `{PgUuid} (pf : Platform).

Definition Sql := ST StorageDb SqlError.

Definition encode_cursor (created key : string) : string := b64_encode pf (created +:+ "|" +:+ key).

Definition decode_cursor (cursor : string) : result Error (option (string * string)) :=
  if str_is_empty cursor then Ok None else
  _ ← cursor_within_cap cursor;
  raw ← ok_or (b64_decode pf cursor) (mkError Invalid MALFORMED_CURSOR);
  if negb (utf8_valid (to_bytes raw)) then Err (mkError Invalid MALFORMED_CURSOR) else
  match split_once "|" (to_bytes raw) with
  | None => Err (mkError Invalid MALFORMED_CURSOR)
  | Some (t, k) =>
      let created := of_bytes t in let key := of_bytes k in
      if negb (is_cursor_time created) || negb (is_legal_segment key)
         || bool_decide (max_bytes KEY_CAP < String.length key)%nat
      then Err (mkError Invalid MALFORMED_CURSOR)
      else Ok (Some (created, key))
  end.

Definition validate_value (v : string) : result Error unit :=
  if MAX_VALUE_BYTES <? Z.of_nat (String.length v) then Err (mkError Invalid "value exceeds 65536 bytes")
  else if json_valid pf v then Ok () else Err (mkError Invalid "value is not valid json").

(** The row checks of [storage.objects], in the order of their names. *)
Definition row_checks (collection key v a : string) : Sql unit :=
  if negb (bool_decide (a = ACL_PRIVATE ∨ a = ACL_PUBLIC_READ)) then fail (CheckViolation "storage_acl_check") else
  if bool_decide (64 < String.length collection)%nat then fail (CheckViolation "storage_collection_len_check") else
  if bool_decide (128 < String.length key)%nat then fail (CheckViolation "storage_key_len_check") else
  if 131072 <? Z.of_nat (String.length v) then fail (CheckViolation "storage_value_len_check") else mret ().

Definition cast_jsonb (v : string) : Sql string := lift (ok_or (jsonb pf v) OtherSqlError).

Definition is_player_purged_tx (player : string) : Sql bool :=
  _ ← bind_text [player]; u ← cast_uuid player;
  gets (fun d => bool_decide (is_Some (purged_players d !! u))).

Definition owned (u : string) (d : StorageDb) : gmap Address Object :=
  filter (fun kv => fst (fst (fst kv)) = u) (objects d).

Definition count_objects_tx (owner : string) : Sql Z :=
  _ ← bind_text [owner]; u ← cast_uuid owner; gets (fun d => Z.of_nat (size (owned u d))).

Definition insert_object_tx (now : Z) (owner collection key v a : string) : Sql (option Z) :=
  _ ← bind_text [owner; collection; key; v; a];
  u ← cast_uuid owner; j ← cast_jsonb v; _ ← row_checks collection key j a;
  os ← gets objects;
  match os !! (u, collection, key) with
  | Some _ => mret None
  | None => _ ← modify (set_objects (<[(u, collection, key) := mkObject j 1 a now now]> os)); mret (Some 1)
  end.

Inductive CasOutcome := Updated (v : Z) | Stale | Missing.

Definition cas_object (now : Z) (owner collection key v : string) (expected : Z) (a : option string) : Sql CasOutcome :=
  _ ← bind_text ([owner; collection; key; v] ++ option_list a);
  u ← cast_uuid owner; j ← cast_jsonb v;
  os ← gets objects;
  match os !! (u, collection, key) with
  | None => mret Missing
  | Some o =>
      if version o =? expected then
        n ← bigint_add (version o) 1;
        _ ← row_checks collection key j (default (acl o) a);
        _ ← modify (set_objects (<[(u, collection, key) := mkObject j n (default (acl o) a) (created_at o) now]> os));
        mret (Updated n)
      else mret Stale
  end.

Definition read_visible_object (owner collection key me : string) (d : StorageDb)
  : result SqlError (option (Address * Object)) :=
  match (_ ← bind_text [owner; collection; key; me]; u ← cast_uuid owner; c ← cast_uuid me; mret (u, c)) d with
  | (_, Ok (u, c)) =>
      Ok (match objects d !! (u, collection, key) with
          | Some o => if bool_decide (u = c ∨ acl o = ACL_PUBLIC_READ) then Some ((u, collection, key), o) else None
          | None => None
          end)
  | (_, Err InvalidTextRepresentation) => Ok None
  | (_, Err e) => Err e
  end.

Definition delete_object (owner collection key : string) : Sql bool :=
  _ ← bind_text [owner; collection; key]; u ← cast_uuid owner; os ← gets objects;
  match os !! (u, collection, key) with
  | Some _ => _ ← modify (set_objects (delete (u, collection, key) os)); mret true
  | None => mret false
  end.

Definition plant_purged_player_tx (player handle : string) : Sql unit :=
  _ ← bind_text [player; handle]; u ← cast_uuid player;
  modify (fun d => match purged_players d !! u with
                   | Some _ => d
                   | None => set_purged_players (<[u := (handle, false)]> (purged_players d)) d
                   end).

Definition delete_owner_objects_tx (owner : string) : Sql unit :=
  _ ← bind_text [owner]; u ← cast_uuid owner;
  modify (fun d => set_objects (filter (fun kv => fst (fst (fst kv)) ≠ u) (objects d)) d).

Definition owner_lock_key (owner : string) : Z := lock_key "storage.owner/" owner.

(** *** Operations: a failed operation leaves the tables as they were *)

Definition atomic {A} (m : ST StorageDb Error A) (d : StorageDb) : StorageDb * result Error A :=
  match m d with (d', Ok a) => (d', Ok a) | (_, Err e) => (d, Err e) end.

Definition create (now : Z) (owner collection key v a : string) : ST StorageDb Error Z :=
  gone ← st_map_err write_error (is_player_purged_tx owner);
  if (gone : bool) then fail (mkError Conflict PLAYER_DELETED) else
  held ← st_map_err write_error (count_objects_tx owner);
  if MAX_OBJECTS_PER_OWNER <=? held
  then fail (mkError Conflict "you already hold the maximum of 10000 objects") else
  created ← st_map_err write_error (insert_object_tx now owner collection key v a);
  match created with
  | Some n => mret n
  | None => fail (mkError Conflict "an object already exists at this address; read it and write with its version")
  end.

Definition put_st (now : Z) (ident : Identity) (collection key v : string) (expected : Z) (a : string)
  : ST StorageDb Error Z :=
  me ← lift (caller ident);
  _ ← lift (validate_address collection key);
  _ ← lift (validate_value v);
  _ ← lift (validate_acl a);
  _ ← lift (validate_expected_version expected);
  if expected =? 0 then create now me collection key v (if str_is_empty a then ACL_PRIVATE else a) else
  outcome ← st_map_err write_error
              (cas_object now me collection key v expected (if str_is_empty a then None else Some a));
  match outcome with
  | Updated n => mret n
  | Stale => fail (mkError Conflict "expected_version does not match the stored version; re-read and retry")
  | Missing => fail (mkError NotFound NOT_FOUND)
  end.

Definition put (now : Z) (ident : Identity) (collection key v : string) (expected : Z) (a : string)
  : StorageDb → StorageDb * result Error Z := atomic (put_st now ident collection key v expected a).

Definition get (ident : Identity) (collection key owner : string) (d : StorageDb) : result Error (Address * Object) :=
  me ← caller ident;
  _ ← validate_address collection key;
  found ← map_err (fun _ => internal_error)
            (read_visible_object (if str_is_empty owner then me else owner) collection key me d);
  ok_or found (mkError NotFound NOT_FOUND).

Definition delete_st (ident : Identity) (collection key : string) : ST StorageDb Error unit :=
  me ← lift (caller ident);
  _ ← lift (validate_address collection key);
  dropped ← st_map_err (fun _ => internal_error) (delete_object me collection key);
  if (dropped : bool) then mret () else fail (mkError NotFound NOT_FOUND).

Definition delete_own (ident : Identity) (collection key : string) : StorageDb → StorageDb * result Error unit :=
  atomic (delete_st ident collection key).

(** *** Listing *)

(** [(created_at, key)] of two rows, the newer first. *)
Definition listed_before (a b : string * Object) : Prop :=
  created_at (snd b) < created_at (snd a)
  ∨ (created_at (snd a) = created_at (snd b) ∧ text_le pf (fst b) (fst a) = true).

#[global] Instance listed_before_dec : RelDecision listed_before.
Proof. intros a b. unfold listed_before. apply _. Defined.

(** The rows of one owner's collection, in the order of the listing. *)
Definition collection_rows (u collection : string) (d : StorageDb) : list (string * Object) :=
  merge_sort listed_before
    (omap (fun kv => let '(o, c, k) := fst kv in
                     if bool_decide (o = u ∧ c = collection) then Some (k, snd kv) else None)
          (map_to_list (objects d))).

(** [(created_at, key) < (t, k)]. *)
Definition after_cursor (t : Z) (k : string) (r : string * Object) : bool :=
  (created_at (snd r) <? t)
  || ((created_at (snd r) =? t) && text_le pf (fst r) k && negb (bool_decide (fst r = k))).

Definition page_objects (owner collection : string) (after : option (string * string)) (limit : Z) (d : StorageDb)
  : result SqlError (list (string * Object)) :=
  match (_ ← bind_text ([owner; collection] ++ match after with Some (t, k) => [t; k] | None => [] end);
         u ← cast_uuid owner;
         t ← (match after with
              | Some (t, _) => lift (ok_or (timestamptz_in pf t) OtherSqlError)
              | None => mret 0
              end : Sql Z);
         mret (u, t)) d with
  | (_, Err e) => Err e
  | (_, Ok (u, t)) =>
      let rows := collection_rows u collection d in
      Ok (take (Z.to_nat limit)
            match after with Some (_, k) => List.filter (after_cursor t k) rows | None => rows end)
  end.

Record ObjectPage := mkObjectPage { items : list (string * Object); next_cursor : string }.

Definition list_objects (ident : Identity) (collection cursor : string) (limit : Z) (d : StorageDb)
  : result Error ObjectPage :=
  me ← caller ident;
  _ ← validate_segment COLLECTION_CAP collection;
  after ← decode_cursor cursor;
  limit ← resolve_limit limit;
  found ← map_err (fun _ => internal_error) (page_objects me collection after (limit + 1) d);
  let has_more := limit <? Z.of_nat (length found) in
  let page := take (Z.to_nat limit) found in
  Ok (mkObjectPage page
        match last page with
        | Some r => if has_more then encode_cursor (timestamp pf (created_at (snd r))) (fst r) else ""
        | None => ""
        end).

(** *** The purge *)

Definition STORAGE_OWNERS_PER_FIRE : nat := 64.

Definition due_owners (d : StorageDb) : list string :=
  take STORAGE_OWNERS_PER_FIRE
    (merge_sort String.le (fst <$> List.filter (fun kv => negb (snd (snd kv))) (map_to_list (purged_players d)))).

Definition stamp_swept (player : string) : Sql unit :=
  u ← cast_uuid player;
  modify (fun d => set_purged_players (alter (fun t => (fst t, true)) u (purged_players d)) d).

Fixpoint sweep_owners (elapsed : nat → bool) (n : nat) (l : list string) : Sql unit :=
  match l with
  | [] => mret ()
  | player :: l' =>
      _ ← delete_owner_objects_tx player;
      _ ← stamp_swept player;
      if elapsed n then mret () else sweep_owners elapsed (S n) l'
  end.

Definition sweep_purged_players (elapsed : nat → bool) : Sql unit := fun d => sweep_owners elapsed 0 (due_owners d) d.
End Storage.
