(* ===== verification/StorageContract.v ===== *)
(** * StorageContract: what the object store promises

    Functional lemmas for the operations of [Storage], the invariant its steps
    keep, and the theorems: compare-and-swap loses no update, nobody writes or
    sees what is not theirs, and the quota holds. *)

From Stdlib Require Import Ascii.
From stdpp Require Import sorting.
From S2P Require Import Prelude Text OpsApi Pg Storage.
#[local] Open Scope Z_scope.

Section Contract.
Context `{PgUuid} (pf : Platform).

(** ** Successful runs of the statements *)

Lemma s_bind_text_ok (l : list string) (d d' : StorageDb) x :
  bind_text l d = (d', Ok x) → d' = d ∧ existsb has_nul l = false.
Proof. unfold bind_text. case_match; intros [= <-]; done. Qed.

Lemma s_cast_uuid_ok (p : string) (d d' : StorageDb) u :
  cast_uuid p d = (d', Ok u) → d' = d ∧ uuid_in p = Some u.
Proof. unfold cast_uuid, lift, ok_or. case_match; intros [= <- <-]; done. Qed.

Lemma cast_jsonb_ok v (d d' : StorageDb) j : cast_jsonb pf v d = (d', Ok j) → d' = d ∧ jsonb pf v = Some j.
Proof. unfold cast_jsonb, lift, ok_or. case_match; intros [= <- <-]; done. Qed.

Lemma row_checks_ok c k v a (d d' : StorageDb) x :
  row_checks c k v a d = (d', Ok x) → d' = d ∧ (a = ACL_PRIVATE ∨ a = ACL_PUBLIC_READ).
Proof.
  unfold row_checks. case_bool_decide; [|done]. repeat (case_match; [done|]). by intros [= <-].
Qed.

Lemma lift_ok {A} (r : result Error A) (d d' : StorageDb) a : lift r d = (d', Ok a) → d' = d ∧ r = Ok a.
Proof. unfold lift. by intros [= <- ->]. Qed.

Lemma s_purged_ok p d d' b :
  is_player_purged_tx p d = (d', Ok b) →
  ∃ u, d' = d ∧ uuid_in p = Some u ∧ b = bool_decide (is_Some (purged_players d !! u)).
Proof.
  unfold is_player_purged_tx. intros E. st_inv E. apply s_bind_text_ok in E0 as [-> _].
  st_inv E. apply s_cast_uuid_ok in E0 as [-> Hu]. injection E as <- <-. eauto.
Qed.

Lemma count_ok p d d' n :
  count_objects_tx p d = (d', Ok n) → ∃ u, d' = d ∧ uuid_in p = Some u ∧ n = Z.of_nat (size (owned u d)).
Proof.
  unfold count_objects_tx. intros E. st_inv E. apply s_bind_text_ok in E0 as [-> _].
  st_inv E. apply s_cast_uuid_ok in E0 as [-> Hu]. injection E as <- <-. eauto.
Qed.

Lemma insert_object_ok now p c k v a d d' r :
  insert_object_tx pf now p c k v a d = (d', Ok (Some r)) →
  ∃ u j, uuid_in p = Some u ∧ jsonb pf v = Some j ∧ (a = ACL_PRIVATE ∨ a = ACL_PUBLIC_READ)
    ∧ objects d !! (u, c, k) = None ∧ r = 1
    ∧ d' = set_objects (<[(u, c, k) := mkObject j 1 a now now]> (objects d)) d.
Proof.
  unfold insert_object_tx. intros E. st_inv E. apply s_bind_text_ok in E0 as [-> _].
  st_inv E. apply s_cast_uuid_ok in E0 as [-> Hu]. st_inv E. apply cast_jsonb_ok in E0 as [-> Hj].
  st_inv E. apply row_checks_ok in E0 as [-> Ha]. st_inv E. injection E0 as <- <-.
  destruct (objects d !! _) eqn:Eo; [done|]. st_inv E. injection E0 as <- <-. injection E as <- <-. eauto 10.
Qed.

(** The compare-and-swap: it writes only over the version it was told. *)
Lemma cas_object_ok now p c k v e a d d' o :
  cas_object pf now p c k v e a d = (d', Ok o) →
  ∃ u j, uuid_in p = Some u ∧ jsonb pf v = Some j ∧
  ((objects d !! (u, c, k) = None ∧ o = Missing ∧ d' = d)
   ∨ ∃ x, objects d !! (u, c, k) = Some x ∧
       ((version x ≠ e ∧ o = Stale ∧ d' = d)
        ∨ (version x = e ∧ o = Updated (e + 1)
           ∧ (default (acl x) a = ACL_PRIVATE ∨ default (acl x) a = ACL_PUBLIC_READ)
           ∧ d' = set_objects (<[(u, c, k) := mkObject j (e + 1) (default (acl x) a) (created_at x) now]> (objects d)) d))).
Proof.
  unfold cas_object. intros E. st_inv E. apply s_bind_text_ok in E0 as [-> _].
  st_inv E. apply s_cast_uuid_ok in E0 as [-> Hu]. st_inv E. apply cast_jsonb_ok in E0 as [-> Hj].
  st_inv E. injection E0 as <- <-. eexists _, _. split; [done|]. split; [done|].
  destruct (objects d !! _) as [x|] eqn:Eo; [right|injection E as <- <-; by left].
  exists x. split; [done|]. destruct (Z.eqb_spec (version x) e) as [<-|Hne]; [right|injection E as <- <-; by left].
  st_inv E. unfold bigint_add in E0. case_match; [|done]. injection E0 as <- <-.
  st_inv E. apply row_checks_ok in E0 as [-> Ha]. st_inv E. injection E0 as <- <-. injection E as <- <-. eauto.
Qed.

(** ** What each operation does *)

(** A write of [j] at an address: fresh at version one, or over the expected version. *)
Definition written (now : Z) (u c k j : string) (e n : Z) (d d' : StorageDb) : Prop :=
  validate_address c k = Ok () ∧
  ∃ o, d' = set_objects (<[(u, c, k) := o]> (objects d)) d ∧ value o = j ∧ version o = n ∧ updated_at o = now
    ∧ (acl o = ACL_PRIVATE ∨ acl o = ACL_PUBLIC_READ)
    ∧ ((e = 0 ∧ n = 1 ∧ objects d !! (u, c, k) = None ∧ purged_players d !! u = None
        ∧ Z.of_nat (size (owned u d)) < MAX_OBJECTS_PER_OWNER)
       ∨ (0 < e ∧ n = e + 1 ∧ ∃ x, objects d !! (u, c, k) = Some x ∧ version x = e ∧ created_at o = created_at x)).

Lemma put_ok now ident c k v e a d d' n :
  put pf now ident c k v e a d = (d', Ok n) →
  ∃ me u j, caller ident = Ok me ∧ uuid_in me = Some u ∧ jsonb pf v = Some j ∧ written now u c k j e n d d'.
Proof.
  unfold put, atomic. destruct (put_st _ _ _ _ _ _ _ _ d) as [d1 [x|x]] eqn:E; [|done]. intros [= <- <-].
  unfold put_st in E. st_inv E. apply lift_ok in E0 as [-> Hme]. st_inv E. apply lift_ok in E0 as [-> Hadr].
  do 3 (st_inv E; apply lift_ok in E0 as [-> ?]; simpl in E). destruct a1.
  exists a0. destruct (Z.eqb_spec e 0) as [->|He].
  - unfold create in E. st_inv E. apply st_map_err_ok, s_purged_ok in E0 as (u & -> & Hu & ->).
    case_bool_decide as Hp; [done|]. apply eq_None_not_Some in Hp.
    st_inv E. apply st_map_err_ok, count_ok in E0 as (u' & -> & Hu' & ->). assert (u' = u) as -> by congruence.
    destruct (Z.leb_spec MAX_OBJECTS_PER_OWNER (Z.of_nat (size (owned u d)))); [done|].
    st_inv E. destruct a1 as [n|]; [|done]. injection E as <- <-.
    apply st_map_err_ok, insert_object_ok in E0 as (u' & j & Hu'' & Hj & Ha & Hn & -> & ->).
    assert (u' = u) as -> by congruence. exists u, j. do 3 (split; [done|]). split; [done|].
    eexists. split; [done|]. simpl. do 3 (split; [done|]). split; [done|]. left. done.
  - st_inv E. apply st_map_err_ok, cas_object_ok in E0 as (u & j & Hu & Hj & Hc).
    exists u, j. do 3 (split; [done|]). split; [done|].
    destruct Hc as [(_ & -> & ->)|(o & Ho & [(_ & -> & ->)|(Hv & -> & Ha & ->)])]; [done|done|].
    injection E as <- <-. eexists. split; [done|]. simpl. do 3 (split; [done|]). split; [done|]. right.
    match goal with Hx : validate_expected_version e = Ok _ |- _ => unfold validate_expected_version in Hx end.
    destruct (Z.ltb_spec e 0); [done|]. split; [lia|]. split; [done|]. eauto.
Qed.

Lemma put_err now ident c k v e a d d' x : put pf now ident c k v e a d = (d', Err x) → d' = d.
Proof. unfold put, atomic. destruct (put_st _ _ _ _ _ _ _ _ d) as [d1 [y|y]]; [done|]. by intros [= <- _]. Qed.

Lemma delete_own_effect ident c k d d' r :
  delete_own ident c k d = (d', r) →
  d' = d ∨ ∃ me u, caller ident = Ok me ∧ uuid_in me = Some u ∧ d' = set_objects (delete (u, c, k) (objects d)) d.
Proof.
  unfold delete_own, atomic. destruct (delete_st _ _ _ d) as [d1 [x|x]] eqn:E; intros [= <- <-]; [|by left].
  unfold delete_st in E. do 2 (st_inv E; apply lift_ok in E0 as [-> ?]; simpl in E).
  st_inv E. apply st_map_err_ok in E0. unfold delete_object in E0. st_inv E0. apply s_bind_text_ok in E1 as [-> _].
  st_inv E0. apply s_cast_uuid_ok in E1 as [-> Hu]. st_inv E0. injection E1 as <- <-.
  destruct (objects d !! _); [|by injection E0 as <- <-].
  st_inv E0. injection E1 as <- <-. injection E0 as <- <-. injection E as <- <-. right. eauto.
Qed.

(** ** Steps and the invariant *)

Inductive sstep : StorageDb → StorageDb → Prop :=
| StepPut now ident c k v e a d : sstep d (fst (put pf now ident c k v e a d))
| StepDelete ident c k d : sstep d (fst (delete_own ident c k d))
| StepPlant player handle d d' : plant_purged_player_tx player handle d = (d', Ok ()) → sstep d d'
| StepSweep elapsed d d' : sweep_purged_players elapsed d = (d', Ok ()) → sstep d d'.

Definition sreachable : StorageDb → Prop := rtc sstep empty_storage.

Record storage_inv (d : StorageDb) : Prop := {
  si_quota : ∀ u, Z.of_nat (size (owned u d)) ≤ MAX_OBJECTS_PER_OWNER;
  si_rows : ∀ a o, objects d !! a = Some o → 1 ≤ version o ∧ (acl o = ACL_PRIVATE ∨ acl o = ACL_PUBLIC_READ);
  si_keys : ∀ u c k, is_Some (objects d !! (u, c, k)) → validate_address c k = Ok ();
  si_tomb : ∀ u t, purged_players d !! u = Some t → uuid_in u = Some u;
  si_swept : ∀ u h c k, purged_players d !! u = Some (h, true) → objects d !! (u, c, k) = None;
}.

Lemma owned_insert u v c k o d :
  owned u (set_objects (<[(v, c, k) := o]> (objects d)) d)
  = if bool_decide (v = u) then <[(v, c, k) := o]> (owned u d) else owned u d.
Proof.
  unfold owned. simpl. case_bool_decide as E.
  - by rewrite map_filter_insert_True.
  - rewrite map_filter_insert_not; [done|]. intros y. simpl. congruence.
Qed.

Lemma inv_written now u c k j e n d d' : storage_inv d → written now u c k j e n d d' → storage_inv d'.
Proof.
  intros [] (Hadr & o & -> & _ & Hn & _ & Ha & Hc). split.
  - intros v. rewrite owned_insert. case_bool_decide as Ev; [subst v|done]. rewrite map_size_insert.
    case_match eqn:Ex; [apply si_quota0|].
    destruct Hc as [(_ & _ & _ & _ & Hq)|(_ & _ & x & Hx & _)]; [simpl; lia|].
    apply map_lookup_filter_None in Ex as [?|Ex]; [congruence|]. by specialize (Ex x Hx).
  - intros a x. simpl. rewrite lookup_insert. case_decide; [intros [= <-]; split; [|done]|apply si_rows0].
    destruct Hc as [(_ & -> & _)|(He & -> & _)]; lia.
  - intros v c' k'. simpl. rewrite lookup_insert. case_decide as E; [by injection E as -> -> ->|apply si_keys0].
  - done.
  - intros v h c' k' Hv. simpl in *. rewrite lookup_insert. case_decide as E; [|by eapply si_swept0]. injection E as -> -> ->.
    destruct Hc as [(_ & _ & _ & Hp & _)|(_ & _ & x & Hx & _)]; [congruence|].
    by rewrite (si_swept0 _ _ c' k' Hv) in Hx.
Qed.

(** Removing objects keeps the invariant. *)
Lemma inv_fewer d o' : storage_inv d → o' ⊆ objects d → storage_inv (set_objects o' d).
Proof.
  intros [] Hsub. split; simpl; try done.
  - intros u. etrans; [|exact (si_quota0 u)]. apply inj_le, map_subseteq_size. unfold owned. simpl.
    apply map_subseteq_spec. intros a x [Ha Hu]%map_lookup_filter_Some. apply map_lookup_filter_Some. split; [by eapply lookup_weaken|done].
  - intros a x Hx. eapply si_rows0, lookup_weaken; done.
  - intros u c k [x Hx]. eapply si_keys0. eexists. by eapply lookup_weaken.
  - intros u h c k Hu. destruct (o' !! (u, c, k)) as [x|] eqn:Ex; [|done].
    pose proof (lookup_weaken _ _ _ _ Ex Hsub) as Hx. by rewrite (si_swept0 _ _ c k Hu) in Hx.
Qed.

Definition swept_owner (u : string) (d : StorageDb) : StorageDb :=
  mkStorage (filter (fun kv => fst (fst (fst kv)) ≠ u) (objects d))
            (alter (fun t => (fst t, true)) u (purged_players d)).

Lemma sweep_owners_run elapsed n l d :
  Forall (fun u => uuid_in u = Some u) l →
  ∃ j, (j ≤ length l)%nat ∧ (l ≠ [] → 0 < j)%nat ∧ ((∀ i, elapsed i = false) → j = length l)
    ∧ sweep_owners elapsed n l d = (foldl (fun d u => swept_owner u d) d (take j l), Ok ()).
Proof.
  intros Hl. revert n d. induction Hl as [|u l Hu _ IH]; intros n d; simpl; [by exists 0%nat|].
  assert (E1 : delete_owner_objects_tx u d
    = (set_objects (filter (fun kv => fst (fst (fst kv)) ≠ u) (objects d)) d, Ok ())).
  { unfold delete_owner_objects_tx, bind_text, cast_uuid, mbind, ST_bind, lift. simpl.
    rewrite (uuid_in_no_nul _ _ Hu). simpl. by rewrite Hu. }
  rewrite (st_bind_run _ _ _ _ _ E1).
  assert (E2 : stamp_swept u (set_objects (filter (fun kv => fst (fst (fst kv)) ≠ u) (objects d)) d)
    = (swept_owner u d, Ok ())) by (unfold stamp_swept, cast_uuid, mbind, ST_bind, lift; simpl; by rewrite Hu).
  rewrite (st_bind_run _ _ _ _ _ E2). destruct (elapsed n) eqn:Ee.
  - exists 1%nat. split; [lia|]. split; [lia|]. split; [|done]. intros Hi. congruence.
  - destruct (IH (S n) (swept_owner u d)) as (j & Hj & _ & Hfull & ->). exists (S j).
    split; [simpl; lia|]. split; [lia|]. split; [|done]. intros Hi. simpl. by rewrite Hfull.
Qed.

Lemma inv_swept_owner u d : storage_inv d → storage_inv (swept_owner u d).
Proof.
  intros Hd. pose proof (inv_fewer d _ Hd (map_filter_subseteq (fun kv => fst (fst (fst kv)) ≠ u) (objects d))) as [].
  split; simpl in *; try done.
  - intros v t. destruct (decide (v = u)) as [->|Hne].
    + rewrite lookup_alter_eq. intros (t' & Ht & _)%fmap_Some. eauto.
    + rewrite lookup_alter_ne by done. eauto.
  - intros v h c k. destruct (decide (v = u)) as [->|Hne].
    + intros _. apply map_lookup_filter_None. right. naive_solver.
    + rewrite lookup_alter_ne by done. apply si_swept0.
Qed.

Lemma due_owners_unswept d u : u ∈ due_owners d → ∃ h, purged_players d !! u = Some (h, false).
Proof.
  unfold due_owners. intros Hu.
  assert (Hin : u ∈ merge_sort String.le (fst <$> List.filter (fun kv => negb (snd (snd kv))) (map_to_list (purged_players d)))).
  { rewrite <- (take_drop STORAGE_OWNERS_PER_FIRE). apply elem_of_app. by left. }
  rewrite merge_sort_Permutation in Hin. apply list_elem_of_fmap in Hin as ([v [h b]] & -> & Hin).
  apply list_elem_of_In, filter_In in Hin as [Hin Hb]. apply list_elem_of_In, elem_of_map_to_list in Hin.
  simpl in Hb. apply negb_true_iff in Hb as ->. eauto.
Qed.

Lemma sweep_effect elapsed d d' r :
  storage_inv d → sweep_purged_players elapsed d = (d', r) →
  ∃ l, d' = foldl (fun d u => swept_owner u d) d l ∧ r = Ok ()
    ∧ (∀ u, u ∈ l → ∃ h, purged_players d !! u = Some (h, false)).
Proof.
  intros Hd E. unfold sweep_purged_players in E.
  destruct (sweep_owners_run elapsed 0 (due_owners d) d) as (j & _ & _ & _ & E').
  { apply Forall_forall. intros u [h Hh]%due_owners_unswept. by eapply si_tomb. }
  rewrite E' in E. injection E as <- <-. eexists. split; [done|]. split; [done|].
  intros u Hu. apply due_owners_unswept. rewrite <- (take_drop j). apply elem_of_app. by left.
Qed.

Lemma inv_plant_purged player handle d d' r : storage_inv d → plant_purged_player_tx player handle d = (d', r) → storage_inv d'.
Proof.
  intros Hd. unfold plant_purged_player_tx, bind_text, cast_uuid, mbind, ST_bind, lift, modify, mret, ST_ret, fail.
  simpl. destruct (_ || _); [by intros [= <- _]|]. destruct (uuid_in player) as [u|] eqn:Hu; simpl; [|by intros [= <- _]].
  intros [= <- _]. case_match eqn:Ep; [done|]. destruct Hd. split; simpl; try done.
  - intros v t. rewrite lookup_insert. case_decide; [intros _; subst; by eapply uuid_in_canonical|eauto].
  - intros v h c k. rewrite lookup_insert. case_decide; [done|apply si_swept0].
Qed.

Lemma sstep_inv d d' : sstep d d' → storage_inv d → storage_inv d'.
Proof.
  intros Hs Hd. destruct Hs as [now ident c k v e a d|ident c k d|player handle d d' E|elapsed d d' E].
  - destruct (put _ _ _ _ _ _ _ _ d) as [d' [n|x]] eqn:E; simpl.
    + apply put_ok in E as (me & u & j & _ & _ & _ & Hw). by eapply inv_written.
    + by apply put_err in E as ->.
  - destruct (delete_own ident c k d) as [d' r] eqn:E. simpl.
    apply delete_own_effect in E as [->|(me & u & _ & _ & ->)]; [done|]. by apply inv_fewer, delete_subseteq.
  - by eapply inv_plant_purged.
  - apply sweep_effect in E as (l & -> & _ & _); [|done]. clear -Hd. revert d Hd.
    induction l as [|u l IH]; intros d Hd; [done|]. simpl. by apply IH, inv_swept_owner.
Qed.

Lemma sreachable_inv d : sreachable d → storage_inv d.
Proof.
  apply (rtc_ind_r storage_inv empty_storage).
  - split; [done|done| |done|done]. by intros u c k [x Hx].
  - intros d1 d2 _ Hs Hd. by eapply sstep_inv.
Qed.

(** The store's quota and row rules hold in every reachable state, deletions
    and purges included: no owner holds more than the maximum, every version is
    positive, every access rule is one of the two, and a player whose purge has
    been swept owns nothing, for ever. *)
Theorem storage_bounds (d : StorageDb) :
  sreachable d →
  (∀ u, Z.of_nat (size (owned u d)) ≤ MAX_OBJECTS_PER_OWNER)
  ∧ (∀ a o, objects d !! a = Some o → 1 ≤ version o ∧ (acl o = ACL_PRIVATE ∨ acl o = ACL_PUBLIC_READ))
  ∧ (∀ u h c k, purged_players d !! u = Some (h, true) → objects d !! (u, c, k) = None).
Proof.
  by intros []%sreachable_inv.
Qed.

(** ** Compare-and-swap *)

(** A step that leaves an object at the address. *)
Definition present_step (a : Address) (d d' : StorageDb) : Prop := sstep d d' ∧ is_Some (objects d' !! a).

(** While an object stays at its address its version never falls. *)
Lemma step_version a d d' x :
  storage_inv d → present_step a d d' → objects d !! a = Some x → ∃ x', objects d' !! a = Some x' ∧ version x ≤ version x'.
Proof.
  intros Hd [Hs [x' Hx']] Hx. exists x'. split; [done|].
  destruct Hs as [now ident c k v e ac d|ident c k d|player handle d d' E|elapsed d d' E].
  - destruct (put _ _ _ _ _ _ _ _ d) as [d' [n|y]] eqn:E; simpl in *; [|apply put_err in E as ->; simplify_eq; lia].
    apply put_ok in E as (me & u & j & _ & _ & _ & (_ & o & -> & _ & Hn & _ & _ & Hc)). simpl in Hx'.
    rewrite lookup_insert in Hx'. case_decide; [|simplify_eq; lia]. simplify_eq.
    destruct Hc as [(_ & _ & ? & _)|(_ & -> & y & Hy & <- & _)]; [congruence|]. simplify_eq. lia.
  - destruct (delete_own ident c k d) as [d' r] eqn:E. simpl in *.
    apply delete_own_effect in E as [->|(me & u & _ & _ & ->)]; [simplify_eq; lia|]. simpl in Hx'.
    apply lookup_delete_Some in Hx' as [_ Hx']. simplify_eq. lia.
  - unfold plant_purged_player_tx in E. st_inv E. apply s_bind_text_ok in E0 as [-> _].
    st_inv E. apply s_cast_uuid_ok in E0 as [-> _]. injection E as <-. case_match; simpl in *; simplify_eq; lia.
  - apply sweep_effect in E as (l & -> & _ & _); [|done].
    assert (Hsub : objects (foldl (fun d u => swept_owner u d) d l) ⊆ objects d).
    { clear. revert d. induction l as [|u l IH]; intros d; simpl; [done|]. etrans; [apply IH|]. apply map_filter_subseteq. }
    pose proof (lookup_weaken _ _ _ _ Hx' Hsub). simplify_eq. lia.
Qed.

Lemma steps_version a d d' x :
  storage_inv d → rtc (present_step a) d d' → objects d !! a = Some x →
  storage_inv d' ∧ ∃ x', objects d' !! a = Some x' ∧ version x ≤ version x'.
Proof.
  intros Hd Hs. revert x. induction Hs as [d|d1 d2 d3 H1 _ IH]; intros x Hx; [eauto with lia|].
  destruct (step_version _ _ _ _ Hd H1 Hx) as (y & Hy & Hle).
  destruct (IH ltac:(by eapply sstep_inv, Hd; apply H1) y Hy) as (Hd3 & z & Hz & Hle'). eauto with lia.
Qed.

(** What a successful request shows about its caller and address. *)
Lemma put_ok_request now ident c k v e a d d1 n :
  put pf now ident c k v e a d = (d1, Ok n) → 0 < e →
  ∃ me, caller ident = Ok me ∧ validate_address c k = Ok () ∧ validate_expected_version e = Ok ()
    ∧ existsb has_nul [me; c; k] = false.
Proof.
  unfold put, atomic. destruct (put_st _ _ _ _ _ _ _ _ d) as [dx [y|y]] eqn:Ep; [|done]. intros _ He.
  unfold put_st in Ep. st_inv Ep. apply lift_ok in E as [-> Hme]. st_inv Ep. apply lift_ok in E as [-> Hadr].
  do 2 (st_inv Ep; apply lift_ok in E as [-> _]; simpl in Ep). st_inv Ep. apply lift_ok in E as [-> Hev].
  destruct (Z.eqb_spec e 0); [lia|]. st_inv Ep. apply st_map_err_ok in E. unfold cas_object in E. st_inv E.
  apply s_bind_text_ok in E0 as [_ Hnul]. exists a0. simpl in *.
  rewrite !orb_false_iff in *. destruct a1, a4. naive_solver.
Qed.

(** A write against another version than the stored one. *)
Lemma put_stale now ident me u c k v j e a x d :
  caller ident = Ok me → uuid_in me = Some u → validate_address c k = Ok () → validate_value pf v = Ok () →
  validate_acl a = Ok () → validate_expected_version e = Ok () → existsb has_nul [me; c; k] = false →
  existsb has_nul [v; a] = false → jsonb pf v = Some j → e ≠ 0 → objects d !! (u, c, k) = Some x → version x ≠ e →
  put pf now ident c k v e a d
  = (d, Err (mkError Conflict "expected_version does not match the stored version; re-read and retry")).
Proof.
  intros Hme Hu Had Hv Ha Hev Hn1 Hn2 Hj He Hx Hne. unfold put, atomic, put_st.
  rewrite Hme, Had, Hv, Ha, Hev. unfold mbind, ST_bind, lift. simpl.
  destruct (Z.eqb_spec e 0); [done|]. unfold cas_object, bind_text. simpl in Hn1, Hn2. rewrite !orb_false_iff in *.
  destruct Hn1 as (Hn1 & Hn3 & Hn4 & _), Hn2 as (Hn5 & Hn6 & _).
  assert (Hnul : existsb has_nul ([me; c; k; v] ++ option_list (if str_is_empty a then None else Some a)) = false).
  { rewrite existsb_app. simpl. rewrite Hn1, Hn3, Hn4, Hn5. simpl. case_match; [done|]. simpl. by rewrite Hn6. }
  rewrite Hnul. unfold st_map_err, cast_uuid, cast_jsonb, mbind, ST_bind, lift, gets, mret, ST_ret. simpl.
  rewrite Hu, Hj. simpl. rewrite Hx. destruct (Z.eqb_spec (version x) e); done.
Qed.

(** C16: no update is lost.  Once a write against version [e] has succeeded, any
    other write of the owner against that same version, as long as the object has
    not been deleted meanwhile and whatever else everybody did, is told it is
    stale and changes nothing. *)
Theorem no_lost_update (now now2 : Z) (ident : Identity) (c k v v2 a a2 : string) (e n : Z) (d d1 d2 : StorageDb) :
  sreachable d → put pf now ident c k v e a d = (d1, Ok n) → 0 < e →
  (∀ me u, caller ident = Ok me → uuid_in me = Some u → rtc (present_step (u, c, k)) d1 d2) →
  validate_value pf v2 = Ok () → validate_acl a2 = Ok () → is_Some (jsonb pf v2) →
  existsb has_nul [v2; a2] = false →
  put pf now2 ident c k v2 e a2 d2
  = (d2, Err (mkError Conflict "expected_version does not match the stored version; re-read and retry")).
Proof.
  intros Hd%sreachable_inv E He Hs Hv2 Ha2 [j2 Hj2] Hn2.
  destruct (put_ok_request _ _ _ _ _ _ _ _ _ _ E He) as (me & Hme & Had & Hev & Hn1).
  apply put_ok in E as (me' & u & j & Hme' & Hu & _ & Hw). assert (me' = me) as -> by congruence.
  pose proof (inv_written _ _ _ _ _ _ _ _ _ Hd Hw) as Hd1. specialize (Hs me u Hme Hu).
  destruct Hw as (_ & o & -> & _ & Hvo & _ & _ & [(? & _)|(_ & -> & _)]); [lia|].
  destruct (steps_version _ _ _ o Hd1 Hs) as (_ & x & Hx & Hle); [simpl; by rewrite lookup_insert_eq|].
  eapply put_stale; try done; lia.
Qed.

(** ** Isolation *)

(** A player's writes and deletions never touch another player's objects, and
    a read shows an object only to its owner or, when it is [public_read], to
    anybody who can name it; asking for somebody's private object is answered
    exactly as asking for one that does not exist. *)
Theorem storage_isolation (ident : Identity) (me u : string) (d : StorageDb) :
  caller ident = Ok me → uuid_in me = Some u →
  (∀ now c k v e a x, fst (fst x) ≠ u → objects (fst (put pf now ident c k v e a d)) !! x = objects d !! x)
  ∧ (∀ c k x, fst (fst x) ≠ u → objects (fst (delete_own ident c k d)) !! x = objects d !! x)
  ∧ (∀ c k owner x o, get ident c k owner d = Ok (x, o) →
       objects d !! x = Some o ∧ (fst (fst x) = u ∨ acl o = ACL_PUBLIC_READ))
  ∧ (∀ c k owner w x, uuid_in owner = Some w → w ≠ u → objects d !! (w, c, k) = Some x → acl x ≠ ACL_PUBLIC_READ →
       get ident c k owner d = get ident c k owner (set_objects (delete (w, c, k) (objects d)) d)).
Proof.
  intros Hme Hu. split; [|split; [|split]].
  - intros now c k v e a x Hx. destruct (put _ _ _ _ _ _ _ _ d) as [d' [n|y]] eqn:E; simpl; [|by apply put_err in E as ->].
    apply put_ok in E as (me' & u' & j & Hme' & Hu' & _ & (_ & o & -> & _)). simpl.
    rewrite lookup_insert_ne; [done|]. intros <-. simpl in Hx. congruence.
  - intros c k x Hx. destruct (delete_own ident c k d) as [d' r] eqn:E. simpl.
    apply delete_own_effect in E as [->|(me' & u' & Hme' & Hu' & ->)]; [done|]. simpl.
    rewrite lookup_delete_ne; [done|]. intros <-. simpl in Hx. congruence.
  - intros c k owner x o. unfold get. rewrite Hme. simpl. destruct (validate_address c k); [|done]. simpl.
    unfold read_visible_object. set (own := if str_is_empty owner then me else owner).
    unfold bind_text, cast_uuid, mbind, ST_bind, result_bind, lift, mret, ST_ret, fail. simpl.
    destruct (_ || _); [done|]. destruct (uuid_in own) as [w|]; simpl; [|done]. rewrite Hu. simpl.
    destruct (objects d !! (w, c, k)) as [y|] eqn:Ey; simpl; [|done]. case_bool_decide as Hvis; simpl; [|done].
    intros [= <- <-]. done.
  - intros c k owner w x Hw Hne Hx Hacl. unfold get. rewrite Hme. simpl. destruct (validate_address c k); [|done]. simpl.
    unfold read_visible_object, str_is_empty. rewrite (bool_decide_eq_false_2 (owner = "")).
    2:{ intros ->. destruct (uuid_in_digits _ _ Hw) as [_ Hl]. done. }
    unfold bind_text, cast_uuid, mbind, ST_bind, result_bind, lift, mret, ST_ret, fail. simpl.
    destruct (_ || _); [done|]. rewrite Hw. simpl. rewrite Hu. simpl. rewrite Hx, lookup_delete_eq.
    rewrite bool_decide_eq_false_2; [done|]. intros [?|?]; congruence.
Qed.
End Contract.
