(* ===== verification/StoragePaging.v ===== *)
(** * StoragePaging: the cursors of the object listing

    The cursor codec round trip and the theorem that following [next_cursor] from
    the first page lists every object of a collection once, in order; with the
    witnesses of the store's theorems on a small concrete platform. *)

From Stdlib Require Import Ascii.
From stdpp Require Import sorting.
From S2P Require Import Prelude Text OpsApi Pg Storage StorageContract.
#[local] Open Scope Z_scope.

(** ** Characters *)

Lemma legal_char c :
  is_ascii_alphanumeric c || Ascii.eqb c "." || Ascii.eqb c "_" || Ascii.eqb c "-" = true →
  (code c <=? 127)%nat = true ∧ Ascii.eqb zero c = false.
Proof. destruct c as [[] [] [] [] [] [] [] []]; vm_compute; auto. Qed.

Lemma shape_char (c p : ascii) :
  (p ∈ to_bytes CURSOR_TIME_SHAPE) →
  (if Ascii.eqb p "N" then is_ascii_digit c else Ascii.eqb c p) = true →
  (code c <=? 127)%nat = true ∧ Ascii.eqb zero c = false ∧ c ≠ "|"%char.
Proof.
  intros Hp. destruct (Ascii.eqb_spec p "N") as [->|Hn].
  - destruct c as [[] [] [] [] [] [] [] []]; vm_compute; (done || intros; repeat split; discriminate).
  - intros ->%Ascii.eqb_eq. unfold CURSOR_TIME_SHAPE in Hp. simpl in Hp.
    repeat (apply elem_of_cons in Hp as [->|Hp]; [by vm_compute|]). by apply not_elem_of_nil in Hp.
Qed.

Lemma uuid_char c : is_ascii_hexdigit c = true ∨ Ascii.eqb c "-" = true → Ascii.eqb zero c = false.
Proof. destruct c as [[] [] [] [] [] [] [] []]; vm_compute; intros [?|?]; (reflexivity || discriminate). Qed.

Lemma has_nul_false s : (∀ c, c ∈ to_bytes s → Ascii.eqb zero c = false) → has_nul s = false.
Proof.
  intros Hc. unfold has_nul. apply not_true_iff_false. intros (c & Hin & Hz)%existsb_exists.
  rewrite Hc in Hz; [done|]. by apply list_elem_of_In.
Qed.

Lemma ascii_utf8 l : (∀ c, c ∈ l → (code c <=? 127)%nat = true) → utf8_valid l = true.
Proof.
  induction l as [|a l IH]; intros Hl; [done|]. cbn [utf8_valid]. rewrite (Hl a) by left. apply IH.
  intros c Hc. apply Hl. by right.
Qed.

Lemma legal_chars s c :
  is_legal_segment s = true → c ∈ to_bytes s → (code c <=? 127)%nat = true ∧ Ascii.eqb zero c = false.
Proof.
  unfold is_legal_segment. intros [_ Hs]%andb_prop Hc. rewrite forallb_forall in Hs.
  apply legal_char, Hs. by apply list_elem_of_In.
Qed.

Lemma cursor_time_chars s c :
  is_cursor_time s = true → c ∈ to_bytes s →
  (code c <=? 127)%nat = true ∧ Ascii.eqb zero c = false ∧ c ≠ "|"%char.
Proof.
  unfold is_cursor_time, shaped. intros [[Hl Hs]%andb_prop _]%andb_prop Hc.
  apply bool_decide_eq_true in Hl. rewrite forallb_forall in Hs.
  apply list_elem_of_lookup in Hc as [i Hi].
  destruct (lookup_lt_is_Some_2 (to_bytes CURSOR_TIME_SHAPE) i) as [p Hp].
  { rewrite length_to_bytes, <- Hl, <- length_to_bytes. by eapply lookup_lt_Some. }
  apply (shape_char c p); [by eapply list_elem_of_lookup_2|].
  apply (Hs (c, p)), list_elem_of_In, list_elem_of_lookup. exists i. by rewrite lookup_zip_with, Hi, Hp.
Qed.

Lemma cursor_time_length s : is_cursor_time s = true → String.length s = 27%nat.
Proof. unfold is_cursor_time, shaped. by intros [[Hl _]%andb_prop _]%andb_prop; apply bool_decide_eq_true in Hl. Qed.

Lemma uuid_text_no_nul s : is_uuid_text s = true → has_nul s = false.
Proof.
  unfold is_uuid_text. intros [Hl Hs]%andb_prop. apply bool_decide_eq_true in Hl. rewrite forallb_forall in Hs.
  apply has_nul_false. intros c [i Hi]%list_elem_of_lookup. apply uuid_char.
  assert (Hin : In (i, c) (zip (seq 0 36) (to_bytes s))).
  { apply list_elem_of_In, list_elem_of_lookup. exists i. rewrite lookup_zip_with, Hi.
    pose proof (lookup_lt_Some _ _ _ Hi). by rewrite lookup_seq_lt by lia. }
  specialize (Hs _ Hin). simpl in Hs. case_bool_decide; auto.
Qed.

Lemma split_once_first (c : ascii) t k : (c ∉ t) → split_once c (t ++ c :: k) = Some (t, k).
Proof.
  induction t as [|a t IH]; intros Hc; simpl; [by rewrite bool_decide_eq_true_2|].
  apply not_elem_of_cons in Hc as [Hne Hc]. rewrite bool_decide_eq_false_2 by done. by rewrite IH.
Qed.

Lemma validate_segment_ok cap s :
  validate_segment cap s = Ok () → is_legal_segment s = true ∧ (String.length s ≤ max_bytes cap)%nat.
Proof.
  unfold validate_segment, check_cap. case_match; [|done]. case_bool_decide; [done|]. intros _. split; [done|lia].
Qed.

Lemma filter_all {A} (f : A → bool) l : (∀ x, x ∈ l → f x = true) → List.filter f l = l.
Proof.
  induction l as [|a l IH]; intros Hl; [done|]. simpl. rewrite Hl by left. f_equal. apply IH. intros x Hx. apply Hl. by right.
Qed.

Lemma filter_none {A} (f : A → bool) l : (∀ x, x ∈ l → f x = false) → List.filter f l = [].
Proof.
  induction l as [|a l IH]; intros Hl; [done|]. simpl. rewrite Hl by left. apply IH. intros x Hx. apply Hl. by right.
Qed.

Section Paging.
Context `{PgUuid} (pf : Platform).

(** The unpadded base64 alphabet: decoding inverts encoding, and [n] bytes take at
    most four characters per three bytes. *)
Hypothesis b64_round : ∀ s, b64_decode pf (b64_encode pf s) = Some s.
Hypothesis b64_length : ∀ s, (String.length s ≤ String.length (b64_encode pf s) ≤ (4 * String.length s + 2) / 3)%nat.

(** The collation is a total order. *)
Hypothesis text_le_trans : ∀ a b c, text_le pf a b = true → text_le pf b c = true → text_le pf a c = true.
Hypothesis text_le_antisymm : ∀ a b, text_le pf a b = true → text_le pf b a = true → a = b.
Hypothesis text_le_total : ∀ a b, text_le pf a b = true ∨ text_le pf b a = true.

Lemma cursor_codec t k :
  is_cursor_time t = true → validate_segment KEY_CAP k = Ok () →
  encode_cursor pf t k ≠ "" ∧ decode_cursor pf (encode_cursor pf t k) = Ok (Some (t, k)).
Proof.
  intros Ht [Hk Hlen]%validate_segment_ok. pose proof (cursor_time_length _ Ht) as Hl. change (String.length k ≤ 128)%nat in Hlen.
  pose proof (b64_length (t +:+ "|" +:+ k)) as Hb.
  assert (Hbytes : to_bytes (t +:+ "|" +:+ k) = to_bytes t ++ "|"%char :: to_bytes k) by (by rewrite !to_bytes_app).
  assert (Hn : String.length (t +:+ "|" +:+ k) = (28 + String.length k)%nat).
  { rewrite <- length_to_bytes, Hbytes, length_app. simpl. rewrite !length_to_bytes. lia. }
  rewrite Hn in Hb. unfold encode_cursor. set (s := b64_encode pf _) in *.
  assert (Hs : s ≠ "") by (intros E; rewrite E in Hb; simpl in Hb; lia).
  split; [done|]. unfold decode_cursor, str_is_empty, cursor_within_cap.
  rewrite bool_decide_eq_false_2 by done.
  assert (Hcap : (String.length s ≤ MAX_CURSOR_BYTES)%nat).
  { etrans; [apply Hb|]. transitivity ((4 * 156 + 2) / 3)%nat; [apply Nat.Div0.div_le_mono; lia|]. by apply Nat.leb_le. }
  rewrite bool_decide_eq_false_2 by lia. simpl. unfold s. rewrite b64_round. simpl. rewrite Hbytes.
  rewrite ascii_utf8; [|intros c [Hc|[->|Hc]%elem_of_cons]%elem_of_app; [by eapply cursor_time_chars|done|by eapply legal_chars]].
  rewrite split_once_first by (intros Hc; by apply (cursor_time_chars _ _ Ht) in Hc as (_ & _ & ?)).
  simpl. rewrite !of_to_bytes, Ht, Hk. simpl. by rewrite bool_decide_eq_false_2 by (unfold MAX_KEY_BYTES; lia).
Qed.

(** ** The order of the rows *)

#[local] Instance listed_before_trans : Transitive (listed_before pf).
Proof. unfold listed_before. intros a b c [?|[? ?]] [?|[? ?]]; (left; lia) || right; split; [lia|eauto]. Qed.

#[local] Instance listed_before_total : Total (listed_before pf).
Proof.
  intros a b. unfold listed_before. destruct (Z.lt_trichotomy (created_at a.2) (created_at b.2)) as [?|[?|?]]; [lia| |lia].
  destruct (text_le_total a.1 b.1); [right|left]; right; split; done || lia.
Qed.

Lemma rows_sorted u c d : StronglySorted (listed_before pf) (collection_rows pf u c d).
Proof. apply StronglySorted_merge_sort; apply _. Qed.

Lemma rows_elem u c d k o : (k, o) ∈ collection_rows pf u c d ↔ objects d !! (u, c, k) = Some o.
Proof.
  unfold collection_rows. rewrite merge_sort_Permutation, list_elem_of_omap. split.
  - intros ([[[u' c'] k'] o'] & Hin%elem_of_map_to_list & E). simpl in E. case_bool_decide as Eq; [|done].
    destruct Eq as [-> ->]. by injection E as <- <-.
  - intros Ho. exists ((u, c, k), o). rewrite elem_of_map_to_list. split; [done|]. simpl. by rewrite bool_decide_eq_true_2.
Qed.

Lemma rows_NoDup u c d : NoDup (fst <$> collection_rows pf u c d).
Proof.
  unfold collection_rows. rewrite merge_sort_Permutation.
  pose proof (NoDup_fst_map_to_list (objects d)) as Hnd. revert Hnd.
  induction (map_to_list (objects d)) as [|[[[u' c'] k'] o'] l IH]; intros Hnd; [constructor|].
  apply NoDup_cons in Hnd as [Hni Hnd]. simpl. case_bool_decide as Eq; [|by apply IH]. simpl. constructor; [|by apply IH].
  destruct Eq as [-> ->]. intros ([k o] & -> & ([[[u2 c2] k2] o2] & Hin & E)%list_elem_of_omap)%list_elem_of_fmap.
  simpl in E. case_bool_decide as Eq; [|done]. destruct Eq as [-> ->]. injection E as <- <-.
  apply Hni. exact (list_elem_of_fmap_2 fst _ _ Hin).
Qed.

Lemma after_cursor_earlier r s : listed_before pf s r → after_cursor pf (created_at (snd r)) (fst r) s = false.
Proof.
  unfold after_cursor, listed_before. intros Hb. apply not_true_iff_false. rewrite orb_true_iff, !andb_true_iff, negb_true_iff.
  intros [Hlt%Z.ltb_lt|[[He%Z.eqb_eq Hle] Hne%bool_decide_eq_false]]; [lia|].
  destruct Hb as [?|[_ Hge]]; [lia|]. by apply Hne, text_le_antisymm.
Qed.

Lemma after_cursor_later r s :
  listed_before pf r s → fst s ≠ fst r → after_cursor pf (created_at (snd r)) (fst r) s = true.
Proof.
  unfold after_cursor, listed_before. intros Hb Hne. rewrite orb_true_iff, !andb_true_iff, negb_true_iff.
  rewrite bool_decide_eq_false_2 by done. destruct Hb as [?|[? ?]]; [left; by apply Z.ltb_lt|right].
  split; [split; [by apply Z.eqb_eq|done]|done].
Qed.

Lemma listed_before_refl r : listed_before pf r r.
Proof. destruct (listed_before_total r r); done. Qed.

(** The rows after a row's cursor are those behind it. *)
Lemma filter_after (before behind : list (string * Object)) r :
  StronglySorted (listed_before pf) (before ++ r :: behind) → NoDup (fst <$> before ++ r :: behind) →
  List.filter (after_cursor pf (created_at (snd r)) (fst r)) (before ++ r :: behind) = behind.
Proof.
  intros [Hb [_ Hs]]%StronglySorted_app Hnd. apply StronglySorted_inv in Hs as [_ Hs].
  rewrite fmap_app in Hnd. apply NoDup_app in Hnd as (_ & _ & [Hr _]%NoDup_cons).
  rewrite List.filter_app. simpl. rewrite (after_cursor_earlier r r) by apply listed_before_refl.
  rewrite (filter_none _ before), (filter_all _ behind); [done| |].
  - intros s Hin. rewrite Forall_forall in Hs. apply after_cursor_later; [by apply Hs|].
    intros E. apply Hr. rewrite <- E. by apply list_elem_of_fmap_2.
  - intros s Hin. apply after_cursor_earlier, Hb; [done|by left].
Qed.

Lemma resolve_limit_range limit n : resolve_limit limit = Ok n → 0 < n ≤ MAX_PAGE_LIMIT.
Proof.
  unfold resolve_limit, DEFAULT_PAGE_LIMIT, MAX_PAGE_LIMIT. destruct (Z.ltb_spec limit 0); [done|].
  destruct (Z.eqb_spec limit 0); intros [= <-]; lia.
Qed.
(** ** Following the pages *)

(** Ask for pages until one carries no cursor. *)
Fixpoint walk (fuel : nat) (ident : Identity) (collection : string) (limit : Z) (cursor : string) (d : StorageDb)
  : option (list (string * Object)) :=
  match fuel with
  | 0%nat => None
  | S fuel =>
      match list_objects pf ident collection cursor limit d with
      | Err _ => None
      | Ok page =>
          if str_is_empty (next_cursor page) then Some (items page)
          else app (items page) <$> walk fuel ident collection limit (next_cursor page) d
      end
  end.

(** The cursor a client holds once it has the rows of [before]. *)
Definition cursor_past (before : list (string * Object)) : string :=
  match last before with
  | None => ""
  | Some r => encode_cursor pf (timestamp pf (created_at (snd r))) (fst r)
  end.

(** The instants of a collection's rows are written as cursor times and read back. *)
Definition times_round (u collection : string) (d : StorageDb) : Prop :=
  ∀ k o, objects d !! (u, collection, k) = Some o →
    is_cursor_time (timestamp pf (created_at o)) = true
    ∧ timestamptz_in pf (timestamp pf (created_at o)) = Some (created_at o).

(** *** A collection as its owner lists it *)

Section Walk.
Context (ident : Identity) (me u collection : string) (limit : Z) (d : StorageDb).
Hypothesis Hme : caller ident = Ok me.
Hypothesis Hu : uuid_in me = Some u.
Hypothesis Hcoll : validate_segment COLLECTION_CAP collection = Ok ().
Hypothesis Hkeys : ∀ k, is_Some (objects d !! (u, collection, k)) → validate_segment KEY_CAP k = Ok ().
Hypothesis Htimes : times_round u collection d.

Lemma segment_no_nul cap s : validate_segment cap s = Ok () → has_nul s = false.
Proof. intros [Hs _]%validate_segment_ok. apply has_nul_false. intros c Hc. by apply (legal_chars s). Qed.

Lemma caller_no_nul : has_nul me = false.
Proof. unfold caller in Hme. repeat case_match; try done. simplify_eq. by apply uuid_text_no_nul. Qed.

Lemma row_of before r behind :
  collection_rows pf u collection d = before ++ r :: behind →
  validate_segment KEY_CAP (fst r) = Ok () ∧ is_cursor_time (timestamp pf (created_at (snd r))) = true
  ∧ timestamptz_in pf (timestamp pf (created_at (snd r))) = Some (created_at (snd r)).
Proof.
  intros E. assert (Hin : r ∈ collection_rows pf u collection d) by (rewrite E; apply elem_of_app; right; by left).
  destruct r as [k o]. apply rows_elem in Hin. split; [by apply Hkeys; eexists|by apply (Htimes k)].
Qed.

Lemma page_past before behind :
  collection_rows pf u collection d = before ++ behind →
  ∃ after, decode_cursor pf (cursor_past before) = Ok after
    ∧ ∀ m, page_objects pf me collection after m d = Ok (take (Z.to_nat m) behind).
Proof.
  pose proof caller_no_nul as Hn1. pose proof (segment_no_nul _ _ Hcoll) as Hn2.
  destruct before as [|r before _] using rev_ind; intros E.
  - exists None. split; [done|]. intros m. unfold page_objects, bind_text, cast_uuid, mbind, ST_bind, lift. simpl.
    rewrite Hn1, Hn2. simpl. rewrite Hu. simpl. by rewrite E.
  - rewrite <- app_assoc in E. simpl in E. destruct (row_of _ _ _ E) as (Hk & Ht & Hin).
    unfold cursor_past. rewrite last_snoc. destruct (cursor_codec _ _ Ht Hk) as [_ ->]. eexists. split; [done|].
    intros m. unfold page_objects, bind_text, cast_uuid, mbind, ST_bind, lift. simpl.
    assert (Hn3 : has_nul (timestamp pf (created_at r.2)) = false).
    { apply has_nul_false. intros c Hc. by apply (cursor_time_chars _ _ Ht). }
    rewrite Hn1, Hn2, Hn3, (segment_no_nul _ _ Hk). simpl. rewrite Hu. simpl. rewrite Hin. simpl. rewrite E.
    by rewrite filter_after; [|rewrite <- E; apply rows_sorted|rewrite <- E; apply rows_NoDup].
Qed.

(** One page, asked for with the cursor past [before]. *)
Lemma list_page before behind n :
  resolve_limit limit = Ok n → collection_rows pf u collection d = before ++ behind →
  list_objects pf ident collection (cursor_past before) limit d
  = Ok (mkObjectPage (take (Z.to_nat n) behind)
          (if n <? Z.of_nat (length behind) then cursor_past (take (Z.to_nat n) behind) else "")).
Proof.
  intros Hn E. destruct (page_past _ _ E) as (after & Hdec & Hpage). pose proof (resolve_limit_range _ _ Hn) as Hr.
  unfold list_objects. rewrite Hme. simpl. rewrite Hcoll. simpl. rewrite Hdec. simpl. rewrite Hn. simpl.
  rewrite Hpage. simpl. rewrite take_take, length_take.
  replace (Z.to_nat n `min` Z.to_nat (n + 1))%nat with (Z.to_nat n) by lia. do 2 f_equal.
  destruct (Z.ltb_spec n (Z.of_nat (Z.to_nat (n + 1) `min` length behind))), (Z.ltb_spec n (Z.of_nat (length behind)));
    [done|lia|lia|]. by destruct (last _).
Qed.

Lemma walk_past before behind fuel :
  0 ≤ limit → collection_rows pf u collection d = before ++ behind → (length behind < fuel)%nat →
  walk fuel ident collection limit (cursor_past before) d = Some behind.
Proof.
  intros Hlim. destruct (resolve_limit limit) as [n|e] eqn:Hn.
  2:{ unfold resolve_limit in Hn. destruct (Z.ltb_spec limit 0); [lia|]. by case_match. }
  pose proof (resolve_limit_range _ _ Hn) as Hr.
  revert before behind. induction fuel as [|fuel IH]; intros before behind E Hf; [lia|].
  simpl. rewrite (list_page _ _ _ Hn E). simpl. destruct (Z.ltb_spec n (Z.of_nat (length behind))) as [Hlt|Hle].
  - set (page := take (Z.to_nat n) behind).
    assert (Hlen : length page = Z.to_nat n) by (unfold page; rewrite length_take; lia).
    assert (E' : collection_rows pf u collection d = (before ++ page) ++ drop (Z.to_nat n) behind)
      by (unfold page; by rewrite <- app_assoc, take_drop).
    assert (cursor_past page = cursor_past (before ++ page) ∧ cursor_past page ≠ "") as [Hc Hne].
    { clearbody page. destruct page as [|r page _] using rev_ind; [simpl in Hlen; lia|].
      unfold cursor_past. rewrite app_assoc, !last_snoc. split; [done|]. rewrite app_assoc, <- app_assoc in E'.
      destruct (row_of _ _ _ E') as (Hk & Ht & _). by apply cursor_codec. }
    unfold str_is_empty. rewrite bool_decide_eq_false_2 by done. rewrite Hc, (IH _ _ E') by (rewrite length_drop; lia).
    simpl. unfold page. by rewrite take_drop.
  - simpl. by rewrite take_ge by lia.
Qed.
End Walk.

(** C27: following [next_cursor] from the first page, with any page size, ends after
    at most one page per object and has then listed every object of the caller's
    collection exactly once, newest first. *)
Theorem paging_complete (ident : Identity) (me u collection : string) (limit : Z) (d : StorageDb) :
  sreachable pf d → caller ident = Ok me → uuid_in me = Some u →
  validate_segment COLLECTION_CAP collection = Ok () → 0 ≤ limit → times_round u collection d →
  ∃ rows, walk (S (length rows)) ident collection limit "" d = Some rows
    ∧ StronglySorted (listed_before pf) rows ∧ NoDup (fst <$> rows)
    ∧ (∀ k o, (k, o) ∈ rows ↔ objects d !! (u, collection, k) = Some o).
Proof.
  intros Hd%sreachable_inv Hme Hu Hcoll Hlim Ht. exists (collection_rows pf u collection d).
  split; [|split; [apply rows_sorted|split; [apply rows_NoDup|intros; apply rows_elem]]].
  change "" with (cursor_past []). eapply (walk_past ident me u); try done; [|lia].
  intros k Hk. apply (si_keys _ Hd) in Hk. unfold validate_address in Hk. by rewrite Hcoll in Hk.
Qed.
End Paging.

(** ** A small platform *)

Module StorageExample.
Definition digit (t : Z) : string := of_bytes [ascii_of_nat (48 + Z.to_nat t)].

(** Ten instants, a tenth of a microsecond's digit each. *)
Definition timestamp (t : Z) : string := "2026-01-01T00:00:00.00000" +:+ digit t +:+ "Z".

Definition timestamptz_in (s : string) : option Z :=
  find (fun t => bool_decide (timestamp t = s)) [0; 1; 2; 3; 4; 5; 6; 7; 8; 9].

Definition platform : Platform :=
  mkPlatform (fun _ => true) Some (fun a b => bool_decide (String.le a b)) timestamp timestamptz_in id Some.

Definition alice : string := "11111111-1111-1111-1111-111111111111".
Definition bob : string := "22222222-2222-2222-2222-222222222222".
Definition as_player (p : string) : Identity := Some p.
Definition put' := @put plain_uuid platform.

Definition d1 : StorageDb := fst (put' 1 (as_player alice) "saves" "slot-1" "1" 0 "" empty_storage).
Definition d2 : StorageDb := fst (put' 2 (as_player alice) "saves" "slot-2" "2" 0 "" d1).
Definition d3 : StorageDb := fst (put' 2 (as_player alice) "saves" "slot-3" "3" 0 "public_read" d2).
Definition d4 : StorageDb := fst (put' 3 (as_player alice) "saves" "slot-1" "4" 1 "" d3).

Lemma d3_reached : @sreachable plain_uuid platform d3.
Proof. do 3 (eapply rtc_r; [|apply StepPut]). constructor. Qed.

Lemma d4_reached : @sreachable plain_uuid platform d4.
Proof. eapply rtc_r; [exact d3_reached|apply StepPut]. Qed.

Lemma d4_put : @put plain_uuid platform 3 (as_player alice) "saves" "slot-1" "4" 1 "" d3 = (d4, Ok 2).
Proof.
  assert (E : snd (@put plain_uuid platform 3 (as_player alice) "saves" "slot-1" "4" 1 "" d3) = Ok 2)
    by (vm_compute; reflexivity).
  unfold d4, put'. rewrite <- E. apply surjective_pairing.
Qed.

Lemma round s : b64_decode platform (b64_encode platform s) = Some s.
Proof. reflexivity. Qed.

Lemma lengths s :
  (String.length s ≤ String.length (b64_encode platform s) ≤ (4 * String.length s + 2) / 3)%nat.
Proof. cbn [platform b64_encode]. unfold id. split; [done|]. apply Nat.div_le_lower_bound; lia. Qed.

Lemma le_trans a b c : text_le platform a b = true → text_le platform b c = true → text_le platform a c = true.
Proof. simpl. rewrite !bool_decide_eq_true. apply transitivity. Qed.

Lemma le_antisymm a b : text_le platform a b = true → text_le platform b a = true → a = b.
Proof. simpl. rewrite !bool_decide_eq_true. apply (anti_symm String.le). Qed.

Lemma le_total a b : text_le platform a b = true ∨ text_le platform b a = true.
Proof. simpl. rewrite !bool_decide_eq_true. apply (total String.le). Qed.

Lemma times : times_round platform alice "saves" d4.
Proof.
  assert (Hall : map_Forall (fun _ o => created_at o = 1 ∨ created_at o = 2) (objects d4)).
  { apply (bool_decide_unpack _). vm_compute. exact I. }
  intros k o Ho. apply Hall in Ho as [->| ->]; split; vm_compute; reflexivity.
Qed.
End StorageExample.

Lemma storage_bounds_witness :
  Z.of_nat (size (owned StorageExample.alice StorageExample.d4)) = 3
  ∧ Z.of_nat (size (owned StorageExample.alice StorageExample.d4)) ≤ MAX_OBJECTS_PER_OWNER.
Proof.
  split; [vm_compute; reflexivity|].
  exact (proj1 (@storage_bounds plain_uuid StorageExample.platform StorageExample.d4 StorageExample.d4_reached) _).
Defined.

Lemma no_lost_update_witness :
  snd (StorageExample.put' 3 (StorageExample.as_player StorageExample.alice) "saves" "slot-1" "4" 1 "" StorageExample.d3) = Ok 2
  ∧ StorageExample.put' 4 (StorageExample.as_player StorageExample.alice) "saves" "slot-1" "5" 1 "" StorageExample.d4
    = (StorageExample.d4, Err (mkError Conflict "expected_version does not match the stored version; re-read and retry")).
Proof.
  split; [vm_compute; reflexivity|].
  refine (@no_lost_update plain_uuid StorageExample.platform 3 4 (StorageExample.as_player StorageExample.alice)
            "saves" "slot-1" "4" "5" "" "" 1 2 StorageExample.d3 StorageExample.d4 StorageExample.d4
            StorageExample.d3_reached StorageExample.d4_put _ _ _ _ _ _).
  - lia.
  - intros me u _ _. constructor.
  - vm_compute. reflexivity.
  - vm_compute. reflexivity.
  - by eexists.
  - vm_compute. reflexivity.
Defined.

Lemma storage_isolation_witness :
  @get plain_uuid (StorageExample.as_player StorageExample.bob) "saves" "slot-1" StorageExample.alice StorageExample.d4
  = Err (mkError NotFound NOT_FOUND)
  ∧ @get plain_uuid (StorageExample.as_player StorageExample.bob) "saves" "slot-1" StorageExample.alice StorageExample.d4
    = @get plain_uuid (StorageExample.as_player StorageExample.bob) "saves" "slot-1" StorageExample.alice
        (set_objects (delete (StorageExample.alice, "saves", "slot-1") (objects StorageExample.d4)) StorageExample.d4).
Proof.
  split; [vm_compute; reflexivity|].
  assert (Hx : objects StorageExample.d4 !! (StorageExample.alice, "saves", "slot-1")
               = Some (mkObject "4" 2 "private" 1 3)) by (vm_compute; reflexivity).
  refine (proj2 (proj2 (proj2 (@storage_isolation plain_uuid StorageExample.platform
            (StorageExample.as_player StorageExample.bob) StorageExample.bob StorageExample.bob StorageExample.d4 _ _)))
            "saves" "slot-1" StorageExample.alice StorageExample.alice _ _ _ Hx _).
  - vm_compute. reflexivity.
  - vm_compute. reflexivity.
  - vm_compute. reflexivity.
  - discriminate.
  - discriminate.
Defined.

Lemma paging_complete_witness :
  option_map (List.map fst)
    (@walk plain_uuid StorageExample.platform 4 (StorageExample.as_player StorageExample.alice)
       "saves" 2 "" StorageExample.d4) = Some ["slot-3"; "slot-2"; "slot-1"]
  ∧ ∃ rows, @walk plain_uuid StorageExample.platform (S (length rows)) (StorageExample.as_player StorageExample.alice)
              "saves" 2 "" StorageExample.d4 = Some rows ∧ NoDup rows.*1.
Proof.
  split; [vm_compute; reflexivity|].
  destruct (@paging_complete plain_uuid StorageExample.platform StorageExample.round StorageExample.lengths
              StorageExample.le_trans StorageExample.le_antisymm StorageExample.le_total
              (StorageExample.as_player StorageExample.alice) StorageExample.alice StorageExample.alice "saves" 2
              StorageExample.d4 StorageExample.d4_reached) as (rows & Hw & _ & Hnd & _).
  - vm_compute. reflexivity.
  - vm_compute. reflexivity.
  - vm_compute. reflexivity.
  - lia.
  - exact StorageExample.times.
  - exists rows. split; [exact Hw|exact Hnd].
Defined.
