(* ===== verification/Directory.v ===== *)
(** * Directory: the accounts module's player directory, as its clients see it

    The types of [api/accounts/api] that the social modules take from the
    directory, and how they answer when it fails. *)

From S2P Require Import Prelude Text OpsApi.

Definition MAX_HANDLE_BYTES : nat := 128 + 5.

Record PlayerSummary := mkSummary {
  ps_player_id : string;
  ps_display_name : string;
  ps_handle : string;
  ps_online_until : string;
}.

(** [accountsapi::Directory]. *)
Record Directory := mkDirectory {
  find_by_handle : string → result Error (option PlayerSummary);
  players_by_id : list string → result Error (list PlayerSummary);
}.

(** [internal]: the text of a server fault is not modelled. *)
Definition internal_error : Error := mkError Internal "internal".

Definition directory_unavailable (e : Error) : Error :=
  mkError Unavailable ("player directory unavailable: " +:+ msg e).

Definition summary_of (summaries : list PlayerSummary) (id : string) : option PlayerSummary :=
  find (fun s => eq_ignore_ascii_case (ps_player_id s) id) summaries.
