(* ===== verification/Friends.v ===== *)
(** * Friends: the social graph of [modules/friends/src]

    One row per pair of players.  The statements of [store.rs], the operations of
    [service.rs] and the purge of [projection.rs].  A request runs several statements
    in one transaction at READ COMMITTED, so other transactions may commit between
    them; it is a small machine, one step per statement ([request_stmt]), that
    [request] runs without interference and the steps of [FriendsSafety] interleave.
    The player directory is another module's capability and a parameter here. *)

From Stdlib Require Import Ascii.
From stdpp Require Import sorting pretty.
From S2P Require Import Prelude Text OpsApi Pg Purge Directory.
From S2P Require Storage.
#[local] Open Scope Z_scope.

Definition MAX_PAGE_LIMIT : Z := 100.
Definition DEFAULT_PAGE_LIMIT : Z := 50.
Definition MAX_CURSOR_BYTES : nat := 256.
Definition STATE_PENDING : string := "pending".
Definition STATE_ACCEPTED : string := "accepted".
Definition DIRECTION_INCOMING : string := "incoming".
Definition DIRECTION_OUTGOING : string := "outgoing".
Definition MAX_PENDING_OUTSTANDING : Z := 100.

Definition REASON_DECLINED : string := "declined".
Definition REASON_UNFRIENDED : string := "unfriended".
Definition REASON_ACCOUNT_DELETED : string := "account-deleted".
Definition REASON_WITHDRAWN : string := "withdrawn".

(** ** The tables and the events *)

Record Edge := mkEdge {
  low_id : string;
  high_id : string;
  requester_id : string;
  state : string;
  created_at : Z;
  accepted_at : option Z;
}.

(** The payloads of the durable topics. *)
Inductive FriendEvent :=
| Requested (edge_id requester requester_handle addressee addressee_handle : string)
| Accepted (edge_id requester requester_handle addressee addressee_handle : string)
| Removed (edge_id actor actor_handle other other_handle reason : string).

(** [edges] by id, the tombstones, and the events appended by the committed
    transactions. *)
Record FriendsDb := mkFriends {
  edges : gmap string Edge;
  purged_players : Tombs;
  appended : list FriendEvent;
}.

Definition empty_friends : FriendsDb := mkFriends ∅ ∅ [].
Definition set_edges (es : gmap string Edge) (d : FriendsDb) : FriendsDb := mkFriends es (purged_players d) (appended d).
Definition set_tombs (t : Tombs) (d : FriendsDb) : FriendsDb := mkFriends (edges d) t (appended d).

(** [Bus::emit_tx]: the event commits with the transaction. *)
Definition emit_tx {E} (e : FriendEvent) : ST FriendsDb E unit :=
  modify (fun d => mkFriends (edges d) (purged_players d) (appended d ++ [e])).

Definition NOT_FOUND : string := "friend relation not found".
Definition NO_SUCH_PLAYER : string := "no player with that handle".
Definition MALFORMED_CURSOR : string := "cursor is malformed".
Definition PLAYER_DELETED : string := "this account has been deleted".

Definition pair_write_error (e : SqlError) : Error :=
  match e with
  | InvalidTextRepresentation => mkError Invalid "player identity is not a valid uuid"
  | _ => internal_error
  end.

Definition wire_state (db_state : string) : result Error string :=
  if bool_decide (db_state = STATE_PENDING) then Ok STATE_PENDING
  else if bool_decide (db_state = STATE_ACCEPTED) then Ok STATE_ACCEPTED
  else Err internal_error.

Record Party := mkParty { party_id : string; party_handle : string }.

Definition party (summaries : list PlayerSummary) (id : string) : Party :=
  match summary_of summaries id with
  | Some s => mkParty (ps_player_id s) (ps_handle s)
  | None => mkParty id ""
  end.

Record Friend := mkFriend {
  fr_player_id : string;
  fr_display_name : string;
  fr_handle : string;
  fr_online_until : string;
  fr_edge_id : string;
  fr_state : string;
  fr_direction : string;
}.

Definition friend_of (edge_id st : string) (requester_is_caller : bool) (other_id : string)
    (other : option PlayerSummary) : Friend :=
  mkFriend (from_option ps_player_id other_id other) (from_option ps_display_name "" other)
           (from_option ps_handle "" other) (from_option ps_online_until "" other) edge_id st
           (if requester_is_caller then DIRECTION_OUTGOING else DIRECTION_INCOMING).

Definition caller (ident : Identity) : result Error string :=
  ok_or (player_id ident) (mkError Invalid "missing player identity").

(** ** Statements ([store.rs]) *)

Section Friends.
Context `{PgUuid}.

Definition Sql := ST FriendsDb SqlError.

Definition requester_lock_key (player : string) : Z := lock_key "friends.requester/" player.

(** Canonical uuid texts compare like the uuids. *)
Definition least (a b : string) : string := if bool_decide (String.le a b) then a else b.
Definition greatest (a b : string) : string := if bool_decide (String.le a b) then b else a.

(** The row of an ordered pair; [friends_pair_idx] makes it unique. *)
Definition pair_row (lo hi : string) (es : gmap string Edge) : option (string * Edge) :=
  find (fun kv => bool_decide (low_id (snd kv) = lo ∧ high_id (snd kv) = hi)) (map_to_list es).

Definition party_of (u : string) (e : Edge) : bool := bool_decide (u = low_id e ∨ u = high_id e).
Definition other_side (u : string) (e : Edge) : string := if bool_decide (low_id e = u) then high_id e else low_id e.

(** Folds "not a uuid" into "no such row". *)
Definition or_missing {A} (m : Sql (option A)) : Sql (option A) := fun d =>
  match m d with
  | (_, Err InvalidTextRepresentation) => (d, Ok None)
  | r => r
  end.

Definition insert_pending_tx (now : Z) (fresh me other pending : string) : Sql (option (string * string)) :=
  _ ← bind_text [me; other; pending]; a ← cast_uuid me; b ← cast_uuid other; es ← gets edges;
  let lo := least a b in let hi := greatest a b in
  if bool_decide (lo = hi) then fail (CheckViolation "friends_pair_ordered") else
  if negb (bool_decide (pending = STATE_PENDING ∨ pending = STATE_ACCEPTED))
  then fail (CheckViolation "friends_state_check") else
  match pair_row lo hi es with
  | Some _ => mret None
  | None =>
      if bool_decide (is_Some (es !! fresh)) then fail UniqueViolation else
      _ ← modify (set_edges (<[fresh := mkEdge lo hi a pending now None]> es));
      mret (Some (fresh, a))
  end.

Definition authored (u st : string) (d : FriendsDb) : gmap string Edge :=
  filter (fun kv => requester_id (snd kv) = u ∧ state (snd kv) = st) (edges d).

Definition count_authored_pending_tx (me pending : string) : Sql Z :=
  _ ← bind_text [me; pending]; a ← cast_uuid me; gets (fun d => Z.of_nat (size (authored a pending d))).

Definition accept_edge (now : Z) (accepted : string) (e : Edge) : Edge :=
  mkEdge (low_id e) (high_id e) (requester_id e) accepted (created_at e) (Some now).

Definition accept_crossing_tx (now : Z) (me other pending accepted : string) : Sql (option (string * string)) :=
  _ ← bind_text [me; other; pending; accepted]; a ← cast_uuid me; b ← cast_uuid other; es ← gets edges;
  match pair_row (least a b) (greatest a b) es with
  | Some (eid, e) =>
      if bool_decide (state e = pending ∧ requester_id e ≠ a) then
        _ ← modify (set_edges (<[eid := accept_edge now accepted e]> es));
        mret (Some (eid, if bool_decide (low_id e = a) then low_id e else high_id e))
      else mret None
  | None => mret None
  end.

Record PairRow := mkPairRow { pr_edge_id : string; pr_state : string; pr_requester_is_caller : bool }.

Definition find_pair_tx (me other : string) : Sql (option PairRow) :=
  _ ← bind_text [me; other]; a ← cast_uuid me; b ← cast_uuid other; es ← gets edges;
  mret ((fun kv => mkPairRow (fst kv) (state (snd kv)) (bool_decide (requester_id (snd kv) = a)))
        <$> pair_row (least a b) (greatest a b) es).

Record EdgeRow := mkEdgeRow {
  er_edge_id : string; er_other_id : string; er_state : string; er_created_at : Z; er_requester_is_caller : bool;
}.

Definition edge_row (u eid : string) (e : Edge) : EdgeRow :=
  mkEdgeRow eid (other_side u e) (state e) (created_at e) (bool_decide (requester_id e = u)).

Definition view_edge (edge_id me : string) : Sql (option EdgeRow) := or_missing (
  _ ← bind_text [edge_id; me]; i ← cast_uuid edge_id; u ← cast_uuid me; es ← gets edges;
  mret (match es !! i with
        | Some e => if party_of u e then Some (edge_row u i e) else None
        | None => None
        end)).

(** The consent rule: pending, by a party, not by its author. *)
Definition may_answer (u pending : string) (e : Edge) : bool :=
  bool_decide (state e = pending ∧ requester_id e ≠ u) && party_of u e.

Definition accept_tx (now : Z) (edge_id me pending accepted : string) : Sql (option (string * string)) := or_missing (
  _ ← bind_text [edge_id; me; pending; accepted]; i ← cast_uuid edge_id; u ← cast_uuid me; es ← gets edges;
  match es !! i with
  | Some e =>
      if may_answer u pending e then
        _ ← modify (set_edges (<[i := accept_edge now accepted e]> es)); mret (Some (i, other_side u e))
      else mret None
  | None => mret None
  end).

Definition decline_tx (edge_id me pending : string) : Sql (option (string * string)) := or_missing (
  _ ← bind_text [edge_id; me; pending]; i ← cast_uuid edge_id; u ← cast_uuid me; es ← gets edges;
  match es !! i with
  | Some e =>
      if may_answer u pending e then _ ← modify (set_edges (delete i es)); mret (Some (i, other_side u e))
      else mret None
  | None => mret None
  end).

Definition delete_tx (edge_id me : string) : Sql (option (string * string * string * bool)) := or_missing (
  _ ← bind_text [edge_id; me]; i ← cast_uuid edge_id; u ← cast_uuid me; es ← gets edges;
  match es !! i with
  | Some e =>
      if party_of u e then
        _ ← modify (set_edges (delete i es));
        mret (Some (i, other_side u e, state e, bool_decide (requester_id e = u)))
      else mret None
  | None => mret None
  end).

Definition is_player_purged_tx (player : string) : Sql bool :=
  _ ← bind_text [player]; u ← cast_uuid player; gets (fun d => bool_decide (is_Some (purged_players d !! u))).

Definition plant_purged_player_tx (player handle : string) : Sql unit :=
  _ ← bind_text [player; handle]; u ← cast_uuid player;
  modify (fun d => match purged_players d !! u with
                   | Some _ => d
                   | None => set_tombs (<[u := (handle, false)]> (purged_players d)) d
                   end).

Definition purge_edges_tx (player : string) : Sql (list (string * string)) :=
  _ ← bind_text [player]; u ← cast_uuid player; es ← gets edges;
  _ ← modify (set_edges (filter (fun kv => party_of u (snd kv) = false) es));
  mret ((fun kv => (fst kv, other_side u (snd kv)))
        <$> map_to_list (filter (fun kv => party_of u (snd kv) = true) es)).

(** ** Operations ([service.rs])

    A transaction that fails leaves the tables as they were. *)

Definition transaction {A} (m : ST FriendsDb Error A) (d : FriendsDb) : FriendsDb * result Error A :=
  match m d with (d', Ok a) => (d', Ok a) | (_, Err e) => (d, Err e) end.

Definition or_internal {A} : Sql A → ST FriendsDb Error A := st_map_err (fun _ => internal_error).

Definition parties (dir : Directory) (me other_id : string) : result Error (Party * Party) :=
  summaries ← map_err directory_unavailable (players_by_id dir [me; other_id]);
  Ok (party summaries me, party summaries other_id).

Definition commit_new_request (edge_id requester requester_handle : string) (target : PlayerSummary)
  : ST FriendsDb Error Friend :=
  outstanding ← or_internal (count_authored_pending_tx requester STATE_PENDING);
  if MAX_PENDING_OUTSTANDING <? outstanding
  then fail (mkError Conflict "at most 100 outstanding friend requests") else
  _ ← emit_tx (Requested edge_id requester requester_handle (ps_player_id target) (ps_handle target));
  mret (friend_of edge_id STATE_PENDING true (ps_player_id target) (Some target)).

(** *** [request], statement by statement *)

Inductive Phase := Inserting | Crossing | Finding | Retrying.

Record Req := mkReq { rq_me : string; rq_handle : string; rq_target : PlayerSummary; rq_phase : Phase }.

Definition at_phase (p : Phase) (r : Req) : Req := mkReq (rq_me r) (rq_handle r) (rq_target r) p.

(** Up to the first write: the checks, the directory, the tombstone. *)
Definition request_begin (dir : Directory) (ident : Identity) (target_handle : string) (d : FriendsDb)
  : result Error Req :=
  me ← caller ident;
  if bool_decide (MAX_HANDLE_BYTES < String.length target_handle)%nat
  then Err (mkError Invalid ("handle exceeds " +:+ pretty (Z.of_nat MAX_HANDLE_BYTES) +:+ " bytes")) else
  found ← map_err directory_unavailable (find_by_handle dir target_handle);
  target ← ok_or found (mkError NotFound NO_SUCH_PLAYER);
  if eq_ignore_ascii_case me (ps_player_id target)
  then Err (mkError Invalid "cannot send a friend request to yourself") else
  mine ← map_err directory_unavailable (players_by_id dir [me]);
  gone ← snd (or_internal (is_player_purged_tx me) d);
  if (gone : bool) then Err (mkError Conflict PLAYER_DELETED)
  else Ok (mkReq me (party_handle (party mine me)) target Inserting).

(** An insertion and, when it took place, the rest of the transaction. *)
Definition try_insert (now : Z) (fresh : string) (r : Req) : ST FriendsDb Error (option Friend) :=
  new ← st_map_err pair_write_error (insert_pending_tx now fresh (rq_me r) (ps_player_id (rq_target r)) STATE_PENDING);
  match new with
  | Some (edge_id, requester) =>
      f ← commit_new_request edge_id requester (rq_handle r) (rq_target r); mret (Some f)
  | None => mret None
  end.

Definition try_crossing (now : Z) (r : Req) : ST FriendsDb Error (option Friend) :=
  let target := rq_target r in
  crossed ← st_map_err pair_write_error
              (accept_crossing_tx now (rq_me r) (ps_player_id target) STATE_PENDING STATE_ACCEPTED);
  match crossed with
  | Some (edge_id, addressee) =>
      _ ← emit_tx (Accepted edge_id (ps_player_id target) (ps_handle target) addressee (rq_handle r));
      mret (Some (friend_of edge_id STATE_ACCEPTED false (ps_player_id target) (Some target)))
  | None => mret None
  end.

Definition try_find (r : Req) : ST FriendsDb Error (option Friend) :=
  let target := rq_target r in
  row ← st_map_err pair_write_error (find_pair_tx (rq_me r) (ps_player_id target));
  match row with
  | Some p =>
      st ← lift (wire_state (pr_state p));
      mret (Some (friend_of (pr_edge_id p) st (pr_requester_is_caller p) (ps_player_id target) (Some target)))
  | None => mret None
  end.

(** One statement: the request goes on or has its answer. *)
Definition request_stmt (now : Z) (fresh : string) (r : Req) (d : FriendsDb) : FriendsDb * (Req + result Error Friend) :=
  let settle (m : ST FriendsDb Error (option Friend)) (next : Req + result Error Friend) :=
    match transaction m d with
    | (d', Ok (Some f)) => (d', inr (Ok f))
    | (d', Ok None) => (d', next)
    | (d', Err e) => (d', inr (Err e))
    end in
  match rq_phase r with
  | Inserting => settle (try_insert now fresh r) (inl (at_phase Crossing r))
  | Crossing => settle (try_crossing now r) (inl (at_phase Finding r))
  | Finding => settle (try_find r) (inl (at_phase Retrying r))
  | Retrying => settle (try_insert now fresh r) (inr (Err internal_error))
  end.

(** The statements one after the other, nobody else committing in between. *)
Fixpoint run_request (fuel : nat) (now : Z) (fresh : string) (r : Req) (d : FriendsDb)
  : option (FriendsDb * result Error Friend) :=
  match fuel with
  | O => None
  | S fuel' =>
      match request_stmt now fresh r d with
      | (d', inr a) => Some (d', a)
      | (d', inl r') => run_request fuel' now fresh r' d'
      end
  end.

Definition request (dir : Directory) (now : Z) (fresh : string) (ident : Identity) (target_handle : string)
    (d : FriendsDb) : option (FriendsDb * result Error Friend) :=
  match request_begin dir ident target_handle d with
  | Err e => Some (d, Err e)
  | Ok r => run_request 4 now fresh r d
  end.

(** *** Answers; [seen] is the state the first read saw *)

Definition viewed (dir : Directory) (seen : FriendsDb) (ident : Identity) (edge_id : string)
  : result Error (string * Party * Party) :=
  me ← caller ident;
  found ← snd (or_internal (view_edge edge_id me) seen);
  view ← ok_or found (mkError NotFound NOT_FOUND);
  ps ← parties dir me (er_other_id view);
  Ok (me, fst ps, snd ps).

Definition accept_st (dir : Directory) (now : Z) (seen : FriendsDb) (ident : Identity) (edge_id : string)
  : ST FriendsDb Error unit :=
  v ← lift (viewed dir seen ident edge_id);
  let '(me, mine, theirs) := v in
  accepted ← or_internal (accept_tx now edge_id me STATE_PENDING STATE_ACCEPTED);
  match accepted with
  | Some (eid, other_id) =>
      emit_tx (Accepted eid other_id (party_handle theirs) (party_id mine) (party_handle mine))
  | None => fail (mkError NotFound NOT_FOUND)
  end.

Definition decline_st (dir : Directory) (seen : FriendsDb) (ident : Identity) (edge_id : string)
  : ST FriendsDb Error unit :=
  v ← lift (viewed dir seen ident edge_id);
  let '(me, mine, theirs) := v in
  declined ← or_internal (decline_tx edge_id me STATE_PENDING);
  match declined with
  | Some (eid, other_id) =>
      emit_tx (Removed eid (party_id mine) (party_handle mine) other_id (party_handle theirs) REASON_DECLINED)
  | None => fail (mkError NotFound NOT_FOUND)
  end.

Definition remove_st (dir : Directory) (seen : FriendsDb) (ident : Identity) (edge_id : string)
  : ST FriendsDb Error unit :=
  v ← lift (viewed dir seen ident edge_id);
  let '(me, mine, theirs) := v in
  removed ← or_internal (delete_tx edge_id me);
  match removed with
  | Some (eid, other_id, st, requester_is_caller) =>
      ws ← lift (wire_state st);
      let reason := if bool_decide (ws = STATE_ACCEPTED) then REASON_UNFRIENDED
                    else if (requester_is_caller : bool) then REASON_WITHDRAWN else REASON_DECLINED in
      emit_tx (Removed eid (party_id mine) (party_handle mine) other_id (party_handle theirs) reason)
  | None => fail (mkError NotFound NOT_FOUND)
  end.

Definition accept dir now seen ident edge_id := transaction (accept_st dir now seen ident edge_id).
Definition decline dir seen ident edge_id := transaction (decline_st dir seen ident edge_id).
Definition remove dir seen ident edge_id := transaction (remove_st dir seen ident edge_id).

(** *** The purge ([projection.rs]) *)

Definition PURGE_BATCH : nat := 256.
Definition PURGE_SCHEDULE_NAME : string := "player-purge".

Definition mark_swept (player : string) : Sql unit :=
  u ← cast_uuid player; modify (fun d => set_tombs (marked u (purged_players d)) d).

Fixpoint emit_removals (player handle : string) (l : list (string * string)) : Sql unit :=
  match l with
  | [] => mret ()
  | (edge_id, other_id) :: l' =>
      _ ← emit_tx (Removed edge_id player handle other_id "" REASON_ACCOUNT_DELETED);
      emit_removals player handle l'
  end.

Definition purge_player (player handle : string) : Sql unit :=
  removed ← purge_edges_tx player;
  _ ← emit_removals player handle removed;
  mark_swept player.

#[global] Instance friends_sweep : Sweep FriendsDb := {| tombs := purged_players; purge_one := purge_player |}.

Definition sweep_purged_players (elapsed : nat → bool) (d : FriendsDb) : option (FriendsDb * result SqlError unit) :=
  purge_sweep elapsed PURGE_BATCH d.

(** [PurgeSweepHandler]: only the shared schedule. *)
Definition on_scheduler_fired (elapsed : nat → bool) (name : string) (d : FriendsDb)
  : option (FriendsDb * result SqlError unit) :=
  if bool_decide (name ≠ PURGE_SCHEDULE_NAME) then Some (d, Ok ()) else sweep_purged_players elapsed d.

(** *** Listing *)

Section Listing.
Context (pf : Storage.Platform).

Definition cursor_within_cap (cursor : string) : bool := bool_decide (String.length cursor ≤ MAX_CURSOR_BYTES)%nat.

Definition encode_cursor (created edge_id : string) : string := Storage.b64_encode pf (created +:+ "|" +:+ edge_id).

Definition decode_cursor (cursor : string) : result Error (option (string * string)) :=
  if str_is_empty cursor then Ok None else
  if negb (cursor_within_cap cursor) then Err (mkError Invalid "cursor exceeds 256 bytes") else
  raw ← ok_or (Storage.b64_decode pf cursor) (mkError Invalid MALFORMED_CURSOR);
  if negb (Storage.utf8_valid (to_bytes raw)) then Err (mkError Invalid MALFORMED_CURSOR) else
  match split_once "|" (to_bytes raw) with
  | None => Err (mkError Invalid MALFORMED_CURSOR)
  | Some (t, i) =>
      if negb (Storage.is_cursor_time (of_bytes t)) || negb (Storage.is_uuid_text (of_bytes i))
      then Err (mkError Invalid MALFORMED_CURSOR) else Ok (Some (of_bytes t, of_bytes i))
  end.

Definition resolve_limit (limit : Z) : result Error Z :=
  if limit <? 0 then Err (mkError Invalid "limit must not be negative")
  else if limit =? 0 then Ok DEFAULT_PAGE_LIMIT else Ok (Z.min limit MAX_PAGE_LIMIT).

(** [ORDER BY created_at DESC, id DESC]. *)
Definition newer (a b : string * Edge) : Prop :=
  created_at (snd b) < created_at (snd a)
  ∨ (created_at (snd a) = created_at (snd b) ∧ String.le (fst b) (fst a)).

#[global] Instance newer_dec : RelDecision newer.
Proof. intros a b. unfold newer. apply _. Defined.

(** [(created_at, id) < ($2, $3)]; always true on the first page. *)
Definition past_cut (cut : option (Z * string)) (r : string * Edge) : bool :=
  match cut with
  | None => true
  | Some (t, i) =>
      (created_at (snd r) <? t)
      || ((created_at (snd r) =? t) && bool_decide (String.le (fst r) i) && negb (bool_decide (fst r = i)))
  end.

(** [side_sql]: the rows that hold [u] in one column, cut and limited. *)
Definition side_rows (col : Edge → string) (u st : string) (cut : option (Z * string)) (limit : nat)
    (es : gmap string Edge) : list (string * Edge) :=
  take limit (merge_sort newer
    (List.filter (fun r => bool_decide (col (snd r) = u) && bool_decide (state (snd r) = st) && past_cut cut r)
       (map_to_list es))).

(** [page_sql]: both sides, merged and limited again. *)
Definition page_rows (u st : string) (cut : option (Z * string)) (limit : nat) (es : gmap string Edge)
  : list (string * Edge) :=
  take limit (merge_sort newer (side_rows low_id u st cut limit es ++ side_rows high_id u st cut limit es)).

Definition store_page (me st : string) (after : option (string * string)) (limit : Z) (d : FriendsDb)
  : result SqlError (list EdgeRow) :=
  match (_ ← bind_text ([me; st] ++ match after with Some (t, i) => [t; i] | None => [] end);
         u ← cast_uuid me;
         cut ← (match after with
                | Some (t, i) => t' ← lift (ok_or (Storage.timestamptz_in pf t) OtherSqlError);
                                 i' ← cast_uuid i; mret (Some (t', i'))
                | None => mret None
                end : Sql (option (Z * string)));
         mret (u, cut)) d with
  | (_, Ok (u, cut)) =>
      Ok ((fun r => edge_row u (fst r) (snd r)) <$> page_rows u st cut (Z.to_nat limit) (edges d))
  | (_, Err InvalidTextRepresentation) => Ok []
  | (_, Err e) => Err e
  end.

Record FriendPage := mkPage { items : list Friend; next_cursor : string }.

Fixpoint friends_of_rows (summaries : list PlayerSummary) (rows : list EdgeRow) : result Error (list Friend) :=
  match rows with
  | [] => Ok []
  | row :: rows' =>
      st ← wire_state (er_state row);
      rest ← friends_of_rows summaries rows';
      Ok (friend_of (er_edge_id row) st (er_requester_is_caller row) (er_other_id row)
            (summary_of summaries (er_other_id row)) :: rest)
  end.

(** The ids of a page, each once, in order. *)
Definition page_ids (rows : list EdgeRow) : list string :=
  foldl (fun ids row => if bool_decide (er_other_id row ∈ ids) then ids else ids ++ [er_other_id row]) [] rows.

Definition page (dir : Directory) (ident : Identity) (cursor : string) (limit : Z) (st : string) (d : FriendsDb)
  : result Error FriendPage :=
  me ← caller ident;
  limit ← resolve_limit limit;
  after ← decode_cursor cursor;
  found ← map_err (fun _ => internal_error) (store_page me st after (limit + 1) d);
  let has_more := limit <? Z.of_nat (length found) in
  let rows := take (Z.to_nat limit) found in
  let next := match last rows with
              | Some r => if has_more then encode_cursor (Storage.timestamp pf (er_created_at r)) (er_edge_id r) else ""
              | None => ""
              end in
  let ids := page_ids rows in
  summaries ← (if bool_decide (ids = []) then Ok [] else map_err directory_unavailable (players_by_id dir ids));
  fs ← friends_of_rows summaries rows;
  Ok (mkPage fs next).

Definition list_friends dir ident cursor limit := page dir ident cursor limit STATE_ACCEPTED.
Definition pending_friends dir ident cursor limit := page dir ident cursor limit STATE_PENDING.
End Listing.
End Friends.
