(* ===== verification/FriendsSafety.v ===== *)
(** * FriendsSafety: consent, the pair table and its event log

    What each operation of [Friends] does to the tables, the steps of concurrent
    callers, the invariant they keep, and the theorems: only the addressee of a
    request accepts it, the pair table stays well formed and capped, and the
    appended events are a complete account of the graph. *)

From Stdlib Require Import Ascii.
From stdpp Require Import sorting.
From S2P Require Import Prelude Text OpsApi Pg Purge Directory Friends.
#[local] Open Scope Z_scope.

Section Safety.
Context `{PgUuid}.

(** ** The pair index *)

Lemma pair_row_Some lo hi es i e :
  pair_row lo hi es = Some (i, e) → es !! i = Some e ∧ low_id e = lo ∧ high_id e = hi.
Proof.
  intros [Hin Hp]%find_some. apply list_elem_of_In, elem_of_map_to_list in Hin.
  apply bool_decide_eq_true in Hp. naive_solver.
Qed.

Lemma pair_row_None lo hi es : pair_row lo hi es = None → ∀ i e, es !! i = Some e → ¬ (low_id e = lo ∧ high_id e = hi).
Proof.
  intros Hn i e Hi Hp. unfold pair_row in Hn.
  pose proof (find_none _ _ Hn (i, e)) as Hf. simpl in Hf. rewrite bool_decide_eq_true_2 in Hf by done.
  by specialize (Hf ltac:(by apply list_elem_of_In, elem_of_map_to_list)).
Qed.

Lemma least_greatest a b : a ≠ b →
  least a b ≠ greatest a b ∧ String.le (least a b) (greatest a b)
  ∧ ((least a b = a ∧ greatest a b = b) ∨ (least a b = b ∧ greatest a b = a)).
Proof.
  intros Hne. unfold least, greatest. case_bool_decide as Hle; [naive_solver|].
  destruct (total String.le a b); [done|]. naive_solver.
Qed.

(** ** Successful runs of the statements *)

Lemma transaction_ok {A} (m : ST FriendsDb Error A) d d' a : transaction m d = (d', Ok a) → m d = (d', Ok a).
Proof. unfold transaction. destruct (m d) as [d1 [x|x]]; [by intros [= <- <-]|done]. Qed.

Lemma transaction_err {A} (m : ST FriendsDb Error A) d d' e : transaction m d = (d', Err e) → d' = d.
Proof. unfold transaction. destruct (m d) as [d1 [x|x]]; [done|by intros [= <- <-]]. Qed.

Lemma or_missing_ok {A} (m : Sql (option A)) d d' r :
  or_missing m d = (d', Ok r) → (r = None ∧ d' = d) ∨ m d = (d', Ok r).
Proof.
  unfold or_missing. destruct (m d) as [d1 [x|[]]]; intros [= <- <-]; auto.
Qed.

Lemma insert_pending_ok now fresh me other d d' r :
  insert_pending_tx now fresh me other STATE_PENDING d = (d', Ok r) →
  ∃ a b, uuid_in me = Some a ∧ uuid_in other = Some b ∧ a ≠ b ∧
    ((r = None ∧ d' = d ∧ is_Some (pair_row (least a b) (greatest a b) (edges d)))
     ∨ (r = Some (fresh, a) ∧ pair_row (least a b) (greatest a b) (edges d) = None ∧ edges d !! fresh = None
        ∧ d' = set_edges (<[fresh := mkEdge (least a b) (greatest a b) a STATE_PENDING now None]> (edges d)) d)).
Proof.
  unfold insert_pending_tx. intros E. pg_inv E. eexists _, _. do 2 (split; [done|]).
  case_bool_decide as Hne; [done|]. split.
  { intros ->. apply Hne. unfold least, greatest. by case_bool_decide. }
  destruct (pair_row _ _ _) as [p|] eqn:Ep; [injection E as <- <-; left; eauto|right].
  case_bool_decide as Hf; [done|]. st_inv E. injection E0 as <- <-. injection E as <- <-.
  apply eq_None_not_Some in Hf. eauto.
Qed.

Lemma count_pending_ok me d d' n :
  count_authored_pending_tx me STATE_PENDING d = (d', Ok n) →
  ∃ a, d' = d ∧ uuid_in me = Some a ∧ n = Z.of_nat (size (authored a STATE_PENDING d)).
Proof. unfold count_authored_pending_tx. intros E. pg_inv E. injection E as <- <-. eauto. Qed.

Lemma accept_crossing_ok now me other d d' r :
  accept_crossing_tx now me other STATE_PENDING STATE_ACCEPTED d = (d', Ok r) →
  ∃ a b, uuid_in me = Some a ∧ uuid_in other = Some b ∧
    ((r = None ∧ d' = d)
     ∨ ∃ i e, edges d !! i = Some e ∧ low_id e = least a b ∧ high_id e = greatest a b
         ∧ state e = STATE_PENDING ∧ requester_id e ≠ a
         ∧ r = Some (i, if bool_decide (low_id e = a) then low_id e else high_id e)
         ∧ d' = set_edges (<[i := accept_edge now STATE_ACCEPTED e]> (edges d)) d).
Proof.
  unfold accept_crossing_tx. intros E. pg_inv E. eexists _, _. do 2 (split; [done|]).
  destruct (pair_row _ _ _) as [[i e]|] eqn:Ep; [|injection E as <- <-; by left].
  case_bool_decide as Hc; [|injection E as <- <-; by left]. st_inv E. injection E0 as <- <-. injection E as <- <-.
  apply pair_row_Some in Ep as (Hi & Hlo & Hhi). right. exists i, e. naive_solver.
Qed.

Lemma find_pair_ok me other d d' r : find_pair_tx me other d = (d', Ok r) → d' = d.
Proof. unfold find_pair_tx. intros E. pg_inv E. by injection E as <- <-. Qed.

Lemma may_answer_true u e :
  may_answer u STATE_PENDING e = true ↔ state e = STATE_PENDING ∧ requester_id e ≠ u ∧ party_of u e = true.
Proof. unfold may_answer. rewrite andb_true_iff, bool_decide_eq_true. naive_solver. Qed.

Lemma accept_tx_ok now edge_id me d d' r :
  accept_tx now edge_id me STATE_PENDING STATE_ACCEPTED d = (d', Ok (Some r)) →
  ∃ i u e, uuid_in me = Some u ∧ edges d !! i = Some e ∧ may_answer u STATE_PENDING e = true
    ∧ r = (i, other_side u e) ∧ d' = set_edges (<[i := accept_edge now STATE_ACCEPTED e]> (edges d)) d.
Proof.
  intros [[? _]|E]%or_missing_ok; [done|]. pg_inv E.
  destruct (edges d !! _) as [e|] eqn:Ee; [|done]. destruct (may_answer _ _ e) eqn:Em; [|done].
  st_inv E. injection E0 as <- <-. injection E as <- <-. eauto 10.
Qed.

Lemma decline_tx_ok edge_id me d d' r :
  decline_tx edge_id me STATE_PENDING d = (d', Ok (Some r)) →
  ∃ i u e, uuid_in me = Some u ∧ edges d !! i = Some e ∧ may_answer u STATE_PENDING e = true
    ∧ r = (i, other_side u e) ∧ d' = set_edges (delete i (edges d)) d.
Proof.
  intros [[? _]|E]%or_missing_ok; [done|]. pg_inv E.
  destruct (edges d !! _) as [e|] eqn:Ee; [|done]. destruct (may_answer _ _ e) eqn:Em; [|done].
  st_inv E. injection E0 as <- <-. injection E as <- <-. eauto 10.
Qed.

Lemma delete_tx_ok edge_id me d d' r :
  delete_tx edge_id me d = (d', Ok (Some r)) →
  ∃ i u e, uuid_in me = Some u ∧ edges d !! i = Some e ∧ party_of u e = true
    ∧ r = (i, other_side u e, state e, bool_decide (requester_id e = u)) ∧ d' = set_edges (delete i (edges d)) d.
Proof.
  intros [[? _]|E]%or_missing_ok; [done|]. pg_inv E.
  destruct (edges d !! _) as [e|] eqn:Ee; [|done]. destruct (party_of _ e) eqn:Em; [|done].
  st_inv E. injection E0 as <- <-. injection E as <- <-. eauto 10.
Qed.

(** ** Replaying the events

    The graph a consumer rebuilds from the events alone.  An event that does not fit
    the relation it names stops the replay. *)

Record Rel := mkRel { rel_requester : string; rel_addressee : string; rel_state : string }.

#[global] Instance Rel_eq_dec : EqDecision Rel.
Proof. solve_decision. Defined.

(** The parties of a removal and what its reason says about the relation. *)
Definition removal_fits (actor other reason : string) (r : Rel) : bool :=
  bool_decide ((actor = rel_requester r ∧ other = rel_addressee r) ∨ (actor = rel_addressee r ∧ other = rel_requester r))
  && bool_decide (reason = REASON_ACCOUNT_DELETED
                  ∨ (reason = REASON_UNFRIENDED ∧ rel_state r = STATE_ACCEPTED)
                  ∨ (reason = REASON_WITHDRAWN ∧ rel_state r = STATE_PENDING ∧ actor = rel_requester r)
                  ∨ (reason = REASON_DECLINED ∧ rel_state r = STATE_PENDING ∧ actor = rel_addressee r)).

Definition apply_event (m : gmap string Rel) (e : FriendEvent) : option (gmap string Rel) :=
  match e with
  | Requested i r _ a _ =>
      r' ← uuid_in r; a' ← uuid_in a;
      match m !! i with Some _ => None | None => Some (<[i := mkRel r' a' STATE_PENDING]> m) end
  | Accepted i r _ a _ =>
      r' ← uuid_in r; a' ← uuid_in a;
      if bool_decide (m !! i = Some (mkRel r' a' STATE_PENDING))
      then Some (<[i := mkRel r' a' STATE_ACCEPTED]> m) else None
  | Removed i x _ y _ reason =>
      x' ← uuid_in x; y' ← uuid_in y; r ← m !! i;
      if removal_fits x' y' reason r then Some (delete i m) else None
  end.

Definition replay (l : list FriendEvent) : option (gmap string Rel) :=
  foldl (fun m e => m ≫= fun m => apply_event m e) (Some ∅) l.

Lemma replay_app l k : replay (l ++ k) = foldl (fun m e => m ≫= fun m => apply_event m e) (replay l) k.
Proof. unfold replay. by rewrite foldl_app. Qed.

(** A row as a relation. *)
Definition rel_of (e : Edge) : Rel := mkRel (requester_id e) (other_side (requester_id e) e) (state e).

(** ** The invariant *)

Record edge_ok (e : Edge) : Prop := {
  eo_order : String.le (low_id e) (high_id e) ∧ low_id e ≠ high_id e;
  eo_requester : requester_id e = low_id e ∨ requester_id e = high_id e;
  eo_uuid : uuid_in (low_id e) = Some (low_id e) ∧ uuid_in (high_id e) = Some (high_id e);
  eo_state : state e = STATE_PENDING ∨ state e = STATE_ACCEPTED;
}.

Record friends_inv (d : FriendsDb) : Prop := {
  fi_edges : ∀ i e, edges d !! i = Some e → edge_ok e;
  fi_pairs : ∀ i j e f, edges d !! i = Some e → edges d !! j = Some f →
               low_id e = low_id f → high_id e = high_id f → i = j;
  fi_cap : ∀ u, Z.of_nat (size (authored u STATE_PENDING d)) ≤ MAX_PENDING_OUTSTANDING;
  fi_tombs : ∀ u t, purged_players d !! u = Some t → uuid_in u = Some u;
  fi_log : replay (appended d) = Some (rel_of <$> edges d);
}.

Lemma friends_inv_empty : friends_inv empty_friends.
Proof. by split. Qed.

Lemma other_side_spec u e : edge_ok e → party_of u e = true →
  (u = low_id e ∧ other_side u e = high_id e) ∨ (u = high_id e ∧ other_side u e = low_id e).
Proof.
  intros [[_ Hne] _ _ _] Hp%bool_decide_eq_true. unfold other_side. case_bool_decide; naive_solver.
Qed.

Lemma other_side_uuid u e : edge_ok e → party_of u e = true → uuid_in (other_side u e) = Some (other_side u e).
Proof. intros He Hp. destruct (other_side_spec u e He Hp) as [[_ ->]|[_ ->]]; apply He. Qed.

(** A party that is not the requester is the addressee, and conversely. *)
Lemma other_side_requester u e : edge_ok e → party_of u e = true → requester_id e ≠ u →
  other_side u e = requester_id e ∧ other_side (requester_id e) e = u.
Proof.
  intros He Hp Hne. destruct (other_side_spec u e He Hp) as [[-> ->]|[-> ->]]; destruct He as [[_ Hlh] Hr _ _];
    (split; [naive_solver|]); unfold other_side; case_bool_decide; naive_solver.
Qed.

(** The log after one more fitting event. *)
Lemma log_snoc d e m :
  replay (appended d) = Some (rel_of <$> edges d) → apply_event (rel_of <$> edges d) e = Some m →
  replay (appended d ++ [e]) = Some m.
Proof. intros Hl He. rewrite replay_app, Hl. simpl. done. Qed.

(** *** The three kinds of row change *)

Lemma authored_weaken u d d' : authored u STATE_PENDING d' ⊆ authored u STATE_PENDING d →
  (∀ v, Z.of_nat (size (authored v STATE_PENDING d)) ≤ MAX_PENDING_OUTSTANDING) →
  Z.of_nat (size (authored u STATE_PENDING d')) ≤ MAX_PENDING_OUTSTANDING.
Proof. intros Hsub Hd. etrans; [|exact (Hd u)]. by apply inj_le, map_subseteq_size. Qed.

Definition created (i : string) (e : Edge) (ev : FriendEvent) (d : FriendsDb) : FriendsDb :=
  mkFriends (<[i := e]> (edges d)) (purged_players d) (appended d ++ [ev]).

Lemma inv_created now i a b other ha ho d :
  friends_inv d → uuid_in a = Some a → uuid_in other = Some b → uuid_in b = Some b → a ≠ b →
  pair_row (least a b) (greatest a b) (edges d) = None → edges d !! i = None →
  let e := mkEdge (least a b) (greatest a b) a STATE_PENDING now None in
  let d' := created i e (Requested i a ha other ho) d in
  Z.of_nat (size (authored a STATE_PENDING d')) ≤ MAX_PENDING_OUTSTANDING → friends_inv d'.
Proof.
  intros [] Ha Hother Hb Hab Hpair Hi e d' Hcap. destruct (least_greatest a b Hab) as (Hne & Hle & Hside).
  assert (He : edge_ok e) by (split; simpl; [done|naive_solver| |by left]; destruct Hside as [[-> ->]|[-> ->]]; done).
  split; simpl.
  - intros j f. rewrite lookup_insert. case_decide; [by intros [= <-]|apply fi_edges0].
  - intros j k f g. rewrite !lookup_insert. repeat case_decide; try congruence.
    + intros [= <-] Hg. simpl. intros E1 E2. destruct (pair_row_None _ _ _ Hpair k g Hg). done.
    + intros Hf [= <-]. simpl. intros E1 E2. destruct (pair_row_None _ _ _ Hpair j f Hf). done.
    + apply fi_pairs0.
  - intros u. destruct (decide (u = a)) as [->|Hu]; [done|]. eapply authored_weaken; [|done].
    unfold authored. simpl. rewrite map_filter_insert_False by (simpl; naive_solver). by rewrite delete_id.
  - done.
  - eapply log_snoc; [done|]. simpl. rewrite Ha, Hother. simpl. rewrite lookup_fmap, Hi. simpl.
    rewrite fmap_insert. do 2 f_equal. unfold rel_of. simpl. f_equal.
    symmetry. apply (other_side_requester b e); [done| |done]. apply bool_decide_eq_true. simpl. naive_solver.
Qed.

Definition accepted_at_row (now : Z) (i : string) (e : Edge) (ev : FriendEvent) (d : FriendsDb) : FriendsDb :=
  mkFriends (<[i := accept_edge now STATE_ACCEPTED e]> (edges d)) (purged_players d) (appended d ++ [ev]).

Lemma inv_accepted now i e u r hr a ha d :
  friends_inv d → edges d !! i = Some e → state e = STATE_PENDING → requester_id e ≠ u → party_of u e = true →
  uuid_in r = Some (requester_id e) → uuid_in a = Some u →
  friends_inv (accepted_at_row now i e (Accepted i r hr a ha) d).
Proof.
  intros [] Hi Hst Hne Hp Hr Ha. pose proof (fi_edges0 i e Hi) as He. split; simpl.
  - intros j f. rewrite lookup_insert. case_decide; [intros [= <-]; destruct He; split; simpl; auto|apply fi_edges0].
  - intros j k f g. rewrite !lookup_insert. repeat case_decide; subst; try done; intros Hf Hg; simplify_eq; simpl; eauto.
  - intros v. eapply authored_weaken; [|done]. unfold authored. simpl.
    rewrite map_filter_insert_False by (simpl; intros [_ ?]; done). apply map_filter_strong_subseteq_ext. intros j f [? Hf].
    apply lookup_delete_Some in Hf as [_ Hf]. done.
  - done.
  - eapply log_snoc; [done|]. simpl. rewrite Hr, Ha. simpl. rewrite lookup_fmap, Hi. simpl.
    assert (Hrel : rel_of e = mkRel (requester_id e) u STATE_PENDING).
    { unfold rel_of. rewrite Hst. by destruct (other_side_requester u e He Hp Hne) as [_ ->]. }
    rewrite bool_decide_eq_true_2 by (by rewrite Hrel). rewrite fmap_insert. do 2 f_equal. unfold rel_of. simpl. f_equal.
    symmetry. apply (other_side_requester u e He Hp Hne).
Qed.

Definition removed_row (i : string) (ev : FriendEvent) (d : FriendsDb) : FriendsDb :=
  mkFriends (delete i (edges d)) (purged_players d) (appended d ++ [ev]).

Lemma inv_fewer_edges d d' m :
  friends_inv d → edges d' ⊆ edges d → (∀ u t, purged_players d' !! u = Some t → uuid_in u = Some u) →
  replay (appended d') = Some m → m = rel_of <$> edges d' → friends_inv d'.
Proof.
  intros [] Hsub Ht Hl ->. split.
  - intros j f Hf. by eapply fi_edges0, lookup_weaken.
  - intros j k f g Hf Hg. eapply fi_pairs0; by eapply lookup_weaken.
  - intros u. eapply authored_weaken; [|done]. unfold authored. apply map_subseteq_spec. intros j f.
    rewrite !map_lookup_filter_Some. intros [? ?]. split; [by eapply lookup_weaken|done].
  - done.
  - done.
Qed.

Lemma removal_event_fits i u x hx o y hy reason e d :
  friends_inv d → edges d !! i = Some e → party_of u e = true → uuid_in x = Some u → uuid_in y = Some o →
  o = other_side u e → removal_fits u o reason (rel_of e) = true →
  apply_event (rel_of <$> edges d) (Removed i x hx y hy reason) = Some (rel_of <$> delete i (edges d)).
Proof.
  intros Hd Hi Hp Hx Hy -> Hf. simpl. rewrite Hx, Hy. simpl. rewrite lookup_fmap, Hi. simpl. rewrite Hf.
  by rewrite fmap_delete.
Qed.

Lemma inv_removed i u x hx y hy reason e d :
  friends_inv d → edges d !! i = Some e → party_of u e = true → uuid_in x = Some u →
  uuid_in y = Some (other_side u e) → removal_fits u (other_side u e) reason (rel_of e) = true →
  friends_inv (removed_row i (Removed i x hx y hy reason) d).
Proof.
  intros Hd Hi Hp Hx Hy Hf. eapply inv_fewer_edges; [done|apply delete_subseteq|apply Hd| |done].
  eapply log_snoc; [apply Hd|]. by eapply removal_event_fits.
Qed.

(** Who may be named by a removal, and with which reason. *)
Lemma parties_fit u e : edge_ok e → party_of u e = true →
  (u = rel_requester (rel_of e) ∧ other_side u e = rel_addressee (rel_of e))
  ∨ (u = rel_addressee (rel_of e) ∧ other_side u e = rel_requester (rel_of e)).
Proof.
  intros He Hp. destruct (decide (requester_id e = u)) as [<-|Hne]; [by left|right].
  destruct (other_side_requester u e He Hp Hne) as [-> E]. unfold rel_of. simpl. by rewrite E.
Qed.

Lemma decline_fits u e : edge_ok e → may_answer u STATE_PENDING e = true →
  removal_fits u (other_side u e) REASON_DECLINED (rel_of e) = true.
Proof.
  intros He (Hst & Hne & Hp)%may_answer_true. unfold removal_fits. rewrite andb_true_iff, !bool_decide_eq_true.
  split; [by apply parties_fit|]. do 3 right. split; [done|]. split; [done|].
  symmetry. by apply other_side_requester.
Qed.

Lemma removal_reason_fits u e ws :
  edge_ok e → party_of u e = true → wire_state (state e) = Ok ws →
  removal_fits u (other_side u e)
    (if bool_decide (ws = STATE_ACCEPTED) then REASON_UNFRIENDED
     else if bool_decide (requester_id e = u) then REASON_WITHDRAWN else REASON_DECLINED) (rel_of e) = true.
Proof.
  intros He Hp Hw. unfold removal_fits. rewrite andb_true_iff, !bool_decide_eq_true. split; [by apply parties_fit|].
  unfold wire_state in Hw. destruct (eo_state e He) as [Hst|Hst]; rewrite Hst in Hw; injection Hw as <-; simpl.
  - right. right. case_bool_decide as Hr; [left; by rewrite <- Hr|right].
    split; [done|]. split; [done|]. symmetry. by apply other_side_requester.
  - right. left. done.
Qed.

(** *** The purge of one player *)

Definition rows_of (u : string) (es : gmap string Edge) : list (string * Edge) :=
  map_to_list (filter (fun kv => party_of u (snd kv) = true) es).

Definition purge_event (u h : string) (r : string * Edge) : FriendEvent :=
  Removed (fst r) u h (other_side u (snd r)) "" REASON_ACCOUNT_DELETED.

Definition purged_player (u h : string) (d : FriendsDb) : FriendsDb :=
  mkFriends (filter (fun kv => party_of u (snd kv) = false) (edges d)) (marked u (purged_players d))
            (appended d ++ (purge_event u h <$> rows_of u (edges d))).

Lemma emit_removals_run u h l d :
  emit_removals u h l d
  = (mkFriends (edges d) (purged_players d)
       (appended d ++ ((fun r => Removed (fst r) u h (snd r) "" REASON_ACCOUNT_DELETED) <$> l)), Ok ()).
Proof.
  revert d. induction l as [|[i o] l IH]; intros [es t a]; [simpl; by rewrite app_nil_r|].
  cbn [emit_removals]. unfold mbind, ST_bind, emit_tx, modify. simpl. rewrite IH. simpl. by rewrite <- app_assoc.
Qed.

#[global, program] Instance friends_sweep_laws : SweepLaws FriendsDb := {| purged_of := purged_player |}.
Next Obligation.
  intros u h d Hu. simpl. unfold purge_player, purge_edges_tx, bind_text, cast_uuid, mbind, ST_bind, lift. simpl.
  rewrite (uuid_in_no_nul _ _ Hu). simpl. rewrite Hu. simpl. rewrite emit_removals_run. simpl.
  unfold mark_swept, cast_uuid, mbind, ST_bind, lift. simpl. rewrite Hu. simpl. unfold purged_player, rows_of.
  by rewrite <- list_fmap_compose.
Qed.
Next Obligation. done. Qed.

(** The events of a purge take the purged rows, one by one, out of the replay. *)
Lemma replay_removals u h l m :
  uuid_in u = Some u → NoDup l.*1 → (∀ i e, (i, e) ∈ l → m !! i = Some (rel_of e) ∧ edge_ok e ∧ party_of u e = true) →
  foldl (fun m e => m ≫= fun m => apply_event m e) (Some m) (purge_event u h <$> l)
  = Some (foldl (fun m r => delete (fst r) m) m l).
Proof.
  intros Hu. revert m. induction l as [|[i e] l IH]; intros m Hnd Hl; [done|]. apply NoDup_cons in Hnd as [Hi Hnd].
  destruct (Hl i e ltac:(by left)) as (Hm & He & Hp). cbn [fmap list_fmap foldl fst].
  assert (E : (Some m ≫= fun m => apply_event m (purge_event u h (i, e))) = Some (delete i m)).
  { simpl. rewrite Hu, (other_side_uuid u e He Hp). simpl. rewrite Hm. simpl.
    enough (removal_fits u (other_side u e) REASON_ACCOUNT_DELETED (rel_of e) = true) as -> by done.
    unfold removal_fits. rewrite andb_true_iff, !bool_decide_eq_true. split; [by apply parties_fit|by left]. }
  rewrite E. apply IH; [done|]. intros j f Hf. destruct (Hl j f ltac:(by right)) as (Hj & ? & ?). split; [|done].
  rewrite lookup_delete_ne; [done|]. intros ->. apply Hi. by apply (list_elem_of_fmap_2 fst _ (j, f)).
Qed.

Lemma foldl_delete_lookup {A} (l : list (string * A)) (m : gmap string Rel) j :
  foldl (fun m r => delete (fst r) m) m l !! j = if bool_decide (j ∈ l.*1) then None else m !! j.
Proof.
  revert m. induction l as [|[i e] l IH]; intros m; [done|]. simpl. rewrite IH.
  repeat case_bool_decide; try done; try set_solver.
  - assert (j = i) as -> by set_solver. by rewrite lookup_delete_eq.
  - rewrite lookup_delete_ne; [done|set_solver].
Qed.

Lemma inv_purged u h d : friends_inv d → uuid_in u = Some u → friends_inv (purged_player u h d).
Proof.
  intros Hd Hu. eapply inv_fewer_edges; [done|apply map_filter_subseteq| | |].
  - intros v t. simpl. unfold marked. intros [(_ & t' & Ht & _)|[_ Ht]]%lookup_alter_Some; by eapply fi_tombs.
  - simpl. rewrite replay_app, (fi_log _ Hd). apply replay_removals; [done|apply NoDup_fst_map_to_list|].
    intros i e Hin. apply elem_of_map_to_list, map_lookup_filter_Some in Hin as [Hi Hp].
    rewrite lookup_fmap, Hi. split; [done|]. split; [by eapply fi_edges|done].
  - simpl. apply map_eq. intros j. rewrite foldl_delete_lookup, !lookup_fmap. case_bool_decide as Hin.
    + apply list_elem_of_fmap in Hin as ([i e] & -> & Hin). apply elem_of_map_to_list, map_lookup_filter_Some in Hin as [Hi Hp].
      simpl. rewrite map_lookup_filter, Hi. simpl. rewrite option_guard_False; [done|]. simpl in *. congruence.
    + rewrite map_lookup_filter. destruct (edges d !! j) as [e|] eqn:Ej; simpl; [|done].
      rewrite option_guard_True; [done|]. simpl. apply not_true_iff_false. intros Hp. apply Hin.
      apply (list_elem_of_fmap_2 fst _ (j, e)). by apply elem_of_map_to_list, map_lookup_filter_Some.
Qed.

Lemma inv_purge_all l d :
  friends_inv d → (∀ u h, (u, h) ∈ l → uuid_in u = Some u) → friends_inv (purge_all d l).
Proof.
  revert d. induction l as [|[u h] l IH]; intros d Hd Hl; [done|]. unfold purge_all in *. simpl.
  apply IH; [apply inv_purged; [done|by eapply Hl; left]|]. intros v k Hv. apply (Hl v k). by right.
Qed.

Lemma friends_sweep_run elapsed d :
  friends_inv d →
  ∃ l, sweep_purged_players elapsed d = Some (purge_all d l, Ok ())
    ∧ (∀ u h, (u, h) ∈ l → purged_players d !! u = Some (h, false))
    ∧ ((∀ i, elapsed i = false) → ∀ u h, purged_players d !! u = Some (h, false) → (u, h) ∈ l).
Proof.
  intros Hd. destruct (purge_sweep_run elapsed PURGE_BATCH d) as (l & E & Hl & _ & Hall).
  - unfold PURGE_BATCH. lia.
  - intros u t. by apply fi_tombs.
  - exists l. done.
Qed.

(** ** What a caller's transaction does to the graph *)

(** [u] acting on behalf of a caller. *)
Inductive acted (u : string) (d d' : FriendsDb) : Prop :=
| ActedNot : d' = d → acted u d d'
| ActedCreated now i b other ha ho :
    uuid_in other = Some b → u ≠ b → pair_row (least u b) (greatest u b) (edges d) = None → edges d !! i = None →
    d' = created i (mkEdge (least u b) (greatest u b) u STATE_PENDING now None) (Requested i u ha other ho) d →
    Z.of_nat (size (authored u STATE_PENDING d')) ≤ MAX_PENDING_OUTSTANDING → acted u d d'
| ActedAccepted now i e r hr a ha :
    edges d !! i = Some e → may_answer u STATE_PENDING e = true → uuid_in r = Some (requester_id e) → uuid_in a = Some u →
    d' = accepted_at_row now i e (Accepted i r hr a ha) d → acted u d d'
| ActedRemoved i e x hx hy reason :
    edges d !! i = Some e → party_of u e = true → uuid_in x = Some u →
    removal_fits u (other_side u e) reason (rel_of e) = true →
    d' = removed_row i (Removed i x hx (other_side u e) hy reason) d → acted u d d'.

Lemma acted_inv u d d' : uuid_in u = Some u → acted u d d' → friends_inv d → friends_inv d'.
Proof.
  intros Hu [->|now i b other ha ho Hb Hne Hpair Hi -> Hcap|now i e r hr a ha Hi Hm Hr Ha ->|i e x hx hy reason Hi Hp Hx Hf ->] Hd.
  - done.
  - eapply inv_created; try done. by eapply uuid_in_canonical.
  - apply may_answer_true in Hm as (? & ? & ?). by eapply inv_accepted.
  - eapply inv_removed; try done. apply other_side_uuid; [by eapply fi_edges|done].
Qed.

(** The directory's name for a caller is the caller. *)
Lemma party_uuid l me u : uuid_in me = Some u → uuid_in (party_id (party l me)) = Some u.
Proof.
  intros Hu. unfold party, summary_of. destruct (find _ l) as [s|] eqn:Ef; [|done].
  apply find_some in Ef as [_ Ef]. simpl. by rewrite (uuid_in_case _ _ Ef).
Qed.

Lemma try_insert_acted now fresh r d d' x :
  friends_inv d → transaction (try_insert now fresh r) d = (d', x) →
  d' = d ∨ ∃ u, uuid_in (rq_me r) = Some u ∧ acted u d d'.
Proof.
  intros Hd. destruct x as [x|e]; [intros E%transaction_ok|intros ->%transaction_err; by left].
  unfold try_insert in E. st_inv E. apply st_map_err_ok in E0.
  apply insert_pending_ok in E0 as (u & b & Hu & Hb & Hne & [(-> & -> & _)|(-> & Hpair & Hi & ->)]);
    [injection E as <- <-; by left|]. st_inv E. injection E as <- <-.
  unfold commit_new_request in E0. st_inv E0. apply st_map_err_ok in E.
  apply count_pending_ok in E as (u' & -> & Hu' & ->). pose proof (uuid_in_canonical _ _ Hu) as Hcan.
  assert (u' = u) as -> by congruence. destruct (Z.ltb_spec MAX_PENDING_OUTSTANDING
    (Z.of_nat (size (authored u STATE_PENDING (set_edges (<[fresh := mkEdge (least u b) (greatest u b) u STATE_PENDING now None]> (edges d)) d)))))
    as [|Hcap]; [done|]. st_inv E0. injection E as <- <-. injection E0 as <- <-. right. exists u. split; [done|].
  eapply ActedCreated; [exact Hb|done|done|exact Hi|reflexivity|exact Hcap].
Qed.

Lemma try_crossing_acted now r d d' x :
  friends_inv d → transaction (try_crossing now r) d = (d', x) →
  d' = d ∨ ∃ u, uuid_in (rq_me r) = Some u ∧ acted u d d'.
Proof.
  intros Hd. destruct x as [x|e]; [intros E%transaction_ok|intros ->%transaction_err; by left].
  unfold try_crossing in E. st_inv E. apply st_map_err_ok in E0.
  apply accept_crossing_ok in E0 as (u & b & Hu & Hb & [(-> & ->)|(i & e & Hi & Hlo & Hhi & Hst & Hne & -> & ->)]);
    [injection E as <- <-; by left|]. st_inv E. injection E0 as <- <-. injection E as <- <-.
  right. exists u. split; [done|]. pose proof (fi_edges _ Hd i e Hi) as He. pose proof (uuid_in_canonical _ _ Hu) as Hcu.
  assert (Hub : u ≠ b).
  { intros ->. destruct He as [[_ Hlh] _ _ _]. apply Hlh. rewrite Hlo, Hhi. unfold least, greatest. by case_bool_decide. }
  destruct (least_greatest u b Hub) as (_ & _ & Hside).
  assert (Hp : party_of u e = true).
  { apply bool_decide_eq_true. destruct Hside as [[E1 E2]|[E1 E2]]; [left|right]; congruence. }
  eapply (ActedAccepted u d _ now i e); [done| | | |done].
  - by apply may_answer_true.
  - rewrite Hb. f_equal. destruct He as [_ [Hr|Hr] _ _], Hside as [[E1 E2]|[E1 E2]]; congruence.
  - case_bool_decide as Hl; [by rewrite Hl|]. apply bool_decide_eq_true in Hp as [?|<-]; [congruence|done].
Qed.

Lemma try_find_same r d d' x : transaction (try_find r) d = (d', x) → d' = d.
Proof.
  destruct x as [x|e]; [intros E%transaction_ok|by intros ->%transaction_err].
  unfold try_find in E. st_inv E. apply st_map_err_ok, find_pair_ok in E0 as ->.
  case_match; [|by injection E as <- <-]. st_inv E. apply st_lift_ok in E0 as [-> _]. by injection E as <- <-.
Qed.

Lemma request_stmt_acted now fresh r d d' x :
  friends_inv d → request_stmt now fresh r d = (d', x) →
  d' = d ∨ ∃ u, uuid_in (rq_me r) = Some u ∧ acted u d d'.
Proof.
  intros Hd. unfold request_stmt. destruct (rq_phase r).
  - destruct (transaction _ d) as [d1 y] eqn:E. intros E'. assert (d' = d1) as -> by (repeat case_match; congruence).
    by eapply try_insert_acted.
  - destruct (transaction _ d) as [d1 y] eqn:E. intros E'. assert (d' = d1) as -> by (repeat case_match; congruence).
    by eapply try_crossing_acted.
  - destruct (transaction _ d) as [d1 y] eqn:E. intros E'. assert (d' = d1) as -> by (repeat case_match; congruence).
    left. by eapply try_find_same.
  - destruct (transaction _ d) as [d1 y] eqn:E. intros E'. assert (d' = d1) as -> by (repeat case_match; congruence).
    by eapply try_insert_acted.
Qed.

Lemma viewed_ok dir seen ident edge_id me mine theirs :
  viewed dir seen ident edge_id = Ok (me, mine, theirs) →
  player_id ident = Some me ∧ ∃ l, mine = party l me.
Proof.
  unfold viewed. intros (m & Hc & Hv)%bind_ok. apply bind_ok in Hv as (f & _ & Hv).
  apply bind_ok in Hv as (v & _ & Hv). apply bind_ok in Hv as ([p q] & Hp & Hv). injection Hv as -> -> ->.
  unfold caller, ok_or in Hc. destruct (player_id ident); [|done]. injection Hc as ->.
  unfold parties in Hp. apply bind_ok in Hp as (l & _ & [= <- _]). eauto.
Qed.

(** An answered edge: the caller, as a uuid, acted. *)
Lemma accept_acted dir now seen ident edge_id d d' x :
  friends_inv d → accept dir now seen ident edge_id d = (d', x) →
  d' = d ∨ ∃ me u, player_id ident = Some me ∧ uuid_in me = Some u ∧ acted u d d'.
Proof.
  intros Hd. destruct x as [x|e]; [intros E%transaction_ok|intros ->%transaction_err; by left].
  unfold accept_st in E. st_inv E. apply st_lift_ok in E0 as [-> Hv]. destruct a as [[me mine] theirs].
  apply viewed_ok in Hv as [Hme [l ->]]. st_inv E. apply st_map_err_ok in E0. destruct a as [[i o]|]; [|done].
  apply accept_tx_ok in E0 as (j & u & e & Hu & He & Hm & Heq & ->). injection Heq as -> ->. injection E as <-.
  right. exists me, u. do 2 (split; [done|]). pose proof (fi_edges _ Hd j e He) as Hok.
  pose proof Hm as (_ & Hne & Hp)%may_answer_true.
  eapply ActedAccepted; [exact He|done| |by eapply party_uuid|reflexivity].
  rewrite (other_side_uuid u e Hok Hp). f_equal. by apply other_side_requester.
Qed.

Lemma decline_acted dir seen ident edge_id d d' x :
  friends_inv d → decline dir seen ident edge_id d = (d', x) →
  d' = d ∨ ∃ me u, player_id ident = Some me ∧ uuid_in me = Some u ∧ acted u d d'.
Proof.
  intros Hd. destruct x as [x|e]; [intros E%transaction_ok|intros ->%transaction_err; by left].
  unfold decline_st in E. st_inv E. apply st_lift_ok in E0 as [-> Hv]. destruct a as [[me mine] theirs].
  apply viewed_ok in Hv as [Hme [l ->]]. st_inv E. apply st_map_err_ok in E0. destruct a as [[i o]|]; [|done].
  apply decline_tx_ok in E0 as (j & u & e & Hu & He & Hm & Heq & ->). injection Heq as -> ->. injection E as <-.
  right. exists me, u. do 2 (split; [done|]). pose proof (fi_edges _ Hd j e He) as Hok.
  eapply ActedRemoved; [exact He| |by eapply party_uuid|by apply decline_fits|reflexivity].
  by apply may_answer_true in Hm as (_ & _ & ?).
Qed.

Lemma remove_acted dir seen ident edge_id d d' x :
  friends_inv d → remove dir seen ident edge_id d = (d', x) →
  d' = d ∨ ∃ me u, player_id ident = Some me ∧ uuid_in me = Some u ∧ acted u d d'.
Proof.
  intros Hd. destruct x as [x|e]; [intros E%transaction_ok|intros ->%transaction_err; by left].
  unfold remove_st in E. st_inv E. apply st_lift_ok in E0 as [-> Hv]. destruct a as [[me mine] theirs].
  apply viewed_ok in Hv as [Hme [l ->]]. st_inv E. apply st_map_err_ok in E0. destruct a as [[[[i o] st] rq]|]; [|done].
  apply delete_tx_ok in E0 as (j & u & e & Hu & He & Hp & Heq & ->). injection Heq as -> -> -> ->.
  st_inv E. apply st_lift_ok in E0 as [-> Hw]. injection E as <-.
  right. exists me, u. do 2 (split; [done|]). pose proof (fi_edges _ Hd j e He) as Hok.
  eapply ActedRemoved; [exact He|done|by eapply party_uuid|by apply removal_reason_fits|reflexivity].
Qed.

(** ** Concurrent callers

    The tables and the requests in progress.  A step is one statement of a request
    (with the rest of its transaction once it wrote), or one answering transaction,
    labelled with the id its caller was authenticated as; or the purge, unlabelled. *)

Record World := mkWorld { fdb : FriendsDb; inflight : gmap nat Req }.

Definition stmt_world (now : Z) (fresh : string) (id : nat) (r : Req) (w : World) : World :=
  let '(d, x) := request_stmt now fresh r (fdb w) in
  mkWorld d (match x with inl r' => <[id := r']> (inflight w) | inr _ => delete id (inflight w) end).

Inductive fstep : option string → World → World → Prop :=
| StepBegin dir id ident handle r w :
    inflight w !! id = None → request_begin dir ident handle (fdb w) = Ok r →
    fstep None w (mkWorld (fdb w) (<[id := r]> (inflight w)))
| StepStmt now fresh id r w :
    inflight w !! id = Some r → fstep (Some (rq_me r)) w (stmt_world now fresh id r w)
| StepDrop id w : fstep None w (mkWorld (fdb w) (delete id (inflight w)))
| StepAccept dir now seen ident edge_id d x w :
    accept dir now seen ident edge_id (fdb w) = (d, x) → fstep (player_id ident) w (mkWorld d (inflight w))
| StepDecline dir seen ident edge_id d x w :
    decline dir seen ident edge_id (fdb w) = (d, x) → fstep (player_id ident) w (mkWorld d (inflight w))
| StepRemove dir seen ident edge_id d x w :
    remove dir seen ident edge_id (fdb w) = (d, x) → fstep (player_id ident) w (mkWorld d (inflight w))
| StepPlant player handle d w :
    plant_purged_player_tx player handle (fdb w) = (d, Ok ()) → fstep None w (mkWorld d (inflight w))
| StepFired elapsed name d w :
    on_scheduler_fired elapsed name (fdb w) = Some (d, Ok ()) → fstep None w (mkWorld d (inflight w)).

Definition freachable : World → Prop := rtc (fun w w' => ∃ l, fstep l w w') (mkWorld empty_friends ∅).

(** A step changes the graph as the player it is labelled with, or purges tombstoned
    players, or not at all. *)
Definition changed (l : option string) (d d' : FriendsDb) : Prop :=
  (edges d' = edges d ∧ appended d' = appended d ∧ ∀ u t, purged_players d' !! u = Some t → uuid_in u = Some u)
  ∨ (∃ me u, l = Some me ∧ uuid_in me = Some u ∧ acted u d d')
  ∨ (l = None ∧ ∃ ps, d' = purge_all d ps ∧ ∀ u h, (u, h) ∈ ps → purged_players d !! u = Some (h, false)).

Lemma unchanged l d : friends_inv d → changed l d d.
Proof. intros Hd. left. split; [done|]. split; [done|]. apply Hd. Qed.

Lemma plant_ok player handle d d' :
  friends_inv d → plant_purged_player_tx player handle d = (d', Ok ()) → changed None d d'.
Proof.
  unfold plant_purged_player_tx. intros Hd E. pg_inv E. injection E as <-. left. split; [by case_match|].
  split; [by case_match|]. intros v t. case_match eqn:Ep; [apply Hd|]. simpl. rewrite lookup_insert.
  case_decide; [subst; intros _; by eapply uuid_in_canonical|apply Hd].
Qed.

Lemma fstep_changed l w w' : friends_inv (fdb w) → fstep l w w' → changed l (fdb w) (fdb w').
Proof.
  intros Hd Hs. destruct Hs as [|now fresh id r w Hr| |dir now seen ident edge_id d x w E|dir seen ident edge_id d x w E
    |dir seen ident edge_id d x w E|player handle d w E|elapsed name d w E]; simpl.
  - by apply unchanged.
  - unfold stmt_world. destruct (request_stmt now fresh r (fdb w)) as [d x] eqn:E. simpl.
    apply request_stmt_acted in E as [->|(u & Hu & Ha)]; [by apply unchanged| |done]. right. left. eauto.
  - by apply unchanged.
  - apply accept_acted in E as [->|(me & u & -> & Hu & Ha)]; [by apply unchanged| |done]. right. left. eauto.
  - apply decline_acted in E as [->|(me & u & -> & Hu & Ha)]; [by apply unchanged| |done]. right. left. eauto.
  - apply remove_acted in E as [->|(me & u & -> & Hu & Ha)]; [by apply unchanged| |done]. right. left. eauto.
  - by eapply plant_ok.
  - unfold on_scheduler_fired in E. case_bool_decide; [injection E as <-; by apply unchanged|].
    destruct (friends_sweep_run elapsed (fdb w) Hd) as (ps & E' & Hps & _). rewrite E' in E. injection E as <-.
    right. right. eauto.
Qed.

Lemma changed_inv l d d' : changed l d d' → friends_inv d → friends_inv d'.
Proof.
  intros [(He & Hl & Ht)|[(me & u & _ & Hu & Ha)|(_ & ps & -> & Hps)]] Hd.
  - destruct Hd. split; rewrite ?He, ?Hl; try done. intros u. unfold authored. rewrite He. apply fi_cap0.
  - eapply acted_inv; [by eapply uuid_in_canonical|done|done].
  - apply inv_purge_all; [done|]. intros u h Hu%Hps. by eapply fi_tombs.
Qed.

Lemma freachable_inv w : freachable w → friends_inv (fdb w).
Proof.
  apply (rtc_ind_r (fun w => friends_inv (fdb w)) _).
  - apply friends_inv_empty.
  - intros w1 w2 _ [l Hs] Hd. eapply changed_inv; [by eapply fstep_changed|done].
Qed.
End Safety.
