(* ===== verification/FriendsContract.v ===== *)
(** * FriendsContract: what the social graph promises

    Consent, the shape of the pair table, the completeness of the event log, the
    decision table of a request, the purge, and the two-sided listing; with two
    observations on the purge race and on malformed identities. *)

From Stdlib Require Import Ascii.
From stdpp Require Import sorting.
From S2P Require Import Prelude Text OpsApi Pg Purge Directory Friends FriendsSafety.
#[local] Open Scope Z_scope.

Section Contract.
Context `{PgUuid}.

(** ** Consent *)

Lemma purged_edges ps d i e :
  edges (purge_all d ps) !! i = Some e ↔ edges d !! i = Some e ∧ ∀ u h, (u, h) ∈ ps → party_of u e = false.
Proof.
  revert d. induction ps as [|[u h] ps IH]; intros d; [simpl; split; [intros ?; split; [done|set_solver]|by intros [? _]]|].
  change (purge_all d ((u, h) :: ps)) with (purge_all (purged_player u h d) ps). rewrite IH. simpl.
  rewrite map_lookup_filter_Some. simpl. split.
  - intros [[? ?] Hps]. split; [done|]. intros v k [E|Hv]%elem_of_cons; [by injection E as -> ->|by eapply Hps].
  - intros [? Hps]. split; [split; [done|by eapply (Hps u h); left]|]. intros v k Hv. eapply (Hps v k). by right.
Qed.

Lemma acted_written u d d' i e' :
  acted u d d' → edges d' !! i = Some e' → edges d !! i ≠ Some e' →
  (edges d !! i = None ∧ state e' = STATE_PENDING ∧ requester_id e' = u)
  ∨ ∃ e, edges d !! i = Some e ∧ state e = STATE_PENDING ∧ state e' = STATE_ACCEPTED ∧ requester_id e ≠ u
      ∧ party_of u e = true ∧ low_id e' = low_id e ∧ high_id e' = high_id e ∧ requester_id e' = requester_id e.
Proof.
  intros [->|now j b other ha ho _ _ _ Hj -> _|now j e r hr a ha Hj Hm _ _ ->|j e x hx hy reason Hj _ _ _ ->] Hi Hne; [done| | |].
  - simpl in Hi. rewrite lookup_insert in Hi. case_decide; [subst|done]. injection Hi as <-. by left.
  - simpl in Hi. rewrite lookup_insert in Hi. case_decide; [subst|done]. injection Hi as <-.
    apply may_answer_true in Hm as (? & ? & ?). right. by exists e.
  - simpl in Hi. apply lookup_delete_Some in Hi as [_ Hi]. done.
Qed.

Lemma acted_gone u d d' i e : acted u d d' → edges d !! i = Some e → edges d' !! i = None → party_of u e = true.
Proof.
  intros [->|now j b other ha ho _ _ _ Hj -> _|now j f r hr a ha Hj Hm _ _ ->|j f x hx hy reason Hj Hp _ _ ->] Hi Hn; simpl in Hn.
  - congruence.
  - apply lookup_insert_None in Hn as [? _]. congruence.
  - apply lookup_insert_None in Hn as [? _]. congruence.
  - apply lookup_delete_None in Hn as [->|?]; congruence.
Qed.

(** C10: nobody is made a friend without their consent.  Whatever requests, answers and
    purges run side by side, a step that writes a relation is a step of an
    authenticated player: it either asks, as themselves, for a relation that did not
    exist, which is then pending, or turns a pending request that the OTHER party
    made to them into a friendship.  And a relation goes away only by a step of one
    of its two parties, or by the purge of one whose account was deleted. *)
Theorem friends_consent (l : option string) (w w' : World) :
  freachable w → fstep l w w' →
  (∀ i e', edges (fdb w') !! i = Some e' → edges (fdb w) !! i ≠ Some e' →
     ∃ me u, l = Some me ∧ uuid_in me = Some u ∧
       ((edges (fdb w) !! i = None ∧ state e' = STATE_PENDING ∧ requester_id e' = u)
        ∨ ∃ e, edges (fdb w) !! i = Some e ∧ state e = STATE_PENDING ∧ state e' = STATE_ACCEPTED
            ∧ requester_id e ≠ u ∧ party_of u e = true
            ∧ low_id e' = low_id e ∧ high_id e' = high_id e ∧ requester_id e' = requester_id e))
  ∧ (∀ i e, edges (fdb w) !! i = Some e → edges (fdb w') !! i = None →
     (∃ me u, l = Some me ∧ uuid_in me = Some u ∧ party_of u e = true)
     ∨ (l = None ∧ ∃ u h, purged_players (fdb w) !! u = Some (h, false) ∧ party_of u e = true)).
Proof.
  intros Hw Hs. pose proof (freachable_inv w Hw) as Hd.
  destruct (fstep_changed _ _ _ Hd Hs) as [(He & _)|[(me & u & -> & Hu & Ha)|(-> & ps & Hd' & Hps)]].
  - rewrite He. split; [done|congruence].
  - split.
    + intros i e' Hi Hne. exists me, u. do 2 (split; [done|]). by eapply acted_written.
    + intros i e Hi Hn. left. exists me, u. do 2 (split; [done|]). by eapply acted_gone.
  - rewrite Hd'. split; [intros i e' [Hi _]%purged_edges; done|]. intros i e Hi Hn. right. split; [done|].
    destruct (decide (Forall (fun uh => party_of (fst uh) e = false) ps)) as [Hall|[[u h] [Hin Hp]]%not_Forall_Exists%Exists_exists].
    + rewrite Forall_forall in Hall. assert (edges (purge_all (fdb w) ps) !! i = Some e); [|congruence].
      apply purged_edges. split; [done|]. intros u h Huh. by apply (Hall (u, h)).
    + exists u, h. split; [by apply Hps|]. simpl in Hp. by destruct (party_of u e).
    + intros x. apply _.
Qed.

(** In every reachable state the table is what its schema says whatever ran
    concurrently: a row names two different players in order and one of them as the
    requester, no two rows name the same pair, and no player has more than the
    allowed number of unanswered requests. *)
Theorem pair_table_wellformed (w : World) :
  freachable w →
  (∀ i e, edges (fdb w) !! i = Some e →
     String.le (low_id e) (high_id e) ∧ low_id e ≠ high_id e ∧ (requester_id e = low_id e ∨ requester_id e = high_id e)
     ∧ (state e = STATE_PENDING ∨ state e = STATE_ACCEPTED))
  ∧ (∀ i j e f, edges (fdb w) !! i = Some e → edges (fdb w) !! j = Some f →
       low_id e = low_id f → high_id e = high_id f → i = j)
  ∧ (∀ u, Z.of_nat (size (authored u STATE_PENDING (fdb w))) ≤ MAX_PENDING_OUTSTANDING).
Proof.
  intros Hd%freachable_inv. split; [|split; [apply Hd|apply Hd]].
  intros i e Hi. destruct (fi_edges _ Hd i e Hi) as [[? ?] ? _ ?]. done.
Qed.

(** C11: the appended events are a complete account of the graph: replayed from the
    start, each event fits the relation it names (right parties, right roles, a
    reason true of the relation it ends), and what they build is the table. *)
Theorem event_log_complete (w : World) : freachable w → replay (appended (fdb w)) = Some (rel_of <$> edges (fdb w)).
Proof. intros Hd%freachable_inv. apply Hd. Qed.

(** ** The decision table of a request *)

Lemma run_request_step fuel now fresh r d d' r' :
  request_stmt now fresh r d = (d', inl r') → run_request (S fuel) now fresh r d = run_request fuel now fresh r' d'.
Proof. intros E. simpl. by rewrite E. Qed.

Lemma run_request_done fuel now fresh r d d' a :
  request_stmt now fresh r d = (d', inr a) → run_request (S fuel) now fresh r d = Some (d', a).
Proof. intros E. simpl. by rewrite E. Qed.

Section Decided.
Context (now : Z) (fresh : string) (r : Req) (a b : string) (d : FriendsDb).
Hypothesis Hd : friends_inv d.
Hypothesis Ha : uuid_in (rq_me r) = Some a.
Hypothesis Hb : uuid_in (ps_player_id (rq_target r)) = Some b.
Hypothesis Hab : a ≠ b.
Hypothesis Hnul : existsb has_nul [rq_me r; ps_player_id (rq_target r)] = false.
Hypothesis Hfresh : edges d !! fresh = None.

Let row := pair_row (least a b) (greatest a b) (edges d).

Lemma binds (l : list string) : existsb has_nul l = false →
  bind_text (S := FriendsDb) ([rq_me r; ps_player_id (rq_target r)] ++ l) d = (d, Ok ()).
Proof. intros Hl. unfold bind_text. rewrite existsb_app, Hnul, Hl. done. Qed.

Lemma insert_taken p : row = Some p →
  insert_pending_tx now fresh (rq_me r) (ps_player_id (rq_target r)) STATE_PENDING d = (d, Ok None).
Proof.
  intros Hrow. unfold insert_pending_tx.
  rewrite (st_bind_run _ _ _ _ _ (binds [STATE_PENDING] ltac:(reflexivity))).
  unfold cast_uuid, mbind, ST_bind, lift. rewrite Ha. simpl. rewrite Hb. simpl. fold row. rewrite Hrow.
  rewrite bool_decide_eq_false_2 by (by apply least_greatest). done.
Qed.

Lemma insert_free : row = None →
  insert_pending_tx now fresh (rq_me r) (ps_player_id (rq_target r)) STATE_PENDING d
  = (set_edges (<[fresh := mkEdge (least a b) (greatest a b) a STATE_PENDING now None]> (edges d)) d, Ok (Some (fresh, a))).
Proof.
  intros Hrow. unfold insert_pending_tx.
  rewrite (st_bind_run _ _ _ _ _ (binds [STATE_PENDING] ltac:(reflexivity))).
  unfold cast_uuid, mbind, ST_bind, lift. rewrite Ha. simpl. rewrite Hb. simpl. fold row. rewrite Hrow.
  rewrite bool_decide_eq_false_2 by (by apply least_greatest). simpl.
  rewrite bool_decide_eq_false_2 by (rewrite Hfresh; by intros [? ?]). done.
Qed.

Lemma crossing_run :
  accept_crossing_tx now (rq_me r) (ps_player_id (rq_target r)) STATE_PENDING STATE_ACCEPTED d
  = match row with
    | Some (i, e) =>
        if bool_decide (state e = STATE_PENDING ∧ requester_id e ≠ a)
        then (set_edges (<[i := accept_edge now STATE_ACCEPTED e]> (edges d)) d,
              Ok (Some (i, if bool_decide (low_id e = a) then low_id e else high_id e)))
        else (d, Ok None)
    | None => (d, Ok None)
    end.
Proof.
  unfold accept_crossing_tx.
  rewrite (st_bind_run _ _ _ _ _ (binds [STATE_PENDING; STATE_ACCEPTED] ltac:(reflexivity))).
  unfold cast_uuid, mbind, ST_bind, lift. rewrite Ha. simpl. rewrite Hb. simpl. fold row.
  destruct row as [[i e]|]; [|done]. by case_bool_decide.
Qed.

Lemma find_run :
  find_pair_tx (rq_me r) (ps_player_id (rq_target r)) d
  = (d, Ok ((fun kv => mkPairRow (fst kv) (state (snd kv)) (bool_decide (requester_id (snd kv) = a))) <$> row)).
Proof.
  unfold find_pair_tx. rewrite (st_bind_run _ _ _ _ _ (binds [] ltac:(reflexivity))).
  unfold cast_uuid, mbind, ST_bind, lift. rewrite Ha. simpl. by rewrite Hb.
Qed.

Lemma count_run dx : count_authored_pending_tx a STATE_PENDING dx = (dx, Ok (Z.of_nat (size (authored a STATE_PENDING dx)))).
Proof.
  unfold count_authored_pending_tx, bind_text, cast_uuid, mbind, ST_bind, lift. simpl.
  rewrite (uuid_in_no_nul _ _ Ha). simpl. by rewrite (uuid_in_canonical _ _ Ha).
Qed.

Let new := mkEdge (least a b) (greatest a b) a STATE_PENDING now None.

Lemma authored_new : size (authored a STATE_PENDING (set_edges (<[fresh := new]> (edges d)) d))
  = S (size (authored a STATE_PENDING d)).
Proof.
  unfold authored. simpl. rewrite map_filter_insert_True by done. rewrite map_size_insert_None; [done|].
  apply map_lookup_filter_None. by left.
Qed.

Lemma insert_transaction : row = None →
  transaction (try_insert now fresh r) d
  = if Z.of_nat (size (authored a STATE_PENDING d)) <? MAX_PENDING_OUTSTANDING
    then (created fresh new (Requested fresh a (rq_handle r) (ps_player_id (rq_target r)) (ps_handle (rq_target r))) d,
          Ok (Some (friend_of fresh STATE_PENDING true (ps_player_id (rq_target r)) (Some (rq_target r)))))
    else (d, Err (mkError Conflict "at most 100 outstanding friend requests")).
Proof.
  intros Hrow. unfold transaction, try_insert.
  rewrite (st_bind_run _ _ _ _ _ (st_map_err_run _ _ _ _ _ (insert_free Hrow))). cbv beta iota. fold new.
  unfold commit_new_request, or_internal. unfold mbind at 1, ST_bind at 1.
  rewrite (st_bind_run _ _ _ _ _ (st_map_err_run _ _ _ _ _ (count_run _))). cbv beta. rewrite authored_new.
  destruct (Z.ltb_spec (Z.of_nat (size (authored a STATE_PENDING d))) MAX_PENDING_OUTSTANDING).
  - destruct (Z.ltb_spec MAX_PENDING_OUTSTANDING (Z.of_nat (S (size (authored a STATE_PENDING d))))); [lia|reflexivity].
  - destruct (Z.ltb_spec MAX_PENDING_OUTSTANDING (Z.of_nat (S (size (authored a STATE_PENDING d))))); [reflexivity|lia].
Qed.

(** The answer of a request on a pair nobody else touches meanwhile. *)
Definition decided : FriendsDb * result Error Friend :=
  let target := rq_target r in
  match row with
  | None =>
      if Z.of_nat (size (authored a STATE_PENDING d)) <? MAX_PENDING_OUTSTANDING
      then (created fresh new (Requested fresh a (rq_handle r) (ps_player_id target) (ps_handle target)) d,
            Ok (friend_of fresh STATE_PENDING true (ps_player_id target) (Some target)))
      else (d, Err (mkError Conflict "at most 100 outstanding friend requests"))
  | Some (i, e) =>
      if bool_decide (state e = STATE_PENDING ∧ requester_id e ≠ a)
      then (accepted_at_row now i e (Accepted i (ps_player_id target) (ps_handle target)
                                       (if bool_decide (low_id e = a) then low_id e else high_id e) (rq_handle r)) d,
            Ok (friend_of i STATE_ACCEPTED false (ps_player_id target) (Some target)))
      else (d, Ok (friend_of i (state e) (bool_decide (requester_id e = a)) (ps_player_id target) (Some target)))
  end.

Lemma run_decided : rq_phase r = Inserting → run_request 4 now fresh r d = Some decided.
Proof.
  intros Hph. unfold decided. destruct row as [[i e]|] eqn:Hrow.
  - assert (E1 : request_stmt now fresh r d = (d, inl (at_phase Crossing r))).
    { unfold request_stmt. rewrite Hph. unfold transaction, try_insert, st_map_err, mbind, ST_bind.
      by rewrite (insert_taken _ Hrow). }
    rewrite (run_request_step _ _ _ _ _ _ _ E1). case_bool_decide as Hc.
    + apply run_request_done. unfold request_stmt, transaction, try_crossing, st_map_err, mbind, ST_bind. simpl.
      rewrite crossing_run, Hrow, bool_decide_eq_true_2 by done. reflexivity.
    + assert (E2 : request_stmt now fresh (at_phase Crossing r) d = (d, inl (at_phase Finding (at_phase Crossing r)))).
      { unfold request_stmt, transaction, try_crossing, st_map_err, mbind, ST_bind. simpl.
        by rewrite crossing_run, Hrow, bool_decide_eq_false_2. }
      rewrite (run_request_step _ _ _ _ _ _ _ E2). apply run_request_done.
      unfold request_stmt, transaction, try_find, st_map_err, mbind, ST_bind. simpl. rewrite find_run, Hrow. simpl.
      apply pair_row_Some in Hrow as (Hi & _). unfold wire_state, lift.
      destruct (eo_state e (fi_edges _ Hd i e Hi)) as [-> | ->]; reflexivity.
  - pose proof (insert_transaction Hrow) as E.
    destruct (_ <? _); apply run_request_done; unfold request_stmt; rewrite Hph, E; reflexivity.
Qed.
End Decided.

(** A request without interference is decided by the pair's row: none, and a new
    pending request is made and announced, unless the caller has too many unanswered
    ones; a pending request of the other player, and it is accepted, in the original
    roles; anything else, and the row is answered unchanged and nothing is announced,
    so a repeated request never accepts itself. *)
Theorem request_decided (dir : Directory) (now : Z) (fresh : string) (ident : Identity) (handle : string)
    (r : Req) (a b : string) (w : World) :
  freachable w → request_begin dir ident handle (fdb w) = Ok r →
  uuid_in (rq_me r) = Some a → uuid_in (ps_player_id (rq_target r)) = Some b → a ≠ b →
  existsb has_nul [rq_me r; ps_player_id (rq_target r)] = false → edges (fdb w) !! fresh = None →
  request dir now fresh ident handle (fdb w) = Some (decided now fresh r a b (fdb w)).
Proof.
  intros Hd%freachable_inv Hr Ha Hb Hab Hnul Hfresh. unfold request. rewrite Hr. apply run_decided; try done.
  unfold request_begin in Hr. do 4 (apply bind_ok in Hr as (? & _ & Hr); repeat (case_match; try done)).
  apply bind_ok in Hr as (? & _ & Hr). case_match; [done|]. by injection Hr as <-.
Qed.

(** ** The listing *)

#[local] Instance newer_trans : Transitive newer.
Proof. unfold newer. intros x y z [?|[? ?]] [?|[? ?]]; (left; lia) || right; split; [lia|by etrans]. Qed.

#[local] Instance newer_total : Total newer.
Proof.
  intros x y. unfold newer. destruct (Z.lt_trichotomy (created_at x.2) (created_at y.2)) as [?|[?|?]]; [lia| |lia].
  destruct (total String.le x.1 y.1); [right|left]; right; split; done || lia.
Qed.

Lemma rows_separated (es : gmap string Edge) l : (∀ r, r ∈ l → es !! fst r = Some (snd r)) → separates newer l.
Proof.
  intros Hl [i e] [j f] Hi%Hl Hj%Hl. unfold newer. simpl in *. intros [?|[? Hji]] [?|[? Hij]]; try lia.
  assert (i = j) as -> by (by apply (anti_symm String.le)). congruence.
Qed.

(** The rows of a player in one state past a cursor, whichever column holds them. *)
Definition all_rows (u st : string) (cut : option (Z * string)) (es : gmap string Edge) : list (string * Edge) :=
  List.filter (fun r => party_of u (snd r) && bool_decide (state (snd r) = st) && past_cut cut r) (map_to_list es).

(** The paged query, which limits each side of the pair separately before merging
    them, lists exactly what sorting all of the player's relations and cutting the
    page from them would. *)
Theorem page_rows_exact (u st : string) (cut : option (Z * string)) (limit : nat) (w : World) :
  freachable w →
  page_rows u st cut limit (edges (fdb w)) = take limit (merge_sort newer (all_rows u st cut (edges (fdb w)))).
Proof.
  intros Hd%freachable_inv. unfold page_rows, side_rows. set (es := edges (fdb w)).
  set (lo := List.filter _ (map_to_list es)). set (hi := List.filter _ (map_to_list es)).
  assert (Hrow : ∀ f r, r ∈ List.filter f (map_to_list es) → es !! fst r = Some (snd r)).
  { intros f [i e] [Hr _]%list_elem_of_In%filter_In. by apply list_elem_of_In, elem_of_map_to_list in Hr. }
  assert (Hsep : separates newer (lo ++ hi)).
  { apply (rows_separated es). intros r [Hr|Hr]%elem_of_app; by eapply Hrow. }
  rewrite (take_sort_halves newer limit lo hi Hsep). f_equal. apply (merge_sort_perm newer _ _ Hsep).
  unfold lo, hi, all_rows. rewrite filter_or_perm.
  - apply reflexive_eq, List.filter_ext. intros [i e]. unfold party_of. simpl.
    destruct (past_cut cut (i, e)); repeat case_bool_decide; simpl; try done; exfalso; intuition congruence.
  - intros [i e] Hr%elem_of_map_to_list. destruct (fi_edges _ Hd i e Hr) as [[_ Hne] _ _ _]. simpl.
    repeat case_bool_decide; subst; simpl; try done. by rewrite andb_false_r.
Qed.

(** ** The purge *)

(** A fire of the purge ends, and, unless the time budget cuts it short, leaves no
    relation of any tombstoned player behind, marks every tombstone, and touches no
    relation between players who are still there. *)
Theorem purge_complete (elapsed : nat → bool) (w : World) :
  freachable w →
  ∃ d', on_scheduler_fired elapsed PURGE_SCHEDULE_NAME (fdb w) = Some (d', Ok ())
    ∧ (∀ i e, edges (fdb w) !! i = Some e → (∀ u t, purged_players (fdb w) !! u = Some t → party_of u e = false) →
         edges d' !! i = Some e)
    ∧ ((∀ n, elapsed n = false) →
       (∀ u h, purged_players (fdb w) !! u = Some (h, false) →
          purged_players d' !! u = Some (h, true) ∧ ∀ i e, edges d' !! i = Some e → party_of u e = false)).
Proof.
  intros Hd%freachable_inv. destruct (friends_sweep_run elapsed (fdb w) Hd) as (l & E & Hl & Hall).
  exists (purge_all (fdb w) l). split; [done|]. split.
  - intros i e Hi Hu. apply purged_edges. split; [done|]. intros u h Huh%Hl. by eapply Hu.
  - intros Hbudget u h Hu. pose proof (Hall Hbudget u h Hu) as Hin. split; [|intros i e [_ Hp]%purged_edges; by eapply Hp].
    assert (Hm : ∀ m d, (u, h) ∈ m ∨ purged_players d !! u = Some (h, true) →
                 (∃ b, purged_players d !! u = Some (h, b)) → purged_players (purge_all d m) !! u = Some (h, true)).
    { clear. induction m as [|[v k] m IH]; intros d Hor [b Hb].
      - destruct Hor as [Hin|?]; [by apply elem_of_nil in Hin|done].
      - apply (IH (purged_player v k d)); simpl; unfold marked; destruct (decide (v = u)) as [->|Hne].
        + right. by rewrite lookup_alter_eq, Hb.
        + rewrite lookup_alter_ne by done. destruct Hor as [[E|?]%elem_of_cons|?]; [congruence|by left|by right].
        + exists true. by rewrite lookup_alter_eq, Hb.
        + rewrite lookup_alter_ne by done. eauto. }
    apply Hm; [by left|by eexists].
Qed.

(** ** Observations *)

(** A caller whose id is not a uuid is answered 500 by [request]: the tombstone read,
    which casts it first, maps every error to an internal one, so the 400 of
    [pair_write_error] is never given. *)
Theorem malformed_identity_is_internal (dir : Directory) (ident : Identity) (me handle : string) (s : PlayerSummary)
    (ms : list PlayerSummary) (d : FriendsDb) :
  player_id ident = Some me → uuid_in me = None → has_nul me = false →
  (String.length handle ≤ MAX_HANDLE_BYTES)%nat → find_by_handle dir handle = Ok (Some s) →
  eq_ignore_ascii_case me (ps_player_id s) = false → players_by_id dir [me] = Ok ms →
  request_begin dir ident handle d = Err internal_error.
Proof.
  intros Hid Hme Hnul Hlen Hs Hself Hms. unfold request_begin, caller. rewrite Hid. simpl.
  rewrite bool_decide_eq_false_2 by lia. rewrite Hs. simpl. rewrite Hself, Hms. simpl.
  unfold or_internal, st_map_err, is_player_purged_tx, bind_text, cast_uuid, mbind, ST_bind, lift. simpl.
  rewrite Hnul. simpl. by rewrite Hme.
Qed.
End Contract.

(** ** A run *)

Module FriendsExample.
Definition alice : string := "11111111-1111-1111-1111-111111111111".
Definition bob : string := "22222222-2222-2222-2222-222222222222".
Definition edge1 : string := "aaaaaaaa-aaaa-aaaa-aaaa-aaaaaaaaaaaa".

Definition summary (p h : string) : PlayerSummary := mkSummary p h h "".

Definition dir : Directory :=
  mkDirectory (fun h => Ok (if bool_decide (h = "bob") then Some (summary bob "bob")
                            else if bool_decide (h = "alice") then Some (summary alice "alice") else None))
              (fun ids => Ok (List.filter (fun s => bool_decide (ps_player_id s ∈ ids)) [summary alice "alice"; summary bob "bob"])).

Definition asking : Req := mkReq alice "alice" (summary bob "bob") Inserting.

Definition w0 : World := mkWorld empty_friends ∅.
Definition w1 : World := mkWorld empty_friends {[ 0%nat := asking ]}.
Definition w2 : World := @stmt_world plain_uuid 10 edge1 0 asking w1.
Definition d3 : FriendsDb := fst (@accept plain_uuid dir 20 (fdb w2) (Some bob) edge1 (fdb w2)).
Definition w3 : World := mkWorld d3 (inflight w2).

Lemma begins : @request_begin plain_uuid dir (Some alice) "bob" empty_friends = Ok asking.
Proof. vm_compute. reflexivity. Qed.

Lemma w1_reachable : @freachable plain_uuid w1.
Proof. apply rtc_once. exists None. eapply (@StepBegin plain_uuid dir 0 (Some alice) "bob" asking w0); [reflexivity|exact begins]. Qed.

Lemma w2_reachable : @freachable plain_uuid w2.
Proof. eapply rtc_r; [exact w1_reachable|]. exists (Some alice). by apply (@StepStmt plain_uuid 10 edge1 0 asking w1). Qed.

Lemma accept_step : @fstep plain_uuid (Some bob) w2 w3.
Proof.
  apply (@StepAccept plain_uuid dir 20 (fdb w2) (Some bob) edge1 d3
           (snd (@accept plain_uuid dir 20 (fdb w2) (Some bob) edge1 (fdb w2))) w2).
  unfold d3. apply surjective_pairing.
Qed.

Lemma w3_reachable : @freachable plain_uuid w3.
Proof. eapply rtc_r; [exact w2_reachable|]. exists (Some bob). exact accept_step. Qed.
End FriendsExample.

Lemma friends_consent_witness :
  edges (fdb FriendsExample.w2) !! FriendsExample.edge1
  = Some (mkEdge FriendsExample.alice FriendsExample.bob FriendsExample.alice "pending" 10 None)
  ∧ edges (fdb FriendsExample.w3) !! FriendsExample.edge1
    = Some (mkEdge FriendsExample.alice FriendsExample.bob FriendsExample.alice "accepted" 10 (Some 20))
  ∧ ∃ me u, Some FriendsExample.bob = Some me ∧ @uuid_in plain_uuid me = Some u
      ∧ party_of u (mkEdge FriendsExample.alice FriendsExample.bob FriendsExample.alice "pending" 10 None) = true.
Proof.
  assert (E2 : edges (fdb FriendsExample.w2) !! FriendsExample.edge1
    = Some (mkEdge FriendsExample.alice FriendsExample.bob FriendsExample.alice "pending" 10 None)) by (vm_compute; reflexivity).
  assert (E3 : edges (fdb FriendsExample.w3) !! FriendsExample.edge1
    = Some (mkEdge FriendsExample.alice FriendsExample.bob FriendsExample.alice "accepted" 10 (Some 20))) by (vm_compute; reflexivity).
  split; [exact E2|]. split; [exact E3|].
  destruct (proj1 (@friends_consent plain_uuid (Some FriendsExample.bob) FriendsExample.w2 FriendsExample.w3
                     FriendsExample.w2_reachable FriendsExample.accept_step) _ _ E3) as (me & u & E & Hu & Hc).
  - rewrite E2. discriminate.
  - exists me, u. split; [exact E|]. split; [exact Hu|]. destruct Hc as [[Hn _]|(e & He & _ & _ & _ & Hp & _)].
    + rewrite E2 in Hn. discriminate.
    + rewrite E2 in He. injection He as <-. exact Hp.
Defined.

Lemma pair_table_wellformed_witness :
  size (edges (fdb FriendsExample.w2)) = 1%nat
  ∧ Z.of_nat (size (authored FriendsExample.alice "pending" (fdb FriendsExample.w2))) ≤ MAX_PENDING_OUTSTANDING.
Proof.
  split; [vm_compute; reflexivity|].
  exact (proj2 (proj2 (@pair_table_wellformed plain_uuid FriendsExample.w2 FriendsExample.w2_reachable)) FriendsExample.alice).
Defined.

Lemma event_log_complete_witness :
  appended (fdb FriendsExample.w3)
  = [Requested FriendsExample.edge1 FriendsExample.alice "alice" FriendsExample.bob "bob";
     Accepted FriendsExample.edge1 FriendsExample.alice "alice" FriendsExample.bob "bob"]
  ∧ @replay plain_uuid (appended (fdb FriendsExample.w3)) = Some (rel_of <$> edges (fdb FriendsExample.w3)).
Proof.
  split; [vm_compute; reflexivity|].
  exact (@event_log_complete plain_uuid FriendsExample.w3 FriendsExample.w3_reachable).
Defined.

(** Bob's request meets Alice's pending one. *)
Lemma request_decided_witness :
  ∃ r, @request plain_uuid FriendsExample.dir 30 "f" (Some FriendsExample.bob) "alice" (fdb FriendsExample.w2)
       = Some (@decided 30 "f" r FriendsExample.bob FriendsExample.alice (fdb FriendsExample.w2))
    ∧ snd (@decided 30 "f" r FriendsExample.bob FriendsExample.alice (fdb FriendsExample.w2))
      = Ok (mkFriend FriendsExample.alice "alice" "alice" "" FriendsExample.edge1 "accepted" "incoming").
Proof.
  exists (mkReq FriendsExample.bob "bob" (FriendsExample.summary FriendsExample.alice "alice") Inserting).
  split; [|vm_compute; reflexivity].
  apply (@request_decided plain_uuid FriendsExample.dir 30 "f" (Some FriendsExample.bob) "alice"
           (mkReq FriendsExample.bob "bob" (FriendsExample.summary FriendsExample.alice "alice") Inserting)
           FriendsExample.bob FriendsExample.alice FriendsExample.w2 FriendsExample.w2_reachable).
  - vm_compute. reflexivity.
  - vm_compute. reflexivity.
  - vm_compute. reflexivity.
  - discriminate.
  - vm_compute. reflexivity.
  - vm_compute. reflexivity.
Defined.

Lemma page_rows_exact_witness :
  page_rows FriendsExample.bob "accepted" None 5 (edges (fdb FriendsExample.w3))
  = [(FriendsExample.edge1, mkEdge FriendsExample.alice FriendsExample.bob FriendsExample.alice "accepted" 10 (Some 20))]
  ∧ page_rows FriendsExample.bob "accepted" None 5 (edges (fdb FriendsExample.w3))
    = take 5 (merge_sort newer (all_rows FriendsExample.bob "accepted" None (edges (fdb FriendsExample.w3)))).
Proof.
  split; [vm_compute; reflexivity|].
  exact (@page_rows_exact plain_uuid FriendsExample.bob "accepted" None 5 FriendsExample.w3 FriendsExample.w3_reachable).
Defined.

Lemma purge_complete_witness :
  ∃ d', @on_scheduler_fired plain_uuid (fun _ => false) "player-purge" (fdb FriendsExample.w3) = Some (d', Ok ())
    ∧ edges d' !! FriendsExample.edge1
      = Some (mkEdge FriendsExample.alice FriendsExample.bob FriendsExample.alice "accepted" 10 (Some 20)).
Proof.
  destruct (@purge_complete plain_uuid (fun _ => false) FriendsExample.w3 FriendsExample.w3_reachable) as (d' & E & Hkeep & _).
  exists d'. split; [exact E|]. apply Hkeep; [vm_compute; reflexivity|].
  intros u t Hu. vm_compute in Hu. discriminate.
Defined.

(** A request that read no tombstone before the deletion of its author can still
    write its row after the purge has swept them: a relation of a player who is gone,
    that no later sweep looks at. *)
Theorem purge_race :
  ∃ w u h i e, @freachable plain_uuid w ∧ purged_players (fdb w) !! u = Some (h, true)
    ∧ edges (fdb w) !! i = Some e ∧ party_of u e = true.
Proof.
  set (d1 := fst (@plant_purged_player_tx plain_uuid FriendsExample.alice "alice" (fdb FriendsExample.w1))).
  set (d2 := @purged_player FriendsExample.alice "alice" d1).
  set (w := @stmt_world plain_uuid 10 FriendsExample.edge1 0 FriendsExample.asking (mkWorld d2 (inflight FriendsExample.w1))).
  exists w, FriendsExample.alice, "alice", FriendsExample.edge1,
    (mkEdge FriendsExample.alice FriendsExample.bob FriendsExample.alice "pending" 10 None).
  split; [|split; [vm_compute; reflexivity|split; vm_compute; reflexivity]].
  eapply rtc_r; [eapply rtc_r; [eapply rtc_r; [exact FriendsExample.w1_reachable|]|]|].
  - exists None. apply (@StepPlant plain_uuid FriendsExample.alice "alice" d1). vm_compute. reflexivity.
  - exists None. apply (@StepFired plain_uuid (fun _ => false) "player-purge" d2 (mkWorld d1 (inflight FriendsExample.w1))).
    vm_compute. reflexivity.
  - exists (Some FriendsExample.alice). by apply (@StepStmt plain_uuid 10 FriendsExample.edge1 0 FriendsExample.asking
      (mkWorld d2 (inflight FriendsExample.w1))).
Qed.
