(* ===== verification/Edge.v ===== *)
(** * Edge: the internal RPC transport of [core/edge/src]

    [frame.rs], [wire.rs], [server.rs] and [client.rs]: length-prefixed frames,
    the request and response envelopes, registration and dispatch on the server,
    one call on the client, and the conversion of a transport error into an
    [opsapi::Error].  [serde_json] and [quinn] are not part of the sources.  The
    encodings are the class [Json] with the laws [JsonLaws]; what the network does
    to one call is a [Link].  A handler acts on a world [W] of the service. *)

From Stdlib Require Import Ascii.
From stdpp Require Import pretty.
From S2P Require Import Prelude Text OpsApi.
#[local] Open Scope Z_scope.

(** ** Errors *)

Inductive Error :=
| Io (m : string)
| Codec (m : string)
| FrameTooLarge (size max : Z)
| Rcgen (m : string)
| Rustls (m : string)
| Tls (m : string)
| Ca (m : string)
| Connect (m : string)
| Connection (m : string)
| Stream (m : string)
| Remote (m : string)
| UnknownMethod (m : string)
| InvalidRequest (m : string).

#[global] Instance Error_eq_dec : EqDecision Error.
Proof. solve_decision. Defined.

(** The [Display] of an error, from its [#[error(..)]] attributes. *)
Definition to_string (e : Error) : string :=
  match e with
  | Io m => "edge: io: " +:+ m
  | Codec m => "edge: json codec: " +:+ m
  | FrameTooLarge size max => "edge: frame too large: " +:+ pretty size +:+ " > " +:+ pretty max
  | Rcgen m => "edge: certificate generation: " +:+ m
  | Rustls m => "edge: rustls: " +:+ m
  | Tls m => "edge: tls config: " +:+ m
  | Ca m => "edge: dev CA: " +:+ m
  | Connect m => "edge: connect: " +:+ m
  | Connection m => "edge: connection: " +:+ m
  | Stream m => "edge: stream: " +:+ m
  | Remote m => "edge: remote error: " +:+ m
  | UnknownMethod m | InvalidRequest m => m
  end.

(** [impl From<Error> for opsapi::Error]. *)
Definition from_edge_error (e : Error) : OpsApi.Error :=
  match e with
  | UnknownMethod m => OpsApi.mkError OpsApi.NotFound m
  | InvalidRequest m => OpsApi.mkError OpsApi.Invalid m
  | other => OpsApi.mkError OpsApi.Unavailable (to_string other)
  end.

Definition UNKNOWN_METHOD_PREFIX : string := "edge: unknown method".

(** ** Frames *)

Definition MAX_FRAME : Z := Z.shiftl 16 20.

Definition u8 (z : Z) : ascii := ascii_of_N (Z.to_N (z `mod` 256)).
Definition of_u8 (c : ascii) : Z := Z.of_N (N_of_ascii c).

(** [u32::to_be_bytes] and [u32::from_be_bytes]. *)
Definition to_be_bytes (n : Z) : bytes :=
  [u8 (Z.shiftr n 24); u8 (Z.shiftr n 16); u8 (Z.shiftr n 8); u8 n].
Definition from_be_bytes (l : bytes) : Z :=
  foldl (fun acc c => Z.lor (Z.shiftl acc 8) (of_u8 c)) 0 l.

Definition size_of (b : bytes) : Z := Z.of_nat (length b).

Definition frame_bytes (b : bytes) : result Error bytes :=
  if MAX_FRAME <? size_of b then Err (FrameTooLarge (size_of b) MAX_FRAME)
  else Ok (to_be_bytes (size_of b) ++ b).

(** What a read sees: the bytes that arrive, then why no more do.  [quinn]'s
    errors carry their [Display]. *)
Inductive QuinnReadError := ReadConnectionLost (m : string) | OtherReadError (m : string).
Inductive ReadExactError := FinishedEarly (m : string) | ReadError (e : QuinnReadError).
Inductive WriteError := WriteConnectionLost (m : string) | OtherWriteError (m : string).

Definition read_message (e : ReadExactError) : string :=
  match e with FinishedEarly m | ReadError (ReadConnectionLost m) | ReadError (OtherReadError m) => m end.
Definition write_message (e : WriteError) : string :=
  match e with WriteConnectionLost m | OtherWriteError m => m end.

Record RecvStream := mkRecv { rs_data : bytes; rs_end : ReadExactError }.

Definition read_exact (n : nat) : ST RecvStream ReadExactError bytes := fun s =>
  if bool_decide (n <= length (rs_data s))%nat
  then (mkRecv (drop n (rs_data s)) (rs_end s), Ok (take n (rs_data s)))
  else (mkRecv [] (rs_end s), Err (rs_end s)).

Definition read_frame_max (max : Z) : ST RecvStream Error bytes :=
  len_buf ← st_map_err (fun e => Io (read_message e)) (read_exact 4);
  let n := from_be_bytes len_buf in
  if max <? n then fail (FrameTooLarge n max) else
  st_map_err (fun e => Io (read_message e)) (read_exact (Z.to_nat n)).

Definition read_frame : ST RecvStream Error bytes := read_frame_max MAX_FRAME.

(** ** Envelopes *)

Record Request := mkRequest { req_method : string; req_identity : option string; req_payload : bytes }.

Inductive ResponseCode := CodeUnknownMethod | CodeInvalidRequest.

Record Response := mkResponse {
  resp_ok : bool;
  resp_payload : option bytes;
  resp_error : option string;
  resp_code : option ResponseCode;
}.

(** [serde_json] as the transport uses it: [raw_value] is the text of a
    [RawValue] parsed from bytes. *)
Class Json := {
  raw_value : bytes → result string bytes;
  utf8_lossy : bytes → bytes;
  request_to_vec : Request → result string bytes;
  request_from_slice : bytes → result string Request;
  response_to_vec : Response → result string bytes;
  response_from_slice : bytes → result string Response;
  str_debug : string → string;
}.

Definition null_text : bytes := to_bytes "null".

(** An [Option<Box<RawValue>>] written as [null] reads back absent. *)
Definition null_absent (r : Response) : Response :=
  mkResponse (resp_ok r) (p ← resp_payload r; if bool_decide (p = null_text) then None else Some p)
    (resp_error r) (resp_code r).

Class JsonLaws `{Json} := {
  raw_value_stable : ∀ b q, raw_value b = Ok q → raw_value q = Ok q;
  raw_value_null : raw_value null_text = Ok null_text;
  raw_value_utf8 : ∀ b q, raw_value b = Ok q → utf8_lossy b = b;
  request_roundtrip : ∀ r b, raw_value (req_payload r) = Ok (req_payload r) →
    request_to_vec r = Ok b → request_from_slice b = Ok r;
  response_roundtrip : ∀ r b, (∀ p, resp_payload r = Some p → raw_value p = Ok p) →
    response_to_vec r = Ok b → response_from_slice b = Ok (null_absent r);
  request_encodes : ∀ r, is_Some (result_ok (request_to_vec r));
  response_encodes : ∀ r, is_Some (result_ok (response_to_vec r));
}.

Definition err_response (m : string) : Response := mkResponse false None (Some m) None.
Definition invalid_request_response (m : string) : Response :=
  mkResponse false None (Some m) (Some CodeInvalidRequest).
Definition unknown_method_response (m : string) : Response :=
  mkResponse false None (Some m) (Some CodeUnknownMethod).

Section Transport.
Context `{Json} {W : Type}.

Definition ok_response (b : bytes) : Response :=
  match b with
  | [] => mkResponse true None None None
  | _ =>
      match raw_value (utf8_lossy b) with
      | Ok raw => mkResponse true (Some raw) None None
      | Err _ => err_response "edge: handler produced non-JSON response"
      end
  end.

(** ** The server *)

Inductive HandlerError := InvalidRequestBody (m : string) | OtherError (m : string).

Definition handler_error_string (e : HandlerError) : string :=
  match e with InvalidRequestBody m => "edge: invalid request body: " +:+ m | OtherError m => m end.

(** A handler's future returns or panics; a panic's payload is a string or not. *)
Inductive Outcome := Returns (r : result HandlerError bytes) | Panics (p : option string).

Definition Handler : Type := bytes → W → W * Outcome.
Definition IdentityHandler : Type := option string → bytes → W → W * Outcome.
Definition ForwardHandler : Type := string → bytes → W → W * Outcome.

Record Server := mkServer {
  handlers : gmap string Handler;
  id_handlers : gmap string IdentityHandler;
  prefixes : list (string * ForwardHandler);
}.

Definition new_server : Server := mkServer ∅ ∅ [].

(** [assert_unregistered]: [None] is the panic. *)
Definition registered (s : Server) (method : string) : bool :=
  bool_decide (is_Some (handlers s !! method)) || bool_decide (is_Some (id_handlers s !! method)).

Definition handle (method : string) (h : Handler) (s : Server) : option Server :=
  if registered s method then None
  else Some (mkServer (<[method := h]> (handlers s)) (id_handlers s) (prefixes s)).

Definition handle_identity (method : string) (h : IdentityHandler) (s : Server) : option Server :=
  if registered s method then None
  else Some (mkServer (handlers s) (<[method := h]> (id_handlers s)) (prefixes s)).

Definition handle_prefix (prefix : string) (fwd : ForwardHandler) (s : Server) : Server :=
  mkServer (handlers s) (id_handlers s) (prefixes s ++ [(prefix, fwd)]).

Definition DESCRIBE_METHOD : string := "__describe".

(** [register_describe]; the manifest's bytes are computed once, at registration. *)
Definition register_describe (manifest : bytes) (s : Server) : option Server :=
  handle DESCRIBE_METHOD (fun _ w => (w, Returns (Ok manifest))) s.

(** One round of the loop of [longest_prefix]. *)
Definition prefix_step (method : string) (acc : option ForwardHandler * Z) (x : string * ForwardHandler)
  : option ForwardHandler * Z :=
  let '(best, best_len) := acc in
  let '(prefix, fwd) := x in
  if starts_with prefix method && (best_len <? Z.of_nat (String.length prefix))
  then (Some fwd, Z.of_nat (String.length prefix)) else (best, best_len).

Definition longest_prefix (s : Server) (method : string) : option ForwardHandler :=
  fst (foldl (prefix_step method) (None, -1) (prefixes s)).

Definition panic_message (p : option string) : string := default "unknown panic" p.

Definition run_caught (run : W * Outcome) : W * result HandlerError bytes :=
  match run with
  | (w, Returns r) => (w, r)
  | (w, Panics p) => (w, Err (OtherError ("edge: handler panic: " +:+ panic_message p)))
  end.

Definition finish_dispatch (run : W * result HandlerError bytes) : W * Response :=
  match run with
  | (w, Ok b) => (w, ok_response b)
  | (w, Err (InvalidRequestBody m)) => (w, invalid_request_response (handler_error_string (InvalidRequestBody m)))
  | (w, Err e) => (w, err_response (handler_error_string e))
  end.

Definition dispatch (s : Server) (req_bytes : bytes) (w : W) : W * Response :=
  match request_from_slice req_bytes with
  | Err _ => (w, err_response "edge: malformed request envelope")
  | Ok req =>
      let payload := req_payload req in
      match handlers s !! req_method req with
      | Some h => finish_dispatch (run_caught (h payload w))
      | None =>
          match id_handlers s !! req_method req with
          | Some h => finish_dispatch (run_caught (h (req_identity req) payload w))
          | None =>
              match longest_prefix s (req_method req) with
              | Some fwd => finish_dispatch (run_caught (fwd (req_method req) payload w))
              | None => (w, unknown_method_response (UNKNOWN_METHOD_PREFIX +:+ " " +:+ str_debug (req_method req)))
              end
          end
      end
  end.

Definition encode_failed : bytes := to_bytes (String.concat (String "034" EmptyString)
  ["{"; "ok"; ":false,"; "error"; ":"; "edge: response encode failed"; "}"]).

(** [serve_stream]: what the server sends before it finishes the stream.  A frame
    that is malformed or not read [in_time] is dropped; so is a response too large
    to frame. *)
Definition serve_stream (s : Server) (in_time : bool) (recv : RecvStream) (w : W) : W * bytes :=
  if in_time then
    match snd (read_frame recv) with
    | Err _ => (w, [])
    | Ok req_bytes =>
        let '(w', resp) := dispatch s req_bytes w in
        let resp_bytes := match response_to_vec resp with Ok b => b | Err _ => encode_failed end in
        (w', match frame_bytes resp_bytes with Ok framed => framed | Err _ => [] end)
    end
  else (w, []).

(** ** The client *)

(** What happens to one call on the wire: whether a stream opens, how much of the
    request reaches the peer and how its read ends, whether the peer reads it in
    time, whether the client's write and finish succeed (they may fail although
    the peer got everything), and how much of the reply comes back; [None] is all
    of it. *)
Record Link := mkLink {
  l_open : option string;
  l_arrives : option nat;
  l_cut : ReadExactError;
  l_in_time : bool;
  l_write : option WriteError;
  l_finish : option string;
  l_returns : option nat;
  l_lost : ReadExactError;
}.

Definition cut (k : option nat) (b : bytes) : bytes := match k with Some k => take k b | None => b end.

Definition map_write_error (e : WriteError) : Error :=
  match e with
  | WriteConnectionLost _ => Connection (write_message e)
  | _ => Stream (write_message e)
  end.

Definition map_read_error (e : ReadExactError) : Error :=
  match e with
  | ReadError (ReadConnectionLost _) => Connection (read_message e)
  | _ => Stream (read_message e)
  end.

Definition read_call_frame : ST RecvStream Error bytes :=
  len ← st_map_err map_read_error (read_exact 4);
  let size := from_be_bytes len in
  if MAX_FRAME <? size then fail (FrameTooLarge size MAX_FRAME) else
  st_map_err map_read_error (read_exact (Z.to_nat size)).

Definition raw_from_bytes (payload : bytes) : result Error bytes :=
  match payload with
  | [] => map_err Codec (raw_value null_text)
  | _ => map_err Codec (raw_value payload)
  end.

Definition check {E} (o : option E) (f : E → Error) : result Error unit :=
  match o with Some e => Err (f e) | None => Ok () end.

Definition classify (resp : Response) : result Error bytes :=
  if resp_ok resp then Ok (default [] (resp_payload resp)) else
  let m := default "" (resp_error resp) in
  Err match resp_code resp with
      | Some CodeUnknownMethod => UnknownMethod m
      | Some CodeInvalidRequest => InvalidRequest m
      | None => Remote m
      end.

(** [Client::call_raw_id] over a link to a peer. *)
Definition call_raw_id (peer : bool → RecvStream → W → W * bytes) (l : Link)
    (method : string) (identity : option string) (payload : bytes) : ST W Error bytes :=
  raw ← lift (raw_from_bytes payload);
  env_bytes ← lift (map_err Codec (request_to_vec (mkRequest method identity raw)));
  lift (check (l_open l) Connection);;
  framed ← lift (frame_bytes env_bytes);
  reply ← (fun w => let '(w', sent) := peer (l_in_time l) (mkRecv (cut (l_arrives l) framed) (l_cut l)) w in
                    (w', Ok sent));
  lift (check (l_write l) map_write_error);;
  lift (check (l_finish l) Stream);;
  resp_bytes ← lift (snd (read_call_frame (mkRecv (cut (l_returns l) reply) (l_lost l))));
  resp ← lift (map_err Codec (response_from_slice resp_bytes));
  lift (classify resp).
End Transport.
Arguments Server : clear implicits.
Arguments Handler : clear implicits.
Arguments IdentityHandler : clear implicits.
Arguments ForwardHandler : clear implicits.
