(* ===== verification/EdgeContract.v ===== *)
(** * EdgeContract: what a call over the internal transport means

    Frames round trip and a cut frame is never read as a shorter one; a server
    answers a method from one handler, by precedence; and for whatever a link does
    to a call, the client's verdict says truthfully what the peer did. *)

From Stdlib Require Import Ascii.
From S2P Require Import Prelude Text OpsApi Edge.
#[local] Open Scope Z_scope.

(** ** Big-endian lengths *)

Lemma of_u8_u8 z : of_u8 (u8 z) = z `mod` 256.
Proof.
  unfold of_u8, u8. pose proof (Z.mod_pos_bound z 256 eq_refl).
  rewrite N_ascii_embedding; lia.
Qed.

Lemma lor_shift8 a b : 0 ≤ b < 256 → Z.lor (Z.shiftl a 8) b = a * 256 + b.
Proof.
  intros Hb. assert (Z.land (Z.shiftl a 8) b = 0) as Hz.
  { apply Z.bits_inj'. intros n Hn. rewrite Z.land_spec, Z.bits_0, Z.shiftl_spec by done.
    destruct (decide (n < 8)).
    - by rewrite Z.testbit_neg_r by lia.
    - rewrite <- (Z.mod_small b (2 ^ 8)), Z.mod_pow2_bits_high by lia. by rewrite andb_false_r. }
  rewrite <- Z.lxor_lor, <- Z.add_nocarry_lxor by done. rewrite Z.shiftl_mul_pow2 by lia. lia.
Qed.

Lemma from_to_be_bytes n : 0 ≤ n < 2 ^ 32 → from_be_bytes (to_be_bytes n) = n.
Proof.
  intros Hn. unfold from_be_bytes, to_be_bytes. cbn [foldl].
  rewrite !of_u8_u8, !lor_shift8 by (apply Z.mod_pos_bound; lia).
  rewrite !Z.shiftr_div_pow2 by lia. change (2 ^ 24) with (256 * 256 * 256).
  change (2 ^ 16) with (256 * 256). change (2 ^ 8) with 256.
  rewrite <- !Z.div_div by lia. change (2 ^ 32) with (256 * 256 * 256 * 256) in Hn.
  pose proof (Z.div_mod n 256 ltac:(lia)). pose proof (Z.div_mod (n / 256) 256 ltac:(lia)).
  pose proof (Z.div_mod (n / 256 / 256) 256 ltac:(lia)).
  rewrite (Z.mod_small (n / 256 / 256 / 256)); [lia|].
  split; [by repeat apply Z.div_pos; lia|]. repeat (apply Z.div_lt_upper_bound; [lia|]). lia.
Qed.

(** ** Frames *)

Lemma frame_bytes_ok b f : frame_bytes b = Ok f → size_of b ≤ MAX_FRAME ∧ f = to_be_bytes (size_of b) ++ b.
Proof. unfold frame_bytes. case_match eqn:E; [done|]. intros [= <-]. apply Z.ltb_ge in E. done. Qed.

(** Both readers of a frame, which differ in the error they report. *)
Definition read_with (me : ReadExactError → Error) (max : Z) : ST RecvStream Error bytes :=
  len ← st_map_err me (read_exact 4);
  let n := from_be_bytes len in
  if max <? n then fail (FrameTooLarge n max) else st_map_err me (read_exact (Z.to_nat n)).

Lemma length_header n : length (to_be_bytes n) = 4%nat.
Proof. done. Qed.

Lemma from_header b : size_of b ≤ MAX_FRAME → from_be_bytes (to_be_bytes (size_of b)) = size_of b.
Proof. intros Hb. apply from_to_be_bytes. change MAX_FRAME with 16777216 in Hb. unfold size_of in *. lia. Qed.

Lemma read_with_app me max b f rest e :
  frame_bytes b = Ok f →
  read_with me max (mkRecv (f ++ rest) e) =
    if max <? size_of b then (mkRecv (b ++ rest) e, Err (FrameTooLarge (size_of b) max))
    else (mkRecv rest e, Ok b).
Proof.
  intros [Hs ->]%frame_bytes_ok. unfold read_with, mbind, ST_bind, st_map_err, read_exact at 1.
  cbn [rs_data rs_end]. rewrite bool_decide_true by (rewrite !length_app, length_header; lia).
  rewrite <- app_assoc, take_app_length', drop_app_length' by done. cbn [map_err].
  rewrite from_header by done. case_match; [done|]. unfold read_exact. cbn [rs_data rs_end].
  unfold size_of. rewrite Nat2Z.id, bool_decide_true by (rewrite length_app; lia).
  by rewrite take_app_length, drop_app_length.
Qed.

Lemma read_with_cut me b f k e :
  frame_bytes b = Ok f →
  snd (read_with me MAX_FRAME (mkRecv (take k f) e)) = if bool_decide (length f <= k)%nat then Ok b else Err (me e).
Proof.
  intros Hf. case_bool_decide as Hk.
  - rewrite take_ge by done. pose proof (frame_bytes_ok _ _ Hf) as [Hs _].
    rewrite <- (app_nil_r f), (read_with_app me MAX_FRAME b f [] e Hf). by rewrite (proj2 (Z.ltb_ge _ _)) by done.
  - apply frame_bytes_ok in Hf as [Hs ->]. rewrite length_app, length_header in Hk.
    unfold read_with, mbind, ST_bind, st_map_err, read_exact at 1. cbn [rs_data rs_end].
    rewrite length_take, length_app, length_header. case_bool_decide; [|done].
    rewrite take_take, take_app_le, take_ge by (rewrite ?length_header; lia). cbn [map_err].
    rewrite from_header by done. rewrite (proj2 (Z.ltb_ge _ _)) by done.
    unfold read_exact. cbn [rs_data rs_end]. rewrite bool_decide_false; [done|].
    rewrite length_drop, length_take, length_app, length_header. unfold size_of. lia.
Qed.

(** A frame round trips from any stream it starts, leaving what follows it; a
    reader with a tighter cap refuses a larger frame on its header alone; a stream
    that ends inside a frame is an error, never a shorter message; and a message is
    refused before anything is written exactly when it exceeds the cap. *)
Theorem frame_roundtrip b f rest max k e :
  frame_bytes b = Ok f →
  size_of f = 4 + size_of b
  ∧ read_frame_max max (mkRecv (f ++ rest) e) =
      (if max <? size_of b then (mkRecv (b ++ rest) e, Err (FrameTooLarge (size_of b) max))
       else (mkRecv rest e, Ok b))
  ∧ ((k < length f)%nat → snd (read_frame (mkRecv (take k f) e)) = Err (Io (read_message e)))
  ∧ (∀ b', is_Some (result_ok (frame_bytes b')) ↔ size_of b' ≤ MAX_FRAME).
Proof.
  intros Hf. repeat split.
  - apply frame_bytes_ok in Hf as [_ ->]. unfold size_of. rewrite length_app, length_header. lia.
  - apply (read_with_app (fun e => Io (read_message e)) max b f rest e Hf).
  - intros Hk. change read_frame with (read_with (fun e => Io (read_message e)) MAX_FRAME).
    rewrite (read_with_cut _ b f k e Hf). by rewrite bool_decide_false by lia.
  - unfold frame_bytes. intros [x Hx]. case_match eqn:E; [done|]. by apply Z.ltb_ge in E.
  - unfold frame_bytes. intros Hb%Z.ltb_ge. rewrite Hb. by eexists.
Qed.

(** ** Dispatch *)

Section Calls.
Context `{JsonLaws} {W : Type}.
Implicit Types (s : Server W) (w : W).

(** The handler of a method, as the one shape all three tables fit. *)
Definition handler_for s (method : string) : option (IdentityHandler W) :=
  match (handlers s !! method : option (Handler W)) with
  | Some h => Some (fun _ => h)
  | None =>
      match id_handlers s !! method with
      | Some h => Some h
      | None => (fun fwd : ForwardHandler W => fun _ => fwd method) <$> longest_prefix s method
      end
  end.

Lemma dispatch_handler s req b w :
  request_from_slice b = Ok req →
  dispatch s b w =
    match handler_for s (req_method req) with
    | Some h => finish_dispatch (run_caught (h (req_identity req) (req_payload req) w))
    | None => (w, unknown_method_response (UNKNOWN_METHOD_PREFIX +:+ " " +:+ str_debug (req_method req)))
    end.
Proof.
  intros E. unfold dispatch, handler_for. rewrite E.
  destruct (handlers s !! _); [done|]. destruct (id_handlers s !! _); [done|]. by destruct (longest_prefix s _).
Qed.

(** What the client makes of a handler's outcome. *)
Definition answer (o : Outcome) : result Error bytes :=
  match o with
  | Returns (Ok []) => Ok []
  | Returns (Ok b) =>
      match raw_value (utf8_lossy b) with
      | Ok q => Ok (if bool_decide (q = null_text) then [] else q)
      | Err _ => Err (Remote "edge: handler produced non-JSON response")
      end
  | Returns (Err (InvalidRequestBody m)) => Err (InvalidRequest ("edge: invalid request body: " +:+ m))
  | Returns (Err (OtherError m)) => Err (Remote m)
  | Panics p => Err (Remote ("edge: handler panic: " +:+ panic_message p))
  end.

Definition verdict s (method : string) (identity : option string) (q : bytes) w : W * result Error bytes :=
  match handler_for s method with
  | Some h => let '(w', o) := h identity q w in (w', answer o)
  | None => (w, Err (UnknownMethod (UNKNOWN_METHOD_PREFIX +:+ " " +:+ str_debug method)))
  end.

Definition payload_raw (r : Response) : Prop := ∀ p, resp_payload r = Some p → raw_value p = Ok p.

Lemma ok_response_raw b : payload_raw (ok_response b).
Proof.
  unfold ok_response. destruct b as [|c b]; [done|]. intros p. case_match eqn:E; [|done].
  intros [= <-]. by eapply raw_value_stable.
Qed.

Lemma finish_dispatch_answer (run : W * Outcome) :
  let '(w', resp) := finish_dispatch (run_caught run) in
  w' = run.1 ∧ payload_raw resp ∧ classify (null_absent resp) = answer run.2.
Proof.
  destruct run as [w [[b|[m|m]]|p]]; simpl; try done. split; [done|]. split; [apply ok_response_raw|].
  unfold ok_response. destruct b as [|c b]; [done|]. case_match eqn:E; [|done]. unfold null_absent, classify. simpl.
  case_bool_decide; done.
Qed.

Lemma dispatch_verdict s req b w :
  request_from_slice b = Ok req →
  let '(w', resp) := dispatch s b w in
  payload_raw resp ∧
  (w', classify (null_absent resp)) = verdict s (req_method req) (req_identity req) (req_payload req) w.
Proof.
  intros E. rewrite (dispatch_handler s req b w E). unfold verdict.
  destruct (handler_for s _) as [h|]; [|done].
  pose proof (finish_dispatch_answer (h (req_identity req) (req_payload req) w)) as Hf.
  destruct (finish_dispatch _) as [w' resp], (h _ _ _) as [w1 o]. simpl in Hf. destruct Hf as (-> & ? & <-). done.
Qed.

(** ** Calls *)

(** The errors with which a peer answered, as opposed to faults of the transport. *)
Definition peer_answered (e : Error) : bool :=
  match e with Remote _ | UnknownMethod _ | InvalidRequest _ => true | _ => false end.

Definition transport_fault (r : result Error bytes) : Prop := ∃ e, r = Err e ∧ peer_answered e = false.

Lemma map_read_error_fault e : peer_answered (map_read_error e) = false.
Proof. by destruct e as [m|[m|m]]. Qed.

Lemma map_write_error_fault e : peer_answered (map_write_error e) = false.
Proof. by destruct e. Qed.

(** The bytes of a framed reply, nothing when it does not fit. *)
Definition framed_reply (b : bytes) : bytes := match frame_bytes b with Ok f => f | Err _ => [] end.

(** Whether a link that passes [k] bytes passes all of [f]. *)
Definition whole (k : option nat) (f : bytes) : bool :=
  match k with Some k => bool_decide (length f <= k)%nat | None => true end.

Lemma read_cut me b f k e :
  frame_bytes b = Ok f → snd (read_with me MAX_FRAME (mkRecv (cut k f) e)) = if whole k f then Ok b else Err (me e).
Proof.
  intros Hf. destruct k as [k|]; simpl; [by apply read_with_cut|].
  rewrite <- (take_ge f (length f)) by done. rewrite (read_with_cut me b f _ e Hf). by rewrite bool_decide_true.
Qed.

Lemma read_reply b k e :
  let r := snd (read_call_frame (mkRecv (cut k (framed_reply b)) e)) in
  r = Ok b ∧ framed_reply b ≠ [] ∨ transport_fault r.
Proof.
  change read_call_frame with (read_with map_read_error MAX_FRAME). unfold framed_reply.
  destruct (frame_bytes b) as [f|x] eqn:E; simpl.
  - rewrite (read_cut _ b f k e E). destruct (whole k f); [left; split; [done|]|].
    { by apply frame_bytes_ok in E as [_ ->]. }
    right. eexists. split; [done|]. apply map_read_error_fault.
  - right. assert (cut k [] = []) as -> by (by destruct k; simpl; rewrite ?take_nil).
    eexists. split; [done|]. apply map_read_error_fault.
Qed.

Lemma serve_stream_cut s t f b k e w req :
  frame_bytes b = Ok f → request_from_slice b = Ok req →
  ∃ resp rb, serve_stream s t (mkRecv (cut k f) e) w =
    (if t && whole k f
     then ((verdict s (req_method req) (req_identity req) (req_payload req) w).1, framed_reply rb) else (w, []))
    ∧ response_to_vec (dispatch s b w).2 = Ok rb ∧ response_from_slice rb = Ok (null_absent resp)
    ∧ classify (null_absent resp) = (verdict s (req_method req) (req_identity req) (req_payload req) w).2.
Proof.
  intros Hf Hr. pose proof (dispatch_verdict s req b w Hr) as Hd.
  destruct (dispatch s b w) as [w' resp] eqn:Ed. destruct Hd as [Hp Hv].
  destruct (response_encodes resp) as [rb Hrb]. destruct (response_to_vec resp) as [rb'|] eqn:Ev; [|done].
  injection Hrb as ->. exists resp, rb. rewrite <- Hv. split_and!; [|done|by eapply response_roundtrip|done].
  unfold serve_stream. destruct t; [|done]. simpl.
  change read_frame with (read_with (fun e => Io (read_message e)) MAX_FRAME).
  rewrite (read_cut _ b f k e Hf). destruct (whole k f); [|done]. rewrite Ed, Ev. done.
Qed.

Lemma raw_from_bytes_stable p q : raw_from_bytes p = Ok q → raw_value q = Ok q.
Proof.
  unfold raw_from_bytes, map_err. destruct p as [|c p]; case_match eqn:E; try done; intros [= <-];
    by eapply raw_value_stable.
Qed.

Lemma raw_from_bytes_fault p e : raw_from_bytes p = Err e → peer_answered e = false.
Proof. unfold raw_from_bytes, map_err. destruct p; case_match; try done; by intros [= <-]. Qed.

(** What a call leaves behind: the handler did not run, or ran once. *)
Definition ran_at_most_once s method identity payload w w' : Prop :=
  w' = w ∨ ∃ q, raw_from_bytes payload = Ok q ∧ w' = (verdict s method identity q w).1.

(** Everything after the peer has done its part. *)
Lemma reply_phase l sent w rb :
  sent = [] ∨ sent = framed_reply rb →
  ∀ w' r, (lift (check (l_write l) map_write_error);; lift (check (l_finish l) Stream);;
     resp_bytes ← lift (snd (read_call_frame (mkRecv (cut (l_returns l) sent) (l_lost l))));
     resp ← lift (map_err Codec (response_from_slice resp_bytes));
     lift (classify resp)) w = (w', r) →
  w' = w ∧ (transport_fault r ∨
            sent ≠ [] ∧ ∃ resp, response_from_slice rb = Ok resp ∧ r = classify resp).
Proof.
  intros Hs w' r. unfold mbind, ST_bind, lift.
  destruct (l_write l) as [e|]; simpl.
  { intros [= <- <-]. split; [done|]. left. eexists. split; [done|]. apply map_write_error_fault. }
  destruct (l_finish l) as [m|]; simpl.
  { intros [= <- <-]. split; [done|]. left. by eexists. }
  destruct Hs as [-> | ->].
  { assert (cut (l_returns l) [] = []) as -> by (by destruct (l_returns l); simpl; rewrite ?take_nil).
    simpl. intros [= <- <-]. split; [done|]. left. eexists. split; [done|]. apply map_read_error_fault. }
  destruct (read_reply rb (l_returns l) (l_lost l)) as [[-> Hne] | (e & -> & Hp)]; simpl.
  - destruct (response_from_slice rb) as [resp|m]; simpl; intros [= <- <-]; (split; [done|]).
    + right. eauto.
    + left. by eexists.
  - intros [= <- <-]. split; [done|]. left. by eexists.
Qed.

Lemma call_outcome s l method identity payload w w' r :
  call_raw_id (serve_stream s) l method identity payload w = (w', r) →
  (∃ q, raw_from_bytes payload = Ok q ∧ (w', r) = verdict s method identity q w)
  ∨ transport_fault r ∧ ran_at_most_once s method identity payload w w'.
Proof.
  unfold call_raw_id. intros Hrun. unfold mbind at 1, ST_bind at 1, lift at 1 in Hrun.
  destruct (raw_from_bytes payload) as [q|e] eqn:Eq.
  2:{ injection Hrun as <- <-. right. split; [|by left]. eexists. split; [done|]. by eapply raw_from_bytes_fault. }
  unfold mbind at 1, ST_bind at 1, lift at 1 in Hrun.
  destruct (request_to_vec (mkRequest method identity q)) as [b|e] eqn:Eb; simpl in Hrun.
  2:{ injection Hrun as <- <-. right. split; [by eexists|by left]. }
  pose proof (request_roundtrip (mkRequest method identity q) b (raw_from_bytes_stable _ _ Eq) Eb) as Hr.
  unfold mbind at 1, ST_bind at 1, lift at 1 in Hrun.
  destruct (l_open l) as [m|]; simpl in Hrun.
  { injection Hrun as <- <-. right. split; [by eexists|by left]. }
  unfold mbind at 1, ST_bind at 1, lift at 1 in Hrun.
  destruct (frame_bytes b) as [f|e] eqn:Ef.
  2:{ injection Hrun as <- <-. right. split; [|by left]. eexists. split; [done|].
      unfold frame_bytes in Ef. case_match; naive_solver. }
  unfold mbind at 1, ST_bind at 1 in Hrun.
  destruct (serve_stream_cut s (l_in_time l) f b (l_arrives l) (l_cut l) w _ Ef Hr) as (resp & rb & Es & _ & Hrs & Hc).
  rewrite Es in Hrun. simpl in Hrs, Hc, Hrun. destruct (l_in_time l && _); simpl in Hrun.
  - apply (reply_phase l _ _ rb) in Hrun as [-> [Ht|(_ & resp' & Hr' & ->)]]; [..|by right].
    + right. split; [done|]. right. by exists q.
    + left. exists q. split; [done|]. rewrite Hrs in Hr'. injection Hr' as <-. rewrite Hc. by destruct (verdict _ _ _ _ _).
  - apply (reply_phase l _ _ rb) in Hrun as [-> [Ht|(Hs & resp' & Hr' & ->)]]; [..|by left].
    + right. split; [done|by left].
    + done.
Qed.

(** C25: whatever the link does to a call (cut it anywhere, fail the client's write
    after the peer got everything, lose the reply) the verdict is truthful: bytes
    are what the method's handler returned, not-found means the peer has no handler
    and nothing ran, invalid means the handler refused the request body, and every
    other failure is unavailable.  The handler runs at most once. *)
Theorem edge_call_truthful s l method identity payload w w' r :
  call_raw_id (serve_stream s) l method identity payload w = (w', r) →
  ran_at_most_once s method identity payload w w' ∧
  match r with
  | Ok b => ∃ h q a, handler_for s method = Some h ∧ raw_from_bytes payload = Ok q
                     ∧ h identity q w = (w', Returns (Ok a)) ∧ answer (Returns (Ok a)) = Ok b
  | Err e =>
      match OpsApi.status (from_edge_error e) with
      | NotFound => handler_for s method = None ∧ w' = w
      | Invalid => ∃ h q m, handler_for s method = Some h ∧ raw_from_bytes payload = Ok q
                            ∧ h identity q w = (w', Returns (Err (InvalidRequestBody m)))
      | Unavailable => True
      | _ => False
      end
  end.
Proof.
  intros [(q & Hq & Hv)|[(e & -> & Hp) Hran]]%call_outcome.
  2:{ split; [done|]. by destruct e. }
  split. { right. exists q. by rewrite <- Hv. }
  unfold verdict in Hv. destruct (handler_for s method) as [h|] eqn:Eh; [|by injection Hv as -> ->].
  destruct (h identity q w) as [w1 o] eqn:Eo. injection Hv as -> Hr.
  destruct o as [[a|[m|m]]|pn].
  - destruct r as [b|e]; [by exists h, q, a|].
    simpl in Hr. destruct a as [|c a]; [done|]. case_match; [done|]. by injection Hr as ->.
  - subst r. by exists h, q, m.
  - by subst r.
  - by subst r.
Qed.

(** A link that loses nothing. *)
Definition lossless (l : Link) : Prop :=
  l_open l = None ∧ l_write l = None ∧ l_finish l = None ∧ l_in_time l = true
  ∧ l_arrives l = None ∧ l_returns l = None.

(** Over a link that loses nothing, a call whose envelopes fit a frame answers
    exactly what the method's handler returns locally, and leaves exactly what it
    leaves. *)
Theorem edge_call_delivers s l method identity payload q b w :
  lossless l → raw_from_bytes payload = Ok q →
  request_to_vec (mkRequest method identity q) = Ok b → size_of b ≤ MAX_FRAME →
  (∀ rb, response_to_vec (dispatch s b w).2 = Ok rb → size_of rb ≤ MAX_FRAME) →
  call_raw_id (serve_stream s) l method identity payload w = verdict s method identity q w.
Proof.
  intros (Ho & Hw & Hfi & Ht & Ha & Hre) Hq Hb Hsz Hrsz.
  pose proof (request_roundtrip (mkRequest method identity q) b (raw_from_bytes_stable _ _ Hq) Hb) as Hr.
  destruct (frame_bytes b) as [f|e] eqn:Ef.
  2:{ unfold frame_bytes in Ef. by rewrite (proj2 (Z.ltb_ge _ _)) in Ef. }
  destruct (serve_stream_cut s (l_in_time l) f b (l_arrives l) (l_cut l) w _ Ef Hr) as (resp & rb & Es & Hrb & Hrs & Hc).
  assert (frame_bytes rb = Ok (to_be_bytes (size_of rb) ++ rb)) as Erb.
  { unfold frame_bytes. by rewrite (proj2 (Z.ltb_ge _ _)) by auto. }
  unfold call_raw_id, mbind, ST_bind, lift. rewrite Hq, Hb, Ho, Hw, Hfi. simpl. rewrite Ef, Es, Ht, Ha.
  simpl in Hc |- *. change read_call_frame with (read_with map_read_error MAX_FRAME).
  unfold framed_reply. rewrite Erb, (read_cut _ rb _ _ _ Erb), Hre. simpl. rewrite Hrs. simpl. rewrite Hc. by destruct (verdict _ _ _ _ _).
Qed.

(** ** Registration *)

Definition plen (x : string * ForwardHandler W) : Z := Z.of_nat (String.length x.1).
Definition covers (method : string) (x : string * ForwardHandler W) : Prop := starts_with x.1 method = true.

(** The entry [longest_prefix] settles on: covering, no shorter than any other
    covering entry, and registered before those of its length. *)
Definition is_longest (l : list (string * ForwardHandler W)) method i x : Prop :=
  l !! i = Some x ∧ covers method x ∧
  ∀ j y, l !! j = Some y → covers method y → plen y < plen x ∨ plen y = plen x ∧ (i <= j)%nat.

Lemma longest_scan method l :
  (foldl (prefix_step method) (None, -1) l = (None, -1) ∧ ∀ y, y ∈ l → ¬ covers method y)
  ∨ ∃ i x, is_longest l method i x ∧ foldl (prefix_step method) (None, -1) l = (Some x.2, plen x).
Proof.
  induction l as [|z l IH] using rev_ind; [left; split; [done|]; set_solver|].
  rewrite foldl_app. simpl. destruct z as [p f]. unfold is_longest, covers, plen in *.
  destruct (starts_with p method) eqn:Ep.
  - right. destruct IH as [[-> Hno]|(i & x & (Hi & Hx & Hmax) & ->)]; simpl; rewrite Ep.
    + exists (length l), (p, f). rewrite (proj2 (Z.ltb_lt _ _)) by lia. split; [|done].
      split_and!; [by rewrite lookup_app_r, Nat.sub_diag by lia|done|].
      intros j y [Hj|[Hlen Hj]]%lookup_app_Some Hy; [exfalso; apply list_elem_of_lookup_2 in Hj; by eapply Hno|].
      apply list_lookup_singleton_Some in Hj as [_ <-]. right. split; [done|lia].
    + destruct (decide (Z.of_nat (String.length x.1) < Z.of_nat (String.length p))) as [Hlt|Hge].
      * exists (length l), (p, f). rewrite (proj2 (Z.ltb_lt _ _)) by done. split; [|done].
        split_and!; [by rewrite lookup_app_r, Nat.sub_diag by lia|done|].
        intros j y [Hj|[Hlen Hj]]%lookup_app_Some Hy; [|apply list_lookup_singleton_Some in Hj as [_ <-]; right; split; [done|lia]].
        left. simpl. destruct (Hmax j y Hj Hy); lia.
      * exists i, x. rewrite (proj2 (Z.ltb_ge _ _)) by lia. split; [|done].
        split_and!; [by apply lookup_app_l_Some|done|].
        intros j y [Hj|[Hlen Hj]]%lookup_app_Some Hy; [by apply Hmax|].
        apply list_lookup_singleton_Some in Hj as [_ <-]. apply lookup_lt_Some in Hi. simpl. lia.
  - destruct IH as [[-> Hno]|(i & x & (Hi & Hx & Hmax) & ->)]; simpl; rewrite Ep; [left|right].
    + split; [done|]. intros y [Hy|Hy]%elem_of_app; [by apply Hno|]. apply list_elem_of_singleton in Hy as ->. simpl. congruence.
    + exists i, x. split; [|done]. split_and!; [by apply lookup_app_l_Some|done|].
      intros j y [Hj|[Hlen Hj]]%lookup_app_Some Hy; [by apply Hmax|].
      apply list_lookup_singleton_Some in Hj as [_ <-]. simpl in Hy. congruence.
Qed.

(** A request is served by the exact handler of its method if there is one, else
    by the identity handler, else by the longest registered prefix of its name, the
    first registered among equals, else by nobody.  A method name is registered at
    most once over both exact tables, and a later prefix never displaces it. *)
Theorem dispatch_precedence s method :
  (∀ h : Handler W, handlers s !! method = Some h → handler_for s method = Some (fun _ => h))
  ∧ (handlers s !! method = None → ∀ h, id_handlers s !! method = Some h → handler_for s method = Some h)
  ∧ (registered s method = false →
      match handler_for s method with
      | Some h => ∃ i x, is_longest (prefixes s) method i x ∧ h = fun _ => x.2 method
      | None => ∀ x, x ∈ prefixes s → ¬ covers method x
      end)
  ∧ (∀ h, is_Some (handle method h s) ↔ registered s method = false)
  ∧ (∀ h, is_Some (handle_identity method h s) ↔ registered s method = false)
  ∧ (∀ p fwd, registered s method = true → handler_for (handle_prefix p fwd s) method = handler_for s method).
Proof.
  split_and!.
  - intros h E. unfold handler_for. by rewrite E.
  - intros E1 h E2. unfold handler_for. by rewrite E1, E2.
  - unfold registered, handler_for, longest_prefix. intros [Hn1 Hn2]%orb_false_iff.
    apply bool_decide_eq_false in Hn1, Hn2. apply eq_None_not_Some in Hn1, Hn2. rewrite Hn1, Hn2.
    destruct (longest_scan method (prefixes s)) as [[E Hno]|(i & x & Hl & E)]; rewrite E; simpl; eauto.
  - intros h. unfold handle. destruct (registered s method); split; done.
  - intros h. unfold handle_identity. destruct (registered s method); split; done.
  - intros p fwd. unfold registered, handler_for. simpl. destruct (handlers s !! method); [done|].
    by destruct (id_handlers s !! method).
Qed.
End Calls.

(** ** An instance

    A small self-delimiting encoding: every byte of a field is marked, every field
    is closed. *)

Module EdgeExample.
#[local] Open Scope char_scope.

Definition enc (l : bytes) : bytes := flat_map (fun c => ["b"; c]) l ++ ["e"].

Fixpoint dec (l : bytes) : option (bytes * bytes) :=
  match l with
  | "b" :: c :: l' => match dec l' with Some (x, rest) => Some (c :: x, rest) | None => None end
  | "e" :: rest => Some ([], rest)
  | _ => None
  end.

Lemma dec_enc l rest : dec (enc l ++ rest) = Some (l, rest).
Proof.
  unfold enc. rewrite <- app_assoc. induction l as [|c l IH]; [done|]. simpl in *. by rewrite IH.
Qed.

Definition enc_opt (o : option bytes) : bytes :=
  match o with Some l => "s" :: enc l | None => ["n"] end.
Definition dec_opt (l : bytes) : option (option bytes * bytes) :=
  match l with
  | "s" :: l' => match dec l' with Some (x, rest) => Some (Some x, rest) | None => None end
  | "n" :: rest => Some (None, rest)
  | _ => None
  end.

Lemma dec_enc_opt o rest : dec_opt (enc_opt o ++ rest) = Some (o, rest).
Proof. destruct o as [l|]; simpl; [by rewrite dec_enc|done]. Qed.

Definition enc_code (c : option ResponseCode) : ascii :=
  match c with None => "0" | Some CodeUnknownMethod => "1" | Some CodeInvalidRequest => "2" end.
Definition dec_code (c : ascii) : option ResponseCode :=
  match c with "1" => Some CodeUnknownMethod | "2" => Some CodeInvalidRequest | _ => None end.

Definition enc_request (r : Request) : bytes :=
  enc (to_bytes (req_method r)) ++ enc_opt (to_bytes <$> req_identity r) ++ enc (req_payload r).
Definition dec_request (l : bytes) : option Request :=
  match dec l with
  | Some (m, l1) => match dec_opt l1 with
                    | Some (i, l2) => match dec l2 with
                                      | Some (p, []) => Some (mkRequest (of_bytes m) (of_bytes <$> i) p)
                                      | _ => None
                                      end
                    | None => None
                    end
  | None => None
  end.

Definition enc_response (r : Response) : bytes :=
  (if resp_ok r then "t" else "f") :: enc_code (resp_code r) ::
  enc_opt (resp_payload r) ++ enc_opt (to_bytes <$> resp_error r).
Definition dec_response (l : bytes) : option Response :=
  match l with
  | ok :: c :: l0 =>
      match dec_opt l0 with
      | Some (p, l1) => match dec_opt l1 with
                        | Some (e, []) => Some (null_absent (mkResponse (bool_decide (ok = "t")) p (of_bytes <$> e) (dec_code c)))
                        | _ => None
                        end
      | None => None
      end
  | _ => None
  end.

Lemma opt_of_to_bytes (o : option string) : of_bytes <$> (to_bytes <$> o) = o.
Proof. destruct o as [s|]; [|done]. simpl. by rewrite of_to_bytes. Qed.

Lemma dec_enc_request r : dec_request (enc_request r) = Some r.
Proof.
  destruct r as [m i p]. unfold dec_request, enc_request. simpl. rewrite dec_enc, dec_enc_opt.
  rewrite <- (app_nil_r (enc p)), dec_enc, of_to_bytes, opt_of_to_bytes. done.
Qed.

Lemma dec_enc_response r : dec_response (enc_response r) = Some (null_absent r).
Proof.
  destruct r as [ok p e c]. unfold dec_response, enc_response. simpl. rewrite dec_enc_opt.
  rewrite <- (app_nil_r (enc_opt (to_bytes <$> e))), dec_enc_opt, opt_of_to_bytes.
  destruct ok, c as [[]|]; done.
Qed.

#[local] Instance json : Json := {|
  raw_value b := match b with [] => Err "EOF"%string | _ => Ok b end;
  utf8_lossy b := b;
  request_to_vec r := Ok (enc_request r);
  request_from_slice b := ok_or (dec_request b) "malformed"%string;
  response_to_vec r := Ok (enc_response r);
  response_from_slice b := ok_or (dec_response b) "malformed"%string;
  str_debug s := s;
|}.

#[local] Instance json_laws : JsonLaws.
Proof.
  split; simpl; try done.
  - intros [|c b] q; [done|]. by intros [= <-].
  - intros r b _ [= <-]. by rewrite dec_enc_request.
  - intros r b _ [= <-]. by rewrite dec_enc_response.
Qed.

(** A server counting its calls: [add] refuses an empty list, [who] shows its caller. *)
Definition server : Server nat :=
  mkServer {[ "add"%string := fun p w => (S w, Returns (if decide (length p <= 1)%nat
                                                       then Err (InvalidRequestBody "short"%string) else Ok p)) ]}
    {[ "who"%string := fun i _ w => (S w, Returns (Ok (default [] (to_bytes <$> i)))) ]} [].

Definition link (arrives returns : option nat) : Link :=
  mkLink None arrives (FinishedEarly "eof"%string) true None None returns (ReadError (ReadConnectionLost "lost"%string)).
End EdgeExample.
#[local] Existing Instances EdgeExample.json EdgeExample.json_laws.

Lemma frame_roundtrip_witness :
  frame_bytes (to_bytes "hello") = Ok (to_be_bytes 5 ++ to_bytes "hello")
  ∧ snd (read_frame (mkRecv (take 6 (to_be_bytes 5 ++ to_bytes "hello")) (FinishedEarly "eof")))
    = Err (Io "eof").
Proof.
  split; [reflexivity|].
  refine (proj1 (proj2 (proj2 (frame_roundtrip (to_bytes "hello") (to_be_bytes 5 ++ to_bytes "hello") [] MAX_FRAME 6
    (FinishedEarly "eof") _))) _); [reflexivity|simpl; lia].
Defined.

(** The reply is lost after the handler ran. *)
Lemma edge_call_truthful_witness :
  call_raw_id (serve_stream EdgeExample.server) (EdgeExample.link (Some 100%nat) (Some 3%nat))
    "who" (Some "ann") (to_bytes "{}") 7%nat = (8%nat, Err (Connection "lost"))
  ∧ ran_at_most_once EdgeExample.server "who" (Some "ann") (to_bytes "{}") 7%nat 8%nat.
Proof.
  split; [vm_compute; reflexivity|].
  eapply (edge_call_truthful EdgeExample.server (EdgeExample.link (Some 100%nat) (Some 3%nat)) "who"
            (Some "ann") (to_bytes "{}") 7%nat 8%nat (Err (Connection "lost"))).
  vm_compute. reflexivity.
Defined.

Lemma edge_call_delivers_witness :
  call_raw_id (serve_stream EdgeExample.server) (EdgeExample.link None None) "add" None (to_bytes "{}") 7%nat
  = (8%nat, Ok (to_bytes "{}")).
Proof.
  transitivity (verdict EdgeExample.server "add" None (to_bytes "{}") 7%nat); [|vm_compute; reflexivity].
  refine (edge_call_delivers EdgeExample.server (EdgeExample.link None None) "add" None (to_bytes "{}")
    (to_bytes "{}") (EdgeExample.enc_request (mkRequest "add" None (to_bytes "{}"))) 7%nat _ _ _ _ _).
  - done.
  - reflexivity.
  - reflexivity.
  - vm_compute. discriminate.
  - intros rb Hrb. injection Hrb as <-. vm_compute. discriminate.
Defined.
