(* ===== verification/Remote.v ===== *)
(** * Remote: calling a peer process ([core/remote/src/lib.rs])

    The self-healing caller [Reconnecting] over one peer, the round-robin [Pool]
    over a service's instances with its probe-fed health, list refresh, one
    cross-instance failover and best-effort fan-out.  The peers are the servers of
    [Edge], all acting on one world.  What the sources do not decide is the
    environment [Env], asked once per event: whether a dial or a stream works, what
    the resolver and the clock say, and what other tasks of the process did to the
    shared state while this one was waiting. *)

From Stdlib Require Import Ascii.
From stdpp Require Import pretty.
From S2P Require Import Prelude Text OpsApi Edge.
#[local] Open Scope Z_scope.

(** ** Failures *)

Inductive FailureProvenance := ConnectionFatal | StreamLocal | PeerAnswer.

#[global] Instance FailureProvenance_eq_dec : EqDecision FailureProvenance.
Proof. solve_decision. Defined.

Record CallFailure := mkFailure { mapped : OpsApi.Error; provenance : FailureProvenance }.

Definition map_edge_call_failure (e : Edge.Error) : CallFailure :=
  mkFailure (from_edge_error e)
    match e with
    | Connection _ => ConnectionFatal
    | Edge.Remote _ | UnknownMethod _ | InvalidRequest _ => PeerAnswer
    | _ => StreamLocal
    end.

(** ** Dialling *)

(** The ways the TLS configuration can fail to load. *)
Inductive TlsFault := FaultIo (m : string) | FaultRcgen (m : string) | FaultRustls (m : string)
  | FaultTls (m : string) | FaultCa (m : string).

Definition tls_error (f : TlsFault) : Edge.Error :=
  match f with
  | FaultIo m => Io m | FaultRcgen m => Rcgen m | FaultRustls m => Rustls m
  | FaultTls m => Tls m | FaultCa m => Ca m
  end.

(** What a dial meets: a fault in [quinn]'s configuration, in binding the endpoint,
    in starting to connect, or a handshake that times out or fails. *)
Inductive DialOutcome := QuicConfig (m : string) | EndpointFails (m : string) | ConnectFails (m : string)
  | HandshakeTimeout | HandshakeFails (m : string) | Established.

Definition dial_with_config (o : DialOutcome) : result Edge.Error unit :=
  match o with
  | QuicConfig m => Err (Tls ("quic client config: " +:+ m))
  | EndpointFails m => Err (Io m)
  | ConnectFails m => Err (Connect m)
  | HandshakeTimeout => Err (Connect "dial timed out after 5s")
  | HandshakeFails m => Err (Connection m)
  | Established => Ok ()
  end.

(** A connection, known by its identity ([Arc::ptr_eq]). *)
Record Conn := mkConn { conn_id : nat; conn_addr : string }.

(** ** Instances and their health *)

Definition PROBE_STALL_MAX : Z := 15.
Definition POOL_REFRESH_INTERVAL : Z := 5.

Definition readiness_verdict (cached : result string unit) (last_probe_at now_secs : Z) : result string unit :=
  if negb (last_probe_at =? 0) && (PROBE_STALL_MAX <? Z.max 0 (now_secs - last_probe_at))
  then Err "stub probe stalled: no completed peer probe in >15s (probe task may have died)"
  else cached.

Record Instance := mkInstance { i_addr : string; i_verdict : result string unit; i_last_probe_at : Z }.

(** The factory's new instance: [InstanceHealth::seed]. *)
Definition seed (addr : string) : Instance := mkInstance addr (Err "probe pending") 0.

Definition healthy (i : Instance) (now : Z) : bool :=
  match readiness_verdict (i_verdict i) (i_last_probe_at i) now with Ok _ => true | Err _ => false end.

Definition is_selectable (i : Instance) (now : Z) : bool := (i_last_probe_at i =? 0) || healthy i now.

(** One turn of [probe_loop]. *)
Definition probe_stamp (v : result string unit) (now : Z) (i : Instance) : Instance :=
  mkInstance (i_addr i) v (Z.max now 1).

Record Pool := mkPool {
  instances : list Instance;
  cursor : Z;
  last_refresh : Z;
  resolve_seq : Z;
  applied_gen : Z;
}.

Definition new_pool : Pool := mkPool [] 0 0 0 0.

Definition u64_succ (n : Z) : Z := (n + 1) `mod` 2 ^ 64.

Definition set_instances (l : list Instance) (p : Pool) : Pool :=
  mkPool l (cursor p) (last_refresh p) (resolve_seq p) (applied_gen p).

(** The [seen] filter: the first occurrence of each address, in order. *)
Fixpoint dedup (seen : list string) (l : list string) : list string :=
  match l with
  | [] => []
  | a :: l' => if bool_decide (a ∈ seen) then dedup seen l' else a :: dedup (a :: seen) l'
  end.

(** The building loop: take the kept instance of each wanted address, or make one. *)
Fixpoint rebuild (kept : list Instance) (wanted : list string) : list Instance :=
  match wanted with
  | [] => []
  | addr :: wanted' =>
      match list_find (fun i => i_addr i = addr) kept with
      | Some (pos, i) => i :: rebuild (delete pos kept) wanted'
      | None => seed addr :: rebuild kept wanted'
      end
  end.

Definition reconcile (current : list Instance) (addrs : list string) : list Instance * list Instance :=
  let wanted := dedup [] addrs in
  (rebuild (filter (fun i => i_addr i ∈ wanted) current) wanted,
   filter (fun i => ¬ i_addr i ∈ wanted) current).

(** The two halves of [refresh_once] around its await: the generation is taken
    before the list is resolved and applied only if no newer one was. *)
Definition refresh_begin (p : Pool) : Z * Pool :=
  let seq := u64_succ (resolve_seq p) in
  (seq, mkPool (instances p) (cursor p) (last_refresh p) seq (applied_gen p)).

Definition refresh_apply (my_gen : Z) (addrs : list string) (p : Pool) : Pool :=
  if my_gen <=? applied_gen p then p
  else mkPool (fst (reconcile (instances p) addrs)) (cursor p) (last_refresh p) (resolve_seq p) my_gen.

(** The throttle of [refresh]: whether this caller claims the refresh.  [raced]:
    another task changed the stamp between the load and the compare-exchange. *)
Definition refresh_claim (now : Z) (raced : bool) (p : Pool) : bool * Pool :=
  let last := last_refresh p in
  if negb (last =? 0) && (Z.max 0 (now - last) <? POOL_REFRESH_INTERVAL) then (false, p)
  else if raced then (false, p)
  else (true, mkPool (instances p) (cursor p) (Z.max now 1) (resolve_seq p) (applied_gen p)).

(** The scan from slot [start], over [n] slots in cyclic order. *)
Fixpoint scan (l : list Instance) (now : Z) (exclude : option string) (start off n : nat) : option nat :=
  match n with
  | O => None
  | S n' =>
      let i := Nat.modulo (start + off) (length l) in
      match l !! i with
      | None => None
      | Some x =>
          if bool_decide (exclude = Some (i_addr x)) then scan l now exclude start (S off) n'
          else if is_selectable x now then Some i else scan l now exclude start (S off) n'
      end
  end.

Definition select_excluding (now : Z) (exclude : option string) (p : Pool) : Pool * option nat :=
  match length (instances p) with
  | O => (p, None)
  | S _ as n =>
      let start := Z.to_nat (cursor p `mod` Z.of_nat n) in
      (mkPool (instances p) (u64_succ (cursor p)) (last_refresh p) (resolve_seq p) (applied_gen p),
       scan (instances p) now exclude start 0 n)
  end.

Definition select (now : Z) (p : Pool) : Pool * option nat := select_excluding now None p.

Definition readiness_at (p : Pool) (now : Z) : result string unit :=
  match instances p with
  | [] => Err "remote pool: no resolved instances yet"
  | l =>
      if (length (List.filter (fun i => healthy i now) l) =? 0)%nat
      then Err ("remote pool: all " +:+ pretty (Z.of_nat (length l)) +:+ " instance(s) down")
      else Ok ()
  end.

Inductive FanoutState := Unresolved | FanoutEmpty | FanoutReady (n : nat).

Definition fanout_state (p : Pool) : FanoutState :=
  if applied_gen p =? 0 then Unresolved else
  match length (instances p) with O => FanoutEmpty | n => FanoutReady n end.

(** ** Callers *)

Section Calls.
Context `{Json} {W : Type}.
Variable servers : string → Server W.

(** What the environment answers at each of its events. *)
Record Env := mkEnv {
  e_resolve : nat → string → result string string;
  e_parse : string → result string string;
  e_tls : nat → option TlsFault;
  e_dial : nat → string → DialOutcome;
  e_link : nat → Conn → Link;
  e_now : nat → Z;
  e_list : nat → result string (list string);
  e_raced : nat → bool;
  e_in_time : nat → Z → bool;
  e_tasks : nat → Pool * gmap string Conn → Pool * gmap string Conn;
  e_world : nat → W → W;
}.
Variable env : Env.

(** The process's shared state, and the world its peers act on.  [cur] is the cached
    connection of each [Reconnecting], by the peer it was made for. *)
Record St := mkSt {
  pool : Pool;
  cur : gmap string Conn;
  closed : list nat;
  clock : nat;
  world : W;
}.

Definition set_pool (p : Pool) (s : St) : St := mkSt p (cur s) (closed s) (clock s) (world s).
Definition set_cur (c : gmap string Conn) (s : St) : St := mkSt (pool s) c (closed s) (clock s) (world s).
Definition close_conn (c : Conn) (s : St) : St := mkSt (pool s) (cur s) (conn_id c :: closed s) (clock s) (world s).

Definition ask {E A} (f : nat → A) : ST St E A := fun s =>
  (mkSt (pool s) (cur s) (closed s) (S (clock s)) (world s), Ok (f (clock s))).

(** A wait: other tasks run. *)
Definition meanwhile {E} : ST St E unit := fun s =>
  let '(p, c) := e_tasks env (clock s) (pool s, cur s) in
  (mkSt p c (closed s) (S (clock s)) (e_world env (clock s) (world s)), Ok ()).

(** *** [EdgeDialer::dial] and [Reconnecting] *)

Definition unavailable (m : string) : OpsApi.Error := mkError Unavailable m.

Definition dial (peer : string) : ST St OpsApi.Error Conn :=
  resolved ← ask (fun t => e_resolve env t peer);
  addr ← lift (map_err (fun e => unavailable ("remote: cannot resolve peer edge addr: " +:+ e)) resolved);
  addr ← lift (map_err (fun e => unavailable ("remote: bad peer edge addr " +:+ str_debug addr +:+ ": " +:+ e)) (e_parse env addr));
  tls ← ask (e_tls env);
  lift (map_err from_edge_error (check tls tls_error));;
  id ← ask (fun t => t);
  o ← ask (fun t => e_dial env t addr);
  lift (map_err from_edge_error (dial_with_config o));;
  mret (mkConn id addr).

Definition get (peer : string) : ST St OpsApi.Error Conn :=
  meanwhile;;
  g ← gets (fun s => cur s !! peer);
  match g with
  | Some c => mret c
  | None =>
      c ← dial peer;
      modify (fun s => set_cur (<[peer := c]> (cur s)) s);;
      mret c
  end.

Definition reset {E} (peer : string) (failed : Conn) : ST St E unit :=
  meanwhile;;
  g ← gets (fun s => cur s !! peer);
  match g with
  | Some c =>
      if bool_decide (conn_id c = conn_id failed)
      then modify (close_conn c);; modify (fun s => set_cur (delete peer (cur s)) s)
      else mret ()
  | None => mret ()
  end.

Definition close {E} (peer : string) : ST St E unit :=
  meanwhile;;
  g ← gets (fun s => cur s !! peer);
  match g with
  | Some c => modify (fun s => set_cur (delete peer (cur s)) s);; modify (close_conn c)
  | None => mret ()
  end.

(** [Conn::call] of an [edge::Client]. *)
Definition over_link (l : Link) (c : Conn) (method : string) (identity : option string) (payload : bytes)
  : ST St CallFailure bytes := fun s =>
  let '(w, r) := call_raw_id (serve_stream (servers (conn_addr c))) l method identity payload (world s) in
  (mkSt (pool s) (cur s) (closed s) (clock s) w, map_err map_edge_call_failure r).

Definition conn_call (c : Conn) (method : string) (identity : option string) (payload : bytes)
  : ST St CallFailure bytes :=
  meanwhile;;
  l ← ask (fun t => e_link env t c);
  over_link l c method identity payload.

(** A call's result as a value, so that a failure can be looked at. *)
Definition attempt {S E F A} (m : ST S E A) : ST S F (result E A) := fun s => let '(s', r) := m s in (s', Ok r).

Definition reconnecting_call (peer method : string) (identity : option string) (payload : bytes)
    (retry_mode : RetryMode) : ST St OpsApi.Error bytes :=
  c ← get peer;
  first ← attempt (conn_call c method identity payload);
  match first with
  | Ok v => mret v
  | Err first =>
      if negb (bool_decide (provenance first = ConnectionFatal)) then fail (mapped first) else
      reset peer c;;
      match retry_mode with
      | Never => fail (mapped first)
      | OnceAfterReconnect =>
          c2 ← get peer;
          second ← attempt (conn_call c2 method identity payload);
          match second with
          | Ok v => mret v
          | Err second =>
              if negb (bool_decide (provenance second = ConnectionFatal)) then fail (mapped second) else
              reset peer c2;;
              fail (mapped second)
          end
      end
  end.

(** *** [Pool]

    over its instances' callers, [Arc<dyn Caller>] of the source, by address. *)

Definition Caller : Type := string → option string → bytes → RetryMode → ST St OpsApi.Error bytes.
Variable caller : string → Caller.

Definition on_pool {E A} (f : Pool → A * Pool) : ST St E A := fun s =>
  let '(a, p) := f (pool s) in (set_pool p s, Ok a).

Definition refresh {E} : ST St E unit :=
  now ← ask (e_now env);
  raced ← ask (e_raced env);
  claimed ← on_pool (refresh_claim now raced);
  if claimed : bool then
    my_gen ← on_pool refresh_begin;
    addrs ← ask (e_list env);
    meanwhile;;
    match addrs with
    | Err _ => mret ()
    | Ok addrs => on_pool (fun p => ((), refresh_apply my_gen addrs p))
    end
  else mret ().

(** The selected instance's address, which names its caller. *)
Definition pick {E} (now : Z) (exclude : option string) : ST St E (option string) :=
  on_pool (fun p => let '(p', i) := select_excluding now exclude p in
                    ((i ← i; i_addr <$> instances p' !! i), p')).

Definition no_instance : OpsApi.Error := unavailable
  "remote pool: no reachable instance (all resolved instances down, or none resolved yet)".

Definition pool_call (method : string) (identity : option string) (payload : bytes) (retry_mode : RetryMode)
  : ST St OpsApi.Error bytes :=
  refresh;;
  now ← ask (e_now env);
  first ← pick now None;
  match first with
  | None => fail no_instance
  | Some first_addr =>
      r ← attempt (caller first_addr method identity payload retry_mode);
      match r with
      | Ok v => mret v
      | Err first_err =>
          match retry_mode with
          | Never => fail first_err
          | OnceAfterReconnect =>
              if is_definitive_answer (status first_err) then fail first_err else
              second ← pick now (Some first_addr);
              match second with
              | None => fail first_err
              | Some second_addr => caller second_addr method identity payload retry_mode
              end
          end
      end
  end.

Definition FANOUT_CALL_TIMEOUT : Z := 8.
Definition FANOUT_UNHEALTHY_TIMEOUT : Z := 2.

Definition target (now : Z) (i : Instance) : string * Z :=
  (i_addr i, if is_selectable i now then FANOUT_CALL_TIMEOUT else FANOUT_UNHEALTHY_TIMEOUT).

(** The fan-out of [deliver_all]; [e_in_time] says whether a target's call returned
    within its budget. *)
Fixpoint deliver_to (targets : list (string * Z)) (method : string) (payload : bytes) : ST St OpsApi.Error nat :=
  match targets with
  | [] => mret 0%nat
  | (addr, budget) :: targets' =>
      r ← attempt (caller addr method None payload Never);
      in_time ← ask (fun t => e_in_time env t budget);
      n ← deliver_to targets' method payload;
      mret (match r with Ok _ => if in_time : bool then S n else n | Err _ => n end)
  end.

Definition deliver_all (method : string) (payload : bytes) : ST St OpsApi.Error nat :=
  refresh;;
  now ← ask (e_now env);
  targets ← gets (fun s => map (target now) (instances (pool s)));
  deliver_to targets method payload.
End Calls.
Arguments St : clear implicits.
Arguments Caller : clear implicits.
Arguments Env : clear implicits.
