(* ===== verification/RemoteContract.v ===== *)
(** * RemoteContract: how often, and where, a remote call executes

    For every environment (dials and streams failing anywhere, replies lost after
    the handler ran, other tasks resetting connections and reconciling the pool at
    every wait) a call through the pool runs its handler a bounded number of times,
    once at most for a mutation, and its answer is the answer of the last run. *)

From Stdlib Require Import Ascii.
From S2P Require Import Prelude Text OpsApi Edge EdgeContract Remote.
#[local] Open Scope Z_scope.

Section Contract.
Context `{JsonLaws} {W : Type}.
Variable servers : string → Server W.
Variable env : Env W.
Implicit Types (s : St W) (w : W).

(** ** Executions *)

(** [execs m i q l w w']: from [w] to [w'], the handlers of [m] ran on [q] at the
    servers [l], in that order, with steps of other tasks in between. *)
Inductive execs (m : string) (i : option string) (q : bytes) : list string → W → W → Prop :=
| execs_nil w : execs m i q [] w w
| execs_env t l w w' : execs m i q l (e_world env t w) w' → execs m i q l w w'
| execs_run a h o l w w1 w' :
    handler_for (servers a) m = Some h → h i q w = (w1, o) → execs m i q l w1 w' → execs m i q (a :: l) w w'.

Lemma execs_app m i q l1 l2 w w1 w2 : execs m i q l1 w w1 → execs m i q l2 w1 w2 → execs m i q (l1 ++ l2) w w2.
Proof. induction 1; simpl; eauto using execs. Qed.

(** The payload a handler sees. *)
Definition payload_of (p : bytes) : bytes := default p (result_ok (raw_from_bytes p)).

(** The last of the runs [l] gave [res]. *)
Definition last_returned m i q l w w' (res : result HandlerError bytes) : Prop :=
  ∃ l0 a h w1 w2, l = l0 ++ [a] ∧ execs m i q l0 w w1 ∧ handler_for (servers a) m = Some h
                  ∧ h i q w1 = (w2, Returns res) ∧ execs m i q [] w2 w'.

Definition answered m i q l w w' (r : result OpsApi.Error bytes) : Prop :=
  match r with
  | Ok b => ∃ x, last_returned m i q l w w' (Ok x) ∧ answer (Returns (Ok x)) = Ok b
  | Err e =>
      match status e with
      | NotFound => ∃ a, handler_for (servers a) m = None
      | Invalid => ∃ x, last_returned m i q l w w' (Err (InvalidRequestBody x))
      | Unavailable => True
      | _ => False
      end
  end.

Lemma last_returned_after m i q l0 l w w1 w2 w3 res :
  execs m i q l0 w w1 → last_returned m i q l w1 w2 res → execs m i q [] w2 w3 →
  last_returned m i q (l0 ++ l) w w3 res.
Proof.
  intros Hpre (l1 & a & h & w4 & w5 & -> & He & Hh & Hr & Ht) Hpost. exists (l0 ++ l1), a, h, w4, w5.
  split_and!; [by rewrite app_assoc|by eapply execs_app|done|done|]. by eapply (execs_app _ _ _ [] []).
Qed.

Lemma answered_after m i q l0 l w w1 w2 w3 r :
  execs m i q l0 w w1 → answered m i q l w1 w2 r → execs m i q [] w2 w3 → answered m i q (l0 ++ l) w w3 r.
Proof.
  intros Hpre Ha Hpost. destruct r as [b|e]; simpl in *.
  - destruct Ha as (x & Hl & Hx). eauto using last_returned_after.
  - destruct (status e); try done. destruct Ha as (x & Hl). eauto using last_returned_after.
Qed.

(** What a caller promises: at most [budget] runs, and a truthful answer. *)
Class CallerContract (budget : RetryMode → nat) (call : Caller W) : Prop :=
  caller_ok : ∀ m i p rm s s' r, call m i p rm s = (s', r) →
    ∃ l, (length l <= budget rm)%nat ∧ execs m i (payload_of p) l (world s) (world s')
         ∧ answered m i (payload_of p) l (world s) (world s') r.

(** ** Computations that run no handler *)

Definition quiet {E A} (c : ST (St W) E A) : Prop :=
  ∀ m i q s s' r, c s = (s', r) → execs m i q [] (world s) (world s').

Lemma quiet_bind {E A B} (c : ST (St W) E A) (f : A → ST (St W) E B) : quiet c → (∀ a, quiet (f a)) → quiet (c ≫= f).
Proof.
  intros Hc Hf m i q s s' r [(e & Hm & _)|(s1 & a & Hm & Hr)]%st_bind_inv; [by eapply Hc|].
  eapply (execs_app _ _ _ [] []); [by eapply Hc|by eapply Hf].
Qed.

Lemma quiet_ret {E A} (a : A) : quiet (mret a : ST (St W) E A).
Proof. intros m i q s s' r [= <- _]. constructor. Qed.
Lemma quiet_fail {E A} (e : E) : quiet (fail e : ST (St W) E A).
Proof. intros m i q s s' r [= <- _]. constructor. Qed.
Lemma quiet_lift {E A} (x : result E A) : quiet (lift x).
Proof. intros m i q s s' r [= <- _]. constructor. Qed.
Lemma quiet_ask {E A} (f : nat → A) : quiet (ask f : ST (St W) E A).
Proof. intros m i q s s' r [= <- _]. constructor. Qed.
Lemma quiet_gets {E A} (f : St W → A) : quiet (gets f : ST (St W) E A).
Proof. intros m i q s s' r [= <- _]. constructor. Qed.
Lemma quiet_modify {E} (f : St W → St W) : (∀ s, world (f s) = world s) → quiet (modify f : ST (St W) E unit).
Proof. intros Hf m i q s s' r [= <- _]. rewrite Hf. constructor. Qed.
Lemma quiet_on_pool {E A} (f : Pool → A * Pool) : quiet (on_pool f : ST (St W) E A).
Proof. intros m i q s s' r. unfold on_pool. destruct (f (pool s)). intros [= <- _]. constructor. Qed.
Lemma quiet_meanwhile {E} : quiet (meanwhile env : ST (St W) E unit).
Proof.
  intros m i q s s' r. unfold meanwhile. destruct (e_tasks _ _ _). intros [= <- _]. eapply execs_env. constructor.
Qed.

Create HintDb quiet.
#[local] Hint Resolve quiet_bind quiet_ret quiet_fail quiet_lift quiet_ask quiet_gets quiet_on_pool quiet_meanwhile : quiet.

(** Peels binds and cases. *)
Ltac quiet := repeat first
  [ apply quiet_bind; [|intros ?] | apply quiet_modify; done | solve [eauto with quiet] | case_match ].

Lemma quiet_dial peer : quiet (dial env peer).
Proof. unfold dial. quiet. Qed.
#[local] Hint Resolve quiet_dial : quiet.

Lemma quiet_get peer : quiet (get env peer).
Proof. unfold get. quiet. Qed.

Lemma quiet_reset {E} peer c : quiet (reset env peer c : ST (St W) E unit).
Proof. unfold reset. quiet. Qed.

Lemma quiet_refresh {E} : quiet (refresh env : ST (St W) E unit).
Proof. unfold refresh. quiet. Qed.
#[local] Hint Resolve quiet_get quiet_reset quiet_refresh : quiet.

(** Computations that cannot fail. *)
Definition total {E A} (c : ST (St W) E A) : Prop := ∀ s s' e, c s ≠ (s', Err e).

Lemma total_bind {E A B} (c : ST (St W) E A) (f : A → ST (St W) E B) : total c → (∀ a, total (f a)) → total (c ≫= f).
Proof. intros Hc Hf s s' e [(e1 & Hm & _)|(s1 & a & _ & Hr)]%st_bind_inv; [by apply Hc in Hm|by apply Hf in Hr]. Qed.
Lemma total_ret {E A} (a : A) : total (mret a : ST (St W) E A).
Proof. done. Qed.
Lemma total_ask {E A} (f : nat → A) : total (ask f : ST (St W) E A).
Proof. done. Qed.
Lemma total_gets {E A} (f : St W → A) : total (gets f : ST (St W) E A).
Proof. done. Qed.
Lemma total_modify {E} (f : St W → St W) : total (modify f : ST (St W) E unit).
Proof. done. Qed.
Lemma total_on_pool {E A} (f : Pool → A * Pool) : total (on_pool f : ST (St W) E A).
Proof. intros s s' e. unfold on_pool. by destruct (f (pool s)). Qed.
Lemma total_meanwhile {E} : total (meanwhile env : ST (St W) E unit).
Proof. intros s s' e. unfold meanwhile. by destruct (e_tasks _ _ _). Qed.
#[local] Hint Resolve total_ret total_ask total_gets total_modify total_on_pool total_meanwhile : quiet.

Ltac total := repeat first [ apply total_bind; [|intros ?] | solve [eauto with quiet] | case_match ].

Lemma total_reset {E} peer c : total (reset env peer c : ST (St W) E unit).
Proof. unfold reset. total. Qed.
Lemma total_refresh {E} : total (refresh env : ST (St W) E unit).
Proof. unfold refresh. total. Qed.

Lemma quiet_total_inv {E A B} (c : ST (St W) E A) (k : A → ST (St W) E B) m i q s s' r :
  quiet c → total c → (c ≫= k) s = (s', r) →
  ∃ s1 a, c s = (s1, Ok a) ∧ execs m i q [] (world s) (world s1) ∧ k a s1 = (s', r).
Proof. intros Hq Ht [(e & Hc & _)|(s1 & a & Hc & Hk)]%st_bind_inv; [by apply Ht in Hc|]. by eauto 6. Qed.

(** ** Errors that say nothing about the peer *)

Lemma dial_err peer s s' e : dial env peer s = (s', Err e) → status e = Unavailable.
Proof.
  unfold dial. intros [(e1 & [=] & _)|(s1 & x & _ & Hd)]%st_bind_inv.
  apply st_bind_inv in Hd as [(e1 & Hd & [= ->])|(s2 & a & _ & Hd)].
  { unfold lift in Hd. destruct x; simplify_eq/=. done. }
  apply st_bind_inv in Hd as [(e1 & Hd & [= ->])|(s3 & a' & _ & Hd)].
  { unfold lift in Hd. destruct (e_parse env a); simplify_eq/=. done. }
  apply st_bind_inv in Hd as [(e1 & [=] & _)|(s4 & tls & _ & Hd)].
  apply st_bind_inv in Hd as [(e1 & Hd & [= ->])|(s5 & [] & _ & Hd)].
  { unfold lift in Hd. destruct tls as [[]|]; simplify_eq/=; done. }
  apply st_bind_inv in Hd as [(e1 & [=] & _)|(s6 & id & _ & Hd)].
  apply st_bind_inv in Hd as [(e1 & [=] & _)|(s7 & o & _ & Hd)].
  apply st_bind_inv in Hd as [(e1 & Hd & [= ->])|(s8 & u & _ & [=])].
  unfold lift in Hd. destruct o; simplify_eq/=; done.
Qed.

Lemma get_err peer s s' e : get env peer s = (s', Err e) → status e = Unavailable.
Proof.
  unfold get. intros [(e1 & He & _)|(s1 & u & _ & Hd)]%st_bind_inv; [by apply total_meanwhile in He|].
  apply st_bind_inv in Hd as [(e1 & [=] & _)|(s2 & g & _ & Hd)]. destruct g; [done|].
  apply st_bind_inv in Hd as [(e1 & Hd & [= ->])|(s3 & c & _ & Hd)]; [by eapply dial_err|].
  apply st_bind_inv in Hd as [(e1 & [=] & _)|(s4 & u' & _ & [=])].
Qed.

(** ** One connection *)

Lemma verdict_execs a m i q w :
  ∃ l, (length l <= 1)%nat ∧ execs m i q l w (verdict (servers a) m i q w).1
       ∧ answered m i q l w (verdict (servers a) m i q w).1 (map_err from_edge_error (verdict (servers a) m i q w).2).
Proof.
  unfold verdict. destruct (handler_for (servers a) m) as [h|] eqn:Eh.
  - destruct (h i q w) as [w' o] eqn:Eo. exists [a]. split; [simpl; lia|]. split; [by eauto using execs|].
    assert (∀ res, o = Returns res → last_returned m i q [a] w w' res) as Hl.
    { intros res ->. exists [], a, h, w, w'. eauto using execs. }
    destruct o as [[x|[x|x]]|x]; try done.
    + cbn [fst snd]. destruct (answer (Returns (Ok x))) as [b|e] eqn:Ea.
      { exists x. split; [by apply Hl|done]. }
      simpl in Ea. destruct x; [done|]. case_match; [done|]. by injection Ea as <-.
    + exists x. by apply Hl.
  - exists []. split; [simpl; lia|]. split; [constructor|]. simpl. eauto.
Qed.

Lemma payload_of_ok p q : raw_from_bytes p = Ok q → payload_of p = q.
Proof. unfold payload_of. by intros ->. Qed.

Lemma conn_call_ok c m i p s s' r :
  conn_call servers env c m i p s = (s', r) →
  ∃ l, (length l <= 1)%nat ∧ execs m i (payload_of p) l (world s) (world s')
       ∧ answered m i (payload_of p) l (world s) (world s') (map_err mapped r).
Proof.
  unfold conn_call. intros [(e1 & He & _)|(s1 & u & Hm & Hd)]%st_bind_inv; [by apply total_meanwhile in He|].
  apply st_bind_inv in Hd as [(e1 & [=] & _)|(s2 & l & Hl & Hd)]. injection Hl as <- _.
  apply (quiet_meanwhile m i (payload_of p)) in Hm. unfold over_link in Hd. simpl in Hd.
  destruct (call_raw_id _ _ _ _ _ _) as [w' r'] eqn:Ec. injection Hd as <- <-. simpl.
  assert (map_err mapped (map_err map_edge_call_failure r') = map_err from_edge_error r') as -> by by destruct r'.
  apply call_outcome in Ec as [(q & Hq & Hv)|[(e & -> & Hp) [-> | (q & Hq & ->)]]].
  - destruct (verdict_execs (conn_addr c) m i q (world s1)) as (lx & Hlen & He & Ha). rewrite <- Hv in He, Ha.
    rewrite (payload_of_ok p q Hq) in *.
    exists lx. split; [done|]. split; [exact (execs_app _ _ _ [] lx _ _ _ Hm He)|].
    exact (answered_after _ _ _ [] lx _ _ _ _ _ Hm Ha (execs_nil _ _ _ _)).
  - exists []. split; [simpl; lia|]. split; [done|]. by destruct e.
  - destruct (verdict_execs (conn_addr c) m i q (world s1)) as (lx & Hlen & He & _).
    rewrite (payload_of_ok p q Hq) in *.
    exists lx. split; [done|]. split; [exact (execs_app _ _ _ [] lx _ _ _ Hm He)|]. by destruct e.
Qed.

(** ** The self-healing caller *)

Lemma attempt_inv {E F A B} (c : ST (St W) E A) (f : result E A → ST (St W) F B) s s' r :
  (attempt c ≫= f) s = (s', r) → ∃ s1 x, c s = (s1, x) ∧ f x s1 = (s', r).
Proof. unfold attempt, mbind, ST_bind. destruct (c s) as [s1 x]. eauto. Qed.

Definition reconnect_budget (rm : RetryMode) : nat := match rm with Never => 1 | OnceAfterReconnect => 2 end.

(** A run of [get] and a call on what it gave. *)
Lemma get_call peer m i p s s' r (f : Conn → result CallFailure bytes → ST (St W) OpsApi.Error bytes) :
  (c ← get env peer; x ← attempt (conn_call servers env c m i p); f c x) s = (s', r) →
  (∃ e, r = Err e ∧ status e = Unavailable ∧ execs m i (payload_of p) [] (world s) (world s'))
  ∨ ∃ c x s1 l, f c x s1 = (s', r) ∧ (length l <= 1)%nat ∧ execs m i (payload_of p) l (world s) (world s1)
                ∧ answered m i (payload_of p) l (world s) (world s1) (map_err mapped x).
Proof.
  intros [(e & He & ->)|(s1 & c & Hg & Hd)]%st_bind_inv.
  - left. exists e. split_and!; [done|by eapply get_err|]. by eapply quiet_get.
  - right. apply attempt_inv in Hd as (s2 & x & Hc & Hf). apply conn_call_ok in Hc as (l & Hl & He & Ha).
    pose proof (quiet_get peer m i (payload_of p) _ _ _ Hg) as Hq.
    exists c, x, s2, l. split_and!; [done|done|exact (execs_app _ _ _ [] l _ _ _ Hq He)|].
    exact (answered_after _ _ _ [] l _ _ _ _ _ Hq Ha (execs_nil _ _ _ _)).
Qed.

Lemma answered_unavailable m i q l w w' e : status e = Unavailable → answered m i q l w w' (Err e).
Proof. simpl. by intros ->. Qed.

Lemma reset_inv {A} peer c m i q (k : ST (St W) OpsApi.Error A) s s' r :
  (reset env peer c;; k) s = (s', r) → ∃ s1, execs m i q [] (world s) (world s1) ∧ k s1 = (s', r).
Proof.
  intros (s1 & u & _ & He & Hk)%(quiet_total_inv _ _ m i q); [by eauto|apply quiet_reset|apply total_reset].
Qed.

(** How a call ends once its outcome is final: reset the connection if it was fatal. *)
Lemma finish_call peer c m i q l s0 s1 s' x r :
  (match x with
   | Ok v => mret v
   | Err x => if negb (bool_decide (provenance x = ConnectionFatal)) then fail (mapped x)
              else reset env peer c;; fail (mapped x)
   end : ST (St W) OpsApi.Error bytes) s1 = (s', r) →
  execs m i q l (world s0) (world s1) → answered m i q l (world s0) (world s1) (map_err mapped x) →
  execs m i q l (world s0) (world s') ∧ answered m i q l (world s0) (world s') r.
Proof.
  intros Hf He Ha. destruct x as [v|x]; [by injection Hf as <- <-|].
  destruct (negb _); [by injection Hf as <- <-|].
  apply (reset_inv peer c m i q) in Hf as (s2 & Hr & [= <- <-]). rewrite <- (app_nil_r l). split; [by eapply execs_app|].
  rewrite app_nil_r. exact (answered_after _ _ _ [] l _ _ _ _ _ (execs_nil _ _ _ _) Ha Hr).
Qed.

#[local] Instance reconnecting_contract peer : CallerContract reconnect_budget (reconnecting_call servers env peer).
Proof.
  intros m i p rm s s' r Hcall. unfold reconnecting_call in Hcall.
  apply get_call in Hcall as [(e & -> & He & Hx)|(c & x & s1 & l & Hf & Hl & He & Ha)].
  { exists []. split; [simpl; lia|]. split; [done|by apply answered_unavailable]. }
  assert ((length l <= reconnect_budget rm)%nat) as Hb by (destruct rm; simpl; lia).
  destruct x as [v|x]; [injection Hf as <- <-; by eauto|].
  destruct (negb _); [injection Hf as <- <-; by eauto|].
  apply (reset_inv peer c m i (payload_of p)) in Hf as (s2 & Hr & Hk).
  pose proof (execs_app _ _ _ l [] _ _ _ He Hr) as He2. rewrite app_nil_r in He2.
  destruct rm.
  - injection Hk as <- <-. exists l. split; [done|]. split; [done|].
    exact (answered_after _ _ _ [] l _ _ _ _ _ (execs_nil _ _ _ _) Ha Hr).
  - apply get_call in Hk as [(e & -> & Hu & Hx)|(c2 & x2 & s3 & l2 & Hf2 & Hl2 & Hx & Ha2)].
    + exists (l ++ []). rewrite app_nil_r at 1. split; [done|]. split; [by eapply execs_app|by apply answered_unavailable].
    + exists (l ++ l2). split; [rewrite length_app; simpl; lia|].
      destruct (finish_call peer c2 m i (payload_of p) l2 s2 s3 s' x2 r Hf2 Hx Ha2) as [Hx' Ha'].
      split; [by eapply execs_app|]. exact (answered_after _ _ _ l l2 _ _ _ _ _ He2 Ha' (execs_nil _ _ _ _)).
Qed.

(** ** The pool *)

Definition pool_budget (budget : RetryMode → nat) (rm : RetryMode) : nat :=
  match rm with Never => budget Never | OnceAfterReconnect => 2 * budget OnceAfterReconnect end.

Section PoolContract.
Context (budget : RetryMode → nat) (caller : string → Caller W) `{∀ a, CallerContract budget (caller a)}.

#[local] Instance pool_contract : CallerContract (pool_budget budget) (pool_call env caller).
Proof.
  intros m i p rm s s' r Hcall. unfold pool_call in Hcall.
  apply (quiet_total_inv _ _ m i (payload_of p)) in Hcall as (s1 & u & _ & E1 & Hcall); [|apply quiet_refresh|apply total_refresh].
  apply (quiet_total_inv _ _ m i (payload_of p)) in Hcall as (s2 & now & _ & E2 & Hcall); [|apply quiet_ask|apply total_ask].
  apply (quiet_total_inv _ _ m i (payload_of p)) in Hcall as (s3 & a & _ & E3 & Hcall);
    [|apply quiet_on_pool|apply total_on_pool].
  pose proof (execs_app _ _ _ [] [] _ _ _ E1 (execs_app _ _ _ [] [] _ _ _ E2 E3)) as E. simpl in E. clear E1 E2 E3.
  destruct a as [first_addr|].
  2:{ injection Hcall as <- <-. exists []. split; [simpl; lia|]. by split. }
  apply attempt_inv in Hcall as (s4 & x & Hc & Hcall). apply caller_ok in Hc as (l & Hl & He & Ha).
  pose proof (execs_app _ _ _ [] l _ _ _ E He) as He'.
  pose proof (answered_after _ _ _ [] l _ _ _ _ _ E Ha (execs_nil _ _ _ _)) as Ha'. simpl in He', Ha'.
  assert ((length l <= pool_budget budget rm)%nat) as Hb by (destruct rm; simpl; lia).
  destruct x as [v|first_err]; [injection Hcall as <- <-; by eauto|].
  destruct rm; [injection Hcall as <- <-; by eauto|].
  destruct (is_definitive_answer _); [injection Hcall as <- <-; by eauto|].
  apply (quiet_total_inv _ _ m i (payload_of p)) in Hcall as (s5 & a & _ & E5 & Hcall);
    [|apply quiet_on_pool|apply total_on_pool].
  pose proof (execs_app _ _ _ l [] _ _ _ He' E5) as He5. rewrite app_nil_r in He5.
  destruct a as [second_addr|].
  - apply caller_ok in Hcall as (l2 & Hl2 & He2 & Ha2). exists (l ++ l2).
    split; [rewrite length_app; simpl; lia|]. split; [by eapply execs_app|].
    exact (answered_after _ _ _ l l2 _ _ _ _ _ He5 Ha2 (execs_nil _ _ _ _)).
  - injection Hcall as <- <-. exists l. split; [done|]. split; [done|].
    exact (answered_after _ _ _ [] l _ _ _ _ _ (execs_nil _ _ _ _) Ha' E5).
Qed.
End PoolContract.

(** C24: whatever the environment does, a call through the pool runs its handler at
    most once if it is a mutation and at most four times if it is retry-safe.  The
    bytes it returns are what the last run returned; it answers not-found only if
    some instance has no handler for the method, invalid only if the last run
    refused the request body, and otherwise unavailable. *)
Theorem remote_call_bounded m i p rm s s' r :
  pool_call env (reconnecting_call servers env) m i p rm s = (s', r) →
  ∃ l, (length l <= match rm with Never => 1 | OnceAfterReconnect => 4 end)%nat
       ∧ execs m i (payload_of p) l (world s) (world s') ∧ answered m i (payload_of p) l (world s) (world s') r.
Proof.
  intros (l & Hl & He & Ha)%(pool_contract reconnect_budget (reconnecting_call servers env)).
  exists l. split; [|done]. by destruct rm.
Qed.

(** ** Fan-out *)

Lemma deliver_to_ok targets m p s s' r :
  deliver_to env (reconnecting_call servers env) targets m p s = (s', r) →
  ∃ n l, r = Ok n ∧ (n <= length l <= length targets)%nat ∧ execs m None (payload_of p) l (world s) (world s').
Proof.
  revert s s' r. induction targets as [|[addr budget] targets IH]; intros s s' r; simpl.
  { intros [= <- <-]. exists 0%nat, []. split_and!; [done|simpl; lia..|constructor]. }
  intros (s1 & x & Hc & Hk)%attempt_inv. apply caller_ok in Hc as (l & Hl & He & Ha).
  apply (quiet_total_inv _ _ m None (payload_of p)) in Hk as (s2 & in_time & _ & E2 & Hk); [|apply quiet_ask|apply total_ask].
  apply st_bind_inv in Hk as [(e & Hd & ->)|(s3 & n & Hd & Hk)]; apply IH in Hd as (n' & l' & Hn & Hlen & He'); [done|].
  injection Hn as <-. injection Hk as <- <-. pose proof (execs_app _ _ _ l [] _ _ _ He E2) as He2. rewrite app_nil_r in He2.
  eexists _, (l ++ l'). split_and!; [done| | |by eapply execs_app].
  - rewrite length_app. destruct x as [b|e]; [|lia]. destruct in_time; [|lia].
    destruct Ha as (y & (l0 & a & h & w1 & w2 & -> & _) & _). rewrite length_app. simpl. lia.
  - rewrite length_app. simpl in Hl |- *. lia.
Qed.

(** A broadcast never fails: every resolved instance gets the message at most
    once, and the count it answers is at most the number of runs. *)
Theorem deliver_all_at_most_once m p s s' r :
  deliver_all env (reconnecting_call servers env) m p s = (s', r) →
  ∃ n l s1 now, r = Ok n ∧ execs m None (payload_of p) l (world s) (world s')
    ∧ (n <= length l <= length (map (target now) (instances (pool s1))))%nat
    ∧ execs m None (payload_of p) [] (world s) (world s1).
Proof.
  unfold deliver_all.
  intros (s1 & u & _ & E1 & Hd)%(quiet_total_inv _ _ m None (payload_of p)); [|apply quiet_refresh|apply total_refresh].
  apply (quiet_total_inv _ _ m None (payload_of p)) in Hd as (s2 & now & _ & E2 & Hd); [|apply quiet_ask|apply total_ask].
  apply st_bind_inv in Hd as [(e & [=] & _)|(s3 & ts & [= <- <-] & Hd)].
  apply deliver_to_ok in Hd as (n & l & -> & Hlen & He). pose proof (execs_app _ _ _ [] [] _ _ _ E1 E2) as E.
  exists n, l, s2, now. split_and!; [done|exact (execs_app _ _ _ [] l _ _ _ E He)|lia..|done].
Qed.
End Contract.

(** ** The instance set *)

Lemma dedup_elem seen l a : a ∈ dedup seen l ↔ a ∈ l ∧ a ∉ seen.
Proof.
  revert seen. induction l as [|b l IH]; intros seen; simpl; [set_solver|].
  case_bool_decide; rewrite ?elem_of_cons, IH; [set_solver|]. destruct (decide (a = b)); set_solver.
Qed.

Lemma dedup_NoDup seen l : NoDup (dedup seen l).
Proof.
  revert seen. induction l as [|b l IH]; intros seen; simpl; [constructor|].
  case_bool_decide; [done|]. constructor; [|done]. rewrite dedup_elem. set_solver.
Qed.

Lemma rebuild_addrs kept wanted : map i_addr (rebuild kept wanted) = wanted.
Proof.
  revert kept. induction wanted as [|a wanted IH]; intros kept; simpl; [done|].
  destruct (list_find _ kept) as [[pos x]|] eqn:E; simpl; rewrite IH; [|done].
  apply list_find_Some in E as (_ & -> & _). done.
Qed.

Lemma rebuild_elem kept wanted x :
  NoDup (map i_addr kept) → NoDup wanted →
  (x ∈ rebuild kept wanted ↔
   i_addr x ∈ wanted ∧ (x ∈ kept ∨ x = seed (i_addr x) ∧ i_addr x ∉ map i_addr kept)).
Proof.
  intros Hk Hw. revert kept Hk. induction wanted as [|a wanted IH]; intros kept Hk; simpl; [set_solver|].
  apply NoDup_cons in Hw as [Ha Hw]. destruct (list_find _ kept) as [[pos y]|] eqn:E.
  - apply list_find_Some in E as (Hy & <- & _). apply delete_Permutation in Hy.
    remember (delete pos kept) as kept' eqn:E. clear E. pose proof (fmap_Permutation i_addr _ _ Hy) as Hm.
    change (map i_addr kept) with (i_addr <$> kept) in *. rewrite Hm in Hk. apply NoDup_cons in Hk as [Hna Hk].
    rewrite elem_of_cons, (IH Hw kept' Hk), Hm, Hy. cbn [fmap list_fmap]. rewrite !elem_of_cons.
    assert (x ∈ kept' → i_addr x ≠ i_addr y) as Hne.
    { intros Hx Heq. apply Hna. rewrite <- Heq. by apply list_elem_of_fmap_2. }
    split; [|naive_solver]. intros [->|(Hx & [Hd|(Hs & Hn)])]; [naive_solver..|].
    split; [by right|]. right. split; [done|]. intros [Heq|]; [|done]. congruence.
  - rewrite elem_of_cons, (IH Hw kept Hk), elem_of_cons.
    assert (a ∉ map i_addr kept) as Hn.
    { apply list_find_None in E. intros (y & -> & Hy)%list_elem_of_fmap. rewrite Forall_forall in E. by apply (E y Hy). }
    split.
    + intros [->|Hx]; [|naive_solver]. simpl. naive_solver.
    + intros [[Hx|Hx] Hy]; [|naive_solver]. destruct Hy as [Hy|[-> _]]; [|left; simpl in Hx |- *; by rewrite Hx].
      exfalso. apply Hn. rewrite <- Hx. by apply list_elem_of_fmap_2.
Qed.

(** Reconciling leaves exactly the addresses of the answer, each once and in its
    order; an instance whose address stays is kept as it is, with its health; a new
    one starts unprobed; and those removed are exactly those whose address went. *)
Theorem reconcile_exact current addrs :
  NoDup (map i_addr current) →
  let '(kept, removed) := reconcile current addrs in
  map i_addr kept = dedup [] addrs ∧ NoDup (map i_addr kept)
  ∧ (∀ a, a ∈ map i_addr kept ↔ a ∈ addrs)
  ∧ (∀ x, x ∈ kept ↔ i_addr x ∈ addrs ∧ (x ∈ current ∨ x = seed (i_addr x) ∧ i_addr x ∉ map i_addr current))
  ∧ (∀ x, x ∈ removed ↔ x ∈ current ∧ i_addr x ∉ addrs).
Proof.
  intros Hnd. unfold reconcile. rewrite rebuild_addrs.
  assert (∀ a, a ∈ dedup [] addrs ↔ a ∈ addrs) as Hd by (intros a; rewrite dedup_elem; set_solver).
  split_and!; [done|apply dedup_NoDup|done| |].
  - intros x. rewrite rebuild_elem, Hd, list_elem_of_filter, Hd; [|eapply sublist_NoDup; [done|]; apply fmap_sublist, sublist_filter|apply dedup_NoDup].
    split; [intros (Hx & [[_ Hc]|(Hs & Hn)]); split; [done|by left|done|right; split; [done|]]|].
    + intros (y & Hy & Hin)%list_elem_of_fmap. apply Hn. rewrite Hy. apply list_elem_of_fmap_2, list_elem_of_filter.
      split; [|done]. apply Hd. by rewrite <- Hy.
    + intros (Hx & [Hc|(Hs & Hn)]); split; [done|left; by split|done|right; split; [done|]].
      intros (y & Hy & [_ Hin]%list_elem_of_filter)%list_elem_of_fmap. apply Hn. rewrite Hy. by apply list_elem_of_fmap_2.
  - intros x. rewrite list_elem_of_filter, Hd. naive_solver.
Qed.

(** ** Selection *)

Definition candidate (now : Z) (exclude : option string) (x : Instance) : Prop :=
  is_selectable x now = true ∧ exclude ≠ Some (i_addr x).

Lemma scan_spec l now ex start off n :
  l ≠ [] →
  match scan l now ex start off n with
  | Some i => ∃ x k, l !! i = Some x ∧ candidate now ex x ∧ (off <= k < off + n)%nat ∧ i = Nat.modulo (start + k) (length l)
                     ∧ ∀ j y, (off <= j < k)%nat → l !! Nat.modulo (start + j) (length l) = Some y → ¬ candidate now ex y
  | None => ∀ k y, (off <= k < off + n)%nat → l !! Nat.modulo (start + k) (length l) = Some y → ¬ candidate now ex y
  end.
Proof.
  intros Hl. revert off. induction n as [|n IH]; intros off; simpl; [intros; lia|].
  assert (Nat.modulo (start + off) (length l) < length l)%nat as Hlt by (apply Nat.mod_upper_bound; by destruct l).
  destruct (lookup_lt_is_Some_2 _ _ Hlt) as [x Hx]. rewrite Hx.
  destruct (decide (candidate now ex x)) as [Hc|Hc].
  - destruct Hc as [Hs He]. rewrite bool_decide_false, Hs by done. exists x, off. split_and!; try done; [lia..|].
    intros j y ?. lia.
  - assert (∀ k, (off <= k < off + S n)%nat → k = off ∨ (S off <= k < S off + n)%nat) as Hk by lia.
    specialize (IH (S off)).
    assert ((if bool_decide (ex = Some (i_addr x)) then scan l now ex start (S off) n
             else if is_selectable x now then Some (Nat.modulo (start + off) (length l)) else scan l now ex start (S off) n)
            = scan l now ex start (S off) n) as ->.
    { case_bool_decide; [done|]. destruct (is_selectable x now) eqn:Es; [|done]. by destruct Hc. }
    destruct (scan l now ex start (S off) n) as [i|].
    + destruct IH as (y & k & Hy & Hcy & Hr & -> & Hmin). exists y, k. split_and!; try done; [lia..|].
      intros j z Hj Hz. destruct (Hk j) as [->|]; [lia|congruence|]. apply (Hmin j z); [lia|done].
    + intros k y Hr Hy. destruct (Hk k Hr) as [->|]; [congruence|by eapply IH].
Qed.

Lemma cyclic_reach n start j : (start < n)%nat → (j < n)%nat → ∃ k, (k < n)%nat ∧ Nat.modulo (start + k) n = j.
Proof.
  intros Hs Hj. destruct (decide (start <= j)%nat).
  - exists (j - start)%nat. split; [lia|]. replace (start + (j - start))%nat with j by lia. by apply Nat.mod_small.
  - exists (n - start + j)%nat. split; [lia|]. replace (start + (n - start + j))%nat with (j + 1 * n)%nat by lia.
    rewrite Nat.Div0.mod_add. by apply Nat.mod_small.
Qed.

(** Selection is complete and fair: it finds an instance whenever one may be
    called and is not excluded, never picks another, and takes the first one from the
    cursor on, which it advances, so that successive calls over live instances go
    round all of them. *)
Theorem select_complete now ex p :
  let '(p', o) := select_excluding now ex p in
  instances p' = instances p
  ∧ match o with
    | Some i => ∃ x, instances p !! i = Some x ∧ candidate now ex x
    | None => ∀ x, x ∈ instances p → ¬ candidate now ex x
    end
  ∧ (instances p ≠ [] → 0 ≤ cursor p →
     cursor p' = u64_succ (cursor p)
     ∧ ((∀ x, x ∈ instances p → candidate now ex x) →
        o = Some (Z.to_nat (cursor p `mod` Z.of_nat (length (instances p)))))).
Proof.
  unfold select_excluding. destruct (instances p) as [|x0 l0] eqn:El.
  { simpl. split_and!; [done|set_solver|done]. }
  cbn [length]. rewrite <- El. set (l := instances p) in *. assert (S (length l0) = length l) as -> by by rewrite El.
  assert (l ≠ []) as Hl by by rewrite El.
  set (start := Z.to_nat (cursor p `mod` Z.of_nat (length l))).
  assert (start < length l)%nat as Hst.
  { assert (0 < Z.of_nat (length l)) by (rewrite El; simpl; lia).
    pose proof (Z.mod_pos_bound (cursor p) (Z.of_nat (length l))). unfold start. lia. }
  pose proof (scan_spec l now ex start 0 (length l) Hl) as Hs. split; [done|]. split.
  - destruct (scan l now ex start 0 (length l)) as [i|]; [naive_solver|].
    intros x (j & Hj)%list_elem_of_lookup. pose proof (lookup_lt_Some _ _ _ Hj) as Hjl.
    destruct (cyclic_reach (length l) start j Hst Hjl) as (k & Hk & <-). apply (Hs k); [lia|done].
  - intros _ _. split; [done|]. intros Hall.
    destruct (lookup_lt_is_Some_2 l start Hst) as [x Hx].
    assert (Nat.modulo (start + 0) (length l) = start) as H0 by (rewrite Nat.add_0_r; by apply Nat.mod_small).
    destruct (scan l now ex start 0 (length l)) as [i|].
    + destruct Hs as (y & k & _ & _ & Hr & -> & Hmin). destruct k as [|k]; [by rewrite H0|].
      exfalso. apply (Hmin 0%nat x); [lia|by rewrite H0|]. apply Hall. by eapply list_elem_of_lookup_2.
    + exfalso. apply (Hs 0%nat x); [lia|by rewrite H0|]. apply Hall. by eapply list_elem_of_lookup_2.
Qed.

(** ** Refreshes that overlap *)

(** A pool, the generations being resolved, and the answers that came back. *)
Record Refreshing := mkRefreshing { rf_pool : Pool; rf_open : list Z; rf_done : list (Z * list string) }.

Inductive rstep : Refreshing → Refreshing → Prop :=
| r_begin p o d g p' :
    refresh_begin p = (g, p') → resolve_seq p + 1 < 2 ^ 64 → rstep (mkRefreshing p o d) (mkRefreshing p' (g :: o) d)
| r_answer p o1 o2 d g addrs :
    rstep (mkRefreshing p (o1 ++ g :: o2) d) (mkRefreshing (refresh_apply g addrs p) (o1 ++ o2) ((g, addrs) :: d))
| r_error p o1 o2 d g : rstep (mkRefreshing p (o1 ++ g :: o2) d) (mkRefreshing p (o1 ++ o2) d)
| r_probe p o d v now k x :
    instances p !! k = Some x →
    rstep (mkRefreshing p o d) (mkRefreshing (set_instances (<[k := probe_stamp v now x]> (instances p)) p) o d)
| r_select p o d now ex : rstep (mkRefreshing p o d) (mkRefreshing (select_excluding now ex p).1 o d)
| r_claim p o d now raced : rstep (mkRefreshing p o d) (mkRefreshing (refresh_claim now raced p).2 o d).

Definition rreachable (r : Refreshing) : Prop := rtc rstep (mkRefreshing new_pool [] []) r.

Record refreshing_inv (r : Refreshing) : Prop := {
  ri_open : ∀ g, g ∈ rf_open r → 0 < g ≤ resolve_seq (rf_pool r);
  ri_done : ∀ g addrs, (g, addrs) ∈ rf_done r → 0 < g ≤ applied_gen (rf_pool r);
  ri_unique : NoDup (rf_open r ++ (rf_done r).*1);
  ri_seq : 0 ≤ applied_gen (rf_pool r) ≤ resolve_seq (rf_pool r);
  ri_applied : applied_gen (rf_pool r) = 0 ∧ instances (rf_pool r) = []
    ∨ ∃ addrs, (applied_gen (rf_pool r), addrs) ∈ rf_done r ∧ map i_addr (instances (rf_pool r)) = dedup [] addrs;
}.

Lemma select_frame now ex p :
  let p' := (select_excluding now ex p).1 in
  instances p' = instances p ∧ resolve_seq p' = resolve_seq p ∧ applied_gen p' = applied_gen p.
Proof. unfold select_excluding. by destruct (length (instances p)). Qed.

Lemma claim_frame now raced p :
  let p' := (refresh_claim now raced p).2 in
  instances p' = instances p ∧ resolve_seq p' = resolve_seq p ∧ applied_gen p' = applied_gen p.
Proof. unfold refresh_claim. by repeat case_match. Qed.

Lemma refreshing_inv_frame p p' o d :
  map i_addr (instances p') = map i_addr (instances p) → resolve_seq p' = resolve_seq p → applied_gen p' = applied_gen p →
  refreshing_inv (mkRefreshing p o d) → refreshing_inv (mkRefreshing p' o d).
Proof.
  intros Hi Hr Ha [H1 H2 H3 H4 H5]. split; simpl in *; rewrite ?Hr, ?Ha; try done.
  destruct H5 as [[H5 H6]|H5]; [left|right; by rewrite Hi]. split; [done|]. rewrite H6 in Hi.
  by apply fmap_nil_inv in Hi.
Qed.

Lemma refreshing_step r r' : refreshing_inv r → rstep r r' → refreshing_inv r'.
Proof.
  intros Hinv Hs. destruct Hs as [p o d g p' Hb Hlt|p o1 o2 d g addrs|p o1 o2 d g|p o d v now k x Hx|p o d now ex|p o d now raced].
  - destruct Hinv as [H1 H2 H3 H4 H5]. simpl in *. unfold refresh_begin, u64_succ in Hb.
    rewrite Z.mod_small in Hb by lia. injection Hb as <- <-. split; simpl; try done.
    + intros g [->|Hg]%elem_of_cons; [lia|]. specialize (H1 g Hg). lia.
    + constructor; [|done]. intros [Hg|Hg]%elem_of_app; [apply H1 in Hg; lia|].
      apply list_elem_of_fmap in Hg as ([g addrs] & Heq & Hg). apply H2 in Hg. simpl in Heq. lia.
    + lia.
  - destruct Hinv as [H1 H2 H3 H4 H5]. simpl in *.
    assert (0 < g ≤ resolve_seq p) as Hg by (apply H1; set_solver).
    assert (NoDup ((o1 ++ o2) ++ g :: d.*1)) as H3'.
    { rewrite <- Permutation_middle, <- app_assoc. rewrite <- app_assoc in H3. simpl in H3.
      by rewrite <- Permutation_middle in H3. }
    unfold refresh_apply. destruct (g <=? applied_gen p) eqn:E.
    + apply Z.leb_le in E. split; simpl; try done; [set_solver| |].
      * intros g' a' [[= -> ->]|Hin]%elem_of_cons; [lia|by eapply H2].
      * destruct H5 as [H5|(a' & Hin & Hm)]; [lia|right]. exists a'. split; [by right|done].
    + apply Z.leb_gt in E. split; simpl; try done; [set_solver| |lia|].
      * intros g' a' [[= -> ->]|Hin]%elem_of_cons; [lia|]. apply H2 in Hin. lia.
      * right. exists addrs. split; [by left|]. unfold reconcile. apply rebuild_addrs.
  - destruct Hinv as [H1 H2 H3 H4 H5]. simpl in *. split; simpl; try done; [set_solver|].
    eapply sublist_NoDup; [exact H3|]. apply sublist_app; [|done]. apply sublist_app; [done|]. by apply sublist_cons.
  - eapply refreshing_inv_frame; [..|exact Hinv]; [|done|done]. simpl.
    change (map i_addr) with (fmap (M := list) i_addr). rewrite list_fmap_insert. apply list_insert_id. by rewrite list_lookup_fmap, Hx.
  - destruct (select_frame now ex p) as (Hi & Hr & Ha). eapply refreshing_inv_frame; [..|exact Hinv]; [|done|done]. by rewrite Hi.
  - destruct (claim_frame now raced p) as (Hi & Hr & Ha). eapply refreshing_inv_frame; [..|exact Hinv]; [|done|done]. by rewrite Hi.
Qed.

(** However resolutions of the instance list overlap and in whatever order their
    answers arrive, the set the pool holds is the answer of the newest resolution that
    has answered, each address once; an answer to an older question is dropped. *)
Theorem latest_resolve_wins r :
  rreachable r →
  (rf_done r = [] → instances (rf_pool r) = [])
  ∧ (rf_done r ≠ [] → ∃ g addrs, (g, addrs) ∈ rf_done r ∧ (∀ g' a', (g', a') ∈ rf_done r → g' ≤ g)
       ∧ map i_addr (instances (rf_pool r)) = dedup [] addrs)
  ∧ NoDup (map i_addr (instances (rf_pool r))).
Proof.
  intros Hr. assert (refreshing_inv r) as [H1 H2 H3 H4 H5].
  { unfold rreachable in Hr. revert Hr. apply rtc_ind_r; [|by eauto using refreshing_step].
    split; simpl; try set_solver. constructor. }
  destruct H5 as [[H0 Hi]|(addrs & Hin & Hm)].
  - rewrite Hi. split_and!; [done| |constructor]. intros Hne. exfalso. destruct (rf_done r) as [|[g a] d]; [done|].
    specialize (H2 g a ltac:(by left)). lia.
  - rewrite Hm. split_and!; [|intros _|apply dedup_NoDup].
    + intros Hd. rewrite Hd in Hin. by apply not_elem_of_nil in Hin.
    + exists (applied_gen (rf_pool r)), addrs. split_and!; [done| |done]. intros g' a' Hg%H2. lia.
Qed.

(** ** Instances *)

Module RemoteExample.
#[local] Existing Instances EdgeExample.json EdgeExample.json_laws.

(** Every reply of the instance at [a] is lost with its connection. *)
Definition env : Env nat := mkEnv (fun _ peer => Ok peer) (fun a => Ok a) (fun _ => None) (fun _ _ => Established)
  (fun _ c => EdgeExample.link None (if bool_decide (conn_addr c = "a") then Some 2%nat else None))
  (fun _ => 100) (fun _ => Ok ["a"; "b"]) (fun _ => false) (fun _ _ => true) (fun _ x => x) (fun _ w => w).

Definition servers (_ : string) : Server nat := EdgeExample.server.

Definition st : St nat := mkSt (mkPool [seed "a"; seed "b"] 0 98 1 1) ∅ [] 0 0%nat.

Definition run (rm : RetryMode) := pool_call env (reconnecting_call servers env) "who" (Some "x") (to_bytes "{}") rm st.
Definition fan := deliver_all env (reconnecting_call servers env) "add" (to_bytes "{}") st.
End RemoteExample.
#[local] Existing Instances EdgeExample.json EdgeExample.json_laws.

(** A mutation is lost after running once; a retry-safe call runs twice at the dying
    instance and is answered by the other. *)
Lemma remote_call_bounded_witness :
  (RemoteExample.run Never).2 = Err (mkError Unavailable "edge: connection: lost")
  ∧ world (RemoteExample.run Never).1 = 1%nat
  ∧ (RemoteExample.run OnceAfterReconnect).2 = Ok (to_bytes "x")
  ∧ ∃ l, (length l <= 4)%nat
         ∧ execs RemoteExample.servers RemoteExample.env "who" (Some "x") (payload_of (to_bytes "{}")) l 0%nat 3%nat.
Proof.
  split; [vm_compute; reflexivity|]. split; [vm_compute; reflexivity|]. split; [vm_compute; reflexivity|].
  destruct (remote_call_bounded RemoteExample.servers RemoteExample.env "who" (Some "x") (to_bytes "{}") OnceAfterReconnect
              RemoteExample.st (RemoteExample.run OnceAfterReconnect).1 (RemoteExample.run OnceAfterReconnect).2)
    as (l & Hl & He & _).
  - apply surjective_pairing.
  - exists l. split; [exact Hl|exact He].
Defined.

Lemma deliver_all_at_most_once_witness :
  RemoteExample.fan.2 = Ok 1%nat ∧ world RemoteExample.fan.1 = 2%nat
  ∧ ∃ n l, RemoteExample.fan.2 = Ok n ∧ (n <= length l)%nat
      ∧ execs RemoteExample.servers RemoteExample.env "add" None (payload_of (to_bytes "{}")) l 0%nat 2%nat.
Proof.
  split; [vm_compute; reflexivity|]. split; [vm_compute; reflexivity|].
  destruct (deliver_all_at_most_once RemoteExample.servers RemoteExample.env "add" (to_bytes "{}")
              RemoteExample.st RemoteExample.fan.1 RemoteExample.fan.2) as (n & l & s1 & now & Hn & He & Hlen & _).
  - apply surjective_pairing.
  - exists n, l. split; [exact Hn|]. split; [lia|exact He].
Defined.

Lemma reconcile_exact_witness :
  reconcile [seed "a"; mkInstance "b" (Ok ()) 7] ["c"; "b"; "c"] = ([seed "c"; mkInstance "b" (Ok ()) 7], [seed "a"])
  ∧ NoDup (map i_addr [seed "c"; mkInstance "b" (Ok ()) 7]).
Proof.
  split; [vm_compute; reflexivity|].
  refine (proj1 (proj2 (reconcile_exact [seed "a"; mkInstance "b" (Ok ()) 7] ["c"; "b"; "c"] _))).
  apply NoDup_cons. split; [set_solver|]. apply NoDup_singleton.
Defined.

(** The older of two overlapping resolutions answers last and is dropped. *)
Lemma latest_resolve_wins_witness :
  ∃ r, rreachable r ∧ map i_addr (instances (rf_pool r)) = ["b"] ∧ NoDup (map i_addr (instances (rf_pool r)))
       ∧ rf_done r = [(1, ["a"]); (2, ["b"])].
Proof.
  assert (rreachable (mkRefreshing (mkPool [seed "b"] 0 0 2 2) [] [(1, ["a"]); (2, ["b"])])) as Hr.
  { eapply rtc_l; [by eapply r_begin|]. eapply rtc_l; [by eapply r_begin|].
    eapply rtc_l; [by eapply (r_answer _ [] [1] [] 2 ["b"])|].
    eapply rtc_l; [by eapply (r_answer _ [] [] _ 1 ["a"])|]. vm_compute. apply rtc_refl. }
  exists (mkRefreshing (mkPool [seed "b"] 0 0 2 2) [] [(1, ["a"]); (2, ["b"])]).
  split; [exact Hr|]. split; [reflexivity|]. split; [exact (proj2 (proj2 (latest_resolve_wins _ Hr)))|reflexivity].
Defined.
