(* ===== verification/PlayerPlane.v ===== *)
(** * PlayerPlane: the player-facing listener of [core/edge/src/player.rs]

    Admission of connections (global and per-address caps, after address
    validation), the per-address and per-connection request buckets, the drain
    state both planes share ([ShutdownState] of [server.rs]), and the reading,
    dispatch and answering of one request.  Token arithmetic is over the
    rationals, where the source uses [f64]. *)

From Stdlib Require Import Ascii QArith Qminmax.
From stdpp Require Import pretty.
From S2P Require Import Prelude Text OpsApi Edge HttpEdge.
#[local] Open Scope Z_scope.

Definition MAX_PLAYER_FRAME : Z := Z.shiftl 1 20.
Definition REQUEST_IP_IDLE : Z := 180 * 1000000000.
Definition REQUEST_IP_CAP : Z := 65536.

(** ** Drain state *)

(** [ShutdownState]; an abort handle is the task it aborts. *)
Record ShutdownState := mkShutdown {
  closing : bool;
  in_flight : Z;
  abort_handles : gmap Z (option Z);
  next_id : Z;
}.

Definition new_shutdown : ShutdownState := mkShutdown false 0 ∅ 0.

Definition enter (s : ShutdownState) : ShutdownState * Z :=
  let id := next_id s in
  (mkShutdown (closing s) (in_flight s + 1) (<[id := None]> (abort_handles s)) (id + 1), id).

Definition track (id task : Z) (s : ShutdownState) : ShutdownState :=
  match abort_handles s !! id with
  | Some _ => mkShutdown (closing s) (in_flight s) (<[id := Some task]> (abort_handles s)) (next_id s)
  | None => s
  end.

Definition drop_in_flight (id : Z) (s : ShutdownState) : ShutdownState :=
  mkShutdown (closing s) (in_flight s - 1) (delete id (abort_handles s)) (next_id s).

Definition begin_closing (s : ShutdownState) : ShutdownState :=
  mkShutdown true (in_flight s) (abort_handles s) (next_id s).

Definition is_idle (s : ShutdownState) : bool := in_flight s =? 0.

Definition take_abort_handles (s : ShutdownState) : list Z := omap snd (map_to_list (abort_handles s)).

(** ** Connection admission *)

Section Player.
Context {Ip : Type} `{Countable Ip}.

Record LimiterState := mkLimiterState { global : nat; per_ip : gmap Ip nat }.

Definition try_admit (max_conns max_conns_per_ip : nat) (ip : Ip) (st : LimiterState) : LimiterState * bool :=
  if negb (max_conns =? 0)%nat && (max_conns <=? global st)%nat then (st, false) else
  let per := default 0%nat (per_ip st !! ip) in
  let entries := <[ip := per]> (per_ip st) in
  if negb (max_conns_per_ip =? 0)%nat && (max_conns_per_ip <=? per)%nat then (mkLimiterState (global st) entries, false)
  else (mkLimiterState (global st + 1) (<[ip := (per + 1)%nat]> entries), true).

(** [ConnGuard::drop]. *)
Definition drop_conn (ip : Ip) (st : LimiterState) : LimiterState :=
  mkLimiterState (global st - 1)
    match per_ip st !! ip with
    | Some count => if (count - 1 =? 0)%nat then delete ip (per_ip st) else <[ip := (count - 1)%nat]> (per_ip st)
    | None => per_ip st
    end.

(** ** Request buckets *)

Record PlayerRequestLimits := mkLimits { per_ip_rps : Q; per_ip_burst : Z; per_conn_rps : Q; per_conn_burst : Z }.

Record Bucket := mkPBucket { b_tokens : Q; b_last_refill : Z; b_last_seen : Z }.

Definition new_pbucket (burst : Z) (now : Z) : Bucket := mkPBucket (inject_Z burst) now now.

Definition refill (rate : Q) (burst : Z) (now : Z) (b : Bucket) : Bucket :=
  mkPBucket (Qmin (b_tokens b + secs (Z.max 0 (now - b_last_refill b)) * rate) (inject_Z burst)) now now.

Definition spend (b : Bucket) : Bucket := mkPBucket (b_tokens b - 1)%Q (b_last_refill b) (b_last_seen b).

Definition has_token (b : Bucket) : bool := Qle_bool 1 (b_tokens b).

Record RequestLimiter := mkRequestLimiter {
  ips : gmap Ip Bucket;
  conns : gmap Z Bucket;
  next_conn : Z;
  request_count : Z;
}.

Definition new_request_limiter : RequestLimiter := mkRequestLimiter ∅ ∅ 1 0.

Variable limits : PlayerRequestLimits.
(** [Ord] of the address type, the tie-break of the eviction. *)
Variable ip_leb : Ip → Ip → bool.

Definition ip_enabled : bool := negb (Qle_bool (per_ip_rps limits) 0) && (0 <? per_ip_burst limits).
Definition conn_enabled : bool := negb (Qle_bool (per_conn_rps limits) 0) && (0 <? per_conn_burst limits).

Definition connect (now : Z) (r : RequestLimiter) : RequestLimiter * Z :=
  let id := next_conn r in
  (mkRequestLimiter (ips r)
     (if conn_enabled then <[id := new_pbucket (per_conn_burst limits) now]> (conns r) else conns r)
     (id + 1) (request_count r), id).

(** [RequestConnGuard::drop]. *)
Definition drop_request_conn (id : Z) (r : RequestLimiter) : RequestLimiter :=
  mkRequestLimiter (ips r) (delete id (conns r)) (next_conn r) (request_count r).

Definition retain_seen (now : Z) (m : gmap Ip Bucket) : gmap Ip Bucket :=
  filter (fun kv => Z.max 0 (now - b_last_seen (snd kv)) ≤ REQUEST_IP_IDLE) m.

(** [min_by_key] on (last seen, address): the first of the least. *)
Definition older (x y : Ip * Bucket) : bool :=
  (b_last_seen (snd x) <? b_last_seen (snd y))
  || (b_last_seen (snd x) =? b_last_seen (snd y)) && ip_leb (fst x) (fst y).

Definition oldest (m : gmap Ip Bucket) : option Ip :=
  fst <$> foldl (fun best x => match best with
                               | Some y => if older y x then Some y else Some x
                               | None => Some x
                               end) None (map_to_list m).

Definition make_room (now : Z) (m : gmap Ip Bucket) : gmap Ip Bucket :=
  if REQUEST_IP_CAP <=? Z.of_nat (size m) then
    let m := retain_seen now m in
    if REQUEST_IP_CAP <=? Z.of_nat (size m) then match oldest m with Some a => delete a m | None => m end else m
  else m.

Definition admit_ip (now : Z) (ip : Ip) (m : gmap Ip Bucket) : gmap Ip Bucket :=
  if ip_enabled then
    let m := match m !! ip with
             | Some _ => m
             | None => <[ip := new_pbucket (per_ip_burst limits) now]> (make_room now m)
             end in
    alter (refill (per_ip_rps limits) (per_ip_burst limits) now) ip m
  else m.

Definition bucket_ok (enabled : bool) (b : option Bucket) : bool :=
  negb enabled || match b with Some b => has_token b | None => false end.

Definition allow (now : Z) (ip : Ip) (connection_id : Z) (r : RequestLimiter) : RequestLimiter * bool :=
  let sweep := (request_count r) `mod` 256 =? 255 in
  let ips1 := admit_ip now ip (if sweep then retain_seen now (ips r) else ips r) in
  let count := wrap_u64 (request_count r + 1) in
  if conn_enabled && bool_decide (conns r !! connection_id = None)
  then (mkRequestLimiter ips1 (conns r) (next_conn r) count, false) else
  let conns1 := if conn_enabled
                then alter (refill (per_conn_rps limits) (per_conn_burst limits) now) connection_id (conns r)
                else conns r in
  if bucket_ok ip_enabled (ips1 !! ip) && bucket_ok conn_enabled (conns1 !! connection_id)
  then (mkRequestLimiter (if ip_enabled then alter spend ip ips1 else ips1)
          (if conn_enabled then alter spend connection_id conns1 else conns1) (next_conn r) count, true)
  else (mkRequestLimiter ips1 conns1 (next_conn r) count, false).

(** ** One request *)

Record PlayerRequest := mkPlayerRequest {
  p_method : string;
  p_token : option string;
  p_api_key : option string;
  p_payload : bytes;
}.

Section Serve.
Context `{Json} {W : Type}.
Variable player_request_from_slice : bytes → result string PlayerRequest.

Definition PlayerHandler : Type := string → option string → option string → bytes → W → W * Outcome.

Definition dispatch_player (handler : option PlayerHandler) (req_bytes : bytes) (w : W) : W * Response :=
  match player_request_from_slice req_bytes with
  | Err _ => (w, err_response "edge: malformed player request envelope")
  | Ok req =>
      match handler with
      | None => (w, err_response "edge: player front not wired")
      | Some h =>
          match run_caught (h (p_method req) (p_token req) (p_api_key req) (p_payload req) w) with
          | (w', Ok b) => (w', ok_response b)
          | (w', Err e) => (w', err_response (handler_error_string e))
          end
      end
  end.

(** [respond]: the bytes handed to the stream before it is finished. *)
Definition respond (resp : Response) : bytes :=
  match frame_bytes (match response_to_vec resp with Ok b => b | Err _ => encode_failed end) with
  | Ok framed => framed
  | Err _ => []
  end.

(** [serve_stream]; [None]: the stream is dropped without an answer. *)
Definition serve_player (handler : option PlayerHandler) (now : Z) (ip : Ip) (connection_id : Z) (in_time : bool)
    (recv : RecvStream) (r : RequestLimiter) (w : W) : RequestLimiter * W * option bytes :=
  match allow now ip connection_id r with
  | (r', false) => (r', w, Some (respond (err_response "player request rate limit exceeded")))
  | (r', true) =>
      if in_time then
        match snd (read_frame_max MAX_PLAYER_FRAME recv) with
        | Ok req_bytes => let '(w', resp) := dispatch_player handler req_bytes w in (r', w', Some (respond resp))
        | Err (FrameTooLarge size max) =>
            (r', w, Some (respond (err_response ("edge: player frame too large: " +:+ pretty size +:+ " > " +:+ pretty max))))
        | Err _ => (r', w, None)
        end
      else (r', w, None)
  end.
End Serve.

(** ** The listener

    Its connections: a live one has its admission guard, a place in the drain, and
    its request bucket; a stream accepted on it has a place of its own and keeps the
    bucket alive after the connection is gone. *)

Record PlayerConn := mkPlayerConn {
  pc_ip : Ip;
  pc_bucket : Z;
  pc_flight : option Z;
  pc_streams : list Z;
}.

Record Plane := mkPlane {
  pl_limiter : LimiterState;
  pl_requests : RequestLimiter;
  pl_drain : ShutdownState;
  pl_conns : list PlayerConn;
}.

Definition new_plane : Plane := mkPlane (mkLimiterState 0 ∅) new_request_limiter new_shutdown [].

Variables max_conns max_conns_per_ip : nat.

(** The accept arm of [listen]. *)
Definition accept (validated : bool) (ip : Ip) (now : Z) (p : Plane) : Plane :=
  if negb validated then p else
  match try_admit max_conns max_conns_per_ip ip (pl_limiter p) with
  | (lim, false) => mkPlane lim (pl_requests p) (pl_drain p) (pl_conns p)
  | (lim, true) =>
      let '(reqs, bucket) := connect now (pl_requests p) in
      let '(drain, flight) := enter (pl_drain p) in
      mkPlane lim reqs (track flight flight drain) (pl_conns p ++ [mkPlayerConn ip bucket (Some flight) []])
  end.

(** The last owner of the request guard frees the bucket. *)
Definition release (c : PlayerConn) (r : RequestLimiter) : RequestLimiter :=
  match pc_flight c, pc_streams c with
  | None, [] => drop_request_conn (pc_bucket c) r
  | _, _ => r
  end.

Definition settle (c : PlayerConn) : list PlayerConn :=
  match pc_flight c, pc_streams c with None, [] => [] | _, _ => [c] end.

Inductive plane_step : Plane → Plane → Prop :=
| p_accept validated ip now p : plane_step p (accept validated ip now p)
| p_stream lim r d l1 l2 ip b f ss d' sid :
    enter d = (d', sid) →
    plane_step (mkPlane lim r d (l1 ++ mkPlayerConn ip b (Some f) ss :: l2))
               (mkPlane lim r (track sid sid d') (l1 ++ mkPlayerConn ip b (Some f) (sid :: ss) :: l2))
| p_request lim r d l1 l2 ip b f sid ss now r' ok :
    allow now ip b r = (r', ok) →
    plane_step (mkPlane lim r d (l1 ++ mkPlayerConn ip b f (sid :: ss) :: l2))
               (mkPlane lim r' d (l1 ++ mkPlayerConn ip b f (sid :: ss) :: l2))
| p_stream_end lim r d l1 l2 ip b f ss1 sid ss2 c' :
    c' = mkPlayerConn ip b f (ss1 ++ ss2) →
    plane_step (mkPlane lim r d (l1 ++ mkPlayerConn ip b f (ss1 ++ sid :: ss2) :: l2))
               (mkPlane lim (release c' r) (drop_in_flight sid d) (l1 ++ settle c' ++ l2))
| p_conn_end lim r d l1 l2 ip b f ss c' :
    c' = mkPlayerConn ip b None ss →
    plane_step (mkPlane lim r d (l1 ++ mkPlayerConn ip b (Some f) ss :: l2))
               (mkPlane (drop_conn ip lim) (release c' r) (drop_in_flight f d) (l1 ++ settle c' ++ l2))
| p_closing lim r d l : plane_step (mkPlane lim r d l) (mkPlane lim r (begin_closing d) l).

Definition plane_reachable (p : Plane) : Prop := rtc plane_step new_plane p.
End Player.
Arguments LimiterState Ip {_ _}.
Arguments RequestLimiter Ip {_ _}.
Arguments Plane Ip {_ _}.
