(* ===== verification/PlayerSafety.v ===== *)
(** * PlayerSafety: what the player listener keeps true

    Its caps hold, its counters agree with what is alive, and nothing it allocates
    for a connection outlives it, in every state the listener reaches; a connection's
    requests stay within its rate. *)

From Stdlib Require Import Ascii QArith Qminmax Lqa.
From S2P Require Import Prelude Text OpsApi Edge HttpEdge PlayerPlane.
#[local] Open Scope Z_scope.

(** ** The drain state against the places taken in it *)

Record drain_inv (d : ShutdownState) (fs : list Z) : Prop := {
  di_count : in_flight d = Z.of_nat (length fs);
  di_handles : ∀ id, abort_handles d !! id = if decide (id ∈ fs) then Some (Some id) else None;
  di_unique : NoDup fs;
  di_next : ∀ id, id ∈ fs → id < next_id d;
}.

Lemma enter_ok d fs d' id :
  drain_inv d fs → enter d = (d', id) → drain_inv (track id id d') (id :: fs).
Proof.
  intros [H1 H2 H3 H4] [= <- <-]. unfold track. simpl. rewrite lookup_insert_eq. split; simpl.
  - lia.
  - intros i. rewrite insert_insert_eq. destruct (decide (i = next_id d)) as [->|Hne].
    + rewrite lookup_insert_eq. by rewrite decide_True by set_solver.
    + rewrite lookup_insert_ne, H2 by done. destruct (decide (i ∈ fs)); [rewrite decide_True by set_solver|rewrite decide_False by set_solver]; done.
  - constructor; [|done]. intros Hin%H4. lia.
  - intros i [->|Hi]%elem_of_cons; [lia|]. apply H4 in Hi. lia.
Qed.

Lemma drop_in_flight_ok d fs id fs' : drain_inv d fs → fs ≡ₚ id :: fs' → drain_inv (drop_in_flight id d) fs'.
Proof.
  intros [H1 H2 H3 H4] Hp. pose proof H3 as Hnd. rewrite Hp in Hnd. apply NoDup_cons in Hnd as [Hni Hnd]. split; simpl.
  - rewrite H1, Hp. simpl. lia.
  - intros i. destruct (decide (i = id)) as [->|Hne].
    + rewrite lookup_delete_eq. by rewrite decide_False.
    + rewrite lookup_delete_ne, H2 by done. destruct (decide (i ∈ fs)) as [Hi|Hi]; rewrite Hp in Hi.
      * rewrite decide_True; [done|set_solver].
      * rewrite decide_False; [done|set_solver].
  - done.
  - intros i Hi. apply H4. rewrite Hp. by right.
Qed.

Lemma drain_inv_perm d fs fs' : fs ≡ₚ fs' → drain_inv d fs → drain_inv d fs'.
Proof.
  intros Hp [H1 H2 H3 H4]. split; [by rewrite <- Hp| |by rewrite <- Hp|intros i; rewrite <- Hp; apply H4].
  intros i. rewrite H2. destruct (decide (i ∈ fs)) as [Hi|Hi]; rewrite Hp in Hi; [by rewrite decide_True|by rewrite decide_False].
Qed.

Lemma take_abort_handles_ok d fs id : drain_inv d fs → id ∈ take_abort_handles d ↔ id ∈ fs.
Proof.
  intros [_ H2 _ _]. unfold take_abort_handles. rewrite list_elem_of_omap. split.
  - intros ([i o] & Hin%elem_of_map_to_list & Ho). simpl in Ho. subst o. rewrite H2 in Hin. case_decide; naive_solver.
  - intros Hid. exists (id, Some id). rewrite elem_of_map_to_list, H2, decide_True by done. done.
Qed.

(** ** The connection limiter against the addresses connected *)

Section Player.
Context {Ip : Type} `{Countable Ip}.
Variable limits : PlayerRequestLimits.
Variable ip_leb : Ip → Ip → bool.
Variables max_conns max_conns_per_ip : nat.

Definition count (ip : Ip) (us : list Ip) : nat := length (filter (.= ip) us).

Record lim_inv (lim : LimiterState Ip) (us : list Ip) : Prop := {
  li_global : global lim = length us;
  li_per_ip : ∀ ip, per_ip lim !! ip = if decide (count ip us = 0)%nat then None else Some (count ip us);
  li_cap : max_conns ≠ 0%nat → (length us <= max_conns)%nat;
  li_ip_cap : max_conns_per_ip ≠ 0%nat → ∀ ip, (count ip us <= max_conns_per_ip)%nat;
}.

Lemma count_cons ip ip' us : count ip (ip' :: us) = ((if decide (ip' = ip) then 1 else 0) + count ip us)%nat.
Proof. unfold count. rewrite filter_cons. by case_decide. Qed.

Lemma count_perm ip us us' : us ≡ₚ us' → count ip us = count ip us'.
Proof. intros Hp. unfold count. by rewrite Hp. Qed.

Lemma lim_inv_perm lim us us' : us ≡ₚ us' → lim_inv lim us → lim_inv lim us'.
Proof.
  intros Hp [H1 H2 H3 H4]. split; [by rewrite <- Hp| |intros; rewrite <- Hp; auto|].
  - intros ip. by rewrite <- (count_perm ip us us' Hp).
  - intros Hm ip. rewrite <- (count_perm ip us us' Hp). auto.
Qed.

Lemma try_admit_ok lim us ip lim' ok :
  lim_inv lim us → try_admit max_conns max_conns_per_ip ip lim = (lim', ok) →
  if ok then lim_inv lim' (ip :: us) else lim' = lim.
Proof.
  intros [H1 H2 H3 H4]. unfold try_admit. rewrite H2.
  destruct (negb (max_conns =? 0)%nat && (max_conns <=? global lim)%nat) eqn:E1; [by intros [= <- <-]|].
  assert (default 0%nat (if decide (count ip us = 0)%nat then None else Some (count ip us)) = count ip us) as ->
    by (case_decide; [done|done]).
  destruct (negb (max_conns_per_ip =? 0)%nat && (max_conns_per_ip <=? count ip us)%nat) eqn:E2; intros [= <- <-].
  - apply andb_true_iff in E2 as [E2 E3]. apply negb_true_iff, Nat.eqb_neq in E2. apply Nat.leb_le in E3.
    destruct lim as [g m]. f_equal. simpl in *. apply insert_id. rewrite H2. by rewrite decide_False by lia.
  - assert (max_conns ≠ 0%nat → (length us < max_conns)%nat) as Hc.
    { intros Hm. destruct (max_conns <=? global lim)%nat eqn:E; [|apply Nat.leb_gt in E; lia].
      rewrite andb_true_r in E1. apply negb_false_iff, Nat.eqb_eq in E1. done. }
    assert (max_conns_per_ip ≠ 0%nat → (count ip us < max_conns_per_ip)%nat) as Hi.
    { intros Hm. destruct (max_conns_per_ip <=? count ip us)%nat eqn:E; [|by apply Nat.leb_gt in E].
      rewrite andb_true_r in E2. apply negb_false_iff, Nat.eqb_eq in E2. done. }
    split; simpl; [lia| |lia|].
    + intros a. rewrite count_cons, insert_insert_eq. destruct (decide (ip = a)) as [->|Hne].
      * rewrite lookup_insert_eq, decide_False by lia. f_equal. lia.
      * by rewrite lookup_insert_ne, H2 by done.
    + intros Hm a. rewrite count_cons. specialize (Hi Hm). specialize (H4 Hm a). destruct (decide (ip = a)) as [->|]; lia.
Qed.

Lemma drop_conn_ok lim us ip us' : lim_inv lim us → us ≡ₚ ip :: us' → lim_inv (drop_conn ip lim) us'.
Proof.
  intros Hinv Hp. apply (lim_inv_perm _ _ _ Hp) in Hinv as [H1 H2 H3 H4]. unfold drop_conn.
  assert (per_ip lim !! ip = Some (S (count ip us'))) as Hip.
  { rewrite H2, count_cons, (decide_True (P := ip = ip)) by done. by rewrite decide_False. }
  rewrite Hip. replace (S (count ip us') - 1)%nat with (count ip us') by lia. split; simpl.
  - rewrite H1. simpl. lia.
  - intros a. destruct (decide (ip = a)) as [<-|Hne].
    + destruct (count ip us' =? 0)%nat eqn:E.
      * apply Nat.eqb_eq in E. by rewrite lookup_delete_eq, E, decide_True.
      * apply Nat.eqb_neq in E. by rewrite lookup_insert_eq, decide_False.
    + specialize (H2 a). rewrite count_cons, (decide_False (P := ip = a)) in H2 by done. simpl in H2.
      destruct (count ip us' =? 0)%nat; [by rewrite lookup_delete_ne|by rewrite lookup_insert_ne].
  - intros Hm. specialize (H3 Hm). simpl in H3. lia.
  - intros Hm a. specialize (H4 Hm a). rewrite count_cons in H4. lia.
Qed.

(** ** The request buckets against the connections that own one *)

Abbreviation conn_on := (conn_enabled limits).

Record req_inv (r : RequestLimiter Ip) (bs : list Z) : Prop := {
  qi_buckets : ∀ id, is_Some (conns r !! id) ↔ conn_on = true ∧ id ∈ bs;
  qi_unique : NoDup bs;
  qi_next : ∀ id, id ∈ bs → id < next_conn r;
  qi_ips : Z.of_nat (size (ips r)) ≤ REQUEST_IP_CAP;
}.

Lemma connect_ok r bs now r' id : req_inv r bs → connect limits now r = (r', id) → req_inv r' (id :: bs).
Proof.
  intros [H1 H2 H3 H4] [= <- <-]. split; simpl; [|constructor; [|done]| |done].
  - intros id. destruct conn_on eqn:E.
    + destruct (decide (id = next_conn r)) as [->|Hne]; [rewrite lookup_insert_eq|rewrite lookup_insert_ne by done].
      * split; [intros _; split; [done|by left]|by eexists].
      * rewrite H1. set_solver.
    + rewrite H1. naive_solver.
  - intros Hin%H3. lia.
  - intros id [->|Hid]%elem_of_cons; [lia|]. apply H3 in Hid. lia.
Qed.

Lemma drop_request_conn_ok r bs id bs' : req_inv r bs → bs ≡ₚ id :: bs' → req_inv (drop_request_conn id r) bs'.
Proof.
  intros [H1 H2 H3 H4] Hp. pose proof H2 as Hnd. rewrite Hp in Hnd. apply NoDup_cons in Hnd as [Hni Hnd].
  split; simpl; [|done| |done].
  - intros i. destruct (decide (i = id)) as [->|Hne].
    + rewrite lookup_delete_eq. split; [by intros []|]. by intros [_ ?].
    + rewrite lookup_delete_ne, H1, Hp, elem_of_cons by done. naive_solver.
  - intros i Hi. apply H3. rewrite Hp. by right.
Qed.

Lemma req_inv_perm r bs bs' : bs ≡ₚ bs' → req_inv r bs → req_inv r bs'.
Proof.
  intros Hp [H1 H2 H3 H4]. split; [|by rewrite <- Hp|intros i; rewrite <- Hp; apply H3|done].
  intros i. rewrite H1. by rewrite Hp.
Qed.

Lemma size_retain now (m : gmap Ip Bucket) : (size (retain_seen now m) <= size m)%nat.
Proof. unfold retain_seen. apply map_subseteq_size. apply map_filter_subseteq. Qed.

Lemma oldest_elem (m : gmap Ip Bucket) : m ≠ ∅ → ∃ a, oldest ip_leb m = Some a ∧ is_Some (m !! a).
Proof.
  intros Hm. unfold oldest.
  assert (∀ l acc, (acc : option (Ip * Bucket)) ≠ None ∨ l ≠ [] →
    ∃ x, foldl (fun best x => match best with
                               | Some y => if older ip_leb y x then Some y else Some x
                               | None => Some x
                               end) acc l = Some x ∧ (acc = Some x ∨ x ∈ l)) as Hf.
  { induction l as [|y l IH]; intros acc Hne; simpl; [destruct acc; naive_solver|].
    destruct (IH (match acc with Some z => if older ip_leb z y then Some z else Some y | None => Some y end)) as (x & -> & Hx).
    { left. destruct acc as [z|]; [by destruct (older ip_leb z y)|done]. }
    exists x. split; [done|]. destruct acc as [z|]; [destruct (older ip_leb z y)|]; destruct Hx as [[= ->]|Hx]; set_solver. }
  destruct (Hf (map_to_list m) None) as ([a b] & -> & [[=]|Hin]); [right; by rewrite map_to_list_empty_iff|].
  exists a. split; [done|]. apply elem_of_map_to_list in Hin. by eexists.
Qed.

Lemma size_make_room now (m : gmap Ip Bucket) : Z.of_nat (size m) ≤ REQUEST_IP_CAP → Z.of_nat (size (make_room ip_leb now m)) < REQUEST_IP_CAP.
Proof.
  intros Hs. unfold make_room. pose proof (size_retain now m) as Hr.
  destruct (_ <=? Z.of_nat (size m)) eqn:E1; [|apply Z.leb_gt in E1; lia].
  destruct (_ <=? Z.of_nat (size (retain_seen now m))) eqn:E2; [|apply Z.leb_gt in E2; lia].
  apply Z.leb_le in E2. destruct (oldest_elem (retain_seen now m)) as (a & -> & [b Hb]).
  { intros He. rewrite He, map_size_empty in E2. unfold REQUEST_IP_CAP in E2. lia. }
  rewrite map_size_delete_Some by (by eexists). unfold REQUEST_IP_CAP in *. lia.
Qed.

Lemma size_alter (f : Bucket → Bucket) (ip : Ip) (m : gmap Ip Bucket) : size (alter f ip m) = size m.
Proof. by rewrite <- !(size_dom (D := gset Ip)), dom_alter_L. Qed.

Lemma size_admit_ip now ip m :
  Z.of_nat (size m) ≤ REQUEST_IP_CAP → Z.of_nat (size (admit_ip limits ip_leb now ip m)) ≤ REQUEST_IP_CAP.
Proof.
  intros Hs. unfold admit_ip. destruct (ip_enabled limits); [|done]. rewrite size_alter.
  destruct (m !! ip); [done|]. pose proof (size_make_room now m Hs).
  rewrite map_size_insert. destruct (_ !! ip); simpl; lia.
Qed.

Lemma allow_ok r bs now ip id r' ok :
  req_inv r bs → allow limits ip_leb now ip id r = (r', ok) → req_inv r' bs.
Proof.
  intros [H1 H2 H3 H4] Ha.
  assert (next_conn r' = next_conn r ∧ (∀ i, is_Some (conns r' !! i) ↔ is_Some (conns r !! i))
          ∧ size (ips r') = size (admit_ip limits ip_leb now ip
                     (if request_count r `mod` 256 =? 255 then retain_seen now (ips r) else ips r))) as (Hn & Hc & Hi).
  { unfold allow in Ha. repeat case_match; injection Ha as <- <-; simpl; rewrite ?size_alter;
      (split_and!; [done| |done]); intros i; rewrite ?lookup_alter_is_Some; done. }
  split; [intros i; by rewrite Hc|done|by rewrite Hn|]. rewrite Hi. apply size_admit_ip.
  case_match; [|done]. pose proof (size_retain now (ips r)). lia.
Qed.

(** ** The listener *)

(** The address a connection is counted under, the places it and its streams take. *)
Definition up_ip (c : PlayerConn (Ip := Ip)) : option Ip := match pc_flight c with Some _ => Some (pc_ip c) | None => None end.
Definition flights (c : PlayerConn (Ip := Ip)) : list Z :=
  match pc_flight c with Some f => f :: pc_streams c | None => pc_streams c end.

Record plane_inv (p : Plane Ip) : Prop := {
  pv_lim : lim_inv (pl_limiter p) (omap up_ip (pl_conns p));
  pv_drain : drain_inv (pl_drain p) (pl_conns p ≫= flights);
  pv_req : req_inv (pl_requests p) (map pc_bucket (pl_conns p));
}.

Abbreviation step := (plane_step limits ip_leb max_conns max_conns_per_ip).

Lemma accept_inv validated ip now p : plane_inv p → plane_inv (accept limits max_conns max_conns_per_ip validated ip now p).
Proof.
  intros [H1 H2 H3]. unfold accept. destruct (negb validated); [done|].
  destruct (try_admit _ _ _ _) as [lim ok] eqn:Et. pose proof (try_admit_ok _ _ _ _ _ H1 Et) as Hl.
  destruct ok; [|subst lim; done].
  destruct (connect _ _ _) as [reqs b] eqn:Ec. pose proof (connect_ok _ _ _ _ _ H3 Ec) as Hq.
  destruct (enter _) as [d f] eqn:Ee. pose proof (enter_ok _ _ _ _ H2 Ee) as Hd. split; simpl.
  - rewrite omap_app. simpl. eapply lim_inv_perm; [|exact Hl]. by rewrite <- Permutation_cons_append.
  - rewrite bind_app. simpl. eapply drain_inv_perm; [|exact Hd]. by rewrite <- Permutation_cons_append.
  - rewrite map_app. simpl. eapply req_inv_perm; [|exact Hq]. by rewrite <- Permutation_cons_append.
Qed.

Lemma settle_up c : omap up_ip (settle c) = omap up_ip [c].
Proof. destruct c as [ip b [f|] [|s ss]]; done. Qed.

Lemma settle_flights c : settle c ≫= flights = [c] ≫= flights.
Proof. destruct c as [ip b [f|] [|s ss]]; done. Qed.

(** What ending a stream or a connection does to the request buckets. *)
Lemma release_inv r l1 (c : PlayerConn (Ip := Ip)) l2 :
  req_inv r (map pc_bucket (l1 ++ c :: l2)) → req_inv (release c r) (map pc_bucket (l1 ++ settle c ++ l2)).
Proof.
  intros Hq. destruct c as [ip b [f|] [|s ss]]; try done. eapply drop_request_conn_ok; [exact Hq|].
  simpl. rewrite !map_app. simpl. by rewrite <- Permutation_middle.
Qed.

Lemma plane_step_inv p p' : plane_inv p → step p p' → plane_inv p'.
Proof.
  intros Hinv Hs. destruct Hs as [v ip now p|lim r d l1 l2 ip b f ss d' sid Hd|lim r d l1 l2 ip b f sid ss now r' ok Ha
    |lim r d l1 l2 ip b f ss1 sid ss2 c' ->|lim r d l1 l2 ip b f ss c' ->|lim r d l].
  - by apply accept_inv.
  - destruct Hinv as [H1 H2 H3]; simpl in *. split; simpl.
    + by rewrite omap_app in *.
    + eapply drain_inv_perm; [|exact (enter_ok _ _ _ _ H2 Hd)]. rewrite !bind_app. unfold flights. simpl.
      solve_Permutation.
    + by rewrite map_app in *.
  - destruct Hinv as [H1 H2 H3]; simpl in *. split; simpl; [done..|]. by eapply allow_ok.
  - destruct Hinv as [H1 H2 H3]; simpl in *. split; simpl.
    + rewrite !omap_app, settle_up. rewrite omap_app in H1. simpl in *. by destruct f.
    + eapply drop_in_flight_ok; [exact H2|]. rewrite !bind_app, settle_flights. unfold flights. simpl.
      destruct f; simpl; solve_Permutation.
    + apply release_inv. by rewrite map_app in *.
  - destruct Hinv as [H1 H2 H3]; simpl in *. split; simpl.
    + eapply drop_conn_ok; [exact H1|]. rewrite !omap_app, settle_up. simpl. solve_Permutation.
    + eapply drop_in_flight_ok; [exact H2|]. rewrite !bind_app, settle_flights. unfold flights. simpl. solve_Permutation.
    + apply release_inv. by rewrite map_app in *.
  - destruct Hinv as [H1 [D1 D2 D3 D4] H3]; simpl in *. split; simpl; [done|by split|done].
Qed.

Lemma plane_reachable_inv p : plane_reachable limits ip_leb max_conns max_conns_per_ip p → plane_inv p.
Proof.
  unfold plane_reachable. revert p. apply rtc_ind_r; [|by eauto using plane_step_inv].
  split; simpl.
  - split; simpl; [done| |lia|unfold count; simpl; lia]. intros ip. by rewrite lookup_empty.
  - split; simpl; [done| |constructor|set_solver]. intros id. by rewrite lookup_empty.
  - split; simpl; [|constructor|set_solver|by rewrite map_size_empty].
    intros id. rewrite lookup_empty. split; [by intros []|set_solver].
Qed.


(** ** A connection's rate *)

Abbreviation crate := (per_conn_rps limits).
Abbreviation cburst := (inject_Z (per_conn_burst limits)).

Inductive ReqEvent := EReq (now : Z) (ip : Ip) (id : Z) | EConnect (now : Z) | EDrop (now : Z) (id : Z).

Definition rtime (e : ReqEvent) : Z := match e with EReq now _ _ | EConnect now | EDrop now _ => now end.

Definition rq_step (r : RequestLimiter Ip) (e : ReqEvent) : RequestLimiter Ip * bool :=
  match e with
  | EReq now ip id => allow limits ip_leb now ip id r
  | EConnect now => (fst (connect limits now r), false)
  | EDrop _ id => (drop_request_conn id r, false)
  end.

Definition of_conn (id : Z) (e : ReqEvent) : bool := match e with EReq _ _ id' => bool_decide (id' = id) | _ => false end.

(** How many requests of connection [id] are let through. *)
Fixpoint let_through (id : Z) (r : RequestLimiter Ip) (es : list ReqEvent) : Z :=
  match es with
  | [] => 0
  | e :: es' => let '(r', ok) := rq_step r e in (if of_conn id e && ok then 1 else 0) + let_through id r' es'
  end.

Fixpoint rq_ordered (t : Z) (es : list ReqEvent) : Prop :=
  match es with [] => True | e :: es' => t ≤ rtime e ∧ rq_ordered (rtime e) es' end.
Fixpoint rq_end (t : Z) (es : list ReqEvent) : Z := match es with [] => t | e :: es' => rq_end (rtime e) es' end.

Record rate_ok (t id : Z) (r : RequestLimiter Ip) : Prop := {
  ro_bucket : ∀ b, conns r !! id = Some b → (0 <= b_tokens b <= cburst)%Q ∧ b_last_refill b ≤ t;
  ro_next : id < next_conn r;
}.

Definition pcredit (t id : Z) (r : RequestLimiter Ip) : Q :=
  match conns r !! id with
  | Some b => Qmin (b_tokens b + secs (t - b_last_refill b) * crate) cburst
  | None => 0%Q
  end.

Lemma pcredit_same t t' id r r' :
  t ≤ t' → (0 <= crate)%Q → rate_ok t id r → conns r' !! id = conns r !! id → next_conn r ≤ next_conn r' →
  rate_ok t' id r' ∧ (pcredit t' id r' <= pcredit t id r + secs (t' - t) * crate)%Q.
Proof.
  intros Ht Hr [H1 H2] Hc Hn. split.
  - split; [|lia]. intros b Hb. rewrite Hc in Hb. destruct (H1 b Hb). split; [done|lia].
  - unfold pcredit. rewrite Hc. destruct (conns r !! id) as [b|]; [by apply refill_advance|].
    assert (0 <= secs (t' - t) * crate)%Q by (apply Qmult_le_0_compat; [apply secs_nonneg; lia|done]). lra.
Qed.

(** A bucket after a request: refilled, and paid for if the request went through. *)
Lemma allow_bucket now ip id r r' ok b :
  conn_on = true → conns r !! id = Some b → allow limits ip_leb now ip id r = (r', ok) →
  next_conn r' = next_conn r ∧
  (ok = false ∧ conns r' !! id = Some (refill crate (per_conn_burst limits) now b)
   ∨ ok = true ∧ has_token (refill crate (per_conn_burst limits) now b) = true
     ∧ conns r' !! id = Some (spend (refill crate (per_conn_burst limits) now b))).
Proof.
  intros He Hb. unfold allow. rewrite He, Hb. rewrite bool_decide_false by done. simpl.
  rewrite lookup_alter_eq, Hb. simpl. destruct (bucket_ok (ip_enabled limits) _); simpl.
  2:{ intros [= <- <-]. simpl. rewrite lookup_alter_eq, Hb. by auto. }
  unfold bucket_ok. simpl. destruct (has_token _) eqn:Eh; intros [= <- <-]; simpl; rewrite ?lookup_alter_eq, Hb; simpl; by auto.
Qed.

Lemma allow_other now ip id id' r r' ok :
  id ≠ id' → allow limits ip_leb now ip id' r = (r', ok) → conns r' !! id = conns r !! id ∧ next_conn r' = next_conn r.
Proof.
  intros Hne Ha. unfold allow in Ha. repeat case_match; injection Ha as <- <-; simpl; by rewrite ?lookup_alter_ne by done.
Qed.

Lemma refill_paid now t b :
  (0 <= crate)%Q → (0 <= b_tokens b <= cburst)%Q → b_last_refill b ≤ t → t ≤ now →
  let x := b_tokens (refill crate (per_conn_burst limits) now b) in
  (0 <= x <= cburst)%Q ∧ (x <= Qmin (b_tokens b + secs (t - b_last_refill b) * crate) cburst + secs (now - t) * crate)%Q.
Proof.
  intros Hr [Hb0 Hb1] Hl Ht. simpl. rewrite Z.max_r by lia. split; [|by apply refill_advance].
  assert (0 <= secs (now - b_last_refill b) * crate)%Q by (apply Qmult_le_0_compat; [apply secs_nonneg; lia|done]).
  destruct (qmin_spec (b_tokens b + secs (now - b_last_refill b) * crate) cburst) as [[? E]|[? E]]; rewrite E; lra.
Qed.

Lemma settled_credit tk b r now : (Qmin (tk + secs (now - now) * r) b <= tk)%Q.
Proof.
  assert (secs (now - now) * r == 0)%Q as Hz by (unfold secs; rewrite Z.sub_diag; ring).
  destruct (qmin_spec (tk + secs (now - now) * r) b) as [[? E]|[? E]]; rewrite E; lra.
Qed.

Lemma rq_step_spec t id e r r' ok :
  conn_on = true → (0 <= crate)%Q → rate_ok t id r → t ≤ rtime e → rq_step r e = (r', ok) →
  rate_ok (rtime e) id r'
  ∧ ((if of_conn id e && ok then 1 else 0) + pcredit (rtime e) id r' <= pcredit t id r + secs (rtime e - t) * crate)%Q.
Proof.
  intros He Hr Hok Ht Hs.
  assert (∀ r1, conns r1 !! id = conns r !! id → next_conn r ≤ next_conn r1 →
    rate_ok (rtime e) id r1 ∧ (0 + pcredit (rtime e) id r1 <= pcredit t id r + secs (rtime e - t) * crate)%Q) as Hsame.
  { intros r1 H1 H2. destruct (pcredit_same t (rtime e) id r r1 Ht Hr Hok H1 H2) as [? ?]. split; [done|lra]. }
  destruct e as [now ip id'|now|now id']; simpl in *.
  - case_bool_decide as Hid; [subst id'|].
    2:{ destruct (allow_other _ _ _ _ _ _ _ (not_eq_sym Hid) Hs) as [H1 H2]. apply Hsame; [done|lia]. }
    destruct (conns r !! id) as [b|] eqn:Eb.
    + destruct Hok as [Hb Hn]. destruct (Hb b Eb) as [Hbt Hbl].
      destruct (refill_paid now t b Hr Hbt Hbl Ht) as [Hx Hpay].
      destruct (allow_bucket now ip id r r' ok b He Eb Hs) as [Hn' Hc]. unfold pcredit. rewrite Eb.
      remember (refill crate (per_conn_burst limits) now b) as x eqn:Ex.
      assert (b_last_refill x = now) as Hxl by by rewrite Ex. clear Ex.
      destruct Hc as [[-> Hc]|(-> & Htok & Hc)]; rewrite Hc.
      * split; [split; [|lia]; rewrite Hc; intros ? [= <-]; split; [done|lia]|].
        rewrite Hxl. pose proof (settled_credit (b_tokens x) cburst crate now). cbn [andb]. lra.
      * apply Qle_bool_iff in Htok. split; [split; [|lia]; rewrite Hc; intros ? [= <-]; cbn; split; [lra|lia]|].
        cbn [b_tokens b_last_refill spend andb]. rewrite Hxl.
        pose proof (settled_credit (b_tokens x - 1) cburst crate now). lra.
    + unfold allow in Hs. rewrite He, Eb, bool_decide_true in Hs by done. injection Hs as <- <-. apply Hsame; simpl; [congruence|lia].
  - injection Hs as <- <-. rewrite He. apply Hsame; simpl; [|lia]. rewrite lookup_insert_ne; [done|]. destruct Hok. lia.
  - injection Hs as <- <-. destruct (decide (id = id')) as [<-|Hne].
    + split; [split; [|apply Hok]; simpl; by rewrite lookup_delete_eq|]. unfold pcredit at 1. simpl. rewrite lookup_delete_eq.
      destruct (Hsame r eq_refl ltac:(lia)) as [[Hb _] Hp]. unfold pcredit in *. destruct (conns r !! id) as [b|] eqn:Eb; [|lra].
      destruct (Hb b eq_refl) as [Hbt Hbl].
      assert (0 <= secs (now - b_last_refill b) * crate)%Q by (apply Qmult_le_0_compat; [apply secs_nonneg; lia|done]).
      destruct (qmin_spec (b_tokens b + secs (now - b_last_refill b) * crate) cburst) as [[? E]|[? E]]; rewrite E in Hp; lra.
    + apply Hsame; simpl; [by rewrite lookup_delete_ne|lia].
Qed.

Lemma let_through_bound t id es r :
  conn_on = true → (0 <= crate)%Q → rate_ok t id r → rq_ordered t es →
  (inject_Z (let_through id r es) <= pcredit t id r + secs (rq_end t es - t) * crate)%Q.
Proof.
  intros He Hr. revert t r. induction es as [|e es IH]; intros t r Hok Ho; simpl.
  - assert (0 <= pcredit t id r)%Q.
    { unfold pcredit. destruct (conns r !! id) as [b|] eqn:Eb; [|lra]. destruct (ro_bucket _ _ _ Hok b Eb) as [Hbt Hbl].
      assert (0 <= secs (t - b_last_refill b) * crate)%Q by (apply Qmult_le_0_compat; [apply secs_nonneg; lia|done]).
      destruct (qmin_spec (b_tokens b + secs (t - b_last_refill b) * crate) cburst) as [[? E]|[? E]]; rewrite E; lra. }
    assert (secs (t - t) * crate == 0)%Q as -> by (unfold secs; rewrite Z.sub_diag; ring).
    change (inject_Z 0) with 0%Q. lra.
  - destruct Ho as [Ht Ho]. destruct (rq_step r e) as [r' ok] eqn:Es.
    destruct (rq_step_spec t id e r r' ok He Hr Hok Ht Es) as [Hok' Hp]. specialize (IH _ _ Hok' Ho).
    assert (secs (rq_end (rtime e) es - t) * crate
            == secs (rtime e - t) * crate + secs (rq_end (rtime e) es - rtime e) * crate)%Q as ->.
    { replace (rq_end (rtime e) es - t) with ((rtime e - t) + (rq_end (rtime e) es - rtime e)) by lia.
      rewrite secs_add. ring. }
    rewrite inject_Z_plus. destruct (of_conn id e && ok); [change (inject_Z 1) with 1%Q|change (inject_Z 0) with 0%Q]; lra.
Qed.

(** From the moment it is admitted, a connection gets at most its burst plus its
    rate times the time elapsed let through, whatever addresses its requests are
    counted under, whatever the other connections do, and however the address
    table is swept or evicted. *)
Theorem connection_rate_bounded t0 r r0 id es :
  conn_on = true → connect limits t0 r = (r0, id) → rq_ordered t0 es →
  (inject_Z (let_through id r0 es) <= cburst + secs (rq_end t0 es - t0) * crate)%Q.
Proof.
  intros He [= <- <-] Ho. pose proof He as Hon. unfold conn_enabled in Hon. apply andb_true_iff in Hon as [Hr Hb].
  apply negb_true_iff in Hr. apply Z.ltb_lt in Hb.
  assert (0 <= crate)%Q as Hr0.
  { apply Qnot_lt_le. intros Hlt. apply Qlt_le_weak, Qle_bool_iff in Hlt. congruence. }
  assert (0 <= cburst)%Q as Hb0 by (unfold Qle; simpl; lia).
  rewrite He. eapply Qle_trans; [apply (let_through_bound t0); [done|done| |done]|].
  - split; simpl; [|lia]. rewrite lookup_insert_eq. intros b [= <-]. simpl. split; [lra|lia].
  - unfold pcredit. simpl. rewrite lookup_insert_eq. simpl.
    destruct (qmin_spec (cburst + secs (t0 - t0) * crate) cburst) as [[? E]|[? E]]; rewrite E; lra.
Qed.

(** ** One request *)

Lemma read_frame_max_size max s s' b : 0 ≤ max → read_frame_max max s = (s', Ok b) → size_of b ≤ max.
Proof.
  intros Hm. unfold read_frame_max. intros (s1 & len & _ & Hd)%st_bind_ok.
  destruct (max <? from_be_bytes len) eqn:E; [done|]. apply Z.ltb_ge in E.
  apply st_map_err_ok in Hd. unfold read_exact in Hd. case_bool_decide as Hl; [|done]. injection Hd as _ <-.
  unfold size_of. rewrite length_take. lia.
Qed.

Section Serve.
Context `{Json} {W : Type}.
Variable player_request_from_slice : bytes → result string PlayerRequest.

Lemma ok_response_code b : resp_code (ok_response b) = None.
Proof. unfold ok_response. destruct b; [done|]. by destruct (raw_value _). Qed.

(** The front's handler runs at most once for a stream, and only for a request the
    limiter let through, whose frame arrived whole and within the player cap and
    parsed; it gets exactly the envelope's claims.  Every reply the plane sends is
    code-less, so no player-facing error can pose as a typed internal one. *)
Theorem player_request_contained handler now ip id in_time recv r (w : W) r' w' o :
  serve_player limits ip_leb player_request_from_slice handler now ip id in_time recv r w = (r', w', o) →
  r' = fst (allow limits ip_leb now ip id r)
  ∧ (w' = w ∨ ∃ h b req out, handler = Some h ∧ snd (allow limits ip_leb now ip id r) = true ∧ in_time = true
       ∧ snd (read_frame_max MAX_PLAYER_FRAME recv) = Ok b ∧ size_of b ≤ MAX_PLAYER_FRAME
       ∧ player_request_from_slice b = Ok req
       ∧ h (p_method req) (p_token req) (p_api_key req) (p_payload req) w = (w', out))
  ∧ (∀ sent, o = Some sent → ∃ resp, sent = respond resp ∧ resp_code resp = None).
Proof.
  unfold serve_player. destruct (allow limits ip_leb now ip id r) as [r1 ok]. simpl.
  destruct ok; [|intros [= <- <- <-]; split_and!; [done|by left|intros s [= <-]; eauto]].
  destruct in_time; [|intros [= <- <- <-]; split_and!; [done|by left|done]].
  destruct (read_frame_max MAX_PLAYER_FRAME recv) as [s1 [b|e]] eqn:Er; simpl.
  2:{ destruct e; intros [= <- <- <-]; split_and!; try done; try (by left). intros s [= <-]. eauto. }
  apply read_frame_max_size in Er; [|done].
  unfold dispatch_player. destruct (player_request_from_slice b) as [req|e] eqn:Ep;
    [|intros [= <- <- <-]; split_and!; [done|by left|intros s [= <-]; eauto]].
  destruct handler as [h|]; [|intros [= <- <- <-]; split_and!; [done|by left|intros s [= <-]; eauto]].
  destruct (h _ _ _ _ w) as [w1 out] eqn:Eh.
  assert (∃ resp, resp_code resp = None ∧
    match run_caught (w1, out) with
    | (w', Ok b) => (w', ok_response b)
    | (w', Err e) => (w', err_response (handler_error_string e))
    end = (w1, resp)) as (resp & Hc & ->).
  { destruct out as [[x|x]|x]; simpl; (eexists; split; [|reflexivity]); auto using ok_response_code. }
  intros [= <- <- <-]. split_and!; [done| |intros s [= <-]; eauto].
  right. exists h, b, req, out. by split_and!.
Qed.
End Serve.
End Player.

(** ** Instances *)

Module PlayerExample.
Definition limits : PlayerRequestLimits := mkLimits 20 40 10 2.
Definition leb (a b : nat) : bool := (a <=? b)%nat.
Abbreviation step := (plane_step limits leb 2 1).

Definition two_dials : Plane nat := accept limits 2 1 true 7%nat 100 (accept limits 2 1 true 7%nat 50 (new_plane (Ip := nat))).
End PlayerExample.


Lemma connection_rate_bounded_witness :
  let es := [EReq 0 5%nat 1; EReq 0 6%nat 1; EReq 0 7%nat 1; EReq 100000000 8%nat 1] in
  let r0 := fst (connect PlayerExample.limits 0 (new_request_limiter (Ip := nat))) in
  let_through PlayerExample.limits PlayerExample.leb 1 r0 es = 3
  ∧ (inject_Z (let_through PlayerExample.limits PlayerExample.leb 1 r0 es)
     <= inject_Z 2 + secs (rq_end 0 es - 0) * 10)%Q.
Proof.
  split; [vm_compute; reflexivity|].
  refine (connection_rate_bounded PlayerExample.limits PlayerExample.leb 0 new_request_limiter _ 1 _ _ _ _).
  - vm_compute. reflexivity.
  - reflexivity.
  - simpl. lia.
Defined.
