(* ===== verification/Party.v ===== *)
(** * Party: short-lived parties ([modules/party/src])

    The statements of [store.rs], the operations of [service.rs] and the sweep of
    [sweep.rs].  Tables are maps by primary key; a uuid is the server's canonical
    text.  Every operation is one or more transactions; what it read before its
    transaction took the party's lock may be stale by then, so the transactions
    ([.._txn]) take those readings as arguments and re-check them as the code does.
    A transaction is one step: the roster and the row of a party only change under
    that party's advisory lock. *)

From Stdlib Require Import Ascii.
From stdpp Require Import sorting pretty.
From S2P Require Import Prelude Text OpsApi Pg Directory.
#[local] Open Scope Z_scope.

Definition MAX_MEMBERS : Z := 8.
Definition READY : string := "ready".
Definition NOT_READY : string := "not_ready".
Definition INVITE_TTL_SECS : Z := 120.
Definition MEMBERSHIP_ATTEMPTS : nat := 3.
Definition SWEEP_BATCH : nat := 64.

Definition NOT_FOUND : string := "party not found".
Definition INVITE_NOT_FOUND : string := "invite not found".
Definition NO_SUCH_PLAYER : string := "no player with that handle".
Definition ALREADY_IN_PARTY : string := "already in a party".

Definition DEFAULT_LEASE_SECS : Z := 60.
Definition MIN_LEASE_SECS : Z := 10.
Definition MAX_LEASE_SECS : Z := 600.

(** ** Tables *)

Record PartyRow := mkPartyRow { leader_id : string; revision : Z }.
Record Member := mkMember { m_party : string; m_ready : string; joined_at : Z; lease_until : Z }.
Record Invite := mkInvite { v_party : string; inviter_id : string; invitee_id : string; expires_at : Z }.

Record PartyDb := mkPartyDb {
  revision_seq : Z;
  player_revisions : gmap string Z;
  parties : gmap string PartyRow;
  members : gmap string Member;
  invites : gmap string Invite;
}.

Definition empty_parties : PartyDb := mkPartyDb 0 ∅ ∅ ∅ ∅.

Definition set_seq (n : Z) (d : PartyDb) := mkPartyDb n (player_revisions d) (parties d) (members d) (invites d).
Definition set_revs (m : gmap string Z) (d : PartyDb) := mkPartyDb (revision_seq d) m (parties d) (members d) (invites d).
Definition set_parties (m : gmap string PartyRow) (d : PartyDb) :=
  mkPartyDb (revision_seq d) (player_revisions d) m (members d) (invites d).
Definition set_members (m : gmap string Member) (d : PartyDb) :=
  mkPartyDb (revision_seq d) (player_revisions d) (parties d) m (invites d).
Definition set_invites (m : gmap string Invite) (d : PartyDb) :=
  mkPartyDb (revision_seq d) (player_revisions d) (parties d) (members d) m.

(** The members of a party, by player. *)
Definition roster (pid : string) (d : PartyDb) : gmap string Member := filter (fun kv => m_party (snd kv) = pid) (members d).

Definition micros (secs : Z) : Z := secs * 1000000.

(** ** Validation *)

Definition is_uuid_text (s : string) : bool :=
  let b := to_bytes s in
  (length b =? 36)%nat
  && forallb (fun '(i, c) => if bool_decide (i ∈ [8; 13; 18; 23]%nat) then Ascii.eqb c "-" else is_ascii_hexdigit c)
       (imap pair b).

Definition uuid_arg (name value : string) : result Error string :=
  if negb (is_uuid_text value) then Err (mkError Invalid (name +:+ " is not a valid uuid")) else Ok (lower value).

Definition validate_state (state : string) : result Error string :=
  if bool_decide (state = READY) then Ok READY
  else if bool_decide (state = NOT_READY) then Ok NOT_READY
  else Err (mkError Invalid ("state must be " +:+ READY +:+ " or " +:+ NOT_READY)).

Definition caller (identity : Identity) : result Error string :=
  match player_id identity with
  | None => Err (mkError Invalid "missing player identity")
  | Some id => if negb (is_uuid_text id) then Err (mkError Invalid "player identity is not a valid uuid") else Ok (lower id)
  end.

Definition write_error (e : SqlError) : Error :=
  match e with UniqueViolation => mkError Conflict ALREADY_IN_PARTY | _ => internal_error end.

Definition internal (e : SqlError) : Error := internal_error.

(** ** The store *)

Section Store.
Context `{PgUuid}.

Abbreviation Q := (ST PartyDb SqlError).

Definition renew_tx (player : string) (lease_secs clock : Z) : Q unit :=
  p ← cast_uuid player;
  modify (fun d => set_members
    (alter (fun m => mkMember (m_party m) (m_ready m) (joined_at m) (clock + micros lease_secs)) p (members d)) d).

Definition party_of_tx (player : string) : Q (option string) :=
  p ← cast_uuid player;
  gets (fun d => m_party <$> members d !! p).

Definition led_party_tx (player : string) : Q (option string) :=
  p ← cast_uuid player;
  gets (fun d => m ← members d !! p; r ← parties d !! m_party m;
                 if bool_decide (leader_id r = p) then Some (m_party m) else None).

Definition is_member_tx (party player : string) : Q bool :=
  p ← cast_uuid player;
  pid ← cast_uuid party;
  gets (fun d => bool_decide (m_party <$> members d !! p = Some pid)).

Definition count_members_tx (party : string) : Q Z :=
  pid ← cast_uuid party;
  gets (fun d => Z.of_nat (size (roster pid d))).

(** [nextval]: not rolled back, and an error at its end. *)
Definition next_revision_tx : Q Z :=
  n ← gets revision_seq;
  if n <? i64_max then modify (set_seq (n + 1));; mret (n + 1) else fail OtherSqlError.

Definition record_player_revision_tx (player : string) (rev : Z) : Q unit :=
  p ← cast_uuid player;
  modify (fun d => set_revs (<[p := rev]> (player_revisions d)) d).

(** [new_id] is [gen_random_uuid()]. *)
Definition insert_member_tx (player : string) (party : option string) (lease_secs clock : Z) (new_id : string) : Q string :=
  p ← cast_uuid player;
  pid ← match party with Some x => cast_uuid x | None => mret new_id end;
  taken ← gets (fun d => members d !! p);
  match taken with
  | Some _ => fail UniqueViolation
  | None =>
      modify (fun d => set_members (<[p := mkMember pid NOT_READY clock (clock + micros lease_secs)]> (members d)) d);;
      mret pid
  end.

Definition create_tx (player : string) (lease_secs clock : Z) (new_id : string) : Q (string * Z) :=
  pid ← insert_member_tx player None lease_secs clock new_id;
  rev ← next_revision_tx;
  leader ← cast_uuid player;
  taken ← gets (fun d => parties d !! pid);
  match taken with
  | Some _ => fail UniqueViolation
  | None =>
      modify (fun d => set_parties (<[pid := mkPartyRow leader rev]> (parties d)) d);;
      record_player_revision_tx player rev;;
      mret (pid, rev)
  end.

Definition join_tx (party player : string) (lease_secs clock : Z) : Q Z :=
  insert_member_tx player (Some party) lease_secs clock "";;
  rev ← next_revision_tx;
  pid ← cast_uuid party;
  modify (fun d => set_parties (alter (fun r => mkPartyRow (leader_id r) rev) pid (parties d)) d);;
  record_player_revision_tx player rev;;
  mret rev.

Definition stamp_tx (party : string) (leader : option string) : Q Z :=
  rev ← next_revision_tx;
  pid ← cast_uuid party;
  l ← match leader with Some x => u ← cast_uuid x; mret (Some u) | None => mret None end;
  modify (fun d => set_parties (alter (fun r => mkPartyRow (default (leader_id r) l) rev) pid (parties d)) d);;
  mret rev.

Record Removal := mkRemoval { removed : list string; r_revision : Z; dissolved : bool }.

(** [ORDER BY (m.player_id = p.leader_id) DESC, m.joined_at, m.player_id]. *)
Definition leads_before (leader : string) (x y : string * Member) : Prop :=
  match bool_decide (fst x = leader), bool_decide (fst y = leader) with
  | true, false => True
  | false, true => False
  | _, _ => joined_at (snd x) < joined_at (snd y)
            ∨ joined_at (snd x) = joined_at (snd y) ∧ String.le (fst x) (fst y)
  end.

#[global] Instance leads_before_dec leader x y : Decision (leads_before leader x y).
Proof. unfold leads_before. repeat case_match; apply _. Defined.

Definition next_leader (pid : string) (d : PartyDb) : option string :=
  r ← parties d !! pid;
  fst <$> head (merge_sort (leads_before (leader_id r)) (map_to_list (roster pid d))).

Definition settle_removal_tx (party : string) (gone : list string) : Q Removal :=
  pid ← cast_uuid party;
  leader ← gets (next_leader pid);
  rev ← next_revision_tx;
  match leader with
  | Some l => modify (fun d => set_parties (alter (fun _ => mkPartyRow l rev) pid (parties d)) d)
  | None =>
      modify (fun d => set_invites (filter (fun kv => v_party (snd kv) ≠ pid) (invites d)) d);;
      modify (fun d => set_parties (delete pid (parties d)) d)
  end;;
  foldr (fun p k => record_player_revision_tx p rev;; k) (mret ()) gone;;
  mret (mkRemoval gone rev (bool_decide (leader = None))).

Definition remove_member_tx (party player : string) : Q (option Removal) :=
  p ← cast_uuid player;
  pid ← cast_uuid party;
  here ← gets (fun d => bool_decide (m_party <$> members d !! p = Some pid));
  if here : bool then
    modify (fun d => set_members (delete p (members d)) d);;
    r ← settle_removal_tx party [p];
    mret (Some r)
  else mret None.

Definition expired_of (pid : string) (now : Z) (d : PartyDb) : list string :=
  map fst (map_to_list (filter (fun kv => lease_until (snd kv) < now) (roster pid d))).

Definition remove_expired_tx (party : string) (now : Z) : Q (option Removal) :=
  pid ← cast_uuid party;
  gone ← gets (expired_of pid now);
  match gone with
  | [] => mret None
  | _ =>
      modify (fun d => set_members (filter (fun kv => ¬ (m_party (snd kv) = pid ∧ lease_until (snd kv) < now)) (members d)) d);;
      r ← settle_removal_tx party (merge_sort String.le gone);
      mret (Some r)
  end.

Definition set_ready_tx (party player state : string) (lease_secs clock : Z) : Q bool :=
  p ← cast_uuid player;
  pid ← cast_uuid party;
  here ← gets (fun d => bool_decide (m_party <$> members d !! p = Some pid));
  if negb here then mret false
  else if bool_decide (state ≠ READY ∧ state ≠ NOT_READY) then fail (CheckViolation "members_ready_check")
  else
    modify (fun d => set_members (alter (fun m => mkMember (m_party m) state (joined_at m) (clock + micros lease_secs)) p (members d)) d);;
    mret true.

Definition addressed (inv : Invite) (p : string) (now : Z) : bool :=
  bool_decide (invitee_id inv = p) && (now <? expires_at inv).

Definition pending_invite_party (invite invitee : string) (now : Z) : Q (option string) :=
  i ← cast_uuid invite;
  p ← cast_uuid invitee;
  gets (fun d => inv ← invites d !! i; if addressed inv p now then Some (v_party inv) else None).

Definition consume_invite_tx (invite invitee party : string) (now : Z) : Q bool :=
  i ← cast_uuid invite;
  p ← cast_uuid invitee;
  pid ← cast_uuid party;
  inv ← gets (fun d => invites d !! i);
  match inv with
  | Some inv =>
      if addressed inv p now && bool_decide (v_party inv = pid)
      then modify (fun d => set_invites (delete i (invites d)) d);; mret true
      else mret false
  | None => mret false
  end.

Record InviteRow := mkInviteRow { ir_id : string; ir_party : string; ir_inviter : string; ir_expires : Z }.

(** [ON CONFLICT (party_id, invitee_id)]; a fresh id that is taken is an error. *)
Definition upsert_invite_tx (party inviter invitee : string) (ttl_secs now : Z) (new_id : string) : Q InviteRow :=
  pid ← cast_uuid party;
  a ← cast_uuid inviter;
  b ← cast_uuid invitee;
  existing ← gets (fun d => fst <$> head (map_to_list (filter (fun kv => v_party (snd kv) = pid ∧ invitee_id (snd kv) = b) (invites d))));
  let expires := now + micros ttl_secs in
  match existing with
  | Some i =>
      modify (fun d => set_invites (<[i := mkInvite pid a b expires]> (invites d)) d);;
      mret (mkInviteRow i pid a expires)
  | None =>
      taken ← gets (fun d => invites d !! new_id);
      match taken with
      | Some _ => fail UniqueViolation
      | None =>
          modify (fun d => set_invites (<[new_id := mkInvite pid a b expires]> (invites d)) d);;
          mret (mkInviteRow new_id pid a expires)
      end
  end.

Definition expires_before (x y : string * Invite) : Prop :=
  expires_at (snd x) < expires_at (snd y) ∨ expires_at (snd x) = expires_at (snd y) ∧ String.le (fst x) (fst y).

#[global] Instance expires_before_dec x y : Decision (expires_before x y).
Proof. unfold expires_before. apply _. Defined.

Definition invites_of (invitee : string) (now : Z) : Q (list InviteRow) :=
  p ← cast_uuid invitee;
  gets (fun d => map (fun '(i, inv) => mkInviteRow i (v_party inv) (inviter_id inv) (expires_at inv))
                   (merge_sort expires_before (map_to_list (filter (fun kv => addressed (snd kv) p now = true) (invites d))))).

Definition decline_invite (invite invitee : string) : Q bool :=
  i ← cast_uuid invite;
  p ← cast_uuid invitee;
  inv ← gets (fun d => invites d !! i);
  match inv with
  | Some inv =>
      if bool_decide (invitee_id inv = p) then modify (fun d => set_invites (delete i (invites d)) d);; mret true
      else mret false
  | None => mret false
  end.

Definition delete_invites_involving_tx (player : string) : Q unit :=
  p ← cast_uuid player;
  modify (fun d => set_invites (filter (fun kv => ¬ (invitee_id (snd kv) = p ∨ inviter_id (snd kv) = p)) (invites d)) d).

Definition delete_player_revision_tx (player : string) : Q unit :=
  p ← cast_uuid player;
  modify (fun d => set_revs (delete p (player_revisions d)) d).

Definition delete_expired_invites (now : Z) : Q unit :=
  modify (fun d => set_invites (filter (fun kv => ¬ expires_at (snd kv) < now) (invites d)) d).

(** The parties with an expired member, the longest expired first. *)
Definition longest_expired (now : Z) (d : PartyDb) : gmap string Z :=
  map_fold (fun _ m acc => if lease_until m <? now
                           then <[m_party m := Z.min (default (lease_until m) (acc !! m_party m)) (lease_until m)]> acc
                           else acc) ∅ (members d).

Definition older_lease (x y : string * Z) : Prop := snd x < snd y ∨ snd x = snd y ∧ String.le (fst x) (fst y).

#[global] Instance older_lease_dec x y : Decision (older_lease x y).
Proof. unfold older_lease. apply _. Defined.

Definition expired_parties (limit : nat) (now : Z) : Q (list string) :=
  gets (fun d => map fst (take limit (merge_sort older_lease (map_to_list (longest_expired now d))))).

(** *** Views *)

Record ViewRow := mkViewRow {
  vr_party : string;
  vr_revision : Z;
  vr_leader : string;
  vr_members : list string;
  vr_readies : list string;
  vr_lease : option Z;
}.

Definition joined_before (x y : string * Member) : Prop :=
  joined_at (snd x) < joined_at (snd y) ∨ joined_at (snd x) = joined_at (snd y) ∧ String.le (fst x) (fst y).

#[global] Instance joined_before_dec x y : Decision (joined_before x y).
Proof. unfold joined_before. apply _. Defined.

Definition in_order (pid : string) (d : PartyDb) : list (string * Member) :=
  merge_sort joined_before (map_to_list (roster pid d)).

Definition view_row (pid : string) (r : PartyRow) (lease : option Z) (d : PartyDb) : ViewRow :=
  mkViewRow pid (revision r) (leader_id r) (map fst (in_order pid d)) (map (fun x => m_ready (snd x)) (in_order pid d)) lease.

Definition player_row (p : string) (d : PartyDb) : ViewRow :=
  match (me ← members d !! p; r ← parties d !! m_party me; Some (me, r)) with
  | Some (me, r) => view_row (m_party me) r (Some (lease_until me)) d
  | None => mkViewRow "" (default 0 (player_revisions d !! p)) "" [] [] None
  end.

Definition player_view (player : string) : Q ViewRow :=
  p ← cast_uuid player;
  gets (player_row p).

(** The inner join answers nothing for a party without members. *)
Definition party_view (party : string) : Q (option ViewRow) :=
  pid ← cast_uuid party;
  gets (fun d => r ← parties d !! pid;
                 match in_order pid d with [] => None | _ => Some (view_row pid r None d) end).

(** ** Transactions *)

(** A failure rolls everything back but the sequence. *)
Definition transact {E A} (m : ST PartyDb E A) : ST PartyDb E A := fun d =>
  match m d with
  | (d', Ok a) => (d', Ok a)
  | (d', Err e) => (set_seq (revision_seq d') d, Err e)
  end.

Variable lease_secs : Z.

Abbreviation T := (ST PartyDb Error).
Definition sql {A} (m : Q A) : T A := st_map_err internal m.

Definition not_found {A} : T A := fail (mkError NotFound NOT_FOUND).

Definition create_txn (me : string) (clock : Z) (new_id : string) : T string :=
  transact (r ← st_map_err write_error (create_tx me lease_secs clock new_id); mret (fst r)).

Definition renew_txn (me : string) (clock : Z) : T unit := transact (sql (renew_tx me lease_secs clock)).

Definition invite_txn (me party_id target : string) (now clock : Z) (new_id : string) : T InviteRow :=
  transact (
    led ← sql (led_party_tx me);
    if negb (bool_decide (led = Some party_id)) then not_found else
    already ← sql (is_member_tx party_id target);
    if already : bool then fail (mkError Conflict "player is already in this party") else
    sql (renew_tx me lease_secs clock);;
    sql (upsert_invite_tx party_id me target INVITE_TTL_SECS now new_id)).

Definition accept_txn (me invite_id party_id : string) (now clock : Z) : T unit :=
  transact (
    taken ← sql (consume_invite_tx invite_id me party_id now);
    if negb taken then fail (mkError NotFound INVITE_NOT_FOUND) else
    count ← sql (count_members_tx party_id);
    if MAX_MEMBERS <=? count then fail (mkError Conflict ("party is full (" +:+ pretty MAX_MEMBERS +:+ " members)")) else
    st_map_err write_error (join_tx party_id me lease_secs clock);;
    mret ()).

Definition decline_txn (me invite_id : string) : T unit :=
  transact (done ← sql (decline_invite invite_id me);
            if done : bool then mret () else fail (mkError NotFound INVITE_NOT_FOUND)).

(** The transaction [begin_locked] hands out, once its re-reading under the lock
    agrees; [None] when it does not. *)
Definition locked {A} (me party_id : string) (body : T A) : T (option A) :=
  transact (
    again ← sql (party_of_tx me);
    if bool_decide (again = Some party_id) then a ← body; mret (Some a) else mret None).

Definition leave_body (me party_id : string) : T Removal :=
  r ← sql (remove_member_tx party_id me);
  lift (ok_or r internal_error).

(** [leader_locked]'s re-check. *)
Definition leader_check (me party_id : string) : T unit :=
  led ← sql (led_party_tx me);
  if bool_decide (led = Some party_id) then mret () else not_found.

Definition kick_body (me party_id target : string) (clock : Z) : T Removal :=
  leader_check me party_id;;
  r ← sql (remove_member_tx party_id target);
  match r with
  | None => not_found
  | Some r => sql (renew_tx me lease_secs clock);; mret r
  end.

Definition promote_body (me party_id target : string) (clock : Z) : T unit :=
  leader_check me party_id;;
  here ← sql (is_member_tx party_id target);
  if negb here then not_found else
  sql (renew_tx me lease_secs clock);;
  sql (stamp_tx party_id (Some target));;
  mret ().

Definition set_ready_body (me party_id state : string) (clock : Z) : T unit :=
  done ← sql (set_ready_tx party_id me state lease_secs clock);
  if negb done then fail internal_error else
  sql (stamp_tx party_id None);;
  mret ().

(** [purge_player_tx] in the delivery's transaction, [party_id] being what it read of
    the player's party before it took that party's lock; an error redelivers. *)
Definition purge_txn (player : string) (party_id : option string) : ST PartyDb SqlError unit :=
  transact (
    match party_id with
    | Some pid => r ← remove_member_tx pid player;
                  match r with None => fail OtherSqlError | Some _ => mret () end
    | None => mret ()
    end;;
    delete_invites_involving_tx player;;
    delete_player_revision_tx player).

Definition sweep_txn (party_id : string) (now : Z) : T (option (Removal * option ViewRow)) :=
  transact (
    r ← sql (remove_expired_tx party_id now);
    match r with
    | None => mret None
    | Some r =>
        row ← (if dissolved r then mret None else sql (party_view party_id));
        mret (Some (r, row))
    end).

Definition expire_invites_txn (now : Z) : T unit := transact (sql (delete_expired_invites now)).

(** ** The service *)

Record MemberView := mkMemberView { mv_player : string; mv_handle : string; mv_ready : string }.
Record PartyView := mkPartyView { pv_party : string; pv_revision : Z; pv_leader : string; pv_members : list MemberView }.
Record InviteView := mkInviteView { iv_id : string; iv_party : string; iv_inviter_handle : string; iv_expires : Z }.
Record HeartbeatView := mkHeartbeat { hb_lease : option Z; hb_revision : Z }.

Inductive Push := StatePush (v : PartyView) | InvitePush (v : InviteView).

Definition no_party (rev : Z) : PartyView := mkPartyView "" rev "" [].

Definition handle_of (summaries : list PlayerSummary) (id : string) : string :=
  default "" (ps_handle <$> summary_of summaries id).

Definition view_of (row : ViewRow) (summaries : list PlayerSummary) : PartyView :=
  mkPartyView (vr_party row) (vr_revision row) (vr_leader row)
    (zip_with (fun id ready => mkMemberView id (handle_of summaries id) ready) (vr_members row) (vr_readies row)).

(** What one event of a running operation meets: the database as the other tasks
    left it, whether the server answers at all, its clock, the uuid it draws, and
    the directory. *)
Record PEnv := mkPEnv {
  meanwhile : nat → PartyDb → PartyDb;
  outage : nat → bool;
  now_at : nat → Z;
  clock_at : nat → Z;
  fresh : nat → string;
  directory : nat → Directory;
  stopped : nat → bool;
  elapsed_secs : nat → Z;
}.

Record PState := mkPState { db : PartyDb; tick : nat; pushed : list (string * Push) }.

Variable env : PEnv.
Abbreviation M := (ST PState Error).

(** One transaction, or one statement on the pool. *)
Definition on_db {A} (m : nat → T A) : M A := fun s =>
  let d := meanwhile env (tick s) (db s) in
  if outage env (tick s) then (mkPState d (S (tick s)) (pushed s), Err internal_error)
  else let '(d', r) := m (tick s) d in (mkPState d' (S (tick s)) (pushed s), r).

(** One directory call. *)
Definition ask_directory {A} (call : Directory → A) : M A := fun s =>
  (mkPState (meanwhile env (tick s) (db s)) (S (tick s)) (pushed s), Ok (call (directory env (tick s)))).

Definition send (player : string) (p : Push) : M unit :=
  modify (fun s => mkPState (db s) (tick s) (pushed s ++ [(player, p)])).

Definition retry_conflict : Error := mkError Conflict "party membership changed concurrently; retry".

(** [begin_locked] and the rest of the transaction it opens. *)
Fixpoint begin_locked {A} (attempts : nat) (me : string) (body : nat → string → T A) : M (option (string * A)) :=
  match attempts with
  | O => fail retry_conflict
  | S n =>
      seen ← on_db (fun _ => sql (party_of_tx me));
      match seen with
      | None => mret None
      | Some pid =>
          r ← on_db (fun t => locked me pid (body t pid));
          match r with
          | Some a => mret (Some (pid, a))
          | None => begin_locked n me body
          end
      end
  end.

Definition leader_locked {A} (me : string) (body : nat → string → T A) : M (string * A) :=
  r ← begin_locked MEMBERSHIP_ATTEMPTS me body;
  match r with Some x => mret x | None => fail (mkError NotFound NOT_FOUND) end.

Definition resolve_target (handle : string) : M string :=
  r ← ask_directory (fun dir => find_by_handle dir handle);
  match r with
  | Err e => fail (directory_unavailable e)
  | Ok None => fail (mkError NotFound NO_SUCH_PLAYER)
  | Ok (Some target) => mret (lower (ps_player_id target))
  end.

(** A failed lookup answers no summaries. *)
Definition summaries (ids : list string) : M (list PlayerSummary) :=
  match ids with
  | [] => mret []
  | _ =>
      r ← ask_directory (fun dir => players_by_id dir ids);
      mret (match r with Ok l => l | Err _ => [] end)
  end.

Fixpoint send_all (ps : list string) (p : Push) : M unit :=
  match ps with [] => mret () | x :: ps => send x p;; send_all ps p end.

Definition push_state (party : option PartyView) (removal : option Removal) : M unit :=
  match party with Some v => send_all (map mv_player (pv_members v)) (StatePush v) | None => mret () end;;
  match removal with Some r => send_all (removed r) (StatePush (no_party (r_revision r))) | None => mret () end.

(** The bound on the lookup is one way for the directory to fail. *)
Definition fan_out (row : option ViewRow) (removal : option Removal) : M unit :=
  l ← summaries (match row with Some r => vr_members r | None => [] end);
  push_state ((fun r => view_of r l) <$> row) removal.

(** A snapshot for a push: a failure to load it is logged. *)
Definition snapshot (pid : string) : M (option ViewRow) := fun s =>
  match on_db (fun _ => sql (party_view pid)) s with
  | (s', Ok row) => (s', Ok row)
  | (s', Err _) => (s', Ok None)
  end.

Record Fanout := mkFanout { f_party : option string; f_removal : option Removal }.

Definition add_new (ids more : list string) : list string :=
  foldl (fun acc x => if bool_decide (x ∈ acc) then acc else acc ++ [x]) ids more.

Definition respond (me : string) (fan : Fanout) : M PartyView :=
  mine ← on_db (fun _ => sql (player_view me));
  let gone := match f_removal fan with Some r => dissolved r | None => false end in
  party ← match f_party fan with
          | Some pid => if bool_decide (pid = vr_party mine) then mret (Some mine)
                        else if negb gone then snapshot pid else mret None
          | None => mret None
          end;
  l ← summaries (add_new (vr_members mine) (match party with Some row => vr_members row | None => [] end));
  push_state ((fun row => view_of row l) <$> party) (f_removal fan);;
  mret (view_of mine l).

(** *** Operations *)

Definition create (identity : Identity) : M PartyView :=
  me ← lift (caller identity);
  pid ← on_db (fun t => create_txn me (clock_at env t) (fresh env t));
  respond me (mkFanout (Some pid) None).

Definition renew (me : string) : M unit := on_db (fun t => renew_txn me (clock_at env t)).

Definition get (identity : Identity) : M PartyView :=
  me ← lift (caller identity);
  renew me;;
  row ← on_db (fun _ => sql (player_view me));
  l ← summaries (vr_members row);
  mret (view_of row l).

Definition invite_view (l : list PlayerSummary) (row : InviteRow) : InviteView :=
  mkInviteView (ir_id row) (ir_party row) (handle_of l (ir_inviter row)) (ir_expires row).

Definition invite (identity : Identity) (target_handle : string) : M InviteView :=
  me ← lift (caller identity);
  if (MAX_HANDLE_BYTES <? String.length target_handle)%nat
  then fail (mkError Invalid ("handle exceeds " +:+ pretty MAX_HANDLE_BYTES +:+ " bytes"))
  else
    led ← on_db (fun _ => sql (led_party_tx me));
    match led with
    | None => fail (mkError NotFound NOT_FOUND)
    | Some pid =>
        target ← resolve_target target_handle;
        if bool_decide (target = me) then fail (mkError Invalid "cannot invite yourself")
        else
          row ← on_db (fun t => invite_txn me pid target (now_at env t) (clock_at env t) (fresh env t));
          l ← summaries [ir_inviter row];
          send target (InvitePush (invite_view l row));;
          mret (invite_view l row)
    end.

Definition list_invites (identity : Identity) : M (list InviteView) :=
  me ← lift (caller identity);
  renew me;;
  rows ← on_db (fun t => sql (invites_of me (now_at env t)));
  l ← summaries (add_new [] (map ir_inviter rows));
  mret (map (invite_view l) rows).

Definition accept (identity : Identity) (invite_id : string) : M PartyView :=
  me ← lift (caller identity);
  i ← lift (uuid_arg "invite_id" invite_id);
  pending ← on_db (fun t => sql (pending_invite_party i me (now_at env t)));
  match pending with
  | None => fail (mkError NotFound INVITE_NOT_FOUND)
  | Some pid =>
      on_db (fun t => accept_txn me i pid (now_at env t) (clock_at env t));;
      respond me (mkFanout (Some pid) None)
  end.

Definition decline (identity : Identity) (invite_id : string) : M unit :=
  me ← lift (caller identity);
  i ← lift (uuid_arg "invite_id" invite_id);
  renew me;;
  on_db (fun _ => decline_txn me i).

Fixpoint leave_loop (attempts : nat) (me : string) : M PartyView :=
  match attempts with
  | O => fail retry_conflict
  | S n =>
      r ← begin_locked MEMBERSHIP_ATTEMPTS me (fun _ pid => leave_body me pid);
      match r with
      | None =>
          row ← on_db (fun _ => sql (player_view me));
          if bool_decide (vr_party row = "") then mret (no_party (vr_revision row)) else leave_loop n me
      | Some (pid, removal) =>
          row ← (if dissolved removal then mret None else snapshot pid);
          fan_out row (Some removal);;
          mret (no_party (r_revision removal))
      end
  end.

Definition leave (identity : Identity) : M PartyView :=
  me ← lift (caller identity);
  leave_loop MEMBERSHIP_ATTEMPTS me.

Definition kick (identity : Identity) (player : string) : M PartyView :=
  me ← lift (caller identity);
  target ← lift (uuid_arg "player_id" player);
  if bool_decide (target = me) then fail (mkError Invalid "cannot kick yourself; use leave")
  else
    r ← leader_locked me (fun t pid => kick_body me pid target (clock_at env t));
    respond me (mkFanout (Some (fst r)) (Some (snd r))).

Definition promote (identity : Identity) (player : string) : M PartyView :=
  me ← lift (caller identity);
  target ← lift (uuid_arg "player_id" player);
  if bool_decide (target = me) then fail (mkError Invalid "cannot promote yourself")
  else
    r ← leader_locked me (fun t pid => promote_body me pid target (clock_at env t));
    respond me (mkFanout (Some (fst r)) None).

Definition set_ready (identity : Identity) (state : string) : M PartyView :=
  me ← lift (caller identity);
  st ← lift (validate_state state);
  r ← leader_locked me (fun t pid => set_ready_body me pid st (clock_at env t));
  respond me (mkFanout (Some (fst r)) None).

Definition heartbeat (identity : Identity) : M HeartbeatView :=
  me ← lift (caller identity);
  renew me;;
  row ← on_db (fun _ => sql (player_view me));
  mret (mkHeartbeat (vr_lease row) (vr_revision row)).

(** *** The purge subscriber *)

Definition purge_player (player : string) : M unit :=
  if negb (is_uuid_text player) then mret ()
  else
    let p := lower player in
    seen ← on_db (fun _ => sql (party_of_tx p));
    on_db (fun _ => st_map_err internal (purge_txn p seen)).

(** *** The sweep *)

Definition sweep_party (party_id : string) : M bool :=
  r ← on_db (fun t => sweep_txn party_id (now_at env t));
  match r with
  | None => mret false
  | Some (removal, row) => fan_out row (Some removal);; mret true
  end.

Definition SWEEP_PASS_BUDGET : Z := 20.

(** [if let Err(e)]: whether the step succeeded. *)
Definition succeeds {A} (m : M A) : M bool := fun s =>
  match m s with (s', Ok _) => (s', Ok true) | (s', Err _) => (s', Ok false) end.

(** The loop of [sweep_pass], counting the parties that failed. *)
Fixpoint sweep_each (l : list string) (failed : nat) : M nat :=
  match l with
  | [] => mret failed
  | pid :: l =>
      t ← gets tick;
      if stopped env t || (SWEEP_PASS_BUDGET <=? elapsed_secs env t) then mret failed
      else
        done ← succeeds (sweep_party pid);
        sweep_each l (if done : bool then failed else S failed)
  end.

Definition sweep_pass : M unit :=
  parties ← on_db (fun t => sql (expired_parties SWEEP_BATCH (now_at env t)));
  failed ← sweep_each parties 0;
  on_db (fun t => expire_invites_txn (now_at env t));;
  if (0 <? failed)%nat then fail internal_error else mret ().

End Store.

(** ** The sweep's health *)

Record Liveness := mkLiveness { dead : bool; stopping : bool; last_ok_secs : Z }.

Definition SWEEP_INTERVAL : Z := 5.
Definition SWEEP_ACQUIRE_DEADLINE : Z := 2.
Definition SWEEP_STATEMENT_TIMEOUT : Z := 2.
Definition SWEEP_LOOKUP_TIMEOUT : Z := 2.
Definition PARTY_TX_STATEMENTS_MAX : Z := 9 + MAX_MEMBERS.
Definition PARTY_WORST_SECS : Z :=
  SWEEP_ACQUIRE_DEADLINE + PARTY_TX_STATEMENTS_MAX * SWEEP_STATEMENT_TIMEOUT + SWEEP_LOOKUP_TIMEOUT.
Definition SETUP_WORST_SECS : Z := 2 * (SWEEP_ACQUIRE_DEADLINE + 3 * SWEEP_STATEMENT_TIMEOUT).
Definition PASS_WORST_SECS : Z := SETUP_WORST_SECS + SWEEP_PASS_BUDGET + PARTY_WORST_SECS.
Definition STALL_MAX : Z := SWEEP_INTERVAL + PASS_WORST_SECS.

Definition liveness_check (stall_max now_secs : Z) (l : Liveness) : result string unit :=
  if dead l then Err "party sweep loop task died"
  else if negb (stopping l) && negb (last_ok_secs l =? 0) && (stall_max <? Z.max 0 (now_secs - last_ok_secs l))
  then Err ("no healthy party sweep pass in >" +:+ pretty stall_max +:+ "s")
  else Ok ().

Definition mark_pass_ok (now_secs : Z) (l : Liveness) : Liveness :=
  mkLiveness (dead l) (stopping l) (Z.max 1 now_secs).

Definition set_stopping (l : Liveness) : Liveness := mkLiveness (dead l) true (last_ok_secs l).

(** The supervision wrapper, when the loop has ended. *)
Definition loop_ended (l : Liveness) : Liveness :=
  if stopping l then l else mkLiveness true (stopping l) (last_ok_secs l).

(** ** Configuration *)

(** [std::env::var]. *)
Inductive EnvVar := NotPresent | NotUnicode | Present (raw : string).

Definition lease_secs_from_env (v : EnvVar) : result string Z :=
  match v with
  | NotPresent => Ok DEFAULT_LEASE_SECS
  | NotUnicode => Err "party: PARTY_LEASE_SECS is not valid unicode"
  | Present raw =>
      match parse_i64 (trim raw) with
      | None => Err "party: PARTY_LEASE_SECS must be a whole number of seconds"
      | Some secs =>
          if (MIN_LEASE_SECS <=? secs) && (secs <=? MAX_LEASE_SECS) then Ok secs
          else Err "party: PARTY_LEASE_SECS must be between 10 and 600"
      end
  end.
