(* ===== verification/PartyActs.v ===== *)
(** * PartyActs: what the transactions of [Party] do to the tables

    Each transaction performs a short list of [act]s on behalf of whoever asked for
    it, or changes nothing but the sequence; every act keeps the invariant. *)

From Stdlib Require Import Ascii.
From stdpp Require Import sorting.
From S2P Require Import Prelude Text OpsApi Pg Directory Party.
#[local] Open Scope Z_scope.

Section Safety.
Context `{PgUuid}.

(** ** Acts *)

Inductive act :=
| Advance (n : Z)
| Renew (p : string) (until : Z)
| Create (p pid : string) (clock until : Z)
| Accept (i p pid : string) (clock until : Z)
| Remove (pid : string) (gone : list string)
| Promote (pid target : string)
| Ready (p pid state : string) (until : Z)
| Invited (i : string) (inv : Invite)
| KeepInvites (m : gmap string Invite)
| Forget (p : string).

Definition renewed (until : Z) (m : Member) : Member := mkMember (m_party m) (m_ready m) (joined_at m) until.

Definition recorded (gone : list string) (rev : Z) (m : gmap string Z) : gmap string Z :=
  foldr (fun p => <[p := rev]>) m gone.

(** The tables once the removed members' rows are gone. *)
Definition settled (pid : string) (gone : list string) (d : PartyDb) : PartyDb :=
  let rev := revision_seq d + 1 in
  match next_leader pid d with
  | Some l => mkPartyDb rev (recorded gone rev (player_revisions d))
                (alter (fun _ => mkPartyRow l rev) pid (parties d)) (members d) (invites d)
  | None => mkPartyDb rev (recorded gone rev (player_revisions d)) (delete pid (parties d)) (members d)
              (filter (fun kv => v_party (snd kv) ≠ pid) (invites d))
  end.

Definition without (gone : list string) (d : PartyDb) : PartyDb :=
  set_members (filter (fun kv => fst kv ∉ gone) (members d)) d.

Definition perform (a : act) (d : PartyDb) : PartyDb :=
  let rev := revision_seq d + 1 in
  match a with
  | Advance n => set_seq n d
  | Renew p until => set_members (alter (renewed until) p (members d)) d
  | Create p pid clock until =>
      mkPartyDb rev (<[p := rev]> (player_revisions d)) (<[pid := mkPartyRow p rev]> (parties d))
        (<[p := mkMember pid NOT_READY clock until]> (members d)) (invites d)
  | Accept i p pid clock until =>
      mkPartyDb rev (<[p := rev]> (player_revisions d))
        (alter (fun r => mkPartyRow (leader_id r) rev) pid (parties d))
        (<[p := mkMember pid NOT_READY clock until]> (members d)) (delete i (invites d))
  | Remove pid gone => settled pid gone (without gone d)
  | Promote pid target =>
      set_parties (alter (fun _ => mkPartyRow target rev) pid (parties d)) (set_seq rev d)
  | Ready p pid state until =>
      mkPartyDb rev (player_revisions d) (alter (fun r => mkPartyRow (leader_id r) rev) pid (parties d))
        (alter (fun m => mkMember (m_party m) state (joined_at m) until) p (members d)) (invites d)
  | Invited i inv => set_invites (<[i := inv]> (invites d)) d
  | KeepInvites m => set_invites m d
  | Forget p => set_revs (delete p (player_revisions d)) d
  end.

Definition in_party (d : PartyDb) (p pid : string) : Prop := m_party <$> members d !! p = Some pid.

(** What holds when a transaction performs an act. *)
Definition may (a : act) (d : PartyDb) : Prop :=
  match a with
  | Advance n => revision_seq d ≤ n
  | Renew p until => True
  | Create p pid clock until =>
      uuid_in p = Some p ∧ uuid_in pid = Some pid ∧ members d !! p = None ∧ parties d !! pid = None
  | Accept i p pid clock until =>
      uuid_in p = Some p ∧ members d !! p = None ∧ Z.of_nat (size (roster pid d)) < MAX_MEMBERS
      ∧ ∃ inv, invites d !! i = Some inv ∧ invitee_id inv = p ∧ v_party inv = pid
  | Remove pid gone => gone ≠ [] ∧ ∀ p, p ∈ gone → in_party d p pid
  | Promote pid target => in_party d target pid
  | Ready p pid state until => in_party d p pid ∧ (state = READY ∨ state = NOT_READY)
  | Invited i inv =>
      is_Some (parties d !! v_party inv) ∧ ¬ in_party d (invitee_id inv) (v_party inv)
      ∧ ∀ j w, invites d !! j = Some w → (v_party w = v_party inv ∧ invitee_id w = invitee_id inv) → j = i
  | KeepInvites m => m ⊆ invites d
  | Forget p => True
  end.

(** ** The invariant *)

Record party_inv (d : PartyDb) : Prop := {
  pi_member : ∀ p m, members d !! p = Some m →
                is_Some (parties d !! m_party m) ∧ (m_ready m = READY ∨ m_ready m = NOT_READY) ∧ uuid_in p = Some p;
  pi_leader : ∀ pid r, parties d !! pid = Some r → in_party d (leader_id r) pid ∧ uuid_in pid = Some pid;
  pi_cap : ∀ pid, Z.of_nat (size (roster pid d)) ≤ MAX_MEMBERS;
  pi_invite : ∀ i v, invites d !! i = Some v →
                is_Some (parties d !! v_party v) ∧ ¬ in_party d (invitee_id v) (v_party v);
  pi_unique : ∀ i j v w, invites d !! i = Some v → invites d !! j = Some w →
                v_party v = v_party w → invitee_id v = invitee_id w → i = j;
  pi_rev : (∀ pid r, parties d !! pid = Some r → 0 < revision r ≤ revision_seq d)
           ∧ (∀ p n, player_revisions d !! p = Some n → 0 < n ≤ revision_seq d)
           ∧ 0 ≤ revision_seq d;
}.

Lemma party_inv_empty : party_inv empty_parties.
Proof. by split. Qed.

Lemma roster_lookup pid d p m : roster pid d !! p = Some m ↔ members d !! p = Some m ∧ m_party m = pid.
Proof. unfold roster. by rewrite map_lookup_filter_Some. Qed.

Lemma in_party_spec d p pid : in_party d p pid ↔ ∃ m, members d !! p = Some m ∧ m_party m = pid.
Proof. unfold in_party. rewrite fmap_Some. naive_solver. Qed.

Lemma in_party_fun d p a b : in_party d p a → in_party d p b → a = b.
Proof. unfold in_party. intros -> [= ->]. done. Qed.

(** *** The next leader *)

#[global] Instance joined_before_total : Total joined_before.
Proof.
  intros [p m] [q n]. unfold joined_before. simpl.
  destruct (Z.lt_total (joined_at m) (joined_at n)) as [?|[?|?]]; [auto| |auto].
  destruct (total String.le p q); auto.
Qed.

#[global] Instance joined_before_trans : Transitive joined_before.
Proof.
  intros [p m] [q n] [r o]. unfold joined_before. simpl. intros [?|[? ?]] [?|[? ?]]; try (left; lia).
  right. split; [lia|]. by transitivity q.
Qed.

Lemma leads_before_spec l x y :
  leads_before l x y ↔ (fst x = l ∧ fst y ≠ l) ∨ ((fst x = l ↔ fst y = l) ∧ joined_before x y).
Proof. unfold leads_before, joined_before. repeat case_bool_decide; naive_solver. Qed.

#[global] Instance leads_before_total l : Total (leads_before l).
Proof.
  intros x y. rewrite !leads_before_spec.
  destruct (total joined_before x y), (decide (fst x = l)), (decide (fst y = l)); naive_solver.
Qed.

#[global] Instance leads_before_trans l : Transitive (leads_before l).
Proof.
  intros x y z. rewrite !leads_before_spec. intros [?|[? ?]] [?|[? ?]]; try naive_solver.
  right. split; [naive_solver|]. by transitivity y.
Qed.

Lemma next_leader_spec pid d r l :
  parties d !! pid = Some r → next_leader pid d = Some l →
  ∃ m, roster pid d !! l = Some m ∧ ∀ p n, roster pid d !! p = Some n → leads_before (leader_id r) (l, m) (p, n).
Proof.
  intros Hr. unfold next_leader. rewrite Hr. simpl.
  pose proof (StronglySorted_merge_sort (leads_before (leader_id r)) (map_to_list (roster pid d))) as Hs.
  pose proof (merge_sort_Permutation (leads_before (leader_id r)) (map_to_list (roster pid d))) as Hp.
  destruct (merge_sort _ _) as [|[x m] k]; [done|]. intros [= <-]. exists m. split.
  { apply elem_of_map_to_list. rewrite <- Hp. by left. }
  intros p n Hn%elem_of_map_to_list. rewrite <- Hp in Hn. apply StronglySorted_inv in Hs as [_ Hs].
  apply elem_of_cons in Hn as [[= -> ->]|Hn]; [|by eapply Forall_forall in Hs].
  by destruct (total (leads_before (leader_id r)) (x, m) (x, m)).
Qed.

Lemma next_leader_None pid d r :
  parties d !! pid = Some r → next_leader pid d = None → roster pid d = ∅.
Proof.
  intros Hr. unfold next_leader. rewrite Hr. simpl.
  pose proof (merge_sort_Permutation (leads_before (leader_id r)) (map_to_list (roster pid d))) as Hp.
  destruct (merge_sort _ _); [|done]. intros _. apply Permutation_nil_l in Hp. symmetry in Hp. by apply map_to_list_empty_iff in Hp.
Qed.

(** *** Acts keep the invariant *)

Lemma roster_dom pid d p : p ∈ dom (roster pid d) ↔ in_party d p pid.
Proof. rewrite in_party_spec, elem_of_dom. unfold is_Some. by setoid_rewrite roster_lookup. Qed.

Lemma roster_le pid d d' : (∀ p, in_party d' p pid → in_party d p pid) → (size (roster pid d') ≤ size (roster pid d))%nat.
Proof. intros Hs. rewrite <- !size_dom. apply subseteq_size. intros p. rewrite !roster_dom. apply Hs. Qed.

Lemma roster_le_one pid d d' q :
  (∀ p, in_party d' p pid → p = q ∨ in_party d p pid) → (size (roster pid d') ≤ S (size (roster pid d)))%nat.
Proof.
  intros Hs. rewrite <- !size_dom. transitivity (size ({[q]} ∪ dom (roster pid d))).
  - apply subseteq_size. intros p. rewrite elem_of_union, elem_of_singleton, !roster_dom. apply Hs.
  - rewrite size_union_alt, size_singleton. apply le_n_S, subseteq_size. set_solver.
Qed.

Lemma in_party_alter f p d q pid :
  (∀ m, m_party (f m) = m_party m) → (m_party <$> alter f p (members d) !! q) = Some pid ↔ in_party d q pid.
Proof.
  intros Hf. unfold in_party. rewrite lookup_alter. case_decide as E; [subst|done].
  destruct (members d !! q); simpl; [by rewrite Hf|done].
Qed.

Lemma in_party_insert p m d q pid :
  m_party <$> <[p := m]> (members d) !! q = Some pid ↔ (q = p ∧ m_party m = pid) ∨ (q ≠ p ∧ in_party d q pid).
Proof. unfold in_party. rewrite lookup_insert. case_decide; simpl; naive_solver. Qed.

Lemma in_party_without gone d q pid : in_party (without gone d) q pid ↔ (q ∉ gone) ∧ in_party d q pid.
Proof.
  unfold in_party, without. simpl. rewrite map_lookup_filter. destruct (members d !! q); simpl; [|naive_solver].
  case_guard; simpl; naive_solver.
Qed.

(** Rows keep their party and their invites; rows and stamps stay well formed. *)
Lemma inv_members d d' :
  party_inv d → parties d' = parties d → invites d' = invites d → player_revisions d' = player_revisions d →
  revision_seq d' = revision_seq d → (∀ q pid, in_party d' q pid ↔ in_party d q pid) →
  (∀ p m, members d' !! p = Some m → m_ready m = READY ∨ m_ready m = NOT_READY) → party_inv d'.
Proof.
  intros Hd Ep Ei Er Es Hm Hready. destruct Hd as [H1 H2 H3 H4 H5 H6]. split; rewrite ?Ep, ?Ei, ?Er, ?Es; try done.
  - intros p m Hp. assert (Hin : in_party d p (m_party m)) by (apply Hm; unfold in_party; by rewrite Hp).
    apply in_party_spec in Hin as (n & Hn & <-). destruct (H1 p n Hn) as (? & _ & ?). split_and!; eauto.
  - intros pid r Hr. rewrite Hm. by apply H2.
  - intros pid. etrans; [|exact (H3 pid)]. apply inj_le, roster_le. intros q. by rewrite Hm.
  - intros i v Hv. rewrite Hm. by eapply H4.
Qed.

Lemma inv_renew p until d : party_inv d → party_inv (perform (Renew p until) d).
Proof.
  intros Hd. apply (inv_members d); try done.
  - intros q pid. unfold in_party at 1. simpl. by apply in_party_alter.
  - intros q m. simpl. intros [(_ & n & Hn & ->)|[_ Hm]]%lookup_alter_Some; simpl; by eapply (pi_member d).
Qed.

Lemma inv_create p pid clock until d :
  party_inv d → may (Create p pid clock until) d → party_inv (perform (Create p pid clock until) d).
Proof.
  intros Hd (Up & Ud & Hp & Hpid). pose proof Hd as [H1 H2 H3 H4 H5 (H6 & H7 & H8)].
  assert (Hno : ∀ q, ¬ in_party d q pid).
  { intros q (m & Hm & <-)%in_party_spec. destruct (H1 q m Hm) as ([r Hr] & _). congruence. }
  split; simpl.
  - intros q m. rewrite lookup_insert. case_decide as E; [subst|].
    + intros [= <-]. simpl. rewrite lookup_insert_eq. eauto.
    + intros Hm. destruct (H1 q m Hm) as (? & ? & ?). split; [|done]. rewrite lookup_insert. case_decide; eauto.
  - intros x r. unfold in_party. simpl. rewrite in_party_insert, lookup_insert. case_decide as E; [subst|].
    + intros [= <-]. simpl. auto.
    + intros Hr. destruct (H2 x r Hr) as [Hin ?]. split; [|done]. right. split; [|done]. intros E'.
      rewrite E' in Hin. unfold in_party in Hin. by rewrite Hp in Hin.
  - intros x. destruct (decide (x = pid)) as [->|Hx].
    + etrans; [apply inj_le, (roster_le_one _ empty_parties _ p)|done]. intros q. unfold in_party at 1. simpl.
      rewrite in_party_insert. naive_solver.
    + etrans; [|exact (H3 x)]. apply inj_le, roster_le. intros q. unfold in_party at 1. simpl.
      rewrite in_party_insert. naive_solver.
  - intros i v Hv. destruct (H4 i v Hv) as [[r Hr] Hn]. unfold in_party. simpl. rewrite in_party_insert, lookup_insert. split; [case_decide; eauto|].
    simpl. intros [[_ E]|[_ E]]; congruence.
  - done.
  - split_and!; [|intros q n; rewrite lookup_insert; case_decide; [intros [= <-]; lia|intros ?%H7; lia]|lia].
    intros x r. rewrite lookup_insert. case_decide; [intros [= <-]; simpl; lia|intros ?%H6; lia].
Qed.

Lemma inv_accept i p pid clock until d :
  party_inv d → may (Accept i p pid clock until) d → party_inv (perform (Accept i p pid clock until) d).
Proof.
  intros [H1 H2 H3 H4 H5 (H6 & H7 & H8)] (Up & Hp & Hcap & inv & Hi & <- & <-). split; simpl.
  - intros q m. setoid_rewrite lookup_alter_is_Some. rewrite lookup_insert. case_decide as E; [subst q|apply H1].
    intros [= <-]. simpl. destruct (H4 i inv Hi). auto.
  - intros x r Hr. unfold in_party. simpl. rewrite in_party_insert.
    assert (Hr' : ∃ r', parties d !! x = Some r' ∧ leader_id r = leader_id r').
    { apply lookup_alter_Some in Hr as [(_ & r' & Hr' & ->)|[_ ?]]; eauto. }
    destruct Hr' as (r' & Hr' & ->). destruct (H2 x r' Hr') as [Hin ?]. split; [|done]. right. split; [|done].
    intros E. rewrite E in Hin. unfold in_party in Hin. by rewrite Hp in Hin.
  - intros x. destruct (decide (x = v_party inv)) as [->|Hx].
    + enough (Hs : (size (roster (v_party inv) (perform (Accept i (invitee_id inv) (v_party inv) clock until) d))
        ≤ S (size (roster (v_party inv) d)))%nat) by (simpl in Hs; lia).
      apply (roster_le_one _ _ _ (invitee_id inv)). intros q. unfold in_party at 1. simpl.
      rewrite in_party_insert. naive_solver.
    + etrans; [|exact (H3 x)]. apply inj_le, roster_le. intros q. unfold in_party at 1. simpl.
      rewrite in_party_insert. simpl. naive_solver.
  - intros j v [Hj Hv]%lookup_delete_Some. rewrite lookup_alter_is_Some. destruct (H4 j v Hv) as [? Hn]. split; [done|].
    unfold in_party. simpl. rewrite in_party_insert. simpl. intros [[E1 E2]|[_ ?]]; [|done].
    apply Hj. by eapply H5.
  - intros j k v w [_ Hv]%lookup_delete_Some [_ Hw]%lookup_delete_Some. by eapply H5.
  - split_and!; [|intros q n; rewrite lookup_insert; case_decide; [intros [= <-]; lia|intros ?%H7; lia]|lia].
    intros x r [(_ & r' & _ & ->)|[_ ?%H6]]%lookup_alter_Some; simpl; lia.
Qed.

Lemma recorded_lookup gone rev m p : recorded gone rev m !! p = if decide (p ∈ gone) then Some rev else m !! p.
Proof.
  induction gone as [|x gone IH]; [done|]. simpl. rewrite lookup_insert, IH.
  repeat case_decide; try done; set_solver.
Qed.

Lemma inv_remove pid gone d : party_inv d → may (Remove pid gone) d → party_inv (perform (Remove pid gone) d).
Proof.
  intros [H1 H2 H3 H4 H5 (H6 & H7 & H8)] (Hne & Hin).
  assert (Hr : ∃ r, parties d !! pid = Some r).
  { destruct gone as [|x gone]; [done|]. destruct (proj1 (in_party_spec d x pid) (Hin x ltac:(by left))) as (m & Hm & <-).
    by destruct (H1 x m Hm) as [? _]. }
  destruct Hr as [r Hr]. set (d1 := without gone d). assert (Hr1 : parties d1 !! pid = Some r) by done.
  assert (Hsub : ∀ p m, members d1 !! p = Some m → members d !! p = Some m ∧ p ∉ gone)
    by (intros p m; apply map_lookup_filter_Some).
  assert (Hrev : ∀ p n, recorded gone (revision_seq d + 1) (player_revisions d) !! p = Some n → 0 < n ≤ revision_seq d + 1).
  { intros p n. rewrite recorded_lookup. case_decide; [intros [= <-]; lia|intros ?%H7; lia]. }
  assert (Hcap : ∀ x, Z.of_nat (size (roster x d1)) ≤ MAX_MEMBERS).
  { intros x. etrans; [|exact (H3 x)]. apply inj_le, roster_le. intros q. unfold d1. rewrite in_party_without. naive_solver. }
  simpl. unfold settled. fold d1. destruct (next_leader pid d1) as [l|] eqn:El.
  - destruct (next_leader_spec _ _ r _ Hr1 El) as (ml & Hl & _). split; simpl; try done.
    + intros p m Hm. rewrite lookup_alter_is_Some. by apply H1, Hsub.
    + intros x y Hy. change (in_party d1 (leader_id y) x ∧ uuid_in x = Some x).
      apply lookup_alter_Some in Hy as [(<- & y' & _ & ->)|[Hx Hy]].
      * split; [|by apply (H2 pid r)]. apply in_party_spec. apply roster_lookup in Hl. eauto.
      * destruct (H2 x y Hy) as [Hy' ?]. split; [|done]. apply in_party_without. split; [|done].
        intros Hg%Hin. apply Hx. by eapply in_party_fun.
    + intros i v Hv. rewrite lookup_alter_is_Some. destruct (H4 i v Hv) as [? Hn]. split; [done|].
      intros Hn'. exact (Hn (proj2 (proj1 (in_party_without gone d _ _) Hn'))).
    + split_and!; [|done|lia]. intros x y [(_ & y' & _ & ->)|[_ ?%H6]]%lookup_alter_Some; simpl; lia.
  - pose proof (next_leader_None _ d1 r Hr1 El) as He.
    assert (Hno : ∀ q, ¬ in_party d1 q pid) by (intros q Hq%roster_dom; rewrite He in Hq; set_solver).
    split; simpl; try done.
    + intros p m Hm. destruct (H1 p m ltac:(by apply Hsub)) as (? & ? & ?). rewrite lookup_delete_ne; [done|].
      intros ->. apply (Hno p). apply in_party_spec. eauto.
    + intros x y [Hx Hy]%lookup_delete_Some. destruct (H2 x y Hy) as [Hy' ?]. split; [|done].
      apply in_party_without. split; [|done]. intros Hg%Hin. apply Hx. by eapply in_party_fun.
    + intros i v [Hv Hp]%map_lookup_filter_Some. simpl in Hp. rewrite lookup_delete_ne by done. destruct (H4 i v Hv) as [? Hn].
      split; [done|]. intros Hn'. exact (Hn (proj2 (proj1 (in_party_without gone d _ _) Hn'))).
    + intros i j v w [Hv _]%map_lookup_filter_Some [Hw _]%map_lookup_filter_Some. by apply H5.
    + split_and!; [|done|lia]. intros x y [_ ?%H6]%lookup_delete_Some. lia.
Qed.

Lemma inv_stamp pid (f : string → string) d :
  party_inv d → (∀ r, parties d !! pid = Some r → in_party d (f (leader_id r)) pid) →
  party_inv (set_parties (alter (fun r => mkPartyRow (f (leader_id r)) (revision_seq d + 1)) pid (parties d))
               (set_seq (revision_seq d + 1) d)).
Proof.
  intros [H1 H2 H3 H4 H5 (H6 & H7 & H8)] Hf. split; simpl; try done.
  - intros p m Hm. rewrite lookup_alter_is_Some. by apply H1.
  - intros x r [(<- & r' & Hr' & ->)|[_ Hr]]%lookup_alter_Some; [|by apply H2]. simpl. split; [by apply Hf|by eapply H2].
  - intros i v Hv. rewrite lookup_alter_is_Some. by eapply H4.
  - split_and!; [|intros q n ?%H7; lia|lia]. intros x r [(_ & r' & _ & ->)|[_ ?%H6]]%lookup_alter_Some; simpl; lia.
Qed.

Lemma inv_ready p pid state until d :
  party_inv d → may (Ready p pid state until) d → party_inv (perform (Ready p pid state until) d).
Proof.
  intros Hd [Hin Hst]. pose proof (inv_stamp pid (fun l => l) d Hd) as Hs.
  eapply inv_members; [apply Hs; intros r Hr; by apply Hd|done..| |].
  - intros q x. unfold in_party at 1. simpl. rewrite in_party_alter by done. done.
  - intros q m. simpl. intros [(_ & n & _ & ->)|[_ Hm]]%lookup_alter_Some; simpl; [done|by eapply (pi_member d)].
Qed.

Lemma inv_invites d m : party_inv d →
  (∀ i v, m !! i = Some v → is_Some (parties d !! v_party v) ∧ ¬ in_party d (invitee_id v) (v_party v)) →
  (∀ i j v w, m !! i = Some v → m !! j = Some w → v_party v = v_party w → invitee_id v = invitee_id w → i = j) →
  party_inv (set_invites m d).
Proof. intros [] ??. by split. Qed.

Lemma act_inv a d : party_inv d → may a d → party_inv (perform a d).
Proof.
  intros Hd. destruct a; intros Hm.
  - destruct Hd as [H1 H2 H3 H4 H5 (H6 & H7 & H8)]. simpl in Hm. split; simpl; try done.
    split_and!; [intros x r ?%H6; lia|intros x r ?%H7; lia|lia].
  - by apply inv_renew.
  - by apply inv_create.
  - by apply inv_accept.
  - by apply inv_remove.
  - by apply (inv_stamp pid (fun _ => target) d Hd).
  - by apply inv_ready.
  - destruct Hm as (Hp & Hn & Hu). apply inv_invites; [done|..].
    + intros j v. rewrite lookup_insert. case_decide; [by intros [= <-]|apply Hd].
    + intros j k v w. rewrite !lookup_insert. repeat case_decide; intros Hj Hk E1 E2; simplify_eq; try done;
        [symmetry| |]; [by eapply Hu|by eapply Hu|by eapply (pi_unique d)].
  - simpl in Hm. apply inv_invites; [done|..].
    + intros j v Hv. eapply (pi_invite d Hd). by eapply lookup_weaken.
    + intros j k v w Hv Hw. eapply (pi_unique d Hd); by eapply lookup_weaken.
  - destruct Hd as [H1 H2 H3 H4 H5 (H6 & H7 & H8)]. split; simpl; try done.
    split_and!; [done| |done]. intros q n [_ Hq]%lookup_delete_Some. by eapply H7.
Qed.

(** ** Transactions perform acts *)

Variable lease_secs : Z.

Definition performs (l : list act) (d : PartyDb) : PartyDb := foldl (fun d a => perform a d) d l.

Fixpoint mays (l : list act) (d : PartyDb) : Prop :=
  match l with [] => True | a :: l => may a d ∧ mays l (perform a d) end.

Lemma performs_inv l d : party_inv d → mays l d → party_inv (performs l d).
Proof. revert d. induction l as [|a l IH]; intros d Hd; simpl; [done|]. intros [Ha Hl]. apply IH; [by apply act_inv|done]. Qed.

(** The transactions the operations run, by who asks for what. *)
Inductive Cmd :=
| CCreate (me : string)
| CRenew (me : string)
| CInvite (me target : string)
| CAccept (me invite : string)
| CDecline (me invite : string)
| CLeave (me : string)
| CKick (me target : string)
| CPromote (me target : string)
| CReady (me state : string)
| CPurge (player : string)
| CSweep (now : Z)
| CExpire (now : Z).

(** One committed or aborted transaction, whatever it read before its lock. *)
Inductive txn : Cmd → PartyDb → PartyDb → Prop :=
| t_create me clock id d d' r :
    uuid_in id = Some id → create_txn lease_secs me clock id d = (d', r) → txn (CCreate me) d d'
| t_renew me clock d d' r : renew_txn lease_secs me clock d = (d', r) → txn (CRenew me) d d'
| t_invite me pid target now clock id d d' r :
    invite_txn lease_secs me pid target now clock id d = (d', r) → txn (CInvite me target) d d'
| t_accept me i pid now clock d d' r :
    accept_txn lease_secs me i pid now clock d = (d', r) → txn (CAccept me i) d d'
| t_decline me i d d' r : decline_txn me i d = (d', r) → txn (CDecline me i) d d'
| t_leave me pid d d' r : locked me pid (leave_body me pid) d = (d', r) → txn (CLeave me) d d'
| t_kick me pid target clock d d' r :
    locked me pid (kick_body lease_secs me pid target clock) d = (d', r) → txn (CKick me target) d d'
| t_promote me pid target clock d d' r :
    locked me pid (promote_body lease_secs me pid target clock) d = (d', r) → txn (CPromote me target) d d'
| t_ready me pid state clock d d' r :
    locked me pid (set_ready_body lease_secs me pid state clock) d = (d', r) → txn (CReady me state) d d'
| t_purge p seen d d' r : purge_txn p seen d = (d', r) → txn (CPurge p) d d'
| t_sweep pid now d d' r : sweep_txn pid now d = (d', r) → txn (CSweep now) d d'
| t_expire now d d' r : expire_invites_txn now d = (d', r) → txn (CExpire now) d d'.

Definition leads (d : PartyDb) (p pid : string) : Prop := leader_id <$> parties d !! pid = Some p.

(** The acts a transaction may perform, and on whose behalf. *)
Inductive did (d : PartyDb) : Cmd → list act → Prop :=
| did_nothing c : did d c []
| did_advance c n : did d c [Advance n]
| did_create me p pid clock until : uuid_in me = Some p → did d (CCreate me) [Create p pid clock until]
| did_renew me p until : uuid_in me = Some p → did d (CRenew me) [Renew p until]
| did_invite me target p q pid i until expires :
    uuid_in me = Some p → uuid_in target = Some q → leads d p pid →
    did d (CInvite me target) [Renew p until; Invited i (mkInvite pid p q expires)]
| did_accept me invite p i pid clock until :
    uuid_in me = Some p → uuid_in invite = Some i → did d (CAccept me invite) [Accept i p pid clock until]
| did_decline me invite p i v :
    uuid_in me = Some p → uuid_in invite = Some i → invites d !! i = Some v → invitee_id v = p →
    did d (CDecline me invite) [KeepInvites (delete i (invites d))]
| did_leave me p pid : uuid_in me = Some p → did d (CLeave me) [Remove pid [p]]
| did_kick me target p q pid until :
    uuid_in me = Some p → uuid_in target = Some q → leads d p pid →
    did d (CKick me target) [Remove pid [q]; Renew p until]
| did_promote me target p q pid until :
    uuid_in me = Some p → uuid_in target = Some q → leads d p pid →
    did d (CPromote me target) [Renew p until; Promote pid q]
| did_ready me state p pid until : uuid_in me = Some p → did d (CReady me state) [Ready p pid state until]
| did_purge player p l m :
    uuid_in player = Some p → l = [] ∨ (∃ pid, l = [Remove pid [p]]) →
    did d (CPurge player) (l ++ [KeepInvites m; Forget p])
| did_sweep now pid gone :
    (∀ p, p ∈ gone → ∃ m, members d !! p = Some m ∧ lease_until m < now) →
    did d (CSweep now) [Remove pid gone]
| did_expire now m : did d (CExpire now) [KeepInvites m].

(** *** The statements *)

Lemma mono_modify (f : PartyDb → PartyDb) {E} :
  (∀ d, revision_seq d ≤ revision_seq (f d)) → st_mono (E := E) revision_seq (modify f).
Proof. intros Hf d d' r [= <- <-]. apply Hf. Qed.

Lemma mono_cast s : st_mono revision_seq (cast_uuid s : ST PartyDb SqlError string).
Proof. apply st_mono_lift. Qed.

#[local] Hint Resolve mono_cast : swarog.

Lemma mono_next : st_mono revision_seq next_revision_tx.
Proof. intros d d' r. unfold next_revision_tx, mbind, ST_bind, gets. case_match; intros [= <- <-]; simpl; lia. Qed.

#[local] Hint Resolve mono_next : swarog.

Ltac mono :=
  repeat first
    [ solve [trivial with swarog]
    | apply st_mono_bind; [|intros ?]
    | apply st_mono_map_err
    | apply mono_modify; intros ?; simpl; lia
    | case_match ].

Lemma mono_settle pid gone : st_mono revision_seq (settle_removal_tx pid gone).
Proof.
  unfold settle_removal_tx. mono. induction gone as [|x gone IH]; simpl; [mono|].
  unfold record_player_revision_tx at 1. mono.
Qed.

#[local] Hint Resolve mono_settle : swarog.

Lemma transact_inv {E A} (m : ST PartyDb E A) d d' r :
  st_mono revision_seq m → transact m d = (d', r) →
  (∃ a, r = Ok a ∧ m d = (d', Ok a)) ∨ (∃ n, d' = set_seq n d ∧ revision_seq d ≤ n).
Proof.
  intros Hm. unfold transact. destruct (m d) as [d1 [a|e]] eqn:E1; intros [= <- <-]; [eauto|].
  right. eexists. split; [done|]. by eapply Hm.
Qed.

Lemma next_revision_ok d d' n :
  next_revision_tx d = (d', Ok n) → n = revision_seq d + 1 ∧ d' = set_seq (revision_seq d + 1) d.
Proof. unfold next_revision_tx, mbind, ST_bind, gets. case_match; intros [= <- <-]; done. Qed.

Lemma record_ok p rev d d' x :
  record_player_revision_tx p rev d = (d', Ok x) →
  ∃ u, uuid_in p = Some u ∧ d' = set_revs (<[u := rev]> (player_revisions d)) d.
Proof. unfold record_player_revision_tx. intros E. pg_inv E. injection E as <- <-. eauto. Qed.

Lemma party_of_ok me d d' r :
  party_of_tx me d = (d', Ok r) → ∃ p, uuid_in me = Some p ∧ d' = d ∧ r = m_party <$> members d !! p.
Proof. unfold party_of_tx. intros E. pg_inv E. injection E as <- <-. eauto. Qed.

Lemma led_party_ok me d d' pid :
  led_party_tx me d = (d', Ok (Some pid)) → ∃ p, uuid_in me = Some p ∧ d' = d ∧ in_party d p pid ∧ leads d p pid.
Proof.
  unfold led_party_tx. intros E. pg_inv E. injection E as <- E. unfold in_party, leads.
  destruct (members d !! _) as [m|] eqn:Em; [|done]. simpl in E. destruct (parties d !! m_party m) as [r|] eqn:Er; [|done].
  simpl in E. case_bool_decide; [|done]. injection E as <-. eexists. split_and!; [done|done|by rewrite Em|].
  rewrite Er. simpl. by f_equal.
Qed.

Lemma renew_ok me secs clock d d' x :
  renew_tx me secs clock d = (d', Ok x) → ∃ p, uuid_in me = Some p ∧ d' = perform (Renew p (clock + micros secs)) d.
Proof. unfold renew_tx. intros E. pg_inv E. injection E as <- <-. eauto. Qed.

Lemma is_member_ok pid p d d' b :
  is_member_tx pid p d = (d', Ok b) →
  ∃ x u, uuid_in p = Some u ∧ uuid_in pid = Some x ∧ d' = d ∧ (b = true ↔ in_party d u x).
Proof. unfold is_member_tx. intros E. pg_inv E. injection E as <- <-. eexists _, _. rewrite bool_decide_eq_true. done. Qed.

Lemma without_one p d : set_members (delete p (members d)) d = without [p] d.
Proof.
  unfold without. f_equal. apply map_eq. intros q. rewrite map_lookup_filter, lookup_delete.
  destruct (members d !! q); simpl; case_decide; try case_guard; set_solver.
Qed.

Lemma records_ok gone rev d d' x :
  (∀ p, p ∈ gone → uuid_in p = Some p) →
  foldr (fun p k => record_player_revision_tx p rev;; k) (mret ()) gone d = (d', Ok x) →
  d' = set_revs (foldl (fun m p => <[p := rev]> m) (player_revisions d) gone) d.
Proof.
  revert d. induction gone as [|p gone IH]; intros d Hg; simpl; [intros [= <- <-]; by destruct d|]. intros E. st_inv E.
  apply record_ok in E0 as (u & Hu & ->). rewrite (Hg p ltac:(by left)) in Hu. injection Hu as <-.
  apply IH in E; [|intros; apply Hg; by right]. done.
Qed.

Lemma recorded_foldl gone rev m : foldl (fun m p => <[p := rev]> m) m gone = recorded gone rev m.
Proof.
  apply map_eq. intros q. rewrite recorded_lookup. revert m. induction gone as [|p gone IH]; intros m; [done|]. simpl.
  rewrite IH, lookup_insert. repeat case_decide; try done; set_solver.
Qed.

Lemma settle_ok party gone d d' r :
  (∀ p, p ∈ gone → uuid_in p = Some p) → settle_removal_tx party gone d = (d', Ok r) →
  ∃ pid, uuid_in party = Some pid ∧ d' = settled pid gone d
    ∧ r = mkRemoval gone (revision_seq d + 1) (bool_decide (next_leader pid d = None)).
Proof.
  intros Hg. unfold settle_removal_tx. intros E. pg_inv E.
  apply st_bind_ok in E as (? & ? & [-> ->]%next_revision_ok & E). apply st_bind_ok in E as (d1 & ? & Ed & E).
  apply st_bind_ok in E as (d2 & ? & ->%records_ok & E); [|done]. injection E as <- <-. eexists. split; [done|].
  rewrite recorded_foldl. split; [|done]. unfold settled.
  destruct (next_leader _ d) as [l|] eqn:El; [by injection Ed as <- <-|].
  apply st_bind_ok in Ed as (? & ? & [= <- <-] & [= <- <-]). done.
Qed.

Lemma remove_member_ok party player d d' r :
  party_inv d → remove_member_tx party player d = (d', Ok r) →
  ∃ p pid, uuid_in player = Some p ∧ uuid_in party = Some pid ∧
    match r with
    | Some r => in_party d p pid ∧ d' = perform (Remove pid [p]) d ∧ removed r = [p]
                ∧ r_revision r = revision_seq d + 1
                ∧ (dissolved r = true ↔ next_leader pid (without [p] d) = None)
    | None => d' = d ∧ ¬ in_party d p pid
    end.
Proof.
  intros Hd. unfold remove_member_tx. intros E. pg_inv E. eexists _, _. split; [done|]. split; [done|].
  case_bool_decide as Hin; [|by injection E as <- <-].
  apply st_bind_ok in E as (d1 & ? & [= <- <-] & E). apply st_bind_ok in E as (d2 & r' & E & [= <- <-]).
  rewrite without_one in E. apply settle_ok in E as (pid' & Hp & -> & ->).
  - simplify_eq. simpl. by rewrite bool_decide_eq_true.
  - intros q ->%list_elem_of_singleton. apply in_party_spec in Hin as (m & Hm & _). by eapply (pi_member d Hd).
Qed.

Definition expired (pid : string) (now : Z) (d : PartyDb) (p : string) : Prop :=
  ∃ m, members d !! p = Some m ∧ m_party m = pid ∧ lease_until m < now.

Lemma expired_of_spec pid now d p : p ∈ expired_of pid now d ↔ expired pid now d p.
Proof.
  unfold expired_of, expired. rewrite list_elem_of_fmap. setoid_rewrite (surjective_pairing) at 1.
  split.
  - intros ([q m] & -> & Hq%elem_of_map_to_list). simpl in Hq. apply map_lookup_filter_Some in Hq as [Hq Hl].
    apply roster_lookup in Hq as [Hq <-]. eauto.
  - intros (m & Hm & Hp & Hl). exists (p, m). split; [done|]. apply elem_of_map_to_list, map_lookup_filter_Some.
    split; [by apply roster_lookup|done].
Qed.

Lemma remove_expired_ok party now d d' r :
  party_inv d → remove_expired_tx party now d = (d', Ok r) →
  ∃ pid, uuid_in party = Some pid ∧
    match r with
    | Some r => d' = perform (Remove pid (removed r)) d ∧ removed r ≠ [] ∧ (∀ p, p ∈ removed r ↔ expired pid now d p)
                ∧ r_revision r = revision_seq d + 1
                ∧ (dissolved r = true ↔ next_leader pid (without (removed r) d) = None)
    | None => d' = d ∧ ∀ p, ¬ expired pid now d p
    end.
Proof.
  intros Hd. unfold remove_expired_tx. intros E. apply st_bind_ok in E as (? & x & [-> Hpid]%pg_cast_ok & E).
  apply st_bind_ok in E as (? & ? & [= <- <-] & E). eexists. split; [done|].
  pose proof (expired_of_spec x now d) as Hx.
  destruct (expired_of x now d) as [|y gone]; [injection E as <- <-; split; [done|]; intros p Hp%Hx; set_solver|].
  apply st_bind_ok in E as (d1 & ? & [= <- <-] & E). apply st_bind_ok in E as (d2 & r' & E & [= <- <-]).
  set (l := merge_sort String.le (y :: gone)) in *.
  assert (Hl : ∀ p, p ∈ l ↔ expired x now d p) by (intros p; unfold l; rewrite merge_sort_Permutation; apply Hx).
  assert (Hw : set_members (filter (fun kv => ¬ (m_party (snd kv) = x ∧ lease_until (snd kv) < now)) (members d)) d = without l d).
  { unfold without. f_equal. apply map_eq. intros p. rewrite !map_lookup_filter. destruct (members d !! p) as [m|] eqn:Em; [|done].
    simpl. repeat case_guard; try done; exfalso; rewrite Hl in *; unfold expired in *; naive_solver. }
  rewrite Hw in E. apply settle_ok in E as (pid' & Hp & -> & ->).
  - simplify_eq. simpl. rewrite bool_decide_eq_true. split_and!; try done.
    intros El. assert (Hy : y ∈ l) by (apply Hl, Hx; by left). rewrite El in Hy. set_solver.
  - intros p (m & Hm & _)%Hl. by eapply (pi_member d Hd).
Qed.

(** *** Every transaction is explained by its acts *)

Definition explained (c : Cmd) (d d' : PartyDb) : Prop := ∃ l, did d c l ∧ mays l d ∧ d' = performs l d.

Lemma explained_error c d n : revision_seq d ≤ n → explained c d (set_seq n d).
Proof. intros Hn. exists [Advance n]. split; [constructor|]. by split. Qed.

Lemma explained_nothing c d : explained c d d.
Proof. exists []. by split; [constructor|]. Qed.

Lemma mono_renew me secs clock : st_mono revision_seq (renew_tx me secs clock).
Proof. unfold renew_tx. mono. Qed.

Lemma mono_stamp pid l : st_mono revision_seq (stamp_tx pid l).
Proof. unfold stamp_tx. mono. Qed.

Lemma mono_remove pid p : st_mono revision_seq (remove_member_tx pid p).
Proof. unfold remove_member_tx. mono. Qed.

Lemma mono_remove_expired pid now : st_mono revision_seq (remove_expired_tx pid now).
Proof. unfold remove_expired_tx. mono. Qed.

Lemma mono_insert p pid secs clock id : st_mono revision_seq (insert_member_tx p pid secs clock id).
Proof. unfold insert_member_tx. mono. Qed.

Lemma mono_record p rev : st_mono revision_seq (record_player_revision_tx p rev).
Proof. unfold record_player_revision_tx. mono. Qed.

#[local] Hint Resolve mono_renew mono_stamp mono_remove mono_remove_expired mono_insert mono_record : swarog.

Lemma explained_create me clock id d d' r :
  uuid_in id = Some id → create_txn lease_secs me clock id d = (d', r) → explained (CCreate me) d d'.
Proof.
  intros Hid. unfold create_txn. intros [(a & _ & E)|(n & -> & ?)]%transact_inv; [|by apply explained_error|].
  2:{ unfold create_tx. mono. }
  apply st_bind_ok in E as (d1 & [pid rev] & E%st_map_err_ok & [= <- <-]). unfold create_tx in E.
  apply st_bind_ok in E as (d2 & pid' & Ei & E). unfold insert_member_tx in Ei.
  apply st_bind_ok in Ei as (? & p & [-> Hp]%pg_cast_ok & Ei). pg_inv Ei.
  destruct (members d !! _) as [|] eqn:Em; [done|]. apply st_bind_ok in Ei as (? & ? & [= <- <-] & [= <- <-]).
  apply st_bind_ok in E as (? & ? & [-> ->]%next_revision_ok & E). pg_inv E.
  destruct (parties d !! id) as [|] eqn:Ep; [done|].
  apply st_bind_ok in E as (? & ? & [= <- <-] & E). apply st_bind_ok in E as (? & ? & (u & Hu & ->)%record_ok & [= <- <- <-]).
  assert (u = p) as -> by congruence. exists [Create p id clock (clock + micros lease_secs)]. simplify_eq.
  split; [by constructor|]. split; [|done]. split; [|done]. simpl. split_and!; [by eapply uuid_in_canonical|done..].
Qed.

Lemma explained_renew me clock d d' r : renew_txn lease_secs me clock d = (d', r) → explained (CRenew me) d d'.
Proof.
  unfold renew_txn. intros [(a & _ & E)|(n & -> & ?)]%transact_inv; [|by apply explained_error|unfold sql; mono].
  apply st_map_err_ok, renew_ok in E as (p & Hp & ->). eexists. split; [by apply did_renew|]. split; [by split|done].
Qed.

Lemma led_check_ok me pid d d' x : leader_check me pid d = (d', Ok x) → ∃ p, uuid_in me = Some p ∧ d' = d ∧ leads d p pid.
Proof.
  unfold leader_check. intros E. apply st_bind_ok in E as (d1 & led & E1%st_map_err_ok & E).
  case_bool_decide as Hl; [subst|done]. injection E as <- <-. apply led_party_ok in E1 as (p & ? & -> & _ & ?). eauto.
Qed.

Lemma mono_led me : st_mono revision_seq (led_party_tx me).
Proof. unfold led_party_tx. mono. Qed.

Lemma mono_is_member pid p : st_mono revision_seq (is_member_tx pid p).
Proof. unfold is_member_tx. mono. Qed.

Lemma mono_party_of me : st_mono revision_seq (party_of_tx me).
Proof. unfold party_of_tx. mono. Qed.

#[local] Hint Resolve mono_led mono_is_member mono_party_of : swarog.

Lemma upsert_ok party inviter invitee ttl now id d d' r :
  upsert_invite_tx party inviter invitee ttl now id d = (d', Ok r) →
  ∃ pid a b i, uuid_in party = Some pid ∧ uuid_in inviter = Some a ∧ uuid_in invitee = Some b
    ∧ d' = perform (Invited i (mkInvite pid a b (now + micros ttl))) d
    ∧ ∀ j w, invites d !! j = Some w → v_party w = pid ∧ invitee_id w = b →
        j = i ∨ ∃ k v, k ≠ j ∧ invites d !! k = Some v ∧ v_party v = pid ∧ invitee_id v = b.
Proof.
  unfold upsert_invite_tx. intros E. apply st_bind_ok in E as (? & pid & [-> ?]%pg_cast_ok & E).
  apply st_bind_ok in E as (? & a & [-> ?]%pg_cast_ok & E). apply st_bind_ok in E as (? & b & [-> ?]%pg_cast_ok & E).
  apply st_bind_ok in E as (? & ex & [= <- Hex] & E). exists pid, a, b.
  set (f := filter _ _) in Hex.
  assert (Hf : ∀ j w, invites d !! j = Some w → v_party w = pid ∧ invitee_id w = b → (j, w) ∈ map_to_list f)
    by (intros j w Hj Hw; by apply elem_of_map_to_list, map_lookup_filter_Some).
  destruct (map_to_list f) as [|[i v] l] eqn:Ef; simpl in Hex; subst ex.
  - apply st_bind_ok in E as (? & tk & [= <- <-] & E). destruct (invites d !! id); [done|].
    apply st_bind_ok in E as (? & ? & [= <- <-] & [= <- <-]). exists id. split_and!; try done.
    intros j w Hj Hw. specialize (Hf j w Hj Hw). set_solver.
  - apply st_bind_ok in E as (? & ? & [= <- <-] & [= <- <-]). exists i. split_and!; try done.
    intros j w Hj Hw. destruct (decide (j = i)) as [->|Hne]; [by left|right]. exists i, v.
    assert (Hi : (i, v) ∈ map_to_list f) by (rewrite Ef; by left).
    apply elem_of_map_to_list, map_lookup_filter_Some in Hi as [? ?]. naive_solver.
Qed.

Lemma explained_invite me pid target now clock id d d' r :
  party_inv d → invite_txn lease_secs me pid target now clock id d = (d', r) → explained (CInvite me target) d d'.
Proof.
  intros Hd. unfold invite_txn. intros [(a & _ & E)|(n & -> & ?)]%transact_inv; [|by apply explained_error|].
  2:{ unfold sql, upsert_invite_tx, not_found. mono. }
  apply st_bind_ok in E as (d1 & led & E1%st_map_err_ok & E). destruct (bool_decide (led = Some pid)) eqn:El; simpl in E; [|done].
  apply bool_decide_eq_true in El as ->. apply led_party_ok in E1 as (p & Hp & -> & Hin & Hl).
  apply st_bind_ok in E as (d1 & b & (xp & u & Hu & Hx & -> & Hb)%st_map_err_ok%is_member_ok & E). destruct b; [done|].
  assert (Hr : ∃ row, parties d !! pid = Some row) by (unfold leads in Hl; destruct (parties d !! pid); [eauto|done]).
  destruct Hr as [row Hr]. destruct (pi_leader d Hd pid row Hr) as [_ Hcan].
  apply st_bind_ok in E as (d1 & ? & (p' & Hp' & ->)%st_map_err_ok%renew_ok & E).
  apply st_map_err_ok, upsert_ok in E as (pid' & a' & b' & i & ? & ? & ? & -> & Hu'). simplify_eq.
  eexists [_; _]. split; [by eapply did_invite|]. split; [|done]. split; [done|]. split; [|done].
  set (d1 := perform (Renew _ _) d). assert (Hd1 : party_inv d1) by by apply inv_renew.
  split_and!; simpl.
  - eauto.
  - intros Hin'. unfold in_party in Hin'. simpl in Hin'. apply in_party_alter in Hin'; [|done]. by apply Hb in Hin'.
  - intros j w Hj Hw. destruct (Hu' j w Hj Hw) as [->|(k & v & Hne & Hk & Hv & Hv')]; [done|].
    destruct Hne. destruct Hw. apply (pi_unique d Hd k j v w); [done|done|congruence..].
Qed.

Lemma explained_accept me i pid now clock d d' r :
  accept_txn lease_secs me i pid now clock d = (d', r) → explained (CAccept me i) d d'.
Proof.
  unfold accept_txn. intros [(a & _ & E)|(n & -> & ?)]%transact_inv; [|by apply explained_error|].
  2:{ unfold sql, consume_invite_tx, count_members_tx, join_tx. mono. }
  apply st_bind_ok in E as (d1 & taken & Ec%st_map_err_ok & E). destruct taken; [simpl in E|done]. unfold consume_invite_tx in Ec.
  apply st_bind_ok in Ec as (? & iv & [-> Hi]%pg_cast_ok & Ec). apply st_bind_ok in Ec as (? & p & [-> Hp]%pg_cast_ok & Ec).
  apply st_bind_ok in Ec as (? & x & [-> Hx]%pg_cast_ok & Ec). apply st_bind_ok in Ec as (? & ? & [= <- <-] & Ec).
  destruct (invites d !! iv) as [inv|] eqn:Ei; [|done]. destruct (addressed inv p now) eqn:Ea; [|done].
  simpl in Ec. case_bool_decide as Hv; [|done]. apply st_bind_ok in Ec as (? & ? & [= <- <-] & [= <-]).
  apply st_bind_ok in E as (d1 & count & Ec%st_map_err_ok & E). unfold count_members_tx in Ec.
  apply st_bind_ok in Ec as (? & x' & [-> Hx']%pg_cast_ok & Ec). injection Ec as <- <-.
  simplify_eq. case_match eqn:Hc; [done|]. apply Z.leb_gt in Hc.
  apply st_bind_ok in E as (? & ? & E%st_map_err_ok & [= <- <-]). unfold join_tx in E.
  apply st_bind_ok in E as (? & ? & Ej & E). unfold insert_member_tx in Ej.
  apply st_bind_ok in Ej as (? & ? & [-> ?]%pg_cast_ok & Ej). apply st_bind_ok in Ej as (? & ? & [-> ?]%pg_cast_ok & Ej).
  apply st_bind_ok in Ej as (? & ? & [= <- <-] & Ej). simplify_eq. simpl in Ej.
  destruct (members d !! p) as [|] eqn:Em; [done|]. apply st_bind_ok in Ej as (? & ? & [= <- <-] & [= <- <-]).
  apply st_bind_ok in E as (? & ? & [-> ->]%next_revision_ok & E). apply st_bind_ok in E as (? & ? & [-> ?]%pg_cast_ok & E).
  apply st_bind_ok in E as (? & ? & [= <- <-] & E). apply st_bind_ok in E as (? & ? & (u & Hu & ->)%record_ok & [= <- <-]).
  simplify_eq. eexists [_]. split; [by eapply did_accept|]. split; [|done]. split; [|done]. simpl.
  unfold addressed in Ea. apply andb_true_iff in Ea as [Ea _]. apply bool_decide_eq_true in Ea.
  split_and!; [by eapply uuid_in_canonical|done|done|eauto].
Qed.

Lemma explained_decline me i d d' r : decline_txn me i d = (d', r) → explained (CDecline me i) d d'.
Proof.
  unfold decline_txn. intros [(a & _ & E)|(n & -> & ?)]%transact_inv; [|by apply explained_error|].
  2:{ unfold sql, decline_invite. mono. }
  apply st_bind_ok in E as (d1 & b & Ed%st_map_err_ok & E). destruct b; [injection E as <- <-|done]. unfold decline_invite in Ed.
  apply st_bind_ok in Ed as (? & x & [-> Hi]%pg_cast_ok & Ed). apply st_bind_ok in Ed as (? & p & [-> Hp]%pg_cast_ok & Ed).
  apply st_bind_ok in Ed as (? & ? & [= <- <-] & Ed). destruct (invites d !! x) as [v|] eqn:Ei; [|done].
  case_bool_decide as Hv; [|done]. apply st_bind_ok in Ed as (? & ? & [= <- <-] & [= <-]).
  eexists [_]. split; [by eapply did_decline|]. split; [|done]. split; [apply delete_subseteq|done].
Qed.

(** The re-reading under the lock, and what follows it. *)
Lemma locked_inv {A} me pid (body : ST PartyDb Error A) c d d' r :
  st_mono revision_seq body → locked me pid body d = (d', r) →
  (∀ p a, uuid_in me = Some p → in_party d p pid → body d = (d', Ok a) → explained c d d') → explained c d d'.
Proof.
  intros Hb. unfold locked. intros [(x & -> & E)|(n & -> & ?)]%transact_inv Hk; [|by apply explained_error|].
  2:{ unfold sql. mono. }
  apply st_bind_ok in E as (d1 & again & (p & Hp & -> & ->)%st_map_err_ok%party_of_ok & E). case_bool_decide as Ha.
  - apply st_bind_ok in E as (d2 & a & E & [= <- <-]). by eapply Hk.
  - injection E as <- <-. apply explained_nothing.
Qed.

Lemma may_remove_one d p pid : in_party d p pid → may (Remove pid [p]) d.
Proof. intros Hin. split; [done|]. by intros q ->%list_elem_of_singleton. Qed.

Lemma explained_leave me pid d d' r :
  party_inv d → locked me pid (leave_body me pid) d = (d', r) → explained (CLeave me) d d'.
Proof.
  intros Hd Hl. refine (locked_inv me pid _ _ d d' r _ Hl _); [unfold leave_body, sql; mono|]. intros p a Hp _ E. unfold leave_body in E.
  apply st_bind_ok in E as (d1 & rm & Em%st_map_err_ok & E).
  destruct (remove_member_ok _ _ _ _ _ Hd Em) as (p' & x & Hp' & Hx & Hr).
  apply st_lift_ok in E as [-> Erm]. destruct rm as [rm|]; [|done]. destruct Hr as (Hin & -> & _). simplify_eq.
  eexists [_]. split; [by eapply did_leave|]. split; [|done]. by split; [apply may_remove_one|].
Qed.

Lemma leads_canonical d p pid : party_inv d → leads d p pid → uuid_in pid = Some pid.
Proof. intros Hd Hl. unfold leads in Hl. destruct (parties d !! pid) as [r|] eqn:Er; [|done]. by apply (pi_leader d Hd pid r). Qed.

Lemma mono_leader_check me pid : st_mono revision_seq (leader_check me pid).
Proof. unfold leader_check, sql, not_found. mono. Qed.

#[local] Hint Resolve mono_leader_check : swarog.

Lemma explained_kick me pid target clock d d' r :
  party_inv d → locked me pid (kick_body lease_secs me pid target clock) d = (d', r) → explained (CKick me target) d d'.
Proof.
  intros Hd Hl. refine (locked_inv me pid _ _ d d' r _ Hl _); [unfold kick_body, sql, not_found; mono|]. intros p a Hp _ E. unfold kick_body in E.
  apply st_bind_ok in E as (d1 & ? & (p' & Hp' & -> & Hlead)%led_check_ok & E).
  apply st_bind_ok in E as (d1 & rm & Em%st_map_err_ok & E).
  destruct (remove_member_ok _ _ _ _ _ Hd Em) as (t & xp & Ht & Hx & Hr).
  destruct rm as [rm|]; [|done]. destruct Hr as (Hin & -> & _).
  apply st_bind_ok in E as (d1 & ? & (p2 & Hp2 & ->)%st_map_err_ok%renew_ok & [= <- <-]).
  pose proof (leads_canonical d p' pid Hd Hlead). simplify_eq.
  eexists [_; _]. split; [by eapply did_kick|]. split; [|done]. by split; [apply may_remove_one|].
Qed.

Lemma stamp_ok party leader d d' rev :
  stamp_tx party leader d = (d', Ok rev) →
  ∃ pid, uuid_in party = Some pid ∧ rev = revision_seq d + 1 ∧
    match leader with
    | Some l => ∃ u, uuid_in l = Some u ∧ d' = perform (Promote pid u) d
    | None => d' = set_parties (alter (fun r => mkPartyRow (leader_id r) (revision_seq d + 1)) pid (parties d))
                     (set_seq (revision_seq d + 1) d)
    end.
Proof.
  unfold stamp_tx. intros E. apply st_bind_ok in E as (? & ? & [-> ->]%next_revision_ok & E).
  apply st_bind_ok in E as (? & pid & [-> Hx]%pg_cast_ok & E). apply st_bind_ok in E as (? & l & El & E).
  apply st_bind_ok in E as (? & ? & [= <- <-] & [= <- <-]). exists pid. split; [done|]. split; [done|].
  destruct leader as [u|]; [|by injection El as <- <-].
  apply st_bind_ok in El as (? & v & [-> Hu]%pg_cast_ok & [= <- <-]). by exists v.
Qed.

Lemma explained_promote me pid target clock d d' r :
  party_inv d → locked me pid (promote_body lease_secs me pid target clock) d = (d', r) → explained (CPromote me target) d d'.
Proof.
  intros Hd Hl. refine (locked_inv me pid _ _ d d' r _ Hl _); [unfold promote_body, sql, not_found; mono|].
  intros p a Hp _ E. unfold promote_body in E.
  apply st_bind_ok in E as (d1 & ? & (p' & Hp' & -> & Hlead)%led_check_ok & E).
  apply st_bind_ok in E as (d1 & b & (xp & u & Hu & Hx & -> & Hb)%st_map_err_ok%is_member_ok & E). destruct b; [|done]. simpl in E.
  apply st_bind_ok in E as (d1 & ? & (p2 & Hp2 & ->)%st_map_err_ok%renew_ok & E).
  apply st_bind_ok in E as (d2 & ? & (y & Hy & _ & v & Hv & ->)%st_map_err_ok%stamp_ok & [= <- <-]).
  pose proof (leads_canonical d p' pid Hd Hlead). simplify_eq.
  eexists [_; _]. split; [by eapply did_promote|]. split; [|done]. split; [done|]. split; [|done].
  unfold may, in_party. simpl. apply in_party_alter; [done|]. by apply Hb.
Qed.

Lemma explained_ready me pid state clock d d' r :
  locked me pid (set_ready_body lease_secs me pid state clock) d = (d', r) → explained (CReady me state) d d'.
Proof.
  intros Hl. refine (locked_inv me pid _ _ d d' r _ Hl _); [unfold set_ready_body, sql, set_ready_tx; mono|].
  intros p a Hp Hin E. unfold set_ready_body in E. apply st_bind_ok in E as (d1 & b & Es%st_map_err_ok & E).
  destruct b; [simpl in E|done]. unfold set_ready_tx in Es. apply st_bind_ok in Es as (? & u & [-> Hu]%pg_cast_ok & Es).
  apply st_bind_ok in Es as (? & x & [-> Hx]%pg_cast_ok & Es). apply st_bind_ok in Es as (? & here & [= <- <-] & Es).
  destruct (bool_decide (m_party <$> members d !! u = Some x)) eqn:Eh; [|done]. apply bool_decide_eq_true in Eh. simpl in Es.
  case_bool_decide as Hst; [done|]. apply st_bind_ok in Es as (? & ? & [= <- <-] & [= <-]).
  apply st_bind_ok in E as (d2 & ? & (y & Hy & _ & ->)%st_map_err_ok%stamp_ok & [= <- <-]). simplify_eq.
  eexists [_]. split; [by eapply did_ready|]. split; [|done]. split; [|done]. split; [done|].
  destruct (decide (state = READY)); [by left|]. destruct (decide (state = NOT_READY)); [by right|]. naive_solver.
Qed.

Lemma explained_purge p seen d d' r : party_inv d → purge_txn p seen d = (d', r) → explained (CPurge p) d d'.
Proof.
  intros Hd. unfold purge_txn. intros [(a & _ & E)|(n & -> & ?)]%transact_inv; [|by apply explained_error|].
  2:{ unfold delete_invites_involving_tx, delete_player_revision_tx. mono. }
  apply st_bind_ok in E as (d1 & ? & E1 & E). apply st_bind_ok in E as (d2 & ? & E2 & E).
  unfold delete_invites_involving_tx in E2. apply st_bind_ok in E2 as (? & u & [-> Hu]%pg_cast_ok & [= <- <-]).
  unfold delete_player_revision_tx in E. apply st_bind_ok in E as (? & v & [-> Hv]%pg_cast_ok & [= <- <-]).
  simplify_eq. assert (Hl : ∃ l, (l = [] ∨ ∃ pid, l = [Remove pid [u]]) ∧ mays l d ∧ d1 = performs l d).
  { destruct seen as [pid|]; [|injection E1 as <- <-; exists []; by split_and!; [left|..]].
    apply st_bind_ok in E1 as (d2 & rm & Em & E1).
    destruct (remove_member_ok _ _ _ _ _ Hd Em) as (t & xp & Ht & Hx & Hr). destruct rm; [|done].
    injection E1 as <- <-. destruct Hr as (Hin & -> & _). simplify_eq.
    eexists [_]. split; [right; eauto|]. split; [|done]. by split; [apply may_remove_one|]. }
  destruct Hl as (l & Hl & Hm & ->). eexists (l ++ [KeepInvites _; Forget u]). split; [by eapply did_purge|].
  split; cycle 1; [unfold performs; rewrite foldl_app; done|].
  destruct Hl as [->|[pid ->]]; simpl in Hm; simpl; [split_and!; [|done..]; apply map_filter_subseteq|].
  split_and!; [apply Hm..|apply map_filter_subseteq|done|done].
Qed.

Lemma explained_sweep pid now d d' r : party_inv d → sweep_txn pid now d = (d', r) → explained (CSweep now) d d'.
Proof.
  intros Hd. unfold sweep_txn. intros [(a & _ & E)|(n & -> & ?)]%transact_inv; [|by apply explained_error|].
  2:{ unfold sql, party_view. mono. }
  apply st_bind_ok in E as (d1 & rm & Em%st_map_err_ok & E).
  destruct (remove_expired_ok _ _ _ _ _ Hd Em) as (x & Hx & Hr).
  destruct rm as [rm|]; [|injection E as <- <-; destruct Hr as [-> _]; apply explained_nothing].
  destruct Hr as (-> & Hne & Hex & _). apply st_bind_ok in E as (d2 & row & Er & [= <- <-]).
  assert (Hd2 : d2 = perform (Remove x (removed rm)) d).
  { destruct (dissolved rm); [by injection Er as <- <-|]. apply st_map_err_ok in Er. unfold party_view in Er. pg_inv Er.
    by injection Er as <- <-. }
  subst d2. eexists [_]. split; [apply did_sweep|].
  - intros p (m & Hm & _ & Hlt)%Hex. eauto.
  - split; [|done]. split; [|done]. split; [done|]. intros p (m & Hm & <- & _)%Hex. apply in_party_spec. eauto.
Qed.

Lemma explained_expire now d d' r : expire_invites_txn now d = (d', r) → explained (CExpire now) d d'.
Proof.
  unfold expire_invites_txn. intros [(a & _ & E)|(n & -> & ?)]%transact_inv; [|by apply explained_error|].
  2:{ unfold sql, delete_expired_invites. mono. }
  apply st_map_err_ok in E. injection E as <- <-. eexists [_]. split; [apply did_expire|]. split; [|done].
  split; [|done]. apply map_filter_subseteq.
Qed.

(** What a transaction does, by who asked for it. *)
Lemma txn_explained c d d' : party_inv d → txn c d d' → explained c d d'.
Proof.
  intros Hd Ht. destruct Ht; eauto using explained_create, explained_renew, explained_invite, explained_accept,
    explained_decline, explained_leave, explained_kick, explained_promote, explained_ready, explained_purge,
    explained_sweep, explained_expire.
Qed.
End Safety.
