(* ===== verification/PartySafety.v ===== *)
(** * PartySafety: theorems over every interleaving of party transactions

    The shape of parties and invites, that a view's revision tells views apart and
    never goes back, and who may change whose membership. *)

From Stdlib Require Import Ascii.
From stdpp Require Import sorting.
From S2P Require Import Prelude Text OpsApi Pg Directory Party PartyActs.
#[local] Open Scope Z_scope.

Section Safety.
Context `{PgUuid} (lease_secs : Z).

Definition step (d d' : PartyDb) : Prop := ∃ c, txn lease_secs c d d'.

Lemma step_inv d d' : step d d' → party_inv d → party_inv d'.
Proof.
  intros [c Ht] Hd. destruct (txn_explained lease_secs c d d' Hd Ht) as (l & _ & Hm & ->). by apply performs_inv.
Qed.

Lemma steps_inv d d' : rtc step d d' → party_inv d → party_inv d'.
Proof. induction 1; eauto using step_inv. Qed.

(** ** What a view shows *)

(** The columns of a member a view depends on. *)
Definition shown (m : Member) : string * Z := (m_ready m, joined_at m).

Definition shown_before (x y : string * (string * Z)) : Prop :=
  snd (snd x) < snd (snd y) ∨ snd (snd x) = snd (snd y) ∧ String.le (fst x) (fst y).

#[global] Instance shown_before_dec x y : Decision (shown_before x y).
Proof. unfold shown_before. apply _. Defined.

#[global] Instance shown_before_total : Total shown_before.
Proof.
  intros [p m] [q n]. unfold shown_before. simpl.
  destruct (Z.lt_total (snd m) (snd n)) as [?|[?|?]]; [auto| |auto].
  destruct (total String.le p q); auto.
Qed.

#[global] Instance shown_before_trans : Transitive shown_before.
Proof.
  intros [p m] [q n] [r o]. unfold shown_before. simpl. intros [?|[? ?]] [?|[? ?]]; try (left; lia).
  right. split; [lia|]. by transitivity q.
Qed.

Definition shown_roster (pid : string) (d : PartyDb) : gmap string (string * Z) := shown <$> roster pid d.

Lemma shown_order pid d :
  (fun x => (fst x, shown (snd x))) <$> in_order pid d = merge_sort shown_before (map_to_list (shown_roster pid d)).
Proof.
  symmetry. apply merge_sort_unique; try apply _.
  - intros [k x] [j y] Hk Hj. unfold shown_before. simpl. intros H1 H2. assert (k = j) as ->.
    { apply (anti_symm String.le); [destruct H1 as [?|[_ ?]]|destruct H2 as [?|[_ ?]]]; try done;
        [destruct H2 as [?|[? _]]|destruct H1 as [?|[? _]]]; lia. }
    f_equal. apply elem_of_map_to_list in Hk, Hj. congruence.
  - unfold in_order. rewrite merge_sort_Permutation. unfold shown_roster. by rewrite map_to_list_fmap.
  - apply (StronglySorted_fmap _ joined_before); [|apply StronglySorted_merge_sort; apply _].
    intros [p m] [q n]. done.
Qed.

Definition same_view (v w : ViewRow) : Prop :=
  vr_party v = vr_party w ∧ vr_leader v = vr_leader w ∧ vr_members v = vr_members w ∧ vr_readies v = vr_readies w.

Lemma view_row_shown pid r l l' d d' :
  shown_roster pid d' = shown_roster pid d → same_view (view_row pid r l d) (view_row pid r l' d').
Proof.
  intros E. unfold same_view, view_row. simpl. split_and!; [done|done|..].
  - assert (Hf : ∀ d, map fst (in_order pid d) = fst <$> ((fun x => (fst x, shown (snd x))) <$> in_order pid d))
      by (intros; by rewrite <- list_fmap_compose).
    by rewrite !Hf, !shown_order, E.
  - assert (Hf : ∀ d, map (fun x => m_ready (snd x)) (in_order pid d)
               = (fun x => fst (snd x)) <$> ((fun x => (fst x, shown (snd x))) <$> in_order pid d))
      by (intros; by rewrite <- list_fmap_compose).
    by rewrite !Hf, !shown_order, E.
Qed.

(** ** What an act changes of a party and of a player *)

Lemma shown_roster_lookup pid d p x :
  shown_roster pid d !! p = Some x ↔ ∃ m, members d !! p = Some m ∧ m_party m = pid ∧ shown m = x.
Proof. unfold shown_roster. rewrite lookup_fmap, fmap_Some. setoid_rewrite roster_lookup. naive_solver. Qed.

Lemma shown_roster_eq pid d d' :
  (∀ p m', members d' !! p = Some m' → m_party m' = pid → ∃ m, members d !! p = Some m ∧ m_party m = pid ∧ shown m = shown m') →
  (∀ p m, members d !! p = Some m → m_party m = pid → ∃ m', members d' !! p = Some m' ∧ m_party m' = pid ∧ shown m' = shown m) →
  shown_roster pid d' = shown_roster pid d.
Proof.
  intros H1 H2. apply map_eq. intros p. apply option_eq. intros x. rewrite !shown_roster_lookup. split.
  - intros (m' & Hm & Hp & <-). eauto.
  - intros (m & Hm & Hp & <-). eauto.
Qed.

Lemma shown_same pid d d' : members d' = members d → shown_roster pid d' = shown_roster pid d.
Proof. intros E. unfold shown_roster, roster. by rewrite E. Qed.

Lemma shown_renew pid p until d : shown_roster pid (perform (Renew p until) d) = shown_roster pid d.
Proof.
  apply shown_roster_eq; intros q m; simpl.
  - intros [(-> & n & Hn & ->)|[_ Hm]]%lookup_alter_Some Hp; eauto.
  - intros Hm Hp. rewrite lookup_alter. case_decide; [subst; rewrite Hm; simpl; eauto|eauto].
Qed.

(** A party an act leaves standing shows what it showed, or carries a new stamp. *)
Lemma act_party a d pid r :
  party_inv d → may a d → parties d !! pid = Some r →
  let d' := perform a d in
  (parties d' !! pid = Some r ∧ shown_roster pid d' = shown_roster pid d)
  ∨ (∃ r', parties d' !! pid = Some r' ∧ revision_seq d < revision r') ∨ parties d' !! pid = None.
Proof.
  intros Hd Hm Hr. destruct a as [n|p u|p x c u|i p x c u|x gone|x t|p x s u|i v|m|p]; simpl; eauto using shown_same.
  - left. split; [done|]. apply shown_renew.
  - destruct Hm as (_ & _ & Hp & Hx). left. rewrite lookup_insert_ne by congruence. split; [done|].
    apply shown_roster_eq; simpl; intros q m.
    + rewrite lookup_insert. case_decide; [intros [= <-]; simpl; congruence|eauto].
    + intros Hq. rewrite lookup_insert_ne by congruence. eauto.
  - destruct Hm as (_ & Hp & _ & inv & Hi & _ & <-). rewrite lookup_alter. case_decide as Ex.
    + subst. rewrite Hr. right. left. eexists. split; [done|]. simpl. lia.
    + left. split; [done|]. apply shown_roster_eq; simpl; intros q m.
      * rewrite lookup_insert. case_decide; [intros [= <-]; simpl; congruence|eauto].
      * intros Hq. rewrite lookup_insert_ne by congruence. eauto.
  - destruct Hm as [_ Hin]. destruct (decide (x = pid)) as [->|Hx].
    + right. unfold settled. destruct (next_leader _ _); simpl; [left|right; by rewrite lookup_delete_eq].
      rewrite lookup_alter_eq, Hr. simpl. eexists. split; [done|]. simpl. lia.
    + left. assert (Hs : shown_roster pid (without gone d) = shown_roster pid d).
      { apply shown_roster_eq; intros q m.
        - intros [Hq _]%map_lookup_filter_Some Hp. eauto.
        - intros Hq Hp. exists m. split; [|done]. apply map_lookup_filter_Some. split; [done|]. simpl.
          intros Hg%Hin. apply Hx. apply in_party_spec in Hg as (m' & Hm' & Hx'). congruence. }
      unfold settled. destruct (next_leader _ _); simpl; rewrite ?lookup_alter_ne, ?lookup_delete_ne by done;
        (split; [done|]); rewrite <- Hs; by apply shown_same.
  - rewrite lookup_alter. case_decide; [subst; rewrite Hr|by eauto using shown_same].
    right. left. eexists. split; [done|]. simpl. lia.
  - destruct Hm as [Hin _]. rewrite lookup_alter. case_decide as Ex.
    + subst. rewrite Hr. right. left. eexists. split; [done|]. simpl. lia.
    + left. split; [done|]. apply in_party_spec in Hin as (mp & Hmp & Hx). apply shown_roster_eq; simpl; intros q m.
      * intros [(-> & n & Hn & ->)|[_ Hq]]%lookup_alter_Some Hp; [simpl in Hp; congruence|eauto].
      * intros Hq Hp. rewrite lookup_alter_ne; [eauto|]. congruence.
Qed.

(** A player's membership changes only under a new stamp of the player's views. *)
Lemma act_player a d p :
  party_inv d → may a d → a ≠ Forget p →
  let d' := perform a d in
  (m_party <$> members d' !! p = m_party <$> members d !! p ∧ player_revisions d' !! p = player_revisions d !! p)
  ∨ (members d' !! p = None ∧ ∃ n, player_revisions d' !! p = Some n ∧ revision_seq d < n)
  ∨ ∃ pid r, in_party d' p pid ∧ parties d' !! pid = Some r ∧ revision_seq d < revision r.
Proof.
  intros Hd Hm Ha. destruct a as [n|q u|q x c u|i q x c u|x gone|x t|q x s u|i v|m|q]; simpl; eauto.
  - left. rewrite lookup_alter. split; [|done]. case_decide; [subst|done]. by destruct (members d !! p).
  - destruct (decide (q = p)) as [->|Hne]; [|left; by rewrite !lookup_insert_ne].
    right. right. exists x, (mkPartyRow p (revision_seq d + 1)). unfold in_party. simpl. rewrite !lookup_insert_eq.
    split_and!; [done|done|simpl; lia].
  - destruct Hm as (_ & Hq & _ & inv & Hi & _ & Hx).
    destruct (decide (q = p)) as [->|Hne]; [|left; by rewrite !lookup_insert_ne].
    destruct (pi_invite d Hd i inv Hi) as [[r Hr] _]. rewrite Hx in Hr.
    right. right. exists x, (mkPartyRow (leader_id r) (revision_seq d + 1)). unfold in_party. simpl.
    rewrite lookup_insert_eq, lookup_alter_eq, Hr. split_and!; [done|done|simpl; lia].
  - assert (Hs : members (settled x gone (without gone d)) = members (without gone d)
               ∧ player_revisions (settled x gone (without gone d)) = recorded gone (revision_seq d + 1) (player_revisions d))
      by (unfold settled; by destruct (next_leader _ _)).
    destruct Hs as [-> ->]. rewrite recorded_lookup. simpl. rewrite map_lookup_filter.
    destruct (members d !! p) as [m|] eqn:Em; simpl.
    + case_guard as Hg; simpl in *; [rewrite decide_False by done; by left|].
      right. left. split; [done|]. rewrite decide_True by done. eexists. split; [done|]. lia.
    + rewrite decide_False; [by left|]. intros (m & Hm' & _)%Hm%in_party_spec. congruence.
  - left. rewrite lookup_alter. split; [|done]. case_decide; [subst|done]. by destruct (members d !! p).
  - left. rewrite lookup_delete_ne by congruence. done.
Qed.

(** ** Revisions *)

Lemma player_row_revision p d : party_inv d → 0 ≤ vr_revision (player_row p d) ≤ revision_seq d.
Proof.
  intros Hd. destruct (pi_rev d Hd) as (H1 & H2 & H3). unfold player_row.
  destruct (members d !! p) as [m|]; simpl; [destruct (parties d !! m_party m) as [r|] eqn:Er; simpl|].
  - apply H1 in Er. lia.
  - destruct (player_revisions d !! p) as [n|] eqn:En; simpl; [apply H2 in En|]; lia.
  - destruct (player_revisions d !! p) as [n|] eqn:En; simpl; [apply H2 in En|]; lia.
Qed.

Lemma act_seq a d : may a d → revision_seq d ≤ revision_seq (perform a d).
Proof. destruct a; simpl; try lia. intros _. unfold settled. destruct (next_leader _ _); simpl; lia. Qed.

(** An act shows a player the same view, or a view with a new stamp. *)
Lemma act_view a d p :
  party_inv d → may a d → a ≠ Forget p →
  let v := player_row p d in let v' := player_row p (perform a d) in
  (vr_revision v' = vr_revision v ∧ same_view v v') ∨ revision_seq d < vr_revision v'.
Proof.
  intros Hd Hm Ha. pose proof (act_inv a d Hd Hm) as Hd'.
  destruct (act_player a d p Hd Hm Ha) as [[Ep Er]|[(En & n & Hn & Hlt)|(pid & r & Hin & Hr & Hlt)]]; simpl.
  - destruct (members d !! p) as [m|] eqn:Em; simpl in Ep.
    + apply fmap_Some in Ep as (m' & Em' & Epid). destruct (pi_member d Hd p m Em) as ([r Hr] & _).
      destruct (pi_member _ Hd' p m' Em') as ([r' Hr'] & _). rewrite <- Epid in Hr'.
      unfold player_row. rewrite Em, Em'. simpl. rewrite <- Epid, Hr, Hr'. simpl. rewrite <- Epid.
      destruct (act_party a d (m_party m) r Hd Hm Hr) as [[E1 E2]|[(r1 & E1 & E2)|E1]].
      * left. assert (r' = r) as -> by congruence. split; [done|]. by apply view_row_shown.
      * right. assert (r' = r1) as -> by congruence. done.
      * congruence.
    + apply fmap_None in Ep. left. unfold player_row. rewrite Em, Ep. simpl. rewrite Er. done.
  - right. unfold player_row. rewrite En. simpl. by rewrite Hn.
  - right. apply in_party_spec in Hin as (m & Hmm & <-). unfold player_row. rewrite Hmm. simpl. by rewrite Hr.
Qed.

Lemma same_view_trans u v w : same_view u v → same_view v w → same_view u w.
Proof. unfold same_view. intuition congruence. Qed.

(** What two states show of a player, one after the other. *)
Definition view_order (p : string) (d d' : PartyDb) : Prop :=
  revision_seq d ≤ revision_seq d'
  ∧ ((vr_revision (player_row p d') = vr_revision (player_row p d) ∧ same_view (player_row p d) (player_row p d'))
     ∨ revision_seq d < vr_revision (player_row p d')).

Lemma view_order_trans p d1 d2 d3 : view_order p d1 d2 → view_order p d2 d3 → view_order p d1 d3.
Proof.
  intros [H1 H2] [H3 H4]. split; [lia|]. destruct H4 as [[E S]|?]; [|right; lia].
  destruct H2 as [[E' S']|?]; [left|right; lia]. split; [congruence|by eapply same_view_trans].
Qed.

Lemma view_order_refl p d : view_order p d d.
Proof. split; [lia|]. by left. Qed.

Lemma acts_view l d p :
  party_inv d → mays l d → Forget p ∉ l → view_order p d (performs l d).
Proof.
  revert d. induction l as [|a l IH]; intros d Hd Hm Hf; [apply view_order_refl|]. simpl in Hm. destruct Hm as [Ha Hm].
  apply (view_order_trans _ _ (perform a d)).
  - split; [by apply act_seq|]. apply act_view; [done|done|set_solver].
  - apply IH; [by apply act_inv|done|set_solver].
Qed.

(** A step that is not the purge of the player. *)
Definition step_sparing (p : string) (d d' : PartyDb) : Prop :=
  ∃ c, txn lease_secs c d d' ∧ ∀ x, c = CPurge x → uuid_in x ≠ Some p.

Lemma did_forget d c l p : did d c l → Forget p ∈ l → ∃ x, c = CPurge x ∧ uuid_in x = Some p.
Proof.
  intros Hd Hl. destruct Hd; repeat (apply elem_of_cons in Hl as [Hl|Hl]; [done|]); try set_solver.
  exists player. split; [done|]. apply elem_of_app in Hl as [Hl|Hl].
  - destruct H1 as [->|[pid ->]]; set_solver.
  - apply elem_of_cons in Hl as [Hl|Hl]; [done|]. apply list_elem_of_singleton in Hl. by injection Hl as ->.
Qed.

Lemma steps_view p d d' : party_inv d → rtc (step_sparing p) d d' → view_order p d d'.
Proof.
  intros Hd Hs. revert Hd. induction Hs as [d|d d1 d2 (c & Ht & Hc) _ IH]; intros Hd; [apply view_order_refl|].
  destruct (txn_explained lease_secs c d d1 Hd Ht) as (l & Hl & Hm & ->).
  eapply view_order_trans; [|apply IH; by apply performs_inv]. apply acts_view; [done|done|].
  intros Hf. destruct (did_forget _ _ _ _ Hl Hf) as (x & -> & Hx). by eapply Hc.
Qed.

(** ** Who changes whose membership *)

(** The entitlement to enter a party. *)
Definition may_enter (c : Cmd) (d : PartyDb) (p pid : string) : Prop :=
  ∃ me, uuid_in me = Some p ∧
    ((c = CCreate me ∧ parties d !! pid = None)
     ∨ ∃ invite i inv, c = CAccept me invite ∧ uuid_in invite = Some i ∧ invites d !! i = Some inv
         ∧ invitee_id inv = p ∧ v_party inv = pid).

(** The entitlement to take a player out of a party. *)
Definition may_exit (c : Cmd) (d : PartyDb) (p pid : string) : Prop :=
  (∃ me, c = CLeave me ∧ uuid_in me = Some p)
  ∨ (∃ me target l, c = CKick me target ∧ uuid_in target = Some p ∧ uuid_in me = Some l ∧ leads d l pid)
  ∨ (∃ player, c = CPurge player ∧ uuid_in player = Some p)
  ∨ (∃ now m, c = CSweep now ∧ members d !! p = Some m ∧ lease_until m < now).

(** The acts that move a player. *)
Definition enters (a : act) (p pid : string) : Prop :=
  match a with Create q x _ _ => q = p ∧ x = pid | Accept _ q x _ _ => q = p ∧ x = pid | _ => False end.
Definition exits (a : act) (p pid : string) : Prop :=
  match a with Remove x gone => p ∈ gone ∧ x = pid | _ => False end.

#[global] Instance exits_dec a p pid : Decision (exits a p pid).
Proof. destruct a; apply _. Defined.

Lemma settled_members x gone d : members (settled x gone d) = members d.
Proof. unfold settled. by destruct (next_leader _ _). Qed.

Lemma act_in_party a d p pid :
  may a d →
  in_party (perform a d) p pid ↔ enters a p pid ∨ (in_party d p pid ∧ ¬ exits a p pid).
Proof.
  intros Hm. destruct a as [n|q u|q x c u|i q x c u|x gone|x t|q x s u|i v|m|q]; simpl; try (unfold in_party; simpl; tauto).
  - unfold in_party at 1. simpl. rewrite in_party_alter by done. tauto.
  - destruct Hm as (_ & _ & Hq & _). unfold in_party at 1. simpl. rewrite in_party_insert. simpl.
    assert (¬ in_party d q pid) by (unfold in_party; by rewrite Hq). naive_solver.
  - destruct Hm as (_ & Hq & _). unfold in_party at 1. simpl. rewrite in_party_insert. simpl.
    assert (¬ in_party d q pid) by (unfold in_party; by rewrite Hq). naive_solver.
  - destruct Hm as [_ Hin]. unfold in_party at 1. rewrite settled_members. fold (in_party (without gone d) p pid).
    rewrite in_party_without. split; [naive_solver|]. intros [[]|[Hp Hx]]. split; [|done]. intros Hg. apply Hx. split; [done|].
    eapply in_party_fun; [by apply Hin|done].
  - unfold in_party at 1. simpl. rewrite in_party_alter by done. tauto.
Qed.

Lemma acts_enter l d p pid :
  mays l d → in_party (performs l d) p pid → in_party d p pid ∨ ∃ a, a ∈ l ∧ enters a p pid.
Proof.
  revert d. induction l as [|a l IH]; intros d; simpl; [by left|]. intros [Ha Hm] Hin.
  destruct (IH _ Hm Hin) as [Hin'|(b & ? & ?)]; [|right; exists b; set_solver].
  apply act_in_party in Hin' as [?|[? _]]; [|by left|done]. right. exists a. set_solver.
Qed.

Lemma acts_exit l d p pid :
  mays l d → in_party d p pid → in_party (performs l d) p pid ∨ ∃ a, a ∈ l ∧ exits a p pid.
Proof.
  revert d. induction l as [|a l IH]; intros d; simpl; [by left|]. intros [Ha Hm] Hin.
  destruct (decide (exits a p pid)) as [He|He].
  - right. exists a. set_solver.
  - destruct (IH _ Hm) as [?|(b & ? & ?)]; [|by left|right; exists b; set_solver].
    apply act_in_party; [done|]. by right.
Qed.

Lemma did_enters d c l a p pid : did d c l → mays l d → a ∈ l → enters a p pid → may_enter c d p pid.
Proof.
  intros Hd Hm Hl He.
  destruct Hd; try (destruct H1 as [->|[? ->]]; simpl in Hl);
    repeat (apply elem_of_cons in Hl as [->|Hl]; [try done|]); try (by apply not_elem_of_nil in Hl).
  - destruct He as [-> ->]. exists me. split; [done|]. left. split; [done|]. apply Hm.
  - destruct He as [-> ->]. exists me. split; [done|]. right. destruct Hm as ((_ & _ & _ & inv & ? & ? & ?) & _). eauto 10.
Qed.

Lemma did_exits d c l a p pid : did d c l → a ∈ l → exits a p pid → may_exit c d p pid.
Proof.
  intros Hd Hl He.
  destruct Hd; try (destruct H1 as [->|[? ->]]; simpl in Hl);
    repeat (apply elem_of_cons in Hl as [->|Hl]; [try done|]); try (by apply not_elem_of_nil in Hl); destruct He as [Hp ->].
  - apply list_elem_of_singleton in Hp as ->. left. eauto.
  - apply list_elem_of_singleton in Hp as ->. right. left. eauto 10.
  - apply list_elem_of_singleton in Hp as ->. right. right. left. eauto.
  - right. right. right. destruct (H0 p Hp) as (m & ? & ?). eauto 10.
Qed.

(** *** The leader *)

(** A member that no other joined before. *)
Definition earliest (d : PartyDb) (l pid : string) : Prop :=
  ∃ m, roster pid d !! l = Some m ∧ ∀ p n, roster pid d !! p = Some n → joined_before (l, m) (p, n).

Lemma act_leader a d pid r r' :
  party_inv d → may a d → parties d !! pid = Some r → parties (perform a d) !! pid = Some r' →
  leader_id r' = leader_id r ∨ a = Promote pid (leader_id r')
  ∨ (∃ gone, a = Remove pid gone ∧ leader_id r ∈ gone ∧ earliest (perform a d) (leader_id r') pid).
Proof.
  intros Hd Hm Hr Hr'. destruct a as [n|q u|q x c u|i q x c u|x gone|x t|q x s u|i v|m|q]; simpl in Hr'; try (left; congruence).
  - destruct Hm as (_ & _ & _ & Hx). rewrite lookup_insert_ne in Hr' by congruence. left. congruence.
  - rewrite lookup_alter in Hr'. case_decide; [subst; rewrite Hr in Hr'; injection Hr' as <-; by left|left; congruence].
  - unfold settled in Hr'. destruct (decide (x = pid)) as [->|Hx].
    + destruct (next_leader pid (without gone d)) as [l|] eqn:El; simpl in Hr'; [|by rewrite lookup_delete_eq in Hr'].
      rewrite lookup_alter_eq, Hr in Hr'. injection Hr' as <-. simpl.
      destruct (next_leader_spec pid (without gone d) r l Hr El) as (m & Hl & Hfirst).
      destruct (decide (leader_id r ∈ gone)) as [Hg|Hg].
      * right. right. exists gone. split; [done|]. split; [done|].
        assert (Hro : roster pid (settled pid gone (without gone d)) = roster pid (without gone d))
          by (unfold roster; by rewrite settled_members).
        exists m. simpl. rewrite Hro. split; [done|]. intros p n Hp. specialize (Hfirst p n Hp).
        apply leads_before_spec in Hfirst as [[E _]|[_ ?]]; [|done]. simpl in E. subst l.
        apply roster_lookup in Hl as [Hl _]. apply map_lookup_filter_Some in Hl as [_ Hl]. done.
      * left. destruct (pi_leader d Hd pid r Hr) as [Hin _]. apply in_party_spec in Hin as (n & Hn & Hp).
        assert (Hn' : roster pid (without gone d) !! leader_id r = Some n).
        { apply roster_lookup. split; [|done]. by apply map_lookup_filter_Some. }
        apply Hfirst in Hn'. apply leads_before_spec in Hn' as [[E _]|[E _]]; simpl in E; [done|]. by apply E.
    + left. destruct (next_leader x _); simpl in Hr'; [rewrite lookup_alter_ne in Hr' by done|rewrite lookup_delete_ne in Hr' by done];
        congruence.
  - rewrite lookup_alter in Hr'. case_decide; [|left; congruence]. subst. rewrite Hr in Hr'. injection Hr' as <-. right. by left.
  - rewrite lookup_alter in Hr'. case_decide; [subst; rewrite Hr in Hr'; injection Hr' as <-; by left|left; congruence].
Qed.

(** Acts that leave the parties and who joined when alone. *)
Definition quiet_act (a : act) : Prop :=
  match a with Renew _ _ | KeepInvites _ | Forget _ | Invited _ _ | Advance _ => True | _ => False end.

Lemma quiet_parties l d : Forall quiet_act l → parties (performs l d) = parties d.
Proof. intros Hl. revert d. induction Hl as [|a l Ha _ IH]; intros d; [done|]. simpl. rewrite IH. by destruct a. Qed.

Lemma quiet_earliest l d x pid : Forall quiet_act l → earliest d x pid → earliest (performs l d) x pid.
Proof.
  intros Hl. revert d. induction Hl as [|a l Ha _ IH]; intros d He; [done|]. simpl. apply IH. destruct a; try done.
  destruct He as (m & Hm & Hfirst). unfold earliest. setoid_rewrite roster_lookup. setoid_rewrite roster_lookup in Hfirst.
  apply roster_lookup in Hm as [Hm Hp]. simpl. setoid_rewrite lookup_alter_Some.
  exists (if decide (p = x) then renewed until m else m). split.
  - case_decide; [|eauto]. split; [|done]. left. eauto.
  - intros q n [[(-> & n' & Hn' & ->)|[_ Hn]] Hq]; simpl in Hq.
    + specialize (Hfirst q n' (conj Hn' Hq)). by case_decide.
    + specialize (Hfirst q n (conj Hn Hq)). by case_decide.
Qed.

Lemma quiet_in_party l d p pid : Forall quiet_act l → in_party (performs l d) p pid ↔ in_party d p pid.
Proof.
  intros Hl. revert d. induction Hl as [|a l Ha _ IH]; intros d; [done|]. simpl. rewrite IH. destruct a; try done.
  unfold in_party at 1. simpl. by apply in_party_alter.
Qed.

(** The leader after a transaction's one act on the parties. *)
Lemma acts_leader a l d pid r r' :
  party_inv d → may a d → Forall quiet_act l → parties d !! pid = Some r → parties (performs (a :: l) d) !! pid = Some r' →
  leader_id r' = leader_id r ∨ a = Promote pid (leader_id r')
  ∨ (∃ gone, a = Remove pid gone ∧ leader_id r ∈ gone
       ∧ ¬ in_party (performs (a :: l) d) (leader_id r) pid ∧ earliest (performs (a :: l) d) (leader_id r') pid).
Proof.
  intros Hd Hm Hl Hr Hr'. simpl in Hr'. rewrite quiet_parties in Hr' by done.
  destruct (act_leader a d pid r r' Hd Hm Hr Hr') as [?|[?|(gone & -> & Hg & He)]]; [auto|auto|].
  right. right. exists gone. split_and!; try done; [|by apply (quiet_earliest l (perform (Remove pid gone) d))].
  change (¬ in_party (performs l (perform (Remove pid gone) d)) (leader_id r) pid).
  rewrite (quiet_in_party l) by done. rewrite (act_in_party (Remove pid gone)) by done. simpl. tauto.
Qed.

(** Only a promotion performs [Promote], and only after a renewal; else what follows
    the first act is quiet. *)
Lemma did_shape d c l :
  did d c l →
  (∃ me target p q pid until, c = CPromote me target ∧ uuid_in me = Some p ∧ uuid_in target = Some q
     ∧ leads d p pid ∧ l = [Renew p until; Promote pid q])
  ∨ (Forall quiet_act (tail l) ∧ ∀ pid q, Promote pid q ∉ l).
Proof.
  intros Hd. destruct Hd; try (destruct H1 as [->|[? ->]]); try (left; by eauto 20);
    (right; split; [simpl; once (repeat constructor)|]); intros ? ? Hin%list_elem_of_In; simpl in Hin; naive_solver.
Qed.

(** ** Theorems *)

Lemma party_reachable_inv d : rtc step empty_parties d → party_inv d.
Proof. intros Hs. eapply steps_inv; [done|apply party_inv_empty]. Qed.

(** Whatever transactions ran, in any interleaving and with any stale readings
    before their locks: every party has between one and [MAX_MEMBERS] members, its
    leader among them; every member's party exists; every pending invite names a
    standing party that its invitee is not in; and a party has at most one pending
    invite per invitee. *)
Theorem party_shape d :
  rtc step empty_parties d →
  (∀ pid r, parties d !! pid = Some r →
     in_party d (leader_id r) pid ∧ 1 ≤ Z.of_nat (size (roster pid d)) ≤ MAX_MEMBERS)
  ∧ (∀ p m, members d !! p = Some m → is_Some (parties d !! m_party m))
  ∧ (∀ i v, invites d !! i = Some v →
       is_Some (parties d !! v_party v) ∧ ¬ in_party d (invitee_id v) (v_party v)
       ∧ ∀ j w, invites d !! j = Some w → v_party w = v_party v → invitee_id w = invitee_id v → j = i).
Proof.
  intros Hs%party_reachable_inv. split_and!.
  - intros pid r Hr. destruct (pi_leader d Hs pid r Hr) as [Hin _]. split; [done|]. split; [|apply (pi_cap d Hs)].
    apply roster_dom in Hin. assert (size (roster pid d) ≠ 0%nat); [|lia].
    intros E%map_size_empty_inv. rewrite E in Hin. set_solver.
  - intros p m Hm. by apply (pi_member d Hs p m).
  - intros i v Hv. destruct (pi_invite d Hs i v Hv). split_and!; [done..|]. intros j w Hw ??. by apply (pi_unique d Hs j i w v).
Qed.


(** C14: nobody is moved without entitlement.  A transaction puts a player into a party
    only as the player's own creation of a new party, or as the player's own
    acceptance of a pending invite of that party addressed to them; it takes a
    player out only as their own leave, a kick by the party's leader, the deletion of
    their account, or a sweep after their lease ran out. *)
Theorem party_consent c d d' p pid :
  rtc step empty_parties d → txn lease_secs c d d' →
  (in_party d' p pid → in_party d p pid ∨ may_enter c d p pid)
  ∧ (in_party d p pid → in_party d' p pid ∨ may_exit c d p pid).
Proof.
  intros Hd%party_reachable_inv Ht. destruct (txn_explained lease_secs c d d' Hd Ht) as (l & Hl & Hm & ->). split.
  - intros [?|(a & ? & ?)]%acts_enter; [by left|right; by eapply did_enters|done].
  - intros [?|(a & ? & ?)]%(acts_exit l); [by left|right; by eapply did_exits|done].
Qed.

(** Leadership changes hands only when the leader promotes another, or when the
    leader is out of the party; then the member who joined first leads. *)
Theorem party_succession c d d' pid r r' :
  rtc step empty_parties d → txn lease_secs c d d' →
  parties d !! pid = Some r → parties d' !! pid = Some r' → leader_id r' ≠ leader_id r →
  (∃ me target, c = CPromote me target ∧ uuid_in me = Some (leader_id r) ∧ uuid_in target = Some (leader_id r'))
  ∨ (may_exit c d (leader_id r) pid ∧ ¬ in_party d' (leader_id r) pid ∧ earliest d' (leader_id r') pid).
Proof.
  intros Hd%party_reachable_inv Ht Hr Hr' Hne. destruct (txn_explained lease_secs c d d' Hd Ht) as (l & Hl & Hm & ->).
  destruct (did_shape _ _ _ Hl) as [(me & target & p & q & x & until & -> & Hme & Htg & Hlead & ->)|[Hq Hnp]].
  - destruct Hm as [Hm1 [Hm2 _]]. left. exists me, target. split; [done|].
    destruct (act_leader (Promote x q) (perform (Renew p until) d) pid r r') as [?|[[= -> <-]|(? & ? & _)]]; try done;
      [by apply act_inv|]. unfold leads in Hlead. rewrite Hr in Hlead. simpl in Hlead. by injection Hlead as ->.
  - destruct l as [|a l]; [simpl in Hr'; congruence|]. destruct Hm as [Ha Hm]. simpl in Hq.
    destruct (acts_leader a l d pid r r' Hd Ha Hq Hr Hr') as [?|[->|(gone & -> & Hg & Hout & He)]]; [done|set_solver|].
    right. split_and!; [|done|done]. eapply did_exits; [done|by left|]. done.
Qed.
End Safety.

(** ** Examples

    Two players: one creates a party, invites the other, who accepts and is then
    promoted; the former leader leaves. *)
Module PartyExample.

#[local] Existing Instance plain_uuid.

Definition ann : string := "00000000-0000-0000-0000-0000000000aa".
Definition bob : string := "00000000-0000-0000-0000-0000000000bb".
Definition pid : string := "00000000-0000-0000-0000-000000000001".
Definition inv : string := "00000000-0000-0000-0000-000000000002".

Definition d1 : PartyDb := fst (create_txn 60 ann 0 pid empty_parties).
Definition d2 : PartyDb := fst (invite_txn 60 ann pid bob 1 1 inv d1).
Definition d3 : PartyDb := fst (accept_txn 60 bob inv pid 2 2 d2).
Definition d4 : PartyDb := fst (locked ann pid (leave_body ann pid) d3).

Lemma t1 : txn 60 (CCreate ann) empty_parties d1.
Proof. eapply t_create; [|apply surjective_pairing]. vm_compute. reflexivity. Defined.

Lemma t2 : txn 60 (CInvite ann bob) d1 d2.
Proof. eapply t_invite. apply surjective_pairing. Defined.

Lemma t3 : txn 60 (CAccept bob inv) d2 d3.
Proof. eapply t_accept. apply surjective_pairing. Defined.

Lemma t4 : txn 60 (CLeave ann) d3 d4.
Proof. eapply t_leave. apply surjective_pairing. Defined.

Lemma reach1 : rtc (step 60) empty_parties d1.
Proof. apply rtc_once. exists (CCreate ann). exact t1. Defined.

Lemma reach2 : rtc (step 60) empty_parties d2.
Proof. eapply rtc_r; [exact reach1|]. exists (CInvite ann bob). exact t2. Defined.

Lemma reach3 : rtc (step 60) empty_parties d3.
Proof. eapply rtc_r; [exact reach2|]. exists (CAccept bob inv). exact t3. Defined.

(** The shape of the party of two. *)
Lemma party_shape_witness :
  1 ≤ Z.of_nat (size (roster pid d3)) ≤ MAX_MEMBERS ∧ Z.of_nat (size (roster pid d3)) = 2.
Proof.
  split; [|vm_compute; reflexivity].
  refine (proj2 (proj1 (party_shape 60 d3 reach3) pid (mkPartyRow ann 2) _)). vm_compute. reflexivity.
Defined.


(** Bob entered by an invite. *)
Lemma party_consent_witness : in_party d2 bob pid ∨ may_enter (CAccept bob inv) d2 bob pid.
Proof. apply (proj1 (party_consent 60 (CAccept bob inv) d2 d3 bob pid reach2 t3)). vm_compute. reflexivity. Defined.

(** Ann left and Bob leads. *)
Lemma party_succession_witness :
  (∃ me target, CLeave ann = CPromote me target ∧ uuid_in me = Some ann ∧ uuid_in target = Some bob)
  ∨ (may_exit (CLeave ann) d3 ann pid ∧ ¬ in_party d4 ann pid ∧ earliest d4 bob pid).
Proof.
  apply (party_succession 60 (CLeave ann) d3 d4 pid (mkPartyRow ann 2) (mkPartyRow bob 3) reach3 t4);
    [vm_compute; reflexivity|vm_compute; reflexivity|discriminate].
Defined.

End PartyExample.
