(* ===== verification/PartyContract.v ===== *)
(** * PartyContract: the party operations and the transactions they run

    An operation, run beside any other tasks, changes the tables only through the
    transactions its caller is entitled to ask for; and what a leave answers and
    pushes when it runs undisturbed. *)

From Stdlib Require Import Ascii.
From stdpp Require Import sorting pretty.
From S2P Require Import Prelude Text OpsApi Pg Directory Party PartyActs PartySafety.
#[local] Open Scope Z_scope.

Create HintDb guar.

Section Contract.
Context `{PgUuid} (lease_secs : Z) (env : PEnv).

(** The player operations, the purge subscriber and the sweep. *)
Inductive PartyOp :=
| OCreate | OGet | OInvite (handle : string) | OInvites | OAccept (invite : string) | ODecline (invite : string)
| OLeave | OKick (player : string) | OPromote (player : string) | OReady (state : string) | OHeartbeat
| OPurge (player : string) | OSweep.

Definition discard {A} (m : ST PState Error A) : ST PState Error unit := m;; mret ().

Definition op_run (who : Identity) (op : PartyOp) : ST PState Error unit :=
  match op with
  | OCreate => discard (create lease_secs env who)
  | OGet => discard (get lease_secs env who)
  | OInvite h => discard (invite lease_secs env who h)
  | OInvites => discard (list_invites lease_secs env who)
  | OAccept i => discard (accept lease_secs env who i)
  | ODecline i => discard (decline lease_secs env who i)
  | OLeave => discard (leave env who)
  | OKick p => discard (kick lease_secs env who p)
  | OPromote p => discard (promote lease_secs env who p)
  | OReady st => discard (set_ready lease_secs env who st)
  | OHeartbeat => discard (heartbeat lease_secs env who)
  | OPurge p => purge_player env p
  | OSweep => sweep_pass env
  end.

(** What the caller [me] of an operation may ask of the tables. *)
Definition asks (op : PartyOp) (me : string) (c : Cmd) : Prop :=
  match op with
  | OCreate => c = CCreate me
  | OGet | OInvites | OHeartbeat => c = CRenew me
  | OInvite _ => ∃ target, c = CInvite me target ∧ target ≠ me
  | OAccept i => c = CAccept me (lower i)
  | ODecline i => c = CRenew me ∨ c = CDecline me (lower i)
  | OLeave => c = CLeave me
  | OKick p => c = CKick me (lower p) ∧ lower p ≠ me
  | OPromote p => c = CPromote me (lower p) ∧ lower p ≠ me
  | OReady st => c = CReady me st ∧ (st = READY ∨ st = NOT_READY)
  | OPurge _ | OSweep => False
  end.

Definition commands (who : Identity) (op : PartyOp) (c : Cmd) : Prop :=
  match op with
  | OPurge p => c = CPurge (lower p)
  | OSweep => ∃ t, c = CSweep (now_at env t) ∨ c = CExpire (now_at env t)
  | _ => ∃ me, caller who = Ok me ∧ asks op me c
  end.

(** What the other tasks may do to the tables between two steps. *)
Variable R : relation PartyDb.
Hypothesis meanwhile_R : ∀ t d, R d (meanwhile env t d).
Hypothesis fresh_canonical : ∀ t, uuid_in (fresh env t) = Some (fresh env t).

Definition own (P : Cmd → Prop) (d d' : PartyDb) : Prop := (∃ c, P c ∧ txn lease_secs c d d') ∨ R d d'.

Definition guar {A} (P : Cmd → Prop) (m : ST PState Error A) : Prop :=
  ∀ s s' r, m s = (s', r) → rtc (own P) (db s) (db s').

Lemma guar_bind {A B} P (m : ST PState Error A) (k : A → ST PState Error B) :
  guar P m → (∀ a, guar P (k a)) → guar P (m ≫= k).
Proof.
  intros Hm Hk s s' r [(e & E & _)|(s1 & a & E1 & E2)]%st_bind_inv; [by eapply Hm|].
  etrans; [by eapply Hm|by eapply Hk].
Qed.

Lemma guar_ret {A} P (a : A) : guar P (mret a).
Proof. intros s s' r [= <- <-]. done. Qed.

Lemma guar_fail {A} P e : guar P (fail e : ST PState Error A).
Proof. intros s s' r [= <- <-]. done. Qed.

Lemma guar_lift {A} P (x : result Error A) : guar P (lift x).
Proof. intros s s' r [= <- <-]. done. Qed.

Lemma guar_gets {A} P (f : PState → A) : guar P (gets f).
Proof. intros s s' r [= <- <-]. done. Qed.

Lemma guar_send P p m : guar P (send p m).
Proof. intros s s' r [= <- <-]. done. Qed.

Lemma guar_ask {A} P (f : Directory → A) : guar P (ask_directory env f).
Proof. intros s s' r [= <- <-]. apply rtc_once. right. apply meanwhile_R. Qed.

(** One transaction among the entitled ones, or one that only reads. *)
Lemma guar_db {A} (P : Cmd → Prop) (m : nat → ST PartyDb Error A) :
  (∀ t d d' r, m t d = (d', r) → d' = d ∨ ∃ c, P c ∧ txn lease_secs c d d') → guar P (on_db env m).
Proof.
  intros Hm s s' r. unfold on_db. destruct (outage env (tick s)).
  { intros [= <- <-]. apply rtc_once. right. apply meanwhile_R. }
  destruct (m (tick s) _) as [d' x] eqn:E. intros [= <- <-]. eapply rtc_l; [right; apply meanwhile_R|]. simpl.
  destruct (Hm _ _ _ _ E) as [->|Hc]; [done|]. apply rtc_once. by left.
Qed.

(** A statement that only reads. *)
Definition reads {A} (m : ST PartyDb SqlError A) : Prop := ∀ d d' r, m d = (d', r) → d' = d.

Lemma reads_gets {A} x (f : string → PartyDb → A) : reads (p ← cast_uuid x; gets (f p)).
Proof.
  intros d d' r [(e & E & _)|(s1 & a & E1 & E2)]%st_bind_inv; [|apply pg_cast_ok in E1 as [-> _]; by injection E2 as <- _].
  unfold cast_uuid, lift in E. by injection E as <-.
Qed.

Lemma reads_cast {A} x (k : string → ST PartyDb SqlError A) : (∀ u, reads (k u)) → reads (p ← cast_uuid x; k p).
Proof.
  intros Hk d d' r [(e & E & _)|(s1 & a & E1 & E2)]%st_bind_inv; [|apply pg_cast_ok in E1 as [-> _]; by eapply Hk].
  unfold cast_uuid, lift in E. by injection E as <-.
Qed.

Lemma guar_read {A} P (m : nat → ST PartyDb SqlError A) : (∀ t, reads (m t)) → guar P (on_db env (fun t => sql (m t))).
Proof.
  intros Hm. apply guar_db. intros t d d' r. unfold sql, st_map_err. destruct (m t d) as [d1 x] eqn:E.
  intros [= <- <-]. left. by eapply Hm.
Qed.

Lemma guar_lift_bind {A B} P (x : result Error A) (k : A → ST PState Error B) :
  (∀ a, x = Ok a → guar P (k a)) → guar P (lift x ≫= k).
Proof.
  intros Hk s s' r [(e & [= <- _] & _)|(s1 & a & [-> E1]%st_lift_ok & E2)]%st_bind_inv; [done|]. by eapply Hk.
Qed.

Lemma guar_summaries P l : guar P (summaries env l).
Proof. destruct l; [apply guar_ret|]. apply guar_bind; [apply guar_ask|]. intros a. apply guar_ret. Qed.

Lemma guar_send_all P l m : guar P (send_all l m).
Proof. induction l; [apply guar_ret|]. simpl. apply guar_bind; [apply guar_send|done]. Qed.

Lemma guar_push_state P v r : guar P (push_state v r).
Proof. unfold push_state. apply guar_bind; [|intros _]; case_match; auto using guar_send_all, guar_ret. Qed.

Lemma guar_fan_out P row r : guar P (fan_out env row r).
Proof. unfold fan_out. apply guar_bind; [apply guar_summaries|]. intros l. apply guar_push_state. Qed.

Lemma guar_snapshot P pid : guar P (snapshot env pid).
Proof.
  intros s s' r. unfold snapshot. destruct (on_db env _ s) as [s1 x] eqn:E. intros Hx.
  assert (s' = s1) as -> by (destruct x; congruence). revert E. apply guar_read. intros _. apply reads_gets.
Qed.

Lemma guar_respond P me fan : guar P (respond env me fan).
Proof.
  unfold respond. apply guar_bind; [apply guar_read; intros _; apply reads_gets|]. intros mine. cbv zeta.
  apply guar_bind; [repeat case_match; auto using guar_ret, guar_snapshot|]. intros party.
  apply guar_bind; [apply guar_summaries|]. intros l. apply guar_bind; [apply guar_push_state|]. intros _. apply guar_ret.
Qed.

Lemma guar_begin_locked {A} (P : Cmd → Prop) n me (body : nat → string → ST PartyDb Error A) :
  (∀ t pid d d' r, locked me pid (body t pid) d = (d', r) → ∃ c, P c ∧ txn lease_secs c d d') →
  guar P (begin_locked env n me body).
Proof.
  intros Hb. induction n as [|n IH]; simpl; [apply guar_fail|].
  apply guar_bind; [apply guar_read; intros _; apply reads_gets|]. intros [pid|]; [|apply guar_ret].
  apply guar_bind; [|intros [a|]; [apply guar_ret|done]]. apply guar_db. intros t d d' r E. right. by eapply Hb.
Qed.

Lemma guar_leader_locked {A} (P : Cmd → Prop) me (body : nat → string → ST PartyDb Error A) :
  (∀ t pid d d' r, locked me pid (body t pid) d = (d', r) → ∃ c, P c ∧ txn lease_secs c d d') →
  guar P (leader_locked env me body).
Proof.
  intros Hb. unfold leader_locked. apply guar_bind; [by apply guar_begin_locked|].
  intros [x|]; [apply guar_ret|apply guar_fail].
Qed.

Lemma guar_renew (P : Cmd → Prop) me : P (CRenew me) → guar P (renew lease_secs env me).
Proof. intros HP. apply guar_db. intros t d d' r E. right. eexists. split; [done|]. by eapply t_renew. Qed.

Lemma guar_discard {A} P (m : ST PState Error A) : guar P m → guar P (discard m).
Proof. intros Hm. apply guar_bind; [done|]. intros _. apply guar_ret. Qed.

#[local] Hint Resolve guar_ret guar_fail guar_gets guar_send guar_summaries guar_respond guar_fan_out guar_snapshot : guar.

(** *** Operation by operation *)

Lemma guar_leave_loop (P : Cmd → Prop) n me : P (CLeave me) → guar P (leave_loop env n me).
Proof.
  intros HP. induction n as [|n IH]; cbn [leave_loop]; [auto with guar|]. apply guar_bind.
  - apply guar_begin_locked. intros t pid d d' r E. eexists. split; [done|]. by eapply t_leave.
  - intros [[pid rm]|].
    + apply guar_bind; [case_match; auto with guar|]. intros row. apply guar_bind; auto with guar.
    + apply guar_bind; [apply guar_read; intros _; apply reads_gets|]. intros row. case_bool_decide; auto with guar.
Qed.

Lemma uuid_arg_ok name x y : uuid_arg name x = Ok y → y = lower x.
Proof. unfold uuid_arg. destruct (is_uuid_text x); simpl; [by intros [= <-]|done]. Qed.

Lemma validate_state_ok x y : validate_state x = Ok y → y = x ∧ (x = READY ∨ x = NOT_READY).
Proof. unfold validate_state. repeat case_bool_decide; intros [= <-]; auto. Qed.

Lemma guar_invite who h : guar (commands who (OInvite h)) (invite lease_secs env who h).
Proof.
  unfold invite. apply guar_lift_bind. intros me Hme. case_match; [auto with guar|].
  apply guar_bind; [apply guar_read; intros _; apply reads_gets|]. intros [pid|]; [|auto with guar].
  apply guar_bind; [unfold resolve_target; apply guar_bind; [apply guar_ask|intros [[]|]; auto with guar]|].
  intros target. case_bool_decide as Ht; [auto with guar|]. apply guar_bind.
  - apply guar_db. intros t d d' r E. right. exists (CInvite me target). split; [exists me; simpl; eauto|]. by eapply t_invite.
  - intros row. apply guar_bind; [auto with guar|]. intros l. apply guar_bind; auto with guar.
Qed.

Lemma guar_kick who p : guar (commands who (OKick p)) (kick lease_secs env who p).
Proof.
  unfold kick. apply guar_lift_bind. intros me Hme. apply guar_lift_bind. intros t ->%uuid_arg_ok.
  case_bool_decide as Ht; [auto with guar|]. apply guar_bind; [|auto with guar]. apply guar_leader_locked.
  intros n pid d d' r E. exists (CKick me (lower p)). split; [exists me; simpl; eauto|]. by eapply t_kick.
Qed.

Lemma guar_promote who p : guar (commands who (OPromote p)) (promote lease_secs env who p).
Proof.
  unfold promote. apply guar_lift_bind. intros me Hme. apply guar_lift_bind. intros t ->%uuid_arg_ok.
  case_bool_decide as Ht; [auto with guar|]. apply guar_bind; [|auto with guar]. apply guar_leader_locked.
  intros n pid d d' r E. exists (CPromote me (lower p)). split; [exists me; simpl; eauto|]. by eapply t_promote.
Qed.

Lemma guar_ready who st : guar (commands who (OReady st)) (set_ready lease_secs env who st).
Proof.
  unfold set_ready. apply guar_lift_bind. intros me Hme. apply guar_lift_bind. intros t [-> Hst]%validate_state_ok.
  apply guar_bind; [|auto with guar]. apply guar_leader_locked.
  intros n pid d d' r E. exists (CReady me st). split; [exists me; simpl; eauto|]. by eapply t_ready.
Qed.

Lemma guar_accept who i : guar (commands who (OAccept i)) (accept lease_secs env who i).
Proof.
  unfold accept. apply guar_lift_bind. intros me Hme. apply guar_lift_bind. intros t ->%uuid_arg_ok.
  apply guar_bind; [apply guar_read; intros n; apply reads_cast; intros u; apply reads_gets|].
  intros [pid|]; [|auto with guar]. apply guar_bind; [|auto with guar]. apply guar_db.
  intros n d d' r E. right. exists (CAccept me (lower i)). split; [exists me; simpl; eauto|]. by eapply t_accept.
Qed.

Lemma guar_sweep who : guar (commands who OSweep) (sweep_pass env).
Proof.
  unfold sweep_pass. apply guar_bind.
  { apply guar_read. intros t d d' r [= <- _]. done. }
  intros l. apply guar_bind.
  - generalize 0%nat. induction l as [|pid l IH]; intros n; simpl; [auto with guar|]. apply guar_bind; [auto with guar|].
    intros t. case_match; [auto with guar|]. apply guar_bind; [|intros []; apply IH].
    assert (Hp : guar (commands who OSweep) (sweep_party env pid)).
    { unfold sweep_party. apply guar_bind; [|intros [[rm row]|]; [apply guar_bind|]; auto with guar]. apply guar_db.
      intros n' d d' r E. right. exists (CSweep (now_at env n')). split; [simpl; eauto|]. by eapply t_sweep. }
    intros s s' r. unfold succeeds. destruct (sweep_party env pid s) as [s1 x] eqn:E. intros Hx.
    assert (s' = s1) as -> by (destruct x; congruence). by eapply Hp.
  - intros n. apply guar_bind; [|intros _; case_match; auto with guar]. apply guar_db.
    intros n' d d' r E. right. exists (CExpire (now_at env n')). split; [simpl; eauto|]. by eapply t_expire.
Qed.

(** C28: an operation, interleaved with whatever other tasks do to the tables, changes
    them only through the transactions its authenticated caller may ask for: a call
    by [me] creates, joins, leaves or readies for [me] alone, kicks or promotes only
    the player it names and as [me]; a call without a valid identity changes nothing;
    the purge and the sweep issue their own transactions only. *)
Theorem party_ops_entitled who op s s' r :
  op_run who op s = (s', r) → rtc (own (commands who op)) (db s) (db s').
Proof.
  enough (Hg : guar (commands who op) (op_run who op)) by apply Hg.
  destruct op as [| |h| |i|i| |p|p|st| |p|]; simpl op_run; try apply guar_discard;
    eauto using guar_invite, guar_kick, guar_promote, guar_ready, guar_accept, guar_sweep.
  - apply guar_lift_bind. intros me Hme. apply guar_bind; [|auto with guar]. apply guar_db. intros t d d' x E.
    right. exists (CCreate me). split; [exists me; done|]. by eapply t_create.
  - apply guar_lift_bind. intros me Hme. apply guar_bind; [apply guar_renew; exists me; done|]. intros _.
    apply guar_bind; [apply guar_read; intros _; apply reads_gets|]. intros row. apply guar_bind; auto with guar.
  - apply guar_lift_bind. intros me Hme. apply guar_bind; [apply guar_renew; exists me; done|]. intros _.
    apply guar_bind; [apply guar_read; intros t; apply reads_gets|]. intros rows. apply guar_bind; auto with guar.
  - apply guar_lift_bind. intros me Hme. apply guar_lift_bind. intros t ->%uuid_arg_ok.
    apply guar_bind; [apply guar_renew; exists me; simpl; auto|]. intros _. apply guar_db. intros n d d' x E.
    right. exists (CDecline me (lower i)). split; [exists me; simpl; auto|]. by eapply t_decline.
  - apply guar_lift_bind. intros me Hme. apply guar_leave_loop. exists me. done.
  - apply guar_lift_bind. intros me Hme. apply guar_bind; [apply guar_renew; exists me; done|]. intros _.
    apply guar_bind; [apply guar_read; intros _; apply reads_gets|]. auto with guar.
  - unfold purge_player. case_match; [auto with guar|]. cbv zeta.
    apply guar_bind; [apply guar_read; intros _; apply reads_gets|]. intros seen. apply guar_db. intros n d d' x E.
    right. exists (CPurge (lower p)). split; [done|]. unfold st_map_err in E. destruct (purge_txn _ _ _) as [d1 y] eqn:Ep.
    injection E as <- _. by eapply t_purge.
Qed.
End Contract.

(** ** Leaving, undisturbed *)

Section Leave.
Context `{PgUuid} (env : PEnv).
Hypothesis alone : ∀ t d, meanwhile env t d = d.
Hypothesis answers : ∀ t, outage env t = false.

Lemma on_db_run {A} (m : nat → ST PartyDb Error A) s d' r :
  m (tick s) (db s) = (d', r) → on_db env m s = (mkPState d' (S (tick s)) (pushed s), r).
Proof. intros E. unfold on_db. by rewrite alone, answers, E. Qed.

Lemma cast_run (x u : string) (d : PartyDb) : uuid_in x = Some u → cast_uuid x d = (d, Ok u).
Proof. intros E. unfold cast_uuid, lift. by rewrite E. Qed.

Lemma party_of_run me p d : uuid_in me = Some p → party_of_tx me d = (d, Ok (m_party <$> members d !! p)).
Proof. intros E. unfold party_of_tx. by rewrite (st_bind_run _ _ _ _ _ (cast_run _ _ _ E)). Qed.

Lemma next_revision_run d : revision_seq d < i64_max → next_revision_tx d = (set_seq (revision_seq d + 1) d, Ok (revision_seq d + 1)).
Proof.
  intros Hlt. unfold next_revision_tx, mbind, ST_bind, gets. case_match eqn:E; [done|]. apply Z.ltb_ge in E. lia.
Qed.

Lemma remove_member_run pid me p d :
  uuid_in me = Some p → uuid_in p = Some p → uuid_in pid = Some pid → in_party d p pid → revision_seq d < i64_max →
  remove_member_tx pid me d
  = (perform (Remove pid [p]) d,
     Ok (Some (mkRemoval [p] (revision_seq d + 1) (bool_decide (next_leader pid (without [p] d) = None))))).
Proof.
  intros Hme Hp Hpid Hin Hlt. unfold remove_member_tx.
  rewrite (st_bind_run _ _ _ _ _ (cast_run _ _ _ Hme)), (st_bind_run _ _ _ _ _ (cast_run _ _ _ Hpid)).
  unfold mbind at 1, ST_bind at 1, gets. rewrite bool_decide_eq_true_2 by done.
  unfold mbind at 1, ST_bind at 1, modify. rewrite without_one.
  unfold settle_removal_tx, mbind, ST_bind. rewrite (cast_run _ _ _ Hpid). unfold gets.
  rewrite next_revision_run by done. simpl perform. unfold settled.
  destruct (next_leader pid (without [p] d)) as [l|]; simpl; unfold record_player_revision_tx, mbind, ST_bind;
    rewrite (cast_run _ _ _ Hp); simpl; done.
Qed.

Lemma send_all_run l m s :
  send_all l m s = (mkPState (db s) (tick s) (pushed s ++ ((fun x => (x, m)) <$> l)), Ok ()).
Proof.
  revert s. induction l as [|x l IH]; intros [d n k]; [by simpl; rewrite app_nil_r|]. simpl.
  unfold mbind, ST_bind, send, modify. rewrite IH. simpl. by rewrite <- app_assoc.
Qed.

Lemma summaries_run l s : ∃ n x, summaries env l s = (mkPState (db s) n (pushed s), Ok x).
Proof.
  unfold summaries. destruct l; [exists (tick s), []; by destruct s|].
  unfold mbind, ST_bind, ask_directory. rewrite alone. eauto.
Qed.

Lemma push_state_run party rm s :
  push_state party (Some rm) s
  = (mkPState (db s) (tick s)
       (pushed s ++ match party with Some v => (fun x => (x, StatePush v)) <$> map mv_player (pv_members v) | None => [] end
        ++ ((fun x => (x, StatePush (no_party (r_revision rm)))) <$> removed rm)), Ok ()).
Proof.
  unfold push_state, mbind, ST_bind. destruct party as [v|]; rewrite ?send_all_run; simpl; rewrite ?send_all_run; simpl;
    by rewrite <- ?app_assoc.
Qed.

(** What a fan-out of a roster and a removal pushes. *)
Lemma fan_out_run row rm s :
  ∃ n k, fan_out env row (Some rm) s = (mkPState (db s) n k, Ok ())
    ∧ (∀ p, p ∈ removed rm → (p, StatePush (no_party (r_revision rm))) ∈ k)
    ∧ ∀ v, row = Some v → length (vr_readies v) = length (vr_members v) →
        ∀ q, q ∈ vr_members v → ∃ w, (q, StatePush w) ∈ k ∧ pv_revision w = vr_revision v ∧ pv_party w = vr_party v
          ∧ map mv_player (pv_members w) = vr_members v.
Proof.
  unfold fan_out. destruct (summaries_run (match row with Some r => vr_members r | None => [] end) s) as (n & x & Ex).
  rewrite (st_bind_run _ _ _ _ _ Ex), push_state_run. simpl. do 2 eexists. split; [done|]. split.
  - intros p Hp. rewrite !elem_of_app. right. right.
    by apply (list_elem_of_fmap_2 (fun x' => (x', StatePush (no_party (r_revision rm)))) _ p).
  - intros v -> Hlen q Hq. simpl.
    assert (Em : map mv_player (pv_members (view_of v x)) = vr_members v).
    { unfold view_of. simpl. change (map mv_player ?l) with (mv_player <$> l). rewrite fmap_zip_with_l; [done|done|]. by rewrite Hlen. }
    exists (view_of v x). split_and!; [|done..]. rewrite !elem_of_app. right. left.
    apply (list_elem_of_fmap_2 (fun x' => (x', StatePush (view_of v x))) _ q).
    change (q ∈ map mv_player (pv_members (view_of v x))). by rewrite Em.
Qed.

Lemma player_row_none p d : members d !! p = None → vr_party (player_row p d) = "".
Proof. intros E. unfold player_row. by rewrite E. Qed.

Lemma locked_leave_run me p m d :
  party_inv d → uuid_in me = Some p → members d !! p = Some m → revision_seq d < i64_max →
  locked me (m_party m) (leave_body me (m_party m)) d
  = (perform (Remove (m_party m) [p]) d,
     Ok (Some (mkRemoval [p] (revision_seq d + 1) (bool_decide (next_leader (m_party m) (without [p] d) = None))))).
Proof.
  intros Hd Hme Hm Hlt. destruct (pi_member d Hd p m Hm) as ([r Hr] & _ & Hp). destruct (pi_leader d Hd _ r Hr) as [_ Hpid].
  assert (Hin : in_party d p (m_party m)) by (unfold in_party; by rewrite Hm).
  unfold locked, transact, leave_body, sql. rewrite (st_bind_run _ _ _ _ _ (st_map_err_run _ _ _ _ _ (party_of_run _ _ d Hme))), Hm.
  rewrite bool_decide_eq_true_2 by done.
  unfold mbind, ST_bind. rewrite (st_map_err_run _ _ _ _ _ (remove_member_run _ _ _ _ Hme Hp Hpid Hin Hlt)). done.
Qed.

(** The snapshot of a party that stands. *)
Lemma party_view_run pid r d :
  uuid_in pid = Some pid → parties d !! pid = Some r → (∃ q, in_party d q pid) →
  party_view pid d = (d, Ok (Some (view_row pid r None d))).
Proof.
  intros Hpid Hr [q Hq]. unfold party_view. rewrite (st_bind_run _ _ _ _ _ (cast_run _ _ _ Hpid)). unfold gets. rewrite Hr. simpl.
  destruct (in_order pid d) eqn:E; [|done]. exfalso. unfold in_order in E.
  apply roster_dom, elem_of_dom in Hq as [m Hq]. apply elem_of_map_to_list in Hq.
  rewrite <- (merge_sort_Permutation joined_before) in Hq. rewrite E in Hq. set_solver.
Qed.

Lemma view_row_members pid r l d q : q ∈ vr_members (view_row pid r l d) ↔ in_party d q pid.
Proof.
  simpl. unfold in_order. change (map fst ?l) with (fst <$> l). rewrite list_elem_of_fmap, <- roster_dom, elem_of_dom. split.
  - intros ([x m] & -> & Hx). rewrite merge_sort_Permutation in Hx. apply elem_of_map_to_list in Hx. eauto.
  - intros [m Hm]. exists (q, m). split; [done|]. rewrite merge_sort_Permutation. by apply elem_of_map_to_list.
Qed.

(** The party after one member left it. *)
Lemma removed_one_row p pid r d :
  party_inv d → in_party d p pid → parties d !! pid = Some r →
  let d' := perform (Remove pid [p]) d in
  match next_leader pid (without [p] d) with
  | Some l => parties d' !! pid = Some (mkPartyRow l (revision_seq d + 1)) ∧ in_party d' l pid
  | None => ∀ q, ¬ in_party d' q pid
  end.
Proof.
  intros Hd Hin Hr. simpl. unfold settled. destruct (next_leader pid (without [p] d)) as [l|] eqn:El; simpl.
  - rewrite lookup_alter_eq, Hr. split; [done|]. destruct (next_leader_spec pid (without [p] d) r l Hr El) as (m & Hm & _).
    apply roster_lookup in Hm as [? ?]. apply in_party_spec. eauto.
  - intros q Hq. change (in_party (without [p] d) q pid) in Hq. apply roster_dom in Hq.
    rewrite (next_leader_None pid (without [p] d) r Hr El) in Hq. set_solver.
Qed.

Lemma begin_locked_run me p s :
  party_inv (db s) → uuid_in me = Some p → revision_seq (db s) < i64_max →
  begin_locked env MEMBERSHIP_ATTEMPTS me (fun _ pid => leave_body me pid) s
  = match members (db s) !! p with
    | None => (mkPState (db s) (S (tick s)) (pushed s), Ok None)
    | Some m =>
        (mkPState (perform (Remove (m_party m) [p]) (db s)) (S (S (tick s))) (pushed s),
         Ok (Some (m_party m, mkRemoval [p] (revision_seq (db s) + 1)
                                (bool_decide (next_leader (m_party m) (without [p] (db s)) = None)))))
    end.
Proof.
  intros Hd Hme Hlt. unfold MEMBERSHIP_ATTEMPTS. cbn [begin_locked].
  rewrite (st_bind_run _ _ _ _ _ (on_db_run (fun _ => sql (party_of_tx me)) s _ _
    (st_map_err_run _ _ _ _ _ (party_of_run _ _ (db s) Hme)))).
  destruct (members (db s) !! p) as [m|] eqn:Em; [|done]. change (m_party <$> Some m) with (Some (m_party m)). cbv iota beta.
  by rewrite (st_bind_run _ _ _ _ _ (on_db_run (fun _ => locked me (m_party m) (leave_body me (m_party m)))
    (mkPState (db s) _ _) _ _ (locked_leave_run me p m (db s) Hd Hme Em Hlt))).
Qed.

(** A leave that meets no interference succeeds: the caller is in no party
    afterwards and is answered the "no party" view, at a fresh revision if they were in
    one; they are pushed that view, and every remaining member is pushed the party's
    state at the same revision, naming exactly the remaining members. *)
Theorem leave_undisturbed who me p s :
  caller who = Ok me → uuid_in me = Some p → party_inv (db s) → revision_seq (db s) < i64_max →
  ∃ s' rev, leave env who s = (s', Ok (no_party rev)) ∧ members (db s') !! p = None ∧
    match members (db s) !! p with
    | None => db s' = db s ∧ pushed s' = pushed s ∧ rev = default 0 (player_revisions (db s) !! p)
    | Some m =>
        db s' = perform (Remove (m_party m) [p]) (db s) ∧ rev = revision_seq (db s) + 1
        ∧ (p, StatePush (no_party rev)) ∈ pushed s'
        ∧ ∀ q, in_party (db s') q (m_party m) →
            ∃ w, (q, StatePush w) ∈ pushed s' ∧ pv_revision w = rev ∧ pv_party w = m_party m
              ∧ ∀ x, x ∈ map mv_player (pv_members w) ↔ in_party (db s') x (m_party m)
    end.
Proof.
  intros Hwho Hme Hd Hlt. unfold leave, lift, mbind, ST_bind at 1. rewrite Hwho.
  unfold MEMBERSHIP_ATTEMPTS. cbn [leave_loop]. pose proof (begin_locked_run me p s Hd Hme Hlt) as E0.
  destruct (members (db s) !! p) as [m|] eqn:Em.
  - set (d' := perform (Remove (m_party m) [p]) (db s)).
    destruct (pi_member _ Hd p m Em) as ([r Hr] & _). destruct (pi_leader _ Hd _ r Hr) as [_ Hpid].
    pose proof (removed_one_row p (m_party m) r (db s) Hd ltac:(unfold in_party; by rewrite Em) Hr) as Hrow.
    assert (Hgone : members d' !! p = None).
    { unfold d'. simpl. rewrite settled_members. simpl. apply map_lookup_filter_None. right. intros x _. set_solver. }
    rewrite (st_bind_run _ _ _ _ _ E0). fold d'. unfold mbind, ST_bind. simpl.
    destruct (next_leader (m_party m) (without [p] (db s))) as [l|] eqn:El.
    + rewrite bool_decide_eq_false_2 by done. simpl. destruct Hrow as [Hr' Hl]. fold d' in Hr', Hl.
      unfold snapshot. rewrite (on_db_run _ (mkPState d' _ _) _ _ (st_map_err_run _ _ _ _ _ (party_view_run _ _ d' Hpid Hr' (ex_intro _ l Hl)))).
      set (v := view_row _ _ _ d'). set (rm := mkRemoval _ _ _).
      destruct (fan_out_run (Some v) rm (mkPState d' (S (S (S (tick s)))) (pushed s))) as (n & k & Ek & Hk1 & Hk2).
      simpl. rewrite Ek. exists (mkPState d' n k), (revision_seq (db s) + 1). split_and!; try done; [apply Hk1; by left|].
      simpl. intros q Hq. destruct (Hk2 v eq_refl) with (q := q) as (w & Hw & Hrev & Hpw & Hmw);
        [unfold v; simpl; by rewrite !length_map|by apply view_row_members|].
      exists w. split_and!; try done. intros x. rewrite Hmw. apply view_row_members.
    + rewrite bool_decide_eq_true_2 by done. simpl. do 2 eexists. split; [done|]. split_and!; try done; simpl; [set_solver|].
      intros q Hq. by destruct (Hrow q).
  - rewrite (st_bind_run _ _ _ _ _ E0).
    assert (Ev : player_view me (db s) = (db s, Ok (player_row p (db s))))
      by (unfold player_view; by rewrite (st_bind_run _ _ _ _ _ (cast_run _ _ _ Hme))).
    rewrite (st_bind_run _ _ _ _ _ (on_db_run (fun _ => sql (player_view me)) (mkPState (db s) _ _) _ _
      (st_map_err_run _ _ _ _ _ Ev))).
    rewrite bool_decide_eq_true_2 by (by apply player_row_none). do 2 eexists. split; [done|]. simpl. split; [done|].
    split_and!; [done..|]. unfold player_row. by rewrite Em.
Qed.

End Leave.

(** ** Examples *)
Module PartyServiceExample.
Import PartyExample.
#[local] Existing Instance plain_uuid.

Definition nobody : Directory := mkDirectory (fun _ => Ok None) (fun _ => Ok []).
Definition idle : PEnv :=
  mkPEnv (fun _ d => d) (fun _ => false) (fun _ => 0) (fun _ => 0) (fun _ => pid) (fun _ => nobody) (fun _ => false) (fun _ => 0).

Definition as_ann : Identity := identity_player ann.

Lemma pid_canonical : uuid_in pid = Some pid.
Proof. vm_compute. reflexivity. Defined.

(** Ann creates a party while nothing else happens. *)
Lemma party_ops_entitled_witness :
  let s := mkPState empty_parties 0 [] in
  let s' := fst (op_run 60 idle as_ann OCreate s) in
  rtc (own 60 eq (commands idle as_ann OCreate)) (db s) (db s') ∧ in_party (db s') ann pid.
Proof.
  split; [|vm_compute; reflexivity].
  eapply (party_ops_entitled 60 idle eq (fun _ _ => eq_refl) (fun _ => pid_canonical) as_ann OCreate).
  apply surjective_pairing.
Defined.

(** Ann leaves the party of two. *)
Lemma leave_undisturbed_witness :
  ∃ s' rev, leave idle as_ann (mkPState d3 0 []) = (s', Ok (no_party rev)) ∧ members (db s') !! ann = None.
Proof.
  destruct (leave_undisturbed idle (fun _ _ => eq_refl) (fun _ => eq_refl) as_ann ann ann (mkPState d3 0 []))
    as (s' & rev & E & Hn & _).
  - vm_compute. reflexivity.
  - vm_compute. reflexivity.
  - apply (party_reachable_inv 60). exact reach3.
  - vm_compute. reflexivity.
  - exact (ex_intro _ s' (ex_intro _ rev (conj E Hn))).
Defined.
End PartyServiceExample.
