(* ===== verification/Wiring.v ===== *)
(** * Wiring: the service registry, the contribution slots and the module context

    [core/registry], [core/contrib], the push handle of [core/push] and the part of
    [core/lifecycle]'s [Context] they make up.  A type-erased value is its type's
    name and an opaque handle; a panic is a fault that unwinds the caller. *)

From stdpp Require Import pretty.
From S2P Require Import Prelude Text.
#[local] Open Scope Z_scope.

(** [anyhow::Error] with its context, or a panic. *)
Inductive Fault := Failed (context : string) | Panicked (msg : string).

#[global] Instance Fault_eq_dec : EqDecision Fault.
Proof. solve_decision. Defined.

(** ** The registry *)

(** [Arc<T>] behind [dyn Any]: the name of [T] and which value it is. *)
Record Erased := mkErased { type_name : string; handle : nat }.

#[global] Instance Erased_eq_dec : EqDecision Erased.
Proof. solve_decision. Defined.

Inductive RequireKind := Mandatory | Optional.

Record Registry := mkRegistry { services : gmap string Erased; observed : option (list (RequireKind * string)) }.

Definition key (module capability : string) : string := module +:+ "." +:+ capability.

Definition provide (name : string) (svc : Erased) : ST Registry Fault unit := fun r =>
  match services r !! name with
  | Some _ => (r, Err (Panicked ("service " +:+ name +:+ " already provided")))
  | None => (mkRegistry (<[name := svc]> (services r)) (observed r), Ok ())
  end.

(** The observer of a tool sees every lookup, also one that fails. *)
Definition notify_observer (k : RequireKind) (name : string) (r : Registry) : Registry :=
  mkRegistry (services r) ((fun l => l ++ [(k, name)]) <$> observed r).

Definition set_require_observer (r : Registry) : Registry := mkRegistry (services r) (Some []).

Definition require (name ty : string) : ST Registry Fault Erased := fun r =>
  let r := notify_observer Mandatory name r in
  match services r !! name with
  | None => (r, Err (Panicked ("required service " +:+ name +:+ " not found")))
  | Some svc =>
      if bool_decide (type_name svc = ty) then (r, Ok svc)
      else (r, Err (Panicked ("service " +:+ name +:+ " does not implement " +:+ ty)))
  end.

Definition try_require (name ty : string) : ST Registry Fault (option Erased) := fun r =>
  let r := notify_observer Optional name r in
  (r, Ok (svc ← services r !! name; if bool_decide (type_name svc = ty) then Some svc else None)).

(** ** The slots *)

Record SlotBucket := mkSlotBucket { slot_type : string; values : list nat }.

Abbreviation Slots := (gmap string SlotBucket).

Definition slot_conflict (slot ty : string) (s : Slots) : bool :=
  match s !! slot with Some b => negb (bool_decide (slot_type b = ty)) | None => false end.

Definition wrong_slot (slot : string) : Fault := Panicked ("contribution slot " +:+ slot +:+ " has another type").

(** [buckets.entry(name).or_insert_with(..)]. *)
Definition slot_values (slot : string) (s : Slots) : list nat :=
  match s !! slot with Some b => values b | None => [] end.

Definition contribute (slot ty : string) (v : nat) : ST Slots Fault unit := fun s =>
  if slot_conflict slot ty s then (s, Err (wrong_slot slot))
  else (<[slot := mkSlotBucket ty (slot_values slot s ++ [v])]> s, Ok ()).

(** Reading an empty slot fixes its type. *)
Definition contributions (slot ty : string) : ST Slots Fault (list nat) := fun s =>
  if slot_conflict slot ty s then (s, Err (wrong_slot slot))
  else (<[slot := mkSlotBucket ty (slot_values slot s)]> s, Ok (slot_values slot s)).

(** ** The push handle *)

Inductive PushError := NoSink | Backlogged | Codec (msg : string) | TransportErr (msg : string).
Inductive Delivered := Local (n : nat) | Queued.

Section Push.
Context {Msg : Type}.

(** The installed sink, and whether its absence was logged. *)
Record Push := mkPush { sink : option (Msg → result PushError Delivered); no_sink_logged : bool }.

Definition new_push : Push := mkPush None false.

Definition install (f : Msg → result PushError Delivered) : ST Push Fault unit := fun p =>
  match sink p with
  | Some _ => (p, Err (Panicked "push sink already installed in this process"))
  | None => (mkPush (Some f) (no_sink_logged p), Ok ())
  end.

Definition push_send (m : Msg) (p : Push) : Push * result PushError Delivered :=
  match sink p with
  | None => (mkPush None true, Err NoSink)
  | Some f => (p, f m)
  end.
End Push.
#[global] Arguments Push : clear implicits.

(** ** The context *)

Record Context := mkContext {
  registry : Registry;
  slots : Slots;
  routes : list string;
  sink_handle : option nat;
}.

Definition new_context : Context := mkContext (mkRegistry ∅ None) ∅ [] None.

Definition in_registry {A} (m : ST Registry Fault A) : ST Context Fault A := fun c =>
  let '(r, x) := m (registry c) in (mkContext r (slots c) (routes c) (sink_handle c), x).

Definition in_slots {A} (m : ST Slots Fault A) : ST Context Fault A := fun c =>
  let '(s, x) := m (slots c) in (mkContext (registry c) s (routes c) (sink_handle c), x).

(** Merging routes panics on a path that is taken. *)
Definition mount (paths : list string) : ST Context Fault unit := fun c =>
  if bool_decide (NoDup (routes c ++ paths))
  then (mkContext (registry c) (slots c) (routes c ++ paths) (sink_handle c), Ok ())
  else (c, Err (Panicked "overlapping route")).
