(* ===== verification/BootContract.v ===== *)
(** * BootContract: what a boot completes, and how it is undone

    However a boot ends - served, or failed at any step - its trace is the startup
    script up to that step followed by the teardown that step calls for: started
    modules are stopped once, last first, after delivery has halted, and nothing
    else is stopped.  A wiring panic happens with nothing started.  The front door's
    limiter cannot be configured away, and the registry makes the order of modules
    irrelevant. *)

From Stdlib Require Import QArith.
From S2P Require Import Prelude Text Wiring Boot.
#[local] Open Scope Z_scope.

(** ** Computations and their traces *)

(** The outer variables, apart from the trace and the context. *)
Definition flags (s : BState) : bool * bool * bool := (running_edge s, running_player s, modules_started s).

(** A computation that extends the trace by [ok] when it succeeds and by a list of
    [bad] when it fails, and leaves the outer variables alone. *)
Definition does {A} (m : B A) (ok : list Ev → Prop) (bad : list Ev → Prop) : Prop :=
  ∀ s s' r, m s = (s', r) →
    flags s' = flags s ∧ ∃ l, trace s' = trace s ++ l ∧ match r with Ok _ => ok l | Err _ => bad l end.

Lemma does_bind {A C} (m : B A) (k : A → B C) ok1 bad1 ok2 bad2 :
  does m ok1 bad1 → (∀ a, does (k a) ok2 bad2) →
  does (m ≫= k) (fun l => ∃ l1 l2, l = l1 ++ l2 ∧ ok1 l1 ∧ ok2 l2)
       (fun l => bad1 l ∨ ∃ l1 l2, l = l1 ++ l2 ∧ ok1 l1 ∧ bad2 l2).
Proof.
  intros Hm Hk s s' r [(e & E & ->)|(s1 & a & E1 & E2)]%st_bind_inv.
  - destruct (Hm _ _ _ E) as (Hf & l & Hl & Hb). split; [done|]. eauto.
  - destruct (Hm _ _ _ E1) as (Hf1 & l1 & Hl1 & Ho). destruct (Hk _ _ _ _ E2) as (Hf2 & l2 & Hl2 & Hr).
    split; [congruence|]. exists (l1 ++ l2). split; [by rewrite Hl2, Hl1, app_assoc|]. destruct r; eauto 10.
Qed.

Lemma does_weaken {A} (m : B A) ok bad ok' bad' :
  does m ok bad → (∀ l, ok l → ok' l) → (∀ l, bad l → bad' l) → does m ok' bad'.
Proof.
  intros Hm Ho Hb s s' r E. destruct (Hm _ _ _ E) as (Hf & l & Hl & Hr). split; [done|]. exists l. split; [done|].
  destruct r; auto.
Qed.

Lemma does_ret {A} (a : A) : does (mret a) (eq []) (fun _ => False).
Proof. intros s s' r [= <- <-]. split; [done|]. exists []. by rewrite app_nil_r. Qed.

Lemma does_lift {A} (r : result Fault A) : does (lift r) (eq []) (eq []).
Proof. intros s s' x [= <- <-]. split; [done|]. exists []. rewrite app_nil_r. by destruct r. Qed.

Lemma does_emit e : does (emit e) (eq [e]) (fun _ => False).
Proof. intros s s' r [= <- <-]. split; [done|]. by exists [e]. Qed.

Lemma does_with_ctx {A} (m : ST Context Fault A) : does (with_ctx m) (eq []) (eq []).
Proof.
  intros s s' r. unfold with_ctx. destruct (m (ctx s)) as [c x]. intros [= <- <-]. split; [done|]. exists [].
  rewrite app_nil_r. by destruct x.
Qed.

Lemma does_map_err {A} f (m : B A) ok bad : does m ok bad → does (st_map_err f m) ok bad.
Proof.
  intros Hm s s' r. unfold st_map_err. destruct (m s) as [s1 x] eqn:E. intros [= <- <-].
  destruct (Hm _ _ _ E) as (Hf & l & Hl & Hr). split; [done|]. exists l. split; [done|]. by destruct x.
Qed.

(** A computation that completes a script in order, or stops inside it. *)
Definition follows {A} (m : B A) (p : list Ev) : Prop := does m (eq p) (fun l => l `prefix_of` p).

Lemma follows_bind {A C} (m : B A) (k : A → B C) p q :
  follows m p → (∀ a, follows (k a) q) → follows (m ≫= k) (p ++ q).
Proof.
  intros Hm Hk. eapply does_weaken; [by apply does_bind|..]; simpl.
  - by intros l (l1 & l2 & -> & -> & ->).
  - intros l [Hl|(l1 & l2 & -> & <- & Hl)]; [by apply prefix_app_r|by apply prefix_app].
Qed.

Lemma follows_step e r : follows (step e r) [e].
Proof.
  unfold step, follows. eapply does_weaken; [apply does_bind; [apply does_lift|intros; apply does_emit]|..]; simpl.
  - by intros l (l1 & l2 & -> & <- & <-).
  - intros l [<-|(l1 & l2 & _ & _ & [])]. apply prefix_nil.
Qed.

Lemma follows_silent {A} (m : B A) : does m (eq []) (eq []) → follows m [].
Proof. intros Hm. eapply does_weaken; [done|done|]. by intros l <-. Qed.

Lemma follows_emit e : follows (emit e) [e].
Proof. eapply does_weaken; [apply does_emit|done|done]. Qed.

Lemma follows_ret {A} (a : A) : follows (mret a) [].
Proof. eapply does_weaken; [apply does_ret|done|done]. Qed.

Lemma follows_gets {A} (f : BState → A) : follows (gets f) [].
Proof. intros s s' r [= <- <-]. split; [done|]. exists []. by rewrite app_nil_r. Qed.

Lemma follows_when b m p : follows m p → follows (when b m) (if b then p else []).
Proof. intros Hm. destruct b; [done|apply follows_ret]. Qed.

Lemma follows_for_each {A} (l : list A) f (e : A → Ev) :
  (∀ a, follows (f a) [e a]) → follows (for_each l f) (map e l).
Proof.
  intros Hf. induction l as [|a l IH]; [apply follows_ret|]. simpl.
  apply (follows_bind (f a) (fun _ => for_each l f) [e a] (map e l)); [done|intros _; exact IH].
Qed.

Lemma follows_map_err {A} f (m : B A) p : follows m p → follows (st_map_err f m) p.
Proof. apply does_map_err. Qed.

Lemma follows_nil_l {A C} (m : B A) (k : A → B C) q : follows m [] → (∀ a, follows (k a) q) → follows (m ≫= k) q.
Proof. apply (follows_bind m k [] q). Qed.

(** The same for one of two scripts, chosen by what the computation finds. *)
Definition follows_one {A} (m : B A) (q : bool → list Ev) : Prop :=
  does m (fun l => ∃ i, l = q i) (fun l => ∃ i, l `prefix_of` q i).

Lemma follows_one_bind {A C} (m : B A) (k : A → B C) p q :
  follows m p → (∀ a, follows_one (k a) q) → follows_one (m ≫= k) (fun i => p ++ q i).
Proof.
  intros Hm Hk. eapply does_weaken; [by apply does_bind|..]; simpl.
  - intros l (l1 & l2 & -> & <- & [i ->]). by exists i.
  - intros l [Hl|(l1 & l2 & -> & <- & [i Hl])]; [exists true; by apply prefix_app_r|exists i; by apply prefix_app].
Qed.

Lemma follows_one_dep {A C} (m : B A) (k : A → B C) q (choose : A → bool) :
  follows m [] → (∀ a, follows (k a) (q (choose a))) → follows_one (m ≫= k) q.
Proof.
  intros Hm Hk. eapply does_weaken.
  - apply (does_bind m k (eq []) (fun l => l `prefix_of` []) (fun l => ∃ i, l = q i) (fun l => ∃ i, l `prefix_of` q i)); [done|].
    intros a. eapply does_weaken; [apply Hk|..]; simpl; [intros l <-|intros l]; eauto.
  - by intros l (l1 & l2 & -> & <- & Hl).
  - simpl. intros l [->%prefix_nil_inv|(l1 & l2 & -> & <- & Hl)]; [exists true; apply prefix_nil|done].
Qed.

Lemma follows_one_ext {A} (m : B A) q q' : (∀ i, q i = q' i) → follows_one m q → follows_one m q'.
Proof. intros Hq Hm. eapply does_weaken; [exact Hm|..]; simpl; intros l [i Hi]; exists i; by rewrite <- Hq. Qed.

(** ** The startup script and its teardown *)

Section Script.
Variable cfg : Config.
Variable mods : list Module.
Variables has_edge has_player : bool.

Definition only (b : bool) (l : list Ev) : list Ev := if b then l else [].

(** What precedes anything being started; [sink] says whether a sink was contributed. *)
Definition prep_script (sink : bool) : list Ev :=
  only (has_db cfg) [PoolOpened; PlaneCreated; InvalidationCreated] ++
  map (fun m => Registered (m_name m)) mods ++ map (fun m => Inited (m_name m)) mods ++
  only sink [SinkInstalled] ++ only has_edge [EdgeWired] ++ only has_player [PlayerWired] ++ [RouterBuilt].

(** The first [k] modules' migrations, under the lock where there is a database. *)
Definition migrations (k : nat) : list Ev :=
  only (has_db cfg) [Locked] ++ map (fun m => Migrated (m_name m)) (take k mods) ++ only (has_db cfg) [Unlocked].

(** The first [k] modules' starts. *)
Definition starts (k : nat) : list Ev := map (fun m => Started (m_name m)) (take k mods).

(** What follows the last module's start. *)
Definition open_script : list Ev :=
  only (has_db cfg) [InvalidationStarted; PlaneStarted] ++ only has_edge [EdgeListening] ++
  only has_player [PlayerListening] ++ [Served].

(** How far the fallible block came: nothing; the plane's own migration; [k] of the
    modules' migrations; [k] of the modules' starts; [n] steps past the last start. *)
Inductive Reached :=
  | AtPlane
  | AtLock
  | AtMigrate (k : nat)
  | AtStart (k : nat)
  | AtOpen (n : nat).

Definition up (r : Reached) : list Ev :=
  let plane := only (has_db cfg) [PlaneMigrated] in
  match r with
  | AtPlane => []
  | AtLock => plane
  | AtMigrate k => plane ++ migrations k
  | AtStart k => plane ++ migrations (length mods) ++ starts k
  | AtOpen n => plane ++ migrations (length mods) ++ starts (length mods) ++ take n open_script
  end.

Definition stops (k : nat) : list Ev := map (fun m => Stop (m_name m)) (rev (take k mods)).

(** The listeners that run are drained, player front first; then delivery halts, the
    bus drains, and only then do modules stop.  A failed start has stopped the
    started modules itself. *)
Definition down (r : Reached) : list Ev :=
  let planes := only (has_db cfg) [PlaneStopped; InvalidationStopped] ++ [BusClosed] in
  match r with
  | AtPlane | AtLock | AtMigrate _ => planes
  | AtStart k => stops k ++ planes
  | AtOpen n =>
      only (bool_decide (PlayerListening ∈ take n open_script)) [PlayerDrained] ++
      only (bool_decide (EdgeListening ∈ take n open_script)) [EdgeDrained] ++
      planes ++ stops (length mods)
  end.

(** Only the last step completes the boot. *)
Definition complete (r : Reached) : bool :=
  match r with AtOpen n => bool_decide (n = length open_script) | _ => false end.
End Script.

(** ** The phases follow the script *)

Section Phases.
Variable parse_f64 : string → option Float.
Variable env : BootEnv.
Variable cfg : Config.
Variable mods : list Module.
Variables has_edge has_player : bool.
Hypothesis stops_calm : Forall (fun m => m_stop m ≠ StopPanicked) mods.

Lemma build_follows : follows (build mods) (map (fun m => Registered (m_name m)) mods ++ map (fun m => Inited (m_name m)) mods).
Proof.
  unfold build. apply follows_bind; [|intros _]; apply (follows_for_each mods); intros m;
    (eapply follows_nil_l; [apply follows_map_err, follows_silent, does_with_ctx|intros _; apply follows_emit]).
Qed.

(** The wiring after the sink has been chosen. *)
Lemma wiring_follows (chosen : option nat) :
  follows (match chosen with Some x => with_ctx (install_sink x);; emit SinkInstalled | None => mret () end;;
           readiness_wiring cfg;;
           when has_edge (c ← gets ctx; step EdgeWired (edge_registrations env c));;
           when has_player (emit PlayerWired);;
           c ← gets ctx;
           step RouterBuilt (router_build env c))
    (only (bool_decide (is_Some chosen)) [SinkInstalled] ++ only has_edge [EdgeWired] ++
     only has_player [PlayerWired] ++ [RouterBuilt]).
Proof.
  apply follows_bind; [|intros _; eapply follows_nil_l; [|intros _; apply follows_bind; [|intros _; apply follows_bind; [|intros _]]]].
  - destruct chosen; [|apply follows_ret].
    eapply follows_nil_l; [apply follows_silent, does_with_ctx|intros _; apply follows_emit].
  - apply follows_silent, does_with_ctx.
  - apply (follows_when has_edge _ [EdgeWired]).
    eapply follows_nil_l; [apply follows_gets|intros c; apply follows_step].
  - apply (follows_when has_player _ [PlayerWired]), follows_emit.
  - eapply follows_nil_l; [apply follows_gets|intros c; apply follows_step].
Qed.

(** The preparation either completes its script or fails inside it. *)
Lemma prepare_follows :
  follows_one (prepare env cfg mods has_edge has_player) (prep_script cfg mods has_edge has_player).
Proof.
  set (rest (i : bool) := only i [SinkInstalled] ++ only has_edge [EdgeWired] ++ only has_player [PlayerWired] ++ [RouterBuilt]).
  set (modules := map (fun m => Registered (m_name m)) mods ++ map (fun m => Inited (m_name m)) mods).
  apply (follows_one_ext _ (fun i => only (has_db cfg) [PoolOpened] ++ only (has_db cfg) [PlaneCreated] ++
           only (has_db cfg) [InvalidationCreated] ++ [] ++ [] ++ modules ++ [] ++ rest i)).
  { intros i. unfold prep_script, modules. destruct (has_db cfg); simpl; by rewrite <- app_assoc. }
  unfold prepare. repeat (apply follows_one_bind; [|intros ?]).
  - apply (follows_when _ _ [PoolOpened]).
    eapply follows_nil_l; [apply follows_silent, does_lift|intros _; apply follows_step].
  - apply (follows_when _ _ [PlaneCreated]), follows_step.
  - apply (follows_when _ _ [InvalidationCreated]), follows_step.
  - apply follows_silent, does_lift.
  - apply follows_silent, does_lift.
  - apply follows_map_err, build_follows.
  - apply follows_silent, does_with_ctx.
  - apply (follows_one_dep _ _ rest (fun chosen => bool_decide (is_Some chosen)));
      [apply follows_silent, does_lift|apply wiring_follows].
Qed.

Lemma prefix_map {X} (f : X → Ev) (l : list X) p : p `prefix_of` map f l → ∃ k, p = map f (take k l).
Proof.
  intros [q Hq]. exists (length p). change (map f (take ?k l)) with (f <$> take k l).
  rewrite fmap_take. change (f <$> l) with (map f l). by rewrite Hq, take_app_length.
Qed.

Lemma run_migrations_follows : follows (run_migrations mods) (map (fun m => Migrated (m_name m)) mods).
Proof. apply (follows_for_each mods). intros m. apply follows_map_err, follows_step. Qed.

Lemma unlocking_does m ok bad :
  does m ok bad →
  does (unlocking env m) (fun l => ∃ l', l = l' ++ [Unlocked] ∧ ok l') (fun l => ∃ l', l = l' ++ [Unlocked] ∧ (ok l' ∨ bad l')).
Proof.
  intros Hm s s' r. unfold unlocking. destruct (m s) as [s1 x] eqn:E. destruct (Hm _ _ _ E) as (Hf & l & Hl & Hx).
  destruct x; simpl; intros [= <- <-]; (split; [done|]); exists (l ++ [Unlocked]); simpl; rewrite Hl, app_assoc;
    (split; [done|]); [destruct (unlock env)|]; eauto.
Qed.

(** The migrations run under the lock, which every way out releases. *)
Lemma app_migrate_does :
  does (app_migrate env cfg mods) (eq (migrations cfg mods (length mods)))
       (fun l => l = [] ∨ ∃ k, l = migrations cfg mods k).
Proof.
  unfold app_migrate, migrations. rewrite take_ge by lia. destruct (has_db cfg); simpl.
  - eapply does_weaken.
    + apply does_bind; [apply does_lift|intros _]. apply does_bind; [apply does_lift|intros _].
      apply does_bind; [apply does_emit|intros _]. apply unlocking_does, run_migrations_follows.
    + simpl. by intros ? (? & ? & -> & <- & ? & ? & -> & <- & ? & ? & -> & <- & ? & -> & <-).
    + simpl. intros ? [<-|(? & ? & -> & <- & [<-|(? & ? & -> & <- & [[]|(? & ? & -> & <- & ? & -> & Hm)])])]; [by left..|].
      right. destruct Hm as [<-|[k ->]%prefix_map]; [exists (length mods)|by exists k]. by rewrite take_ge by lia.
  - rewrite app_nil_r. eapply does_weaken; [apply run_migrations_follows|done|]. simpl.
    intros l [k ->]%prefix_map. right. exists k. by rewrite app_nil_r.
Qed.

Lemma stop_all l s : Forall (fun m => m_stop m ≠ StopPanicked) l →
  ∃ s', for_each l stop_one s = (s', Ok ()) ∧ trace s' = trace s ++ map (fun m => Stop (m_name m)) l ∧ flags s' = flags s.
Proof.
  intros Hl. revert s. induction Hl as [|m l Hm Hl IH]; intros s.
  - exists s. by rewrite app_nil_r.
  - set (s1 := (emit (Stop (m_name m)) s).1). destruct (IH s1) as (s' & E & Ht & Hf). exists s'.
    split; [|split].
    + simpl. rewrite (st_bind_run _ _ s s1 ()); [exact E|].
      unfold stop_one. by destruct (m_stop m).
    + rewrite Ht. simpl. by rewrite <- app_assoc.
    + rewrite Hf. done.
Qed.

(** A failed start has undone the starts before it, last first. *)
Lemma app_start_does started l s s' r :
  Forall (fun m => m_stop m ≠ StopPanicked) (started ++ l) → app_start started l s = (s', r) →
  flags s' = flags s ∧ ∃ k,
    trace s' = trace s ++ map (fun m => Started (m_name m)) (take k l) ++
      match r with Err (Failed _) => map (fun m => Stop (m_name m)) (rev (take k l) ++ started) | _ => [] end ∧
    (r = Ok () → k = length l).
Proof.
  revert started s. induction l as [|m l IH]; intros started s Hc; simpl.
  { intros [= <- <-]. split; [done|]. exists 0%nat. split; [|done]. by rewrite app_nil_r. }
  destruct (m_start m) as [[]|[e|p]] eqn:Em.
  - intros E. apply IH in E as (Hf & k & Ht & Hk); [|simpl; rewrite Forall_cons; rewrite Forall_app, Forall_cons in Hc; rewrite Forall_app; naive_solver].
    split; [done|]. exists (S k). split; [|intros ?; f_equal; auto]. rewrite Ht. simpl. rewrite <- app_assoc. simpl.
    destruct r as [|[]]; by rewrite <- ?app_assoc.
  - apply Forall_app in Hc as [Hc _]. destruct (stop_all _ s Hc) as (s1 & E & Ht & Hf).
    rewrite (st_bind_run _ _ _ _ _ E). intros [= <- <-]. split; [done|]. exists 0%nat. by split.
  - intros [= <- <-]. split; [done|]. exists 0%nat. split; [|done]. by rewrite app_nil_r.
Qed.

(** The teardown, given what the block left behind. *)
Lemma ordered_teardown_does s0 s :
  ∃ s', ordered_teardown cfg mods s0 s = (s', Ok ()) ∧
    trace s' = trace s ++ only (running_player s0) [PlayerDrained] ++ only (running_edge s0) [EdgeDrained] ++
      (only (has_db cfg) [PlaneStopped; InvalidationStopped] ++ [BusClosed]) ++
      only (modules_started s0) (stops mods (length mods)).
Proof.
  set (s1 := mkBState (ctx s) (trace s ++ only (running_player s0) [PlayerDrained] ++ only (running_edge s0) [EdgeDrained] ++
      (only (has_db cfg) [PlaneStopped; InvalidationStopped] ++ [BusClosed])) (running_edge s) (running_player s) (modules_started s)).
  assert (E : ordered_teardown cfg mods s0 s = when (modules_started s0) (app_stop mods) s1).
  { unfold ordered_teardown, s1. destruct (running_player s0), (running_edge s0), (has_db cfg); simpl;
      unfold when, emit, modify, mbind, ST_bind, mret, ST_ret; simpl; by rewrite <- ?app_assoc. }
  rewrite E. destruct (modules_started s0); simpl.
  - destruct (stop_all (rev mods) s1) as (s' & E' & Ht & _); [by apply Forall_rev|].
    exists s'. split; [exact E'|]. rewrite Ht. unfold s1, stops. simpl. rewrite take_ge by lia. by rewrite <- !app_assoc.
  - exists s1. split; [done|]. simpl. by rewrite !app_nil_r.
Qed.

(** What the block does once every module has started. *)
Definition opening : B unit :=
  when (has_db cfg) (st_map_err (in_context "invalidation start failed") (step InvalidationStarted (invalidation_start env)));;
  when (has_db cfg) (st_map_err (in_context "asyncevents start failed") (step PlaneStarted (plane_start env)));;
  when has_edge (step EdgeListening (edge_listen env);; set_running_edge);;
  when has_player (step PlayerListening (player_listen env);; set_running_player);;
  lift (rate_setup parse_f64 env cfg);;
  step Served (serve env).

Lemma opening_does s s' r :
  flags s = (false, false, true) → opening s = (s', r) →
  ∃ n, let done := take n (open_script cfg has_edge has_player) in
    trace s' = trace s ++ done ∧
    flags s' = (bool_decide (EdgeListening ∈ done), bool_decide (PlayerListening ∈ done), true) ∧
    is_ok r = bool_decide (n = length (open_script cfg has_edge has_player)).
Proof.
  destruct s as [c t e p ms]. unfold flags. simpl. intros [= -> -> ->].
  unfold opening, open_script. generalize (rate_setup parse_f64 env cfg). intros rates.
  destruct (has_db cfg), has_edge, has_player; unfold when, only, step, st_map_err, set_running_edge, set_running_player;
    cbn;
    destruct (invalidation_start env) as [[]|], (plane_start env) as [[]|], (edge_listen env) as [[]|],
      (player_listen env) as [[]|], rates as [[]|], (serve env) as [[]|];
    intros [= <- <-]; cbn [trace running_edge running_player modules_started]; rewrite <- ?app_assoc;
    first [exists 0%nat; cbn; rewrite ?app_nil_r; by split_and! | exists 1%nat; by split_and! | exists 2%nat; by split_and!
          |exists 3%nat; by split_and! | exists 4%nat; by split_and! | exists 5%nat; by split_and!].
Qed.

(** The script and teardown a state reached inside the block calls for. *)
Definition up_ x := up cfg mods has_edge has_player x.
Definition down_ x := down cfg mods has_edge has_player x.

(** The block, its own undoing of a failed start included, is a part of the script;
    the outer variables say what the teardown has to undo. *)
Definition accounted (s0 s' : BState) (r : result Fault unit) (x : Reached) : Prop :=
  trace s' ++ only (running_player s') [PlayerDrained] ++ only (running_edge s') [EdgeDrained] ++
    (only (has_db cfg) [PlaneStopped; InvalidationStopped] ++ [BusClosed]) ++
    only (modules_started s') (stops mods (length mods)) = trace s0 ++ up_ x ++ down_ x ∧
  is_ok r = complete cfg has_edge has_player x.

(** A failure of the block, not a panic. *)
Definition calm (r : result Fault unit) : Prop := match r with Err (Panicked _) => False | _ => True end.

Lemma flags_eq (s : BState) a b c : flags s = (a, b, c) → running_edge s = a ∧ running_player s = b ∧ modules_started s = c.
Proof. unfold flags. naive_solver. Qed.

Lemma does_failed {A} (m : B A) ok bad s s' e a b c :
  does m ok bad → m s = (s', Err e) → flags s = (a, b, c) →
  (running_edge s' = a ∧ running_player s' = b ∧ modules_started s' = c) ∧ ∃ l, trace s' = trace s ++ l ∧ bad l.
Proof. intros Hm E Hf. destruct (Hm _ _ _ E) as (Hf' & l & Hl & Hb). split; [apply flags_eq; congruence|eauto]. Qed.

Lemma does_succeeded {A} (m : B A) ok bad s s' (v : A) :
  does m ok bad → m s = (s', Ok v) → flags s' = flags s ∧ ∃ l, trace s' = trace s ++ l ∧ ok l.
Proof. intros Hm E. exact (Hm _ _ _ E). Qed.

Definition plane_phase : B unit :=
  when (has_db cfg) (st_map_err (in_context "asyncevents migrate failed") (step PlaneMigrated (plane_migrate env))).

Lemma plane_phase_follows : does plane_phase (eq (only (has_db cfg) [PlaneMigrated])) (eq []).
Proof.
  unfold plane_phase. destruct (has_db cfg); simpl; [|eapply does_weaken; [apply does_ret|done..]].
  apply does_map_err. unfold step. eapply does_weaken; [apply does_bind; [apply does_lift|intros; apply does_emit]|..]; simpl.
  - by intros l (l1 & l2 & -> & <- & <-).
  - by intros l [<-|(l1 & l2 & _ & _ & [])].
Qed.

(** A start that fails. *)
Lemma start_failed_accounted s s2 s' e :
  flags s2 = (false, false, false) →
  trace s2 = (trace s ++ only (has_db cfg) [PlaneMigrated]) ++ migrations cfg mods (length mods) →
  st_map_err (in_context "start failed") (app_start [] mods) s2 = (s', Err e) → calm (Err e) →
  ∃ x, accounted s s' (Err e) x.
Proof.
  intros Hf Ht2. unfold st_map_err. destruct (app_start [] mods s2) as [s3 r] eqn:E. intros [= -> Hr] Hc.
  apply app_start_does in E as (Hf' & k & Ht & _); [|done]. rewrite Hf in Hf'. apply flags_eq in Hf' as (He & Hp & Hs).
  destruct r as [|[m|m]]; [done| |by injection Hr as <-].
  exists (AtStart k). split; [|done]. rewrite He, Hp, Hs, Ht, Ht2. simpl. unfold stops, starts.
  by rewrite !app_nil_r, <- !app_assoc.
Qed.

Lemma serve_block_accounted s s' r :
  flags s = (false, false, false) →
  serve_block parse_f64 env cfg mods has_edge has_player s = (s', r) → calm r → ∃ x, accounted s s' r x.
Proof.
  intros Hf. unfold serve_block. fold plane_phase. fold opening.
  intros [(e & E & ->)|(s1 & [] & E1 & E)]%st_bind_inv Hc.
  { destruct (does_failed _ _ _ _ _ _ _ _ _ plane_phase_follows E Hf) as ((He & Hp & Hs) & l & Ht & <-).
    exists AtPlane. split; [|done]. rewrite He, Hp, Hs, Ht. simpl. by rewrite !app_nil_r. }
  destruct (does_succeeded _ _ _ _ _ _ plane_phase_follows E1) as (Hf1 & l1 & Ht1 & <-). rewrite Hf in Hf1.
  apply st_bind_inv in E as [(e & E & ->)|(s2 & [] & E2 & E)].
  { destruct (does_failed _ _ _ _ _ _ _ _ _ (does_map_err _ _ _ _ app_migrate_does) E Hf1)
      as ((He & Hp & Hs) & l & Ht & Hl).
    destruct Hl as [->|[k ->]]; [exists AtLock|exists (AtMigrate k)]; (split; [|done]); rewrite He, Hp, Hs, Ht, Ht1; simpl;
      by rewrite !app_nil_r, <- ?app_assoc. }
  destruct (does_succeeded _ _ _ _ _ _ (does_map_err _ _ _ _ app_migrate_does) E2) as (Hf2 & l2 & Ht2 & <-).
  rewrite Hf1 in Hf2.
  apply st_bind_inv in E as [(e & E & ->)|(s3 & [] & E3 & E)].
  { eapply start_failed_accounted; [exact Hf2|by rewrite Ht2, Ht1|exact E|done]. }
  apply st_map_err_ok in E3. apply app_start_does in E3 as (Hf3 & k & Ht3 & Hk); [|done].
  apply st_bind_inv in E as [(e & [=] & ->)|(s4 & [] & [= <-] & E)].
  apply opening_does in E as (n & Ht & [= He Hp Hs] & Hok).
  - exists (AtOpen n). split; [|by rewrite Hok]. rewrite He, Hp, Hs, Ht. simpl. rewrite Ht3, Ht2, Ht1, (Hk eq_refl). unfold starts.
    by rewrite !app_nil_r, <- ?app_assoc.
  - rewrite Hf2 in Hf3. apply flags_eq in Hf3 as (Ha & Hb & _). unfold flags. simpl. by rewrite Ha, Hb.
Qed.

(** The block and the teardown that follows it. *)
Lemma then_teardown_does s s' r :
  flags s = (false, false, false) →
  then_teardown cfg mods (serve_block parse_f64 env cfg mods has_edge has_player) s = (s', r) → calm r →
  ∃ x, trace s' = trace s ++ up_ x ++ down_ x ∧ is_ok r = complete cfg has_edge has_player x.
Proof.
  intros Hf. unfold then_teardown.
  destruct (serve_block _ _ _ _ _ _ s) as [s1 r1] eqn:E. intros E' Hc.
  destruct (ordered_teardown_does s1 s1) as (s2 & E2 & Ht).
  assert (s' = s2 ∧ r = r1) as [-> ->].
  { destruct r1 as [|[]]; [|by rewrite E2 in E'; simplify_eq|simplify_eq; done]. rewrite E2 in E'. by simplify_eq. }
  destruct (serve_block_accounted _ _ _ Hf E Hc) as (x & Hx & Hr). exists x. split; [|done]. by rewrite Ht.
Qed.
End Phases.

(** ** Every boot *)

Section Boots.
Variable parse_f64 : string → option Float.
Variable env : BootEnv.
Variable cfg : Config.
Variable mods : list Module.
Variables has_edge has_player : bool.

(** A failed preparation has started nothing; a prepared boot is undone from
    wherever its block ended. *)
Definition scripted (tr : list Ev) (ok : bool) : Prop :=
  ∃ sink,
    (ok = false ∧ tr `prefix_of` prep_script cfg mods has_edge has_player sink) ∨
    (∃ x, tr = prep_script cfg mods has_edge has_player sink ++ up cfg mods has_edge has_player x ++
               down cfg mods has_edge has_player x ∧ ok = complete cfg has_edge has_player x).

Lemma run_scripted s' r :
  Forall (fun m => m_stop m ≠ StopPanicked) mods →
  run parse_f64 env cfg mods has_edge has_player boot0 = (s', r) → calm r → scripted (trace s') (is_ok r).
Proof.
  intros Hm [(e & E & ->)|(s1 & [] & E1 & E)]%st_bind_inv Hc.
  - destruct (prepare_follows _ _ _ _ _ _ _ _ E) as (_ & l & -> & sink & Hl). exists sink. by left.
  - destruct (prepare_follows _ _ _ _ _ _ _ _ E1) as (Hf & l & Ht & sink & ->).
    destruct (then_teardown_does parse_f64 env cfg mods has_edge has_player Hm s1 s' r) as (x & Hx & Hr); [by rewrite Hf|done|done|].
    exists sink. right. exists x. split; [|done]. by rewrite Hx, Ht.
Qed.

Definition started_of (e : Ev) : option string := match e with Started m => Some m | _ => None end.
Definition stopped_of (e : Ev) : option string := match e with Stop m => Some m | _ => None end.

(** The event that undoes another. *)
Definition undoes (e : Ev) : option Ev :=
  match e with
  | PlaneStarted => Some PlaneStopped
  | InvalidationStarted => Some InvalidationStopped
  | EdgeListening => Some EdgeDrained
  | PlayerListening => Some PlayerDrained
  | _ => None
  end.

Lemma omap_neutral {Y} (f : Ev → option Y) l : Forall (fun e => f e = None) l → omap f l = [].
Proof. induction 1 as [|e l He _ IH]; [done|]. simpl. by rewrite He. Qed.

Lemma omap_map {X Y} (f : Ev → option Y) (g : X → Ev) h l : (∀ x, f (g x) = Some (h x)) → omap f (map g l) = map h l.
Proof. intros H. induction l; [done|]. simpl. rewrite H. by f_equal. Qed.

Lemma Forall_only P b l : Forall P l → Forall P (only b l).
Proof. by destruct b. Qed.

Lemma Forall_map_ev {X} P (g : X → Ev) l : (∀ x, P (g x)) → Forall P (map g l).
Proof. intros H. induction l; simpl; constructor; auto. Qed.

Lemma Forall_prep P sink :
  P PoolOpened → P PlaneCreated → P InvalidationCreated → (∀ m, P (Registered m)) → (∀ m, P (Inited m)) →
  P SinkInstalled → P EdgeWired → P PlayerWired → P RouterBuilt →
  Forall P (prep_script cfg mods has_edge has_player sink).
Proof.
  intros. unfold prep_script. rewrite !Forall_app. split_and!; try apply Forall_only; try apply Forall_map_ev; auto.
Qed.

Lemma Forall_migrations P k :
  P Locked → P Unlocked → (∀ m, P (Migrated m)) → Forall P (migrations cfg mods k).
Proof.
  intros. unfold migrations. rewrite !Forall_app. split_and!; try apply Forall_only; try apply Forall_map_ev; auto.
Qed.

Lemma Forall_open P n :
  P InvalidationStarted → P PlaneStarted → P EdgeListening → P PlayerListening → P Served →
  Forall P (take n (open_script cfg has_edge has_player)).
Proof. intros. apply Forall_take. unfold open_script. rewrite !Forall_app. split_and!; try apply Forall_only; auto. Qed.

(** How many modules had started when the block ended. *)
Definition started_count (x : Reached) : nat :=
  match x with AtStart k => k | AtOpen _ => length mods | _ => 0%nat end.

Lemma up_started x : omap started_of (up cfg mods has_edge has_player x) = map m_name (take (started_count x) mods).
Proof.
  assert (Hm : ∀ k, omap started_of (migrations cfg mods k) = []) by (intros k; apply omap_neutral, Forall_migrations; auto).
  assert (Hp : omap started_of (only (has_db cfg) [PlaneMigrated]) = []) by (apply omap_neutral, Forall_only; auto).
  assert (Hs : ∀ k, omap started_of (starts mods k) = map m_name (take k mods)) by (intros k; by apply omap_map).
  destruct x; unfold up; rewrite ?omap_app, ?Hm, ?Hp, ?Hs; try done.
  rewrite (omap_neutral _ (take n _)) by (apply Forall_open; auto). simpl. by rewrite app_nil_r.
Qed.

Lemma planes_neutral {Y} (f : Ev → option Y) :
  f PlaneStopped = None → f InvalidationStopped = None → f BusClosed = None →
  omap f (only (has_db cfg) [PlaneStopped; InvalidationStopped] ++ [BusClosed]) = [].
Proof. intros. apply omap_neutral, Forall_app. split; [apply Forall_only|]; auto. Qed.

Lemma down_stopped x :
  omap stopped_of (down cfg mods has_edge has_player x) = map m_name (rev (take (started_count x) mods)).
Proof.
  assert (Hs : ∀ k, omap stopped_of (stops mods k) = map m_name (rev (take k mods))) by (intros k; by apply omap_map).
  assert (Hp := planes_neutral stopped_of eq_refl eq_refl eq_refl).
  destruct x; unfold down; cbv zeta; rewrite ?(omap_app _ (stops _ _)), ?Hp, ?Hs; try done; [by rewrite app_nil_r|].
  rewrite 2!omap_app, (omap_app _ (_ ++ [BusClosed])), Hp, Hs.
  rewrite !omap_neutral by (apply Forall_only; auto). done.
Qed.

Lemma up_not_stopped x : Forall (fun e => stopped_of e = None) (up cfg mods has_edge has_player x).
Proof.
  destruct x; unfold up; rewrite ?Forall_app; split_and?; auto using Forall_migrations, Forall_open, Forall_only.
  all: by apply Forall_map_ev.
Qed.

Lemma down_not_started x : Forall (fun e => started_of e = None) (down cfg mods has_edge has_player x).
Proof.
  destruct x; unfold down; cbv zeta; rewrite ?Forall_app; split_and?; auto using Forall_only.
  all: by apply Forall_map_ev.
Qed.

Lemma prep_omap {Y} (f : Ev → option Y) sink :
  Forall (fun e => f e = None) (prep_script cfg mods has_edge has_player sink) →
  ∀ l, l `prefix_of` prep_script cfg mods has_edge has_player sink → omap f l = [].
Proof. intros Hf l [k Hk]. rewrite Hk in Hf. apply Forall_app in Hf as [Hf _]. by apply omap_neutral. Qed.

Lemma scripted_stops tr ok : scripted tr ok → omap stopped_of tr = rev (omap started_of tr).
Proof.
  intros (sink & [[-> Hp]|(x & -> & ->)]).
  - rewrite !(prep_omap _ sink) by (done || by apply Forall_prep). done.
  - rewrite !omap_app, up_started, down_stopped.
    rewrite (omap_neutral stopped_of (up _ _ _ _ _)) by apply up_not_stopped.
    rewrite (omap_neutral started_of (down _ _ _ _ _)) by apply down_not_started.
    rewrite !(omap_neutral _ (prep_script _ _ _ _ _)) by by apply Forall_prep.
    simpl. by rewrite app_nil_r, <- map_rev.
Qed.

Lemma split_after (P Q l1 l2 : list Ev) m :
  P ++ Q = l1 ++ Stop m :: l2 → Forall (fun e => stopped_of e = None) P → P `prefix_of` l1.
Proof.
  intros E HP. apply app_eq_inv in E as [(k & -> & Hk)|(k & -> & Hk)]; [|by exists k].
  apply Forall_app in HP as [_ HP]. destruct k as [|e k]; [by rewrite app_nil_r|]. injection Hk as <- _.
  by apply Forall_cons in HP as [[=] _].
Qed.

Lemma no_stop (tr l1 l2 : list Ev) m : tr = l1 ++ Stop m :: l2 → Forall (fun e => stopped_of e = None) tr → False.
Proof. intros ->. rewrite Forall_app, Forall_cons. by intros (_ & [=] & _). Qed.

Lemma not_undone (tr l1 l2 : list Ev) e u :
  tr = l1 ++ l2 → e ∈ l1 → undoes e = Some u → Forall (fun e => undoes e = None) tr → False.
Proof. intros -> He Hu. rewrite Forall_app, !Forall_forall. intros [H _]. by rewrite (H _ He) in Hu. Qed.

(** What the teardown of a fully started process puts before the modules' stops. *)
Definition halt (n : nat) : list Ev :=
  let opened := take n (open_script cfg has_edge has_player) in
  only (bool_decide (PlayerListening ∈ opened)) [PlayerDrained] ++ only (bool_decide (EdgeListening ∈ opened)) [EdgeDrained] ++
  only (has_db cfg) [PlaneStopped; InvalidationStopped] ++ [BusClosed].

Lemma elem_of_only e b l : e ∈ only b l ↔ b = true ∧ e ∈ l.
Proof. destruct b; simpl; set_solver. Qed.

Lemma halt_undoes n e u :
  e ∈ take n (open_script cfg has_edge has_player) → undoes e = Some u → u ∈ halt n.
Proof.
  intros He Hu. assert (He' : e ∈ open_script cfg has_edge has_player) by (eapply elem_of_take in He as (i & He & _); by eapply list_elem_of_lookup_2).
  unfold halt, open_script in *. cbv zeta. rewrite !elem_of_app, !elem_of_only, !bool_decide_eq_true in *.
  destruct e; simplify_eq/=; set_solver.
Qed.

(** Only what follows the last start is undone by an event of its own. *)
Lemma opened_undone n sink e u :
  e ∈ prep_script cfg mods has_edge has_player sink ++ up cfg mods has_edge has_player (AtOpen n) ++
      down cfg mods has_edge has_player (AtOpen n) →
  undoes e = Some u → e ∈ take n (open_script cfg has_edge has_player).
Proof.
  set (opened := take n (open_script cfg has_edge has_player)). intros He Hu.
  cut (undoes e = None ∨ e ∈ opened); [intros [H|H]; [by rewrite H in Hu|done]|].
  revert He. generalize e. apply Forall_forall. unfold up, down. fold opened. cbv zeta. rewrite !Forall_app.
  split_and!; try apply Forall_only; try apply Forall_migrations; try apply Forall_prep; try apply Forall_map_ev; auto.
  apply Forall_forall. auto.
Qed.

Lemma scripted_halts tr ok l1 m l2 e u :
  scripted tr ok → tr = l1 ++ Stop m :: l2 → e ∈ l1 → undoes e = Some u → u ∈ l1.
Proof.
  intros (sink & [[-> Hp]|(x & Htr & ->)]) E He Hu.
  { exfalso. destruct Hp as [k Hk]. eapply (no_stop (tr ++ k) l1 (l2 ++ k) m); [by rewrite E, <- app_assoc|].
    rewrite <- Hk. by apply Forall_prep. }
  destruct x as [| |k|k|n]; unfold up, down in Htr; cbv zeta in Htr.
  1-3: exfalso; eapply no_stop; [exact E|]; rewrite Htr, !Forall_app; split_and?;
    auto using Forall_migrations, Forall_only; by apply Forall_prep.
  - exfalso. eapply not_undone; [exact E|done|done|]. rewrite Htr, !Forall_app. split_and!;
      auto using Forall_migrations, Forall_only; by (apply Forall_prep || apply Forall_map_ev).
  - set (P := prep_script cfg mods has_edge has_player sink ++ up cfg mods has_edge has_player (AtOpen n) ++ halt n).
    assert (HE : P ++ stops mods (length mods) = l1 ++ Stop m :: l2).
    { rewrite <- E, Htr. unfold P, up, halt. cbv zeta. by rewrite <- !app_assoc. }
    apply split_after in HE as [k ->].
    + rewrite elem_of_app. left. unfold P. rewrite !elem_of_app. right. right. eapply halt_undoes; [|done].
      eapply (opened_undone _ sink); [|done].
      unfold up, down. cbv zeta. rewrite <- Htr, E. apply elem_of_app. by left.
    + unfold P. rewrite !Forall_app. split_and!; [by apply Forall_prep|apply up_not_stopped|].
      unfold halt. cbv zeta. rewrite !Forall_app. split_and!; auto using Forall_only.
Qed.
End Boots.

(** However a boot ends short of a panic, its trace is the startup script up to
    where it failed and then the teardown for that point: a failed preparation has
    started nothing and undoes nothing; after it, the planes and the bus are closed in
    order, a failed module start has stopped the started modules last first, and a
    fully started process drains its listeners, halts delivery, and stops its modules
    last.  The boot reports success exactly when it served to the end. *)
Theorem boot_script parse_f64 env cfg mods has_edge has_player s' r :
  Forall (fun m => m_stop m ≠ StopPanicked) mods →
  run parse_f64 env cfg mods has_edge has_player boot0 = (s', r) → calm r →
  ∃ sink,
    (is_ok r = false ∧ trace s' `prefix_of` prep_script cfg mods has_edge has_player sink) ∨
    (∃ x, trace s' = prep_script cfg mods has_edge has_player sink ++ up cfg mods has_edge has_player x ++
                     down cfg mods has_edge has_player x ∧
          is_ok r = complete cfg has_edge has_player x).
Proof. apply run_scripted. Qed.

(** C37: the modules stopped are exactly the modules started, once each and last
    first, whatever step of the boot failed; and when a module stops, every plane that
    was started and every listener that was opened before has been halted. *)
Theorem boot_unwinds parse_f64 env cfg mods has_edge has_player s' r :
  Forall (fun m => m_stop m ≠ StopPanicked) mods →
  run parse_f64 env cfg mods has_edge has_player boot0 = (s', r) → calm r →
  omap stopped_of (trace s') = rev (omap started_of (trace s')) ∧
  ∀ l1 m l2 e u, trace s' = l1 ++ Stop m :: l2 → e ∈ l1 → undoes e = Some u → u ∈ l1.
Proof.
  intros Hm E Hc. assert (H := run_scripted _ _ _ _ _ _ _ _ Hm E Hc). split; [by eapply scripted_stops|].
  intros. by eapply scripted_halts.
Qed.

(** ** The front door's limiter *)

Lemma parse_digits_nonneg max acc l n : 0 ≤ acc → parse_digits max acc l = Ok n → 0 ≤ n.
Proof.
  revert acc. induction l as [|c l IH]; simpl; intros acc Ha; [congruence|].
  destruct (digit c) as [d|] eqn:Ed; [|done]. destruct (_ <=? _); [|done]. apply IH.
  unfold digit in Ed. case_bool_decide; simplify_eq. lia.
Qed.

Lemma parse_max_nonneg max s n : parse_max max s = Some n → 0 ≤ n.
Proof.
  unfold parse_max, parse_unsigned. intros H. destruct (to_bytes s) as [|c l]; [done|].
  assert (∀ l, result_ok (parse_digits max 0 l) = Some n → 0 ≤ n) as Hd.
  { intros k. destruct (parse_digits max 0 k) eqn:E; [|done]. intros [= ->]. by eapply parse_digits_nonneg. }
  case_bool_decide; [destruct l; [done|]|]; by eapply Hd.
Qed.

Lemma Qle_bool_pos q : Qle_bool q 0 = false → (0 < q)%Q.
Proof. intros H. apply Qnot_le_lt. intros Hle. apply Qle_bool_iff in Hle. congruence. Qed.

(** A front door that asks for a limiter always gets one: with a positive
    built-in rate and burst, whatever the environment holds, the settings it runs
    with have a positive rate and a positive burst, or the boot fails. *)
Theorem front_limiter_on parse_f64 rps burst (rps0 r : Q) (b0 b : Z) :
  (0 < rps0)%Q → 0 < b0 →
  env_rate_pair parse_f64 rps burst rps0 b0 Reject = Ok (r, b) → (0 < r)%Q ∧ 0 < b.
Proof.
  intros Hr Hb. unfold env_rate_pair. set (q := env_rate _ _ _ _). set (n := default _ _). cbv zeta. cbn [bool_decide].
  assert (Hq : (0 < q)%Q).
  { unfold q, env_rate, resolve_rate, parse_rate. destruct (nonblank rps) as [t|]; [|done].
    destruct (parse_f64 t) as [[|x]|]; [done| |done]. destruct (Qle_bool 0 x) eqn:E0; simpl; [|done].
    destruct (Qeq_bool x 0) eqn:E1; [done|]. simpl. apply Qle_bool_imp_le in E0. apply Qle_lteq in E0 as [H|H]; [done|].
    symmetry in H. apply Qeq_bool_iff in H. congruence. }
  assert (Hn : 0 ≤ n).
  { unfold n, env_u32. destruct (nonblank burst) as [t|]; simpl; [|lia].
    destruct (parse_max u32_max t) eqn:E; simpl; [by eapply parse_max_nonneg|lia]. }
  destruct (Qle_bool q 0) eqn:E; [apply Qle_bool_iff in E; by apply Qle_not_lt in E|]. simpl.
  destruct (n =? 0) eqn:En; [done|]. intros [= <- <-]. split; [done|lia].
Qed.

(** ** Readiness *)

Lemma report_empty bound (l : list (string * Checked)) (m : gmap string string) :
  foldl (fun m '(name, c) => match failure bound c with Some e => <[name := e]> m | None => m end) m l = ∅ ↔
  m = ∅ ∧ Forall (fun nc => nc.2 = Healthy) l.
Proof.
  revert m. induction l as [|[n c] l IH]; intros m; simpl; [naive_solver|]. rewrite IH, Forall_cons. simpl.
  destruct c; simpl; [naive_solver|split; [intros [[]%insert_non_empty _]|naive_solver]..].
Qed.

(** A process is ready exactly when its database ping and every contributed
    check pass; a check that fails or overruns its bound appears in the report. *)
Theorem ready_iff_healthy bound db checks :
  readyz_response bound db checks = ∅ ↔ (∀ c, db = Some c → c = Healthy) ∧ Forall (fun nc => nc.2 = Healthy) checks.
Proof.
  unfold readyz_response. rewrite report_empty, Forall_app. destruct db; simpl; [rewrite Forall_singleton|]; naive_solver.
Qed.

(** ** Examples *)

Module BootExample.
Definition idle (name : string) (start : result Fault unit) (stop : StopOutcome) : Module :=
  mkModule name [] (mret ()) (mret ()) (Ok ()) start stop.

(** The third module fails to start; stopping the second fails as well. *)
Definition mods : list Module :=
  [idle "characters" (Ok ()) Stopped; idle "inventory" (Ok ()) StopFailed; idle "match" (Err (Failed "bad setting")) Stopped].

(** Every module starts, the player front cannot listen. *)
Definition good_mods : list Module := [idle "characters" (Ok ()) Stopped; idle "inventory" (Ok ()) StopTimedOut].

Definition env (player : result Fault unit) : BootEnv :=
  mkBootEnv (Ok ()) (Ok ()) (Ok ()) (fun _ => Ok ()) (fun _ => Ok ()) (Ok ()) (Ok ()) (Ok ()) (Ok ()) (Ok ()) (Ok ())
    (Ok ()) player (fun _ => None) (Ok ()) (Ok ()).

Definition cfg : Config := from_values None None None None None None None None None None.

Definition parse_f64 (s : string) : option Float :=
  if bool_decide (s = "0") then Some (Finite 0) else if bool_decide (s = "7.5") then Some (Finite (15 # 2)) else None.

Definition bad_start : BState * result Fault unit := run parse_f64 (env (Ok ())) cfg mods true true boot0.
Definition bad_player : BState * result Fault unit := run parse_f64 (env (Err (Failed "in use"))) cfg good_mods true true boot0.
End BootExample.

(** Witness for [boot_script]: the started modules are stopped before the planes. *)
Lemma boot_script_witness :
  is_ok BootExample.bad_start.2 = false ∧
  ∃ sink x, trace BootExample.bad_start.1 =
    prep_script BootExample.cfg BootExample.mods true true sink ++ up BootExample.cfg BootExample.mods true true x ++
    down BootExample.cfg BootExample.mods true true x.
Proof.
  split; [by vm_compute|].
  destruct (boot_script BootExample.parse_f64 (BootExample.env (Ok ())) BootExample.cfg BootExample.mods true true
              BootExample.bad_start.1 BootExample.bad_start.2) as (sink & [[_ H]|(x & H & _)]).
  - repeat constructor; discriminate.
  - vm_compute. reflexivity.
  - by vm_compute.
  - exfalso. destruct H as [k H]. assert (Hl := f_equal (fun l => bool_decide (BusClosed ∈ l)) H).
    revert Hl. destruct sink; rewrite (bool_decide_eq_true_2 (BusClosed ∈ _ ++ _)).
    all: try (intros Hl; vm_compute in Hl; discriminate).
    all: apply elem_of_app; left; apply (bool_decide_unpack _); by vm_compute.
  - exists sink, x. exact H.
Defined.

(** Witness for [boot_unwinds]: the listener that came up is drained, delivery halts,
    and both modules are stopped, last first. *)
Lemma boot_unwinds_witness :
  omap started_of (trace BootExample.bad_player.1) = ["characters"; "inventory"] ∧
  omap stopped_of (trace BootExample.bad_player.1) = rev ["characters"; "inventory"].
Proof.
  split; [by vm_compute|].
  exact (proj1 (boot_unwinds BootExample.parse_f64 (BootExample.env (Err (Failed "in use"))) BootExample.cfg BootExample.good_mods
    true true BootExample.bad_player.1 BootExample.bad_player.2 ltac:(repeat constructor; discriminate)
    ltac:(vm_compute; reflexivity) I)).
Defined.

(** Witness for [front_limiter_on]: a zero rate is refused and the default applies. *)
Lemma front_limiter_on_witness :
  env_rate_pair BootExample.parse_f64 (Some "0") (Some " 9 ") 20 40 Reject = Ok (20%Q, 9) ∧ (0 < 20)%Q ∧ 0 < 9.
Proof.
  split; [by vm_compute|].
  apply (front_limiter_on BootExample.parse_f64 (Some "0") (Some " 9 ") 20 20 40 9); [reflexivity|lia|by vm_compute].
Defined.
