(* ===== verification/WiringContract.v ===== *)
(** * WiringContract: when modules wire up, whatever their order

    Modules reach each other only through the registry, the slots and the router.
    Here a module is what it tells them in its two phases, and a build succeeds
    exactly when every key is provided once, every requirement is provided at its
    type by some module, every slot has one type and every path one owner: conditions
    that do not depend on the order in which modules were added. *)

From S2P Require Import Prelude Text Wiring Boot.

(** What a module asks of the context while it registers and initialises. *)
Inductive Act :=
  | Provide (name : string) (svc : Erased)
  | Contribute (slot ty : string) (v : nat)
  | Mount (path : string)
  | Require (name ty : string)
  | TryRequire (name ty : string).

Definition perform (a : Act) : ST Context Fault unit :=
  match a with
  | Provide n svc => in_registry (provide n svc)
  | Contribute slot ty v => in_slots (contribute slot ty v)
  | Mount p => mount [p]
  | Require n ty => in_registry (require n ty);; mret ()
  | TryRequire n ty => in_registry (try_require n ty);; mret ()
  end.

Fixpoint perform_all (l : list Act) : ST Context Fault unit :=
  match l with [] => mret () | a :: l => perform a;; perform_all l end.

(** A module with the acts of its two phases; registration takes nothing from the
    registry, initialisation provides nothing to it. *)
Record Wired := mkWired { w_name : string; w_register : list Act; w_init : list Act }.

Definition registers (a : Act) : bool := match a with Require _ _ | TryRequire _ _ => false | _ => true end.
Definition initialises (a : Act) : bool := match a with Provide _ _ => false | _ => true end.

Definition two_phase (w : Wired) : Prop := forallb registers (w_register w) ∧ forallb initialises (w_init w).

Definition as_module (w : Wired) : Module :=
  mkModule (w_name w) [] (perform_all (w_register w)) (perform_all (w_init w)) (Ok ()) (Ok ()) Stopped.

(** ** What the acts say *)

Definition provided (l : list Act) : list (string * Erased) :=
  omap (fun a => match a with Provide n svc => Some (n, svc) | _ => None end) l.
Definition slot_types (l : list Act) : list (string * string) :=
  omap (fun a => match a with Contribute slot ty _ => Some (slot, ty) | _ => None end) l.
Definition mounted (l : list Act) : list string :=
  omap (fun a => match a with Mount p => Some p | _ => None end) l.

(** Some act provides the key at the type. *)
Definition satisfied (p : list (string * Erased)) (a : Act) : Prop :=
  match a with Require n ty => ∃ svc, (n, svc) ∈ p ∧ type_name svc = ty | _ => True end.

(** No slot is used at two types. *)
Definition one_type (t : list (string * string)) : Prop := ∀ s a b, (s, a) ∈ t → (s, b) ∈ t → a = b.

(** Every module's acts of both phases fit together. *)
Definition fits (l : list Wired) : Prop :=
  let acts := flat_map w_register l ++ flat_map w_init l in
  NoDup (provided acts).*1 ∧ one_type (slot_types acts) ∧ NoDup (mounted acts) ∧ Forall (satisfied (provided acts)) acts.

(** ** The context after some acts *)

Record tells (acts : list Act) (c : Context) : Prop := {
  tells_services n svc : services (registry c) !! n = Some svc ↔ (n, svc) ∈ provided acts;
  tells_slots s ty : slot_type <$> slots c !! s = Some ty → (s, ty) ∈ slot_types acts;
  tells_slotted s ty : (s, ty) ∈ slot_types acts → slot_type <$> slots c !! s = Some ty;
  tells_routes : routes c = mounted acts;
  tells_distinct : NoDup (provided acts).*1;
  tells_paths : NoDup (mounted acts);
}.

Lemma tells_new : tells [] new_context.
Proof. split; simpl; try done; try (intros; split; [done|intros ?%elem_of_nil; done]); try constructor. intros ? ? []%elem_of_nil. Qed.

(** When an act goes through after others. *)
Definition goes (acts : list Act) (a : Act) : Prop :=
  match a with
  | Provide n _ => n ∉ (provided acts).*1
  | Contribute s ty _ => ∀ ty', (s, ty') ∈ slot_types acts → ty' = ty
  | Mount p => p ∉ mounted acts
  | Require _ _ => satisfied (provided acts) a
  | TryRequire _ _ => True
  end.

Lemma provided_app a b : provided (a ++ b) = provided a ++ provided b.
Proof. apply omap_app. Qed.
Lemma slot_types_app a b : slot_types (a ++ b) = slot_types a ++ slot_types b.
Proof. apply omap_app. Qed.
Lemma mounted_app a b : mounted (a ++ b) = mounted a ++ mounted b.
Proof. apply omap_app. Qed.

Definition acted (acts : list Act) (a : Act) (c : Context) : Prop :=
  ∃ c' r, perform a c = (c', r) ∧ (goes acts a ↔ is_ok r = true) ∧ (is_ok r = true → tells (acts ++ [a]) c').

Lemma tells_same acts a c c' :
  tells acts c → services (registry c') = services (registry c) → slots c' = slots c → routes c' = routes c →
  provided [a] = [] → slot_types [a] = [] → mounted [a] = [] → tells (acts ++ [a]) c'.
Proof.
  intros [] Hs Hl Hr Hp Ht Hm. split; rewrite ?provided_app, ?slot_types_app, ?mounted_app, ?Hp, ?Ht, ?Hm, ?app_nil_r, ?Hs, ?Hl, ?Hr; auto.
Qed.

Lemma provide_acted acts n svc c : tells acts c → acted acts (Provide n svc) c.
Proof.
  intros H. unfold acted. simpl. unfold in_registry, provide. destruct (services (registry c) !! n) as [old|] eqn:E.
  - eexists _, _. split; [done|]. simpl. split; [|done]. split; [|done]. intros Hn. exfalso. apply Hn.
    apply list_elem_of_fmap. exists (n, old). split; [done|]. by apply (tells_services acts c H).
  - assert (Hn : n ∉ (provided acts).*1).
    { intros ([n' s] & -> & Hi)%list_elem_of_fmap. apply (tells_services acts c H) in Hi. simpl in *. congruence. }
    eexists _, _. split; [done|]. simpl. split; [done|]. intros _. destruct H.
    split; rewrite ?provided_app, ?slot_types_app, ?mounted_app, ?app_nil_r; simpl; rewrite ?app_nil_r; auto.
    + intros n' s. rewrite elem_of_app, list_elem_of_singleton, <- tells_services0, lookup_insert_Some. split; [naive_solver|].
      intros [Hs|[= -> ->]]; [|by left]. right. split; [intros ->; congruence|done].
    + rewrite fmap_app. apply NoDup_app. split_and!; [done| |apply NoDup_singleton]. set_solver.
Qed.

Lemma tells_contribute acts s ty v c vs :
  tells acts c → (∀ ty', slot_type <$> slots c !! s = Some ty' → ty' = ty) →
  tells (acts ++ [Contribute s ty v]) (mkContext (registry c) (<[s := mkSlotBucket ty vs]> (slots c)) (routes c) (sink_handle c)).
Proof.
  intros [] Hty. split; cbn [registry slots routes]; rewrite ?provided_app, ?slot_types_app, ?mounted_app;
    cbn [provided slot_types mounted omap list_omap]; rewrite ?app_nil_r; auto.
  - intros s' ty'. rewrite elem_of_app, list_elem_of_singleton. destruct (decide (s' = s)) as [->|Hs].
    + rewrite lookup_insert_eq. simpl. intros [= <-]. by right.
    + rewrite lookup_insert_ne by done. auto.
  - intros s' ty'. rewrite elem_of_app, list_elem_of_singleton. destruct (decide (s' = s)) as [->|Hs].
    + rewrite lookup_insert_eq. simpl. intros [Hi%tells_slotted0%Hty|[= <-]]; congruence.
    + rewrite lookup_insert_ne by done. intros [Hi|[=]]; [by apply tells_slotted0|done].
Qed.

Lemma contribute_acted acts s ty v c : tells acts c → acted acts (Contribute s ty v) c.
Proof.
  intros H. unfold acted, perform, in_slots, contribute, slot_conflict.
  assert (Hg : goes acts (Contribute s ty v) ↔ ∀ ty', slot_type <$> slots c !! s = Some ty' → ty' = ty).
  { simpl. split; intros Hi ty' Ht; apply Hi; [by apply (tells_slots acts c H)|by apply (tells_slotted acts c H)]. }
  destruct (slots c !! s) as [b|] eqn:E; [destruct (bool_decide (slot_type b = ty)) eqn:Ht|]; cbn [negb];
    eexists _, _; (split; [reflexivity|]); simpl in Hg |- *.
  - apply bool_decide_eq_true in Ht. split; [naive_solver|]. intros _. apply tells_contribute; [done|]. rewrite E. naive_solver.
  - apply bool_decide_eq_false in Ht. split; [naive_solver|done].
  - split; [naive_solver|]. intros _. apply tells_contribute; [done|]. by rewrite E.
Qed.

Lemma mount_acted acts p c : tells acts c → acted acts (Mount p) c.
Proof.
  intros H. unfold acted. simpl. unfold mount. rewrite (tells_routes acts c H).
  assert (Hg : p ∉ mounted acts ↔ NoDup (mounted acts ++ [p])).
  { rewrite NoDup_app. split; [intros; split_and!; [apply (tells_paths acts c H)|set_solver|apply NoDup_singleton]|set_solver]. }
  case_bool_decide as Hn; (eexists _, _; split; [reflexivity|]); simpl; rewrite Hg; (split; [naive_solver|]); [|done].
  intros _. destruct H. split; cbn [registry slots routes]; rewrite ?provided_app, ?slot_types_app, ?mounted_app;
    cbn [provided slot_types mounted omap list_omap]; rewrite ?app_nil_r; auto.
Qed.

Lemma require_acted acts n ty c : tells acts c → acted acts (Require n ty) c.
Proof.
  intros H. unfold acted, perform, mbind, ST_bind, in_registry, require, notify_observer. cbn [services].
  assert (Hg : goes acts (Require n ty) ↔ ∃ svc, services (registry c) !! n = Some svc ∧ type_name svc = ty).
  { simpl. by setoid_rewrite (tells_services acts c H). }
  destruct (services (registry c) !! n) as [svc|] eqn:E; [case_bool_decide as Ht|]; eexists _, _; (split; [reflexivity|]);
    rewrite Hg; (split; [naive_solver|]); try done.
  intros _. by eapply tells_same.
Qed.

Lemma try_require_acted acts n ty c : tells acts c → acted acts (TryRequire n ty) c.
Proof. intros H. eexists _, _. split; [reflexivity|]. split; [done|]. intros _. by eapply tells_same. Qed.

Lemma act_acted acts a c : tells acts c → acted acts a c.
Proof. destruct a; [apply provide_acted|apply contribute_acted|apply mount_acted|apply require_acted|apply try_require_acted]. Qed.

(** Each act goes through after the ones before it. *)
Fixpoint all_go (acts l : list Act) : Prop :=
  match l with [] => True | a :: l => goes acts a ∧ all_go (acts ++ [a]) l end.

Lemma perform_all_goes acts l c :
  tells acts c →
  ∃ c' r, perform_all l c = (c', r) ∧ (all_go acts l ↔ is_ok r = true) ∧ (is_ok r = true → tells (acts ++ l) c').
Proof.
  revert acts c. induction l as [|a l IH]; intros acts c H.
  - exists c, (Ok ()). split_and!; [done|done|]. by rewrite app_nil_r.
  - destruct (act_acted acts a c H) as (c1 & r & E & Hg & Ht). destruct r as [[]|e].
    + destruct (IH (acts ++ [a]) c1) as (c2 & r2 & E2 & Hg2 & Ht2); [by apply Ht|].
      exists c2, r2. simpl. rewrite (st_bind_run _ _ _ _ _ E). split; [done|]. rewrite <- app_assoc in Ht2. naive_solver.
    + exists c1, (Err e). simpl. rewrite (st_bind_stop _ _ _ _ _ E). naive_solver.
Qed.

Lemma all_go_app acts a b : all_go acts (a ++ b) ↔ all_go acts a ∧ all_go (acts ++ a) b.
Proof.
  revert acts. induction a as [|x a IH]; intros acts; simpl.
  - rewrite app_nil_r. naive_solver.
  - rewrite IH, <- app_assoc. simpl. naive_solver.
Qed.

(** The requirements met by what came before them. *)
Fixpoint requires_met (acts l : list Act) : Prop :=
  match l with [] => True | a :: l => satisfied (provided acts) a ∧ requires_met (acts ++ [a]) l end.

(** The acts are compatible with each other, requirements apart. *)
Definition compatible (acts : list Act) : Prop :=
  NoDup (provided acts).*1 ∧ one_type (slot_types acts) ∧ NoDup (mounted acts).

Lemma compatible_prefix a b : compatible (a ++ b) → compatible a.
Proof.
  unfold compatible, one_type. rewrite provided_app, slot_types_app, mounted_app, fmap_app, !NoDup_app.
  setoid_rewrite elem_of_app. naive_solver.
Qed.

Lemma compatible_snoc acts a :
  compatible acts → (goes acts a ↔ compatible (acts ++ [a]) ∧ satisfied (provided acts) a).
Proof.
  intros (Hp & Ht & Hm). unfold compatible. rewrite provided_app, slot_types_app, mounted_app, fmap_app, !NoDup_app.
  destruct a as [n svc|s ty v|p|n ty|n ty]; simpl; rewrite ?app_nil_r; try (pose proof (NoDup_nil_2 (A := string)); set_solver).
  - pose proof (NoDup_singleton n). pose proof (NoDup_nil_2 (A := string)). set_solver.
  - assert ((∀ ty', (s, ty') ∈ slot_types acts → ty' = ty) ↔ one_type (slot_types acts ++ [(s, ty)])) as ->;
      [|pose proof (NoDup_nil_2 (A := string)); set_solver].
    unfold one_type in *. setoid_rewrite elem_of_app. setoid_rewrite list_elem_of_singleton. split; [naive_solver|].
    intros H ty' Hi. by eapply H; [left|right].
  - pose proof (NoDup_singleton p). pose proof (NoDup_nil_2 (A := string)). set_solver.
Qed.

Lemma all_go_compatible acts l :
  compatible acts → (all_go acts l ↔ compatible (acts ++ l) ∧ requires_met acts l).
Proof.
  revert acts. induction l as [|a l IH]; intros acts H; simpl.
  - rewrite app_nil_r. naive_solver.
  - rewrite (compatible_snoc acts a H). change (a :: l) with ([a] ++ l). rewrite app_assoc.
    split.
    + intros [[H1 H2] H3%IH]; [naive_solver|done].
    + intros (Hc & Hs & Hr). assert (compatible (acts ++ [a])) by by eapply compatible_prefix. rewrite IH; naive_solver.
Qed.

Lemma requires_met_app acts a b : requires_met acts (a ++ b) ↔ requires_met acts a ∧ requires_met (acts ++ a) b.
Proof.
  revert acts. induction a as [|x a IH]; intros acts; simpl.
  - rewrite app_nil_r. naive_solver.
  - rewrite IH, <- app_assoc. simpl. naive_solver.
Qed.

Lemma registers_met acts l P : forallb registers l → requires_met acts l ∧ Forall (satisfied P) l.
Proof.
  revert acts. induction l as [|a l IH]; intros acts; [done|]. simpl. intros [Ha Hl]%andb_prop_elim.
  destruct (IH (acts ++ [a]) Hl). split; [|constructor; [|done]]; destruct a; naive_solver.
Qed.

Lemma initialises_provided l : forallb initialises l → provided l = [].
Proof. induction l as [|a l IH]; [done|]. simpl. intros [Ha Hl]%andb_prop_elim. destruct a; simpl; [done|by apply IH..]. Qed.

Lemma initialises_met acts l : forallb initialises l → (requires_met acts l ↔ Forall (satisfied (provided acts)) l).
Proof.
  revert acts. induction l as [|a l IH]; intros acts; [done|]. simpl. intros [Ha Hl]%andb_prop_elim.
  rewrite Forall_cons, (IH _ Hl), provided_app, (initialises_provided [a]), app_nil_r; [done|]. simpl. by rewrite andb_true_r.
Qed.

Lemma two_phase_goes R I :
  forallb registers R → forallb initialises I →
  (all_go [] (R ++ I) ↔ compatible (R ++ I) ∧ Forall (satisfied (provided (R ++ I))) (R ++ I)).
Proof.
  intros HR HI. rewrite all_go_compatible; [|by split_and!; try constructor; intros ? ? ? ?%elem_of_nil].
  assert (HP : provided (R ++ I) = provided R) by by rewrite provided_app, (initialises_provided I HI), app_nil_r.
  rewrite HP. simpl. rewrite requires_met_app, (initialises_met _ I HI), Forall_app. simpl.
  pose proof (registers_met [] R (provided R) HR). naive_solver.
Qed.

(** ** The build *)

(** One phase of the build is its modules' acts in order. *)
Lemma phase_goes (what : string) (acts : Wired → list Act) (ph : Module → ST Context Fault unit) (e : Module → Ev) before l s :
  (∀ w, ph (as_module w) = perform_all (acts w)) → tells before (ctx s) →
  ∃ s' r,
    for_each (map as_module l) (fun m => st_map_err (in_context (what +:+ m_name m)) (with_ctx (ph m));; emit (e m)) s = (s', r) ∧
    (all_go before (flat_map acts l) ↔ is_ok r = true) ∧ (is_ok r = true → tells (before ++ flat_map acts l) (ctx s')).
Proof.
  intros Hph. revert before s. induction l as [|w l IH]; intros before s Hs.
  { eexists _, _. split; [done|]. by rewrite app_nil_r. }
  destruct (perform_all_goes before (acts w) (ctx s) Hs) as (c & r & E & Hg & Ht).
  set (s1 := mkBState c (trace s) (running_edge s) (running_player s) (modules_started s)).
  assert (Ew : with_ctx (ph (as_module w)) s = (s1, r)) by (unfold with_ctx; by rewrite Hph, E).
  simpl. setoid_rewrite all_go_app. destruct r as [[]|f].
  - destruct (IH (before ++ acts w) (emit (e (as_module w)) s1).1) as (s2 & r2 & E2 & Hg2 & Ht2); [by apply Ht|].
    exists s2, r2. split; [|rewrite <- app_assoc in Ht2; naive_solver].
    rewrite (st_bind_run _ _ s (emit (e (as_module w)) s1).1 ()); [exact E2|].
    rewrite (st_bind_run _ _ s s1 ()); [done|]. by apply st_map_err_run.
  - exists s1, (Err (in_context (what +:+ w_name w) f)). split; [|naive_solver].
    unfold mbind, ST_bind, st_map_err at 1. by rewrite Ew.
Qed.

(** A build of modules that register before they look things up succeeds exactly
    when every key is provided once, every requirement is provided by some module at
    its type, no slot is used at two types and no path is mounted twice - whichever
    order the modules were added in. *)
Theorem build_succeeds_iff l :
  Forall two_phase l → is_ok (build (map as_module l) boot0).2 = true ↔ fits l.
Proof.
  intros Hl. set (R := flat_map w_register l). set (I := flat_map w_init l).
  assert (HR : forallb registers R ∧ forallb initialises I).
  { unfold R, I. clear -Hl. induction Hl as [|w l [Ha Hb] _ [IHa IHb]]; [done|]. simpl.
    rewrite !forallb_app. split; apply andb_prop_intro; auto. }
  destruct (phase_goes "register " w_register m_register (fun m => Registered (m_name m)) [] l boot0) as (s1 & r1 & E1 & Hg1 & Ht1);
    [done|apply tells_new|].
  transitivity (all_go [] (R ++ I)); [|rewrite (two_phase_goes R I) by apply HR; unfold fits, compatible; naive_solver].
  rewrite all_go_app. fold R in Hg1, Ht1. unfold build. destruct r1 as [[]|f].
  - destruct (phase_goes "init " w_init m_init (fun m => Inited (m_name m)) R l s1) as (s2 & r2 & E2 & Hg2 & Ht2);
      [done|by apply Ht1|].
    rewrite (st_bind_run _ _ _ _ _ E1), E2. simpl. fold I in Hg2. naive_solver.
  - rewrite (st_bind_stop _ _ _ _ _ E1). simpl. naive_solver.
Qed.

(** ** An example: the module that needs a service is added before its provider *)

Module WiringExample.
Definition inventory : Wired :=
  mkWired "inventory" [Mount "/inventory"] [Require "characters.ownership" "Ownership"; Contribute "admin.items" "AdminItem" 1].
Definition characters : Wired :=
  mkWired "characters" [Provide "characters.ownership" (mkErased "Ownership" 7)] [Contribute "admin.items" "AdminItem" 2].
Definition wired : list Wired := [inventory; characters].
End WiringExample.

(** Witness for [build_succeeds_iff]. *)
Lemma build_succeeds_iff_witness :
  is_ok (build (map as_module WiringExample.wired) boot0).2 = true ∧ fits WiringExample.wired.
Proof.
  split; [by vm_compute|]. apply (build_succeeds_iff WiringExample.wired); [|by vm_compute].
  repeat constructor.
Defined.
