(* ===== verification/Groups.v ===== *)
(** * Groups: social groups, of [modules/groups/src]

    One row per group and one per membership, with three states and two roles.  The
    statements of [store.rs], the operations of [service.rs], the operator's promotion
    of [admin.rs], and the retention prune and the purge of [projection.rs].  Every
    decision about a roster is read under the group's advisory lock; the prune takes
    no lock, so a running operation sees its statements one by one, with what other
    transactions committed in between ([meanwhile]), given the locks it holds. *)

From Stdlib Require Import Ascii.
From stdpp Require Import sorting pretty.
From S2P Require Import Prelude Text OpsApi Pg Purge Prune Directory Txn.
From S2P Require Storage.
#[local] Open Scope Z_scope.

Definition MAX_NAME_BYTES : nat := 64.
Definition MAX_CURSOR_BYTES : nat := 256.
Definition MAX_PAGE_LIMIT : Z := 100.
Definition DEFAULT_PAGE_LIMIT : Z := 50.
Definition MAX_MEMBERS : Z := 500.
Definition STATE_MEMBER : string := "member".
Definition STATE_INVITED : string := "invited".
Definition STATE_REQUESTED : string := "requested".
Definition ROLE_ADMIN : string := "admin".
Definition ROLE_MEMBER : string := "member".
Definition JOIN_OPEN : string := "open".
Definition JOIN_REQUEST : string := "request".
Definition JOIN_INVITE : string := "invite".

Definition REASON_LEFT : string := "left".
Definition REASON_KICKED : string := "kicked".
Definition REASON_DECLINED : string := "declined".
Definition REASON_EXPIRED : string := "expired".
Definition REASON_ACCOUNT_DELETED : string := "account-deleted".
Definition REASON_GROUP_DISSOLVED : string := "group-dissolved".
Definition ACTOR_OPERATOR : string := "operator".

Definition NOT_FOUND : string := "group not found".
Definition NO_SUCH_PLAYER : string := "no player with that handle".
Definition MALFORMED_CURSOR : string := "cursor is malformed".
Definition PLAYER_DELETED : string := "this account has been deleted".
Definition DECISION_ACCEPT : string := "accept".
Definition DECISION_REJECT : string := "reject".
Definition ANY_ROLE : string := "".

(** ** The tables and the events *)

Record Group := mkGroup { g_name : string; join_policy : string; creator_id : string; g_created_at : Z }.

Record Membership := mkMembership { state : string; role : string; created_at : Z }.

#[global] Instance Group_eq_dec : EqDecision Group.
Proof. solve_decision. Defined.
#[global] Instance Membership_eq_dec : EqDecision Membership.
Proof. solve_decision. Defined.

Inductive GroupEvent :=
| Created (group name creator policy : string)
| MemberJoined (group player role : string)
| MemberLeft (group player actor reason : string)
| RoleChanged (group player role actor_kind actor : string).

Record GroupsDb := mkGroups {
  groups : gmap string Group;
  memberships : gmap (string * string) Membership;
  purged_players : Tombs;
  appended : list GroupEvent;
}.

Definition empty_groups : GroupsDb := mkGroups ∅ ∅ ∅ [].
Definition set_groups (g : gmap string Group) (d : GroupsDb) : GroupsDb := mkGroups g (memberships d) (purged_players d) (appended d).
Definition set_memberships (m : gmap (string * string) Membership) (d : GroupsDb) : GroupsDb :=
  mkGroups (groups d) m (purged_players d) (appended d).
Definition set_tombs (t : Tombs) (d : GroupsDb) : GroupsDb := mkGroups (groups d) (memberships d) t (appended d).
Definition add_events (l : list GroupEvent) (d : GroupsDb) : GroupsDb :=
  mkGroups (groups d) (memberships d) (purged_players d) (appended d ++ l).

(** [Bus::emit_tx]: the event commits with the transaction. *)
Definition emit_tx {E} (e : GroupEvent) : ST GroupsDb E unit := modify (add_events [e]).

(** ** Checks of the service *)

Definition write_error (e : SqlError) : Error :=
  match e with
  | InvalidTextRepresentation => mkError Invalid "player identity is not a valid uuid"
  | _ => internal_error
  end.

Definition wire_state (db_state : string) : result Error string :=
  if bool_decide (db_state = STATE_MEMBER) then Ok STATE_MEMBER
  else if bool_decide (db_state = STATE_INVITED) then Ok STATE_INVITED
  else if bool_decide (db_state = STATE_REQUESTED) then Ok STATE_REQUESTED
  else Err internal_error.

Definition validate_policy (policy : string) : result Error string :=
  if bool_decide (policy = JOIN_OPEN) then Ok JOIN_OPEN
  else if bool_decide (policy = JOIN_REQUEST) then Ok JOIN_REQUEST
  else if bool_decide (policy = JOIN_INVITE) then Ok JOIN_INVITE
  else Err (mkError Invalid "join_policy must be one of open, request, invite").

Definition validate_decision (decision : string) : result Error string :=
  if bool_decide (decision = DECISION_ACCEPT) then Ok DECISION_ACCEPT
  else if bool_decide (decision = DECISION_REJECT) then Ok DECISION_REJECT
  else Err (mkError Invalid "decision must be accept or reject").

Definition validate_name (name : string) : result Error unit :=
  if bool_decide (MAX_NAME_BYTES < String.length name)%nat then Err (mkError Invalid "name exceeds 64 bytes") else Ok ().

Definition resolve_limit (limit : Z) : result Error Z :=
  if limit <? 0 then Err (mkError Invalid "limit must not be negative")
  else if limit =? 0 then Ok DEFAULT_PAGE_LIMIT else Ok (Z.min limit MAX_PAGE_LIMIT).

Definition caller (ident : Identity) : result Error string :=
  ok_or (player_id ident) (mkError Invalid "missing player identity").

Record MemberSummary := mkMemberSummary {
  ms_player_id : string; ms_handle : string; ms_state : string; ms_role : string; ms_joined_at : Z;
}.

Record GroupSummary := mkGroupSummary {
  gs_id : string; gs_name : string; gs_join_policy : string; gs_created_at : Z; gs_my_state : string; gs_my_role : string;
}.

(** ** Statements ([store.rs]) *)

Section Store.
Context `{PgUuid}.

Abbreviation Sql := (ST GroupsDb SqlError).

Definition group_lock_key (group_id : string) : Z := lock_key "groups.group/" group_id.

(** Folds "not a uuid" into "no such row". *)
Definition or_missing {A} (m : Sql (option A)) : Sql (option A) := fun d =>
  match m d with
  | (_, Err InvalidTextRepresentation) => (d, Ok None)
  | r => r
  end.

Definition is_player_purged_tx (player : string) : Sql bool :=
  bind_text [player];; u ← cast_uuid player; gets (fun d => bool_decide (is_Some (purged_players d !! u))).

Definition plant_purged_player_tx (player handle : string) : Sql unit :=
  bind_text [player; handle];; u ← cast_uuid player;
  modify (fun d => match purged_players d !! u with
                   | Some _ => d
                   | None => set_tombs (<[u := (handle, false)]> (purged_players d)) d
                   end).

(** The rows of a group. *)
Definition rows_of (g : string) (d : GroupsDb) : gmap (string * string) Membership :=
  filter (fun kv => fst (fst kv) = g) (memberships d).

(** The groups a player holds a row in, least first. *)
Definition player_groups_tx (player : string) (limit : nat) : Sql (list string) :=
  bind_text [player];; u ← cast_uuid player;
  gets (fun d => take limit (merge_sort String.le
    ((fun kv => fst (fst kv)) <$> List.filter (fun kv => bool_decide (snd (fst kv) = u)) (map_to_list (memberships d))))).

(** [VISIBLE_ROLE_SQL]: the role and the id as the database spells it. *)
Definition visible_role_tx (group_id player member required_role : string) : Sql (option (string * string)) := or_missing (
  bind_text [group_id; player; member; required_role];; g ← cast_uuid group_id; u ← cast_uuid player;
  m ← gets (fun d => memberships d !! (g, u));
  mret (match m with
        | Some r => if bool_decide (state r = member) && bool_decide (required_role = "" ∨ role r = required_role)
                    then Some (role r, u) else None
        | None => None
        end)).

Definition visible_role (group_id player member required_role : string) : Sql (option string) :=
  r ← visible_role_tx group_id player member required_role; mret (fst <$> r).

Definition join_policy_tx (group_id : string) : Sql (option (string * string)) := or_missing (
  bind_text [group_id];; g ← cast_uuid group_id;
  gets (fun d => (fun r => (join_policy r, g)) <$> groups d !! g)).

Definition group_name_tx (group_id : string) : Sql (option (string * string)) := or_missing (
  bind_text [group_id];; g ← cast_uuid group_id;
  gets (fun d => (fun r => (g_name r, g)) <$> groups d !! g)).

Record GroupCounts := mkCounts { rows : Z; members : Z; admins : Z }.

Definition counts_of (g member admin : string) (d : GroupsDb) : GroupCounts :=
  let rs := rows_of g d in
  mkCounts (Z.of_nat (size rs))
           (Z.of_nat (size (filter (fun kv => state (snd kv) = member) rs)))
           (Z.of_nat (size (filter (fun kv => state (snd kv) = member ∧ role (snd kv) = admin) rs))).

Definition counts_tx (group_id member admin : string) : Sql GroupCounts :=
  bind_text [group_id; member; admin];; g ← cast_uuid group_id; gets (counts_of g member admin).

(** The constraints of [groups.groups] and the fresh id the column default draws. *)
Definition insert_group_tx (now : Z) (fresh name policy creator : string) : Sql (string * string * Z) :=
  bind_text [name; policy; creator];; u ← cast_uuid creator; gs ← gets groups;
  if bool_decide (64 < String.length name)%nat then fail (CheckViolation "groups_name_len_check") else
  if negb (bool_decide (policy = JOIN_OPEN ∨ policy = JOIN_REQUEST ∨ policy = JOIN_INVITE))
  then fail (CheckViolation "groups_join_policy_check") else
  if bool_decide (is_Some (gs !! fresh)) then fail UniqueViolation else
  modify (set_groups (<[fresh := mkGroup name policy u now]> gs));;
  mret (fresh, u, now).

(** The constraints of [groups.memberships]. *)
Definition membership_checks (st ro : string) : Sql unit :=
  if negb (bool_decide (st = STATE_MEMBER ∨ st = STATE_INVITED ∨ st = STATE_REQUESTED))
  then fail (CheckViolation "memberships_state_check") else
  if bool_decide ((st = STATE_MEMBER ↔ ro ≠ "") ∧ (ro = "" ∨ ro = ROLE_ADMIN ∨ ro = ROLE_MEMBER)) then mret ()
  else fail (CheckViolation "memberships_role_check").

Definition insert_membership_tx (now : Z) (group_id player st ro : string) : Sql (option (string * string * Z)) :=
  bind_text [group_id; player; st; ro];; g ← cast_uuid group_id; u ← cast_uuid player;
  membership_checks st ro;;
  ms ← gets memberships;
  match ms !! (g, u) with
  | Some _ => mret None
  | None => modify (set_memberships (<[(g, u) := mkMembership st ro now]> ms));; mret (Some (g, u, now))
  end.

Definition membership_tx (group_id player : string) : Sql (option (string * string * string)) := or_missing (
  bind_text [group_id; player];; g ← cast_uuid group_id; u ← cast_uuid player;
  gets (fun d => (fun r => (state r, role r, u)) <$> memberships d !! (g, u))).

Definition promote_tx (group_id player from_state member ro : string) : Sql (option (string * string)) :=
  bind_text [group_id; player; from_state; member; ro];; g ← cast_uuid group_id; u ← cast_uuid player;
  ms ← gets memberships;
  match ms !! (g, u) with
  | Some r =>
      if bool_decide (state r = from_state) then
        membership_checks member ro;;
        modify (set_memberships (<[(g, u) := mkMembership member ro (created_at r)]> ms));;
        mret (Some (g, u))
      else mret None
  | None => mret None
  end.

Definition delete_membership_tx (group_id player : string) : Sql (option (string * string * string * string)) := or_missing (
  bind_text [group_id; player];; g ← cast_uuid group_id; u ← cast_uuid player;
  ms ← gets memberships;
  match ms !! (g, u) with
  | Some r => modify (set_memberships (delete (g, u) ms));; mret (Some (state r, role r, g, u))
  | None => mret None
  end).

(** The players of a group, in the order the statement returns them. *)
Definition players_of (g : string) (d : GroupsDb) : list string := (fun kv => snd (fst kv)) <$> map_to_list (rows_of g d).

Definition delete_group_tx (group_id : string) : Sql (list string) :=
  bind_text [group_id];; g ← cast_uuid group_id;
  removed ← gets (players_of g);
  modify (fun d => set_memberships (filter (fun kv => fst (fst kv) ≠ g) (memberships d)) d);;
  modify (fun d => set_groups (delete g (groups d)) d);;
  mret removed.

(** ** A running operation *)

(** What a running operation meets: the other transactions and the fate of its
    statements, the uuid a column default draws, and the directory. *)
Record GEnv := mkGEnv {
  world : World GroupsDb;
  fresh : nat → string;
  directory : nat → Directory;
}.

Variable env : GEnv.
Abbreviation M := (ST (Task GroupsDb)).

Definition lock_group_tx {E} (down : E) (group_id : string) : M E unit := locking (world env) down (group_lock_key group_id).

Definition ask_directory {A} (call : Directory → A) : M Error A := away (world env) (fun t => Ok (call (directory env t))).

Definition read {A} (m : Sql A) : M Error A := reading (world env) internal_error (fun _ => internal_error) m.
Definition lock (group_id : string) : M Error unit := lock_group_tx internal_error group_id.
Definition commit {A} (m : nat → ST GroupsDb Error A) : M Error A := committing (world env) internal_error m.
Definition or_internal {A} (m : Sql A) : ST GroupsDb Error A := st_map_err (fun _ => internal_error) m.
Definition not_found {S A} : ST S Error A := fail (mkError NotFound NOT_FOUND).
Definition group_full {S A} : ST S Error A := fail (mkError Conflict ("group is full at " +:+ pretty MAX_MEMBERS +:+ " members")).

(** ** Operations ([service.rs]) *)

Definition require_role (group_id me required_role : string) : M Error string :=
  r ← read (visible_role group_id me STATE_MEMBER required_role);
  lift (ok_or r (mkError NotFound NOT_FOUND)).

Definition my_handle (me : string) : M Error string :=
  r ← ask_directory (fun dir => players_by_id dir [me]);
  summaries ← lift (map_err directory_unavailable r);
  mret (from_option ps_handle "" (summary_of summaries me)).

(** *** [create] *)

Definition create_writes (now : Z) (new_id name policy me : string) : ST GroupsDb Error GroupSummary :=
  r ← st_map_err write_error (insert_group_tx now new_id name policy me);
  let '(group_id, creator, at_) := r in
  joined ← st_map_err write_error (insert_membership_tx now group_id creator STATE_MEMBER ROLE_ADMIN);
  match joined with
  | None => fail internal_error
  | Some _ =>
      emit_tx (Created group_id name creator policy);;
      emit_tx (MemberJoined group_id creator ROLE_ADMIN);;
      mret (mkGroupSummary group_id name policy at_ STATE_MEMBER ROLE_ADMIN)
  end.

Definition create (ident : Identity) (name join_policy : string) : M Error GroupSummary :=
  me ← lift (caller ident);
  lift (validate_name name);;
  policy ← lift (validate_policy join_policy);
  in_tx (
    gone ← read (is_player_purged_tx me);
    if gone : bool then fail (mkError Conflict PLAYER_DELETED) else
    commit (fun t => create_writes (now_at (world env) t) (fresh env t) name policy me)).

(** *** [join] *)

Definition admitted (policy : string) : result Error (string * string) :=
  if bool_decide (policy = JOIN_OPEN) then Ok (STATE_MEMBER, ROLE_MEMBER)
  else if bool_decide (policy = JOIN_REQUEST) then Ok (STATE_REQUESTED, "")
  else if bool_decide (policy = JOIN_INVITE) then Err (mkError Conflict "this group admits members by invitation only")
  else Err internal_error.

Definition join_writes (now : Z) (group_id me st ro handle : string) : ST GroupsDb Error MemberSummary :=
  inserted ← st_map_err write_error (insert_membership_tx now group_id me st ro);
  match inserted with
  | None => fail (mkError Conflict "you already have a relation to this group")
  | Some (g, u, at_) =>
      (if bool_decide (st = STATE_MEMBER) then emit_tx (MemberJoined g u ro) else mret ());;
      mret (mkMemberSummary u handle st ro at_)
  end.

Definition join (ident : Identity) (group_id : string) : M Error MemberSummary :=
  me ← lift (caller ident);
  handle ← my_handle me;
  in_tx (
    lock group_id;;
    gone ← read (is_player_purged_tx me);
    if gone : bool then fail (mkError Conflict PLAYER_DELETED) else
    found ← read (join_policy_tx group_id);
    match found with
    | None => not_found
    | Some (policy, g) =>
        a ← lift (admitted policy);
        counts ← read (counts_tx g STATE_MEMBER ROLE_ADMIN);
        if MAX_MEMBERS <=? rows counts then group_full else
        commit (fun t => join_writes (now_at (world env) t) g me (fst a) (snd a) handle)
    end).

(** *** [leave] *)

Fixpoint emit_all {E} (l : list GroupEvent) : ST GroupsDb E unit :=
  match l with [] => mret () | e :: l' => emit_tx e;; emit_all l' end.

(** One event per row the end of the group removed. *)
Definition dissolved (g : string) (swept : list string) : list GroupEvent :=
  (fun p => MemberLeft g p "" REASON_GROUP_DISSOLVED) <$> swept.

Definition leave_writes (counts : GroupCounts) (group_id me : string) : ST GroupsDb Error unit :=
  deleted ← or_internal (delete_membership_tx group_id me);
  match deleted with
  | None => fail internal_error
  | Some (deleted_state, _, g, u) =>
      st ← lift (wire_state deleted_state);
      swept ← (if bool_decide (st = STATE_MEMBER) && (members counts =? 1) then or_internal (delete_group_tx g) else mret []);
      emit_tx (MemberLeft g u u (if bool_decide (st = STATE_MEMBER) then REASON_LEFT else REASON_DECLINED));;
      emit_all (dissolved g swept)
  end.

Definition leave (ident : Identity) (group_id : string) : M Error unit :=
  me ← lift (caller ident);
  in_tx (
    lock group_id;;
    mine ← read (membership_tx group_id me);
    match mine with
    | None => not_found
    | Some (st, ro, _) =>
        counts ← read (counts_tx group_id STATE_MEMBER ROLE_ADMIN);
        if bool_decide (st = STATE_MEMBER) && bool_decide (ro = ROLE_ADMIN) && (admins counts =? 1) && (1 <? members counts)
        then fail (mkError Conflict "the last admin cannot leave a group that still has members") else
        commit (fun _ => leave_writes counts group_id me)
    end).

(** *** [invite] *)

Definition invite_writes (now : Z) (group_id target : string) : ST GroupsDb Error unit :=
  inserted ← or_internal (insert_membership_tx now group_id target STATE_INVITED "");
  match inserted with
  | None => fail (mkError Conflict "that player already has a relation to this group")
  | Some _ => mret ()
  end.

Definition invite (ident : Identity) (group_id target_handle : string) : M Error unit :=
  me ← lift (caller ident);
  if bool_decide (MAX_HANDLE_BYTES < String.length target_handle)%nat
  then fail (mkError Invalid ("handle exceeds " +:+ pretty (Z.of_nat MAX_HANDLE_BYTES) +:+ " bytes")) else
  require_role group_id me ROLE_ADMIN;;
  r ← ask_directory (fun dir => find_by_handle dir target_handle);
  found ← lift (map_err directory_unavailable r);
  target ← lift (ok_or found (mkError NotFound NO_SUCH_PLAYER));
  in_tx (
    lock group_id;;
    again ← read (visible_role_tx group_id me STATE_MEMBER ROLE_ADMIN);
    match again with
    | None => not_found
    | Some _ =>
        counts ← read (counts_tx group_id STATE_MEMBER ROLE_ADMIN);
        if MAX_MEMBERS <=? rows counts then group_full else
        commit (fun t => invite_writes (now_at (world env) t) group_id (ps_player_id target))
    end).

(** *** [respond] *)

Definition respond_writes (group_id me : string) (accept : bool) : ST GroupsDb Error unit :=
  if accept then
    promoted ← or_internal (promote_tx group_id me STATE_INVITED STATE_MEMBER ROLE_MEMBER);
    match promoted with
    | None => fail internal_error
    | Some (g, u) => emit_tx (MemberJoined g u ROLE_MEMBER)
    end
  else
    deleted ← or_internal (delete_membership_tx group_id me);
    match deleted with
    | None => fail internal_error
    | Some (_, _, g, u) => emit_tx (MemberLeft g u u REASON_DECLINED)
    end.

Definition respond (ident : Identity) (group_id decision : string) : M Error unit :=
  me ← lift (caller ident);
  decision ← lift (validate_decision decision);
  in_tx (
    lock group_id;;
    mine ← read (membership_tx group_id me);
    match mine with
    | Some (st, _, _) =>
        if bool_decide (st = STATE_INVITED)
        then commit (fun _ => respond_writes group_id me (bool_decide (decision = DECISION_ACCEPT)))
        else not_found
    | None => not_found
    end).

(** *** [decide] *)

Definition grant_writes (group_id subject_id : string) : ST GroupsDb Error unit :=
  promoted ← or_internal (promote_tx group_id subject_id STATE_REQUESTED STATE_MEMBER ROLE_MEMBER);
  match promoted with
  | None => fail internal_error
  | Some (g, u) => emit_tx (MemberJoined g u ROLE_MEMBER)
  end.

Definition reject_writes (group_id subject_id actor : string) : ST GroupsDb Error unit :=
  deleted ← or_internal (delete_membership_tx group_id subject_id);
  match deleted with
  | None => fail internal_error
  | Some (deleted_state, _, g, u) =>
      st ← lift (wire_state deleted_state);
      emit_tx (MemberLeft g u actor (if bool_decide (st = STATE_MEMBER) then REASON_KICKED else REASON_DECLINED))
  end.

Definition decide_op (ident : Identity) (group_id subject_id decision : string) : M Error unit :=
  me ← lift (caller ident);
  decision ← lift (validate_decision decision);
  in_tx (
    lock group_id;;
    probe ← read (visible_role_tx group_id me STATE_MEMBER ROLE_ADMIN);
    match probe with
    | None => not_found
    | Some (_, actor) =>
        subject ← read (membership_tx group_id subject_id);
        match subject with
        | None => not_found
        | Some (st, _, canonical) =>
            if bool_decide (canonical = actor) then fail (mkError Conflict "use leave to end your own membership") else
            st ← lift (wire_state st);
            if bool_decide (decision = DECISION_ACCEPT) then
              if bool_decide (st = STATE_REQUESTED) then commit (fun _ => grant_writes group_id subject_id)
              else fail (mkError Conflict (if bool_decide (st = STATE_INVITED)
                                           then "an invitation is the invited player's to accept"
                                           else "that player is already a member"))
            else commit (fun _ => reject_writes group_id subject_id actor)
        end
    end).

(** *** [role_of] *)

Definition role_of (group_id player : string) : M Error string :=
  r ← read (visible_role group_id player STATE_MEMBER ANY_ROLE); mret (default "" r).

(** *** The operator's promotion ([admin.rs]) *)

Inductive Rejection := Rejected (why : string) | Stale | InternalRejection.

Record Promotion := mkPromotion { pm_group_id : string; pm_group_name : string; pm_player_id : string; already_admin : bool }.

Definition promote_writes (group_id name player : string) : ST GroupsDb Rejection Promotion :=
  updated ← st_map_err (fun _ => InternalRejection) (promote_tx group_id player STATE_MEMBER STATE_MEMBER ROLE_ADMIN);
  match updated with
  | None => fail Stale
  | Some (g, u) =>
      emit_tx (RoleChanged g u ROLE_ADMIN ACTOR_OPERATOR "");;
      mret (mkPromotion g name u false)
  end.

Definition promote (group_id player : string) : M Rejection Promotion :=
  let store_rejection (_ : SqlError) := InternalRejection in
  in_tx (
    lock_group_tx InternalRejection group_id;;
    found ← reading (world env) InternalRejection store_rejection (group_name_tx group_id);
    match found with
    | None => fail Stale
    | Some (name, g) =>
        row ← reading (world env) InternalRejection store_rejection (membership_tx g player);
        match row with
        | None => fail (Rejected "holds no row in this group")
        | Some (st, ro, u) =>
            if negb (bool_decide (st = STATE_MEMBER)) then fail (Rejected "not a member row") else
            if bool_decide (ro = ROLE_ADMIN) then mret (mkPromotion g name u true) else
            committing (world env) InternalRejection (fun _ => promote_writes g name u)
        end
    end).

(** *** Listing *)

Section Listing.
Variable pf : Storage.Platform.

Definition cursor_within_cap (cursor : string) : bool := bool_decide (String.length cursor ≤ MAX_CURSOR_BYTES)%nat.

Definition encode_cursor (created id : string) : string := Storage.b64_encode pf (created +:+ "|" +:+ id).

Definition decode_cursor (cursor : string) : result Error (option (string * string)) :=
  if str_is_empty cursor then Ok None else
  if negb (cursor_within_cap cursor) then Err (mkError Invalid "cursor exceeds 256 bytes") else
  raw ← ok_or (Storage.b64_decode pf cursor) (mkError Invalid MALFORMED_CURSOR);
  if negb (Storage.utf8_valid (to_bytes raw)) then Err (mkError Invalid MALFORMED_CURSOR) else
  match split_once "|" (to_bytes raw) with
  | None => Err (mkError Invalid MALFORMED_CURSOR)
  | Some (t, i) =>
      if negb (Storage.is_cursor_time (of_bytes t)) || negb (Storage.is_uuid_text (of_bytes i))
      then Err (mkError Invalid MALFORMED_CURSOR) else Ok (Some (of_bytes t, of_bytes i))
  end.

(** A row of a page: the id that breaks ties, and the membership. *)
Abbreviation Listed := (string * Membership)%type.

(** [ORDER BY created_at DESC, id DESC]. *)
Definition newer (a b : Listed) : Prop :=
  created_at (snd b) < created_at (snd a)
  ∨ (created_at (snd a) = created_at (snd b) ∧ String.le (fst b) (fst a)).

#[global] Instance newer_dec : RelDecision newer.
Proof. intros a b. unfold newer. apply _. Defined.

(** [(created_at, id) < ($2, $3)]; always true on the first page. *)
Definition past_cut (cut : option (Z * string)) (r : Listed) : bool :=
  match cut with
  | None => true
  | Some (t, i) =>
      (created_at (snd r) <? t)
      || ((created_at (snd r) =? t) && bool_decide (String.le (fst r) i) && negb (bool_decide (fst r = i)))
  end.

Definition page_rows (cut : option (Z * string)) (limit : nat) (l : list Listed) : list Listed :=
  take limit (merge_sort newer (List.filter (past_cut cut) l)).

(** The cursor's columns, cast. *)
Definition cast_cut (after : option (string * string)) : Sql (option (Z * string)) :=
  match after with
  | Some (t, i) =>
      bind_text [t; i];; t' ← lift (ok_or (Storage.timestamptz_in pf t) OtherSqlError);
      i' ← cast_uuid i; mret (Some (t', i'))
  | None => mret None
  end.

(** A malformed id is an empty page. *)
Definition or_empty {A} (m : Sql (list A)) : Sql (list A) := fun d =>
  match m d with (_, Err InvalidTextRepresentation) => (d, Ok []) | r => r end.

Record MyGroupRow := mkMyGroup { mg_id : string; mg_group : Group; mg_mine : Membership }.

(** The groups the player holds a row in; the join drops a row without a group. *)
Definition page_mine (player : string) (after : option (string * string)) (limit : Z) : Sql (list MyGroupRow) := or_empty (
  bind_text [player];; u ← cast_uuid player; cut ← cast_cut after;
  gets (fun d => omap (fun r => (fun g => mkMyGroup (fst r) g (snd r)) <$> groups d !! fst r)
    (page_rows cut (Z.to_nat limit)
       (omap (fun kv => if bool_decide (snd (fst kv) = u ∧ is_Some (groups d !! fst (fst kv)))
                        then Some (fst (fst kv), snd kv) else None)
          (map_to_list (memberships d)))))).

Definition member_rows (r : Membership) : bool := bool_decide (state r = STATE_MEMBER).
Definition pending_rows (r : Membership) : bool := negb (bool_decide (state r = STATE_MEMBER)).
Definition all_rows (r : Membership) : bool := true.

Definition store_page_group (group_id : string) (state_clause : Membership → bool) (after : option (string * string)) (limit : Z)
  : Sql (list Listed) := or_empty (
  bind_text [group_id];; g ← cast_uuid group_id; cut ← cast_cut after;
  gets (fun d => page_rows cut (Z.to_nat limit)
    (omap (fun kv => if bool_decide (fst (fst kv) = g) && state_clause (snd kv) then Some (snd (fst kv), snd kv) else None)
       (map_to_list (memberships d))))).

Record Page (A : Type) := mkPage { items : list A; next_cursor : string }.
Arguments mkPage {A} _ _.
Arguments items {A} _.
Arguments next_cursor {A} _.

(** The page and the cursor after it: one row past the page tells whether there is
    more. *)
Definition cut_page {A} (limit : Z) (key : A → Z * string) (found : list A) : list A * string :=
  let page := take (Z.to_nat limit) found in
  (page, match last page with
         | Some r => if limit <? Z.of_nat (length found) then encode_cursor (Storage.timestamp pf (fst (key r))) (snd (key r)) else ""
         | None => ""
         end).

Definition group_summary (r : MyGroupRow) : result Error GroupSummary :=
  st ← wire_state (state (mg_mine r));
  Ok (mkGroupSummary (mg_id r) (g_name (mg_group r)) (join_policy (mg_group r)) (g_created_at (mg_group r)) st (role (mg_mine r))).

Definition list_mine (ident : Identity) (cursor : string) (limit : Z) : M Error (Page GroupSummary) :=
  me ← lift (caller ident);
  limit ← lift (resolve_limit limit);
  after ← lift (decode_cursor cursor);
  found ← read (page_mine me after (limit + 1));
  let '(page, next) := cut_page limit (fun r => (created_at (mg_mine r), mg_id r)) found in
  l ← lift (mapM group_summary page);
  mret (mkPage l next).

(** The ids of a page, each once, in order. *)
Definition page_ids (l : list Listed) : list string :=
  foldl (fun ids r => if bool_decide (fst r ∈ ids) then ids else ids ++ [fst r]) [] l.

Definition hydrate (l : list Listed) : M Error (list PlayerSummary) :=
  let ids := page_ids l in
  if bool_decide (ids = []) then mret [] else
  r ← ask_directory (fun dir => players_by_id dir ids); lift (map_err directory_unavailable r).

Definition member_of (summaries : list PlayerSummary) (r : Listed) : result Error MemberSummary :=
  st ← wire_state (state (snd r));
  Ok (mkMemberSummary (fst r) (from_option ps_handle "" (summary_of summaries (fst r))) st (role (snd r)) (created_at (snd r))).

Definition page_group (ident : Identity) (group_id cursor : string) (limit : Z) (required_role : string)
    (state_clause : Membership → bool) : M Error (Page MemberSummary) :=
  me ← lift (caller ident);
  limit ← lift (resolve_limit limit);
  after ← lift (decode_cursor cursor);
  require_role group_id me required_role;;
  found ← read (store_page_group group_id state_clause after (limit + 1));
  let '(page, next) := cut_page limit (fun r => (created_at (snd r), fst r)) found in
  summaries ← hydrate page;
  l ← lift (mapM (member_of summaries) page);
  mret (mkPage l next).

Definition members_op (ident : Identity) (group_id cursor : string) (limit : Z) : M Error (Page MemberSummary) :=
  page_group ident group_id cursor limit ANY_ROLE member_rows.

Definition pending_op (ident : Identity) (group_id cursor : string) (limit : Z) : M Error (Page MemberSummary) :=
  page_group ident group_id cursor limit ROLE_ADMIN pending_rows.
End Listing.

(** ** Durable handlers ([projection.rs]) *)

Definition PRUNE_BATCH : nat := 256.
Definition PURGE_BATCH : nat := 256.
Definition GROUPS_PER_FIRE : nat := 64.
Definition PRUNE_SCHEDULE_NAME : string := "groups-prune".
Definition PURGE_SCHEDULE_NAME : string := "player-purge".
Definition DEFAULT_RETENTION_DAYS : Z := 30.
Definition MAX_RETENTION_DAYS : Z := 3650.

(** [None] is an unset variable; the text that is not unicode never gets here. *)
Definition retention_days_from_env (raw : option string) : option Z :=
  match raw with
  | None => Some DEFAULT_RETENTION_DAYS
  | Some v =>
      days ← parse_i64 (trim v);
      if (1 <=? days) && (days <=? MAX_RETENTION_DAYS) then Some days else None
  end.

(** *** The retention prune *)

(** [STALE_BATCH_SQL]: a pending row older than the cutoff. *)
Definition stale_row (cutoff : Z) (r : Membership) : bool :=
  bool_decide (state r = STATE_INVITED ∨ state r = STATE_REQUESTED) && (created_at r <? cutoff).

Definition remove_rows (l : list (string * string)) (d : GroupsDb) : GroupsDb :=
  set_memberships (foldr delete (memberships d) l) d.

Definition expired (l : list (string * string)) : list GroupEvent := (fun k => MemberLeft (fst k) (snd k) "" REASON_EXPIRED) <$> l.

(** One batch: the rows go, and each has its terminal event. *)
Definition prune_batch (l : list (string * string * Membership)) (d : GroupsDb) : GroupsDb :=
  add_events (expired (fst <$> l)) (remove_rows (fst <$> l) d).

Definition prune_handler (cutoff : Z) (busy : nat → string * string → bool) (elapsed : nat → bool) (name : string)
    (d : GroupsDb) : option GroupsDb :=
  if bool_decide (name ≠ PRUNE_SCHEDULE_NAME) then Some d
  else prune created_at (stale_row cutoff) PRUNE_BATCH memberships prune_batch busy elapsed d.

(** *** The purge of deleted players *)

Definition on_player_deleted (player handle : string) : Sql unit := plant_purged_player_tx player handle.

(** One player's row in one group; the group goes with its last admin or member. *)
Definition purge_one_group (group_id player : string) : Sql unit :=
  counts ← counts_tx group_id STATE_MEMBER ROLE_ADMIN;
  deleted ← delete_membership_tx group_id player;
  match deleted with
  | None => mret ()
  | Some (st, ro, g, u) =>
      emit_tx (MemberLeft g u u REASON_ACCOUNT_DELETED);;
      if bool_decide (st = STATE_MEMBER) && ((members counts =? 1) || (bool_decide (ro = ROLE_ADMIN) && (admins counts =? 1))) then
        swept ← delete_group_tx g; emit_all (dissolved g swept)
      else mret ()
  end.

Inductive PlayerOutcome := Purged | CapReached | BudgetSpent | Skipped.

(** The groups left of this fire's cap and the number of budget checks made. *)
Record Fire := mkFire { slots : nat; checks : nat }.

(** The groups of one reading, each under its own savepoint; [breaks] tells which
    ones fail and are rolled back to it. *)
Fixpoint purge_groups (breaks : string → string → bool) (elapsed : nat → bool) (player : string) (l : list string)
    (f : Fire) : Sql (Fire * option PlayerOutcome) :=
  match l with
  | [] => mret (f, None)
  | g :: l' => fun d =>
      if breaks g player then (d, Ok (f, Some Skipped)) else
      match purge_one_group g player d with
      | (_, Err _) => (d, Ok (f, Some Skipped))
      | (d', Ok _) =>
          let f' := mkFire (slots f - 1) (S (checks f)) in
          if elapsed (checks f) then (d', Ok (f', Some BudgetSpent)) else purge_groups breaks elapsed player l' f' d'
      end
  end.

(** The loop of [purge_player_groups]; [None] in the state is out of fuel. *)
Fixpoint purge_player_loop (breaks : string → string → bool) (elapsed : nat → bool) (fuel : nat) (player : string) (f : Fire)
    (d : GroupsDb) : option (GroupsDb * result SqlError (Fire * PlayerOutcome)) :=
  match fuel with
  | O => None
  | S fuel' =>
      if (slots f =? 0)%nat then Some (d, Ok (f, CapReached)) else
      match player_groups_tx player (slots f) d with
      | (d1, Err e) => Some (d1, Err e)
      | (d1, Ok []) => Some (d1, Ok (f, Purged))
      | (d1, Ok l) =>
          match purge_groups breaks elapsed player l f d1 with
          | (d2, Err e) => Some (d2, Err e)
          | (d2, Ok (f', Some o)) => Some (d2, Ok (f', o))
          | (d2, Ok (f', None)) => purge_player_loop breaks elapsed fuel' player f' d2
          end
      end
  end.

Definition purge_player_groups breaks elapsed player f d :=
  purge_player_loop breaks elapsed (S (slots f)) player f d.

Definition stamp (player : string) : Sql unit :=
  u ← cast_uuid player; modify (fun d => set_tombs (marked u (purged_players d)) d).

(** One batch of tombstones: [true] when the fire ends. *)
Fixpoint purge_batch (breaks : string → string → bool) (elapsed : nat → bool) (l : list (string * string)) (f : Fire)
    (d : GroupsDb) : option (GroupsDb * result SqlError (Fire * bool)) :=
  match l with
  | [] => Some (d, Ok (f, false))
  | (player, _) :: l' =>
      match purge_player_groups breaks elapsed player f d with
      | None => None
      | Some (d1, Err e) => Some (d1, Err e)
      | Some (d1, Ok (f', o)) =>
          match o with
          | BudgetSpent | CapReached => Some (d1, Ok (f', true))
          | Purged | Skipped =>
              match (if o is Purged then stamp player d1 else (d1, Ok ())) with
              | (d2, Err e) => Some (d2, Err e)
              | (d2, Ok _) =>
                  if elapsed (checks f') then Some (d2, Ok (mkFire (slots f') (S (checks f')), true))
                  else purge_batch breaks elapsed l' (mkFire (slots f') (S (checks f'))) d2
              end
          end
      end
  end.

Fixpoint purge_loop (breaks : string → string → bool) (elapsed : nat → bool) (fuel : nat) (watermark : string) (f : Fire)
    (d : GroupsDb) : option (GroupsDb * result SqlError unit) :=
  match fuel with
  | O => None
  | S fuel' =>
      let due := due_tombs PURGE_BATCH watermark (purged_players d) in
      match purge_batch breaks elapsed due f d with
      | None => None
      | Some (d', Err e) => Some (d', Err e)
      | Some (d', Ok (_, true)) => Some (d', Ok ())
      | Some (d', Ok (f', false)) =>
          if (length due <? PURGE_BATCH)%nat then Some (d', Ok ())
          else purge_loop breaks elapsed fuel' (from_option fst watermark (last due)) f' d'
      end
  end.

Definition sweep_purged_players (breaks : string → string → bool) (elapsed : nat → bool) (d : GroupsDb)
  : option (GroupsDb * result SqlError unit) :=
  purge_loop breaks elapsed (S (size (purged_players d))) NIL_UUID (mkFire GROUPS_PER_FIRE 0) d.

Definition purge_sweep_handler (breaks : string → string → bool) (elapsed : nat → bool) (name : string) (d : GroupsDb)
  : option (GroupsDb * result SqlError unit) :=
  if bool_decide (name ≠ PURGE_SCHEDULE_NAME) then Some (d, Ok ()) else sweep_purged_players breaks elapsed d.
End Store.
