(* ===== verification/GroupsActs.v ===== *)
(** * GroupsActs: what may happen to a group

    The abstract machine of the groups tables: the causes a change can have, and what
    each does to the tables when its conditions hold ([does]).  The invariant every
    cause keeps, what the causes say about consent, and which causes respect a group's
    lock.  [GroupsContract] shows that the operations of [Groups] do nothing else. *)

From Stdlib Require Import Ascii.
From stdpp Require Import sorting pretty.
From S2P Require Import Prelude Text OpsApi Pg Purge Directory Txn Groups.
#[local] Open Scope Z_scope.

Section Acts.
Context `{PgUuid}.

Inductive Cause :=
| CCreate (g u name policy : string) (now : Z)
| CJoin (g u : string) (now : Z)
| CInvite (g by_ target : string) (now : Z)
| CAnswer (g u : string) (accept : bool)
| CDecide (g by_ subject : string) (accept : bool)
| CLeave (g u : string)
| CPromote (g u : string)
| CExpire (l : list (string * string))
| CPlant (u handle : string)
| CPurge (g u : string)
| CStamp (u : string).

Definition is_member (r : Membership) : Prop := state r = STATE_MEMBER.
Definition is_admin (r : Membership) : Prop := state r = STATE_MEMBER ∧ role r = ROLE_ADMIN.
Definition is_pending (r : Membership) : Prop := state r = STATE_INVITED ∨ state r = STATE_REQUESTED.

#[global] Instance is_member_dec r : Decision (is_member r).
Proof. unfold is_member. apply _. Defined.
#[global] Instance is_admin_dec r : Decision (is_admin r).
Proof. unfold is_admin. apply _. Defined.
#[global] Instance is_pending_dec r : Decision (is_pending r).
Proof. unfold is_pending. apply _. Defined.

#[global] Typeclasses Opaque is_member is_admin is_pending.

Definition put (g u : string) (r : Membership) (d : GroupsDb) : GroupsDb := set_memberships (<[(g, u) := r]> (memberships d)) d.
Definition drop_row (g u : string) (d : GroupsDb) : GroupsDb := set_memberships (delete (g, u) (memberships d)) d.

Definition admin_of (g a : string) (d : GroupsDb) : Prop := from_option is_admin False (memberships d !! (g, a)).
#[global] Instance admin_of_dec g a d : Decision (admin_of g a d).
Proof. unfold admin_of. destruct (memberships d !! (g, a)); apply _. Defined.

Definition pending_at (d : GroupsDb) (k : string * string) : Prop := from_option is_pending False (memberships d !! k).
#[global] Instance pending_at_dec d k : Decision (pending_at d k).
Proof. unfold pending_at. destruct (memberships d !! k); apply _. Defined.

Definition has_room (g : string) (d : GroupsDb) : Prop := Z.of_nat (size (rows_of g d)) < MAX_MEMBERS.

#[global] Instance has_room_dec g d : Decision (has_room g d).
Proof. unfold has_room. apply _. Defined.

Definition count (P : Membership → Prop) `{∀ r, Decision (P r)} (g : string) (d : GroupsDb) : nat :=
  size (filter (fun kv => P (snd kv)) (rows_of g d)).

(** The group and every row it still owns are gone. *)
Definition dissolve (g : string) (d : GroupsDb) : GroupsDb :=
  add_events (dissolved g (players_of g d))
    (set_groups (delete g (groups d)) (set_memberships (filter (fun kv => fst (fst kv) ≠ g) (memberships d)) d)).

Definition valid_policy (p : string) : Prop := p = JOIN_OPEN ∨ p = JOIN_REQUEST ∨ p = JOIN_INVITE.
#[global] Instance valid_policy_dec p : Decision (valid_policy p).
Proof. unfold valid_policy. apply _. Defined.

(** The departure of [u], and what the group does about it: it goes with its last
    member, and - on a purge, which cannot be refused - with its last admin. *)
Definition depart (g u reason : string) (ends : bool) (d : GroupsDb) : GroupsDb :=
  let d1 := drop_row g u d in
  let left := MemberLeft g u u reason in
  if ends then
    add_events (left :: dissolved g (players_of g d1))
      (set_groups (delete g (groups d1)) (set_memberships (filter (fun kv => fst (fst kv) ≠ g) (memberships d1)) d1))
  else add_events [left] d1.

Definition does (c : Cause) (d : GroupsDb) : option GroupsDb :=
  match c with
  | CCreate g u name policy now =>
      check (groups d !! g = None ∧ memberships d !! (g, u) = None ∧ canonical g ∧ canonical u ∧ valid_policy policy);;
      Some (add_events [Created g name u policy; MemberJoined g u ROLE_ADMIN]
              (put g u (mkMembership STATE_MEMBER ROLE_ADMIN now) (set_groups (<[g := mkGroup name policy u now]> (groups d)) d)))
  | CJoin g u now =>
      grp ← groups d !! g;
      check (memberships d !! (g, u) = None ∧ canonical u ∧ has_room g d);;
      if decide (join_policy grp = JOIN_OPEN)
      then Some (add_events [MemberJoined g u ROLE_MEMBER] (put g u (mkMembership STATE_MEMBER ROLE_MEMBER now) d))
      else if decide (join_policy grp = JOIN_REQUEST) then Some (put g u (mkMembership STATE_REQUESTED "" now) d)
      else None
  | CInvite g a t now =>
      check (admin_of g a d ∧ memberships d !! (g, t) = None ∧ canonical t ∧ has_room g d);;
      Some (put g t (mkMembership STATE_INVITED "" now) d)
  | CAnswer g u accept =>
      r ← memberships d !! (g, u);
      check (state r = STATE_INVITED);;
      Some (if accept : bool
            then add_events [MemberJoined g u ROLE_MEMBER] (put g u (mkMembership STATE_MEMBER ROLE_MEMBER (created_at r)) d)
            else add_events [MemberLeft g u u REASON_DECLINED] (drop_row g u d))
  | CDecide g a s accept =>
      r ← memberships d !! (g, s);
      check (admin_of g a d ∧ a ≠ s);;
      if accept : bool then
        check (state r = STATE_REQUESTED);;
        Some (add_events [MemberJoined g s ROLE_MEMBER] (put g s (mkMembership STATE_MEMBER ROLE_MEMBER (created_at r)) d))
      else
        Some (add_events [MemberLeft g s a (if decide (is_member r) then REASON_KICKED else REASON_DECLINED)] (drop_row g s d))
  | CLeave g u =>
      r ← memberships d !! (g, u);
      check (¬ (is_admin r ∧ count is_admin g d = 1%nat ∧ (1 < count is_member g d)%nat));;
      Some (depart g u (if decide (is_member r) then REASON_LEFT else REASON_DECLINED)
              (bool_decide (is_member r ∧ count is_member g d = 1%nat)) d)
  | CPromote g u =>
      r ← memberships d !! (g, u);
      check (is_member r ∧ role r ≠ ROLE_ADMIN);;
      Some (add_events [RoleChanged g u ROLE_ADMIN ACTOR_OPERATOR ""] (put g u (mkMembership STATE_MEMBER ROLE_ADMIN (created_at r)) d))
  | CExpire l =>
      check (NoDup l ∧ Forall (pending_at d) l);;
      Some (add_events (expired l) (remove_rows l d))
  | CPlant u h => check (purged_players d !! u = None ∧ canonical u);; Some (set_tombs (<[u := (h, false)]> (purged_players d)) d)
  | CPurge g u =>
      r ← memberships d !! (g, u);
      Some (depart g u REASON_ACCOUNT_DELETED
              (bool_decide (is_member r ∧ (count is_member g d = 1%nat ∨ (role r = ROLE_ADMIN ∧ count is_admin g d = 1%nat)))) d)
  | CStamp u => Some (set_tombs (marked u (purged_players d)) d)
  end.

(** ** The member list a consumer rebuilds from the events *)

(** An event that does not fit the list it is applied to stops the replay. *)
Definition apply_event (m : gmap (string * string) string) (e : GroupEvent) : option (gmap (string * string) string) :=
  match e with
  | Created _ _ _ _ => Some m
  | MemberJoined g u ro => match m !! (g, u) with Some _ => None | None => Some (<[(g, u) := ro]> m) end
  | RoleChanged g u ro _ _ => match m !! (g, u) with Some _ => Some (<[(g, u) := ro]> m) | None => None end
  | MemberLeft g u _ reason =>
      if bool_decide (is_Some (m !! (g, u)) ∧ (reason = REASON_DECLINED ∨ reason = REASON_EXPIRED)) then None
      else if bool_decide (m !! (g, u) = None ∧ (reason = REASON_LEFT ∨ reason = REASON_KICKED)) then None
      else Some (delete (g, u) m)
  end.

Definition replay_from (m : option (gmap (string * string) string)) (l : list GroupEvent) : option (gmap (string * string) string) :=
  foldl (fun m e => m ≫= fun m => apply_event m e) m l.

Definition replay (l : list GroupEvent) : option (gmap (string * string) string) := replay_from (Some ∅) l.

(** The members of the tables with their roles. *)
Definition roster (d : GroupsDb) : gmap (string * string) string :=
  omap (fun r => if decide (is_member r) then Some (role r) else None) (memberships d).

(** ** The invariant *)

Record row_ok (r : Membership) : Prop := {
  ro_state : is_member r ∨ is_pending r;
  ro_role : is_member r → role r = ROLE_ADMIN ∨ role r = ROLE_MEMBER;
  ro_pending : is_pending r → role r = "";
}.

Record groups_inv (d : GroupsDb) : Prop := {
  gi_admin g grp : groups d !! g = Some grp → ∃ u, admin_of g u d;
  gi_group g u r : memberships d !! (g, u) = Some r → is_Some (groups d !! g);
  gi_row k r : memberships d !! k = Some r → row_ok r;
  gi_cap g : Z.of_nat (size (rows_of g d)) ≤ MAX_MEMBERS;
  gi_ids g u r : memberships d !! (g, u) = Some r → canonical g ∧ canonical u;
  gi_gids g grp : groups d !! g = Some grp → canonical g ∧ valid_policy (join_policy grp);
  gi_tombs u t : purged_players d !! u = Some t → canonical u;
  gi_log : replay (appended d) = Some (roster d);
}.

Lemma groups_inv_empty : groups_inv empty_groups.
Proof. by split. Qed.

(** ** Rows of a group *)

Lemma rows_of_Some g d k r : rows_of g d !! k = Some r ↔ memberships d !! k = Some r ∧ fst k = g.
Proof. unfold rows_of. by rewrite map_lookup_filter_Some. Qed.

Lemma rows_put_new g u r d g' :
  memberships d !! (g, u) = None →
  size (rows_of g' (put g u r d)) = (size (rows_of g' d) + if decide (g = g') then 1 else 0)%nat.
Proof.
  intros Hn. unfold rows_of, put. simpl. destruct (decide (g = g')) as [<-|Hne].
  - rewrite map_filter_insert_True by done. rewrite map_size_insert_None; [lia|]. apply map_lookup_filter_None. by left.
  - rewrite map_filter_insert_False by done. rewrite delete_id by done. lia.
Qed.

Lemma rows_put_old g u r d g' :
  is_Some (memberships d !! (g, u)) → size (rows_of g' (put g u r d)) = size (rows_of g' d).
Proof.
  intros [r0 Hr]. unfold rows_of, put. simpl. destruct (decide (g = g')) as [<-|Hne].
  - rewrite map_filter_insert_True by done. rewrite map_size_insert_Some; [done|].
    exists r0. by apply map_lookup_filter_Some.
  - rewrite map_filter_insert_not' by (intros; simpl; congruence). done.
Qed.

Lemma size_subseteq (m m' : gmap (string * string) Membership) :
  (∀ k r, m !! k = Some r → m' !! k = Some r) → (size m ≤ size m')%nat.
Proof. intros Hs. apply map_subseteq_size, map_subseteq_spec. exact Hs. Qed.

(** Fewer rows, smaller groups. *)
Lemma rows_shrink g d d' :
  (∀ k r, memberships d' !! k = Some r → memberships d !! k = Some r) → (size (rows_of g d') ≤ size (rows_of g d))%nat.
Proof. intros Hs. apply size_subseteq. intros k r. rewrite !rows_of_Some. naive_solver. Qed.

(** Another key of a map that has more than one. *)
Lemma another_key (m : gmap (string * string) Membership) k :
  is_Some (m !! k) → size m ≠ 1%nat → ∃ k' r, k' ≠ k ∧ m !! k' = Some r.
Proof.
  intros [r Hr] Hs. destruct (decide (delete k m = ∅)) as [He|Hne].
  - exfalso. apply Hs. rewrite <- (insert_delete_id m k r Hr), He, map_size_insert_None, map_size_empty by done. done.
  - apply map_choose in Hne as (k' & r' & Hk). apply lookup_delete_Some in Hk as [Hne Hk]. exists k', r'. auto.
Qed.

Lemma admin_of_Some g a d : admin_of g a d ↔ ∃ r, memberships d !! (g, a) = Some r ∧ is_admin r.
Proof. unfold admin_of. destruct (memberships d !! (g, a)); simpl; naive_solver. Qed.

(** A departure leaves an admin behind unless the one who goes is the last. *)
Lemma other_admin g u r d :
  groups_inv d → memberships d !! (g, u) = Some r → (is_admin r → count is_admin g d ≠ 1%nat) →
  ∃ a, a ≠ u ∧ admin_of g a d.
Proof.
  intros Hd Hr Hc. destruct (gi_group d Hd g u r Hr) as [grp Hg]. destruct (gi_admin d Hd g grp Hg) as [a Ha].
  destruct (decide (a = u)) as [->|Hne]; [|by exists a]. apply admin_of_Some in Ha as (r' & Hr' & Ha).
  rewrite Hr in Hr'. injection Hr' as <-. specialize (Hc Ha). unfold count in Hc.
  apply (another_key _ (g, u)) in Hc as ([g' u'] & r' & Hne & Hk); [|exists r; by rewrite map_lookup_filter_Some, rows_of_Some].
  rewrite map_lookup_filter_Some, rows_of_Some in Hk. simpl in Hk. destruct Hk as [[Hk ->] Hk2].
  exists u'. split; [congruence|]. apply admin_of_Some. eauto.
Qed.

(** ** The roster and the replay *)

Definition listed (r : Membership) : option string := if decide (is_member r) then Some (role r) else None.

Lemma roster_row d k : roster d !! k = memberships d !! k ≫= listed.
Proof. unfold roster. by rewrite lookup_omap. Qed.

Lemma replay_more l k : replay (l ++ k) = replay_from (replay l) k.
Proof. unfold replay, replay_from. by rewrite foldl_app. Qed.

(** Leaving events that fit, one after the other. *)
Lemma replay_leaves (m : gmap (string * string) string) (reason : string) (l : list (string * string)) (actor : string * string → string) :
  (reason = REASON_GROUP_DISSOLVED ∨ (reason = REASON_EXPIRED ∧ ∀ k, k ∈ l → m !! k = None)) →
  replay_from (Some m) ((fun k => MemberLeft (fst k) (snd k) (actor k) reason) <$> l) = Some (foldr delete m l).
Proof.
  intros Hr. assert (Hgen : ∀ l', (∀ k, k ∈ l' → k ∈ l) → ∀ m', (∀ k, m !! k = None → m' !! k = None) →
      replay_from (Some m') ((fun k => MemberLeft (fst k) (snd k) (actor k) reason) <$> l') = Some (foldr delete m' l')).
  { induction l' as [|[g u] l' IH]; intros Hl m' Hm; [done|]. simpl.
    rewrite (bool_decide_eq_false_2 (is_Some _ ∧ _)), (bool_decide_eq_false_2 (_ = None ∧ _)).
    - rewrite IH; [|set_solver|].
      + f_equal. apply map_eq. intros k. rewrite foldr_delete_lookup. destruct (decide (k = (g, u))) as [->|Hne].
        * rewrite !lookup_delete_eq. by destruct (decide _).
        * by rewrite !lookup_delete_ne, foldr_delete_lookup by done.
      + intros k Hk. apply lookup_delete_None. right. by apply Hm.
    - intros [_ [->| ->]]; destruct Hr as [Hr|[Hr _]]; done.
    - intros [[x Hx] [->| ->]]; destruct Hr as [Hr|[Hr Hn]]; try done.
      rewrite Hm in Hx; [done|]. apply Hn, Hl. by left. }
  by apply Hgen.
Qed.


Lemma roster_put g u r d :
  roster (put g u r d) = match listed r with Some x => <[(g, u) := x]> (roster d) | None => delete (g, u) (roster d) end.
Proof.
  apply map_eq. intros k. rewrite roster_row. unfold put. cbn [memberships set_memberships].
  destruct (decide (k = (g, u))) as [->|Hne].
  - rewrite lookup_insert_eq. simpl. destruct (listed r); [by rewrite lookup_insert_eq|by rewrite lookup_delete_eq].
  - rewrite lookup_insert_ne by done. destruct (listed r); [rewrite lookup_insert_ne by done|rewrite lookup_delete_ne by done];
      by rewrite roster_row.
Qed.

Lemma roster_drop g u d : roster (drop_row g u d) = delete (g, u) (roster d).
Proof.
  apply map_eq. intros k. rewrite roster_row. unfold drop_row. cbn [memberships set_memberships].
  destruct (decide (k = (g, u))) as [->|Hne]; [by rewrite !lookup_delete_eq|by rewrite !lookup_delete_ne, roster_row by done].
Qed.

(** ** What keeps the invariant *)

Lemma inv_log ev d l : groups_inv d → appended d = l → replay (l ++ ev) = replay_from (Some (roster d)) ev.
Proof. intros Hd <-. by rewrite replay_more, (gi_log d Hd). Qed.

(** A row is added or changed, its group with it. *)
Lemma inv_put gs g u r ev d :
  groups_inv d → canonical g → canonical u → row_ok r →
  (∀ g', g' ≠ g → gs !! g' = groups d !! g') → (∃ grp, gs !! g = Some grp ∧ valid_policy (join_policy grp)) →
  is_admin r ∨ (is_Some (groups d !! g) ∧ ¬ admin_of g u d) → (memberships d !! (g, u) = None → has_room g d) →
  replay_from (Some (roster d)) ev = Some (roster (put g u r d)) →
  groups_inv (add_events ev (put g u r (set_groups gs d))).
Proof.
  intros Hd Hg Hu Hr Hgs [grp [Hgrp Hpol]] Ha Hroom Hlog.
  split; unfold add_events, put, set_groups, set_memberships; cbn [groups memberships purged_players appended].
  - intros g' grp' Hg'. destruct (decide (g' = g)) as [->|Hne].
    + destruct Ha as [Ha|[[x Hx] Ha]].
      * exists u. apply admin_of_Some. exists r. cbn [memberships]. by rewrite lookup_insert_eq.
      * destruct (gi_admin d Hd g x Hx) as [a Hadm]. exists a. apply admin_of_Some in Hadm as (r' & Hr' & Hadm).
        apply admin_of_Some. exists r'. cbn [memberships]. rewrite lookup_insert_ne; [done|].
        intros [= ->]. apply Ha, admin_of_Some. eauto.
    + rewrite Hgs in Hg' by done. destruct (gi_admin d Hd g' grp' Hg') as [a Hadm]. exists a.
      apply admin_of_Some in Hadm as (r' & Hr' & Hadm). apply admin_of_Some. exists r'. cbn [memberships].
      rewrite lookup_insert_ne by congruence. done.
  - intros g' u' r'. rewrite lookup_insert_Some. intros [[[= -> ->] _]|[_ Hm]]; [eauto|].
    destruct (decide (g' = g)) as [->|Hne]; [eauto|]. rewrite Hgs by done. by eapply gi_group.
  - intros k r'. rewrite lookup_insert_Some. intros [[_ <-]|[_ Hm]]; [done|by eapply gi_row].
  - intros g'. change (mkGroups _ _ _ _) with (add_events ev (put g u r (set_groups gs d))).
    change (rows_of g' _) with (rows_of g' (put g u r d)).
    destruct (memberships d !! (g, u)) as [r0|] eqn:E.
    + rewrite rows_put_old by eauto. apply (gi_cap d Hd).
    + rewrite rows_put_new by done. pose proof (gi_cap d Hd g'). specialize (Hroom eq_refl). unfold has_room in Hroom.
      destruct (decide (g = g')) as [<-|]; lia.
  - intros g' u' r'. rewrite lookup_insert_Some. intros [[[= -> ->] _]|[_ Hm]]; [done|by eapply gi_ids].
  - intros g' grp' Hg'. destruct (decide (g' = g)) as [->|Hne]; [|rewrite Hgs in Hg' by done; by eapply gi_gids].
    rewrite Hgrp in Hg'. by injection Hg' as <-.
  - apply (gi_tombs d Hd).
  - by rewrite (inv_log ev d _ Hd eq_refl).
Qed.

(** Rows go, none of them needed. *)
Lemma ginv_remove l ev d :
  groups_inv d → (∀ g, is_Some (groups d !! g) → ∃ a, ((g, a) ∉ l) ∧ admin_of g a d) →
  replay_from (Some (roster d)) ev = Some (foldr delete (roster d) l) →
  groups_inv (add_events ev (remove_rows l d)).
Proof.
  intros Hd Ha Hlog.
  assert (Hsub : ∀ k r, foldr delete (memberships d) l !! k = Some r → memberships d !! k = Some r ∧ k ∉ l).
  { intros k r. rewrite foldr_delete_lookup. destruct (decide (k ∈ l)); [done|auto]. }
  split; unfold add_events, remove_rows, set_memberships; cbn [groups memberships purged_players appended].
  - intros g grp Hg. destruct (Ha g) as (a & Hl & (r & Hr & Hadm)%admin_of_Some); [eauto|]. exists a. apply admin_of_Some.
    exists r. cbn [memberships]. rewrite foldr_delete_lookup. by destruct (decide ((g, a) ∈ l)).
  - intros g u r [Hr _]%Hsub. by eapply gi_group.
  - intros k r [Hr _]%Hsub. by eapply gi_row.
  - intros g. pose proof (gi_cap d Hd g). 
    pose proof (rows_shrink g d (add_events ev (remove_rows l d))) as Hle. unfold rows_of in *. simpl in *.
    specialize (Hle (fun k r Hk => proj1 (Hsub k r Hk))). lia.
  - intros g u r [Hr _]%Hsub. by eapply gi_ids.
  - apply (gi_gids d Hd).
  - apply (gi_tombs d Hd).
  - rewrite (inv_log ev d _ Hd eq_refl), Hlog. f_equal. apply map_eq. intros k.
    rewrite roster_row. cbn [memberships]. rewrite !foldr_delete_lookup. destruct (decide (k ∈ l)); [done|]. by rewrite roster_row.
Qed.

(** A group goes with every row it owns. *)
Definition without (g : string) (d : GroupsDb) : GroupsDb :=
  set_groups (delete g (groups d)) (set_memberships (filter (fun kv => fst (fst kv) ≠ g) (memberships d)) d).

Lemma inv_dissolve g ev d :
  groups_inv d → replay_from (Some (roster d)) ev = Some (roster (without g d)) → groups_inv (add_events ev (without g d)).
Proof.
  intros Hd Hlog.
  assert (Hsub : ∀ k r, memberships (without g d) !! k = Some r ↔ memberships d !! k = Some r ∧ fst k ≠ g).
  { intros k r. unfold without. simpl. by rewrite map_lookup_filter_Some. }
  split; cbn [groups memberships purged_players appended add_events];
    change (groups (without g d)) with (delete g (groups d)).
  - intros g' grp [Hne Hg]%lookup_delete_Some. destruct (gi_admin d Hd g' grp Hg) as [a (r & Hr & Ha)%admin_of_Some].
    exists a. apply admin_of_Some. exists r. split; [|done]. by apply Hsub.
  - intros g' u r [Hr Hne]%Hsub. rewrite lookup_delete_ne by done. by eapply gi_group.
  - intros k r [Hr _]%Hsub. by eapply gi_row.
  - intros g'. pose proof (gi_cap d Hd g').
    pose proof (rows_shrink g' d (without g d) (fun k r Hk => proj1 (proj1 (Hsub k r) Hk))).
    change (rows_of g' (add_events ev (without g d))) with (rows_of g' (without g d)). lia.
  - intros g' u r [Hr _]%Hsub. by eapply gi_ids.
  - intros g' grp [_ Hg]%lookup_delete_Some. by eapply gi_gids.
  - apply (gi_tombs d Hd).
  - change (appended (without g d)) with (appended d). rewrite (inv_log ev d _ Hd eq_refl). exact Hlog.
Qed.

Lemma players_of_elem g d u : u ∈ players_of g d ↔ is_Some (memberships d !! (g, u)).
Proof.
  unfold players_of. rewrite list_elem_of_fmap. split.
  - intros ([[g' u'] r] & -> & [Hk Hg]%elem_of_map_to_list%rows_of_Some). simpl in *. subst. eauto.
  - intros [r Hr]. exists ((g, u), r). split; [done|]. by apply elem_of_map_to_list, rows_of_Some.
Qed.

(** An event of leaving that fits the row it ends. *)
Definition fits (r : Membership) (reason : string) : Prop :=
  (is_member r → reason ≠ REASON_DECLINED ∧ reason ≠ REASON_EXPIRED) ∧ (¬ is_member r → reason ≠ REASON_LEFT ∧ reason ≠ REASON_KICKED).

Lemma apply_left g u actor reason r d :
  memberships d !! (g, u) = Some r → fits r reason →
  apply_event (roster d) (MemberLeft g u actor reason) = Some (delete (g, u) (roster d)).
Proof.
  intros Hr [H1 H2]. simpl. rewrite (roster_row d (g, u)), Hr. simpl. unfold listed.
  destruct (decide (is_member r)); rewrite !bool_decide_eq_false_2; naive_solver.
Qed.

Lemma dissolved_keys g l : dissolved g l = (fun k => MemberLeft (fst k) (snd k) "" REASON_GROUP_DISSOLVED) <$> (pair g <$> l).
Proof. unfold dissolved. by rewrite <- list_fmap_compose. Qed.

(** The events of a departure account for every row that goes. *)
Lemma replay_dissolve g u reason r d :
  memberships d !! (g, u) = Some r → fits r reason →
  replay_from (Some (roster d)) (MemberLeft g u u reason :: dissolved g (players_of g (drop_row g u d))) = Some (roster (without g d)).
Proof.
  intros Hr Hf. change (MemberLeft g u u reason :: ?l) with ([MemberLeft g u u reason] ++ l).
  unfold replay_from. rewrite foldl_app. cbn [foldl mbind option_bind]. rewrite (apply_left g u u reason r d Hr Hf).
  fold (replay_from (Some (delete (g, u) (roster d))) (dissolved g (players_of g (drop_row g u d)))).
  rewrite dissolved_keys, (replay_leaves _ REASON_GROUP_DISSOLVED _ (fun _ => "")) by by left. f_equal.
  apply map_eq. intros [g' u']. rewrite foldr_delete_lookup. rewrite !roster_row. unfold without. cbn [memberships set_groups set_memberships].
  destruct (decide (g' = g)) as [->|Hne].
  - rewrite (proj2 (map_lookup_filter_None _ _ _)) by (right; intros; simpl; naive_solver). simpl.
    destruct (decide _) as [|Hnot]; [done|]. apply eq_None_not_Some. intros [x Hx].
    destruct (decide (u' = u)) as [->|Hu]; [by rewrite lookup_delete_eq in Hx|].
    rewrite lookup_delete_ne, roster_row in Hx by congruence. apply Hnot, list_elem_of_fmap_2, players_of_elem.
    unfold drop_row. simpl. rewrite lookup_delete_ne by congruence. destruct (memberships d !! (g, u')); [eauto|done].
  - rewrite decide_False by (intros (? & [=] & _)%list_elem_of_fmap; congruence).
    rewrite lookup_delete_ne, roster_row by congruence. destruct (memberships d !! (g', u')) as [r'|] eqn:E.
    + by rewrite (proj2 (map_lookup_filter_Some _ _ _ _)) by done.
    + by rewrite (proj2 (map_lookup_filter_None _ _ _)) by by left.
Qed.

(** ** Every cause keeps the invariant *)

Lemma row_ok_member ro now : ro = ROLE_ADMIN ∨ ro = ROLE_MEMBER → row_ok (mkMembership STATE_MEMBER ro now).
Proof. intros Hro. split; [by left|done|]. by intros [?|?]. Qed.

Lemma row_ok_pending st now : st = STATE_INVITED ∨ st = STATE_REQUESTED → row_ok (mkMembership st "" now).
Proof. intros Hst. split; [by right| |done]. unfold is_member. simpl. intros ->. by destruct Hst. Qed.

(** A member row is put where there was none, or a pending one. *)
Lemma replay_joined g u ro now d :
  (∀ r, memberships d !! (g, u) = Some r → ¬ is_member r) →
  replay_from (Some (roster d)) [MemberJoined g u ro] = Some (roster (put g u (mkMembership STATE_MEMBER ro now) d)).
Proof.
  intros Hn. rewrite roster_put. unfold replay_from, listed. cbn [foldl mbind option_bind apply_event].
  rewrite roster_row. destruct (memberships d !! (g, u)) as [r|] eqn:E; simpl; [|done].
  unfold listed. rewrite decide_False by by apply Hn. done.
Qed.

Lemma not_admin_pending g u r d : memberships d !! (g, u) = Some r → is_pending r → ¬ admin_of g u d.
Proof. intros Hr Hp (r' & Hr' & [Hm _])%admin_of_Some. rewrite Hr in Hr'. injection Hr' as <-. unfold is_pending in Hp. rewrite Hm in Hp. by destruct Hp. Qed.

Lemma not_admin_none g u d : memberships d !! (g, u) = None → ¬ admin_of g u d.
Proof. intros Hn (r & Hr & _)%admin_of_Some. congruence. Qed.

Lemma inv_policy g d grp : groups_inv d → groups d !! g = Some grp → ∃ grp, groups d !! g = Some grp ∧ valid_policy (join_policy grp).
Proof. intros Hd Hg. exists grp. split; [done|]. by eapply gi_gids. Qed.

(** A pending row becomes a member's. *)
Lemma inv_admit g u r d :
  groups_inv d → memberships d !! (g, u) = Some r → is_pending r →
  groups_inv (add_events [MemberJoined g u ROLE_MEMBER] (put g u (mkMembership STATE_MEMBER ROLE_MEMBER (created_at r)) d)).
Proof.
  intros Hd Hr Hp. destruct (gi_group d Hd g u r Hr) as [grp Hg]. destruct (gi_ids d Hd g u r Hr).
  apply (inv_put (groups d)); try done.
  - apply row_ok_member. by right.
  - by eapply inv_policy.
  - right. split; [eauto|]. by eapply not_admin_pending.
  - congruence.
  - apply replay_joined. intros r' Hr'. rewrite Hr in Hr'. injection Hr' as <-. unfold is_member, is_pending in *. by destruct Hp as [->| ->].
Qed.

Lemma inv_drop g u actor reason r d :
  groups_inv d → memberships d !! (g, u) = Some r → fits r reason → (∃ a, a ≠ u ∧ admin_of g a d) →
  groups_inv (add_events [MemberLeft g u actor reason] (drop_row g u d)).
Proof.
  intros Hd Hr Hf (a & Hne & Ha). apply (ginv_remove [(g, u)]); [done| |].
  - intros g' [grp Hg]. destruct (decide (g' = g)) as [->|Hg']; [exists a; set_solver|].
    destruct (gi_admin d Hd g' grp Hg) as [a' Ha']. exists a'. set_solver.
  - unfold replay_from. cbn [foldl mbind option_bind]. by apply (apply_left g u actor reason r d).
Qed.

(** A departure, with the group's end when it is due. *)
Lemma inv_depart g u reason ends r d :
  groups_inv d → memberships d !! (g, u) = Some r → fits r reason → (ends = false → ∃ a, a ≠ u ∧ admin_of g a d) →
  groups_inv (depart g u reason ends d).
Proof.
  intros Hd Hr Hf Ha. unfold depart. destruct ends; [|by eapply inv_drop; auto].
  assert (Hw : without g (drop_row g u d) = without g d).
  { unfold without, drop_row, set_groups, set_memberships. cbn [groups memberships purged_players appended]. f_equal.
    rewrite map_filter_delete. apply delete_id. apply map_lookup_filter_None. right. intros ? _. simpl. naive_solver. }
  change (set_groups _ _) with (without g (drop_row g u d)). rewrite Hw.
  apply inv_dissolve; [done|]. by eapply replay_dissolve.
Qed.

Lemma pending_not_member r : is_pending r → ¬ is_member r.
Proof. unfold is_member, is_pending. intros [->| ->]; done. Qed.

Lemma count_member_pos g u r d : memberships d !! (g, u) = Some r → is_member r → (0 < count is_member g d)%nat.
Proof.
  intros Hr Hm. apply Nat.neq_0_lt_0. unfold count. intros E%map_size_empty_inv.
  assert (Hx : filter (fun kv : string * string * Membership => is_member kv.2) (rows_of g d) !! (g, u) = Some r)
    by by rewrite map_lookup_filter_Some, rows_of_Some.
  by rewrite E in Hx.
Qed.

Lemma inv_tombs t d : groups_inv d → (∀ u x, t !! u = Some x → canonical u) → groups_inv (set_tombs t d).
Proof. intros [] Ht. by split. Qed.

Lemma add_events_nil d : add_events [] d = d.
Proof. destruct d. unfold add_events. simpl. by rewrite app_nil_r. Qed.

(** A pending row where there was none. *)
Lemma inv_pending g u st now d grp :
  groups_inv d → groups d !! g = Some grp → memberships d !! (g, u) = None → canonical u → has_room g d →
  st = STATE_INVITED ∨ st = STATE_REQUESTED → groups_inv (put g u (mkMembership st "" now) d).
Proof.
  intros Hd Hg Hn Hu Hroom Hst. pose proof (gi_gids d Hd g grp Hg) as [Hcg _].
  rewrite <- (add_events_nil (put _ _ _ _)). apply (inv_put (groups d)); try done; [by apply row_ok_pending|by eapply inv_policy| |].
  - right. split; [eauto|by apply not_admin_none].
  - rewrite roster_put. unfold listed. rewrite decide_False by (unfold is_member; simpl; by destruct Hst as [->| ->]).
    rewrite delete_id; [done|]. by rewrite roster_row, Hn.
Qed.

Lemma inv_join g u now d d' : groups_inv d → does (CJoin g u now) d = Some d' → groups_inv d'.
Proof.
  intros Hd. simpl. destruct (groups d !! g) as [grp|] eqn:Hg; [|done]. cbn [mbind option_bind].
  rewrite check_some. intros [(Hn & Hu & Hroom) E]. pose proof (gi_gids d Hd g grp Hg) as [Hcg _].
  destruct (decide _); [|destruct (decide _); [|done]]; injection E as <-.
  - apply (inv_put (groups d)); try done; [apply row_ok_member; by right|by eapply inv_policy| |].
    + right. split; [eauto|by apply not_admin_none].
    + apply replay_joined. congruence.
  - eapply inv_pending; eauto.
Qed.

Lemma inv_promote g u d d' : groups_inv d → does (CPromote g u) d = Some d' → groups_inv d'.
Proof.
  intros Hd. simpl. destruct (memberships d !! (g, u)) as [r|] eqn:Hr; [|done]. cbn [mbind option_bind].
  rewrite check_some. intros [(Hm & Hro) [= <-]]. destruct (gi_group d Hd g u r Hr) as [grp Hg]. destruct (gi_ids d Hd g u r Hr).
  apply (inv_put (groups d)); try done; [apply row_ok_member; by left|by eapply inv_policy|by left|congruence|].
  rewrite roster_put. unfold replay_from, listed. cbn [foldl mbind option_bind apply_event].
  rewrite roster_row, Hr. simpl. unfold listed. by rewrite decide_True.
Qed.

Lemma inv_decide g a s accept d d' : groups_inv d → does (CDecide g a s accept) d = Some d' → groups_inv d'.
Proof.
  intros Hd. simpl. destruct (memberships d !! (g, s)) as [r|] eqn:Hr; [|done]. cbn [mbind option_bind].
  rewrite check_some. intros [(Ha & Hne) E]. destruct accept.
  - rewrite check_some in E. destruct E as [Hst [= <-]]. apply inv_admit; [done..|by right].
  - injection E as <-. eapply inv_drop; [done|exact Hr| |by exists a].
    destruct (decide (is_member r)); split; naive_solver.
Qed.

Lemma inv_answer g u accept d d' : groups_inv d → does (CAnswer g u accept) d = Some d' → groups_inv d'.
Proof.
  intros Hd. simpl. destruct (memberships d !! (g, u)) as [r|] eqn:Hr; [|done]. cbn [mbind option_bind].
  rewrite check_some. intros [Hst [= <-]]. assert (Hp : is_pending r) by by left. destruct accept; [by apply inv_admit|].
  eapply inv_drop; [done|exact Hr| |].
  - pose proof (pending_not_member r Hp). split; naive_solver.
  - apply (other_admin g u r d Hd Hr). intros [Hm _]. by apply pending_not_member in Hp.
Qed.

Lemma inv_leave g u d d' : groups_inv d → does (CLeave g u) d = Some d' → groups_inv d'.
Proof.
  intros Hd. simpl. destruct (memberships d !! (g, u)) as [r|] eqn:Hr; [|done]. cbn [mbind option_bind].
  rewrite check_some. intros [Hg [= <-]]. eapply inv_depart; [done|exact Hr|..].
  - destruct (decide (is_member r)); split; naive_solver.
  - intros Hends%bool_decide_eq_false. apply (other_admin g u r d Hd Hr). intros Ha Hc. apply Hg. split_and!; [done..|].
    destruct Ha as [Hm _]. pose proof (count_member_pos g u r d Hr Hm). destruct (decide (count is_member g d = 1%nat)); [naive_solver|lia].
Qed.

Lemma ginv_purge g u d d' : groups_inv d → does (CPurge g u) d = Some d' → groups_inv d'.
Proof.
  intros Hd. simpl. destruct (memberships d !! (g, u)) as [r|] eqn:Hr; [|done]. intros [= <-].
  eapply inv_depart; [done|exact Hr|by split|].
  intros Hends%bool_decide_eq_false. apply (other_admin g u r d Hd Hr). intros [Hm Hro] Hc. apply Hends. auto.
Qed.

Lemma ginv_create g u name policy now d d' : groups_inv d → does (CCreate g u name policy now) d = Some d' → groups_inv d'.
Proof.
  intros Hd. simpl. rewrite check_some. intros [(Hg & Hn & Hcg & Hcu & Hpol) [= <-]].
  assert (Hempty : rows_of g d = ∅).
  { apply map_empty. intros [g' u']. apply eq_None_not_Some. intros [r [Hr <-]%rows_of_Some].
    destruct (gi_group d Hd _ _ _ Hr) as [? Hx]. simpl in *. congruence. }
  apply inv_put; try done.
  - apply row_ok_member. by left.
  - intros g' Hne. by rewrite lookup_insert_ne.
  - eexists. rewrite lookup_insert_eq. by split.
  - by left.
  - intros _. unfold has_room. rewrite Hempty, map_size_empty. done.
  - pose proof (replay_joined g u ROLE_ADMIN now d) as Hj. unfold replay_from in *. simpl in *. apply Hj. congruence.
Qed.

Lemma inv_expire l d d' : groups_inv d → does (CExpire l) d = Some d' → groups_inv d'.
Proof.
  intros Hd. simpl. rewrite check_some. intros [[Hnd Hl] [= <-]]. rewrite Forall_forall in Hl.
  assert (Hno : ∀ k, k ∈ l → ∃ r, memberships d !! k = Some r ∧ ¬ is_member r).
  { intros k Hk. specialize (Hl k Hk). unfold pending_at in Hl. destruct (memberships d !! k) as [r|]; [|done].
    exists r. split; [done|]. by apply pending_not_member. }
  apply ginv_remove; [done| |].
  - intros g [grp Hg]. destruct (gi_admin d Hd g grp Hg) as [a Ha]. exists a. split; [|done].
    intros (r & Hr & Hm)%Hno. apply admin_of_Some in Ha as (r' & Hr' & [? _]). rewrite Hr in Hr'. injection Hr' as <-. done.
  - apply (replay_leaves _ REASON_EXPIRED l (fun _ => "")). right. split; [done|].
    intros k (r & Hr & Hm)%Hno. rewrite roster_row, Hr. simpl. unfold listed. by rewrite decide_False.
Qed.

Lemma inv_invite g a t now d d' : groups_inv d → does (CInvite g a t now) d = Some d' → groups_inv d'.
Proof.
  intros Hd. simpl. rewrite check_some. intros [(Ha & Hn & Hu & Hroom) [= <-]].
  apply admin_of_Some in Ha as (r & Hr & _). destruct (gi_group d Hd _ _ r Hr) as [grp Hg]. eapply inv_pending; eauto.
Qed.

Lemma ginv_plant u h d d' : groups_inv d → does (CPlant u h) d = Some d' → groups_inv d'.
Proof.
  intros Hd. simpl. rewrite check_some. intros [[Hn Hu] [= <-]]. apply inv_tombs; [done|].
  intros v x. rewrite lookup_insert_Some. intros [[<- _]|[_ Hx]]; [done|by eapply gi_tombs].
Qed.

Lemma ginv_stamp u d d' : groups_inv d → does (CStamp u) d = Some d' → groups_inv d'.
Proof.
  intros Hd [= <-]. apply inv_tombs; [done|]. intros v x Hx. unfold marked in Hx.
  apply lookup_alter_Some in Hx as [(_ & y & Hy & _)|[_ Hy]]; by eapply gi_tombs.
Qed.

Lemma inv_does c d d' : groups_inv d → does c d = Some d' → groups_inv d'.
Proof.
  intros Hd E. destruct c;
    [exact (ginv_create _ _ _ _ _ _ _ Hd E)|exact (inv_join _ _ _ _ _ Hd E)|exact (inv_invite _ _ _ _ _ _ Hd E)
    |exact (inv_answer _ _ _ _ _ Hd E)|exact (inv_decide _ _ _ _ _ _ Hd E)|exact (inv_leave _ _ _ _ Hd E)
    |exact (inv_promote _ _ _ _ Hd E)|exact (inv_expire _ _ _ Hd E)|exact (ginv_plant _ _ _ _ Hd E)
    |exact (ginv_purge _ _ _ _ Hd E)|exact (ginv_stamp _ _ _ Hd E)].
Qed.

(** ** Histories *)

Inductive history : list Cause → GroupsDb → Prop :=
| h_start : history [] empty_groups
| h_next l c d d' : history l d → does c d = Some d' → history (l ++ [c]) d'.

Lemma history_inv l d : history l d → groups_inv d.
Proof. induction 1; [apply groups_inv_empty|by eapply inv_does]. Qed.
End Acts.
