(* ===== verification/GroupsSafety.v ===== *)
(** * GroupsSafety: what the causes of [GroupsActs] guarantee

    How one row can change and by whose doing, over any history from empty tables:
    nobody is a member who did not ask or accept, nobody is an admin who did not found
    the group or was promoted, a row ends only for a stated reason, the roster a
    consumer rebuilds from the events is the one in the tables, and a group's lock
    keeps everything but the expiry of its pending rows away. *)

From Stdlib Require Import Ascii.
From stdpp Require Import sorting pretty.
From S2P Require Import Prelude Text OpsApi Pg Purge Directory Txn Groups GroupsActs.
#[local] Open Scope Z_scope.

Section Safety.
Context `{PgUuid}.

Abbreviation row d g u := (memberships d !! (g, u)).

(** How one cause can change the row of [u] in [g]. *)
Inductive row_change (d d' : GroupsDb) (g u : string) : Cause → Prop :=
| rc_create name policy now :
    row d' g u = Some (mkMembership STATE_MEMBER ROLE_ADMIN now) → row_change d d' g u (CCreate g u name policy now)
| rc_join now st ro :
    (st = STATE_MEMBER ∧ ro = ROLE_MEMBER) ∨ (st = STATE_REQUESTED ∧ ro = "") →
    row d' g u = Some (mkMembership st ro now) → row_change d d' g u (CJoin g u now)
| rc_invite a now :
    admin_of g a d → row d' g u = Some (mkMembership STATE_INVITED "" now) → row_change d d' g u (CInvite g a u now)
| rc_accept r :
    row d g u = Some r → state r = STATE_INVITED →
    row d' g u = Some (mkMembership STATE_MEMBER ROLE_MEMBER (created_at r)) → row_change d d' g u (CAnswer g u true)
| rc_decline r :
    row d g u = Some r → state r = STATE_INVITED → row d' g u = None → row_change d d' g u (CAnswer g u false)
| rc_grant a r :
    admin_of g a d → a ≠ u → row d g u = Some r → state r = STATE_REQUESTED →
    row d' g u = Some (mkMembership STATE_MEMBER ROLE_MEMBER (created_at r)) → row_change d d' g u (CDecide g a u true)
| rc_reject a : admin_of g a d → a ≠ u → row d' g u = None → row_change d d' g u (CDecide g a u false)
| rc_leave : row d' g u = None → row_change d d' g u (CLeave g u)
| rc_left_alone v r :
    v ≠ u → row d g u = Some r → ¬ is_member r → row d' g u = None → row_change d d' g u (CLeave g v)
| rc_promote r :
    row d g u = Some r → is_member r → row d' g u = Some (mkMembership STATE_MEMBER ROLE_ADMIN (created_at r)) →
    row_change d d' g u (CPromote g u)
| rc_expire l r :
    (g, u) ∈ l → row d g u = Some r → is_pending r → row d' g u = None → row_change d d' g u (CExpire l)
| rc_purge : row d' g u = None → row_change d d' g u (CPurge g u)
| rc_orphaned v r :
    v ≠ u → row d g v = Some r → is_member r → (role r = ROLE_ADMIN ∧ count is_admin g d = 1%nat ∨ count is_member g d = 1%nat) →
    row d' g u = None → row_change d d' g u (CPurge g v).

Lemma put_row d g u r g' u' : row (put g u r d) g' u' = if decide ((g', u') = (g, u)) then Some r else row d g' u'.
Proof.
  unfold put. cbn [memberships set_memberships]. destruct (decide _) as [[= -> ->]|Hne]; [by rewrite lookup_insert_eq|].
  by rewrite lookup_insert_ne.
Qed.

Lemma drop_row_row d g u g' u' : row (drop_row g u d) g' u' = if decide ((g', u') = (g, u)) then None else row d g' u'.
Proof.
  unfold drop_row. cbn [memberships set_memberships]. destruct (decide _) as [[= -> ->]|Hne]; [by rewrite lookup_delete_eq|].
  by rewrite lookup_delete_ne.
Qed.

Lemma without_row d g g' u' : row (without g d) g' u' = if decide (g' = g) then None else row d g' u'.
Proof.
  unfold without. cbn [memberships set_groups set_memberships]. destruct (decide (g' = g)) as [->|Hne].
  - apply map_lookup_filter_None. right. intros ? _. simpl. naive_solver.
  - destruct (row d g' u') as [r|] eqn:E; [by apply map_lookup_filter_Some|by apply map_lookup_filter_None; left].
Qed.

Lemma depart_row d g u reason ends g' u' :
  row (depart g u reason ends d) g' u' =
    if decide (g' = g) then if decide (u' = u) then None else if ends : bool then None else row d g' u' else row d g' u'.
Proof.
  unfold depart. destruct ends.
  - change (row (add_events _ _) g' u') with (row (without g (drop_row g u d)) g' u'). rewrite without_row, drop_row_row.
    repeat destruct (decide _); naive_solver.
  - change (row (add_events _ _) g' u') with (row (drop_row g u d) g' u'). rewrite drop_row_row.
    repeat destruct (decide _); naive_solver.
Qed.

(** Two members are two. *)
Lemma two_members g u v r r' d :
  row d g u = Some r → row d g v = Some r' → is_member r → is_member r' → count is_member g d = 1%nat → u = v.
Proof.
  intros Hr Hr' Hm Hm' Hc. destruct (decide (u = v)) as [|Hne]; [done|]. exfalso.
  assert (2 ≤ count is_member g d)%nat; [|lia]. unfold count.
  set (m := filter _ (rows_of g d)).
  assert (Hu : m !! (g, u) = Some r) by (subst m; by rewrite map_lookup_filter_Some, rows_of_Some).
  assert (Hv : m !! (g, v) = Some r') by (subst m; by rewrite map_lookup_filter_Some, rows_of_Some).
  rewrite <- (insert_delete_id m (g, u) r Hu), map_size_insert_None by by rewrite lookup_delete_eq.
  assert (0 < size (delete (g, u) m))%nat; [|lia]. apply Nat.neq_0_lt_0. intros E%map_size_empty_inv.
  assert (Hx : delete (g, u) m !! (g, v) = Some r') by (rewrite lookup_delete_ne by congruence; done). by rewrite E in Hx.
Qed.

Lemma one_row (d d' : GroupsDb) g0 v x g u c :
  (∀ g u, row d' g u = if decide ((g, u) = (g0, v)) then x else row d g u) →
  (row d' g0 v = x → row_change d d' g0 v c) → row d' g u = row d g u ∨ row_change d d' g u c.
Proof.
  intros Hrow Hc. destruct (decide ((g, u) = (g0, v))) as [[= -> ->]|Hne].
  - right. apply Hc. rewrite Hrow. by destruct (decide _).
  - left. rewrite Hrow. by destruct (decide _).
Qed.

(** A departure changes the row that leaves, and every row of the group it ends. *)
Lemma depart_change (d : GroupsDb) g0 v reason ends g u c :
  (row (depart g0 v reason ends d) g0 v = None → row_change d (depart g0 v reason ends d) g0 v c) →
  (ends = true → ∀ w r, w ≠ v → row d g0 w = Some r → row (depart g0 v reason ends d) g0 w = None →
     row_change d (depart g0 v reason ends d) g0 w c) →
  row (depart g0 v reason ends d) g u = row d g u ∨ row_change d (depart g0 v reason ends d) g u c.
Proof.
  intros H1 H2. pose proof (depart_row d g0 v reason ends g u) as Hrow.
  destruct (decide (g = g0)) as [->|Hg]; [|by left]. destruct (decide (u = v)) as [->|Hu]; [right; by apply H1|].
  destruct ends; [|by left]. destruct (row d g0 u) as [r|] eqn:E; [right; by eapply H2|left; done].
Qed.

(** A row that changes does so in one of these ways. *)
Lemma does_row c d d' g u : does c d = Some d' → row d' g u = row d g u ∨ row_change d d' g u c.
Proof.
  destruct c as [g0 v name policy now|g0 v now|g0 a t now|g0 v accept|g0 a v accept|g0 v|g0 v|l|v h|g0 v|v]; simpl does.
  - rewrite check_some. intros [_ [= <-]]. eapply one_row; [intros; exact (put_row (set_groups _ d) _ _ _ _ _)|]. by apply rc_create.
  - destruct (groups d !! g0) as [grp|]; [|done]. cbn [mbind option_bind]. rewrite check_some. intros [_ E].
    destruct (decide _); [|destruct (decide _); [|done]]; injection E as <-; (eapply one_row; [intros; apply put_row|]).
    + apply rc_join. by left.
    + apply rc_join. by right.
  - rewrite check_some. intros [(Ha & _) [= <-]]. eapply one_row; [intros; apply put_row|]. by apply rc_invite.
  - destruct (row d g0 v) as [r|] eqn:Hr; [|done]. cbn [mbind option_bind]. rewrite check_some. intros [Hst [= <-]].
    destruct accept; (eapply one_row; [intros; (apply put_row || apply drop_row_row)|]); [by eapply rc_accept|by eapply rc_decline].
  - destruct (row d g0 v) as [r|] eqn:Hr; [|done]. cbn [mbind option_bind]. rewrite check_some. intros [[Ha Hne] E].
    destruct accept; [rewrite check_some in E; destruct E as [Hst [= <-]]|injection E as <-];
      (eapply one_row; [intros; (apply put_row || apply drop_row_row)|]); [by eapply rc_grant|by eapply rc_reject].
  - destruct (row d g0 v) as [r|] eqn:Hr; [|done]. cbn [mbind option_bind]. rewrite check_some. intros [_ [= <-]].
    apply depart_change; [by apply rc_leave|]. intros [Hm Hc]%bool_decide_eq_true w r' Hw Hr' Hn.
    eapply rc_left_alone; [done|exact Hr'| |done]. intros Hm'. apply Hw. by eapply two_members.
  - destruct (row d g0 v) as [r|] eqn:Hr; [|done]. cbn [mbind option_bind]. rewrite check_some. intros [[Hm _] [= <-]].
    eapply one_row; [intros; apply put_row|]. by eapply rc_promote.
  - rewrite check_some. intros [[_ Hl] [= <-]]. unfold remove_rows. cbn [memberships add_events set_memberships].
    rewrite foldr_delete_lookup. destruct (decide ((g, u) ∈ l)) as [Hin|]; [right|by left].
    rewrite Forall_forall in Hl. specialize (Hl _ Hin). unfold pending_at in Hl. destruct (row d g u) as [r|] eqn:E; [|done].
    eapply rc_expire; [done|done|done|]. cbn [memberships add_events set_memberships]. rewrite foldr_delete_lookup. by destruct (decide _).
  - rewrite check_some. intros [_ [= <-]]. by left.
  - destruct (row d g0 v) as [r|] eqn:Hr; [|done]. intros [= <-].
    apply depart_change; [by apply rc_purge|]. intros [Hm Hc]%bool_decide_eq_true w r' Hw Hr' Hn.
    eapply rc_orphaned; [done|exact Hr|done|naive_solver|done].
  - intros [= <-]. by left.
Qed.

(** ** Locks *)

(** The group lock a cause is carried out under. *)
Definition lock_of (c : Cause) : option Z :=
  match c with
  | CJoin g _ _ | CInvite g _ _ _ | CAnswer g _ _ | CDecide g _ _ _ | CLeave g _ | CPromote g _ | CPurge g _ => Some (group_lock_key g)
  | CCreate _ _ _ _ _ | CExpire _ | CPlant _ _ | CStamp _ => None
  end.

(** What can happen to a group while its lock is held by somebody else. *)
Definition held (g : string) (d d' : GroupsDb) : Prop :=
  is_Some (groups d !! g) →
  groups d' !! g = groups d !! g ∧
  ∀ u, row d' g u = row d g u ∨ ∃ r, row d g u = Some r ∧ is_pending r ∧ row d' g u = None.

#[global] Instance held_refl g : Reflexive (held g).
Proof. intros d _. auto. Qed.

#[global] Instance held_trans g : Transitive (held g).
Proof.
  intros d1 d2 d3 H12 H23 Hg. destruct (H12 Hg) as [E1 R1]. destruct H23 as [E2 R2]; [by rewrite E1|].
  split; [congruence|]. intros u. destruct (R1 u) as [Hu|(r & Hr & Hp & Hn)], (R2 u) as [Hu2|(r2 & Hr2 & Hp2 & Hn2)].
  - left. congruence.
  - right. exists r2. split_and!; [congruence|done|done].
  - right. exists r. split_and!; [done|done|congruence].
  - congruence.
Qed.

Lemma depart_groups g u reason ends d g' : g' ≠ g → groups (depart g u reason ends d) !! g' = groups d !! g'.
Proof. intros Hne. unfold depart. destruct ends; simpl; [by rewrite lookup_delete_ne|done]. Qed.

Lemma does_groups c d d' g :
  does c d = Some d' → lock_of c ≠ Some (group_lock_key g) → is_Some (groups d !! g) → groups d' !! g = groups d !! g.
Proof.
  destruct c as [g0 v name policy now|g0 v now|g0 a t now|g0 v accept|g0 a v accept|g0 v|g0 v|l|v h|g0 v|v]; simpl does; intros E Hk Hg.
  - rewrite check_some in E. destruct E as [(Hn & _) [= <-]]. simpl. rewrite lookup_insert_ne; [done|].
    intros ->. rewrite Hn in Hg. by destruct Hg.
  - destruct (groups d !! g0); [|done]. cbn [mbind option_bind] in E. rewrite check_some in E. destruct E as [_ E].
    destruct (decide _); [|destruct (decide _); [|done]]; by injection E as <-.
  - rewrite check_some in E. by destruct E as [_ [= <-]].
  - destruct (row d g0 v); [|done]. cbn [mbind option_bind] in E. rewrite check_some in E. destruct E as [_ [= <-]]. by destruct accept.
  - destruct (row d g0 v); [|done]. cbn [mbind option_bind] in E. rewrite check_some in E. destruct E as [_ E].
    destruct accept; [rewrite check_some in E; destruct E as [_ E]|]; by injection E as <-.
  - destruct (row d g0 v); [|done]. cbn [mbind option_bind] in E. rewrite check_some in E. destruct E as [_ [= <-]].
    apply depart_groups. intros ->. by apply Hk.
  - destruct (row d g0 v); [|done]. cbn [mbind option_bind] in E. rewrite check_some in E. by destruct E as [_ [= <-]].
  - rewrite check_some in E. by destruct E as [_ [= <-]].
  - rewrite check_some in E. by destruct E as [_ [= <-]].
  - destruct (row d g0 v); [|done]. injection E as <-. apply depart_groups. intros ->. by apply Hk.
  - by injection E as <-.
Qed.

(** A cause that needs no lock of [g] leaves [g] alone, but for expired pending rows. *)
Lemma does_held c d d' g : groups_inv d → does c d = Some d' → lock_of c ≠ Some (group_lock_key g) → held g d d'.
Proof.
  intros Hd E Hk Hg. split; [by eapply does_groups|]. intros u. destruct (does_row c d d' g u E) as [Hu|Hc]; [by left|right].
  destruct Hc; simpl in Hk; try (by destruct Hk).
  - exfalso. simpl in E. rewrite check_some in E. destruct E as [(Hn & _) _]. rewrite Hn in Hg. by destruct Hg.
  - eauto.
Qed.

(** ** Theorems *)


(** The events of the durable log alone give the members of every group and their
    roles: a consumer that replays them never meets an event that does not fit, and
    ends with the roster of the tables. *)
Theorem groups_log_complete l d : history l d → replay (appended d) = Some (roster d).
Proof. intros Hd%history_inv. apply (gi_log d Hd). Qed.

(** The player's own act of entering a group. *)
Definition entered (g u : string) (c : Cause) : Prop :=
  (∃ name policy now, c = CCreate g u name policy now) ∨ (∃ now, c = CJoin g u now) ∨ c = CAnswer g u true.

Definition raised (g u : string) (c : Cause) : Prop := (∃ name policy now, c = CCreate g u name policy now) ∨ c = CPromote g u.

Record traced (l : list Cause) (g u : string) (r : Membership) : Prop := {
  tr_member : is_member r → ∃ c, c ∈ l ∧ entered g u c;
  tr_requested : state r = STATE_REQUESTED → ∃ now, CJoin g u now ∈ l;
  tr_invited : state r = STATE_INVITED → ∃ a now, CInvite g a u now ∈ l;
  tr_admin : is_admin r → ∃ c, c ∈ l ∧ raised g u c;
}.

Lemma traced_more l c g u r : traced l g u r → traced (l ++ [c]) g u r.
Proof.
  assert (Hin : ∀ x, x ∈ l → x ∈ l ++ [c]) by set_solver. intros []. split; naive_solver.
Qed.

Lemma traced_change l d d' c g u r :
  (∀ r, row d g u = Some r → traced l g u r) → row_change d d' g u c → row d' g u = Some r → traced (l ++ [c]) g u r.
Proof.
  intros IH Hc Hr. assert (Hin : c ∈ l ++ [c]) by set_solver.
  destruct Hc as [nm pol now E|now st ro Hst E|a now _ E|r0 H0 Hs E|? ? ? E|a r0 _ _ H0 Hs E|? ? ? E|E|? ? ? ? ? E|r0 H0 Hm E|? ? ? ? ? E|E|? ? ? ? ? ? E];
    rewrite E in Hr; try done; injection Hr as <-.
  - split; intros Hx; [exists (CCreate g u nm pol now); split; [done|left; eauto]|done|done|exists (CCreate g u nm pol now); split; [done|left; eauto]].
  - split; intros Hx.
    + exists (CJoin g u now). split; [done|]. right. left. eauto.
    + eauto.
    + destruct Hst as [[-> _]|[-> _]]; done.
    + destruct Hx as [_ Hx]. destruct Hst as [[_ ->]|[_ ->]]; done.
  - split; intros Hx; [done|done|eauto|by destruct Hx].
  - split; intros Hx; [exists (CAnswer g u true); split; [done|right; by right]|done|done|by destruct Hx].
  - destruct (tr_requested _ _ _ _ (IH r0 H0) Hs) as [now Hj].
    split; intros Hx; [exists (CJoin g u now); split; [set_solver|right; left; eauto]|done|done|by destruct Hx].
  - split; intros Hx; [|done|done|exists (CPromote g u); split; [done|by right]].
    destruct (tr_member _ _ _ _ (IH r0 H0) Hm) as (x & ? & ?). exists x. split; [set_solver|done].
Qed.

Lemma history_traced l d g u r : history l d → row d g u = Some r → traced l g u r.
Proof.
  intros Hh. revert r. induction Hh as [|l c d d' Hh IH E]; intros r Hr; [done|].
  destruct (does_row c d d' g u E) as [Hu|Hc]; [rewrite Hu in Hr; by apply traced_more, IH|]. by eapply traced_change.
Qed.


(** Whose doing the end of a row is. *)
Definition ended_by (d : GroupsDb) (g u : string) (r : Membership) (c : Cause) : Prop :=
  match c with
  | CLeave g' v => g' = g ∧ (v = u ∨ ¬ is_member r)
  | CAnswer g' v accept => g' = g ∧ v = u ∧ accept = false ∧ state r = STATE_INVITED
  | CDecide g' a v accept => g' = g ∧ v = u ∧ accept = false ∧ admin_of g a d ∧ a ≠ u
  | CExpire l => (g, u) ∈ l ∧ is_pending r
  | CPurge g' v => g' = g ∧ (v = u ∨ ∃ r', row d g v = Some r' ∧ is_member r' ∧
                     (role r' = ROLE_ADMIN ∧ count is_admin g d = 1%nat ∨ count is_member g d = 1%nat))
  | _ => False
  end.

(** A membership ends only by the player's own leave or refusal, by another admin's
    decision, by account deletion, or with the group - when its last member leaves or
    its last admin's account is deleted; a pending row may also expire, a member's never. *)
Theorem rows_end_for_cause d c d' g u r :
  does c d = Some d' → row d g u = Some r → row d' g u = None → ended_by d g u r c.
Proof.
  intros E Hr Hn. destruct (does_row c d d' g u E) as [Hu|Hc]; [congruence|].
  destruct Hc as [|? ? ? ? E1|? ? ? E1|? ? ? E1|r0 H0 Hs|? ? ? ? ? ? E1|a Ha Hne| |v r0 Hv H0 Hm|? ? ? E1|k r0 Hk H0 Hp| |v r0 Hv H0 Hm Hc]; try congruence;
    rewrite ?Hr in *; simplify_eq; simpl; auto 10.
  split; [done|]. right. exists r0. auto.
Qed.
End Safety.

(** A small history: Ann founds a guild, Bob asks and is let in, Cat is invited. *)
Module GroupsExample.
#[local] Existing Instance plain_uuid.

Definition gid : string := "aaaaaaaa-0000-4000-8000-000000000001".
Definition ann : string := "11111111-0000-4000-8000-000000000001".
Definition bob : string := "22222222-0000-4000-8000-000000000002".
Definition cat : string := "33333333-0000-4000-8000-000000000003".

Definition story : list Cause :=
  [CCreate gid ann "Guild" JOIN_REQUEST 1; CJoin gid bob 2; CDecide gid ann bob true; CInvite gid ann cat 3].

Definition tell (l : list Cause) : option GroupsDb := foldl (fun d c => d ≫= does c) (Some empty_groups) l.

Lemma tell_history l d : tell l = Some d → history l d.
Proof.
  unfold tell. revert d. induction l as [|c l IH] using rev_ind; intros d; simpl; [intros [= <-]; constructor|].
  rewrite foldl_snoc. destruct (foldl _ _ l) as [d0|]; [|done]. simpl. intros E. econstructor; [by apply IH|done].
Qed.

Definition told (l : list Cause) : GroupsDb := default empty_groups (tell l).

Definition holds_up (l : list Cause) : bool := if tell l is Some _ then true else false.

Lemma told_history l : holds_up l = true → history l (told l).
Proof. unfold holds_up, told. intros E. apply tell_history. by destruct (tell l). Qed.

Lemma story_history : history story (told story).
Proof. apply told_history. vm_compute. reflexivity. Qed.


Lemma groups_log_complete_witness :
  replay (appended (told story)) = Some (roster (told story)) ∧ roster (told story) !! (gid, bob) = Some ROLE_MEMBER.
Proof. split; [exact (groups_log_complete story _ story_history)|vm_compute; reflexivity]. Defined.


(** Ann throws Bob out. *)
Lemma rows_end_for_cause_witness :
  ended_by (told story) gid bob (mkMembership STATE_MEMBER ROLE_MEMBER 2) (CDecide gid ann bob false).
Proof.
  destruct (does (CDecide gid ann bob false) (told story)) as [d'|] eqn:E.
  - apply (rows_end_for_cause _ _ d'); [exact E|vm_compute; reflexivity|].
    enough (Hn : (does (CDecide gid ann bob false) (told story) ≫= fun d => memberships d !! (gid, bob)) = None) by (by rewrite E in Hn).
    vm_compute. reflexivity.
  - exfalso. apply (f_equal (fun o => if o is Some _ then true else false)) in E. vm_compute in E. discriminate E.
Defined.
End GroupsExample.
