(* ===== verification/GroupsContract.v ===== *)
(** * GroupsContract: the group operations refine the causes

    Whatever other transactions commit between the statements of an operation - as
    long as they leave alone the group whose lock it holds - the operation changes the
    tables only by causes its authenticated caller is entitled to.  The handlers of
    the durable plane do the same, and come to an end. *)

From Stdlib Require Import Ascii.
From stdpp Require Import sorting pretty.
From S2P Require Import Prelude Text OpsApi Pg Purge Directory Txn Groups GroupsActs GroupsSafety.
#[local] Open Scope Z_scope.

Section Statements.
Context `{PgUuid}.

(** ** What a statement that succeeds has done *)

Lemma or_missing_found {A} (m : ST GroupsDb SqlError (option A)) d d' x :
  or_missing m d = (d', Ok (Some x)) → m d = (d', Ok (Some x)).
Proof. unfold or_missing. destruct (m d) as [d1 [a|[]]]; congruence. Qed.

Lemma snd_ok {E A} (m : ST GroupsDb E A) d a : snd (m d) = Ok a → ∃ d', m d = (d', Ok a).
Proof. destruct (m d) as [d' r]. simpl. intros ->. eauto. Qed.

Lemma join_policy_ok gid d pol g :
  snd (join_policy_tx gid d) = Ok (Some (pol, g)) → uuid_in gid = Some g ∧ ∃ grp, groups d !! g = Some grp ∧ join_policy grp = pol.
Proof.
  intros [d' E%or_missing_found]%snd_ok. pg_inv E. injection E as <- E.
  destruct (groups d !! _) as [grp|] eqn:Eg; [|done]. injection E as <- <-. eauto.
Qed.

Lemma group_name_ok gid d name g :
  snd (group_name_tx gid d) = Ok (Some (name, g)) → uuid_in gid = Some g ∧ is_Some (groups d !! g).
Proof.
  intros [d' E%or_missing_found]%snd_ok. pg_inv E. injection E as <- E.
  destruct (groups d !! _) as [grp|] eqn:Eg; [|done]. injection E as <- <-. eauto.
Qed.

Lemma membership_ok gid p d st ro u :
  snd (membership_tx gid p d) = Ok (Some (st, ro, u)) →
  ∃ g r, uuid_in gid = Some g ∧ uuid_in p = Some u ∧ memberships d !! (g, u) = Some r ∧ state r = st ∧ role r = ro.
Proof.
  intros [d' E%or_missing_found]%snd_ok. pg_inv E. injection E as <- E.
  destruct (memberships d !! _) as [r|] eqn:Er; [|done]. injection E as <- <- <-. eauto 10.
Qed.

Lemma visible_admin_ok gid p d ro u :
  snd (visible_role_tx gid p STATE_MEMBER ROLE_ADMIN d) = Ok (Some (ro, u)) →
  ∃ g, uuid_in gid = Some g ∧ uuid_in p = Some u ∧ admin_of g u d.
Proof.
  intros [d' E%or_missing_found]%snd_ok. pg_inv E. injection E as <- E.
  destruct (memberships d !! _) as [r|] eqn:Er; [|done]. destruct (bool_decide (state r = _)) eqn:Es; [|done]. simpl in E.
  case_bool_decide as Hr; [|done]. injection E as <- <-. apply bool_decide_eq_true in Es.
  eexists. split_and!; [done|done|]. apply admin_of_Some. exists r. split; [done|]. split; [done|]. by destruct Hr.
Qed.

Lemma counts_ok gid d c :
  snd (counts_tx gid STATE_MEMBER ROLE_ADMIN d) = Ok c →
  ∃ g, uuid_in gid = Some g ∧ rows c = Z.of_nat (size (rows_of g d)) ∧ members c = Z.of_nat (count is_member g d)
    ∧ admins c = Z.of_nat (count is_admin g d).
Proof.
  intros [d' E]%snd_ok. unfold counts_tx in E. pg_inv E. injection E as <- <-. eexists. split; [done|].
  unfold counts_of, count. simpl. split_and!; [done|..]; f_equal; f_equal; apply map_filter_ext; done.
Qed.

Lemma membership_checks_ok st ro (d d' : GroupsDb) : membership_checks st ro d = (d', Ok ()) → d' = d.
Proof. unfold membership_checks. repeat case_match; by intros [= <-]. Qed.

Lemma insert_membership_ok now gid p st ro d d' g u at_ :
  insert_membership_tx now gid p st ro d = (d', Ok (Some (g, u, at_))) →
  uuid_in gid = Some g ∧ uuid_in p = Some u ∧ at_ = now ∧ memberships d !! (g, u) = None ∧ d' = put g u (mkMembership st ro now) d.
Proof.
  unfold insert_membership_tx. intros E. pg_inv E. apply st_bind_ok in E as (d1 & [] & ->%membership_checks_ok & E).
  apply st_bind_ok in E as (d2 & ms & [= <- <-] & E). destruct (memberships d !! _) eqn:Em; [done|].
  apply st_bind_ok in E as (d3 & [] & [= <-] & E). injection E as <- <- <- <-. done.
Qed.

Lemma promote_ok gid p from st ro d d' g u :
  promote_tx gid p from st ro d = (d', Ok (Some (g, u))) →
  ∃ r, uuid_in gid = Some g ∧ uuid_in p = Some u ∧ memberships d !! (g, u) = Some r ∧ state r = from
    ∧ d' = put g u (mkMembership st ro (created_at r)) d.
Proof.
  unfold promote_tx. intros E. pg_inv E. destruct (memberships d !! _) as [r|] eqn:Em; [|done].
  case_bool_decide as Hs; [|done]. apply st_bind_ok in E as (d1 & [] & ->%membership_checks_ok & E).
  apply st_bind_ok in E as (d3 & [] & [= <-] & E). injection E as <- <- <-. eauto 10.
Qed.

Lemma delete_membership_ok gid p d d' st ro g u :
  delete_membership_tx gid p d = (d', Ok (Some (st, ro, g, u))) →
  ∃ r, uuid_in gid = Some g ∧ uuid_in p = Some u ∧ memberships d !! (g, u) = Some r ∧ st = state r ∧ ro = role r ∧ d' = drop_row g u d.
Proof.
  intros E%or_missing_found. pg_inv E. destruct (memberships d !! _) as [r|] eqn:Em; [|done].
  apply st_bind_ok in E as (d3 & [] & [= <-] & E). injection E as <- <- <- <- <-. eauto 10.
Qed.

Lemma delete_group_ok g d d' l : canonical g → delete_group_tx g d = (d', Ok l) → l = players_of g d ∧ d' = without g d.
Proof.
  intros Hg E. unfold delete_group_tx in E.
  apply st_bind_ok in E as (d1 & [] & [-> _]%pg_bind_ok & E). apply st_bind_ok in E as (d2 & g' & [-> Hg']%pg_cast_ok & E).
  rewrite Hg in Hg'. injection Hg' as <-. apply st_bind_ok in E as (d3 & ? & [= <- <-] & E).
  apply st_bind_ok in E as (d4 & [] & [= <-] & E). apply st_bind_ok in E as (d5 & [] & [= <-] & E). by injection E as <- <-.
Qed.

Lemma insert_group_ok now fresh name pol me d d' g u at_ :
  insert_group_tx now fresh name pol me d = (d', Ok (g, u, at_)) →
  g = fresh ∧ uuid_in me = Some u ∧ at_ = now ∧ groups d !! g = None ∧ valid_policy pol
  ∧ d' = set_groups (<[g := mkGroup name pol u now]> (groups d)) d.
Proof.
  unfold insert_group_tx. intros E. pg_inv E. repeat case_bool_decide; simpl in E; try done.
  apply st_bind_ok in E as (d3 & [] & [= <-] & E). injection E as <- <- <- <-. split_and!; try done. by apply eq_None_not_Some.
Qed.

Lemma emit_all_ok {E} l (d : GroupsDb) : emit_all (E := E) l d = (add_events l d, Ok ()).
Proof.
  revert d. induction l as [|e l IH]; intros d; simpl; [by rewrite add_events_nil|].
  rewrite (st_bind_run _ _ d (add_events [e] d) ()) by done. rewrite IH. unfold add_events. simpl. by rewrite <- app_assoc.
Qed.

(** ** What the writes of an operation amount to *)

Lemma create_writes_does now fresh name pol me d d' a :
  canonical fresh → create_writes now fresh name pol me d = (d', Ok a) →
  ∃ u, uuid_in me = Some u ∧ does (CCreate fresh u name pol now) d = Some d'.
Proof.
  intros Hf E. unfold create_writes in E. apply st_bind_ok in E as (d1 & [[g u] at_] & E1%st_map_err_ok & E).
  apply insert_group_ok in E1 as (-> & Hu & -> & Hg & Hpol & ->).
  apply st_bind_ok in E as (d2 & j & E2%st_map_err_ok & E). destruct j as [[[g2 u2] a2]|]; [|done].
  apply insert_membership_ok in E2 as (Hg2 & Hu2 & _ & Hn & ->). rewrite Hf in Hg2. injection Hg2 as <-.
  rewrite (uuid_in_canonical _ _ Hu) in Hu2. injection Hu2 as <-.
  apply st_bind_ok in E as (d3 & [] & [= <-] & E). apply st_bind_ok in E as (d4 & [] & [= <-] & E). injection E as <- <-.
  exists u. split; [done|]. simpl. rewrite check_run by (split_and!; try done; by apply (uuid_in_canonical me)).
  unfold add_events, put, set_groups, set_memberships. simpl. by rewrite <- app_assoc.
Qed.

Lemma admitted_ok pol st ro :
  admitted pol = Ok (st, ro) →
  (pol = JOIN_OPEN ∧ st = STATE_MEMBER ∧ ro = ROLE_MEMBER) ∨ (pol = JOIN_REQUEST ∧ st = STATE_REQUESTED ∧ ro = "").
Proof. unfold admitted. repeat case_bool_decide; intros [= <- <-]; auto. Qed.

Lemma join_writes_does now g me st ro handle grp d d' a :
  canonical g → groups d !! g = Some grp → admitted (join_policy grp) = Ok (st, ro) → has_room g d →
  join_writes now g me st ro handle d = (d', Ok a) → ∃ u, uuid_in me = Some u ∧ does (CJoin g u now) d = Some d'.
Proof.
  intros Hg Hgrp Hadm Hroom E. unfold join_writes in E. apply st_bind_ok in E as (d1 & [[[g2 u] at_]|] & E1%st_map_err_ok & E); [|done].
  apply insert_membership_ok in E1 as (Hg2 & Hu & -> & Hn & ->). rewrite Hg in Hg2. injection Hg2 as <-.
  exists u. split; [done|]. simpl. rewrite Hgrp. cbn [mbind option_bind].
  rewrite check_run by (split_and!; [done|by apply (uuid_in_canonical me)|done]).
  apply admitted_ok in Hadm as [(Hp & -> & ->)|(Hp & -> & ->)]; rewrite Hp.
  - rewrite decide_True by done. apply st_bind_ok in E as (d2 & [] & [= <-] & E). by injection E as <- <-.
  - rewrite decide_False, decide_True by done. apply st_bind_ok in E as (d2 & [] & [= <-] & E). by injection E as <- <-.
Qed.

Lemma invite_writes_does now gid g a t d d' x :
  uuid_in gid = Some g → admin_of g a d → has_room g d → invite_writes now gid t d = (d', Ok x) →
  ∃ v, uuid_in t = Some v ∧ does (CInvite g a v now) d = Some d'.
Proof.
  intros Hg Ha Hroom E. unfold invite_writes in E. apply st_bind_ok in E as (d1 & [[[g2 u] at_]|] & E1%st_map_err_ok & E); [|done].
  apply insert_membership_ok in E1 as (Hg2 & Hu & -> & Hn & ->). rewrite Hg in Hg2. injection Hg2 as <-. injection E as <- _.
  exists u. split; [done|]. simpl. by rewrite check_run by (split_and!; [done|done|by apply (uuid_in_canonical t)|done]).
Qed.

Lemma respond_writes_does gid g me accept d d' x :
  uuid_in gid = Some g → (∀ u r, uuid_in me = Some u → memberships d !! (g, u) = Some r → state r = STATE_INVITED) →
  respond_writes gid me accept d = (d', Ok x) → ∃ u, uuid_in me = Some u ∧ does (CAnswer g u accept) d = Some d'.
Proof.
  intros Hg Hinv E. unfold respond_writes in E. destruct accept.
  - apply st_bind_ok in E as (d1 & [[g2 u]|] & E1%st_map_err_ok & E); [|done].
    apply promote_ok in E1 as (r & Hg2 & Hu & Hr & Hs & ->). rewrite Hg in Hg2. injection Hg2 as <-. injection E as <- _.
    exists u. split; [done|]. simpl. rewrite Hr. cbn [mbind option_bind]. by rewrite check_run.
  - apply st_bind_ok in E as (d1 & [[[[st ro] g2] u]|] & E1%st_map_err_ok & E); [|done].
    apply delete_membership_ok in E1 as (r & Hg2 & Hu & Hr & -> & -> & ->). rewrite Hg in Hg2. injection Hg2 as <-. injection E as <- _.
    exists u. split; [done|]. simpl. rewrite Hr. cbn [mbind option_bind]. by rewrite check_run by by eapply Hinv.
Qed.

Lemma grant_writes_does gid g sid a d d' x :
  uuid_in gid = Some g → admin_of g a d → uuid_in sid ≠ Some a → grant_writes gid sid d = (d', Ok x) →
  ∃ v, uuid_in sid = Some v ∧ does (CDecide g a v true) d = Some d'.
Proof.
  intros Hg Ha Hne E. unfold grant_writes in E. apply st_bind_ok in E as (d1 & [[g2 u]|] & E1%st_map_err_ok & E); [|done].
  apply promote_ok in E1 as (r & Hg2 & Hu & Hr & Hs & ->). rewrite Hg in Hg2. injection Hg2 as <-. injection E as <- _.
  exists u. split; [done|]. simpl. rewrite Hr. cbn [mbind option_bind]. rewrite !check_run; [done|done|]. split; [done|]. intros ->. done.
Qed.

Lemma wire_state_ok st w : wire_state st = Ok w → w = st.
Proof. unfold wire_state. repeat case_bool_decide; intros [= <-]; done. Qed.

Lemma kicked_reason r (a b : string) : (if bool_decide (state r = STATE_MEMBER) then a else b) = if decide (is_member r) then a else b.
Proof. unfold is_member. case_bool_decide; [by rewrite decide_True|by rewrite decide_False]. Qed.

Lemma reject_writes_does gid g sid a d d' x :
  uuid_in gid = Some g → admin_of g a d → uuid_in sid ≠ Some a → reject_writes gid sid a d = (d', Ok x) →
  ∃ v, uuid_in sid = Some v ∧ does (CDecide g a v false) d = Some d'.
Proof.
  intros Hg Ha Hne E. unfold reject_writes in E. apply st_bind_ok in E as (d1 & [[[[st ro] g2] u]|] & E1%st_map_err_ok & E); [|done].
  apply delete_membership_ok in E1 as (r & Hg2 & Hu & Hr & -> & -> & ->). rewrite Hg in Hg2. injection Hg2 as <-.
  apply st_bind_ok in E as (d2 & w & [-> ->%wire_state_ok]%st_lift_ok & E). injection E as <- _.
  exists u. split; [done|]. simpl. rewrite Hr. cbn [mbind option_bind]. rewrite check_run by (split; [done|by intros ->]).
  by rewrite kicked_reason.
Qed.

Lemma promote_writes_does g name p u d d' x :
  uuid_in g = Some g → uuid_in p = Some u → (∀ r, memberships d !! (g, u) = Some r → role r ≠ ROLE_ADMIN) →
  promote_writes g name p d = (d', Ok x) → does (CPromote g u) d = Some d'.
Proof.
  intros Hg Hp Hro E. unfold promote_writes in E. apply st_bind_ok in E as (d1 & [[g2 u2]|] & E1%st_map_err_ok & E); [|done].
  apply promote_ok in E1 as (r & Hg2 & Hu & Hr & Hs & ->). rewrite Hg in Hg2. injection Hg2 as <-. rewrite Hp in Hu. injection Hu as <-.
  apply st_bind_ok in E as (d2 & [] & [= <-] & E). injection E as <- _.
  simpl. rewrite Hr. cbn [mbind option_bind]. rewrite check_run; [done|]. split; [done|by apply Hro].
Qed.

Lemma leave_writes_does counts gid g me u0 r0 d d' x :
  uuid_in gid = Some g → uuid_in me = Some u0 → (∀ r, memberships d !! (g, u0) = Some r → r = r0) →
  members counts = Z.of_nat (count is_member g d) → admins counts = Z.of_nat (count is_admin g d) →
  (is_admin r0 → admins counts = 1 → ¬ 1 < members counts) →
  leave_writes counts gid me d = (d', Ok x) → does (CLeave g u0) d = Some d'.
Proof.
  intros Hg Hu0 Hr0 Hm Ha Hlast E. unfold leave_writes in E.
  apply st_bind_ok in E as (d1 & [[[[st ro] g2] u]|] & E1%st_map_err_ok & E); [|done].
  apply delete_membership_ok in E1 as (r & Hg2 & Hu & Hr & -> & -> & ->). rewrite Hg in Hg2. injection Hg2 as <-. rewrite Hu0 in Hu. injection Hu as <-.
  pose proof (Hr0 r Hr) as ->.
  apply st_bind_ok in E as (d2 & w & [-> ->%wire_state_ok]%st_lift_ok & E).
  simpl. rewrite Hr. cbn [mbind option_bind]. rewrite check_run by (intros (Ha' & Hc & Hlt); apply Hlast; [done|lia|lia]).
  f_equal. unfold depart. apply st_bind_ok in E as (d2 & swept & E1 & E).
  apply st_bind_ok in E as (d3 & [] & [= <-] & E). rewrite emit_all_ok in E. injection E as <- _.
  assert (Hb : bool_decide (state r0 = STATE_MEMBER) && (members counts =? 1) = bool_decide (is_member r0 ∧ count is_member g d = 1%nat)).
  { rewrite Hm. destruct (decide (is_member r0)) as [Hs|Hs].
    - rewrite (bool_decide_eq_true_2 (state r0 = STATE_MEMBER)) by done. simpl.
      destruct (Z.eqb_spec (Z.of_nat (count is_member g d)) 1); symmetry;
        [apply bool_decide_eq_true_2; split; [done|lia]|apply bool_decide_eq_false_2; intros [_ ?]; lia].
    - by rewrite !bool_decide_eq_false_2 by naive_solver. }
  rewrite Hb in E1. pose proof (kicked_reason r0 REASON_LEFT REASON_DECLINED) as Hre.
  destruct (bool_decide (is_member r0 ∧ _)).
  - apply st_map_err_ok, delete_group_ok in E1 as [-> ->]; [|by apply (uuid_in_canonical gid)].
    unfold without, add_events, drop_row, set_groups, set_memberships, dissolved. simpl. by rewrite <- app_assoc, Hre.
  - injection E1 as <- <-. unfold add_events, drop_row, set_memberships. simpl. by rewrite !app_nil_r, Hre.
Qed.
End Statements.

#[global] Instance groups_causes `{PgUuid} : Causes GroupsDb Cause := {
  Txn.does := GroupsActs.does; locks_of := fun c => option_list (lock_of c); sound := groups_inv; sound_does := inv_does;
}.

Section Contract.
Context `{PgUuid} (env : GEnv).

(** ** Interference *)

(** What the other tasks are up to, whatever that is. *)
Variable Q : Cause → Prop.

Abbreviation tri := (tri Q).
Abbreviation stable := (stable Q).

Hypothesis meanwhile_others : ∀ t L d, rtc (others Q L) d (meanwhile (world env) t L d).
Hypothesis fresh_canonical : ∀ t, canonical (fresh env t).

(** ** What a held lock preserves *)

Lemma held_rows g d d' : held g d d' → is_Some (groups d !! g) → (size (rows_of g d') ≤ size (rows_of g d))%nat.
Proof.
  intros Hh Hg. destruct (Hh Hg) as [_ Hr]. apply size_subseteq. intros [g' u] r. rewrite !rows_of_Some. intros [Hu Hg']. simpl in *. subst.
  split; [|done]. destruct (Hr u) as [E|(? & _ & _ & E)]; congruence.
Qed.

Lemma held_count (P : Membership → Prop) `{∀ r, Decision (P r)} g d d' :
  (∀ r, P r → is_member r) → held g d d' → is_Some (groups d !! g) → count P g d' = count P g d.
Proof.
  intros HP Hh Hg. destruct (Hh Hg) as [_ Hr]. unfold count. f_equal. apply map_eq. intros [g' u]. apply option_eq. intros r.
  rewrite !map_lookup_filter_Some, !rows_of_Some. simpl. split; intros [[Hu <-] Hp]; (split; [split; [|done]|done]).
  - destruct (Hr u) as [E|(? & _ & _ & E)]; congruence.
  - destruct (Hr u) as [E|(r' & E1 & E2 & _)]; [congruence|]. rewrite Hu in E1. injection E1 as <-.
    exfalso. eapply pending_not_member; [done|by apply HP].
Qed.

Lemma held_admin g a d d' : groups_inv d → held g d d' → admin_of g a d → admin_of g a d'.
Proof.
  intros Hd Hh (r & Hr & Ha)%admin_of_Some. destruct (Hh (gi_group d Hd g a r Hr)) as [_ Hu].
  apply admin_of_Some. exists r. split; [|done]. destruct (Hu a) as [E|(r' & E1 & E2 & _)]; [congruence|].
  rewrite Hr in E1. injection E1 as <-. exfalso. by eapply pending_not_member; [|apply Ha].
Qed.

(** A fact about a group that its lock keeps true. *)
Definition kept (g : string) (F : GroupsDb → Prop) : Prop := ∀ d d', groups_inv d → held g d d' → F d → F d'.

Lemma kept_stable g F : kept g F → stable [group_lock_key g] F.
Proof.
  intros HF d d' Hd H0 (c & _ & E & Hl). eapply HF; [exact Hd| |exact H0]. eapply does_held; [exact Hd|exact E|].
  intros Hk. simpl in Hl. rewrite Hk in Hl. apply Forall_cons in Hl as [Hl _]. set_solver.
Qed.

Lemma kept_and g F G : kept g F → kept g G → kept g (fun d => F d ∧ G d).
Proof. intros HF HG d d' Hd Hh [? ?]. split; [by eapply HF|by eapply HG]. Qed.

Lemma kept_group g grp : kept g (fun d => groups d !! g = Some grp).
Proof. intros d d' _ Hh Hg. destruct Hh as [E _]; [eauto|]. congruence. Qed.

Lemma kept_room g : kept g (fun d => is_Some (groups d !! g) ∧ has_room g d).
Proof.
  intros d d' _ Hh [Hg Hr]. destruct (Hh Hg) as [E _]. split; [by rewrite E|]. unfold has_room in *.
  pose proof (held_rows g d d' Hh Hg). lia.
Qed.

Lemma kept_admin g a : kept g (admin_of g a).
Proof. intros d d' Hd Hh. by apply held_admin. Qed.

(** The row read is the row there, if it is still there. *)
Lemma kept_row g u r : kept g (fun d => is_Some (groups d !! g) ∧ ∀ r', memberships d !! (g, u) = Some r' → r' = r).
Proof.
  intros d d' _ Hh [Hg Hr]. destruct (Hh Hg) as [E Hu]. split; [by rewrite E|]. intros r' Hr'.
  destruct (Hu u) as [E1|(? & _ & _ & E1)]; [|congruence]. apply Hr. congruence.
Qed.

Lemma kept_counts g n k :
  kept g (fun d => is_Some (groups d !! g) ∧ count is_member g d = n ∧ count is_admin g d = k).
Proof.
  intros d d' _ Hh (Hg & Hn & Hk). destruct (Hh Hg) as [E _]. split; [by rewrite E|].
  split; [rewrite (held_count is_member g d d')|rewrite (held_count is_admin g d d')]; try done. by intros r [].
Qed.

(** ** Triples *)

(** A first reading under the lock finds the group the lock is of, or ends. *)
Lemma tri_first {E A B} P (down : E) f (m : ST GroupsDb SqlError A) gid (k : A → ST (Task GroupsDb) E B) Ω :
  (∀ a d, groups_inv d → snd (m d) = Ok a →
     (∀ Φ, tri P Φ (k a) Ω) ∨
     ∃ g (F : GroupsDb → Prop), uuid_in gid = Some g ∧ F d ∧ tri P (holding [group_lock_key g] F) (k a) Ω) →
  tri P (holding [group_lock_key gid] (fun _ => True)) (reading (world env) down f m ≫= k) Ω.
Proof.
  intros Hm. apply tri_read_bind; [done|apply stable_true|]. intros a d Hd _ E1. destruct (Hm a d Hd E1) as [Hf|(g & F & Hg & HF & Hk)].
  - exists (fun _ => True). auto.
  - exists F. split; [done|]. replace (group_lock_key gid) with (group_lock_key g); [done|].
    eapply lock_key_uuid; [by apply (uuid_in_canonical gid)|done].
Qed.

(** A later reading finds more. *)
Lemma tri_next {E A B} P (down : E) f (m : ST GroupsDb SqlError A) g (F : GroupsDb → Prop) (k : A → ST (Task GroupsDb) E B) Ω :
  kept g F →
  (∀ a d, groups_inv d → F d → snd (m d) = Ok a →
     ∃ F' : GroupsDb → Prop, F' d ∧ tri P (holding [group_lock_key g] F') (k a) Ω) →
  tri P (holding [group_lock_key g] F) (reading (world env) down f m ≫= k) Ω.
Proof. intros HF Hm. apply tri_read_bind; [done|by apply kept_stable|exact Hm]. Qed.

(** The writes that end it. *)
Lemma tri_last {E A} P (down : E) (m : nat → ST GroupsDb E A) g F :
  kept g F →
  (∀ t d d' a, groups_inv d → F d → m t d = (d', Ok a) → d' = d ∨ ∃ c, P c ∧ GroupsActs.does c d = Some d') →
  tri P (holding [group_lock_key g] F) (committing (world env) down m) (fun _ _ => True).
Proof. intros HF Hm. apply tri_commit; [done|by apply kept_stable|exact Hm]. Qed.

Lemma tri_ask {A} P (f : Directory → A) : tri P (fun _ => True) (ask_directory env f) (fun _ _ => True).
Proof. by apply tri_away_free. Qed.

Lemma tri_full {A} P Φ (Ω : A → (Task GroupsDb) → Prop) : tri P Φ group_full Ω.
Proof. apply tri_fail. Qed.
Lemma tri_not_found {A} P Φ (Ω : A → (Task GroupsDb) → Prop) : tri P Φ not_found Ω.
Proof. apply tri_fail. Qed.

(** ** The operations *)

Definition entitled (who : Identity) (f : string → Cause → Prop) (c : Cause) : Prop :=
  ∃ me u, caller who = Ok me ∧ uuid_in me = Some u ∧ f u c.

Lemma tri_create who name policy :
  tri (entitled who (fun u c => ∃ g p now, c = CCreate g u name p now)) (fun _ => True) (create env who name policy) (fun _ _ => True).
Proof.
  unfold create. apply tri_lift_bind. intros me Hme. apply tri_lift_bind. intros [] _. apply tri_lift_bind. intros pol _.
  apply tri_in_tx; eapply tri_bind; [by apply tri_reading_free|]. intros [|]; [apply tri_fail|]. apply tri_commit_free; [done|].
  intros t d d' a Hd E. right. apply create_writes_does in E as (u & Hu & E); [|apply fresh_canonical].
  exists (CCreate (fresh env t) u name pol (now_at (world env) t)). split; [|done]. exists me, u. eauto 10.
Qed.

Lemma tri_join who gid :
  tri (entitled who (fun u c => ∃ g now, uuid_in gid = Some g ∧ c = CJoin g u now)) (fun _ => True) (join env who gid) (fun _ _ => True).
Proof.
  unfold join. apply tri_lift_bind. intros me Hme.
  apply tri_seq; [apply tri_seq; [apply tri_ask|]; intros r; apply tri_lift_bind; intros l _; by apply tri_ret|].
  intros handle. apply tri_in_tx; eapply tri_bind; [by apply tri_locking_free|]. intros []. cbv beta.
  apply tri_read_bind; [done|apply stable_true|]. intros gone d0 _ _ _. exists (fun _ => True). split; [done|].
  destruct gone; [apply tri_fail|]. apply tri_first.
  intros [[pol g]|] d _ Hf; [right|left; intros; apply tri_not_found]. apply join_policy_ok in Hf as (Hg & grp & Hgrp & Hpol).
  exists g, (fun d => groups d !! g = Some grp). split_and!; [done|done|]. apply tri_lift_bind. intros [st ro] Hadm.
  apply tri_next; [apply kept_group|]. intros counts d1 _ Hgrp1 (g' & Hg' & Hrows & _)%counts_ok.
  rewrite (uuid_in_canonical _ _ Hg) in Hg'. injection Hg' as <-.
  destruct (MAX_MEMBERS <=? rows counts) eqn:Emax; [exists (fun _ => True); split; [done|apply tri_full]|].
  exists (fun d => groups d !! g = Some grp ∧ is_Some (groups d !! g) ∧ has_room g d).
  split; [split_and!; [done|eauto|unfold has_room; lia]|].
  eapply tri_last; [apply kept_and; [apply kept_group|apply kept_room]|].
  intros t d2 d' a Hd2 (Hgrp2 & _ & Hroom) E. right. rewrite <- Hpol in Hadm.
  eapply join_writes_does in E as (u & Hu & E); [|by apply (uuid_in_canonical gid)|done..].
  exists (CJoin g u (now_at (world env) t)). split; [|done]. exists me, u. eauto 10.
Qed.

Lemma tri_leave who gid :
  tri (entitled who (fun u c => ∃ g, uuid_in gid = Some g ∧ c = CLeave g u)) (fun _ => True) (leave env who gid) (fun _ _ => True).
Proof.
  unfold leave. apply tri_lift_bind. intros me Hme. apply tri_in_tx; eapply tri_bind; [by apply tri_locking_free|]. intros []. apply tri_first.
  intros [[[st ro] u]|] d Hd Hf; [right|left; intros; apply tri_not_found].
  apply membership_ok in Hf as (g & r & Hg & Hu & Hr & <- & <-).
  exists g, (fun d => is_Some (groups d !! g) ∧ ∀ r', memberships d !! (g, u) = Some r' → r' = r).
  split_and!; [done|by eapply gi_group|naive_solver|]. apply tri_next; [apply kept_row|].
  intros counts d1 Hd1 [Hgrp Hr1] (g' & Hg' & _ & Hm & Ha)%counts_ok. rewrite Hg in Hg'. injection Hg' as <-.
  match goal with |- context [if ?b then _ else _] => destruct b eqn:Elast end;
    [exists (fun _ => True); split; [done|apply tri_fail]|].
  set (n := count is_member g d1) in *. set (k := count is_admin g d1) in *.
  exists (fun d => (is_Some (groups d !! g) ∧ ∀ r', memberships d !! (g, u) = Some r' → r' = r)
    ∧ (is_Some (groups d !! g) ∧ count is_member g d = n ∧ count is_admin g d = k)).
  split; [done|]. eapply tri_last; [apply kept_and; [apply kept_row|apply kept_counts]|].
  intros t d2 d' a Hd2 [[_ Hr2] (_ & Hn2 & Hk2)] E. right. exists (CLeave g u). split; [exists me, u; eauto 10|].
  eapply leave_writes_does in E; [exact E|done|done|exact Hr2|by rewrite Hn2|by rewrite Hk2|].
  intros [Hs Hro] H1 H2. unfold is_member in Hs. rewrite !bool_decide_eq_true_2 in Elast by done. simpl in Elast. lia.
Qed.

Lemma tri_require who_role gid me P : tri P (fun _ => True) (require_role env gid me who_role) (fun _ _ => True).
Proof.
  unfold require_role. apply tri_seq; [by apply tri_reading_free|]. intros r. apply tri_lift.
Qed.

Lemma tri_invite who gid handle :
  tri (entitled who (fun u c => ∃ g t now, uuid_in gid = Some g ∧ c = CInvite g u t now)) (fun _ => True)
    (invite env who gid handle) (fun _ _ => True).
Proof.
  unfold invite. apply tri_lift_bind. intros me Hme. case_bool_decide; [apply tri_fail|].
  eapply tri_bind; [apply tri_require|]. intros role0. eapply tri_bind; [apply tri_ask|]. intros r. apply tri_lift_bind. intros found _.
  apply tri_lift_bind. intros target _. apply tri_in_tx; eapply tri_bind; [by apply tri_locking_free|]. intros []. apply tri_first.
  intros [[ro u]|] d Hd Hf; [right|left; intros; apply tri_not_found]. apply visible_admin_ok in Hf as (g & Hg & Hu & Ha).
  exists g, (fun d => admin_of g u d). split_and!; [done|done|]. apply tri_next; [apply kept_admin|].
  intros counts d1 Hd1 Ha1 (g' & Hg' & Hrows & _)%counts_ok. rewrite Hg in Hg'. injection Hg' as <-.
  destruct (MAX_MEMBERS <=? rows counts) eqn:Emax; [exists (fun _ => True); split; [done|apply tri_full]|].
  exists (fun d => admin_of g u d ∧ is_Some (groups d !! g) ∧ has_room g d). split.
  { split_and!; [done| |unfold has_room; lia]. apply admin_of_Some in Ha1 as (r1 & Hr1 & _). by eapply gi_group. }
  eapply tri_last; [apply kept_and; [apply kept_admin|apply kept_room]|].
  intros t d2 d' a Hd2 (Ha2 & _ & Hroom) E. right. eapply invite_writes_does in E as (v & Hv & E); [|done..].
  eexists. split; [|exact E]. exists me, u. eauto 10.
Qed.

Lemma tri_respond who gid decision :
  tri (entitled who (fun u c => ∃ g, uuid_in gid = Some g ∧ c = CAnswer g u (bool_decide (decision = DECISION_ACCEPT)))) (fun _ => True)
    (respond env who gid decision) (fun _ _ => True).
Proof.
  unfold respond. apply tri_lift_bind. intros me Hme. apply tri_lift_bind. intros dec Hdec.
  assert (dec = decision) as -> by (unfold validate_decision in Hdec; repeat case_bool_decide; congruence).
  apply tri_in_tx; eapply tri_bind; [by apply tri_locking_free|]. intros []. apply tri_first.
  intros [[[st ro] u]|] d Hd Hf; [|left; intros; apply tri_not_found].
  apply membership_ok in Hf as (g & r & Hg & Hu & Hr & <- & <-). 
  destruct (bool_decide (state r = STATE_INVITED)) eqn:Hst; [right; apply bool_decide_eq_true in Hst|left; intros; apply tri_not_found].
  exists g, (fun d => is_Some (groups d !! g) ∧ ∀ r', memberships d !! (g, u) = Some r' → r' = r).
  split_and!; [done|by eapply gi_group|naive_solver|]. eapply tri_last; [apply kept_row|].
  intros t d2 d' a Hd2 [_ Hr2] E. right. eapply respond_writes_does in E as (v & Hv & E); [|done|].
  - eexists. split; [|exact E]. exists me, v. eauto 10.
  - intros v r' Hv Hr'. rewrite Hu in Hv. injection Hv as <-. by rewrite (Hr2 r' Hr').
Qed.

Lemma tri_decide who gid sid decision :
  tri (entitled who (fun u c => ∃ g v, uuid_in gid = Some g ∧ uuid_in sid = Some v
                                 ∧ c = CDecide g u v (bool_decide (decision = DECISION_ACCEPT)))) (fun _ => True)
    (decide_op env who gid sid decision) (fun _ _ => True).
Proof.
  unfold decide_op. apply tri_lift_bind. intros me Hme. apply tri_lift_bind. intros dec Hdec.
  assert (dec = decision) as -> by (unfold validate_decision in Hdec; repeat case_bool_decide; congruence).
  apply tri_in_tx; eapply tri_bind; [by apply tri_locking_free|]. intros []. apply tri_first.
  intros [[ro u]|] d Hd Hf; [right|left; intros; apply tri_not_found]. apply visible_admin_ok in Hf as (g & Hg & Hu & Ha).
  exists g, (fun d => admin_of g u d). split_and!; [done|done|]. apply tri_next; [apply kept_admin|].
  intros [[[st ro'] v]|] d1 Hd1 Ha1 Hf; [|exists (fun _ => True); split; [done|apply tri_not_found]].
  apply membership_ok in Hf as (g' & r & Hg' & Hv & Hr & <- & <-). rewrite Hg in Hg'. injection Hg' as <-.
  destruct (bool_decide (v = u)) eqn:Hself; [exists (fun _ => True); split; [done|apply tri_fail]|].
  apply bool_decide_eq_false in Hself. assert (Hne : uuid_in sid ≠ Some u) by congruence.
  exists (fun d => admin_of g u d). split; [done|]. apply tri_lift_bind. intros w _.
  destruct (bool_decide (decision = DECISION_ACCEPT)); [destruct (bool_decide (w = STATE_REQUESTED)); [|apply tri_fail]|];
    (eapply tri_last; [apply kept_admin|]); intros t d2 d' a Hd2 Ha2 E; right.
  - eapply grant_writes_does in E as (v' & Hv' & E); [|done..]. eexists. split; [|exact E]. exists me, u. eauto 10.
  - eapply reject_writes_does in E as (v' & Hv' & E); [|done..]. eexists. split; [|exact E]. exists me, u. eauto 10.
Qed.

Lemma tri_promote gid p :
  tri (fun c => ∃ g u, uuid_in gid = Some g ∧ uuid_in p = Some u ∧ c = CPromote g u) (fun _ => True) (promote env gid p) (fun _ _ => True).
Proof.
  unfold promote. apply tri_in_tx; eapply tri_bind; [by apply tri_locking_free|]. intros []. apply tri_first.
  intros [[name g]|] d Hd Hf; [right|left; intros; apply tri_fail]. apply group_name_ok in Hf as [Hg [grp Hgrp]].
  exists g, (fun d => groups d !! g = Some grp). split_and!; [done|done|]. apply tri_next; [apply kept_group|].
  intros [[[st ro] u]|] d1 Hd1 Hgrp1 Hf; [|exists (fun _ => True); split; [done|apply tri_fail]].
  apply membership_ok in Hf as (g' & r & Hg' & Hu & Hr & <- & <-). rewrite (uuid_in_canonical _ _ Hg) in Hg'. injection Hg' as <-.
  case_bool_decide; simpl; [|exists (fun _ => True); split; [done|apply tri_fail]].
  case_bool_decide as Hro; [exists (fun _ => True); split; [done|by apply tri_ret]|].
  exists (fun d => is_Some (groups d !! g) ∧ ∀ r', memberships d !! (g, u) = Some r' → r' = r). split; [split; [eauto|naive_solver]|].
  eapply tri_last; [apply kept_row|]. intros t d2 d' a Hd2 [_ Hr2] E. right. exists (CPromote g u). split; [eauto 10|].
  eapply promote_writes_does in E; [exact E|by apply (uuid_in_canonical gid)|by apply (uuid_in_canonical p)|].
  intros r' Hr'. by rewrite (Hr2 r' Hr').
Qed.

(** *** Reads *)

Lemma tri_role_of P gid p : tri P (fun _ => True) (role_of env gid p) (fun _ _ => True).
Proof. unfold role_of. eapply tri_bind; [by apply tri_reading_free|]. intros r. by apply tri_ret. Qed.

Lemma tri_list_mine pf P who cursor limit : tri P (fun _ => True) (list_mine env pf who cursor limit) (fun _ _ => True).
Proof.
  unfold list_mine. do 3 (apply tri_lift_bind; intros ? _). eapply tri_bind; [by apply tri_reading_free|]. intros found.
  destruct (cut_page _ _ _ _) as [page next]. apply tri_lift_bind. intros l _. by apply tri_ret.
Qed.

Lemma tri_page_group pf P who gid cursor limit ro clause :
  tri P (fun _ => True) (page_group env pf who gid cursor limit ro clause) (fun _ _ => True).
Proof.
  unfold page_group. do 3 (apply tri_lift_bind; intros ? _). eapply tri_bind; [apply tri_require|]. intros r0.
  eapply tri_bind; [by apply tri_reading_free|]. intros found. destruct (cut_page _ _ _ _) as [page next].
  eapply tri_bind with (Ψ := fun _ _ => True).
  - unfold hydrate. cbv zeta. case_bool_decide; [by apply tri_ret|]. eapply tri_bind; [apply tri_ask|]. intros r. apply tri_lift.
  - intros summaries. apply tri_lift_bind. intros l _. by apply tri_ret.
Qed.

(** *** All of them *)

Inductive GroupOp :=
| OCreate (name policy : string) | OListMine (cursor : string) (limit : Z)
| OMembers (gid cursor : string) (limit : Z) | OPending (gid cursor : string) (limit : Z)
| OJoin (gid : string) | OLeave (gid : string) | OInvite (gid handle : string)
| ORespond (gid decision : string) | ODecide (gid subject decision : string)
| ORoleOf (gid player : string) | OPromote (gid player : string).

Definition op_run (pf : Storage.Platform) (who : Identity) (op : GroupOp) (s : (Task GroupsDb)) : (Task GroupsDb) :=
  match op with
  | OCreate n p => fst (create env who n p s)
  | OListMine c l => fst (list_mine env pf who c l s)
  | OMembers g c l => fst (members_op env pf who g c l s)
  | OPending g c l => fst (pending_op env pf who g c l s)
  | OJoin g => fst (join env who g s)
  | OLeave g => fst (leave env who g s)
  | OInvite g h => fst (invite env who g h s)
  | ORespond g x => fst (respond env who g x s)
  | ODecide g p x => fst (decide_op env who g p x s)
  | ORoleOf g p => fst (role_of env g p s)
  | OPromote g p => fst (promote env g p s)
  end.

(** The causes the caller of an operation is entitled to. *)
Definition commands (who : Identity) (op : GroupOp) (c : Cause) : Prop :=
  match op with
  | OListMine _ _ | OMembers _ _ _ | OPending _ _ _ | ORoleOf _ _ => False
  | OPromote gid p => ∃ g u, uuid_in gid = Some g ∧ uuid_in p = Some u ∧ c = CPromote g u
  | OCreate name _ => entitled who (fun u c => ∃ g p now, c = CCreate g u name p now) c
  | OJoin gid => entitled who (fun u c => ∃ g now, uuid_in gid = Some g ∧ c = CJoin g u now) c
  | OLeave gid => entitled who (fun u c => ∃ g, uuid_in gid = Some g ∧ c = CLeave g u) c
  | OInvite gid _ => entitled who (fun u c => ∃ g t now, uuid_in gid = Some g ∧ c = CInvite g u t now) c
  | ORespond gid x =>
      entitled who (fun u c => ∃ g, uuid_in gid = Some g ∧ c = CAnswer g u (bool_decide (x = DECISION_ACCEPT))) c
  | ODecide gid sid x =>
      entitled who (fun u c => ∃ g v, uuid_in gid = Some g ∧ uuid_in sid = Some v
                                 ∧ c = CDecide g u v (bool_decide (x = DECISION_ACCEPT))) c
  end.

(** C32: every operation, whatever other transactions commit between its statements
    within what its lock allows and whichever of its statements fails or loses its
    answer, changes the tables only by causes its authenticated caller is entitled to:
    a player founds, joins, leaves and answers for themselves alone, invites and decides
    only as an admin, and reading changes nothing. *)
Theorem groups_ops_entitled pf who op s :
  groups_inv (db s) → rtc (own Q (commands who op)) (db s) (db (op_run pf who op s)).
Proof.
  intros Hd. destruct op; simpl op_run; apply tri_run; try done;
    first [apply tri_create|apply tri_list_mine|apply tri_page_group|apply tri_join|apply tri_leave|apply tri_invite
          |apply tri_respond|apply tri_decide|apply tri_role_of|apply tri_promote].
Qed.

(** An identity that is not a uuid is answered by an internal error, not by the bad
    request [write_error] is there for: the tombstone's read comes first. *)
Theorem groups_malformed_identity (me name policy : string) s :
  uuid_in me = None → me ≠ "" → validate_name name = Ok () → valid_policy policy → fate (world env) (tick s) = Answers →
  snd (create env (identity_player me) name policy s) = Err internal_error.
Proof.
  intros Hm Hne Hn Hp Hf. unfold create, lift, caller, in_tx, mbind, ST_bind. rewrite Hn.
  assert (Hv : ∃ p, validate_policy policy = Ok p) by (unfold validate_policy; destruct Hp as [-> | [-> | ->]]; by eexists).
  destruct Hv as [p Hv]. rewrite Hv. simpl. unfold read, reading, is_player_purged_tx. rewrite Hf.
  unfold mbind, ST_bind, bind_text, cast_uuid, lift, identity_player, str_is_empty. simpl. rewrite bool_decide_eq_false_2 by done. simpl. rewrite Hm. by destruct (has_nul me).
Qed.
End Contract.

(** Ann throws Bob out while the deletion of Cat's account arrives. *)
Module GroupsServiceExample.
Import GroupsExample.
#[local] Existing Instance plain_uuid.

Definition deletion : Cause := CPlant cat "cat#0001".

Definition arrives (t : nat) (L : list Z) (d : GroupsDb) : GroupsDb :=
  if Nat.eqb t 1 then default d (does deletion d) else d.

Definition busy_env : GEnv :=
  mkGEnv (mkWorld arrives (fun _ => Answers) (fun _ => 10)) (fun _ => gid) (fun _ => mkDirectory (fun _ => Ok None) (fun _ => Ok [])).

Lemma arrives_others t L d : rtc (others (eq deletion) L) d (arrives t L d).
Proof.
  unfold arrives. destruct (Nat.eqb t 1); [|done]. destruct (does deletion d) as [d'|] eqn:E; [|done].
  apply rtc_once. exists deletion. by split_and!.
Qed.

Lemma gid_canonical : canonical gid.
Proof. vm_compute. reflexivity. Qed.

Definition kick : GroupOp := ODecide gid bob DECISION_REJECT.
Definition platform : Storage.Platform := Storage.mkPlatform (fun _ => true) Some (fun a b => bool_decide (String.le a b)) (fun _ => "") (fun _ => None) id Some.

Lemma groups_ops_entitled_witness :
  let s := mkTask (told story) 0 [] in
  let s' := op_run busy_env platform (identity_player ann) kick s in
  rtc (own (eq deletion) (commands (identity_player ann) kick)) (db s) (db s') ∧
  memberships (db s') !! (gid, bob) = None ∧ purged_players (db s') !! cat = Some ("cat#0001", false).
Proof.
  split; [|split; vm_compute; reflexivity].
  apply (groups_ops_entitled busy_env (eq deletion) arrives_others (fun _ => gid_canonical)).
  exact (history_inv _ _ story_history).
Defined.

(** Cat asks to join; between the read of Cat's tombstone and the insert the deletion
    arrives and the sweep, which finds no row and so takes no group's lock, stamps it. *)
Definition swept_between (t : nat) (L : list Z) (d : GroupsDb) : GroupsDb :=
  if Nat.eqb t 3 then default d (does deletion d ≫= does (CStamp cat)) else d.

Definition race_env : GEnv :=
  mkGEnv (mkWorld swept_between (fun _ => Answers) (fun _ => 10)) (fun _ => gid)
    (fun _ => mkDirectory (fun _ => Ok None) (fun _ => Ok [mkSummary cat "Cat" "cat#0001" ""])).

Definition founded : list Cause := [CCreate gid ann "Guild" JOIN_REQUEST 1].

Lemma swept_between_others t L d : rtc (others (fun c => c = deletion ∨ c = CStamp cat) L) d (swept_between t L d).
Proof.
  unfold swept_between. destruct (Nat.eqb t 3); [|done]. destruct (does deletion d) as [d1|] eqn:E; [|done].
  cbn [mbind option_bind]. destruct (does (CStamp cat) d1) as [d2|] eqn:E2; [|done].
  eapply rtc_l; [exists deletion; split_and!; [by left|exact E|done]|].
  apply rtc_once. exists (CStamp cat). split_and!; [by right|exact E2|done].
Qed.

(** Nothing orders the tombstone's read with the sweep of its player, so a join may
    outlive it: the row stays although the tombstone is stamped, and no later fire
    visits it. *)
Theorem groups_purge_race :
  let s' := fst (join race_env (identity_player cat) gid (mkTask (told founded) 0 [])) in
  (∀ t L d, rtc (others (fun c => c = deletion ∨ c = CStamp cat) L) d (meanwhile (world race_env) t L d)) ∧
  memberships (db s') !! (gid, cat) = Some (mkMembership STATE_REQUESTED "" 10) ∧
  purged_players (db s') !! cat = Some ("cat#0001", true).
Proof. split; [exact swept_between_others|]. split; vm_compute; reflexivity. Qed.
End GroupsServiceExample.
