(* ===== verification/GroupsSweep.v ===== *)
(** * GroupsSweep: the retention prune and the purge of deleted players

    Both handlers of the durable plane come to an end, change the tables only by
    expiries and purges, and leave nothing behind: no stale pending row that was not
    held by somebody else, and no row of a player whose tombstone is stamped. *)

From Stdlib Require Import Ascii.
From stdpp Require Import sorting pretty.
From S2P Require Import Prelude Text OpsApi Pg Purge Prune Directory Txn Groups GroupsActs GroupsSafety GroupsContract.
#[local] Open Scope Z_scope.

Section Prune.
Context `{PgUuid}.

Definition expires (d d' : GroupsDb) : Prop := ∃ l, does (CExpire l) d = Some d'.

Lemma stale_row_pending cutoff r : stale_row cutoff r = true ↔ is_pending r ∧ created_at r < cutoff.
Proof. unfold stale_row, is_pending. by rewrite andb_true_iff, bool_decide_eq_true, Z.ltb_lt. Qed.

(** Removing a batch is the cause [CExpire]. *)
Lemma removes_expires cutoff d d' :
  removes created_at (stale_row cutoff) PRUNE_BATCH memberships prune_batch d d' → expires d d'.
Proof.
  intros (w & busy & ->). eexists (stale_batch _ _ _ _ _ _ _).*1. simpl. rewrite check_run; [done|].
  destruct (stale_batch_spec created_at (stale_row cutoff) PRUNE_BATCH memberships w busy d) as (Hnd & Hin & _). split; [done|].
  apply Forall_forall. intros k ([k' r] & -> & Hk%Hin%stale_rows_elem)%list_elem_of_fmap. destruct Hk as (Hr & [Hp _]%stale_row_pending & _).
  unfold pending_at. simpl. by rewrite Hr.
Qed.

(** A fire of the retention prune ends; it changes the tables only by expiring
    pending rows older than the cutoff, each with its event, and no member's row; and
    unless its time budget ends it, the stale rows left are ones another transaction
    held at the time. *)
Theorem prune_correct cutoff busy elapsed d :
  ∃ d', prune_handler cutoff busy elapsed PRUNE_SCHEDULE_NAME d = Some d' ∧ rtc expires d d' ∧
    (∀ g u r, memberships d !! (g, u) = Some r → memberships d' !! (g, u) = None → is_pending r ∧ created_at r < cutoff) ∧
    ((∀ i, elapsed i = false) → ∀ g u r, memberships d' !! (g, u) = Some r → is_pending r → created_at r < cutoff →
       ∃ i, busy i (g, u) = true).
Proof.
  unfold prune_handler. destruct (prune_run created_at (stale_row cutoff) PRUNE_BATCH memberships prune_batch) with (busy := busy) (elapsed := elapsed) (d := d)
    as (d' & E & Hr & _ & Hg & Hc); [done|unfold PRUNE_BATCH; lia|].
  exists d'. split_and!.
  - done.
  - clear -Hr. induction Hr; [done|]. eapply rtc_l; [by eapply removes_expires|done].
  - intros g u r H1 H2. by eapply stale_row_pending, Hg.
  - intros He g u r Hk Hp Hlt. eapply Hc; [done|done|]. by apply stale_row_pending.
Qed.
End Prune.

Section Purge.
Context `{PgUuid}.

(** ** One group *)

Lemma cast_canonical {S} u (d : S) : canonical u → cast_uuid u d = (d, Ok u).
Proof. intros Hu. unfold cast_uuid, lift. rewrite Hu. done. Qed.

Lemma bind_run {S} l (d : S) : Forall (fun s => has_nul s = false) l → bind_text l d = (d, Ok ()).
Proof.
  intros Hl. unfold bind_text. replace (existsb has_nul l) with false; [done|]. symmetry.
  induction Hl as [|x l Hx _ IH]; [done|]. simpl. by rewrite Hx, IH.
Qed.

Lemma canonical_no_nul u : canonical u → has_nul u = false.
Proof. apply uuid_in_no_nul. Qed.

Lemma counts_run g d :
  canonical g → counts_tx g STATE_MEMBER ROLE_ADMIN d = (d, Ok (counts_of g STATE_MEMBER ROLE_ADMIN d)).
Proof.
  intros Hg. unfold counts_tx. rewrite (st_bind_run _ _ d d ()) by (apply bind_run; repeat constructor; by apply canonical_no_nul).
  by rewrite (st_bind_run _ _ d d g) by by apply cast_canonical.
Qed.

Lemma delete_membership_run g u d :
  canonical g → canonical u →
  delete_membership_tx g u d = match memberships d !! (g, u) with
    | Some r => (drop_row g u d, Ok (Some (state r, role r, g, u)))
    | None => (d, Ok None)
    end.
Proof.
  intros Hg Hu. unfold delete_membership_tx, or_missing.
  rewrite (st_bind_run _ _ d d ()) by (apply bind_run; repeat constructor; by apply canonical_no_nul).
  rewrite (st_bind_run _ _ d d g) by by apply cast_canonical. rewrite (st_bind_run _ _ d d u) by by apply cast_canonical.
  rewrite (st_bind_run _ _ d d (memberships d)) by done. by destruct (memberships d !! (g, u)).
Qed.

Lemma delete_group_run g d : canonical g → delete_group_tx g d = (without g d, Ok (players_of g d)).
Proof.
  intros Hg. unfold delete_group_tx. rewrite (st_bind_run _ _ d d ()) by (apply bind_run; repeat constructor; by apply canonical_no_nul).
  by rewrite (st_bind_run _ _ d d g) by by apply cast_canonical.
Qed.

Lemma counts_members g d : members (counts_of g STATE_MEMBER ROLE_ADMIN d) = Z.of_nat (count is_member g d).
Proof. unfold counts_of, count. simpl. f_equal. Qed.

Lemma counts_admins g d : admins (counts_of g STATE_MEMBER ROLE_ADMIN d) = Z.of_nat (count is_admin g d).
Proof. unfold counts_of, count. simpl. f_equal. Qed.

(** The purge of one group is the cause [CPurge], or nothing when the row is gone. *)
Lemma purge_one_group_run g u d :
  canonical g → canonical u →
  match memberships d !! (g, u) with
  | Some _ => ∃ d', purge_one_group g u d = (d', Ok ()) ∧ does (CPurge g u) d = Some d'
  | None => purge_one_group g u d = (d, Ok ())
  end.
Proof.
  intros Hg Hu. unfold purge_one_group. rewrite (st_bind_run _ _ _ _ _ (counts_run g d Hg)).
  pose proof (delete_membership_run g u d Hg Hu) as E. destruct (memberships d !! (g, u)) as [r|] eqn:Er;
    [|by rewrite (st_bind_run _ _ _ _ _ E)].
  rewrite (st_bind_run _ _ _ _ _ E). cbv beta iota. rewrite (st_bind_run _ _ _ (add_events [MemberLeft g u u REASON_ACCOUNT_DELETED] (drop_row g u d)) ()) by done.
  rewrite counts_members, counts_admins. simpl does. rewrite Er. cbn [mbind option_bind].
  match goal with |- ∃ d', (if ?b then _ else _) _ = _ ∧ _ => replace b with (bool_decide (is_member r ∧ (count is_member g d = 1%nat ∨ (role r = ROLE_ADMIN ∧ count is_admin g d = 1%nat)))) end.
  - destruct (bool_decide _).
    + rewrite (st_bind_run _ _ _ _ _ (delete_group_run g _ Hg)), emit_all_ok. eexists. split; [done|]. f_equal.
      unfold depart, without, add_events, drop_row, set_groups, set_memberships. simpl. by rewrite <- app_assoc.
    + eexists. split; [done|]. done.
  - apply eq_bool_prop_intro. rewrite bool_decide_spec, andb_True, orb_True, andb_True, !bool_decide_spec.
    rewrite !Is_true_true, !Z.eqb_eq, !(Nat2Z.inj_iff _ 1). by change (state r = STATE_MEMBER) with (is_member r).
Qed.

(** ** One player *)

Definition purges (u : string) (d d' : GroupsDb) : Prop := ∃ g, does (CPurge g u) d = Some d'.

(** The player is deleted and not yet swept. *)
Definition unswept (d : GroupsDb) (u : string) : Prop := snd <$> purged_players d !! u = Some false.
#[local] Instance unswept_dec d u : Decision (unswept d u).
Proof. unfold unswept. apply _. Defined.

(** The rows the sweep still owes. *)
Definition owed (d : GroupsDb) : gmap (string * string) Membership := filter (fun kv => unswept d (snd (fst kv))) (memberships d).

Lemma owed_Some d k r : owed d !! k = Some r ↔ memberships d !! k = Some r ∧ unswept d (snd k).
Proof. unfold owed. by rewrite map_lookup_filter_Some. Qed.

Lemma purge_change g u d d' g' v :
  does (CPurge g u) d = Some d' → memberships d' !! (g', v) = memberships d !! (g', v) ∨ (g' = g ∧ memberships d' !! (g', v) = None).
Proof. intros E. destruct (does_row _ _ _ g' v E) as [?|Hc]; [by left|right]. by inversion Hc. Qed.

Lemma purge_gone g u d d' : does (CPurge g u) d = Some d' → is_Some (memberships d !! (g, u)) ∧ memberships d' !! (g, u) = None.
Proof.
  intros E. simpl in E. destruct (memberships d !! (g, u)) as [r|] eqn:Er; [|done]. injection E as <-. split; [eauto|].
  rewrite depart_row. by rewrite !decide_True.
Qed.

Lemma purge_shrinks g u d d' k r : does (CPurge g u) d = Some d' → memberships d' !! k = Some r → memberships d !! k = Some r.
Proof. intros E Hr. destruct k as [g' v]. destruct (purge_change g u d d' g' v E) as [<-|[_ Hn]]; congruence. Qed.

Lemma purge_tombs g u d d' : does (CPurge g u) d = Some d' → purged_players d' = purged_players d.
Proof.
  simpl. destruct (memberships d !! (g, u)) as [r|]; [|done]. intros [= <-]. unfold depart. by destruct (bool_decide _).
Qed.

Lemma purge_cost g u d d' : unswept d u → does (CPurge g u) d = Some d' → (size (owed d') < size (owed d))%nat.
Proof.
  intros Hun E. destruct (purge_gone _ _ _ _ E) as [[r Hr] Hn].
  assert (Hin : owed d !! (g, u) = Some r) by by apply owed_Some.
  enough (size (owed d') ≤ size (delete (g, u) (owed d)))%nat as Hle.
  { rewrite map_size_delete_Some in Hle by eauto. assert (0 < size (owed d))%nat; [|lia].
    apply Nat.neq_0_lt_0. intros E0%map_size_empty_inv. by rewrite E0 in Hin. }
  apply size_subseteq. intros k x [Hx Hk]%owed_Some. rewrite lookup_delete_Some, owed_Some.
  split; [intros <-; congruence|]. split; [by eapply purge_shrinks|]. unfold unswept in *. by rewrite <- (purge_tombs _ _ _ _ E).
Qed.

Lemma purge_groups_run breaks elapsed u l f d :
  canonical u → groups_inv d → unswept d u → NoDup l → (∀ g, g ∈ l → is_Some (memberships d !! (g, u))) → (length l ≤ slots f)%nat →
  ∃ d' f' o, purge_groups breaks elapsed u l f d = (d', Ok (f', o)) ∧ rtc (purges u) d d' ∧ (slots f' ≤ slots f)%nat ∧
    (slots f + size (owed d') ≤ slots f' + size (owed d))%nat ∧
    match o with
    | None => (slots f' + length l = slots f)%nat
    | Some Skipped => ∃ g, breaks g u = true
    | Some BudgetSpent => ∃ i, elapsed i = true
    | Some _ => False
    end.
Proof.
  intros Hu. revert f d. induction l as [|g l IH]; intros f d Hd Hun Hnd Hl Hlen; simpl in *.
  { exists d, f, None. split_and!; try done; lia. }
  destruct (breaks g u) eqn:Eb; [exists d, f, (Some Skipped); split_and!; [done|done|lia|lia|eauto]|].
  destruct (Hl g ltac:(by left)) as [r Hr]. destruct (gi_ids d Hd g u r Hr) as [Hg _].
  pose proof (purge_one_group_run g u d Hg Hu) as Hrun. rewrite Hr in Hrun. destruct Hrun as (d1 & -> & Hdoes).
  pose proof (purge_cost _ _ _ _ Hun Hdoes). assert (Hp : rtc (purges u) d d1) by (apply rtc_once; by exists g).
  destruct (elapsed (checks f)) eqn:Ee.
  { exists d1, (mkFire (slots f - 1) (S (checks f))), (Some BudgetSpent). split_and!; simpl; [done|done|lia|lia|eauto]. }
  apply NoDup_cons in Hnd as [Hgl Hnd].
  destruct (IH (mkFire (slots f - 1) (S (checks f))) d1) as (d' & f' & o & E & Hr' & Hs & Hcost & Ho).
  - by eapply inv_does.
  - unfold unswept in *. by rewrite (purge_tombs _ _ _ _ Hdoes).
  - done.
  - intros g' Hg'. destruct (purge_change g u d d1 g' u Hdoes) as [->|[-> _]]; [apply Hl; by right|done].
  - simpl. lia.
  - exists d', f', o. simpl in *. split_and!; [done|by etrans|lia|lia|]. destruct o as [[]|]; try done. lia.
Qed.

(** The groups a reading of the player's rows gives. *)
Definition groups_read (u : string) (limit : nat) (d : GroupsDb) : list string :=
  take limit (merge_sort String.le
    ((fun kv => fst (fst kv)) <$> List.filter (fun kv => bool_decide (snd (fst kv) = u)) (map_to_list (memberships d)))).

Lemma player_groups_run u limit d : canonical u → player_groups_tx u limit d = (d, Ok (groups_read u limit d)).
Proof.
  intros Hu. unfold player_groups_tx. rewrite (st_bind_run _ _ d d ()) by (apply bind_run; repeat constructor; by apply canonical_no_nul).
  by rewrite (st_bind_run _ _ d d u) by by apply cast_canonical.
Qed.

Lemma groups_read_spec u limit d :
  NoDup (groups_read u limit d) ∧ (∀ g, g ∈ groups_read u limit d → is_Some (memberships d !! (g, u))) ∧
  (length (groups_read u limit d) ≤ limit)%nat ∧
  (groups_read u limit d = [] → (0 < limit)%nat → ∀ g, memberships d !! (g, u) = None).
Proof.
  unfold groups_read. set (L := (fun kv => fst (fst kv)) <$> _).
  assert (HL : ∀ g, g ∈ L ↔ is_Some (memberships d !! (g, u))).
  { intros g. subst L. rewrite list_elem_of_fmap. split.
    - intros ([[g' v] r] & -> & Hin). apply list_elem_of_In, filter_In in Hin as [Hin%list_elem_of_In%elem_of_map_to_list Hv%bool_decide_eq_true].
      simpl in *. subst. eauto.
    - intros [r Hr]. exists ((g, u), r). split; [done|]. apply list_elem_of_In, filter_In. split; [by apply list_elem_of_In, elem_of_map_to_list|].
      by apply bool_decide_eq_true. }
  assert (Hnd : NoDup L).
  { subst L. pose proof (NoDup_fst_map_to_list (memberships d)) as Hk. revert Hk. generalize (map_to_list (memberships d)).
    intros M. induction M as [|[[g v] r] M IH]; simpl; [constructor|]. intros [Hn Hk]%NoDup_cons. case_bool_decide as Hv; [|by apply IH].
    simpl in Hv. subst v. simpl. constructor; [|by apply IH]. intros ([[g' v] r'] & Eg & Hin)%list_elem_of_fmap.
    apply list_elem_of_In, filter_In in Hin as [Hin%list_elem_of_In Hv%bool_decide_eq_true]. simpl in *. subst.
    apply Hn. by apply (list_elem_of_fmap_2 fst _ ((g', u), r')). }
  clearbody L. pose proof (merge_sort_Permutation String.le L) as Hperm. generalize dependent (merge_sort String.le L). intros T Hperm.
  split_and!.
  - eapply sublist_NoDup; [|apply sublist_take]. by rewrite Hperm.
  - intros g Hg. apply HL. rewrite <- Hperm. eapply elem_of_sublist; [|apply sublist_take]. done.
  - rewrite length_take. lia.
  - intros Hn Hlim g. apply eq_None_not_Some. intros Hs%HL. rewrite <- Hperm in Hs. destruct T as [|x T]; [by apply elem_of_nil in Hs|].
    destruct limit; [lia|done].
Qed.

Lemma purges_inv u d d' : rtc (purges u) d d' → groups_inv d → groups_inv d'.
Proof. induction 1 as [|d d1 d' [g E] _ IH]; [done|]. intros Hd. apply IH. by eapply inv_does. Qed.

Lemma purges_tombs u d d' : rtc (purges u) d d' → purged_players d' = purged_players d.
Proof. induction 1 as [|d d1 d' [g E] _ IH]; [done|]. rewrite IH. by eapply purge_tombs. Qed.

Lemma purges_rows u d d' k r : rtc (purges u) d d' → memberships d' !! k = Some r → memberships d !! k = Some r.
Proof. induction 1 as [|d d1 d' [g E] _ IH]; [done|]. intros Hr. eapply purge_shrinks; [exact E|by apply IH]. Qed.

(** What a player's turn came to. *)
Definition settled (breaks : string → string → bool) (elapsed : nat → bool) (u : string) (d' : GroupsDb) (f' : Fire) (o : PlayerOutcome) : Prop :=
  match o with
  | Purged => ∀ g, memberships d' !! (g, u) = None
  | CapReached => slots f' = 0%nat
  | BudgetSpent => ∃ i, elapsed i = true
  | Skipped => ∃ g, breaks g u = true
  end.

Lemma purge_player_run breaks elapsed fuel u f d :
  canonical u → groups_inv d → unswept d u → (slots f < fuel)%nat →
  ∃ d' f' o, purge_player_loop breaks elapsed fuel u f d = Some (d', Ok (f', o)) ∧ rtc (purges u) d d' ∧ (slots f' ≤ slots f)%nat ∧
    (slots f + size (owed d') ≤ slots f' + size (owed d))%nat ∧ settled breaks elapsed u d' f' o.
Proof.
  intros Hu. revert f d. induction fuel as [|fuel IH]; intros f d Hd Hun Hf; [lia|]. cbn [purge_player_loop].
  destruct (Nat.eqb_spec (slots f) 0) as [H0|H0]; [exists d, f, CapReached; by split_and!|].
  rewrite player_groups_run by done. destruct (groups_read_spec u (slots f) d) as (Hnd & Hl & Hlen & Hnil).
  destruct (groups_read u (slots f) d) as [|g l] eqn:El.
  { exists d, f, Purged. split_and!; [done|done|done|done|]. intros g. apply Hnil; [done|lia]. }
  destruct (purge_groups_run breaks elapsed u (g :: l) f d Hu Hd Hun Hnd Hl Hlen) as (d1 & f1 & o & -> & Hr & Hs & Hc & Ho).
  destruct o as [o|].
  - exists d1, f1, o. split_and!; [done|done|done|done|]. by destruct o.
  - simpl in Ho. destruct (IH f1 d1) as (d' & f' & o & E & Hr' & Hs' & Hc' & Ho').
    + by eapply purges_inv.
    + unfold unswept in *. by rewrite (purges_tombs _ _ _ Hr).
    + lia.
    + exists d', f', o. split_and!; [done|by etrans|lia|lia|done].
Qed.

(** ** The sweep

    One step of the sweep: a row of a deleted player goes, or the tombstone of one
    that holds no row is stamped. *)
Definition sweeps (d d' : GroupsDb) : Prop :=
  ∃ u, unswept d u ∧ (purges u d d' ∨ (does (CStamp u) d = Some d' ∧ ∀ g, memberships d !! (g, u) = None)).

Lemma unswept_iff d u : unswept d u ↔ ∃ h, unswept_tombs (purged_players d) !! u = Some (h, false).
Proof.
  unfold unswept. split.
  - intros ([h b] & Hu & E)%fmap_Some. simpl in E. subst b. exists h. by apply unswept_lookup_2.
  - intros [h Hu%unswept_lookup_1]. by rewrite Hu.
Qed.

Lemma purges_sweeps u d d' : unswept d u → rtc (purges u) d d' → rtc sweeps d d'.
Proof.
  intros Hun. induction 1 as [|d d1 d' E Hr IH]; [done|]. eapply rtc_l; [exists u; eauto|]. apply IH.
  unfold unswept in *. by rewrite (purges_tombs u d d1) by (by apply rtc_once).
Qed.

Lemma sweeps_inv d d' : rtc sweeps d d' → groups_inv d → groups_inv d'.
Proof.
  induction 1 as [|d d1 d' (u & _ & [[g E]|[E _]]) _ IH]; [done| |]; intros Hd; apply IH; by eapply inv_does.
Qed.

Lemma stamp_unswept u d v : unswept (set_tombs (marked u (purged_players d)) d) v ↔ unswept d v ∧ v ≠ u.
Proof.
  rewrite !unswept_iff. simpl. rewrite unswept_marked. setoid_rewrite lookup_delete_Some. naive_solver.
Qed.

Lemma sweeps_unswept d d' v : rtc sweeps d d' → unswept d' v → unswept d v.
Proof.
  induction 1 as [|d d1 d' (u & _ & [E|[[= <-] _]]) _ IH]; [done| |]; intros Hv%IH.
  - unfold unswept in *. by rewrite (purges_tombs u d d1) in Hv by (by apply rtc_once).
  - by apply stamp_unswept in Hv as [].
Qed.

Lemma sweeps_rows d d' k r : rtc sweeps d d' → memberships d' !! k = Some r → memberships d !! k = Some r.
Proof.
  induction 1 as [|d d1 d' (u & _ & [E|[[= <-] _]]) _ IH]; [done| |]; intros Hr%IH; [|done].
  eapply purges_rows; [by apply rtc_once|done].
Qed.

(** A tombstone that the sweep stamped is that of a player with no row left. *)
Lemma sweeps_stamped d d' u g : rtc sweeps d d' → unswept d u → ¬ unswept d' u → memberships d' !! (g, u) = None.
Proof.
  induction 1 as [|d d1 d' Hs Hr IH]; [done|]. intros Hu Hn.
  destruct (decide (unswept d1 u)) as [H1|H1]; [by apply IH|]. destruct Hs as (v & _ & [E|[[= <-] Hv]]).
  - destruct H1. unfold unswept in *. by rewrite (purges_tombs v d d1) by (by apply rtc_once).
  - destruct (decide (u = v)) as [->|Hne]; [|destruct H1; by apply stamp_unswept].
    apply eq_None_not_Some. intros [r Hg]. apply (sweeps_rows _ _ _ _ Hr) in Hg. simpl in Hg. by rewrite Hv in Hg.
Qed.

Lemma stamp_owed u d : (size (owed (set_tombs (marked u (purged_players d)) d)) ≤ size (owed d))%nat.
Proof.
  apply size_subseteq. intros k x [Hx Hk]%owed_Some. apply owed_Some. split; [done|]. by apply stamp_unswept in Hk as [].
Qed.

Lemma stamp_run u d : canonical u → stamp u d = (set_tombs (marked u (purged_players d)) d, Ok ()).
Proof. intros Hu. unfold stamp. by rewrite (st_bind_run _ _ _ _ _ (cast_canonical u d Hu)). Qed.

Section Fire.
Context (breaks : string → string → bool) (elapsed : nat → bool).

(** One player's turn and the stamp after it. *)
Lemma player_turn u f d :
  groups_inv d → unswept d u →
  ∃ d1 f1 o d2, purge_player_groups breaks elapsed u f d = Some (d1, Ok (f1, o)) ∧
    (if o is Purged then stamp u d1 else (d1, Ok ())) = (d2, Ok ()) ∧ rtc sweeps d d2 ∧
    (slots f1 ≤ slots f)%nat ∧ (slots f + size (owed d2) ≤ slots f1 + size (owed d))%nat ∧
    (∀ v, v ≠ u → unswept d v → unswept d2 v) ∧
    match o with
    | Purged => ¬ unswept d2 u
    | CapReached => slots f1 = 0%nat
    | BudgetSpent => ∃ i, elapsed i = true
    | Skipped => ∃ g, breaks g u = true
    end.
Proof.
  intros Hd Hu. assert (Hcan : canonical u).
  { apply unswept_iff in Hu as [h Hh%unswept_lookup_1]. by eapply gi_tombs. }
  destruct (purge_player_run breaks elapsed (S (slots f)) u f d Hcan Hd Hu ltac:(lia)) as (d1 & f1 & o & E & Hr & Hs & Hc & Ho).
  pose proof (purges_sweeps _ _ _ Hu Hr) as Hsw. pose proof (purges_tombs _ _ _ Hr) as Ht.
  assert (Hsame : ∀ v, unswept d1 v ↔ unswept d v) by (intros v; unfold unswept; by rewrite Ht).
  exists d1, f1, o. destruct o; [|by exists d1; split_and!; try done; naive_solver..].
  eexists. split; [exact E|]. split; [by apply stamp_run|]. pose proof (stamp_owed u d1). split_and!; [|done|lia| |].
  - eapply rtc_r; [exact Hsw|]. exists u. split; [by apply Hsame|]. right. by split.
  - intros v Hv Hun. apply stamp_unswept. split; [by apply Hsame|done].
  - rewrite stamp_unswept. naive_solver.
Qed.

Lemma purge_batch_turns l f d :
  groups_inv d → NoDup l.*1 → (∀ u, u ∈ l.*1 → unswept d u) →
  ∃ d' f' fin, purge_batch breaks elapsed l f d = Some (d', Ok (f', fin)) ∧ rtc sweeps d d' ∧
    (slots f + size (owed d') ≤ slots f' + size (owed d))%nat ∧
    if fin : bool then slots f' = 0%nat ∨ ∃ i, elapsed i = true
    else ∀ u, u ∈ l.*1 → unswept d' u → ∃ g, breaks g u = true.
Proof.
  revert f d. induction l as [|[u h] l IH]; intros f d Hd Hnd Hl; simpl in *.
  { exists d, f, false. split_and!; [done|done|lia|]. by intros u Hu%elem_of_nil. }
  apply NoDup_cons in Hnd as [Hnot Hnd].
  destruct (player_turn u f d Hd (Hl u ltac:(by left))) as (d1 & f1 & o & d2 & -> & E2 & Hsw & Hs & Hc & Hkeep & Ho).
  destruct o; simpl in E2.
  2,3: injection E2 as ->; exists d2, f1, true; split_and!; [done|done|lia|auto].
  2: injection E2 as ->.
  1: rewrite E2.
  all: destruct (elapsed (checks f1)) eqn:Ee; [eexists d2, _, true; split_and!; [done|done|done|]; right; by eexists|].
  all: destruct (IH (mkFire (slots f1) (S (checks f1))) d2) as (d' & f' & fin & -> & Hsw' & Hc' & Hfin);
    [by eapply sweeps_inv|done|intros v Hv; apply Hkeep; [by intros ->|apply Hl; by right]|].
  all: exists d', f', fin; split_and!; [done|by etrans|simpl in *; lia|]; destruct fin; [done|].
  all: intros v [->|Hv]%elem_of_cons Hun; [|by apply Hfin].
  - by apply (sweeps_unswept _ _ _ Hsw') in Hun.
  - done.
Qed.

(** The unswept tombstones from the watermark on. *)
Definition ahead (w : string) (d : GroupsDb) : Tombs := filter (fun kv => String.le w (fst kv)) (unswept_tombs (purged_players d)).

(** A full batch moves the watermark past its first tombstone. *)
Lemma ahead_shrinks w d d' :
  let due := due_tombs PURGE_BATCH w (purged_players d) in
  length due = PURGE_BATCH → rtc sweeps d d' →
  (size (ahead (from_option fst w (last due)) d') < size (ahead w d))%nat.
Proof.
  intros due Hlen Hsw. destruct (due_tombs_spec PURGE_BATCH w (purged_players d)) as (Hnd & Hsub & _ & Hsort). fold due in Hnd, Hsub, Hsort.
  destruct due as [|[u h] rest] eqn:Edue; [by apply (f_equal (Nat.ltb 0)) in Hlen|].
  destruct (last ((u, h) :: rest)) as [[v k]|] eqn:El; [|by apply last_None in El]. simpl.
  assert (Hv : (v, k) ∈ rest).
  { destruct rest as [|x rest]; [by apply (f_equal (Nat.ltb 1)) in Hlen|]. rewrite last_cons_cons in El. by apply last_Some_elem_of. }
  apply StronglySorted_inv in Hsort as [_ Huv]. rewrite Forall_forall in Huv. specialize (Huv _ Hv). unfold tomb_le in Huv. simpl in Huv.
  apply NoDup_cons in Hnd as [Hne _]. assert (Huv' : u ≠ v) by (intros ->; apply Hne; by apply (list_elem_of_fmap_2 fst _ (v, k))).
  destruct (Hsub u h ltac:(by left)) as [Hu Hwu]. assert (Hin : ahead w d !! u = Some (h, false)) by (apply map_lookup_filter_Some; done).
  enough (dom (ahead v d') ⊆ dom (delete u (ahead w d))) as Hdom%subseteq_size.
  { rewrite !size_dom, map_size_delete_Some in Hdom by eauto. assert (0 < size (ahead w d))%nat; [|lia].
    apply Nat.neq_0_lt_0. intros E0%map_size_empty_inv. by rewrite E0 in Hin. }
  intros x ([h' b] & [Hx Hvx]%map_lookup_filter_Some)%elem_of_dom. simpl in Hvx. pose proof (unswept_swept_false _ _ _ _ Hx) as ->.
  assert (unswept d x) as [h2 H2]%unswept_iff by (eapply sweeps_unswept, unswept_iff; eauto).
  apply elem_of_dom. exists (h2, false). apply lookup_delete_Some. split.
  - intros <-. apply Huv'. by apply (anti_symm String.le).
  - apply map_lookup_filter_Some. split; [done|]. simpl. etrans; [exact Hwu|]. by etrans.
Qed.

(** The loop ends, and stamps every player whose turn it is not made to skip, if the
    budget and the cap last. *)
Lemma purge_loop_turns fuel w f d :
  groups_inv d → (size (ahead w d) < fuel)%nat →
  ∃ d', purge_loop breaks elapsed fuel w f d = Some (d', Ok ()) ∧ rtc sweeps d d' ∧
    ((∀ i, elapsed i = false) → (size (owed d) < slots f)%nat →
     ∀ u, String.le w u → unswept d' u → ∃ g, breaks g u = true).
Proof.
  revert w f d. induction fuel as [|fuel IH]; intros w f d Hd Hf; [lia|]. cbn [purge_loop].
  pose proof (ahead_shrinks w d) as Hshrink. cbv zeta in Hshrink. set (due := due_tombs PURGE_BATCH w (purged_players d)) in *.
  destruct (due_tombs_spec PURGE_BATCH w (purged_players d)) as (Hnd & Hsub & Hall & _). fold due in Hnd, Hsub, Hall.
  destruct (purge_batch_turns due f d Hd Hnd) as (d1 & f1 & fin & -> & Hsw & Hc & Hfin).
  { intros u ([v h] & -> & Hin)%list_elem_of_fmap. apply unswept_iff. exists h. by apply Hsub. }
  destruct fin.
  { exists d1. split_and!; [done|done|]. intros Hi Hs. destruct Hfin as [|[i Hi']]; [lia|by rewrite Hi in Hi']. }
  assert (Hmiss : ∀ u, String.le w u → unswept d1 u →
    (∃ g, breaks g u = true) ∨ (length due = PURGE_BATCH ∧ String.le (from_option fst w (last due)) u)).
  { intros u Hle Hu. destruct (proj1 (unswept_iff d u) (sweeps_unswept _ _ _ Hsw Hu)) as [h Hh].
    destruct (Hall u h Hh Hle) as [Hin|[Hlen Hup]]; [left; apply Hfin; [by apply (list_elem_of_fmap_2 fst) in Hin|done]|].
    right. split; [done|]. destruct (last due) eqn:El; [|done]. apply Hup. by apply last_Some_elem_of. }
  destruct (Nat.ltb_spec (length due) PURGE_BATCH) as [Hlt|Hge].
  { exists d1. split_and!; [done|done|]. intros _ _ u Hle Hu. destruct (Hmiss u Hle Hu) as [|[]]; [done|lia]. }
  assert (Hlen : length due = PURGE_BATCH) by (apply Nat.le_antisymm; [subst due; unfold due_tombs; rewrite length_take; apply Nat.le_min_l|done]).
  destruct (IH (from_option fst w (last due)) f1 d1) as (d' & -> & Hsw' & Hdone).
  - by eapply sweeps_inv.
  - specialize (Hshrink d1 Hlen Hsw). lia.
  - exists d'. split_and!; [done|by etrans|]. intros Hi Hs u Hle Hu.
    destruct (Hmiss u Hle (sweeps_unswept _ _ _ Hsw' Hu)) as [|[_ Hup]]; [done|]. apply Hdone; [done|lia|done|done].
Qed.
End Fire.

End Purge.

(** Ann's account is deleted, and with its last admin the guild goes. *)
Module GroupsSweepExample.
Import GroupsExample.
#[local] Existing Instance plain_uuid.

Definition deleted : list Cause := story ++ [CPlant ann "ann#0001"].

Lemma deleted_history : history deleted (told deleted).
Proof. apply told_history. vm_compute. reflexivity. Qed.

End GroupsSweepExample.
