(* ===== verification/Accounts.v ===== *)
(** * Accounts: players, credentials, sessions and their deletion

    [modules/accounts]: the schema ([lib.rs]), the store's statements ([store.rs]), the
    service ([lib.rs]), the guest tickets ([guest.rs]), the provider registry
    ([providers.rs]) and the browser flow ([epic_oauth.rs]).

    Instants are microseconds.  An id that comes from a column is that column's value;
    only ids that come from a caller are cast.  Token verification, password hashing and
    digests are arguments, as are the random values. *)

From Stdlib Require Import Ascii.
From stdpp Require Import sorting pretty.
From S2P Require Import Prelude Text OpsApi Pg Directory Txn.
#[local] Open Scope Z_scope.

(** ** Constants *)

Definition SECOND : Z := 1000000.
Definition MINUTE : Z := 60 * SECOND.
Definition DAY : Z := 86400 * SECOND.
Definition ACCESS_TTL_MINUTES : Z := 60.
Definition REFRESH_TTL_DAYS : Z := 30.
Definition REFRESH_GRACE_SECONDS : Z := 30.
Definition DELETE_TICKET_TTL_MINUTES : Z := 10.
Definition STATE_TTL : Z := 10 * MINUTE.
Definition HANDLE_MINT_ATTEMPTS : nat := 8.
Definition MAX_EMAIL_BYTES : nat := 320.
Definition MAX_PASSWORD_BYTES : nat := 1024.
Definition MAX_PROVIDER_NAME_BYTES : nat := 64.
Definition MAX_DELETE_TICKET_BYTES : nat := 128.
Definition MAX_SESSION_TOKEN_BYTES : nat := 128.
Definition MAX_DISPLAY_NAME_BYTES : nat := 128.
Definition MAX_LOOKUP_IDS : nat := 256.
Definition MAX_GUEST_CREDENTIAL_BYTES : nat := 128.
Definition MAX_OIDC_CREDENTIAL_BYTES : Z := 65536.
Definition DEV : string := "dev".
Definition EPIC : string := "epic".
Definition GOOGLE : string := "google".
Definition GUEST : string := "guest".
Definition KNOWN_PROVIDERS : list string := [EPIC; GOOGLE; GUEST].
Definition TICKET_NOT_FOUND : string := "delete ticket not found".
Definition PRUNE_SCHEDULE_NAME : string := "accounts-sessions-prune".

Definition access_expires_in_secs : Z := ACCESS_TTL_MINUTES * 60.

(** ** The tables *)

Record Player := mkPlayer { display_name : string; discriminator : string }.
Record IdentityRow := mkIdentity { i_player : string; secret_hash : option string }.
Record SessionRow := mkSession { s_player : string; s_family : string; s_expires : Z }.
Record RefreshToken := mkRefresh {
  r_player : string; r_family : string; r_expires : Z; used_at : option Z; replaced_by : option string;
}.
Record TicketRow := mkTicket { t_ticket : string; t_expires : Z }.
Record ReceiptRow := mkReceipt { rc_handle : string; rc_ticket : string; rc_deleted : Z }.
Record OAuthState := mkState { o_session : string; o_binding : string; o_created : Z }.

(** [accountsevents]. *)
Inductive AccountEvent :=
| PlayerRegistered (player_id display_name provider : string)
| PlayerPromoted (player_id from_provider to_provider : string)
| PlayerDeleted (player_id handle : string).

(** The tables and, in the last two fields, what random generation has given out so far:
    the ids of players, and the refresh tokens with the player and family each was
    issued to.  No statement reads those two. *)
Record AccountsDb := mkAccounts {
  players : gmap string Player;
  handles : gmap (string * string) (option string);
  identities : gmap (string * string) IdentityRow;
  sessions : gmap string SessionRow;
  refresh_tokens : gmap string RefreshToken;
  delete_tickets : gmap string TicketRow;
  deletion_receipts : gmap string ReceiptRow;
  oauth_states : gmap string OAuthState;
  appended : list AccountEvent;
  minted : gset string;
  issued : gmap string (string * string);
}.

Definition empty_accounts : AccountsDb := mkAccounts ∅ ∅ ∅ ∅ ∅ ∅ ∅ ∅ [] ∅ ∅.

Definition set_players f d := mkAccounts (f (players d)) (handles d) (identities d) (sessions d) (refresh_tokens d) (delete_tickets d) (deletion_receipts d) (oauth_states d) (appended d) (minted d) (issued d).
Definition set_handles f d := mkAccounts (players d) (f (handles d)) (identities d) (sessions d) (refresh_tokens d) (delete_tickets d) (deletion_receipts d) (oauth_states d) (appended d) (minted d) (issued d).
Definition set_identities f d := mkAccounts (players d) (handles d) (f (identities d)) (sessions d) (refresh_tokens d) (delete_tickets d) (deletion_receipts d) (oauth_states d) (appended d) (minted d) (issued d).
Definition set_sessions f d := mkAccounts (players d) (handles d) (identities d) (f (sessions d)) (refresh_tokens d) (delete_tickets d) (deletion_receipts d) (oauth_states d) (appended d) (minted d) (issued d).
Definition set_refresh f d := mkAccounts (players d) (handles d) (identities d) (sessions d) (f (refresh_tokens d)) (delete_tickets d) (deletion_receipts d) (oauth_states d) (appended d) (minted d) (issued d).
Definition set_tickets f d := mkAccounts (players d) (handles d) (identities d) (sessions d) (refresh_tokens d) (f (delete_tickets d)) (deletion_receipts d) (oauth_states d) (appended d) (minted d) (issued d).
Definition set_receipts f d := mkAccounts (players d) (handles d) (identities d) (sessions d) (refresh_tokens d) (delete_tickets d) (f (deletion_receipts d)) (oauth_states d) (appended d) (minted d) (issued d).
Definition set_states f d := mkAccounts (players d) (handles d) (identities d) (sessions d) (refresh_tokens d) (delete_tickets d) (deletion_receipts d) (f (oauth_states d)) (appended d) (minted d) (issued d).
Definition append (e : AccountEvent) d := mkAccounts (players d) (handles d) (identities d) (sessions d) (refresh_tokens d) (delete_tickets d) (deletion_receipts d) (oauth_states d) (appended d ++ [e]) (minted d) (issued d).
Definition mint u d := mkAccounts (players d) (handles d) (identities d) (sessions d) (refresh_tokens d) (delete_tickets d) (deletion_receipts d) (oauth_states d) (appended d) ({[u]} ∪ minted d) (issued d).
Definition set_issued f d := mkAccounts (players d) (handles d) (identities d) (sessions d) (refresh_tokens d) (delete_tickets d) (deletion_receipts d) (oauth_states d) (appended d) (minted d) (f (issued d)).

(** ** Pure parts *)

(** [new_discriminator], from the random number drawn. *)
Definition new_discriminator (r : Z) : string :=
  let s := pretty (r mod 10000) in of_bytes (replicate (4 - String.length s) "0"%char) +:+ s.

Definition is_ascii_digit (c : ascii) : bool := ((48 <=? code c) && (code c <=? 57))%nat.

(** [str::rsplit_once]. *)
Definition rsplit_once (c : ascii) (l : bytes) : option (bytes * bytes) :=
  match split_once c (reverse l) with
  | Some (a, b) => Some (reverse b, reverse a)
  | None => None
  end.

Definition split_handle (handle : string) : option (string * string) :=
  match rsplit_once "#"%char (to_bytes handle) with
  | Some (name, disc) =>
      if bool_decide (name = []) || negb (bool_decide (length disc = 4%nat)) || negb (forallb is_ascii_digit disc)
      then None else Some (of_bytes name, of_bytes disc)
  | None => None
  end.

Definition render_handle (display_name discriminator : string) : string := display_name +:+ "#" +:+ discriminator.

Definition is_canonical_uuid (s : string) : bool :=
  bool_decide (String.length s = 36%nat)
  && forallb (fun ib => match (fst ib : nat) with
                        | 8 | 13 | 18 | 23 => Ascii.eqb (snd ib) "-"%char
                        | _ => is_ascii_hexdigit (snd ib)
                        end%nat) (imap (fun i b => (i, b)) (to_bytes s)).

Definition identity_lock_key (provider subject : string) : Z :=
  wrap_i64 (fnv1a (to_bytes "accounts.identity.v1" ++ zero :: to_bytes provider ++ zero :: to_bytes subject)).
Definition player_lock_key (player_id : string) : Z := wrap_i64 (fnv1a (to_bytes "accounts.player.v1" ++ zero :: to_bytes player_id)).

(** [store::Player]. *)
Record PlayerRef := mkRef { id : string; name : string }.

Inductive StoreError := Taken | HandleExhausted | Db (e : SqlError).
Inductive LinkOutcome := Linked | AlreadyLinked.

#[global] Instance LinkOutcome_eq_dec : EqDecision LinkOutcome.
Proof. solve_decision. Defined.

Record RefreshRow := mkRefreshRow {
  rr_player : string; rr_family : string; rr_replaced_by : option string; used : bool; used_within_grace : bool; expired : bool;
}.

Inductive RefreshVerdict :=
| Rotate (player_id family_id : string)
| GraceReplay (player_id family_id successor : string)
| Revoke (family_id : string)
| Deny.

Definition classify_presentation (rotated : option (string * string)) (row : option RefreshRow) : RefreshVerdict :=
  match rotated with
  | Some (player_id, family_id) => Rotate player_id family_id
  | None =>
      match row with
      | None => Deny
      | Some row =>
          if expired row || negb (used row) then Deny else
          match rr_replaced_by row with
          | Some successor =>
              if used_within_grace row then GraceReplay (rr_player row) (rr_family row) successor else Revoke (rr_family row)
          | None => Deny
          end
      end
  end.

(** [str::char_indices]: where the characters of UTF-8 text start. *)
Definition char_start (c : ascii) : bool := negb (128 <=? code c)%nat || (192 <=? code c)%nat.

Fixpoint truncate_bytes (n : nat) (l : bytes) : bytes :=
  match l with
  | [] => []
  | c :: l' => if char_start c then match n with O => [] | S n' => c :: truncate_bytes n' l' end else c :: truncate_bytes n l'
  end.

Definition truncate (s : string) (n : nat) : string := of_bytes (truncate_bytes n (to_bytes s)).
Definition short_id (s : string) : string := truncate s 8.

(** ** The store *)

(** What the server does to text: [lower], the order of [ORDER BY], and [to_char]. *)
Record Locale := mkLocale { pg_lower : string → string; text_le : string → string → bool; rfc3339 : Z → string }.

Section Store.
Context `{PgUuid} (loc : Locale).

Abbreviation Sql := (ST AccountsDb SqlError).

Definition handle_key (name disc : string) : string * string := (pg_lower loc name, disc).

Definition claim_handle_tx (name disc new_id : string) : Sql (option string) :=
  bind_text [name; disc];;
  taken ← gets (fun d => bool_decide (is_Some (handles d !! handle_key name disc)));
  if taken : bool then mret None
  else modify (fun d => mint new_id (set_handles (<[handle_key name disc := Some new_id]>) d));; mret (Some new_id).

(** [accounts_handle_idx]: the pairs of the players' own rows. *)
Definition handle_used (name disc : string) (d : AccountsDb) : bool :=
  existsb (fun kv => bool_decide (handle_key (display_name (snd kv)) (discriminator (snd kv)) = handle_key name disc))
    (map_to_list (players d)).

Definition insert_player_row (new_id name disc : string) : Sql unit :=
  bind_text [name; disc];;
  clash ← gets (fun d => bool_decide (is_Some (players d !! new_id)) || handle_used name disc d);
  if clash : bool then fail UniqueViolation else modify (set_players (<[new_id := mkPlayer name disc]>)).

(** [gen_random_uuid]: the server can fail to draw. *)
Definition drawn (fresh : AccountsDb → option string) : Sql string := fun d => (d, ok_or (fresh d) OtherSqlError).

(** The attempts at a free discriminator. *)
Fixpoint mint_player (draws : list Z) (fresh : AccountsDb → option string) (name : string) : Sql (option string) :=
  match draws with
  | [] => mret None
  | r :: rest =>
      new_id ← drawn fresh;
      claimed ← claim_handle_tx name (new_discriminator r) new_id;
      match claimed with
      | None => mint_player rest fresh name
      | Some new_id => insert_player_row new_id name (new_discriminator r);; mret (Some new_id)
      end
  end.

Definition insert_identity_row (provider subject player : string) (secret : option string) : Sql unit :=
  bind_text (provider :: subject :: option_list secret);;
  taken ← gets (fun d => bool_decide (is_Some (identities d !! (provider, subject))));
  if taken : bool then fail UniqueViolation else
  known ← gets (fun d => bool_decide (is_Some (players d !! player)));
  if known : bool then modify (set_identities (<[(provider, subject) := mkIdentity player secret]>))
  else fail (ForeignKeyViolation "identities_player_id_fkey").

(** A unique violation is the caller's answer, not a fault. *)
Definition taken_or_db (e : SqlError) : StoreError := match e with UniqueViolation => Taken | e => Db e end.

Definition insert_player_with_identity_tx (draws : list Z) (fresh : AccountsDb → option string) (provider subject name : string)
    (secret : option string) : ST AccountsDb StoreError PlayerRef :=
  minted ← st_map_err Db (mint_player draws fresh name);
  match minted with
  | None => fail HandleExhausted
  | Some new_id =>
      st_map_err taken_or_db (insert_identity_row provider subject new_id secret);;
      mret (mkRef new_id name)
  end.

(** The [INSERT … ON CONFLICT … DO UPDATE]: a live ticket is kept. *)
Definition upsert_ticket_row (now : Z) (player ticket : string) : Sql (string * Z) :=
  bind_text [player; ticket];; u ← cast_uuid player;
  known ← gets (fun d => bool_decide (is_Some (players d !! u)));
  if known : bool then
    kept ← gets (fun d => match delete_tickets d !! u with
                          | Some t => if now <? t_expires t then t else mkTicket ticket (now + DELETE_TICKET_TTL_MINUTES * MINUTE)
                          | None => mkTicket ticket (now + DELETE_TICKET_TTL_MINUTES * MINUTE)
                          end);
    modify (set_tickets (<[u := kept]>));; mret (t_ticket kept, t_expires kept)
  else fail (ForeignKeyViolation "delete_tickets_player_id_fkey").

Definition upsert_delete_ticket (now : Z) (player ticket : string) : Sql (option (string * Z)) := fun d =>
  match upsert_ticket_row now player ticket d with
  | (d', Ok row) => (d', Ok (Some row))
  | (_, Err (ForeignKeyViolation _)) | (_, Err InvalidTextRepresentation) => (d, Ok None)
  | (d', Err e) => (d', Err e)
  end.

Definition consume_delete_ticket_tx (now : Z) (player ticket : string) : Sql (option string) :=
  bind_text [player; ticket];; u ← cast_uuid player;
  t ← gets (fun d => delete_tickets d !! u);
  match t with
  | Some t => if bool_decide (t_ticket t = ticket) && (now <? t_expires t)
              then modify (set_tickets (delete u));; mret (Some u) else mret None
  | None => mret None
  end.

Definition handle_of_tx (u : string) : Sql (option string) :=
  gets (fun d => (fun p => render_handle (display_name p) (discriminator p)) <$> players d !! u).

Definition reserve_handle_tx (u : string) : Sql unit :=
  modify (fun d => match players d !! u with
                   | Some p => set_handles (<[handle_key (display_name p) (discriminator p) := None]>) d
                   | None => d
                   end).

Record DeleteReceipt := mkDeleteReceipt { dr_player : string; dr_handle : string; deleted_at : string }.

Definition insert_deletion_receipt_tx (now : Z) (u handle ticket : string) : Sql DeleteReceipt :=
  bind_text [handle; ticket];;
  known ← gets (fun d => bool_decide (is_Some (deletion_receipts d !! u)));
  if known : bool then fail UniqueViolation
  else modify (set_receipts (<[u := mkReceipt handle ticket now]>));; mret (mkDeleteReceipt u handle (rfc3339 loc now)).

Definition deletion_receipt_tx (player ticket : string) : Sql (option DeleteReceipt) :=
  bind_text [player; ticket];; u ← cast_uuid player;
  gets (fun d => match deletion_receipts d !! u with
                 | Some r => if bool_decide (rc_ticket r = ticket) then Some (mkDeleteReceipt u (rc_handle r) (rfc3339 loc (rc_deleted r))) else None
                 | None => None
                 end).

(** The row and, by the cascades, everything that refers to it. *)
Definition cascade (u : string) (d : AccountsDb) : AccountsDb :=
  set_players (delete u) (set_identities (filter (fun kv => i_player (snd kv) ≠ u))
    (set_sessions (filter (fun kv => s_player (snd kv) ≠ u)) (set_refresh (filter (fun kv => r_player (snd kv) ≠ u))
      (set_tickets (delete u) d)))).

Definition delete_player_tx (u : string) : Sql bool :=
  there ← gets (fun d => bool_decide (is_Some (players d !! u)));
  modify (cascade u);; mret there.

(** The player an identity row maps to, with the join on its row. *)
Definition joined (u : string) (d : AccountsDb) : option PlayerRef := (fun p => mkRef u (display_name p)) <$> players d !! u.

Definition password_identity (email : string) : Sql (option (PlayerRef * string)) :=
  bind_text [email];;
  gets (fun d => i ← identities d !! (DEV, email); p ← joined (i_player i) d; h ← secret_hash i; Some (p, h)).

Definition guest_identity_matches (subject digest : string) : Sql bool :=
  bind_text [subject; digest];;
  gets (fun d => match identities d !! (GUEST, subject) with Some i => bool_decide (secret_hash i = Some digest) | None => false end).

Definition player_by_identity_tx (provider subject : string) : Sql (option PlayerRef) :=
  bind_text [provider; subject];; gets (fun d => i ← identities d !! (provider, subject); joined (i_player i) d).

Definition has_real_identity_tx (player : string) : Sql bool :=
  bind_text [player];; u ← cast_uuid player;
  gets (fun d => existsb (fun kv => bool_decide (i_player (snd kv) = u ∧ fst (fst kv) ≠ GUEST)) (map_to_list (identities d))).

Definition link_identity_tx (player provider subject : string) : ST AccountsDb StoreError LinkOutcome :=
  owner ← st_map_err Db (player_by_identity_tx provider subject);
  match owner with
  | Some o => if bool_decide (id o = player) then mret AlreadyLinked else fail Taken
  | None =>
      st_map_err taken_or_db (bind_text [player];; u ← cast_uuid player; insert_identity_row provider subject u None);;
      mret Linked
  end.

Definition insert_session_tx (now : Z) (u token family : string) : Sql unit :=
  bind_text [token];;
  clash ← gets (fun d => bool_decide (is_Some (sessions d !! token)));
  if clash : bool then fail UniqueViolation else
  known ← gets (fun d => bool_decide (is_Some (players d !! u)));
  if known : bool then modify (set_sessions (<[token := mkSession u family (now + ACCESS_TTL_MINUTES * MINUTE)]>))
  else fail (ForeignKeyViolation "sessions_player_id_fkey").

Definition insert_refresh_row (token u family : string) (expires : Z) : Sql unit :=
  bind_text [token];;
  clash ← gets (fun d => bool_decide (is_Some (refresh_tokens d !! token)));
  if clash : bool then fail UniqueViolation else
  known ← gets (fun d => bool_decide (is_Some (players d !! u)));
  if known : bool then modify (fun d => set_issued (<[token := (u, family)]>) (set_refresh (<[token := mkRefresh u family expires None None]>) d))
  else fail (ForeignKeyViolation "refresh_tokens_player_id_fkey").

Definition insert_refresh_family_tx (now : Z) (fresh : AccountsDb → string) (token u : string) : Sql string :=
  family ← gets fresh;
  insert_refresh_row token u family (now + REFRESH_TTL_DAYS * DAY);; mret family.

Definition rotate_refresh_tx (now : Z) (token successor : string) : Sql (option (string * string)) :=
  bind_text [token; successor];;
  row ← gets (fun d => refresh_tokens d !! token);
  match row with
  | Some r =>
      if bool_decide (used_at r = None) && (now <? r_expires r) then
        modify (set_refresh (<[token := mkRefresh (r_player r) (r_family r) (r_expires r) (Some now) (Some successor)]>));;
        mret (Some (r_player r, r_family r))
      else mret None
  | None => mret None
  end.

(** A parent that is not there gives no row to return. *)
Definition insert_refresh_successor_tx (token parent : string) : Sql unit :=
  row ← gets (fun d => refresh_tokens d !! parent);
  match row with
  | Some r => insert_refresh_row token (r_player r) (r_family r) (r_expires r)
  | None => fail OtherSqlError
  end.

Definition refresh_row_tx (now : Z) (token : string) : Sql (option RefreshRow) :=
  bind_text [token];;
  gets (fun d => (fun r => mkRefreshRow (r_player r) (r_family r) (replaced_by r) (bool_decide (is_Some (used_at r)))
                             (from_option (fun t => now - REFRESH_GRACE_SECONDS * SECOND <? t) false (used_at r))
                             (r_expires r <=? now)) <$> refresh_tokens d !! token).

(** A [DELETE] does not see the rows committed after it began, and waits for those that
    are being changed: what it leaves behind are the tokens in [unseen]. *)
Definition kill_family_tx (unseen : gset string) (family : string) : Sql unit :=
  modify (set_refresh (filter (fun kv => r_family (snd kv) ≠ family ∨ fst kv ∈ unseen)));;
  modify (set_sessions (filter (fun kv => s_family (snd kv) ≠ family ∨ fst kv ∈ unseen))).

Definition session_token_within_cap (token : string) : bool := bool_decide (String.length token ≤ MAX_SESSION_TOKEN_BYTES)%nat.

Definition player_by_session (now : Z) (token : string) : Sql (option PlayerRef) :=
  if negb (session_token_within_cap token) then mret None else
  bind_text [token];;
  gets (fun d => s ← sessions d !! token; if now <? s_expires s then joined (s_player s) d else None).

Definition prune_expired_sessions (now : Z) : Sql unit := modify (set_sessions (filter (fun kv => now < s_expires (snd kv)))).
Definition prune_expired_refresh_tokens (now : Z) : Sql unit := modify (set_refresh (filter (fun kv => now < r_expires (snd kv)))).
Definition prune_expired_delete_tickets (now : Z) : Sql unit := modify (set_tickets (filter (fun kv => now < t_expires (snd kv)))).

(** [max(s.expires_at)] over the player's live sessions. *)
Definition online_until (now : Z) (u : string) (d : AccountsDb) : string :=
  match (fun kv => s_expires (snd kv)) <$>
          List.filter (fun kv => bool_decide (s_player (snd kv) = u) && (now <? s_expires (snd kv))) (map_to_list (sessions d)) with
  | [] => ""
  | t :: l => rfc3339 loc (foldr Z.max t l)
  end.

Definition summary (now : Z) (d : AccountsDb) (u : string) (p : Player) : PlayerSummary :=
  mkSummary u (display_name p) (render_handle (display_name p) (discriminator p)) (online_until now u d).

Definition by_id (a b : PlayerSummary) : Prop := String.le (ps_player_id a) (ps_player_id b).
#[global] Instance by_id_dec : RelDecision by_id.
Proof. intros a b. unfold by_id. apply _. Defined.

Definition store_players_by_id (now : Z) (ids : list string) : Sql (list PlayerSummary) :=
  let ids := List.filter is_canonical_uuid ids in
  if bool_decide (ids = []) then mret [] else
  bind_text ids;;
  gets (fun d => merge_sort by_id
    ((fun kv => summary now d (fst kv) (snd kv)) <$>
       List.filter (fun kv => existsb (fun i => bool_decide (uuid_in i = Some (fst kv))) ids) (map_to_list (players d)))).

Definition player_summary (now : Z) (u : string) : Sql (option PlayerSummary) :=
  l ← store_players_by_id now [u]; mret (head l).

Definition player_by_handle (now : Z) (handle : string) : Sql (option PlayerSummary) :=
  match split_handle handle with
  | None => mret None
  | Some (name, disc) =>
      bind_text [name; disc];;
      gets (fun d => head ((fun kv => summary now d (fst kv) (snd kv)) <$>
              List.filter (fun kv => bool_decide (handle_key (display_name (snd kv)) (discriminator (snd kv)) = handle_key name disc))
                (map_to_list (players d))))
  end.

Definition ref_le (a b : string * string) : Prop :=
  if bool_decide (fst a = fst b) then text_le loc (snd a) (snd b) = true else text_le loc (fst a) (fst b) = true.
#[global] Instance ref_le_dec : RelDecision ref_le.
Proof. intros a b. unfold ref_le. destruct (bool_decide _); apply _. Defined.

Definition identities_of (player : string) : Sql (list (string * string)) :=
  bind_text [player];; u ← cast_uuid player;
  gets (fun d => merge_sort ref_le (fst <$> List.filter (fun kv => bool_decide (i_player (snd kv) = u)) (map_to_list (identities d)))).

(** [epic_oauth]: the states in flight. *)
Definition insert_state (now : Z) (state session_token binding : string) : Sql unit :=
  bind_text [state; session_token; binding];;
  clash ← gets (fun d => bool_decide (is_Some (oauth_states d !! state)));
  if clash : bool then fail UniqueViolation else modify (set_states (<[state := mkState session_token binding now]>)).

Definition redeem_state (now : Z) (state binding : string) : Sql (option string) :=
  bind_text [state; binding];;
  row ← gets (fun d => oauth_states d !! state);
  match row with
  | Some o => if bool_decide (o_binding o = binding) && (now - STATE_TTL <? o_created o)
              then modify (set_states (delete state));; mret (Some (o_session o)) else mret None
  | None => mret None
  end.

Definition prune_states (now : Z) : Sql unit := modify (set_states (filter (fun kv => now - STATE_TTL < o_created (snd kv)))).

(** ** What the service is given *)

Inductive VerifyError := Rejected | Infra.

Record VerifiedSubject := mkVerified { subject : string; vs_display : string }.

Abbreviation M := (ST (Task AccountsDb)).

(** [CredentialVerifier]. *)
Record Verifier := mkVerifier { max_credential_bytes : Z; verify : string → M VerifyError VerifiedSubject }.

Record AEnv := mkAEnv {
  world : World AccountsDb;
  random_u32 : nat → nat → Z;                          (* [OsRng.next_u32] *)
  fresh_player : nat → AccountsDb → option string;     (* [gen_random_uuid] *)
  fresh_family : nat → AccountsDb → string;
  token_at : nat → nat → AccountsDb → string;          (* [new_token] *)
  unseen : nat → gset string;                          (* committed since a deletion began *)
  guest_bytes : nat → bytes;                           (* the 16 bytes of a guest subject *)
  guest_secret : nat → string;
  sha256 : string → string;                            (* of a secret, in base64url *)
  argon_hash : nat → string → option string;
  argon_verify : string → string → bool;
  dummy_hash : string;
  login_slot : nat → bool;
  dev_auth : bool;
  epic_verifier : option (nat → string → result VerifyError string);     (* the subject of an id_token *)
  google_verifier : option (nat → string → result VerifyError string);
  exchange_code : nat → string → option string;
}.

Variable env : AEnv.

Definition internal {A} : M Error A := fail internal_error.
Definition read {A} (m : Sql A) : M Error A := reading (world env) internal_error (fun _ => internal_error) m.
Definition commit {A} (m : nat → ST AccountsDb Error A) : M Error A := committing (world env) internal_error m.
Definition or_internal {A} (m : Sql A) : ST AccountsDb Error A := st_map_err (fun _ => internal_error) m.
Definition lock (key : Z) : M Error unit := locking (world env) internal_error key.
Definition now : M Error Z := clock (world env).

(** ** Sessions *)

(** [accountsapi::Session]. *)
Record Session := mkSessionView { sv_player : string; sv_token : string; sv_refresh : string; sv_expires_in : Z }.

(** Two tokens are drawn for a login. *)
Definition issue_session_tx (t : nat) (at_ : Z) (p : PlayerRef) : ST AccountsDb Error Session :=
  token ← gets (token_at env t 0);
  refresh_token ← gets (token_at env t 1);
  family ← or_internal (insert_refresh_family_tx at_ (fresh_family env t) refresh_token (id p));
  or_internal (insert_session_tx at_ (id p) token family);;
  mret (mkSessionView (id p) token refresh_token access_expires_in_secs).

Definition issue_session (p : PlayerRef) : M Error Session :=
  in_tx (at_ ← now; commit (fun t => issue_session_tx t at_ p)).

Definition emit_registered_tx (p : PlayerRef) (provider : string) : ST AccountsDb Error unit :=
  modify (append (PlayerRegistered (id p) (name p) provider)).

Definition draws (t : nat) : list Z := random_u32 env t <$> seq 0 HANDLE_MINT_ATTEMPTS.

(** The writes of a first sight: player, identity, event, session. *)
Definition provision_writes (taken : Error) (t : nat) (at_ : Z) (provider subject name : string) (secret : option string)
  : ST AccountsDb Error Session :=
  p ← st_map_err (fun e => match e with
                           | Taken => taken
                           | HandleExhausted => mkError Conflict "display name has no free handle"
                           | Db _ => internal_error
                           end)
        (insert_player_with_identity_tx (draws t) (fresh_player env t) provider subject name secret);
  emit_registered_tx p provider;;
  issue_session_tx t at_ p.

Definition register_hashed_with_token (email display hash : string) : M Error Session :=
  in_tx (at_ ← now; commit (fun t => provision_writes (mkError Conflict "email already registered") t at_ DEV email display (Some hash))).

Definition external_login (provider subject name : string) (secret : option string) : M Error (Session * bool) :=
  in_tx (
    at_ ← now;
    lock (identity_lock_key provider subject);;
    found ← read (player_by_identity_tx provider subject);
    match found with
    | Some p => session ← commit (fun t => issue_session_tx t at_ p); mret (session, false)
    | None =>
        session ← commit (fun t => provision_writes internal_error t at_ provider subject name secret);
        mret (session, true)
    end).

(** ** Providers *)

Definition oidc_credentials (provider : string) (oidc : nat → string → result VerifyError string) : Verifier :=
  mkVerifier MAX_OIDC_CREDENTIAL_BYTES (fun credential =>
    s ← away (world env) (fun t => oidc t credential);
    mret (mkVerified s (provider +:+ ":" +:+ short_id s))).

Definition lower_hex_byte (b : ascii) : bool :=
  ((48 <=? code b) && (code b <=? 57) || (97 <=? code b) && (code b <=? 102))%nat.

Fixpoint groups_match (sizes : list nat) (groups : list bytes) : bool :=
  match sizes, groups with
  | [], [] => true
  | n :: sizes', g :: groups' => bool_decide (length g = n) && forallb lower_hex_byte g && groups_match sizes' groups'
  | _, _ => false
  end.

Definition is_minted_subject (s : string) : bool := groups_match [8; 4; 4; 4; 12]%nat (split_on "-"%char (to_bytes s)).

Definition hex_char (n : nat) : ascii := ascii_of_nat (if (n <? 10)%nat then 48 + n else 87 + n).
Definition hex_byte (b : ascii) : bytes := [hex_char (code b / 16); hex_char (code b `mod` 16)].
Definition hex (l : bytes) : bytes := mjoin (hex_byte <$> l).

(** [new_subject]: the version and variant bits of a v4 uuid over the random bytes. *)
Definition new_subject (b : bytes) : string :=
  let set i f := alter (fun c => ascii_of_N (f (N_of_ascii c))) i in
  let b := set 8%nat (fun n => N.lor (N.land n 63) 128) (set 6%nat (fun n => N.lor (N.land n 15) 64) b) in
  of_bytes (hex (take 4 b) ++ "-"%char :: hex (take 2 (drop 4 b)) ++ "-"%char :: hex (take 2 (drop 6 b))
            ++ "-"%char :: hex (take 2 (drop 8 b)) ++ "-"%char :: hex (drop 10 b)).

Record GuestTicket := mkGuest { g_subject : string; g_hash : string; g_credential : string }.

Definition mint_ticket (t : nat) : GuestTicket :=
  let s := new_subject (guest_bytes env t) in
  mkGuest s (sha256 env (guest_secret env t)) (s +:+ "." +:+ guest_secret env t).

Definition guest_verify (credential : string) : M VerifyError VerifiedSubject :=
  match split_once "."%char (to_bytes credential) with
  | None => fail Rejected
  | Some (s, secret) =>
      if negb (is_minted_subject (of_bytes s)) then fail Rejected else
      found ← reading (world env) Infra (fun _ => Infra) (guest_identity_matches (of_bytes s) (sha256 env (of_bytes secret)));
      if found : bool then mret (mkVerified (of_bytes s) (GUEST +:+ ":" +:+ short_id (of_bytes s))) else fail Rejected
  end.

Definition guest_credentials : Verifier := mkVerifier (Z.of_nat MAX_GUEST_CREDENTIAL_BYTES) guest_verify.

Inductive Resolution := Configured (v : Verifier) | KnownButUnconfigured | Unknown.

(** [ProviderConfig::providers]: guest in every process, the others where configured. *)
Definition providers : gmap string Verifier :=
  let insert name (o : option (nat → string → result VerifyError string)) m :=
    match o with Some v => <[name := oidc_credentials name v]> m | None => m end in
  insert GOOGLE (google_verifier env) (insert EPIC (epic_verifier env) {[GUEST := guest_credentials]}).

Definition resolve (name : string) : Resolution :=
  match providers !! name with
  | Some v => Configured v
  | None => if bool_decide (name ∈ KNOWN_PROVIDERS) then KnownButUnconfigured else Unknown
  end.

Definition verify_status (e : VerifyError) : Error :=
  match e with
  | Rejected => mkError Unauthorized "invalid credential"
  | Infra => mkError Unavailable "identity provider unavailable"
  end.

Definition verify_credential (provider credential : string) : M Error VerifiedSubject :=
  if bool_decide (MAX_PROVIDER_NAME_BYTES < String.length provider)%nat then fail (mkError Invalid "provider too long") else
  match resolve provider with
  | KnownButUnconfigured => fail (mkError Unavailable "provider not configured")
  | Unknown => fail (mkError Invalid "unknown provider")
  | Configured v =>
      if str_is_empty credential then fail (mkError Invalid "credential is required") else
      if max_credential_bytes v <? Z.of_nat (String.length credential) then fail (mkError Invalid "credential too long") else
      st_map_err verify_status (verify v credential)
  end.

(** ** Linking *)

Definition link_writes (had_real : bool) (player provider subject : string) : ST AccountsDb Error LinkOutcome :=
  outcome ← st_map_err (fun e => match e with
                                 | Taken => mkError Conflict "identity already linked to another player"
                                 | HandleExhausted | Db _ => internal_error
                                 end) (link_identity_tx player provider subject);
  (if bool_decide (outcome = Linked) && negb had_real && negb (bool_decide (provider = GUEST))
   then modify (append (PlayerPromoted player GUEST provider)) else mret ());;
  mret outcome.

Definition link_identity (player provider subject : string) : M Error LinkOutcome :=
  in_tx (
    lock (player_lock_key player);;
    lock (identity_lock_key provider subject);;
    had_real ← read (has_real_identity_tx player);
    commit (fun _ => link_writes had_real player provider subject)).

(** [accountsapi::MeView]. *)
Record MeView := mkMe { me_player : string; me_name : string; me_handle : string; me_identities : list (string * string) }.

Definition me_view (player : string) : M Error MeView :=
  at_ ← now;
  found ← read (player_summary at_ player);
  match found with
  | None => fail (mkError NotFound "player not found")
  | Some p =>
      ids ← read (identities_of player);
      mret (mkMe (ps_player_id p) (ps_display_name p) (ps_handle p) ids)
  end.

(** ** Refreshing *)

Definition issue_access_in_family_tx (t : nat) (at_ : Z) (player family refresh_token : string) : ST AccountsDb Error Session :=
  token ← gets (token_at env t 1);
  or_internal (insert_session_tx at_ player token family);;
  mret (mkSessionView player token refresh_token access_expires_in_secs).

Definition complete_rotation_tx (t : nat) (at_ : Z) (player family consumed successor : string) : ST AccountsDb Error Session :=
  or_internal (insert_refresh_successor_tx successor consumed);;
  issue_access_in_family_tx t at_ player family successor.

(** The rotation and, when it took the row, what completes it. *)
Definition rotation (t : nat) (at_ : Z) (refresh_token : string) : ST AccountsDb Error (option Session) :=
  successor ← gets (token_at env t 0);
  rotated ← or_internal (rotate_refresh_tx at_ refresh_token successor);
  match classify_presentation rotated None with
  | Rotate player family => session ← complete_rotation_tx t at_ player family refresh_token successor; mret (Some session)
  | _ => mret None
  end.

Definition BAD_REFRESH : Error := mkError Unauthorized "invalid refresh token".

Definition refresh (refresh_token : string) : M Error Session :=
  if negb (session_token_within_cap refresh_token) then fail BAD_REFRESH else
  in_tx (
    at_ ← now;
    rotated ← commit (fun t => rotation t at_ refresh_token);
    match rotated with
    | Some session => mret session
    | None =>
        row ← read (refresh_row_tx at_ refresh_token);
        match classify_presentation None row with
        | GraceReplay player family successor => commit (fun t => issue_access_in_family_tx t at_ player family successor)
        | Revoke family => commit (fun t => or_internal (kill_family_tx (unseen env t) family));; fail BAD_REFRESH
        | Rotate _ _ | Deny => fail BAD_REFRESH
        end
    end).

(** ** Deletion *)

Definition delete_store_error (e : SqlError) : Error :=
  match e with InvalidTextRepresentation => mkError NotFound TICKET_NOT_FOUND | _ => internal_error end.

Definition delete_player_steps (at_ : Z) (u ticket : string) : ST AccountsDb Error DeleteReceipt :=
  handle ← or_internal (handle_of_tx u);
  match handle with
  | None => fail (mkError NotFound TICKET_NOT_FOUND)
  | Some handle =>
      or_internal (reserve_handle_tx u);;
      receipt ← or_internal (insert_deletion_receipt_tx at_ u handle ticket);
      there ← or_internal (delete_player_tx u);
      if negb there then fail (mkError NotFound TICKET_NOT_FOUND) else
      modify (append (PlayerDeleted u handle));; mret receipt
  end.

Definition delete_writes (at_ : Z) (player ticket : string) : ST AccountsDb Error (option DeleteReceipt) :=
  consumed ← st_map_err delete_store_error (consume_delete_ticket_tx at_ player ticket);
  match consumed with
  | None => mret None
  | Some u => receipt ← delete_player_steps at_ u ticket; mret (Some receipt)
  end.

Definition delete_player_atomic (player ticket : string) : M Error DeleteReceipt :=
  in_tx (
    at_ ← now;
    lock (player_lock_key player);;
    done_ ← commit (fun _ => delete_writes at_ player ticket);
    match done_ with
    | Some receipt => mret receipt
    | None =>
        replay ← reading (world env) internal_error delete_store_error (deletion_receipt_tx player ticket);
        lift (ok_or replay (mkError NotFound TICKET_NOT_FOUND))
    end).

(** ** The operations *)

Definition caller (ident : Identity) : result Error string := ok_or (player_id ident) (mkError Invalid "missing player identity").

Definition players_by_id (ids : list string) : M Error (list PlayerSummary) :=
  if (MAX_LOOKUP_IDS <? length ids)%nat then fail (mkError Invalid "too many ids") else
  at_ ← now; read (store_players_by_id at_ ids).

Definition find_by_handle (handle : string) : M Error (option PlayerSummary) :=
  if negb (bool_decide (String.length handle ≤ MAX_HANDLE_BYTES)%nat) then fail (mkError Invalid "handle too long") else
  at_ ← now; read (player_by_handle at_ handle).

Definition verify_session (token : string) : M Error (option string) :=
  if negb (session_token_within_cap token) then mret None else
  at_ ← now; p ← read (player_by_session at_ token); mret (id <$> p).

Definition email_within_cap (s : string) : bool := bool_decide (String.length s ≤ MAX_EMAIL_BYTES)%nat.
Definition password_within_cap (s : string) : bool := bool_decide (String.length s ≤ MAX_PASSWORD_BYTES)%nat.
Definition display_name_within_cap (s : string) : bool := bool_decide (String.length s ≤ MAX_DISPLAY_NAME_BYTES)%nat.

Definition register (email password display : string) : M Error Session :=
  if negb (dev_auth env) then fail (mkError NotFound "registration is not enabled") else
  if str_is_empty email || str_is_empty password then fail (mkError Invalid "email and password are required") else
  if negb (email_within_cap email) || negb (password_within_cap password) then fail (mkError Invalid "email or password too long") else
  let display := if str_is_empty display then email else display in
  if negb (display_name_within_cap display) then fail (mkError Invalid "display name too long") else
  hash ← away (world env) (fun t => ok_or (argon_hash env t password) internal_error);
  register_hashed_with_token email display hash.

Definition DECOY_CANDIDATE : string := "accounts-invalid-credentials".

(** The one pair of hash and candidate that is verified, known user or not. *)
Definition login_pair (identity : option (PlayerRef * string)) (password : string) : string * string :=
  match identity with Some (_, hash) => (hash, password) | None => (dummy_hash env, DECOY_CANDIDATE) end.

Definition login (email password : string) : M Error Session :=
  if negb (dev_auth env) then fail (mkError NotFound "password login is not enabled") else
  slot ← away (world env) (fun t => Ok (login_slot env t));
  if negb slot then fail (mkError Unavailable "too many concurrent login attempts") else
  let valid_input := negb (str_is_empty email) && email_within_cap email && negb (str_is_empty password) && password_within_cap password in
  identity ← (if valid_input then read (password_identity email) else mret None);
  let '(hash, candidate) := login_pair identity password in
  verified ← away (world env) (fun _ => Ok (argon_verify env hash candidate));
  match identity with
  | Some (p, _) => if verified && valid_input then issue_session p else fail (mkError Unauthorized "invalid credentials")
  | None => fail (mkError Unauthorized "invalid credentials")
  end.

Definition login_federated (provider credential : string) : M Error Session :=
  v ← verify_credential provider credential;
  r ← external_login provider (subject v) (vs_display v) None;
  mret (fst r).

(** [accountsapi::GuestSession]. *)
Record GuestSession := mkGuestSession { gs_session : Session; device_secret : string }.

Definition create_guest : M Error GuestSession :=
  ticket ← away (world env) (fun t => Ok (mint_ticket t));
  r ← external_login GUEST (g_subject ticket) (GUEST +:+ ":" +:+ short_id (g_subject ticket)) (Some (g_hash ticket));
  mret (mkGuestSession (fst r) (g_credential ticket)).

Definition me (ident : Identity) : M Error MeView := pid ← lift (caller ident); me_view pid.

Definition link (ident : Identity) (provider credential : string) : M Error MeView :=
  pid ← lift (caller ident);
  v ← verify_credential provider credential;
  link_identity pid provider (subject v);;
  me_view pid.

Definition begin_delete (ident : Identity) : M Error (string * string) :=
  pid ← lift (caller ident);
  at_ ← now;
  minted ← commit (fun t => ticket ← gets (token_at env t 0); or_internal (upsert_delete_ticket at_ pid ticket));
  match minted with
  | None => fail (mkError NotFound "player not found")
  | Some (ticket, expires) => mret (ticket, rfc3339 loc expires)
  end.

Definition delete_account (ident : Identity) (ticket : string) : M Error DeleteReceipt :=
  pid ← lift (caller ident);
  if negb (bool_decide (String.length ticket ≤ MAX_DELETE_TICKET_BYTES)%nat) then fail (mkError Invalid "ticket too long") else
  delete_player_atomic pid ticket.

(** [PruneHandler::call], on the delivery's transaction. *)
Definition prune_handler (at_ : Z) (fired : string) : Sql unit :=
  if bool_decide (fired ≠ PRUNE_SCHEDULE_NAME) then mret () else
  prune_expired_sessions at_;; prune_expired_refresh_tokens at_;; prune_expired_delete_tickets at_.

(** ** The browser flow *)

Inductive Response :=
| BadRequest (body : string) | ServiceUnavailable | ServerError
| Authorize (state binding : string)
| RedirectError | RedirectLinked | RedirectLogin (token refresh : string).

Definition BINDING_TOKEN_LEN : nat := 43.

(** [valid_binding]: 43 characters that decode to 32 bytes. *)
Variable b64_len : string → option nat.
Definition valid_binding (value : string) : bool := bool_decide (String.length value = BINDING_TOKEN_LEN) && bool_decide (b64_len value = Some 32%nat).

(** A failed pruning is only logged. *)
Definition prune_expired : M Error unit := fun s =>
  let '(s', _) := (at_ ← now; commit (fun _ => or_internal (prune_states at_))) s in (s', Ok ()).

Definition new_state (session_token binding : string) : M Error string :=
  prune_expired;;
  at_ ← now;
  commit (fun t => state ← gets (token_at env t 0); or_internal (insert_state at_ state session_token binding);; mret state).

Definition take_state (state : string) (binding : option string) : M Error (option string) :=
  match binding with
  | None => mret None
  | Some b => at_ ← now; commit (fun _ => or_internal (redeem_state at_ state b))
  end.

(** A failing step answers with the response given for it. *)
Definition answer {A} (m : M Error A) (on_err : Error → Response) : M Response A := st_map_err on_err m.

Definition respond (m : M Response Response) : ST (Task AccountsDb) Response Response := fun s =>
  match m s with (s', Ok r) => (s', Ok r) | (s', Err r) => (s', Ok r) end.

Definition new_binding : M Response string := fun s => (s, Ok (token_at env (tick s) 1 (db s))).

Definition handle_start (bearer cookie : option string) : M Response Response :=
  respond (
    session_token ← match bearer with
                    | None => mret ""
                    | Some tok =>
                        at_ ← answer now (fun _ => ServiceUnavailable);
                        p ← answer (read (player_by_session at_ tok)) (fun _ => ServiceUnavailable);
                        mret (match p with Some _ => tok | None => "" end)
                    end;
    binding ← match cookie with
              | Some value => if valid_binding value then mret value else new_binding
              | None => new_binding
              end;
    state ← answer (new_state session_token binding) (fun _ => ServiceUnavailable);
    mret (Authorize state binding)).

Definition handle_callback (code state : string) (cookie : option string) : M Response Response :=
  respond (
    if str_is_empty code || str_is_empty state then fail (BadRequest "missing code or state") else
    taken ← answer (take_state state cookie) (fun _ => ServiceUnavailable);
    match taken with
    | None => fail (BadRequest "invalid or expired state")
    | Some session_token =>
        id_token ← answer (away (world env) (fun t => ok_or (exchange_code env t code) internal_error)) (fun _ => RedirectError);
        subject ← st_map_err (fun _ => RedirectError)
                    (away (world env) (fun t => match epic_verifier env with Some v => v t id_token | None => Err Infra end));
        if negb (str_is_empty session_token) then
          at_ ← answer now (fun _ => RedirectError);
          p ← answer (read (player_by_session at_ session_token)) (fun _ => RedirectError);
          match p with
          | None => fail RedirectError
          | Some p => answer (link_identity (id p) EPIC subject) (fun _ => RedirectError);; mret RedirectLinked
          end
        else
          r ← answer (external_login EPIC subject ("epic:" +:+ short_id subject) None) (fun _ => RedirectError);
          mret (RedirectLogin (sv_token (fst r)) (sv_refresh (fst r)))
    end).
End Store.
