(* ===== verification/AccountsActs.v ===== *)
(** * AccountsActs: what may happen to the accounts tables

    The causes a change of the tables can have and what each does when its conditions
    hold, the invariant every cause keeps, and histories of causes.  [AccountsContract]
    shows that the operations of [Accounts] do nothing else. *)

From Stdlib Require Import Ascii.
From S2P Require Import Prelude Text OpsApi Pg Directory Txn Accounts.
#[local] Open Scope Z_scope.

(** Where an identity comes from. *)
Abbreviation Key := (string * string)%type.

Inductive Cause :=
| CProvision (u name disc : string) (k : Key) (secret : option string) (token rtoken family : string) (at_ : Z)
| CLogin (k : Key) (u token rtoken family : string) (at_ : Z)
| CLink (u : string) (k : Key)
| CRotate (tok successor token : string) (at_ : Z)
| CGrace (tok u family token : string) (at_ : Z)
| CRevoke (tok family : string) (unseen : gset string) (at_ : Z)
| CTicket (u ticket : string) (at_ : Z)
| CDelete (u ticket : string) (at_ : Z)
| CPrune (at_ : Z)
| CState (state session_token binding : string) (at_ : Z)
| CRedeem (state binding : string) (at_ : Z)
| CPruneStates (at_ : Z).

Section Acts.
Context `{PgUuid} (loc : Locale).

(** A handle that parses back. *)
Definition player_ok (name disc : string) : Prop :=
  name ≠ "" ∧ has_nul name = false ∧
  String.length disc = 4%nat ∧ forallb is_ascii_digit (to_bytes disc) = true.
#[global] Instance player_ok_dec name disc : Decision (player_ok name disc).
Proof. unfold player_ok. apply _. Defined.

Definition key_of (p : Player) : Key := handle_key loc (display_name p) (discriminator p).

Definition family_used (f : string) (d : AccountsDb) : bool :=
  existsb (fun kv => bool_decide (snd (snd kv) = f)) (map_to_list (issued d)).

Definition real_at (u : string) (kv : Key * IdentityRow) : bool := bool_decide (i_player (snd kv) = u ∧ fst (fst kv) ≠ GUEST).
Definition has_real (u : string) (d : AccountsDb) : bool := existsb (real_at u) (map_to_list (identities d)).

Definition access_until (at_ : Z) : Z := at_ + ACCESS_TTL_MINUTES * MINUTE.

(** A new login: its access token and its refresh family. *)
Definition issue (u token rtoken family : string) (at_ : Z) (d : AccountsDb) : option AccountsDb :=
  check (is_Some (players d !! u) ∧ sessions d !! token = None ∧ issued d !! rtoken = None ∧ family_used family d = false);;
  Some (set_sessions (<[token := mkSession u family (access_until at_)]>)
    (set_issued (<[rtoken := (u, family)]>)
      (set_refresh (<[rtoken := mkRefresh u family (at_ + REFRESH_TTL_DAYS * DAY) None None]>) d))).

Definition enrol (u name disc : string) (k : Key) (secret : option string) (d : AccountsDb) : option AccountsDb :=
  check (handles d !! handle_key loc name disc = None ∧ (u ∉ minted d) ∧ canonical u ∧ player_ok name disc ∧ identities d !! k = None);;
  Some (append (PlayerRegistered u name (fst k))
    (set_identities (<[k := mkIdentity u secret]>)
      (set_players (<[u := mkPlayer name disc]>)
        (mint u (set_handles (<[handle_key loc name disc := Some u]>) d))))).

Definition kept_ticket (u ticket : string) (at_ : Z) (d : AccountsDb) : TicketRow :=
  match delete_tickets d !! u with
  | Some t => if at_ <? t_expires t then t else mkTicket ticket (at_ + DELETE_TICKET_TTL_MINUTES * MINUTE)
  | None => mkTicket ticket (at_ + DELETE_TICKET_TTL_MINUTES * MINUTE)
  end.

Definition spent (at_ : Z) (late : bool) (r : RefreshToken) : Prop :=
  from_option (fun t => if (late : bool) then t ≤ at_ - REFRESH_GRACE_SECONDS * SECOND else at_ - REFRESH_GRACE_SECONDS * SECOND < t) False (used_at r).
#[global] Instance spent_dec at_ late r : Decision (spent at_ late r).
Proof. unfold spent. destruct (used_at r); simpl; [destruct late|]; apply _. Defined.

(** The row of a token, if it is still there. *)
Definition row_if (tok : string) (P : RefreshToken → Prop) (d : AccountsDb) : Prop := from_option P True (refresh_tokens d !! tok).
#[global] Instance row_if_dec tok P d : (∀ r, Decision (P r)) → Decision (row_if tok P d).
Proof. unfold row_if. destruct (refresh_tokens d !! tok); simpl; apply _. Defined.

Definition kill (unseen : gset string) (family : string) (d : AccountsDb) : AccountsDb :=
  set_sessions (filter (fun kv => s_family (snd kv) ≠ family ∨ fst kv ∈ unseen))
    (set_refresh (filter (fun kv => r_family (snd kv) ≠ family ∨ fst kv ∈ unseen)) d).

Definition acts (c : Cause) (d : AccountsDb) : option AccountsDb :=
  match c with
  | CProvision u name disc k secret token rtoken family at_ => d1 ← enrol u name disc k secret d; issue u token rtoken family at_ d1
  | CLogin k u token rtoken family at_ => check (i_player <$> identities d !! k = Some u);; issue u token rtoken family at_ d
  | CLink u k =>
      check (is_Some (players d !! u) ∧ identities d !! k = None);;
      let d1 := set_identities (<[k := mkIdentity u None]>) d in
      Some (if negb (has_real u d) && bool_decide (fst k ≠ GUEST) then append (PlayerPromoted u GUEST (fst k)) d1 else d1)
  | CRotate tok successor token at_ =>
      r ← refresh_tokens d !! tok;
      check (used_at r = None ∧ at_ < r_expires r ∧ issued d !! successor = None ∧ sessions d !! token = None);;
      Some (set_sessions (<[token := mkSession (r_player r) (r_family r) (access_until at_)]>)
        (set_issued (<[successor := (r_player r, r_family r)]>)
          (set_refresh (fun m => <[successor := mkRefresh (r_player r) (r_family r) (r_expires r) None None]>
             (<[tok := mkRefresh (r_player r) (r_family r) (r_expires r) (Some at_) (Some successor)]> m)) d)))
  | CGrace tok u family token at_ =>
      check (issued d !! tok = Some (u, family) ∧ row_if tok (spent at_ false) d ∧ is_Some (players d !! u) ∧ sessions d !! token = None);;
      Some (set_sessions (<[token := mkSession u family (access_until at_)]>) d)
  | CRevoke tok family unseen at_ =>
      check (snd <$> issued d !! tok = Some family ∧ row_if tok (spent at_ true) d);; Some (kill unseen family d)
  | CTicket u ticket at_ => check (is_Some (players d !! u));; Some (set_tickets (<[u := kept_ticket u ticket at_ d]>) d)
  | CDelete u ticket at_ =>
      p ← players d !! u; t ← delete_tickets d !! u;
      check (t_ticket t = ticket ∧ at_ < t_expires t);;
      let h := render_handle (display_name p) (discriminator p) in
      Some (append (PlayerDeleted u h)
        (cascade u (set_receipts (<[u := mkReceipt h ticket at_]>) (set_handles (<[key_of p := None]>) d))))
  | CPrune at_ =>
      Some (set_tickets (filter (fun kv => at_ < t_expires (snd kv)))
        (set_refresh (filter (fun kv => at_ < r_expires (snd kv))) (set_sessions (filter (fun kv => at_ < s_expires (snd kv))) d)))
  | CState state session_token binding at_ =>
      check (oauth_states d !! state = None);; Some (set_states (<[state := mkState session_token binding at_]>) d)
  | CRedeem state binding at_ =>
      o ← oauth_states d !! state;
      check (o_binding o = binding ∧ at_ - STATE_TTL < o_created o);; Some (set_states (delete state) d)
  | CPruneStates at_ => Some (set_states (filter (fun kv => at_ - STATE_TTL < o_created (snd kv))) d)
  end.

(** The advisory locks of the transactions: the dev provider takes none. *)
Definition cause_locks (c : Cause) : list Z :=
  match c with
  | CProvision _ _ _ k _ _ _ _ _ => if decide (fst k = DEV) then [] else [identity_lock_key (fst k) (snd k)]
  | CLink u k => [player_lock_key u; identity_lock_key (fst k) (snd k)]
  | CDelete u _ _ => [player_lock_key u]
  | _ => []
  end.

(** ** What the log says *)

Definition registered_id (e : AccountEvent) : option string := match e with PlayerRegistered u _ _ => Some u | _ => None end.
Definition promoted_id (e : AccountEvent) : option string := match e with PlayerPromoted u _ _ => Some u | _ => None end.
Definition deleted_id (e : AccountEvent) : option string := match e with PlayerDeleted u _ => Some u | _ => None end.

Record log_ok (d : AccountsDb) : Prop := {
  lo_registered_once : NoDup (omap registered_id (appended d));
  lo_registered u : u ∈ omap registered_id (appended d) ↔ is_Some (players d !! u) ∨ is_Some (deletion_receipts d !! u);
  lo_deleted_once : NoDup (omap deleted_id (appended d));
  lo_deleted u : u ∈ omap deleted_id (appended d) ↔ is_Some (deletion_receipts d !! u);
  lo_promoted_once : NoDup (omap promoted_id (appended d));
  lo_promoted_known u : u ∈ omap promoted_id (appended d) → u ∈ omap registered_id (appended d);
  lo_born u p : players d !! u = Some p → ∃ name provider, PlayerRegistered u name provider ∈ appended d ∧
                  (provider ≠ GUEST → has_real u d = true) ∧
                  (provider = GUEST → (u ∈ omap promoted_id (appended d) ↔ has_real u d = true)) ∧
                  (provider ≠ GUEST → u ∉ omap promoted_id (appended d));
}.

(** ** The invariant *)

Record accounts_inv (d : AccountsDb) : Prop := {
  ai_player u p : players d !! u = Some p → u ∈ minted d ∧ canonical u ∧ player_ok (display_name p) (discriminator p);
  ai_claim u p : players d !! u = Some p → handles d !! key_of p = Some (Some u);
  ai_claimed k u : handles d !! k = Some (Some u) → ∃ p, players d !! u = Some p ∧ key_of p = k;
  ai_receipt u r : deletion_receipts d !! u = Some r → u ∈ minted d ∧ players d !! u = None;
  ai_identity k i : identities d !! k = Some i → is_Some (players d !! i_player i);
  ai_session t s : sessions d !! t = Some s → is_Some (players d !! s_player s) ∧ ∃ tok, issued d !! tok = Some (s_player s, s_family s);
  ai_refresh t r : refresh_tokens d !! t = Some r → is_Some (players d !! r_player r) ∧ issued d !! t = Some (r_player r, r_family r);
  ai_family t1 t2 u1 u2 f : issued d !! t1 = Some (u1, f) → issued d !! t2 = Some (u2, f) → u1 = u2;
  ai_expiry t1 t2 r1 r2 : refresh_tokens d !! t1 = Some r1 → refresh_tokens d !! t2 = Some r2 → r_family r1 = r_family r2 → r_expires r1 = r_expires r2;
  ai_one t1 t2 r1 r2 : refresh_tokens d !! t1 = Some r1 → refresh_tokens d !! t2 = Some r2 → r_family r1 = r_family r2 →
                       used_at r1 = None → used_at r2 = None → t1 = t2;
  ai_successor t r : refresh_tokens d !! t = Some r → (used_at r = None ∧ replaced_by r = None) ∨
                     ∃ z t', used_at r = Some z ∧ replaced_by r = Some t' ∧ issued d !! t' = Some (r_player r, r_family r);
  ai_ticket u t : delete_tickets d !! u = Some t → is_Some (players d !! u);
  ai_log : log_ok d;
}.

Lemma inv_empty : accounts_inv empty_accounts.
Proof.
  split; try (intros; simpl in *; exfalso; match goal with E : ∅ !! _ = Some _ |- _ => by rewrite lookup_empty in E end).
  split; simpl; try constructor; try set_solver; try (intros; exfalso; match goal with E : ∅ !! _ = Some _ |- _ => by rewrite lookup_empty in E end).
  - intros [[? Hx]|[? Hx]]; by rewrite lookup_empty in Hx.
  - intros [? Hx]; by rewrite lookup_empty in Hx.
Qed.

(** ** Frames *)

Lemma log_frame d d' :
  players d' = players d → deletion_receipts d' = deletion_receipts d → identities d' = identities d → appended d' = appended d →
  log_ok d → log_ok d'.
Proof. intros E1 E2 E3 E4 []. split; unfold has_real in *; rewrite ?E1, ?E2, ?E3, ?E4; auto. Qed.

Lemma inv_sessions f d :
  accounts_inv d →
  (∀ t s, f (sessions d) !! t = Some s → sessions d !! t = Some s ∨
     (is_Some (players d !! s_player s) ∧ ∃ tok, issued d !! tok = Some (s_player s, s_family s))) →
  accounts_inv (set_sessions f d).
Proof.
  intros Hd Hf. destruct Hd. split; simpl; try eassumption.
  - intros t s Hs. destruct (Hf t s Hs); eauto.
  - by apply (log_frame d).
Qed.

Lemma inv_refresh_sub (f : gmap string RefreshToken → gmap string RefreshToken) d :
  accounts_inv d → f (refresh_tokens d) ⊆ refresh_tokens d → accounts_inv (set_refresh f d).
Proof.
  intros Hd Hf. assert (Hs : ∀ t r, f (refresh_tokens d) !! t = Some r → refresh_tokens d !! t = Some r) by (intros; by eapply lookup_weaken).
  destruct Hd. split; simpl; try eassumption; eauto. by apply (log_frame d).
Qed.

Lemma inv_tickets f d :
  accounts_inv d → (∀ u t, f (delete_tickets d) !! u = Some t → is_Some (players d !! u)) → accounts_inv (set_tickets f d).
Proof. intros Hd Hf. destruct Hd. split; simpl; try eassumption. by apply (log_frame d). Qed.

Lemma inv_states f d : accounts_inv d → accounts_inv (set_states f d).
Proof. intros Hd. destruct Hd. split; simpl; try eassumption. by apply (log_frame d). Qed.

Lemma family_used_false f d : family_used f d = false → ∀ t u, issued d !! t ≠ Some (u, f).
Proof.
  unfold family_used. intros Hf t u Ht. apply not_true_iff_false in Hf. apply Hf, existsb_exists.
  exists (t, (u, f)). split; [by apply list_elem_of_In, elem_of_map_to_list|]. simpl. by rewrite bool_decide_eq_true.
Qed.

(** A family is born. *)
Lemma inv_family u rt f z d :
  accounts_inv d → is_Some (players d !! u) → issued d !! rt = None → family_used f d = false →
  accounts_inv (set_issued (<[rt := (u, f)]>) (set_refresh (<[rt := mkRefresh u f z None None]>) d)).
Proof.
  intros Hd Hu Hrt Hf0. pose proof (family_used_false _ _ Hf0) as Hf. destruct Hd.
  assert (Hr : ∀ t r, refresh_tokens d !! t = Some r → t ≠ rt ∧ r_family r ≠ f).
  { intros t r Hr. destruct (ai_refresh0 t r Hr) as [_ Hi]. split; [intros ->; congruence|intros <-; by eapply Hf]. }
  assert (Hi : ∀ t x, issued d !! t = Some x → <[rt:=(u, f)]> (issued d) !! t = Some x)
    by (intros t x Hx; rewrite lookup_insert_ne; [done|intros ->; congruence]).
  split; simpl; try eassumption.
  - intros t s Hs. destruct (ai_session0 t s Hs) as [? [tok Ht]]. eauto.
  - intros t r [[<- <-]|[Hne Ht]]%lookup_insert_Some; simpl; [by rewrite lookup_insert_eq|].
    destruct (ai_refresh0 t r Ht). eauto.
  - intros t1 t2 u1 u2 f'. rewrite !lookup_insert_Some. intros [[<- [= <- <-]]|[? Ha]] [[<- [= <-]]|[? Hb]]; [done| | |exact (ai_family0 _ _ _ _ _ Ha Hb)].
    + exfalso. by eapply Hf.
    + subst. exfalso. by eapply Hf.
  - intros t1 t2 r1 r2. rewrite !lookup_insert_Some. intros [[<- <-]|[? Ha]] [[<- <-]|[? Hb]]; simpl; try done; [naive_solver..|eauto].
  - intros t1 t2 r1 r2. rewrite !lookup_insert_Some. intros [[<- <-]|[? Ha]] [[<- <-]|[? Hb]]; simpl; try done; [naive_solver..|eauto].
  - intros t r [[<- <-]|[Hne Ht]]%lookup_insert_Some; simpl; [by left|].
    destruct (ai_successor0 t r Ht) as [?|(z' & t' & ? & ? & ?)]; [by left|right]. eauto 10.
  - by apply (log_frame d).
Qed.

Lemma inv_issue u token rt f at_ d d' : accounts_inv d → issue u token rt f at_ d = Some d' → accounts_inv d'.
Proof.
  intros Hd. unfold issue. rewrite check_some. intros [(Hu & Ht & Hrt & Hf) [= <-]]. apply inv_sessions; [by apply inv_family|].
  intros t s [[<- <-]|[_ Hs]]%lookup_insert_Some; [right|by left]. simpl. split; [done|]. exists rt. by rewrite lookup_insert_eq.
Qed.

Lemma inv_rotate tok succ token at_ d d' : accounts_inv d → acts (CRotate tok succ token at_) d = Some d' → accounts_inv d'.
Proof.
  intros Hd. simpl. destruct (refresh_tokens d !! tok) as [r|] eqn:Htok; [|done]. cbn [mbind option_bind]. rewrite check_some.
  intros [(Hunused & Hlive & Hsucc & Ht) [= <-]]. apply inv_sessions.
  2:{ intros t s [[<- <-]|[_ Hs]]%lookup_insert_Some; [right|by left]. simpl. destruct (ai_refresh d Hd tok r Htok) as [Hp Hi].
      split; [done|]. exists tok. rewrite lookup_insert_ne; [done|intros ->; congruence]. }
  destruct (ai_refresh d Hd tok r Htok) as [Hp Hi]. assert (Hne : tok ≠ succ) by (intros ->; congruence). destruct Hd.
  assert (Hmore : ∀ t x, issued d !! t = Some x → <[succ:=(r_player r, r_family r)]> (issued d) !! t = Some x)
    by (intros t x Hx; rewrite lookup_insert_ne; [done|intros ->; congruence]).
  assert (Hrow : ∀ t r', <[succ:=mkRefresh (r_player r) (r_family r) (r_expires r) None None]>
      (<[tok:=mkRefresh (r_player r) (r_family r) (r_expires r) (Some at_) (Some succ)]> (refresh_tokens d)) !! t = Some r' →
      (t = succ ∧ r' = mkRefresh (r_player r) (r_family r) (r_expires r) None None) ∨
      (t = tok ∧ r' = mkRefresh (r_player r) (r_family r) (r_expires r) (Some at_) (Some succ)) ∨
      (t ≠ succ ∧ t ≠ tok ∧ refresh_tokens d !! t = Some r')).
  { clear. intros t r'. rewrite !lookup_insert_Some. naive_solver. }
  split; simpl; try eassumption.
  - intros t s Hs. destruct (ai_session0 t s Hs) as [? [x Hx]]. eauto.
  - intros t r' [[-> ->]|[[-> ->]|(? & ? & Ht')]]%Hrow; simpl; [by rewrite lookup_insert_eq|eauto|].
    destruct (ai_refresh0 t r' Ht'). eauto.
  - intros t1 t2 u1 u2 f. rewrite !lookup_insert_Some. intros [[<- [= <- <-]]|[? Ha]] [[<- [= <-]]|[? Hb]]; try done;
      [exact (ai_family0 _ _ _ _ _ Hi Hb)|subst; exact (ai_family0 _ _ _ _ _ Ha Hi)|exact (ai_family0 _ _ _ _ _ Ha Hb)].
  - intros t1 t2 r1 r2 [[-> ->]|[[-> ->]|(? & ? & Ha)]]%Hrow [[-> ->]|[[-> ->]|(? & ? & Hb)]]%Hrow; simpl; try done; eauto.
  - intros t1 t2 r1 r2 [[-> ->]|[[-> ->]|(? & ? & Ha)]]%Hrow [[-> ->]|[[-> ->]|(? & ? & Hb)]]%Hrow; simpl; try done; eauto.
    + intros Hf _ Hu2. exfalso. naive_solver.
    + intros Hf Hu1 _. exfalso. naive_solver.
  - intros t r' [[-> ->]|[[-> ->]|(? & ? & Ht')]]%Hrow; simpl; [by left|right|].
    + exists at_, succ. by rewrite lookup_insert_eq.
    + destruct (ai_successor0 t r' Ht') as [?|(z & t' & ? & ? & ?)]; [by left|right]. eauto 10.
  - by apply (log_frame d).
Qed.

Lemma inv_kill X f d : accounts_inv d → accounts_inv (kill X f d).
Proof.
  intros Hd. unfold kill. apply inv_sessions; [apply inv_refresh_sub; [done|apply map_filter_subseteq]|].
  intros t s [Hs _]%map_lookup_filter_Some. by left.
Qed.

Lemma inv_prune at_ d d' : accounts_inv d → acts (CPrune at_) d = Some d' → accounts_inv d'.
Proof.
  intros Hd [= <-]. apply inv_tickets; [apply inv_refresh_sub; [apply inv_sessions; [done|]|apply map_filter_subseteq]|].
  - intros t s [Hs _]%map_lookup_filter_Some. by left.
  - intros u t [Ht _]%map_lookup_filter_Some. exact (ai_ticket d Hd u t Ht).
Qed.

(** ** The log *)

Lemma real_spec u d : has_real u d = true ↔ ∃ k i, identities d !! k = Some i ∧ i_player i = u ∧ fst k ≠ GUEST.
Proof.
  unfold has_real, real_at. rewrite existsb_exists. split.
  - intros ([k i] & Hin & E%bool_decide_eq_true). apply list_elem_of_In, elem_of_map_to_list in Hin. naive_solver.
  - intros (k & i & Hk & E1 & E2). exists (k, i). rewrite bool_decide_eq_true. split; [|done]. by apply list_elem_of_In, elem_of_map_to_list.
Qed.

Lemma omap_snoc {A B} (f : A → option B) l x : omap f (l ++ [x]) = omap f l ++ option_list (f x).
Proof. rewrite omap_app. simpl. by destruct (f x). Qed.

Lemma NoDup_snoc {A} (l : list A) x : NoDup l → x ∉ l → NoDup (l ++ [x]).
Proof. intros Hl Hx. apply NoDup_app. split_and!; [done|set_solver|apply NoDup_singleton]. Qed.

Lemma real_insert u k i d :
  identities d !! k = None →
  has_real u (set_identities (<[k := i]>) d) = true ↔ has_real u d = true ∨ (i_player i = u ∧ fst k ≠ GUEST).
Proof.
  intros Hk. rewrite !real_spec. simpl. split.
  - intros (k' & i' & Hi & E1 & E2). apply lookup_insert_Some in Hi as [[<- <-]|[_ Hi]]; [by right|left; eauto].
  - intros [(k' & i' & Hi & E1 & E2)|[E1 E2]].
    + exists k', i'. rewrite lookup_insert_ne; [done|intros ->; congruence].
    + exists k, i. by rewrite lookup_insert_eq.
Qed.

Lemma real_owner u d : accounts_inv d → has_real u d = true → is_Some (players d !! u).
Proof. intros Hd (k & i & Hi & <- & _)%real_spec. by eapply ai_identity. Qed.

Lemma unminted d u : accounts_inv d → u ∉ minted d → players d !! u = None ∧ deletion_receipts d !! u = None.
Proof.
  intros Hd Hu. split; apply eq_None_not_Some; intros [x Hx]; apply Hu; [by eapply ai_player|by eapply ai_receipt].
Qed.

Lemma log_enrol u name disc k secret d d' : accounts_inv d → enrol u name disc k secret d = Some d' → log_ok d'.
Proof.
  intros Hd. unfold enrol. rewrite check_some. intros [(Hh & Hu & Hc & Hok & Hk) [= <-]].
  destruct (unminted d u Hd Hu) as [Hp Hr]. pose proof (ai_log d Hd) as Hlog. destruct Hlog.
  assert (Hnew : u ∉ omap registered_id (appended d)) by (rewrite lo_registered0, Hp, Hr; by intros [[? ?]|[? ?]]).
  assert (Hreal : ∀ v, has_real v (append (PlayerRegistered u name k.1) (set_identities (<[k:=mkIdentity u secret]>)
      (set_players (<[u:=mkPlayer name disc]>) (mint u (set_handles (<[handle_key loc name disc:=Some u]>) d))))) = true
      ↔ has_real v d = true ∨ (u = v ∧ fst k ≠ GUEST)).
  { intros v. rewrite <- (real_insert v k (mkIdentity u secret)) by done. done. }
  split; simpl; rewrite ?omap_snoc; simpl; rewrite ?app_nil_r; try eassumption.
  - by apply NoDup_snoc.
  - intros v. rewrite elem_of_app, list_elem_of_singleton, lo_registered0. destruct (decide (v = u)) as [->|Hne].
    + rewrite lookup_insert_eq. naive_solver.
    + rewrite lookup_insert_ne by done. naive_solver.
  - intros v Hv%lo_promoted_known0. apply elem_of_app. by left.
  - intros v p. destruct (decide (v = u)) as [->|Hne].
    + intros _. exists name, (fst k). split; [apply elem_of_app; right; by left|].
      assert (Hnp : u ∉ omap promoted_id (appended d)) by (intros Hx; by apply Hnew, lo_promoted_known0).
      split; [intros Hg; apply Hreal; by right|]. split; [|done]. intros Hg. split; [done|]. intros [Hx|[_ Hx]]%Hreal; [|done].
      apply (real_owner _ _ Hd) in Hx. rewrite Hp in Hx. by destruct Hx.
    + rewrite lookup_insert_ne by done. intros (n & pr & Hin & Ha & Hb & Hc')%lo_born0. exists n, pr.
      split; [apply elem_of_app; by left|]. split; [intros Hg; apply Hreal; left; by apply Ha|]. split; [|done].
      intros Hg. rewrite (Hb Hg), Hreal. naive_solver.
Qed.

Lemma inv_enrol u name disc k secret d d' : accounts_inv d → enrol u name disc k secret d = Some d' → accounts_inv d'.
Proof.
  intros Hd Hen. pose proof (log_enrol _ _ _ _ _ _ _ Hd Hen) as Hlog. revert Hen Hlog. unfold enrol. rewrite check_some.
  intros [(Hh & Hu & Hc & Hok & Hk) [= <-]] Hlog. destruct (unminted d u Hd Hu) as [Hp Hr].
  assert (Hmore : ∀ v, is_Some (players d !! v) → is_Some (<[u:=mkPlayer name disc]> (players d) !! v))
    by (intros v Hv; rewrite lookup_insert_is_Some'; auto).
  destruct Hd. split; simpl; try eassumption.
  - intros v p [[<- <-]|[_ Hv]]%lookup_insert_Some; simpl; [set_solver|]. destruct (ai_player0 v p Hv) as (? & ? & ?). set_solver.
  - intros v p [[<- <-]|[Hne Hv]]%lookup_insert_Some; [by rewrite lookup_insert_eq|]. rewrite lookup_insert_ne; [by apply ai_claim0|].
    intros E. rewrite E, (ai_claim0 v p Hv) in Hh. done.
  - intros k' v [[<- [= <-]]|[Hne Hv]]%lookup_insert_Some; [eexists; by rewrite lookup_insert_eq|].
    destruct (ai_claimed0 k' v Hv) as (p & Hp' & E). exists p. rewrite lookup_insert_ne; [done|]. intros ->. congruence.
  - intros v r Hv. destruct (ai_receipt0 v r Hv) as [? ?]. split; [set_solver|]. rewrite lookup_insert_ne; [done|]. intros ->. congruence.
  - intros k' i [[<- <-]|[_ Hi]]%lookup_insert_Some; simpl; [rewrite lookup_insert_is_Some'; by left|]. by eapply Hmore, ai_identity0.
  - intros t s Hs. destruct (ai_session0 t s Hs). auto.
  - intros t r Ht. destruct (ai_refresh0 t r Ht). auto.
  - intros v t Ht. by eapply Hmore, ai_ticket0.
Qed.

Lemma log_link u k d d' : accounts_inv d → acts (CLink u k) d = Some d' → log_ok d'.
Proof.
  intros Hd. simpl. rewrite check_some. intros [[[p Hu] Hk] [= <-]]. pose proof (ai_log d Hd) as Hlog. destruct Hlog.
  assert (Hreal : ∀ v, has_real v (set_identities (<[k:=mkIdentity u None]>) d) = true ↔ has_real v d = true ∨ (u = v ∧ fst k ≠ GUEST))
    by (intros v; by rewrite real_insert).
  destruct (has_real u d) eqn:Er; [|destruct (decide (fst k = GUEST)) as [Hg|Hg]].
  - simpl. split; simpl; try eassumption. intros v q (n & pr & Hin & Ha & Hb & Hc)%lo_born0. exists n, pr. rewrite !Hreal.
    split_and!; [done|auto| |done]. intros E. rewrite (Hb E). naive_solver.
  - rewrite bool_decide_eq_false_2 by tauto. simpl. split; simpl; try eassumption.
    intros v q (n & pr & Hin & Ha & Hb & Hc)%lo_born0. exists n, pr. rewrite !Hreal.
    split_and!; [done|auto| |done]. intros E. rewrite (Hb E). naive_solver.
  - rewrite bool_decide_eq_true_2 by done. simpl.
    assert (Hborn : ∃ n, PlayerRegistered u n GUEST ∈ appended d ∧ u ∉ omap promoted_id (appended d)).
    { destruct (lo_born0 u p Hu) as (n & pr & Hin & Ha & Hb & _). destruct (decide (pr = GUEST)) as [->|Hne]; [|by rewrite Ha in Er].
      exists n. split; [done|]. rewrite Hb by done. by rewrite Er. }
    destruct Hborn as (n0 & Hin0 & Hnp).
    split; simpl; rewrite ?omap_snoc; simpl; rewrite ?app_nil_r; try eassumption.
    + by apply NoDup_snoc.
    + intros v [Hv| ->%list_elem_of_singleton]%elem_of_app; [by apply lo_promoted_known0|]. apply lo_registered0. left. by eexists.
    + intros v q Hq. destruct (lo_born0 v q Hq) as (n & pr & Hin & Ha & Hb & Hc). exists n, pr.
      change (has_real v (append _ (set_identities (<[k:=mkIdentity u None]>) d))) with (has_real v (set_identities (<[k:=mkIdentity u None]>) d)).
      rewrite !Hreal, !elem_of_app, !list_elem_of_singleton. split; [by left|]. split; [auto|]. split.
      * intros E. rewrite (Hb E). naive_solver.
      * intros E [Hx| ->]; [by apply Hc|]. by rewrite Ha in Er.
Qed.

Lemma inv_link u k d d' : accounts_inv d → acts (CLink u k) d = Some d' → accounts_inv d'.
Proof.
  intros Hd Hl. pose proof (log_link _ _ _ _ Hd Hl) as Hlog. revert Hl Hlog. simpl. rewrite check_some.
  intros [[Hu Hk] [= <-]] Hlog. destruct Hd.
  assert (Hid : ∀ k' i, <[k:=mkIdentity u None]> (identities d) !! k' = Some i → is_Some (players d !! i_player i))
    by (intros k' i [[<- <-]|[_ Hi]]%lookup_insert_Some; eauto).
  destruct (negb _ && _); split; simpl; eassumption.
Qed.

Lemma cascade_log u t h d :
  accounts_inv d → is_Some (players d !! u) →
  log_ok (append (PlayerDeleted u h) (cascade u (set_receipts (<[u := t]>) d))).
Proof.
  intros Hd [p Hp]. pose proof (ai_log d Hd) as Hlog. destruct Hlog.
  assert (Hr : deletion_receipts d !! u = None) by (apply eq_None_not_Some; intros [r Hr]; apply (ai_receipt d Hd) in Hr as [_ Hr]; congruence).
  assert (Hreal : ∀ v, v ≠ u → has_real v (append (PlayerDeleted u h) (cascade u (set_receipts (<[u := t]>) d))) = true ↔ has_real v d = true).
  { intros v Hv. rewrite !real_spec. simpl. setoid_rewrite map_lookup_filter_Some. naive_solver. }
  split; simpl; rewrite ?omap_snoc; simpl; rewrite ?app_nil_r; try eassumption.
  - intros v. rewrite lo_registered0. destruct (decide (v = u)) as [->|Hne].
    + rewrite lookup_insert_eq. naive_solver.
    + rewrite lookup_insert_ne, lookup_delete_ne by done. done.
  - apply NoDup_snoc; [done|]. rewrite lo_deleted0, Hr. by intros [].
  - intros v. rewrite elem_of_app, list_elem_of_singleton, lo_deleted0. destruct (decide (v = u)) as [->|Hne].
    + rewrite lookup_insert_eq. naive_solver.
    + rewrite lookup_insert_ne by done. naive_solver.
  - intros v q [Hne Hq]%lookup_delete_Some. destruct (lo_born0 v q Hq) as (n & pr & Hin & Ha & Hb & Hc). exists n, pr.
    rewrite !Hreal by done. split; [apply elem_of_app; by left|done].
Qed.

Lemma inv_delete u ticket at_ d d' : accounts_inv d → acts (CDelete u ticket at_) d = Some d' → accounts_inv d'.
Proof.
  intros Hd. simpl. destruct (players d !! u) as [p|] eqn:Hp; [|done]. destruct (delete_tickets d !! u) as [t|] eqn:Ht; [|done].
  cbn [mbind option_bind]. rewrite check_some. intros [_ [= <-]]. set (h := render_handle _ _). set (rc := mkReceipt h ticket at_).
  assert (Hlog : log_ok (append (PlayerDeleted u h) (cascade u (set_receipts (<[u:=rc]>) (set_handles (<[key_of p:=None]>) d))))).
  { eapply (log_frame (append (PlayerDeleted u h) (cascade u (set_receipts (<[u:=rc]>) d)))); [done..|]. apply cascade_log; eauto. }
  assert (Hleft : ∀ v, v ≠ u → is_Some (players d !! v) → is_Some (delete u (players d) !! v)) by (intros; by rewrite lookup_delete_ne).
  pose proof (ai_player d Hd u p Hp) as (Hmint & _ & _). destruct Hd. split; simpl; try eassumption.
  - intros v q [_ Hv]%lookup_delete_Some. eauto.
  - intros v q [Hne Hv]%lookup_delete_Some. rewrite lookup_insert_ne; [by apply ai_claim0|]. intros E.
    pose proof (ai_claim0 v q Hv) as Hc. rewrite <- E, (ai_claim0 u p Hp) in Hc. congruence.
  - intros k v [[_ ?]|[Hne Hv]]%lookup_insert_Some; [done|]. destruct (ai_claimed0 k v Hv) as (q & Hq & E). exists q.
    rewrite lookup_delete_ne; [done|]. intros <-. congruence.
  - intros v r [[<- <-]|[Hne Hv]]%lookup_insert_Some; [by rewrite lookup_delete_eq|]. destruct (ai_receipt0 v r Hv). by rewrite lookup_delete_ne.
  - intros k i [Hi Hne]%map_lookup_filter_Some. by eapply Hleft, ai_identity0.
  - intros tok s [Hs Hne]%map_lookup_filter_Some. destruct (ai_session0 tok s Hs). auto.
  - intros tok r [Hr Hne]%map_lookup_filter_Some. destruct (ai_refresh0 tok r Hr). auto.
  - intros t1 t2 r1 r2 [Ha _]%map_lookup_filter_Some [Hb _]%map_lookup_filter_Some. eauto.
  - intros t1 t2 r1 r2 [Ha _]%map_lookup_filter_Some [Hb _]%map_lookup_filter_Some. eauto.
  - intros tok r [Hr _]%map_lookup_filter_Some. eauto.
  - intros v x [Hne Hv]%lookup_delete_Some. by eapply Hleft, ai_ticket0.
Qed.

Lemma inv_acts c d d' : accounts_inv d → acts c d = Some d' → accounts_inv d'.
Proof.
  intros Hd. destruct c as [u name disc k secret token rtoken family at_|k u token rtoken family at_|u k|tok succ token at_|tok u family token at_
    |tok family at_|u ticket at_|u ticket at_|at_|state st binding at_|state binding at_|at_].
  - simpl. destruct (enrol u name disc k secret d) as [d1|] eqn:E; [|done]. simpl. apply inv_issue. by eapply inv_enrol.
  - simpl. rewrite check_some. intros [_ E]. by eapply inv_issue.
  - by apply inv_link.
  - by apply inv_rotate.
  - simpl. rewrite check_some. intros [(Hi & _ & Hu & _) [= <-]]. apply inv_sessions; [done|].
    intros t s [[<- <-]|[_ Hs]]%lookup_insert_Some; [right|by left]. simpl. eauto.
  - simpl. rewrite check_some. intros [_ [= <-]]. by apply inv_kill.
  - simpl. rewrite check_some. intros [Hu [= <-]]. apply inv_tickets; [done|].
    intros v t [[<- _]|[_ Ht]]%lookup_insert_Some; [done|exact (ai_ticket d Hd v t Ht)].
  - by apply inv_delete.
  - by apply inv_prune.
  - simpl. rewrite check_some. intros [_ [= <-]]. by apply inv_states.
  - simpl. destruct (oauth_states d !! state); [|done]. cbn [mbind option_bind]. rewrite check_some. intros [_ [= <-]]. by apply inv_states.
  - intros [= <-]. by apply inv_states.
Qed.

Definition accounts_causes : Causes AccountsDb Cause := {|
  does := acts; locks_of := cause_locks; sound := accounts_inv; sound_does := inv_acts;
|}.

(** ** Histories *)

Inductive history : list Cause → AccountsDb → Prop :=
| h_start : history [] empty_accounts
| h_next l c d d' : history l d → acts c d = Some d' → history (l ++ [c]) d'.

Lemma accounts_history_inv l d : history l d → accounts_inv d.
Proof. induction 1; [apply inv_empty|by eapply inv_acts]. Qed.
End Acts.
