(* ===== verification/AccountsSafety.v ===== *)
(** * AccountsSafety: what holds over any history of the accounts tables

    Who a session can belong to, what a refresh family can become, that handles and
    identities never change hands, that promotions and deletions are announced once, and
    that nothing of a deleted player is left. *)

From Stdlib Require Import Ascii.
From S2P Require Import Prelude Text OpsApi Pg Directory Txn Accounts AccountsActs.
#[local] Open Scope Z_scope.

Section Safety.
Context `{PgUuid} (loc : Locale).

Abbreviation acts := (acts loc).
Abbreviation history := (history loc).

(** ** Sessions *)

(** The cause opened the access token. *)
Definition opens (c : Cause) (tok : string) (at_ : Z) : Prop :=
  match c with
  | CProvision _ _ _ _ _ token _ _ z | CLogin _ _ token _ _ z | CRotate _ _ token z | CGrace _ _ _ token z => token = tok ∧ z = at_
  | _ => False
  end.

(** The cause ended the session of the family or the player. *)
Definition ends (c : Cause) (tok u f : string) : Prop :=
  match c with CRevoke _ f' unseen _ => f' = f ∧ (tok ∉ unseen) | CDelete u' _ _ => u' = u | _ => False end.

(** The cause was a login of the player and began the family. *)
Definition founds (c : Cause) (u f : string) (at_ : Z) : Prop :=
  match c with CProvision u' _ _ _ _ _ _ f' z | CLogin _ u' _ _ f' z => u' = u ∧ f' = f ∧ z = at_ | _ => False end.

Lemma issue_spec u token rt f at_ d d' :
  issue u token rt f at_ d = Some d' →
  d' = set_sessions (<[token := mkSession u f (access_until at_)]>)
         (set_issued (<[rt := (u, f)]>) (set_refresh (<[rt := mkRefresh u f (at_ + REFRESH_TTL_DAYS * DAY) None None]>) d)) ∧
  is_Some (players d !! u) ∧ sessions d !! token = None ∧ issued d !! rt = None ∧ family_used f d = false.
Proof. unfold issue. rewrite check_some. intros [(? & ? & ? & ?) [= <-]]. done. Qed.

Lemma enrol_spec u name disc k secret d d' :
  enrol loc u name disc k secret d = Some d' →
  sessions d' = sessions d ∧ refresh_tokens d' = refresh_tokens d ∧ issued d' = issued d ∧ deletion_receipts d' = deletion_receipts d ∧
  handles d' = <[handle_key loc name disc := Some u]> (handles d) ∧ identities d' = <[k := mkIdentity u secret]> (identities d) ∧
  handles d !! handle_key loc name disc = None ∧ identities d !! k = None ∧
  (u ∉ minted d) ∧ players d' = <[u := mkPlayer name disc]> (players d) ∧ minted d' = {[u]} ∪ minted d.
Proof. unfold enrol. rewrite check_some. intros [(? & ? & ? & ? & ?) [= <-]]. done. Qed.

Lemma session_step c d d' tok s :
  acts c d = Some d' → sessions d' !! tok = Some s →
  (sessions d !! tok = Some s ∧ ¬ ends c tok (s_player s) (s_family s)) ∨ (∃ at_, opens c tok at_ ∧ s_expires s = access_until at_).
Proof.
  destruct c as [u name disc k secret token rt f at_|k u token rt f at_|u k|t succ token at_|t u f token at_
    |t f X at_|u ticket at_|u ticket at_|at_|state st binding at_|state binding at_|at_]; simpl.
  - destruct (enrol loc u name disc k secret d) as [d1|] eqn:E; [|done]. simpl. intros (-> & _)%issue_spec. apply enrol_spec in E as (E & _).
    simpl. rewrite E. intros [[<- <-]|[_ Hs]]%lookup_insert_Some; [right; eauto|left; auto].
  - rewrite check_some. intros [_ (-> & _)%issue_spec]. simpl. intros [[<- <-]|[_ Hs]]%lookup_insert_Some; [right; eauto|left; auto].
  - rewrite check_some. intros [_ [= <-]]. destruct (negb _ && _); simpl; left; auto.
  - destruct (refresh_tokens d !! t); [|done]. cbn [mbind option_bind]. rewrite check_some. intros [_ [= <-]]. simpl.
    intros [[<- <-]|[_ Hs]]%lookup_insert_Some; [right; eauto|left; auto].
  - rewrite check_some. intros [_ [= <-]]. simpl. intros [[<- <-]|[_ Hs]]%lookup_insert_Some; [right; eauto|left; auto].
  - rewrite check_some. intros [_ [= <-]]. simpl. intros [Hs Hf]%map_lookup_filter_Some. left. split; [done|]. simpl in Hf. naive_solver.
  - rewrite check_some. intros [_ [= <-]]. simpl. left; auto.
  - destruct (players d !! u); [|done]. destruct (delete_tickets d !! u); [|done]. cbn [mbind option_bind]. rewrite check_some.
    intros [_ [= <-]]. simpl. intros [Hs Hf]%map_lookup_filter_Some. left. split; [done|]. simpl in Hf. congruence.
  - intros [= <-]. simpl. intros [Hs Hf]%map_lookup_filter_Some. left; auto.
  - rewrite check_some. intros [_ [= <-]]. simpl. left; auto.
  - destruct (oauth_states d !! state); [|done]. cbn [mbind option_bind]. rewrite check_some. intros [_ [= <-]]. simpl. left; auto.
  - intros [= <-]. simpl. left; auto.
Qed.

(** ** Refresh tokens *)

(** What one cause does to the refresh tokens. *)
Inductive token_change (d d' : AccountsDb) (c : Cause) : Prop :=
| tc_none : issued d' = issued d → refresh_tokens d' ⊆ refresh_tokens d → token_change d d' c
| tc_found u f at_ rt :
    founds c u f at_ → issued d !! rt = None →
    issued d' = <[rt := (u, f)]> (issued d) →
    refresh_tokens d' = <[rt := mkRefresh u f (at_ + REFRESH_TTL_DAYS * DAY) None None]> (refresh_tokens d) → token_change d d' c
| tc_rotate t succ token at_ r :
    c = CRotate t succ token at_ → refresh_tokens d !! t = Some r → used_at r = None → issued d !! succ = None →
    issued d' = <[succ := (r_player r, r_family r)]> (issued d) →
    refresh_tokens d' = <[succ := mkRefresh (r_player r) (r_family r) (r_expires r) None None]>
      (<[t := mkRefresh (r_player r) (r_family r) (r_expires r) (Some at_) (Some succ)]> (refresh_tokens d)) →
    token_change d d' c.

Lemma token_step c d d' : acts c d = Some d' → token_change d d' c.
Proof.
  destruct c as [u name disc k secret token rt f at_|k u token rt f at_|u k|t succ token at_|t u f token at_
    |t f X at_|u ticket at_|u ticket at_|at_|state st binding at_|state binding at_|at_]; simpl.
  - destruct (enrol loc u name disc k secret d) as [d1|] eqn:E; [|done]. simpl. apply enrol_spec in E as (_ & E1 & E2 & _).
    intros (-> & _ & _ & Hrt & _)%issue_spec. eapply (tc_found _ _ _ u f at_ rt); simpl; rewrite ?E1, ?E2 in *; done.
  - rewrite check_some. intros [_ (-> & _ & _ & Hrt & _)%issue_spec]. by eapply (tc_found _ _ _ u f at_ rt).
  - rewrite check_some. intros [_ [= <-]]. by destruct (negb _ && _); apply tc_none.
  - destruct (refresh_tokens d !! t) as [r|] eqn:Hr; [|done]. cbn [mbind option_bind]. rewrite check_some.
    intros [(? & ? & ? & ?) [= <-]]. by eapply (tc_rotate _ _ _ t succ token at_ r).
  - rewrite check_some. intros [_ [= <-]]. by apply tc_none.
  - rewrite check_some. intros [_ [= <-]]. apply tc_none; [done|]. simpl. apply map_filter_subseteq.
  - rewrite check_some. intros [_ [= <-]]. by apply tc_none.
  - destruct (players d !! u); [|done]. destruct (delete_tickets d !! u); [|done]. cbn [mbind option_bind]. rewrite check_some.
    intros [_ [= <-]]. apply tc_none; [done|]. simpl. apply map_filter_subseteq.
  - intros [= <-]. apply tc_none; [done|]. simpl. apply map_filter_subseteq.
  - rewrite check_some. intros [_ [= <-]]. by apply tc_none.
  - destruct (oauth_states d !! state); [|done]. cbn [mbind option_bind]. rewrite check_some. intros [_ [= <-]]. by apply tc_none.
  - intros [= <-]. by apply tc_none.
Qed.

(** Every issued token goes back to a login of its player, and lives as long as that
    login's family. *)
Lemma issued_founded l d tok u f : history l d → issued d !! tok = Some (u, f) → ∃ c at_, c ∈ l ∧ founds c u f at_.
Proof.
  intros Hh. revert tok u f. induction Hh as [|l c d d' Hh IH E]; intros tok u f Ht; [simpl in Ht; by rewrite lookup_empty in Ht|].
  assert (Hold : ∀ t v g, issued d !! t = Some (v, g) → ∃ c0 at_, c0 ∈ l ++ [c] ∧ founds c0 v g at_)
    by (intros t v g (c0 & z & ? & ?)%IH; exists c0, z; split; [apply elem_of_app; by left|done]).
  destruct (token_step _ _ _ E) as [E1 _|v g z rt Hf Hrt E1 _|t succ token z r -> Hr Hu Hs E1 _]; rewrite E1 in Ht.
  - by eapply Hold.
  - apply lookup_insert_Some in Ht as [[<- [= <- <-]]|[_ Ht]]; [|by eapply Hold]. exists c, z. split; [apply elem_of_app; right; by left|done].
  - apply lookup_insert_Some in Ht as [[<- [= <- <-]]|[_ Ht]]; [|by eapply Hold].
    destruct (ai_refresh _ d (accounts_history_inv _ _ _ Hh) t r Hr) as [_ Hi]. by eapply Hold.
Qed.

Lemma refresh_bounded l d tok r :
  history l d → refresh_tokens d !! tok = Some r →
  ∃ c at_, c ∈ l ∧ founds c (r_player r) (r_family r) at_ ∧ r_expires r = at_ + REFRESH_TTL_DAYS * DAY.
Proof.
  intros Hh. revert tok r. induction Hh as [|l c d d' Hh IH E]; intros tok r Ht; [simpl in Ht; by rewrite lookup_empty in Ht|].
  assert (Hold : ∀ t r0, refresh_tokens d !! t = Some r0 →
     ∃ c0 at_, c0 ∈ l ++ [c] ∧ founds c0 (r_player r0) (r_family r0) at_ ∧ r_expires r0 = at_ + REFRESH_TTL_DAYS * DAY)
    by (intros t r0 (c0 & z & ? & ?)%IH; exists c0, z; split; [apply elem_of_app; by left|done]).
  destruct (token_step _ _ _ E) as [_ E1|v g z rt Hf Hrt _ E1|t succ token z r0 -> Hr Hu Hs _ E1].
  - eapply Hold, lookup_weaken; [exact Ht|done].
  - rewrite E1 in Ht. apply lookup_insert_Some in Ht as [[<- <-]|[_ Ht]]; [|by eapply Hold].
    exists c, z. split; [apply elem_of_app; right; by left|done].
  - rewrite E1 in Ht. apply lookup_insert_Some in Ht as [[<- <-]|[_ [[<- <-]|[_ Ht]]%lookup_insert_Some]]; [exact (Hold t r0 Hr)..|by eapply Hold].
Qed.

(** A token that is gone or used stays so. *)
Definition dead (tok : string) (d : AccountsDb) : Prop := is_Some (issued d !! tok) ∧ row_if tok (fun r => is_Some (used_at r)) d.

Lemma dead_step tok c d d' : dead tok d → acts c d = Some d' → dead tok d' ∧ ∀ s t z, c ≠ CRotate tok s t z.
Proof.
  intros [Hi Hr] E. split.
  - destruct (token_step _ _ _ E) as [E1 E2|v g z rt Hf Hrt E1 E2|t succ token z r -> Ht Hu Hs E1 E2].
    + split; [by rewrite E1|]. unfold row_if in *. destruct (refresh_tokens d' !! tok) as [r'|] eqn:E'; [|done].
      by rewrite (lookup_weaken _ _ _ _ E' E2) in Hr.
    + assert (tok ≠ rt) by (intros ->; rewrite Hrt in Hi; by destruct Hi). unfold dead, row_if in *. rewrite E1, E2, !lookup_insert_ne by done. done.
    + assert (tok ≠ succ) by (intros ->; rewrite Hs in Hi; by destruct Hi). unfold dead, row_if in *. rewrite E1, E2, !lookup_insert_ne by done.
      destruct (decide (tok = t)) as [->|Hne]; [rewrite lookup_insert_eq; split; [done|by eexists]|by rewrite lookup_insert_ne by done].
  - intros s t z ->. simpl in E. unfold row_if in Hr. destruct (refresh_tokens d !! tok) as [r|]; [|done]. cbn [mbind option_bind] in E.
    rewrite check_some in E. destruct E as [(Hu & _) _]. simpl in Hr. rewrite Hu in Hr. by destruct Hr.
Qed.

Lemma rotate_dead tok s t z d d' : accounts_inv loc d → acts (CRotate tok s t z) d = Some d' → dead tok d'.
Proof.
  intros Hd E. destruct (token_step _ _ _ E) as [E1 E2|v g z' rt [] Hrt E1 E2|t' succ token z' r [= <- <- <- <-] Ht Hu Hs E1 E2].
  - simpl in E. destruct (refresh_tokens d !! tok) as [r|] eqn:Hr; [|done]. cbn [mbind option_bind] in E. rewrite check_some in E.
    destruct E as [(_ & _ & Hs & _) [= <-]]. simpl in E1. apply (f_equal (lookup s)) in E1. rewrite lookup_insert_eq, Hs in E1. done.
  - destruct (ai_refresh _ d Hd tok r Ht) as [_ Hi]. assert (tok ≠ s) by (intros ->; congruence).
    unfold dead, row_if. rewrite E1, E2, !lookup_insert_ne, lookup_insert_eq by done. rewrite Hi. split; by eexists.
Qed.

Lemma history_det l d1 d2 : history l d1 → history l d2 → d1 = d2.
Proof.
  intros Hh. revert d2. induction Hh as [|l c x x' Hx IH E]; intros d Hd.
  - inversion Hd as [|l0 c0 ? ? ? ? E0]; [done|]. by destruct l0.
  - inversion Hd as [E0|l0 c0 y y' Hy E0 E1]; [by destruct l|]. apply app_inj_tail in E1 as [-> ->]. subst.
    rewrite (IH _ Hy) in E. congruence.
Qed.

(** From a point of a history on, what every step keeps and what every step shows. *)
Lemma history_app l1 l2 d :
  history (l1 ++ l2) d → ∃ d1, history l1 d1 ∧ ∀ (F : AccountsDb → Prop) (G : Cause → Prop), F d1 →
    (∀ c d2 d3, accounts_inv loc d2 → F d2 → acts c d2 = Some d3 → F d3 ∧ G c) → F d ∧ ∀ c, c ∈ l2 → G c.
Proof.
  revert d. induction l2 as [|c l2 IH] using rev_ind; intros d Hh.
  - rewrite app_nil_r in Hh. exists d. split; [done|]. intros F G HF _. split; [done|]. by intros c Hc%elem_of_nil.
  - rewrite (app_assoc l1 l2 [c]) in Hh. inversion Hh as [E0|l0 c0 d0 d0' Hh0 E0 E1]; [by destruct (l1 ++ l2)|].
    apply app_inj_tail in E1 as [-> ->]. subst. destruct (IH _ Hh0) as (d1 & Hd1 & HF). exists d1. split; [done|]. intros F G H1 Hstep.
    destruct (HF F G H1 Hstep) as [H2 Hall]. destruct (Hstep c d0 d (accounts_history_inv _ _ _ Hh0) H2 E0) as [H3 H4].
    split; [done|]. intros c' [Hc'| ->%list_elem_of_singleton]%elem_of_app; auto.
Qed.

Lemma session_trace l d tok s :
  history l d → sessions d !! tok = Some s →
  ∃ l1 c l2 at_ c' z, l = l1 ++ c :: l2 ∧ opens c tok at_ ∧ s_expires s = access_until at_ ∧
    c' ∈ l1 ++ [c] ∧ founds c' (s_player s) (s_family s) z ∧ ∀ c'', c'' ∈ l2 → ¬ ends c'' tok (s_player s) (s_family s).
Proof.
  intros Hh. revert s. induction Hh as [|l c d d' Hh IH E]; intros s Hs; [simpl in Hs; by rewrite lookup_empty in Hs|].
  destruct (session_step _ _ _ _ _ E Hs) as [[Hs0 Hne]|(at_ & Ho & He)].
  - destruct (IH s Hs0) as (l1 & c0 & l2 & at_ & c' & z & -> & ? & ? & ? & ? & Hall). exists l1, c0, (l2 ++ [c]), at_, c', z.
    split_and!; [by rewrite <- app_assoc|done..|]. intros c'' [Hc| ->%list_elem_of_singleton]%elem_of_app; auto.
  - pose proof (h_next _ _ _ _ _ Hh E) as Hh'. destruct (ai_session _ d' (accounts_history_inv _ _ _ Hh') tok s Hs) as [_ [t Ht]].
    destruct (issued_founded _ _ _ _ _ Hh' Ht) as (c' & z & Hc' & Hf).
    exists l, c, [], at_, c', z. split_and!; try done. by intros c'' Hc''%elem_of_nil.
Qed.



(** ** Handles, identities and receipts *)

Lemma none_in_log (f : AccountEvent → option string) (l : list AccountEvent) u :
  u ∉ omap f l → length (filter (fun e => f e = Some u) l) = 0%nat.
Proof.
  intros Hu. induction l as [|e l IH]; [done|]. rewrite filter_cons. simpl in Hu. destruct (f e) as [v|] eqn:Ev.
  - apply not_elem_of_cons in Hu as [Hne Hu]. rewrite decide_False by congruence. by apply IH.
  - rewrite decide_False by done. by apply IH.
Qed.

Lemma once_in_log (f : AccountEvent → option string) (l : list AccountEvent) u :
  NoDup (omap f l) → u ∈ omap f l → length (filter (fun e => f e = Some u) l) = 1%nat.
Proof.
  intros Hnd Hu. induction l as [|e l IH]; [by apply elem_of_nil in Hu|]. rewrite filter_cons. simpl in *. destruct (f e) as [v|] eqn:Ev.
  - apply NoDup_cons in Hnd as [Hv Hnd]. destruct (decide (v = u)) as [->|Hne].
    + rewrite decide_True by done. simpl. by rewrite none_in_log.
    + rewrite decide_False by congruence. apply IH; [done|]. apply elem_of_cons in Hu as [->|Hu]; done.
  - rewrite decide_False by done. by apply IH.
Qed.

Lemma registered_once d u n1 p1 n2 p2 :
  log_ok d → PlayerRegistered u n1 p1 ∈ appended d → PlayerRegistered u n2 p2 ∈ appended d → p1 = p2.
Proof.
  intros Hl. pose proof (lo_registered_once d Hl) as Hnd. induction (appended d) as [|e l IH]; [intros Hx; by apply elem_of_nil in Hx|].
  assert (Hin : ∀ n p, PlayerRegistered u n p ∈ l → u ∈ omap registered_id l)
    by (intros n p Hx; apply list_elem_of_omap; by exists (PlayerRegistered u n p)).
  simpl in Hnd. intros [<-|Ha]%elem_of_cons [Hb|Hb]%elem_of_cons.
  - by injection Hb.
  - apply NoDup_cons in Hnd as [Hx _]. by apply Hin in Hb.
  - subst e. apply NoDup_cons in Hnd as [Hx _]. by apply Hin in Ha.
  - apply IH; [|done|done]. destruct (registered_id e); [by apply NoDup_cons in Hnd as [_ ?]|done].
Qed.

(** What one cause does to the names of players. *)
Inductive name_change (d d' : AccountsDb) (c : Cause) : Prop :=
| nc_none :
    handles d' = handles d → identities d' = identities d → deletion_receipts d' = deletion_receipts d →
    players d' = players d → minted d' = minted d → name_change d d' c
| nc_enrol u name disc k secret :
    handles d !! handle_key loc name disc = None → handles d' = <[handle_key loc name disc := Some u]> (handles d) →
    identities d !! k = None → identities d' = <[k := mkIdentity u secret]> (identities d) →
    deletion_receipts d' = deletion_receipts d →
    u ∉ minted d → players d' = <[u := mkPlayer name disc]> (players d) → minted d' = {[u]} ∪ minted d → name_change d d' c
| nc_link u k :
    c = CLink u k → identities d !! k = None → identities d' = <[k := mkIdentity u None]> (identities d) →
    handles d' = handles d → deletion_receipts d' = deletion_receipts d →
    players d' = players d → minted d' = minted d → name_change d d' c
| nc_delete u p ticket at_ :
    c = CDelete u ticket at_ → players d !! u = Some p → handles d' = <[key_of loc p := None]> (handles d) →
    identities d' = filter (fun kv => i_player (snd kv) ≠ u) (identities d) →
    deletion_receipts d' = <[u := mkReceipt (render_handle (display_name p) (discriminator p)) ticket at_]> (deletion_receipts d) →
    players d' = delete u (players d) → minted d' = minted d → name_change d d' c.

Lemma name_step c d d' : acts c d = Some d' → name_change d d' c.
Proof.
  destruct c as [u name disc k0 secret token rt f at_|k0 u token rt f at_|u k0|t succ token at_|t u f token at_
    |t f X at_|u ticket at_|u ticket at_|at_|state st binding at_|state binding at_|at_]; simpl.
  - destruct (enrol loc u name disc k0 secret d) as [d1|] eqn:E; [|done]. simpl.
    apply enrol_spec in E as (_ & _ & _ & E0 & E1 & E2 & Hn & Hk & Hu & E3 & E4). intros (-> & _)%issue_spec. by eapply nc_enrol.
  - rewrite check_some. intros [_ (-> & _)%issue_spec]. by apply nc_none.
  - rewrite check_some. intros [[_ Hk] [= <-]]. by destruct (negb _ && _); eapply nc_link.
  - destruct (refresh_tokens d !! t); [|done]. cbn [mbind option_bind]. rewrite check_some. intros [_ [= <-]]. by apply nc_none.
  - rewrite check_some. intros [_ [= <-]]. by apply nc_none.
  - rewrite check_some. intros [_ [= <-]]. by apply nc_none.
  - rewrite check_some. intros [_ [= <-]]. by apply nc_none.
  - destruct (players d !! u) as [p|] eqn:Hp; [|done]. destruct (delete_tickets d !! u); [|done]. cbn [mbind option_bind]. rewrite check_some.
    intros [_ [= <-]]. by eapply nc_delete.
  - intros [= <-]. by apply nc_none.
  - rewrite check_some. intros [_ [= <-]]. by apply nc_none.
  - destruct (oauth_states d !! state); [|done]. cbn [mbind option_bind]. rewrite check_some. intros [_ [= <-]]. by apply nc_none.
  - intros [= <-]. by apply nc_none.
Qed.

(** A claimed handle can only be given up, and for good. *)
Lemma handle_step c d d' k x :
  acts c d = Some d' → handles d !! k = Some x → handles d' !! k = Some x ∨ handles d' !! k = Some None.
Proof.
  intros E Hk. destruct (name_step _ _ _ E) as [-> _ _ _ _|u name disc k0 secret Hn -> _ _ _ _ _ _|u k0 _ _ _ -> _ _ _|u p ticket at_ _ Hp -> _ _ _ _]; auto.
  - left. rewrite lookup_insert_ne; [done|]. intros <-. congruence.
  - destruct (decide (key_of loc p = k)) as [->|Hne]; [right; by rewrite lookup_insert_eq|left; by rewrite lookup_insert_ne].
Qed.

Lemma receipt_step c d d' u : acts c d = Some d' → is_Some (deletion_receipts d !! u) → is_Some (deletion_receipts d' !! u).
Proof.
  intros E Hu. destruct (name_step _ _ _ E) as [_ _ -> _ _|? ? ? ? ? _ _ _ _ -> _ _ _|? ? _ _ _ _ -> _ _|v p ticket at_ _ _ _ _ -> _ _]; auto.
  rewrite lookup_insert_is_Some'. auto.
Qed.

Lemma identity_step c d d' k i :
  accounts_inv loc d → acts c d = Some d' → identities d !! k = Some i →
  identities d' !! k = Some i ∨ is_Some (deletion_receipts d' !! i_player i).
Proof.
  intros Hd E Hk. destruct (name_step _ _ _ E) as [_ -> _ _ _|u name disc k0 secret _ _ Hn -> _ _ _ _|u k0 _ Hn -> _ _ _ _|u p ticket at_ _ Hp _ -> -> _ _]; auto.
  - left. rewrite lookup_insert_ne; [done|]. intros <-. congruence.
  - left. rewrite lookup_insert_ne; [done|]. intros <-. congruence.
  - destruct (decide (i_player i = u)) as [->|Hne]; [right; by rewrite lookup_insert_eq|left]. by apply map_lookup_filter_Some.
Qed.

(** What a player's lock keeps: whether they hold an identity of a real provider. *)
Lemma real_step c d d' u :
  acts c d = Some d' → u ∈ minted d → (∀ k, c ≠ CLink u k) → (∀ t z, c ≠ CDelete u t z) →
  u ∈ minted d' ∧ players d' !! u = players d !! u ∧ has_real u d' = has_real u d.
Proof.
  intros E Hu Hl Hdel. destruct (name_step _ _ _ E) as [_ E1 _ E2 E3|v name disc k secret _ _ Hk E1 _ Hv E2 E3|v k -> Hk E1 _ _ E2 E3|v p t z -> _ _ E1 _ E2 E3];
    (split; [rewrite E3; set_solver|]).
  - rewrite E2. unfold has_real. by rewrite E1.
  - assert (v ≠ u) by (intros ->; done). rewrite E2, lookup_insert_ne by done. split; [done|]. apply eq_true_iff_eq.
    rewrite !real_spec. rewrite E1. split; intros (k' & i & Hi & <- & Hg); exists k', i; (split_and!; [|done|done]).
    + by apply lookup_insert_Some in Hi as [[<- <-]|[_ Hi]].
    + rewrite lookup_insert_ne; [done|]. intros <-. congruence.
  - assert (v ≠ u) by (intros ->; by eapply Hl). rewrite E2. split; [done|]. apply eq_true_iff_eq.
    rewrite !real_spec. rewrite E1. split; intros (k' & i & Hi & <- & Hg); exists k', i; (split_and!; [|done|done]).
    + by apply lookup_insert_Some in Hi as [[<- <-]|[_ Hi]].
    + rewrite lookup_insert_ne; [done|]. intros <-. congruence.
  - assert (v ≠ u) by (intros ->; by eapply Hdel). rewrite E2, lookup_delete_ne by done. split; [done|]. apply eq_true_iff_eq.
    rewrite !real_spec. rewrite E1. setoid_rewrite map_lookup_filter_Some. naive_solver.
Qed.

(** A used token's row can only go. *)
Lemma spent_step c d d' tok x r :
  acts c d = Some d' → issued d !! tok = Some x → row_if tok (fun r' => r' = r) d → is_Some (used_at r) →
  issued d' !! tok = Some x ∧ row_if tok (fun r' => r' = r) d'.
Proof.
  intros E Hi Hr Hu. unfold row_if in *. destruct (token_step _ _ _ E) as [E1 E2|v g z rt Hf Hrt E1 E2|t succ token z r0 -> Ht Hu0 Hs E1 E2].
  - split; [by rewrite E1|]. destruct (refresh_tokens d' !! tok) as [r'|] eqn:E'; [|done]. by rewrite (lookup_weaken _ _ _ _ E' E2) in Hr.
  - assert (tok ≠ rt) by (intros ->; congruence). by rewrite E1, E2, !lookup_insert_ne by done.
  - assert (tok ≠ succ) by (intros ->; congruence).
    assert (tok ≠ t) by (intros ->; rewrite Ht in Hr; simpl in Hr; subst r0; rewrite Hu0 in Hu; by destruct Hu).
    by rewrite E1, E2, !lookup_insert_ne by done.
Qed.

(** A handle names one player for ever: if two players hold the same handle (names
    compared without case) at any two points of a history, they are the same player, so
    the handle of a deleted player is never given to another. *)
Theorem handles_permanent l1 l2 d1 d2 u1 u2 p1 p2 :
  history l1 d1 → history (l1 ++ l2) d2 → players d1 !! u1 = Some p1 → players d2 !! u2 = Some p2 →
  pg_lower loc (display_name p1) = pg_lower loc (display_name p2) → discriminator p1 = discriminator p2 → u1 = u2.
Proof.
  intros Hh1 Hh Hp1 Hp2 En Ed. destruct (history_app _ _ _ Hh) as (d & Hd & HF). rewrite (history_det _ _ _ Hd Hh1) in *.
  set (k := key_of loc p1).
  assert (Hk2 : key_of loc p2 = k) by (subst k; unfold key_of, handle_key; by rewrite En, Ed).
  destruct (HF (fun d => handles d !! k = Some (Some u1) ∨ handles d !! k = Some None) (fun _ => True)) as [Hend _].
  - left. by apply (ai_claim _ _ (accounts_history_inv _ _ _ Hh1)).
  - intros c x y _ [Hx|Hx] E; destruct (handle_step _ _ _ _ _ E Hx); auto.
  - pose proof (ai_claim _ _ (accounts_history_inv _ _ _ Hh) u2 p2 Hp2) as Hc. rewrite Hk2 in Hc. destruct Hend; congruence.
Qed.

(** An external identity never changes hands: once it maps to a player it maps to
    that player as long as they exist. *)
Theorem identity_never_moves l1 l2 d1 d2 k i :
  history l1 d1 → history (l1 ++ l2) d2 → identities d1 !! k = Some i →
  identities d2 !! k = Some i ∨ is_Some (deletion_receipts d2 !! i_player i).
Proof.
  intros Hh1 Hh Hk. destruct (history_app _ _ _ Hh) as (d & Hd & HF). rewrite (history_det _ _ _ Hd Hh1) in *.
  apply (HF (fun d => identities d !! k = Some i ∨ is_Some (deletion_receipts d !! i_player i)) (fun _ => True)); [by left|].
  intros c x y Hx [Hi|Hr] E; split; [|done| |done]; [by eapply identity_step|right; by eapply receipt_step].
Qed.


(** Promotions are announced exactly: no player twice, and of the players there are
    exactly those who began as guests and now hold an identity of another provider. *)
Theorem promotions_exact l d :
  history l d →
  (∀ u, (length (filter (fun e => promoted_id e = Some u) (appended d)) ≤ 1)%nat) ∧
  ∀ u p, players d !! u = Some p →
    length (filter (fun e => promoted_id e = Some u) (appended d)) = 1%nat ↔
    (∃ name, PlayerRegistered u name GUEST ∈ appended d) ∧ ∃ k i, identities d !! k = Some i ∧ i_player i = u ∧ fst k ≠ GUEST.
Proof.
  intros Hh%accounts_history_inv. pose proof (ai_log _ _ Hh) as Hl. split.
  - intros u. destruct (decide (u ∈ omap promoted_id (appended d))) as [Hu|Hu].
    + rewrite once_in_log; [done|apply Hl|done].
    + rewrite none_in_log; [lia|done].
  - intros u p Hp. rewrite <- real_spec. destruct (lo_born d Hl u p Hp) as (n & pr & Hin & Ha & Hb & Hc).
    assert (Hone : length (filter (fun e => promoted_id e = Some u) (appended d)) = 1%nat ↔ u ∈ omap promoted_id (appended d)).
    { split; [|intros; apply once_in_log; [apply Hl|done]]. intros E. destruct (decide (u ∈ omap promoted_id (appended d))); [done|].
      rewrite none_in_log in E; done. }
    rewrite Hone. destruct (decide (pr = GUEST)) as [->|Hne]; [naive_solver|]. split; [intros Hu; by apply Hc in Hu|].
    intros [[n' Hn'] _]. destruct Hne. eapply registered_once; [exact Hl|exact Hin|exact Hn'].
Qed.
End Safety.

(** Ann begins as a guest, links another identity and refreshes; Bob registers and
    deletes his account. *)
Module AccountsExample.
#[local] Existing Instance plain_uuid.

Definition loc : Locale := mkLocale lower (fun _ _ => true) pretty.pretty.
Definition ann : string := "11111111-0000-4000-8000-000000000001".
Definition bob : string := "22222222-0000-4000-8000-000000000002".

Definition story : list Cause :=
  [CProvision ann "Ann" "0001" (GUEST, "g1") (Some "digest") "t1" "r1" "f1" 1; CLink ann (EPIC, "e1"); CRotate "r1" "r2" "t2" 2;
   CProvision bob "Bob" "0002" (DEV, "bob@mail") (Some "hash") "t3" "r3" "f3" 3].
Definition departure : list Cause := [CTicket bob "ticket" 4; CDelete bob "ticket" 5].

Definition tell (l : list Cause) : option AccountsDb := foldl (fun d c => d ≫= acts loc c) (Some empty_accounts) l.
Definition told (l : list Cause) : AccountsDb := default empty_accounts (tell l).

Lemma accounts_told l : (if tell l is Some _ then true else false) = true → history loc l (told l).
Proof.
  unfold told. intros E. destruct (tell l) as [d|] eqn:Et; [clear E; simpl|done]. revert d Et.
  induction l as [|c l IH] using rev_ind; intros d; unfold tell; [intros [= <-]; constructor|].
  rewrite foldl_snoc. destruct (foldl _ _ l) as [d0|] eqn:E0; [|done]. simpl. intros E. by apply (h_next loc l c d0); [apply IH|].
Qed.

Lemma accounts_story : history loc story (told story).
Proof. apply accounts_told. vm_compute. reflexivity. Qed.

Lemma departure_history : history loc (story ++ departure) (told (story ++ departure)).
Proof. apply accounts_told. vm_compute. reflexivity. Qed.



(** Whoever is called Ann#0001 after Bob left is Ann. *)
Lemma handles_permanent_witness :
  (exists p, players (told (story ++ departure)) !! ann = Some p /\ display_name p = "Ann") /\ ann = ann.
Proof.
  split; [exists (mkPlayer "Ann" "0001"); split; [vm_compute; reflexivity|done]|].
  apply (handles_permanent loc story departure (told story) (told (story ++ departure)) ann ann (mkPlayer "Ann" "0001") (mkPlayer "Ann" "0001"));
    [exact accounts_story|exact departure_history|vm_compute; reflexivity|vm_compute; reflexivity|done|done].
Defined.


Lemma promotions_exact_witness : length (filter (fun e => promoted_id e = Some ann) (appended (told story))) = 1%nat.
Proof.
  apply (promotions_exact loc story (told story) accounts_story) with (p := mkPlayer "Ann" "0001"); [vm_compute; reflexivity|]. split.
  - exists "Ann". vm_compute. left.
  - exists (EPIC, "e1"), (mkIdentity ann None). split; [vm_compute; reflexivity|done].
Defined.
End AccountsExample.
