(* ===== verification/AccountsContract.v ===== *)
(** * AccountsContract: the writes of accounts refine its causes

    What each group of statements that [Accounts] commits together does to the tables,
    when it succeeds, is one cause of [AccountsActs]. *)

From Stdlib Require Import Ascii.
From stdpp Require Import pretty.
From S2P Require Import Prelude Text OpsApi Pg Directory Txn Accounts AccountsActs AccountsSafety.
#[local] Open Scope Z_scope.

(** ** Discriminators *)

Definition disc_ok (s : string) : bool := bool_decide (String.length s = 4%nat) && forallb is_ascii_digit (to_bytes s).

Lemma new_discriminator_ok r : disc_ok (new_discriminator r) = true.
Proof.
  assert (Hall : forallb (fun n => disc_ok (new_discriminator n)) (seqZ 0 10000) = true) by (vm_compute; reflexivity).
  rewrite forallb_forall in Hall. specialize (Hall (r mod 10000)). unfold new_discriminator in *. rewrite Zmod_mod in Hall.
  apply Hall, list_elem_of_In, elem_of_seqZ. pose proof (Z.mod_pos_bound r 10000). lia.
Qed.

Section Statements.
Context `{PgUuid} (loc : Locale) (env : AEnv).

Hypothesis fresh_players : ∀ t d u, fresh_player env t d = Some u → (u ∉ minted d) ∧ canonical u.
Hypothesis fresh_families : ∀ t d, family_used (fresh_family env t d) d = false.
Hypothesis fresh_tokens : ∀ t i d, issued d !! token_at env t i d = None.

Abbreviation acts := (acts loc).

(** Inversion of the statements' common shapes. *)
Lemma or_internal_ok {A} (m : ST AccountsDb SqlError A) d d' a : or_internal m d = (d', Ok a) → m d = (d', Ok a).
Proof. apply st_map_err_ok. Qed.

Lemma branch_ok {A E} (b : AccountsDb → bool) (m1 m2 : ST AccountsDb E A) d d' a :
  (x ← gets b; if x : bool then m1 else m2) d = (d', Ok a) → if b d then m1 d = (d', Ok a) else m2 d = (d', Ok a).
Proof. unfold mbind, ST_bind, gets. by destruct (b d). Qed.

Lemma insert_session_ok z u token f d d' x :
  insert_session_tx z u token f d = (d', Ok x) →
  sessions d !! token = None ∧ is_Some (players d !! u) ∧ d' = set_sessions (<[token := mkSession u f (access_until z)]>) d.
Proof.
  unfold insert_session_tx. intros E. pg_inv E. apply branch_ok in E. destruct (bool_decide _) eqn:E1; [done|].
  apply branch_ok in E. destruct (bool_decide (is_Some (players d !! u))) eqn:E2; [|done]. injection E as <-.
  apply bool_decide_eq_false, eq_None_not_Some in E1. by apply bool_decide_eq_true in E2.
Qed.

Lemma insert_refresh_ok token u f z d d' x :
  insert_refresh_row token u f z d = (d', Ok x) →
  refresh_tokens d !! token = None ∧ is_Some (players d !! u) ∧
  d' = set_issued (<[token := (u, f)]>) (set_refresh (<[token := mkRefresh u f z None None]>) d).
Proof.
  unfold insert_refresh_row. intros E. pg_inv E. apply branch_ok in E. destruct (bool_decide _) eqn:E1; [done|].
  apply branch_ok in E. destruct (bool_decide (is_Some (players d !! u))) eqn:E2; [|done]. injection E as <-.
  apply bool_decide_eq_false, eq_None_not_Some in E1. by apply bool_decide_eq_true in E2.
Qed.

Lemma issue_session_does t z p d d' s :
  issue_session_tx env t z p d = (d', Ok s) →
  ∃ token rt f, issue (id p) token rt f z d = Some d' ∧ sv_token s = token ∧ sv_refresh s = rt ∧ sv_player s = id p.
Proof.
  unfold issue_session_tx. intros E. st_inv E. injection E0 as <- <-. st_inv E. injection E0 as <- <-.
  st_inv E. apply or_internal_ok in E0. unfold insert_refresh_family_tx in E0. st_inv E0. injection E1 as <- <-.
  st_inv E0. injection E0 as <- <-. apply insert_refresh_ok in E1 as (_ & Hu & ->).
  st_inv E. apply or_internal_ok, insert_session_ok in E0 as (Ht & _ & ->). injection E as <- <-.
  eexists _, _, _. split; [|done]. unfold issue. rewrite check_some. split; [|done]. simpl in *. auto.
Qed.

Lemma handle_used_false name disc d :
  accounts_inv loc d → handles d !! handle_key loc name disc = None → handle_used loc name disc d = false.
Proof.
  intros Hd Hn. unfold handle_used. apply not_true_iff_false. rewrite existsb_exists. intros ([u p] & Hin & E%bool_decide_eq_true).
  apply list_elem_of_In, elem_of_map_to_list in Hin. simpl in E. pose proof (ai_claim _ d Hd u p Hin) as Hc.
  unfold key_of in Hc. rewrite E in Hc. congruence.
Qed.

Lemma mint_player_ok t name d d' u rs :
  accounts_inv loc d → mint_player loc rs (fresh_player env t) name d = (d', Ok (Some u)) →
  ∃ disc, disc_ok disc = true ∧ handles d !! handle_key loc name disc = None ∧ (u ∉ minted d) ∧ canonical u ∧ has_nul name = false ∧
    d' = set_players (<[u := mkPlayer name disc]>) (mint u (set_handles (<[handle_key loc name disc := Some u]>) d)).
Proof.
  intros Hd. induction rs as [|r rs IH]; [done|]. cbn [mint_player]. intros E. st_inv E. unfold drawn in E0.
  destruct (fresh_player env t d) as [new_id|] eqn:Ef; [|done]. injection E0 as <- <-. st_inv E.
  unfold claim_handle_tx in E0. apply st_bind_ok in E0 as (? & [] & Eb & E0). apply pg_bind_ok in Eb as [-> Hnul]. apply branch_ok in E0.
  destruct (bool_decide _) eqn:E1; [injection E0 as <- <-; by apply IH|]. injection E0 as <- <-. simpl in E.
  apply bool_decide_eq_false, eq_None_not_Some in E1. st_inv E. injection E as <- <-. unfold insert_player_row in E0.
  apply st_bind_ok in E0 as (? & [] & Eb & E0). apply pg_bind_ok in Eb as [-> _]. apply branch_ok in E0.
  destruct (_ || _); [done|]. injection E0 as <- <-. exists (new_discriminator r).
  destruct (fresh_players t d new_id Ef) as [Hf Hc]. simpl in Hnul. apply orb_false_iff in Hnul as [Hnul _].
  split_and!; [apply new_discriminator_ok|done..].
Qed.

(** The writes of a first sight are an enrolment and a login. *)
Lemma provision_does taken t z provider subject name secret d d' s :
  accounts_inv loc d → name ≠ "" →
  provision_writes loc env taken t z provider subject name secret d = (d', Ok s) →
  ∃ u disc token rt f, acts (CProvision u name disc (provider, subject) secret token rt f z) d = Some d' ∧ sv_player s = u.
Proof.
  intros Hd Hne. unfold provision_writes. generalize (draws env t). intros rs E. st_inv E. apply st_map_err_ok in E0. unfold insert_player_with_identity_tx in E0.
  st_inv E0. apply st_map_err_ok in E1. destruct a0 as [u|]; [|done]. apply mint_player_ok in E1 as (disc & Hdisc & Hh & Hu & Hc & Hnul & ->); [|done].
  st_inv E0. apply st_map_err_ok in E1. injection E0 as <- <-. unfold insert_identity_row in E1.
  apply st_bind_ok in E1 as (? & [] & Eb & E1). apply pg_bind_ok in Eb as [-> _]. apply branch_ok in E1.
  destruct (bool_decide _) eqn:E2; [done|]. apply branch_ok in E1. destruct (bool_decide _) eqn:E3 in E1; [|done]. injection E1 as <-.
  apply bool_decide_eq_false, eq_None_not_Some in E2. st_inv E. injection E0 as <-.
  apply issue_session_does in E as (token & rt & f & E & _ & _ & Hs). exists u, disc, token, rt, f. split; [|done].
  cbn [AccountsActs.acts]. unfold disc_ok in Hdisc. apply andb_true_iff in Hdisc as [Hd1 Hd2]. apply bool_decide_eq_true in Hd1.
  assert (Hen : enrol loc u name disc (provider, subject) secret d = Some (append (PlayerRegistered u name provider)
      (set_identities (<[(provider, subject) := mkIdentity u secret]>) (set_players (<[u := mkPlayer name disc]>)
        (mint u (set_handles (<[handle_key loc name disc := Some u]>) d)))))).
  { unfold enrol. rewrite check_some. split; [|done]. unfold player_ok. by split_and!. }
  rewrite Hen. exact E.
Qed.

Lemma player_by_identity_ok provider subject d p :
  snd (player_by_identity_tx provider subject d) = Ok p →
  p = (i ← identities d !! (provider, subject); joined (i_player i) d).
Proof.
  unfold player_by_identity_tx, mbind at 1, ST_bind, bind_text. destruct (existsb _ _); [done|]. simpl. by intros [= <-].
Qed.

Lemma real_tx u d b : canonical u → snd (has_real_identity_tx u d) = Ok b → b = has_real u d.
Proof.
  unfold has_real_identity_tx, mbind at 1, ST_bind, bind_text. intros Hu. destruct (existsb has_nul [u]); [done|]. simpl.
  unfold cast_uuid, lift. rewrite Hu. simpl. by intros [= <-].
Qed.

Lemma link_writes_does had u provider subject d d' o :
  accounts_inv loc d → canonical u → (is_Some (players d !! u) → had = has_real u d) →
  link_writes had u provider subject d = (d', Ok o) →
  d' = d ∨ acts (CLink u (provider, subject)) d = Some d'.
Proof.
  intros Hd Hc Hhad. unfold link_writes. intros E. st_inv E. apply st_map_err_ok in E0. unfold link_identity_tx in E0.
  st_inv E0. apply st_map_err_ok in E1.
  assert (Hs0 : s0 = d ∧ a0 = (i ← identities d !! (provider, subject); joined (i_player i) d)).
  { pose proof (f_equal snd E1) as E2. apply player_by_identity_ok in E2. split; [|done].
    unfold player_by_identity_tx, mbind at 1, ST_bind, bind_text in E1. destruct (existsb _ _); [done|]. by injection E1. }
  destruct Hs0 as [-> ->]. destruct (identities d !! (provider, subject)) as [i|] eqn:Hi.
  - destruct (ai_identity _ d Hd _ i Hi) as [q Hq]. cbn [mbind option_bind] in E0. unfold joined in E0. rewrite Hq in E0. simpl in E0.
    destruct (bool_decide _); [|done]. injection E0 as <- <-. simpl in E. injection E as <- <-. by left.
  - cbn [mbind option_bind] in E0. right. st_inv E0. apply st_map_err_ok in E2. injection E0 as <- <-.
    pg_inv E2. match goal with Hx : uuid_in u = Some _ |- _ => unfold canonical in Hc; rewrite Hc in Hx; injection Hx as <- end.
    destruct (bool_decide _) eqn:E3; [done|]. apply branch_ok in E2. destruct (bool_decide _) eqn:E4 in E2; [|done].
    injection E2 as <-. apply bool_decide_eq_true in E4. cbn [AccountsActs.acts]. rewrite check_some. split; [done|]. f_equal. simpl in E.
    rewrite (Hhad E4) in E. rewrite bool_decide_not. simpl. destruct (negb (has_real u d) && negb (bool_decide (provider = GUEST))); simpl in E; by injection E as <- _.
Qed.

Lemma rotation_does t z tok d d' r :
  accounts_inv loc d → rotation env t z tok d = (d', Ok r) →
  match r with
  | None => d' = d ∧ (∀ row, refresh_tokens d !! tok = Some row → used_at row ≠ None ∨ r_expires row ≤ z)
  | Some s => ∃ succ token, acts (CRotate tok succ token z) d = Some d' ∧ sv_refresh s = succ ∧ sv_token s = token
  end.
Proof.
  intros Hd. unfold rotation. intros E. st_inv E. injection E0 as <- <-. set (succ := token_at env t 0 d) in *. st_inv E.
  apply or_internal_ok in E0. unfold rotate_refresh_tx in E0. apply st_bind_ok in E0 as (? & [] & Eb & E0). apply pg_bind_ok in Eb as [-> _].
  st_inv E0. injection E1 as <- <-. destruct (refresh_tokens d !! tok) as [row|] eqn:Hrow.
  2:{ injection E0 as <- <-. simpl in E. injection E as <- <-. by split. }
  destruct (bool_decide (used_at row = None) && (z <? r_expires row)) eqn:Elive.
  2:{ injection E0 as <- <-. simpl in E. injection E as <- <-. split; [done|]. intros ? [= <-].
      destruct (bool_decide_reflect (used_at row = None)); [right|by left]. simpl in Elive. lia. }
  injection E0 as <- <-. simpl in E. st_inv E. injection E as <- <-. unfold complete_rotation_tx in E0. st_inv E0.
  apply or_internal_ok in E. unfold insert_refresh_successor_tx in E. st_inv E. injection E1 as <- <-. simpl in E. rewrite lookup_insert_eq in E. 
  apply insert_refresh_ok in E as (_ & Hp & ->). unfold issue_access_in_family_tx in E0. st_inv E0. injection E as <- <-.
  st_inv E0. apply or_internal_ok, insert_session_ok in E as (Ht & _ & ->). injection E0 as <- <-.
  exists succ. eexists. split; [|done]. cbn [AccountsActs.acts]. rewrite Hrow. cbn [mbind option_bind]. rewrite check_some.
  apply andb_true_iff in Elive as [Hu%bool_decide_eq_true Hx%Z.ltb_lt]. split; [|done]. split_and!; [done|done|apply fresh_tokens|exact Ht].
Qed.

Lemma delete_writes_does z u ticket d d' r :
  accounts_inv loc d → canonical u → delete_writes loc z u ticket d = (d', Ok r) →
  match r with
  | None => d' = d
  | Some receipt => acts (CDelete u ticket z) d = Some d' ∧
      ∃ h, deletion_receipts d' !! u = Some (mkReceipt h ticket z) ∧ receipt = mkDeleteReceipt u h (rfc3339 loc z)
  end.
Proof.
  intros Hd Hc. unfold delete_writes. intros E. st_inv E. apply st_map_err_ok in E0. unfold consume_delete_ticket_tx in E0. pg_inv E0.
  match goal with Hx : uuid_in u = Some _ |- _ => unfold canonical in Hc; rewrite Hc in Hx; injection Hx as <- end.
  destruct (delete_tickets d !! u) as [t|] eqn:Ht; [|injection E0 as <- <-; by injection E as <- <-].
  destruct (bool_decide (t_ticket t = ticket) && (z <? t_expires t)) eqn:El; [|injection E0 as <- <-; by injection E as <- <-].
  injection E0 as <- <-. simpl in E. st_inv E. injection E as <- <-. unfold delete_player_steps in E0. st_inv E0.
  apply or_internal_ok in E. injection E as <- <-. simpl in E0. destruct (players d !! u) as [p|] eqn:Hp; [|done]. simpl in E0.
  st_inv E0. apply or_internal_ok in E. injection E as <-. st_inv E0. apply or_internal_ok in E. unfold insert_deletion_receipt_tx in E.
  apply st_bind_ok in E as (? & [] & Eb & E). apply pg_bind_ok in Eb as [-> _]. apply branch_ok in E. destruct (bool_decide (is_Some _)) in E; [done|].
  injection E as <- <-. st_inv E0. apply or_internal_ok in E. injection E as <- <-. simpl in E0. rewrite Hp in E0. simpl in E0.
  rewrite bool_decide_eq_true_2 in E0 by eauto. simpl in E0. injection E0 as <- <-.
  apply andb_true_iff in El as [Hti%bool_decide_eq_true Hx%Z.ltb_lt]. cbn [AccountsActs.acts]. rewrite Hp, Ht. cbn [mbind option_bind].
  split; [|eexists; split; [simpl; by rewrite lookup_insert_eq|done]].
  rewrite check_some. split; [done|]. f_equal. unfold append, cascade, set_receipts, set_handles. simpl. f_equal. by rewrite delete_delete_eq.
Qed.

Lemma upsert_ticket_does z u ticket d d' r :
  canonical u → upsert_delete_ticket z u ticket d = (d', Ok r) →
  match r with None => d' = d | Some _ => acts (CTicket u ticket z) d = Some d' end.
Proof.
  intros Hc. unfold upsert_delete_ticket. destruct (upsert_ticket_row z u ticket d) as [d1 [row|e]] eqn:E.
  - intros [= <- <-]. unfold upsert_ticket_row in E. apply st_bind_ok in E as (? & [] & Eb & E). apply pg_bind_ok in Eb as [-> _].
    apply st_bind_ok in E as (? & ? & Eb & E). apply pg_cast_ok in Eb as [-> Hx]. match goal with Hx : uuid_in u = Some _ |- _ => unfold canonical in Hc; rewrite Hc in Hx; injection Hx as <- end.
    apply branch_ok in E. destruct (bool_decide _) eqn:Ep; [|done]. apply bool_decide_eq_true in Ep. st_inv E. injection E0 as <- <-.
    st_inv E. injection E0 as <-. injection E as <- _. cbn [AccountsActs.acts]. rewrite check_some. split; [done|]. done.
  - destruct e; intros [= <- <-]; done.
Qed.
End Statements.
