(* ===== verification/AccountsService.v ===== *)
(** * AccountsService: the operations of accounts refine its causes

    Every operation of [Accounts], run among the transactions of others, changes the
    tables only by the causes of [AccountsActs] its caller is entitled to: a session
    comes from a credential that was verified, a deletion from the player's own ticket,
    a link from the player and a credential of theirs. *)

From Stdlib Require Import Ascii.
From stdpp Require Import pretty.
From S2P Require Import Prelude Text OpsApi Pg Directory Txn Accounts AccountsActs AccountsSafety AccountsContract.
#[local] Open Scope Z_scope.

Section Service.
Context `{PgUuid} (loc : Locale) (env : AEnv) (b64_len : string → option nat).

#[local] Instance causes : Causes AccountsDb Cause := accounts_causes loc.
Abbreviation acts := (acts loc).

(** What the other tasks are up to, whatever that is. *)
Variable Q : Cause → Prop.

Abbreviation others := (others Q).
Abbreviation stable := (stable Q).
Abbreviation tri := (tri Q).

Hypothesis meanwhile_others : ∀ t L d, rtc (others L) d (meanwhile (world env) t L d).
Hypothesis fresh_players : ∀ t d u, fresh_player env t d = Some u → (u ∉ minted d) ∧ canonical u.
Hypothesis fresh_families : ∀ t d, family_used (fresh_family env t d) d = false.
Hypothesis fresh_tokens : ∀ t i d, issued d !! token_at env t i d = None.

(** ** What stays true *)

(** The bookkeeping of the browser flow. *)
Definition bookkeeping (c : Cause) : Prop :=
  match c with CState _ _ _ _ | CRedeem _ _ _ | CPruneStates _ => True | _ => False end.

(** The tables at some moment of a run that began at [d0], before the run changed
    anything but the browser flow's states. *)
Definition since (d0 d : AccountsDb) : Prop := rtc (fun x y => ∃ c, (Q c ∨ bookkeeping c) ∧ acts c x = Some y) d0 d.

Lemma stable_since L d0 : stable L (since d0).
Proof. intros d d' _ Hs (c & Hq & E & _). eapply rtc_r; [exact Hs|]. eauto. Qed.

(** The identity is the player's, or they are gone for good. *)
Definition owner (k : Key) (u : string) (d : AccountsDb) : Prop :=
  i_player <$> identities d !! k = Some u ∨ is_Some (deletion_receipts d !! u).

Lemma stable_owner L k u : stable L (owner k u).
Proof.
  intros d d' Hd [Hi|Hr] (c & _ & E & _); [|right; by apply (receipt_step loc c d)].
  apply fmap_Some in Hi as (i & Hi & ->). destruct (identity_step loc _ _ _ _ _ Hd E Hi) as [Hi'|?]; [left|by right].
  by rewrite Hi'.
Qed.

(** Whether the player holds a real identity, as read under their lock. *)
Definition real_read (u : string) (b : bool) (d : AccountsDb) : Prop :=
  u ∈ minted d ∧ (is_Some (players d !! u) → b = has_real u d).

Lemma stable_real L u b : player_lock_key u ∈ L → stable L (real_read u b).
Proof.
  intros HL d d' _ [Hm Hb] (c & _ & E & Hc). destruct (real_step loc c d d' u E Hm) as (Hm' & E1 & E2); [| |unfold real_read; by rewrite E1, E2].
  - intros k ->. simpl in Hc. apply Forall_cons in Hc as [Hc _]. done.
  - intros t z ->. simpl in Hc. apply Forall_cons in Hc as [Hc _]. done.
Qed.

Lemma minted_step c d d' u : acts c d = Some d' → u ∈ minted d → u ∈ minted d'.
Proof.
  intros E Hu. destruct (name_step loc _ _ _ E) as [_ _ _ _ ->|? ? ? ? ? _ _ _ _ _ _ _ ->|? ? _ _ _ _ _ _ ->|? ? ? ? _ _ _ _ _ _ ->]; set_solver.
Qed.

Definition known (u : string) (d : AccountsDb) : Prop := u ∈ minted d.

Lemma stable_known L u : stable L (known u).
Proof. intros d d' _ Hu (c & _ & E & _). by apply (minted_step c d). Qed.

(** The row of a used token, as read. *)
Definition row_read (tok : string) (r : RefreshToken) (d : AccountsDb) : Prop :=
  issued d !! tok = Some (r_player r, r_family r) ∧ row_if tok (fun r' => r' = r) d.

Lemma stable_row L tok r : is_Some (used_at r) → stable L (row_read tok r).
Proof. intros Hu d d' _ [Hi Hr] (c & _ & E & _). by apply (spent_step loc c d). Qed.

(** ** Sessions *)

Definition by_login (k : Key) (c : Cause) : Prop := ∃ u token rt f z, c = CLogin k u token rt f z.
Definition by_provision (k : Key) (name : string) (secret : option string) (c : Cause) : Prop :=
  ∃ u disc token rt f z, c = CProvision u name disc k secret token rt f z.

Lemma issue_owner t z p k d d' s :
  accounts_inv loc d → owner k (id p) d → issue_session_tx env t z p d = (d', Ok s) →
  ∃ c, by_login k c ∧ acts c d = Some d'.
Proof.
  intros Hd Ho (token & rt & f & E & _)%issue_session_does; [|done..]. exists (CLogin k (id p) token rt f z).
  split; [by repeat eexists|]. simpl. apply check_some. split; [|done]. destruct Ho as [?|[r Hr]]; [done|].
  apply issue_spec in E as (_ & [q Hq] & _). destruct (ai_receipt _ _ Hd _ _ Hr) as [_ Hn]. congruence.
Qed.

Lemma tri_issue_session P k p :
  (∀ c, by_login k c → P c) → tri P (holding [] (owner k (id p))) (issue_session env p) (fun _ _ => True).
Proof.
  intros HP. apply tri_in_tx, tri_clock_bind. intros z. apply tri_commit; [done|apply stable_owner|].
  intros t d d' s Hd Ho E. right. destruct (issue_owner _ _ _ _ _ _ _ Hd Ho E) as (c & Hc & Ec). eauto.
Qed.

Lemma tri_provision P taken k name secret z L :
  name ≠ "" → (∀ c, by_provision k name secret c → P c) →
  tri P (holding L (fun _ => True)) (commit env (fun t => provision_writes loc env taken t z (fst k) (snd k) name secret)) (fun _ _ => True).
Proof.
  intros Hn HP. apply tri_commit; [done|apply stable_true|]. intros t d d' s Hd _ E. right.
  apply provision_does in E as (u & disc & token & rt & f & E & _); [|done..]. exists (CProvision u name disc k secret token rt f z). split; [|by destruct k].
  apply HP. by repeat eexists.
Qed.

Lemma joined_id i p d : joined i d = Some p → id p = i.
Proof. unfold joined. destruct (players d !! i); [|done]. by intros [= <-]. Qed.

Lemma found_owner provider subject p d :
  snd (player_by_identity_tx provider subject d) = Ok (Some p) → owner (provider, subject) (id p) d.
Proof.
  intros E%player_by_identity_ok. left. destruct (identities d !! (provider, subject)) as [i|]; [|done].
  symmetry in E. simpl in E. apply joined_id in E. simpl. by rewrite E.
Qed.

Lemma tri_external P provider subject name secret Φ :
  name ≠ "" → (∀ c, by_login (provider, subject) c → P c) → (∀ c, by_provision (provider, subject) name secret c → P c) →
  (∀ s, Φ s → holding [] (fun _ => True) s) →
  tri P Φ (external_login loc env provider subject name secret) (fun _ _ => True).
Proof.
  intros Hn Hl Hp HΦ. eapply tri_pre; [exact HΦ|]. apply tri_in_tx, tri_clock_bind. intros z.
  eapply tri_bind; [apply tri_locking; [done|apply stable_true]|]. intros []. apply tri_read_bind; [done|apply stable_true|].
  intros [p|] d Hd _ E.
  - exists (owner (provider, subject) (id p)). split; [by apply found_owner|].
    apply tri_seq; [|intros s; by apply tri_ret]. apply tri_commit; [done|apply stable_owner|].
    intros t d1 d' s Hd1 Ho E1. right. destruct (issue_owner _ _ _ _ _ _ _ Hd1 Ho E1) as (c & Hc & Ec). eauto.
  - exists (fun _ => True). split; [done|]. apply tri_seq; [|intros s; by apply tri_ret].
    by apply (tri_provision P internal_error (provider, subject)).
Qed.

(** ** Credentials *)

Definition oidc_of (provider : string) : option (nat → string → result VerifyError string) :=
  if bool_decide (provider = GOOGLE) then google_verifier env else
  if bool_decide (provider = EPIC) then epic_verifier env else None.

(** The credential was verified: by the configured provider, or against the digest of
    a guest's secret that is stored at the time. *)
Definition verified (d0 : AccountsDb) (provider credential sub : string) : Prop :=
  (∃ oidc t, oidc_of provider = Some oidc ∧ oidc t credential = Ok sub) ∨
  (provider = GUEST ∧ ∃ secret d1 i, credential = sub +:+ "." +:+ secret ∧ since d0 d1 ∧
     identities d1 !! (GUEST, sub) = Some i ∧ secret_hash i = Some (sha256 env secret)).

Definition display_of (provider sub : string) : string := provider +:+ ":" +:+ short_id sub.

Lemma display_named provider sub : display_of provider sub ≠ "".
Proof. unfold display_of. by destruct provider. Qed.

Lemma resolve_configured provider v :
  resolve env provider = Configured v →
  (provider = GUEST ∧ v = guest_credentials env) ∨ ∃ oidc, oidc_of provider = Some oidc ∧ v = oidc_credentials env provider oidc.
Proof.
  unfold resolve. destruct (providers env !! provider) as [v'|] eqn:E; [|by case_bool_decide]. intros [= ->]. revert E.
  unfold providers, oidc_of.
  assert (Hbase : ({[GUEST := guest_credentials env]} : gmap string Verifier) !! provider = Some v → provider = GUEST ∧ v = guest_credentials env).
  { intros [<- <-]%lookup_singleton_Some. done. }
  assert (Hepic : (match epic_verifier env with Some o => <[EPIC := oidc_credentials env EPIC o]> {[GUEST := guest_credentials env]} | None => {[GUEST := guest_credentials env]} end
                   : gmap string Verifier) !! provider = Some v →
          (provider = GUEST ∧ v = guest_credentials env) ∨ ∃ o, provider = EPIC ∧ epic_verifier env = Some o ∧ v = oidc_credentials env EPIC o).
  { destruct (epic_verifier env) as [o|]; [|auto]. rewrite lookup_insert_Some. intros [[<- <-]|[_ E]]; [right; eauto|auto]. }
  intros E. assert (Hall : (provider = GUEST ∧ v = guest_credentials env) ∨ (∃ o, provider = EPIC ∧ epic_verifier env = Some o ∧ v = oidc_credentials env EPIC o)
      ∨ ∃ o, provider = GOOGLE ∧ google_verifier env = Some o ∧ v = oidc_credentials env GOOGLE o).
  { destruct (google_verifier env) as [o|]; [|naive_solver]. apply lookup_insert_Some in E as [[<- <-]|[_ E]]; [right; right; eauto|naive_solver]. }
  destruct Hall as [?|[(o & -> & Ho & ->)|(o & -> & Ho & ->)]]; [by left|right..]; exists o; (split; [|done]); by rewrite Ho.
Qed.

Lemma split_once_join c l a b : split_once c l = Some (a, b) → l = a ++ c :: b.
Proof.
  revert a. induction l as [|x l IH]; intros a; simpl; [done|]. case_bool_decide as Hx; [intros [= <- <-]; by subst|].
  destruct (split_once c l) as [[a' b']|] eqn:E; [|done]. intros [= <- <-]. simpl. f_equal. by apply IH.
Qed.

Lemma of_bytes_app a b : of_bytes (a ++ b) = of_bytes a +:+ of_bytes b.
Proof. rewrite <- (of_to_bytes (of_bytes a +:+ of_bytes b)), to_bytes_app. by rewrite !to_of_bytes. Qed.

Lemma tri_guest P d0 credential :
  tri P (holding [] (since d0)) (guest_verify env credential)
    (fun v s => (verified d0 GUEST credential (subject v) ∧ vs_display v = display_of GUEST (subject v)) ∧ holding [] (since d0) s).
Proof.
  unfold guest_verify. destruct (split_once _ _) as [[sub secret]|] eqn:Es; [|apply tri_fail].
  destruct (negb _); [apply tri_fail|]. apply tri_read_bind; [done|apply stable_since|]. intros [] d Hd Hs E; [|exists (since d0); split; [done|apply tri_fail]].
  exists (since d0). split; [done|]. apply tri_ret. intros s Hh. split; [|done]. split; [|done]. right. split; [done|].
  unfold guest_identity_matches in E. unfold mbind, ST_bind, bind_text in E. destruct (existsb _ _); [done|]. simpl in E.
  destruct (identities d !! _) as [i|] eqn:Ei; [|done]. injection E as E%bool_decide_eq_true.
  exists (of_bytes secret), d, i. split_and!; [|done..]. apply split_once_join in Es.
  rewrite <- (of_to_bytes credential), Es. simpl. by rewrite of_bytes_app.
Qed.

Lemma tri_verify P d0 provider credential :
  tri P (holding [] (since d0)) (verify_credential env provider credential)
    (fun v s => (verified d0 provider credential (subject v) ∧ vs_display v = display_of provider (subject v)) ∧ holding [] (since d0) s).
Proof.
  unfold verify_credential. case_bool_decide; [apply tri_fail|]. destruct (resolve env provider) as [v| |] eqn:Er; [|apply tri_fail..].
  destruct (str_is_empty _); [apply tri_fail|]. destruct (_ <? _); [apply tri_fail|]. apply tri_map_err.
  destruct (resolve_configured _ _ Er) as [[-> ->]|(oidc & Ho & ->)]; [apply tri_guest|]. simpl.
  apply tri_away_bind; [done|apply stable_since|]. intros t sub Hsub. apply tri_ret. intros s Hh. split; [|done]. split; [|done]. left. eauto.
Qed.

(** ** Linking *)

Lemma tri_link P u provider sub Φ :
  canonical u → P (CLink u (provider, sub)) → (∀ s, Φ s → holding [] (known u) s) →
  tri P Φ (link_identity env u provider sub) (fun _ _ => True).
Proof.
  intros Hu HP HΦ. eapply tri_pre; [exact HΦ|]. apply tri_in_tx.
  eapply tri_bind; [apply tri_locking; [done|apply stable_known]|]. intros [].
  eapply tri_bind; [apply tri_locking; [done|apply stable_known]|]. intros [].
  apply tri_read_bind; [done|apply stable_known|]. intros b d Hd Hk E. exists (real_read u b).
  split; [split; [done|]; intros _; by eapply real_tx|]. apply tri_commit; [done|apply stable_real; set_solver|].
  intros t d1 d' o Hd1 [_ Hb] E1. apply (link_writes_does loc) in E1 as [?|E1]; [by left|right; eauto|done..].
Qed.

(** ** Refreshing *)

Definition by_refresh (tok : string) (c : Cause) : Prop :=
  match c with CRotate t _ _ _ | CGrace t _ _ _ _ | CRevoke t _ _ _ => t = tok | _ => False end.

(** What the row of a used token says. *)
Lemma refresh_row_ok z tok d row :
  accounts_inv loc d → snd (refresh_row_tx z tok d) = Ok row →
  match classify_presentation None row with
  | GraceReplay u f _ => ∃ r, row_read tok r d ∧ r_player r = u ∧ r_family r = f ∧ spent z false r
  | Revoke f => ∃ r, row_read tok r d ∧ r_family r = f ∧ spent z true r
  | _ => True
  end.
Proof.
  intros Hd. unfold refresh_row_tx, mbind, ST_bind, bind_text. destruct (existsb _ _); [done|]. simpl. intros [= <-].
  destruct (refresh_tokens d !! tok) as [r|] eqn:Er; [|done]. destruct (ai_refresh _ _ Hd _ _ Er) as [_ Hi].
  assert (Hrow : row_read tok r d) by (split; [done|]; unfold row_if; by rewrite Er).
  unfold classify_presentation, spent. simpl. destruct (r_expires r <=? z); simpl; [done|].
  destruct (used_at r) as [t|] eqn:Eu; simpl; [|done]. destruct (replaced_by r); [|done].
  destruct (Z.ltb_spec (z - REFRESH_GRACE_SECONDS * SECOND) t); simpl; exists r; rewrite Eu; simpl; auto.
Qed.

Lemma spent_used z b r : spent z b r → is_Some (used_at r).
Proof. unfold spent. destruct (used_at r); [eauto|done]. Qed.

Lemma row_read_if tok r (P : RefreshToken → Prop) d : row_read tok r d → P r → row_if tok P d.
Proof. intros [_ Hr] HP. unfold row_if in *. destruct (refresh_tokens d !! tok); simpl in *; [by subst|done]. Qed.

Lemma tri_grace P tok u f succ r z :
  (∀ c, by_refresh tok c → P c) → r_player r = u → r_family r = f → spent z false r →
  tri P (holding [] (row_read tok r)) (commit env (fun t => issue_access_in_family_tx env t z u f succ)) (fun _ _ => True).
Proof.
  intros HP <- <- Hz. apply tri_commit; [done|apply stable_row; by eapply spent_used|]. intros t d d' s Hd Hr E. right.
  unfold issue_access_in_family_tx in E. st_inv E. injection E0 as <- <-. st_inv E.
  apply or_internal_ok, insert_session_ok in E0 as (Ht & Hp & ->). injection E as <- _.
  eexists (CGrace tok (r_player r) (r_family r) _ z). split; [by apply HP|]. simpl. apply check_some.
  split; [|done]. split_and!; [apply Hr|by eapply row_read_if|done|done].
Qed.

Lemma tri_revoke P tok f r z :
  (∀ c, by_refresh tok c → P c) → r_family r = f → spent z true r →
  tri P (holding [] (row_read tok r)) (commit env (fun t => or_internal (kill_family_tx (unseen env t) f))) (fun _ _ => True).
Proof.
  intros HP <- Hz. apply tri_commit; [done|apply stable_row; by eapply spent_used|]. intros t d d' s Hd Hr E. right.
  exists (CRevoke tok (r_family r) (unseen env t) z). split; [by apply HP|]. simpl. apply check_some. split; [split|].
  - destruct Hr as [-> _]. done.
  - by eapply row_read_if.
  - by injection E as <-.
Qed.

Lemma tri_refresh P tok :
  (∀ c, by_refresh tok c → P c) → tri P (holding [] (fun _ => True)) (refresh env tok) (fun _ _ => True).
Proof.
  intros HP. unfold refresh. destruct (negb _); [apply tri_fail|]. apply tri_in_tx, tri_clock_bind. intros z.
  apply tri_commit_bind; [done|apply stable_true|]. intros t d d' [s|] Hd _ E; (apply (rotation_does loc) in E; [|done..]).
  - destruct E as (succ & token & E & _). split; [right; eexists; split; [|exact E]; by apply HP|].
    exists (fun _ => True). split; [done|]. by apply tri_ret.
  - destruct E as [-> _]. split; [by left|]. exists (fun _ => True). split; [done|].
    apply tri_read_bind; [done|apply stable_true|]. intros row d1 Hd1 _ E1. apply refresh_row_ok in E1; [|done].
    destruct (classify_presentation None row) as [| u f succ | f |]; [exists (fun _ => True); split; [done|apply tri_fail]| | |exists (fun _ => True); split; [done|apply tri_fail]].
    + destruct E1 as (r & Hr & Hu & Hf & Hz). exists (row_read tok r). split; [done|]. by eapply tri_grace.
    + destruct E1 as (r & Hr & Hf & Hz). exists (row_read tok r). split; [done|]. apply tri_seq; [by eapply tri_revoke|]. intros _. apply tri_fail.
Qed.

(** ** Deletion *)

Lemma tri_begin P ident :
  (∀ u, player_id ident = Some u → canonical u) → (∀ u ticket z, player_id ident = Some u → P (CTicket u ticket z)) →
  tri P (holding [] (fun _ => True)) (begin_delete loc env ident) (fun _ _ => True).
Proof.
  intros Hc HP. unfold begin_delete. apply tri_lift_bind. intros u Hu. unfold caller in Hu. destruct (player_id ident) as [v|]; [|done].
  injection Hu as ->. apply tri_clock_bind. intros z. apply tri_seq.
  - apply tri_commit; [done|apply stable_true|]. intros t d d' r Hd _ E. st_inv E. injection E0 as <- <-. apply or_internal_ok in E.
    apply (upsert_ticket_does loc) in E; [|by apply Hc]. destruct r as [?|]; [right; eauto|by left].
  - intros [[ticket z']|]; [by apply tri_ret|apply tri_fail].
Qed.

Lemma tri_delete P ident ticket :
  (∀ u, player_id ident = Some u → canonical u) → (∀ u z, player_id ident = Some u → P (CDelete u ticket z)) →
  tri P (holding [] (fun _ => True)) (delete_account loc env ident ticket) (fun _ _ => True).
Proof.
  intros Hc HP. unfold delete_account. apply tri_lift_bind. intros u Hu. unfold caller in Hu. destruct (player_id ident) as [v|]; [|done].
  injection Hu as ->. destruct (negb _); [apply tri_fail|]. apply tri_in_tx, tri_clock_bind. intros z.
  eapply tri_bind; [apply tri_locking; [done|apply stable_true]|]. intros [].
  apply tri_commit_bind; [done|apply stable_true|]. intros t d d' r Hd _ E. apply delete_writes_does in E; [|done|by apply Hc].
  destruct r as [receipt|].
  - destruct E as [E _]. split; [right; eauto|]. exists (fun _ => True). split; [done|]. by apply tri_ret.
  - subst. split; [by left|]. exists (fun _ => True). split; [done|]. apply tri_read_bind; [done|apply stable_true|].
    intros a d1 _ _ _. exists (fun _ => True). split; [done|]. apply tri_lift.
Qed.

(** ** Passwords *)

Definition shown (display email : string) : string := if str_is_empty display then email else display.

Lemma tri_register P email password display :
  (∀ t hash c, dev_auth env = true → argon_hash env t password = Some hash →
     by_provision (DEV, email) (shown display email) (Some hash) c → P c) →
  tri P (holding [] (fun _ => True)) (register loc env email password display) (fun _ _ => True).
Proof.
  intros HP. unfold register. destruct (dev_auth env) eqn:Edev; [|apply tri_fail]. simpl.
  destruct (str_is_empty email) eqn:Eemail; [apply tri_fail|]. simpl. destruct (str_is_empty password); [apply tri_fail|].
  destruct (_ || _); [apply tri_fail|]. destruct (negb _); [apply tri_fail|].
  apply tri_away_bind; [done|apply stable_true|]. intros t hash Hh. destruct (argon_hash env t password) as [h|] eqn:Ea; [|done].
  injection Hh as ->. apply tri_in_tx, tri_clock_bind. intros z. apply (tri_provision P _ (DEV, email) (shown display email)).
  - unfold shown. by destruct display, email.
  - intros c Hc. by eapply HP.
Qed.

(** The password was verified against the hash that is stored at the time. *)
Definition password_verified (d0 : AccountsDb) (email password : string) : Prop :=
  ∃ d1 i hash, since d0 d1 ∧ identities d1 !! (DEV, email) = Some i ∧ secret_hash i = Some hash ∧ argon_verify env hash password = true.

Lemma password_identity_ok email d p hash :
  snd (password_identity email d) = Ok (Some (p, hash)) →
  owner (DEV, email) (id p) d ∧ ∃ i, identities d !! (DEV, email) = Some i ∧ secret_hash i = Some hash.
Proof.
  unfold password_identity, mbind at 1, ST_bind, bind_text. destruct (existsb _ _); [done|]. simpl. intros [= E].
  destruct (identities d !! (DEV, email)) as [i|] eqn:Ei; [|done]. simpl in E. destruct (joined (i_player i) d) as [q|] eqn:Ej; [|done].
  simpl in E. destruct (secret_hash i) as [h|] eqn:Eh; [|done]. injection E as -> ->. split; [|eauto]. left. rewrite Ei. simpl.
  by apply joined_id in Ej as ->.
Qed.

(** What a login that found the identity goes on with. *)
Definition found_password (d0 : AccountsDb) (email : string) (x : option (PlayerRef * string)) (d : AccountsDb) : Prop :=
  from_option (fun '(p, hash) => (∃ d1 i, since d0 d1 ∧ identities d1 !! (DEV, email) = Some i ∧ secret_hash i = Some hash) ∧ owner (DEV, email) (id p) d) True x.

Lemma stable_found L d0 email x : stable L (found_password d0 email x).
Proof.
  destruct x as [[p hash]|]; [|apply stable_true]. intros d d' Hd [Hx Ho] Hs. split; [done|]. by apply (stable_owner L _ _ d).
Qed.

Lemma tri_login P d0 email password :
  (∀ c, dev_auth env = true → password_verified d0 email password → by_login (DEV, email) c → P c) →
  tri P (holding [] (since d0)) (login env email password) (fun _ _ => True).
Proof.
  intros HP. unfold login. destruct (dev_auth env) eqn:Edev; [|apply tri_fail]. cbn [negb].
  apply tri_away_bind; [done|apply stable_since|]. intros t slot _. destruct (negb slot); [apply tri_fail|].
  set (valid := _ && _ && _ && _). eapply tri_bind.
  { instantiate (1 := fun x => holding [] (found_password d0 email x)). destruct valid; [|apply tri_ret; intros s [HL _]; by split].
    apply tri_read_post; [done|apply stable_since|]. intros [[p hash]|] d Hd Hs E; [|done].
    apply password_identity_ok in E as [Ho (i & Hi & Hh)]. split; eauto. }
  intros x. destruct (login_pair env x password) as [hash candidate] eqn:El.
  apply tri_away_bind; [done|apply stable_found|]. intros t' ok [= Hok]. destruct x as [[p h]|]; [|apply tri_fail].
  injection El as -> ->. destruct (ok && valid) eqn:Ev; [|apply tri_fail]. apply andb_true_iff in Ev as [-> _].
  apply tri_holding_pure. intros (d1 & i & Hs & Hi & Hh). apply tri_issue_session. intros c. apply HP; [done|].
  exists d1, i, hash. eauto.
Qed.

(** ** Federated logins *)

Lemma since_holding d0 s : holding [] (since d0) s → holding [] (fun _ => True) s.
Proof. by intros [? _]. Qed.

Definition enters (k : Key) (secret : option string) (c : Cause) : Prop := by_login k c ∨ by_provision k (display_of (fst k) (snd k)) secret c.

Lemma tri_federated P d0 provider credential :
  (∀ sub c, verified d0 provider credential sub → enters (provider, sub) None c → P c) →
  tri P (holding [] (since d0)) (login_federated loc env provider credential) (fun _ _ => True).
Proof.
  intros HP. eapply tri_bind; [apply tri_verify|]. intros v. apply tri_pure. intros [Hv ->].
  apply tri_seq; [|intros s; by apply tri_ret].
  apply tri_external; [apply display_named| | |apply since_holding]; intros c Hc; (eapply HP; [exact Hv|]); [by left|by right].
Qed.

Lemma tri_create_guest P :
  (∀ t c, let g := mint_ticket env t in enters (GUEST, g_subject g) (Some (g_hash g)) c → P c) →
  tri P (holding [] (fun _ => True)) (create_guest loc env) (fun _ _ => True).
Proof.
  intros HP. apply tri_away_bind; [done|apply stable_true|]. intros t g [= <-].
  apply tri_seq; [|intros s; by apply tri_ret].
  apply tri_external; [apply display_named| | |done]; intros c Hc; apply (HP t); [by left|by right].
Qed.

(** ** The browser flow *)

Lemma tri_answered P Φ m : tri P Φ m (fun _ _ => True) → tri P Φ (respond m) (fun _ _ => True).
Proof.
  intros Hm s s' r Hd Hs. unfold respond. destruct (m s) as [s1 [x|x]] eqn:E; intros [= <- <-]; split; try done; by eapply Hm.
Qed.

(** A session that was live when it was looked up. *)
Definition live_session (d0 : AccountsDb) (tok u : string) : Prop :=
  ∃ d1 s z, since d0 d1 ∧ sessions d1 !! tok = Some s ∧ s_player s = u ∧ z < s_expires s.

Lemma player_by_session_ok z tok d p :
  snd (player_by_session z tok d) = Ok (Some p) →
  ∃ s, sessions d !! tok = Some s ∧ s_player s = id p ∧ z < s_expires s ∧ is_Some (players d !! id p).
Proof.
  unfold player_by_session. destruct (negb _); [done|]. unfold mbind at 1, ST_bind, bind_text. destruct (existsb _ _); [done|]. simpl.
  intros [= E]. destruct (sessions d !! tok) as [s|]; [|done]. simpl in E. destruct (Z.ltb_spec z (s_expires s)); [|done].
  pose proof (joined_id _ _ _ E) as Hid. exists s. split_and!; [done|done|done|]. unfold joined in E. rewrite Hid.
  destruct (players d !! s_player s); [eauto|done].
Qed.

Lemma tri_session P d0 f z tok :
  tri P (holding [] (since d0)) (answer (read env (player_by_session z tok)) f)
    (fun x => holding [] (fun d => (∀ p, x = Some p → live_session d0 tok (id p) ∧ canonical (id p)) ∧ since d0 d ∧ (∀ p, x = Some p → known (id p) d))).
Proof.
  apply tri_map_err, tri_read_post; [done|apply stable_since|]. intros x d Hd Hs E. split_and!; [|done|];
    intros p ->; apply player_by_session_ok in E as (s & Hts & Hp & Hz & [q Hq]); destruct (ai_player _ _ Hd _ _ Hq) as (Hm & Hc & _).
  - split; [|done]. by exists d, s, z.
  - done.
Qed.

Lemma tri_prune P Φ : (∀ z, P (CPruneStates z)) → (∀ s, Φ s → holding [] (fun _ => True) s) → tri P Φ (prune_expired env) (fun _ => holding [] (fun _ => True)).
Proof.
  intros HP HΦ s s' r Hd Hs. unfold prune_expired. destruct ((at_ ← now env; commit env (fun _ => or_internal (prune_states at_))) s) as [s1 x] eqn:E.
  intros [= <- <-]. split; [|intros ? _; split; [set_solver|done]]. revert E.
  assert (Ht : tri P (holding [] (fun _ => True)) (at_ ← now env; commit env (fun _ => or_internal (prune_states at_))) (fun _ _ => True)).
  { apply tri_clock_bind. intros z. apply tri_commit; [done|apply stable_true|]. intros t d d' [] _ _ [= <-]. right. by exists (CPruneStates z). }
  intros E. by destruct (Ht _ _ _ Hd (HΦ s Hs) E).
Qed.

Lemma tri_new_state P st b Φ :
  (∀ z, P (CPruneStates z)) → (∀ state z, P (CState state st b z)) → (∀ s, Φ s → holding [] (fun _ => True) s) →
  tri P Φ (new_state env st b) (fun _ _ => True).
Proof.
  intros HP HS HΦ. eapply tri_bind; [by apply tri_prune|]. intros []. apply tri_clock_bind. intros z.
  apply tri_commit; [done|apply stable_true|]. intros t d d' state _ _ E. st_inv E. injection E0 as <- <-. st_inv E.
  injection E as <- <-. apply or_internal_ok in E0. unfold insert_state in E0.
  apply st_bind_ok in E0 as (? & [] & Eb & E0). apply pg_bind_ok in Eb as [-> _]. apply branch_ok in E0.
  destruct (bool_decide _) eqn:Ec; [done|]. injection E0 as <-. apply bool_decide_eq_false, eq_None_not_Some in Ec.
  right. eexists. split; [apply HS|]. simpl. by apply check_some.
Qed.

Definition starts (d0 : AccountsDb) (bearer : option string) (c : Cause) : Prop :=
  match c with
  | CPruneStates _ => True
  | CState _ st _ _ => st = "" ∨ (bearer = Some st ∧ ∃ u, live_session d0 st u)
  | _ => False
  end.

Lemma tri_start_flow P d0 bearer cookie :
  (∀ c, starts d0 bearer c → P c) →
  tri P (holding [] (since d0)) (handle_start env b64_len bearer cookie) (fun _ _ => True).
Proof.
  intros HP. apply tri_answered.
  apply (tri_bind _ _ _ _ _ (fun st s => (st = "" ∨ (bearer = Some st ∧ ∃ u, live_session d0 st u)) ∧ holding [] (fun _ => True) s)).
  - destruct bearer as [tok|]; [|apply tri_ret; intros s Hs; split; [by left|by apply since_holding in Hs]].
    eapply tri_bind; [apply tri_map_err, tri_clock|]. intros z. eapply tri_bind; [apply tri_session|]. intros p.
    apply tri_ret. intros s [HL (Hp & _ & _)]. split; [|done]. destruct p as [p|]; [|by left]. right. split; [done|]. exists (id p). by apply Hp.
  - intros st. apply tri_pure. intros Hst. apply (tri_bind _ _ _ _ _ (fun _ => holding [] (fun _ => True))).
    + assert (Hn : tri P (holding [] (fun _ => True)) (new_binding env) (fun _ => holding [] (fun _ => True))) by (intros s s' r _ Hs [= <- <-]; by split).
      destruct cookie as [v|]; [|done]. destruct (valid_binding b64_len v); [by apply tri_ret|done].
    + intros b. apply tri_seq; [|intros state; by apply tri_ret]. apply tri_map_err, tri_new_state; [intros; by apply HP..|done].
Qed.

Lemma redeem_state_ok z state b d d' x :
  redeem_state z state b d = (d', Ok x) →
  match x with
  | None => d' = d
  | Some st => acts (CRedeem state b z) d = Some d' ∧ ∃ o, oauth_states d !! state = Some o ∧ o_binding o = b ∧ o_session o = st
  end.
Proof.
  unfold redeem_state. intros E. apply st_bind_ok in E as (? & [] & Eb & E). apply pg_bind_ok in Eb as [-> _].
  st_inv E. injection E0 as <- <-. destruct (oauth_states d !! state) as [o|] eqn:Eo; [|by injection E as <- <-].
  destruct (bool_decide _ && _) eqn:Eb; [|by injection E as <- <-]. st_inv E. injection E0 as <-. injection E as <- <-.
  apply andb_true_iff in Eb as [Hb%bool_decide_eq_true Hz%Z.ltb_lt]. split; [|eauto]. simpl. rewrite Eo. simpl. by apply check_some.
Qed.

(** The state was this browser's, and is spent. *)
Definition redeemed (d0 : AccountsDb) (state : string) (cookie : option string) (st : string) : Prop :=
  ∃ d1 o, since d0 d1 ∧ oauth_states d1 !! state = Some o ∧ cookie = Some (o_binding o) ∧ o_session o = st.

Lemma tri_take P d0 state cookie f :
  (∀ b z, cookie = Some b → P (CRedeem state b z)) →
  tri P (holding [] (since d0)) (answer (take_state env state cookie) f)
    (fun x s => (∀ st, x = Some st → redeemed d0 state cookie st) ∧ holding [] (since d0) s).
Proof.
  intros HP. apply tri_map_err. unfold take_state. destruct cookie as [b|]; [|by apply tri_ret]. apply tri_clock_bind. intros z.
  eapply tri_post; [|apply (tri_commit_post _ _ meanwhile_others _ _ _ (fun x d => (∀ st, x = Some st → redeemed d0 state (Some b) st) ∧ since d0 d)); [apply stable_since|]].
  { intros x s [HL [Hx Hs]]. by split. }
  intros t d d' x Hd Hs E. apply or_internal_ok, redeem_state_ok in E. destruct x as [st|].
  - destruct E as [E (o & Ho & <- & <-)]. split; [right; eauto|]. split; [intros ? [= <-]; by exists d, o|].
    eapply rtc_r; [exact Hs|]. eexists. split; [|exact E]. by right.
  - subst. split; [by left|]. by split.
Qed.

Definition completes (d0 : AccountsDb) (code state : string) (cookie : option string) (c : Cause) : Prop :=
  (∃ b z, cookie = Some b ∧ c = CRedeem state b z) ∨
  ∃ st sub t t' id_token v, redeemed d0 state cookie st ∧
    exchange_code env t code = Some id_token ∧ epic_verifier env = Some v ∧ v t' id_token = Ok sub ∧
    if str_is_empty st then enters (EPIC, sub) None c else ∃ u, live_session d0 st u ∧ c = CLink u (EPIC, sub).

Lemma tri_callback P d0 code state cookie :
  (∀ c, completes d0 code state cookie c → P c) →
  tri P (holding [] (since d0)) (handle_callback loc env code state cookie) (fun _ _ => True).
Proof.
  intros HP. apply tri_answered. destruct (_ || _); [apply tri_fail|].
  eapply tri_bind; [apply tri_take; intros b z Hb; apply HP; left; eauto|]. intros [st|]; [|apply tri_fail]. apply tri_pure. intros Hst.
  specialize (Hst st eq_refl). eapply tri_bind; [apply (tri_map_err _ _ _ _ _ (fun idt s => (∃ t, exchange_code env t code = Some idt) ∧ holding [] (since d0) s))|].
  { eapply tri_ext; [apply st_bind_mret|]. apply tri_away_bind; [done|apply stable_since|]. intros t a Ea. apply tri_ret.
    intros s Hs. split; [|done]. exists t. by destruct (exchange_code env t code); [injection Ea as ->|]. }
  intros idt. apply tri_pure. intros [t Ht].
  eapply tri_bind; [apply (tri_map_err _ _ _ _ _ (fun sub s => (∃ v t', epic_verifier env = Some v ∧ v t' idt = Ok sub) ∧ holding [] (since d0) s))|].
  { eapply tri_ext; [apply st_bind_mret|]. apply tri_away_bind; [done|apply stable_since|]. intros t' a Ea. apply tri_ret.
    intros s Hs. split; [|done]. destruct (epic_verifier env) as [v|]; [|done]. eauto. }
  intros sub. apply tri_pure. intros (v & t' & Hv & Hsub).
  assert (Hc : ∀ c, (if str_is_empty st then enters (EPIC, sub) None c else ∃ u, live_session d0 st u ∧ c = CLink u (EPIC, sub)) → P c).
  { intros c Hc. apply HP. right. by exists st, sub, t, t', idt, v. }
  destruct (str_is_empty st); cbn [negb].
  - apply tri_seq; [|intros r; by apply tri_ret]. apply tri_map_err, tri_external; [apply (display_named EPIC sub)| | |apply since_holding];
      intros c Hx; apply Hc; [by left|by right].
  - eapply tri_bind; [apply tri_map_err, tri_clock|]. intros z. eapply tri_bind; [apply tri_session|]. intros [p|]; [|apply tri_fail].
    apply tri_holding_pure. intros Hp. destruct (Hp p eq_refl) as [Hl Hcan]. apply tri_seq; [|intros r; by apply tri_ret].
    apply tri_map_err, tri_link; [done|apply Hc; eauto|]. intros s [HL [_ Hk]]. split; [done|]. by apply Hk.
Qed.

(** ** The operations *)

Inductive AccountsOp :=
| ORegister (email password display : string) | OLogin (email password : string)
| OFederated (provider credential : string) | OGuest
| OMe (ident : Identity) | OLink (ident : Identity) (provider credential : string)
| ORefresh (refresh_token : string)
| OBeginDelete (ident : Identity) | ODelete (ident : Identity) (ticket : string)
| OVerifySession (token : string) | OPlayersById (ids : list string) | OFindByHandle (handle : string)
| OStart (bearer cookie : option string) | OCallback (code state : string) (cookie : option string).

Definition op_run (op : AccountsOp) (s : Task AccountsDb) : Task AccountsDb :=
  match op with
  | ORegister e p n => fst (register loc env e p n s)
  | OLogin e p => fst (login env e p s)
  | OFederated p c => fst (login_federated loc env p c s)
  | OGuest => fst (create_guest loc env s)
  | OMe i => fst (me loc env i s)
  | OLink i p c => fst (link loc env i p c s)
  | ORefresh t => fst (refresh env t s)
  | OBeginDelete i => fst (begin_delete loc env i s)
  | ODelete i t => fst (delete_account loc env i t s)
  | OVerifySession t => fst (verify_session env t s)
  | OPlayersById ids => fst (players_by_id loc env ids s)
  | OFindByHandle h => fst (find_by_handle loc env h s)
  | OStart b c => fst (handle_start env b64_len b c s)
  | OCallback c st b => fst (handle_callback loc env c st b s)
  end.

Definition op_identity (op : AccountsOp) : option string :=
  match op with OLink i _ _ | OBeginDelete i | ODelete i _ => player_id i | _ => None end.

(** The causes an operation is entitled to, run from tables [d0]. *)
Definition commands (d0 : AccountsDb) (op : AccountsOp) (c : Cause) : Prop :=
  match op with
  | ORegister email password display =>
      dev_auth env = true ∧ ∃ t hash, argon_hash env t password = Some hash ∧ by_provision (DEV, email) (shown display email) (Some hash) c
  | OLogin email password => dev_auth env = true ∧ password_verified d0 email password ∧ by_login (DEV, email) c
  | OFederated provider credential => ∃ sub, verified d0 provider credential sub ∧ enters (provider, sub) None c
  | OGuest => ∃ t, let g := mint_ticket env t in enters (GUEST, g_subject g) (Some (g_hash g)) c
  | OLink ident provider credential => ∃ u sub, player_id ident = Some u ∧ verified d0 provider credential sub ∧ c = CLink u (provider, sub)
  | ORefresh tok => by_refresh tok c
  | OBeginDelete ident => ∃ u ticket z, player_id ident = Some u ∧ c = CTicket u ticket z
  | ODelete ident ticket => ∃ u z, player_id ident = Some u ∧ c = CDelete u ticket z
  | OStart bearer _ => starts d0 bearer c
  | OCallback code state cookie => completes d0 code state cookie c
  | OMe _ | OVerifySession _ | OPlayersById _ | OFindByHandle _ => False
  end.

Lemma tri_me_view P u : tri P (fun _ => True) (me_view loc env u) (fun _ _ => True).
Proof.
  apply (tri_pre _ _ _ (holding [] (fun _ => True))); [intros s _; split; [set_solver|done]|]. apply tri_clock_bind. intros z. apply tri_read_free; [done|]. intros [p|]; [|apply tri_fail].
  apply tri_read_free; [done|]. intros ids. by apply tri_ret.
Qed.

Lemma tri_link_op P d0 ident provider credential :
  (∀ u, player_id ident = Some u → canonical u ∧ known u d0) →
  (∀ u sub, player_id ident = Some u → verified d0 provider credential sub → P (CLink u (provider, sub))) →
  tri P (holding [] (since d0)) (link loc env ident provider credential) (fun _ _ => True).
Proof.
  intros Hi HP. unfold link. apply tri_lift_bind. intros u Hu. unfold caller in Hu. destruct (player_id ident) as [v|]; [|done].
  injection Hu as ->. destruct (Hi u eq_refl) as [Hc Hk]. eapply tri_bind; [apply tri_verify|]. intros v. apply tri_pure. intros [Hv _].
  apply tri_seq; [|intros o; apply tri_me_view]. apply tri_link; [done|by apply HP|]. intros s [HL Hs]. split; [done|]. clear HP Hi Hv.
  induction Hs as [|x y w (c & _ & E) _ IH]; [done|]. apply IH. by apply (minted_step c x).
Qed.

Lemma tri_read_only P {A} (m : ST AccountsDb SqlError A) : tri P (holding [] (fun _ => True)) (read env m) (fun _ _ => True).
Proof. eapply tri_post; [|apply (tri_read_post _ _ meanwhile_others _ _ _ (fun _ _ => True)); [apply stable_true|done]]. done. Qed.

Lemma tri_op (P : Cause → Prop) d0 op s :
  (∀ c, commands d0 op c → P c) → (∀ u, op_identity op = Some u → canonical u ∧ u ∈ minted d0) →
  accounts_inv loc (db s) → db s = d0 → rtc (own Q P) (db s) (db (op_run op s)).
Proof.
  intros HP Hi Hd <-.
  assert (Hsince : ∀ E A (m : ST (Task AccountsDb) E A), tri P (holding [] (since (db s))) m (fun _ _ => True) → rtc (own Q P) (db s) (db (fst (m s)))).
  { intros E A m Hm. destruct (m s) as [s' r] eqn:Em. eapply Hm; [done| |exact Em]. split; [set_solver|apply rtc_refl]. }
  assert (Hfree : ∀ E A (m : ST (Task AccountsDb) E A), tri P (holding [] (fun _ => True)) m (fun _ _ => True) → rtc (own Q P) (db s) (db (fst (m s)))).
  { intros E A m Hm. apply Hsince. eapply tri_pre; [|exact Hm]. apply since_holding. }
  destruct op as [email password display|email password|provider credential| |ident|ident provider credential|tok|ident|ident ticket|tok|ids|h|bearer cookie|code state cookie];
    simpl in *.
  - apply Hfree, tri_register. intros t hash c Hdev Hh Hc. apply HP. eauto.
  - apply Hsince, tri_login. intros c Hdev Hv Hc. by apply HP.
  - apply Hsince, tri_federated. intros sub c Hv Hc. apply HP. eauto.
  - apply Hfree, tri_create_guest. intros t g c Hc. apply HP. by exists t.
  - apply Hfree. unfold me. apply tri_lift_bind. intros u _. eapply tri_pre; [|apply tri_me_view]. done.
  - apply Hsince, tri_link_op; [done|]. intros u sub Hu Hv. apply HP. eauto.
  - apply Hfree, tri_refresh. done.
  - apply Hfree, tri_begin; [intros u Hu; by apply Hi|]. intros u ticket z Hu. apply HP. eauto.
  - apply Hfree, tri_delete; [intros u Hu; by apply Hi|]. intros u z Hu. apply HP. eauto.
  - apply Hfree. unfold verify_session. destruct (negb _); [by apply tri_ret|]. apply tri_clock_bind. intros z.
    apply tri_seq; [apply tri_read_only|]. intros p. by apply tri_ret.
  - apply Hfree. unfold players_by_id. destruct (_ <? _)%nat; [apply tri_fail|]. apply tri_clock_bind. intros z. apply tri_read_only.
  - apply Hfree. unfold find_by_handle. destruct (negb _); [apply tri_fail|]. apply tri_clock_bind. intros z. apply tri_read_only.
  - apply Hsince, tri_start_flow. done.
  - apply Hsince, tri_callback. done.
Qed.

(** C6: every operation of accounts - registration, the password, federated and guest
    logins, linking, refreshing, the deletion ticket and the deletion, the two halves
    of the browser flow, and the lookups - changes the tables only by causes its
    caller is entitled to, whatever other transactions commit between its statements
    and whichever statement fails or loses its answer: a session opens only for the
    identity whose credential was verified, at a moment of the run, against the
    provider or the stored hash; a link is made only for the authenticated player and
    a credential verified for it; a refresh rotates, repeats or revokes only the
    presented token; a deletion is the caller's, with the ticket presented; the
    browser callback acts only on the state this browser's cookie was bound to, for
    the session that started it; a lookup changes nothing. *)
Theorem accounts_ops_entitled op s :
  accounts_inv loc (db s) → (∀ u, op_identity op = Some u → canonical u ∧ u ∈ minted (db s)) →
  rtc (own Q (commands (db s) op)) (db s) (db (op_run op s)).
Proof. intros Hd Hi. by apply (tri_op _ (db s)). Qed.
End Service.
