(* ===== verification/AccountsOutcome.v ===== *)
(** * AccountsOutcome: what the operations of accounts answer

    The outcome of an operation that no other transaction disturbs, on every branch:
    the directory the other modules look players up in, the presentation of a refresh
    token, the deletion and its replay, and a guest's way back in. *)

From Stdlib Require Import Ascii.
From stdpp Require Import sorting pretty.
From S2P Require Import Prelude Text OpsApi Pg Directory Txn Accounts AccountsActs AccountsSafety AccountsContract AccountsService.
#[local] Open Scope Z_scope.

(** ** Handles *)

Lemma split_once_app c a b : c ∉ a → split_once c (a ++ c :: b) = Some (a, b).
Proof.
  induction a as [|x a IH]; intros Hc; simpl; [by rewrite bool_decide_eq_true_2|].
  rewrite bool_decide_eq_false_2 by set_solver. rewrite IH by set_solver. done.
Qed.

Lemma digits_no_hash l : forallb is_ascii_digit l = true → "#"%char ∉ l.
Proof.
  induction l as [|c l IH]; simpl; [set_solver|]. intros [Hc Hl]%andb_true_iff. apply not_elem_of_cons. split; [by intros <-|by apply IH].
Qed.

Lemma split_render name disc :
  name ≠ "" → disc_ok disc = true → split_handle (render_handle name disc) = Some (name, disc).
Proof.
  unfold disc_ok. rewrite andb_true_iff, bool_decide_eq_true. intros Hn [Hl Hd]. unfold split_handle, rsplit_once, render_handle.
  rewrite !to_bytes_app. change (to_bytes "#") with ["#"%char]. simpl. rewrite reverse_app, reverse_cons, <- app_assoc. simpl.
  rewrite split_once_app by (rewrite elem_of_reverse; by apply digits_no_hash). rewrite !reverse_involutive, !of_to_bytes, Hd.
  rewrite length_to_bytes, (bool_decide_eq_true_2 (String.length disc = 4%nat)) by done.
  rewrite bool_decide_eq_false_2; [done|]. intros E. apply Hn. by rewrite <- (of_to_bytes name), E.
Qed.

Lemma render_split h name disc : split_handle h = Some (name, disc) → h = render_handle name disc ∧ disc_ok disc = true ∧ name ≠ "".
Proof.
  unfold split_handle, rsplit_once. destruct (split_once _ _) as [[a b]|] eqn:E; [|done].
  destruct (_ || _) eqn:Eg; [done|]. intros [= <- <-]. apply split_once_join, (f_equal reverse) in E.
  rewrite reverse_involutive, reverse_app, reverse_cons, <- app_assoc in E. simpl in E.
  rewrite !orb_false_iff, !negb_false_iff, bool_decide_eq_false, bool_decide_eq_true in Eg. destruct Eg as [[Hn Hl] Hd].
  split_and!.
  - rewrite <- (of_to_bytes h), E. unfold render_handle. rewrite of_bytes_app. done.
  - unfold disc_ok. rewrite <- length_to_bytes, !to_of_bytes, Hd, bool_decide_eq_true_2 by done. done.
  - intros En. apply Hn. by rewrite <- (to_of_bytes (reverse b)), En.
Qed.

Lemma disc_no_nul disc : disc_ok disc = true → has_nul disc = false.
Proof.
  unfold disc_ok. intros [_ Hd]%andb_true_iff. unfold has_nul. apply not_true_iff_false. rewrite existsb_exists. intros (c & Hc & E).
  rewrite forallb_forall in Hd. specialize (Hd c Hc). revert Hd E. by destruct c as [[] [] [] [] [] [] [] []].
Qed.

(** ** Guest subjects *)

Lemma hex_char_lower n : (n < 16)%nat → lower_hex_byte (hex_char n) = true.
Proof. intros Hn. do 16 (destruct n as [|n]; [reflexivity|]). lia. Qed.

Lemma hex_lower l : forallb lower_hex_byte (hex l) = true.
Proof.
  induction l as [|b l IH]; [done|]. change (hex (b :: l)) with (hex_byte b ++ hex l). rewrite forallb_app. apply andb_true_iff. split; [|exact IH].
  pose proof (nat_ascii_bounded b). unfold hex_byte. cbn [forallb]. rewrite !hex_char_lower; [done| |].
  - apply Nat.mod_upper_bound. lia.
  - apply Nat.Div0.div_lt_upper_bound. unfold code. lia.
Qed.

Lemma length_hex l : length (hex l) = (2 * length l)%nat.
Proof. induction l as [|b l IH]; [done|]. change (hex (b :: l)) with (hex_byte b ++ hex l). rewrite length_app, IH. simpl. lia. Qed.

Lemma lower_hex_not c l : lower_hex_byte c = false → forallb lower_hex_byte l = true → c ∉ l.
Proof.
  intros Hc Hl Hin. rewrite forallb_forall in Hl. apply list_elem_of_In in Hin. rewrite Hl in Hc by done. done.
Qed.

(** The five groups of a subject. *)
Lemma new_subject_groups b :
  length b = 16%nat →
  ∃ g1 g2 g3 g4 g5, to_bytes (new_subject b) = g1 ++ "-"%char :: g2 ++ "-"%char :: g3 ++ "-"%char :: g4 ++ "-"%char :: g5 ∧
    (length g1, length g2, length g3, length g4, length g5) = (8, 4, 4, 4, 12)%nat ∧
    Forall (fun g => forallb lower_hex_byte g = true) [g1; g2; g3; g4; g5].
Proof.
  intros Hb. unfold new_subject. set (b' := alter _ 8%nat _). assert (Hb' : length b' = 16%nat) by (unfold b'; by rewrite !length_alter).
  rewrite to_of_bytes. eexists _, _, _, _, _. split; [reflexivity|]. rewrite !length_hex, ?length_take, ?length_drop, Hb'. split; [done|].
  repeat constructor; apply hex_lower.
Qed.

Lemma new_subject_minted b : length b = 16%nat → is_minted_subject (new_subject b) = true.
Proof.
  intros (g1 & g2 & g3 & g4 & g5 & E & Hl & Hf)%new_subject_groups. unfold is_minted_subject. rewrite E.
  injection Hl as E1 E2 E3 E4 E5. rewrite !Forall_cons in Hf. destruct Hf as (F1 & F2 & F3 & F4 & F5 & _).
  rewrite !split_on_sep, split_on_none by (by apply lower_hex_not). cbn [groups_match].
  rewrite F1, F2, F3, F4, F5, !bool_decide_eq_true_2 by done. done.
Qed.

Lemma new_subject_plain b c :
  length b = 16%nat → lower_hex_byte c = false → c ≠ "-"%char → c ∉ to_bytes (new_subject b).
Proof.
  intros (g1 & g2 & g3 & g4 & g5 & E & _ & Hf)%new_subject_groups Hc Hd. rewrite E.
  rewrite !Forall_cons in Hf. destruct Hf as (F1 & F2 & F3 & F4 & F5 & _).
  repeat (apply not_elem_of_app; split; [by apply lower_hex_not|]; apply not_elem_of_cons; split; [done|]). by apply lower_hex_not.
Qed.

Section Undisturbed.
Context `{PgUuid} (loc : Locale) (env : AEnv).

Abbreviation acts := (acts loc).

(** Nobody else commits, and every statement is answered. *)
Hypothesis alone : ∀ t L d, meanwhile (world env) t L d = d.
Hypothesis answers : ∀ t, fate (world env) t = Answers.

Lemma read_run {A} (m : ST AccountsDb SqlError A) s :
  read env m s = (mkTask (db s) (S (tick s)) (locks s), map_err (fun _ => internal_error) (snd (m (db s)))).
Proof. unfold read, reading, seen. by rewrite alone, answers. Qed.

Lemma commit_run {A} (m : nat → ST AccountsDb Error A) s d' a :
  m (tick s) (db s) = (d', Ok a) → commit env m s = (mkTask d' (S (tick s)) (locks s), Ok a).
Proof. intros E. unfold commit, committing, seen. by rewrite alone, answers, E. Qed.

Lemma now_bind {A} (k : Z → ST (Task AccountsDb) Error A) s : (now env ≫= k) s = k (now_at (world env) (tick s)) s.
Proof. done. Qed.

(** ** The directory *)

(** The directory the other modules are given, as of the tables now. *)
Definition directory_at (s : Task AccountsDb) : Directory :=
  mkDirectory (fun h => snd (find_by_handle loc env h s)) (fun ids => snd (players_by_id loc env ids s)).

Lemma filter_nothing {A} (P : A → bool) l : (∀ y, y ∈ l → P y = false) → List.filter P l = [].
Proof. induction l as [|y l IH]; intros Hn; [done|]. simpl. rewrite Hn by left. apply IH. intros z Hz. apply Hn. by right. Qed.

Lemma filter_unique {A} (P : A → bool) x l : NoDup l → x ∈ l → P x = true → (∀ y, y ∈ l → P y = true → y = x) → List.filter P l = [x].
Proof.
  induction l as [|y l IH]; [set_solver|]. intros [Hy Hl]%NoDup_cons Hx HP Hu. simpl. destruct (P y) eqn:Ey.
  - assert (y = x) as -> by (apply Hu; [set_solver|done]). f_equal. apply filter_nothing. intros z Hz. apply not_true_iff_false.
    intros Ez. assert (z = x) by (apply Hu; [by right|done]). by subst.
  - apply elem_of_cons in Hx as [->|Hx]; [congruence|]. apply IH; try done. intros z Hz. apply Hu. by right.
Qed.

Lemma by_handle_found z d u p name :
  accounts_inv loc d → players d !! u = Some p → pg_lower loc name = pg_lower loc (display_name p) → name ≠ "" → has_nul name = false →
  snd (player_by_handle loc z (render_handle name (discriminator p)) d) = Ok (Some (summary loc z d u p)).
Proof.
  intros Hd Hp Hn Hne Hnul. destruct (ai_player _ _ Hd _ _ Hp) as (_ & _ & _ & _ & Hlen & Hdig).
  assert (Hdisc : disc_ok (discriminator p) = true) by (unfold disc_ok; by rewrite Hdig, bool_decide_eq_true_2).
  unfold player_by_handle. rewrite split_render by done. unfold mbind, ST_bind, bind_text. simpl.
  rewrite Hnul, (disc_no_nul _ Hdisc). simpl. rewrite (filter_unique _ (u, p)); [done|apply NoDup_map_to_list|by apply elem_of_map_to_list| |].
  - simpl. apply bool_decide_eq_true. unfold handle_key. by rewrite Hn.
  - intros [v q] Hv%elem_of_map_to_list E%bool_decide_eq_true. simpl in E.
    pose proof (ai_claim _ _ Hd _ _ Hv) as Cv. pose proof (ai_claim _ _ Hd _ _ Hp) as Cp. unfold key_of in *.
    rewrite E in Cv. unfold handle_key in *. rewrite Hn in Cv. rewrite Cp in Cv. injection Cv as ->. congruence.
Qed.

Lemma by_handle_sound z d h x :
  snd (player_by_handle loc z h d) = Ok (Some x) →
  ∃ u p name, players d !! u = Some p ∧ x = summary loc z d u p ∧ h = render_handle name (discriminator p) ∧ pg_lower loc name = pg_lower loc (display_name p).
Proof.
  unfold player_by_handle. destruct (split_handle h) as [[name disc]|] eqn:Es; [|done]. apply render_split in Es as (-> & _ & _).
  unfold mbind, ST_bind, bind_text. destruct (existsb _ _); [done|]. simpl. intros [= E]. destruct (List.filter _ _) as [|[u p] l] eqn:El; [done|].
  injection E as <-. assert (Hin : (u, p) ∈ (u, p) :: l) by left. rewrite <- El in Hin. apply list_elem_of_In, filter_In in Hin as [Hin Hk].
  apply list_elem_of_In, elem_of_map_to_list in Hin. apply bool_decide_eq_true in Hk. injection Hk as Hn Hdisc. simpl in *.
  exists u, p, name. by subst.
Qed.

Lemma by_ids z ids d l :
  snd (store_players_by_id loc z ids d) = Ok l →
  NoDup (ps_player_id <$> l) ∧ Sorted by_id l ∧
  ∀ x, x ∈ l ↔ ∃ u p i, players d !! u = Some p ∧ x = summary loc z d u p ∧ i ∈ ids ∧ is_canonical_uuid i = true ∧ uuid_in i = Some u.
Proof.
  unfold store_players_by_id. case_bool_decide as Hnil.
  { intros [= <-]. split_and!; [constructor|constructor|]. intros x. split; [set_solver|]. intros (u & p & i & _ & _ & Hi & Hc & _).
    exfalso. assert (Hin : i ∈ List.filter is_canonical_uuid ids) by (by apply list_elem_of_In, filter_In; rewrite <- list_elem_of_In).
    rewrite Hnil in Hin. set_solver. }
  unfold mbind, ST_bind, bind_text. destruct (existsb _ _); [done|]. simpl. intros [= <-].
  set (rows := List.filter _ _). set (f := fun kv : string * Player => summary loc z d kv.1 kv.2). split_and!.
  - rewrite merge_sort_Permutation. rewrite <- list_fmap_compose. change (NoDup (fst <$> rows)). unfold rows.
    apply NoDup_keys_filter, NoDup_fst_map_to_list.
  - apply Sorted_merge_sort. intros x y. unfold by_id. apply String.le_total.
  - intros x. rewrite merge_sort_Permutation, list_elem_of_fmap. unfold rows. split.
    + intros ([u p] & -> & Hin). apply list_elem_of_In, filter_In in Hin as [Hin He]. apply list_elem_of_In, elem_of_map_to_list in Hin.
      apply existsb_exists in He as (i & Hi & E%bool_decide_eq_true). apply filter_In in Hi as [Hi Hc]. apply list_elem_of_In in Hi. eauto 10.
    + intros (u & p & i & Hp & -> & Hi & Hc & Hu). exists (u, p). split; [done|]. apply list_elem_of_In, filter_In. split; [by apply list_elem_of_In, elem_of_map_to_list|].
      apply existsb_exists. exists i. split; [by apply filter_In; rewrite <- list_elem_of_In|]. by apply bool_decide_eq_true.
Qed.

(** C13: the directory is exact.  A player is found by their handle, in any case of
    letters, and a handle that is answered is the handle of the player it is answered
    with, so handles round trip; asked for ids, the directory answers with exactly the
    players that the well-formed ones among them name, each once, in the order of their
    ids. *)
Theorem directory_correct s :
  accounts_inv loc (db s) →
  let d := db s in let z := now_at (world env) (tick s) in let dir := directory_at s in
  (∀ u p name, players d !! u = Some p → pg_lower loc name = pg_lower loc (display_name p) → name ≠ "" → has_nul name = false →
     (String.length (render_handle name (discriminator p)) ≤ MAX_HANDLE_BYTES)%nat →
     Directory.find_by_handle dir (render_handle name (discriminator p)) = Ok (Some (summary loc z d u p))) ∧
  (∀ h x, Directory.find_by_handle dir h = Ok (Some x) →
     ∃ u p name, players d !! u = Some p ∧ x = summary loc z d u p ∧ h = render_handle name (discriminator p) ∧ pg_lower loc name = pg_lower loc (display_name p)) ∧
  (∀ ids l, Directory.players_by_id dir ids = Ok l →
     NoDup (ps_player_id <$> l) ∧ Sorted by_id l ∧
     ∀ x, x ∈ l ↔ ∃ u p i, players d !! u = Some p ∧ x = summary loc z d u p ∧ i ∈ ids ∧ is_canonical_uuid i = true ∧ uuid_in i = Some u).
Proof.
  intros Hd. cbv zeta. split_and!.
  - intros u p name Hp Hn Hne Hnul Hlen. simpl. unfold find_by_handle. rewrite bool_decide_eq_true_2 by done. cbn [negb].
    rewrite now_bind, read_run. simpl. by rewrite (by_handle_found _ _ u).
  - intros h x. simpl. unfold find_by_handle. destruct (negb _); [done|]. rewrite now_bind, read_run. simpl.
    intros E. apply by_handle_sound with (z := now_at (world env) (tick s)). by destruct (snd (player_by_handle _ _ _ _)); simplify_eq/=.
  - intros ids l. simpl. unfold players_by_id. destruct (_ <? _)%nat; [done|]. rewrite now_bind, read_run. simpl.
    intros E. apply by_ids. by destruct (snd (store_players_by_id _ _ _ _)); simplify_eq/=.
Qed.

(** ** Refreshing *)

(** What the generators of tokens and families promise: text that was never drawn. *)
Hypothesis fresh_tokens : ∀ t i d, issued d !! token_at env t i d = None ∧ sessions d !! token_at env t i d = None.
Hypothesis sees_all : ∀ t, unseen env t = ∅.
Hypothesis plain_tokens : ∀ t i d, has_nul (token_at env t i d) = false.

Lemma insert_session_run z u token f d :
  has_nul token = false → sessions d !! token = None → is_Some (players d !! u) →
  insert_session_tx z u token f d = (set_sessions (<[token := mkSession u f (access_until z)]>) d, Ok ()).
Proof.
  intros Hn Hs Hp. unfold insert_session_tx, mbind, ST_bind, bind_text. simpl. rewrite Hn. simpl.
  unfold gets. rewrite Hs. rewrite bool_decide_eq_false_2 by (by intros [? ?]). by rewrite bool_decide_eq_true_2.
Qed.

Lemma insert_refresh_run token u f z d :
  has_nul token = false → refresh_tokens d !! token = None → is_Some (players d !! u) →
  insert_refresh_row token u f z d = (set_issued (<[token := (u, f)]>) (set_refresh (<[token := mkRefresh u f z None None]>) d), Ok ()).
Proof.
  intros Hn Hs Hp. unfold insert_refresh_row, mbind, ST_bind, bind_text. simpl. rewrite Hn. simpl.
  unfold gets. rewrite Hs. rewrite bool_decide_eq_false_2 by (by intros [? ?]). by rewrite bool_decide_eq_true_2.
Qed.

Lemma issue_access_run t z u f rt d :
  is_Some (players d !! u) →
  ∃ v, issue_access_in_family_tx env t z u f rt d = (set_sessions (<[sv_token v := mkSession u f (access_until z)]>) d, Ok v) ∧
    sv_player v = u ∧ sv_refresh v = rt ∧ sessions d !! sv_token v = None.
Proof.
  intros Hp. exists (mkSessionView u (token_at env t 1 d) rt access_expires_in_secs). simpl. destruct (fresh_tokens t 1 d) as [_ Hf].
  split; [|done]. unfold issue_access_in_family_tx. rewrite (st_bind_run _ _ d d (token_at env t 1 d)) by done.
  erewrite st_bind_run; [reflexivity|]. apply st_map_err_run. by apply insert_session_run.
Qed.

Lemma unissued_row tok d : accounts_inv loc d → issued d !! tok = None → refresh_tokens d !! tok = None.
Proof. intros Hd Hi. destruct (refresh_tokens d !! tok) as [r|] eqn:E; [|done]. destruct (ai_refresh _ _ Hd _ _ E). congruence. Qed.

Lemma rotation_run t z tok d r :
  accounts_inv loc d → has_nul tok = false → refresh_tokens d !! tok = Some r → used_at r = None → z < r_expires r →
  ∃ v d', rotation env t z tok d = (d', Ok (Some v)) ∧ sv_player v = r_player r ∧ acts (CRotate tok (sv_refresh v) (sv_token v) z) d = Some d'.
Proof.
  intros Hd Hn Hr Hu Hz. destruct (ai_refresh _ _ Hd _ _ Hr) as [Hp Hi]. set (succ := token_at env t 0 d).
  destruct (fresh_tokens t 0 d) as [Hs _]. fold succ in Hs. assert (Hne : tok ≠ succ) by (intros ->; congruence).
  set (d1 := set_refresh (<[tok := mkRefresh (r_player r) (r_family r) (r_expires r) (Some z) (Some succ)]>) d).
  set (d2 := set_issued (<[succ := (r_player r, r_family r)]>) (set_refresh (<[succ := mkRefresh (r_player r) (r_family r) (r_expires r) None None]>) d1)).
  destruct (issue_access_run t z (r_player r) (r_family r) succ d2 Hp) as (v & Ev & Hv1 & Hv2 & Hv3).
  exists v, (set_sessions (<[sv_token v := mkSession (r_player r) (r_family r) (access_until z)]>) d2). split_and!; [|done|].
  - unfold rotation. rewrite (st_bind_run _ _ d d succ) by done.
    rewrite (st_bind_run _ _ d d1 (Some (r_player r, r_family r))); cycle 1.
    { apply st_map_err_run. unfold rotate_refresh_tx, mbind, ST_bind, bind_text. simpl. rewrite Hn. fold succ. unfold succ at 1. rewrite plain_tokens. simpl.
      unfold gets. rewrite Hr, Hu, bool_decide_eq_true_2, (proj2 (Z.ltb_lt _ _) Hz) by done. done. }
    cbn [classify_presentation]. erewrite st_bind_run; [reflexivity|]. unfold complete_rotation_tx. erewrite st_bind_run; [exact Ev|].
    apply st_map_err_run. unfold insert_refresh_successor_tx. rewrite (st_bind_run _ _ d1 d1 (refresh_tokens d1 !! tok)) by done. simpl. rewrite lookup_insert_eq. simpl.
    apply insert_refresh_run; [apply plain_tokens| |done]. simpl. rewrite lookup_insert_ne by done. by apply unissued_row.
  - rewrite Hv2. cbn [AccountsActs.acts]. rewrite Hr. cbn [mbind option_bind]. apply check_some. split; [|done]. by split_and!.
Qed.

Lemma rotation_none t z tok d :
  has_nul tok = false → (∀ r, refresh_tokens d !! tok = Some r → used_at r ≠ None ∨ r_expires r ≤ z) → rotation env t z tok d = (d, Ok None).
Proof.
  intros Hn Hr. unfold rotation. rewrite (st_bind_run _ _ d d (token_at env t 0 d)) by done.
  rewrite (st_bind_run _ _ d d None); [done|]. apply st_map_err_run. unfold rotate_refresh_tx, mbind, ST_bind, bind_text. simpl.
  rewrite Hn, plain_tokens. simpl. unfold gets. destruct (refresh_tokens d !! tok) as [r|]; [|done].
  destruct (bool_decide (used_at r = None) && (z <? r_expires r)) eqn:E; [|done]. apply andb_true_iff in E as [Hu%bool_decide_eq_true Hz%Z.ltb_lt].
  destruct (Hr r eq_refl); [done|lia].
Qed.

(** What becomes of a token that was not rotated. *)
Lemma refresh_reread z tok s :
  has_nul tok = false → (∀ r, refresh_tokens (db s) !! tok = Some r → used_at r ≠ None ∨ r_expires r ≤ z) →
  now_at (world env) (tick s) = z → session_token_within_cap tok = true →
  let s2 := mkTask (db s) (S (S (tick s))) (locks s) in
  refresh env tok s = in_tx (fun _ =>
    match classify_presentation None ((fun r => mkRefreshRow (r_player r) (r_family r) (replaced_by r) (bool_decide (is_Some (used_at r)))
              (from_option (fun t => z - REFRESH_GRACE_SECONDS * SECOND <? t) false (used_at r)) (r_expires r <=? z)) <$> refresh_tokens (db s) !! tok) with
    | GraceReplay player family successor => commit env (fun t => issue_access_in_family_tx env t z player family successor)
    | Revoke family => commit env (fun t => or_internal (kill_family_tx (unseen env t) family));; fail BAD_REFRESH
    | Rotate _ _ | Deny => fail BAD_REFRESH
    end s2) s.
Proof.
  intros Hn Hno <- Hcap. cbv zeta. unfold refresh. rewrite Hcap. cbn [negb]. unfold in_tx. rewrite now_bind.
  rewrite (st_bind_run _ _ _ _ _ (commit_run _ s (db s) None (rotation_none _ _ _ _ Hn Hno))). cbv iota beta.
  erewrite st_bind_run; [reflexivity|]. rewrite read_run. simpl. unfold refresh_row_tx, mbind, ST_bind, bind_text. simpl. by rewrite Hn.
Qed.


(** ** Deletion *)

Lemma lock_run key s : lock env key s = (mkTask (db s) (S (tick s)) (key :: locks s), Ok ()).
Proof. unfold lock, locking, seen. by rewrite alone, answers. Qed.

Lemma receipt_no_ticket d u rc : accounts_inv loc d → deletion_receipts d !! u = Some rc → delete_tickets d !! u = None.
Proof.
  intros Hd Hr. destruct (delete_tickets d !! u) as [t|] eqn:E; [|done]. destruct (ai_ticket _ _ Hd _ _ E) as [p Hp].
  destruct (ai_receipt _ _ Hd _ _ Hr). congruence.
Qed.

Lemma delete_replay ident u ticket s rc :
  accounts_inv loc (db s) → player_id ident = Some u → canonical u → has_nul ticket = false → (String.length ticket ≤ MAX_DELETE_TICKET_BYTES)%nat →
  deletion_receipts (db s) !! u = Some rc → rc_ticket rc = ticket →
  delete_account loc env ident ticket s = (mkTask (db s) (S (S (S (tick s)))) [], Ok (mkDeleteReceipt u (rc_handle rc) (rfc3339 loc (rc_deleted rc)))).
Proof.
  intros Hd Hi Hc Hn Hlen Hr Ht. pose proof (uuid_in_no_nul _ _ Hc) as Hu. unfold delete_account. rewrite (st_bind_run _ _ s s u) by (unfold caller, lift; by rewrite Hi).
  rewrite bool_decide_eq_true_2 by done. cbn [negb]. unfold delete_player_atomic, in_tx. rewrite now_bind.
  rewrite (st_bind_run _ _ _ _ _ (lock_run _ s)). set (s1 := mkTask _ _ _).
  rewrite (st_bind_run _ _ _ (mkTask (db s) (S (S (tick s))) (player_lock_key u :: locks s)) None); cycle 1.
  { apply (commit_run _ s1). unfold delete_writes. rewrite (st_bind_run _ _ _ (db s) None); [done|]. apply st_map_err_run.
    unfold consume_delete_ticket_tx, mbind, ST_bind, bind_text. simpl. rewrite Hu, Hn. simpl. unfold cast_uuid, lift. rewrite Hc. simpl.
    unfold gets. by rewrite (receipt_no_ticket _ _ _ Hd Hr). }
  cbv iota beta. unfold mbind at 1, ST_bind, reading, seen. rewrite alone, answers. simpl. unfold deletion_receipt_tx, mbind, ST_bind, bind_text. simpl.
  rewrite Hu, Hn. simpl. unfold cast_uuid, lift. rewrite Hc. simpl. by rewrite Hr, bool_decide_eq_true_2.
Qed.

Lemma delete_receipted ident u ticket s s1 rec :
  accounts_inv loc (db s) → player_id ident = Some u → canonical u → delete_account loc env ident ticket s = (s1, Ok rec) →
  accounts_inv loc (db s1) ∧ has_nul ticket = false ∧ (String.length ticket ≤ MAX_DELETE_TICKET_BYTES)%nat ∧
  ∃ rc, deletion_receipts (db s1) !! u = Some rc ∧ rc_ticket rc = ticket ∧ rec = mkDeleteReceipt u (rc_handle rc) (rfc3339 loc (rc_deleted rc)).
Proof.
  intros Hd Hi Hc. unfold delete_account. rewrite (st_bind_run _ _ s s u) by (unfold caller, lift; by rewrite Hi).
  destruct (bool_decide _) eqn:Hlen; [|done]. apply bool_decide_eq_true in Hlen. cbn [negb]. unfold delete_player_atomic, in_tx. rewrite now_bind.
  rewrite (st_bind_run _ _ _ _ _ (lock_run _ s)). set (z := now_at _ _). unfold mbind at 1, ST_bind, commit, committing, seen. rewrite alone, answers. simpl.
  destruct (delete_writes loc z u ticket (db s)) as [d' [x|e]] eqn:E; [|done].
  assert (Hn : has_nul ticket = false).
  { unfold delete_writes in E. st_inv E. apply st_map_err_ok in E0. unfold consume_delete_ticket_tx in E0.
    apply st_bind_ok in E0 as (? & [] & Eb & _). apply pg_bind_ok in Eb as [_ Hb]. simpl in Hb. apply orb_false_iff in Hb as [_ Hb]. by apply orb_false_iff in Hb as [Hb _]. }
  apply delete_writes_does in E; [|done..]. destruct x as [rec'|].
  - destruct E as [E (h & Hr & ->)]. intros [= <- <-]. simpl. split_and!; [by eapply (inv_acts loc)|done|done|]. by exists (mkReceipt h ticket z).
  - subst d'. unfold mbind at 1, ST_bind, reading, seen. rewrite alone, answers. simpl. unfold deletion_receipt_tx, mbind, ST_bind, bind_text. simpl.
    rewrite (uuid_in_no_nul _ _ Hc), Hn. simpl. unfold cast_uuid, lift. rewrite Hc. simpl. destruct (deletion_receipts (db s) !! u) as [rc|] eqn:Hr; [|done].
    case_bool_decide as Ht; [|done]. intros [= <- <-]. simpl. split_and!; [done|done|done|]. by exists rc.
Qed.

(** A deletion that was answered can be asked for again with the same ticket, as a
    client that lost the answer does: it answers with the same receipt and changes
    nothing. *)
Theorem delete_idempotent ident u ticket s s1 rec :
  accounts_inv loc (db s) → player_id ident = Some u → canonical u → delete_account loc env ident ticket s = (s1, Ok rec) →
  players (db s1) !! u = None ∧ ∃ s2, delete_account loc env ident ticket s1 = (s2, Ok rec) ∧ db s2 = db s1.
Proof.
  intros Hd Hi Hc E. destruct (delete_receipted _ _ _ _ _ _ Hd Hi Hc E) as (Hd1 & Hn & Hlen & rc & Hr & Ht & ->).
  split; [by eapply ai_receipt|]. eexists. split; [by apply (delete_replay ident u ticket s1 rc)|done].
Qed.

(** ** Guests *)

(** The other generators, and the digest. *)
Hypothesis fresh_players : ∀ t d u, fresh_player env t d = Some u → (u ∉ minted d) ∧ canonical u.
Hypothesis fresh_families : ∀ t d, family_used (fresh_family env t d) d = false.
Hypothesis sixteen_bytes : ∀ t, length (guest_bytes env t) = 16%nat.
Hypothesis plain_secret : ∀ t, String.length (guest_secret env t) = 43%nat ∧ has_nul (guest_secret env t) = false.
Hypothesis plain_digest : ∀ x, has_nul (sha256 env x) = false.

Lemma issue_session_run t z p d :
  accounts_inv loc d → is_Some (players d !! id p) → ∃ v d', issue_session_tx env t z p d = (d', Ok v) ∧ sv_player v = id p.
Proof.
  intros Hd Hp. exists (mkSessionView (id p) (token_at env t 0 d) (token_at env t 1 d) access_expires_in_secs). eexists.
  split; [|done]. unfold issue_session_tx.
  rewrite (st_bind_run _ _ d d (token_at env t 0 d)) by done. rewrite (st_bind_run _ _ d d (token_at env t 1 d)) by done.
  assert (Er : refresh_tokens d !! token_at env t 1 d = None) by apply (unissued_row _ _ Hd), fresh_tokens.
  erewrite st_bind_run; cycle 1.
  { apply st_map_err_run. unfold insert_refresh_family_tx. rewrite (st_bind_run _ _ d d (fresh_family env t d)) by done.
    erewrite st_bind_run; [reflexivity|]. by apply insert_refresh_run. }
  erewrite st_bind_run; [reflexivity|]. apply st_map_err_run, insert_session_run; [done| |done]. simpl. apply fresh_tokens.
Qed.

Lemma in_tx_run {A} (m : ST (Task AccountsDb) Error A) s s' r : m s = (s', r) → in_tx m s = (mkTask (db s') (tick s') [], r).
Proof. unfold in_tx. by intros ->. Qed.

(** A login with an identity that is known. *)
Lemma external_known provider sub name secret s i :
  accounts_inv loc (db s) → has_nul provider = false → has_nul sub = false → identities (db s) !! (provider, sub) = Some i →
  ∃ v s', external_login loc env provider sub name secret s = (s', Ok (v, false)) ∧ sv_player v = i_player i.
Proof.
  intros Hd Hp Hs Hi. destruct (ai_identity _ _ Hd _ _ Hi) as [q Hq].
  destruct (issue_session_run (S (S (tick s))) (now_at (world env) (tick s)) (mkRef (i_player i) (display_name q)) (db s) Hd) as (v & d' & E & Hv); [simpl; eauto|].
  exists v. eexists. split; [|exact Hv]. unfold external_login. apply in_tx_run. rewrite now_bind. rewrite (st_bind_run _ _ _ _ _ (lock_run _ s)).
  rewrite (st_bind_run _ _ _ (mkTask (db s) (S (S (tick s))) (identity_lock_key provider sub :: locks s)) (Some (mkRef (i_player i) (display_name q)))); cycle 1.
  { rewrite read_run. unfold player_by_identity_tx, mbind at 1, ST_bind, bind_text. simpl. rewrite Hp, Hs. simpl. rewrite Hi. simpl. unfold joined. by rewrite Hq. }
  cbv iota beta. erewrite st_bind_run; [reflexivity|]. by apply (commit_run _ (mkTask (db s) (S (S (tick s))) (identity_lock_key provider sub :: locks s))).
Qed.

(** A first sight. *)
Lemma external_first provider sub name secret s s' v b :
  accounts_inv loc (db s) → name ≠ "" → identities (db s) !! (provider, sub) = None →
  external_login loc env provider sub name secret s = (s', Ok (v, b)) →
  accounts_inv loc (db s') ∧ identities (db s') !! (provider, sub) = Some (mkIdentity (sv_player v) secret).
Proof.
  intros Hd Hn Hi. unfold external_login, in_tx. rewrite now_bind. rewrite (st_bind_run _ _ _ _ _ (lock_run _ s)). set (z := now_at _ _).
  unfold mbind at 1, ST_bind. rewrite read_run. cbn [db].
  destruct (snd (player_by_identity_tx provider sub (db s))) as [x|e] eqn:E; [cbn [map_err]|done].
  apply player_by_identity_ok in E. rewrite Hi in E. simpl in E. subst x. cbv iota beta. unfold mbind at 1, ST_bind, commit, committing, seen. rewrite alone, answers. simpl.
  destruct (provision_writes loc env internal_error (S (S (tick s))) z provider sub name secret (db s)) as [d' [x|e]] eqn:E; [|done].
  intros [= <- <- _]. simpl. apply provision_does in E as (u & disc & token & rt & f & E & <-); [|try done..]; [|intros t i d; apply fresh_tokens].
  split; [by eapply (inv_acts loc)|]. cbn [AccountsActs.acts] in E. destruct (enrol loc _ name disc (provider, sub) secret (db s)) as [d1|] eqn:E1; [|done]. simpl in E.
  apply issue_spec in E as (-> & _). simpl. apply enrol_spec in E1 as (_ & _ & _ & _ & _ & Ei & _). by rewrite Ei, lookup_insert_eq.
Qed.

Lemma resolve_guest : resolve env GUEST = Configured (guest_credentials env).
Proof.
  unfold resolve, providers.
  assert (Hl : ∀ o o' : option (nat → string → result VerifyError string),
    (match o with Some v => <[GOOGLE := oidc_credentials env GOOGLE v]> | None => fun m => m end
      (match o' with Some v => <[EPIC := oidc_credentials env EPIC v]> | None => fun m => m end
        ({[GUEST := guest_credentials env]} : gmap string Verifier))) !! GUEST = Some (guest_credentials env)).
  { intros [] []; rewrite ?lookup_insert_ne by done; apply lookup_singleton_eq. }
  specialize (Hl (google_verifier env) (epic_verifier env)). destruct (google_verifier env), (epic_verifier env); by rewrite Hl.
Qed.

Lemma no_nul_not_in s : zero ∉ to_bytes s → has_nul s = false.
Proof.
  intros Hs. unfold has_nul. apply not_true_iff_false. rewrite existsb_exists. intros (c & Hc & E%Ascii.eqb_eq). subst c.
  by apply Hs, list_elem_of_In.
Qed.

Lemma guest_verifies t s i :
  let g := mint_ticket env t in
  identities (db s) !! (GUEST, g_subject g) = Some i → secret_hash i = Some (g_hash g) →
  verify_credential env GUEST (g_credential g) s =
    (mkTask (db s) (S (tick s)) (locks s), Ok (mkVerified (g_subject g) (display_of GUEST (g_subject g)))).
Proof.
  cbv zeta. unfold mint_ticket. cbn [g_subject g_hash g_credential]. set (sub := new_subject (guest_bytes env t)). set (secret := guest_secret env t). intros Hi Hh.
  assert (Hsub : has_nul sub = false) by (apply no_nul_not_in, new_subject_plain; [apply sixteen_bytes|done|done]).
  assert (Hdot : "."%char ∉ to_bytes sub) by (apply new_subject_plain; [apply sixteen_bytes|done|done]).
  assert (Hlen : String.length sub = 36%nat).
  { destruct (new_subject_groups _ (sixteen_bytes t)) as (g1 & g2 & g3 & g4 & g5 & E & Hl & _). injection Hl as E1 E2 E3 E4 E5.
    rewrite <- length_to_bytes. unfold sub. rewrite E. rewrite !length_app. simpl. rewrite !length_app. simpl. rewrite !length_app. simpl. rewrite !length_app. simpl. lia. }
  unfold verify_credential. rewrite bool_decide_eq_false_2 by (vm_compute; lia). rewrite resolve_guest.
  replace (str_is_empty (sub +:+ "." +:+ secret)) with false by (by destruct sub).
  assert (Hcap : String.length (sub +:+ "." +:+ secret) = 80%nat).
  { rewrite <- length_to_bytes, !to_bytes_app, !length_app, !length_to_bytes, Hlen. unfold secret. by rewrite (proj1 (plain_secret t)). }
  rewrite Hcap. cbn [max_credential_bytes guest_credentials]. change (Z.of_nat MAX_GUEST_CREDENTIAL_BYTES <? Z.of_nat 80) with false. cbv iota.
  apply st_map_err_run. cbn [verify guest_credentials]. unfold guest_verify. rewrite !to_bytes_app. change (to_bytes ".") with ["."%char]. cbn [app].
  rewrite split_once_app, !of_to_bytes by done. unfold sub at 1. rewrite new_subject_minted by apply sixteen_bytes. fold sub. cbn [negb].
  unfold mbind at 1, ST_bind, reading, seen. rewrite alone, answers. cbn [map_err snd].
  unfold guest_identity_matches, mbind, ST_bind, bind_text. cbn [existsb]. rewrite Hsub, plain_digest. simpl. rewrite Hi, Hh, bool_decide_eq_true_2 by done. done.
Qed.

(** A guest comes back.  The secret that a new guest is given logs in, and the
    player it logs in is the player that was created. *)
Theorem guest_returns s s1 g :
  accounts_inv loc (db s) → identities (db s) !! (GUEST, g_subject (mint_ticket env (tick s))) = None →
  create_guest loc env s = (s1, Ok g) →
  ∃ s2 v, login_federated loc env GUEST (device_secret g) s1 = (s2, Ok v) ∧ sv_player v = sv_player (gs_session g).
Proof.
  intros Hd Hi. unfold create_guest. unfold mbind at 1, ST_bind, away, seen. rewrite alone. cbv iota beta. set (t := mint_ticket env (tick s)) in *.
  intros E. st_inv E. destruct a as [v0 b]. injection E as <- <-. cbn [gs_session device_secret fst].
  apply external_first in E0 as [Hd1 Hi1]; [|done|done|done]. simpl in Hi1.
  pose proof (guest_verifies (tick s) s0 _ Hi1 eq_refl) as Hv. fold t in Hv.
  destruct (external_known GUEST (g_subject t) (display_of GUEST (g_subject t)) None (mkTask (db s0) (S (tick s0)) (locks s0)) (mkIdentity (sv_player v0) (Some (g_hash t))) Hd1) as (v & s2 & E2 & Hp);
    [done|apply no_nul_not_in, new_subject_plain; [apply sixteen_bytes|done|done]|exact Hi1|].
  exists s2, v. split; [|done]. unfold login_federated. rewrite (st_bind_run _ _ _ _ _ Hv). cbn [subject vs_display].
  by rewrite (st_bind_run _ _ _ _ _ E2).
Qed.
End Undisturbed.

(** The service on the players of [AccountsExample]. *)
Module AccountsServiceExample.
Import AccountsExample.
#[local] Existing Instance plain_uuid.

(** Text that is not in a list, for being longer than everything in it. *)
Definition longer (l : list string) : string := of_bytes (replicate (S (max_list (String.length <$> l))) "a"%char).

Lemma longer_fresh l : longer l ∉ l.
Proof.
  intros Hin. assert (Hle : (String.length (longer l) ≤ max_list (String.length <$> l))%nat) by (apply max_list_elem_of_le; by apply list_elem_of_fmap_2).
  revert Hle. unfold longer at 1. rewrite <- length_to_bytes, to_of_bytes, length_replicate. lia.
Qed.

Lemma longer_plain l : has_nul (longer l) = false.
Proof. apply no_nul_not_in. unfold longer. rewrite to_of_bytes. intros [E _]%elem_of_replicate. done. Qed.

Definition cat : string := "33333333-0000-4000-8000-000000000003".

Definition service (w : World AccountsDb) : AEnv := {|
  world := w;
  random_u32 := fun _ i => Z.of_nat i;
  fresh_player := fun _ d => if decide (cat ∈ minted d) then None else Some cat;
  fresh_family := fun _ d => longer ((fun kv => snd (snd kv)) <$> map_to_list (issued d));
  token_at := fun _ _ d => longer ((fst <$> map_to_list (issued d)) ++ (fst <$> map_to_list (sessions d)));
  unseen := fun _ => ∅;
  guest_bytes := fun _ => replicate 16 "7"%char;
  guest_secret := fun _ => of_bytes (replicate 43 "s"%char);
  sha256 := fun x => of_bytes (hex (to_bytes x));
  argon_hash := fun _ p => Some p;
  argon_verify := String.eqb;
  dummy_hash := "dummy";
  login_slot := fun _ => true;
  dev_auth := true;
  epic_verifier := Some (fun _ c => Ok c);
  google_verifier := None;
  exchange_code := fun _ c => Some c;
|}.

Lemma service_players w t d u : fresh_player (service w) t d = Some u → (u ∉ minted d) ∧ canonical u.
Proof. simpl. case_decide; [done|]. intros [= <-]. split; [done|]. vm_compute. reflexivity. Qed.

Lemma service_families w t d : family_used (fresh_family (service w) t d) d = false.
Proof.
  unfold family_used. apply not_true_iff_false. rewrite existsb_exists. intros (kv & Hin & E%bool_decide_eq_true).
  apply (longer_fresh ((fun kv => snd (snd kv)) <$> map_to_list (issued d))). simpl in E. rewrite <- E.
  apply (list_elem_of_fmap_2 (fun kv : string * (string * string) => snd (snd kv))). by apply list_elem_of_In.
Qed.

Lemma service_tokens w t i d : issued d !! token_at (service w) t i d = None ∧ sessions d !! token_at (service w) t i d = None.
Proof.
  simpl. set (l := _ ++ _). pose proof (longer_fresh l) as Hf. split; apply eq_None_not_Some; intros [x Hx%elem_of_map_to_list];
    apply Hf, elem_of_app; [left|right]; by apply (list_elem_of_fmap_2 fst) in Hx.
Qed.

Definition quiet (z : Z) : AEnv := service (mkWorld (fun _ _ d => d) (fun _ => Answers) (fun _ => z)).

Definition inv_story : accounts_inv loc (told story) := accounts_history_inv loc _ _ accounts_story.

(** Bob has a ticket; while he is deleted Ann asks for one. *)
Definition ready : list Cause := story ++ [CTicket bob "ticket" 4].

Lemma ready_history : history loc ready (told ready).
Proof. apply accounts_told. vm_compute. reflexivity. Qed.

Definition asks : Cause := CTicket ann "hers" 5.

Definition arrives (t : nat) (L : list Z) (d : AccountsDb) : AccountsDb := if Nat.eqb t 1 then default d (acts loc asks d) else d.

Lemma asks_others t L d : rtc (others (Causes0 := accounts_causes loc) (eq asks) L) d (arrives t L d).
Proof.
  unfold arrives. destruct (Nat.eqb t 1); [|done]. destruct (acts loc asks d) as [d'|] eqn:E; [|done].
  apply rtc_once. exists asks. by split_and!.
Qed.

Definition busy : AEnv := service (mkWorld arrives (fun _ => Answers) (fun _ => 6)).
Definition leaving : AccountsOp := ODelete (identity_player bob) "ticket".

Lemma accounts_ops_entitled_witness :
  let s := mkTask (told ready) 0 [] in
  let s' := op_run loc busy (fun _ => None) leaving s in
  rtc (own (Causes0 := accounts_causes loc) (eq asks) (commands loc busy (eq asks) (db s) leaving)) (db s) (db s') ∧
  players (db s') !! bob = None ∧ is_Some (delete_tickets (db s') !! ann).
Proof.
  split; [|split; vm_compute; [reflexivity|eexists; reflexivity]].
  apply (accounts_ops_entitled loc busy (fun _ => None) (eq asks) asks_others (service_players _) (service_families _)
           (fun t i d => proj1 (service_tokens _ t i d))).
  - exact (accounts_history_inv loc _ _ ready_history).
  - intros u [= <-]. split; [vm_compute; reflexivity|]. vm_compute. set_solver.
Defined.

Abbreviation start l := (mkTask (told l) 0 []).

Lemma quiet_alone z t L d : meanwhile (world (quiet z)) t L d = d.
Proof. done. Qed.

(** Ann is found as ANN#0001, and asked for by id. *)
Lemma directory_correct_witness :
  Directory.find_by_handle (directory_at loc (quiet 10) (start story)) "ANN#0001" =
    Ok (Some (summary loc 10 (told story) ann (mkPlayer "Ann" "0001"))).
Proof.
  apply (proj1 (directory_correct loc (quiet 10) (quiet_alone 10) (fun _ => eq_refl) (start story) inv_story) ann (mkPlayer "Ann" "0001") "ANN");
    [vm_compute; reflexivity|vm_compute; reflexivity|done|reflexivity|vm_compute; lia].
Defined.


Definition answered {E A} (x : Task AccountsDb * result E A) : bool := match snd x with Ok _ => true | Err _ => false end.

Lemma delete_idempotent_witness :
  ∃ s1 s2 rec, delete_account loc (quiet 6) (identity_player bob) "ticket" (start ready) = (s1, Ok rec) ∧
    delete_account loc (quiet 6) (identity_player bob) "ticket" s1 = (s2, Ok rec) ∧ db s2 = db s1.
Proof.
  assert (Ha : answered (delete_account loc (quiet 6) (identity_player bob) "ticket" (start ready)) = true) by (vm_compute; reflexivity).
  destruct (delete_account loc (quiet 6) (identity_player bob) "ticket" (start ready)) as [s1 [rec|e]] eqn:E; [|discriminate Ha].
  destruct (delete_idempotent loc (quiet 6) (quiet_alone _) (fun _ => eq_refl) (identity_player bob) bob "ticket" (start ready) s1 rec)
    as [_ (s2 & E2 & Hs)]; [exact (accounts_history_inv loc _ _ ready_history)|reflexivity|vm_compute; reflexivity|exact E|].
  exists s1, s2, rec. auto.
Defined.

Lemma guest_returns_witness :
  ∃ s1 s2 g v, create_guest loc (quiet 6) (start story) = (s1, Ok g) ∧
    login_federated loc (quiet 6) GUEST (device_secret g) s1 = (s2, Ok v) ∧ sv_player v = sv_player (gs_session g).
Proof.
  assert (Ha : answered (create_guest loc (quiet 6) (start story)) = true) by (vm_compute; reflexivity).
  destruct (create_guest loc (quiet 6) (start story)) as [s1 [g|e]] eqn:E; [|discriminate Ha].
  destruct (guest_returns loc (quiet 6) (quiet_alone _) (fun _ => eq_refl) (service_tokens _) (fun _ _ _ => longer_plain _)
    (service_players _) (service_families _) (fun _ => eq_refl) (fun _ => conj eq_refl eq_refl)) with (s := start story) (s1 := s1) (g := g)
    as (s2 & v & E2 & Hv); [|exact inv_story|vm_compute; reflexivity|exact E|].
  - intros x. apply no_nul_not_in. simpl. rewrite to_of_bytes. apply lower_hex_not; [done|apply hex_lower].
  - exists s1, s2, g, v. auto.
Defined.

(** Somebody has Ann's first refresh token.  The client presents the third token again
    within its grace; between the read of its row and the new session the stolen token
    is presented and the family is revoked. *)
Definition stolen : list Cause :=
  [CProvision ann "Ann" "0001" (GUEST, "g1") (Some "digest") "t1" "r1" "f1" 1; CRotate "r1" "r2" "t2" 2; CRotate "r2" "r3" "t3" (40 * SECOND)].
Definition revoked : Cause := CRevoke "r1" "f1" ∅ (41 * SECOND).
Definition revoked_between (t : nat) (L : list Z) (d : AccountsDb) : AccountsDb := if Nat.eqb t 2 then default d (acts loc revoked d) else d.
Definition race : AEnv := service (mkWorld revoked_between (fun _ => Answers) (fun _ => 41 * SECOND)).

(** Nothing holds the row between its reading and the insert of the session, so the
    revoked family comes back with a session of sixty minutes. *)
Theorem revoked_family_returns :
  let x := refresh race "r2" (start stolen) in
  (∀ t L d, rtc (others (Causes0 := accounts_causes loc) (eq revoked) L) d (meanwhile (world race) t L d)) ∧
  refresh_tokens (db (fst x)) = ∅ ∧
  match snd x with Ok v => s_family <$> sessions (db (fst x)) !! sv_token v = Some "f1" | Err _ => False end.
Proof.
  split; [|split; vm_compute; reflexivity]. intros t L d. simpl. unfold revoked_between. destruct (Nat.eqb t 2); [|done].
  destruct (acts loc revoked d) as [d'|] eqn:E; [|done]. apply rtc_once. exists revoked. by split_and!.
Qed.
End AccountsServiceExample.
