(* ===== verification/Scheduler.v ===== *)
(** * Scheduler: named schedules and their firing

    [modules/scheduler/src/lib.rs].  Every replica scans the same table and fires what
    is due on a connection of its own.  A fire is a session that runs one statement at a
    time - the try-lock, the re-check, the transaction, the unlock - among the sessions
    of the other replicas, the operators' edits of the table and the clock; it can die
    at any point, and the server then frees what it held.

    Instants are microseconds.  A row carries, besides its columns, the number of the
    insert that made it; an event carries what the re-check read.  No statement reads
    either. *)

From stdpp Require Import sorting.
From S2P Require Import Prelude Text Pg.
#[local] Open Scope Z_scope.

Definition MICROS : Z := 1000000.
Definition INTERVAL_SECONDS_CEILING : Z := 9223372036854.
Definition TICK_STALL_MAX : Z := 60.

Record Schedule := mkSchedule { interval_seconds : Z; last_fired : Z; made : nat }.

(** A [scheduler.fired] event: the payload is the name. *)
Record Fired := mkFired { f_name : string; f_at : Z; f_interval : Z; f_made : nat }.

Record SchedulerDb := mkScheduler { schedules : gmap string Schedule; fired : list Fired; inserts : nat }.

Definition set_schedules f d := mkScheduler (f (schedules d)) (fired d) (inserts d).

(** ** The table *)

Definition interval_ok (interval : Z) : bool := (0 <? interval) && (interval <=? INTERVAL_SECONDS_CEILING).

(** [INSERT … ON CONFLICT (name) DO NOTHING]; the check refuses an interval. *)
Definition insert_schedule (name : string) (interval : Z) (d : SchedulerDb) : option SchedulerDb :=
  if negb (interval_ok interval) then None else
  match schedules d !! name with
  | Some _ => Some d
  | None => Some (mkScheduler (<[name := mkSchedule interval 0 (inserts d)]> (schedules d)) (fired d) (S (inserts d)))
  end.

Definition SEEDED : list string :=
  ["audit-prune"; "accounts-sessions-prune"; "notifications-prune"; "mail-prune"; "groups-prune"; "player-purge"].

(** [migrate]. *)
Definition migrate (d : SchedulerDb) : option SchedulerDb :=
  foldl (fun d name => d ≫= insert_schedule name 86400) (Some d) SEEDED.

(** The condition of [DUE_SQL] and [FIRE_RECHECK_SQL]. *)
Definition due_row (now : Z) (r : Schedule) : bool :=
  (interval_seconds r * MICROS <=? now - last_fired r) && (1 <=? interval_seconds r) && (interval_seconds r <=? INTERVAL_SECONDS_CEILING).

#[global] Instance string_le_total : Total String.le := String.le_total.

Definition due_schedules (now : Z) (d : SchedulerDb) : list string :=
  merge_sort String.le (fst <$> List.filter (fun kv => due_row now (snd kv)) (map_to_list (schedules d))).

(** ** One fire *)

Definition lock_key (name : string) : Z := wrap_i64 (fnv1a (to_bytes name)).

(** Where the session of a fire is: the statement it runs next. *)
Inductive Phase :=
| TryLock (name : string)
| Recheck (name : string)
| Begin (name : string) (read : Schedule) (at_ : Z)
| Commit (name : string) (read : Schedule) (rechecked now : Z)
| Unlock (name : string).

Definition phase_name (p : Phase) : string :=
  match p with TryLock n | Recheck n | Begin n _ _ | Commit n _ _ _ | Unlock n => n end.

(** The session holds the advisory lock of its schedule. *)
Definition in_lock (p : Phase) : bool := match p with TryLock _ => false | _ => true end.

Record Server := mkServer { db : SchedulerDb; clock : Z; held : gmap Z nat; sessions : gmap nat Phase }.

Definition set_phase (sid : nat) (p : Phase) (w : Server) : Server := mkServer (db w) (clock w) (held w) (<[sid := p]> (sessions w)).

(** The end of a session, however it comes: the server frees its lock, and what it had
    not committed is not there. *)
Definition close (sid : nat) (w : Server) : Server :=
  mkServer (db w) (clock w) (filter (fun kv => snd kv ≠ sid) (held w)) (delete sid (sessions w)).

(** [fire_locked]: the bump and the event in one transaction.  A row deleted since the
    re-check is not updated, and the event is appended all the same. *)
Definition fire_commit (name : string) (read : Schedule) (now : Z) (d : SchedulerDb) : SchedulerDb :=
  mkScheduler (alter (fun r => mkSchedule (interval_seconds r) now (made r)) name (schedules d))
    (fired d ++ [mkFired name now (interval_seconds read) (made read)]) (inserts d).

(** [fire], [fire_on] and [fire_locked]: the next statement of the session. *)
Definition fire_step (sid : nat) (w : Server) : Server :=
  match sessions w !! sid with
  | None => w
  | Some (TryLock n) =>
      match held w !! lock_key n with
      | Some _ => close sid w
      | None => mkServer (db w) (clock w) (<[lock_key n := sid]> (held w)) (<[sid := Recheck n]> (sessions w))
      end
  | Some (Recheck n) =>
      match schedules (db w) !! n with
      | Some r => if due_row (clock w) r then set_phase sid (Begin n r (clock w)) w else set_phase sid (Unlock n) w
      | None => set_phase sid (Unlock n) w
      end
  | Some (Begin n r z) => set_phase sid (Commit n r z (clock w)) w
  | Some (Commit n r _ now) => set_phase sid (Unlock n) (mkServer (fire_commit n r now (db w)) (clock w) (held w) (sessions w))
  | Some (Unlock n) => close sid (mkServer (db w) (clock w) (delete (lock_key n) (held w)) (sessions w))
  end.

(** [fire]: a session of its own from beginning to end. *)
Definition fire (sid : nat) (name : string) (w : Server) : Server :=
  Nat.iter 5 (fire_step sid) (set_phase sid (TryLock name) w).

(** ** Everything that can happen *)

Inductive step (w : Server) : Server → Prop :=
| st_time z : clock w ≤ z → step w (mkServer (db w) z (held w) (sessions w))
| st_connect sid name : sessions w !! sid = None → step w (set_phase sid (TryLock name) w)
| st_session sid : is_Some (sessions w !! sid) → step w (fire_step sid w)
| st_dies sid : is_Some (sessions w !! sid) → step w (close sid w)
| st_insert name interval d : insert_schedule name interval (db w) = Some d → step w (mkServer d (clock w) (held w) (sessions w))
| st_edit name interval :
    interval_ok interval = true →
    step w (mkServer (set_schedules (alter (fun r => mkSchedule interval (last_fired r) (made r)) name) (db w)) (clock w) (held w) (sessions w))
| st_delete name : step w (mkServer (set_schedules (delete name) (db w)) (clock w) (held w) (sessions w)).

Definition start (z : Z) : Server := mkServer (mkScheduler ∅ [] 0) z ∅ ∅.

(** ** A tick *)

(** [slice::partition_point]. *)
Fixpoint partition_point {A} (f : A → bool) (l : list A) : nat :=
  match l with x :: l' => if f x then S (partition_point f l') else 0%nat | [] => 0%nat end.

Definition rotation_start (names : list string) (cursor : option string) : nat :=
  if bool_decide (names = []) then 0%nat else
  let insertion := from_option (fun c => partition_point (fun n => String.leb n c) names) 0%nat cursor in
  if bool_decide (insertion = length names) then 0%nat else insertion.

(** The order of the attempts: [due[(start + offset) % due.len()]]. *)
Definition rotated (due : list string) (cursor : option string) : list string :=
  let start := rotation_start due cursor in
  (fun offset => due !!! ((start + offset) `mod` length due)%nat) <$> seq 0 (length due).

Section Tick.
Context {S : Type}.

(** What a tick meets at each schedule: whether a stop was asked for, the whole
    milliseconds left of its budget, and the fire with its outcome. *)
Record TickEnv := mkTickEnv {
  stopping : nat → bool;
  remaining_ms : nat → Z;
  fire_at : nat → string → S → S * result string unit;
}.

Variable env : TickEnv.

Record Progress := mkProgress { state : S; cursor : option string; attempted : list string; failed : nat }.

Fixpoint attempts (i : nat) (names : list string) (p : Progress) : Progress :=
  match names with
  | [] => p
  | n :: rest =>
      if stopping env i then p else
      if remaining_ms env i =? 0 then mkProgress (state p) (cursor p) (attempted p) (Datatypes.S (failed p)) else
      let '(s', r) := fire_at env i n (state p) in
      attempts (Datatypes.S i) rest
        (mkProgress s' (Some n) (attempted p ++ [n]) (failed p + match r with Ok _ => 0 | Err _ => 1 end))
  end.

(** [tick], given what the scan for due schedules answered. *)
Definition tick (due : result string (list string)) (c : option string) (s : S) : Progress * result string unit :=
  match due with
  | Err e => (mkProgress s c [] 0, Err e)
  | Ok names =>
      let p := attempts 0 (rotated names c) (mkProgress s c [] 0) in
      (p, if (0 <? failed p)%nat then Err "schedule fire(s) failed this tick" else Ok ())
  end.
End Tick.
Arguments mkTickEnv {S}.
Arguments mkProgress {S}.

(** ** Liveness *)

(** [stalled_from]: [0] is the clock that was never set. *)
Definition stalled_from (last_ok_secs now_secs : Z) (stopping : bool) (max_age : Z) : bool :=
  negb stopping && negb (last_ok_secs =? 0) && (max_age <? Z.max 0 (now_secs - last_ok_secs)).

Record Liveness := mkLiveness { dead : bool; stopping_ : bool; last_ok_secs : Z }.

Definition check (l : Liveness) (now_secs : Z) : result string unit :=
  if dead l then Err "scheduler emission loop task died" else
  if stalled_from (last_ok_secs l) now_secs (stopping_ l) TICK_STALL_MAX then Err "no healthy scheduler tick" else Ok ().

Definition mark_tick_ok (now_secs : Z) (l : Liveness) : Liveness := mkLiveness (dead l) (stopping_ l) (Z.max now_secs 1).

(** What wakes the loop: a stop, or the ticker with the tick it runs. *)
Inductive Wake (S : Type) :=
| Stopped
| Ticked (env : TickEnv (S := S)) (due : S → result string (list string)) (stop_seen : bool) (done_secs : Z).
Arguments Stopped {S}.
Arguments Ticked {S}.

(** [run_loop]: the state, the cursor and the liveness, from one waking to the next. *)
Fixpoint run_wakes {S} (ws : list (Wake S)) (s : S) (c : option string) (l : Liveness) : S * option string * Liveness :=
  match ws with
  | [] => (s, c, l)
  | Stopped :: _ => (s, c, l)
  | Ticked env due stop_seen secs :: rest =>
      if stop_seen then (s, c, l) else
      let '(p, r) := tick env (due s) c s in
      run_wakes rest (state p) (cursor p) (match r with Ok _ => mark_tick_ok secs l | Err _ => l end)
  end.

Definition run_loop {S} (ws : list (Wake S)) (now_secs : Z) (s : S) (l : Liveness) : S * option string * Liveness :=
  run_wakes ws s None (mark_tick_ok now_secs l).
