(* ===== verification/SchedulerSafety.v ===== *)
(** * SchedulerSafety: a schedule fires once per interval, and none is starved

    Over any interleaving of replicas, deaths, edits and time, two events of one schedule
    are at least its interval apart; no advisory lock outlives its session; an
    undisturbed fire does exactly what is due; and the rotation of the ticks reaches
    every due schedule. *)

From stdpp Require Import sorting.
From S2P Require Import Prelude Text Pg Scheduler.
#[local] Open Scope Z_scope.

(** ** The invariant *)

(** What a re-check that found the row [r] due at [z] knows, while the lock is held. *)
Record ready (d : SchedulerDb) (now : Z) (n : string) (r : Schedule) (z : Z) : Prop := {
  rd_time : z ≤ now;
  rd_made : (made r < inserts d)%nat;
  rd_interval : 1 ≤ interval_seconds r;
  rd_fired e : e ∈ fired d → f_name e = n →
    (f_made e ≤ made r)%nat ∧ (f_made e = made r → interval_seconds r * MICROS ≤ z - f_at e);
  rd_row row : schedules d !! n = Some row → (made r ≤ made row)%nat;
}.

Definition phase_ok (d : SchedulerDb) (clk : Z) (p : Phase) : Prop :=
  match p with
  | Begin n r z => ready d clk n r z
  | Commit n r z now => ready d clk n r z ∧ z ≤ now ≤ clk
  | _ => True
  end.

(** Events of one row are its interval apart. *)
Definition spaced (l : list Fired) : Prop :=
  ∀ i j e e', l !! i = Some e → l !! j = Some e' → (i < j)%nat → f_name e = f_name e' → f_made e = f_made e' →
    f_interval e' * MICROS ≤ f_at e' - f_at e.

Record server_ok (w : Server) : Prop := {
  so_lock k sid : held w !! k = Some sid → ∃ p, sessions w !! sid = Some p ∧ in_lock p = true ∧ lock_key (phase_name p) = k;
  so_holder sid p : sessions w !! sid = Some p → in_lock p = true → held w !! lock_key (phase_name p) = Some sid;
  so_phase sid p : sessions w !! sid = Some p → phase_ok (db w) (clock w) p;
  so_event e : e ∈ fired (db w) → f_at e ≤ clock w ∧ (f_made e < inserts (db w))%nat;
  so_row n r : schedules (db w) !! n = Some r → (made r < inserts (db w))%nat ∧
    ∀ e, e ∈ fired (db w) → f_name e = n → (f_made e ≤ made r)%nat ∧ (f_made e = made r → f_at e ≤ last_fired r);
  so_spaced : spaced (fired (db w));
}.

Lemma ok_start z : server_ok (start z).
Proof.
  split; simpl; try (intros; exfalso; match goal with E : ∅ !! _ = Some _ |- _ => by rewrite lookup_empty in E end).
  - set_solver.
  - intros i j e e' E. by rewrite lookup_nil in E.
Qed.

(** One session per name is in its lock. *)
Lemma one_in_lock w sid sid' p p' :
  server_ok w → sessions w !! sid = Some p → sessions w !! sid' = Some p' → in_lock p = true → in_lock p' = true →
  phase_name p = phase_name p' → sid = sid'.
Proof. intros Hw Hp Hp' Hl Hl' E. pose proof (so_holder w Hw _ _ Hp Hl). pose proof (so_holder w Hw _ _ Hp' Hl'). congruence. Qed.

(** ** Steps *)

Lemma ok_time w z : server_ok w → clock w ≤ z → server_ok (mkServer (db w) z (held w) (sessions w)).
Proof.
  intros [] Hz. split; simpl; eauto.
  - intros sid p Hp. specialize (so_phase0 sid p Hp). destruct p as [n|n|n r at_|n r at_ now|n]; simpl in *; try done.
    + destruct so_phase0. split; simpl in *; eauto. lia.
    + destruct so_phase0 as [[] ?]. split; [|simpl; lia]. split; simpl in *; eauto. lia.
  - intros e He. destruct (so_event0 e He). split; [lia|done].
Qed.

Lemma ok_connect w sid n : server_ok w → sessions w !! sid = None → server_ok (set_phase sid (TryLock n) w).
Proof.
  intros [] Hs. split; simpl; eauto.
  - intros k sid' Hk. destruct (so_lock0 k sid' Hk) as (p & Hp & ?). exists p. rewrite lookup_insert_ne by congruence. done.
  - intros sid' p. rewrite lookup_insert_Some. intros [[<- <-]|[_ Hp]] Hl; [done|eauto].
  - intros sid' p. rewrite lookup_insert_Some. intros [[<- <-]|[_ Hp]]; [done|by apply (so_phase0 sid')].
Qed.

Lemma ok_close w sid : server_ok w → server_ok (close sid w).
Proof.
  intros []. split; simpl; eauto.
  - intros k sid'. rewrite map_lookup_filter_Some. intros [Hk Hne]. simpl in Hne. destruct (so_lock0 k sid' Hk) as (p & Hp & ?).
    exists p. by rewrite lookup_delete_ne.
  - intros sid' p. rewrite lookup_delete_Some. intros [Hne Hp] Hl. apply map_lookup_filter_Some. split; [by apply so_holder0|]. simpl. congruence.
  - intros sid' p. rewrite lookup_delete_Some. intros [Hne Hp]. by apply (so_phase0 sid').
Qed.

(** A session goes on within its lock, the tables as they are. *)
Lemma ok_phase w sid p p' :
  server_ok w → sessions w !! sid = Some p → in_lock p = true → in_lock p' = true → phase_name p' = phase_name p → phase_ok (db w) (clock w) p' →
  server_ok (set_phase sid p' w).
Proof.
  intros [] Hp Hl Hl' Hn Hok. split; simpl; eauto.
  - intros k sid' Hk. destruct (so_lock0 k sid' Hk) as (q & Hq & Hql & Hqk). destruct (decide (sid = sid')) as [<-|Hne].
    + exists p'. rewrite lookup_insert_eq. split_and!; [done|done|]. rewrite Hp in Hq. injection Hq as <-. congruence.
    + exists q. by rewrite lookup_insert_ne.
  - intros sid' q. rewrite lookup_insert_Some. intros [[<- <-]|[_ Hq]] Hql; [rewrite Hn; eauto|eauto].
  - intros sid' q. rewrite lookup_insert_Some. intros [[<- <-]|[_ Hq]]; [done|by apply (so_phase0 sid')].
Qed.

Lemma ok_locked w sid n :
  server_ok w → sessions w !! sid = Some (TryLock n) → held w !! lock_key n = None →
  server_ok (mkServer (db w) (clock w) (<[lock_key n := sid]> (held w)) (<[sid := Recheck n]> (sessions w))).
Proof.
  intros [] Hp Hk. split; simpl; eauto.
  - intros k sid'. rewrite lookup_insert_Some. intros [[<- <-]|[Hne Hs]]; [exists (Recheck n); by rewrite lookup_insert_eq|].
    destruct (so_lock0 k sid' Hs) as (q & Hq & Hql & Hqk). exists q. rewrite lookup_insert_ne; [done|]. intros <-. rewrite Hp in Hq. injection Hq as <-. done.
  - intros sid' q. rewrite lookup_insert_Some. intros [[<- <-]|[Hne Hq]] Hql; [by rewrite lookup_insert_eq|].
    pose proof (so_holder0 _ _ Hq Hql) as Hh. rewrite lookup_insert_ne; [done|]. intros E. rewrite E in Hk. congruence.
  - intros sid' q. rewrite lookup_insert_Some. intros [[<- <-]|[_ Hq]]; [done|by apply (so_phase0 sid')].
Qed.

(** An edit of the table that keeps what the events and the re-checks rely on. *)
Lemma ok_tables w (d : SchedulerDb) :
  server_ok w → fired d = fired (db w) → (inserts (db w) ≤ inserts d)%nat →
  (∀ n r, schedules d !! n = Some r →
     (∃ r0, schedules (db w) !! n = Some r0 ∧ made r = made r0 ∧ last_fired r = last_fired r0) ∨ (made r = inserts (db w) ∧ (made r < inserts d)%nat)) →
  server_ok (mkServer d (clock w) (held w) (sessions w)).
Proof.
  intros [] Hf Hi Hr. split; simpl; eauto.
  - intros sid p Hp. specialize (so_phase0 sid p Hp).
    assert (Hready : ∀ n r z, ready (db w) (clock w) n r z → ready d (clock w) n r z).
    { intros n r z []. split; simpl; [done|lia|done|by rewrite Hf|]. intros row Hrow.
      destruct (Hr n row Hrow) as [(r0 & H0 & -> & _)|[-> _]]; [by apply rd_row0|lia]. }
    destruct p; simpl in *; try done; [by apply Hready|]. destruct so_phase0 as [? ?]. split; [by apply Hready|done].
  - intros e. rewrite Hf. intros He. destruct (so_event0 e He). split; [done|lia].
  - intros n r Hn. rewrite Hf. destruct (Hr n r Hn) as [(r0 & H0 & -> & ->)|[-> Hlt]].
    + destruct (so_row0 n r0 H0) as [? ?]. split; [lia|done].
    + split; [done|]. intros e He _. destruct (so_event0 e He). split; [lia|]. intros E. rewrite E in *. lia.
  - by rewrite Hf.
Qed.

Lemma spaced_snoc l e :
  spaced l → (∀ x, x ∈ l → f_name x = f_name e → f_made x = f_made e → f_interval e * MICROS ≤ f_at e - f_at x) → spaced (l ++ [e]).
Proof.
  intros Hl He i j x y Hx Hy Hij. apply lookup_app_Some in Hy as [Hy|[Hlen Hy]].
  - apply (Hl i j x y); [|done|done]. rewrite lookup_app_l in Hx; [done|]. apply lookup_lt_Some in Hy. lia.
  - apply list_lookup_singleton_Some in Hy as [Hj <-]. apply lookup_app_Some in Hx as [Hx|[Hlen' Hx]]; [|apply lookup_lt_Some in Hx; simpl in Hx; lia].
    apply He. by eapply list_elem_of_lookup_2.
Qed.

Lemma ok_commit w sid n r z now :
  server_ok w → sessions w !! sid = Some (Commit n r z now) →
  server_ok (set_phase sid (Unlock n) (mkServer (fire_commit n r now (db w)) (clock w) (held w) (sessions w))).
Proof.
  intros Hw Hp. pose proof Hw as []. destruct (so_phase0 _ _ Hp) as [[] Hnow].
  set (e := mkFired n now (interval_seconds r) (made r)).
  assert (Hother : ∀ sid' q, sid' ≠ sid → sessions w !! sid' = Some q → in_lock q = true → phase_name q ≠ n).
  { intros sid' q Hne Hq Hl E. apply Hne. by eapply (one_in_lock w sid' sid q _ Hw Hq Hp Hl). }
  split; simpl.
  - intros k sid' Hk. destruct (so_lock0 k sid' Hk) as (q & Hq & Hql & Hqk). destruct (decide (sid = sid')) as [<-|Hne].
    + exists (Unlock n). rewrite lookup_insert_eq. rewrite Hp in Hq. injection Hq as <-. done.
    + exists q. by rewrite lookup_insert_ne.
  - intros sid' q. rewrite lookup_insert_Some. intros [[<- <-]|[_ Hq]] Hql; [by apply (so_holder0 _ _ Hp)|eauto].
  - intros sid' q. rewrite lookup_insert_Some. intros [[<- <-]|[Hne Hq]]; [done|]. pose proof (so_phase0 _ _ Hq) as Hok.
    assert (Hready : ∀ n' r' z', n' ≠ n → ready (db w) (clock w) n' r' z' → ready (fire_commit n r now (db w)) (clock w) n' r' z').
    { intros n' r' z' Hn []. split; simpl; [done|done|done| |].
      - intros x [Hx|Hx]%elem_of_app; [by apply rd_fired1|]. apply list_elem_of_singleton in Hx as ->. simpl. congruence.
      - intros row. rewrite lookup_alter_ne by done. apply rd_row1. }
    destruct q as [|?|n' ? ?|n' ? ? ?|]; simpl in *; try done.
    + apply Hready; [|done]. by apply (Hother sid' _ (not_eq_sym Hne) Hq).
    + destruct Hok as [Hok ?]. split; [|done]. apply Hready; [|done]. by apply (Hother sid' _ (not_eq_sym Hne) Hq).
  - intros x [Hx|Hx]%elem_of_app; [by apply so_event0|]. apply list_elem_of_singleton in Hx as ->. simpl. split; [lia|done].
  - intros n' row Hrow. destruct (decide (n' = n)) as [->|Hne].
    + rewrite lookup_alter_eq in Hrow. apply fmap_Some in Hrow as (row0 & H0 & ->). simpl. destruct (so_row0 _ _ H0) as [Hlt Hall].
      split; [done|]. intros x [Hx|Hx]%elem_of_app Hxn.
      * destruct (Hall x Hx Hxn) as [Hle _]. split; [done|]. intros E. destruct (rd_fired0 x Hx Hxn) as [Hle2 Hsp].
        pose proof (rd_row0 _ H0). unfold MICROS in Hsp. assert (f_made x = made r) by lia. specialize (Hsp ltac:(done)). lia.
      * apply list_elem_of_singleton in Hx as ->. simpl. split; [by apply rd_row0|lia].
    + rewrite lookup_alter_ne in Hrow by done. destruct (so_row0 _ _ Hrow) as [Hlt Hall]. split; [done|].
      intros x [Hx|Hx]%elem_of_app Hxn; [by apply Hall|]. apply list_elem_of_singleton in Hx as ->. simpl in Hxn. congruence.
  - apply spaced_snoc; [done|]. intros x Hx Hxn Hxm. simpl in *. destruct (rd_fired0 x Hx Hxn) as [_ Hsp]. specialize (Hsp Hxm). lia.
Qed.

Lemma ok_fire_step w sid : server_ok w → server_ok (fire_step sid w).
Proof.
  intros Hw. unfold fire_step. destruct (sessions w !! sid) as [p|] eqn:Hp; [|done]. pose proof Hw as [].
  destruct p as [n|n|n r z|n r z now|n].
  - destruct (held w !! lock_key n) eqn:Hk; [by apply ok_close|by apply ok_locked].
  - destruct (schedules (db w) !! n) as [r|] eqn:Hr; [|by eapply (ok_phase w sid (Recheck n))].
    destruct (due_row (clock w) r) eqn:Hd; [|by eapply (ok_phase w sid (Recheck n))].
    eapply (ok_phase w sid (Recheck n)); try done. unfold due_row in Hd. rewrite !andb_true_iff, !Z.leb_le in Hd. destruct Hd as [[Hd H1] H2].
    destruct (so_row0 _ _ Hr) as [Hlt Hall]. split; [done|done|done| |].
    + intros e He Hn. destruct (Hall e He Hn) as [Hle Hat]. split; [done|]. intros E. specialize (Hat E). lia.
    + intros row Hrow. rewrite Hr in Hrow. by injection Hrow as <-.
  - eapply (ok_phase w sid (Begin n r z)); try done. pose proof (so_phase0 _ _ Hp) as Hok. simpl in *. split; [done|]. destruct Hok. lia.
  - by eapply ok_commit.
  - assert (E : filter (fun kv => snd kv ≠ sid) (delete (lock_key n) (held w)) = filter (fun kv => snd kv ≠ sid) (held w)).
    { apply map_eq. intros k. apply option_eq. intros x. rewrite !map_lookup_filter_Some, lookup_delete_Some. simpl.
      split; [tauto|]. intros [Hk Hne]. split; [|done]. split; [|done]. intros <-. pose proof (so_holder0 _ _ Hp eq_refl). simpl in *. congruence. }
    unfold close. simpl. rewrite E. by apply ok_close.
Qed.

Lemma ok_step w w' : server_ok w → step w w' → server_ok w'.
Proof.
  intros Hw []; [by apply ok_time|by apply ok_connect|by apply ok_fire_step|by apply ok_close|..].
  - match goal with E : insert_schedule _ _ _ = _ |- _ => rename E into Hi end. unfold insert_schedule in Hi. destruct (negb _); [done|].
    destruct (schedules (db w) !! name) as [r|] eqn:Hn; injection Hi as <-; [by destruct w|]. apply ok_tables; simpl; [done|done|lia|].
    intros n r. rewrite lookup_insert_Some. intros [[<- <-]|[_ Hr]]; [right; simpl; lia|left; eauto].
  - apply ok_tables; simpl; [done|done|done|]. intros n r Hr. left. destruct (decide (n = name)) as [->|Hne].
    + rewrite lookup_alter_eq in Hr. apply fmap_Some in Hr as (r0 & H0 & ->). eauto.
    + rewrite lookup_alter_ne in Hr by done. eauto.
  - apply ok_tables; simpl; [done|done|done|]. intros n r [_ Hr]%lookup_delete_Some. left. eauto.
Qed.

Lemma ok_reach z w : rtc step (start z) w → server_ok w.
Proof. intros Hr. pose proof (ok_start z) as H0. induction Hr; [done|]. apply IHHr. by eapply ok_step. Qed.

(** C22: a schedule fires at most once per interval, however many replicas fire it and
    whichever of them die: over any interleaving of sessions, deaths, edits of the table
    and time, two events of one row of the table are at least the interval apart that
    the later one was found due with. *)
Theorem fires_spaced z w i j e e' :
  rtc step (start z) w → fired (db w) !! i = Some e → fired (db w) !! j = Some e' → (i < j)%nat →
  f_name e = f_name e' → f_made e = f_made e' → f_interval e' * MICROS ≤ f_at e' - f_at e.
Proof. intros Hr%ok_reach. by apply (so_spaced w Hr). Qed.

(** No lock is left behind.  At every point a held lock belongs to a live session that
    is firing a schedule of that key, no two sessions fire one schedule, and a session
    that ends - done, failed or killed, at any of its statements - holds nothing. *)
Theorem locks_freed z w :
  rtc step (start z) w →
  (∀ k sid, held w !! k = Some sid → ∃ p, sessions w !! sid = Some p ∧ in_lock p = true ∧ lock_key (phase_name p) = k) ∧
  (∀ s1 s2 p1 p2, sessions w !! s1 = Some p1 → sessions w !! s2 = Some p2 → in_lock p1 = true → in_lock p2 = true →
     phase_name p1 = phase_name p2 → s1 = s2) ∧
  ∀ sid k, held (close sid w) !! k ≠ Some sid.
Proof.
  intros Hr%ok_reach. split_and!.
  - apply (so_lock w Hr).
  - intros s1 s2 p1 p2 H1 H2 H3 H4 H5. by apply (one_in_lock w s1 s2 p1 p2).
  - intros sid k. simpl. intros [_ Hne]%map_lookup_filter_Some. by apply Hne.
Qed.

(** ** A fire that is left alone *)

Lemma fire_step_gone sid w : sessions w !! sid = None → fire_step sid w = w.
Proof. unfold fire_step. by intros ->. Qed.

Lemma held_by_none sid w : server_ok w → sessions w !! sid = None → filter (fun kv => snd kv ≠ sid) (held w) = held w.
Proof.
  intros Hw Hs. apply map_filter_id. intros k x Hk. simpl. intros ->. destruct (so_lock w Hw k sid Hk) as (p & Hp & _). congruence.
Qed.

(** The end of a fire that holds its lock, after what it did to the tables. *)
Lemma fire_ends sid n d w :
  server_ok w → sessions w !! sid = None → held w !! lock_key n = None →
  fire_step sid (mkServer d (clock w) (<[lock_key n := sid]> (held w)) (<[sid := Unlock n]> (sessions w))) = mkServer d (clock w) (held w) (sessions w).
Proof.
  intros Hw Hs Hk. unfold fire_step. simpl. rewrite lookup_insert_eq. unfold close. simpl.
  rewrite delete_insert_eq, delete_insert_id by done. by rewrite delete_id, held_by_none.
Qed.

Lemma server_eta w : mkServer (db w) (clock w) (held w) (sessions w) = w.
Proof. by destruct w. Qed.

Lemma fire_busy sid n w sid' : server_ok w → sessions w !! sid = None → held w !! lock_key n = Some sid' → fire sid n w = w.
Proof.
  intros Hw Hs Hk. unfold fire. simpl. set (w0 := set_phase sid (TryLock n) w).
  assert (E : fire_step sid w0 = w).
  { unfold fire_step, w0, set_phase. simpl. rewrite lookup_insert_eq, Hk. unfold close. simpl.
    rewrite delete_insert_id, held_by_none by done. apply server_eta. }
  by rewrite E, !(fire_step_gone sid w Hs).
Qed.

(** The tables after an undisturbed fire. *)
Definition fired_once (n : string) (w : Server) : SchedulerDb :=
  match schedules (db w) !! n with
  | Some r => if due_row (clock w) r then fire_commit n r (clock w) (db w) else db w
  | None => db w
  end.

Lemma fire_free sid n w :
  server_ok w → sessions w !! sid = None → held w !! lock_key n = None →
  fire sid n w = mkServer (fired_once n w) (clock w) (held w) (sessions w).
Proof.
  intros Hw Hs Hk. unfold fire. simpl.
  set (in_ p d := mkServer d (clock w) (<[lock_key n := sid]> (held w)) (<[sid := p]> (sessions w))).
  assert (E1 : fire_step sid (set_phase sid (TryLock n) w) = in_ (Recheck n) (db w)).
  { unfold fire_step, set_phase. simpl. rewrite lookup_insert_eq, Hk. simpl. by rewrite insert_insert_eq. }
  assert (Hin : ∀ p p' d, set_phase sid p (in_ p' d) = in_ p d) by (intros; unfold set_phase, in_; simpl; by rewrite insert_insert_eq).
  assert (Hend : ∀ d, fire_step sid (in_ (Unlock n) d) = mkServer d (clock w) (held w) (sessions w)) by (intros; by apply fire_ends).
  assert (E2 : fire_step sid (in_ (Recheck n) (db w)) =
               match schedules (db w) !! n with
               | Some r => if due_row (clock w) r then in_ (Begin n r (clock w)) (db w) else in_ (Unlock n) (db w)
               | None => in_ (Unlock n) (db w)
               end).
  { unfold fire_step. simpl. rewrite lookup_insert_eq. destruct (schedules (db w) !! n) as [r|]; [destruct (due_row (clock w) r)|]; apply Hin. }
  rewrite E1, E2. unfold fired_once. destruct (schedules (db w) !! n) as [r|]; [destruct (due_row (clock w) r)|].
  - assert (E3 : fire_step sid (in_ (Begin n r (clock w)) (db w)) = in_ (Commit n r (clock w) (clock w)) (db w)).
    { unfold fire_step. simpl. rewrite lookup_insert_eq. apply Hin. }
    assert (E4 : fire_step sid (in_ (Commit n r (clock w) (clock w)) (db w)) = in_ (Unlock n) (fire_commit n r (clock w) (db w))).
    { unfold fire_step. simpl. rewrite lookup_insert_eq. unfold set_phase, in_. simpl. by rewrite insert_insert_eq. }
    by rewrite E3, E4, Hend.
  - by rewrite Hend, !(fire_step_gone sid (mkServer (db w) (clock w) (held w) (sessions w)) Hs).
  - by rewrite Hend, !(fire_step_gone sid (mkServer (db w) (clock w) (held w) (sessions w)) Hs).
Qed.

(** A fire that is left alone does what is due and nothing else.  With the lock of
    the schedule taken it changes nothing; with the lock free and the schedule not due,
    or deleted, it changes nothing; with it due it appends exactly one event and moves
    the schedule to now, so that it is not due any more; and every lock and session is
    as it was. *)
Theorem fire_decided z w sid n :
  rtc step (start z) w → sessions w !! sid = None →
  let w' := fire sid n w in
  held w' = held w ∧ sessions w' = sessions w ∧ clock w' = clock w ∧
  (is_Some (held w !! lock_key n) → db w' = db w) ∧
  (held w !! lock_key n = None → n ∉ due_schedules (clock w) (db w) → db w' = db w) ∧
  (held w !! lock_key n = None → n ∈ due_schedules (clock w) (db w) →
     (∃ e, fired (db w') = fired (db w) ++ [e] ∧ f_name e = n ∧ f_at e = clock w) ∧ n ∉ due_schedules (clock w') (db w')).
Proof.
  intros Hw%ok_reach Hs. cbv zeta.
  assert (Hdue : ∀ z d, n ∈ due_schedules z d ↔ ∃ r, schedules d !! n = Some r ∧ due_row z r = true).
  { intros z' d. unfold due_schedules. rewrite merge_sort_Permutation, list_elem_of_fmap. split.
    - intros ([n' r] & -> & Hin). apply list_elem_of_In, filter_In in Hin as [Hin E]. apply list_elem_of_In, elem_of_map_to_list in Hin. eauto.
    - intros (r & Hr & E). exists (n, r). split; [done|]. apply list_elem_of_In, filter_In. split; [by apply list_elem_of_In, elem_of_map_to_list|done]. }
  destruct (held w !! lock_key n) as [sid'|] eqn:Hk.
  { rewrite (fire_busy sid n w sid') by done. split_and!; done. }
  rewrite (fire_free sid n w) by done. simpl. split_and!; [done|done|done|by intros []| |].
  - intros _ Hn. unfold fired_once. destruct (schedules (db w) !! n) as [r|] eqn:Hr; [|done].
    destruct (due_row (clock w) r) eqn:Hd; [|done]. exfalso. apply Hn, Hdue. eauto.
  - intros _ (r & Hr & Hd)%Hdue. unfold fired_once. rewrite Hr, Hd. split; [by eexists|]. intros (r' & Hr' & Hd')%Hdue.
    simpl in Hr'. rewrite lookup_alter_eq, Hr in Hr'. injection Hr' as <-. unfold due_row in *. simpl in *.
    rewrite !andb_true_iff, !Z.leb_le in *. unfold MICROS in *. lia.
Qed.

(** ** The rotation *)

(** The names in a circle, from a place on. *)
Definition circle (names : list string) (start k : nat) : list string :=
  (fun j => names !!! ((start + j) `mod` length names)%nat) <$> seq 0 k.

Lemma circle_app names start k k' : circle names start k ++ circle names (start + k) k' = circle names start (k + k').
Proof.
  unfold circle. rewrite seq_app, fmap_app. f_equal. rewrite (Nat.add_comm 0 k), <- (fmap_add_seq k 0 k'), <- list_fmap_compose.
  apply list_fmap_ext. intros i x _. simpl. f_equal. f_equal. lia.
Qed.

Lemma circle_mod names start k : names ≠ [] → circle names (start `mod` length names) k = circle names start k.
Proof.
  intros Hn. assert (length names ≠ 0%nat) by (by destruct names). unfold circle. apply list_fmap_ext. intros i x _. f_equal.
  by rewrite Nat.Div0.add_mod_idemp_l.
Qed.

Lemma circle_take names start k k' : (k ≤ k')%nat → take k (circle names start k') = circle names start k.
Proof. intros Hk. unfold circle. rewrite <- fmap_take, take_seq. by rewrite Nat.min_l. Qed.

Lemma circle_last names start k :
  last (circle names start (S k)) = Some (names !!! ((start + k) `mod` length names)%nat).
Proof. unfold circle. rewrite seq_S, fmap_app. simpl. by rewrite last_snoc. Qed.

Lemma circle_all names start k n : (length names ≤ k)%nat → n ∈ names → n ∈ circle names start k.
Proof.
  intros Hk Hn. apply list_elem_of_lookup in Hn as [m Hm]. pose proof (lookup_lt_Some _ _ _ Hm) as Hlt. set (l := length names) in *.
  apply list_elem_of_fmap. exists ((m + l - start `mod` l) `mod` l)%nat. pose proof (Nat.mod_upper_bound start l ltac:(lia)) as Hs.
  pose proof (Nat.mod_upper_bound (m + l - start `mod` l) l ltac:(lia)) as Hj. split.
  - symmetry. apply list_lookup_total_correct. fold l. rewrite Nat.Div0.add_mod_idemp_r.
    rewrite <- (Nat.Div0.add_mod_idemp_l start). replace (start `mod` l + (m + l - start `mod` l))%nat with (m + 1 * l)%nat by lia.
    rewrite Nat.Div0.mod_add, Nat.mod_small by done. done.
  - apply elem_of_seq. lia.
Qed.

(** Where a strictly sorted list passes one of its own names. *)
Lemma partition_at names m n :
  StronglySorted String.le names → NoDup names → names !! m = Some n → partition_point (fun x => String.leb x n) names = S m.
Proof.
  intros Hs. revert m. induction Hs as [|x l Hs IH Hx]; intros m Hd Hm; [done|]. apply NoDup_cons in Hd as [Hxl Hd]. destruct m as [|m]; simpl in *.
  - injection Hm as ->. assert (E : String.leb n n = true) by (apply Is_true_true, (reflexivity n : String.le n n)). rewrite E. f_equal.
    destruct l as [|y l]; [done|]. simpl. destruct (String.leb y n) eqn:Ey; [|done]. exfalso. apply Hxl.
    apply Forall_cons in Hx as [Hx _]. assert (n = y) as -> by (apply (anti_symm String.le); [done|by apply Is_true_true]). left.
  - assert (E : String.leb x n = true). { apply Is_true_true. rewrite Forall_forall in Hx. apply Hx. by eapply list_elem_of_lookup_2. }
    rewrite E. f_equal. by apply IH.
Qed.

Lemma rotation_next names m n :
  StronglySorted String.le names → NoDup names → names !! m = Some n → rotation_start names (Some n) = (S m `mod` length names)%nat.
Proof.
  intros Hs Hd Hm. pose proof (lookup_lt_Some _ _ _ Hm) as Hlt. unfold rotation_start. rewrite bool_decide_eq_false_2 by (by intros ->).
  simpl. rewrite (partition_at names m n) by done. case_bool_decide as E; [by rewrite E, Nat.Div0.mod_same|rewrite Nat.mod_small by lia; done].
Qed.

(** ** Ticks *)

Section Fairness.
Context {S : Type}.

(** What a run of attempts has tried is a prefix, and the cursor is its last name. *)
Lemma attempts_prefix (env : TickEnv (S := S)) i names p :
  ∃ k, attempted (attempts env i names p) = attempted p ++ take k names ∧ (k ≤ length names)%nat ∧
    cursor (attempts env i names p) = (if k is 0%nat then cursor p else last (take k names)) ∧
    (stopping env i = false → remaining_ms env i ≠ 0 → names ≠ [] → (1 ≤ k)%nat).
Proof.
  revert i p. induction names as [|n names IH]; intros i p; cbn [attempts].
  { exists 0%nat. rewrite app_nil_r. split_and!; [done|done|done|done]. }
  destruct (stopping env i) eqn:Es; [exists 0%nat; rewrite app_nil_r; split_and!; [done|simpl; lia|done|done]|].
  destruct (Z.eqb_spec (remaining_ms env i) 0) as [Er|Er]; [exists 0%nat; simpl; rewrite app_nil_r; split_and!; [done|lia|done|done]|].
  destruct (fire_at env i n (state p)) as [s' r]. match goal with |- context [attempts env _ names ?q] => destruct (IH (Datatypes.S i) q) as (k & Ha & Hk & Hc & _) end.
  exists (Datatypes.S k). rewrite Ha, Hc. simpl. rewrite <- app_assoc. simpl. split_and!; [done|lia| |lia].
  destruct k as [|k]; [done|]. destruct names as [|n' names]; [simpl in Hk; lia|]. done.
Qed.

(** The ticks of a loop that keeps finding the same schedules due. *)
Fixpoint run_ticks (envs : list (TickEnv (S := S))) (names : list string) (c : option string) (s : S) : list string :=
  match envs with
  | [] => []
  | env :: rest => let p := fst (tick env (Ok names) c s) in attempted p ++ run_ticks rest names (cursor p) (state p)
  end.

Lemma rotated_circle names c : rotated names c = circle names (rotation_start names c) (length names).
Proof. done. Qed.

Lemma run_ticks_circle envs names c s :
  StronglySorted String.le names → NoDup names → names ≠ [] →
  Forall (fun env => stopping env 0 = false ∧ remaining_ms env 0 ≠ 0) envs →
  ∃ k, run_ticks envs names c s = circle names (rotation_start names c) k ∧ (length envs ≤ k)%nat.
Proof.
  intros Hs Hd Hne Henv. revert c s. induction Henv as [|env envs [Hst Hrem] _ IH]; intros c s; [by exists 0%nat|].
  cbn [run_ticks tick fst].
  destruct (attempts_prefix env 0 (rotated names c) (mkProgress s c [] 0)) as (k & Ha & Hk & Hc & Hpos).
  cbn [attempted app] in Ha.
  assert (Hlen : length (rotated names c) = length names) by (rewrite rotated_circle; unfold circle; by rewrite length_fmap, length_seq).
  assert (Hk1 : (1 ≤ k)%nat). { apply Hpos; [done|done|]. intros E. rewrite E in Hlen. by destruct names. }
  rewrite Hlen in Hk. rewrite rotated_circle, circle_take in Ha by done. rewrite rotated_circle, circle_take in Hc by done.
  set (p := attempts _ _ _ _) in *. destruct k as [|k]; [lia|]. rewrite circle_last in Hc.
  destruct (IH (cursor p) (state p)) as (k' & E & Hk'). rewrite Ha, E. exists (Datatypes.S k + k')%nat. split; [|simpl; lia].
  rewrite <- circle_app. f_equal. rewrite Hc. set (m := ((rotation_start names c + k) `mod` length names)%nat).
  assert (Hm : (m < length names)%nat) by (apply Nat.mod_upper_bound; by destruct names).
  rewrite (rotation_next names m) by (try done; by apply list_lookup_lookup_total_lt).
  rewrite circle_mod by done. rewrite <- (circle_mod names (_ + _)) by done. rewrite <- (circle_mod names (Datatypes.S m)) by done. f_equal.
  unfold m. rewrite <- Nat.add_1_r, Nat.Div0.add_mod_idemp_l. f_equal. lia.
Qed.

(** C23: no due schedule is starved.  However early the budget of each tick runs out -
    as long as a tick attempts anything - as many ticks as there are due schedules
    attempt every one of them, whatever the attempts do and whichever fail, wherever
    the rotation stood before. *)
Theorem no_schedule_starved envs names c s n :
  StronglySorted String.le names → NoDup names →
  Forall (fun env => stopping env 0 = false ∧ remaining_ms env 0 ≠ 0) envs → (length names ≤ length envs)%nat →
  n ∈ names → n ∈ run_ticks envs names c s.
Proof.
  intros Hs Hd Henv Hlen Hn. destruct (run_ticks_circle envs names c s Hs Hd) as (k & -> & Hk); [by destruct names; [apply not_elem_of_nil in Hn|]|done|].
  apply circle_all; [lia|done].
Qed.
End Fairness.

(** What the scan answers fits. *)
Lemma due_sorted z d : StronglySorted String.le (due_schedules z d) ∧ NoDup (due_schedules z d).
Proof.
  unfold due_schedules. split; [apply StronglySorted_merge_sort; apply _|]. rewrite merge_sort_Permutation.
  apply NoDup_keys_filter, NoDup_fst_map_to_list.
Qed.

(** Two replicas fire a schedule of one second. *)
Module SchedulerExample.

Lemma reach_fire sid n w : sessions w !! sid = None → rtc step w (fire sid n w).
Proof.
  intros Hs. assert (Hf : ∀ v, rtc step v (fire_step sid v)).
  { intros v. destruct (sessions v !! sid) eqn:E; [apply rtc_once, st_session; eauto|by rewrite fire_step_gone]. }
  eapply rtc_l; [by apply st_connect|]. unfold fire. simpl. do 5 (etrans; [|apply Hf]). done.
Qed.

Definition table : SchedulerDb := mkScheduler {["prune" := mkSchedule 1 0 0]} [] 1.
Definition begun : Server := mkServer table (2 * MICROS) ∅ ∅.
Definition once : Server := fire 1 "prune" begun.
Definition later : Server := mkServer (db once) (5 * MICROS) (held once) (sessions once).
Definition twice : Server := fire 2 "prune" later.

Lemma reach_begun : rtc step (start 0) begun.
Proof.
  eapply rtc_l; [exact (st_insert (start 0) "prune" 1 table eq_refl)|]. apply rtc_once, (st_time (mkServer table 0 ∅ ∅) (2 * MICROS)). vm_compute. done.
Qed.

Lemma reach_once : rtc step (start 0) once.
Proof. exact (transitivity reach_begun (reach_fire 1 "prune" begun eq_refl)). Qed.

Lemma reach_later : rtc step (start 0) later.
Proof. refine (rtc_r _ _ _ reach_once (st_time once (5 * MICROS) _)). vm_compute. discriminate. Qed.

Lemma later_free sid : sid = 2%nat → sessions later !! sid = None.
Proof. intros ->. vm_compute. reflexivity. Qed.

Lemma reach_twice : rtc step (start 0) twice.
Proof. exact (transitivity reach_later (reach_fire 2 "prune" later (later_free 2 eq_refl))). Qed.

Lemma fires_spaced_witness : 1 * MICROS ≤ 5 * MICROS - 2 * MICROS ∧ length (fired (db twice)) = 2%nat.
Proof.
  split; [|vm_compute; reflexivity].
  apply (fires_spaced 0 twice 0 1 (mkFired "prune" (2 * MICROS) 1 0) (mkFired "prune" (5 * MICROS) 1 0));
    [exact reach_twice|vm_compute; reflexivity|vm_compute; reflexivity|lia|done|done].
Defined.

(** A replica that dies in its critical section holds nothing. *)
Definition firing : Server := fire_step 3 (set_phase 3 (TryLock "prune") twice).

Lemma reach_firing : rtc step (start 0) firing.
Proof.
  assert (Hs : sessions twice !! 3%nat = None) by (vm_compute; reflexivity).
  eapply rtc_r; [exact (rtc_r _ _ _ reach_twice (st_connect twice 3 "prune" Hs))|].
  refine (st_session (set_phase 3 (TryLock "prune") twice) 3 _). cbn [set_phase sessions]. rewrite lookup_insert_eq. by eexists.
Qed.

Lemma locks_freed_witness : held firing !! lock_key "prune" = Some 3%nat ∧ held (close 3 firing) !! lock_key "prune" ≠ Some 3%nat.
Proof. split; [vm_compute; reflexivity|]. exact (proj2 (proj2 (locks_freed 0 firing reach_firing)) 3%nat (lock_key "prune")). Defined.

Lemma fire_decided_witness : held twice = held later ∧ sessions twice = sessions later.
Proof.
  pose proof (fire_decided 0 later 2 "prune" reach_later (later_free 2 eq_refl)) as Hd. cbv zeta in Hd.
  exact (conj (proj1 Hd) (proj1 (proj2 Hd))).
Defined.

(** Ticks that manage one attempt each. *)
Definition tight : TickEnv := mkTickEnv (fun _ => false) (fun i => if Nat.eqb i 0 then 10 else 0) (fun _ _ (s : unit) => (s, Err "refused")).

Lemma no_schedule_starved_witness : "b" ∈ run_ticks [tight; tight; tight] ["a"; "b"; "c"] (Some "b") ().
Proof.
  apply no_schedule_starved; [repeat first [apply SSorted_cons|apply SSorted_nil|apply Forall_cons; split|apply Forall_nil|done]|repeat first [apply NoDup_cons; split; [set_solver|]|apply NoDup_nil_2]|repeat (apply Forall_cons; split; [done|]); done|simpl; lia|set_solver].
Defined.
End SchedulerExample.
