(* ===== verification/Mail.v ===== *)
(** * Mail: the outbound mail outbox

    [modules/mail/src].  A durable request becomes a row of [mail.outbox] under its
    idempotency key; the drain of each replica claims due rows one at a time, hands them
    to a relay and writes the outcome back under a compare-and-set; an operator requeues
    parked rows and cancels pending ones; a scheduled prune deletes what is settled.

    Statements run against what is committed ([Txn]).  The relay is a party of its own:
    what it has accepted is [relayed], and a call can be accepted with its answer lost.
    Besides the table the state carries what was asked under each id ever drawn and
    which ids an operator cancelled; no statement reads them.  Instants are microseconds,
    durations nanoseconds. *)

From Stdlib Require Import Ascii.
From stdpp Require Import sorting pretty.
From S2P Require Import Prelude Text OpsApi Pg Prune Directory Txn.
From S2P Require Scheduler.
#[local] Open Scope Z_scope.

Definition MAX_ADDRESS_BYTES : nat := 320.
Definition MAX_SUBJECT_BYTES : nat := 200.
Definition MAX_BODY_BYTES : N := 65536.
Definition MAX_KIND_BYTES : nat := 64.
Definition MAX_IDEMPOTENCY_KEY_BYTES : nat := 128.

Definition STATE_SENT : string := "sent".
Definition STATE_PENDING : string := "pending".
Definition STATE_PARKED : string := "parked".
Definition STATE_CANCELLED : string := "cancelled".
Definition STATES : list string := [STATE_PENDING; STATE_SENT; STATE_PARKED; STATE_CANCELLED].

(** ** The table *)

Record Mail := mkMail {
  idempotency_key : string; recipient : string; subject : string; body : string; kind : string;
  state : string; attempts : Z; generation : Z; next_attempt_at : Z;
  last_error : option string; provider : option string; sent_at : option Z; created_at : Z; updated_at : Z;
}.

Record NewMail := mkNewMail { n_key : string; n_recipient : string; n_subject : string; n_body : string; n_kind : string }.

#[global] Instance NewMail_eq_dec : EqDecision NewMail.
Proof. solve_decision. Defined.
#[global] Instance Mail_eq_dec : EqDecision Mail.
Proof. solve_decision. Defined.

Record Outgoing := mkOutgoing { o_from : string; o_to : string; o_subject : string; o_body : string; o_kind : string }.

(** A message the relay took: for which row and claim, and what it said. *)
Record Relayed := mkRelayed { rl_id : string; rl_generation : Z; rl_message : Outgoing }.

Record MailDb := mkMailDb {
  outbox : gmap string Mail;
  relayed : list Relayed;
  asked : gmap string NewMail;
  withdrawn : gset string;
}.

Definition empty_mail : MailDb := mkMailDb ∅ [] ∅ ∅.
Definition set_outbox (f : gmap string Mail → gmap string Mail) (d : MailDb) : MailDb :=
  mkMailDb (f (outbox d)) (relayed d) (asked d) (withdrawn d).

Abbreviation Sql := (ST MailDb SqlError).

(** ** Column caps ([store.rs]) *)

Record ColumnCap := mkCap { what : string; max_bytes : N; constraint : string }.

Definition byte_len (s : string) : N := N.of_nat (String.length s).

Definition RECIPIENT : ColumnCap := mkCap "recipient" (N.of_nat MAX_ADDRESS_BYTES) "mail_outbox_recipient_len_check".
Definition SUBJECT : ColumnCap := mkCap "subject" (N.of_nat MAX_SUBJECT_BYTES) "mail_outbox_subject_len_check".
Definition BODY : ColumnCap := mkCap "body" MAX_BODY_BYTES "mail_outbox_body_len_check".
Definition KIND : ColumnCap := mkCap "kind" (N.of_nat MAX_KIND_BYTES) "mail_outbox_kind_len_check".
Definition IDEMPOTENCY_KEY : ColumnCap := mkCap "idempotency_key" (N.of_nat MAX_IDEMPOTENCY_KEY_BYTES) "mail_outbox_key_len_check".
Definition COLUMN_CAPS : list ColumnCap := [RECIPIENT; SUBJECT; BODY; KIND; IDEMPOTENCY_KEY].

(** [ColumnCap::check]. *)
Definition cap_check (cap : ColumnCap) (value : string) : result Error unit :=
  if (max_bytes cap <? byte_len value)%N then Err (mkError Invalid ("mail: " +:+ what cap +:+ " exceeds the byte cap")) else Ok ().

Definition cap_from_db_error (e : SqlError) : option ColumnCap :=
  match e with
  | CheckViolation c => List.find (fun cap => bool_decide (constraint cap = c)) COLUMN_CAPS
  | _ => None
  end.

(** The length checks of the table, in the order it declares them. *)
Definition SCHEMA_CHECKS (m : NewMail) : list (string * bool) :=
  [("mail_outbox_recipient_len_check", byte_len (n_recipient m) <=? 320); ("mail_outbox_subject_len_check", byte_len (n_subject m) <=? 200);
   ("mail_outbox_body_len_check", byte_len (n_body m) <=? 65536); ("mail_outbox_kind_len_check", byte_len (n_kind m) <=? 64);
   ("mail_outbox_key_len_check", byte_len (n_key m) <=? 128)]%N.

Definition check_columns (m : NewMail) : Sql unit :=
  match List.find (fun cv => negb (snd cv)) (SCHEMA_CHECKS m) with
  | Some (c, _) => fail (CheckViolation c)
  | None => mret ()
  end.

(** [str::is_char_boundary] inside a text: not at a continuation byte. *)
Definition is_char_boundary (l : bytes) (i : nat) : bool :=
  match l !! i with Some c => negb ((128 <=? code c) && (code c <=? 191))%nat | None => bool_decide (i = length l) end.

Fixpoint boundary_before (l : bytes) (end_ : nat) : nat :=
  if is_char_boundary l end_ then end_ else match end_ with O => O | S e => boundary_before l e end.

Definition LAST_ERROR_MAX_BYTES : nat := 1000.

Definition truncate_error (value : string) : string :=
  if (String.length value <=? LAST_ERROR_MAX_BYTES)%nat then value
  else of_bytes (take (boundary_before (to_bytes value) LAST_ERROR_MAX_BYTES) (to_bytes value)) +:+ "…".

(** ** Addresses and the input policy ([address.rs], [service.rs]) *)

(** [char::is_control] of some character of the text. *)
Fixpoint has_control (l : bytes) : bool :=
  match l with
  | [] => false
  | a :: l' =>
      (code a <? 32)%nat || (code a =? 127)%nat
      || (code a =? 194)%nat && (match l' with b :: _ => (128 <=? code b)%nat && (code b <=? 159)%nat | [] => false end)
      || has_control l'
  end.

(** [char::is_whitespace] of some character of the text. *)
Fixpoint has_whitespace (l : bytes) : bool :=
  match l with [] => false | _ :: l' => bool_decide (is_Some (strip_ws l)) || has_whitespace l' end.

(** What the module uses of the mail library: its address parser, its message builder
    and its transport, which says of an error whether it is permanent. *)
Class Lettre := {
  Address : Type;
  address_from_str : string → result string Address;
  address_domain : Address → string;
  relay_builds : string → bool → result string unit;
  message_builds : Address → Address → string → string → result string unit;
  transport_send : nat → Address → Address → string → string → result (bool * string) unit;
}.

Section Policy.
Context `{Lettre}.

Definition parse_address (value : string) : result string Address :=
  if str_is_empty (trim value) then Err "is required" else
  if (N.of_nat MAX_ADDRESS_BYTES <? byte_len value)%N then Err "exceeds 320 bytes" else
  if has_control (to_bytes value) then Err "must not contain control characters" else
  map_err (fun e => "is not a routable address: " +:+ e) (address_from_str value).

Definition validate_new (m : NewMail) : result Error unit :=
  if str_is_empty (trim (n_key m)) then Err (mkError Invalid "mail: idempotency_key is required") else
  _ ← cap_check IDEMPOTENCY_KEY (n_key m);
  _ ← map_err (fun reason => mkError Invalid ("mail: recipient " +:+ reason)) (parse_address (n_recipient m));
  _ ← cap_check SUBJECT (n_subject m);
  if has_control (to_bytes (n_subject m)) then Err (mkError Invalid "mail: subject must not contain control characters") else
  _ ← cap_check BODY (n_body m);
  if str_is_empty (trim (n_kind m)) then Err (mkError Invalid "mail: kind is required") else
  cap_check KIND (n_kind m).
End Policy.

(** ** Statements ([store.rs]) *)

Inductive Enqueued := Inserted (id : string) | Duplicate | Conflict.

Record ExistingMail := mkExisting { e_recipient : string; e_subject : string; e_body : string; e_kind : string; e_state : string }.

Definition body_is_comparable (st : string) : bool := negb (bool_decide (st = STATE_SENT)).

Definition classify_existing (m : NewMail) (existing : ExistingMail) : Enqueued :=
  if bool_decide (n_recipient m = e_recipient existing) && bool_decide (n_subject m = e_subject existing)
     && bool_decide (n_kind m = e_kind existing)
     && (negb (body_is_comparable (e_state existing)) || bool_decide (n_body m = e_body existing))
  then Duplicate else Conflict.

(** The row holding a key. *)
Definition key_row (key : string) (o : gmap string Mail) : option (string * Mail) :=
  head (List.filter (fun kv => bool_decide (idempotency_key (snd kv) = key)) (map_to_list o)).

Definition new_row (now : Z) (m : NewMail) : Mail :=
  mkMail (n_key m) (n_recipient m) (n_subject m) (n_body m) (n_kind m) STATE_PENDING 0 0 now None None None now now.

(** [INSERT … ON CONFLICT (idempotency_key) DO NOTHING RETURNING id]; [fresh] is the
    uuid the default draws, which has never been drawn before. *)
Definition insert_outbox_tx (now : Z) (fresh : string) (m : NewMail) : Sql (option string) :=
  bind_text [n_key m; n_recipient m; n_subject m; n_body m; n_kind m];;
  check_columns m;;
  o ← gets outbox;
  match key_row (n_key m) o with
  | Some _ => mret None
  | None =>
      a ← gets asked;
      if bool_decide (is_Some (a !! fresh)) then fail UniqueViolation else
      modify (fun d => mkMailDb (<[fresh := new_row now m]> (outbox d)) (relayed d) (<[fresh := m]> (asked d)) (withdrawn d));;
      mret (Some fresh)
  end.

Definition existing_tx (key : string) : Sql (option ExistingMail) :=
  bind_text [key];;
  gets (fun d => (fun kv => let r := snd kv in mkExisting (recipient r) (subject r) (body r) (kind r) (state r)) <$> key_row key (outbox d)).

Record Claimed := mkClaimed {
  c_id : string; c_recipient : string; c_subject : string; c_body : string; c_kind : string; c_attempts : Z; c_generation : Z;
}.

Inductive Disposition :=
| Sent
| Parked (error : string)
| Retry (error : string) (backoff_us : Z).

Definition due_before (a b : string * Mail) : Prop := next_attempt_at (snd a) ≤ next_attempt_at (snd b).

#[global] Instance due_before_dec : RelDecision due_before.
Proof. intros a b. unfold due_before. apply _. Defined.

(** The pending rows whose time has come and that no other transaction holds. *)
Definition due_rows (now : Z) (held : string → bool) (o : gmap string Mail) : list (string * Mail) :=
  List.filter (fun kv => bool_decide (state (snd kv) = STATE_PENDING) && (next_attempt_at (snd kv) <=? now) && negb (held (fst kv)))
    (map_to_list o).

(** The claim of a row: an attempt is burnt and the row is due again after the lease. *)
Definition claimed_row (now lease : Z) (r : Mail) : Mail :=
  mkMail (idempotency_key r) (recipient r) (subject r) (body r) (kind r) (state r) (attempts r + 1) (generation r + 1)
    (now + lease) (last_error r) (provider r) (sent_at r) (created_at r) now.

Definition claim_of (id : string) (r : Mail) : Claimed :=
  mkClaimed id (recipient r) (subject r) (body r) (kind r) (attempts r) (generation r).

(** [claim_due_tx]; an [int] column beyond its range is an error. *)
Definition claim_due_tx (now lease : Z) (held : string → bool) : Sql (option Claimed) :=
  o ← gets outbox;
  match head (merge_sort due_before (due_rows now held o)) with
  | None => mret None
  | Some (id, r) =>
      if (i32_max <=? attempts r) || (i32_max <=? generation r) then fail OtherSqlError else
      modify (set_outbox (insert id (claimed_row now lease r)));;
      mret (Some (claim_of id (claimed_row now lease r)))
  end.

(** The write each disposition stands for. *)
Definition settled_row (now : Z) (disp : Disposition) (prov : string) (r : Mail) : Mail :=
  match disp with
  | Sent =>
      mkMail (idempotency_key r) (recipient r) (subject r) "" (kind r) STATE_SENT (attempts r) (generation r)
        (next_attempt_at r) None (Some prov) (Some now) (created_at r) now
  | Parked e =>
      mkMail (idempotency_key r) (recipient r) (subject r) (body r) (kind r) STATE_PARKED (attempts r) (generation r)
        (next_attempt_at r) (Some e) (Some prov) (sent_at r) (created_at r) now
  | Retry e backoff =>
      mkMail (idempotency_key r) (recipient r) (subject r) (body r) (kind r) (state r) (attempts r) (generation r)
        (now + backoff) (Some e) (Some prov) (sent_at r) (created_at r) now
  end.

(** The row an attempt may still write: pending, and claimed by nobody since. *)
Definition still_claimed (row : Claimed) (o : gmap string Mail) : option Mail :=
  match o !! c_id row with
  | Some r => if bool_decide (state r = STATE_PENDING) && (generation r =? c_generation row) then Some r else None
  | None => None
  end.

(** [finish_tx]: the rows matched. *)
Definition finish_tx (now : Z) (row : Claimed) (disp : Disposition) (prov : string) : Sql Z :=
  o ← gets outbox;
  match still_claimed row o with
  | Some r => modify (set_outbox (insert (c_id row) (settled_row now disp prov r)));; mret 1
  | None => mret 0
  end.

Definition count_rows (f : Mail → bool) (o : gmap string Mail) : Z := Z.of_nat (size (filter (fun kv => f (snd kv) = true) o)).
Definition in_state (st : string) (r : Mail) : bool := bool_decide (state r = st).

(** [COALESCE(GREATEST(0, now() - min(next_attempt_at)), 0)] over the pending rows. *)
Definition overdue (now : Z) (o : gmap string Mail) : Z :=
  map_fold (fun _ r acc => if in_state STATE_PENDING r then Z.max acc (now - next_attempt_at r) else acc) 0 o.

Record OutboxGauges := mkGauges { g_parked : Z; g_overdue : Z }.
Definition gauges_tx (now : Z) : Sql OutboxGauges :=
  gets (fun d => mkGauges (count_rows (in_state STATE_PARKED) (outbox d)) (overdue now (outbox d))).

Definition DAY_US : Z := 86400 * 1000000.

Record OutboxStats := mkStats { s_pending : Z; s_parked : Z; s_sent_24h : Z; s_overdue : Z }.
Definition stats_tx (now : Z) : Sql OutboxStats :=
  gets (fun d => mkStats (count_rows (in_state STATE_PENDING) (outbox d)) (count_rows (in_state STATE_PARKED) (outbox d))
    (count_rows (fun r => in_state STATE_SENT r && match sent_at r with Some z => now - DAY_US <=? z | None => false end) (outbox d))
    (overdue now (outbox d))).

(** A listed row: the body is not among its columns. *)
Record OutboxListRow := mkListRow {
  l_id : string; l_created_at : Z; l_recipient : string; l_kind : string; l_state : string; l_attempts : Z; l_last_error : string;
}.

Definition newer (a b : string * Mail) : Prop :=
  created_at (snd b) < created_at (snd a) ∨ (created_at (snd a) = created_at (snd b) ∧ String.le (fst b) (fst a)).

#[global] Instance newer_dec : RelDecision newer.
Proof. intros a b. unfold newer. apply _. Defined.

Definition list_row (kv : string * Mail) : OutboxListRow :=
  let r := snd kv in mkListRow (fst kv) (created_at r) (recipient r) (kind r) (state r) (attempts r) (default "" (last_error r)).

Definition recent_tx (st : option string) (limit : nat) : Sql (list OutboxListRow) :=
  gets (fun d => list_row <$> take limit (merge_sort newer
    (List.filter (fun kv => match st with Some x => in_state x (snd kv) | None => true end) (map_to_list (outbox d))))).

(** A parked row handed back to the drain. *)
Definition requeued_row (now : Z) (r : Mail) : Mail :=
  mkMail (idempotency_key r) (recipient r) (subject r) (body r) (kind r) STATE_PENDING 0 (generation r + 1)
    now (last_error r) (provider r) (sent_at r) (created_at r) now.

Definition cancelled_row (now : Z) (r : Mail) : Mail :=
  mkMail (idempotency_key r) (recipient r) (subject r) (body r) (kind r) STATE_CANCELLED (attempts r) (generation r)
    (next_attempt_at r) (last_error r) (provider r) (sent_at r) (created_at r) now.

Definition oldest (a b : string * Mail) : Prop := created_at (snd a) ≤ created_at (snd b).

#[global] Instance oldest_dec : RelDecision oldest.
Proof. intros a b. unfold oldest. apply _. Defined.

Definition parked_batch (limit : nat) (held : string → bool) (o : gmap string Mail) : list (string * Mail) :=
  take limit (merge_sort oldest (List.filter (fun kv => in_state STATE_PARKED (snd kv) && negb (held (fst kv))) (map_to_list o))).

Definition requeue_all (now : Z) (l : list (string * Mail)) (o : gmap string Mail) : gmap string Mail :=
  foldr (fun kv o => <[fst kv := requeued_row now (snd kv)]> o) o l.

Definition requeue_all_parked_tx (now : Z) (limit : nat) (held : string → bool) : Sql (Z * Z) :=
  o ← gets outbox;
  let batch := parked_batch limit held o in
  if existsb (fun kv => i32_max <=? generation (snd kv)) batch then fail OtherSqlError else
  modify (set_outbox (requeue_all now batch));;
  still ← gets (fun d => count_rows (in_state STATE_PARKED) (outbox d));
  mret (Z.of_nat (length batch), still).

Section Operator.
Context `{PgUuid}.

Definition requeue_parked_tx (now : Z) (id : string) : Sql Z :=
  bind_text [id];;
  u ← cast_uuid id;
  o ← gets outbox;
  match o !! u with
  | Some r =>
      if negb (in_state STATE_PARKED r) then mret 0 else
      if i32_max <=? generation r then fail OtherSqlError else
      modify (set_outbox (insert u (requeued_row now r)));; mret 1
  | None => mret 0
  end.

Definition cancel_pending_tx (now : Z) (id : string) : Sql Z :=
  bind_text [id];;
  u ← cast_uuid id;
  o ← gets outbox;
  match o !! u with
  | Some r =>
      if negb (in_state STATE_PENDING r) then mret 0 else
      modify (fun d => mkMailDb (<[u := cancelled_row now r]> (outbox d)) (relayed d) (asked d) ({[u]} ∪ withdrawn d));; mret 1
  | None => mret 0
  end.
End Operator.

(** ** Providers ([providers.rs], [smtp.rs]) *)

Inductive SendError := Rejected (detail : string) | Infra (detail : string).

(** [Display] of the error. *)
Definition send_error_text (e : SendError) : string :=
  match e with Rejected x => "message rejected: " +:+ x | Infra x => "mail provider unavailable: " +:+ x end.

(** The [Sender] face; the number is the moment of the call. *)
Record Sender := mkSender { sender_name : string; send : nat → Outgoing → result SendError unit }.

Inductive ProviderKind := LogKind | SmtpKind.
#[global] Instance ProviderKind_eq_dec : EqDecision ProviderKind.
Proof. solve_decision. Defined.

Definition LOG : string := "log".
Definition SMTP : string := "smtp".

Definition kind_from_name (name : string) : option ProviderKind :=
  if bool_decide (name = LOG) then Some LogKind else if bool_decide (name = SMTP) then Some SmtpKind else None.

Definition kind_name (k : ProviderKind) : string := match k with LogKind => LOG | SmtpKind => SMTP end.

Inductive TlsMode := StartTls | Implicit.

Definition tls_from_name (name : string) : option TlsMode :=
  if bool_decide (name = "starttls") then Some StartTls else if bool_decide (name = "implicit") then Some Implicit else None.

Record SmtpSettings := mkSmtp { host : string; port : Z; tls : TlsMode; credentials : option (string * string) }.

Inductive Provider := LogProvider | SmtpProvider (s : SmtpSettings).

Definition provider_kind (p : Provider) : ProviderKind := match p with LogProvider => LogKind | SmtpProvider _ => SmtpKind end.

Definition LogSender : Sender := mkSender LOG (fun _ _ => Ok ()).

Definition classify (permanent : bool) (detail : string) : SendError := if permanent then Rejected detail else Infra detail.

Section Smtp.
Context `{Lettre}.

Definition build_message (from : Address) (m : Outgoing) : result string (Address * Address * string * string) :=
  to ← map_err (fun reason => "recipient " +:+ reason) (parse_address (o_to m));
  _ ← message_builds from to (o_subject m) (o_body m);
  Ok (from, to, o_subject m, o_body m).

Definition smtp_send (from : Address) (t : nat) (m : Outgoing) : result SendError unit :=
  '(f, to, subj, bod) ← map_err Rejected (build_message from m);
  map_err (fun e => classify (fst e) (snd e)) (transport_send t f to subj bod).

(** [SmtpSender::new]. *)
Definition SmtpSender (settings : SmtpSettings) (from : string) : result string Sender :=
  f ← map_err (fun reason => "the envelope sender " +:+ reason) (parse_address from);
  _ ← relay_builds (host settings) (match tls settings with StartTls => true | Implicit => false end);
  Ok (mkSender SMTP (smtp_send f)).

(** [Provider::sender]. *)
Definition provider_sender (p : Provider) (from : string) : result string Sender :=
  match p with LogProvider => Ok LogSender | SmtpProvider s => SmtpSender s from end.
End Smtp.

(** ** Configuration ([config.rs]) *)

Definition NANOS : Z := 1000000000.
Definition MILLI : Z := 1000000.
Definition BACKOFF_MAX_SECS : Z := 300.
Definition DEFAULT_SEND_TIMEOUT_MS : Z := 10000.
Definition MAX_SEND_TIMEOUT_MS : Z := BACKOFF_MAX_SECS * 1000.
Definition DEFAULT_MAX_ATTEMPTS : Z := 20.
Definition MAX_MAX_ATTEMPTS : Z := 1000.
Definition DEFAULT_SMTP_PORT : Z := 587.
Definition DEFAULT_RETENTION_DAYS : Z := 30.
Definition MAX_RETENTION_DAYS : Z := 3650.

Definition SMTP_VARS : list string := ["MAIL_SMTP_HOST"; "MAIL_SMTP_PORT"; "MAIL_SMTP_USERNAME"; "MAIL_SMTP_PASSWORD"; "MAIL_SMTP_TLS"].
Definition MAIL_VARS : list string :=
  ["MAIL_PROVIDER"; "MAIL_FROM"; "MAIL_SEND_TIMEOUT_MS"; "MAIL_MAX_ATTEMPTS"] ++ SMTP_VARS ++ ["MAIL_RETENTION_DAYS"].

Abbreviation Vars := (gmap string string).

Record ProviderSettings := mkProviderSettings { ps_provider : Provider; ps_from : string }.

Record MailConfig := mkMailConfig {
  cfg_provider : option ProviderSettings; send_timeout : Z; max_attempts : Z; retention_days : Z;
}.

(** A whole number within bounds, or the default where the variable is unset; an error
    names its variable. *)
Definition ranged (key : string) (parse : string → option Z) (dflt lo hi : Z) (vars : Vars) : result string Z :=
  match vars !! key with
  | None => Ok dflt
  | Some raw =>
      match parse (trim raw) with
      | Some z => if (lo <=? z) && (z <=? hi) then Ok z else Err key
      | None => Err key
      end
  end.

Definition parse_send_timeout_ms : Vars → result string Z :=
  ranged "MAIL_SEND_TIMEOUT_MS" (fun s => result_ok (parse_u64 s)) DEFAULT_SEND_TIMEOUT_MS 1 MAX_SEND_TIMEOUT_MS.
Definition parse_max_attempts : Vars → result string Z := ranged "MAIL_MAX_ATTEMPTS" parse_i64 DEFAULT_MAX_ATTEMPTS 1 MAX_MAX_ATTEMPTS.
Definition parse_retention_days : Vars → result string Z := ranged "MAIL_RETENTION_DAYS" parse_i64 DEFAULT_RETENTION_DAYS 1 MAX_RETENTION_DAYS.
Definition parse_port : Vars → result string Z :=
  ranged "MAIL_SMTP_PORT" (fun s => result_ok (parse_u64 s)) DEFAULT_SMTP_PORT 1 65535.

Definition checked_host (value : string) : result string string :=
  if str_is_empty value then Err "MAIL_SMTP_HOST" else
  if has_control (to_bytes value) || has_whitespace (to_bytes value) then Err "MAIL_SMTP_HOST" else Ok value.

Definition smtp_settings (vars : Vars) : result string SmtpSettings :=
  h ← match vars !! "MAIL_SMTP_HOST" with Some raw => checked_host (trim raw) | None => Err "MAIL_SMTP_HOST" end;
  p ← parse_port vars;
  t ← match vars !! "MAIL_SMTP_TLS" with
      | Some raw => ok_or (tls_from_name (trim raw)) "MAIL_SMTP_TLS"
      | None => Err "MAIL_SMTP_TLS"
      end;
  c ← match vars !! "MAIL_SMTP_USERNAME", vars !! "MAIL_SMTP_PASSWORD" with
      | Some u, Some pw => Ok (Some (u, pw))
      | None, None => Ok None
      | Some _, None => Err "MAIL_SMTP_PASSWORD"
      | None, Some _ => Err "MAIL_SMTP_USERNAME"
      end;
  Ok (mkSmtp h p t c).

Section Config.
Context `{Lettre}.

Definition checked_address (key raw : string) : result string string :=
  _ ← map_err (fun _ => key) (parse_address (trim raw)); Ok (trim raw).

Definition checked_provider (raw : string) : result string ProviderKind := ok_or (kind_from_name (trim raw)) "MAIL_PROVIDER".

(** [MailConfig::from_vars]. *)
Definition from_vars (vars : Vars) : result string MailConfig :=
  match List.find (fun key => bool_decide (vars !! key = Some "")) MAIL_VARS with
  | Some key => Err key
  | None =>
      timeout ← parse_send_timeout_ms vars;
      tries ← parse_max_attempts vars;
      days ← parse_retention_days vars;
      from ← match vars !! "MAIL_FROM" with Some raw => Some <$> checked_address "MAIL_FROM" raw | None => Ok None end;
      k ← match vars !! "MAIL_PROVIDER" with Some raw => Some <$> checked_provider raw | None => Ok None end;
      resolved ← match k with
                 | Some LogKind => Ok (Some LogProvider)
                 | Some SmtpKind => (fun s => Some (SmtpProvider s)) <$> smtp_settings vars
                 | None => Ok None
                 end;
      _ ← (if bool_decide (provider_kind <$> resolved = Some SmtpKind) then Ok () else
           match List.find (fun key => bool_decide (is_Some (vars !! key))) SMTP_VARS with Some key => Err key | None => Ok () end);
      p ← match resolved, from with
          | Some p, Some f => Ok (Some (mkProviderSettings p f))
          | Some _, None => Err "MAIL_FROM"
          | None, Some _ => Err "MAIL_PROVIDER"
          | None, None => Ok None
          end;
      Ok (mkMailConfig p (timeout * MILLI) tries days)
  end.
End Config.

(** ** The drain ([worker.rs]) *)

Definition DRAIN_BATCH : nat := 16.
Definition DRAIN_DEADLINE : Z := 30 * NANOS.
Definition ACQUIRE_DEADLINE : Z := 5 * NANOS.

(** [Duration] arithmetic saturates at its largest value. *)
Definition DURATION_MAX : Z := u64_max * NANOS + 999999999.
Definition saturating_add (a b : Z) : Z := Z.min DURATION_MAX (a + b).
Definition saturating_mul (a k : Z) : Z := Z.min DURATION_MAX (a * k).
Definition saturating_sub (a b : Z) : Z := Z.max 0 (a - b).

Definition pass_budget (timeout : Z) : Z := Z.max DRAIN_DEADLINE (saturating_add timeout ACQUIRE_DEADLINE).
Definition stall_max (timeout : Z) : Z := saturating_mul (pass_budget timeout) 2.
Definition claim_lease (timeout : Z) : Z := saturating_mul timeout 3.
Definition write_budget (timeout : Z) : Z :=
  Z.max (saturating_sub (saturating_sub (claim_lease timeout) timeout) ACQUIRE_DEADLINE) ACQUIRE_DEADLINE.

(** The [statement_timeout] of [bounded_tx], in milliseconds. *)
Definition statement_timeout (budget : Z) : Z := clamp (budget `div` MILLI) 1 i32_max.

(** [2u32.saturating_pow], exact in an [f64]. *)
Definition saturating_pow2 (exp : Z) : Z := Z.min u32_max (2 ^ exp).
Definition backoff_secs (tries : Z) : Z := Z.min (saturating_pow2 (clamp (tries - 1) 0 30)) BACKOFF_MAX_SECS.

Definition disposition (r : result SendError unit) (tries max : Z) : Disposition :=
  match r with
  | Ok _ => Sent
  | Err (Rejected x) => Parked (truncate_error (send_error_text (Rejected x)))
  | Err (Infra x) =>
      let e := truncate_error (send_error_text (Infra x)) in
      if max <=? tries then Parked e else Retry e (backoff_secs tries * 1000000)
  end.

(** What a process of the module meets: the other transactions, which rows they hold,
    the uuids the server draws, the stop signal, the monotonic clock, the relay. *)
Record MEnv := mkMEnv {
  world : World MailDb;
  held_rows : nat → string → bool;
  fresh_id : nat → string;
  stop_seen : nat → bool;
  instant : nat → Z;
  relay : Sender;
}.

Section Drain.
Variable env : MEnv.
Abbreviation M := (ST (Task MailDb)).

Definition at_tick {E A} (f : nat → A) : M E A := gets (fun s => f (tick s)).
Definition commit {A} (m : nat → Sql A) : M string A := committing (world env) "database" (fun t => st_map_err (fun _ => "database") (m t)).

Record Drain := mkDrain { d_from : string; d_timeout : Z; d_max_attempts : Z }.
Variable drain : Drain.

Definition outgoing (row : Claimed) : Outgoing := mkOutgoing (d_from drain) (c_recipient row) (c_subject row) (c_body row) (c_kind row).

(** The relay takes the message or not; an answer that does not come in time is an
    infrastructure error, whether it took it or not. *)
Definition dialogue (row : Claimed) (t : nat) : ST MailDb SendError unit :=
  match send (relay env) t (outgoing row) with
  | Ok _ => modify (fun d => mkMailDb (outbox d) (relayed d ++ [mkRelayed (c_id row) (c_generation row) (outgoing row)]) (asked d) (withdrawn d))
  | Err e => fail e
  end.

Definition attempt (row : Claimed) : M string (result SendError unit) := fun s =>
  let '(s', r) := committing (world env) (Infra "send exceeded the timeout") (dialogue row) s in (s', Ok r).

Definition lease_us : Z := claim_lease (d_timeout drain) `div` 1000.

Fixpoint drain_rows (n : nat) (pass_deadline : Z) : M string unit :=
  match n with
  | O => mret ()
  | S n' =>
      stop ← at_tick (stop_seen env);
      if (stop : bool) then mret () else
      now ← at_tick (instant env);
      if saturating_sub pass_deadline now <? d_timeout drain then mret () else
      claimed ← commit (fun t => claim_due_tx (now_at (world env) t) lease_us (held_rows env t));
      match claimed with
      | None => mret ()
      | Some row =>
          r ← attempt row;
          _ ← commit (fun t => finish_tx (now_at (world env) t) row (disposition r (c_attempts row) (d_max_attempts drain)) (sender_name (relay env)));
          drain_rows n' pass_deadline
      end
  end.

Definition drain_pass (pass_deadline : Z) : M string OutboxGauges :=
  drain_rows DRAIN_BATCH pass_deadline;;
  now ← at_tick (now_at (world env));
  reading (world env) "database" (fun _ => "database") (gauges_tx now).

(** What wakes the loop. *)
Inductive Wake := Stopped | Ticked (stop_now : bool).

(** [run_loop]: a pass per tick, and the stamp of the last healthy one. *)
Fixpoint run_wakes (ws : list Wake) (l : Scheduler.Liveness) (s : Task MailDb) : Scheduler.Liveness * Task MailDb :=
  match ws with
  | [] => (l, s)
  | Stopped :: _ | Ticked true :: _ => (l, s)
  | Ticked false :: rest =>
      let '(s', r) := drain_pass (instant env (tick s) + pass_budget (d_timeout drain)) s in
      run_wakes rest (match r with Ok _ => Scheduler.mark_tick_ok (instant env (tick s') `div` NANOS) l | Err _ => l end) s'
  end.

Definition run_loop (ws : list Wake) (l : Scheduler.Liveness) (s : Task MailDb) : Scheduler.Liveness * Task MailDb :=
  run_wakes ws (Scheduler.mark_tick_ok (instant env (tick s) `div` NANOS) l) s.
End Drain.

(** [Liveness::check]. *)
Definition drain_check (l : Scheduler.Liveness) (stall_secs now_secs : Z) : result string unit :=
  if Scheduler.dead l then Err "mail drain loop task died" else
  if Scheduler.stalled_from (Scheduler.last_ok_secs l) now_secs (Scheduler.stopping_ l) stall_secs
  then Err "no healthy mail drain pass" else Ok ().

(** ** The service, the durable handlers and the operator's page *)

Section Service.
Context `{Lettre} `{PgUuid}.
Variable env : MEnv.
Abbreviation M := (ST (Task MailDb)).

Definition commit_op {A} (m : nat → Sql A) : M Error A :=
  committing (world env) internal_error (fun t => st_map_err (fun _ => internal_error) (m t)).
Definition read_op {A} (m : Z → Sql A) : M Error A :=
  now ← at_tick (now_at (world env)); reading (world env) internal_error (fun _ => internal_error) (m now).

(** [Store::enqueue_tx]: the insert, and the row that was there before it. *)
Definition enqueue_tx (m : NewMail) : M Error Enqueued :=
  inserted ← commit_op (fun t => insert_outbox_tx (now_at (world env) t) (fresh_id env t) m);
  match inserted with
  | Some id => mret (Inserted id)
  | None =>
      found ← read_op (fun _ => existing_tx (n_key m));
      mret (match found with Some existing => classify_existing m existing | None => Duplicate end)
  end.

Definition enqueue_on (m : NewMail) : M Error Enqueued := lift (validate_new m);; enqueue_tx m.

(** What a delivery came to, for the counters. *)
Inductive Skipped := NotSkipped | SkippedConflict | SkippedInvalid.

(** [enqueue_or_skip]: only infrastructure is an error of the delivery. *)
Definition enqueue_or_skip (m : NewMail) : M Error Skipped := fun s =>
  match enqueue_on m s with
  | (s', Ok (Inserted _)) | (s', Ok Duplicate) => (s', Ok NotSkipped)
  | (s', Ok Conflict) => (s', Ok SkippedConflict)
  | (s', Err e) => if bool_decide (status e = Invalid) then (s', Ok SkippedInvalid) else (s', Err e)
  end.

Record SendRequested := mkSendRequested { ev_key : string; ev_to : string; ev_subject : string; ev_body : string; ev_kind : string }.

Definition on_send_requested (e : SendRequested) : M Error Skipped :=
  enqueue_or_skip (mkNewMail (ev_key e) (ev_to e) (ev_subject e) (ev_body e) (ev_kind e)).

(** *** The retention prune *)

Definition PRUNE_BATCH : nat := 256.
Definition PRUNE_SCHEDULE_NAME : string := "mail-prune".

Definition prunable (cutoff : Z) (r : Mail) : bool := (in_state STATE_SENT r || in_state STATE_CANCELLED r) && (created_at r <? cutoff).

Definition delete_rows (l : list (string * Mail)) : MailDb → MailDb := set_outbox (fun o => foldr delete o l.*1).

(** [PruneHandler::call]. *)
Definition prune_handler (cutoff : Z) (busy : nat → string → bool) (elapsed : nat → bool) (name : string) (d : MailDb) : option MailDb :=
  if bool_decide (name ≠ PRUNE_SCHEDULE_NAME) then Some d
  else prune created_at (prunable cutoff) PRUNE_BATCH outbox delete_rows busy elapsed d.

(** *** The operator's page *)

Definition TEST_KEY_PREFIX : string := "admin-send-test-".
Definition TEST_KEY_HEX : nat := 32.

Definition is_test_key (key : string) : bool :=
  match strip_prefix (to_bytes TEST_KEY_PREFIX) (to_bytes key) with
  | Some hex => bool_decide (length hex = TEST_KEY_HEX) && forallb is_ascii_hexdigit hex
  | None => false
  end.

Definition outbox_stats : M Error OutboxStats := read_op stats_tx.
Definition recent_outbox (st : option string) (limit : nat) : M Error (list OutboxListRow) := read_op (fun _ => recent_tx st limit).
Definition requeue_parked (id : string) : M Error Z := commit_op (fun t => requeue_parked_tx (now_at (world env) t) id).
Definition requeue_all_parked (limit : nat) : M Error (Z * Z) :=
  commit_op (fun t => requeue_all_parked_tx (now_at (world env) t) limit (held_rows env t)).
Definition cancel_pending (id : string) : M Error Z := commit_op (fun t => cancel_pending_tx (now_at (world env) t) id).

Definition enqueue_from_admin (m : NewMail) : M Error Enqueued :=
  if negb (is_test_key (n_key m)) then fail (mkError Invalid "mail: an operator send must carry a key minted by the Mail page")
  else enqueue_on m.

Inductive Rejection := Stale | Refused (msg : string) | Internal (msg : string).

Definition service_rejection (e : Error) : Rejection :=
  match status e with OpsApi.Internal => Internal (msg e) | _ => Refused (msg e) end.

Definition into_ops (r : Rejection) : Error :=
  match r with
  | Stale => mkError OpsApi.Conflict "mail: the submitted form is stale"
  | Refused m => mkError Invalid m
  | Internal m => mkError OpsApi.Internal m
  end.

Definition param (values : Vars) (field : string) : string := trim (default "" (values !! field)).

Definition required (values : Vars) (field : string) : result Rejection string :=
  let v := param values field in if str_is_empty v then Err (Refused ("mail: requires a non-empty " +:+ field)) else Ok v.

(** The canonical spelling of a uuid. *)
Definition is_outbox_id (value : string) : bool :=
  let b := to_bytes value in
  bool_decide (length b = 36%nat)
  && forallb (fun ic => if bool_decide (fst ic ∈ [8; 13; 18; 23]%nat) then Ascii.eqb (snd ic) "-"
                        else is_ascii_hexdigit (snd ic)) (zip (seq 0 36) b).

Definition selected_id (values : Vars) : result Rejection string :=
  id ← required values "mail_id";
  if is_outbox_id id then Ok id else Err (Refused "mail: the selected message id is not an outbox id").

Definition rendered_key (values : Vars) : result Rejection string :=
  let key := param values "_idem_test" in if is_test_key key then Ok key else Err Stale.

Definition MAX_BULK_REQUEUE : nat := 1000.
Definition KIND_ADMIN_TEST : string := "admin.test".
Definition TEST_SUBJECT : string := "GameOps test message".
Definition TEST_BODY : string :=
  "This message was sent from the GameOps admin portal to prove the outbound mail channel end to end. Nothing else happened.".

(** The notice of a submit: the figures of a bulk requeue. *)
Abbreviation Notice := (option (Z * Z)).

Definition moved_or_stale (n : Z) : M Rejection Notice := if n =? 0 then fail Stale else mret None.

(** [apply_submit]. *)
Definition apply_submit (values : Vars) : M Rejection Notice :=
  let action := param values "_action" in
  if bool_decide (action = "requeue") then
    id ← lift (selected_id values);
    n ← st_map_err service_rejection (requeue_parked id); moved_or_stale n
  else if bool_decide (action = "requeue-all-parked") then
    counts ← st_map_err service_rejection (requeue_all_parked MAX_BULK_REQUEUE); mret (Some counts)
  else if bool_decide (action = "cancel") then
    id ← lift (selected_id values);
    n ← st_map_err service_rejection (cancel_pending id); moved_or_stale n
  else if bool_decide (action = "send-test") then
    to ← lift (required values "test_to");
    key ← lift (rendered_key values);
    e ← st_map_err service_rejection (enqueue_from_admin (mkNewMail key to TEST_SUBJECT TEST_BODY KIND_ADMIN_TEST));
    match e with Inserted _ | Duplicate => mret None | Conflict => fail Stale end
  else if str_is_empty action then fail (Refused "mail: no action selected")
  else fail (Refused "mail: unknown action").

(** The rows of the page and whether older ones are left out. *)
Definition build_content (values : Vars) : M Error (option (OutboxStats * list OutboxListRow * bool)) :=
  let raw := param values "state" in
  if negb (str_is_empty raw) && negb (bool_decide (raw ∈ STATES)) then mret None else
  stats ← outbox_stats;
  rows ← recent_outbox (if str_is_empty raw then None else Some raw) 51;
  mret (Some (stats, take 50 rows, (50 <? length rows)%nat)).
End Service.
