(* ===== verification/MailSafety.v ===== *)
(** * MailSafety: what can happen to a message

    The changes of the outbox by their causes, the invariant every cause keeps, and what
    follows over any history: a request is never lost, a delivered row was accepted by
    the relay, and an attempt that was overtaken writes nothing. *)

From stdpp Require Import sorting.
From S2P Require Import Prelude Text OpsApi Pg Prune Txn Mail.
#[local] Open Scope Z_scope.

Inductive Cause :=
| CEnqueue (id : string) (m : NewMail) (now : Z)
| CClaim (id : string) (now lease : Z)
| CRelay (row : Claimed) (from : string)
| CFinish (row : Claimed) (disp : Disposition) (prov : string) (now : Z)
| CRequeue (l : list string) (now : Z)
| CCancel (id : string) (now : Z)
| CPrune (l : list string).

(** What a claim carries is what was asked under its id. *)
Definition carries (row : Claimed) (m : NewMail) : Prop :=
  c_recipient row = n_recipient m ∧ c_subject row = n_subject m ∧ c_body row = n_body m ∧ c_kind row = n_kind m.

Definition message_of (row : Claimed) (from : string) : Outgoing :=
  mkOutgoing from (c_recipient row) (c_subject row) (c_body row) (c_kind row).

#[global] Instance Outgoing_eq_dec : EqDecision Outgoing.
Proof. solve_decision. Defined.
#[global] Instance Relayed_eq_dec : EqDecision Relayed.
Proof. solve_decision. Defined.

(** The relay has taken a message of this claim. *)
Definition took (row : Claimed) (d : MailDb) : Prop :=
  Exists (fun x => rl_id x = c_id row ∧ rl_generation x = c_generation row) (relayed d).

#[global] Instance took_dec row d : Decision (took row d).
Proof. unfold took. apply _. Defined.

Definition fits (m : NewMail) : Prop := Forall (fun cv => snd cv = true) (SCHEMA_CHECKS m).

#[global] Instance fits_dec m : Decision (fits m).
Proof. unfold fits. apply _. Defined.

#[global] Instance carries_dec row m : Decision (carries row m).
Proof. unfold carries. apply _. Defined.

Definition asked_of (row : Claimed) (d : MailDb) : Prop :=
  match asked d !! c_id row with Some m => carries row m | None => False end.

#[global] Instance asked_of_dec row d : Decision (asked_of row d).
Proof. unfold asked_of. destruct (asked d !! c_id row); apply _. Defined.

Definition settled (r : Mail) : Prop := state r = STATE_SENT ∨ state r = STATE_CANCELLED.

Definition row_is (P : Mail → Prop) (o : gmap string Mail) (id : string) : Prop := match o !! id with Some r => P r | None => False end.

#[global] Instance row_is_dec P `{!∀ r, Decision (P r)} o id : Decision (row_is P o id).
Proof. unfold row_is. destruct (o !! id); apply _. Defined.

Definition parked (r : Mail) : Prop := state r = STATE_PARKED ∧ generation r < i32_max.

#[global] Instance parked_dec r : Decision (parked r).
Proof. unfold parked. apply _. Defined.
#[global] Instance settled_dec r : Decision (settled r).
Proof. unfold settled. apply _. Defined.

(** A delivery is written down only for a message the relay took. *)
Definition may_settle (row : Claimed) (disp : Disposition) (d : MailDb) : Prop :=
  match disp with Sent => took row d | Parked _ | Retry _ _ => True end.

#[global] Instance may_settle_dec row disp d : Decision (may_settle row disp d).
Proof. destruct disp; simpl; apply _. Defined.

Definition mail_does (c : Cause) (d : MailDb) : option MailDb :=
  match c with
  | CEnqueue id m now =>
      check (asked d !! id = None ∧ key_row (n_key m) (outbox d) = None ∧ fits m);;
      Some (mkMailDb (<[id := new_row now m]> (outbox d)) (relayed d) (<[id := m]> (asked d)) (withdrawn d))
  | CClaim id now lease =>
      r ← outbox d !! id;
      check (state r = STATE_PENDING ∧ next_attempt_at r ≤ now ∧ attempts r < i32_max ∧ generation r < i32_max);;
      Some (set_outbox (insert id (claimed_row now lease r)) d)
  | CRelay row from =>
      check (asked_of row d);;
      Some (mkMailDb (outbox d) (relayed d ++ [mkRelayed (c_id row) (c_generation row) (message_of row from)]) (asked d) (withdrawn d))
  | CFinish row disp prov now =>
      r ← still_claimed row (outbox d);
      check (may_settle row disp d);;
      Some (set_outbox (insert (c_id row) (settled_row now disp prov r)) d)
  | CRequeue l now =>
      check (NoDup l ∧ Forall (row_is parked (outbox d)) l);;
      Some (set_outbox (fun o => foldr (alter (requeued_row now)) o l) d)
  | CCancel id now =>
      r ← outbox d !! id;
      check (state r = STATE_PENDING);;
      Some (mkMailDb (<[id := cancelled_row now r]> (outbox d)) (relayed d) (asked d) ({[id]} ∪ withdrawn d))
  | CPrune l =>
      check (Forall (row_is settled (outbox d)) l);;
      Some (set_outbox (fun o => foldr delete o l) d)
  end.

(** ** The invariant *)

(** The relay took what was asked under an id. *)
Definition accepted (d : MailDb) (id : string) : Prop :=
  ∃ x m, x ∈ relayed d ∧ rl_id x = id ∧ asked d !! id = Some m ∧
    o_to (rl_message x) = n_recipient m ∧ o_subject (rl_message x) = n_subject m ∧ o_body (rl_message x) = n_body m
    ∧ o_kind (rl_message x) = n_kind m.

(** A row says what was asked; only a delivered one has lost its body. *)
Definition faithful (m : NewMail) (r : Mail) : Prop :=
  idempotency_key r = n_key m ∧ recipient r = n_recipient m ∧ subject r = n_subject m ∧ kind r = n_kind m
  ∧ body r = (if bool_decide (state r = STATE_SENT) then "" else n_body m).

Definition row_ok (d : MailDb) (id : string) (r : Mail) : Prop :=
  (∃ m, asked d !! id = Some m ∧ faithful m r ∧ fits m)
  ∧ state r ∈ STATES
  ∧ (state r = STATE_SENT → accepted d id ∧ is_Some (sent_at r))
  ∧ (state r = STATE_CANCELLED → id ∈ withdrawn d)
  ∧ 0 ≤ attempts r ≤ generation r ∧ generation r ≤ i32_max.

Record mail_inv (d : MailDb) : Prop := {
  mi_rows : map_Forall (row_ok d) (outbox d);
  mi_keys : ∀ i j r r', outbox d !! i = Some r → outbox d !! j = Some r' → idempotency_key r = idempotency_key r' → i = j;
  mi_gone : ∀ id, is_Some (asked d !! id) → outbox d !! id = None → accepted d id ∨ id ∈ withdrawn d;
  mi_relay : ∀ x, x ∈ relayed d → accepted d (rl_id x);
}.

Lemma key_row_none key o : key_row key o = None ↔ ∀ id r, o !! id = Some r → idempotency_key r ≠ key.
Proof.
  unfold key_row. destruct (List.filter _ _) as [|[i r] l] eqn:E; simpl.
  - split; [|done]. intros _ id r Hr Hk. assert (Hin : (id, r) ∈ []); [|by apply elem_of_nil in Hin]. rewrite <- E.
    rewrite list_elem_of_In, filter_In, <- list_elem_of_In, elem_of_map_to_list. split; [done|]. simpl. by rewrite bool_decide_eq_true_2.
  - split; [done|]. intros Hk. exfalso. assert (Hin : (i, r) ∈ (i, r) :: l) by by left. rewrite <- E in Hin.
    rewrite list_elem_of_In, filter_In, <- list_elem_of_In, elem_of_map_to_list in Hin. destruct Hin as [Hr Hb].
    apply bool_decide_eq_true in Hb. by eapply Hk.
Qed.

Lemma key_row_some key o id r : key_row key o = Some (id, r) → o !! id = Some r ∧ idempotency_key r = key.
Proof.
  unfold key_row. destruct (List.filter _ _) as [|x l] eqn:E; simpl; [done|]. intros [= ->].
  assert (Hin : (id, r) ∈ (id, r) :: l) by by left. rewrite <- E in Hin.
  rewrite list_elem_of_In, filter_In, <- list_elem_of_In, elem_of_map_to_list in Hin. destruct Hin as [Hr Hb]. by apply bool_decide_eq_true in Hb.
Qed.

(** What only grows keeps what was accepted. *)
Lemma accepted_mono d d' id :
  accepted d id → (∀ x, x ∈ relayed d → x ∈ relayed d') → (∀ m, asked d !! id = Some m → asked d' !! id = Some m) → accepted d' id.
Proof. intros (x & m & Hx & Hi & Hm & Hc) Hr Ha. exists x, m. split_and!; [by apply Hr|done|by apply Ha|..]; naive_solver. Qed.

Lemma row_ok_mono d d' id r :
  row_ok d id r → (∀ x, x ∈ relayed d → x ∈ relayed d') → (∀ m, asked d !! id = Some m → asked d' !! id = Some m) →
  withdrawn d ⊆ withdrawn d' → row_ok d' id r.
Proof.
  intros ((m & Hm & Hf) & Hst & Hs & Hc & Hz) Hr Ha Hw. split_and!; try apply Hz; eauto.
  - intros Hsent. destruct (Hs Hsent). split; [by eapply accepted_mono|done].
Qed.

(** A write to one row that keeps its key. *)
Lemma mail_inv_update d id r r' d' :
  mail_inv d → outbox d !! id = Some r → idempotency_key r' = idempotency_key r →
  outbox d' = <[id := r']> (outbox d) → relayed d' = relayed d → asked d' = asked d → withdrawn d ⊆ withdrawn d' →
  row_ok d' id r' → mail_inv d'.
Proof.
  intros [Hrows Hkeys Hgone Hrel] Hr Hk Eo Er Ea Hw Hok.
  assert (Hacc : ∀ i, accepted d i → accepted d' i) by (intros i Hi; apply (accepted_mono d); [done|by rewrite Er|by rewrite Ea]).
  constructor.
  - rewrite Eo. intros i x. rewrite lookup_insert_Some. intros [[<- <-]|[_ Hx]]; [done|].
    apply (row_ok_mono d); [by apply Hrows|by rewrite Er|by rewrite Ea|done].
  - rewrite Eo. intros i j x y. rewrite !lookup_insert_Some. intros [[<- <-]|[Hi Hx]] [[<- <-]|[Hj Hy]] E; [done|..]; try congruence; eauto.
    + rewrite Hk in E. by apply (Hkeys id j r y).
    + rewrite Hk in E. by apply (Hkeys i id x r).
  - rewrite Ea, Eo. intros i Hi Hn. apply lookup_insert_None in Hn as [Hn _]. destruct (Hgone i Hi Hn) as [?|?]; [left; auto|right; set_solver].
  - rewrite Er. auto.
Qed.

Lemma still_claimed_some row o r :
  still_claimed row o = Some r ↔ o !! c_id row = Some r ∧ state r = STATE_PENDING ∧ generation r = c_generation row.
Proof.
  unfold still_claimed. destruct (o !! c_id row) as [x|]; [|naive_solver]. case_bool_decide; simpl; [|naive_solver].
  destruct (Z.eqb_spec (generation x) (c_generation row)); naive_solver.
Qed.

Lemma mail_inv_empty : mail_inv empty_mail.
Proof.
  constructor; simpl; [apply map_Forall_empty|done| |].
  - intros id [m Hm]. done.
  - intros x Hx%elem_of_nil. done.
Qed.

Lemma mail_inv_enqueue id m now d d' : mail_inv d → mail_does (CEnqueue id m now) d = Some d' → mail_inv d'.
Proof.
  intros [Hrows Hkeys Hgone Hrel]. simpl. rewrite check_some. intros [(Hid & Hk & Hfit) [= <-]]. rewrite key_row_none in Hk.
  set (d' := mkMailDb _ _ _ _).
  assert (Hask : ∀ i x, asked d !! i = Some x → asked d' !! i = Some x).
  { intros i x Hi. simpl. rewrite lookup_insert_ne; [done|]. intros <-. by rewrite Hid in Hi. }
  constructor; simpl.
  - intros i x. rewrite lookup_insert_Some. intros [[<- <-]|[_ Hx]].
    + split_and!; try done; [|by left]. exists m. split; [apply lookup_insert_eq|]. by split.
    + apply (row_ok_mono d); [by apply Hrows|done|auto|done].
  - intros i j x y. rewrite !lookup_insert_Some. intros [[<- <-]|[_ Hx]] [[<- <-]|[_ Hy]] E; [done|..|eauto].
    + by destruct (Hk j y Hy).
    + by destruct (Hk i x Hx).
  - intros i Hi Hn. apply lookup_insert_None in Hn as [Hn Hne]. rewrite lookup_insert_ne in Hi by done.
    destruct (Hgone i Hi Hn) as [?|?]; [left|by right]. apply (accepted_mono d); [done|done|auto].
  - intros x Hx. apply (accepted_mono d); [by apply Hrel|done|auto].
Qed.

Lemma mail_inv_claim id now lease d d' : mail_inv d → mail_does (CClaim id now lease) d = Some d' → mail_inv d'.
Proof.
  intros Hd E. simpl in E. apply bind_Some in E as (r & Hr & E). rewrite check_some in E. destruct E as [(Hst & _ & Ha & Hg) [= <-]].
  eapply (mail_inv_update d id r (claimed_row now lease r)); try done. destruct (mi_rows d Hd id r Hr) as ((m & Hm & Hf & Hfit) & Hs & H1 & H2 & Hz).
  split_and!; [|done|done|done|simpl; lia..]. exists m. split_and!; [done| |done]. exact Hf.
Qed.

Lemma mail_inv_cancel id now d d' : mail_inv d → mail_does (CCancel id now) d = Some d' → mail_inv d'.
Proof.
  intros Hd E. simpl in E. apply bind_Some in E as (r & Hr & E). rewrite check_some in E. destruct E as [Hst [= <-]].
  eapply (mail_inv_update d id r (cancelled_row now r)); try done; [simpl; set_solver|]. destruct (mi_rows d Hd id r Hr) as ((m & Hm & Hf & Hfit) & Hs & H1 & H2 & Hz).
  split_and!; simpl; [|do 3 right; by left|done|intros _; set_solver|lia..]. exists m. split_and!; [done| |done].
  unfold faithful in *. simpl. rewrite Hst in Hf. exact Hf.
Qed.

Lemma took_accepted row d : mail_inv d → took row d → accepted d (c_id row).
Proof. intros Hd (x & Hx & <- & _)%Exists_exists. by apply mi_relay. Qed.

Lemma mail_inv_finish row disp prov now d d' : mail_inv d → mail_does (CFinish row disp prov now) d = Some d' → mail_inv d'.
Proof.
  intros Hd E. simpl in E. apply bind_Some in E as (r & (Hr & Hst & _)%still_claimed_some & E). rewrite check_some in E. destruct E as [Hmay [= <-]].
  eapply (mail_inv_update d (c_id row) r (settled_row now disp prov r)); try done; [by destruct disp|].
  destruct (mi_rows d Hd _ r Hr) as ((m & Hm & Hf & Hfit) & Hs & H1 & H2 & Hz). unfold faithful in Hf. rewrite Hst in Hf.
  destruct disp; simpl in *; split_and!; simpl; try done; try lia; try (exists m; split_and!; [done| |done]; unfold faithful; simpl; rewrite ?Hst; naive_solver).
  - right. by left.
  - intros _. split; [|by eexists]. by eapply (took_accepted row d).
  - by do 2 right; left.
Qed.

Lemma mail_inv_relay row from d d' : mail_inv d → mail_does (CRelay row from) d = Some d' → mail_inv d'.
Proof.
  intros [Hrows Hkeys Hgone Hrel]. simpl. rewrite check_some. intros [Hask [= <-]].
  set (d' := mkMailDb _ _ _ _). assert (Hin : ∀ x, x ∈ relayed d → x ∈ relayed d') by (intros x Hx; simpl; set_solver).
  constructor; simpl.
  - intros i x Hx. apply (row_ok_mono d); [by apply Hrows|done..].
  - done.
  - intros i Hi Hn. destruct (Hgone i Hi Hn) as [?|?]; [left|by right]. by apply (accepted_mono d).
  - intros x [Hx| ->%list_elem_of_singleton]%elem_of_app; [by apply (accepted_mono d); [apply Hrel|..]|].
    unfold asked_of in Hask. destruct (asked d !! c_id row) as [m|] eqn:Em; [|done]. destruct Hask as (H1 & H2 & H3 & H4).
    eexists _, m. split_and!; [simpl; apply elem_of_app; right; by apply list_elem_of_singleton|simpl; done..].
Qed.

(** Requeueing rows one after the other. *)
Definition requeue_one (now : Z) (id : string) (d : MailDb) : MailDb := set_outbox (alter (requeued_row now) id) d.

Lemma mail_inv_requeue_one id now d : mail_inv d → row_is parked (outbox d) id → mail_inv (requeue_one now id d).
Proof.
  intros Hd. unfold row_is. destruct (outbox d !! id) as [r|] eqn:Hr; [|done]. intros [Hst Hg].
  eapply (mail_inv_update d id r (requeued_row now r)); try done.
  - simpl. apply map_eq. intros k. destruct (decide (id = k)) as [<-|Hne]; [by rewrite lookup_alter_eq, lookup_insert_eq, Hr|].
    by rewrite lookup_alter_ne, lookup_insert_ne.
  - destruct (mi_rows d Hd id r Hr) as ((m & Hm & Hf & Hfit) & Hs & H1 & H2 & Hz).
    split_and!; simpl; [|by left|done|done|lia..]. exists m. split_and!; [done| |done].
    unfold faithful in *. simpl. rewrite Hst in Hf. exact Hf.
Qed.

Lemma requeue_lookup now l (o : gmap string Mail) id :
  NoDup l → foldr (alter (requeued_row now)) o l !! id = if decide (id ∈ l) then requeued_row now <$> o !! id else o !! id.
Proof.
  induction 1 as [|x l Hx Hnd IH]; cbn [foldr]; [by destruct (decide (id ∈ [])) as [?%elem_of_nil|]|].
  destruct (decide (x = id)) as [->|Hne].
  - rewrite lookup_alter_eq, IH, decide_False by done. rewrite decide_True; [done|by left].
  - rewrite lookup_alter_ne, IH by done. destruct (decide (id ∈ l)), (decide (id ∈ x :: l)); set_solver.
Qed.

Lemma mail_inv_requeue l now d d' : mail_inv d → mail_does (CRequeue l now) d = Some d' → mail_inv d'.
Proof.
  intros Hd. simpl. rewrite check_some. intros [[Hnd Hl] [= <-]]. revert Hl. induction Hnd as [|x l Hx Hnd IH]; intros Hl; [by destruct d|].
  apply Forall_cons in Hl as [Hp Hl]. specialize (IH Hl). apply (mail_inv_requeue_one x now) in IH; [exact IH|].
  unfold row_is in *. simpl. by rewrite requeue_lookup, decide_False.
Qed.

Lemma mail_inv_prune l d d' : mail_inv d → mail_does (CPrune l) d = Some d' → mail_inv d'.
Proof.
  intros [Hrows Hkeys Hgone Hrel]. simpl. rewrite check_some. intros [Hl [= <-]].
  assert (Hsub : ∀ i r, foldr delete (outbox d) l !! i = Some r → outbox d !! i = Some r).
  { intros i r. rewrite foldr_delete_lookup. by destruct (decide (i ∈ l)). }
  constructor; simpl.
  - intros i r Hr%Hsub. apply (row_ok_mono d); [by apply Hrows|done..].
  - intros i j r r' Hr%Hsub Hr'%Hsub. by apply Hkeys.
  - intros i Hi. rewrite foldr_delete_lookup. destruct (decide (i ∈ l)) as [Hin|]; [intros _|by apply Hgone].
    rewrite Forall_forall in Hl. specialize (Hl i Hin). unfold row_is in Hl. destruct (outbox d !! i) as [r|] eqn:Er; [|done].
    destruct (Hrows i r Er) as (_ & _ & H1 & H2 & _). destruct Hl as [Hs|Hs]; [left; by apply H1|right; by apply H2].
  - done.
Qed.

Lemma mail_inv_does c d d' : mail_inv d → mail_does c d = Some d' → mail_inv d'.
Proof.
  intros Hd. destruct c; [by apply mail_inv_enqueue|by apply mail_inv_claim|by apply mail_inv_relay|by apply mail_inv_finish|by apply mail_inv_requeue
    |by apply mail_inv_cancel|by apply mail_inv_prune].
Qed.

#[global] Instance mail_causes : Causes MailDb Cause := {
  does := mail_does;
  locks_of := fun _ => [];
  sound := mail_inv;
  sound_does := mail_inv_does;
}.

(** ** Histories *)

Definition step (d d' : MailDb) : Prop := ∃ c, does c d = Some d'.

Lemma mail_steps_inv d d' : rtc step d d' → mail_inv d → mail_inv d'.
Proof. induction 1 as [|d d1 d' [c E] _ IH]; [done|]. intros Hd. apply IH. by eapply mail_inv_does. Qed.

(** How a row can have moved on.  The generation never falls; while it stands still no
    claim, requeue or end has been undone, and a row that was settled stays as it was. *)
Definition later (r r' : Mail) : Prop :=
  generation r ≤ generation r'
  ∧ (generation r' = generation r → attempts r' = attempts r ∧ (state r ≠ STATE_PENDING → state r' = state r))
  ∧ (settled r → r' = r).

#[global] Instance later_refl : Reflexive later.
Proof. intros r. unfold later. naive_solver lia. Qed.
#[global] Instance later_trans : Transitive later.
Proof.
  intros a b c (H1 & H2 & H3) (H4 & H5 & H6). split_and!; [lia| |].
  - intros E. destruct (H2 ltac:(lia)) as [Ha Hs]. destruct (H5 ltac:(lia)) as [Hb Ht]. split; [congruence|]. intros Hp.
    rewrite Ht; [by apply Hs|]. by rewrite Hs.
  - intros Hs. rewrite (H3 Hs) in *. by apply H6.
Qed.

(** What a cause does to a row that is there. *)
Lemma does_later c d d' id r :
  mail_inv d → does c d = Some d' → outbox d !! id = Some r →
  (∃ r', outbox d' !! id = Some r' ∧ later r r') ∨ (outbox d' !! id = None ∧ settled r).
Proof.
  intros Hd E Hr. assert (Hins : ∀ i r', (i = id → later r r') → (∃ x, <[i := r']> (outbox d) !! id = Some x ∧ later r x)).
  { intros i r' Hl. destruct (decide (i = id)) as [->|Hne]; [rewrite lookup_insert_eq; eauto|]. rewrite lookup_insert_ne by done. by exists r. }
  destruct c as [i m now|i now lease|row from|row disp prov now|l now|i now|l]; simpl in E.
  - rewrite check_some in E. destruct E as [(Hn & _) [= <-]]. left. apply Hins. intros ->.
    destruct (mi_rows d Hd id r Hr) as ((m' & Hm & _) & _). congruence.
  - apply bind_Some in E as (x & Hx & E). rewrite check_some in E. destruct E as [(Hp & _) [= <-]]. left. apply Hins. intros ->.
    rewrite Hr in Hx. injection Hx as <-. unfold later, settled. simpl. split_and!; [lia|lia|]. rewrite Hp. intros [?|?]; done.
  - rewrite check_some in E. destruct E as [_ [= <-]]. left. by exists r.
  - apply bind_Some in E as (x & (Hx & Hp & _)%still_claimed_some & E). rewrite check_some in E. destruct E as [_ [= <-]]. left. apply Hins. intros Hi.
    rewrite Hi, Hr in Hx. injection Hx as <-. unfold later, settled. rewrite Hp.
    destruct disp; simpl; (split_and!; [lia|done|intros [?|?]; done]).
  - rewrite check_some in E. destruct E as [[Hnd Hl] [= <-]]. left. simpl. rewrite requeue_lookup, Hr by done. simpl.
    destruct (decide (id ∈ l)) as [Hin|]; [|by exists r]. rewrite Forall_forall in Hl. specialize (Hl id Hin). unfold row_is in Hl. rewrite Hr in Hl.
    destruct Hl as [Hp _]. eexists. split; [done|]. unfold later, settled. simpl. split_and!; [lia|lia|]. rewrite Hp. intros [?|?]; done.
  - apply bind_Some in E as (x & Hx & E). rewrite check_some in E. destruct E as [Hp [= <-]]. left. apply Hins. intros ->.
    rewrite Hr in Hx. injection Hx as <-. unfold later, settled. rewrite Hp. simpl. split_and!; [lia|done|intros [?|?]; done].
  - rewrite check_some in E. destruct E as [Hl [= <-]]. simpl. rewrite foldr_delete_lookup. destruct (decide (id ∈ l)) as [Hin|]; [right|left; by exists r].
    rewrite Forall_forall in Hl. specialize (Hl id Hin). unfold row_is in Hl. by rewrite Hr in Hl.
Qed.

Lemma does_asked c d d' id m : does c d = Some d' → asked d !! id = Some m → asked d' !! id = Some m.
Proof.
  intros E Hm. destruct c; simpl in E; [rewrite check_some in E; destruct E as [[Hn _] [= <-]]
    |repeat (apply bind_Some in E as (? & _ & E)); injection E as <-; done..].
  simpl. rewrite lookup_insert_ne; [done|]. intros <-. congruence.
Qed.

(** A row that is gone stays gone. *)
Lemma does_gone c d d' id :
  does c d = Some d' → is_Some (asked d !! id) → outbox d !! id = None → outbox d' !! id = None.
Proof.
  intros E [m Ha] Hn. destruct c as [i n now|i now lease|row from|row disp prov now|l now|i now|l]; simpl in E.
  - rewrite check_some in E. destruct E as [(Hi & _) [= <-]]. simpl. rewrite lookup_insert_ne; [done|]. intros <-. congruence.
  - apply bind_Some in E as (x & Hx & E). rewrite check_some in E. destruct E as [_ [= <-]]. simpl. rewrite lookup_insert_ne; [done|]. intros <-. congruence.
  - rewrite check_some in E. by destruct E as [_ [= <-]].
  - apply bind_Some in E as (x & (Hx & _)%still_claimed_some & E). rewrite check_some in E. destruct E as [_ [= <-]]. simpl.
    rewrite lookup_insert_ne; [done|]. intros Hi. congruence.
  - rewrite check_some in E. destruct E as [[Hnd _] [= <-]]. simpl. rewrite requeue_lookup, Hn by done. by destruct (decide _).
  - apply bind_Some in E as (x & Hx & E). rewrite check_some in E. destruct E as [_ [= <-]]. simpl. rewrite lookup_insert_ne; [done|]. intros <-. congruence.
  - rewrite check_some in E. destruct E as [_ [= <-]]. simpl. rewrite foldr_delete_lookup. by destruct (decide _).
Qed.

Lemma steps_asked d d' id m : rtc step d d' → asked d !! id = Some m → asked d' !! id = Some m.
Proof. induction 1 as [|d d1 d' [c E] _ IH]; [done|]. intros Hm. apply IH. by eapply does_asked. Qed.

Lemma steps_gone d d' id : rtc step d d' → is_Some (asked d !! id) → outbox d !! id = None → outbox d' !! id = None.
Proof.
  induction 1 as [|d d1 d' [c E] _ IH]; [done|]. intros [m Hm] Hn. apply IH; [|by eapply does_gone]. exists m. by eapply does_asked.
Qed.

Lemma row_asked d id r : mail_inv d → outbox d !! id = Some r → is_Some (asked d !! id).
Proof. intros Hd Hr. destruct (mi_rows d Hd id r Hr) as ((m & Hm & _) & _). by exists m. Qed.

Lemma steps_later d d' id r :
  mail_inv d → rtc step d d' → outbox d !! id = Some r → outbox d' !! id = None ∨ ∃ r', outbox d' !! id = Some r' ∧ later r r'.
Proof.
  intros Hd Hs. revert r Hd. induction Hs as [|d d1 d' [c E] Hs IH]; intros r Hd Hr; [right; by exists r|].
  assert (Hd1 : mail_inv d1) by by eapply mail_inv_does.
  destruct (does_later c d d1 id r Hd E Hr) as [(r1 & Hr1 & Hl)|[Hn _]].
  - destruct (IH r1 Hd1 Hr1) as [Hn|(r' & Hr' & Hl')]; [by left|right]. exists r'. split; [done|by etrans].
  - left. eapply steps_gone; [done| |done]. destruct (row_asked d id r Hd Hr) as [m Hm]. exists m. by eapply does_asked.
Qed.

(** ** What holds over any history *)


(** The cause takes the row away from the attempt that had claimed it. *)
Definition overtakes (id : string) (c : Cause) : Prop :=
  match c with
  | CClaim i _ _ | CCancel i _ => i = id
  | CRequeue l _ => id ∈ l
  | CFinish row (Sent | Parked _) _ _ => c_id row = id
  | _ => False
  end.

Lemma overtaken_row c d d' id r :
  does c d = Some d' → overtakes id c → outbox d !! id = Some r →
  ∃ r', outbox d' !! id = Some r' ∧ (generation r < generation r' ∨ (generation r' = generation r ∧ state r' ≠ STATE_PENDING)).
Proof.
  intros E Ho Hr. destruct c as [i m now|i now lease|row from|row disp prov now|l now|i now|l]; simpl in E, Ho; try done.
  - subst i. rewrite Hr in E. simpl in E. rewrite check_some in E. destruct E as [_ [= <-]]. simpl. rewrite lookup_insert_eq.
    eexists. split; [done|]. left. simpl. lia.
  - apply bind_Some in E as (x & (Hx & _)%still_claimed_some & E). rewrite check_some in E. destruct E as [_ [= <-]]. simpl.
    destruct disp; [..|done]; subst id; rewrite Hr in Hx; injection Hx as <-; rewrite lookup_insert_eq; (eexists; split; [done|right]; simpl; split; [lia|done]).
  - rewrite check_some in E. destruct E as [[Hnd _] [= <-]]. simpl. rewrite requeue_lookup, decide_True, Hr by done.
    eexists. split; [done|]. left. simpl. lia.
  - subst i. rewrite Hr in E. simpl in E. rewrite check_some in E. destruct E as [_ [= <-]]. simpl. rewrite lookup_insert_eq.
    eexists. split; [done|]. right. simpl. split; [lia|done].
Qed.

(** C21: an attempt that was overtaken writes nothing: once its row has been claimed
    again, requeued, cancelled or settled by anybody, and whatever happened after that,
    its status write matches no row and changes nothing, however the send went. *)
Theorem overtaken_attempt_misses d1 x y d2 c id r now disp prov :
  rtc step empty_mail d1 → outbox d1 !! id = Some r → rtc step d1 x → does c x = Some y → overtakes id c → rtc step y d2 →
  finish_tx now (claim_of id r) disp prov d2 = (d2, Ok 0).
Proof.
  intros Hd1%mail_steps_inv Hr H1 Hc Ho H2; [|apply mail_inv_empty]. assert (Hx := mail_steps_inv _ _ H1 Hd1). assert (Hy := mail_inv_does _ _ _ Hx Hc).
  assert (Hmiss : still_claimed (claim_of id r) (outbox d2) = None).
  { destruct (still_claimed _ _) as [r2|] eqn:E; [exfalso|done]. apply still_claimed_some in E as (E & Hst & Hg). simpl in E, Hg.
    destruct (steps_later d1 x id r Hd1 H1 Hr) as [Hn|(rx & Hrx & Hl & _)].
    { assert (Hn2 : outbox d2 !! id = None); [|congruence]. destruct (row_asked d1 id r Hd1 Hr) as [m Hm].
      eapply (steps_gone x); [|exists m; by eapply steps_asked|done]. eapply rtc_l; [by exists c|done]. }
    destruct (overtaken_row c x y id rx Hc Ho Hrx) as (ry & Hry & Hgy).
    destruct (steps_later y d2 id ry Hy H2 Hry) as [?|(r' & Hr' & Hl1 & Hl2 & _)]; [congruence|]. rewrite E in Hr'. injection Hr' as <-.
    destruct Hgy as [?|[Hge Hns]]; [lia|]. destruct (Hl2 ltac:(lia)) as [_ Hs]. by rewrite (Hs Hns) in Hst. }
  unfold finish_tx, mbind, ST_bind, gets. by rewrite Hmiss.
Qed.
