(* ===== verification/MailContract.v ===== *)
(** * MailContract: the mail operations refine the causes

    Whatever other transactions commit between its statements and however the relay
    answers, the drain changes the outbox only by claiming due rows, by handing to the
    relay what was asked, and by writing down a delivery the relay took; the ingress and
    the operator's page by enqueueing, requeueing and cancelling. *)

From stdpp Require Import sorting.
From S2P Require Import Prelude Text OpsApi Pg Prune Directory Txn Mail MailSafety.
#[local] Open Scope Z_scope.

(** ** What a statement that succeeds has done *)

Lemma due_rows_elem now held o id r :
  (id, r) ∈ due_rows now held o ↔ o !! id = Some r ∧ state r = STATE_PENDING ∧ next_attempt_at r ≤ now ∧ held id = false.
Proof.
  unfold due_rows. rewrite list_elem_of_In, filter_In, <- list_elem_of_In, elem_of_map_to_list. simpl.
  rewrite !andb_true_iff, bool_decide_eq_true, Z.leb_le, negb_true_iff. naive_solver.
Qed.

Lemma head_due now held o id r :
  head (merge_sort due_before (due_rows now held o)) = Some (id, r) → (id, r) ∈ due_rows now held o.
Proof.
  intros Hh. rewrite <- (merge_sort_Permutation due_before). destruct (merge_sort _ _) as [|x l]; [done|]. simpl in Hh. injection Hh as ->. by left.
Qed.

Lemma claim_due_does now lease held d d' x :
  mail_inv d → claim_due_tx now lease held d = (d', Ok x) →
  match x with
  | None => d' = d
  | Some row => does (CClaim (c_id row) now lease) d = Some d' ∧ asked_of row d'
  end.
Proof.
  intros Hd E. unfold claim_due_tx in E. rewrite (st_bind_run _ _ d d (outbox d)) in E by done.
  destruct (head _) as [[id r]|] eqn:Eh; [|by injection E as <- <-]. apply head_due, due_rows_elem in Eh as (Hr & Hp & Hn & _).
  destruct ((i32_max <=? attempts r) || (i32_max <=? generation r)) eqn:Eb; [done|]. apply orb_false_iff in Eb as [Ha%Z.leb_gt Hg%Z.leb_gt].
  rewrite (st_bind_run _ _ d (set_outbox (insert id (claimed_row now lease r)) d) ()) in E by done. injection E as <- <-. split.
  - simpl. rewrite Hr. simpl. by rewrite check_run.
  - unfold asked_of, carries. simpl. destruct (mi_rows d Hd id r Hr) as ((m & -> & Hf & _) & _). unfold faithful in Hf. rewrite Hp in Hf. naive_solver.
Qed.

Lemma finish_does now row disp prov d d' n :
  may_settle row disp d → finish_tx now row disp prov d = (d', Ok n) →
  (n = 0 ∧ d' = d) ∨ (n = 1 ∧ does (CFinish row disp prov now) d = Some d').
Proof.
  intros Hm E. unfold finish_tx in E. rewrite (st_bind_run _ _ d d (outbox d)) in E by done.
  destruct (still_claimed row (outbox d)) as [r|] eqn:Er; [|injection E as <- <-; by left]. right.
  rewrite (st_bind_run _ _ d (set_outbox (insert (c_id row) (settled_row now disp prov r)) d) ()) in E by done. injection E as <- <-.
  split; [done|]. simpl. rewrite Er. simpl. by rewrite check_run.
Qed.

Lemma check_columns_ok m d d' x : check_columns m d = (d', Ok x) → d' = d ∧ fits m.
Proof.
  unfold check_columns, fits. generalize (SCHEMA_CHECKS m). intros l. destruct (List.find _ l) as [[c b]|] eqn:E; intros [= <-]; split; [done|].
  apply Forall_forall. intros [c b] Hin%list_elem_of_In. apply (List.find_none _ _ E) in Hin. simpl in *. by destruct b.
Qed.

Lemma insert_outbox_does now fresh m d d' x :
  insert_outbox_tx now fresh m d = (d', Ok x) →
  match x with
  | None => d' = d ∧ is_Some (key_row (n_key m) (outbox d))
  | Some id => id = fresh ∧ does (CEnqueue id m now) d = Some d'
  end.
Proof.
  intros E. unfold insert_outbox_tx in E. apply st_bind_ok in E as (d1 & [] & [-> _]%pg_bind_ok & E).
  apply st_bind_ok in E as (d2 & [] & [-> Hfit]%check_columns_ok & E). rewrite (st_bind_run _ _ d d (outbox d)) in E by done.
  destruct (key_row (n_key m) (outbox d)) eqn:Ek; [by injection E as <- <-|].
  rewrite (st_bind_run _ _ d d (asked d)) in E by done. case_bool_decide as Ha; [done|].
  apply st_bind_ok in E as (d3 & [] & [= <-] & E). injection E as <- <-. split; [done|]. simpl. rewrite check_run; [done|].
  split_and!; [by apply eq_None_not_Some|done|done].
Qed.

Section Statements.
Context `{PgUuid}.

Lemma requeue_parked_does now id d d' n :
  requeue_parked_tx now id d = (d', Ok n) → d' = d ∨ ∃ u, uuid_in id = Some u ∧ does (CRequeue [u] now) d = Some d'.
Proof.
  intros E. unfold requeue_parked_tx in E. pg_inv E. rename x1 into u. destruct (outbox d !! u) as [r|] eqn:Er; [|injection E as <- <-; by left].
  unfold in_state in E. case_bool_decide as Hp; simpl in E; [|injection E as <- <-; by left].
  destruct (Z.leb_spec i32_max (generation r)); [done|]. apply st_bind_ok in E as (d3 & [] & [= <-] & E). injection E as <- <-.
  right. exists u. split; [done|]. simpl. rewrite check_run.
  - f_equal. unfold set_outbox. f_equal. simpl. apply map_eq. intros k. destruct (decide (u = k)) as [<-|Hne].
    + by rewrite lookup_alter_eq, lookup_insert_eq, Er.
    + by rewrite lookup_alter_ne, lookup_insert_ne.
  - split; [apply NoDup_singleton|]. constructor; [|constructor]. unfold row_is. by rewrite Er.
Qed.

Lemma cancel_pending_does now id d d' n :
  cancel_pending_tx now id d = (d', Ok n) → d' = d ∨ ∃ u, uuid_in id = Some u ∧ does (CCancel u now) d = Some d'.
Proof.
  intros E. unfold cancel_pending_tx in E. pg_inv E. rename x1 into u. destruct (outbox d !! u) as [r|] eqn:Er; [|injection E as <- <-; by left].
  unfold in_state in E. case_bool_decide as Hp; simpl in E; [|injection E as <- <-; by left].
  apply st_bind_ok in E as (d3 & [] & [= <-] & E). injection E as <- <-.
  right. exists u. split; [done|]. simpl. rewrite Er. simpl. by rewrite check_run.
Qed.
End Statements.

Lemma parked_batch_elem limit held o id r : (id, r) ∈ parked_batch limit held o → o !! id = Some r ∧ state r = STATE_PARKED.
Proof.
  unfold parked_batch. intros Hin%subseteq_take. rewrite merge_sort_Permutation in Hin.
  rewrite list_elem_of_In, filter_In, <- list_elem_of_In, elem_of_map_to_list in Hin. destruct Hin as [? [Hb _]%andb_prop].
  by apply bool_decide_eq_true in Hb.
Qed.

Lemma parked_batch_nodup limit held o : NoDup (parked_batch limit held o).*1.
Proof.
  unfold parked_batch. eapply sublist_NoDup; [|apply fmap_sublist, sublist_take]. rewrite merge_sort_Permutation.
  apply NoDup_keys_filter, NoDup_fst_map_to_list.
Qed.

Lemma requeue_all_alter now l (o : gmap string Mail) :
  NoDup l.*1 → (∀ id r, (id, r) ∈ l → o !! id = Some r) → requeue_all now l o = foldr (alter (requeued_row now)) o l.*1.
Proof.
  unfold requeue_all. induction l as [|[id r] l IH]; [done|]. intros [Hid Hnd]%NoDup_cons Hl. cbn [foldr fmap list_fmap fst snd].
  rewrite IH by (done || intros; apply Hl; by right). apply map_eq. intros k. destruct (decide (id = k)) as [<-|Hne].
  - rewrite lookup_insert_eq, lookup_alter_eq, requeue_lookup, decide_False by done. rewrite (Hl id r) by by left. done.
  - by rewrite lookup_insert_ne, lookup_alter_ne.
Qed.

Lemma requeue_all_does now limit held d d' x :
  requeue_all_parked_tx now limit held d = (d', Ok x) → ∃ l, does (CRequeue l now) d = Some d' ∧ fst x = Z.of_nat (length l).
Proof.
  intros E. unfold requeue_all_parked_tx in E. rewrite (st_bind_run _ _ d d (outbox d)) in E by done.
  destruct (existsb _ _) eqn:Eb; [done|]. apply st_bind_ok in E as (d1 & [] & [= <-] & E). apply st_bind_ok in E as (d2 & y & [= <- <-] & E).
  injection E as <- <-. exists (parked_batch limit held (outbox d)).*1. split; [|by rewrite length_fmap].
  simpl. rewrite check_run.
  - unfold set_outbox. f_equal. f_equal. symmetry. apply requeue_all_alter; [apply parked_batch_nodup|].
    by intros id r [? _]%parked_batch_elem.
  - split; [apply parked_batch_nodup|]. apply Forall_forall. intros id ([i r] & -> & Hin)%list_elem_of_fmap. unfold row_is. simpl.
    destruct (parked_batch_elem _ _ _ _ _ Hin) as [-> Hp]. split; [done|]. apply Z.lt_nge. intros Hge. rewrite <- Bool.not_true_iff_false in Eb.
    apply Eb, existsb_exists. exists (i, r). split; [by apply list_elem_of_In|]. by apply Z.leb_le.
Qed.

(** ** Refinement *)

Section Refine.
Context `{Lettre} `{PgUuid}.
Variable env : MEnv.
Variable drain : Drain.
Variable Q : Cause → Prop.
Hypothesis meanwhile_others : ∀ t L d, rtc (others Q L) d (meanwhile (world env) t L d).

Lemma does_relayed c d d' x : does c d = Some d' → x ∈ relayed d → x ∈ relayed d'.
Proof.
  intros E Hx. destruct c; simpl in E; repeat (apply bind_Some in E as (? & _ & E)); injection E as <-; simpl; set_solver.
Qed.

Lemma stable_asked row L : stable Q L (asked_of row).
Proof.
  intros d d' _ Ha (c & _ & E & _). unfold asked_of in *. destruct (asked d !! c_id row) as [m|] eqn:Em; [|done].
  by rewrite (does_asked _ _ _ _ _ E Em).
Qed.

Lemma stable_took row L : stable Q L (took row).
Proof.
  intros d d' _ (x & Hx & Hr)%Exists_exists (c & _ & E & _). apply Exists_exists. exists x. split; [by eapply does_relayed|done].
Qed.

(** The drain claims, relays and settles, under its own name. *)
Definition drain_causes (c : Cause) : Prop :=
  match c with
  | CClaim _ _ lease => lease = lease_us drain
  | CRelay _ from => from = d_from drain
  | CFinish _ _ prov _ => prov = sender_name (relay env)
  | _ => False
  end.

(** What is known once the relay has answered. *)
Definition answered (row : Claimed) (r : result SendError unit) (d : MailDb) : Prop :=
  match r with Ok _ => took row d | Err _ => True end.

Lemma stable_answered row r L : stable Q L (answered row r).
Proof. destruct r; [apply stable_took|done]. Qed.

Lemma tri_attempt row :
  tri Q drain_causes (holding [] (asked_of row)) (attempt env drain row) (fun r => holding [] (answered row r)).
Proof.
  intros s s' x Hd Hs. unfold attempt.
  pose proof (tri_commit_post (world env) Q meanwhile_others drain_causes [] (asked_of row) (fun _ => took row)
    (Infra "send exceeded the timeout") (dialogue env drain row) (stable_asked row [])) as Ht.
  destruct (committing _ _ _ s) as [s1 r] eqn:E. intros [= <- <-].
  destruct (Ht) with (s := s) (s' := s1) (r := r) as [Hr Hp]; [|done|done|done|].
  - clear. intros t d d' a Hd Ha E. unfold dialogue in E. destruct (send _ t _); [|done]. injection E as <- _. split.
    + right. exists (CRelay row (d_from drain)). split; [done|]. simpl. by rewrite check_run.
    + unfold took. simpl. apply Exists_app. right. constructor. done.
  - split; [done|]. intros a [= <-]. destruct r as [[]|e]; simpl; [by apply (Hp ())|]. split; [set_solver|done].
Qed.

Lemma settles row r tries max d : answered row r d → may_settle row (disposition r tries max) d.
Proof. destruct r as [[]|[x|x]]; simpl; [done|done|]. intros _. by destruct (max <=? tries). Qed.

Lemma tri_drain_rows n deadline :
  tri Q drain_causes (holding [] (fun _ => True)) (drain_rows env drain n deadline) (fun _ _ => True).
Proof.
  induction n as [|n IH]; cbn [drain_rows]; [by apply tri_ret|].
  assert (Hat : ∀ {A B} (f : nat → A) (k : A → ST (Task MailDb) string B) Ψ, (∀ a, tri Q drain_causes (holding [] (fun _ => True)) (k a) Ψ) →
    tri Q drain_causes (holding [] (fun _ => True)) (at_tick f ≫= k) Ψ).
  { intros A B f k Ψ Hk s s' r Hd Hs E. apply (Hk (f (tick s)) s s' r Hd Hs). exact E. }
  apply Hat. intros []; [by apply tri_ret|]. apply Hat. intros now. destruct (_ <? _); [by apply tri_ret|].
  unfold commit. apply tri_commit_bind; [done|apply stable_true|].
  intros t d d' x Hd _ E%st_map_err_ok. apply claim_due_does in E; [|done]. destruct x as [row|].
  - destruct E as [E Ha]. split; [right; by eexists (CClaim _ _ _)|]. exists (asked_of row). split; [done|].
    eapply tri_bind; [apply tri_attempt|]. intros r. apply tri_commit_bind; [done|apply stable_answered|].
    intros t2 d2 d3 k Hd2 Hr E2%st_map_err_ok. apply finish_does in E2; [|by apply settles]. split.
    + destruct E2 as [[_ ->]|[_ E2]]; [by left|right]. by eexists (CFinish _ _ _ _).
    + exists (fun _ => True). split; [done|]. apply IH.
  - split; [by left|]. exists (fun _ => True). split; [done|]. by apply tri_ret.
Qed.

Lemma tri_drain_pass deadline :
  tri Q drain_causes (holding [] (fun _ => True)) (drain_pass env drain deadline) (fun _ _ => True).
Proof.
  unfold drain_pass. eapply tri_bind; [apply tri_drain_rows|]. intros _ s s' r Hd _ E.
  exact (tri_reading_free (world env) Q meanwhile_others drain_causes _ _ _ s s' r Hd I E).
Qed.

(** The ingress enqueues what the policy admits. *)
Definition enqueues (m : NewMail) (c : Cause) : Prop := validate_new m = Ok () ∧ ∃ id now, c = CEnqueue id m now.

Lemma tri_at {E A B} P (f : nat → A) (k : A → ST (Task MailDb) E B) :
  (∀ a, tri Q P (fun _ => True) (k a) (fun _ _ => True)) → tri Q P (fun _ => True) (at_tick f ≫= k) (fun _ _ => True).
Proof. intros Hk s s' r Hd Hs Er. apply (Hk (f (tick s)) s s' r Hd Hs). exact Er. Qed.

Lemma tri_read_op {A} P (m : Z → ST MailDb SqlError A) : tri Q P (fun _ => True) (read_op env m) (fun _ _ => True).
Proof. apply tri_at. intros now. by apply tri_reading_free. Qed.

Lemma tri_commit_op {A} P (m : nat → ST MailDb SqlError A) :
  (∀ t d d' a, mail_inv d → m t d = (d', Ok a) → d' = d ∨ ∃ c, P c ∧ does c d = Some d') →
  tri Q P (fun _ => True) (commit_op env m) (fun _ _ => True).
Proof.
  intros Hm. apply tri_commit_free; [done|]. intros t d d' a Hd E%st_map_err_ok. by eapply Hm.
Qed.

Lemma tri_enqueue_on m : tri Q (enqueues m) (fun _ => True) (enqueue_on env m) (fun _ _ => True).
Proof.
  unfold enqueue_on. apply tri_lift_bind. intros [] Hv. unfold enqueue_tx. apply tri_seq.
  - apply tri_commit_op. intros t d d' x _ E%insert_outbox_does. destruct x as [id|]; [right|left; apply E].
    destruct E as [_ E]. eexists. split; [|exact E]. split; [done|eauto].
  - intros [id|]; [by apply tri_ret|]. apply tri_seq; [apply tri_read_op|]. intros x. by apply tri_ret.
Qed.

(** What each entry point may do. *)
Inductive MailOp := ORequest (e : SendRequested) | ODrain (pass_deadline : Z) | OSubmit (values : Vars) | OPage (values : Vars).

Definition op_run (op : MailOp) (s : Task MailDb) : Task MailDb :=
  match op with
  | ORequest e => fst (on_send_requested env e s)
  | ODrain z => fst (drain_pass env drain z s)
  | OSubmit v => fst (apply_submit env v s)
  | OPage v => fst (build_content env v s)
  end.

Definition commands (op : MailOp) (c : Cause) : Prop :=
  match op with
  | ORequest e => enqueues (mkNewMail (ev_key e) (ev_to e) (ev_subject e) (ev_body e) (ev_kind e)) c
  | ODrain _ => drain_causes c
  | OSubmit v =>
      let action := param v "_action" in
      match c with
      | CRequeue l _ => action = "requeue-all-parked" ∨ (action = "requeue" ∧ ∃ u, l = [u] ∧ uuid_in (param v "mail_id") = Some u)
      | CCancel u _ => action = "cancel" ∧ uuid_in (param v "mail_id") = Some u
      | CEnqueue _ m _ => action = "send-test" ∧ is_test_key (n_key m) = true ∧ n_recipient m = param v "test_to" ∧ validate_new m = Ok ()
      | _ => False
      end
  | OPage _ => False
  end.

Lemma selected_id_ok v id : selected_id v = Ok id → id = param v "mail_id".
Proof.
  unfold selected_id, required. destruct (str_is_empty _); [done|]. simpl. destruct (is_outbox_id _); [|done]. by intros [= <-].
Qed.

Lemma tri_sub {E A} P P' (m : ST (Task MailDb) E A) :
  (∀ c, P c → P' c) → tri Q P (fun _ => True) m (fun _ _ => True) → tri Q P' (fun _ => True) m (fun _ _ => True).
Proof.
  intros HP Hm s s' r Hd Hs Er. destruct (Hm s s' r Hd Hs Er) as [Hr _]. split; [|done]. eapply rtc_subrel; [|exact Hr].
  intros x y [(c & Hc & Ec)|Ho]; [left; eauto|by right].
Qed.

Lemma tri_submit v : tri Q (commands (OSubmit v)) (fun _ => True) (apply_submit env v) (fun _ _ => True).
Proof.
  assert (Hms : ∀ n P, tri Q P (fun _ => True) (moved_or_stale n) (fun _ _ => True)).
  { intros n P. unfold moved_or_stale. destruct (n =? 0); [apply tri_fail|by apply tri_ret]. }
  unfold apply_submit. case_bool_decide as H1; [|case_bool_decide as H2; [|case_bool_decide as H3; [|case_bool_decide as H4]]].
  - apply tri_lift_bind. intros id ->%selected_id_ok. apply tri_seq; [apply tri_map_err, tri_commit_op|by intros].
    intros t d d' n _ [->|(u & Hu & E)]%requeue_parked_does; [by left|right]. eexists. split; [|exact E]. simpl. eauto 6.
  - apply tri_seq; [apply tri_map_err, tri_commit_op|by intros; apply tri_ret].
    intros t d d' n _ (l & E & _)%requeue_all_does. right. eexists. split; [|exact E]. by left.
  - apply tri_lift_bind. intros id ->%selected_id_ok. apply tri_seq; [apply tri_map_err, tri_commit_op|by intros].
    intros t d d' n _ [->|(u & Hu & E)]%cancel_pending_does; [by left|right]. eexists. split; [|exact E]. done.
  - apply tri_lift_bind. intros to Hto. apply tri_lift_bind. intros key Hkey. apply tri_seq.
    + apply tri_map_err. unfold enqueue_from_admin. simpl. unfold rendered_key in Hkey. destruct (is_test_key _) eqn:Ek; [injection Hkey as <-|done].
      rewrite Ek. simpl. eapply tri_sub; [|apply tri_enqueue_on]. intros c [Hv (id & now & ->)]. simpl. split_and!; try done.
      unfold required in Hto. by destruct (str_is_empty _); [|injection Hto as <-].
    + intros []; [by apply tri_ret..|apply tri_fail].
  - destruct (str_is_empty _); apply tri_fail.
Qed.

(** Every entry point of the module, whatever others commit between its statements,
    whichever of them fails or loses its answer and however the relay answers, changes
    the outbox only as it is meant to: a request enqueues itself if the policy admits
    it; a drain pass claims due rows, relays what was asked and records as sent only
    what the relay took; a submit does what its action says to the row it names; the
    page changes nothing. *)
Theorem mail_ops_refine op s :
  mail_inv (db s) → rtc (own Q (commands op)) (db s) (db (op_run op s)).
Proof.
  intros Hd. destruct op as [e|z|v|v]; simpl op_run.
  - pose proof (tri_run Q _ (enqueue_on env (mkNewMail (ev_key e) (ev_to e) (ev_subject e) (ev_body e) (ev_kind e))) s (tri_enqueue_on _) Hd) as Hr.
    unfold on_send_requested, enqueue_or_skip. destruct (enqueue_on _ _ s) as [s' [[| |]|x]]; [done..|]. by case_bool_decide.
  - eapply (tri_start (world env)), Hd; [done|]. apply tri_drain_pass.
  - by apply tri_run, Hd; apply tri_submit.
  - apply tri_run, Hd. unfold build_content. destruct (_ && _); [by apply tri_ret|].
    apply tri_seq; [apply tri_read_op|]. intros st. apply tri_seq; [apply tri_read_op|]. intros l. by apply tri_ret.
Qed.
End Refine.
