(* ===== verification/MailOutcome.v ===== *)
(** * MailOutcome: what the mail operations come to

    The decision of a request on every branch, a drain pass over a quiet outbox, the
    bounds of the configuration and of the drain's budgets, the retention prune, and the
    row whose attempts all die. *)

From Stdlib Require Import Ascii.
From stdpp Require Import sorting.
From S2P Require Import Prelude Text OpsApi Pg Prune Directory Txn Mail MailSafety MailContract.
#[local] Open Scope Z_scope.

Section Requests.
Context `{Lettre}.

(** ** A request *)

Lemma cap_check_ok cap v : cap_check cap v = Ok () ↔ (byte_len v <= max_bytes cap)%N.
Proof. unfold cap_check. destruct (N.ltb_spec (max_bytes cap) (byte_len v)); split; try done; lia. Qed.

(** The policy refuses what the columns would. *)
Lemma validate_fits m : validate_new m = Ok () → fits m.
Proof.
  unfold validate_new. destruct (str_is_empty (trim (n_key m))); [done|]. intros ([] & Hk%cap_check_ok & E)%bind_ok.
  apply bind_ok in E as (a & Ha & E). apply bind_ok in E as ([] & Hs%cap_check_ok & E). destruct (has_control _); [done|].
  apply bind_ok in E as ([] & Hb%cap_check_ok & E). destruct (str_is_empty _); [done|]. apply cap_check_ok in E.
  assert (Hr : (byte_len (n_recipient m) <= 320)%N).
  { unfold parse_address in Ha. destruct (str_is_empty _); [done|].
    destruct (N.ltb_spec (N.of_nat MAX_ADDRESS_BYTES) (byte_len (n_recipient m))) as [?|Hle]; [done|]. exact Hle. }
  unfold fits, SCHEMA_CHECKS. simpl in *. repeat (constructor; simpl; [by apply N.leb_le|]). constructor.
Qed.

Lemma validate_invalid m e : validate_new m = Err e → status e = Invalid.
Proof.
  assert (Hcap : ∀ cap v e', cap_check cap v = Err e' → status e' = Invalid).
  { intros cap v e'. unfold cap_check. case_match; by intros [= <-]. }
  unfold validate_new. destruct (str_is_empty (trim (n_key m))); [by intros [= <-]|]. intros [?|(? & _ & E)]%bind_err; [eauto|].
  apply bind_err in E as [E|(? & _ & E)]; [unfold map_err in E; case_match; [done|by injection E as <-]|].
  apply bind_err in E as [?|(? & _ & E)]; [eauto|]. destruct (has_control _); [by injection E as <-|].
  apply bind_err in E as [?|(? & _ & E)]; [eauto|]. destruct (str_is_empty _); [by injection E as <-|]. eauto.
Qed.

Lemma check_columns_run m d : fits m → check_columns m d = (d, Ok ()).
Proof.
  unfold check_columns, fits. generalize (SCHEMA_CHECKS m). intros l Hl. destruct (List.find _ l) as [[c b]|] eqn:E; [|done].
  apply List.find_some in E as [Hin Hb]. rewrite Forall_forall in Hl. apply list_elem_of_In in Hin. apply Hl in Hin. simpl in *. by subst.
Qed.

(** The texts of a request hold no zero byte, since the plane keeps it as [jsonb]. *)
Definition no_nul (m : NewMail) : Prop := existsb has_nul [n_key m; n_recipient m; n_subject m; n_body m; n_kind m] = false.

Lemma insert_run now fresh m d :
  fits m → no_nul m → asked d !! fresh = None →
  insert_outbox_tx now fresh m d =
  match key_row (n_key m) (outbox d) with
  | Some _ => (d, Ok None)
  | None => (mkMailDb (<[fresh := new_row now m]> (outbox d)) (relayed d) (<[fresh := m]> (asked d)) (withdrawn d), Ok (Some fresh))
  end.
Proof.
  intros Hf Hn Ha. unfold insert_outbox_tx, bind_text. unfold no_nul in Hn. rewrite Hn.
  rewrite (st_bind_run _ _ d d ()) by done. rewrite (st_bind_run _ _ d d ()) by by apply check_columns_run.
  rewrite (st_bind_run _ _ d d (outbox d)) by done. destruct (key_row _ _); [done|].
  rewrite (st_bind_run _ _ d d (asked d)) by done. rewrite bool_decide_eq_false_2; [done|]. rewrite Ha. by intros [? ?].
Qed.

(** A message that a row already stands for: the same, or the same but for the body of
    one that was delivered. *)
Definition stands_for (r : Mail) (m : NewMail) : Prop :=
  recipient r = n_recipient m ∧ subject r = n_subject m ∧ kind r = n_kind m ∧ (state r = STATE_SENT ∨ body r = n_body m).

#[local] Instance stands_for_dec r m : Decision (stands_for r m).
Proof. unfold stands_for. apply _. Defined.

Lemma classify_stands m r :
  classify_existing m (mkExisting (recipient r) (subject r) (body r) (kind r) (state r)) = Duplicate ↔ stands_for r m.
Proof.
  unfold classify_existing, stands_for, body_is_comparable. simpl. rewrite negb_involutive.
  repeat case_bool_decide; simpl; split; intros; destruct_and?; try done; naive_solver.
Qed.

Variable env : MEnv.
Hypothesis quiet : ∀ t L d, meanwhile (world env) t L d = d.
Hypothesis answers : ∀ t, fate (world env) t = Answers.

Lemma commit_op_run {A} (m : nat → ST MailDb SqlError A) s d' a :
  m (tick s) (db s) = (d', Ok a) → commit_op env m s = (mkTask d' (S (tick s)) (locks s), Ok a).
Proof. intros E. unfold commit_op, committing, seen, st_map_err. by rewrite quiet, answers, E. Qed.

Lemma read_op_run {A} (m : Z → ST MailDb SqlError A) s a :
  snd (m (now_at (world env) (tick s)) (db s)) = Ok a → read_op env m s = (mkTask (db s) (S (tick s)) (locks s), Ok a).
Proof. intros E. unfold read_op, mbind, ST_bind, at_tick, gets, reading, seen. by rewrite quiet, answers, E. Qed.

Lemma existing_run key d id r :
  has_nul key = false → key_row key (outbox d) = Some (id, r) →
  snd (existing_tx key d) = Ok (Some (mkExisting (recipient r) (subject r) (body r) (kind r) (state r))).
Proof. intros Hk Er. unfold existing_tx, bind_text. simpl. rewrite Hk. simpl. by rewrite Er. Qed.

(** A durable request is decided on every branch, and never as an error that would
    stop the subscription: what the policy refuses is skipped with the tables untouched;
    under a new key exactly one pending row appears, with what was asked; under a key
    that is there the tables stay as they are, and the request counts as a replay
    exactly if the row stands for the same message. *)
Theorem mail_request_decided e s :
  let m := mkNewMail (ev_key e) (ev_to e) (ev_subject e) (ev_body e) (ev_kind e) in
  no_nul m → asked (db s) !! fresh_id env (tick s) = None →
  ∃ s' out, on_send_requested env e s = (s', Ok out) ∧
  match validate_new m, key_row (ev_key e) (outbox (db s)) with
  | Err _, _ => s' = s ∧ out = SkippedInvalid
  | Ok _, None =>
      out = NotSkipped ∧ outbox (db s') = <[fresh_id env (tick s) := new_row (now_at (world env) (tick s)) m]> (outbox (db s))
  | Ok _, Some (_, r) => outbox (db s') = outbox (db s) ∧ (out = NotSkipped ↔ stands_for r m) ∧ (out = SkippedConflict ↔ ¬ stands_for r m)
  end.
Proof.
  intros m Hn Ha. unfold on_send_requested, enqueue_or_skip, enqueue_on. fold m.
  destruct (validate_new m) as [[]|x] eqn:Ev.
  2:{ rewrite (st_bind_stop _ _ s s x) by done. rewrite bool_decide_eq_true_2 by by eapply validate_invalid. by eexists s, _. }
  rewrite (st_bind_run _ _ s s ()) by done. unfold enqueue_tx.
  pose proof (insert_run (now_at (world env) (tick s)) (fresh_id env (tick s)) m (db s) (validate_fits m Ev) Hn Ha) as Ei.
  change (ev_key e) with (n_key m). destruct (key_row (n_key m) (outbox (db s))) as [[id r]|] eqn:Ek.
  - rewrite (st_bind_run _ _ _ _ _ (commit_op_run _ s _ _ Ei)).
    erewrite (st_bind_run _ _ (mkTask (db s) _ _)); [|apply read_op_run, (existing_run (n_key m) _ id r); [by apply orb_false_iff in Hn as [? _]|exact Ek]].
    simpl. destruct (decide (stands_for r m)) as [Hs|Hs].
    + rewrite (proj2 (classify_stands m r) Hs). eexists _, _. split; [done|]. simpl. split_and!; naive_solver.
    + destruct (classify_existing _ _) eqn:Ec; [unfold classify_existing in Ec; by destruct (_ && _)|by apply classify_stands in Ec|].
      eexists _, _. split; [done|]. simpl. split_and!; naive_solver.
  - rewrite (st_bind_run _ _ _ _ _ (commit_op_run _ s _ _ Ei)). eexists _, _. by split.
Qed.
End Requests.

(** ** A pass over a quiet outbox *)

Section QuietPass.
Variable env : MEnv.
Variable drain : Drain.
Variables (now deadline : Z).
Hypothesis quiet : ∀ t L d, meanwhile (world env) t L d = d.
Hypothesis answers : ∀ t, fate (world env) t = Answers.
Hypothesis noon : ∀ t, now_at (world env) t = now.
Hypothesis running : ∀ t, stop_seen env t = false.
Hypothesis in_time : ∀ t, d_timeout drain ≤ deadline - instant env t.
Hypothesis free : ∀ t id, held_rows env t id = false.
Hypothesis takes : ∀ t m, send (relay env) t m = Ok ().

Definition due (r : Mail) : bool := in_state STATE_PENDING r && (next_attempt_at r <=? now).

(** The row after its claim and its delivery. *)
Definition delivered (r : Mail) : Mail := settled_row now Sent (sender_name (relay env)) (claimed_row now (lease_us drain) r).

Definition due_map (o : gmap string Mail) : gmap string Mail := filter (fun kv => due (snd kv) = true) o.

Lemma due_elem t o id r : (id, r) ∈ due_rows now (held_rows env t) o ↔ o !! id = Some r ∧ due r = true.
Proof.
  rewrite due_rows_elem, free. unfold due, in_state. rewrite andb_true_iff, bool_decide_eq_true, Z.leb_le. naive_solver.
Qed.

Lemma no_due t o : due_map o = ∅ → due_rows now (held_rows env t) o = [].
Proof.
  intros E. destruct (due_rows now (held_rows env t) o) as [|[id r] l] eqn:El; [done|].
  assert (Hin : (id, r) ∈ (id, r) :: l) by by left. rewrite <- El in Hin. apply due_elem in Hin as [Hr Hd].
  assert (Hm : due_map o !! id = Some r) by by apply map_lookup_filter_Some. by rewrite E in Hm.
Qed.

Lemma some_due t o : due_map o ≠ ∅ → ∃ id r, head (merge_sort due_before (due_rows now (held_rows env t) o)) = Some (id, r).
Proof.
  intros (id & r & Hm)%map_choose. apply map_lookup_filter_Some in Hm as [Hr Hd].
  assert (Hin : (id, r) ∈ merge_sort due_before (due_rows now (held_rows env t) o)) by (rewrite merge_sort_Permutation; by apply due_elem).
  destruct (merge_sort _ _) as [|[i x] l]; [by apply elem_of_nil in Hin|]. by exists i, x.
Qed.

Lemma drain_commit_run {A} (m : nat → ST MailDb SqlError A) s d' a :
  m (tick s) (db s) = (d', Ok a) → commit env m s = (mkTask d' (S (tick s)) (locks s), Ok a).
Proof. intros E. unfold commit, committing, seen, st_map_err. by rewrite quiet, answers, E. Qed.

(** The table and the relay after one row was delivered. *)
Definition deliver (id : string) (r : Mail) (d : MailDb) : MailDb :=
  mkMailDb (<[id := delivered r]> (outbox d))
    (relayed d ++ [mkRelayed id (generation r + 1) (mkOutgoing (d_from drain) (recipient r) (subject r) (body r) (kind r))]) (asked d) (withdrawn d).

Lemma claim_run t id r d :
  head (merge_sort due_before (due_rows now (held_rows env t) (outbox d))) = Some (id, r) → attempts r < i32_max → generation r < i32_max →
  claim_due_tx now (lease_us drain) (held_rows env t) d
  = (set_outbox (insert id (claimed_row now (lease_us drain) r)) d, Ok (Some (claim_of id (claimed_row now (lease_us drain) r)))).
Proof.
  intros Hh Ha Hg. unfold claim_due_tx. rewrite (st_bind_run _ _ d d (outbox d)) by done. rewrite Hh.
  destruct (Z.leb_spec i32_max (attempts r)); [lia|]. destruct (Z.leb_spec i32_max (generation r)); [lia|]. done.
Qed.

Lemma attempt_run row s :
  attempt env drain row s
  = (mkTask (mkMailDb (outbox (db s)) (relayed (db s) ++ [mkRelayed (c_id row) (c_generation row) (outgoing drain row)]) (asked (db s)) (withdrawn (db s)))
       (S (tick s)) (locks s), Ok (Ok ())).
Proof. unfold attempt, committing, seen, dialogue. rewrite quiet, answers, takes. done. Qed.

Lemma finish_run row r d :
  still_claimed row (outbox d) = Some r →
  finish_tx now row Sent (sender_name (relay env)) d = (set_outbox (insert (c_id row) (settled_row now Sent (sender_name (relay env)) r)) d, Ok 1).
Proof. intros E. unfold finish_tx. rewrite (st_bind_run _ _ d d (outbox d)) by done. by rewrite E. Qed.

Lemma drain_one n s id r :
  head (merge_sort due_before (due_rows now (held_rows env (tick s)) (outbox (db s)))) = Some (id, r) → attempts r < i32_max → generation r < i32_max →
  drain_rows env drain (S n) deadline s = drain_rows env drain n deadline (mkTask (deliver id r (db s)) (3 + tick s) (locks s)).
Proof.
  intros Hh Ha Hg. cbn [drain_rows]. rewrite (st_bind_run _ _ s s (stop_seen env (tick s))) by done. rewrite running.
  rewrite (st_bind_run _ _ s s (instant env (tick s))) by done. pose proof (in_time (tick s)) as Ht. unfold saturating_sub.
  destruct (Z.ltb_spec (Z.max 0 (deadline - instant env (tick s))) (d_timeout drain)) as [?|_]; [lia|].
  erewrite (st_bind_run _ _ s) by (apply drain_commit_run; rewrite noon; by apply claim_run). cbv beta iota.
  rewrite (st_bind_run _ _ _ _ _ (attempt_run _ _)). cbn [tick locks db].
  assert (Hp : state r = STATE_PENDING) by (apply head_due, due_rows_elem in Hh; naive_solver).
  erewrite (st_bind_run _ _ (mkTask _ _ _)) by (apply drain_commit_run; rewrite noon; apply finish_run; apply still_claimed_some; cbn [db outbox set_outbox];
    split_and!; [apply lookup_insert_eq|exact Hp|reflexivity]).
  do 2 f_equal. unfold deliver, set_outbox. cbn [outbox relayed asked withdrawn db c_id claim_of]. by rewrite insert_insert_eq.
Qed.

Lemma drain_none n s :
  due_map (outbox (db s)) = ∅ → drain_rows env drain n deadline s = (s, Ok ()) ∨ drain_rows env drain n deadline s = (mkTask (db s) (S (tick s)) (locks s), Ok ()).
Proof.
  intros Hn. destruct n as [|n]; [by left|right]. cbn [drain_rows]. rewrite (st_bind_run _ _ s s (stop_seen env (tick s))) by done. rewrite running.
  rewrite (st_bind_run _ _ s s (instant env (tick s))) by done. pose proof (in_time (tick s)) as Ht. unfold saturating_sub.
  destruct (Z.ltb_spec (Z.max 0 (deadline - instant env (tick s))) (d_timeout drain)) as [?|_]; [lia|].
  erewrite (st_bind_run _ _ s); [|apply drain_commit_run; rewrite noon; unfold claim_due_tx; rewrite (st_bind_run _ _ (db s) (db s) (outbox (db s))) by done;
    rewrite no_due by done; reflexivity]. done.
Qed.

Definition swept (r : Mail) : Mail := if due r then delivered r else r.

Lemma delivered_not_due r : due (delivered r) = false.
Proof. done. Qed.

Lemma drain_rows_all n s :
  (size (due_map (outbox (db s))) ≤ n)%nat →
  (∀ id r, outbox (db s) !! id = Some r → due r = true → attempts r < i32_max ∧ generation r < i32_max) →
  ∃ s', drain_rows env drain n deadline s = (s', Ok ()) ∧ outbox (db s') = swept <$> outbox (db s) ∧
    (∀ x, x ∈ relayed (db s) → x ∈ relayed (db s')) ∧
    ∀ id r, outbox (db s) !! id = Some r → due r = true →
      mkRelayed id (generation r + 1) (mkOutgoing (d_from drain) (recipient r) (subject r) (body r) (kind r)) ∈ relayed (db s').
Proof.
  revert s. induction n as [|n IH]; intros s Hsz Hlim; (destruct (decide (due_map (outbox (db s)) = ∅)) as [He|Hne]).
  1,3: assert (Hnone : ∀ id r, outbox (db s) !! id = Some r → due r = false)
    by (intros id r Hr; destruct (due r) eqn:Ed; [|done];
        assert (Hm : due_map (outbox (db s)) !! id = Some r) by (by apply map_lookup_filter_Some); by rewrite He in Hm);
    assert (Hid : swept <$> outbox (db s) = outbox (db s))
    by (apply map_eq; intros k; rewrite lookup_fmap; destruct (outbox (db s) !! k) as [r|] eqn:Er; [|done]; simpl; unfold swept; by rewrite (Hnone k r Er));
    match goal with |- context [drain_rows _ _ ?n _ _] => destruct (drain_none n s He) as [E|E] end; eexists; (split; [exact E|]); cbn [db];
      (split; [by rewrite Hid|split; [done|]]); intros id r Hr Hd; by rewrite (Hnone id r Hr) in Hd.
  { exfalso. apply Hne, map_size_empty_iff. lia. }
  destruct (some_due (tick s) (outbox (db s)) Hne) as (id & r & Hh).
  assert (Hr : outbox (db s) !! id = Some r ∧ due r = true) by (eapply due_elem; by apply head_due).
  destruct Hr as [Hr Hdue]. destruct (Hlim id r Hr Hdue) as [Ha Hg]. rewrite (drain_one n s id r Hh Ha Hg).
  destruct (IH (mkTask (deliver id r (db s)) (3 + tick s) (locks s))) as (s' & E & Eo & Hkeep & Hrel).
  - cbn [db deliver outbox]. unfold due_map. rewrite map_filter_insert_False by (simpl; by rewrite delivered_not_due).
    rewrite map_filter_delete, map_size_delete_Some by (exists r; by apply map_lookup_filter_Some). unfold due_map in Hsz. lia.
  - cbn [db deliver outbox]. intros i x. rewrite lookup_insert_Some. intros [[<- <-]|[_ Hx]] Hd; [by rewrite delivered_not_due in Hd|by eapply Hlim].
  - exists s'. cbn [db deliver outbox relayed] in *. split_and!; [done| |intros x Hx; apply Hkeep; set_solver|].
    + rewrite Eo, fmap_insert. unfold swept at 1. rewrite delivered_not_due. apply map_eq. intros k.
      destruct (decide (id = k)) as [<-|Hk]; [|by rewrite lookup_insert_ne].
      rewrite lookup_insert_eq, lookup_fmap, Hr. simpl. unfold swept. by rewrite Hdue.
    + intros i x Hx Hd. destruct (decide (i = id)) as [->|Hi].
      * rewrite Hr in Hx. injection Hx as <-. apply Hkeep. apply elem_of_app. right. by apply list_elem_of_singleton.
      * apply Hrel; [by rewrite lookup_insert_ne|done].
Qed.

(** C36: a pass that is left alone delivers everything that is due, up to its batch: each
    due row's message is handed to the relay as it stands, the row is marked sent with
    its body blanked, and every other row is exactly as it was. *)
Theorem quiet_pass_delivers s :
  (size (due_map (outbox (db s))) ≤ DRAIN_BATCH)%nat →
  (∀ id r, outbox (db s) !! id = Some r → due r = true → attempts r < i32_max ∧ generation r < i32_max) →
  ∃ s' g, drain_pass env drain deadline s = (s', Ok g) ∧ outbox (db s') = swept <$> outbox (db s) ∧
    (∀ id r, outbox (db s) !! id = Some r → due r = true →
       state (swept r) = STATE_SENT ∧ body (swept r) = "" ∧
       mkRelayed id (generation r + 1) (mkOutgoing (d_from drain) (recipient r) (subject r) (body r) (kind r)) ∈ relayed (db s')) ∧
    (∀ id r, outbox (db s) !! id = Some r → due r = false → outbox (db s') !! id = Some r).
Proof.
  intros Hsz Hlim. destruct (drain_rows_all DRAIN_BATCH s Hsz Hlim) as (s1 & E & Eo & _ & Hrel).
  unfold drain_pass. rewrite (st_bind_run _ _ _ _ _ E). rewrite (st_bind_run _ _ s1 s1 (now_at (world env) (tick s1))) by done.
  unfold reading, seen. rewrite quiet, answers. eexists _, _. split; [reflexivity|]. cbn [db]. split_and!; [done|..].
  - intros id r Hr Hd. split_and!; [unfold swept; by rewrite Hd..|by apply Hrel].
  - intros id r Hr Hd. rewrite Eo, lookup_fmap, Hr. simpl. unfold swept. by rewrite Hd.
Qed.
End QuietPass.

(** ** Configuration and budgets *)

Lemma ranged_ok key parse dflt lo hi vars z : lo ≤ dflt ≤ hi → ranged key parse dflt lo hi vars = Ok z → lo ≤ z ≤ hi.
Proof.
  intros Hd. unfold ranged. destruct (vars !! key) as [raw|]; [|by intros [= <-]]. destruct (parse (trim raw)); [|done].
  destruct (Z.leb_spec lo z0), (Z.leb_spec z0 hi); simpl; try done. intros [= <-]. lia.
Qed.

(** The budgets for any send timeout the configuration admits. *)
Lemma budgets_fit timeout :
  MILLI ≤ timeout ≤ MAX_SEND_TIMEOUT_MS * MILLI →
  timeout + ACQUIRE_DEADLINE ≤ pass_budget timeout
  ∧ statement_timeout (pass_budget timeout) = pass_budget timeout `div` MILLI
  ∧ (timeout + ACQUIRE_DEADLINE + write_budget timeout ≤ claim_lease timeout ↔ ACQUIRE_DEADLINE ≤ timeout).
Proof.
  unfold pass_budget, write_budget, claim_lease, statement_timeout, saturating_add, saturating_mul, saturating_sub, DRAIN_DEADLINE, ACQUIRE_DEADLINE,
    DURATION_MAX, NANOS, MILLI, MAX_SEND_TIMEOUT_MS, BACKOFF_MAX_SECS, u64_max. intros Ht.
  rewrite !Z.min_r by lia. split_and!; [lia| |lia]. apply clamp_id. unfold i32_max. split.
  - apply Z.div_le_lower_bound; lia.
  - apply Z.div_le_upper_bound; lia.
Qed.

Lemma find_none_forall {A} (f : A → bool) l : List.find f l = None ↔ Forall (fun x => f x = false) l.
Proof.
  induction l as [|x l IH]; simpl; [split; [by constructor|done]|]. rewrite Forall_cons. destruct (f x) eqn:E; [naive_solver|]. rewrite IH. naive_solver.
Qed.

(** A configuration that boots is usable: every number is in its range, so that a
    pass always has room for a first full attempt, its statement timeout is the budget
    itself, and the status write fits the claim's lease exactly when the send timeout is
    no shorter than a checkout; a provider is configured together with a routable sender
    and never with a stray relay variable, and no variable is set but empty. *)
Theorem mail_config_sound `{Lettre} vars cfg :
  from_vars vars = Ok cfg →
  let t := send_timeout cfg in
  (t + ACQUIRE_DEADLINE ≤ pass_budget t ∧ statement_timeout (pass_budget t) = pass_budget t `div` MILLI
   ∧ (t + ACQUIRE_DEADLINE + write_budget t ≤ claim_lease t ↔ ACQUIRE_DEADLINE ≤ t))
  ∧ 1 ≤ max_attempts cfg ≤ MAX_MAX_ATTEMPTS ∧ 1 ≤ retention_days cfg ≤ MAX_RETENTION_DAYS
  ∧ Forall (fun key => vars !! key ≠ Some "") MAIL_VARS
  ∧ match cfg_provider cfg with
    | None => Forall (fun key => vars !! key = None) ("MAIL_PROVIDER" :: "MAIL_FROM" :: SMTP_VARS)
    | Some ps =>
        is_Some (vars !! "MAIL_PROVIDER") ∧ (∃ a, parse_address (ps_from ps) = Ok a)
        ∧ (ps_provider ps = LogProvider → Forall (fun key => vars !! key = None) SMTP_VARS)
    end.
Proof.
  unfold from_vars. destruct (List.find _ MAIL_VARS) eqn:Ef; [done|]. apply find_none_forall in Ef.
  intros (timeout & Ht & E)%bind_ok. apply bind_ok in E as (tries & Hn & E). apply bind_ok in E as (days & Hy & E).
  apply bind_ok in E as (from & Hfrom & E). apply bind_ok in E as (k & Hk & E). apply bind_ok in E as (resolved & Hres & E).
  apply bind_ok in E as ([] & Hstray & E). apply bind_ok in E as (p & Hp & E). injection E as <-. cbn [send_timeout max_attempts retention_days cfg_provider].
  apply ranged_ok in Ht; [|done]. apply ranged_ok in Hn; [|done]. apply ranged_ok in Hy; [|done].
  assert (Hvars : (provider_kind <$> resolved ≠ Some SmtpKind) → Forall (fun key => vars !! key = None) SMTP_VARS).
  { intros Hne. rewrite bool_decide_eq_false_2 in Hstray by done. destruct (List.find _ SMTP_VARS) eqn:Es; [done|]. apply find_none_forall in Es.
    eapply Forall_impl; [exact Es|]. intros key Hkey%bool_decide_eq_false. by apply eq_None_not_Some. }
  split_and!; [apply budgets_fit; unfold MILLI; lia..|lia|lia|lia|lia| |].
  { eapply Forall_impl; [exact Ef|]. by intros key Hkey%bool_decide_eq_false. }
  destruct (vars !! "MAIL_FROM") as [raw|] eqn:Evf.
  - unfold checked_address in Hfrom. destruct (parse_address (trim raw)) as [a|] eqn:Ea; [|done]. injection Hfrom as <-.
    destruct resolved as [pr|]; [|done]. injection Hp as <-. simpl. split_and!; [|by exists a|intros ->; by apply Hvars].
    destruct (vars !! "MAIL_PROVIDER"); [by eexists|]. injection Hk as <-. done.
  - injection Hfrom as <-. destruct resolved as [pr|]; [done|]. injection Hp as <-. constructor; [|constructor; [done|by apply Hvars]].
    destruct (vars !! "MAIL_PROVIDER") as [raw|]; [exfalso|done]. unfold checked_provider in Hk. destruct (kind_from_name (trim raw)) as [[]|]; [..|done];
      injection Hk as <-; [done|]. simpl in Hres. by destruct (smtp_settings vars).
Qed.

(** The waits between attempts: one second, doubled up to five minutes. *)
Lemma backoff_bounds tries : 1 ≤ backoff_secs tries ≤ BACKOFF_MAX_SECS.
Proof.
  unfold backoff_secs, saturating_pow2, BACKOFF_MAX_SECS, u32_max. pose proof (clamp_bounds (tries - 1) 0 30 ltac:(lia)).
  pose proof (Z.pow_pos_nonneg 2 (clamp (tries - 1) 0 30) ltac:(lia) ltac:(lia)). lia.
Qed.

(** ** The retention prune *)

Lemma prunable_settled cutoff r : prunable cutoff r = true ↔ settled r ∧ created_at r < cutoff.
Proof. unfold prunable, in_state, settled. rewrite andb_true_iff, orb_true_iff, !bool_decide_eq_true, Z.ltb_lt. done. Qed.

(** A fire of the prune ends, deletes only rows that are sent or cancelled and older
    than the cutoff, changes no other, and leaves such a row only where another
    transaction held it or the budget ended the fire. *)
Theorem mail_prune_correct cutoff busy elapsed d :
  ∃ d', prune_handler cutoff busy elapsed PRUNE_SCHEDULE_NAME d = Some d' ∧ rtc step d d' ∧
    (∀ id r, outbox d' !! id = Some r → outbox d !! id = Some r) ∧
    (∀ id r, outbox d !! id = Some r → outbox d' !! id = None → settled r ∧ created_at r < cutoff) ∧
    ((∀ i, elapsed i = false) → ∀ id r, outbox d' !! id = Some r → settled r → created_at r < cutoff → ∃ i, busy i id = true).
Proof.
  unfold prune_handler. destruct (prune_run created_at (prunable cutoff) PRUNE_BATCH outbox delete_rows) with (busy := busy) (elapsed := elapsed) (d := d)
    as (d' & E & Hr & Hk & Hg & Hc); [done|unfold PRUNE_BATCH; lia|].
  exists d'. split_and!; [done| |done|intros id r H1 H2; by eapply prunable_settled, Hg|].
  - clear -Hr. induction Hr as [|d d1 d' (w & busy & ->) _ IH]; [done|]. eapply rtc_l; [|exact IH].
    destruct (stale_batch_spec created_at (prunable cutoff) PRUNE_BATCH outbox w busy d) as (_ & Hin & _).
    eexists (CPrune (stale_batch _ _ _ _ _ _ _).*1). simpl. rewrite check_run; [done|]. apply Forall_forall.
    intros id ([i r] & -> & Hi%Hin%stale_rows_elem)%list_elem_of_fmap. destruct Hi as (Hi & [? _]%prunable_settled & _). unfold row_is. simpl. by rewrite Hi.
  - intros He id r Hid Hs Hlt. eapply Hc; [done|done|]. by apply prunable_settled.
Qed.

(** ** A row whose attempts all die *)

Lemma dying_attempts id m n :
  fits m → (Z.of_nat n ≤ i32_max) →
  ∃ d r, rtc step empty_mail d ∧ outbox d !! id = Some r ∧ state r = STATE_PENDING ∧ attempts r = Z.of_nat n ∧ generation r = Z.of_nat n
    ∧ length (relayed d) = n.
Proof.
  intros Hfit. induction n as [|n IH]; intros Hn.
  { exists (mkMailDb (<[id := new_row 0 m]> ∅) [] (<[id := m]> ∅) ∅), (new_row 0 m). split_and!; [|apply lookup_insert_eq|done..].
    apply rtc_once. exists (CEnqueue id m 0). simpl. rewrite check_run; [reflexivity|]. split_and!; [done| |done].
    apply key_row_none. intros i r. by rewrite lookup_empty. }
  destruct IH as (d & r & Hd & Hr & Hp & Ha & Hg & Hl); [lia|].
  set (r' := claimed_row (next_attempt_at r) 0 r). set (d1 := set_outbox (insert id r') d).
  assert (E1 : does (CClaim id (next_attempt_at r) 0) d = Some d1).
  { simpl. rewrite Hr. simpl. rewrite check_run; [done|]. split_and!; [done|lia..]. }
  assert (Ha1 : asked_of (claim_of id r') d1).
  { destruct (mi_rows d (mail_steps_inv _ _ Hd mail_inv_empty) id r Hr) as ((m' & Hm & Hf & _) & _). unfold faithful in Hf. rewrite Hp in Hf.
    unfold asked_of, carries. simpl. rewrite Hm. naive_solver. }
  eexists _, r'. split_and!.
  - etrans; [exact Hd|]. eapply rtc_l; [by eexists|]. apply rtc_once. exists (CRelay (claim_of id r') ""). simpl. rewrite check_run; [reflexivity|done].
  - apply lookup_insert_eq.
  - done.
  - simpl. lia.
  - simpl. lia.
  - simpl. rewrite length_app. simpl. lia.
Qed.

(** Nothing bounds the claims of a row: if every process that claims it dies after the
    relay took the message and before the status is written, the same message is sent
    any number of times and the row is still pending. *)
Theorem dying_attempts_unbounded id m n :
  fits m → (Z.of_nat n ≤ i32_max) →
  ∃ d r, rtc step empty_mail d ∧ outbox d !! id = Some r ∧ state r = STATE_PENDING ∧ attempts r = Z.of_nat n ∧ length (relayed d) = n.
Proof. intros Hf Hn. destruct (dying_attempts id m n Hf Hn) as (d & r & ? & ? & ? & ? & _ & ?). by exists d, r. Qed.

(** ** Examples *)

Module MailExample.
#[local] Existing Instance plain_uuid.

(** A library that routes whatever has an at sign, and whose relay takes everything. *)
#[local] Instance plain_lettre : Lettre := {
  Address := string;
  address_from_str := fun s => if bool_decide ("@"%char ∈ to_bytes s) then Ok s else Err "no domain";
  address_domain := fun s => s;
  relay_builds := fun _ _ => Ok ();
  message_builds := fun _ _ _ _ => Ok ();
  transport_send := fun _ _ _ _ _ => Ok ();
}.

Definition id1 : string := "00000000-0000-0000-0000-000000000001".
Definition hello : NewMail := mkNewMail "verify-1" "ann@example.com" "Verify" "Click here." "verification".

Definition row_at (d : MailDb) : Claimed := claim_of id1 (default (new_row 0 hello) (outbox d !! id1)).
Definition run (l : list Cause) (d : MailDb) : MailDb := foldl (fun d c => default d (does c d)) d l.

Definition enqueued : MailDb := run [CEnqueue id1 hello 10] empty_mail.
Definition claimed : MailDb := run [CClaim id1 10 30] enqueued.
Definition reclaimed : MailDb := run [CClaim id1 40 30] claimed.
Definition relayed_db : MailDb := run [CRelay (row_at reclaimed) "game@example.com"] reclaimed.
Definition sent_db : MailDb := run [CFinish (row_at reclaimed) Sent LOG 45] relayed_db.

Definition sent_row : Mail := settled_row 45 Sent LOG (claimed_row 40 30 (claimed_row 10 30 (new_row 10 hello))).

Lemma enqueued_reached : rtc step empty_mail enqueued.
Proof. apply rtc_once. exists (CEnqueue id1 hello 10). vm_compute. reflexivity. Qed.

Lemma claimed_reached : rtc step enqueued claimed.
Proof. apply rtc_once. exists (CClaim id1 10 30). vm_compute. reflexivity. Qed.

Lemma sent_reached : rtc step reclaimed sent_db.
Proof.
  eapply rtc_l; [exists (CRelay (row_at reclaimed) "game@example.com"); vm_compute; reflexivity|].
  apply rtc_once. exists (CFinish (row_at reclaimed) Sent LOG 45). vm_compute. reflexivity.
Qed.

Lemma reclaimed_step : does (CClaim id1 40 30) claimed = Some reclaimed.
Proof. vm_compute. reflexivity. Qed.


(** The first process comes back after the second has delivered, and writes nothing. *)
Lemma overtaken_attempt_misses_witness :
  finish_tx 50 (claim_of id1 (claimed_row 10 30 (new_row 10 hello))) (Parked "late") LOG sent_db = (sent_db, Ok 0).
Proof.
  refine (overtaken_attempt_misses claimed claimed reclaimed sent_db (CClaim id1 40 30) id1 (claimed_row 10 30 (new_row 10 hello))
    50 (Parked "late") LOG _ _ _ reclaimed_step eq_refl sent_reached).
  - etrans; [exact enqueued_reached|exact claimed_reached].
  - vm_compute. reflexivity.
  - reflexivity.
Defined.

(** An operator cancels while the relay is being spoken to. *)
Definition cancels (t : nat) (L : list Z) (d : MailDb) : MailDb := if Nat.eqb t 1 then default d (does (CCancel id1 20) d) else d.

Definition busy_env : MEnv :=
  mkMEnv (mkWorld cancels (fun _ => Answers) (fun _ => 12)) (fun _ _ => false) (fun _ => id1) (fun _ => false) (fun _ => 0) LogSender.

Definition the_drain : Drain := mkDrain "game@example.com" (10000 * MILLI) 20.

Lemma cancels_others t L d : rtc (others (eq (CCancel id1 20)) L) d (cancels t L d).
Proof.
  unfold cancels. destruct (Nat.eqb t 1); [|done]. destruct (does _ d) as [d'|] eqn:E; [|done].
  apply rtc_once. exists (CCancel id1 20). by split_and!.
Qed.

Lemma mail_ops_refine_witness :
  let s := mkTask enqueued 0 [] in let s' := op_run busy_env the_drain (ODrain (30 * NANOS)) s in
  rtc (own (eq (CCancel id1 20)) (commands busy_env the_drain (ODrain (30 * NANOS)))) (db s) (db s') ∧
  state <$> outbox (db s') !! id1 = Some STATE_CANCELLED ∧ length (relayed (db s')) = 1%nat.
Proof.
  split; [|split; vm_compute; reflexivity].
  apply (mail_ops_refine busy_env the_drain (eq (CCancel id1 20)) cancels_others (ODrain (30 * NANOS)) (mkTask enqueued 0 [])).
  exact (mail_steps_inv _ _ enqueued_reached mail_inv_empty).
Defined.

Definition quiet_env : MEnv :=
  mkMEnv (mkWorld (fun _ _ d => d) (fun _ => Answers) (fun _ => 12)) (fun _ _ => false) (fun _ => id1) (fun _ => false) (fun _ => 0) LogSender.

Lemma mail_request_decided_witness :
  ∃ s' out, on_send_requested quiet_env (mkSendRequested "verify-1" "ann@example.com" "Verify" "Click here." "verification") (mkTask empty_mail 0 []) = (s', Ok out)
    ∧ out = NotSkipped.
Proof.
  destruct (mail_request_decided quiet_env (fun _ _ _ => eq_refl) (fun _ => eq_refl)
    (mkSendRequested "verify-1" "ann@example.com" "Verify" "Click here." "verification") (mkTask empty_mail 0 [])) as (s' & out & E & H).
  - vm_compute. reflexivity.
  - vm_compute. reflexivity.
  - exists s', out. split; [exact E|]. vm_compute in H. apply H.
Defined.

Lemma in_budget : d_timeout the_drain ≤ 30 * NANOS - 0.
Proof. vm_compute. discriminate. Qed.

Lemma one_due : (size (due_map 12 (outbox (db (mkTask enqueued 0 [])))) ≤ DRAIN_BATCH)%nat.
Proof. apply Nat.leb_le. vm_compute. reflexivity. Qed.

Lemma few_attempts id r : outbox (db (mkTask enqueued 0 [])) !! id = Some r → due 12 r = true → attempts r < i32_max ∧ generation r < i32_max.
Proof.
  assert (E : outbox (db (mkTask enqueued 0 [])) = {[id1 := new_row 10 hello]}) by (vm_compute; reflexivity). rewrite E.
  intros [<- <-]%lookup_singleton_Some _. done.
Qed.

Lemma quiet_pass_delivers_witness :
  ∃ s' g, drain_pass quiet_env the_drain (30 * NANOS) (mkTask enqueued 0 []) = (s', Ok g) ∧ outbox (db s') = swept quiet_env the_drain 12 <$> outbox enqueued.
Proof.
  destruct (quiet_pass_delivers quiet_env the_drain 12 (30 * NANOS) (fun _ _ _ => eq_refl) (fun _ => eq_refl) (fun _ => eq_refl) (fun _ => eq_refl)
    (fun _ => in_budget) (fun _ _ => eq_refl) (fun _ _ => eq_refl) (mkTask enqueued 0 []) one_due few_attempts) as (s' & g & E & Eo & _).
  exists s', g. split; [exact E|exact Eo].
Defined.

Definition log_vars : gmap string string := <["MAIL_PROVIDER" := "log"]> (<["MAIL_FROM" := "game@example.com"]> ∅).

Lemma mail_config_sound_witness : ∃ cfg, from_vars log_vars = Ok cfg ∧ send_timeout cfg + ACQUIRE_DEADLINE ≤ pass_budget (send_timeout cfg).
Proof.
  eexists (mkMailConfig (Some (mkProviderSettings LogProvider "game@example.com")) (10000 * MILLI) 20 30).
  assert (E : from_vars log_vars = Ok (mkMailConfig (Some (mkProviderSettings LogProvider "game@example.com")) (10000 * MILLI) 20 30)) by (vm_compute; reflexivity).
  split; [exact E|]. apply (mail_config_sound log_vars _ E).
Defined.
End MailExample.
