(* ===== verification/Notifications.v ===== *)
(** * Notifications: the players' inbox

    [modules/notifications/src].  One table of messages, each addressed to one player.
    A durable event or an operator appends a message under a key that admits it once; its
    player lists, marks and deletes it; retention and the purge of deleted players
    remove the rest.  Statements run against what is committed ([Txn]); an appended
    message answers with the player whose connections are to be nudged. *)

From Stdlib Require Import Ascii.
From stdpp Require Import sorting pretty.
From S2P Require Import Prelude Text OpsApi Pg Purge Prune Directory Txn.
From S2P Require Storage.
#[local] Open Scope Z_scope.

Definition MAX_TITLE_BYTES : nat := 200.
Definition MAX_BODY_BYTES : nat := 4000.
Definition MAX_KIND_BYTES : nat := 64.
Definition MAX_CURSOR_BYTES : nat := 128.
Definition MAX_DEDUP_KEY_BYTES : nat := 128.
Definition MAX_PAGE_LIMIT : Z := 100.
Definition DEFAULT_PAGE_LIMIT : Z := 25.
Definition NOT_FOUND : string := "notification not found".
Definition MALFORMED_CURSOR : string := "cursor is malformed".
Definition MALFORMED_PLAYER_ID : string := "player_id is not a valid uuid".
Definition PLAYER_DELETED : string := "player has been deleted".
Definition MALFORMED_DEDUP_KEY : string := "dedup key is not an operator key".

(** ** The table *)

Record Message := mkMessage {
  player_id : string; kind : string; title : string; body : string; created_at : Z; read_at : option Z; source_event_id : option string;
}.

#[global] Instance Message_eq_dec : EqDecision Message.
Proof. solve_decision. Defined.

Record InboxDb := mkInbox { messages : gmap string Message; purged_players : Tombs }.

Definition empty_inbox : InboxDb := mkInbox ∅ ∅.
Definition set_messages (f : gmap string Message → gmap string Message) (d : InboxDb) : InboxDb := mkInbox (f (messages d)) (purged_players d).

Abbreviation Sql := (ST InboxDb SqlError).

(** ** The input policy ([service.rs]) *)

Record NewNotification := mkNew { n_player : string; n_kind : string; n_title : string; n_body : string; n_key : string }.

Definition validate_new (n : NewNotification) : result Error unit :=
  if str_is_empty (trim (n_player n)) then Err (mkError Invalid "player_id is required") else
  if str_is_empty (n_kind n) then Err (mkError Invalid "kind is required") else
  if (MAX_KIND_BYTES <? String.length (n_kind n))%nat then Err (mkError Invalid "kind exceeds 64 bytes") else
  if (MAX_TITLE_BYTES <? String.length (n_title n))%nat then Err (mkError Invalid "title exceeds 200 bytes") else
  if (MAX_BODY_BYTES <? String.length (n_body n))%nat then Err (mkError Invalid "body exceeds 4000 bytes") else
  if str_is_empty (trim (n_key n)) then Err (mkError Invalid "dedup key is required") else
  if (MAX_DEDUP_KEY_BYTES <? String.length (n_key n))%nat then Err (mkError Invalid "dedup key exceeds 128 bytes") else Ok ().

Definition OPERATOR_DEDUP_PREFIX : string := "admin-send-mail-".
Definition OPERATOR_DEDUP_HEX : nat := 32.

Definition is_operator_dedup_key (s : string) : bool :=
  match strip_prefix (to_bytes OPERATOR_DEDUP_PREFIX) (to_bytes s) with
  | Some hex => bool_decide (length hex = OPERATOR_DEDUP_HEX) && forallb is_ascii_hexdigit hex
  | None => false
  end.

Definition resolve_limit (limit : Z) : result Error Z :=
  if limit <? 0 then Err (mkError Invalid "limit must not be negative")
  else if limit =? 0 then Ok DEFAULT_PAGE_LIMIT else Ok (Z.min limit MAX_PAGE_LIMIT).

(** ** Statements ([store.rs]) *)

(** [ORDER BY created_at DESC, id DESC]. *)
Definition newer (a b : string * Message) : Prop :=
  created_at (snd b) < created_at (snd a) ∨ (created_at (snd a) = created_at (snd b) ∧ String.le (fst b) (fst a)).

#[global] Instance newer_dec : RelDecision newer.
Proof. intros a b. unfold newer. apply _. Defined.

(** [(created_at, id) < ($2, $3)]; always true on the first page. *)
Definition past_cut (cut : option (Z * string)) (r : string * Message) : bool :=
  match cut with
  | None => true
  | Some (t, i) =>
      (created_at (snd r) <? t)
      || ((created_at (snd r) =? t) && bool_decide (String.le (fst r) i) && negb (bool_decide (fst r = i)))
  end.

Definition of_player (u : string) (r : string * Message) : bool := bool_decide (player_id (snd r) = u).

Definition key_held (key : string) (m : gmap string Message) : bool :=
  existsb (fun kv => bool_decide (source_event_id (snd kv) = Some key)) (map_to_list m).

(** The length checks of the table. *)
Definition column_checks (kind title body : string) : Sql unit :=
  if (200 <? String.length title)%nat then fail (CheckViolation "notifications_title_len_check") else
  if (4000 <? String.length body)%nat then fail (CheckViolation "notifications_body_len_check") else
  if (64 <? String.length kind)%nat then fail (CheckViolation "notifications_kind_len_check") else mret ().

Section Store.
Context `{PgUuid}.

(** [NULLIF($5, '')]. *)
Definition nullif_empty (s : string) : option string := if str_is_empty s then None else Some s.

(** The appended row's id and its player, in the server's spelling; [None] where the key
    is held. *)
Definition insert_tx (now : Z) (fresh player knd ttl bdy key : string) : Sql (option (string * string)) :=
  bind_text [player; knd; ttl; bdy; key];;
  u ← cast_uuid player;
  column_checks knd ttl bdy;;
  m ← gets messages;
  if bool_decide (is_Some (m !! fresh)) then fail UniqueViolation else
  if (match nullif_empty key with Some k => key_held k m | None => false end) then mret None else
  modify (set_messages (insert fresh (mkMessage u knd ttl bdy now None (nullif_empty key))));;
  mret (Some (fresh, u)).

Definition is_player_purged_tx (player : string) : Sql bool :=
  bind_text [player];; u ← cast_uuid player; gets (fun d => bool_decide (is_Some (purged_players d !! u))).

(** A malformed id is no row. *)
Definition or_none {A} (none : A) (m : Sql A) : Sql A := fun d =>
  match m d with (_, Err InvalidTextRepresentation) => (d, Ok none) | r => r end.

Definition mark_read_owned_tx (now : Z) (id player : string) : Sql bool := or_none false (
  bind_text [id; player];;
  i ← cast_uuid id; u ← cast_uuid player;
  m ← gets messages;
  match m !! i with
  | Some r =>
      if negb (bool_decide (player_id r = u)) then mret false else
      modify (set_messages (insert i (mkMessage (player_id r) (kind r) (title r) (body r) (created_at r)
        (Some (default now (read_at r))) (source_event_id r))));; mret true
  | None => mret false
  end).

Definition delete_owned_tx (id player : string) : Sql bool := or_none false (
  bind_text [id; player];;
  i ← cast_uuid id; u ← cast_uuid player;
  m ← gets messages;
  match m !! i with
  | Some r => if negb (bool_decide (player_id r = u)) then mret false else modify (set_messages (delete i));; mret true
  | None => mret false
  end).

Definition plant_purged_player_tx (player handle : string) : Sql unit :=
  bind_text [player; handle];;
  u ← cast_uuid player;
  modify (fun d => mkInbox (messages d)
    (match purged_players d !! u with Some _ => purged_players d | None => <[u := (handle, false)]> (purged_players d) end)).

Definition matches_tx (player knd ttl bdy key : string) : Sql bool :=
  bind_text [player; knd; ttl; bdy; key];;
  u ← cast_uuid player;
  gets (fun d => existsb (fun kv => let r := snd kv in
    bool_decide (source_event_id r = Some key) && bool_decide (player_id r = u) && bool_decide (kind r = knd)
    && bool_decide (title r = ttl) && bool_decide (body r = bdy)) (map_to_list (messages d))).

(** *** Reads *)

Section Reads.
Context (pf : Storage.Platform).

Record Notification := mkNotification {
  nt_id : string; nt_kind : string; nt_title : string; nt_body : string; nt_created_at : string; nt_read_at : string;
}.

Definition row_to_notification (r : string * Message) : Notification :=
  let m := snd r in
  mkNotification (fst r) (kind m) (title m) (body m) (Storage.timestamp pf (created_at m)) (from_option (Storage.timestamp pf) "" (read_at m)).

Definition inbox_rows (u : string) (cut : option (Z * string)) (d : InboxDb) : list (string * Message) :=
  merge_sort newer (List.filter (fun r => of_player u r && past_cut cut r) (map_to_list (messages d))).

Definition page_by_player (player : string) (after : option (string * string)) (limit : Z) : Sql (list Notification) := or_none [] (
  bind_text (player :: match after with Some (t, i) => [t; i] | None => [] end);;
  u ← cast_uuid player;
  cut ← (match after with
         | Some (t, i) => t' ← lift (ok_or (Storage.timestamptz_in pf t) OtherSqlError); i' ← cast_uuid i; mret (Some (t', i'))
         | None => mret None
         end : Sql (option (Z * string)));
  gets (fun d => row_to_notification <$> take (Z.to_nat limit) (inbox_rows u cut d))).

Definition recent (limit : nat) : Sql (list (string * Notification)) :=
  gets (fun d => (fun r => (player_id (snd r), row_to_notification r)) <$> take limit (merge_sort newer (map_to_list (messages d)))).

(** The messages of a player, and the unread among them. *)
Definition player_stats (player : string) : Sql (Z * Z) := or_none (0, 0) (
  bind_text [player];; u ← cast_uuid player;
  gets (fun d => let l := List.filter (of_player u) (map_to_list (messages d)) in
    (Z.of_nat (length l), Z.of_nat (length (List.filter (fun r => bool_decide (read_at (snd r) = None)) l))))).

(** *** The cursor *)

Definition encode_cursor (created id : string) : string := Storage.b64_encode pf (created +:+ "|" +:+ id).

Definition decode_cursor (cursor : string) : result Error (option (string * string)) :=
  if str_is_empty cursor then Ok None else
  if (MAX_CURSOR_BYTES <? String.length cursor)%nat then Err (mkError Invalid "cursor exceeds 128 bytes") else
  raw ← ok_or (Storage.b64_decode pf cursor) (mkError Invalid MALFORMED_CURSOR);
  if negb (Storage.utf8_valid (to_bytes raw)) then Err (mkError Invalid MALFORMED_CURSOR) else
  match split_once "|" (to_bytes raw) with
  | None => Err (mkError Invalid MALFORMED_CURSOR)
  | Some (t, i) =>
      if negb (Storage.is_cursor_time (of_bytes t)) || negb (Storage.is_uuid_text (of_bytes i))
      then Err (mkError Invalid MALFORMED_CURSOR) else Ok (Some (of_bytes t, of_bytes i))
  end.
End Reads.

(** ** The service *)

Record NEnv := mkNEnv { world : World InboxDb; fresh : nat → string }.

Section Service.
Variable env : NEnv.
Abbreviation M := (ST (Task InboxDb)).

Definition read {A} (f : SqlError → Error) (m : Sql A) : M Error A := reading (world env) internal_error f m.
Definition commit {A} (f : SqlError → Error) (m : nat → Sql A) : M Error A :=
  committing (world env) internal_error (fun t => st_map_err f (m t)).
Definition internal (_ : SqlError) : Error := internal_error.

(** A malformed player id is a data-quality rejection. *)
Definition player_error (e : SqlError) : Error :=
  match e with InvalidTextRepresentation => mkError Invalid MALFORMED_PLAYER_ID | _ => internal_error end.

(** [Service::deliver_on]: the player to nudge, if the message was appended. *)
Definition deliver_on (n : NewNotification) : M Error (option string) :=
  lift (validate_new n);;
  purged ← read player_error (is_player_purged_tx (n_player n));
  if (purged : bool) then fail (mkError Invalid PLAYER_DELETED) else
  appended ← commit player_error (fun t => insert_tx (now_at (world env) t) (fresh env t) (n_player n) (n_kind n) (n_title n) (n_body n) (n_key n));
  mret (snd <$> appended).

Inductive Sent := Appended | Duplicate | KeyReused.

Definition send_operator_mail (n : NewNotification) : M Error Sent :=
  if negb (is_operator_dedup_key (n_key n)) then fail (mkError Invalid MALFORMED_DEDUP_KEY) else
  appended ← deliver_on n;
  match appended with
  | Some _ => mret Appended
  | None =>
      same ← read internal (matches_tx (n_player n) (n_kind n) (n_title n) (n_body n) (n_key n));
      mret (if (same : bool) then Duplicate else KeyReused)
  end.

Definition identity_of (ident : Identity) : result Error string := ok_or (OpsApi.player_id ident) (mkError Invalid "missing player identity").

Record Page := mkPage { items : list Notification; next_cursor : string }.

Definition list_inbox (pf : Storage.Platform) (ident : Identity) (cursor : string) (limit : Z) : M Error Page :=
  me ← lift (identity_of ident);
  limit ← lift (resolve_limit limit);
  after ← lift (decode_cursor pf cursor);
  found ← read internal (page_by_player pf me after (limit + 1));
  let page := take (Z.to_nat limit) found in
  mret (mkPage page (match last page with
                     | Some r => if limit <? Z.of_nat (length found) then encode_cursor pf (nt_created_at r) (nt_id r) else ""
                     | None => ""
                     end)).

Definition mark_read (ident : Identity) (id : string) : M Error unit :=
  me ← lift (identity_of ident);
  stamped ← commit internal (fun t => mark_read_owned_tx (now_at (world env) t) id me);
  if (stamped : bool) then mret () else fail (mkError NotFound NOT_FOUND).

Definition delete_message (ident : Identity) (id : string) : M Error unit :=
  me ← lift (identity_of ident);
  removed ← commit internal (fun _ => delete_owned_tx id me);
  if (removed : bool) then mret () else fail (mkError NotFound NOT_FOUND).

(** ** Durable handlers ([projection.rs]) *)

(** A data-quality rejection leaves no row and is no error of the delivery. *)
Definition deliver_or_skip (n : NewNotification) : M Error (option string) :=
  if negb (Storage.is_uuid_text (n_player n)) then mret None else fun s =>
  match deliver_on n s with
  | (s', Err e) => if bool_decide (status e = Invalid) then (s', Ok None) else (s', Err e)
  | r => r
  end.

(** The events of other modules the inbox turns into messages. *)
Inductive InboxEvent :=
| WalletChanged (player currency reason : string) (delta balance_after : Z)
| PlayerPromoted (player to_provider : string)
| FriendRequested (addressee requester_handle : string)
| FriendAccepted (requester addressee_handle : string).

Definition wallet_credit_body (currency reason : string) (delta balance_after : Z) : string :=
  pretty delta +:+ " " +:+ currency +:+ " was added to your wallet (" +:+ reason +:+ "). New balance: " +:+ pretty balance_after +:+ ".".
Definition promoted_body (to_provider : string) : string :=
  "Your guest account is now a permanent " +:+ to_provider +:+ " account. Your progress is saved.".
Definition friend_requested_body (handle : string) : string := handle +:+ " sent you a friend request.".
Definition friend_accepted_body (handle : string) : string := handle +:+ " accepted your friend request.".

(** The message of an event; a debit has none. *)
Definition message_of (event_id : string) (e : InboxEvent) : option NewNotification :=
  match e with
  | WalletChanged p c r delta after =>
      if delta <=? 0 then None else Some (mkNew p "wallet.credit" "Currency received" (wallet_credit_body c r delta after) event_id)
  | PlayerPromoted p to => Some (mkNew p "account.promoted" "Welcome — your account is permanent" (promoted_body to) event_id)
  | FriendRequested p h => Some (mkNew p "friend.requested" "New friend request" (friend_requested_body h) event_id)
  | FriendAccepted p h => Some (mkNew p "friend.accepted" "Friend request accepted" (friend_accepted_body h) event_id)
  end.

Definition on_event (event_id : string) (e : InboxEvent) : M Error (option string) :=
  match message_of event_id e with None => mret None | Some n => deliver_or_skip n end.

Definition on_player_deleted (player handle : string) : M Error unit := commit internal (fun _ => plant_purged_player_tx player handle).

(** ** The operator's page ([admin.rs]) *)

Abbreviation Vars := (gmap string string).
Definition param (values : Vars) (field : string) : string := trim (default "" (values !! field)).

Inductive Rejection := Stale | Rejected (msg : string) | InternalRejection (msg : string).

Definition mail_rejection (e : Error) : Rejection :=
  match status e with Internal => InternalRejection (msg e) | _ => Rejected (msg e) end.

Definition required (values : Vars) (field : string) : result Rejection string :=
  let v := param values field in if str_is_empty v then Err (Rejected ("notifications: requires a non-empty " +:+ field)) else Ok v.

Definition rendered_key (values : Vars) : result Rejection string :=
  let key := param values "_idem_send" in if is_operator_dedup_key key then Ok key else Err Stale.

Definition apply_submit (values : Vars) : M Rejection unit :=
  let action := param values "_action" in
  if bool_decide (action = "send-mail") then
    player ← lift (required values "player_id");
    ttl ← lift (required values "title");
    bdy ← lift (required values "body");
    key ← lift (rendered_key values);
    sent ← st_map_err mail_rejection (send_operator_mail (mkNew player "operator.mail" ttl bdy key));
    match sent with Appended | Duplicate => mret () | KeyReused => fail Stale end
  else if str_is_empty action then fail (Rejected "notifications: no action posted")
  else fail (Rejected "notifications: unknown action").
End Service.

(** *** Retention and the purge *)

Definition PRUNE_BATCH : nat := 256.
Definition PURGE_BATCH : nat := 256.
Definition PRUNE_SCHEDULE_NAME : string := "notifications-prune".
Definition PURGE_SCHEDULE_NAME : string := "player-purge".
Definition DEFAULT_RETENTION_DAYS : Z := 30.
Definition MAX_RETENTION_DAYS : Z := 3650.

Definition retention_days_from_env (raw : option string) : option Z :=
  match raw with
  | None => Some DEFAULT_RETENTION_DAYS
  | Some v => days ← parse_i64 (trim v); if (1 <=? days) && (days <=? MAX_RETENTION_DAYS) then Some days else None
  end.

Definition delete_rows (l : list (string * Message)) : InboxDb → InboxDb := set_messages (fun m => foldr delete m l.*1).

(** [PruneHandler::call]. *)
Definition prune_handler (cutoff : Z) (busy : nat → string → bool) (elapsed : nat → bool) (name : string) (d : InboxDb) : option InboxDb :=
  if bool_decide (name ≠ PRUNE_SCHEDULE_NAME) then Some d
  else prune created_at (fun r => created_at r <? cutoff) PRUNE_BATCH messages delete_rows busy elapsed d.

(** The deleted player's messages go, and the tombstone is stamped. *)
Definition purge_player (player handle : string) : Sql unit :=
  bind_text [player];;
  u ← cast_uuid player;
  modify (set_messages (filter (fun kv => player_id (snd kv) ≠ u)));;
  u' ← cast_uuid player;
  modify (fun d => mkInbox (messages d) (marked u' (purged_players d))).

#[global] Instance inbox_sweep : Sweep InboxDb := {| tombs := purged_players; purge_one := purge_player |}.

(** [PurgeSweepHandler::call]. *)
Definition purge_handler (elapsed : nat → bool) (name : string) (d : InboxDb) : option (InboxDb * result SqlError unit) :=
  if bool_decide (name ≠ PURGE_SCHEDULE_NAME) then Some (d, Ok ()) else purge_sweep elapsed PURGE_BATCH d.
End Store.
