(* ===== verification/NotificationsContract.v ===== *)
(** * NotificationsContract: the inbox operations refine their causes

    How the inbox can change and the invariant every change keeps; every operation and
    handler, among the transactions of others, changes it only as its caller may. *)

From Stdlib Require Import Ascii.
From stdpp Require Import sorting.
From S2P Require Import Prelude Text OpsApi Pg Purge Prune Directory Txn Notifications.
From S2P Require Storage StoragePaging WalletContract.
#[local] Open Scope Z_scope.

Section Causes.
Context `{PgUuid}.

Inductive Cause :=
| CAppend (id u : string) (n : NewNotification) (now : Z)
| CRead (id u : string) (now : Z)
| CDelete (id u : string)
| CPrune (l : list string)
| CPlant (u handle : string)
| CPurge (u : string).

Definition new_message (u : string) (n : NewNotification) (now : Z) : Message :=
  mkMessage u (n_kind n) (n_title n) (n_body n) now None (Some (n_key n)).

Definition read_message (now : Z) (r : Message) : Message :=
  mkMessage (player_id r) (kind r) (title r) (body r) (created_at r) (Some (default now (read_at r))) (source_event_id r).

Definition owned (u : string) (o : option Message) : Prop := player_id <$> o = Some u.

#[global] Instance owned_dec u o : Decision (owned u o).
Proof. unfold owned. apply _. Defined.

Definition inbox_does (c : Cause) (d : InboxDb) : option InboxDb :=
  match c with
  | CAppend id u n now =>
      check (messages d !! id = None ∧ key_held (n_key n) (messages d) = false ∧ validate_new n = Ok () ∧ canonical u);;
      Some (set_messages (insert id (new_message u n now)) d)
  | CRead id u now => check (owned u (messages d !! id));; Some (set_messages (alter (read_message now) id) d)
  | CDelete id u => check (owned u (messages d !! id));; Some (set_messages (delete id) d)
  | CPrune l => Some (set_messages (fun m => foldr delete m l) d)
  | CPlant u handle => check (canonical u ∧ purged_players d !! u = None);; Some (mkInbox (messages d) (<[u := (handle, false)]> (purged_players d)))
  | CPurge u =>
      check (is_Some (purged_players d !! u));;
      Some (mkInbox (filter (fun kv => player_id (snd kv) ≠ u) (messages d)) (marked u (purged_players d)))
  end.

(** A message has a player, a key and columns within their caps; no key has two. *)
Definition message_ok (r : Message) : Prop :=
  canonical (player_id r) ∧ is_Some (source_event_id r) ∧ (String.length (title r) ≤ 200)%nat ∧ (String.length (body r) ≤ 4000)%nat
  ∧ (String.length (kind r) ≤ 64)%nat ∧ kind r ≠ "".

Record inbox_inv (d : InboxDb) : Prop := {
  ii_rows : map_Forall (fun _ r => message_ok r) (messages d);
  ii_keys : ∀ i j r r', messages d !! i = Some r → messages d !! j = Some r' → source_event_id r = source_event_id r' → i = j;
  ii_tombs : map_Forall (fun u _ => canonical u) (purged_players d);
}.

Lemma key_held_false key m : key_held key m = false ↔ ∀ i r, m !! i = Some r → source_event_id r ≠ Some key.
Proof.
  unfold key_held. rewrite <- Bool.not_true_iff_false, existsb_exists. split.
  - intros Hn i r Hr Hk. apply Hn. exists (i, r). rewrite <- list_elem_of_In, elem_of_map_to_list. split; [done|]. by apply bool_decide_eq_true.
  - intros Hn ([i r] & Hin & Hk%bool_decide_eq_true). rewrite <- list_elem_of_In, elem_of_map_to_list in Hin. by eapply Hn.
Qed.

Lemma validate_caps n :
  validate_new n = Ok () → (String.length (n_title n) ≤ 200)%nat ∧ (String.length (n_body n) ≤ 4000)%nat ∧ (String.length (n_kind n) ≤ 64)%nat
    ∧ n_kind n ≠ "" ∧ n_key n ≠ "".
Proof.
  unfold validate_new, str_is_empty. repeat (case_match; [done|]). intros _.
  repeat match goal with
  | H : (_ <? _)%nat = false |- _ => apply Nat.ltb_ge in H
  | H : bool_decide _ = false |- _ => apply bool_decide_eq_false in H
  end. unfold MAX_TITLE_BYTES, MAX_BODY_BYTES, MAX_KIND_BYTES in *.
  split_and!; try done. intros E. match goal with H : trim (n_key n) ≠ "" |- _ => apply H end. by rewrite E.
Qed.

Lemma inv_filter d m' t' :
  inbox_inv d → (∀ i r, m' !! i = Some r → messages d !! i = Some r) → map_Forall (fun u _ => canonical u) t' → inbox_inv (mkInbox m' t').
Proof.
  intros [Hrows Hkeys _] Hsub Ht. constructor; simpl; [| |done].
  - intros i r Hr. eapply Hrows, Hsub, Hr.
  - intros i j r r' Hr Hr'. apply Hkeys; by apply Hsub.
Qed.

Lemma inbox_inv_does c d d' : inbox_inv d → inbox_does c d = Some d' → inbox_inv d'.
Proof.
  intros Hd E. destruct c as [id u n now|id u now|id u|l|u handle|u]; simpl in E; rewrite ?check_some in E.
  - destruct E as [(Hid & Hk & Hv & Hu) [= <-]]. rewrite key_held_false in Hk. destruct (validate_caps n Hv) as (? & ? & ? & ? & ?).
    constructor; simpl; [| |apply Hd].
    + apply map_Forall_insert_2; [|apply Hd]. split_and!; simpl; done.
    + intros i j x y. rewrite !lookup_insert_Some. intros [[<- <-]|[_ Hx]] [[<- <-]|[_ Hy]] Ek; [done|..]; simpl in Ek.
      * by destruct (Hk j y Hy).
      * by destruct (Hk i x Hx).
      * by eapply (ii_keys d Hd).
  - destruct E as [Ho [= <-]]. destruct Hd as [Hrows Hkeys Ht]. constructor; simpl; [| |done].
    + intros i r Hr. apply lookup_alter_Some in Hr as [(_ & x & Hx & ->)|[_ Hx]]; by apply Hrows in Hx.
    + assert (Hk : ∀ i r, alter (read_message now) id (messages d) !! i = Some r → ∃ r0, messages d !! i = Some r0 ∧ source_event_id r0 = source_event_id r).
      { intros i r Hr. apply lookup_alter_Some in Hr as [(_ & x & Hx & ->)|[_ Hx]]; eauto. }
      intros i j r r' (x & Hx & Ex)%Hk (y & Hy & Ey)%Hk Ek. eapply Hkeys; [exact Hx|exact Hy|congruence].
  - destruct E as [_ [= <-]]. apply (inv_filter d); [done| |apply Hd]. intros i r. rewrite lookup_delete_Some. naive_solver.
  - injection E as <-. apply (inv_filter d); [done| |apply Hd]. intros i r. rewrite foldr_delete_lookup. by destruct (decide _).
  - destruct E as [[Hu _] [= <-]]. apply (inv_filter d); [done|done|]. apply map_Forall_insert_2; [done|apply Hd].
  - destruct E as [_ [= <-]]. apply (inv_filter d); [done| |].
    + intros i r. rewrite map_lookup_filter_Some. naive_solver.
    + intros k t Hk. unfold marked in Hk. apply lookup_alter_Some in Hk as [(-> & x & Hx & _)|[_ Hx]]; by apply (ii_tombs d Hd) in Hx.
Qed.

#[global] Instance inbox_causes : Causes InboxDb Cause := {
  does := inbox_does;
  locks_of := fun _ => [];
  sound := inbox_inv;
  sound_does := inbox_inv_does;
}.

(** ** What a statement that succeeds has done *)

Lemma column_checks_ok k t b (d d' : InboxDb) x : column_checks k t b d = (d', Ok x) → d' = d.
Proof. unfold column_checks. repeat case_match; by intros [= <-]. Qed.

Lemma insert_does now fresh n d d' x :
  validate_new n = Ok () → insert_tx now fresh (n_player n) (n_kind n) (n_title n) (n_body n) (n_key n) d = (d', Ok x) →
  match x with
  | None => d' = d ∧ key_held (n_key n) (messages d) = true
  | Some (id, u) => id = fresh ∧ uuid_in (n_player n) = Some u ∧ does (CAppend id u n now) d = Some d'
  end.
Proof.
  intros Hv E. unfold insert_tx in E. apply st_bind_ok in E as (d1 & [] & [-> _]%pg_bind_ok & E). apply st_bind_ok in E as (d2 & u & [-> Hu]%pg_cast_ok & E).
  apply st_bind_ok in E as (d3 & [] & ->%column_checks_ok & E). rewrite (st_bind_run _ _ d d (messages d)) in E by done.
  case_bool_decide as Hf; [done|]. destruct (validate_caps n Hv) as (_ & _ & _ & _ & Hk). unfold nullif_empty, str_is_empty in E.
  rewrite bool_decide_eq_false_2 in E by done. destruct (key_held (n_key n) (messages d)) eqn:Ek; [by injection E as <- <-|].
  apply st_bind_ok in E as (d4 & [] & [= <-] & E). injection E as <- <-. split_and!; [done|done|]. simpl. rewrite check_run; [done|].
  split_and!; [by apply eq_None_not_Some|done|done|by eapply uuid_in_canonical].
Qed.

Lemma or_none_true m (d d' : InboxDb) : or_none false m d = (d', Ok true) → m d = (d', Ok true).
Proof. unfold or_none. destruct (m d) as [d1 [a|[]]]; congruence. Qed.

Lemma or_none_false m (d d' : InboxDb) :
  (∀ d1, m d = (d1, Ok false) → d1 = d) → or_none false m d = (d', Ok false) → d' = d.
Proof.
  intros Hm. unfold or_none. destruct (m d) as [d1 [a|e]] eqn:E; [intros [= <- ->]; by apply Hm|]. destruct e; by intros [= <-].
Qed.

Lemma mark_read_does now id player d d' b :
  mark_read_owned_tx now id player d = (d', Ok b) →
  if b then ∃ i u, uuid_in id = Some i ∧ uuid_in player = Some u ∧ does (CRead i u now) d = Some d' else d' = d.
Proof.
  destruct b; [intros E%or_none_true|apply or_none_false; intros d1 E]; pg_inv E; repeat (case_match; try done).
  - apply st_bind_ok in E as (d4 & [] & [= <-] & E). injection E as <-. eexists _, _. split_and!; [done|done|]. simpl.
    match goal with H : negb (bool_decide _) = false |- _ => apply negb_false_iff, bool_decide_eq_true in H; rename H into Ho end.
    match goal with H : messages d !! _ = Some _ |- _ => rename H into Hr end. rewrite check_run by (unfold owned; rewrite Hr; simpl; by rewrite Ho).
    f_equal. unfold set_messages. f_equal. apply map_eq. intros k. match goal with |- context [alter _ ?i _] => destruct (decide (i = k)) as [<-|Hne] end.
    + by rewrite lookup_alter_eq, lookup_insert_eq, Hr.
    + by rewrite lookup_alter_ne, lookup_insert_ne.
  - by injection E as <-.
  - by injection E as <-.
Qed.

Lemma delete_owned_does id player d d' b :
  delete_owned_tx id player d = (d', Ok b) →
  if b then ∃ i u, uuid_in id = Some i ∧ uuid_in player = Some u ∧ does (CDelete i u) d = Some d' else d' = d.
Proof.
  destruct b; [intros E%or_none_true|apply or_none_false; intros d1 E]; pg_inv E; repeat (case_match; try done).
  - apply st_bind_ok in E as (d4 & [] & [= <-] & E). injection E as <-. eexists _, _. split_and!; [done|done|]. simpl.
    match goal with H : negb (bool_decide _) = false |- _ => apply negb_false_iff, bool_decide_eq_true in H; rename H into Ho end.
    match goal with H : messages d !! _ = Some _ |- _ => rename H into Hr end. by rewrite check_run by (unfold owned; rewrite Hr; simpl; by rewrite Ho).
  - by injection E as <-.
  - by injection E as <-.
Qed.

Lemma plant_does player handle d d' x :
  plant_purged_player_tx player handle d = (d', Ok x) → d' = d ∨ ∃ u, uuid_in player = Some u ∧ does (CPlant u handle) d = Some d'.
Proof.
  intros E. unfold plant_purged_player_tx in E. apply st_bind_ok in E as (d1 & [] & [-> _]%pg_bind_ok & E).
  apply st_bind_ok in E as (d2 & u & [-> Hu]%pg_cast_ok & E). injection E as <-. destruct (purged_players d !! u) eqn:Et; [left; by destruct d|right].
  exists u. split; [done|]. simpl. rewrite check_run; [done|]. split; [by eapply uuid_in_canonical|done].
Qed.

(** ** Refinement *)

Section Refine.
Variable env : NEnv.
Variable Q : Cause → Prop.
Hypothesis meanwhile_others : ∀ t L d, rtc (others Q L) d (meanwhile (world env) t L d).

Lemma tri_read {A} P f (m : ST InboxDb SqlError A) : tri Q P (fun _ => True) (read env f m) (fun _ _ => True).
Proof. by apply tri_reading_free. Qed.

Lemma tri_commit_sql {A} P f (m : nat → ST InboxDb SqlError A) :
  (∀ t d d' a, inbox_inv d → m t d = (d', Ok a) → d' = d ∨ ∃ c, P c ∧ does c d = Some d') →
  tri Q P (fun _ => True) (commit env f m) (fun _ _ => True).
Proof. intros Hm. apply tri_commit_free; [done|]. intros t d d' a Hd E%st_map_err_ok. by eapply Hm. Qed.

(** A delivery appends the message to the player it names. *)
Definition appends (n : NewNotification) (c : Cause) : Prop :=
  ∃ id u now, c = CAppend id u n now ∧ uuid_in (n_player n) = Some u.

Lemma tri_deliver_on n : tri Q (appends n) (fun _ => True) (deliver_on env n) (fun _ _ => True).
Proof.
  unfold deliver_on. apply tri_lift_bind. intros [] Hv. apply tri_seq; [apply tri_read|]. intros []; [apply tri_fail|].
  apply tri_seq; [|by intros; apply tri_ret]. apply tri_commit_sql. intros t d d' x _ E%insert_does; [|done].
  destruct x as [[id u]|]; [right|left; apply E]. destruct E as (-> & Hu & E). eexists. split; [|exact E]. by eexists _, _, _.
Qed.

Lemma tri_inbox_sub {E A} P P' (m : ST (Task InboxDb) E A) :
  (∀ c, P c → P' c) → tri Q P (fun _ => True) m (fun _ _ => True) → tri Q P' (fun _ => True) m (fun _ _ => True).
Proof.
  intros HP Hm s s' r Hd Hs Er. destruct (Hm s s' r Hd Hs Er) as [Hr _]. split; [|done]. eapply rtc_subrel; [|exact Hr].
  intros x y [(c & Hc & Ec)|Ho]; [left; eauto|by right].
Qed.

Inductive InboxOp :=
| OList (cursor : string) (limit : Z) | OMarkRead (id : string) | ODelete (id : string)
| OEvent (event_id : string) (e : InboxEvent) | ODeleted (player handle : string) | OSubmit (values : gmap string string).

Definition inbox_run (pf : Storage.Platform) (who : Identity) (op : InboxOp) (s : Task InboxDb) : Task InboxDb :=
  match op with
  | OList c l => fst (list_inbox env pf who c l s)
  | OMarkRead i => fst (mark_read env who i s)
  | ODelete i => fst (delete_message env who i s)
  | OEvent i e => fst (on_event env i e s)
  | ODeleted p h => fst (on_player_deleted env p h s)
  | OSubmit v => fst (apply_submit env v s)
  end.

(** The caller, as the server spells them. *)
Definition caller_is (who : Identity) (u : string) : Prop := ∃ me, OpsApi.player_id who = Some me ∧ uuid_in me = Some u.

Definition inbox_commands (who : Identity) (op : InboxOp) (c : Cause) : Prop :=
  match op with
  | OList _ _ => False
  | OMarkRead id => ∃ i u now, c = CRead i u now ∧ uuid_in id = Some i ∧ caller_is who u
  | ODelete id => ∃ i u, c = CDelete i u ∧ uuid_in id = Some i ∧ caller_is who u
  | OEvent event_id e => ∃ n, message_of event_id e = Some n ∧ appends n c
  | ODeleted p h => ∃ u, c = CPlant u h ∧ uuid_in p = Some u
  | OSubmit v => ∃ n, n_player n = param v "player_id" ∧ n_title n = param v "title" ∧ n_body n = param v "body"
                      ∧ is_operator_dedup_key (n_key n) = true ∧ n_kind n = "operator.mail" ∧ appends n c
  end.

Lemma identity_of_ok who me : identity_of who = Ok me → OpsApi.player_id who = Some me.
Proof. unfold identity_of. destruct (OpsApi.player_id who); [by intros [= <-]|done]. Qed.

Lemma required_ok v field x : required v field = Ok x → x = param v field.
Proof. unfold required. destruct (str_is_empty _); [done|]. by intros [= <-]. Qed.

Lemma tri_event i e : tri Q (inbox_commands None (OEvent i e)) (fun _ => True) (on_event env i e) (fun _ _ => True).
Proof.
  unfold on_event. destruct (message_of i e) as [n|] eqn:En; [|by apply tri_ret]. unfold deliver_or_skip.
  destruct (negb _); [by apply tri_ret|]. intros s s' r Hd Hs Er.
  destruct (deliver_on env n s) as [s1 x] eqn:E1. destruct (tri_deliver_on n s s1 x Hd I E1) as [Hr _].
  assert (s' = s1) as -> by (destruct x; [|case_bool_decide]; by injection Er). split; [|done]. eapply rtc_subrel; [|exact Hr].
  intros a b [(c & Hc & Ec)|Ho]; [left|by right]. exists c. split; [|done]. by exists n.
Qed.

Lemma tri_inbox_submit v : tri Q (inbox_commands None (OSubmit v)) (fun _ => True) (apply_submit env v) (fun _ _ => True).
Proof.
  unfold apply_submit. case_bool_decide; [|destruct (str_is_empty _); apply tri_fail].
  apply tri_lift_bind. intros p ->%required_ok. apply tri_lift_bind. intros t ->%required_ok. apply tri_lift_bind. intros b ->%required_ok.
  apply tri_lift_bind. intros key Hkey. unfold rendered_key in Hkey. destruct (is_operator_dedup_key _) eqn:Ek; [injection Hkey as <-|done].
  apply tri_seq; [|intros []; [by apply tri_ret..|apply tri_fail]]. apply tri_map_err. unfold send_operator_mail. simpl. rewrite Ek. simpl.
  apply tri_seq.
  - eapply tri_inbox_sub; [|apply tri_deliver_on]. intros c Hc. eexists (mkNew _ _ _ _ _). split_and!; [done|done|done|exact Ek|done|exact Hc].
  - intros [x|]; [by apply tri_ret|]. apply tri_seq; [apply tri_read|]. intros x. by apply tri_ret.
Qed.

End Refine.
End Causes.
