(* ===== verification/NotificationsOutcome.v ===== *)
(** * NotificationsOutcome: what the inbox answers

    The decision of an event and of the owner's operations on every branch, the
    retention prune and the purge of deleted players, and the message that arrives
    behind a purge. *)

From Stdlib Require Import Ascii.
From stdpp Require Import sorting.
From S2P Require Import Prelude Text OpsApi Pg Purge Prune Directory Txn Notifications NotificationsContract.
From S2P Require Storage StoragePaging.
#[local] Open Scope Z_scope.

(** What the durable handlers let through, the server parses. *)
Lemma uuid_text_groups s : Storage.is_uuid_text s = true → uuid_groups 8 (to_bytes s).
Proof.
  unfold Storage.is_uuid_text. intros [Hl Hs]%andb_prop. apply bool_decide_eq_true in Hl.
  generalize dependent (to_bytes s). intros l Hl Hs. do 36 (destruct l as [|? l]; [done|]). destruct l as [|? l]; [|done]. clear Hl.
  lazy -[is_ascii_hexdigit Ascii.eqb andb] in Hs. rewrite !andb_true_iff in Hs. destruct_and! Hs.
  repeat match goal with H : Ascii.eqb _ _ = true |- _ => apply Ascii.eqb_eq in H; subst end.
  repeat first [apply ug_last | eapply (ug_next _ _ _ _ ["-"%char]); [|by right|] | eapply (ug_next _ _ _ _ []); [|by left|]]; unfold forallb; repeat (apply andb_true_intro; split); first [assumption|reflexivity].
Qed.

Section Outcome.
Context `{PgUuid}.

Section Quiet.
Variable env : NEnv.
Hypothesis quiet : ∀ t L d, meanwhile (world env) t L d = d.
Hypothesis answers : ∀ t, fate (world env) t = Answers.

Lemma inbox_read {A} f (m : ST InboxDb SqlError A) s :
  read env f m s = (mkTask (db s) (S (tick s)) (locks s), map_err f (snd (m (db s)))).
Proof. unfold read, reading, seen. by rewrite quiet, answers. Qed.

Lemma inbox_commit {A} f (m : nat → ST InboxDb SqlError A) s d' a :
  m (tick s) (db s) = (d', Ok a) → commit env f m s = (mkTask d' (S (tick s)) (locks s), Ok a).
Proof. intros E. unfold commit, committing, seen, st_map_err. by rewrite quiet, answers, E. Qed.

(** ** Delivery *)

(** The player a message is for, where it is due: it is within the caps, the account is
    not deleted, and no message stands under its key. *)
Definition wanted (n : NewNotification) (d : InboxDb) : option string :=
  u ← (if Storage.is_uuid_text (n_player n) then uuid_in (n_player n) else None);
  check (validate_new n = Ok () ∧ purged_players d !! u = None ∧ key_held (n_key n) (messages d) = false);; Some u.

Lemma new_message_invalid n e : validate_new n = Err e → status e = Invalid.
Proof. unfold validate_new. intros E. repeat case_match; simplify_eq; done. Qed.

Lemma append_run now fresh n u d :
  existsb has_nul [n_player n; n_kind n; n_title n; n_body n; n_key n] = false → validate_new n = Ok () →
  uuid_in (n_player n) = Some u → messages d !! fresh = None →
  insert_tx now fresh (n_player n) (n_kind n) (n_title n) (n_body n) (n_key n) d =
    if key_held (n_key n) (messages d) then (d, Ok None)
    else (set_messages (insert fresh (new_message u n now)) d, Ok (Some (fresh, u))).
Proof.
  intros Hn Hv Hu Hf. destruct (validate_caps n Hv) as (Ht & Hb & Hk & _ & Hkey). unfold insert_tx.
  rewrite (st_bind_run _ _ d d ()) by (unfold bind_text; by rewrite Hn).
  rewrite (st_bind_run _ _ d d u) by (unfold cast_uuid, lift, ok_or; by rewrite Hu).
  rewrite (st_bind_run _ _ d d ()) by (unfold column_checks; by rewrite !(proj2 (Nat.ltb_ge _ _)) by lia).
  rewrite (st_bind_run _ _ d d (messages d)) by done. rewrite bool_decide_eq_false_2 by (by rewrite Hf; intros []).
  unfold nullif_empty, str_is_empty. rewrite (bool_decide_eq_false_2 (n_key n = "")) by done. by destruct (key_held _ _).
Qed.

(** An event is decided on every branch and never as an error that would stop its
    subscription: the message it stands for is appended, unread and under the event's
    id, to the player it names, who is told, exactly if that is a player's id, the
    message is within the caps, the player's account was not deleted and nothing was
    appended for this event before; else the inbox stays as it is. *)
Theorem inbox_event_decided event_id e s :
  (∀ n, message_of event_id e = Some n → existsb has_nul [n_kind n; n_title n; n_body n; n_key n] = false) →
  messages (db s) !! fresh env (S (tick s)) = None →
  ∃ s' told, on_event env event_id e s = (s', Ok told) ∧
  told = (message_of event_id e ≫= fun n => wanted n (db s)) ∧
  match message_of event_id e, told with
  | Some n, Some u => db s' = set_messages (insert (fresh env (S (tick s))) (new_message u n (now_at (world env) (S (tick s))))) (db s)
  | _, _ => db s' = db s
  end.
Proof.
  intros Hn Hf. unfold on_event. destruct (message_of event_id e) as [n|] eqn:En; [specialize (Hn n eq_refl)|by eexists _, _].
  unfold deliver_or_skip, wanted. simpl mbind. destruct (Storage.is_uuid_text (n_player n)) eqn:Eu; [|by eexists _, _].
  destruct (uuid_in_groups _ (uuid_text_groups _ Eu)) as [u Hu]. rewrite Hu. simpl. pose proof (StoragePaging.uuid_text_no_nul _ Eu) as Hp.
  unfold deliver_on. destruct (validate_new n) as [[]|x] eqn:Ev.
  2:{ rewrite (st_bind_stop _ _ s s x) by done. rewrite bool_decide_eq_true_2 by by eapply new_message_invalid. unfold check. rewrite decide_False by naive_solver. by eexists _, _. }
  rewrite (st_bind_run _ _ s s ()) by done.
  assert (Er : snd (is_player_purged_tx (n_player n) (db s)) = Ok (bool_decide (is_Some (purged_players (db s) !! u)))).
  { unfold is_player_purged_tx. rewrite (st_bind_run _ _ (db s) (db s) ()) by (unfold bind_text; simpl; by rewrite Hp).
    by rewrite (st_bind_run _ _ (db s) (db s) u) by (unfold cast_uuid, lift, ok_or; by rewrite Hu). }
  erewrite st_bind_run by (rewrite inbox_read, Er; reflexivity).
  destruct (purged_players (db s) !! u) as [t|] eqn:Et.
  { rewrite bool_decide_eq_true_2 by by eexists. unfold check. rewrite decide_False by naive_solver. by eexists _, _. }
  rewrite bool_decide_eq_false_2 by by intros [].
  assert (Ei := append_run (now_at (world env) (S (tick s))) (fresh env (S (tick s))) n u (db s) ltac:(simpl; by rewrite Hp) Ev Hu Hf).
  destruct (key_held (n_key n) (messages (db s))) eqn:Ek; erewrite st_bind_run by (apply inbox_commit, Ei); unfold check.
  - rewrite decide_False by naive_solver. by eexists _, _.
  - rewrite decide_True by done. by eexists _, _.
Qed.

(** ** The owner's operations *)

(** The row an id names, if it is the player's. *)
Definition own_row (u id : string) (d : InboxDb) : option string :=
  i ← uuid_in id; check (owned u (messages d !! i));; Some i.

Lemma own_row_owned u id d i : own_row u id d = Some i ↔ uuid_in id = Some i ∧ owned u (messages d !! i).
Proof.
  unfold own_row. destruct (uuid_in id) as [j|]; simpl; [|naive_solver]. rewrite check_some.
  split; [intros [Ho [= <-]]; done|intros [[= <-] Ho]; done].
Qed.

Lemma mark_read_run now id me u d :
  has_nul id = false → has_nul me = false → uuid_in me = Some u →
  mark_read_owned_tx now id me d =
    match own_row u id d with Some i => (set_messages (alter (read_message now) i) d, Ok true) | None => (d, Ok false) end.
Proof.
  intros Hi Hm Hu. unfold mark_read_owned_tx, or_none, own_row, owned, check. unfold mbind, ST_bind, bind_text, cast_uuid, lift, ok_or, gets. simpl.
  rewrite Hi, Hm, Hu. simpl. destruct (uuid_in id) as [i|]; [|done]. simpl. destruct (messages d !! i) as [r|] eqn:Er; simpl; [|done].
  destruct (decide (player_id r = u)) as [<-|Hne].
  - rewrite bool_decide_eq_true_2, decide_True by done. simpl. unfold set_messages. do 2 f_equal.
    apply map_eq. intros k. destruct (decide (i = k)) as [<-|]; [by rewrite lookup_insert_eq, lookup_alter_eq, Er|by rewrite lookup_insert_ne, lookup_alter_ne].
  - rewrite bool_decide_eq_false_2, decide_False by congruence. done.
Qed.

Lemma delete_owned_run id me u d :
  has_nul id = false → has_nul me = false → uuid_in me = Some u →
  delete_owned_tx id me d = match own_row u id d with Some i => (set_messages (delete i) d, Ok true) | None => (d, Ok false) end.
Proof.
  intros Hi Hm Hu. unfold delete_owned_tx, or_none, own_row, owned, check. unfold mbind, ST_bind, bind_text, cast_uuid, lift, ok_or, gets. simpl.
  rewrite Hi, Hm, Hu. simpl. destruct (uuid_in id) as [i|]; [|done]. simpl. destruct (messages d !! i) as [r|] eqn:Er; simpl; [|done].
  destruct (decide (player_id r = u)) as [<-|Hne].
  - by rewrite bool_decide_eq_true_2, decide_True by done.
  - rewrite bool_decide_eq_false_2, decide_False by congruence. done.
Qed.

(** Marking a message read and deleting it answer for the message of another
    player exactly as for a text that names none, with the inbox as it was; the caller's
    own message is marked, keeping the time it was first read, or deleted. *)
Theorem inbox_private who me u id s :
  OpsApi.player_id who = Some me → uuid_in me = Some u → has_nul id = false → has_nul me = false →
  let absent := Err (mkError NotFound NOT_FOUND) in
  let after d := mkTask d (S (tick s)) (locks s) in
  let mine := own_row u id (db s) in
  mark_read env who id s =
    match mine with Some i => (after (set_messages (alter (read_message (now_at (world env) (tick s))) i) (db s)), Ok ()) | None => (after (db s), absent) end ∧
  delete_message env who id s =
    match mine with Some i => (after (set_messages (delete i) (db s)), Ok ()) | None => (after (db s), absent) end.
Proof.
  intros Hw Hu Hi Hm. cbv zeta. assert (El : lift (identity_of who) s = (s, Ok me)) by (unfold lift, identity_of; by rewrite Hw). split.
  - unfold mark_read. rewrite (st_bind_run _ _ _ _ _ El). pose proof (mark_read_run (now_at (world env) (tick s)) id me u (db s) Hi Hm Hu) as E.
    destruct (own_row u id (db s)); by erewrite st_bind_run by (apply inbox_commit, E).
  - unfold delete_message. rewrite (st_bind_run _ _ _ _ _ El). pose proof (delete_owned_run id me u (db s) Hi Hm Hu) as E.
    destruct (own_row u id (db s)); by erewrite st_bind_run by (apply inbox_commit, E).
Qed.
End Quiet.

(** ** Retention and the purge *)

Definition inbox_step (d d' : InboxDb) : Prop := ∃ c, inbox_does c d = Some d'.

(** A fire of the prune ends, deletes only messages older than the cutoff, changes no
    other, and leaves such a one only where another transaction held it or the budget
    ended the fire. *)
Theorem inbox_prune_correct cutoff busy elapsed d :
  ∃ d', prune_handler cutoff busy elapsed PRUNE_SCHEDULE_NAME d = Some d' ∧ rtc inbox_step d d' ∧
    (∀ id r, messages d' !! id = Some r → messages d !! id = Some r) ∧
    (∀ id r, messages d !! id = Some r → messages d' !! id = None → created_at r < cutoff) ∧
    ((∀ i, elapsed i = false) → ∀ id r, messages d' !! id = Some r → created_at r < cutoff → ∃ i, busy i id = true).
Proof.
  unfold prune_handler. destruct (prune_run created_at (fun r => created_at r <? cutoff) PRUNE_BATCH messages delete_rows) with (busy := busy) (elapsed := elapsed) (d := d)
    as (d' & E & Hr & Hk & Hg & Hc); [done|unfold PRUNE_BATCH; lia|].
  exists d'. split_and!; [done| |done|intros id r H1 H2; by eapply Z.ltb_lt, Hg|].
  - eapply rtc_subrel; [|exact Hr]. intros x y (w & b & ->). by eexists (CPrune (stale_batch _ _ _ _ _ _ _).*1).
  - intros He id r Hid Hlt. eapply Hc; [done|done|]. by apply Z.ltb_lt.
Qed.

Definition purged_inbox (u h : string) (d : InboxDb) : InboxDb :=
  mkInbox (filter (fun kv => player_id (snd kv) ≠ u) (messages d)) (marked u (purged_players d)).

#[global, program] Instance inbox_sweep_laws : SweepLaws InboxDb := {| purged_of := purged_inbox |}.
Next Obligation.
  intros u h d Hu. simpl. unfold purge_player, bind_text, cast_uuid, mbind, ST_bind, lift, ok_or. simpl.
  rewrite (uuid_in_no_nul _ _ Hu). simpl. by rewrite Hu.
Qed.
Next Obligation. done. Qed.

Lemma purged_inbox_rows u h d id r :
  messages (purged_of u h d) !! id = Some r ↔ messages d !! id = Some r ∧ Some (player_id r) ≠ Some u.
Proof. simpl. rewrite map_lookup_filter_Some. naive_solver. Qed.

(** A fire of the purge ends without an error from every well-formed inbox.  It
    takes away only messages of players whose account was deleted and whose purge was
    due, and stamps only players it has left without a message; if the time budget lasts
    it stamps them all. *)
Theorem inbox_purge_correct elapsed d :
  inbox_inv d →
  ∃ d', purge_handler elapsed PURGE_SCHEDULE_NAME d = Some (d', Ok ()) ∧
    swept_clean messages (fun _ r => Some (player_id r)) elapsed d d'.
Proof.
  intros Hd. unfold purge_handler. rewrite bool_decide_eq_false_2 by by intros [].
  destruct (purge_sweep_rows messages (fun _ r => Some (player_id r)) purged_inbox_rows elapsed PURGE_BATCH d) as (l & E & _ & Hclean).
  - unfold PURGE_BATCH. lia.
  - intros u t Hu. by eapply (ii_tombs d Hd).
  - exists (purge_all d l). by split.
Qed.

(** ** A message behind the purge *)

(** Between the look at the tombstones and the insert of a delivery, the account's
    deletion is recorded and its purge runs: the message is appended all the same, to a
    player whose purge is stamped as done, and no later fire of the purge takes it. *)
Theorem late_message_survives env u h event_id s :
  canonical u → Storage.is_uuid_text u = true →
  let n := mkNew u "friend.requested" "New friend request" (friend_requested_body "ann#0001") event_id in
  validate_new n = Ok () → existsb has_nul [n_kind n; n_title n; n_body n; n_key n] = false →
  purged_players (db s) !! u = None → key_held event_id (messages (db s)) = false →
  messages (db s) !! fresh env (S (tick s)) = None →
  (∀ d, meanwhile (world env) (tick s) (locks s) d = d) →
  (∀ d, meanwhile (world env) (S (tick s)) (locks s) d = default d (inbox_does (CPlant u h) d ≫= inbox_does (CPurge u))) →
  (∀ t, fate (world env) t = Answers) →
  ∃ s', on_event env event_id (FriendRequested u "ann#0001") s = (s', Ok (Some u)) ∧
    purged_players (db s') !! u = Some (h, true) ∧
    messages (db s') !! fresh env (S (tick s)) = Some (new_message u n (now_at (world env) (S (tick s)))) ∧
    ∀ l, (∀ v k, (v, k) ∈ l → purged_players (db s') !! v = Some (k, false)) →
      messages (purge_all (db s') l) !! fresh env (S (tick s)) = messages (db s') !! fresh env (S (tick s)).
Proof.
  intros Hu Eu n Hv Hn Ht Hk Hf Hq Hm Ha. set (d1 := mkInbox (messages (purged_inbox u h (db s))) (<[u := (h, true)]> (purged_players (db s)))).
  assert (E1 : default (db s) (inbox_does (CPlant u h) (db s) ≫= inbox_does (CPurge u)) = d1).
  { simpl. rewrite check_run by done. simpl. rewrite check_run by (rewrite lookup_insert_eq; by eexists). simpl. unfold d1, marked. f_equal.
    by rewrite alter_insert_eq. }
  unfold on_event. change (message_of event_id (FriendRequested u "ann#0001")) with (Some n). cbv iota beta. unfold deliver_or_skip. change (n_player n) with u. rewrite Eu. cbn [negb]. unfold deliver_on. change (n_player n) with u.
  rewrite (st_bind_run _ _ s s ()) by (unfold lift; by rewrite Hv). pose proof (StoragePaging.uuid_text_no_nul _ Eu) as Hp.
  assert (Er : read env player_error (is_player_purged_tx u) s = (mkTask (db s) (S (tick s)) (locks s), Ok false)).
  { unfold read, reading, seen. rewrite Hq, Ha. unfold is_player_purged_tx, bind_text, cast_uuid, mbind, ST_bind, lift, ok_or, gets. simpl.
    rewrite Hp. simpl. rewrite Hu. simpl. rewrite Ht. done. }
  rewrite (st_bind_run _ _ _ _ _ Er).
  assert (Hf1 : messages d1 !! fresh env (S (tick s)) = None).
  { apply eq_None_not_Some. intros [r Hr]. simpl in Hr. apply map_lookup_filter_Some in Hr as [Hr _]. congruence. }
  assert (Hk1 : key_held event_id (messages d1) = false).
  { rewrite key_held_false in *. intros i r Hr. simpl in Hr. apply map_lookup_filter_Some in Hr as [Hr _]. by eapply Hk. }
  pose proof (append_run (now_at (world env) (S (tick s))) (fresh env (S (tick s))) n u d1 ltac:(simpl; by rewrite Hp) Hv Hu Hf1) as Ei.
  change (key_held (n_key n)) with (key_held event_id) in Ei. change (n_player n) with u in Ei. rewrite Hk1 in Ei.
  erewrite st_bind_run by (unfold commit, committing, seen, st_map_err; cbn [tick locks db]; rewrite Hm, Ha, E1, Ei; reflexivity).
  eexists. split; [reflexivity|]. cbn [db]. split_and!; [apply lookup_insert_eq|apply lookup_insert_eq|].
  intros l Hl. cbn [messages set_messages]. rewrite lookup_insert_eq. apply (purge_all_rows messages _ purged_inbox_rows). cbn [messages set_messages]. split; [apply lookup_insert_eq|].
  simpl. intros x [= <-] ([v k] & -> & Hin)%list_elem_of_fmap. specialize (Hl v k Hin). simpl in Hl. by rewrite lookup_insert_eq in Hl.
Qed.
End Outcome.

(** Ann is asked for friendship, reads the message and deletes it. *)
Module InboxExample.
#[local] Existing Instance plain_uuid.

Definition ann : string := "0a0a0a0a-0000-0000-0000-000000000001".
Definition bob : string := "0b0b0b0b-0000-0000-0000-000000000002".
Definition id1 : string := "11111111-0000-0000-0000-000000000001".
Definition id2 : string := "11111111-0000-0000-0000-000000000002".
Definition asked : InboxEvent := FriendRequested ann "bob#0002".
Definition from_bob : NewNotification := mkNew ann "friend.requested" "New friend request" (friend_requested_body "bob#0002") "event-1".

Definition env_of (w : World InboxDb) : NEnv := mkNEnv w (fun t => if Nat.eqb t 1 then id1 else id2).
Definition quiet_env : NEnv := env_of (mkWorld (fun _ _ d => d) (fun _ => Answers) (fun _ => 7)).

Lemma asked_plain n : message_of "event-1" asked = Some n → existsb has_nul [n_kind n; n_title n; n_body n; n_key n] = false.
Proof. intros [= <-]. vm_compute. reflexivity. Qed.

Lemma inbox_event_decided_witness :
  ∃ s', on_event quiet_env "event-1" asked (mkTask empty_inbox 0 []) = (s', Ok (Some ann)) ∧
    db s' = set_messages (insert id1 (new_message ann from_bob 7)) empty_inbox.
Proof.
  destruct (inbox_event_decided quiet_env (fun _ _ _ => eq_refl) (fun _ => eq_refl) "event-1" asked (mkTask empty_inbox 0 []) asked_plain eq_refl)
    as (s' & told & E & Et & Hs).
  assert (Ew : (message_of "event-1" asked ≫= fun n => wanted n empty_inbox) = Some ann) by (vm_compute; reflexivity).
  assert (told = Some ann) as -> by exact (eq_trans Et Ew). exists s'. split; [exact E|exact Hs].
Defined.

Definition with_message : InboxDb := set_messages (insert id1 (new_message ann from_bob 7)) empty_inbox.

Lemma with_message_inv : inbox_inv with_message.
Proof.
  apply (inbox_inv_does (CAppend id1 ann from_bob 7) empty_inbox); [|vm_compute; reflexivity].
  constructor; [apply map_Forall_empty|intros i j r r' Hr; discriminate Hr|apply map_Forall_empty].
Qed.

Lemma bob_canonical : uuid_in bob = Some bob.
Proof. vm_compute. reflexivity. Qed.

(** Bob's attempt on Ann's message is answered like one on no message; Ann's is not. *)
Lemma inbox_private_witness :
  delete_message quiet_env (Some bob) id1 (mkTask with_message 0 []) = (mkTask with_message 1 [], Err (mkError NotFound NOT_FOUND)) ∧
  snd (delete_message quiet_env (Some ann) id1 (mkTask with_message 0 [])) = Ok ().
Proof.
  split; [|vm_compute; reflexivity].
  destruct (inbox_private quiet_env (fun _ _ _ => eq_refl) (fun _ => eq_refl) (Some bob) bob bob id1 (mkTask with_message 0 []) eq_refl bob_canonical eq_refl eq_refl) as [_ E].
  assert (En : own_row bob id1 with_message = None) by (vm_compute; reflexivity). cbn [db] in E. rewrite En in E. exact E.
Defined.

Definition with_tomb : InboxDb := mkInbox (messages with_message) {[ann := ("ann#0001", false)]}.

Lemma with_tomb_inv : inbox_inv with_tomb.
Proof. apply (inbox_inv_does (CPlant ann "ann#0001") with_message); [exact with_message_inv|vm_compute; reflexivity]. Qed.

Lemma inbox_purge_correct_witness :
  ∃ d', purge_handler (fun _ => false) PURGE_SCHEDULE_NAME with_tomb = Some (d', Ok ()) ∧ ∀ id r, messages d' !! id = Some r → player_id r ≠ ann.
Proof.
  destruct (inbox_purge_correct (fun _ => false) with_tomb with_tomb_inv) as (d' & E & _ & _ & Hgone & Hall).
  exists d'. split; [exact E|]. intros id r Hr Ea. apply (Hgone ann "ann#0001") with id r; [vm_compute; reflexivity|by apply Hall|exact Hr|by rewrite Ea].
Defined.

(** Another message arrives before Ann reads hers. *)
Definition from_eve : NewNotification := mkNew ann "friend.requested" "New friend request" (friend_requested_body "eve#0003") "event-2".

Definition arrives (t : nat) (L : list Z) (d : InboxDb) : InboxDb := if Nat.eqb t 0 then default d (does (CAppend id2 ann from_eve 8) d) else d.

Lemma message_arrives t L d : rtc (others (eq (CAppend id2 ann from_eve 8)) L) d (arrives t L d).
Proof.
  unfold arrives. destruct (Nat.eqb t 0); [|done]. destruct (does _ d) as [d'|] eqn:E; [|done].
  apply rtc_once. exists (CAppend id2 ann from_eve 8). by split_and!.
Qed.

End InboxExample.
