(* ===== verification/Characters.v ===== *)
(** * Characters: a player's characters

    [modules/characters/src].  One row per character, owned by one player; creating and
    deleting a character append the durable events [character.created] and
    [character.deleted] in the same transaction.  The statements of [store.rs], the
    operations of [service.rs] and the purge sweep of [projection.rs].  Statements run
    against what is committed ([Txn]); the configured cap is read at the time of the
    call. *)

From Stdlib Require Import Ascii.
From stdpp Require Import sorting pretty.
From S2P Require Import Prelude Text OpsApi Pg Purge Directory Txn.
#[local] Open Scope Z_scope.

Definition LIST_HARD_LIMIT : Z := 1000.
Definition MAX_NAME_BYTES : nat := 128.
Definition MAX_CLASS_BYTES : nat := 64.
Definition MAX_PER_PLAYER : Z := 10.
Definition PLAYER_DELETED : string := "this account has been deleted".

(** ** The tables *)

Record CharRow := mkCharRow { player_id : string; name : string; class : string; created_at : Z }.

#[global] Instance CharRow_eq_dec : EqDecision CharRow.
Proof. solve_decision. Defined.

Inductive CharEvent :=
| Created (character_id player_id name class : string)
| Deleted (character_id player_id : string).

#[global] Instance CharEvent_eq_dec : EqDecision CharEvent.
Proof. solve_decision. Defined.

Record CharDb := mkCharDb { characters : gmap string CharRow; purged_players : Tombs; events : list CharEvent }.

Definition empty_chars : CharDb := mkCharDb ∅ ∅ [].

Definition set_characters (f : gmap string CharRow → gmap string CharRow) (d : CharDb) : CharDb :=
  mkCharDb (f (characters d)) (purged_players d) (events d).

Abbreviation Sql := (ST CharDb SqlError).

Definition emit_tx {E} (e : CharEvent) : ST CharDb E unit :=
  modify (fun d => mkCharDb (characters d) (purged_players d) (events d ++ [e])).

(** What a caller gets; the instant of creation stands for its text, which the server
    renders. *)
Record Character := mkCharacter { c_id : string; c_player_id : string; c_name : string; c_class : string; c_created_at : Z }.

Definition to_character (r : string * CharRow) : Character :=
  mkCharacter (fst r) (player_id (snd r)) (name (snd r)) (class (snd r)) (created_at (snd r)).

(** ** Statements ([store.rs]) *)

(** The rows of a player. *)
Definition of_player (u : string) (r : string * CharRow) : bool := bool_decide (player_id (snd r) = u).
Definition owned (u : string) (d : CharDb) : list (string * CharRow) := List.filter (of_player u) (map_to_list (characters d)).

(** [ORDER BY created_at, id]. *)
Definition earlier (a b : string * CharRow) : Prop :=
  created_at (snd a) < created_at (snd b) ∨ (created_at (snd a) = created_at (snd b) ∧ String.le (fst a) (fst b)).

#[global] Instance earlier_dec : RelDecision earlier.
Proof. intros a b. unfold earlier. apply _. Defined.

Section Store.
Context `{PgUuid}.

(** A malformed id is no row. *)
Definition or_none {A} (m : Sql (option A)) : Sql (option A) := fun d =>
  match m d with (_, Err InvalidTextRepresentation) => (d, Ok None) | r => r end.

Definition create_tx (now : Z) (fresh player nm cls : string) : Sql Character :=
  bind_text [player; nm; cls];;
  u ← cast_uuid player;
  rows ← gets characters;
  if bool_decide (is_Some (rows !! fresh)) then fail UniqueViolation else
  let row := mkCharRow u nm cls now in
  modify (set_characters (insert fresh row));;
  mret (to_character (fresh, row)).

Definition list_by_player (player : string) : Sql (list Character) :=
  bind_text [player];;
  u ← cast_uuid player;
  gets (fun d => to_character <$> take (Z.to_nat LIST_HARD_LIMIT) (merge_sort earlier (owned u d))).

Definition get (id : string) : Sql (option Character) := or_none (
  bind_text [id];;
  i ← cast_uuid id;
  gets (fun d => (fun r => to_character (i, r)) <$> characters d !! i)).

Definition delete_owned_tx (id player : string) : Sql (option (string * string)) := or_none (
  bind_text [id; player];;
  i ← cast_uuid id; u ← cast_uuid player;
  rows ← gets characters;
  match rows !! i with
  | Some r => if bool_decide (player_id r = u) then modify (set_characters (delete i));; mret (Some (i, u)) else mret None
  | None => mret None
  end).

Definition count : Sql Z := gets (fun d => Z.of_nat (size (characters d))).

Definition count_owned_tx (player : string) : Sql Z :=
  bind_text [player];; u ← cast_uuid player; gets (fun d => Z.of_nat (length (owned u d))).

Definition is_player_purged_tx (player : string) : Sql bool :=
  bind_text [player];; u ← cast_uuid player; gets (fun d => bool_decide (is_Some (purged_players d !! u))).

Definition plant_purged_player_tx (player handle : string) : Sql unit :=
  bind_text [player; handle];;
  u ← cast_uuid player;
  modify (fun d => mkCharDb (characters d)
    (match purged_players d !! u with Some _ => purged_players d | None => <[u := (handle, false)]> (purged_players d) end) (events d)).

(** ** The service *)

Record CEnv := mkCEnv { world : World CharDb; fresh : nat → string; max_per_player : nat → Z }.

Section Service.
Variable env : CEnv.
Abbreviation M := (ST (Task CharDb)).

Definition internal (_ : SqlError) : Error := internal_error.
Definition read {A} (m : Sql A) : M Error A := reading (world env) internal_error internal m.
Definition commit {A} (m : nat → Sql A) : M Error A := committing (world env) internal_error (fun t => st_map_err internal (m t)).
(** [tx.rollback()], which can fail like any statement. *)
Definition rollback : M Error unit := read (mret ()).
Definition lock (key : Z) : M Error unit := locking (world env) internal_error key.

Definition player_lock_key (player : string) : Z := lock_key "characters.player/" player.

Definition name_within_cap (nm : string) : bool := (String.length nm <=? MAX_NAME_BYTES)%nat.
Definition class_within_cap (cls : string) : bool := (String.length cls <=? MAX_CLASS_BYTES)%nat.

Definition identity_of (ident : Identity) : result Error string := ok_or (OpsApi.player_id ident) (mkError Invalid "missing player identity").

(** [Ownership::owner_of]. *)
Definition owner_of (character_id : string) : M Error (option string) :=
  c ← read (get character_id); mret (c_player_id <$> c).

Definition create_writes (player nm cls : string) (t : nat) : Sql Character :=
  c ← create_tx (now_at (world env) t) (fresh env t) player nm cls;
  emit_tx (Created (c_id c) (c_player_id c) (c_name c) (c_class c));;
  mret c.

(** The configured cap, as [create] reads it. *)
Definition cap_at : M Error Z := gets (fun s => clamp (max_per_player env (tick s)) 0 LIST_HARD_LIMIT).

Definition create (ident : Identity) (nm cls : string) : M Error Character :=
  player ← lift (identity_of ident);
  if str_is_empty (trim nm) then fail (mkError Invalid "name is required") else
  let cls := if str_is_empty cls then "novice" else cls in
  if negb (name_within_cap nm) then fail (mkError Invalid "name exceeds 128 bytes") else
  if negb (class_within_cap cls) then fail (mkError Invalid "class exceeds 64 bytes") else
  in_tx (
    lock (player_lock_key player);;
    gone ← read (is_player_purged_tx player);
    if (gone : bool) then rollback;; fail (mkError Conflict PLAYER_DELETED) else
    cap ← cap_at;
    n ← read (count_owned_tx player);
    if cap <=? n then rollback;; fail (mkError Conflict ("character limit reached (" +:+ pretty cap +:+ ")")) else
    commit (create_writes player nm cls)).

Definition list_mine (ident : Identity) : M Error (list Character) :=
  player ← lift (identity_of ident);
  read (list_by_player player).

Definition delete_writes (character_id player : string) : Sql (option (string * string)) :=
  removed ← delete_owned_tx character_id player;
  match removed with
  | None => mret None
  | Some (i, u) => emit_tx (Deleted i u);; mret (Some (i, u))
  end.

Definition delete_mine (ident : Identity) (character_id : string) : M Error unit :=
  player ← lift (identity_of ident);
  in_tx (
    removed ← commit (fun _ => delete_writes character_id player);
    match removed with
    | None => rollback;; fail (mkError NotFound "character not found")
    | Some _ => mret ()
    end).

(** The handler of [player.deleted]. *)
Definition on_player_deleted (player handle : string) : M Error unit := commit (fun _ => plant_purged_player_tx player handle).
End Service.

(** ** The purge sweep ([projection.rs]) *)

Definition PURGE_SCHEDULE_NAME : string := "player-purge".
Definition PURGE_BATCH : nat := 256.

(** One event per deleted row, in the order the statement returned them. *)
Definition emit_deleted (l : list (string * CharRow)) : Sql unit :=
  foldr (fun r m => emit_tx (Deleted (fst r) (player_id (snd r)));; m) (mret ()) l.

Definition purge_player (player handle : string) : Sql unit :=
  bind_text [player];;
  u ← cast_uuid player;
  removed ← gets (owned u);
  modify (set_characters (filter (fun kv => player_id (snd kv) ≠ u)));;
  emit_deleted removed;;
  u' ← cast_uuid player;
  modify (fun d => mkCharDb (characters d) (marked u' (purged_players d)) (events d)).

#[global] Instance characters_sweep : Sweep CharDb := {| tombs := purged_players; purge_one := purge_player |}.

Definition sweep_purged_players (elapsed : nat → bool) (d : CharDb) : option (CharDb * result SqlError unit) := purge_sweep elapsed PURGE_BATCH d.

Definition purge_handler (elapsed : nat → bool) (nm : string) (d : CharDb) : option (CharDb * result SqlError unit) :=
  if bool_decide (nm ≠ PURGE_SCHEDULE_NAME) then Some (d, Ok ()) else sweep_purged_players elapsed d.
End Store.
