(* ===== verification/CharactersContract.v ===== *)
(** * CharactersContract: the character operations refine their causes

    How the tables can change, the invariant every change keeps (no player has more
    characters than a listing shows, and the events are a complete account of the
    table), and that every operation, among the transactions of others, changes them
    only as its caller may; then what a listing and a purge come to, and the character
    that is created behind a purge. *)

From Stdlib Require Import Ascii.
From stdpp Require Import sorting.
From S2P Require Import Prelude Text OpsApi Pg Purge Directory Txn Characters.
#[local] Open Scope Z_scope.

Section Causes.
Context `{PgUuid}.

Inductive Cause :=
| CCreate (id u nm cls : string) (now cap : Z)
| CDelete (id u : string)
| CPlant (u handle : string)
| CPurge (u : string).

Definition has_owner (u : string) (o : option CharRow) : Prop := player_id <$> o = Some u.

#[global] Instance has_owner_dec u o : Decision (has_owner u o).
Proof. unfold has_owner. apply _. Defined.

Definition deleted_event (r : string * CharRow) : CharEvent := Deleted (fst r) (player_id (snd r)).

(** What a new character is: named, within the caps, and of a class. *)
Definition char_fits (nm cls : string) : Prop :=
  trim nm ≠ "" ∧ (String.length nm ≤ MAX_NAME_BYTES)%nat ∧ cls ≠ "" ∧ (String.length cls ≤ MAX_CLASS_BYTES)%nat.

Definition purged_chars (u handle : string) (d : CharDb) : CharDb :=
  mkCharDb (filter (fun kv => player_id (snd kv) ≠ u) (characters d)) (marked u (purged_players d))
    (events d ++ (deleted_event <$> owned u d)).

Definition chars_does (c : Cause) (d : CharDb) : option CharDb :=
  match c with
  | CCreate id u nm cls now cap =>
      check (characters d !! id = None ∧ canonical u ∧ char_fits nm cls ∧ Z.of_nat (length (owned u d)) < cap ∧ cap ≤ LIST_HARD_LIMIT);;
      Some (mkCharDb (<[id := mkCharRow u nm cls now]> (characters d)) (purged_players d) (events d ++ [Created id u nm cls]))
  | CDelete id u =>
      check (has_owner u (characters d !! id));; Some (mkCharDb (delete id (characters d)) (purged_players d) (events d ++ [Deleted id u]))
  | CPlant u handle => check (canonical u ∧ purged_players d !! u = None);; Some (mkCharDb (characters d) (<[u := (handle, false)]> (purged_players d)) (events d))
  | CPurge u => check (is_Some (purged_players d !! u));; Some (purged_chars u "" d)
  end.

(** A consumer's table, rebuilt from the events. *)
Definition apply_char (m : gmap string (string * string * string)) (e : CharEvent) : gmap string (string * string * string) :=
  match e with Created i u n c => <[i := (u, n, c)]> m | Deleted i _ => delete i m end.
Definition replay_chars (l : list CharEvent) : gmap string (string * string * string) := foldl apply_char ∅ l.
Definition char_data (r : CharRow) : string * string * string := (player_id r, name r, class r).

Record chars_inv (d : CharDb) : Prop := {
  ci_rows : map_Forall (fun _ r => canonical (player_id r) ∧ char_fits (name r) (class r)) (characters d);
  ci_cap : ∀ u, Z.of_nat (length (owned u d)) ≤ LIST_HARD_LIMIT;
  ci_tombs : map_Forall (fun u _ => canonical u) (purged_players d);
  ci_log : replay_chars (events d) = char_data <$> characters d;
}.

Lemma owned_elem u d i r : (i, r) ∈ owned u d ↔ characters d !! i = Some r ∧ player_id r = u.
Proof. unfold owned, of_player. rewrite list_elem_of_In, filter_In, <- list_elem_of_In, elem_of_map_to_list, bool_decide_eq_true. done. Qed.

Lemma owned_nodup u d : NoDup (owned u d).*1.
Proof. apply NoDup_keys_filter, NoDup_fst_map_to_list. Qed.

(** The number of a player's characters. *)
Lemma owned_size u d : length (owned u d) = size (filter (fun kv => player_id (snd kv) = u) (characters d)).
Proof.
  rewrite <- length_map_to_list. apply Permutation_length, NoDup_Permutation; [by eapply NoDup_fmap_1, owned_nodup|apply NoDup_map_to_list|].
  intros [i r]. rewrite owned_elem, elem_of_map_to_list, map_lookup_filter_Some. done.
Qed.

Lemma owned_fewer u d d' :
  (∀ i r, characters d' !! i = Some r → player_id r = u → characters d !! i = Some r) → (length (owned u d') ≤ length (owned u d))%nat.
Proof.
  intros Hs. rewrite !owned_size. apply map_subseteq_size, map_subseteq_spec. intros i r.
  rewrite !map_lookup_filter_Some. simpl. intros [Hr Hu]. split; [by apply Hs|done].
Qed.

Lemma owned_create id u nm cls now p e d :
  characters d !! id = None → length (owned u (mkCharDb (<[id := mkCharRow u nm cls now]> (characters d)) p e)) = S (length (owned u d)).
Proof.
  intros Hid. rewrite !owned_size. simpl. rewrite map_filter_insert_True by done. rewrite map_size_insert_None; [done|].
  apply map_lookup_filter_None. by left.
Qed.

Lemma owned_insert_ne id r u p e d :
  player_id r ≠ u → characters d !! id = None → length (owned u (mkCharDb (<[id := r]> (characters d)) p e)) = length (owned u d).
Proof. intros Hr Hid. rewrite !owned_size. simpl. rewrite map_filter_insert_False by done. by rewrite delete_id. Qed.

Lemma replay_snoc l e : replay_chars (l ++ [e]) = apply_char (replay_chars l) e.
Proof. unfold replay_chars. by rewrite foldl_app. Qed.

Lemma replay_deleted l m i :
  foldl apply_char m (deleted_event <$> l) !! i = if decide (i ∈ l.*1) then None else m !! i.
Proof.
  revert m. induction l as [|[j r] l IH]; intros m; [done|]. cbn [fmap list_fmap foldl]. rewrite IH. simpl.
  destruct (decide (i ∈ l.*1)) as [Hi|Hi]; [by rewrite decide_True by by right|].
  destruct (decide (i = j)) as [->|Hne]; [rewrite decide_True by left; apply lookup_delete_eq|].
  rewrite decide_False by (by rewrite not_elem_of_cons). by rewrite lookup_delete_ne.
Qed.

Lemma purged_log u d : chars_inv d → replay_chars (events (purged_chars u "" d)) = char_data <$> characters (purged_chars u "" d).
Proof.
  intros Hd. apply map_eq. intros i. simpl. unfold replay_chars. rewrite foldl_app. fold (replay_chars (events d)).
  rewrite replay_deleted, (ci_log d Hd), !lookup_fmap. destruct (decide _) as [Hi|Hi].
  - apply list_elem_of_fmap in Hi as ([j r] & -> & [Hr Hu]%owned_elem). simpl. symmetry. apply fmap_None, map_lookup_filter_None. right.
    intros x Hx Hn. apply Hn. simpl. congruence.
  - destruct (characters d !! i) as [r|] eqn:Er.
    + symmetry. apply fmap_Some. exists r. split; [|done]. apply map_lookup_filter_Some. split; [done|]. simpl. intros Hu.
      apply Hi. apply (list_elem_of_fmap_2 fst _ (i, r)). by apply owned_elem.
    + symmetry. apply fmap_None, map_lookup_filter_None. by left.
Qed.

Lemma chars_inv_does c d d' : chars_inv d → chars_does c d = Some d' → chars_inv d'.
Proof.
  intros Hd E. destruct c as [id u nm cls now cap|id u|u handle|u]; simpl in E; rewrite check_some in E; destruct E as [Hc [= <-]].
  - destruct Hc as (Hid & Hu & Hf & Hn & Hcap). constructor; simpl.
    + apply map_Forall_insert_2; [by split|apply Hd].
    + intros v. destruct (decide (u = v)) as [<-|Hne]; [rewrite owned_create by done; lia|].
      rewrite owned_insert_ne by done. apply (ci_cap d Hd).
    + apply Hd.
    + rewrite replay_snoc, (ci_log d Hd), fmap_insert. done.
  - constructor; simpl; [by apply map_Forall_delete, Hd| |apply Hd|by rewrite replay_snoc, (ci_log d Hd), fmap_delete].
    intros v. etrans; [|apply (ci_cap d Hd v)]. apply inj_le, owned_fewer. intros i r. simpl. rewrite lookup_delete_Some. naive_solver.
  - destruct Hc as [Hu _]. constructor; simpl; [apply Hd|apply Hd| |apply Hd]. apply map_Forall_insert_2; [done|apply Hd].
  - constructor; [| | |by apply purged_log]; simpl.
    + intros i r [Hr _]%map_lookup_filter_Some. by eapply (ci_rows d Hd).
    + intros v. etrans; [|apply (ci_cap d Hd v)]. apply inj_le, owned_fewer. intros i r. simpl. rewrite map_lookup_filter_Some. naive_solver.
    + intros k t Hk. unfold marked in Hk. apply lookup_alter_Some in Hk as [(-> & x & Hx & _)|[_ Hx]]; by apply (ci_tombs d Hd) in Hx.
Qed.

Lemma chars_inv_empty : chars_inv empty_chars.
Proof. constructor; [apply map_Forall_empty|done|apply map_Forall_empty|done]. Qed.

#[global] Instance chars_causes : Causes CharDb Cause := {
  does := chars_does;
  locks_of := fun c => match c with CCreate _ u _ _ _ _ => [player_lock_key u] | _ => [] end;
  sound := chars_inv;
  sound_does := chars_inv_does;
}.
(** ** What a group of statements that succeeds has done *)

Lemma owned_none_true (m : ST CharDb SqlError (option (string * string))) d d' x : or_none m d = (d', Ok (Some x)) → m d = (d', Ok (Some x)).
Proof. unfold or_none. destruct (m d) as [d1 [[y|]|e]]; [done|done|]. destruct e; naive_solver. Qed.

Lemma create_does env player nm cls t d d' c :
  create_writes env player nm cls t d = (d', Ok c) →
  ∃ u, uuid_in player = Some u ∧ characters d !! fresh env t = None ∧ c = mkCharacter (fresh env t) u nm cls (now_at (world env) t) ∧
    d' = mkCharDb (<[fresh env t := mkCharRow u nm cls (now_at (world env) t)]> (characters d)) (purged_players d) (events d ++ [Created (fresh env t) u nm cls]).
Proof.
  unfold create_writes, create_tx. intros E. apply st_bind_ok in E as (d1 & x & E1 & E). pg_inv E1.
  case_bool_decide as Hf; [done|]. apply st_bind_ok in E1 as (d2 & [] & [= <-] & E1). injection E1 as <- <-.
  apply st_bind_ok in E as (d3 & [] & [= <-] & E). injection E as <- <-. eexists. split_and!; [done|by apply eq_None_not_Some|done|done].
Qed.

Lemma delete_does id player d d' x :
  delete_writes id player d = (d', Ok x) →
  match x with
  | None => d' = d
  | Some (i, u) => uuid_in id = Some i ∧ uuid_in player = Some u ∧ does (CDelete i u) d = Some d'
  end.
Proof.
  unfold delete_writes. intros E. apply st_bind_ok in E as (d1 & y & E1 & E). destruct y as [[i u]|].
  - apply st_bind_ok in E as (d3 & [] & [= <-] & E). injection E as <- <-. apply owned_none_true in E1. pg_inv E1.
    destruct (characters d !! _) as [r|] eqn:Er; [|done]. case_bool_decide as Ho; [|done].
    apply st_bind_ok in E1 as (d2 & [] & [= <-] & E1). injection E1 as <- <- <-. split_and!; [done|done|]. simpl.
    rewrite check_run; [done|]. unfold has_owner. by rewrite Er, <- Ho.
  - injection E as <- <-. unfold delete_owned_tx, or_none in E1. unfold mbind, ST_bind, bind_text, cast_uuid, lift, ok_or, gets in E1.
    repeat (case_match; simplify_eq/=; try done); unfold mret, ST_ret in *; by simplify_eq.
Qed.

Lemma plant_tomb_does player handle d d' x :
  plant_purged_player_tx player handle d = (d', Ok x) → d' = d ∨ ∃ u, uuid_in player = Some u ∧ does (CPlant u handle) d = Some d'.
Proof.
  intros E. unfold plant_purged_player_tx in E. pg_inv E. injection E as <-.
  match goal with Hu : uuid_in player = Some ?u |- _ => destruct (purged_players d !! u) eqn:Et; [left; by destruct d|right; exists u] end.
  split; [done|]. simpl. rewrite check_run; [done|]. split; [by eapply uuid_in_canonical|done].
Qed.
(** ** Refinement *)

Section Refine.
Variable env : CEnv.
Variable Q : Cause → Prop.
Hypothesis meanwhile_others : ∀ t L d, rtc (others Q L) d (meanwhile (world env) t L d).

(** Under a player's lock, nobody else adds to their characters. *)
Definition at_most (u : string) (n : Z) (d : CharDb) : Prop := Z.of_nat (length (owned u d)) ≤ n.

Lemma stable_at_most u n : stable Q [player_lock_key u] (at_most u n).
Proof.
  intros d d' Hd Hn (c & _ & E & Hl). unfold at_most in *. etrans; [|exact Hn].
  destruct c as [id v nm cls now cap|id v|v handle|v]; simpl in E; rewrite check_some in E; destruct E as [Hc [= <-]].
  - destruct (decide (v = u)) as [->|Hne]; [exfalso; simpl in Hl; apply (Forall_inv Hl); by apply list_elem_of_singleton|].
    destruct Hc as (Hid & _). by rewrite owned_insert_ne by done.
  - apply inj_le, owned_fewer. intros i r. simpl. rewrite lookup_delete_Some. naive_solver.
  - done.
  - apply inj_le, owned_fewer. intros i r. simpl. rewrite map_lookup_filter_Some. naive_solver.
Qed.

Inductive CharOp := OCreate (nm cls : string) | OList | ODelete (id : string) | OOwner (id : string) | ODeleted (player handle : string).

Definition chars_run (who : Identity) (op : CharOp) (s : Task CharDb) : Task CharDb :=
  match op with
  | OCreate nm cls => fst (create env who nm cls s)
  | OList => fst (list_mine env who s)
  | ODelete id => fst (delete_mine env who id s)
  | OOwner id => fst (owner_of env id s)
  | ODeleted p h => fst (on_player_deleted env p h s)
  end.

Definition caller_is (who : Identity) (u : string) : Prop := ∃ me, OpsApi.player_id who = Some me ∧ uuid_in me = Some u.

Definition chars_commands (who : Identity) (op : CharOp) (c : Cause) : Prop :=
  match op with
  | OCreate nm cls => ∃ id u now t, c = CCreate id u nm (if str_is_empty cls then "novice" else cls) now (clamp (max_per_player env t) 0 LIST_HARD_LIMIT) ∧ caller_is who u
  | ODelete id => ∃ i u, c = CDelete i u ∧ uuid_in id = Some i ∧ caller_is who u
  | ODeleted p h => ∃ u, c = CPlant u h ∧ uuid_in p = Some u
  | OList | OOwner _ => False
  end.

Lemma caller_of who me : identity_of who = Ok me → OpsApi.player_id who = Some me.
Proof. unfold identity_of. destruct (OpsApi.player_id who); [by intros [= <-]|done]. Qed.

Lemma count_owned_ok player d n : snd (count_owned_tx player d) = Ok n → ∃ u, uuid_in player = Some u ∧ n = Z.of_nat (length (owned u d)).
Proof.
  destruct (count_owned_tx player d) as [d' [x|e]] eqn:E; [|done]. simpl. intros [= <-]. unfold count_owned_tx in E. pg_inv E. injection E as <- <-. eauto.
Qed.

Lemma tri_cap_bind {B} P Φ (k : Z → ST (Task CharDb) Error B) Ω :
  (∀ t, tri Q P Φ (k (clamp (max_per_player env t) 0 LIST_HARD_LIMIT)) Ω) → tri Q P Φ (cap_at env ≫= k) Ω.
Proof. intros Hk s s' r Hd Hs. unfold mbind, ST_bind, cap_at, gets. by apply Hk. Qed.

Lemma tri_rolled_back {A} P Φ (e : Error) : tri Q P Φ (rollback env;; fail e : ST (Task CharDb) Error A) (fun _ _ => True).
Proof. eapply (tri_pre _ _ _ (fun _ => True)); [done|]. apply tri_seq; [by apply tri_reading_free|]. intros _. apply tri_fail. Qed.

Lemma tri_create_character who nm cls : tri Q (chars_commands who (OCreate nm cls)) (fun _ => True) (create env who nm cls) (fun _ _ => True).
Proof.
  unfold create. apply tri_lift_bind. intros me Hme%caller_of. destruct (str_is_empty (trim nm)) eqn:En; [apply tri_fail|]. cbv zeta.
  set (cls' := if str_is_empty cls then "novice" else cls). destruct (name_within_cap nm) eqn:Enm; [|apply tri_fail].
  destruct (class_within_cap cls') eqn:Ecl; [|apply tri_fail]. cbn [negb].
  assert (Hfits : char_fits nm cls').
  { unfold name_within_cap, class_within_cap in *. apply Nat.leb_le in Enm, Ecl. unfold str_is_empty in En. apply bool_decide_eq_false in En.
    split_and!; try done. unfold cls', str_is_empty. by case_bool_decide. }
  apply tri_in_tx. eapply tri_bind; [by apply tri_locking_free|]. intros []. apply tri_read_bind; [done|apply stable_true|].
  intros [] d0 _ _ _; exists (fun _ => True); (split; [done|]); [apply tri_rolled_back|].
  apply tri_cap_bind. intros t0. set (cap := clamp _ _ _).
  apply tri_read_bind; [done|apply stable_true|]. intros n d Hd _ (u & Hu & ->)%count_owned_ok. exists (at_most u (Z.of_nat (length (owned u d)))).
  split; [unfold at_most; lia|]. destruct (Z.leb_spec cap (Z.of_nat (length (owned u d)))) as [Hge|Hlt]; [apply tri_rolled_back|].
  assert (Hk : player_lock_key me = player_lock_key u) by (eapply lock_key_uuid; [exact Hu|by eapply uuid_in_canonical]). rewrite Hk.
  apply tri_commit; [done|apply stable_at_most|]. intros t d1 d2 c Hd1 Hm (u' & Hu' & Hf & -> & ->)%st_map_err_ok%create_does.
  right. assert (u' = u) as -> by congruence. exists (CCreate (fresh env t) u nm cls' (now_at (world env) t) cap). split.
  - eexists _, _, _, _. split; [done|]. by exists me.
  - simpl. rewrite check_run; [done|]. unfold at_most in Hm. pose proof (clamp_bounds (max_per_player env t0) 0 LIST_HARD_LIMIT ltac:(done)).
    split_and!; [done|by eapply uuid_in_canonical|done|lia|unfold cap; lia].
Qed.

(** Every character operation, whatever others commit between its statements and
    whichever fails or loses its answer, changes the tables only as its caller may: a
    player creates characters of their own while fewer than the configured cap are there
    (no two concurrent creates exceed it together), deletes characters of their own, and
    each change carries its event; a listing changes nothing; a deletion of the account
    plants its tombstone. *)
Theorem chars_ops_entitled who op s :
  chars_inv (db s) → rtc (own Q (chars_commands who op)) (db s) (db (chars_run who op s)).
Proof.
  intros Hd. destruct op as [nm cls| |id|id|p h]; simpl chars_run; apply tri_run; try done.
  - apply tri_create_character.
  - unfold list_mine. apply tri_lift_bind. intros me _. by apply tri_reading_free.
  - unfold delete_mine. apply tri_lift_bind. intros me Hme%caller_of. apply tri_in_tx, tri_seq.
    + apply tri_commit_free; [done|]. intros t d d' [[i u]|] _ E%st_map_err_ok%delete_does; [right|by left].
      destruct E as (Hi & Hu & E). exists (CDelete i u). split; [|exact E]. exists i, u. split_and!; [done|done|by exists me].
    + intros [[i u]|]; [by apply tri_ret|apply tri_rolled_back].
  - unfold owner_of. apply tri_seq; [by apply tri_reading_free|]. intros x. by apply tri_ret.
  - unfold on_player_deleted. apply tri_commit_free; [done|]. intros t d d' x _ [->|(u & Hu & E)]%st_map_err_ok%plant_tomb_does; [by left|right].
    exists (CPlant u h). split; [|exact E]. by exists u.
Qed.
End Refine.

(** ** Listing *)

#[local] Instance earlier_trans : Transitive earlier.
Proof.
  intros a b c. unfold earlier. intros [?|[? ?]] [?|[? ?]]; [left; lia..|right]. split; [lia|]. by etrans.
Qed.
#[local] Instance earlier_total : Total earlier.
Proof.
  intros a b. unfold earlier. destruct (Z.lt_trichotomy (created_at a.2) (created_at b.2)) as [?|[?|?]]; [by left; left| |by right; left].
  destruct (total String.le a.1 b.1); [left|right]; right; done.
Qed.

(** A listing is never cut short: in every state the operations can reach it holds
    all of the caller's characters, each once, oldest first. *)
Theorem chars_listing_complete me u d :
  chars_inv d → uuid_in me = Some u → has_nul me = false →
  ∃ l, list_by_player me d = (d, Ok (to_character <$> l)) ∧ StronglySorted earlier l ∧ NoDup l.*1
    ∧ ∀ i r, (i, r) ∈ l ↔ characters d !! i = Some r ∧ player_id r = u.
Proof.
  intros Hd Hu Hn. exists (merge_sort earlier (owned u d)). assert (Hp : merge_sort earlier (owned u d) ≡ₚ owned u d) by apply merge_sort_Permutation.
  split_and!; [|apply StronglySorted_merge_sort; apply _|rewrite Hp; apply owned_nodup|intros i r; rewrite Hp; apply owned_elem].
  unfold list_by_player. rewrite (st_bind_run _ _ d d ()) by (unfold bind_text; simpl; by rewrite Hn).
  rewrite (st_bind_run _ _ d d u) by (unfold cast_uuid, lift, ok_or; by rewrite Hu). unfold gets. rewrite take_ge; [done|].
  rewrite Hp. pose proof (ci_cap d Hd u). lia.
Qed.

(** ** The purge *)

Definition chars_step (d d' : CharDb) : Prop := ∃ c, chars_does c d = Some d'.

Lemma emit_deleted_run l d : emit_deleted l d = (mkCharDb (characters d) (purged_players d) (events d ++ (deleted_event <$> l)), Ok ()).
Proof.
  revert d. induction l as [|r l IH]; intros d; [destruct d; simpl; by rewrite app_nil_r|].
  change (emit_deleted (r :: l)) with (emit_tx (Deleted (fst r) (player_id (snd r))) ≫= fun _ => emit_deleted l : ST CharDb SqlError unit).
  erewrite st_bind_run by reflexivity. rewrite IH. simpl. by rewrite <- app_assoc.
Qed.

#[global, program] Instance chars_sweep_laws : SweepLaws CharDb := {| purged_of := purged_chars |}.
Next Obligation.
  intros u h d Hu. simpl. unfold purge_player. rewrite (st_bind_run _ _ d d ()) by (unfold bind_text; simpl; by rewrite (uuid_in_no_nul _ _ Hu)).
  rewrite (st_bind_run _ _ d d u) by (unfold cast_uuid, lift, ok_or; by rewrite Hu). rewrite (st_bind_run _ _ d d (owned u d)) by done.
  erewrite st_bind_run by reflexivity. erewrite st_bind_run by apply emit_deleted_run.
  erewrite st_bind_run by (unfold cast_uuid, lift, ok_or; rewrite Hu; reflexivity). done.
Qed.
Next Obligation. done. Qed.

Lemma purge_all_steps l d : (∀ u h, (u, h) ∈ l → is_Some (purged_players d !! u)) → rtc chars_step d (purge_all d l).
Proof.
  revert d. induction l as [|[u h] l IH]; intros d Hl; [done|]. change (purge_all d ((u, h) :: l)) with (purge_all (purged_chars u h d) l).
  eapply rtc_l; [exists (CPurge u); simpl; apply check_run, (Hl u h); by left|]. apply IH. intros v k Hv. destruct (Hl v k) as [t Ht]; [by right|].
  simpl. unfold marked. rewrite lookup_alter_is_Some. by exists t.
Qed.

(** A fire of the purge ends without an error from every well-formed state.  It
    deletes only characters of players whose account was deleted and whose purge was due,
    with an event for each, so that the events remain a complete account of the table; it
    stamps only players it has left without a character, and all of them if the time
    budget lasts. *)
Theorem chars_purge_correct elapsed d :
  chars_inv d →
  ∃ d', purge_handler elapsed PURGE_SCHEDULE_NAME d = Some (d', Ok ()) ∧ rtc chars_step d d' ∧
    replay_chars (events d') = char_data <$> characters d' ∧
    swept_clean characters (fun _ r => Some (player_id r)) elapsed d d'.
Proof.
  intros Hd. unfold purge_handler, sweep_purged_players. rewrite bool_decide_eq_false_2 by by intros [].
  destruct (purge_sweep_rows characters (fun _ r => Some (player_id r))) with (elapsed := elapsed) (batch := PURGE_BATCH) (s := d) as (l & E & Hl & Hclean).
  - intros u h x i r. simpl. rewrite map_lookup_filter_Some. naive_solver.
  - unfold PURGE_BATCH. lia.
  - intros u t Hu. by eapply (ci_tombs d Hd).
  - exists (purge_all d l). assert (Hs : rtc chars_step d (purge_all d l)) by (apply purge_all_steps; intros u h Hu; exists (h, false); by apply (Hl u h)).
    split_and!; [exact E|done| |done]. apply (ci_log (purge_all d l)). clear -Hs Hd. induction Hs as [|x y z [c Hc] _ IH]; [done|]. by apply IH, (chars_inv_does c x).
Qed.
End Causes.

(** Ann creates a character. *)
Module CharsExample.
#[local] Existing Instance plain_uuid.

Definition ann : string := "0a0a0a0a-0000-0000-0000-000000000001".
Definition id1 : string := "33333333-0000-0000-0000-000000000001".
Definition id2 : string := "33333333-0000-0000-0000-000000000002".

Definition env_of (w : World CharDb) (cap : Z) : CEnv := mkCEnv w (fun _ => id2) (fun _ => cap).

Definition one_char : CharDb := mkCharDb {[id1 := mkCharRow ann "Ada" "novice" 5]} ∅ [Created id1 ann "Ada" "novice"].

Lemma one_char_inv : chars_inv one_char.
Proof. apply (chars_inv_does (CCreate id1 ann "Ada" "novice" 5 10) empty_chars); [exact chars_inv_empty|vm_compute; reflexivity]. Qed.

(** A second process deletes Ann's first character while the new one is being made. *)
Definition deletes (t : nat) (L : list Z) (d : CharDb) : CharDb := if Nat.eqb t 3 then default d (does (CDelete id1 ann) d) else d.

Lemma deletes_others t L d : rtc (others (eq (CDelete id1 ann)) L) d (deletes t L d).
Proof.
  unfold deletes. destruct (Nat.eqb t 3); [|done]. destruct (does _ d) as [d'|] eqn:E; [|done].
  apply rtc_once. exists (CDelete id1 ann). by split_and!.
Qed.

Lemma chars_ops_entitled_witness :
  let env := env_of (mkWorld deletes (fun _ => Answers) (fun _ => 9)) 10 in
  let s := mkTask one_char 0 [] in
  let s' := chars_run env (Some ann) (OCreate "Bea" "") s in
  rtc (own (eq (CDelete id1 ann)) (chars_commands env (Some ann) (OCreate "Bea" ""))) (db s) (db s') ∧
  map_to_list (characters (db s')) = [(id2, mkCharRow ann "Bea" "novice" 9)].
Proof.
  split; [|vm_compute; reflexivity].
  apply (chars_ops_entitled (env_of (mkWorld deletes (fun _ => Answers) (fun _ => 9)) 10) _ deletes_others (Some ann) (OCreate "Bea" "") (mkTask one_char 0 [])).
  exact one_char_inv.
Defined.

Lemma ann_canonical : uuid_in ann = Some ann.
Proof. vm_compute. reflexivity. Qed.

Lemma chars_listing_complete_witness : ∃ l, list_by_player ann one_char = (one_char, Ok (to_character <$> l)) ∧ (id1, mkCharRow ann "Ada" "novice" 5) ∈ l.
Proof.
  destruct (chars_listing_complete ann ann one_char one_char_inv ann_canonical eq_refl) as (l & E & _ & _ & Hl).
  exists l. split; [exact E|]. apply Hl. split; [vm_compute; reflexivity|reflexivity].
Defined.

Definition with_tomb : CharDb := mkCharDb (characters one_char) {[ann := ("ann#0001", false)]} (events one_char).

Lemma chars_tomb_inv : chars_inv with_tomb.
Proof. apply (chars_inv_does (CPlant ann "ann#0001") one_char); [exact one_char_inv|vm_compute; reflexivity]. Qed.

Lemma chars_purge_correct_witness :
  ∃ d', purge_handler (fun _ => false) PURGE_SCHEDULE_NAME with_tomb = Some (d', Ok ()) ∧ replay_chars (events d') = char_data <$> characters d'.
Proof.
  destruct (chars_purge_correct (fun _ => false) with_tomb chars_tomb_inv) as (d' & E & _ & Hlog & _).
  exists d'. split; [exact E|exact Hlog].
Defined.

(** The account is deleted, and its purge runs, after the look at the tombstones. *)
Definition purges (t : nat) (L : list Z) (d : CharDb) : CharDb :=
  if Nat.eqb t 3 then default d (does (CPlant ann "ann#0001") d ≫= does (CPurge ann)) else d.

(** The character of the deleted player is created all the same, and their tombstone is
    stamped: no later fire visits it. *)
Theorem late_character_survives :
  let late := create (env_of (mkWorld purges (fun _ => Answers) (fun _ => 9)) 10) (Some ann) "Bea" "" (mkTask one_char 0 []) in
  let bea := [(id2, mkCharRow ann "Bea" "novice" 9)] in
  is_ok (snd late) = true ∧ map_to_list (characters (db (fst late))) = bea ∧ purged_players (db (fst late)) !! ann = Some ("ann#0001", true) ∧
  (fun x => map_to_list (characters (fst x))) <$> purge_handler (fun _ => false) PURGE_SCHEDULE_NAME (db (fst late)) = Some bea.
Proof. cbv zeta. split_and!; vm_compute; reflexivity. Qed.
End CharsExample.
