(* ===== verification/Inventory.v ===== *)
(** * Inventory: item holdings of players and characters

    [modules/inventory/src].  A holding is a quantity of one item with one owner, a
    player or a character.  Players list and (in development) grant; a new character is
    given a starter item and a deleted one is wiped, by the durable events of
    [Characters]; deleted players are purged.  The statements of [store.rs], the
    operations of [service.rs] and the handlers of [projection.rs].  Statements run
    against what is committed ([Txn]); the ownership capability of [characters], the
    configuration and the order of item ids are arguments. *)

From Stdlib Require Import Ascii.
From stdpp Require Import sorting.
From S2P Require Import Prelude Text OpsApi Pg Purge Directory Txn.
#[local] Open Scope Z_scope.

Definition HOLDINGS_HARD_LIMIT : nat := 1000.
Definition MAX_HOLDING_QTY : Z := 1000000.
Definition STATE_CEILING : Z := 2000000.
Definition STARTER_ITEM : string := "starter_sword".
Definition STARTER_QTY : Z := 1.
Definition PLAYER_DELETED : string := "this account has been deleted".

(** ** The tables *)

Record Owner := mkOwner { otype : string; oid : string }.
Definition owner_player (id : string) : Owner := mkOwner "player" id.
Definition owner_character (id : string) : Owner := mkOwner "character" id.

Record Item := mkItem { item_name : string; item_kind : string }.

(** Owner type, owner id and item id. *)
Abbreviation HoldingKey := (string * string * string)%type.

Record InvDb := mkInvDb {
  items : gmap string Item;
  holdings : gmap HoldingKey Z;
  wiped_characters : gset string;
  purged_players : Tombs;
}.

Definition seeded_items : gmap string Item :=
  <["coin" := mkItem "Coin" "currency"]> (<["starter_sword" := mkItem "Starter Sword" "weapon"]>
    (<["health_potion" := mkItem "Health Potion" "consumable"]> ∅)).

(** The schema as [migrate] leaves it. *)
Definition empty_inventory : InvDb := mkInvDb seeded_items ∅ ∅ ∅.

Definition set_holdings (f : gmap HoldingKey Z → gmap HoldingKey Z) (d : InvDb) : InvDb :=
  mkInvDb (items d) (f (holdings d)) (wiped_characters d) (purged_players d).

Abbreviation Sql := (ST InvDb SqlError).

(** The one policy for a quantity. *)
Definition validate_quantity (qty : Z) : option Z := if (0 <? qty) && (qty <=? MAX_HOLDING_QTY) then Some qty else None.

Definition QUANTITY_CHECK : string := "holdings_quantity_check".

Definition is_holdings_cap_violation (e : SqlError) : bool :=
  match e with CheckViolation c => bool_decide (c = QUANTITY_CHECK) | _ => false end.

Definition env_bool (raw : option string) (def : bool) : bool :=
  match raw with
  | Some v => if str_is_empty v then def else bool_decide (v = "1") || eq_ignore_ascii_case v "true" || eq_ignore_ascii_case v "on"
  | None => def
  end.

(** A row belongs to an owner, spelled as the server does. *)
Definition is_owner (ot u : string) (k : HoldingKey) : bool := let '(t, o, _) := k in bool_decide (t = ot) && bool_decide (o = u).

Section Store.
Context `{PgUuid} (item_le : string → string → bool).

(** ** Statements ([store.rs]) *)

(** [INSERT .. ON CONFLICT DO UPDATE]: the row's check, then the foreign key. *)
Definition grant_exec (owner : Owner) (item : string) (qty : Z) : Sql unit :=
  match validate_quantity qty with
  | None => fail OtherSqlError
  | Some qty =>
      bind_text [otype owner; oid owner; item];;
      u ← cast_uuid (oid owner);
      d ← gets id;
      let sum := default 0 (holdings d !! (otype owner, u, item)) + qty in
      if negb ((0 <=? sum) && (sum <=? STATE_CEILING)) then fail (CheckViolation QUANTITY_CHECK) else
      if negb (bool_decide (is_Some (items d !! item))) then fail (ForeignKeyViolation "holdings_item_id_fkey") else
      modify (set_holdings (insert (otype owner, u, item) sum))
  end.

Definition is_player_purged (player : string) : Sql bool :=
  bind_text [player];; u ← cast_uuid player; gets (fun d => bool_decide (is_Some (purged_players d !! u))).

Record Holding := mkHolding { h_owner_type : string; h_owner_id : string; h_item_id : string; h_item_name : string; h_quantity : Z }.

Definition by_item (a b : HoldingKey * Z) : Prop := item_le (snd (fst a)) (snd (fst b)) = true.

#[global] Instance by_item_dec : RelDecision by_item.
Proof. intros a b. unfold by_item. apply _. Defined.

(** The rows of an owner, in the order of their items. *)
Definition owner_rows (ot u : string) (d : InvDb) : list (HoldingKey * Z) :=
  take HOLDINGS_HARD_LIMIT (merge_sort by_item (List.filter (fun r => is_owner ot u (fst r)) (map_to_list (holdings d)))).

(** [JOIN items]; every row has its item, by the foreign key. *)
Definition list_rows (owner : Owner) : Sql (list Holding) :=
  bind_text [otype owner; oid owner];;
  u ← cast_uuid (oid owner);
  gets (fun d => omap (fun r => let '(t, o, i) := fst r in (fun it => mkHolding t o i (item_name it) (snd r)) <$> items d !! i)
    (owner_rows (otype owner) u d)).

Definition list_detail (owner : Owner) : Sql (list (string * string * string * Z)) :=
  bind_text [otype owner; oid owner];;
  u ← cast_uuid (oid owner);
  gets (fun d => omap (fun r => let '(_, _, i) := fst r in (fun it => (i, item_name it, item_kind it, snd r)) <$> items d !! i)
    (owner_rows (otype owner) u d)).

Definition clear_owner_exec (owner : Owner) : Sql Z :=
  bind_text [otype owner; oid owner];;
  u ← cast_uuid (oid owner);
  n ← gets (fun d => Z.of_nat (length (List.filter (fun r => is_owner (otype owner) u (fst r)) (map_to_list (holdings d)))));
  modify (set_holdings (filter (fun r => is_owner (otype owner) u (fst r) = false)));;
  mret n.

Definition item_exists_exec (item : string) : Sql bool :=
  bind_text [item];; gets (fun d => bool_decide (is_Some (items d !! item))).

(** The holdings, and how many owners have any. *)
Definition stats : Sql (Z * Z) :=
  gets (fun d => (Z.of_nat (size (holdings d)), Z.of_nat (length (remove_dups ((fun r => fst (fst r)) <$> map_to_list (holdings d)))))).

Definition plant_purged_player_tx (player handle : string) : Sql unit :=
  bind_text [player; handle];;
  u ← cast_uuid player;
  modify (fun d => mkInvDb (items d) (holdings d) (wiped_characters d)
    (match purged_players d !! u with Some _ => purged_players d | None => <[u := (handle, false)]> (purged_players d) end)).

Definition is_wiped (character : string) : Sql bool :=
  bind_text [character];; c ← cast_uuid character; gets (fun d => bool_decide (c ∈ wiped_characters d)).

Definition plant_wiped (character : string) : Sql unit :=
  bind_text [character];; c ← cast_uuid character;
  modify (fun d => mkInvDb (items d) (holdings d) ({[c]} ∪ wiped_characters d) (purged_players d)).

(** ** The service *)

Record IEnv := mkIEnv {
  world : World InvDb;
  ownership : nat → string → result Error (option string);
  dev_grant : bool;
  configured_starter : nat → string * Z;
}.

Section Service.
Variable env : IEnv.
Abbreviation M := (ST (Task InvDb)).

Definition internal (_ : SqlError) : Error := internal_error.
Definition read {A} (m : Sql A) : M Error A := reading (world env) internal_error internal m.
Definition commit {A} (f : SqlError → Error) (m : Sql A) : M Error A := committing (world env) internal_error (fun _ => st_map_err f m).

Definition identity_of (ident : Identity) : result Error string := ok_or (OpsApi.player_id ident) (mkError Invalid "missing player identity").

Definition list_mine (ident : Identity) : M Error (list Holding) :=
  me ← lift (identity_of ident);
  read (list_rows (owner_player me)).

Definition list_character (ident : Identity) (character : string) : M Error (list Holding) :=
  me ← lift (identity_of ident);
  owner ← away (world env) (fun t => map_err (fun _ => mkError Unavailable "characters service unavailable") (ownership env t character));
  match owner with
  | None => fail (mkError NotFound "not found")
  | Some pid => if bool_decide (pid ≠ me) then fail (mkError Forbidden "forbidden") else read (list_rows (owner_character character))
  end.

(** A grant that would exceed the ceiling of a holding is a conflict. *)
Definition grant_error (e : SqlError) : Error :=
  if is_holdings_cap_violation e then mkError Conflict "holding cap reached for this item" else internal_error.

Definition grant (ident : Identity) (item : string) (qty : Z) : M Error (list Holding) :=
  if negb (dev_grant env) then fail (mkError NotFound "grant is not enabled") else
  me ← lift (identity_of ident);
  qty ← lift (ok_or (validate_quantity qty) (mkError Invalid "qty must be between 1 and 1000000"));
  known ← read (item_exists_exec item);
  if negb known then fail (mkError Invalid "unknown item") else
  gone ← read (is_player_purged me);
  if (gone : bool) then fail (mkError Conflict PLAYER_DELETED) else
  commit grant_error (grant_exec (owner_player me) item qty);;
  read (list_rows (owner_player me)).

(** ** Durable handlers ([projection.rs]) *)

Definition character_lock_key (character : string) : Z := lock_key "inventory.character/" character.

Definition lock_character (character : string) : M Error unit := locking (world env) internal_error (character_lock_key character).

(** The starter as it is configured when the handler reads it. *)
Definition starter_spec : M Error (string * Z) := gets (fun s => configured_starter env (tick s)).

Definition grant_starter (character : string) : M Error unit := in_tx (
  lock_character character;;
  tombstoned ← read (is_wiped character);
  if (tombstoned : bool) then mret () else
  spec ← starter_spec;
  let qty := default STARTER_QTY (validate_quantity (snd spec)) in
  known ← read (item_exists_exec (fst spec));
  let item := if (known : bool) then fst spec else STARTER_ITEM in
  commit internal (grant_exec (owner_character character) item qty)).

Definition wipe_writes (character : string) : Sql unit :=
  plant_wiped character;;
  clear_owner_exec (owner_character character);;
  mret ().

Definition wipe_character (character : string) : M Error unit := in_tx (
  lock_character character;;
  commit internal (wipe_writes character)).

Definition plant_purged_player (player handle : string) : M Error unit := commit internal (plant_purged_player_tx player handle).
End Service.

(** ** The purge sweep *)

Definition PURGE_SCHEDULE_NAME : string := "player-purge".
Definition PURGE_BATCH : nat := 256.

Definition purge_player (player handle : string) : Sql unit :=
  clear_owner_exec (owner_player player);;
  u ← cast_uuid player;
  modify (fun d => mkInvDb (items d) (holdings d) (wiped_characters d) (marked u (purged_players d))).

#[global] Instance inventory_sweep : Sweep InvDb := {| tombs := purged_players; purge_one := purge_player |}.

Definition sweep_purged_players (elapsed : nat → bool) (d : InvDb) : option (InvDb * result SqlError unit) := purge_sweep elapsed PURGE_BATCH d.

Definition purge_handler (elapsed : nat → bool) (nm : string) (d : InvDb) : option (InvDb * result SqlError unit) :=
  if bool_decide (nm ≠ PURGE_SCHEDULE_NAME) then Some (d, Ok ()) else sweep_purged_players elapsed d.
End Store.
