(* ===== verification/InventoryContract.v ===== *)
(** * InventoryContract: the inventory operations refine their causes

    How the holdings can change and the invariant every change keeps: quantities stay
    within the ceiling, every holding is of a known item, and a wiped character holds
    nothing.  Every operation and handler, among the transactions of others, changes the
    tables only as it may; the outcome of a starter grant; and the purge. *)

From Stdlib Require Import Ascii.
From stdpp Require Import sorting.
From S2P Require Import Prelude Text OpsApi Pg Purge Directory Txn Inventory.
#[local] Open Scope Z_scope.

Section Causes.
Context `{PgUuid}.

Inductive Cause :=
| CGrant (u item : string) (qty : Z)
| CStarter (c item : string) (qty : Z)
| CWipe (c : string)
| CPlant (u handle : string)
| CPurge (u : string).

(** The holdings after a grant to an owner, where it is within policy and ceiling. *)
Definition granted (ot u item : string) (qty : Z) (d : InvDb) : option InvDb :=
  let sum := default 0 (holdings d !! (ot, u, item)) + qty in
  check (canonical u ∧ is_Some (items d !! item) ∧ 0 < qty ≤ MAX_HOLDING_QTY ∧ sum ≤ STATE_CEILING);;
  Some (set_holdings (insert (ot, u, item) sum) d).

Definition without (ot u : string) (d : InvDb) : InvDb := set_holdings (filter (fun r => is_owner ot u (fst r) = false)) d.

Definition wiped (c : string) (d : InvDb) : InvDb :=
  mkInvDb (items d) (holdings (without "character" c d)) ({[c]} ∪ wiped_characters d) (purged_players d).

Definition purged_holdings (u handle : string) (d : InvDb) : InvDb :=
  mkInvDb (items d) (holdings (without "player" u d)) (wiped_characters d) (marked u (purged_players d)).

Definition inventory_does (c : Cause) (d : InvDb) : option InvDb :=
  match c with
  | CGrant u item qty => granted "player" u item qty d
  | CStarter c item qty => check (c ∉ wiped_characters d);; granted "character" c item qty d
  | CWipe c => check (canonical c);; Some (wiped c d)
  | CPlant u handle =>
      check (canonical u ∧ purged_players d !! u = None);;
      Some (mkInvDb (items d) (holdings d) (wiped_characters d) (<[u := (handle, false)]> (purged_players d)))
  | CPurge u => check (is_Some (purged_players d !! u));; Some (purged_holdings u "" d)
  end.

(** A holding is of a known item, between one and the ceiling, and of no wiped character. *)
Definition holding_ok (d : InvDb) (k : HoldingKey) (q : Z) : Prop :=
  let '(t, o, i) := k in
  canonical o ∧ is_Some (items d !! i) ∧ 0 < q ≤ STATE_CEILING ∧ (t = "player" ∨ (t = "character" ∧ o ∉ wiped_characters d)).

Record inventory_inv (d : InvDb) : Prop := {
  vi_starter : is_Some (items d !! STARTER_ITEM);
  vi_rows : map_Forall (holding_ok d) (holdings d);
  vi_tombs : map_Forall (fun u _ => canonical u) (purged_players d);
}.

Lemma is_owner_true ot u t o i : is_owner ot u (t, o, i) = true ↔ t = ot ∧ o = u.
Proof. unfold is_owner. by rewrite andb_true_iff, !bool_decide_eq_true. Qed.

Lemma without_lookup ot u d k q : holdings (without ot u d) !! k = Some q ↔ holdings d !! k = Some q ∧ is_owner ot u k = false.
Proof. simpl. rewrite map_lookup_filter_Some. done. Qed.

Lemma granted_ok ot u item qty d d' :
  inventory_inv d → (ot = "player" ∨ (ot = "character" ∧ u ∉ wiped_characters d)) → granted ot u item qty d = Some d' → inventory_inv d'.
Proof.
  intros Hd Ho. unfold granted. rewrite check_some. intros [(Hu & Hi & Hq & Hs) [= <-]]. constructor; simpl; [apply Hd| |apply Hd].
  apply map_Forall_insert_2; [|apply Hd]. split_and!; [done|done|..|done|done].
  destruct (holdings d !! (ot, u, item)) as [q|] eqn:Eq; simpl; [|lia]. apply (vi_rows d Hd) in Eq as (_ & _ & ? & _). lia.
Qed.

Lemma inventory_inv_does c d d' : inventory_inv d → inventory_does c d = Some d' → inventory_inv d'.
Proof.
  intros Hd E. destruct c as [u item qty|c item qty|c|u handle|u]; simpl in E.
  - eapply granted_ok; [done|by left|exact E].
  - rewrite check_some in E. destruct E as [Hc E]. eapply granted_ok; [done|by right|exact E].
  - rewrite check_some in E. destruct E as [_ [= <-]]. constructor; [apply Hd| |apply Hd].
    intros [[t o] i] q [Hq Hn]%without_lookup. destruct (vi_rows d Hd _ _ Hq) as (H1 & H2 & H3 & H4). split_and!; [done|done|apply H3|apply H3|].
    destruct H4 as [->|[-> Ho]]; [by left|right]. split; [done|]. intros [->%elem_of_singleton|?]%elem_of_union; [|done].
    by rewrite (proj2 (is_owner_true _ _ _ _ _)) in Hn.
  - rewrite check_some in E. destruct E as [[Hu _] [= <-]]. constructor; [apply Hd|apply Hd|]. apply map_Forall_insert_2; [done|apply Hd].
  - rewrite check_some in E. destruct E as [_ [= <-]]. constructor; [apply Hd| |].
    + intros k q [Hq _]%without_lookup. apply (vi_rows d Hd _ _ Hq).
    + intros k t Hk. simpl in Hk. unfold marked in Hk. apply lookup_alter_Some in Hk as [(-> & x & Hx & _)|[_ Hx]]; by apply (vi_tombs d Hd) in Hx.
Qed.

#[global] Instance inventory_causes : Causes InvDb Cause := {
  does := inventory_does;
  locks_of := fun c => match c with CStarter c _ _ | CWipe c => [character_lock_key c] | _ => [] end;
  sound := inventory_inv;
  sound_does := inventory_inv_does;
}.

(** ** Statements *)

Lemma grant_does owner item qty d d' x :
  grant_exec owner item qty d = (d', Ok x) → ∃ u, uuid_in (oid owner) = Some u ∧ granted (otype owner) u item qty d = Some d'.
Proof.
  unfold grant_exec, validate_quantity. destruct (_ && _) eqn:Eq; [|done]. apply andb_true_iff in Eq as [Hq1%Z.ltb_lt Hq2%Z.leb_le].
  intros E. pg_inv E. destruct (_ && _) eqn:Es; [|done]. apply andb_true_iff in Es as [_ Hs%Z.leb_le]. cbn [negb] in E.
  case_bool_decide as Hi; [|done]. injection E as <-. eexists. split; [done|]. unfold granted. rewrite check_run; [done|].
  split_and!; [by eapply uuid_in_canonical|done|lia|lia|exact Hs].
Qed.

Lemma clear_run owner u d :
  has_nul (otype owner) = false → has_nul (oid owner) = false → uuid_in (oid owner) = Some u →
  ∃ n, clear_owner_exec owner d = (without (otype owner) u d, Ok n).
Proof.
  intros Ht Ho Hu. unfold clear_owner_exec. rewrite (st_bind_run _ _ d d ()) by (unfold bind_text; simpl; by rewrite Ht, Ho).
  rewrite (st_bind_run _ _ d d u) by (unfold cast_uuid, lift, ok_or; by rewrite Hu). by eexists.
Qed.

Lemma wipe_does character d d' x :
  wipe_writes character d = (d', Ok x) → ∃ c, uuid_in character = Some c ∧ does (CWipe c) d = Some d'.
Proof.
  unfold wipe_writes, plant_wiped. intros E. apply st_bind_ok in E as (d1 & [] & E1 & E). pg_inv E1. injection E1 as <-.
  match goal with Hu : uuid_in character = Some ?c |- _ => exists c; rename Hu into Hc end. split; [done|].
  apply st_bind_ok in E as (d2 & n & E2 & E). injection E as <- _. unfold clear_owner_exec in E2. pg_inv E2. injection E2 as <- _.
  simpl in *. rewrite check_run by (by eapply uuid_in_canonical). simplify_eq. done.
Qed.

Lemma plant_holder_does player handle d d' x :
  plant_purged_player_tx player handle d = (d', Ok x) → d' = d ∨ ∃ u, uuid_in player = Some u ∧ does (CPlant u handle) d = Some d'.
Proof.
  intros E. unfold plant_purged_player_tx in E. pg_inv E. injection E as <-.
  match goal with Hu : uuid_in player = Some ?u |- _ => destruct (purged_players d !! u) eqn:Et; [left; by destruct d|right; exists u] end.
  split; [done|]. simpl. rewrite check_run; [done|]. split; [by eapply uuid_in_canonical|done].
Qed.

(** ** Refinement *)

Section Refine.
Variable item_le : string → string → bool.
Variable env : IEnv.
Variable Q : Cause → Prop.
Hypothesis meanwhile_others : ∀ t L d, rtc (others Q L) d (meanwhile (world env) t L d).

(** Under a character's lock nobody else wipes it. *)
Lemma stable_not_wiped c : stable Q [character_lock_key c] (fun d => c ∉ wiped_characters d).
Proof.
  intros d d' Hd Hn (x & _ & E & Hl). destruct x as [u item qty|v item qty|v|u handle|u]; simpl in E; unfold granted in E; rewrite ?check_some in E.
  - by destruct E as [_ [= <-]].
  - by destruct E as [_ [_ [= <-]]].
  - destruct E as [_ [= <-]]. simpl. intros [->%elem_of_singleton|?]%elem_of_union; [|done]. apply (Forall_inv Hl). by apply list_elem_of_singleton.
  - by destruct E as [_ [= <-]].
  - by destruct E as [_ [= <-]].
Qed.

Inductive InvOp :=
| OListMine | OListCharacter (c : string) | OGrant (item : string) (qty : Z)
| OCreated (c : string) | ODeleted (c : string) | OPlayerDeleted (player handle : string).

Definition inventory_run (who : Identity) (op : InvOp) (s : Task InvDb) : Task InvDb :=
  match op with
  | OListMine => fst (list_mine item_le env who s)
  | OListCharacter c => fst (list_character item_le env who c s)
  | OGrant item qty => fst (grant item_le env who item qty s)
  | OCreated c => fst (grant_starter env c s)
  | ODeleted c => fst (wipe_character env c s)
  | OPlayerDeleted p h => fst (plant_purged_player env p h s)
  end.

Definition caller_is (who : Identity) (u : string) : Prop := ∃ me, OpsApi.player_id who = Some me ∧ uuid_in me = Some u.

(** The starter the handler may choose: the configured one, or the default where the
    configured value will not do. *)
Definition starter_choice (item : string) (qty : Z) : Prop :=
  ∃ t, (item = fst (configured_starter env t) ∨ item = STARTER_ITEM)
    ∧ qty = default STARTER_QTY (validate_quantity (snd (configured_starter env t))).

Definition inventory_commands (who : Identity) (op : InvOp) (x : Cause) : Prop :=
  match op with
  | OListMine | OListCharacter _ => False
  | OGrant item qty => dev_grant env = true ∧ ∃ u, x = CGrant u item qty ∧ caller_is who u
  | OCreated c => ∃ c' item qty, x = CStarter c' item qty ∧ uuid_in c = Some c' ∧ starter_choice item qty
  | ODeleted c => ∃ c', x = CWipe c' ∧ uuid_in c = Some c'
  | OPlayerDeleted p h => ∃ u, x = CPlant u h ∧ uuid_in p = Some u
  end.

Lemma player_of who me : identity_of who = Ok me → OpsApi.player_id who = Some me.
Proof. unfold identity_of. destruct (OpsApi.player_id who); [by intros [= <-]|done]. Qed.

Lemma quantity_ok qty q (e : Error) : ok_or (validate_quantity qty) e = Ok q → q = qty.
Proof. unfold validate_quantity. destruct (_ && _); by intros [= <-]. Qed.

Lemma tri_grant who item qty : tri Q (inventory_commands who (OGrant item qty)) (fun _ => True) (grant item_le env who item qty) (fun _ _ => True).
Proof.
  unfold grant. destruct (dev_grant env) eqn:Ed; [|apply tri_fail]. cbn [negb]. apply tri_lift_bind. intros me Hme%player_of.
  apply tri_lift_bind. intros q ->%quantity_ok. apply tri_seq; [by apply tri_reading_free|]. intros []; [|apply tri_fail]. cbn [negb].
  apply tri_seq; [by apply tri_reading_free|]. intros []; [apply tri_fail|].
  apply tri_seq; [|intros _; by apply tri_reading_free]. apply tri_commit_free; [done|].
  intros t d d' x _ (u & Hu & E)%st_map_err_ok%grant_does. right. exists (CGrant u item qty). split; [|exact E].
  split; [done|]. exists u. split; [done|]. by exists me.
Qed.

Lemma is_wiped_ok c d b : snd (is_wiped c d) = Ok b → ∃ c', uuid_in c = Some c' ∧ b = bool_decide (c' ∈ wiped_characters d).
Proof. destruct (is_wiped c d) as [d' [x|e]] eqn:E; [|done]. simpl. intros [= <-]. unfold is_wiped in E. pg_inv E. injection E as <- <-. eauto. Qed.

Lemma tri_spec_bind {B} P Φ (k : string * Z → ST (Task InvDb) Error B) Ω :
  (∀ t, tri Q P Φ (k (configured_starter env t)) Ω) → tri Q P Φ (starter_spec env ≫= k) Ω.
Proof. intros Hk s s' r Hd Hs. unfold mbind, ST_bind, starter_spec, gets. by apply Hk. Qed.

Lemma tri_starter who c : tri Q (inventory_commands who (OCreated c)) (fun _ => True) (grant_starter env c) (fun _ _ => True).
Proof.
  unfold grant_starter. apply tri_in_tx. eapply tri_bind; [by apply tri_locking_free|]. intros [].
  apply tri_read_bind; [done|apply stable_true|]. intros b d Hd _ (c' & Hc & ->)%is_wiped_ok.
  case_bool_decide as Hw; [exists (fun _ => True); split; [done|]; by apply tri_ret|]. exists (fun d => c' ∉ wiped_characters d). split; [done|].
  assert (Hk : character_lock_key c = character_lock_key c') by (eapply lock_key_uuid; [exact Hc|by eapply uuid_in_canonical]). rewrite Hk.
  apply tri_spec_bind. intros t0. cbv zeta. apply tri_read_bind; [done|apply stable_not_wiped|]. intros known d1 _ Hn _.
  exists (fun d => c' ∉ wiped_characters d). split; [done|]. apply tri_commit; [done|apply stable_not_wiped|].
  intros t d2 d3 x _ Hn2 (u & Hu & E)%st_map_err_ok%grant_does. right. simpl in Hu. assert (u = c') as -> by congruence.
  exists (CStarter c' (if known : bool then fst (configured_starter env t0) else STARTER_ITEM) (default STARTER_QTY (validate_quantity (snd (configured_starter env t0))))). split.
  - eexists _, _, _. split; [done|]. split; [done|]. exists t0. split; [|reflexivity]. destruct known; [by left|by right].
  - simpl. rewrite check_run by done. exact E.
Qed.

(** Every operation and handler of the inventory, whatever others commit between its
    statements and whichever fails or loses its answer, changes the holdings only as it
    may: a player is granted items of their own, if grants are enabled at all; the
    creation of a character gives it the starter, never after the character was wiped; its
    deletion wipes it; a listing changes nothing. *)
Theorem inventory_ops_entitled who op s :
  inventory_inv (db s) → rtc (own Q (inventory_commands who op)) (db s) (db (inventory_run who op s)).
Proof.
  intros Hd. destruct op as [|c|item qty|c|c|p h]; simpl inventory_run; apply tri_run; try done.
  - unfold list_mine. apply tri_lift_bind. intros me _. by apply tri_reading_free.
  - unfold list_character. apply tri_lift_bind. intros me _. apply tri_seq; [by apply tri_away_free|].
    intros [pid|]; [|apply tri_fail]. case_bool_decide; [apply tri_fail|]. by apply tri_reading_free.
  - apply tri_grant.
  - apply (tri_starter who).
  - unfold wipe_character. apply tri_in_tx. eapply tri_bind; [by apply tri_locking_free|]. intros []. apply tri_commit; [done|apply stable_true|].
    intros t d d' x _ _ (c' & Hc & E)%st_map_err_ok%wipe_does. right. exists (CWipe c'). split; [by exists c'|exact E].
  - unfold plant_purged_player. apply tri_commit_free; [done|]. intros t d d' x _ [->|(u & Hu & E)]%st_map_err_ok%plant_holder_does; [by left|right].
    exists (CPlant u h). split; [by exists u|exact E].
Qed.
End Refine.

(** ** Outcomes of the handlers *)

Section Quiet.
Variable env : IEnv.
Hypothesis quiet : ∀ t L d, meanwhile (world env) t L d = d.
Hypothesis answers : ∀ t, fate (world env) t = Answers.

Lemma holdings_read {A} (m : ST InvDb SqlError A) s a :
  snd (m (db s)) = Ok a → read env m s = (mkTask (db s) (S (tick s)) (locks s), Ok a).
Proof. intros E. unfold read, reading, seen. by rewrite quiet, answers, E. Qed.

Lemma holdings_commit {A} f (m : ST InvDb SqlError A) s d' a :
  m (db s) = (d', Ok a) → commit env f m s = (mkTask d' (S (tick s)) (locks s), Ok a).
Proof. intros E. unfold commit, committing, seen, st_map_err. by rewrite quiet, answers, E. Qed.

Lemma character_locked c s : lock_character env c s = (mkTask (db s) (S (tick s)) (character_lock_key c :: locks s), Ok ()).
Proof. unfold lock_character, locking, seen. by rewrite quiet, answers. Qed.

Lemma is_wiped_run c d : canonical c → snd (is_wiped c d) = Ok (bool_decide (c ∈ wiped_characters d)).
Proof.
  intros Hc. unfold is_wiped. rewrite (st_bind_run _ _ d d ()) by (unfold bind_text; simpl; by rewrite (uuid_in_no_nul _ _ Hc)).
  by rewrite (st_bind_run _ _ d d c) by (unfold cast_uuid, lift, ok_or; by rewrite Hc).
Qed.

(** The starter the configuration asks for, or the default for what it gets wrong. *)
Definition starter_of (spec : string * Z) (d : InvDb) : string * Z :=
  (if bool_decide (is_Some (items d !! fst spec)) then fst spec else STARTER_ITEM, default STARTER_QTY (validate_quantity (snd spec))).

Lemma starter_of_ok spec d :
  inventory_inv d → has_nul (fst spec) = false →
  let '(item, qty) := starter_of spec d in is_Some (items d !! item) ∧ has_nul item = false ∧ validate_quantity qty = Some qty ∧ 0 < qty ≤ MAX_HOLDING_QTY.
Proof.
  intros Hd Hn. unfold starter_of, validate_quantity. split_and!.
  - case_bool_decide; [done|]. apply Hd.
  - by case_bool_decide.
  - destruct ((0 <? snd spec) && _) eqn:E; cbn [from_option id]; [by rewrite E|done].
  - destruct ((0 <? snd spec) && _) eqn:E; cbn [from_option id]; [|done]. by apply andb_true_iff in E as [?%Z.ltb_lt _].
  - destruct ((0 <? snd spec) && _) eqn:E; cbn [from_option id]; [|done]. by apply andb_true_iff in E as [_ ?%Z.leb_le].
Qed.

Lemma starter_grant_run c item qty d :
  canonical c → is_Some (items d !! item) → has_nul item = false → validate_quantity qty = Some qty → 0 < qty ≤ MAX_HOLDING_QTY →
  holdings d !! ("character", c, item) = None →
  grant_exec (owner_character c) item qty d = (set_holdings (insert ("character", c, item) qty) d, Ok ()).
Proof.
  intros Hc Hi Hn Hv Hq Hh. unfold grant_exec. rewrite Hv.
  rewrite (st_bind_run _ _ d d ()) by (unfold bind_text; simpl; by rewrite (uuid_in_no_nul _ _ Hc), Hn).
  rewrite (st_bind_run _ _ d d c) by (unfold cast_uuid, lift, ok_or; simpl; by rewrite Hc). rewrite (st_bind_run _ _ d d d) by done.
  cbn [otype owner_character]. rewrite Hh. cbv zeta. cbn [default]. rewrite Z.add_0_l. unfold MAX_HOLDING_QTY, STATE_CEILING in *.
  rewrite (proj2 (Z.leb_le 0 qty)), (proj2 (Z.leb_le qty 2000000)) by lia. cbn [andb negb]. by rewrite bool_decide_eq_true_2.
Qed.

(** The creation of a character is handled without an error whatever item and
    quantity are configured, so that no mistake in the configuration stops the
    subscription: a character already wiped is left with nothing, any other is given
    exactly the starter, with the default in the place of an unknown item or of a
    quantity out of range. *)
Theorem starter_decided c s :
  inventory_inv (db s) → canonical c → has_nul (fst (configured_starter env (S (S (tick s))))) = false →
  (∀ item, holdings (db s) !! ("character", c, item) = None) →
  ∃ s', grant_starter env c s = (s', Ok ()) ∧ locks s' = [] ∧
    db s' = if bool_decide (c ∈ wiped_characters (db s)) then db s
            else let '(item, qty) := starter_of (configured_starter env (S (S (tick s)))) (db s) in
                 set_holdings (insert ("character", c, item) qty) (db s).
Proof.
  intros Hd Hc Hn Hh. unfold grant_starter, in_tx. rewrite (st_bind_run _ _ _ _ _ (character_locked c s)).
  erewrite st_bind_run by (apply holdings_read, is_wiped_run; exact Hc). cbn [db tick locks].
  case_bool_decide as Hw; [by eexists|]. erewrite st_bind_run by reflexivity. cbn [tick].
  pose proof (starter_of_ok _ _ Hd Hn) as Hs. unfold starter_of in *. set (spec := configured_starter env (S (S (tick s)))) in *. cbv zeta.
  erewrite st_bind_run; [|apply (holdings_read (item_exists_exec (fst spec)) (mkTask (db s) (S (S (tick s))) _) (bool_decide (is_Some (items (db s) !! fst spec))))].
  2:{ unfold item_exists_exec. by rewrite (st_bind_run _ _ (db s) (db s) ()) by (unfold bind_text; simpl; by rewrite Hn). }
  destruct Hs as (Hi & Hni & Hv & Hq1 & Hq2). erewrite holdings_commit; [|apply starter_grant_run; auto].
  by eexists.
Qed.

Lemma wipe_run c s : canonical c → ∃ s', wipe_character env c s = (s', Ok ()) ∧ locks s' = [] ∧ db s' = wiped c (db s).
Proof.
  intros Hc. unfold wipe_character, in_tx. rewrite (st_bind_run _ _ _ _ _ (character_locked c s)).
  erewrite holdings_commit; [by eexists|]. unfold wipe_writes, plant_wiped. cbn [db].
  pose proof (uuid_in_no_nul _ _ Hc) as Hn. erewrite st_bind_run.
  2:{ erewrite st_bind_run by (unfold bind_text; simpl; by rewrite Hn). erewrite st_bind_run by (unfold cast_uuid, lift, ok_or; by rewrite Hc). reflexivity. }
  edestruct (clear_run (owner_character c) c) as [n En]; [done|exact Hn|exact Hc|]. erewrite st_bind_run by exact En. done.
Qed.
End Quiet.

(** ** The purge *)

#[global, program] Instance inventory_sweep_laws : SweepLaws InvDb := {| purged_of := purged_holdings |}.
Next Obligation.
  intros u h d Hu. simpl. unfold purge_player. destruct (clear_run (owner_player u) u d) as [n En]; [done|by eapply uuid_in_no_nul|done|].
  rewrite (st_bind_run _ _ _ _ _ En). by erewrite st_bind_run by (unfold cast_uuid, lift, ok_or; rewrite Hu; reflexivity).
Qed.
Next Obligation. done. Qed.

(** The player a holding belongs to. *)
Definition holder (k : HoldingKey) (q : Z) : option string := let '(t, o, _) := k in if bool_decide (t = "player") then Some o else None.

(** A fire of the purge ends without an error, takes only holdings of deleted players
    whose purge was due (their characters' are wiped by the characters' events), and stamps
    only players it has left without any. *)
Theorem inventory_purge_correct elapsed d :
  inventory_inv d →
  ∃ d', purge_handler elapsed PURGE_SCHEDULE_NAME d = Some (d', Ok ()) ∧ swept_clean holdings holder elapsed d d'.
Proof.
  intros Hd. unfold purge_handler, sweep_purged_players. rewrite bool_decide_eq_false_2 by by intros [].
  destruct (purge_sweep_rows holdings holder) with (elapsed := elapsed) (batch := PURGE_BATCH) (s := d) as (l & E & _ & Hclean).
  - intros u h x [[t o] i] q. simpl. rewrite map_lookup_filter_Some. simpl. unfold holder. repeat case_bool_decide; simpl; naive_solver.
  - unfold PURGE_BATCH. lia.
  - intros u t Hu. by eapply (vi_tombs d Hd).
  - exists (purge_all d l). by split.
Qed.
End Causes.

(** A character is wiped while its starter is on the way. *)
Module InventoryExample.
#[local] Existing Instance plain_uuid.

Definition ada : string := "33333333-0000-0000-0000-000000000001".

Definition env_of (w : World InvDb) : IEnv := mkIEnv w (fun _ _ => Ok None) false (fun _ => ("no_such_item", 5)).

Lemma inventory_inv_empty : inventory_inv empty_inventory.
Proof. constructor; [vm_compute; by eexists|apply map_Forall_empty|apply map_Forall_empty]. Qed.

(** The wipe takes the character's lock, so it happens before the handler or after. *)
Definition wipes (t : nat) (L : list Z) (d : InvDb) : InvDb :=
  if Nat.eqb t 0 && bool_decide (character_lock_key ada ∉ L) then default d (does (CWipe ada) d) else d.

Lemma wipes_others t L d : rtc (others (eq (CWipe ada)) L) d (wipes t L d).
Proof.
  unfold wipes. destruct (Nat.eqb t 0); [|done]. case_bool_decide as HL; [|done]. cbn [andb]. destruct (does (CWipe ada) d) as [d'|] eqn:E; [|done].
  apply rtc_once. exists (CWipe ada). split_and!; [done|done|by apply Forall_singleton].
Qed.

Lemma inventory_ops_entitled_witness :
  let env := env_of (mkWorld wipes (fun _ => Answers) (fun _ => 9)) in
  let s := mkTask empty_inventory 0 [] in
  let s' := inventory_run (fun _ _ => true) env None (OCreated ada) s in
  rtc (own (eq (CWipe ada)) (inventory_commands env None (OCreated ada))) (db s) (db s') ∧ map_to_list (holdings (db s')) = [].
Proof.
  split; [|vm_compute; reflexivity].
  apply (inventory_ops_entitled (fun _ _ => true) (env_of (mkWorld wipes (fun _ => Answers) (fun _ => 9))) _ wipes_others None (OCreated ada) (mkTask empty_inventory 0 [])).
  exact inventory_inv_empty.
Defined.

Definition quiet_env : IEnv := env_of (mkWorld (fun _ _ d => d) (fun _ => Answers) (fun _ => 9)).

Lemma ada_canonical : canonical ada.
Proof. vm_compute. reflexivity. Qed.

Lemma starter_decided_witness :
  ∃ s', grant_starter quiet_env ada (mkTask empty_inventory 0 []) = (s', Ok ()) ∧ db s' = set_holdings (insert ("character", ada, "starter_sword") 5) empty_inventory.
Proof.
  destruct (starter_decided quiet_env (fun _ _ _ => eq_refl) (fun _ => eq_refl) ada (mkTask empty_inventory 0 []) inventory_inv_empty ada_canonical eq_refl (fun _ => eq_refl))
    as (s' & E & _ & Ed).
  exists s'. split; [exact E|exact Ed].
Defined.
End InventoryExample.
