(* ===== verification/CharacterHoldings.v ===== *)
(** * CharacterHoldings: the inventory follows the characters

    [modules/characters] and [modules/inventory] know each other only by events:
    [character.created] gives a character its starter and [character.deleted] wipes it,
    by two subscriptions with no order between them.  Here the events that any history of
    [Characters] appended are delivered to the handlers of [Inventory] in any order, each
    once, which is what [PlaneSafety] promises of a subscription: at the end exactly the
    characters that still exist hold their starter. *)

From S2P Require Import Prelude Text Pg Purge Txn.
From S2P Require Characters CharactersContract Inventory InventoryContract.
Import Characters(CharEvent, Created, Deleted, events, empty_chars).
Import CharactersContract(replay_chars, apply_char, chars_step, chars_does, chars_inv, deleted_event).
Import Inventory(InvDb, holdings, wiped_characters, IEnv, configured_starter, grant_starter, wipe_character).
Import InventoryContract(inventory_inv, starter_of).
#[local] Open Scope Z_scope.

Section Follow.
Context `{PgUuid}.

(** ** The events of a history of characters *)

(** A character is created while it is not there and deleted while it is. *)
Inductive ordered : list CharEvent → Prop :=
| ordered_nil : ordered []
| ordered_created l i u n c : ordered l → replay_chars l !! i = None → ordered (l ++ [Created i u n c])
| ordered_deleted l i u : ordered l → is_Some (replay_chars l !! i) → ordered (l ++ [Deleted i u]).

Definition created_id (e : CharEvent) : option string := match e with Created i _ _ _ => Some i | Deleted _ _ => None end.
Definition deleted_id (e : CharEvent) : option string := match e with Created _ _ _ _ => None | Deleted i _ => Some i end.

Lemma ordered_purge l L :
  ordered l → NoDup L.*1 → (∀ r, r ∈ L → is_Some (replay_chars l !! fst r)) → ordered (l ++ (deleted_event <$> L)).
Proof.
  intros Hl. induction L as [|r L IH] using rev_ind; intros Hnd Hin; [by rewrite app_nil_r|].
  rewrite fmap_app in Hnd. apply NoDup_app in Hnd as (Hnd & Hnot & _). rewrite fmap_app, app_assoc. simpl. apply ordered_deleted.
  - apply IH; [done|]. intros x Hx. apply Hin, elem_of_app. by left.
  - unfold replay_chars. rewrite foldl_app, CharactersContract.replay_deleted. rewrite decide_False.
    + apply Hin, elem_of_app. right. by apply list_elem_of_singleton.
    + intros Hx. by apply (Hnot _ Hx), list_elem_of_singleton.
Qed.

Lemma history_ordered d : rtc chars_step empty_chars d → chars_inv d ∧ ordered (events d).
Proof.
  intros Hr. pattern d. revert d Hr. apply rtc_ind_r; [split; [apply CharactersContract.chars_inv_empty|constructor]|]. intros d d' _ [c Hc] [Hd Ho].
  split; [by eapply CharactersContract.chars_inv_does|]. pose proof (CharactersContract.ci_log d Hd) as Hlog.
  destruct c as [id u nm cls now cap|id u|u handle|u]; simpl in Hc; rewrite check_some in Hc; destruct Hc as [Hc [= <-]]; simpl.
  - apply ordered_created; [done|]. rewrite Hlog, lookup_fmap. by rewrite (proj1 Hc).
  - apply ordered_deleted; [done|]. rewrite Hlog, lookup_fmap. unfold CharactersContract.has_owner in Hc.
    destruct (Characters.characters d !! id); [by eexists|done].
  - done.
  - apply ordered_purge; [done|apply CharactersContract.owned_nodup|]. intros [i r] [Hr _]%CharactersContract.owned_elem. rewrite Hlog, lookup_fmap. simpl.
    rewrite Hr. by eexists.
Qed.

Lemma ordered_ids l i : ordered l → (is_Some (replay_chars l !! i) ∨ i ∈ omap deleted_id l) → i ∈ omap created_id l.
Proof.
  induction 1 as [|l j u n c _ IH Hj|l j u _ IH Hj]; [intros [[? Hx]|Hx]; [discriminate Hx|by apply elem_of_nil in Hx]|..];
    rewrite CharactersContract.replay_snoc, !omap_app; simpl; rewrite !elem_of_app, ?app_nil_r.
  - destruct (decide (i = j)) as [->|Hne]; [right; by apply list_elem_of_singleton|]. rewrite lookup_insert_ne by done. set_solver.
  - destruct (decide (i = j)) as [->|Hne]; [left; apply IH; by left|]. rewrite lookup_delete_ne by done. intros Hi. left. apply IH. set_solver.
Qed.

(** With ids that never recur, a character created is there unless it was deleted. *)
Lemma ordered_fate l i :
  ordered l → NoDup (omap created_id l) → i ∈ omap created_id l → (replay_chars l !! i = None ↔ i ∈ omap deleted_id l).
Proof.
  induction 1 as [|l j u n c Ho IH Hj|l j u Ho IH Hj]; [intros _ Hx; by apply elem_of_nil in Hx|..];
    rewrite CharactersContract.replay_snoc, !omap_app; simpl; rewrite ?app_nil_r.
  - intros (Hnd & Hnot & _)%NoDup_app Hi. destruct (decide (i = j)) as [->|Hne].
    + rewrite lookup_insert_eq. split; [done|]. intros Hx. exfalso. eapply Hnot; [eapply ordered_ids; eauto|by apply list_elem_of_singleton].
    + rewrite lookup_insert_ne by done. apply IH; [done|]. set_solver.
  - intros Hnd Hi. destruct (decide (i = j)) as [->|Hne].
    + rewrite lookup_delete_eq. split; [|done]. intros _. apply elem_of_app. right. by apply list_elem_of_singleton.
    + rewrite lookup_delete_ne, (IH Hnd Hi) by done. set_solver.
Qed.

(** ** Delivery *)

Variable env : IEnv.
Hypothesis quiet : ∀ t L d, meanwhile (Inventory.world env) t L d = d.
Hypothesis answers : ∀ t, fate (Inventory.world env) t = Answers.
Hypothesis plain_config : ∀ t, has_nul (fst (configured_starter env t)) = false.

Definition handle (e : CharEvent) : ST (Task InvDb) OpsApi.Error unit :=
  match e with Created i _ _ _ => grant_starter env i | Deleted i _ => wipe_character env i end.

Definition deliver : list CharEvent → ST (Task InvDb) OpsApi.Error unit := st_each handle.

Definition holds_nothing (i : string) (d : InvDb) : Prop := ∀ item, holdings d !! ("character", i, item) = None.

(** Exactly the starter that was configured at some time, or its default. *)
Definition holds_starter (i : string) (d : InvDb) : Prop :=
  ∃ t, ∀ item q, holdings d !! ("character", i, item) = Some q ↔ (item, q) = starter_of (configured_starter env t) d.

(** The inventory after the events of [p]. *)
Record followed (p : list CharEvent) (d : InvDb) : Prop := {
  fo_inv : inventory_inv d;
  fo_wiped : ∀ i, i ∈ wiped_characters d ↔ i ∈ omap deleted_id p;
  fo_live : ∀ i, i ∈ omap created_id p → i ∉ omap deleted_id p → holds_starter i d;
  fo_none : ∀ i, i ∉ omap created_id p ∨ i ∈ omap deleted_id p → holds_nothing i d;
}.

Lemma holdings_same i d d' :
  Inventory.items d' = Inventory.items d → (∀ item, holdings d' !! ("character", i, item) = holdings d !! ("character", i, item)) →
  (holds_starter i d → holds_starter i d') ∧ (holds_nothing i d → holds_nothing i d').
Proof.
  intros Hi Hh. split; [|intros Hn item; by rewrite Hh]. intros [t Ht]. exists t. intros item q. rewrite Hh, Ht. unfold starter_of. by rewrite Hi.
Qed.

Lemma follow_deleted p d i u : followed p d → canonical i → followed (p ++ [Deleted i u]) (InventoryContract.wiped i d).
Proof.
  intros Hf Hi.
  assert (Ho : ∀ j, j ≠ i → ∀ item, holdings (InventoryContract.wiped i d) !! ("character", j, item) = holdings d !! ("character", j, item)).
  { intros j Hj item. apply option_eq. intros q. rewrite (InventoryContract.without_lookup "character" i d). split; [by intros []|]. intros Hq. split; [done|].
    apply Bool.not_true_iff_false. rewrite InventoryContract.is_owner_true. naive_solver. }
  assert (Hn : holds_nothing i (InventoryContract.wiped i d)).
  { intros item. apply eq_None_not_Some. intros [q [_ Hq]%(InventoryContract.without_lookup "character" i d)].
    by rewrite (proj2 (InventoryContract.is_owner_true _ _ _ _ _)) in Hq. }
  constructor.
  - apply (InventoryContract.inventory_inv_does (InventoryContract.CWipe i) d); [apply Hf|]. simpl. by rewrite check_run.
  - intros j. rewrite omap_app. simpl. rewrite elem_of_union, elem_of_singleton, (fo_wiped p d Hf), elem_of_app, list_elem_of_singleton. tauto.
  - intros j. rewrite !omap_app. simpl. rewrite app_nil_r, elem_of_app, list_elem_of_singleton. intros Hc Hd.
    apply (holdings_same j d); [done|apply Ho; tauto|]. apply (fo_live p d Hf); tauto.
  - intros j. rewrite !omap_app. simpl. rewrite app_nil_r, elem_of_app, list_elem_of_singleton. intros Hc.
    destruct (decide (j = i)) as [->|Hne]; [done|]. apply (holdings_same j d); [done|by apply Ho|]. apply (fo_none p d Hf). tauto.
Qed.

Lemma follow_created p d t i u n c :
  followed p d → canonical i → i ∉ omap created_id p →
  followed (p ++ [Created i u n c])
    (if bool_decide (i ∈ wiped_characters d) then d
     else let '(item, qty) := starter_of (configured_starter env t) d in Inventory.set_holdings (insert ("character", i, item) qty) d).
Proof.
  intros Hf Hi Hnew. pose proof (fo_wiped p d Hf) as Hw. case_bool_decide as Hwi.
  { constructor; [apply Hf|..]; intros j; rewrite !omap_app; simpl; rewrite ?app_nil_r, ?elem_of_app, ?list_elem_of_singleton; [apply Hw|..].
    - intros [Hj| ->] Hd; [by apply (fo_live p d Hf)|]. by apply Hw in Hwi.
    - intros Hj. apply (fo_none p d Hf). destruct (decide (j = i)) as [->|]; [right; by apply Hw|tauto]. }
  pose proof (InventoryContract.starter_of_ok (configured_starter env t) d (fo_inv p d Hf) (plain_config t)) as Hs.
  destruct (starter_of (configured_starter env t) d) as [item qty] eqn:Es. destruct Hs as (Hit & _ & _ & Hq).
  pose proof (fo_none p d Hf i (or_introl Hnew)) as Hno. set (d' := Inventory.set_holdings _ d).
  assert (Ho : ∀ j, j ≠ i → ∀ x, holdings d' !! ("character", j, x) = holdings d !! ("character", j, x)) by (intros; simpl; by rewrite lookup_insert_ne by naive_solver).
  constructor; [|intros j; rewrite !omap_app; simpl; rewrite ?app_nil_r, ?elem_of_app, ?list_elem_of_singleton..].
  - apply (InventoryContract.inventory_inv_does (InventoryContract.CStarter i item qty) d); [apply Hf|]. simpl. rewrite check_run by done.
    unfold InventoryContract.granted. rewrite (Hno item). simpl. rewrite check_run; [done|]. unfold Inventory.MAX_HOLDING_QTY, Inventory.STATE_CEILING in *. split_and!; [done|done|lia..].
  - apply Hw.
  - intros Hj Hd. destruct (decide (j = i)) as [->|Hne]; [|apply (holdings_same j d); [done|by apply Ho|]; apply (fo_live p d Hf); tauto].
    exists t. intros x q. change (starter_of (configured_starter env t) d') with (starter_of (configured_starter env t) d). rewrite Es. simpl.
    rewrite lookup_insert_Some. rewrite (Hno x). naive_solver.
  - intros Hj. destruct (decide (j = i)) as [->|Hne]; [destruct Hj as [Hj|Hj]; [tauto|]; by apply Hw in Hj|].
    apply (holdings_same j d); [done|by apply Ho|]. apply (fo_none p d Hf). tauto.
Qed.

Lemma deliver_follows m s :
  followed [] (db s) → NoDup (omap created_id m) → (∀ e, e ∈ m → ∀ i, created_id e = Some i ∨ deleted_id e = Some i → canonical i) →
  ∃ s', deliver m s = (s', Ok ()) ∧ followed m (db s').
Proof.
  intros Hf Hnd Hcan. apply (st_each_run handle (fun p s => followed p (db s)) [] m s Hf). simpl. intros p e r x -> Hp.
  pose proof (Hcan e ltac:(apply elem_of_app; right; by left)) as Hc. destruct e as [i u n c|i u]; simpl in Hc; simpl handle.
  - assert (Hnew : i ∉ omap created_id p).
    { rewrite omap_app in Hnd. apply NoDup_app in Hnd as (_ & Hnot & _). intros Hi. apply (Hnot i Hi). by left. }
    destruct (InventoryContract.starter_decided env quiet answers i x) as (s1 & E & _ & Hs); [apply Hp|by apply Hc; left|done|by apply (fo_none p _ Hp); left|].
    exists s1. split; [done|]. rewrite Hs. apply follow_created; [done|by apply Hc; left|done].
  - destruct (InventoryContract.wipe_run env quiet answers i x) as (s1 & E & _ & Hs); [by apply Hc; right|].
    exists s1. split; [done|]. rewrite Hs. apply follow_deleted; [done|by apply Hc; right].
Qed.

End Follow.

(** Ann creates two characters and deletes the first; the deletion is delivered first. *)
Module FollowExample.
#[local] Existing Instance plain_uuid.

Definition ann : string := "0a0a0a0a-0000-0000-0000-000000000001".
Definition id1 : string := "33333333-0000-0000-0000-000000000001".
Definition id2 : string := "33333333-0000-0000-0000-000000000002".

Definition causes : list CharactersContract.Cause :=
  [CharactersContract.CCreate id1 ann "Ada" "novice" 5 10; CharactersContract.CCreate id2 ann "Bea" "novice" 6 10; CharactersContract.CDelete id1 ann].

Definition runs (l : list CharactersContract.Cause) (d : Characters.CharDb) : option Characters.CharDb := foldl (fun o c => o ≫= chars_does c) (Some d) l.
Definition told : Characters.CharDb := default empty_chars (runs causes empty_chars).

Lemma runs_history l d0 o : (∀ d, o = Some d → rtc chars_step d0 d) → ∀ d, foldl (fun o c => o ≫= chars_does c) o l = Some d → rtc chars_step d0 d.
Proof.
  revert o. induction l as [|c l IH]; intros o Ho d; [apply Ho|]. simpl. apply IH. intros d1 Hd1. destruct o as [d2|]; [|done].
  eapply rtc_r; [by apply Ho|]. by exists c.
Qed.

Lemma told_runs : rtc chars_step empty_chars told.
Proof.
  apply (runs_history causes empty_chars (Some empty_chars)); [by intros d [= <-]|]. change (runs causes empty_chars = Some told). unfold told.
  assert (Hs : bool_decide (is_Some (runs causes empty_chars)) = true) by (vm_compute; reflexivity).
  apply bool_decide_eq_true in Hs. by destruct (runs causes empty_chars); [|destruct Hs].
Qed.

Definition late : list CharEvent := [Deleted id1 ann; Created id1 ann "Ada" "novice"; Created id2 ann "Bea" "novice"].

Lemma told_events : events told = [Created id1 ann "Ada" "novice"; Created id2 ann "Bea" "novice"; Deleted id1 ann].
Proof. vm_compute. reflexivity. Qed.

(** The configured item does not exist and the quantity is out of range. *)
Definition env : IEnv :=
  Inventory.mkIEnv (mkWorld (fun _ _ d => d) (fun _ => Answers) (fun _ => 7)) (fun _ _ => Ok None) false (fun _ => ("no_such_item", -3)).

Lemma told_ids_fresh : NoDup (omap created_id (events told)).
Proof. rewrite told_events. eapply bool_decide_eq_true_1. vm_compute. reflexivity. Qed.

Lemma told_ids_canonical i : i ∈ omap created_id (events told) → canonical i.
Proof. rewrite told_events. intros Hi. revert i Hi. apply Forall_forall. eapply bool_decide_eq_true_1. vm_compute. reflexivity. Qed.

Lemma late_permutes : late ≡ₚ events told.
Proof. rewrite told_events. apply (Permutation_cons_append [Created id1 ann "Ada" "novice"; Created id2 ann "Bea" "novice"]). Qed.

End FollowExample.
