(* ===== verification/Matches.v ===== *)
(** * Matches: reported results, ratings and the leaderboard

    [modules/match/src/lib.rs], [modules/rating/src/lib.rs] and
    [modules/leaderboard/src/lib.rs].  A reported result is one row under the client's
    report id, and one durable event [match.finished] of the same transaction; the other
    two modules keep projections of those events, each by its own subscription.
    Statements run against what is committed ([Txn]).  The rating capability a report
    reads, and the collation of player ids, are arguments. *)

From Stdlib Require Import Ascii.
From stdpp Require Import sorting.
From S2P Require Import Prelude Text OpsApi Pg Directory Txn.
#[local] Open Scope Z_scope.

(** The event [match.finished]. *)
Record Finished := mkFinished { match_id : string; winner : string; loser : string }.

#[global] Instance Finished_eq_dec : EqDecision Finished.
Proof. solve_decision. Defined.

Module Match.
Definition MAX_REPORT_ID_BYTES : nat := 128.
Definition MAX_PARTICIPANT_BYTES : nat := 128.
Definition REPORT_ID_CONFLICT : string := "ReportId already used for a different match".
Definition RATING_UNAVAILABLE : string := "rating service unavailable".

Definition validate_report_id (report_id : string) : result Error unit :=
  if str_is_empty (trim report_id) then Err (mkError Invalid "ReportId must be a non-empty idempotency key") else
  if (MAX_REPORT_ID_BYTES <? String.length report_id)%nat then Err (mkError Invalid "ReportId exceeds the 128-byte limit") else Ok ().

Definition validate_participant (field participant : string) : result Error unit :=
  if str_is_empty participant then Err (mkError Invalid (field +:+ " must be non-empty")) else
  if (MAX_PARTICIPANT_BYTES <? String.length participant)%nat then Err (mkError Invalid (field +:+ " exceeds the 128-byte limit")) else Ok ().

Definition validate_new_participants (w l : string) : result Error unit :=
  _ ← validate_participant "Winner" w;
  _ ← validate_participant "Loser" l;
  if bool_decide (w = l) then Err (mkError Invalid "Winner and Loser must be different") else Ok ().

Record Row := mkRow { report_id : string; r_winner : string; r_loser : string; at_ : Z }.

#[global] Instance Row_eq_dec : EqDecision Row.
Proof. solve_decision. Defined.

Record MatchDb := mkMatchDb { matches : gmap string Row; events : list Finished }.

Definition empty_matches : MatchDb := mkMatchDb ∅ [].

Abbreviation Sql := (ST MatchDb SqlError).

(** The row under a report id, of which there is one at most. *)
Definition row_under (rid : string) (d : MatchDb) : option (string * Row) :=
  List.find (fun kv => bool_decide (report_id (snd kv) = rid)) (map_to_list (matches d)).

Definition insert_tx (now : Z) (fresh rid w l : string) : Sql (option string) :=
  bind_text [rid; w; l];;
  d ← gets id;
  match row_under rid d with
  | Some _ => mret None
  | None =>
      if bool_decide (is_Some (matches d !! fresh)) then fail UniqueViolation else
      modify (fun d => mkMatchDb (<[fresh := mkRow rid w l now]> (matches d)) (events d));; mret (Some fresh)
  end.

(** [existing_report] on the pool and [existing_report_tx] on the transaction. *)
Definition existing_report (rid : string) : Sql (option (string * string)) :=
  bind_text [rid];; gets (fun d => (fun kv => (r_winner (snd kv), r_loser (snd kv))) <$> row_under rid d).

Definition duplicate_result (existing : string * string) (w l : string) : result Error unit :=
  if bool_decide (fst existing = w) && bool_decide (snd existing = l) then Ok () else Err (mkError Conflict REPORT_ID_CONFLICT).

Record MEnv := mkMEnv { world : World MatchDb; fresh : nat → string; rating : nat → string → result Error Z }.

Section Service.
Variable env : MEnv.
Abbreviation M := (ST (Task MatchDb)).

Definition internal (_ : SqlError) : Error := internal_error.
Definition read {A} (m : Sql A) : M Error A := reading (world env) internal_error internal m.
Definition commit {A} (m : nat → Sql A) : M Error A := committing (world env) internal_error (fun t => st_map_err internal (m t)).

(** Whatever goes wrong with the rating is unavailable. *)
Definition read_mmr (player : string) : M Error Z :=
  away (world env) (fun t => map_err (fun _ => mkError Unavailable RATING_UNAVAILABLE) (rating env t player)).

(** The row and its event. *)
Definition report_writes (rid w l : string) (t : nat) : Sql (option string) :=
  inserted ← insert_tx (now_at (world env) t) (fresh env t) rid w l;
  match inserted with
  | None => mret None
  | Some mid => modify (fun d => mkMatchDb (matches d) (events d ++ [mkFinished mid w l]));; mret (Some mid)
  end.

Definition report (rid w l : string) : M Error unit :=
  lift (validate_report_id rid);;
  existing ← read (existing_report rid);
  match existing with
  | Some e => lift (duplicate_result e w l)
  | None =>
      lift (validate_new_participants w l);;
      _ ← read_mmr w;
      _ ← read_mmr l;
      in_tx (
        inserted ← commit (report_writes rid w l);
        match inserted with
        | Some _ => mret ()
        | None =>
            existing ← read (existing_report rid);
            e ← lift (ok_or existing (mkError Internal "conflicting ReportId row disappeared"));
            read (mret ());;
            lift (duplicate_result e w l)
        end)
  end.
End Service.
End Match.

(** The ratings projection. *)
Module Rating.
Definition DEFAULT_MMR : Z := 1000.
Definition WIN_DELTA : Z := 15.
Definition LOSS_DELTA : Z := 15.

Abbreviation RatingDb := (gmap string Z).
Abbreviation Sql := (ST RatingDb SqlError).

(** [integer] arithmetic: out of range is an error. *)
Definition int4 (z : Z) : Sql Z := if (i32_min <=? z) && (z <=? i32_max) then mret z else fail OtherSqlError.

Definition upsert_delta (player : string) (delta : Z) : Sql unit :=
  bind_text [player];;
  d ← gets id;
  m ← int4 (match d !! player with Some m => m + delta | None => DEFAULT_MMR + delta end);
  modify (insert player m).

Definition apply_result (w l : string) : Sql unit :=
  upsert_delta w WIN_DELTA;;
  upsert_delta l (- LOSS_DELTA).

(** [MmrReader::mmr]. *)
Definition mmr (player : string) : Sql Z :=
  bind_text [player];; gets (fun d => default DEFAULT_MMR (d !! player)).

(** The handler of [match.finished]. *)
Definition rate_finished (e : Finished) : Sql unit := apply_result (winner e) (loser e).
End Rating.

(** The win tally. *)
Module Leaderboard.
Abbreviation ScoreDb := (gmap string Z).
Abbreviation Sql := (ST ScoreDb SqlError).

Definition record_win (player : string) : Sql unit :=
  bind_text [player];;
  d ← gets id;
  n ← bigint_add (default 0 (d !! player)) 1;
  modify (insert player n).

Definition tally_finished (e : Finished) : Sql unit := record_win (winner e).

Section Top.
Context (collate : string → string → bool).

(** [ORDER BY wins DESC, player ASC]. *)
Definition ranks (a b : string * Z) : Prop := snd b < snd a ∨ (snd a = snd b ∧ collate (fst a) (fst b) = true).

#[global] Instance ranks_dec : RelDecision ranks.
Proof. intros a b. unfold ranks. apply _. Defined.

Definition TOP_LIMIT : nat := 100.

Definition top_scores : Sql (list (string * Z)) := gets (fun d => take TOP_LIMIT (merge_sort ranks (map_to_list d))).
End Top.
End Leaderboard.
