(* ===== verification/MatchesContract.v ===== *)
(** * MatchesContract: reports are recorded once, and the standings follow them

    A report, among those of others and whatever is retried, is recorded once under its
    id, with one event; an acknowledgement means it is there.  Ratings and leaderboard,
    after the events have been delivered, are what the table of matches says. *)

From Stdlib Require Import Ascii.
From stdpp Require Import sorting.
From S2P Require Import Prelude Text OpsApi Pg Directory Txn Matches.
#[local] Open Scope Z_scope.

Section Reports.
Import Match.

Inductive Cause := CReport (id rid w l : string) (now : Z).

(** What a report may say; a text column holds no NUL. *)
Definition report_fits (rid w l : string) : Prop :=
  validate_report_id rid = Ok () ∧ validate_new_participants w l = Ok () ∧ existsb has_nul [rid; w; l] = false.

#[global] Instance report_fits_dec rid w l : Decision (report_fits rid w l).
Proof. unfold report_fits. apply _. Defined.

Definition matches_does (c : Cause) (d : MatchDb) : option MatchDb :=
  match c with
  | CReport id rid w l now =>
      check (matches d !! id = None ∧ row_under rid d = None ∧ report_fits rid w l);;
      Some (mkMatchDb (<[id := mkRow rid w l now]> (matches d)) (events d ++ [mkFinished id w l]))
  end.

Definition finished_of (r : string * Row) : Finished := mkFinished (fst r) (r_winner (snd r)) (r_loser (snd r)).

(** One row per report id, and one event per row. *)
Record matches_inv (d : MatchDb) : Prop := {
  mi_rows : map_Forall (fun _ r => report_fits (report_id r) (r_winner r) (r_loser r)) (matches d);
  mi_ids : ∀ i j r r', matches d !! i = Some r → matches d !! j = Some r' → report_id r = report_id r' → i = j;
  mi_events : events d ≡ₚ finished_of <$> map_to_list (matches d);
}.

Lemma row_under_some rid d i r : row_under rid d = Some (i, r) → matches d !! i = Some r ∧ report_id r = rid.
Proof.
  unfold row_under. intros [Hin He]%List.find_some. rewrite <- list_elem_of_In, elem_of_map_to_list in Hin. simpl in He. by apply bool_decide_eq_true in He.
Qed.

Lemma row_under_none rid d : row_under rid d = None ↔ ∀ i r, matches d !! i = Some r → report_id r ≠ rid.
Proof.
  split.
  - intros Hn i r Hr He. assert (Hin : In (i, r) (map_to_list (matches d))) by (apply list_elem_of_In; by apply elem_of_map_to_list).
    pose proof (List.find_none _ _ Hn (i, r) Hin) as Hx. simpl in Hx. by apply bool_decide_eq_false in Hx.
  - intros Hall. destruct (row_under rid d) as [[i r]|] eqn:E; [|done]. apply row_under_some in E as [Hr He]. by destruct (Hall i r).
Qed.

Lemma matches_inv_does c d d' : matches_inv d → matches_does c d = Some d' → matches_inv d'.
Proof.
  intros Hd. destruct c as [id rid w l now]. simpl. rewrite check_some. intros [(Hid & Hr & Hf) [= <-]]. rewrite row_under_none in Hr.
  constructor; simpl.
  - by apply map_Forall_insert_2, Hd.
  - intros i j x y. rewrite !lookup_insert_Some. intros [[<- <-]|[_ Hx]] [[<- <-]|[_ Hy]] E; simpl in E; [done|..].
    + by destruct (Hr j y Hy).
    + by destruct (Hr i x Hx).
    + by eapply (mi_ids d Hd).
  - rewrite map_to_list_insert, (mi_events d Hd) by done. simpl. by rewrite <- Permutation_cons_append.
Qed.

#[global] Instance matches_causes : Causes MatchDb Cause := {
  does := matches_does;
  locks_of := fun _ => [];
  sound := matches_inv;
  sound_does := matches_inv_does;
}.

(** The result is on record under the id. *)
Definition recorded (rid w l : string) (d : MatchDb) : Prop := ∃ i r, matches d !! i = Some r ∧ report_id r = rid ∧ r_winner r = w ∧ r_loser r = l.

Section Refine.
Variable env : MEnv.
Variable Q : Cause → Prop.
Hypothesis meanwhile_others : ∀ t L d, rtc (others Q L) d (meanwhile (world env) t L d).

Lemma recorded_does c rid w l d d' : matches_does c d = Some d' → recorded rid w l d → recorded rid w l d'.
Proof.
  destruct c as [id rid' w' l' now]. simpl. rewrite check_some. intros [(Hid & _) [= <-]] (i & r & Hr & He). exists i, r. split; [|done].
  simpl. rewrite lookup_insert_ne; [done|]. intros ->. congruence.
Qed.

Lemma stable_recorded L rid w l : stable Q L (recorded rid w l).
Proof. intros d d' _ Hr (c & _ & E & _). by eapply recorded_does. Qed.

Definition report_command (rid w l : string) (c : Cause) : Prop := ∃ id now, c = CReport id rid w l now.

Lemma existing_ok rid d e : snd (existing_report rid d) = Ok (Some e) → recorded rid (fst e) (snd e) d.
Proof.
  destruct (existing_report rid d) as [d' [x|y]] eqn:E; [|done]. simpl. intros [= ->]. unfold existing_report in E. pg_inv E. injection E as <- E.
  destruct (row_under rid d) as [[i r]|] eqn:Er; [|done]. simpl in E. injection E as <-. apply row_under_some in Er as [Hr He]. by exists i, r.
Qed.

Lemma duplicate_ok e w l : duplicate_result e w l = Ok () → e = (w, l).
Proof. unfold duplicate_result. destruct e. repeat case_bool_decide; simpl in *; naive_solver. Qed.

Lemma report_does rid w l t d d' x :
  validate_report_id rid = Ok () → validate_new_participants w l = Ok () → report_writes env rid w l t d = (d', Ok x) →
  match x with None => d' = d | Some id => does (CReport id rid w l (now_at (world env) t)) d = Some d' ∧ recorded rid w l d' end.
Proof.
  intros Hv Hp. unfold report_writes, insert_tx. intros E. apply st_bind_ok in E as (d1 & y & E1 & E). pg_inv E1.
  destruct (row_under rid d) eqn:Er; [injection E1 as <- <-; by injection E as <- <-|].
  case_bool_decide as Hfr; [done|]. apply st_bind_ok in E1 as (d2 & [] & [= <-] & E1). injection E1 as <- <-.
  apply st_bind_ok in E as (d3 & [] & [= <-] & E). injection E as <- <-. split.
  - simpl. rewrite check_run; [done|]. split_and!; [by apply eq_None_not_Some|done|by split_and!].
  - eexists _, _. split; [apply lookup_insert_eq|done].
Qed.

Lemma tri_duplicate P rid w l e :
  tri Q P (holding [] (recorded rid (fst e) (snd e))) (lift (duplicate_result e w l)) (fun _ s => recorded rid w l (db s)).
Proof.
  intros s s' r _ [_ Hr] [= <- <-]. split; [done|]. intros [] ->%duplicate_ok. done.
Qed.

Lemma tri_report rid w l :
  tri Q (report_command rid w l) (holding [] (fun _ => True)) (report env rid w l) (fun _ s => recorded rid w l (db s)).
Proof.
  unfold report. apply tri_lift_bind. intros [] Hv. apply tri_read_bind; [done|apply stable_true|]. intros [e|] d _ _ E.
  { exists (recorded rid (fst e) (snd e)). split; [by apply existing_ok|]. apply tri_duplicate. }
  exists (fun _ => True). split; [done|]. apply tri_lift_bind. intros [] Hp. unfold read_mmr.
  apply tri_away_bind; [done|apply stable_true|]. intros _ _ _. apply tri_away_bind; [done|apply stable_true|]. intros _ _ _.
  apply (tri_in_tx_post _ _ _ _ (fun _ => recorded rid w l)). apply tri_commit_bind; [done|apply stable_true|]. intros t d1 d2 x _ _ Ex%st_map_err_ok%report_does; [|done..].
  destruct x as [id|].
  - destruct Ex as [Ed Hr]. split; [right; eexists; split; [by eexists _, _|exact Ed]|]. exists (recorded rid w l). split; [done|].
    apply tri_ret. by intros s [_ Hs].
  - split; [by left|]. exists (fun _ => True). split; [done|]. apply tri_read_bind; [done|apply stable_true|]. intros e d3 _ _ Ee.
    destruct e as [e|]; [exists (recorded rid (fst e) (snd e)); split; [by apply existing_ok|]|exists (fun _ => True); split; [done|]; apply tri_lift_bind; by intros].
    apply tri_lift_bind. intros e' [= <-]. eapply tri_bind; [|intros; apply tri_duplicate].
    eapply tri_post; [|eapply tri_read_post with (F' := fun _ => recorded rid (fst e) (snd e)); [done|apply stable_recorded|done]]. done.
Qed.

(** C18: a report, whatever others report at the same time under the same id and
    whichever statement fails or loses its answer, does nothing but record its result, if
    anything; where it is acknowledged, the result is on record under its id and no other
    is; and the events are the recorded matches, one for each.  So a client may retry
    until it is acknowledged and the match counts once. *)
Theorem report_recorded_once rid w l s :
  matches_inv (db s) →
  let '(s', r) := report env rid w l s in
  rtc (own Q (report_command rid w l)) (db s) (db s') ∧
  events (db s') ≡ₚ finished_of <$> map_to_list (matches (db s')) ∧
  (r = Ok () → ∀ w' l', recorded rid w' l' (db s') ↔ w' = w ∧ l' = l).
Proof.
  intros Hd. destruct (report env rid w l s) as [s' r] eqn:E.
  destruct (tri_report rid w l s s' r Hd) as [Hr Hp]; [split; [set_solver|done]|done|].
  assert (Hd' : matches_inv (db s')) by exact (own_sound _ _ _ _ Hr Hd). split_and!; [done|apply Hd'|].
  intros ->. specialize (Hp () eq_refl) as Hrec. intros w' l'. split; [|by intros [-> ->]].
  destruct Hrec as (i & x & Hx & Hi & <- & <-). intros (j & y & Hy & Hj & <- & <-).
  assert (i = j) as <- by (eapply (mi_ids _ Hd'); [exact Hx|exact Hy|congruence]). by simplify_eq.
Qed.
End Refine.
End Reports.

(** ** The standings *)

Section Standings.
Import Match.

(** The matches a player won and lost. *)
Definition won (p : string) (l : list Finished) : Z := Z.of_nat (length (filter (fun e => winner e = p) l)).
Definition lost (p : string) (l : list Finished) : Z := Z.of_nat (length (filter (fun e => loser e = p) l)).
Definition wins (p : string) (d : MatchDb) : Z := Z.of_nat (size (filter (fun kv => r_winner (snd kv) = p) (matches d))).
Definition losses (p : string) (d : MatchDb) : Z := Z.of_nat (size (filter (fun kv => r_loser (snd kv) = p) (matches d))).

Lemma filtered_size (f : Row → string) p (m : gmap string Row) :
  size (filter (fun kv => f (snd kv) = p) m) = length (filter (fun kv => f (snd kv) = p) (map_to_list m)).
Proof.
  rewrite <- length_map_to_list. apply Permutation_length, NoDup_Permutation; [apply NoDup_map_to_list|apply NoDup_filter, NoDup_map_to_list|].
  intros [i r]. rewrite elem_of_map_to_list, map_lookup_filter_Some, list_elem_of_filter, elem_of_map_to_list. simpl. tauto.
Qed.

Lemma won_rows p d m : m ≡ₚ finished_of <$> map_to_list (matches d) → won p m = wins p d ∧ lost p m = losses p d.
Proof.
  intros Hm. unfold won, lost, wins, losses. rewrite Hm, !filtered_size. clear Hm.
  induction (map_to_list (matches d)) as [|r l [IH1 IH2]]; [done|]. cbn [fmap list_fmap]. rewrite !filter_cons. simpl. repeat case_decide; simpl; lia.
Qed.

Lemma won_snoc p l e : won p (l ++ [e]) = won p l + (if decide (winner e = p) then 1 else 0).
Proof. unfold won. rewrite filter_app, length_app, filter_cons. case_decide; simpl; lia. Qed.

Lemma lost_snoc p l e : lost p (l ++ [e]) = lost p l + (if decide (loser e = p) then 1 else 0).
Proof. unfold lost. rewrite filter_app, length_app, filter_cons. case_decide; simpl; lia. Qed.

Lemma won_bound p l : 0 ≤ won p l ≤ Z.of_nat (length l) ∧ 0 ≤ lost p l ≤ Z.of_nat (length l).
Proof. unfold won, lost. pose proof (length_filter (fun e => winner e = p) l). pose proof (length_filter (fun e => loser e = p) l). lia. Qed.

Definition plain (e : Finished) : Prop := has_nul (winner e) = false ∧ has_nul (loser e) = false.

Lemma upsert_run p delta d :
  has_nul p = false → i32_min ≤ default Rating.DEFAULT_MMR (d !! p) + delta ≤ i32_max →
  Rating.upsert_delta p delta d = (<[p := default Rating.DEFAULT_MMR (d !! p) + delta]> d, Ok ()).
Proof.
  intros Hp Hr. unfold Rating.upsert_delta. rewrite (st_bind_run _ _ d d ()) by (unfold bind_text; simpl; by rewrite Hp).
  rewrite (st_bind_run _ _ d d d) by done.
  assert (E : match d !! p with Some m => m + delta | None => Rating.DEFAULT_MMR + delta end = default Rating.DEFAULT_MMR (d !! p) + delta) by by destruct (d !! p).
  rewrite E. rewrite (st_bind_run _ _ d d (default Rating.DEFAULT_MMR (d !! p) + delta)); [done|].
  unfold Rating.int4. by rewrite (proj2 (Z.leb_le _ _)), (proj2 (Z.leb_le _ _)) by lia.
Qed.

(** The ratings after the events of [l]. *)
Definition rated (l : list Finished) (d : gmap string Z) : Prop :=
  ∀ p, default Rating.DEFAULT_MMR (d !! p) = Rating.DEFAULT_MMR + 15 * (won p l - lost p l).

(** As many matches as the column has room for, whoever plays them. *)
Definition MAX_MATCHES : Z := 140000000.

Lemma rated_step l e d :
  plain e → Z.of_nat (length l) < MAX_MATCHES → rated l d → ∃ d', Rating.rate_finished e d = (d', Ok ()) ∧ rated (l ++ [e]) d'.
Proof.
  intros [Hw Hl] Hn Hd. unfold MAX_MATCHES in Hn. unfold Rating.rate_finished, Rating.apply_result, Rating.WIN_DELTA, Rating.LOSS_DELTA.
  set (d1 := <[winner e := default Rating.DEFAULT_MMR (d !! winner e) + 15]> d).
  assert (E1 : default Rating.DEFAULT_MMR (d1 !! loser e) = Rating.DEFAULT_MMR + 15 * (won (loser e) l - lost (loser e) l) + (if decide (winner e = loser e) then 15 else 0)).
  { unfold d1. destruct (decide (winner e = loser e)) as [->|Hne]; [rewrite lookup_insert_eq; simpl; rewrite Hd; lia|rewrite lookup_insert_ne, Hd by done; lia]. }
  pose proof (won_bound (winner e) l). pose proof (won_bound (loser e) l). unfold Rating.DEFAULT_MMR in *.
  rewrite (st_bind_run _ _ d d1 ()) by (apply upsert_run; [done|]; rewrite Hd; unfold Rating.DEFAULT_MMR, i32_min, i32_max; lia).
  eexists. split; [apply upsert_run; [done|]; unfold Rating.DEFAULT_MMR; rewrite E1; unfold i32_min, i32_max; case_decide; lia|].
  intros p. rewrite won_snoc, lost_snoc. unfold Rating.DEFAULT_MMR in *. destruct (decide (loser e = p)) as [<-|Hp].
  - rewrite lookup_insert_eq. simpl. rewrite E1. repeat case_decide; try done; lia.
  - rewrite lookup_insert_ne by done. unfold d1. destruct (decide (winner e = p)) as [<-|Hp'].
    + rewrite lookup_insert_eq. simpl. rewrite Hd. unfold Rating.DEFAULT_MMR. lia.
    + rewrite lookup_insert_ne, Hd by done. unfold Rating.DEFAULT_MMR. lia.
Qed.

(** The tally after the events of [l]. *)
Definition tallied (l : list Finished) (d : gmap string Z) : Prop := ∀ p, d !! p = if decide (won p l = 0) then None else Some (won p l).

Lemma tallied_step l e d :
  plain e → Z.of_nat (length l) < MAX_MATCHES → tallied l d → ∃ d', Leaderboard.tally_finished e d = (d', Ok ()) ∧ tallied (l ++ [e]) d'.
Proof.
  intros [Hw _] Hn Hd. unfold MAX_MATCHES in Hn. pose proof (won_bound (winner e) l) as [Hb _].
  assert (E0 : default 0 (d !! winner e) = won (winner e) l) by (rewrite Hd; case_decide; simpl; lia).
  exists (<[winner e := won (winner e) l + 1]> d). unfold Leaderboard.tally_finished, Leaderboard.record_win. split.
  - rewrite (st_bind_run _ _ d d ()) by (unfold bind_text; simpl; by rewrite Hw). rewrite (st_bind_run _ _ d d d) by done. rewrite E0.
    rewrite (st_bind_run _ _ d d (won (winner e) l + 1)); [done|]. unfold bigint_add, i64_min, i64_max.
    by rewrite (proj2 (Z.leb_le _ _)), (proj2 (Z.leb_le _ _)) by lia.
  - intros p. rewrite won_snoc. destruct (decide (winner e = p)) as [<-|Hp].
    + rewrite lookup_insert_eq, decide_False by lia. done.
    + rewrite lookup_insert_ne, Hd, Z.add_0_r by done. done.
Qed.

(** C31: once the events have been delivered, in any order and each once, the projections
    are what the table of matches says: no delivery fails, a player's rating is the
    starting one and fifteen more for each match won and fewer for each lost, and the
    leaderboard counts the matches won of every player that won any. *)
Theorem standings_follow_matches d m :
  matches_inv d → m ≡ₚ events d → Z.of_nat (length m) ≤ MAX_MATCHES →
  ∃ ratings scores, st_each Rating.rate_finished m ∅ = (ratings, Ok ()) ∧ st_each Leaderboard.tally_finished m ∅ = (scores, Ok ()) ∧
    ∀ p, (has_nul p = false → Rating.mmr p ratings = (ratings, Ok (1000 + 15 * (wins p d - losses p d)))) ∧
         scores !! p = if decide (wins p d = 0) then None else Some (wins p d).
Proof.
  intros Hd Hm Hn. assert (Hrows : m ≡ₚ finished_of <$> map_to_list (matches d)) by by rewrite Hm, (mi_events d Hd).
  assert (Hplain : ∀ q e r, m = q ++ e :: r → plain e ∧ Z.of_nat (length q) < MAX_MATCHES).
  { intros q e r ->. split; [|rewrite length_app in Hn; simpl in Hn; lia].
    assert (He : e ∈ finished_of <$> map_to_list (matches d)) by (rewrite <- Hrows; apply elem_of_app; right; by left).
    apply list_elem_of_fmap in He as ([i x] & -> & Hx%elem_of_map_to_list). apply (mi_rows d Hd) in Hx as (_ & _ & Hx). simpl in Hx.
    rewrite !orb_false_iff in Hx. unfold plain. simpl. tauto. }
  destruct (st_each_run Rating.rate_finished rated [] m ∅) as (ratings & Er & Hr).
  { intros p. rewrite lookup_empty. done. }
  { intros q e r x E Hx. destruct (Hplain q e r E). by apply rated_step. }
  destruct (st_each_run Leaderboard.tally_finished tallied [] m ∅) as (scores & Es & Hs).
  { intros p. rewrite lookup_empty. done. }
  { intros q e r x E Hx. destruct (Hplain q e r E). by apply tallied_step. }
  exists ratings, scores. split_and!; [done|done|]. intros p. destruct (won_rows p d m Hrows) as [Hw Hl]. simpl in Hr, Hs. split.
  - intros Hp. unfold Rating.mmr. rewrite (st_bind_run _ _ ratings ratings ()) by (unfold bind_text; simpl; by rewrite Hp).
    unfold gets. by rewrite Hr, Hw, Hl.
  - by rewrite Hs, Hw.
Qed.
End Standings.

(** Two clients report the same match under one id. *)
Module MatchesExample.
Import Match.

Definition id1 : string := "44444444-0000-0000-0000-000000000001".
Definition id2 : string := "44444444-0000-0000-0000-000000000002".

Definition other (t : nat) (L : list Z) (d : MatchDb) : MatchDb := if Nat.eqb t 3 then default d (does (CReport id2 "r1" "ann" "bob" 4) d) else d.

Lemma other_reports t L d : rtc (others (eq (CReport id2 "r1" "ann" "bob" 4)) L) d (other t L d).
Proof.
  unfold other. destruct (Nat.eqb t 3); [|done]. destruct (does _ d) as [d'|] eqn:E; [|done].
  apply rtc_once. exists (CReport id2 "r1" "ann" "bob" 4). by split_and!.
Qed.

Definition env : MEnv := mkMEnv (mkWorld other (fun _ => Answers) (fun _ => 5)) (fun _ => id1) (fun _ _ => Ok 1000).

Lemma matches_inv_empty : matches_inv empty_matches.
Proof. constructor; [apply map_Forall_empty|intros i j r r' Hr; discriminate Hr|done]. Qed.

(** The second one finds the first on record, and is acknowledged. *)
Lemma report_recorded_once_witness :
  ∃ s' r, report env "r1" "ann" "bob" (mkTask empty_matches 0 []) = (s', r) ∧ r = Ok () ∧ recorded "r1" "ann" "bob" (db s') ∧ length (events (db s')) = 1%nat.
Proof.
  pose proof (report_recorded_once env _ other_reports "r1" "ann" "bob" (mkTask empty_matches 0 []) matches_inv_empty) as Hr.
  assert (Hok : snd (report env "r1" "ann" "bob" (mkTask empty_matches 0 [])) = Ok ()) by (vm_compute; reflexivity).
  assert (Hlen : length (events (db (fst (report env "r1" "ann" "bob" (mkTask empty_matches 0 []))))) = 1%nat) by (vm_compute; reflexivity).
  destruct (report env "r1" "ann" "bob" (mkTask empty_matches 0 [])) as [s' r]. destruct Hr as (_ & _ & Hr).
  exists s', r. split; [reflexivity|]. split; [exact Hok|]. split; [|exact Hlen]. by apply Hr.
Defined.

Definition one_match : MatchDb := mkMatchDb {[id1 := mkRow "r1" "ann" "bob" 5]} [mkFinished id1 "ann" "bob"].

Lemma one_match_inv : matches_inv one_match.
Proof. apply (matches_inv_does (CReport id1 "r1" "ann" "bob" 5) empty_matches); [exact matches_inv_empty|vm_compute; reflexivity]. Qed.

Lemma few_matches : Z.of_nat (length (events one_match)) ≤ MAX_MATCHES.
Proof. vm_compute. discriminate. Qed.

Lemma standings_follow_matches_witness :
  ∃ ratings, st_each Rating.rate_finished [mkFinished id1 "ann" "bob"] ∅ = (ratings, Ok ()) ∧ snd (Rating.mmr "ann" ratings) = Ok 1015 ∧ snd (Rating.mmr "bob" ratings) = Ok 985.
Proof.
  destruct (standings_follow_matches one_match (events one_match) one_match_inv (Permutation_refl _) few_matches) as (ratings & scores & Er & _ & Hall).
  exists ratings. split; [exact Er|]. split.
  - rewrite (proj1 (Hall "ann") eq_refl). vm_compute. reflexivity.
  - rewrite (proj1 (Hall "bob") eq_refl). vm_compute. reflexivity.
Defined.
End MatchesExample.
