(* ===== verification/Config.v ===== *)
(** * Config: the store of settings and the caches that follow it

    [modules/config/src/lib.rs] and the cache of other processes in
    [api/config/rpc/src/lib.rs].  Settings are rows under a namespace and a key; a
    trigger counts every change in one revision and appends its event.  Readers never
    query: each process holds a cache that is replaced by a newer snapshot of the whole
    store.  The limit the server puts on a notification is an argument. *)

From Stdlib Require Import Ascii.
From stdpp Require Import sorting.
From S2P Require Import Prelude Text Pg Txn.
#[local] Open Scope Z_scope.

Record Setting := mkSetting { namespace : string; key : string; value : string }.

Abbreviation CacheKey := (string * string)%type.

Inductive TgOp := Insert | Update | Delete.

#[global] Instance TgOp_eq_dec : EqDecision TgOp.
Proof. solve_decision. Defined.

(** The event [config.changed]. *)
Record Changed := mkChanged { ch_namespace : string; ch_key : string; ch_value : option string; operation : TgOp; ch_revision : Z }.

#[global] Instance Changed_eq_dec : EqDecision Changed.
Proof. solve_decision. Defined.

Record ConfigDb := mkConfigDb { settings : gmap CacheKey string; revision : Z; events : list Changed }.

Definition empty_config : ConfigDb := mkConfigDb ∅ 0 [].

Abbreviation Sql := (ST ConfigDb SqlError).

(** [SubmitError]; an [anyhow::Error] is [Other]. *)
Inductive SubmitError := Conflict | Other.

#[global] Instance SubmitError_eq_dec : EqDecision SubmitError.
Proof. solve_decision. Defined.

Definition valid_ident (s : string) : bool :=
  negb (str_is_empty s) &&
  forallb (fun c => let n := nat_of_ascii c in
    ((97 <=? n) && (n <=? 122) || (48 <=? n) && (n <=? 57) || (n =? 95))%nat) (to_bytes s).

Definition validate_ident (ns k : string) : result SubmitError unit :=
  if negb (valid_ident ns) then Err Other else
  if negb (valid_ident k) then Err Other else Ok ().

Section Statements.
(** Whether the server takes the notification of a change; [pg_notify] refuses a payload
    of 8000 bytes. *)
Variable notify_fits : Changed → bool.

(** The trigger, in the transaction of the write. *)
Definition notify_changed (op : TgOp) (ns k : string) (v : option string) : Sql unit :=
  d ← gets id;
  rev ← bigint_add (revision d) 1;
  let payload := mkChanged ns k v op rev in
  (if notify_fits payload then mret () else fail OtherSqlError);;
  modify (fun d => mkConfigDb (settings d) rev (events d ++ [payload])).

Definition upsert (ns k v : string) : Sql unit :=
  bind_text [ns; k; v];;
  d ← gets id;
  modify (fun d => mkConfigDb (<[(ns, k) := v]> (settings d)) (revision d) (events d));;
  notify_changed (if bool_decide (is_Some (settings d !! (ns, k))) then Update else Insert) ns k (Some v).
End Statements.

(** The rows of the left join, with the revision on each. *)
Definition snapshot_rows (d : ConfigDb) : list (Z * option Setting) :=
  match map_to_list (settings d) with
  | [] => [(revision d, None)]
  | l => (fun kv => (revision d, Some (mkSetting (fst (fst kv)) (snd (fst kv)) (snd kv)))) <$> l
  end.

Definition load_snapshot_from (d : ConfigDb) : Z * list Setting :=
  let rows := snapshot_rows d in
  (default 0 (fst <$> head rows), omap snd rows).

(** ** A process's cache *)

Record CacheState := mkCache { c_revision : Z; c_map : gmap CacheKey string }.

Definition empty_cache : CacheState := mkCache (-1) ∅.

Definition map_of (l : list Setting) : gmap CacheKey string :=
  foldl (fun m st => <[(namespace st, key st) := value st]> m) ∅ l.

(** [Service::apply]. *)
Definition apply (rev : Z) (l : list Setting) (guard : CacheState) : CacheState :=
  let m := map_of l in
  if rev <=? c_revision guard then guard else mkCache rev m.

Definition refresh (d : ConfigDb) (guard : CacheState) : CacheState :=
  let '(rev, l) := load_snapshot_from d in apply rev l guard.

(** [ConfigSnapshot::snapshot], what a peer is sent. *)
Record Snapshot := mkSnapshot { sn_revision : Z; sn_settings : list Setting }.

Definition snapshot (d : ConfigDb) : Snapshot :=
  let '(rev, l) := load_snapshot_from d in
  mkSnapshot rev ((fun s => mkSetting (namespace s) (key s) (value s)) <$> l).

(** [CachedConfig::refresh], once the snapshot has arrived. *)
Definition cached_refresh (sn : Snapshot) (guard : CacheState) : CacheState :=
  let m := map_of (sn_settings sn) in
  if sn_revision sn <=? c_revision guard then guard else mkCache (sn_revision sn) m.

Definition get (ns k : string) (c : CacheState) : option string := c_map c !! (ns, k).
Definition get_string (ns k dflt : string) (c : CacheState) : string := default dflt (get ns k c).
Definition get_bool (ns k : string) (dflt : bool) (c : CacheState) : bool :=
  match get ns k c with
  | Some v => bool_decide (v = "1") || eq_ignore_ascii_case v "true" || eq_ignore_ascii_case v "on"
  | None => dflt
  end.
Definition get_int (ns k : string) (dflt : Z) (c : CacheState) : Z :=
  match get ns k c with Some v => default dflt (parse_i64 v) | None => dflt end.

Definition setting_le (a b : Setting) : Prop :=
  if decide (namespace a = namespace b) then String.le (key a) (key b) else String.le (namespace a) (namespace b).

#[global] Instance setting_le_dec : RelDecision setting_le.
Proof. intros a b. unfold setting_le. case_decide; apply _. Defined.

Definition cached_snapshot (c : CacheState) : Z * list Setting :=
  (c_revision c, merge_sort setting_le ((fun kv => mkSetting (fst (fst kv)) (snd (fst kv)) (snd kv)) <$> map_to_list (c_map c))).

Definition all (c : CacheState) : list Setting := snd (cached_snapshot c).

(** ** The editor *)

Abbreviation Params := (gmap string string).

Definition param (values : Params) (k : string) : string := default "" (values !! k).

Definition field_name (ns k : string) : string := ns +:+ ":" +:+ k.

(** The settings whose field was changed. *)
Fixpoint plan_fields (values : Params) (l : list Setting) : result SubmitError (list Setting) :=
  match l with
  | [] => Ok []
  | s :: l =>
      match values !! field_name (namespace s) (key s) with
      | Some v =>
          if bool_decide (v = value s) then plan_fields values l else
          _ ← validate_ident (namespace s) (key s);
          rest ← plan_fields values l;
          Ok (mkSetting (namespace s) (key s) v :: rest)
      | None => plan_fields values l
      end
  end.

Definition plan_new (values : Params) : result SubmitError (list Setting) :=
  let ns := param values "_new_namespace" in
  let k := param values "_new_key" in
  let v := param values "_new_value" in
  if negb (str_is_empty ns) && negb (str_is_empty k) && negb (str_is_empty v)
  then _ ← validate_ident ns k; Ok [mkSetting ns k v]
  else Ok [].

Definition expected_revision (values : Params) : result SubmitError Z :=
  ok_or (values !! "_expected_revision" ≫= parse_i64) Conflict.

(** The lock [apply_edit] takes on the whole table, which every writer waits for. *)
Definition SETTINGS_TABLE : Z := 0.

Record CEnv := mkCEnv { world : World ConfigDb; notify_fits_ : Changed → bool }.

Section Service.
Variable env : CEnv.
Abbreviation M := (ST (Task ConfigDb) SubmitError).

Definition commit (m : Sql unit) : M unit := committing (world env) Other (fun _ => st_map_err (fun _ => Other) m).

Definition set (ns k v : string) : M unit :=
  lift (validate_ident ns k);; commit (upsert (notify_fits_ env) ns k v).

Definition set_tx (s : Setting) : Sql unit :=
  match validate_ident (namespace s) (key s) with
  | Err _ => fail OtherSqlError
  | Ok _ => upsert (notify_fits_ env) (namespace s) (key s) (value s)
  end.

(** [apply_edit], against the cache of the process that handles the form. *)
Definition apply_edit (cache : CacheState) (values : Params) : M unit :=
  expected ← lift (expected_revision values);
  changed ← lift (plan_fields values (all cache));
  added ← lift (plan_new values);
  let planned := changed ++ added in
  in_tx (
    locking (world env) Other SETTINGS_TABLE;;
    current ← reading (world env) Other (fun _ => Other) (gets revision);
    if bool_decide (current ≠ expected) then fail Conflict else
    commit (st_each set_tx planned)).
End Service.
