(* ===== verification/ConfigContract.v ===== *)
(** * ConfigContract: caches are past states of the store, and edits apply to what was shown

    Writers of every kind change the settings, in transactions of several rows; processes
    come and go, and the snapshots they load may overtake each other.  A cache is always
    the whole store at one of its revisions and never goes back; a load that began after
    a commit shows it.  An edit of the form applies to exactly the settings its revision
    names, or is refused. *)

From Stdlib Require Import Ascii.
From stdpp Require Import sorting.
From S2P Require Import Prelude Text Pg Txn Config.
#[local] Open Scope Z_scope.

(** What a transaction does to one row; [Rename] is an [UPDATE] of the key by hand. *)
Inductive RowOp := Put (ns k v : string) | Drop (ns k : string) | Rename (ns k ns' k' v : string).

Definition changed_to (m : gmap CacheKey string) (op : TgOp) (ns k : string) (v : option string) (d : ConfigDb) : option ConfigDb :=
  check (revision d + 1 ≤ i64_max);;
  Some (mkConfigDb m (revision d + 1) (events d ++ [mkChanged ns k v op (revision d + 1)])).

Definition row_does (o : RowOp) (d : ConfigDb) : option ConfigDb :=
  match o with
  | Put ns k v => changed_to (<[(ns, k) := v]> (settings d)) (if bool_decide (is_Some (settings d !! (ns, k))) then Update else Insert) ns k (Some v) d
  | Drop ns k => check (is_Some (settings d !! (ns, k)));; changed_to (delete (ns, k) (settings d)) Delete ns k None d
  | Rename ns k ns' k' v =>
      check (is_Some (settings d !! (ns, k)) ∧ settings d !! (ns', k') = None);;
      changed_to (<[(ns', k') := v]> (delete (ns, k) (settings d))) Update ns' k' (Some v) d
  end.

Fixpoint rows_do (l : list RowOp) (d : ConfigDb) : option ConfigDb :=
  match l with [] => Some d | o :: l => row_does o d ≫= rows_do l end.

(** A transaction that writes. *)
Inductive Cause := CTxn (o : RowOp) (l : list RowOp).

Definition config_does (c : Cause) (d : ConfigDb) : option ConfigDb :=
  match c with CTxn o l => rows_do (o :: l) d end.

(** The events are numbered by the revisions. *)
Record config_inv (d : ConfigDb) : Prop := {
  ci_count : revision d = Z.of_nat (length (events d));
  ci_numbers : ∀ i e, events d !! i = Some e → ch_revision e = Z.of_nat i + 1;
}.

Lemma changed_to_some m op ns k v d d' :
  changed_to m op ns k v d = Some d' →
  settings d' = m ∧ revision d' = revision d + 1 ∧ events d' = events d ++ [mkChanged ns k v op (revision d + 1)].
Proof. unfold changed_to. rewrite check_some. by intros [_ [= <-]]. Qed.

Lemma row_does_event o d d' :
  row_does o d = Some d' → revision d' = revision d + 1 ∧ ∃ e, events d' = events d ++ [e] ∧ ch_revision e = revision d + 1.
Proof.
  destruct o; simpl; rewrite ?check_some; [intros H|intros [_ H]..]; apply changed_to_some in H as (_ & Hr & He); eauto.
Qed.

Lemma row_inv o d d' : config_inv d → row_does o d = Some d' → config_inv d'.
Proof.
  intros [Hc Hn] (Hr & e & He & Hre)%row_does_event. constructor.
  - rewrite Hr, He, length_app, Hc. simpl. lia.
  - intros i x. rewrite He. intros [Hx|[Hi Hx]]%lookup_app_Some; [by apply Hn|].
    apply list_lookup_singleton_Some in Hx as [Hi0 <-]. rewrite Hre, Hc. lia.
Qed.

Lemma rows_inv l d d' : config_inv d → rows_do l d = Some d' → config_inv d'.
Proof.
  revert d. induction l as [|o l IH]; intros d Hd; simpl; [by intros [= <-]|].
  intros (d1 & E1 & E2)%bind_Some. eapply IH; [|exact E2]. by eapply row_inv.
Qed.

Lemma rows_rise l d d' : rows_do l d = Some d' → revision d ≤ revision d'.
Proof.
  revert d. induction l as [|o l IH]; intros d; simpl; [by intros [= <-]|].
  intros (d1 & [E1 _]%row_does_event & E2%IH)%bind_Some. lia.
Qed.

Lemma config_rises c d d' : config_does c d = Some d' → revision d < revision d'.
Proof. destruct c as [o l]. simpl. intros (d1 & [E1 _]%row_does_event & E2%rows_rise)%bind_Some. lia. Qed.

Lemma config_inv_does c d d' : config_inv d → config_does c d = Some d' → config_inv d'.
Proof. destruct c. apply rows_inv. Qed.

#[global] Instance config_causes : Causes ConfigDb Cause := {
  does := config_does;
  locks_of := fun _ => [SETTINGS_TABLE];
  sound := config_inv;
  sound_does := config_inv_does;
}.

(** ** The event log rebuilds the store *)

Definition replay1 (m : gmap CacheKey string) (e : Changed) : gmap CacheKey string :=
  match ch_value e with Some v => <[(ch_namespace e, ch_key e) := v]> m | None => delete (ch_namespace e, ch_key e) m end.

Definition replay (l : list Changed) : gmap CacheKey string := foldl replay1 ∅ l.

Definition renames (o : RowOp) : bool := match o with Rename _ _ _ _ _ => true | _ => false end.

Lemma row_replay o d d' : renames o = false → row_does o d = Some d' → settings d = replay (events d) → settings d' = replay (events d').
Proof.
  intros Ho. unfold replay. destruct o; [| |done]; simpl; rewrite ?check_some; [intros H|intros [_ H]];
    apply changed_to_some in H as (Hs & _ & He); rewrite Hs, He, foldl_app; simpl; unfold replay1; simpl; by intros ->.
Qed.

Lemma rows_replay l d d' : forallb (fun o => negb (renames o)) l = true → rows_do l d = Some d' → settings d = replay (events d) → settings d' = replay (events d').
Proof.
  revert d. induction l as [|o l IH]; intros d; simpl; [by intros _ [= <-]|].
  rewrite andb_true_iff, negb_true_iff. intros [Ho Hl] (d1 & E1 & E2)%bind_Some Hd. eapply IH; [done|exact E2|]. by eapply row_replay.
Qed.

(** A change of a key by hand is logged as an update of the new key alone, so whoever
    follows the log keeps the old one. *)
Theorem rename_leaves_the_old_key :
  ∃ d, rows_do [Put "game" "speed" "1"; Rename "game" "speed" "game" "pace" "1"] empty_config = Some d ∧
    settings d !! ("game", "speed") = None ∧ replay (events d) !! ("game", "speed") = Some "1".
Proof. eexists. split; [vm_compute; reflexivity|]. by vm_compute. Qed.

(** ** A snapshot is the store *)

Definition as_setting (kv : CacheKey * string) : Setting := mkSetting (fst (fst kv)) (snd (fst kv)) (snd kv).

Lemma map_of_list (l : list (CacheKey * string)) : NoDup l.*1 → map_of (as_setting <$> l) = list_to_map l.
Proof.
  intros Hl. rewrite (list_to_map_proper l (reverse l)) by (done || symmetry; apply reverse_Permutation). clear Hl.
  unfold map_of. induction l as [|[[ns k] v] l IH] using rev_ind; [done|].
  rewrite fmap_app, foldl_app, IH, reverse_app. done.
Qed.

Lemma omap_rows rev (l : list (CacheKey * string)) : omap snd ((fun kv => (rev : Z, Some (as_setting kv))) <$> l) = as_setting <$> l.
Proof. induction l as [|kv l IH]; [done|]. simpl. by f_equal. Qed.

Lemma load_snapshot_spec d :
  fst (load_snapshot_from d) = revision d ∧ map_of (snd (load_snapshot_from d)) = settings d.
Proof.
  unfold load_snapshot_from, snapshot_rows. destruct (map_to_list (settings d)) as [|kv l] eqn:E.
  - apply map_to_list_empty_iff in E. by rewrite E.
  - split; [done|]. cbn [snd]. rewrite <- E. etrans; [apply (f_equal map_of), omap_rows|].
    rewrite map_of_list by apply NoDup_fst_map_to_list. apply list_to_map_to_list.
Qed.

(** What is on its way to a cache: the rows of its own query, or a peer's answer. *)
Inductive Cargo := Loaded (rev : Z) (l : list Setting) | Sent (sn : Snapshot).

Definition install (x : Cargo) (c : CacheState) : CacheState :=
  match x with Loaded rev l => apply rev l c | Sent sn => cached_refresh sn c end.

Definition load (peer : bool) (d : ConfigDb) : Cargo :=
  if peer then Sent (snapshot d) else Loaded (fst (load_snapshot_from d)) (snd (load_snapshot_from d)).

(** The cargo is the store [d]. *)
Definition carries (x : Cargo) (d : ConfigDb) : Prop :=
  ∀ c, install x c = if revision d <=? c_revision c then c else mkCache (revision d) (settings d).

Lemma load_carries peer d : carries (load peer d) d.
Proof.
  intros c. destruct (load_snapshot_spec d) as [Hr Hm]. unfold load, snapshot. destruct (load_snapshot_from d) as [rev l] eqn:E.
  simpl in Hr, Hm. subst rev. destruct peer; simpl; unfold apply, cached_refresh; simpl; [|by rewrite Hm].
  replace ((fun s => mkSetting (namespace s) (key s) (value s)) <$> l) with l; [by rewrite Hm|].
  symmetry. clear. induction l as [|[] l IH]; [done|]. simpl. by f_equal.
Qed.

(** ** The system of caches *)

Record Sys := mkSys { store : ConfigDb; caches : gmap nat CacheState; flight : gmap nat (nat * Cargo) }.

Inductive Act :=
| Commit (c : Cause)
| Boot (i : nat)
| Load (f i : nat) (peer : bool)
| Lose (f : nat)
| Arrive (f : nat).

Definition sys_does (a : Act) (s : Sys) : option Sys :=
  match a with
  | Commit c => d ← config_does c (store s); Some (mkSys d (caches s) (flight s))
  | Boot i => Some (mkSys (store s) (<[i := empty_cache]> (caches s)) (filter (fun kv => fst (snd kv) ≠ i) (flight s)))
  | Load f i peer =>
      check (is_Some (caches s !! i) ∧ flight s !! f = None);;
      Some (mkSys (store s) (caches s) (<[f := (i, load peer (store s))]> (flight s)))
  | Lose f => Some (mkSys (store s) (caches s) (delete f (flight s)))
  | Arrive f =>
      '(i, x) ← flight s !! f;
      c ← caches s !! i;
      Some (mkSys (store s) (<[i := install x c]> (caches s)) (delete f (flight s)))
  end.

Fixpoint run (l : list Act) (s : Sys) : option Sys :=
  match l with [] => Some s | a :: l => sys_does a s ≫= run l end.

Lemma sys_run_app l l' s : run (l ++ l') s = run l s ≫= run l'.
Proof. revert s. induction l as [|a l IH]; intros s; [done|]. simpl. destruct (sys_does a s); [apply IH|done]. Qed.

Lemma sys_run_snoc l a s s' : run (l ++ [a]) s = Some s' ↔ ∃ s1, run l s = Some s1 ∧ sys_does a s1 = Some s'.
Proof.
  rewrite sys_run_app, bind_Some. split; intros (s1 & E1 & E2); exists s1; (split; [done|]).
  - by apply bind_Some in E2 as (s2 & E2 & [= <-]).
  - simpl. by rewrite E2.
Qed.

Lemma store_step a s s' : sys_does a s = Some s' → (store s' = store s ∧ ∀ c, a ≠ Commit c) ∨ ∃ c, a = Commit c ∧ config_does c (store s) = Some (store s').
Proof.
  destruct a; simpl; rewrite ?check_some.
  - intros (d & E & [= <-])%bind_Some. right. eauto.
  - intros [= <-]. by left.
  - intros [_ [= <-]]. by left.
  - intros [= <-]. by left.
  - intros ([i x] & _ & (c & _ & [= <-])%bind_Some)%bind_Some. by left.
Qed.

(** Revisions only rise, and name what was committed. *)
Lemma store_run l s s' : run l s = Some s' → revision (store s) ≤ revision (store s') ∧ (revision (store s) = revision (store s') → store s' = store s).
Proof.
  revert s'. induction l as [|a l IH] using rev_ind; intros s'; [by intros [= <-]|].
  intros (s1 & [Hle Heq]%IH & E)%sys_run_snoc. apply store_step in E as [[-> _]|(c & _ & E%config_rises)]; [done|]. split; lia.
Qed.

(** The store was [d] at a moment of the run. *)
Definition was (l : list Act) (s0 : Sys) (d : ConfigDb) : Prop := ∃ l1 l2 s1, l = l1 ++ l2 ∧ run l1 s0 = Some s1 ∧ store s1 = d.

Lemma was_more l l' s0 d : was l s0 d → was (l ++ l') s0 d.
Proof. intros (l1 & l2 & s1 & -> & E & Hd). exists l1, (l2 ++ l'), s1. by rewrite app_assoc. Qed.

Lemma was_now l s0 s : run l s0 = Some s → was l s0 (store s).
Proof. intros E. exists l, [], s. by rewrite app_nil_r. Qed.

Lemma was_before l s0 s d : run l s0 = Some s → was l s0 d → revision d ≤ revision (store s) ∧ (revision d = revision (store s) → d = store s).
Proof.
  intros E (l1 & l2 & s1 & -> & E1 & <-). rewrite sys_run_app, E1 in E. destruct (store_run _ _ _ E) as [Hle Heq]. split; [done|].
  intros H. symmetry. by apply Heq.
Qed.

(** Two moments at the same revision had the same store. *)
Lemma was_unique l s0 d d' : was l s0 d → was l s0 d' → revision d = revision d' → d = d'.
Proof.
  intros (l1 & l2 & s1 & E & E1 & <-) (l1' & l2' & s1' & E' & E1' & <-) Hr. rewrite E in E'.
  destruct (app_eq_inv _ _ _ _ E') as [(k & -> & _)|(k & -> & _)].
  - rewrite sys_run_app, E1' in E1. destruct (store_run _ _ _ E1) as [_ H]. by apply H.
  - rewrite sys_run_app, E1 in E1'. destruct (store_run _ _ _ E1') as [_ H]. symmetry. by apply H.
Qed.

Definition sys_start (d : ConfigDb) : Sys := mkSys d ∅ ∅.

Definition held (l : list Act) (s0 : Sys) (c : CacheState) : Prop :=
  c = empty_cache ∨ ∃ d, was l s0 d ∧ c = mkCache (revision d) (settings d).

Record sys_inv (l : list Act) (s0 s : Sys) : Prop := {
  si_caches : ∀ i c, caches s !! i = Some c → held l s0 c;
  si_flight : ∀ f i x, flight s !! f = Some (i, x) → ∃ d, was l s0 d ∧ carries x d;
}.

Lemma sys_inv_more l l' s0 s : sys_inv l s0 s → sys_inv (l ++ l') s0 s.
Proof.
  intros [Hc Hf]. constructor.
  - intros i c Hi. destruct (Hc i c Hi) as [->|(d & Hd & ->)]; [by left|]. right. exists d. split; [by apply was_more|done].
  - intros f i x Hx. destruct (Hf f i x Hx) as (d & Hd & H). exists d. split; [by apply was_more|done].
Qed.

Lemma sys_inv_step l a s0 s s' : run l s0 = Some s → sys_inv l s0 s → sys_does a s = Some s' → sys_inv (l ++ [a]) s0 s'.
Proof.
  intros Hr Hs%(sys_inv_more _ [a]) E. pose proof (was_more _ [a] _ _ (was_now _ _ _ Hr)) as Hnow. destruct a; simpl in E.
  - apply bind_Some in E as (d & _ & [= <-]). by destruct Hs.
  - injection E as <-. constructor; simpl.
    + intros j c. rewrite lookup_insert_Some. intros [[_ <-]|[_ Hc]]; [by left|]. by apply (si_caches _ _ _ Hs j).
    + intros f j x [Hx _]%map_lookup_filter_Some. by apply (si_flight _ _ _ Hs f j).
  - apply check_some in E as [_ [= <-]]. constructor; simpl; [apply Hs|].
    intros g j x. rewrite lookup_insert_Some. intros [[_ [= _ <-]]|[_ Hx]]; [|by apply (si_flight _ _ _ Hs g j)].
    exists (store s). split; [done|apply load_carries].
  - injection E as <-. constructor; simpl; [apply Hs|]. intros g j x [_ Hx]%lookup_delete_Some. by apply (si_flight _ _ _ Hs g j).
  - apply bind_Some in E as ([i x] & Hx & (c & Hc & [= <-])%bind_Some). constructor; simpl.
    + intros j c'. rewrite lookup_insert_Some. intros [[_ <-]|[_ Hc']]; [|by apply (si_caches _ _ _ Hs j)].
      destruct (si_flight _ _ _ Hs f i x Hx) as (d & Hd & ->). case_match; [by apply (si_caches _ _ _ Hs i)|]. right. eauto.
    + intros g j y [_ Hy]%lookup_delete_Some. by apply (si_flight _ _ _ Hs g j).
Qed.

Lemma sys_inv_run l d0 s : run l (sys_start d0) = Some s → sys_inv l (sys_start d0) s.
Proof.
  revert s. induction l as [|a l IH] using rev_ind; intros s.
  - intros [= <-]. constructor; simpl; intros *; by rewrite lookup_empty.
  - intros (s1 & E1 & E)%sys_run_snoc. eapply sys_inv_step; [exact E1|by apply IH|exact E].
Qed.

(** C19: whatever is written by whom, and however the snapshots of booting and running
    processes overtake each other or are lost, a cache that was filled is the whole store
    as it was committed at one moment; it is never ahead of the store, is the store when
    their revisions agree, and two processes at one revision read the same. *)
Theorem caches_coherent l d0 s i c :
  config_inv d0 → run l (sys_start d0) = Some s → caches s !! i = Some c →
  (c = empty_cache ∨ ∃ d, was l (sys_start d0) d ∧ c_revision c = revision d ∧ ∀ ns k, get ns k c = settings d !! (ns, k)) ∧
  c_revision c ≤ revision (store s) ∧
  (c_revision c = revision (store s) → c_map c = settings (store s)) ∧
  (∀ j c', caches s !! j = Some c' → c_revision c' = c_revision c → c' = c).
Proof.
  intros Hd0 Hr Hc. pose proof (sys_inv_run _ _ _ Hr) as Hs.
  assert (Hpos : ∀ d, was l (sys_start d0) d → 0 ≤ revision d).
  { intros d (l1 & l2 & s1 & -> & E1 & <-). apply store_run in E1 as [H _]. simpl in H. pose proof (ci_count _ Hd0). lia. }
  pose proof (Hpos _ (was_now _ _ _ Hr)) as Hnow.
  destruct (si_caches _ _ _ Hs i c Hc) as [->|(d & Hd & ->)]; simpl.
  - split_and!; [by left|lia|lia|]. intros j c' Hc' E. destruct (si_caches _ _ _ Hs j c' Hc') as [->|(d & Hd & ->)]; [done|].
    simpl in E. pose proof (Hpos _ Hd). lia.
  - destruct (was_before _ _ _ _ Hr Hd) as [Hle Heq]. split_and!; [right; by exists d|done|by intros H%Heq; rewrite H|].
    intros j c' Hc' E. destruct (si_caches _ _ _ Hs j c' Hc') as [->|(d' & Hd' & ->)]; simpl in E; [pose proof (Hpos _ Hd); lia|].
    by rewrite (was_unique _ _ _ _ Hd' Hd E).
Qed.

Lemma install_newer x c : install x c = c ∨ c_revision c < c_revision (install x c).
Proof. destruct x as [rev l|sn]; simpl; unfold apply, cached_refresh; case_match eqn:E; (by left) || (right; simpl; lia). Qed.

(** While process [i] lives, its cache only gets newer. *)
Lemma cache_kept l s s' i c :
  run l s = Some s' → Boot i ∉ l → caches s !! i = Some c →
  ∃ c', caches s' !! i = Some c' ∧ (c' = c ∨ c_revision c < c_revision c').
Proof.
  revert s'. induction l as [|a l IH] using rev_ind; intros s'; [intros [= <-] _ Hc; eauto|].
  intros (s1 & E1 & E)%sys_run_snoc Hb Hc. destruct (IH s1 E1) as (c1 & Hc1 & Hle); [set_solver|done|]. destruct a; simpl in E.
  - apply bind_Some in E as (d & _ & [= <-]). eauto.
  - injection E as <-. simpl. exists c1. rewrite lookup_insert_ne; [done|set_solver].
  - apply check_some in E as [_ [= <-]]. eauto.
  - injection E as <-. eauto.
  - apply bind_Some in E as ([j x] & _ & (c2 & Hc2 & [= <-])%bind_Some). simpl. destruct (decide (j = i)) as [->|Hne].
    + rewrite lookup_insert_eq. rewrite Hc1 in Hc2. injection Hc2 as <-. eexists; split; [done|]. destruct (install_newer x c1) as [->|H]; [done|]. right. destruct Hle as [->|]; lia.
    + rewrite lookup_insert_ne by done. eauto.
Qed.

(** A snapshot stays on its way until it arrives or is lost. *)
Lemma flight_kept l s s' f i x :
  run l s = Some s' → Boot i ∉ l → Lose f ∉ l → Arrive f ∉ l → flight s !! f = Some (i, x) → flight s' !! f = Some (i, x).
Proof.
  revert s'. induction l as [|a l IH] using rev_ind; intros s'; [by intros [= <-]|].
  intros (s1 & E1 & E)%sys_run_snoc Hb Hl Ha Hx.
  assert (Hx1 : flight s1 !! f = Some (i, x)) by (apply IH; [done|set_solver..|done]). destruct a; simpl in E.
  - by apply bind_Some in E as (d & _ & [= <-]).
  - injection E as <-. simpl. apply map_lookup_filter_Some. split; [done|]. simpl. set_solver.
  - apply check_some in E as [[_ Hn] [= <-]]. simpl. rewrite lookup_insert_ne; [done|]. intros ->. congruence.
  - injection E as <-. simpl. rewrite lookup_delete_ne; [done|set_solver].
  - apply bind_Some in E as ([j y] & _ & (c2 & Hc2 & [= <-])%bind_Some). simpl. rewrite lookup_delete_ne; [done|set_solver].
Qed.


(** ** Edits *)

Definition skey (s : Setting) : CacheKey := (namespace s, key s).

Definition put (m : gmap CacheKey string) (s : Setting) : gmap CacheKey string := <[skey s := value s]> m.

Definition puts (l : list Setting) : list RowOp := (fun s => Put (namespace s) (key s) (value s)) <$> l.

Lemma puts_settings l d d' : rows_do (puts l) d = Some d' → settings d' = foldl put (settings d) l.
Proof.
  revert d. induction l as [|s l IH]; intros d; simpl; [by intros [= <-]|].
  intros (d1 & (Hm & _)%changed_to_some & E2%IH)%bind_Some. by rewrite E2, Hm.
Qed.

(** What the form says of a setting that was shown with [old]. *)
Definition field_value (values : Params) (k : CacheKey) (old : string) : string :=
  default old (values !! field_name (fst k) (snd k)).

Definition new_setting (values : Params) : option Setting :=
  let ns := param values "_new_namespace" in
  let k := param values "_new_key" in
  let v := param values "_new_value" in
  if str_is_empty ns || str_is_empty k || str_is_empty v then None else Some (mkSetting ns k v).

(** The settings the form asks for, given those it was made from. *)
Definition edited (values : Params) (m : gmap CacheKey string) : gmap CacheKey string :=
  let shown := map_imap (fun k old => Some (field_value values k old)) m in
  match new_setting values with Some s => put shown s | None => shown end.

Lemma plan_fields_spec values l p m k :
  plan_fields values l = Ok p → NoDup (skey <$> l) → (∀ s, s ∈ l → m !! skey s = Some (value s)) →
  foldl put m p !! k = if decide (k ∈ skey <$> l) then field_value values k <$> m !! k else m !! k.
Proof.
  revert p m. induction l as [|s l IH]; intros p m; cbn [plan_fields fmap list_fmap]; [by intros [= <-]|].
  intros Hp [Hns Hnd]%NoDup_cons Hm. pose proof (Hm s ltac:(by left)) as Hs.
  assert (Hl : ∀ s', s' ∈ l → m !! skey s' = Some (value s')) by (intros s' ?; apply Hm; by right).
  assert (Hcase : (plan_fields values l = Ok p ∧ field_value values (skey s) (value s) = value s) ∨
    ∃ v p', plan_fields values l = Ok p' ∧ p = mkSetting (namespace s) (key s) v :: p' ∧ field_value values (skey s) (value s) = v).
  { unfold field_value. simpl. destruct (values !! field_name (namespace s) (key s)) as [v|]; [|by left].
    case_bool_decide as Ev; [subst v; by left|]. right. apply bind_ok in Hp as ([] & _ & (p' & Ep & [= <-])%bind_ok). eauto. }
  destruct Hcase as [[Ep Ev]|(v & p' & Ep & -> & Ev)].
  - rewrite (IH p m Ep Hnd Hl). destruct (decide (k = skey s)) as [->|Hne].
    + rewrite decide_False, decide_True by (done || by left). rewrite Hs. simpl. by rewrite Ev.
    + by rewrite (decide_ext (k ∈ skey <$> l) (k ∈ skey s :: (skey <$> l))) by set_solver.
  - cbn [foldl]. change (put m (mkSetting (namespace s) (key s) v)) with (<[skey s := v]> m). rewrite (IH p' _ Ep Hnd).
    + destruct (decide (k = skey s)) as [->|Hne].
      * rewrite decide_False, decide_True by (done || by left). rewrite lookup_insert_eq, Hs. simpl. by rewrite Ev.
      * rewrite lookup_insert_ne by done. by rewrite (decide_ext (k ∈ skey <$> l) (k ∈ skey s :: (skey <$> l))) by set_solver.
    + intros s' Hs'. rewrite lookup_insert_ne; [by apply Hl|]. intros E. apply Hns. rewrite E. by apply list_elem_of_fmap_2.
Qed.

Lemma plan_new_spec values p m : plan_new values = Ok p → foldl put m p = match new_setting values with Some s => put m s | None => m end.
Proof.
  unfold plan_new, new_setting. destruct (str_is_empty _), (str_is_empty _), (str_is_empty _); simpl; try (by intros [= <-]).
  by intros ([] & _ & [= <-])%bind_ok.
Qed.

Lemma all_settings c : all c ≡ₚ as_setting <$> map_to_list (c_map c).
Proof. apply merge_sort_Permutation. Qed.

Lemma plan_spec values c p q :
  plan_fields values (all c) = Ok p → plan_new values = Ok q → foldl put (c_map c) (p ++ q) = edited values (c_map c).
Proof.
  intros Hp Hq. rewrite foldl_app, (plan_new_spec _ _ _ Hq). unfold edited.
  assert (E : foldl put (c_map c) p = map_imap (fun k old => Some (field_value values k old)) (c_map c)); [|by rewrite E].
  assert (Hkeys : skey <$> all c ≡ₚ (map_to_list (c_map c)).*1).
  { rewrite all_settings, <- list_fmap_compose. erewrite list_fmap_ext; [done|]. by intros _ [[ns k] v] _. }
  apply map_eq. intros k. rewrite map_lookup_imap, (plan_fields_spec _ _ _ _ k Hp).
  - case_decide as Hk; [by destruct (c_map c !! k)|]. destruct (c_map c !! k) as [v|] eqn:Ek; [|done]. destruct Hk.
    rewrite Hkeys. apply list_elem_of_fmap. exists (k, v). split; [done|]. by apply elem_of_map_to_list.
  - rewrite Hkeys. apply NoDup_fst_map_to_list.
  - intros s. rewrite all_settings. intros ([[ns k'] v] & -> & Hv%elem_of_map_to_list)%list_elem_of_fmap. done.
Qed.

Section Edits.
Variable env : CEnv.
Variable Q : Cause → Prop.
Hypothesis meanwhile_others : ∀ t L d, rtc (others Q L) d (meanwhile (world env) t L d).

(** What the edit of a form may do. *)
Definition edit_command (cache : CacheState) (values : Params) (c : Cause) : Prop :=
  ∃ p q o l, plan_fields values (all cache) = Ok p ∧ plan_new values = Ok q ∧ puts (p ++ q) = o :: l ∧ c = CTxn o l.

(** The cache is not ahead of the store, and is the store at its revision. *)
Definition follows (cache : CacheState) (d : ConfigDb) : Prop :=
  c_revision cache ≤ revision d ∧ (c_revision cache = revision d → c_map cache = settings d).

Lemma stable_follows cache : stable Q [] (follows cache).
Proof. intros d d' _ [Hle _] (c & _ & E%config_rises & _). split; lia. Qed.

(** Under the lock on the table nothing changes. *)
Lemma stable_locked F : stable Q [SETTINGS_TABLE] F.
Proof. intros d d' _ _ (c & _ & _ & Hc). destruct (Forall_inv Hc). by apply list_elem_of_singleton. Qed.

Lemma set_tx_does s d d' : set_tx env s d = (d', Ok ()) → row_does (Put (namespace s) (key s) (value s)) d = Some d'.
Proof.
  unfold set_tx. destruct (validate_ident _ _); [|done]. unfold upsert. intros E. pg_inv E.
  apply st_bind_ok in E as (d1 & rev & Eb & E). unfold bigint_add in Eb. destruct (_ && _) eqn:Er in Eb; [|done]. injection Eb as <- <-.
  apply andb_true_iff in Er as [_ Hb%Z.leb_le]. apply st_bind_ok in E as (d1 & [] & Ef & E).
  destruct (notify_fits_ env _); [|done]. injection Ef as <-. simpl. unfold changed_to. rewrite check_run by done. by injection E as <-.
Qed.

Lemma sets_do l d d' : st_each (set_tx env) l d = (d', Ok ()) → rows_do (puts l) d = Some d'.
Proof.
  revert d. induction l as [|s l IH]; intros d; simpl; [by intros [= <-]|].
  intros (d1 & [] & E1%set_tx_does & E2%IH)%st_bind_ok. simpl in E1. by rewrite E1.
Qed.

Lemma commit_no_conflict m s s' : commit env m s ≠ (s', Err Conflict).
Proof.
  unfold commit, committing, st_map_err. destruct (m (seen (world env) s)) as [d' [a|e]]; simpl; by destruct (fate _ _).
Qed.

(** A refusal comes before the writes. *)
Lemma refused_writes_nothing cache values s s' :
  apply_edit env cache values s = (s', Err Conflict) → rtc (others Q []) (db s) (db s').
Proof.
  unfold apply_edit. intros [(e & [= <- _] & _)|(s1 & ex & [= <- _] & E)]%st_bind_inv; [done|].
  apply st_bind_inv in E as [(e & [= <- _] & _)|(s1 & p & [= <- _] & E)]; [done|].
  apply st_bind_inv in E as [(e & [= <- _] & _)|(s1 & q & [= <- _] & E)]; [done|].
  unfold in_tx in E. match type of E with context [?m s] => destruct (m s) as [s1 x] eqn:E1 end. injection E as <- ->. simpl.
  assert (Hseen : ∀ s, rtc (others Q []) (db s) (seen (world env) s)) by (intros s0; apply (others_fewer _ Q meanwhile_others [] (locks s0)); [set_solver|apply meanwhile_others]).
  apply st_bind_inv in E1 as [(e & E1 & _)|(s2 & [] & E1 & E)].
  { unfold locking in E1. destruct (fate _ _); injection E1 as <- _ || done; apply Hseen. }
  assert (H2 : rtc (others Q []) (db s) (db s2)) by (unfold locking in E1; destruct (fate _ _); [injection E1 as <-; apply Hseen|done..]).
  etrans; [exact H2|]. apply st_bind_inv in E as [(e & [= <- _] & _)|(s3 & cur & [= <- _] & E)]; [apply Hseen|].
  case_bool_decide; [injection E as <-; apply Hseen|]. by apply commit_no_conflict in E.
Qed.

Lemma tri_edit cache values :
  expected_revision values = Ok (c_revision cache) →
  tri Q (edit_command cache values) (holding [] (follows cache)) (apply_edit env cache values) (fun _ s => settings (db s) = edited values (c_map cache)).
Proof.
  intros Hexp. unfold apply_edit. apply tri_lift_bind. intros ex Hex. rewrite Hexp in Hex. injection Hex as <-.
  apply tri_lift_bind. intros p Hp. apply tri_lift_bind. intros q Hq.
  apply (tri_in_tx_post _ _ _ _ (fun _ d => settings d = edited values (c_map cache))).
  eapply tri_bind; [apply tri_locking; [done|apply stable_follows]|]. intros [].
  apply tri_read_bind; [done|apply stable_locked|]. intros cur d Hd [_ Heq] [= <-].
  case_bool_decide as Hcur; [by exists (fun _ => True); split; [|apply tri_fail]|].
  exists (fun d => settings d = c_map cache). split; [symmetry; by apply Heq|]. unfold commit.
  eapply tri_post; [|apply (tri_commit_post _ _ meanwhile_others _ _ _ (fun _ d => settings d = edited values (c_map cache))); [apply stable_locked|]].
  { by intros [] s [_ Hs]. }
  intros _ d1 d2 [] _ Hm E%st_map_err_ok%sets_do. split.
  - destruct (puts (p ++ q)) as [|o l] eqn:El; [left; by injection E as <-|]. right. exists (CTxn o l). split; [|done]. by exists p, q, o, l.
  - rewrite (puts_settings _ _ _ E), Hm. by apply plan_spec.
Qed.

End Edits.

Module ConfigExample.
(** Nobody else writes. *)
Definition quiet_env : CEnv := mkCEnv (mkWorld (fun _ _ d => d) (fun _ => Answers) (fun _ => 0)) (fun _ => true).

Lemma config_inv_empty : config_inv empty_config.
Proof. constructor; [done|]. by intros [|i] e. Qed.

(** Two processes fill their caches while a setting is written. *)
Definition two_fill : list Act :=
  [Boot 0; Boot 1; Load 0 0 false; Commit (CTxn (Put "game" "speed" "1") []); Load 1 1 true; Arrive 1; Arrive 0].

Lemma two_fill_runs : (s ← run two_fill (sys_start empty_config); c ← caches s !! 1%nat; Some (c_revision c)) = Some 1.
Proof. vm_compute. reflexivity. Qed.

Lemma caches_coherent_witness :
  ∃ s c, run two_fill (sys_start empty_config) = Some s ∧ caches s !! 1%nat = Some c ∧ c_revision c = 1 ∧ c_revision c ≤ revision (store s).
Proof.
  pose proof two_fill_runs as (s & Hs & (c & Hc & [= E])%bind_Some)%bind_Some. exists s, c. split_and!; [done|done|done|].
  apply (caches_coherent two_fill empty_config s 1 c config_inv_empty Hs Hc).
Defined.

(** A refresh that is overtaken by a write and by another refresh. *)
Definition overtaken : list Act := [Commit (CTxn (Put "game" "speed" "2") []); Load 3 0 false; Arrive 3].

Lemma overtaken_runs :
  (s ← run two_fill (sys_start empty_config); c ← caches s !! 0%nat; run (Load 2 0 true :: overtaken ++ [Arrive 2]) s ≫= fun _ => Some (c_revision c)) = Some 0.
Proof. vm_compute. reflexivity. Qed.


(** The store after two writes, and the cache of a process that has seen the first. *)
Definition twice : ConfigDb := default empty_config (rows_do [Put "game" "speed" "1"; Put "game" "speed" "2"] empty_config).
Definition once : CacheState := mkCache 1 {[ ("game", "speed") := "1" ]}.
Definition current : CacheState := mkCache 2 (settings twice).

Lemma twice_inv : config_inv twice.
Proof. apply (rows_inv [Put "game" "speed" "1"; Put "game" "speed" "2"] empty_config); [apply config_inv_empty|done]. Qed.

(** The form of the second revision, in which the value is set back. *)
Definition set_back : Params := {[ "_expected_revision" := "2"; "game:speed" := "1" ]}.


(** The edit is planned against the cache of the process that handles it, and its
    revision is compared with the store alone: a process that is behind takes the form
    of one that is not, and drops the change while it reports success. *)
Theorem stale_process_drops_edit :
  follows once twice ∧
  let res := apply_edit quiet_env once set_back (mkTask twice 0 []) in
  snd res = Ok () ∧ settings (db (fst res)) !! ("game", "speed") = Some "2" ∧ edited set_back (settings twice) !! ("game", "speed") = Some "1".
Proof. split; [split; [done|intros E; by vm_compute in E]|]. split_and!; vm_compute; reflexivity. Qed.
End ConfigExample.
